(* ===== verification/_CoqProject ===== *)
-Q . S2P
Prelude.v
Handle.v
Bitwise.v
HashMap.v
HashChains.v
HashMapProofs.v
HashMapLookup.v
HashMapSpec.v
HashMapClient.v
HashMapCorrect.v
HashSet.v
HashSetProofs.v
HashSetCorrect.v
Sort.v
Ranges.v
SortProofs.v
HeapProofs.v
SortCorrect.v
Array.v
ArrayProofs.v
ArrayCorrect.v
PQueue.v
PQueueCorrect.v
Queue.v
QueueCorrect.v
Search.v
Utf.v
UtfCorrect.v
ConvertCorrect.v
InlineSet.v
InlineSetCorrect.v
AddrSet.v
AddrSetCorrect.v
History.v
HistoryCorrect.v
InlineList.v
Sync.v
SyncCorrect.v
Buffer.v
BufferCorrect.v
Stream.v
StreamCorrect.v
FdMap.v
FdMapCorrect.v
IOHandleCorrect.v
MemStream.v
MemStreamCorrect.v
PeekStream.v
PeekStreamCorrect.v
BufferedStream.v
BufferedStreamCorrect.v
Pipe.v
Str.v
StrIter.v
StrBuf.v
StrCorrect.v
StrIterCorrect.v
StrFindCorrect.v
StrBufCorrect.v
StrNumber.v
StrTextCorrect.v
StrStream.v
Text.v
TextReadCorrect.v
TextInputCorrect.v
TextOutputCorrect.v
Regex.v
RegexMatchCorrect.v
RegexParseCorrect.v
RegexCorrect.v
Production.v
Earley.v
ProductionCorrect.v
EarleyStateCorrect.v
EarleyCorrect.v
EarleyTextCorrect.v
InfoNode.v
InfoNodeCorrect.v
InfoTreeCorrect.v
EarleyTheorems.v
