(* ===== verification/Prelude.v ===== *)
(** * Verification of the Storm run-time's core components

    Storm is a language platform: a compiler, code generators, garbage collectors and a
    thread library in C++, and libraries on top of them.  This development models the parts
    of its run-time that carry algorithms of their own: the container library ([Core/]), the
    strings and string buffers ([Core/Str.cpp], [Core/StrBuf.cpp]), the text conversions
    ([Core/Utf.h], [Core/Convert.cpp]), buffers, streams, text streams and pipes
    ([Core/Io/]), the bit tricks ([Utils/Bitwise.h]), the lists and the synchronization
    primitives of the thread library ([OS/]), the way the SMM collector tells hash tables
    that objects have moved ([Gc/SMM/]), and the part of the compiler that parses text by
    the grammars of its languages ([Compiler/Syntax/]): regular expressions, productions,
    the Earley parser and the syntax trees an editor keeps.

    ** How the parts interact

    Containers are implemented once, untyped, over a [Handle] that holds the functions of the
    element type; typed C++ templates call the untyped operations.  [Map] and [Set] are hash
    tables whose keys may be hashed by address: they keep a [GcWatch], an interface of the
    collector, and rehash when it says that a key may have moved.  The SMM collector
    implements the interface with [AddrWatch], which asks a [History] of moved address
    ranges, kept in [AddrSet] bitmaps.  [Array] and [PQueue] use the routines of [Sort];
    [Map] and [AddrSet] use [Bitwise].

    Streams pass [Buffer]s, handles of arrays the collector manages, to each other: who reads
    gives a buffer to fill and gets one back, which may be another handle of the same array.
    The primitive types, strings and the buffered streams are written once over the interfaces
    [IStream] and [OStream]; memory streams, streams with lookahead, buffered and metered
    output implement them, and a pipe joins the two ends across threads with [Lock] and
    [Event], which are built on [Sema] and the [InlineList] of waiting threads.

    A string is an array of UTF-16 units with a terminating zero; it remembers how many
    surrogate pairs it has.  Iterators step over codepoints.  Operations that make text
    ([escape], [removeIndentation], output of numbers) use [StrBuf], which grows an array,
    indents lines and aligns what is added; [Convert] makes the UTF-8 of strings in streams.
    Text streams read and write characters and lines in UTF-8 or UTF-16 over any stream.

    A grammar is a set of productions, whose tokens are regular expressions or rules;
    iterators step through a production, with its repetition.  The Earley parser matches the
    tokens against a string and builds a set of states for each position, where a state
    points to the states it was made from.  Its table of rules is a finite map whose
    insertions move the elements, so that a reference into it may become stale ([moves],
    [moved]).  From the states of a match [infoTree] makes nodes in a store, from the last
    one to the first; [fullInfoTree] of the front end parses, repairs what did not match and
    adds the rest of the text.  The editor then changes leaves and asks nodes for their
    positions, which are cached in packed integers together with the number of errors.

    ** Conventions

    [Prelude] (this file): results of calls ([outcome]: a value, one of the exceptions the
    code throws, a fault for what C++ leaves undefined or asserts, or fuel that ran out),
    total correctness of a call ([returns]), arrays indexed by machine integers, wrapping of
    machine integers, loops, and the lemmas and tactics shared by the files.  Integers are
    [Z] with the wrap-around of their type written out; [nat] of the source is 32 bits,
    [size_t] and [Word] 64 bits.  A loop that is not structural has fuel; the theorems show
    that the fuel given by the definition is enough: the length of the table for hash chains,
    the length of the range for sorting loops, the number of nodes for linked lists, the
    length of the string for conversions and searches, the free bytes for the loops of
    streams, the number of bits for bitmaps, 24 for the digits of a number of 64 bits, the
    number of changes of the history for retried reads, the length of the pattern and of the
    text for regular expressions, the number of possible states of a set for a step of the
    Earley parser ([setFuel]), a bound on the ranks of states for following their pointers
    ([depth]), the number of tokens of the grammar for the search of empty rules
    ([emptyFuel]), and the size of the store for paths in a tree of nodes.

    Where arrays are shared, as the data of buffers, a call is a computation of the monad [io]
    of [Buffer], from a heap of arrays to an [outcome] with the heap after it; a buffer is the
    address of its array, and copies of a buffer share it.  Total correctness there is [runs];
    [frame] says which arrays a call may have changed.  What threads do at the same time is a
    transition system: an executable [step] for one critical section, read or write, and
    schedules of steps in any order.

    ** Files

    - [Handle]: [Core/Handle.h], [Core/GcWatch.h], [Core/GcArray.h], the check of
      [Core/Hash.cpp].  The classes [CopyHandle], [KeyHandle] and [WatchLaws] say what the
      containers rely on.
    - [Bitwise]: [Utils/Bitwise.h]; powers of two, rounding, trailing zeros and
      bit counts against their arithmetic meaning.
    - [HashMap] (Module [MapBase]): [Core/Map.h], [Core/Map.cpp].  [HashChains] has the
      invariant of the collision chains, [HashMapProofs] and [HashMapLookup] that the
      operations keep it, [HashMapSpec] the table as a finite map, [HashMapClient] an
      interface of a map for clients, [HashMapCorrect] the theorems: every sequence of
      operations refines a finite map, even if the collector moves all keys in between.
    - [HashSet] (Module [SetBase]), [HashSetProofs], [HashSetCorrect]: [Core/Set.h],
      [Core/Set.cpp], in the same way.
    - [Sort] (Module [Sort]): [Core/Sort.h], [Core/Sort.cpp]; [Ranges], [SortProofs],
      [HeapProofs], [SortCorrect] show that heaps, insertion sort and the quicksort with its
      explicit stack sort, and touch nothing else.
    - [Array] (Module [ArrayBase]), [ArrayProofs], [ArrayCorrect]: [Core/Array.h],
      [Core/Array.cpp]; refinement of lists, with bounds errors.
    - [PQueue], [PQueueCorrect]: [Core/PQueue.h], [Core/PQueue.cpp]; refinement of a bag.
    - [Queue], [QueueCorrect]: [Core/Queue.h], [Core/Queue.cpp]; refinement of a FIFO list by
      a growing ring buffer.
    - [Search]: [Core/Search.cpp]; binary search at four integer types.
    - [Utf] (Modules [utf16], [utf8], [Convert]): [Core/Utf.h], [Core/Convert.cpp].
      [UtfCorrect]: codepoints round trip through both encodings.  [ConvertCorrect]: strings
      round trip, malformed input is converted without reading or writing out of bounds, and
      the variants of the conversion agree.
    - [InlineSet], [InlineSetCorrect]: [OS/InlineSet.h].  The definitions keep every state
      of the memory between two writes; an iteration in any of them sees all elements.
    - [InlineList]: [OS/InlineList.h]; the queue of threads that wait.
    - [Sync] (Modules [Sema], [Event]), [SyncCorrect]: [OS/Sync.h], [OS/Sync.cpp].  A lock
      excludes, wake-ups of a semaphore are not lost and threads make progress; those of an
      event are lost in one interleaving.
    - [FdMap] (Modules [FdMap], [IOHandle]): [OS/FdMap.h] and the POSIX variant of
      [OS/IOHandle.cpp].  [FdMapCorrect]: the table is a bag of file descriptors.
      [IOHandleCorrect]: the requests that are woken, detached and closed.
    - [AddrSet], [AddrSetCorrect]: [Gc/SMM/AddrSet.h]; the bitmap is exact up to its
      resolution, and intersection and resizing lose nothing.
    - [History], [HistoryCorrect]: [Gc/SMM/History.h], [Gc/SMM/History.cpp].  The collector
      makes a sequence of changes; a thread reads without a lock at moments a schedule
      chooses.  A watch never misses a move of any of its addresses unless the range of a
      bitmap overflows.
    - [Buffer], [BufferCorrect]: [Core/Io/Buffer.h], [Core/Io/Buffer.cpp].
    - [Stream] (Modules [Istream], [Ostream]), [StreamCorrect]: [Core/Io/Stream.h],
      [Core/Io/Stream.cpp].  The classes [IStream] and [OStream] are the interfaces,
      [IStreamLaws] and [OStreamLaws] their documented behaviour; the primitive types round
      trip through any two implementations.
    - [MemStream] (with [LazyMemIStream]), [PeekStream], [BufferedStream] (with
      [MeterOStream]), and the files [...Correct] that show they obey the laws:
      [Core/Io/MemStream.cpp], [Core/Io/LazyMemStream.cpp], [Core/Io/PeekStream.cpp],
      [Core/Io/BufferedOStream.cpp], [Core/Io/MeterStream.cpp].
    - [Pipe]: [Core/Io/Pipe.cpp]; the ring buffer is a bounded queue of bytes
      under any interleaving of the critical sections, whether threads wait for events or
      not.  The events are flags: what is shown of waiting is when the flags are set.
    - [Str] (Modules [Char], [Str]): the functions of [Core/Str.cpp] on one array of units.
      [StrIter] (Modules [Iter], [StrParts]): iterators, parts of strings, searching.
      [StrBuf] (Modules [StrFmt], [StrBuf], [StrText]): [Core/StrBuf.cpp], and the functions
      of [Core/Str.cpp] that use it.  [StrNumber]: [toInt] and the like.  [StrStream]: strings
      in streams, which round trip.
    - [StrCorrect]: order of strings.  [StrIterCorrect]: iterators are positions in the list
      of codepoints ([it]).  [StrFindCorrect]: parts, concatenation and searching, forwards
      and backwards.  [StrBufCorrect]: the invariant [rep] of a buffer and what is added.
      [StrNumber]: decimal and hexadecimal numbers round trip.  [StrTextCorrect]:
      escaping, line ends, trimming.
    - [Text]: [Core/Io/Text.cpp], [Core/Io/Utf8Text.cpp], [Core/Io/Utf16Text.cpp].
      [TextReadCorrect]: the readers of characters over any stream.  [TextInputCorrect]:
      lines and whole texts.  [TextOutputCorrect]: what is written is read back.
    - [Regex] (Module [Regex]): [Compiler/Syntax/Regex.cpp].  [RegexMatchCorrect]: the
      matchers against the languages of patterns.  [RegexParseCorrect]: the parser of
      patterns.  [RegexCorrect]: the two together, and where they go wrong.
    - [Production], [ProductionCorrect]: tokens, productions and their iterators
      ([Compiler/Syntax/Production.cpp]); an iterator walks through the sequences the
      production stands for.
    - [Earley]: [Compiler/Syntax/Earley/], and [fullInfoTree] of
      [Compiler/Syntax/Parser.cpp].  [EarleyStateCorrect]: sets of states, the rules that
      match the empty text, the invariant of the parser.  [EarleyCorrect]: the handlers of a
      state keep it, and a set misses no state.  [EarleyTextCorrect]: texts, derivations,
      and the run of [parse]; the module [Sums] is a grammar all hypotheses hold of.
      [EarleyTheorems]: the theorems about the parser and its trees.
    - [InfoNode]: [Compiler/Syntax/InfoNode.cpp], [Compiler/Syntax/InfoIndent.cpp],
      [Compiler/Syntax/InfoErrors.h], and the making of trees from states (Module
      [InfoTree]).  [InfoNodeCorrect]: packed integers, and stores that hold a tree.
      [InfoTreeCorrect]: the tree of a match.

    ** Behaviour the theorems exclude or exhibit

    Theorems about sizes ask that counts fit their types: at most 2^31 operations on a hash
    table, 2^30 elements in a queue, fewer than 2^32 changes of the history during a run,
    address ranges that end below 2^62, pipes of fewer than 2^31 bytes, texts of at most 2^30
    units in a buffer.  Strings are those of valid codepoints other than zero; indentation and
    fill characters have no line breaks; texts that are read have U+FEFF only as a mark at
    the start, and round trip if they have no carriage returns.  [Event] keeps its wake-ups
    if the two steps of [wait] are not interleaved with others; a pipe, which waits for
    events, may therefore block although the flag of its event is set.  [validate] of strings
    is modelled where strings are read from streams, with [SLOW_DEBUG] as a parameter; the
    other constructors that call it count the pairs themselves.  Where the code goes wrong, a theorem shows the
    case: the copy constructor of [Queue], [pop] of an empty or small [PQueue], [makeHeap]
    of an empty range, [countCollisions], the equality of types with only [<], [inASet] of
    the only element of a set, embedded zeros in converted strings, overflow in
    [binarySearch], address sets whose range overflows so that a watch misses a move, an
    event that is set between the steps of [wait], the end of a pipe, large writes to a memory
    stream, copies of streams with lookahead, lazy memory streams, [count] of concatenated
    strings, exponents in [isFloat], line ends in [toCrLf] and [fromCrLf], [trimWhitespace] of
    blanks, [findLast] of the empty string, numbers that [toInt] accepts, byte order marks and
    carriage returns within a text, and UTF-16 output that is closed without a flush.

    Regular expressions are matched against texts of fewer than 2^32 units, and their
    characters are below U+FFFF.  The theorems about the Earley parser ask for a grammar in
    which no rule derives itself without a token in between ([levels]), tokens that do not
    match the empty text within a repetition, and tables of fewer than 2^32 states.  The
    cases outside of that have theorems as well: a range up to U+FFFF does not end, equality
    of sets of characters overlooks the last one, a parser that is given more productions
    after a parse keeps stale answers about empty rules, states point to themselves in
    cyclic grammars so that [tree] does not end, positions of errors are read from a parser
    without steps, [fullInfoTree] repeats text after a surrogate pair, copied nodes keep the
    lengths they had, and a negative level of indentation is read back as a large one.

    ** Not modelled

    Arguments that point into the container they are given to ([Map], [Set], [Array]: the
    model passes values, and the code may free or overwrite the argument before it copies
    it); moves of objects by the collector within one operation (it moves them between
    operations only); a close of a pipe that overlaps with a read or write; debug output of
    the containers; exceptions thrown by copy constructors of elements; the
    bodies of type-specific functions in a [Handle] (generated code: parameters with laws);
    floating point numbers in strings (the C++ library does the work); serialization of
    objects (it walks object graphs through run-time types); files and sockets (system
    calls); paths ([Core/Io/Url.cpp]: arrays of strings behind protocols that are virtual
    classes over system calls); [tree] of the parsers (it fills objects of types made at run
    time through the offsets of their fields), the texts of error messages, the loading of
    packages into parsers, and the declarations productions are made from (name resolution
    of the compiler); the second parser ([Compiler/Syntax/GLR/]); the collectors themselves,
    thread switching, code generation, the type system and the languages of the compiler,
    user interface and database bindings (object graphs over raw memory, machine code and
    operating system calls); vendored libraries; code written in Storm.  What could be added
    in the same way: [Core/WeakSet.cpp], and the watch of [History] as an
    instance of [WatchLaws] with ordered worlds. *)

From stdpp Require Import base list numbers strings option decidable sorting.
From Stdlib Require Import ZArith Lia.

Declare Scope storm_scope.
Delimit Scope storm_scope with storm.

Open Scope Z_scope.

(** ** Outcomes of a call

    The exceptions of [Core/Exception.h] and of the container headers that the
    modelled code throws.  [Fault] is what the C++ code leaves undefined or
    asserts: an access outside an array, a call through a null pointer, a failed
    [assert].  [OutOfFuel] is a loop that did not finish within the iterations the
    definition allows. *)
Inductive exn :=
  | MapError (msg : string)
  | SetError (msg : string)
  | ArrayError (id count : Z) (msg : option string)
  | QueueError (msg : string)
  | PQueueError (msg : string)
  | IoError (msg : string)
  | StrError (msg : string)
  | SerializationFormatError (msg : string)
  | SizeLimitReached (what : string) (size limit : Z)
  | RegexError (regex : list Z) (msg : string)
  | SyntaxError (msg : string).

Inductive outcome (A : Type) :=
  | Ret (a : A)
  | Throw (e : exn)
  | Fault
  | OutOfFuel.
Arguments Ret {A} a.
Arguments Throw {A} e.
Arguments Fault {A}.
Arguments OutOfFuel {A}.

#[export] Instance outcome_ret : MRet outcome := @Ret.
#[export] Instance outcome_bind : MBind outcome := λ A B f m,
  match m with
  | Ret a => f a
  | Throw e => Throw e
  | Fault => Fault
  | OutOfFuel => OutOfFuel
  end.
#[export] Instance outcome_fmap : FMap outcome := λ A B f m,
  match m with
  | Ret a => Ret (f a)
  | Throw e => Throw e
  | Fault => Fault
  | OutOfFuel => OutOfFuel
  end.

(** [assert] of [Utils/Assert.h]. *)
Definition assert (b : bool) : outcome unit := if b then Ret tt else Fault.

(** Total correctness: the call returns, and its result satisfies [Q]. *)
Definition returns {A} (m : outcome A) (Q : A → Prop) : Prop :=
  match m with Ret a => Q a | _ => False end.

(** ** Arrays indexed by machine integers

    A C++ array is a list; an index is a [Z].  Out of range there is no element,
    and an update does nothing; [aget] and [aset] are the code's reads and writes,
    which fault there. *)
Definition zlen {A} (l : list A) : Z := Z.of_nat (length l).

#[export] Instance list_lookupZ {A} : Lookup Z A (list A) := λ i l,
  if decide (0 ≤ i) then l !! Z.to_nat i else None.
#[export] Instance list_insertZ {A} : Insert Z A (list A) := λ i x l,
  if decide (0 ≤ i) then <[Z.to_nat i := x]> l else l.

Definition aget {A} (l : list A) (i : Z) : outcome A :=
  match l !! i with Some x => Ret x | None => Fault end.
Definition aset {A} (l : list A) (i : Z) (x : A) : outcome (list A) :=
  if decide (0 ≤ i < zlen l) then Ret (<[i := x]> l) else Fault.

(** ** Machine integers

    [nat]/[Nat] is an unsigned 32-bit integer of the source, [Word] and [size_t]
    unsigned 64-bit ones (the 64-bit platforms of [Utils/Platform.h]).  Arithmetic
    wraps. *)
Definition u8 (z : Z) : Z := z `mod` 2 ^ 8.
Definition u16 (z : Z) : Z := z `mod` 2 ^ 16.
Definition u32 (z : Z) : Z := z `mod` 2 ^ 32.
Definition u64 (z : Z) : Z := z `mod` 2 ^ 64.

Definition is_u8 (z : Z) : Prop := 0 ≤ z < 2 ^ 8.
Definition is_u16 (z : Z) : Prop := 0 ≤ z < 2 ^ 16.
Definition is_u32 (z : Z) : Prop := 0 ≤ z < 2 ^ 32.
Definition is_u64 (z : Z) : Prop := 0 ≤ z < 2 ^ 64.

(** ** Loops

    [for (nat j = i; j < i + n; j++) s = f(j, s);] *)
Fixpoint for_loop {S} (n : nat) (i : Z) (f : Z → S → outcome S) (s : S) : outcome S :=
  match n with
  | O => Ret s
  | Datatypes.S n => s' ← f i s; for_loop n (i + 1) f s'
  end.

Create HintDb storm.


(** ** Lemmas on outcomes *)

Section returns.
Context {A B : Type}.
Implicit Types m : outcome A.

Lemma returns_ret (a : A) (Q : A → Prop) : Q a → returns (Ret a) Q.
Proof. done. Qed.

Lemma returns_bind m (f : A → outcome B) (P : A → Prop) (Q : B → Prop) :
  returns m P → (∀ a, P a → returns (f a) Q) → returns (m ≫= f) Q.
Proof. destruct m; simpl; auto; done. Qed.

Lemma returns_mono m (P Q : A → Prop) :
  returns m P → (∀ a, P a → Q a) → returns m Q.
Proof. destruct m; simpl; auto. Qed.

Lemma returns_exists m (Q : A → Prop) :
  returns m Q ↔ ∃ a, m = Ret a ∧ Q a.
Proof. destruct m; simpl; split; intros H; eauto; try done; destruct H as (?&?&?); by simplify_eq. Qed.

Lemma returns_assert b (f : unit → outcome B) (Q : B → Prop) :
  b = true → returns (f tt) Q → returns (assert b ≫= f) Q.
Proof. by intros ->. Qed.

Lemma fmap_Ret (f : A → B) m b : f <$> m = Ret b ↔ ∃ a, m = Ret a ∧ b = f a.
Proof. destruct m; simpl; split; intros H; [simplify_eq; eauto|destruct H as (?&?&?); by simplify_eq|..]; try done; by destruct H as (?&?&?). Qed.

(** The invariant rule of [for_loop]: the loop returns and the invariant holds at
    its end. *)
Lemma returns_for_loop (I : Z → A → Prop) n i (f : Z → A → outcome A) s :
  I i s →
  (∀ j s, i ≤ j < i + Z.of_nat n → I j s → returns (f j s) (I (j + 1))) →
  returns (for_loop n i f s) (I (i + Z.of_nat n)).
Proof.
  revert i s. induction n as [|n IH]; intros i s Hi Hf.
  { replace (i + Z.of_nat 0) with i by lia. done. }
  cbn [for_loop]. specialize (Hf i s ltac:(lia) Hi) as Hs.
  destruct (f i s) as [s'| | |] eqn:E; try done. cbn.
  replace (i + Z.of_nat (S n)) with (i + 1 + Z.of_nat n) by lia.
  apply IH; [done|]. intros j s'' Hj HI. apply Hf; [lia|done].
Qed.
End returns.

(** ** Lemmas on arrays *)

Section arrays.
Context {A : Type}.
Implicit Types (l : list A) (i j : Z) (x y : A).

Lemma zlen_nonneg l : 0 ≤ zlen l.
Proof. unfold zlen; lia. Qed.

Lemma zlen_insert l i x : zlen (<[i := x]> l) = zlen l.
Proof.
  unfold zlen, insert, list_insertZ. case_decide; [|done].
  by rewrite length_insert.
Qed.

Lemma zlen_app l1 l2 : zlen (l1 ++ l2) = zlen l1 + zlen l2.
Proof. unfold zlen. rewrite length_app. lia. Qed.

Lemma zlen_replicate n x : zlen (replicate n x) = Z.of_nat n.
Proof. unfold zlen. by rewrite length_replicate. Qed.

Lemma lookupZ_nat l (n : nat) : l !! Z.of_nat n = l !! n.
Proof.
  unfold lookup at 1, list_lookupZ. rewrite decide_True by lia.
  by rewrite Nat2Z.id.
Qed.

Lemma lookupZ_to_nat l i : 0 ≤ i → l !! i = l !! Z.to_nat i.
Proof. intros. unfold lookup at 1, list_lookupZ. by rewrite decide_True. Qed.

Lemma lookupZ_neg l i : i < 0 → l !! i = None.
Proof. intros. unfold lookup, list_lookupZ. by rewrite decide_False by lia. Qed.

Lemma lookupZ_nil i : ([] : list A) !! i = None.
Proof. unfold lookup, list_lookupZ. by case_decide. Qed.

Lemma lookupZ_Some_lt l i x : l !! i = Some x → 0 ≤ i < zlen l.
Proof.
  unfold lookup, list_lookupZ, zlen. case_decide; [|done].
  intros ?%lookup_lt_Some. lia.
Qed.

Lemma lookupZ_lt_Some l i : 0 ≤ i < zlen l → ∃ x, l !! i = Some x.
Proof.
  unfold zlen. intros [? ?]. rewrite lookupZ_to_nat by done.
  apply lookup_lt_is_Some. lia.
Qed.

Lemma lookupZ_ge_None l i : zlen l ≤ i → l !! i = None.
Proof.
  unfold zlen. intros. rewrite lookupZ_to_nat by lia. apply lookup_ge_None. lia.
Qed.

Lemma lookupZ_insert_eq l i x : 0 ≤ i < zlen l → <[i := x]> l !! i = Some x.
Proof.
  unfold zlen. intros [? ?]. rewrite lookupZ_to_nat by done.
  unfold insert, list_insertZ. rewrite decide_True by done.
  apply list_lookup_insert_eq. lia.
Qed.

Lemma lookupZ_insert_ne l i j x : i ≠ j → <[i := x]> l !! j = l !! j.
Proof.
  intros. unfold lookup, list_lookupZ, insert, list_insertZ.
  do 2 (case_decide; try done). apply list_lookup_insert_ne. lia.
Qed.

Lemma lookupZ_insert l i j x :
  0 ≤ i < zlen l →
  <[i := x]> l !! j = if decide (i = j) then Some x else l !! j.
Proof.
  intros. case_decide; subst; auto using lookupZ_insert_eq, lookupZ_insert_ne.
Qed.

Lemma lookupZ_replicate n x i :
  0 ≤ i < Z.of_nat n → replicate n x !! i = Some x.
Proof.
  intros. rewrite lookupZ_to_nat by lia. apply lookup_replicate_2. lia.
Qed.

Lemma list_eqZ l1 l2 :
  zlen l1 = zlen l2 → (∀ i, 0 ≤ i < zlen l1 → l1 !! i = l2 !! i) → l1 = l2.
Proof.
  unfold zlen. intros Hlen H. apply list_eq. intros i.
  destruct (decide (i < length l1)%nat).
  - rewrite <- !lookupZ_nat. apply H. lia.
  - rewrite !lookup_ge_None_2; [done|lia|lia].
Qed.

Lemma list_insertZ_id l i x : l !! i = Some x → <[i := x]> l = l.
Proof.
  unfold lookup, list_lookupZ, insert, list_insertZ. case_decide; [|done].
  apply list_insert_id.
Qed.

Lemma list_insertZ_insert l i x y : <[i := x]> (<[i := y]> l) = <[i := x]> l.
Proof.
  unfold insert, list_insertZ. case_decide; [|done]. apply list_insert_insert_eq.
Qed.

Lemma list_insertZ_commute l i j x y :
  i ≠ j → <[i := x]> (<[j := y]> l) = <[j := y]> (<[i := x]> l).
Proof.
  intros. unfold insert, list_insertZ. do 2 (case_decide; try done).
  apply list_insert_insert_ne. lia.
Qed.

Lemma list_elem_of_lookupZ l x : x ∈ l ↔ ∃ i, l !! i = Some x.
Proof.
  rewrite list_elem_of_lookup. split.
  - intros [i Hi]. exists (Z.of_nat i). by rewrite lookupZ_nat.
  - intros [i Hi]. pose proof (lookupZ_Some_lt _ _ _ Hi).
    exists (Z.to_nat i). by rewrite <- lookupZ_to_nat by lia.
Qed.

Lemma aget_Some l i x : l !! i = Some x → aget l i = Ret x.
Proof. unfold aget. by intros ->. Qed.

Lemma aset_in l i x : 0 ≤ i < zlen l → aset l i x = Ret (<[i := x]> l).
Proof. unfold aset. intros. by rewrite decide_True. Qed.

Lemma returns_aget {B} l i x (f : A → outcome B) Q :
  l !! i = Some x → returns (f x) Q → returns (aget l i ≫= f) Q.
Proof. intros H ?. by rewrite (aget_Some _ _ _ H). Qed.

Lemma returns_aset {B} l i x (f : list A → outcome B) Q :
  0 ≤ i < zlen l → returns (f (<[i := x]> l)) Q → returns (aset l i x ≫= f) Q.
Proof. intros H ?. by rewrite (aset_in _ _ _ H). Qed.
End arrays.

#[export] Instance zlen_Permutation {A} : Proper ((≡ₚ) ==> eq) (@zlen A).
Proof. intros l1 l2 H. unfold zlen. by rewrite H. Qed.

Lemma lookupZ_fmap {A B} (f : A → B) (l : list A) (i : Z) : (f <$> l) !! i = f <$> l !! i.
Proof.
  destruct (decide (0 ≤ i)); [|by rewrite !lookupZ_neg by lia]. by rewrite !lookupZ_to_nat, list_lookup_fmap by lia.
Qed.

Lemma fmap_insertZ {A B} (f : A → B) (l : list A) (i : Z) x : f <$> <[i := x]> l = <[i := f x]> (f <$> l).
Proof. unfold insert, list_insertZ. case_decide; [|done]. apply list_fmap_insert. Qed.

Lemma zlen_fmap {A B} (f : A → B) (l : list A) : zlen (f <$> l) = zlen l.
Proof. unfold zlen. by rewrite length_fmap. Qed.

Lemma zlen_cons {A} (x : A) l : zlen (x :: l) = zlen l + 1.
Proof. unfold zlen. cbn [length]. lia. Qed.

Lemma lookupZ_cons {A} (x : A) l (i : Z) : 0 < i → (x :: l) !! i = l !! (i - 1).
Proof.
  intros Hi. rewrite !lookupZ_to_nat by lia. by replace (Z.to_nat i) with (S (Z.to_nat (i - 1))) by lia.
Qed.

(** Distinct array positions are at most as many as the array has. *)
Lemma nodup_range_length (l : list Z) (n : nat) :
  NoDup l → (∀ i, i ∈ l → 0 ≤ i < Z.of_nat n) → (length l ≤ n)%nat.
Proof.
  intros Hnd Hr. rewrite <- (Nat2Z.id n), <- (length_seqZ 0 (Z.of_nat n)).
  apply submseteq_length, NoDup_submseteq; [done|].
  intros i Hi. apply elem_of_seqZ. specialize (Hr i Hi). lia.
Qed.

#[export] Hint Rewrite @zlen_insert @zlen_app @zlen_replicate : storm.
#[export] Hint Resolve zlen_nonneg : storm.

(** ** Lemmas on machine integers *)

Lemma u32_small z : is_u32 z → u32 z = z.
Proof. apply Z.mod_small. Qed.
Lemma u64_small z : is_u64 z → u64 z = z.
Proof. apply Z.mod_small. Qed.
Lemma u32_range z : is_u32 (u32 z).
Proof. apply Z.mod_pos_bound. lia. Qed.
Lemma u64_range z : is_u64 (u64 z).
Proof. apply Z.mod_pos_bound. lia. Qed.

#[export] Hint Resolve u32_range u64_range : storm.

(** ** Bit operations as arithmetic *)

Lemma lor_mul_pow2 y x k : 0 ≤ k → 0 ≤ x < 2 ^ k → Z.lor (y * 2 ^ k) x = y * 2 ^ k + x.
Proof.
  intros Hk Hx. assert (Z.land (y * 2 ^ k) x = 0) as H.
  { apply Z.bits_inj_0. intros i. rewrite Z.land_spec. destruct (decide (0 ≤ i)); [|by rewrite !Z.testbit_neg_r by lia].
    destruct (decide (i < k)); [by rewrite Z.mul_pow2_bits_low by lia|].
    rewrite <- (Z.mod_small x (2 ^ k)) by lia. rewrite Z.mod_pow2_bits_high by lia. by rewrite andb_false_r. }
  symmetry. rewrite <- Z.lxor_lor by done. by apply Z.add_nocarry_lxor.
Qed.

Lemma land_pow2_pred a p : 0 ≤ p → Z.land a (2 ^ p - 1) = a `mod` 2 ^ p.
Proof. intros. rewrite <- Z.land_ones, Z.ones_equiv by done. f_equal. Qed.

(** Facts about all numbers of a range, by trying them. *)
Lemma forall_range (P : Z → bool) a n x : forallb P (seqZ a n) = true → a ≤ x < a + n → P x = true.
Proof. intros Hf Hx. rewrite forallb_forall in Hf. apply Hf, list_elem_of_In, elem_of_seqZ. lia. Qed.

(** Tactics of the development: [zarr] normalises lengths and array lookups after
    updates and calls [lia]; [step] runs one monadic step of a goal [returns]. *)
Ltac zlens := autorewrite with storm in *.
Ltac zsolve := zlens; unfold is_u8, is_u16, is_u32, is_u64 in *; lia.

(** [for_inv I r Hr] runs the loop of the goal with the invariant [I]: the goals are
    that [I] holds first, that a round keeps it, and the rest after the loop, which
    returned [r] with [Hr : I _ r]. *)
Ltac for_inv I r Hr :=
  lazymatch goal with
  | |- context [for_loop ?n ?i ?f ?s] =>
      let E := fresh "E" in
      destruct (proj1 (returns_exists (for_loop n i f s) (I (i + Z.of_nat n)))) as (r & E & Hr);
      [apply (returns_for_loop I)|rewrite E; clear E; cbn [mbind outcome_bind]]
  end.
