(* ===== verification/Handle.v ===== *)
(** * Type handles and location watches

    [Core/Handle.h]: what a container knows about the type of its elements, as a
    record of the functions the generated code supplies.  [Core/GcWatch.h]: the
    interface the garbage collectors implement to report moved objects, as a record
    of operations with its laws.

    A [World] is where the collector has put every object at some moment; a hash
    function may depend on it ([locationHash] types hash their address).  Copy
    constructors "act as an assignment" in the source; [copyFn] may be any function,
    and the containers' theorems ask of it that it copies. *)

From stdpp Require Import base list numbers strings option decidable.
From Stdlib Require Import ZArith Lia.
From S2P Require Import Prelude.

(** ** Handle *)

Record Handle (World T : Type) := mkHandle {
  locationHash : bool;
  copyFn : option (T → T);
  deepCopyFn : option (T → T);
  toSFn : T → string;
  hashFn : option (World → T → Z);
  equalFn : option (T → T → bool);
  lessFn : option (T → T → bool);
}.
Arguments mkHandle {World T}.
Arguments locationHash {World T}.
Arguments copyFn {World T}.
Arguments deepCopyFn {World T}.
Arguments toSFn {World T}.
Arguments hashFn {World T}.
Arguments equalFn {World T}.
Arguments lessFn {World T}.

Section handle.
Context {World T : Type}.
Implicit Types h : Handle World T.

(** The object at the destination after [safeCopy(dest, src)]. *)
Definition safeCopy h (src : T) : T :=
  match copyFn h with Some f => f src | None => src end.

(** The destination after [safeDestroy(obj)]: zeroed memory holds no object. *)
Definition safeDestroy h (obj : option T) : option T := None.

Definition hasEqual h : bool :=
  match equalFn h, lessFn h with None, None => false | _, _ => true end.

(** [!(a < b) && !(a < b)] without an equality function, as the source has it. *)
Definition equal h (a b : T) : outcome bool :=
  match equalFn h with
  | Some f => Ret (f a b)
  | None =>
      match lessFn h with
      | Some less => Ret (negb (less a b) && negb (less a b))
      | None => Fault
      end
  end.

(** [( *h.hashFn)(obj)] *)
Definition callHash h (w : World) (obj : T) : outcome Z :=
  match hashFn h with Some f => Ret (u32 (f w obj)) | None => Fault end.

(** [checkHashHandle] of [Core/Hash.cpp]. *)
Definition checkHashHandle h : outcome unit :=
  assert (match hashFn h with Some _ => hasEqual h | None => false end).
End handle.

(** What a container relies on for its element type: copies are faithful. *)
Class CopyHandle {World T} (h : Handle World T) : Prop :=
  copy_id : ∀ x, safeCopy h x = x.

(** What a hash container relies on for its keys: a hash function, and an equality
    function that decides equality. *)
Class KeyHandle {World K} (h : Handle World K) (hashOf : World → K → Z) : Prop := {
  key_copy :: CopyHandle h;
  key_hash : ∀ w k, callHash h w k = Ret (hashOf w k);
  key_hash_u32 : ∀ w k, is_u32 (hashOf w k);
  key_equal : ∀ a b, ∃ r, equal h a b = Ret r ∧ (r = true ↔ a = b);
}.

(** ** GcWatch *)

Record GcWatch (World Addr Watch : Type) := mkGcWatch {
  createWatch : World → Watch;
  watch_add : World → Watch → Addr → Watch;
  watch_remove : World → Watch → Addr → Watch;
  watch_clear : World → Watch → Watch;
  watch_moved : World → Watch → Addr → bool;
}.
Arguments mkGcWatch {World Addr Watch}.
Arguments createWatch {World Addr Watch}.
Arguments watch_add {World Addr Watch}.
Arguments watch_remove {World Addr Watch}.
Arguments watch_clear {World Addr Watch}.
Arguments watch_moved {World Addr Watch}.

(** The promise of [GcWatch] to its clients.  [tracks s a w]: the watch [s] holds a
    dependency on the location object [a] had in the world [w].  Removing or adding
    other objects keeps it, and an object reported as not moved is where it was
    ("may return false positives", never false negatives). *)
Class WatchLaws {World Addr Watch Loc} (gc : GcWatch World Addr Watch)
    (loc : World → Addr → Loc) (tracks : Watch → Addr → World → Prop) : Prop := {
  tracks_add : ∀ s a w, tracks (watch_add gc w s a) a w;
  tracks_add_other : ∀ s a a' w w', a ≠ a' → tracks s a w → tracks (watch_add gc w' s a') a w;
  tracks_remove_other : ∀ s a a' w w', a ≠ a' → tracks s a w → tracks (watch_remove gc w' s a') a w;
  moved_sound : ∀ s a w w', tracks s a w → watch_moved gc w' s a = false → loc w' a = loc w a;
}.

(** ** Facts about handles *)

(** The fallback of [Handle::equal] for types with only [<] compares in one
    direction twice: if [b] is below [a], it calls [a] equal to [b], but not [b] to [a]. *)
Theorem equal_less_only {World T} (h : Handle World T) less (a b : T) :
  equalFn h = None → lessFn h = Some less → less b a = true → less a b = false →
  equal h a b = Ret true ∧ equal h b a = Ret false.
Proof. unfold equal. by intros -> -> -> ->. Qed.

Lemma equal_less_only_witness :
  let h : Handle unit Z := mkHandle false None None (λ _, EmptyString) None None (Some Z.ltb) in
  equal h 2 1 = Ret true ∧ equal h 1 2 = Ret false.
Proof. apply (equal_less_only _ Z.ltb 2 1); reflexivity. Defined.
