(* ===== verification/Bitwise.v ===== *)
(** * Bitwise utilities

    The functions on the bits of numbers, and that they do what they say. *)

From stdpp Require Import base list numbers decidable.
From Stdlib Require Import ZArith Lia.
From S2P Require Import Prelude.

(** * Bitwise utilities

    [Utils/Bitwise.h] for the unsigned types it is used with: every function takes
    the width [w] of its type [T] in bits, and values are taken modulo [2 ^ w]. *)

Definition wrap (w z : Z) : Z := z `mod` 2 ^ w.

(** [(number & (number - 1)) == 0] *)
Definition isPowerOfTwo (w number : Z) : bool :=
  Z.land number (wrap w (number - 1)) =? 0.

(** [for (size_t i = 1; i < sizeof(number) * CHAR_BIT; i *= 2) number |= number >> i;]
    The index doubles, so [w] iterations are more than enough. *)
Fixpoint smear (fuel : nat) (w i number : Z) : Z :=
  match fuel with
  | O => number
  | S fuel =>
      if i <? w then smear fuel w (i * 2) (Z.lor number (Z.shiftr number i))
      else number
  end.

Definition nextPowerOfTwo (w number : Z) : Z :=
  wrap w (smear (Z.to_nat w) w 1 (wrap w (number - 1)) + 1).

(** The masks of [BitwiseImpl<T, n>::trailingZeros]. *)
Definition tzMasks (w : Z) : list Z :=
  if w =? 8 then [0xAA; 0xCC; 0xF0]
  else if w =? 32 then [0xAAAAAAAA; 0xCCCCCCCC; 0xF0F0F0F0; 0xFF00FF00; 0xFFFF0000]
  else [0xAAAAAAAAAAAAAAAA; 0xCCCCCCCCCCCCCCCC; 0xF0F0F0F0F0F0F0F0;
        0xFF00FF00FF00FF00; 0xFFFF0000FFFF0000; 0xFFFFFFFF00000000].

(** [r |= ((v & vals[i]) != 0) << i], for every [i] of the table. *)
Fixpoint tzTable (v : Z) (i : Z) (vals : list Z) : Z :=
  match vals with
  | [] => 0
  | m :: vals => Z.lor (Z.shiftl (Z.b2z (negb (Z.land v m =? 0))) i) (tzTable v (i + 1) vals)
  end.

(** [number &= T() - number], then the table. *)
Definition trailingZeros (w number : Z) : Z :=
  tzTable (Z.land number (wrap w (0 - number))) 0 (tzMasks w).

(** [BitwiseImpl<T, 1>], [BitwiseImpl<T, 4>] and [BitwiseImpl<T, 8>]. *)
Definition setBitCount8 (number : Z) : Z :=
  let v := Z.shiftr (Z.land number 0xAA) 1 + Z.land number 0x55 in
  let v := Z.shiftr (Z.land v 0xCC) 2 + Z.land v 0x33 in
  Z.shiftr (Z.land v 0xF0) 4 + Z.land v 0x0F.

Definition setBitCount32 (number : Z) : Z :=
  let n := wrap 32 (number - Z.land (Z.shiftr number 1) 0x55555555) in
  let n := wrap 32 (Z.land n 0x33333333 + Z.land (Z.shiftr n 2) 0x33333333) in
  Z.shiftr (wrap 32 (Z.land (wrap 32 (n + Z.shiftr n 4)) 0x0F0F0F0F * 0x01010101)) 24.

Definition setBitCount64 (number : Z) : Z :=
  let n := wrap 64 (number - Z.land (Z.shiftr number 1) 0x5555555555555555) in
  let n := wrap 64 (Z.land n 0x3333333333333333 + Z.land (Z.shiftr n 2) 0x3333333333333333) in
  let n := Z.land (wrap 64 (n + Z.shiftr n 4)) 0x0F0F0F0F0F0F0F0F in
  Z.shiftr (wrap 64 (n * 0x0101010101010101)) 56.

Definition setBitCount (w number : Z) : Z :=
  if w =? 8 then setBitCount8 number
  else if w =? 32 then setBitCount32 number
  else setBitCount64 number.

Definition roundUp (w number multiple : Z) : Z :=
  let remainder := number `mod` multiple in
  if remainder =? 0 then number
  else wrap w (number + wrap w (multiple - remainder)).

Definition roundDown (w number multiple : Z) : Z :=
  wrap w (number - number `mod` multiple).

(** The class template [NextPowerOfTwo<v, iter>]: compile-time, 64-bit. *)
Fixpoint NextPowerOfTwo (steps : nat) (v iter : Z) : Z :=
  match steps with
  | O => v
  | S steps =>
      NextPowerOfTwo steps
        (wrap 64 (Z.lor (wrap 64 (v - 1)) (Z.shiftr (wrap 64 (v - 1)) iter) + 1)) (iter + 1)
  end.

(** [multiplyOverflow(a, b, out)]: whether the product fits, and [out]. *)
Definition multiplyOverflow (a b : Z) : bool * Z :=
  (u64 (a * b) =? a * b, u64 (a * b)).

(** ** Power-of-two tests *)

Lemma wrap_small w z : 0 ≤ z < 2 ^ w → wrap w z = z.
Proof. apply Z.mod_small. Qed.

Lemma land_pred_pow2 p : 0 ≤ p → Z.land (2 ^ p) (2 ^ p - 1) = 0.
Proof.
  intros. rewrite land_pow2_pred by done. apply Z.mod_same.
  apply Z.pow_nonzero; lia.
Qed.

(** The next-lower number keeps the top bit unless the number is a power of two. *)
Lemma land_pred_log2 n : 0 < n → n ≠ 2 ^ Z.log2 n → Z.land n (n - 1) ≠ 0.
Proof.
  intros Hn Hp Hz. pose proof (Z.log2_spec n Hn) as [Hlo Hhi].
  pose proof (Z.log2_nonneg n).
  assert (Z.log2 (n - 1) = Z.log2 n) as Hl by (apply Z.log2_unique; lia).
  assert (Z.testbit (Z.land n (n - 1)) (Z.log2 n) = true) as Ht.
  { rewrite Z.land_spec, Z.bit_log2 by done. rewrite <- Hl at 1.
    rewrite Z.bit_log2; [done|]. pose proof (Z.log2_nonneg n). lia. }
  rewrite Hz, Z.bits_0 in Ht. done.
Qed.

Lemma isPowerOfTwo_pow2 w p : 0 ≤ p < w → isPowerOfTwo w (2 ^ p) = true.
Proof.
  intros. unfold isPowerOfTwo.
  pose proof (Z.pow_lt_mono_r 2 p w).
  rewrite wrap_small by lia. rewrite land_pred_pow2 by lia. done.
Qed.

(** [isPowerOfTwo] accepts exactly the powers of two, and zero. *)
Theorem isPowerOfTwo_spec w n :
  0 ≤ n < 2 ^ w → 0 ≤ w → isPowerOfTwo w n = true ↔ n = 0 ∨ ∃ p, 0 ≤ p ∧ n = 2 ^ p.
Proof.
  intros Hn Hw. destruct (decide (n = 0)) as [->|]; [unfold isPowerOfTwo; rewrite Z.land_0_l; naive_solver|]. split.
  - unfold isPowerOfTwo. rewrite wrap_small by lia. intros Hz%Z.eqb_eq. right.
    destruct (decide (n = 2 ^ Z.log2 n)) as [|Hp]; [exists (Z.log2 n); split; [apply Z.log2_nonneg|done]|].
    exfalso. by apply (land_pred_log2 n); [lia|..].
  - intros [?|(p & Hp & ->)]; [done|]. apply isPowerOfTwo_pow2. split; [done|].
    apply (Z.pow_lt_mono_r_iff 2); lia.
Qed.

Lemma isPowerOfTwo_spec_witness :
  isPowerOfTwo 32 64 = true ↔ 64 = 0 ∨ ∃ p, 0 ≤ p ∧ 64 = 2 ^ p.
Proof. apply (isPowerOfTwo_spec 32 64); lia. Defined.

(** ** Rounding up to a power of two *)

(** [y] is [x] with every set bit copied to the [i - 1] positions below it. *)
Definition smeared (x i y : Z) : Prop :=
  ∀ j, 0 ≤ j → Z.testbit y j = true ↔ ∃ s, 0 ≤ s < i ∧ Z.testbit x (j + s) = true.

Lemma smeared_init x : smeared x 1 x.
Proof.
  intros j Hj. split.
  - intros H. exists 0. rewrite Z.add_0_r. split; [lia|done].
  - intros (s & ? & H). replace s with 0 in H by lia. by rewrite Z.add_0_r in H.
Qed.

(** Or-ing with a copy shifted by [k <= i] extends the smear to [i + k]. *)
Lemma smeared_step x i k y :
  0 ≤ k ≤ i → smeared x i y → smeared x (i + k) (Z.lor y (Z.shiftr y k)).
Proof.
  intros Hk H j Hj. rewrite Z.lor_spec, Z.shiftr_spec by done.
  rewrite orb_true_iff, (H j), (H (j + k)) by lia. split.
  - intros [(s & ? & ?) | (s & ? & Ht)]; [exists s; split; [lia|done]|].
    exists (k + s). rewrite Z.add_assoc. split; [lia|done].
  - intros (s & ? & Ht). destruct (decide (s < i)).
    + left. exists s. split; [lia|done].
    + right. exists (s - k). replace (j + k + (s - k)) with (j + s) by lia.
      split; [lia|done].
Qed.

Lemma smear_smeared x w fuel i y :
  0 < i → w ≤ i * 2 ^ Z.of_nat fuel → smeared x i y →
  ∃ i', w ≤ i' ∧ smeared x i' (smear fuel w i y).
Proof.
  revert i y. induction fuel as [|fuel IH]; intros i y Hi Hw Hs; cbn [smear].
  { exists i. split; [lia|done]. }
  destruct (Z.ltb_spec i w); [|exists i; split; [lia|done]].
  apply IH; [lia| |].
  - rewrite Nat2Z.inj_succ, Z.pow_succ_r in Hw by lia. lia.
  - replace (i * 2) with (i + i) by lia. apply smeared_step; [lia|done].
Qed.

(** A complete smear of [x] is the mask of all bits up to its top one. *)
Lemma smeared_ones x w y :
  0 < x < 2 ^ w → 0 ≤ y → smeared x w y → y = 2 ^ (Z.log2 x + 1) - 1.
Proof.
  intros Hx Hy H. pose proof (Z.log2_nonneg x).
  assert (Z.log2 x < w) by (apply Z.log2_lt_pow2; lia).
  replace (2 ^ (Z.log2 x + 1) - 1) with (Z.ones (Z.log2 x + 1)) by (rewrite Z.ones_equiv; lia).
  apply Z.bits_inj'. intros j Hj. apply Bool.eq_iff_eq_true. rewrite (H j Hj).
  rewrite Z.testbit_ones_nonneg by lia. rewrite Z.ltb_lt. split.
  - intros (s & ? & Ht). destruct (decide (j + s ≤ Z.log2 x)); [lia|].
    rewrite Z.bits_above_log2 in Ht by lia. done.
  - intros Hlt. exists (Z.log2 x - j). split; [lia|].
    replace (j + (Z.log2 x - j)) with (Z.log2 x) by lia. apply Z.bit_log2. lia.
Qed.

Lemma smear_nonneg fuel w i y : 0 ≤ i → 0 ≤ y → 0 ≤ smear fuel w i y.
Proof.
  revert i y. induction fuel as [|fuel IH]; intros i y Hi Hy; cbn [smear]; [done|].
  destruct (i <? w); [|done]. apply IH; [lia|].
  apply Z.lor_nonneg. split; [done|]. by apply Z.shiftr_nonneg.
Qed.

Lemma smear_spec x w :
  0 < x < 2 ^ w → smear (Z.to_nat w) w 1 x = 2 ^ (Z.log2 x + 1) - 1.
Proof.
  intros Hx. assert (0 ≤ w).
  { destruct (decide (w < 0)); [|lia]. rewrite Z.pow_neg_r in Hx by lia. lia. }
  destruct (smear_smeared x w (Z.to_nat w) 1 x) as (i' & Hi' & Hs);
    [lia| |apply smeared_init|].
  { rewrite Z2Nat.id by done. pose proof (Z.pow_gt_lin_r 2 w). lia. }
  apply (smeared_ones x i'); [|apply smear_nonneg; lia|done].
  pose proof (Z.pow_le_mono_r 2 w i'). lia.
Qed.

Lemma nextPowerOfTwo_log2_up w n :
  0 < w → 0 < n ≤ 2 ^ (w - 1) → nextPowerOfTwo w n = 2 ^ Z.log2_up n.
Proof.
  intros Hw Hn. assert (2 ^ w = 2 * 2 ^ (w - 1)) as Hpw.
  { rewrite <- Z.pow_succ_r by lia. f_equal. lia. }
  unfold nextPowerOfTwo. rewrite (wrap_small w (n - 1)) by lia.
  destruct (decide (n = 1)) as [->|].
  { replace (1 - 1) with 0 by lia.
    assert (∀ f i, smear f w i 0 = 0) as ->.
    { induction f as [|f IH]; intros i; cbn [smear]; [done|].
      destruct (i <? w); [|done]. rewrite Z.shiftr_0_l. apply IH. }
    rewrite wrap_small; [done|lia]. }
  rewrite smear_spec by lia.
  rewrite Z.log2_up_eqn by lia. replace (Z.pred n) with (n - 1) by lia.
  replace (Z.succ (Z.log2 (n - 1))) with (Z.log2 (n - 1) + 1) by lia.
  assert (Z.log2 (n - 1) < w - 1) by (apply Z.log2_lt_pow2; lia).
  pose proof (Z.log2_nonneg (n - 1)).
  pose proof (Z.pow_lt_mono_r 2 (Z.log2 (n - 1) + 1) w).
  rewrite wrap_small by lia. lia.
Qed.

(** Beyond the largest power of two of the type the result wraps to zero. *)
Lemma nextPowerOfTwo_wraps w n :
  0 < w → n = 0 ∨ 2 ^ (w - 1) < n < 2 ^ w → nextPowerOfTwo w n = 0.
Proof.
  intros Hw Hn. assert (2 ^ w = 2 * 2 ^ (w - 1)) as Hpw.
  { rewrite <- Z.pow_succ_r by lia. f_equal. lia. }
  pose proof (Z.pow_pos_nonneg 2 (w - 1)).
  assert (2 ^ (w - 1) ≤ wrap w (n - 1) < 2 ^ w) as Hx.
  { destruct Hn as [->|?].
    - unfold wrap. replace (0 - 1) with (2 ^ w - 1 + (-1) * 2 ^ w) by lia.
      rewrite Z.mod_add, Z.mod_small by lia. lia.
    - rewrite wrap_small by lia. lia. }
  unfold nextPowerOfTwo. rewrite smear_spec by lia.
  replace (Z.log2 (wrap w (n - 1))) with (w - 1).
  - replace (w - 1 + 1) with w by lia. replace (2 ^ w - 1 + 1) with (2 ^ w) by lia.
    unfold wrap. apply Z.mod_same. lia.
  - symmetry. apply Z.log2_unique; [lia|]. rewrite Z.sub_1_r, Z.succ_pred. lia.
Qed.

(** [nextPowerOfTwo] returns the least power of two not below its argument when
    the type has one, and 0 otherwise (for 0 and above the largest power of two). *)
Theorem nextPowerOfTwo_spec w n :
  0 < w → 0 ≤ n < 2 ^ w →
  if decide (0 < n ≤ 2 ^ (w - 1))
  then ∃ p, 0 ≤ p < w ∧ nextPowerOfTwo w n = 2 ^ p ∧ n ≤ 2 ^ p ∧ (∀ q, 0 ≤ q → n ≤ 2 ^ q → p ≤ q)
  else nextPowerOfTwo w n = 0.
Proof.
  intros Hw Hn. case_decide as Hd; [|apply nextPowerOfTwo_wraps; lia].
  exists (Z.log2_up n). rewrite nextPowerOfTwo_log2_up by done.
  pose proof (Z.log2_up_nonneg n) as H0.
  assert (∀ q, 0 ≤ q → n ≤ 2 ^ q → Z.log2_up n ≤ q) as Hleast.
  { intros q Hq Hle. rewrite <- (Z.log2_up_pow2 q Hq). by apply Z.log2_up_le_mono. }
  specialize (Hleast (w - 1) ltac:(lia) ltac:(lia)) as Hub.
  split_and!; try done; try lia.
  destruct (decide (n = 1)) as [->|]; [done|]. apply Z.log2_log2_up_spec. lia.
Qed.

Lemma nextPowerOfTwo_spec_witness :
  nextPowerOfTwo 32 5 = 8 ∧
  (∃ p, 0 ≤ p < 32 ∧ nextPowerOfTwo 32 5 = 2 ^ p ∧ 5 ≤ 2 ^ p ∧ ∀ q, 0 ≤ q → 5 ≤ 2 ^ q → p ≤ q).
Proof.
  split; [reflexivity|]. exact (nextPowerOfTwo_spec 32 5 eq_refl ltac:(lia)).
Defined.

(** ** Rounding to multiples *)

(** [roundUp] and [roundDown] return the nearest multiples of a non-zero number, as
    long as the type can hold them. *)
Theorem round_spec w n multiple :
  0 ≤ n < 2 ^ w → 0 < multiple < 2 ^ w →
  (∃ k, roundDown w n multiple = k * multiple ∧ k * multiple ≤ n < (k + 1) * multiple) ∧
  (n + multiple - 1 < 2 ^ w →
   ∃ k, roundUp w n multiple = k * multiple ∧ (k - 1) * multiple < n ≤ k * multiple).
Proof.
  intros Hn Hm. pose proof (Z.mod_pos_bound n multiple ltac:(lia)) as Hr.
  pose proof (Z.div_mod n multiple ltac:(lia)) as Hd. pose proof (Z.div_pos n multiple ltac:(lia) ltac:(lia)).
  unfold roundDown, roundUp. split.
  - exists (n `div` multiple). rewrite wrap_small by nia. split; nia.
  - intros Hb. destruct (Z.eqb_spec (n `mod` multiple) 0) as [E|E].
    + exists (n `div` multiple). split; nia.
    + exists (n `div` multiple + 1). rewrite (wrap_small w (multiple - _)) by lia. rewrite wrap_small by lia. split; nia.
Qed.

Lemma round_spec_witness :
  (∃ k, roundDown 32 13 8 = k * 8 ∧ k * 8 ≤ 13 < (k + 1) * 8) ∧
  (13 + 8 - 1 < 2 ^ 32 → ∃ k, roundUp 32 13 8 = k * 8 ∧ (k - 1) * 8 < 13 ≤ k * 8).
Proof. apply (round_spec 32 13 8); lia. Defined.

(** ** Trailing zeros *)

(** The table gives the position of a lone bit, at every width it has masks for. *)
Lemma tzTable_pow2 w k :
  w = 8 ∨ w = 32 ∨ w = 64 → 0 ≤ k < w → tzTable (2 ^ k) 0 (tzMasks w) = k.
Proof.
  intros Hw Hk.
  assert (∀ w n, forallb (λ k, tzTable (2 ^ k) 0 (tzMasks w) =? k) (seqZ 0 n) = true →
    0 ≤ k < n → tzTable (2 ^ k) 0 (tzMasks w) = k) as H.
  { intros w' n Hf Hn. rewrite forallb_forall in Hf. apply Z.eqb_eq, Hf, list_elem_of_In, elem_of_seqZ. lia. }
  destruct Hw as [->|[->| ->]]; [apply (H 8 8)|apply (H 32 32)|apply (H 64 64)]; (done || (vm_compute; reflexivity)).
Qed.

(** [number & (0 - number)] is the lowest set bit. *)
Lemma land_neg_lowest w k j :
  0 ≤ k → 0 ≤ j → 2 ^ k * (2 * j + 1) < 2 ^ w → 0 ≤ w →
  Z.land (2 ^ k * (2 * j + 1)) (wrap w (0 - 2 ^ k * (2 * j + 1))) = 2 ^ k.
Proof.
  intros Hk Hj Hlt Hw. set (n := 2 ^ k * (2 * j + 1)) in *. pose proof (Z.pow_pos_nonneg 2 k ltac:(lia) Hk).
  assert (∀ i, 0 ≤ i → Z.testbit n i = if decide (i < k) then false else if decide (i = k) then true else Z.testbit j (i - k - 1)) as Hbit.
  { intros i Hi. unfold n. rewrite Z.mul_comm, Z.mul_pow2_bits by lia. case_decide; [by rewrite Z.testbit_neg_r by lia|].
    case_decide as E; [subst; rewrite Z.sub_diag; by rewrite Z.testbit_odd_0|].
    replace (i - k) with (Z.succ (i - k - 1)) at 1 by lia. by rewrite Z.testbit_odd_succ by lia. }
  assert (∀ i, 0 ≤ i → Z.testbit (n - 1) i = if decide (i < k) then true else if decide (i = k) then false else Z.testbit j (i - k - 1)) as Hpred.
  { intros i Hi. replace (n - 1) with (2 * j * 2 ^ k + Z.ones k) by (rewrite Z.ones_equiv; unfold n; lia).
    replace (2 * j * 2 ^ k + Z.ones k) with (Z.lor (2 * j * 2 ^ k) (Z.ones k)).
    - rewrite Z.lor_spec, Z.mul_pow2_bits by lia. case_decide.
      + rewrite Z.ones_spec_low by lia. by rewrite orb_true_r.
      + rewrite Z.ones_spec_high by lia. rewrite orb_false_r. case_decide as E; [subst; rewrite Z.sub_diag; by rewrite Z.testbit_even_0|].
        replace (i - k) with (Z.succ (i - k - 1)) at 1 by lia. by rewrite Z.testbit_even_succ by lia.
    - symmetry. rewrite <- Z.lxor_lor; [apply Z.add_nocarry_lxor|]; (apply Z.bits_inj_0; intros m; rewrite Z.land_spec;
        destruct (decide (0 ≤ m)); [|by rewrite !Z.testbit_neg_r by lia]; destruct (decide (m < k));
        [by rewrite Z.mul_pow2_bits_low by lia|rewrite Z.ones_spec_high by lia; by rewrite andb_false_r]). }
  apply Z.bits_inj'. intros i Hi. rewrite Z.land_spec, Hbit, Z.pow2_bits_eqb by lia. unfold wrap.
  destruct (decide (i < w)).
  - rewrite Z.mod_pow2_bits_low by lia. replace (0 - n) with (Z.lnot (n - 1)) by (unfold Z.lnot; lia).
    rewrite Z.lnot_spec, Hpred by lia. destruct (decide (i < k)), (decide (i = k)), (Z.eqb_spec k i); try lia; try done.
    by destruct (Z.testbit j (i - k - 1)).
  - rewrite Z.mod_pow2_bits_high by lia. rewrite andb_false_r. symmetry. apply Z.eqb_neq. intros <-.
    assert (2 ^ w ≤ 2 ^ k) by (apply Z.pow_le_mono_r; lia). unfold n in Hlt. nia.
Qed.

(** [trailingZeros] of a non-zero 8-, 32- or 64-bit number is the exponent of the
    largest power of two that divides it. *)
Theorem trailingZeros_spec w k j :
  w = 8 ∨ w = 32 ∨ w = 64 → 0 ≤ k → 0 ≤ j → 2 ^ k * (2 * j + 1) < 2 ^ w →
  trailingZeros w (2 ^ k * (2 * j + 1)) = k.
Proof.
  intros Hw Hk Hj Hlt. unfold trailingZeros. rewrite land_neg_lowest by (done || lia).
  apply tzTable_pow2; [done|]. split; [done|]. apply (Z.pow_lt_mono_r_iff 2); [lia|lia|].
  pose proof (Z.pow_pos_nonneg 2 k ltac:(lia) Hk). nia.
Qed.

Lemma trailingZeros_spec_witness : trailingZeros 64 (2 ^ 40 * (2 * 1234 + 1)) = 40.
Proof. apply (trailingZeros_spec 64 40 1234); [by right; right|lia|lia|reflexivity]. Defined.

(** * Counting bits

    [setBitCount] of [Utils/Bitwise.h] adds neighbouring fields of 1, 2 and 4 bits in
    parallel and sums the bytes with one multiplication.  The theorem: it counts the set
    bits, for the three widths the source has.  The proof splits a number into bytes: every
    step but the last works on each byte alone, and a byte has 256 values. *)

(** The number of set bits among the lowest [n]. *)
Fixpoint popcount (n : nat) (x : Z) : Z :=
  match n with
  | O => 0
  | S n => Z.b2z (Z.odd x) + popcount n (Z.div2 x)
  end.

(** The mask [m] in each of [n] bytes. *)
Fixpoint inBytes (n : nat) (m : Z) : Z :=
  match n with O => 0 | S n => m + 2 ^ 8 * inBytes n m end.

(** The steps of the parallel count on [n] bytes. *)
Definition pairs (n : nat) (x : Z) : Z := x - Z.land (Z.shiftr x 1) (inBytes n 0x55).
Definition nibbles (n : nat) (x : Z) : Z :=
  Z.land x (inBytes n 0x33) + Z.land (Z.shiftr x 2) (inBytes n 0x33).
Definition bytes (n : nat) (x : Z) : Z := Z.land (x + Z.shiftr x 4) (inBytes n 0x0F).

(** A shifted and masked number, byte by byte, if the mask drops the bits that cross into
    the byte below. *)
Lemma land_shiftr_byte s m n b x :
  0 ≤ b < 2 ^ 8 → 0 ≤ s ≤ 8 → 0 ≤ m < 2 ^ (8 - s) →
  Z.land (Z.shiftr (b + 2 ^ 8 * x) s) (inBytes (S n) m) =
  Z.land (Z.shiftr b s) m + 2 ^ 8 * Z.land (Z.shiftr x s) (inBytes n m).
Proof.
  intros Hb Hs Hm. cbn [inBytes]. set (r := inBytes n m).
  assert (2 ^ (8 - s) ≤ 2 ^ 8) by (apply Z.pow_le_mono_r; lia).
  assert (∀ c y, 0 ≤ c < 2 ^ 8 → ∀ i, 0 ≤ i →
    Z.testbit (c + 2 ^ 8 * y) i = if decide (i < 8) then Z.testbit c i else Z.testbit y (i - 8)) as Hbits.
  { intros c y Hc i Hi. case_decide.
    - rewrite <- (Z.mod_pow2_bits_low _ 8) by lia. rewrite Z.mul_comm, Z.mod_add by lia. by rewrite Z.mod_small.
    - replace i with (i - 8 + 8) at 1 by lia. rewrite <- Z.div_pow2_bits by lia.
      rewrite Z.mul_comm, Z.div_add by lia. by rewrite Z.div_small, Z.add_0_l. }
  assert (∀ i, 0 ≤ i → 8 - s ≤ i → Z.testbit m i = false) as Hmask.
  { intros i Hi Hle. destruct (decide (m = 0)) as [->|]; [by rewrite Z.bits_0|].
    apply Z.bits_above_log2; [lia|]. apply Z.log2_lt_pow2; [lia|].
    assert (2 ^ (8 - s) ≤ 2 ^ i) by (apply Z.pow_le_mono_r; lia). lia. }
  assert (0 ≤ Z.land (Z.shiftr b s) m < 2 ^ 8) as Hlow.
  { replace (Z.land (Z.shiftr b s) m) with (Z.land (Z.shiftr b s) m `mod` 2 ^ 8); [apply Z.mod_pos_bound; lia|].
    apply Z.bits_inj'. intros i Hi. destruct (decide (i < 8)); [by rewrite Z.mod_pow2_bits_low by lia|].
    rewrite Z.mod_pow2_bits_high, Z.land_spec, Hmask by lia. by rewrite andb_false_r. }
  apply Z.bits_inj'. intros i Hi. rewrite (Hbits _ _ Hlow), Z.land_spec, Z.shiftr_spec by lia. rewrite (Hbits m r) by lia.
  case_decide.
  - rewrite Z.land_spec, Z.shiftr_spec by lia. destruct (decide (i + s < 8)).
    + rewrite Hbits by lia. by rewrite decide_True by lia.
    + rewrite Hmask by lia. by rewrite !andb_false_r.
  - rewrite Z.land_spec, Z.shiftr_spec by lia. rewrite Hbits by lia. rewrite decide_False by lia.
    by replace (i + s - 8) with (i - 8 + s) by lia.
Qed.

Lemma land_byte m n b x :
  0 ≤ b < 2 ^ 8 → 0 ≤ m < 2 ^ 8 →
  Z.land (b + 2 ^ 8 * x) (inBytes (S n) m) = Z.land b m + 2 ^ 8 * Z.land x (inBytes n m).
Proof. intros Hb Hm. pose proof (land_shiftr_byte 0 m n b x Hb) as H. rewrite !Z.shiftr_0_r in H. apply H; lia. Qed.

(** Facts about all bytes, by trying them. *)
Lemma forall_bytes (P : Z → bool) b : forallb P (seqZ 0 256) = true → 0 ≤ b < 2 ^ 8 → P b = true.
Proof. intros Hf Hb. rewrite forallb_forall in Hf. apply Hf, list_elem_of_In, elem_of_seqZ. lia. Qed.

(** What the first two steps make of a byte: both halves are at most 4. *)
Definition halves (b : Z) : Z := nibbles 1 (pairs 1 b).

Lemma halves_ok b :
  0 ≤ b < 2 ^ 8 →
  0 ≤ pairs 1 b < 2 ^ 8 ∧ 0 ≤ halves b < 2 ^ 8 ∧ halves b `mod` 16 ≤ 4 ∧ halves b `div` 16 ≤ 4 ∧
  halves b `mod` 16 + halves b `div` 16 = popcount 8 b.
Proof.
  intros Hb. set (P b := (0 <=? pairs 1 b) && (pairs 1 b <? 2 ^ 8) && (0 <=? halves b) && (halves b <? 2 ^ 8) &&
    (halves b `mod` 16 <=? 4) && (halves b `div` 16 <=? 4) && (halves b `mod` 16 + halves b `div` 16 =? popcount 8 b)).
  assert (P b = true) as H by (apply forall_bytes; [vm_compute; reflexivity|done]). unfold P in H.
  rewrite !andb_true_iff, !Z.eqb_eq, !Z.leb_le, !Z.ltb_lt in H. intuition.
Qed.

Lemma pairs_byte n b x : 0 ≤ b < 2 ^ 8 → pairs (S n) (b + 2 ^ 8 * x) = pairs 1 b + 2 ^ 8 * pairs n x.
Proof.
  intros Hb. unfold pairs. rewrite land_shiftr_byte by lia. change (inBytes 1 0x55) with 0x55. lia.
Qed.

Lemma nibbles_byte n b x : 0 ≤ b < 2 ^ 8 → nibbles (S n) (b + 2 ^ 8 * x) = nibbles 1 b + 2 ^ 8 * nibbles n x.
Proof.
  intros Hb. unfold nibbles. rewrite land_byte, land_shiftr_byte by lia. change (inBytes 1 0x33) with 0x33. lia.
Qed.

Lemma bytes_byte n b x :
  0 ≤ b < 2 ^ 8 → 0 ≤ x → b `mod` 16 ≤ 4 → b `div` 16 ≤ 4 → x `mod` 16 ≤ 4 →
  bytes (S n) (b + 2 ^ 8 * x) = b `mod` 16 + b `div` 16 + 2 ^ 8 * bytes n x.
Proof.
  intros Hb Hx Hl Hh Hn. unfold bytes. rewrite !Z.shiftr_div_pow2 by lia. change (2 ^ 4) with 16.
  set (c := b `mod` 16 + b `div` 16 + 16 * (b `div` 16 + x `mod` 16)).
  assert (0 ≤ c < 2 ^ 8) as Hc by (unfold c; Z.to_euclidean_division_equations; lia).
  replace (b + 2 ^ 8 * x + (b + 2 ^ 8 * x) `div` 16) with (c + 2 ^ 8 * (x + x `div` 16))
    by (unfold c; Z.to_euclidean_division_equations; lia).
  rewrite land_byte by lia. f_equal. change 0x0F with (Z.ones 4). rewrite Z.land_ones by lia.
  unfold c. rewrite (Z.mul_comm 16), Z.mod_add by lia. apply Z.mod_small. Z.to_euclidean_division_equations; lia.
Qed.

(** The counts of the [n] bytes of a number, as the bytes of a number. *)
Fixpoint counts (n : nat) (x : Z) : Z :=
  match n with O => 0 | S n => popcount 8 (x `mod` 2 ^ 8) + 2 ^ 8 * counts n (x `div` 2 ^ 8) end.

Lemma steps_counts n x :
  0 ≤ x < 2 ^ (8 * Z.of_nat n) →
  0 ≤ pairs n x < 2 ^ (8 * Z.of_nat n) ∧
  0 ≤ nibbles n (pairs n x) < 2 ^ (8 * Z.of_nat n) ∧ nibbles n (pairs n x) `mod` 16 ≤ 4 ∧
  bytes n (nibbles n (pairs n x)) = counts n x.
Proof.
  revert x. induction n as [|n IH]; intros x Hx; [by replace x with 0 by lia|].
  rewrite Nat2Z.inj_succ, Z.mul_succ_r, Z.pow_add_r in * by lia. change (2 ^ 8) with 256 in *.
  set (b := x `mod` 256). set (y := x `div` 256).
  assert (0 ≤ b < 256) as Hb by (unfold b; apply Z.mod_pos_bound; lia).
  assert (x = b + 256 * y) as E by (unfold b, y; pose proof (Z.div_mod x 256 ltac:(lia)); lia).
  assert (0 ≤ y < 2 ^ (8 * Z.of_nat n)) as Hy by (unfold y; split; [apply Z.div_pos; lia|apply Z.div_lt_upper_bound; lia]).
  destruct (IH y Hy) as (Hp & Hn & Hm & Hc). destruct (halves_ok b Hb) as (Hpb & Hhb & H1 & H2 & H3). change (2 ^ 8) with 256 in *.
  cbn [counts]. change (2 ^ 8) with 256. fold b y. rewrite E. change 256 with (2 ^ 8).
  rewrite pairs_byte, nibbles_byte by (change (2 ^ 8) with 256; lia). fold (halves b). rewrite bytes_byte by (change (2 ^ 8) with 256; lia).
  rewrite Hc, H3. change (2 ^ 8) with 256. split_and!; try nia.
  replace (halves b + 256 * nibbles n (pairs n y)) with (halves b + 16 * nibbles n (pairs n y) * 16) by lia.
  by rewrite Z.mod_add by lia.
Qed.

(** The counts of the bytes add up. *)
Lemma popcount_split m n x :
  popcount (m + n) x = popcount m (x `mod` 2 ^ Z.of_nat m) + popcount n (x `div` 2 ^ Z.of_nat m).
Proof.
  revert x. induction m as [|m IH]; intros x; [by rewrite Z.div_1_r|].
  cbn [popcount Nat.add]. rewrite IH. rewrite Nat2Z.inj_succ, Z.pow_succ_r by lia.
  pose proof (Z.pow_pos_nonneg 2 (Z.of_nat m) ltac:(lia) ltac:(lia)) as Hpos.
  assert (x `mod` (2 * 2 ^ Z.of_nat m) = x `mod` 2 + 2 * ((x `div` 2) `mod` 2 ^ Z.of_nat m)) as E by (apply Z.rem_mul_r; lia).
  rewrite E. rewrite !Z.div2_div, Z.add_assoc. f_equal; [|f_equal; rewrite Z.div_div by lia; done].
  f_equal.
  - f_equal. rewrite Z.odd_add_mul_2.
    rewrite (Z.div_mod x 2) at 1 by lia. rewrite Z.add_comm, Z.odd_add_mul_2. done.
  - f_equal. rewrite (Z.mul_comm 2), Z.div_add, (Z.div_small (x `mod` 2)) by (pose proof (Z.mod_pos_bound x 2 ltac:(lia)); lia). done.
Qed.

Lemma popcount_bound n x : 0 ≤ popcount n x ≤ Z.of_nat n.
Proof.
  revert x. induction n as [|n IH]; intros x; [done|]. cbn [popcount]. specialize (IH (Z.div2 x)).
  destruct (Z.odd x); cbn [Z.b2z]; lia.
Qed.

(** A mask of [w] bits makes a previous truncation to [w] bits superfluous. *)
Lemma land_wrap w x m : 0 ≤ w → 0 ≤ m < 2 ^ w → Z.land (wrap w x) m = Z.land x m.
Proof.
  intros Hw Hm. unfold wrap. rewrite <- Z.land_ones by lia. rewrite <- Z.land_assoc. f_equal.
  rewrite Z.land_comm, Z.land_ones by lia. by apply Z.mod_small.
Qed.

(** The multiplication adds the bytes in the top byte. *)
Lemma sum_bytes4 c0 c1 c2 c3 :
  0 ≤ c0 ≤ 8 → 0 ≤ c1 ≤ 8 → 0 ≤ c2 ≤ 8 → 0 ≤ c3 ≤ 8 →
  Z.shiftr (wrap 32 ((c0 + 2 ^ 8 * (c1 + 2 ^ 8 * (c2 + 2 ^ 8 * (c3 + 2 ^ 8 * 0)))) * 0x01010101)) 24 = c0 + (c1 + (c2 + c3)).
Proof.
  intros. rewrite Z.shiftr_div_pow2 by lia. symmetry.
  apply Z.div_unique_pos with (c0 + 2 ^ 8 * (c0 + c1) + 2 ^ 16 * (c0 + c1 + c2)); [lia|]. unfold wrap. symmetry.
  apply Z.mod_unique_pos with (c1 + c2 + c3 + 2 ^ 8 * (c2 + c3) + 2 ^ 16 * c3); lia.
Qed.

Lemma sum_bytes8 c0 c1 c2 c3 c4 c5 c6 c7 :
  0 ≤ c0 ≤ 8 → 0 ≤ c1 ≤ 8 → 0 ≤ c2 ≤ 8 → 0 ≤ c3 ≤ 8 → 0 ≤ c4 ≤ 8 → 0 ≤ c5 ≤ 8 → 0 ≤ c6 ≤ 8 → 0 ≤ c7 ≤ 8 →
  Z.shiftr (wrap 64 ((c0 + 2 ^ 8 * (c1 + 2 ^ 8 * (c2 + 2 ^ 8 * (c3 + 2 ^ 8 * (c4 + 2 ^ 8 * (c5 + 2 ^ 8 * (c6 + 2 ^ 8 * (c7 + 2 ^ 8 * 0))))))))
    * 0x0101010101010101)) 56 = c0 + (c1 + (c2 + (c3 + (c4 + (c5 + (c6 + c7)))))).
Proof.
  intros. rewrite Z.shiftr_div_pow2 by lia. symmetry.
  apply Z.div_unique_pos with (c0 + 2 ^ 8 * (c0 + c1) + 2 ^ 16 * (c0 + c1 + c2) + 2 ^ 24 * (c0 + c1 + c2 + c3) +
    2 ^ 32 * (c0 + c1 + c2 + c3 + c4) + 2 ^ 40 * (c0 + c1 + c2 + c3 + c4 + c5) + 2 ^ 48 * (c0 + c1 + c2 + c3 + c4 + c5 + c6)); [lia|].
  unfold wrap. symmetry.
  apply Z.mod_unique_pos with (c1 + c2 + c3 + c4 + c5 + c6 + c7 + 2 ^ 8 * (c2 + c3 + c4 + c5 + c6 + c7) + 2 ^ 16 * (c3 + c4 + c5 + c6 + c7) +
    2 ^ 24 * (c4 + c5 + c6 + c7) + 2 ^ 32 * (c5 + c6 + c7) + 2 ^ 40 * (c6 + c7) + 2 ^ 48 * c7); lia.
Qed.

Lemma setBitCount32_popcount x : 0 ≤ x < 2 ^ 32 → setBitCount32 x = popcount 32 x.
Proof.
  intros Hx. destruct (steps_counts 4 x Hx) as (Hp & Hn & _ & Hc). change (2 ^ (8 * Z.of_nat 4)) with (2 ^ 32) in *.
  unfold setBitCount32. change 0x55555555 with (inBytes 4 0x55). change 0x33333333 with (inBytes 4 0x33).
  change 0x0F0F0F0F with (inBytes 4 0x0F). fold (pairs 4 x). rewrite (wrap_small 32 (pairs 4 x)) by done.
  fold (nibbles 4 (pairs 4 x)). rewrite (wrap_small 32 (nibbles _ _)) by done.
  rewrite land_wrap by (vm_compute; intuition discriminate). fold (bytes 4 (nibbles 4 (pairs 4 x))). rewrite Hc.
  unfold counts. rewrite sum_bytes4 by apply popcount_bound.
  rewrite (popcount_split 8 24), (popcount_split 8 16), (popcount_split 8 8). do 4 f_equal.
  apply Z.mod_small. rewrite !Z.div_div by lia.
  split; [apply Z.div_pos|apply Z.div_lt_upper_bound]; lia.
Qed.

Lemma setBitCount64_popcount x : 0 ≤ x < 2 ^ 64 → setBitCount64 x = popcount 64 x.
Proof.
  intros Hx. destruct (steps_counts 8 x Hx) as (Hp & Hn & _ & Hc). change (2 ^ (8 * Z.of_nat 8)) with (2 ^ 64) in *.
  unfold setBitCount64. change 0x5555555555555555 with (inBytes 8 0x55). change 0x3333333333333333 with (inBytes 8 0x33).
  change 0x0F0F0F0F0F0F0F0F with (inBytes 8 0x0F). fold (pairs 8 x). rewrite (wrap_small 64 (pairs 8 x)) by done.
  fold (nibbles 8 (pairs 8 x)). rewrite (wrap_small 64 (nibbles _ _)) by done.
  rewrite land_wrap by (vm_compute; intuition discriminate). fold (bytes 8 (nibbles 8 (pairs 8 x))). rewrite Hc.
  unfold counts. rewrite sum_bytes8 by apply popcount_bound.
  rewrite (popcount_split 8 56), (popcount_split 8 48), (popcount_split 8 40), (popcount_split 8 32),
    (popcount_split 8 24), (popcount_split 8 16), (popcount_split 8 8). do 8 f_equal.
  apply Z.mod_small. rewrite !Z.div_div by lia.
  split; [apply Z.div_pos|apply Z.div_lt_upper_bound]; lia.
Qed.

(** [setBitCount] is the number of set bits of every 8-, 32- and 64-bit number. *)
Theorem setBitCount_spec (n : nat) x :
  n = 8%nat ∨ n = 32%nat ∨ n = 64%nat → 0 ≤ x < 2 ^ Z.of_nat n →
  setBitCount (Z.of_nat n) x = popcount n x.
Proof.
  intros [->|[->| ->]] Hx; [|by apply setBitCount32_popcount|by apply setBitCount64_popcount].
  apply Z.eqb_eq. apply (forall_bytes (λ x, setBitCount 8 x =? popcount 8 x)); [vm_compute; reflexivity|done].
Qed.

Lemma setBitCount_spec_witness : setBitCount 64 0xF0F00000DEADBEEF = popcount 64 0xF0F00000DEADBEEF.
Proof. apply (setBitCount_spec 64); [by right; right|vm_compute; intuition discriminate]. Defined.
