(* ===== verification/HashMap.v ===== *)
(** * The hash map

    [Core/Map.h] and [Core/Map.cpp]: [MapBase], a table of slots chained inside one
    flat array.  This file holds the data and the operations; [HashMapProofs.v] the
    representation invariant and what the operations do to it.

    The key and value arrays hold [option]s: [None] is memory that holds no object
    (zeroed by [safeDestroy] or freshly allocated).  A null array pointer is the
    empty list ([capacity() == 0]).  Pointers to values ([void *] results) are slot
    numbers.  The garbage collector moves objects between operations, not in the
    middle of one: each operation takes the world [w] it runs in. *)

From stdpp Require Import base list numbers strings option decidable.
From Stdlib Require Import ZArith Lia.
From S2P Require Import Prelude Handle Bitwise.

Module MapBase.

(** [struct Info]: the status codes are at the end of the 32-bit interval. *)
Definition free : Z := u32 (-1).
Definition end_ : Z := u32 (-2).

Record Info := mkInfo { status : Z; hash : Z }.

Definition minCapacity : Z := 4.

Record MapBase (K V Watch : Type) := mkMap {
  size : Z;
  info : list Info;
  key : list (option K);
  val : list (option V);
  watch : option Watch;
  lastFree : Z;
}.
Arguments mkMap {K V Watch}.
Arguments size {K V Watch}.
Arguments info {K V Watch}.
Arguments key {K V Watch}.
Arguments val {K V Watch}.
Arguments watch {K V Watch}.
Arguments lastFree {K V Watch}.

Section map.
Context {World Addr Watch K V : Type}.
(** The collector; the object a key points to, and where the key itself is. *)
Context (gc : GcWatch World Addr Watch) (deref addressOf : K → Addr).
Context (keyT : Handle World K) (valT : Handle World V).

Abbreviation map := (MapBase K V Watch).
Implicit Types m : map.

(** ** Field updates *)
Definition set_info (i : list Info) m : map :=
  mkMap (size m) i (key m) (val m) (watch m) (lastFree m).
Definition set_key (k : list (option K)) m : map :=
  mkMap (size m) (info m) k (val m) (watch m) (lastFree m).
Definition set_val (v : list (option V)) m : map :=
  mkMap (size m) (info m) (key m) v (watch m) (lastFree m).
Definition set_size (s : Z) m : map :=
  mkMap s (info m) (key m) (val m) (watch m) (lastFree m).
Definition set_watch (x : option Watch) m : map :=
  mkMap (size m) (info m) (key m) (val m) x (lastFree m).
Definition set_lastFree (f : Z) m : map :=
  mkMap (size m) (info m) (key m) (val m) (watch m) f.

(** ** Accessors *)
Definition count m : Z := size m.
Definition any m : bool := 0 <? size m.
Definition empty m : bool := size m =? 0.

Definition capacity m : Z := u32 (zlen (info m)).

(** The objects at [keyPtr(id)] and [valPtr(id)]. *)
Definition keyAt m (id : Z) : outcome K :=
  o ← aget (key m) id; match o with Some k => Ret k | None => Fault end.
Definition valAt m (id : Z) : outcome V :=
  o ← aget (val m) id; match o with Some v => Ret v | None => Fault end.

(** [info->v[id].status = s] *)
Definition setStatus m (id s : Z) : outcome map :=
  i ← aget (info m) id;
  l ← aset (info m) id (mkInfo s (hash i));
  Ret (set_info l m).
(** [info->v[id] = i] *)
Definition setInfo m (id : Z) (i : Info) : outcome map :=
  l ← aset (info m) id i; Ret (set_info l m).
(** [keyT.safeCopy(keyPtr(id), k)] and [valT.safeCopy(valPtr(id), v)] *)
Definition putKey m (id : Z) (k : K) : outcome map :=
  l ← aset (key m) id (Some (safeCopy keyT k)); Ret (set_key l m).
Definition putVal m (id : Z) (v : V) : outcome map :=
  l ← aset (val m) id (Some (safeCopy valT v)); Ret (set_val l m).
(** [keyT.safeDestroy(keyPtr(id))] and [valT.safeDestroy(valPtr(id))] *)
Definition destroyKey m (id : Z) : outcome map :=
  o ← aget (key m) id;
  l ← aset (key m) id (safeDestroy keyT o); Ret (set_key l m).
Definition destroyVal m (id : Z) : outcome map :=
  o ← aget (val m) id;
  l ← aset (val m) id (safeDestroy valT o); Ret (set_val l m).

(** ** Construction, clearing *)
Definition new (w : World) : outcome map :=
  checkHashHandle keyT ;;
  Ret (mkMap 0 [] [] []
         (if locationHash keyT then Some (createWatch gc w) else None) 0).

Definition clear (w : World) m : map :=
  mkMap 0 [] [] [] (watch_clear gc w <$> watch m) 0.

(** ** Hashing and watching *)
Definition newHash (w : World) m (k : K) : outcome (map * Z) :=
  match watch m with
  | Some s =>
      let m := set_watch (Some (watch_add gc w s (deref k))) m in
      h ← callHash keyT w k; Ret (m, h)
  | None => h ← callHash keyT w k; Ret (m, h)
  end.

Definition changedHash (w : World) m (k : K) : bool :=
  match watch m with
  | Some s => watch_moved gc w s (deref k)
  | None => false
  end.

(** ** Slots *)
Definition primarySlot m (h : Z) : Z := Z.land h (u32 (capacity m - 1)).

Fixpoint freeSlotLoop (fuel : nat) m (at_ : Z) : outcome Z :=
  match fuel with
  | O => OutOfFuel
  | S fuel =>
      i ← aget (info m) at_;
      if status i =? free then Ret at_
      else freeSlotLoop fuel m (Z.land (u32 (at_ + 1)) (u32 (capacity m - 1)))
  end.

Definition freeSlot m : outcome (map * Z) :=
  s ← freeSlotLoop (length (info m)) m (lastFree m);
  Ret (set_lastFree s m, s).

(** [do { ... } while (slot != Info::end)] of [findSlotI]; a chain has at most
    one entry per slot. *)
Fixpoint findChain (fuel : nat) m (k : K) (h slot : Z) : outcome Z :=
  match fuel with
  | O => OutOfFuel
  | S fuel =>
      i ← aget (info m) slot;
      found ← (if hash i =? h then c ← keyAt m slot; equal keyT k c else Ret false);
      if found : bool then Ret slot
      else if status i =? end_ then Ret free
      else findChain fuel m k h (status i)
  end.

Definition findSlotI m (k : K) (h : Z) : outcome Z :=
  let slot := primarySlot m h in
  i ← aget (info m) slot;
  if status i =? free then Ret free
  else findChain (length (info m)) m k h slot.

(** ** Allocation *)
Definition alloc (cap : Z) m : outcome map :=
  assert (bool_decide (info m = []));;
  assert (bool_decide (length (key m) = O));;
  assert (bool_decide (length (val m) = O));;
  assert (isPowerOfTwo 32 cap);;
  Ret (mkMap 0 (replicate (Z.to_nat cap) (mkInfo free 0))
         (replicate (Z.to_nat cap) None) (replicate (Z.to_nat cap) None) (watch m) 0).

(** [runtime::allocArrayRehash] differs from [allocArray] in where the collector
    puts the array, not in its contents. *)
Definition allocRehash (cap : Z) m : outcome map := alloc cap m.

(** ** Insertion

    [insert] calls [grow], which calls [rehash], which calls [insert] on the
    larger table: the inner calls are [ins]. *)
Section insert.
Context (ins : map → K → V → Z → Z → outcome (map * Z * Z)).

Definition rehash (cap : Z) m : outcome map :=
  let oldInfo := info m in
  let oldKey := key m in
  let oldVal := val m in
  m ← alloc cap (mkMap (size m) [] [] [] (watch m) (lastFree m));
  if bool_decide (oldInfo = []) then Ret m
  else
    '(m, _) ← for_loop (length oldInfo) 0 (λ i '(m, wt),
      oi ← aget oldInfo i;
      if status oi =? free then Ret (m, wt)
      else
        k ← aget oldKey i; v ← aget oldVal i;
        match k, v with
        | Some k, Some v => '(m, _, wt) ← ins m k v (hash oi) wt; Ret (m, wt)
        | _, _ => Fault
        end) (m, free);
    Ret m.

Definition grow m : outcome map :=
  let c := capacity m in
  if c =? 0 then alloc minCapacity m
  else if c =? size m then rehash (u32 (c * 2)) m
  else Ret m.

(** [while (info->v[from].status != into) from = info->v[from].status] *)
Fixpoint findPrev (fuel : nat) m (into from : Z) : outcome Z :=
  match fuel with
  | O => OutOfFuel
  | S fuel =>
      i ← aget (info m) from;
      if status i =? into then Ret from else findPrev fuel m into (status i)
  end.

(** The occupied primary slot: chain the new node, or move the stranger that
    sits there.  Returns the slot to write, its status and the watched slot. *)
Definition makeRoom m (into wt : Z) (i : Info) : outcome (map * Z * Z * Z) :=
  let from := primarySlot m (hash i) in
  if from =? into then
    '(m, to) ← freeSlot m;
    let s := status i in
    m ← setStatus m into to;
    Ret (m, to, s, wt)
  else
    from ← findPrev (length (info m)) m into from;
    '(m, to) ← freeSlot m;
    m ← setStatus m from to;
    moved ← aget (info m) into;
    m ← setInfo m to moved;
    k ← keyAt m into; m ← putKey m to k;
    v ← valAt m into; m ← putVal m to v;
    m ← destroyKey m into;
    m ← destroyVal m into;
    m ← setStatus m into free;
    Ret (m, into, end_, if wt =? into then to else wt).

(** [insert(key, hash, watch)] *)
Definition insertKey m (k : K) (h wt : Z) : outcome (map * Z * Z) :=
  m ← grow m;
  let into := primarySlot m h in
  i ← aget (info m) into;
  '(m, into, s, wt) ← (if status i =? free then Ret (m, into, end_, wt)
                       else makeRoom m into wt i);
  i ← aget (info m) into;
  assert (status i =? free);;
  m ← setInfo m into (mkInfo s h);
  m ← putKey m into k;
  Ret (set_size (u32 (size m + 1)) m, into, wt).

(** [insert(key, val, hash, watch)] *)
Definition insertVal m (k : K) (v : V) (h wt : Z) : outcome (map * Z * Z) :=
  '(m, into, wt) ← insertKey m k h wt;
  m ← putVal m into v;
  Ret (m, into, wt).
End insert.

(** [insert] with at most [d] nested calls through [rehash]; the table [rehash]
    inserts into has room, so one nested call is enough. *)
Fixpoint insertN (d : nat) : map → K → V → Z → Z → outcome (map * Z * Z) :=
  match d with
  | O => λ _ _ _ _ _, OutOfFuel
  | S d => insertVal (insertN d)
  end.

Definition insert := insertN 2.
Definition insert0 := insertKey (insertN 1).

Definition shrink (w : World) m : outcome map :=
  if size m =? 0 then Ret (clear w m)
  else rehash (insertN 1) (Z.max minCapacity (nextPowerOfTwo 32 (size m))) m.

(** ** Rehashing after the collector moved objects *)
Definition rehashFind (w : World) (cap : Z) m (find : K) : outcome (map * Z) :=
  let oldInfo := info m in
  let oldKey := key m in
  let oldVal := val m in
  m ← allocRehash cap (mkMap (size m) [] [] [] (Some (createWatch gc w)) (lastFree m));
  if bool_decide (oldInfo = []) then Ret (m, free)
  else
    for_loop (length oldInfo) 0 (λ i '(m, found),
      oi ← aget oldInfo i;
      if status oi =? free then Ret (m, found)
      else
        k ← aget oldKey i; v ← aget oldVal i;
        match k, v with
        | Some k, Some v =>
            '(m, h) ← newHash w m k;
            '(m, into, found) ← insertN 1 m k v h found;
            e ← equal keyT k find;
            Ret (m, if e : bool then into else found)
        | _, _ => Fault
        end) (m, free).

Definition rehashRemove (w : World) (cap : Z) m (remove : K) : outcome (map * bool) :=
  let oldInfo := info m in
  let oldKey := key m in
  let oldVal := val m in
  m ← allocRehash cap (mkMap (size m) [] [] [] (Some (createWatch gc w)) (lastFree m));
  if bool_decide (oldInfo = []) then Ret (m, false)
  else
    '(m, found, _) ← for_loop (length oldInfo) 0 (λ i '(m, found, wt),
      oi ← aget oldInfo i;
      if status oi =? free then Ret (m, found, wt)
      else
        k ← aget oldKey i;
        match k with
        | Some k =>
            e ← equal keyT k remove;
            if e : bool then Ret (m, true, wt)
            else
              '(m, h) ← newHash w m k;
              v ← aget oldVal i;
              match v with
              | Some v => '(m, _, wt) ← insertN 1 m k v h wt; Ret (m, found, wt)
              | None => Fault
              end
        | None => Fault
        end) (m, false, free);
    Ret (m, found).

Definition findSlot (w : World) m (k : K) (h : Z) : outcome (map * Z) :=
  if capacity m =? 0 then Ret (m, free)
  else
    r ← findSlotI m k h;
    if (r =? free) && changedHash w m k then rehashFind w (capacity m) m k
    else Ret (m, r).

(** ** The public interface *)
Definition putRaw (w : World) m (k : K) (v : V) : outcome (map * bool) :=
  h ← callHash keyT w k;
  '(m, old) ← findSlot w m k h;
  if old =? free then
    '(m, h) ← match watch m with Some _ => newHash w m k | None => Ret (m, h) end;
    '(m, _, _) ← insert m k v h free;
    Ret (m, true)
  else
    m ← destroyVal m old;
    m ← putVal m old v;
    Ret (m, false).

Definition hasRaw (w : World) m (k : K) : outcome (map * bool) :=
  h ← callHash keyT w k;
  '(m, slot) ← findSlot w m k h;
  Ret (m, negb (slot =? free)).

Definition getUnsafeRaw (w : World) m (k : K) : outcome (map * option Z) :=
  h ← callHash keyT w k;
  '(m, slot) ← findSlot w m k h;
  Ret (m, if slot =? free then None else Some slot).

Definition getRaw (w : World) m (k : K) : outcome (map * Z) :=
  '(m, result) ← getUnsafeRaw w m k;
  match result with
  | None => Throw (MapError ("The key " +:+ toSFn keyT k +:+ " is not in the map."))
  | Some p => Ret (m, p)
  end.

(** A pointer into the map, or the default. *)
Definition getRawDef (w : World) m (k : K) (def : V) : outcome (map * (Z + V)) :=
  h ← callHash keyT w k;
  '(m, slot) ← findSlot w m k h;
  Ret (m, if slot =? free then inr def else inl slot).

(** [fn] constructs a value at [valPtr(slot)]. *)
Definition atRaw (w : World) m (k : K) (fn : V) : outcome (map * Z) :=
  h ← callHash keyT w k;
  '(m, slot) ← findSlot w m k h;
  if slot =? free then
    '(m, h) ← match watch m with Some _ => newHash w m k | None => Ret (m, h) end;
    '(m, slot, _) ← insert0 m k h free;
    l ← aset (val m) slot (Some fn);
    Ret (set_val l m, slot)
  else Ret (m, slot).

(** [remove]: unlink the node at [slot], whose predecessor in its chain is
    [prev] ([free] for none). *)
Definition removeAt (w : World) m (k : K) (prev slot : Z) : outcome map :=
  si ← aget (info m) slot;
  m ← (if prev =? free then Ret m else setStatus m prev (status si));
  let next := status si in
  m ← setStatus m slot free;
  m ← destroyKey m slot;
  m ← destroyVal m slot;
  m ← (if (prev =? free) && negb (next =? end_) then
         nk ← keyAt m next; m ← putKey m slot nk;
         nv ← valAt m next; m ← putVal m slot nv;
         ni ← aget (info m) next;
         m ← setInfo m slot ni;
         m ← setStatus m next free;
         m ← destroyKey m next;
         destroyVal m next
       else Ret m);
  let m := set_size (u32 (size m - 1)) m in
  Ret (set_watch ((λ s, watch_remove gc w s (addressOf k)) <$> watch m) m).

Fixpoint removeChain (fuel : nat) (w : World) m (k : K) (h prev slot : Z) :
    outcome (map * bool) :=
  match fuel with
  | O => OutOfFuel
  | S fuel =>
      i ← aget (info m) slot;
      found ← (if hash i =? h then c ← keyAt m slot; equal keyT k c else Ret false);
      if found : bool then m ← removeAt w m k prev slot; Ret (m, true)
      else if status i =? end_ then Ret (m, false)
      else removeChain fuel w m k h slot (status i)
  end.

Definition remove (w : World) m (k : K) : outcome (map * bool) :=
  h ← callHash keyT w k;
  let slot := primarySlot m h in
  i ← aget (info m) slot;
  if status i =? free then Ret (m, false)
  else removeChain (length (info m)) w m k h free slot.

Definition removeRaw (w : World) m (k : K) : outcome (map * bool) :=
  if capacity m =? 0 then Ret (m, false)
  else
    '(m, r) ← remove w m k;
    if r : bool then Ret (m, true)
    else if changedHash w m k then rehashRemove w (capacity m) m k
    else Ret (m, false).

(** ** Copying *)

(** [copyArray(src)] for the slot information: [memcpy]. *)
Definition copyInfo (src : list Info) : list Info := src.

(** [copyArray(src, info, type)]: the copy constructor on the slots in use, the rest
    zeroed; or [memcpy] when there is none. *)
Definition copyArray {T} (type : Handle World T) (src : list (option T)) (inf : list Info) :
    list (option T) :=
  match copyFn type with
  | Some f =>
      zip_with (λ (o : option T) i, if status i =? free then None else f <$> o) src inf
  | None => src
  end.

Definition copy m : map :=
  let inf := copyInfo (info m) in
  mkMap (size m) inf (copyArray keyT (key m) inf) (copyArray valT (val m) inf) (watch m)
    (lastFree m).

(** One loop of [deepCopy]: clone the objects of the slots in use in place. *)
Definition deepCopyArray {T} (fn : option (T → T)) (inf : list Info) (a : list (option T)) :
    list (option T) :=
  match fn with
  | Some f => zip_with (λ (o : option T) i, if status i =? free then o else f <$> o) a inf
  | None => a
  end.

Definition deepCopy m : map :=
  mkMap (size m) (info m) (deepCopyArray (deepCopyFn keyT) (info m) (key m))
    (deepCopyArray (deepCopyFn valT) (info m) (val m)) (watch m) (lastFree m).

(** ** Output *)
Definition toS m : outcome string :=
  '(_, out) ← for_loop (S:=bool * string) (length (info m)) 0 (λ i '(first, out),
    x ← aget (info m) i;
    if status x =? free then Ret (first, out)
    else
      let out := if first then out else out +:+ ", "%string in
      k ← keyAt m i; v ← valAt m i;
      Ret (false, out +:+ toSFn keyT k +:+ " -> "%string +:+ toSFn valT v)) (true, "{"%string);
  Ret (out +:+ "}"%string).

(** ** Statistics: [for (nat at = i; info->v[at].status != Info::end; at++) n++] *)
Fixpoint countFrom (fuel : nat) m (at_ n : Z) : outcome Z :=
  match fuel with
  | O => OutOfFuel
  | S fuel =>
      x ← aget (info m) at_;
      if status x =? end_ then Ret n else countFrom fuel m (u32 (at_ + 1)) (u32 (n + 1))
  end.

Definition countCollisions m : outcome Z :=
  for_loop (length (info m)) 0 (λ i c,
    x ← aget (info m) i;
    if negb (status x =? free) && (i =? primarySlot m (hash x))
    then countFrom (S (length (info m))) m i c
    else Ret c) 0.

Definition countMaxChain m : outcome Z :=
  for_loop (length (info m)) 0 (λ i c,
    x ← aget (info m) i;
    if negb (status x =? free) && (i =? primarySlot m (hash x))
    then len ← countFrom (S (length (info m))) m i 1; Ret (Z.max c len)
    else Ret c) 0.
End map.

(** ** Iterators

    An iterator keeps the arrays of the map it was made from. *)
Record Iter (K V : Type) := mkIter {
  it_info : list Info;
  it_key : list (option K);
  it_val : list (option V);
  pos : Z;
}.
Arguments mkIter {K V}.
Arguments it_info {K V}.
Arguments it_key {K V}.
Arguments it_val {K V}.
Arguments pos {K V}.

Section iter.
Context {K V Watch : Type}.
Implicit Types (m : MapBase K V Watch) (it : Iter K V).

Definition atEnd it : bool :=
  match it_key it with [] => true | _ => pos it =? zlen (it_key it) end.

(** [while (!atEnd() && info->v[pos].status == Info::free) pos++] *)
Fixpoint skipFree (fuel : nat) it : outcome (Iter K V) :=
  match fuel with
  | O => OutOfFuel
  | S fuel =>
      if atEnd it then Ret it
      else
        x ← aget (it_info it) (pos it);
        if status x =? free
        then skipFree fuel (mkIter (it_info it) (it_key it) (it_val it) (u32 (pos it + 1)))
        else Ret it
  end.

Definition endRaw : Iter K V := mkIter [] [] [] 0.

Definition beginRaw m : outcome (Iter K V) :=
  skipFree (S (length (key m))) (mkIter (info m) (key m) (val m) 0).

Definition iterAt m (p : Z) : outcome (Iter K V) :=
  x ← aget (info m) p;
  assert (negb (status x =? free));;
  Ret (mkIter (info m) (key m) (val m) p).

Definition preIncRaw it : outcome (Iter K V) :=
  let it := if atEnd it then it
            else mkIter (it_info it) (it_key it) (it_val it) (u32 (pos it + 1)) in
  skipFree (S (length (it_key it))) it.

(** [operator ==]; [same] says that the iterators hold the same arrays. *)
Definition iterEq (same : bool) it it' : bool :=
  if atEnd it && atEnd it' then true else same && (pos it =? pos it').

(** [operator ++(int)]: the old iterator and the new one. *)
Definition postIncRaw it : outcome (Iter K V * Iter K V) :=
  it' ← preIncRaw it; Ret (it, it').

Definition rawKey it : outcome K :=
  o ← aget (it_key it) (pos it); match o with Some k => Ret k | None => Fault end.
Definition rawVal it : outcome V :=
  o ← aget (it_val it) (pos it); match o with Some v => Ret v | None => Fault end.
End iter.

Section find.
Context {World Addr Watch K V : Type} (gc : GcWatch World Addr Watch) (deref : K → Addr).
Context (keyT : Handle World K) (valT : Handle World V).
Implicit Types m : MapBase K V Watch.

Definition findRaw (w : World) m (k : K) : outcome (MapBase K V Watch * Iter K V) :=
  h ← callHash keyT w k;
  '(m, slot) ← findSlot gc deref keyT valT w m k h;
  if slot =? free then Ret (m, endRaw)
  else it ← iterAt m slot; Ret (m, it).

(** ** The C++ interface [Map<K, V>]: pointers are dereferenced. *)
Definition Map_put := putRaw gc deref keyT valT.
Definition Map_has := hasRaw gc deref keyT valT.

Definition Map_get (w : World) m (k : K) : outcome (MapBase K V Watch * V) :=
  '(m, p) ← getRaw gc deref keyT valT w m k; v ← valAt m p; Ret (m, v).

Definition Map_getDef (w : World) m (k : K) (def : V) : outcome (MapBase K V Watch * V) :=
  '(m, p) ← getRawDef gc deref keyT valT w m k def;
  match p with inl slot => v ← valAt m slot; Ret (m, v) | inr d => Ret (m, d) end.

(** [CreateFn<V>::fn] makes the default value. *)
Definition Map_at (w : World) m (k : K) (create : V) : outcome (MapBase K V Watch * V) :=
  '(m, p) ← atRaw gc deref keyT valT w m k create; v ← valAt m p; Ret (m, v).
End find.

Definition Map_remove {World Addr Watch K V} := @removeRaw World Addr Watch K V.
End MapBase.
