(* ===== verification/HashChains.v ===== *)
(** * Chains of the hash containers

    The representation invariant of the slot array that [Core/Map.cpp] and
    [Core/Set.cpp] share: every bucket is a chain of slots that starts at its
    primary position.  The lemmas say which chains result when a node is written,
    linked, moved or unlinked. *)

From stdpp Require Import base list numbers option decidable sets list_relations.
From Stdlib Require Import ZArith Lia.
From S2P Require Import Prelude Handle Bitwise HashMap.
Import MapBase.

(** [seg I l e]: the slots [l] are linked in this order, and the last one to [e]. *)
Fixpoint seg (I : list Info) (l : list Z) (e : Z) : Prop :=
  match l with
  | [] => True
  | i :: l => (∃ x, I !! i = Some x ∧ status x = default e (head l)) ∧ seg I l e
  end.

(** The bucket of a hash value in a table of [cap] slots. *)
Definition bucket (cap h : Z) : Z := Z.land h (cap - 1).

Definition used (I : list Info) (i b : Z) : Prop :=
  ∃ x, I !! i = Some x ∧ status x ≠ free ∧ bucket (zlen I) (hash x) = b.

(** [chain_inv I b l]: [l] is the chain of bucket [b] in the table [I]. *)
Record chain_inv (I : list Info) (b : Z) (l : list Z) : Prop := {
  chain_head : l = [] ∨ head l = Some b;
  chain_nodup : NoDup l;
  chain_seg : seg I l end_;
  chain_mem : ∀ i, i ∈ l ↔ used I i b;
}.

Definition chains (I : list Info) (ch : Z → list Z) : Prop :=
  ∀ b, 0 ≤ b < zlen I → chain_inv I b (ch b).

(** The chains [ch] with bucket [b] replaced. *)
Definition upd (ch : Z → list Z) (b : Z) (l : list Z) : Z → list Z :=
  λ b', if decide (b' = b) then l else ch b'.

(** A table small enough for slot numbers and status codes not to meet. *)
Definition table (I : list Info) : Prop := ∃ p, 0 ≤ p ≤ 31 ∧ zlen I = 2 ^ p.

(** ** Arithmetic of tables *)

Lemma free_val : free = 2 ^ 32 - 1. Proof. reflexivity. Qed.
Lemma end_val : end_ = 2 ^ 32 - 2. Proof. reflexivity. Qed.

Lemma table_bound I : table I → 1 ≤ zlen I ≤ 2 ^ 31.
Proof.
  intros (p & ? & ->). pose proof (Z.pow_le_mono_r 2 p 31).
  pose proof (Z.pow_pos_nonneg 2 p). lia.
Qed.

Lemma slot_not_code I i : table I → 0 ≤ i < zlen I → i ≠ free ∧ i ≠ end_.
Proof. intros H%table_bound ?. rewrite free_val, end_val. lia. Qed.

Lemma table_insert I i x : table I → table (<[i := x]> I).
Proof. unfold table. by rewrite zlen_insert. Qed.

Lemma bucket_range I h : table I → is_u32 h → 0 ≤ bucket (zlen I) h < zlen I.
Proof.
  intros (p & ? & ->) ?. unfold bucket. rewrite land_pow2_pred by lia.
  apply Z.mod_pos_bound, Z.pow_pos_nonneg; lia.
Qed.

Lemma lookupZ_range_Some {A} (I : list A) i x : I !! i = Some x → 0 ≤ i < zlen I.
Proof. apply lookupZ_Some_lt. Qed.

(** ** Segments *)

Lemma seg_frame I I' l e :
  (∀ i, i ∈ l → I' !! i = I !! i) → seg I l e → seg I' l e.
Proof.
  induction l as [|i l IH]; [done|]. cbn. intros Hf [(x & Hx & Hs) Hl]. split.
  - exists x. rewrite Hf by set_solver. done.
  - apply IH; [set_solver|done].
Qed.

Lemma seg_insert I l e i x : i ∉ l → seg I l e → seg (<[i := x]> I) l e.
Proof. intros Hi. apply seg_frame. intros j Hj. apply lookupZ_insert_ne. set_solver. Qed.

Lemma seg_app I l1 l2 e :
  seg I (l1 ++ l2) e ↔ seg I l1 (default e (head l2)) ∧ seg I l2 e.
Proof.
  induction l1 as [|i l1 IH]; cbn; [tauto|]. rewrite IH.
  destruct l1; cbn; tauto.
Qed.

Lemma seg_lookup I l e i : seg I l e → i ∈ l → ∃ x, I !! i = Some x.
Proof.
  induction l as [|j l IH]; [set_solver|]. cbn. intros [(x & Hx & _) ?] [->|]%elem_of_cons; eauto.
Qed.

Lemma seg_cons_status I i l e x :
  seg I (i :: l) e → I !! i = Some x → status x = default e (head l).
Proof. cbn. intros [(y & ? & ?) _] ?. by simplify_eq. Qed.

(** ** Chains *)

Lemma upd_eq ch b l : upd ch b l b = l.
Proof. unfold upd. by rewrite decide_True. Qed.
Lemma upd_ne ch b b' l : b' ≠ b → upd ch b l b' = ch b'.
Proof. intros. unfold upd. by rewrite decide_False. Qed.

Lemma used_range I i b : used I i b → 0 ≤ i < zlen I.
Proof. intros (x & ?%lookupZ_Some_lt & _); done. Qed.

Lemma used_fun I i b b' : used I i b → used I i b' → b = b'.
Proof. intros (x & ? & _ & ?) (y & ? & _ & ?). by simplify_eq. Qed.

Section chains.
Context (I : list Info) (ch : Z → list Z).
Hypothesis Hch : chains I ch.

Lemma chain_free b : 0 ≤ b < zlen I → (¬ ∃ b', used I b b') → ch b = [].
Proof.
  intros Hb Hf. destruct (Hch b Hb) as [[?|Hhd] _ _ Hm]; [done|].
  exfalso. apply Hf. exists b. apply Hm. destruct (ch b); [done|].
  cbn in Hhd. simplify_eq. set_solver.
Qed.

Lemma chain_at_primary b : 0 ≤ b < zlen I → used I b b → ∃ l, ch b = b :: l.
Proof.
  intros Hb Hu. destruct (Hch b Hb) as [[Hn|Hhd] _ _ Hm].
  - apply Hm in Hu. rewrite Hn in Hu. set_solver.
  - destruct (ch b) as [|c l]; [done|]. cbn in Hhd. simplify_eq. eauto.
Qed.

(** A node out of its primary position has a predecessor in its chain. *)
Lemma chain_stranger b i : 0 ≤ b < zlen I → used I i b → i ≠ b →
  ∃ l1 p l2, ch b = l1 ++ p :: i :: l2.
Proof.
  intros Hb Hu Hne. destruct (Hch b Hb) as [Hhd _ _ Hm]. apply Hm in Hu.
  apply list_elem_of_split in Hu as (l1 & l2 & Heq).
  destruct l1 as [|p l1' _] using rev_ind.
  - rewrite Heq in Hhd. cbn in Hhd. destruct Hhd; congruence.
  - exists l1', p, l2. by rewrite Heq, <- app_assoc.
Qed.

Lemma chain_primary_unused b : 0 ≤ b < zlen I → ¬ used I b b → ch b = [].
Proof.
  intros Hb Hu. destruct (Hch b Hb) as [[?|Hhd] _ _ Hm]; [done|].
  exfalso. apply Hu, Hm. destruct (ch b); [done|]. cbn in Hhd. simplify_eq. set_solver.
Qed.
End chains.

(** Every change of the table below touches the slots of one chain and slots that
    were not in use: the other chains stay. *)
Lemma chains_upd I I' ch b l :
  zlen I' = zlen I → chains I ch →
  chain_inv I' b l →
  (∀ i b', b' ≠ b → used I i b' → I' !! i = I !! i) →
  (∀ i b', b' ≠ b → used I' i b' → used I i b') →
  chains I' (upd ch b l).
Proof.
  intros Hlen Hch Hl Hframe Hused b' Hb'. rewrite Hlen in Hb'.
  destruct (decide (b' = b)) as [->|Hne]; [by rewrite upd_eq|].
  rewrite upd_ne by done. destruct (Hch b' Hb') as [Hhd Hnd Hseg Hm].
  split; [done|done| |].
  - eapply seg_frame; [|done]. intros i Hi%Hm. eauto.
  - intros i. rewrite Hm. split; [|eauto].
    intros Hu. pose proof (Hframe _ _ Hne Hu) as E. destruct Hu as (x & ? & ? & ?).
    exists x. rewrite E, Hlen. done.
Qed.

Lemma used_insert I j x i b : 0 ≤ j < zlen I →
  used (<[j := x]> I) i b ↔
    if decide (j = i) then status x ≠ free ∧ bucket (zlen I) (hash x) = b else used I i b.
Proof.
  intros Hj. unfold used. rewrite zlen_insert.
  setoid_rewrite lookupZ_insert; [|done]. case_decide; [|done].
  split; [intros (? & [= <-] & ?); done|eauto].
Qed.

(** Case analysis on which updated slot a use refers to. *)
Ltac used_cases :=
  repeat (rewrite used_insert by zsolve; rewrite ?zlen_insert; case_decide); cbn.

Lemma unused_slot I i x b : I !! i = Some x → status x = free → ¬ used I i b.
Proof. intros ? ? (y & ? & ? & _). by simplify_eq. Qed.

Lemma used_slot I i x : I !! i = Some x → status x ≠ free →
  used I i (bucket (zlen I) (hash x)).
Proof. intros. by exists x. Qed.

(** A node written to its free primary slot is a chain of its own. *)
Lemma chains_write I ch b x h :
  chains I ch → I !! b = Some x → status x = free → bucket (zlen I) h = b →
  chains (<[b := mkInfo end_ h]> I) (upd ch b [b]).
Proof.
  intros Hch Hx Hfree Hb. pose proof (lookupZ_Some_lt _ _ _ Hx) as Hr.
  assert (ch b = []) as Hnil.
  { apply (chain_primary_unused I ch Hch b Hr). by eapply unused_slot. }
  assert (∀ i, ¬ used I i b) as Hno.
  { intros i Hu%(Hch b Hr). rewrite Hnil in Hu. set_solver. }
  apply (chains_upd I); [apply zlen_insert|done| | |].
  - split; [by right|apply NoDup_singleton| |].
    + cbn. split; [|done]. eexists. by rewrite lookupZ_insert_eq.
    + intros i. rewrite used_insert, list_elem_of_singleton by done. case_decide.
      * cbn. rewrite end_val, free_val. naive_solver.
      * naive_solver.
  - intros i b' Hne Hu. apply lookupZ_insert_ne. intros ->. by eapply unused_slot.
  - intros i b' Hne. rewrite used_insert by done. case_decide; [|done]. cbn. naive_solver.
Qed.

(** A node of the same bucket goes to the free slot [t], second in the chain. *)
Lemma chains_attach I ch b l t y x h :
  table I → chains I ch → I !! b = Some x → ch b = b :: l →
  I !! t = Some y → status y = free → bucket (zlen I) h = b →
  chains (<[t := mkInfo (status x) h]> (<[b := mkInfo t (hash x)]> I))
    (upd ch b (b :: t :: l)).
Proof.
  intros Htab Hch Hx Hl Ht Hfree Hb.
  pose proof (lookupZ_Some_lt _ _ _ Hx) as Hr. pose proof (lookupZ_Some_lt _ _ _ Ht) as Hrt.
  destruct (Hch b Hr) as [_ Hnd Hseg Hm]. rewrite Hl in Hnd, Hseg, Hm.
  assert (used I b b) as Hub by (apply Hm; set_solver).
  assert (∀ b', ¬ used I t b') as Htu by (intros ?; by eapply unused_slot).
  assert (t ≠ b) by (intros ->; by eapply Htu).
  assert (t ∉ (b :: l)) as Htl by (rewrite Hm; apply Htu).
  assert (status x ≠ free) by (destruct Hub as (? & ? & ? & _); by simplify_eq).
  destruct (slot_not_code I t Htab Hrt).
  assert (bucket (zlen I) (hash x) = b) by (destruct Hub as (? & ? & _ & ?); by simplify_eq).
  apply (chains_upd I); [by rewrite !zlen_insert|done| | |].
  - split; [by right| | |].
    + apply NoDup_cons in Hnd as [? ?].
      repeat (apply NoDup_cons; split); [set_solver|set_solver|done].
    + cbn. rewrite lookupZ_insert_ne, !lookupZ_insert_eq by zsolve.
      pose proof (seg_cons_status _ _ _ _ _ Hseg Hx) as Hs.
      split; [by eexists|]. split; [by eexists|].
      apply NoDup_cons in Hnd as [? ?]. cbn in Hseg. destruct Hseg as [_ Hseg].
      apply seg_insert; [set_solver|]. by apply seg_insert.
    + intros i. rewrite elem_of_cons, elem_of_cons. specialize (Hm i).
      rewrite elem_of_cons in Hm. used_cases; intuition congruence.
  - intros i b' Hne Hu. rewrite !lookupZ_insert_ne; [done| |].
    + intros ->. eapply Hne, used_fun; eauto.
    + intros ->. by eapply Htu.
  - intros i b' Hne. used_cases; intuition congruence.
Qed.

(** The node at [b], not in its primary position, moves to the free slot [t]. *)
Lemma chains_move I ch q l1 p l2 b t y x px :
  table I → chains I ch → 0 ≤ q < zlen I → ch q = l1 ++ p :: b :: l2 →
  I !! b = Some x → I !! p = Some px → I !! t = Some y → status y = free →
  chains (<[b := mkInfo free (hash x)]> (<[t := x]> (<[p := mkInfo t (hash px)]> I)))
    (upd ch q (l1 ++ p :: t :: l2)).
Proof.
  intros Htab Hch Hq Hl Hx Hp Ht Hfree.
  pose proof (lookupZ_Some_lt _ _ _ Hx) as Hr. pose proof (lookupZ_Some_lt _ _ _ Hp) as Hrp.
  pose proof (lookupZ_Some_lt _ _ _ Ht) as Hrt.
  destruct (Hch q Hq) as [Hhd Hnd Hseg Hm]. rewrite Hl in Hhd, Hnd, Hseg, Hm.
  assert (used I b q) as Hub by (apply Hm; set_solver).
  assert (used I p q) as Hup by (apply Hm; set_solver).
  assert (∀ b', ¬ used I t b') as Htu by (intros ?; by eapply unused_slot).
  assert (t ∉ (l1 ++ p :: b :: l2)) as Htl by (rewrite Hm; apply Htu).
  destruct (slot_not_code I t Htab Hrt).
  assert (status x ≠ free ∧ bucket (zlen I) (hash x) = q) as [? ?].
  { destruct Hub as (? & ? & ? & ?). by simplify_eq. }
  assert (status px ≠ free ∧ bucket (zlen I) (hash px) = q) as [? ?].
  { destruct Hup as (? & ? & ? & ?). by simplify_eq. }
  apply NoDup_app in Hnd as (Hn1 & Hn12 & [Hpn [Hbn Hn2]%NoDup_cons]%NoDup_cons).
  assert (p ≠ b) by set_solver. assert (t ≠ p) by set_solver. assert (t ≠ b) by set_solver.
  assert ((b ∉ l1) ∧ (p ∉ l1)) as [? ?] by (split; intros Hi%Hn12; set_solver).
  apply (chains_upd I); [by rewrite !zlen_insert|done| | |].
  - split.
    + destruct l1; [|naive_solver]. right. by destruct Hhd.
    + apply NoDup_app. split; [done|]. split; [set_solver|].
      repeat (apply NoDup_cons; split); set_solver.
    + apply seg_app in Hseg as [Hs1 Hs2]. apply seg_app. split.
      * repeat (apply seg_insert; [set_solver|]). done.
      * cbn in Hs2 |- *. destruct Hs2 as [_ [(? & ? & Hs) Hs3]]. simplify_eq.
        rewrite !(lookupZ_insert_ne _ b), !(lookupZ_insert_ne _ t), !lookupZ_insert_eq by zsolve.
        split; [by eexists|]. split; [by eexists|].
        repeat (apply seg_insert; [set_solver|]). done.
    + intros i. specialize (Hm i). rewrite !elem_of_app, !elem_of_cons in Hm, Htl |- *.
      used_cases; intuition congruence.
  - intros i b' Hne Hu. rewrite !lookupZ_insert_ne; [done|..]; intros ->;
      (by eapply Htu) || (eapply Hne, used_fun; eauto).
  - intros i b' Hne. used_cases; intuition congruence.
Qed.

(** A node inside a chain is unlinked from its predecessor [p]. *)
Lemma chains_unlink I ch q l1 p l2 b x px :
  chains I ch → 0 ≤ q < zlen I → ch q = l1 ++ p :: b :: l2 →
  I !! b = Some x → I !! p = Some px →
  chains (<[b := mkInfo free (hash x)]> (<[p := mkInfo (status x) (hash px)]> I))
    (upd ch q (l1 ++ p :: l2)).
Proof.
  intros Hch Hq Hl Hx Hp.
  pose proof (lookupZ_Some_lt _ _ _ Hx) as Hr. pose proof (lookupZ_Some_lt _ _ _ Hp) as Hrp.
  destruct (Hch q Hq) as [Hhd Hnd Hseg Hm]. rewrite Hl in Hhd, Hnd, Hseg, Hm.
  assert (used I b q) as Hub by (apply Hm; set_solver).
  assert (used I p q) as Hup by (apply Hm; set_solver).
  assert (status x ≠ free ∧ bucket (zlen I) (hash x) = q) as [? ?].
  { destruct Hub as (? & ? & ? & ?). by simplify_eq. }
  assert (status px ≠ free ∧ bucket (zlen I) (hash px) = q) as [? ?].
  { destruct Hup as (? & ? & ? & ?). by simplify_eq. }
  apply NoDup_app in Hnd as (Hn1 & Hn12 & [Hpn [Hbn Hn2]%NoDup_cons]%NoDup_cons).
  assert (p ≠ b) by set_solver.
  assert ((b ∉ l1) ∧ (p ∉ l1)) as [? ?] by (split; intros Hi%Hn12; set_solver).
  apply (chains_upd I); [by rewrite !zlen_insert|done| | |].
  - split.
    + destruct l1; [|naive_solver]. right. by destruct Hhd.
    + apply NoDup_app. split; [done|]. split; [set_solver|].
      apply NoDup_cons; split; set_solver.
    + apply seg_app in Hseg as [Hs1 Hs2]. apply seg_app. split.
      * repeat (apply seg_insert; [set_solver|]). done.
      * cbn in Hs2 |- *. destruct Hs2 as [_ [(? & ? & Hs) Hs3]]. simplify_eq.
        rewrite (lookupZ_insert_ne _ b), lookupZ_insert_eq by zsolve.
        split; [by eexists|].
        repeat (apply seg_insert; [set_solver|]). done.
    + intros i. specialize (Hm i). set_unfold in Hm. set_unfold.
      used_cases; try subst i; intuition congruence.
  - intros i b' Hne Hu. rewrite !lookupZ_insert_ne; [done|..]; intros ->;
      eapply Hne, used_fun; eauto.
  - intros i b' Hne. used_cases; intuition congruence.
Qed.

(** The only node of a bucket is removed. *)
Lemma chains_single I ch b x :
  chains I ch → I !! b = Some x → ch b = [b] →
  chains (<[b := mkInfo free (hash x)]> I) (upd ch b []).
Proof.
  intros Hch Hx Hl. pose proof (lookupZ_Some_lt _ _ _ Hx) as Hr.
  destruct (Hch b Hr) as [_ _ _ Hm]. rewrite Hl in Hm.
  assert (used I b b) as Hub by (apply Hm; set_solver).
  apply (chains_upd I); [by rewrite !zlen_insert|done| | |].
  - split; [by left|apply NoDup_nil_2|done|].
    intros i. specialize (Hm i). rewrite list_elem_of_singleton in Hm. rewrite elem_of_nil.
    used_cases; intuition congruence.
  - intros i b' Hne Hu. rewrite lookupZ_insert_ne; [done|]. intros ->.
    eapply Hne, used_fun; eauto.
  - intros i b' Hne. used_cases; intuition congruence.
Qed.

(** The first node of a longer chain is removed: the second one takes its slot. *)
Lemma chains_replace_head I ch b n l x nx :
  chains I ch → I !! b = Some x → I !! n = Some nx → ch b = b :: n :: l →
  chains (<[n := mkInfo free (hash nx)]> (<[b := nx]> I)) (upd ch b (b :: l)).
Proof.
  intros Hch Hx Hn Hl. pose proof (lookupZ_Some_lt _ _ _ Hx) as Hr.
  pose proof (lookupZ_Some_lt _ _ _ Hn) as Hrn.
  destruct (Hch b Hr) as [_ Hnd Hseg Hm]. rewrite Hl in Hnd, Hseg, Hm.
  assert (used I b b) as Hub by (apply Hm; set_solver).
  assert (used I n b) as Hun by (apply Hm; set_solver).
  assert (status nx ≠ free ∧ bucket (zlen I) (hash nx) = b) as [? ?].
  { destruct Hun as (? & ? & ? & ?). by simplify_eq. }
  apply NoDup_cons in Hnd as [Hbn [Hnn Hnd]%NoDup_cons].
  assert (b ≠ n) by set_solver.
  apply (chains_upd I); [by rewrite !zlen_insert|done| | |].
  - split; [by right|apply NoDup_cons; set_solver| |].
    + cbn in Hseg |- *. destruct Hseg as (_ & (? & ? & ?) & Hseg). simplify_eq.
      rewrite (lookupZ_insert_ne _ n), lookupZ_insert_eq by zsolve.
      split; [by eexists|]. repeat (apply seg_insert; [set_solver|]). done.
    + intros i. specialize (Hm i). set_unfold in Hm. set_unfold.
      used_cases; try subst i; intuition congruence.
  - intros i b' Hne Hu. rewrite !lookupZ_insert_ne; [done|..]; intros ->;
      eapply Hne, used_fun; eauto.
  - intros i b' Hne. used_cases; intuition congruence.
Qed.

(** An empty table has empty chains. *)
Lemma chains_empty n h : chains (replicate n (mkInfo free h)) (λ _, []).
Proof.
  intros b Hb. split; [by left|apply NoDup_nil_2|done|].
  intros i. rewrite elem_of_nil. split; [done|]. intros (x & Hx & Hs & _).
  pose proof (lookupZ_Some_lt _ _ _ Hx) as Hr. rewrite zlen_replicate in Hr.
  rewrite lookupZ_replicate in Hx by lia. by simplify_eq.
Qed.
