(* ===== verification/HashMapProofs.v ===== *)
(** * Correctness of the hash map

    The representation invariant [map_wf] of [MapBase], that every operation of
    [HashMap.v] keeps it, and that the map behaves as a finite map from keys to
    values, also when the collector moves the keys it hashes by address. *)

From stdpp Require Import base list numbers strings option decidable sets gmap.
From Stdlib Require Import ZArith Lia.
From S2P Require Import Prelude Handle Bitwise HashMap HashChains.
Import MapBase.

(** The contents of the table, in slot order. *)
Fixpoint entriesOf {K V} (ks : list (option K)) (vs : list (option V)) : list (K * V) :=
  match ks, vs with
  | Some k :: ks, Some v :: vs => (k, v) :: entriesOf ks vs
  | _ :: ks, _ :: vs => entriesOf ks vs
  | _, _ => []
  end.

Definition entries {K V Watch} (m : MapBase K V Watch) : list (K * V) :=
  entriesOf (key m) (val m).

(** Slot [i] holds a node with stored hash [h], key [k] and value [v]. *)
Definition node {K V Watch} (m : MapBase K V Watch) (i h : Z) (k : K) (v : V) : Prop :=
  (∃ x, info m !! i = Some x ∧ status x ≠ free ∧ hash x = h) ∧
  key m !! i = Some (Some k) ∧ val m !! i = Some (Some v).

(** The representation invariant, with the chains of the buckets. *)
Record map_wf {K V Watch} (m : MapBase K V Watch) (ch : Z → list Z) : Prop := {
  wf_key : zlen (key m) = zlen (info m);
  wf_val : zlen (val m) = zlen (info m);
  wf_tab : info m = [] ∨ table (info m);
  wf_last : 0 ≤ lastFree m ∧ (info m ≠ [] → lastFree m < zlen (info m));
  wf_hash : ∀ i x, info m !! i = Some x → is_u32 (hash x);
  wf_chains : chains (info m) ch;
  wf_free : ∀ i x, info m !! i = Some x → status x = free →
    key m !! i = Some None ∧ val m !! i = Some None;
  wf_occ : ∀ i x, info m !! i = Some x → status x ≠ free →
    ∃ k v, key m !! i = Some (Some k) ∧ val m !! i = Some (Some v);
  wf_inj : ∀ i j k, key m !! i = Some (Some k) → key m !! j = Some (Some k) → i = j;
  wf_size : size m = zlen (entries m);
}.

(** The part of the invariant about the slots alone. *)
Record slots_wf {K V Watch} (m : MapBase K V Watch) : Prop := {
  sw_key : zlen (key m) = zlen (info m);
  sw_val : zlen (val m) = zlen (info m);
  sw_free : ∀ i x, info m !! i = Some x → status x = free →
    key m !! i = Some None ∧ val m !! i = Some None;
  sw_occ : ∀ i x, info m !! i = Some x → status x ≠ free →
    ∃ k v, key m !! i = Some (Some k) ∧ val m !! i = Some (Some v);
  sw_inj : ∀ i j k, key m !! i = Some (Some k) → key m !! j = Some (Some k) → i = j;
}.

Lemma wf_slots {K V Watch} (m : MapBase K V Watch) ch : map_wf m ch → slots_wf m.
Proof. intros []. by split. Qed.

(** ** Entries *)

Section entries.
Context {K V : Type}.
Implicit Types (ks : list (option K)) (vs : list (option V)).

Lemma elem_of_entriesOf ks vs k v :
  (k, v) ∈ entriesOf ks vs ↔ ∃ i : nat, ks !! i = Some (Some k) ∧ vs !! i = Some (Some v).
Proof.
  revert vs. induction ks as [|o ks IH]; intros vs; cbn.
  { split; [set_solver|]. intros (i & ? & _). by destruct i. }
  assert (∀ vs, (k, v) ∈ entriesOf ks vs ↔
    ∃ i : nat, (o :: ks) !! S i = Some (Some k) ∧ vs !! i = Some (Some v)) as IH' by done.
  destruct vs as [|ov vs].
  { destruct o; (split; [set_solver|]); intros (i & _ & ?); by destruct i. }
  assert ((∃ i : nat, (o :: ks) !! i = Some (Some k) ∧ (ov :: vs) !! i = Some (Some v)) ↔
    (o = Some k ∧ ov = Some v) ∨ (k, v) ∈ entriesOf ks vs) as ->.
  { rewrite IH. split.
    - intros ([|i] & ? & ?); [left; naive_solver|right; eauto].
    - intros [[-> ->]|(i & ? & ?)]; [by exists 0%nat|by exists (S i)]. }
  destruct o, ov; rewrite ?elem_of_cons; naive_solver.
Qed.

Lemma entriesOf_length_full ks vs :
  length vs = length ks →
  (∀ i : nat, (i < length ks)%nat → ∃ k v, ks !! i = Some (Some k) ∧ vs !! i = Some (Some v)) →
  length (entriesOf ks vs) = length ks.
Proof.
  revert vs. induction ks as [|o ks IH]; intros [|ov vs] Hlen Hfull; cbn in *; try done.
  destruct (Hfull 0%nat ltac:(lia)) as (k & v & [= ->] & [= ->]). cbn. f_equal.
  apply IH; [lia|]. intros i Hi. apply (Hfull (S i)). lia.
Qed.

Lemma entriesOf_nodup ks vs :
  (∀ (i j : nat) k, ks !! i = Some (Some k) → ks !! j = Some (Some k) → i = j) →
  NoDup (entriesOf ks vs).*1.
Proof.
  revert vs. induction ks as [|o ks IH]; intros vs Hinj; [apply NoDup_nil_2|].
  assert (∀ vs, NoDup (entriesOf ks vs).*1) as IH'.
  { intros. apply IH. intros i j k Hi Hj.
    assert (S i = S j) by (by apply (Hinj (S i) (S j) k)). lia. }
  destruct vs as [|ov vs]; [destruct o; apply NoDup_nil_2|].
  destruct o as [k|], ov as [v|]; cbn; try apply IH'.
  apply NoDup_cons. split; [|apply IH'].
  intros ([k' v'] & -> & (i & Hi & _)%elem_of_entriesOf)%list_elem_of_fmap.
  cbn in *. assert (0%nat = S i) by (by apply (Hinj 0%nat (S i) k')). lia.
Qed.

Lemma entriesOf_none n (vs : list (option V)) : entriesOf (replicate n (None : option K)) vs = [].
Proof. revert vs. induction n; intros [|[] ?]; cbn; auto. Qed.
End entries.

Section wf.
Context {K V Watch : Type}.
Implicit Types m : MapBase K V Watch.

Lemma elem_of_entries m k v :
  (k, v) ∈ entries m ↔ ∃ i, key m !! i = Some (Some k) ∧ val m !! i = Some (Some v).
Proof.
  unfold entries. rewrite elem_of_entriesOf. split.
  - intros (i & ? & ?). exists (Z.of_nat i). by rewrite !lookupZ_nat.
  - intros (i & Hi & ?). pose proof (lookupZ_Some_lt _ _ _ Hi).
    exists (Z.to_nat i). rewrite <- !lookupZ_to_nat by lia. done.
Qed.

Lemma entries_nodup m :
  (∀ i j k, key m !! i = Some (Some k) → key m !! j = Some (Some k) → i = j) →
  NoDup (entries m).*1.
Proof.
  intros Hinj. apply entriesOf_nodup. intros i j k Hi Hj.
  assert (Z.of_nat i = Z.of_nat j); [|lia].
  eapply Hinj; rewrite lookupZ_nat; done.
Qed.

Lemma slots_entries_node m k v :
  slots_wf m → (k, v) ∈ entries m ↔ ∃ i h, node m i h k v.
Proof.
  intros [Hlk Hlv Hfr Hoc Hinj]. rewrite elem_of_entries. split.
  - intros (i & Hk & Hv). pose proof (lookupZ_Some_lt _ _ _ Hk) as Hr.
    rewrite Hlk in Hr. destruct (lookupZ_lt_Some _ _ Hr) as [x Hx].
    exists i, (hash x). split; [|done]. exists x. split; [done|]. split; [|done].
    intros Hf. destruct (Hfr _ _ Hx Hf). congruence.
  - intros (i & h & _ & ? & ?). eauto.
Qed.

(** The entries of a table are determined by its nodes, up to order. *)
Lemma entries_perm m l :
  slots_wf m → NoDup l → (∀ k v, (∃ i h, node m i h k v) ↔ (k, v) ∈ l) → entries m ≡ₚ l.
Proof.
  intros Hs Hl H. apply NoDup_Permutation; [|done|].
  - eapply NoDup_fmap_1, entries_nodup, sw_inj, Hs.
  - intros [k v]. by rewrite slots_entries_node.
Qed.

Context m ch (Hwf : map_wf m ch).

Lemma wf_node i x : info m !! i = Some x → status x ≠ free → ∃ k v, node m i (hash x) k v.
Proof.
  intros Hx Hs. destruct (wf_occ _ _ Hwf _ _ Hx Hs) as (k & v & ? & ?).
  exists k, v. split; [eauto|done].
Qed.

Lemma entries_node k v : (k, v) ∈ entries m ↔ ∃ i h, node m i h k v.
Proof. eapply slots_entries_node, wf_slots, Hwf. Qed.

Lemma wf_entries_nodup : NoDup (entries m).*1.
Proof. apply entries_nodup, Hwf. Qed.

Lemma node_range i h k v : node m i h k v → 0 ≤ i < zlen (info m).
Proof. intros ((x & ? & _) & _). by eapply lookupZ_Some_lt. Qed.

Lemma node_inj i j h h' k v v' : node m i h k v → node m j h' k v' → i = j ∧ h = h' ∧ v = v'.
Proof.
  intros [(x & ? & ? & ?) [? ?]] [(y & ? & ? & ?) [? ?]].
  assert (i = j) as <- by (by eapply (wf_inj _ _ Hwf)). by simplify_eq.
Qed.

Lemma wf_capacity : capacity m = zlen (info m).
Proof.
  unfold capacity. rewrite u32_small; [done|]. unfold is_u32.
  destruct (wf_tab _ _ Hwf) as [->|Ht%table_bound]; [done|lia].
Qed.

Lemma wf_primary h : table (info m) → primarySlot m h = bucket (zlen (info m)) h.
Proof.
  intros Ht%table_bound. unfold primarySlot, bucket. rewrite wf_capacity.
  rewrite u32_small; [done|]. unfold is_u32. lia.
Qed.

(** With room left there is a free slot. *)
Lemma wf_free_exists : size m < zlen (info m) →
  ∃ t y, info m !! t = Some y ∧ status y = free.
Proof.
  intros Hsz. destruct (decide (Exists (λ x, status x = free) (info m))) as [He|Hn].
  - apply Exists_exists in He as (y & Hy & ?).
    apply list_elem_of_lookupZ in Hy as [t ?]. eauto.
  - exfalso. rewrite (wf_size _ _ Hwf) in Hsz.
    assert (length (entries m) = length (key m)) as E.
    { pose proof (wf_key _ _ Hwf). pose proof (wf_val _ _ Hwf). unfold zlen in *.
      apply entriesOf_length_full; [lia|]. intros i Hi.
      destruct (lookup_lt_is_Some_2 (info m) i ltac:(lia)) as [x Hx].
      rewrite <- (lookupZ_nat (info m)) in Hx.
      destruct (wf_occ _ _ Hwf _ _ Hx) as (k & v & Hk & Hv).
      { intros Hf. apply Hn, Exists_exists. exists x. split; [|done].
        apply list_elem_of_lookupZ. eauto. }
      rewrite lookupZ_nat in Hk. rewrite lookupZ_nat in Hv. eauto. }
    pose proof (wf_key _ _ Hwf). unfold zlen in *. lia.
Qed.
End wf.

(** Lookups after updates, in the goal and in every hypothesis. *)
Ltac lk_side := zlens; unfold is_u32 in *; first [assumption | lia].
Ltac lk :=
  repeat match goal with
  | H : context [<[?i := _]> _ !! ?i] |- _ => rewrite lookupZ_insert_eq in H by lk_side
  | |- context [<[?i := _]> _ !! ?i] => rewrite lookupZ_insert_eq by lk_side
  | H : ?i ≠ ?j |- context [<[?i := _]> _ !! ?j] => rewrite (lookupZ_insert_ne _ i j) by exact H
  | H : ?i ≠ ?j, H' : context [<[?i := _]> _ !! ?j] |- _ =>
      rewrite (lookupZ_insert_ne _ i j) in H' by exact H
  | H : ?j ≠ ?i |- context [<[?i := _]> _ !! ?j] =>
      rewrite (lookupZ_insert_ne _ i j) by (exact (not_eq_sym H))
  | H : ?j ≠ ?i, H' : context [<[?i := _]> _ !! ?j] |- _ =>
      rewrite (lookupZ_insert_ne _ i j) in H' by (exact (not_eq_sym H))
  | H' : context [<[?i := _]> _ !! ?j] |- _ => destruct (decide (i = j)); [subst|]
  | |- context [<[?i := _]> _ !! ?j] => destruct (decide (i = j)); [subst|]
  end; simplify_eq/=.

Section insert.
Context {World Addr Watch K V : Type}.
Context (keyT : Handle World K) (valT : Handle World V).
Context `{!CopyHandle keyT, !CopyHandle valT}.
Implicit Types m : MapBase K V Watch.

Lemma land_next I i : table I → 0 ≤ i < zlen I →
  Z.land (u32 (i + 1)) (u32 (u32 (zlen I) - 1)) = (i + 1) `mod` zlen I.
Proof.
  intros Ht ?. pose proof (table_bound _ Ht). rewrite !u32_small by (unfold is_u32; rewrite ?u32_small; unfold is_u32; lia).
  destruct Ht as (p & ? & E). rewrite E. apply land_pow2_pred. lia.
Qed.

Lemma freeSlotLoop_spec fuel m at_ t y :
  table (info m) → info m !! t = Some y → status y = free → 0 ≤ at_ < zlen (info m) →
  (t - at_) `mod` zlen (info m) < Z.of_nat fuel →
  returns (freeSlotLoop fuel m at_) (λ s, ∃ x, info m !! s = Some x ∧ status x = free).
Proof.
  intros Htab Ht Hy. pose proof (lookupZ_Some_lt _ _ _ Ht) as Hr.
  revert at_. induction fuel as [|fuel IH]; intros at_ Hat Hd.
  { pose proof (Z.mod_pos_bound (t - at_) (zlen (info m))). lia. }
  cbn [freeSlotLoop]. destruct (lookupZ_lt_Some _ _ Hat) as [x Hx].
  rewrite (aget_Some _ _ _ Hx). cbn. destruct (Z.eqb_spec (status x) free); [by exists x|].
  assert (at_ ≠ t) by (intros ->; congruence).
  unfold capacity. rewrite (land_next (info m)) by done.
  apply IH; [apply Z.mod_pos_bound; lia|].
  destruct (decide (at_ + 1 = zlen (info m))) as [E|].
  - rewrite E, Z.mod_same, Z.sub_0_r by lia. rewrite Z.mod_small by lia.
    rewrite <- (Z.mod_unique_pos (t - at_) (zlen (info m)) (-1) (t + 1)) in Hd by lia. lia.
  - rewrite (Z.mod_small (at_ + 1)) by lia.
    destruct (decide (at_ < t)).
    + rewrite Z.mod_small in Hd |- * by lia. lia.
    + rewrite <- (Z.mod_unique_pos (t - at_) (zlen (info m)) (-1) (t - at_ + zlen (info m))) in Hd by lia.
      rewrite <- (Z.mod_unique_pos _ (zlen (info m)) (-1) (t - (at_ + 1) + zlen (info m))) by lia. lia.
Qed.

(** [freeSlot] terminates and finds a free slot whenever there is room. *)
Lemma freeSlot_spec m ch :
  map_wf m ch → table (info m) → size m < zlen (info m) →
  returns (freeSlot m) (λ '(m', t), m' = set_lastFree t m ∧
    ∃ y, info m !! t = Some y ∧ status y = free).
Proof.
  intros Hwf Htab Hsz. destruct (wf_free_exists m ch Hwf Hsz) as (t & y & Ht & Hy).
  unfold freeSlot. eapply returns_bind.
  - eapply freeSlotLoop_spec; [done|exact Ht|done| |].
    + destruct (wf_last _ _ Hwf) as [? Hl]. split; [done|]. apply Hl. intros E. by rewrite E, lookupZ_nil in Ht.
    + pose proof (table_bound _ Htab). unfold zlen in *. apply Z.mod_pos_bound. lia.
  - intros s (x & ? & ?). cbn. eauto.
Qed.

(** [ready m h m' into st wt wt' ch]: the table [m'] is [m] with its nodes possibly
    rearranged so that slot [into] is free, and writing a node with status [st] and
    hash [h] there gives the chains [ch].  A node at the watched slot [wt] is now
    at [wt']. *)
Record ready m (h : Z) m' (into st wt wt' : Z) (ch : Z → list Z) : Prop := {
  rd_size : size m' = size m;
  rd_watch : watch m' = watch m;
  rd_info : zlen (info m') = zlen (info m);
  rd_key : zlen (key m') = zlen (info m);
  rd_val : zlen (val m') = zlen (info m);
  rd_last : 0 ≤ lastFree m' < zlen (info m);
  rd_hash : ∀ i x, info m' !! i = Some x → is_u32 (hash x);
  rd_st : st ≠ free;
  rd_slot : ∃ x, info m' !! into = Some x ∧ status x = free;
  rd_chains : chains (<[into := mkInfo st h]> (info m')) ch;
  rd_free : ∀ i x, info m' !! i = Some x → status x = free →
    key m' !! i = Some None ∧ val m' !! i = Some None;
  rd_occ : ∀ i x, info m' !! i = Some x → status x ≠ free →
    ∃ k v, key m' !! i = Some (Some k) ∧ val m' !! i = Some (Some v);
  rd_inj : ∀ i j k, key m' !! i = Some (Some k) → key m' !! j = Some (Some k) → i = j;
  rd_nodes : ∀ h' k' v', (∃ i, node m' i h' k' v') ↔ (∃ i, node m i h' k' v');
  rd_wt : ∀ h' k' v', node m wt h' k' v' → node m' wt' h' k' v';
  rd_wt_free : wt = free → wt' = free;
}.

(** The primary slot is free. *)
Lemma ready_free m ch h x wt :
  map_wf m ch → table (info m) → info m !! bucket (zlen (info m)) h = Some x →
  status x = free →
  ready m h m (bucket (zlen (info m)) h) end_ wt wt
    (upd ch (bucket (zlen (info m)) h) [bucket (zlen (info m)) h]).
Proof.
  intros Hwf Htab Hx Hs. pose proof (wf_last _ _ Hwf) as [? Hl].
  split; try done; try apply Hwf.
  - split; [done|]. apply Hl. intros E. by rewrite E, lookupZ_nil in Hx.
  - eauto.
  - by eapply chains_write; [apply Hwf|..].
Qed.

(** The primary slot holds a node of the same bucket. *)
Lemma ready_attach m ch h x wt t y :
  map_wf m ch → table (info m) → is_u32 h →
  let b := bucket (zlen (info m)) h in
  info m !! b = Some x → status x ≠ free → bucket (zlen (info m)) (hash x) = b →
  info m !! t = Some y → status y = free →
  ∃ ch', ready m h (set_info (<[b := mkInfo t (hash x)]> (info m)) (set_lastFree t m))
    t (status x) wt wt ch'.
Proof.
  intros Hwf Htab Hh b Hx Hs Hb Ht Hy. subst b. set (b := bucket _ h) in *.
  pose proof (lookupZ_Some_lt _ _ _ Hx) as Hrb. pose proof (lookupZ_Some_lt _ _ _ Ht) as Hrt.
  destruct (chain_at_primary (info m) ch (wf_chains _ _ Hwf) b Hrb) as [l Hl].
  { exists x. done. }
  destruct (slot_not_code _ t Htab Hrt).
  assert (b ≠ t) by (intros E; rewrite E in Hx; congruence).
  assert (∀ i h' k' v', node (set_info (<[b := mkInfo t (hash x)]> (info m)) (set_lastFree t m)) i h' k' v'
    ↔ node m i h' k' v') as Hnode.
  { intros i h' k' v'. unfold node; cbn. split; intros [(z & Hz & ? & ?) ?]; (split; [|done]).
    - lk; [by exists x|by exists z].
    - destruct (decide (b = i)) as [<-|]; lk; eauto. }
  exists (upd ch b (b :: t :: l)).
  split; cbn; rewrite ?zlen_insert; try done; try apply Hwf.
  - intros i z Hz. lk; by eapply (wf_hash _ _ Hwf).
  - exists y. by rewrite lookupZ_insert_ne.
  - eapply chains_attach; [done|apply Hwf|done..].
  - intros i z Hz Hf. lk. by eapply (wf_free _ _ Hwf).
  - intros i z Hz Hf. lk; by eapply (wf_occ _ _ Hwf).
  - intros. by setoid_rewrite Hnode.
  - intros. by apply Hnode.
Qed.

(** The primary slot [b] holds a node of another bucket, which moves to [t]. *)
Definition moved_table m (b p t : Z) (x px : Info) (k : K) (v : V) : MapBase K V Watch :=
  mkMap (size m)
    (<[b := mkInfo free (hash x)]> (<[t := x]> (<[p := mkInfo t (hash px)]> (info m))))
    (<[b := None]> (<[t := Some k]> (key m))) (<[b := None]> (<[t := Some v]> (val m)))
    (watch m) t.

(** Where a node is after the move. *)
Definition moved_slot (b t i : Z) : Z := if decide (i = b) then t else i.

Lemma moved_node m ch b p t x px y k v :
  map_wf m ch → b ≠ p → t ≠ b → t ≠ p →
  info m !! b = Some x → status x ≠ free → info m !! p = Some px → status px ≠ free →
  info m !! t = Some y → status y = free → t ≠ free →
  key m !! b = Some (Some k) → val m !! b = Some (Some v) →
  ∀ i h' k' v', i ≠ t →
    node m i h' k' v' ↔ node (moved_table m b p t x px k v) (moved_slot b t i) h' k' v'.
Proof.
  intros Hwf Hbp Htb Htp Hx Hxs Hpx Hps Ht Hy Htf Hk Hv i h' k' v' Hi.
  pose proof (lookupZ_Some_lt _ _ _ Hx) as Hrb. pose proof (lookupZ_Some_lt _ _ _ Ht) as Hrt.
  pose proof (lookupZ_Some_lt _ _ _ Hpx) as Hrp.
  pose proof (wf_key _ _ Hwf) as Hlk. pose proof (wf_val _ _ Hwf) as Hlv.
  unfold node, moved_slot, moved_table; cbn. case_decide as Hib; [subst i|].
  - lk. split; intros [(z & ? & ? & ?) [? ?]]; simplify_eq; eauto 10.
  - destruct (decide (i = p)) as [->|]; lk; [|done].
    split; intros [(z & ? & ? & ?) ?]; simplify_eq; eauto 10.
Qed.

Lemma ready_move m ch h x wt p px t y l1 l2 k v :
  map_wf m ch → table (info m) → is_u32 h →
  let b := bucket (zlen (info m)) h in
  let q := bucket (zlen (info m)) (hash x) in
  info m !! b = Some x → status x ≠ free → q ≠ b → ch q = l1 ++ p :: b :: l2 →
  info m !! p = Some px → info m !! t = Some y → status y = free →
  key m !! b = Some (Some k) → val m !! b = Some (Some v) →
  ∃ ch', ready m h (moved_table m b p t x px k v) b end_ wt (if wt =? b then t else wt) ch'.
Proof.
  intros Hwf Htab Hh b q Hx Hs Hq Hl Hp Ht Hy Hk Hv. subst b q.
  set (b := bucket _ h) in *. set (q := bucket _ (hash x)) in *.
  pose proof (lookupZ_Some_lt _ _ _ Hx) as Hrb. pose proof (lookupZ_Some_lt _ _ _ Ht) as Hrt.
  pose proof (lookupZ_Some_lt _ _ _ Hp) as Hrp.
  assert (0 ≤ q < zlen (info m)) as Hrq by (apply bucket_range; [done|by eapply (wf_hash _ _ Hwf)]).
  destruct (wf_chains _ _ Hwf q Hrq) as [_ Hnd _ Hm]. rewrite Hl in Hnd, Hm.
  assert (used (info m) p q) as (? & ? & Hps & _) by (apply Hm; set_solver). simplify_eq.
  assert (b ≠ p) as Hbp by (apply NoDup_app in Hnd as (_ & _ & ?%NoDup_cons); set_solver).
  assert (t ≠ b) as Htb by congruence. assert (t ≠ p) as Htp by congruence.
  destruct (slot_not_code _ t Htab Hrt) as [Htf _]. destruct (slot_not_code _ b Htab Hrb) as [Hbf _].
  pose proof (wf_key _ _ Hwf) as Hlk. pose proof (wf_val _ _ Hwf) as Hlv.
  pose proof (moved_node m ch b p t x px y k v Hwf Hbp Htb Htp Hx Hs Hp Hps Ht Hy Htf Hk Hv)
    as Hnode.
  assert (∀ h' k' v', ¬ node m t h' k' v') as Hnt.
  { intros h' k' v' ((z & ? & ? & _) & _). by simplify_eq. }
  exists (upd (upd ch q (l1 ++ p :: t :: l2)) b [b]). split; cbn; rewrite ?zlen_insert; try done; try lia.
  - intros i z Hz. lk; by eapply (wf_hash _ _ Hwf).
  - exists (mkInfo free (hash x)). by lk.
  - eapply (chains_write _ _ b (mkInfo free (hash x))); [|by lk|done|by rewrite !zlen_insert].
    by eapply (chains_move _ _ q); [|apply Hwf|..].
  - intros i z Hz Hf. lk; [done|]. by eapply (wf_free _ _ Hwf).
  - intros i z Hz Hf. lk; first [by eauto | by eapply (wf_occ _ _ Hwf)].
  - intros i j k0 Hi Hj. lk; try done;
      first [ assert (b = i) by (by apply (wf_inj _ _ Hwf b i k0)); congruence
            | assert (b = j) by (by apply (wf_inj _ _ Hwf b j k0)); congruence
            | by eapply (wf_inj _ _ Hwf) ].
  - intros h' k' v'. split; intros [i Hi].
    + destruct (decide (i = b)) as [->|].
      { destruct Hi as ((z & Hz & Hzf & _) & _). cbn in Hz. by lk. }
      destruct (decide (i = t)) as [->|].
      * exists b. apply Hnode; [done|]. unfold moved_slot. by rewrite decide_True.
      * exists i. apply Hnode; [done|]. unfold moved_slot. by rewrite decide_False.
    + exists (moved_slot b t i). apply Hnode; [|done]. intros ->. by eapply Hnt.
  - intros h' k' v' Hw. assert (wt ≠ t) by (intros ->; by eapply Hnt).
    apply Hnode in Hw; [|done]. unfold moved_slot in Hw. by destruct (Z.eqb_spec wt b), (decide (wt = b)).
  - intros ->. by destruct (Z.eqb_spec free b).
Qed.

(** What [insert] does: a node for [k] appears at [into], the others stay, and the
    watched node is followed. *)
Record inserted m (k : K) (v : V) (h wt : Z) m' (into wt' : Z) : Prop := {
  ins_wf : ∃ ch, map_wf m' ch;
  ins_watch : watch m' = watch m;
  ins_size : size m' = size m + 1;
  ins_node : node m' into h k v;
  ins_nodes : ∀ h' k' v', (∃ i, node m' i h' k' v') ↔
    (h' = h ∧ k' = k ∧ v' = v) ∨ (∃ i, node m i h' k' v');
  ins_wt : ∀ h' k' v', node m wt h' k' v' → node m' wt' h' k' v';
  ins_wt_free : wt = free → wt' = free;
}.

Definition written m (k : K) (v : V) (h into st : Z) : MapBase K V Watch :=
  mkMap (size m + 1) (<[into := mkInfo st h]> (info m)) (<[into := Some k]> (key m))
    (<[into := Some v]> (val m)) (watch m) (lastFree m).

Lemma written_node m k v h into st i h' k' v' :
  0 ≤ into < zlen (info m) → zlen (key m) = zlen (info m) → zlen (val m) = zlen (info m) →
  st ≠ free →
  node (written m k v h into st) i h' k' v' ↔
    (i = into ∧ h' = h ∧ k' = k ∧ v' = v) ∨ (i ≠ into ∧ node m i h' k' v').
Proof.
  intros Hr Hk Hv Hs. unfold node, written; cbn.
  destruct (decide (i = into)) as [->|]; lk.
  - split; [|naive_solver]. intros [(z & ? & ? & ?) [? ?]]. simplify_eq. naive_solver.
  - naive_solver.
Qed.

Lemma ready_written m ch m1 k v h into st wt wt' ch' :
  map_wf m ch → table (info m) → is_u32 h → (∀ i h' v', ¬ node m i h' k v') →
  ready m h m1 into st wt wt' ch' →
  inserted m k v h wt (written m1 k v h into st) into wt' ∧
  zlen (info (written m1 k v h into st)) = zlen (info m).
Proof.
  intros Hwf Htab Hh Hnew Hr. destruct Hr as [Hsz Hw Hli Hlk Hlv Hla Hha Hst (x & Hx & Hxf)
    Hch Hfr Hoc Hinj Hnodes Hwt Hwtf].
  pose proof (lookupZ_Some_lt _ _ _ Hx) as Hri. destruct (Hfr _ _ Hx Hxf) as [Hk0 Hv0].
  assert (∀ i h' k' v', node (written m1 k v h into st) i h' k' v' ↔
    (i = into ∧ h' = h ∧ k' = k ∧ v' = v) ∨ (i ≠ into ∧ node m1 i h' k' v')) as Hnode.
  { intros. apply written_node; [lia..|done]. }
  assert (∀ h' k' v', ¬ node m1 into h' k' v') as Hni.
  { intros h' k' v' [_ [? _]]. congruence. }
  assert (∀ i, key m1 !! i ≠ Some (Some k)) as Hnk.
  { intros i Hi. pose proof (lookupZ_Some_lt _ _ _ Hi) as Hri'. rewrite Hlk, <- Hli in Hri'.
    destruct (lookupZ_lt_Some _ _ Hri') as [z Hz].
    destruct (decide (status z = free)) as [Hzf|Hzf]; [destruct (Hfr _ _ Hz Hzf); congruence|].
    destruct (Hoc _ _ Hz Hzf) as (k' & v' & ? & ?). simplify_eq.
    destruct (proj1 (Hnodes (hash z) k v')) as [j Hj]; [exists i; split; [eauto|done]|].
    by eapply Hnew. }
  assert (∀ h' k' v', (∃ i, node (written m1 k v h into st) i h' k' v') ↔
    (h' = h ∧ k' = k ∧ v' = v) ∨ (∃ i, node m i h' k' v')) as Hall.
  { intros h' k' v'. setoid_rewrite Hnode. rewrite <- (Hnodes h' k' v'). split.
    - intros (i & [(_ & ?)|[_ ?]]); eauto.
    - intros [?|[i Hi]]; [by exists into; left|]. exists i. right. split; [|done].
      intros ->. by eapply Hni. }
  assert (slots_wf (written m1 k v h into st)) as Hslots.
  { split; cbn; rewrite ?zlen_insert; try lia.
    - intros i z Hz Hzf. lk. by eapply Hfr.
    - intros i z Hz Hzf. lk; [by eauto|by eapply Hoc].
    - intros i j k' Hi Hj. lk; try done; first [by edestruct Hnk|by eapply Hinj]. }
  assert (entries (written m1 k v h into st) ≡ₚ (k, v) :: entries m) as Hperm.
  { apply entries_perm; [done| |].
    - apply NoDup_cons. split; [|eapply NoDup_fmap_1, wf_entries_nodup, Hwf].
      intros (i & h' & ?)%(entries_node m ch Hwf). by eapply Hnew.
    - intros k' v'. rewrite elem_of_cons, (entries_node m ch Hwf). split.
      + intros (i & h' & Hi). destruct (proj1 (Hall h' k' v')) as [(_ & -> & ->)|[j ?]]; eauto.
      + intros [[= -> ->]|(i & h' & Hi)].
        * destruct (proj2 (Hall h k v)) as [i ?]; eauto.
        * destruct (proj2 (Hall h' k' v')) as [j ?]; eauto. }
  split; [|by cbn; rewrite zlen_insert]. split; cbn; try done; try lia.
  - exists ch'. destruct Hslots. split; cbn; rewrite ?zlen_insert; try done; try lia.
    + right. by apply table_insert; unfold table; rewrite Hli.
    + intros i z Hz. lk; [done|by eapply Hha].
    + rewrite Hperm, zlen_cons, Hsz, (wf_size _ _ Hwf). done.
  - apply Hnode. by left.
  - intros h' k' v' Hn%Hwt. apply Hnode. right. split; [|done].
    intros ->. by eapply Hni.
Qed.

(** The walk along the chain finds the predecessor of the slot. *)
Lemma findPrev_spec fuel m l p b l2 :
  seg (info m) (l ++ p :: b :: l2) end_ → NoDup (l ++ p :: b :: l2) →
  (length l < fuel)%nat → findPrev fuel m b (default p (head l)) = Ret p.
Proof.
  revert fuel. induction l as [|i l IH]; intros [|fuel] Hseg Hnd Hf; cbn in Hf; try lia.
  - destruct Hseg as [(x & Hx & Hs) _]. cbn [findPrev head].
    change (default p None) with p. rewrite (aget_Some _ _ _ Hx). cbn in Hs |- *.
    by rewrite Hs, Z.eqb_refl.
  - cbn in Hseg, Hnd. destruct Hseg as [(x & Hx & Hs) Hseg].
    apply NoDup_cons in Hnd as [Hi Hnd]. cbn [findPrev head].
    change (default p (Some i)) with i. rewrite (aget_Some _ _ _ Hx). cbn.
    assert (default end_ (head (l ++ p :: b :: l2)) = default p (head l)) as E by (by destruct l).
    rewrite Hs, E. destruct (Z.eqb_spec (default p (head l)) b) as [Hb|].
    + exfalso. destruct l as [|j l]; cbn in Hb; subst.
      * cbn in Hnd. apply NoDup_cons in Hnd. set_solver.
      * cbn in Hnd. apply NoDup_cons in Hnd. set_solver.
    + apply IH; [done|done|lia].
Qed.

Lemma makeRoom_spec m ch h wt x :
  map_wf m ch → table (info m) → size m < zlen (info m) → is_u32 h →
  info m !! bucket (zlen (info m)) h = Some x → status x ≠ free →
  returns (makeRoom keyT valT m (bucket (zlen (info m)) h) wt x)
    (λ '(m', into, st, wt'), ∃ ch', ready m h m' into st wt wt' ch').
Proof.
  intros Hwf Htab Hsz Hh Hx Hs. unfold makeRoom. set (b := bucket _ h) in *.
  rewrite (wf_primary m ch Hwf) by done.
  pose proof (lookupZ_Some_lt _ _ _ Hx) as Hrb.
  pose proof (wf_key _ _ Hwf) as Hlk. pose proof (wf_val _ _ Hwf) as Hlv.
  destruct (Z.eqb_spec (bucket (zlen (info m)) (hash x)) b) as [Hb|Hb].
  - eapply returns_bind; [by eapply freeSlot_spec|].
    intros [m' t] (-> & y & Ht & Hy). unfold setStatus; cbn.
    rewrite (aget_Some _ _ _ Hx); cbn. rewrite aset_in by done; cbn.
    by eapply ready_attach.
  - set (q := bucket _ (hash x)) in *.
    assert (0 ≤ q < zlen (info m)) as Hrq by (apply bucket_range; [done|by eapply (wf_hash _ _ Hwf)]).
    destruct (chain_stranger _ _ (wf_chains _ _ Hwf) q b Hrq) as (l1 & p & l2 & Hl); [by exists x|done|].
    destruct (wf_chains _ _ Hwf q Hrq) as [Hhd Hnd Hseg Hm]. rewrite Hl in Hhd, Hnd, Hseg, Hm.
    assert (default p (head l1) = q) as Eq.
    { destruct l1; cbn in Hhd |- *; destruct Hhd; congruence. }
    rewrite <- Eq, (findPrev_spec _ m l1 p b l2); [|done|done|]; last first.
    { assert (length (l1 ++ p :: b :: l2) ≤ length (info m))%nat as Hlen.
      { apply nodup_range_length; [done|]. intros i Hi%Hm%used_range. done. }
      rewrite length_app in Hlen. cbn in Hlen. lia. }
    cbn. eapply returns_bind; [by eapply freeSlot_spec|].
    intros [m' t] (-> & y & Ht & Hy).
    assert (∃ px, info m !! p = Some px) as [px Hp].
    { eapply seg_lookup; [exact Hseg|set_solver]. }
    destruct (wf_occ _ _ Hwf _ _ Hx Hs) as (k & v & Hk & Hv).
    pose proof (lookupZ_Some_lt _ _ _ Hp) as Hrp. pose proof (lookupZ_Some_lt _ _ _ Ht) as Hrt.
    assert (b ≠ p) by (apply NoDup_app in Hnd as (_ & _ & ?%NoDup_cons); set_solver).
    assert (t ≠ b) by congruence.
    assert (p ≠ b) by done.
    unfold setStatus, setInfo, keyAt, valAt, putKey, putVal, destroyKey, destroyVal; cbn.
    rewrite (aget_Some _ _ _ Hp); cbn. rewrite aset_in by done; cbn.
    rewrite (aget_Some _ b x) by (by lk); cbn. rewrite aset_in by zsolve; cbn.
    rewrite (aget_Some _ b (Some k)) by done; cbn. rewrite aset_in by zsolve; cbn.
    rewrite (aget_Some _ b (Some v)) by done; cbn. rewrite aset_in by zsolve; cbn.
    rewrite (aget_Some _ b (Some k)) by (by lk); cbn. rewrite aset_in by zsolve; cbn.
    rewrite (aget_Some _ b (Some v)) by (by lk); cbn. rewrite aset_in by zsolve; cbn.
    rewrite (aget_Some _ b x) by (by lk); cbn. rewrite aset_in by zsolve; cbn.
    rewrite !copy_id. eapply (ready_move m ch h x wt p px t y l1 l2 k v); done.
Qed.

(** [insert] into a table with room, whatever the rehashing function. *)
Lemma insertVal_room ins m ch k v h wt :
  map_wf m ch → table (info m) → size m < zlen (info m) → is_u32 h →
  (∀ i h' v', ¬ node m i h' k v') →
  returns (insertVal keyT valT ins m k v h wt) (λ '(m', into, wt'),
    inserted m k v h wt m' into wt' ∧ zlen (info m') = zlen (info m)).
Proof.
  intros Hwf Htab Hsz Hh Hnew. pose proof (table_bound _ Htab) as Hb.
  assert (grow ins m = Ret m) as Hgrow.
  { unfold grow. rewrite (wf_capacity m ch Hwf).
    destruct (Z.eqb_spec (zlen (info m)) 0); [lia|].
    destruct (Z.eqb_spec (zlen (info m)) (size m)); [lia|done]. }
  unfold insertVal, insertKey. rewrite Hgrow. cbn. rewrite (wf_primary m ch Hwf) by done.
  pose proof (bucket_range (info m) h Htab Hh) as Hrb.
  destruct (lookupZ_lt_Some _ _ Hrb) as [x Hx]. rewrite (aget_Some _ _ _ Hx). cbn.
  set (room := if status x =? free then _ else _).
  assert (returns room (λ '(m', into, st, wt'), ∃ ch', ready m h m' into st wt wt' ch')) as Hroom.
  { subst room. destruct (Z.eqb_spec (status x) free).
    - eexists. by eapply ready_free.
    - by eapply makeRoom_spec. }
  destruct room as [[[[m1 into] st] wt']| | |]; try done. destruct Hroom as [ch' Hr]. cbn.
  pose proof (ready_written m ch m1 k v h into st wt wt' ch' Hwf Htab Hh Hnew Hr) as [Hi Hl].
  destruct Hr as [Hsz1 _ Hli Hlk Hlv _ _ Hst (y & Hy & Hyf) _ _ _ _ _ _ _].
  pose proof (lookupZ_Some_lt _ _ _ Hy). pose proof (wf_size _ _ Hwf).
  pose proof (zlen_nonneg (entries m)).
  rewrite (aget_Some _ _ _ Hy); cbn. rewrite Hyf, Z.eqb_refl; cbn.
  unfold setInfo, putKey, putVal; cbn. rewrite aset_in by done; cbn.
  rewrite aset_in by lia; cbn. rewrite aset_in by lia; cbn.
  rewrite !copy_id, u32_small by (unfold is_u32; lia). done.
Qed.
End insert.

(** ** Sizes *)
Section sizes.
Context {K V Watch : Type}.
Implicit Types m : MapBase K V Watch.

(** Tables with the same nodes have the same entries. *)
Lemma same_nodes_entries m ch m' ch' :
  map_wf m ch → map_wf m' ch' →
  (∀ h k v, (∃ i, node m' i h k v) ↔ (∃ i, node m i h k v)) → entries m' ≡ₚ entries m.
Proof.
  intros Hwf Hwf' Hn. apply entries_perm; [by eapply wf_slots| |].
  - eapply NoDup_fmap_1, wf_entries_nodup, Hwf.
  - intros k v. rewrite (entries_node m ch Hwf). split.
    + intros (i & h & Hi). destruct (proj1 (Hn h k v)) as [j ?]; eauto.
    + intros (i & h & Hi). destruct (proj2 (Hn h k v)) as [j ?]; eauto.
Qed.

Lemma wf_empty m ch : map_wf m ch → info m = [] →
  key m = [] ∧ val m = [] ∧ size m = 0 ∧ ∀ i h k v, ¬ node m i h k v.
Proof.
  intros Hwf Hnil. pose proof (wf_key _ _ Hwf) as Hk. pose proof (wf_val _ _ Hwf) as Hv.
  rewrite Hnil in Hk, Hv. unfold zlen in Hk, Hv. cbn in Hk, Hv.
  assert (key m = []) as Ek by (destruct (key m); cbn in *; [done|lia]).
  assert (val m = []) as Ev by (destruct (val m); cbn in *; [done|lia]).
  split_and!; [done..| |].
  - rewrite (wf_size _ _ Hwf). unfold entries. by rewrite Ek.
  - intros i h k v ((x & Hx & _) & _). by rewrite Hnil, lookupZ_nil in Hx.
Qed.

Lemma size_nonneg m ch : map_wf m ch → 0 ≤ size m.
Proof. intros Hwf. rewrite (wf_size _ _ Hwf). apply zlen_nonneg. Qed.

Lemma size_le_capacity m ch : map_wf m ch → size m ≤ zlen (info m).
Proof.
  intros Hwf. rewrite (wf_size _ _ Hwf). unfold zlen, entries.
  pose proof (wf_key _ _ Hwf) as Hk. unfold zlen in Hk.
  assert (∀ (ks : list (option K)) (vs : list (option V)),
    (length (entriesOf ks vs) ≤ length ks)%nat) as Hle.
  { induction ks as [|[] ks IH]; intros [|[] vs]; cbn; try lia; specialize (IH vs); lia. }
  specialize (Hle (key m) (val m)). lia.
Qed.

Lemma size_pos m ch i h k v : map_wf m ch → node m i h k v → 1 ≤ size m.
Proof.
  intros Hwf Hn. rewrite (wf_size _ _ Hwf).
  assert ((k, v) ∈ entries m) as Hin by (apply (entries_node m ch Hwf); eauto).
  destruct (entries m); [set_solver|]. rewrite zlen_cons. pose proof (zlen_nonneg l). lia.
Qed.

Lemma node_not_free m ch h k v : map_wf m ch → ¬ node m free h k v.
Proof.
  intros Hwf Hn%node_range. destruct (wf_tab _ _ Hwf) as [E|Ht%table_bound].
  - rewrite E in Hn. unfold zlen in Hn. cbn in Hn. lia.
  - rewrite free_val in Hn. lia.
Qed.
End sizes.

(** ** Rebuilding the table

    [rehash], [rehashFind] and [rehashRemove] insert the nodes of the old table, slot
    by slot, into an empty one; [newh] gives the hash they insert a node under and
    [P] the keys they keep. *)
Section rebuild.
Context {World Addr Watch K V : Type}.
Context (keyT : Handle World K) (valT : Handle World V).
Context `{!CopyHandle keyT, !CopyHandle valT}.
Implicit Types m : MapBase K V Watch.

Definition refilled (newh : Z → K → Z) (P : K → Prop) m (j : Z) m' : Prop :=
  ∀ h k v, (∃ i, node m' i h k v) ↔
    ∃ i h0, i < j ∧ node m i h0 k v ∧ h = newh h0 k ∧ P k.

(** A fresh table. *)
Lemma alloc_spec cap p wt m :
  cap = 2 ^ p → 0 ≤ p ≤ 31 →
  returns (alloc cap (mkMap (size m) [] [] [] wt (lastFree m))) (λ m',
    map_wf m' (λ _, []) ∧ zlen (info m') = cap ∧ watch m' = wt ∧ size m' = 0 ∧
    ∀ i h k v, ¬ node m' i h k v).
Proof.
  intros -> Hp. pose proof (Z.pow_pos_nonneg 2 p).
  unfold alloc. cbn. rewrite isPowerOfTwo_pow2 by lia. cbn.
  set (n := Z.to_nat (2 ^ p)). assert (Z.of_nat n = 2 ^ p) as Hn by lia.
  assert (∀ i x, replicate n (mkInfo free 0) !! i = Some x → 0 ≤ i < 2 ^ p ∧ x = mkInfo free 0) as Hi.
  { intros i x Hx. pose proof (lookupZ_Some_lt _ _ _ Hx) as Hr. rewrite zlen_replicate in Hr.
    rewrite lookupZ_replicate in Hx by lia. split; [lia|congruence]. }
  split_and!; [|cbn; rewrite zlen_replicate; lia|done|done|].
  - split; cbn; rewrite ?zlen_replicate; try done.
    + right. exists p. rewrite zlen_replicate. lia.
    + intros. lia.
    + intros i x Hx%Hi. destruct Hx as [_ ->]. cbn. unfold is_u32. lia.
    + apply chains_empty.
    + intros i x Hx%Hi. rewrite !lookupZ_replicate by lia. done.
    + intros i x [_ ->]%Hi. done.
    + intros i j k Hk. pose proof (lookupZ_Some_lt _ _ _ Hk) as Hr.
      rewrite zlen_replicate in Hr. rewrite lookupZ_replicate in Hk by lia. done.
    + unfold entries. cbn. by rewrite entriesOf_none.
  - intros i h k v ((x & Hx & Hs & _) & _). apply Hi in Hx as [_ ->]. done.
Qed.

Section steps.
Context (newh : Z → K → Z) (P : K → Prop) m ch (Hwf : map_wf m ch).

Lemma refilled_new m' j h0 k v :
  refilled newh P m j m' → node m j h0 k v → ∀ i h' v', ¬ node m' i h' k v'.
Proof.
  intros Hre Hn i h' v' Hi. destruct (proj1 (Hre h' k v')) as (i0 & h1 & ? & Hn' & _); [eauto|].
  destruct (node_inj m ch Hwf _ _ _ _ _ _ _ Hn Hn') as [-> _]. lia.
Qed.

Lemma refilled_room m' ch' j h0 k v :
  map_wf m' ch' → refilled newh P m j m' → node m j h0 k v → size m' < size m.
Proof.
  intros Hwf' Hre Hn. rewrite (wf_size _ _ Hwf), (wf_size _ _ Hwf').
  assert ((k, v) :: entries m' ⊆+ entries m) as Hsub.
  { apply NoDup_submseteq.
    - apply NoDup_cons. split; [|eapply NoDup_fmap_1, wf_entries_nodup, Hwf'].
      intros (i & h' & ?)%(entries_node m' ch' Hwf'). by eapply refilled_new.
    - intros [k' v'] [[= -> ->]|(i & h' & Hi)%(entries_node m' ch' Hwf')]%elem_of_cons.
      + apply (entries_node m ch Hwf). eauto.
      + destruct (proj1 (Hre h' k' v')) as (i0 & h1 & _ & Hn' & _); [eauto|].
        apply (entries_node m ch Hwf). eauto. }
  apply submseteq_length in Hsub. cbn in Hsub. unfold zlen. lia.
Qed.

Lemma refilled_insert m' j h0 k v wt m'' into wt' :
  refilled newh P m j m' → node m j h0 k v → P k →
  inserted m' k v (newh h0 k) wt m'' into wt' → refilled newh P m (j + 1) m''.
Proof.
  intros Hre Hn HP Hins h k' v'. rewrite (ins_nodes _ _ _ _ _ _ _ _ Hins), (Hre h k' v'). split.
  - intros [(-> & -> & ->)|(i & h1 & ? & ? & ? & ?)].
    + exists j, h0. split; [lia|done].
    + exists i, h1. split; [lia|done].
  - intros (i & h1 & ? & Hn' & ? & ?). destruct (decide (i = j)) as [->|].
    + left. destruct Hn as [(x & ? & ? & ?) [? ?]], Hn' as [(y & ? & ? & ?) [? ?]]. by simplify_eq.
    + right. exists i, h1. split; [lia|done].
Qed.

Lemma refilled_skip m' j :
  refilled newh P m j m' → (∀ h k v, node m j h k v → ¬ P k) → refilled newh P m (j + 1) m'.
Proof.
  intros Hre Hno h k v. rewrite (Hre h k v). split.
  - intros (i & h1 & ? & ?). exists i, h1. split; [lia|done].
  - intros (i & h1 & ? & Hn & ? & ?). destruct (decide (i = j)) as [->|].
    + by apply Hno in Hn.
    + exists i, h1. split; [lia|done].
Qed.

Lemma refilled_start m' : (∀ i h k v, ¬ node m' i h k v) → refilled newh P m 0 m'.
Proof.
  intros Hno h k v. split.
  - intros [i Hi]. by apply Hno in Hi.
  - intros (i & h0 & ? & Hn & _). apply node_range in Hn. lia.
Qed.

Lemma refilled_end m' :
  refilled newh P m (zlen (info m)) m' → ∀ h k v,
    (∃ i, node m' i h k v) ↔ ∃ i h0, node m i h0 k v ∧ h = newh h0 k ∧ P k.
Proof.
  intros Hre h k v. rewrite (Hre h k v). split.
  - intros (i & h0 & _ & ?). eauto.
  - intros (i & h0 & Hn & ?). exists i, h0. split; [|done].
    apply (node_range m) in Hn. lia.
Qed.
End steps.

(** [rehash] to a power of two that fits the entries returns a table of that
    capacity with the same nodes. *)
Lemma rehash_spec cap p m ch :
  map_wf m ch → cap = 2 ^ p → 0 ≤ p ≤ 31 → size m ≤ cap →
  returns (rehash (insertN keyT valT 1) cap m) (λ m',
    (∃ ch', map_wf m' ch') ∧ zlen (info m') = cap ∧ watch m' = watch m ∧
    ∀ h k v, (∃ i, node m' i h k v) ↔ (∃ i, node m i h k v)).
Proof.
  intros Hwf Hcap Hp Hsz. unfold rehash.
  eapply returns_bind; [by eapply alloc_spec|]. intros m0 (Hwf0 & Hc0 & Hw0 & Hs0 & Hn0).
  case_bool_decide as Hnil.
  { cbn. split_and!; eauto. intros h k v. split; intros [i Hi]; [by apply Hn0 in Hi|].
    apply node_range in Hi. rewrite Hnil in Hi. unfold zlen in Hi. cbn in Hi. lia. }
  eapply returns_bind.
  - apply (returns_for_loop (λ j '(m', wt), wt = free ∧ (∃ ch', map_wf m' ch') ∧
      zlen (info m') = cap ∧ watch m' = watch m ∧
      refilled (λ h _, h) (λ _, True) m j m')).
    { split_and!; eauto. by apply refilled_start. }
    intros j [m' wt] Hj (-> & [ch' Hwf'] & Hc & Hw & Hre). cbn in Hj.
    destruct (lookupZ_lt_Some (info m) j) as [x Hx]; [unfold zlen; lia|].
    rewrite (aget_Some _ _ _ Hx). cbn. destruct (Z.eqb_spec (status x) free) as [Hf|Hf].
    { cbn. split_and!; eauto. apply refilled_skip; [done|].
      intros h k v [(y & ? & ? & _) _]. by simplify_eq. }
    destruct (wf_node m ch Hwf j x Hx Hf) as (k & v & Hn).
    pose proof Hn as (_ & Hk & Hv). rewrite (aget_Some _ _ _ Hk); cbn.
    rewrite (aget_Some _ _ _ Hv); cbn.
    pose proof (refilled_room _ _ m ch Hwf m' ch' j _ k v Hwf' Hre Hn).
    assert (table (info m')) by (exists p; lia).
    eapply returns_bind.
    + eapply (insertVal_room _ _ _ m' ch'); [done|done|lia|by eapply (wf_hash _ _ Hwf)|].
      exact (refilled_new _ _ m ch Hwf m' j _ k v Hre Hn).
    + intros [[m'' into] wt'] [Hi Hl]. cbn.
      split_and!; [by apply (ins_wt_free _ _ _ _ _ _ _ _ Hi)|apply (ins_wf _ _ _ _ _ _ _ _ Hi)|lia|rewrite (ins_watch _ _ _ _ _ _ _ _ Hi); done|].
      by eapply (refilled_insert (λ h _, h)).
  - intros [m' wt] (-> & Hwf' & Hc & Hw & Hre). cbn. split_and!; [done..|].
    intros h k v. rewrite (refilled_end _ _ _ _ Hre). split.
    + intros (i & h0 & ? & -> & _). eauto.
    + intros [i ?]. eauto 10.
Qed.

(** [grow] makes room for one more node, up to [2 ^ 31] slots. *)
Lemma grow_spec m ch :
  map_wf m ch → size m < 2 ^ 31 →
  returns (grow (insertN keyT valT 1) m) (λ m',
    (∃ ch', map_wf m' ch') ∧ table (info m') ∧ size m' < zlen (info m') ∧
    size m' = size m ∧ watch m' = watch m ∧
    ∀ h k v, (∃ i, node m' i h k v) ↔ (∃ i, node m i h k v)).
Proof.
  intros Hwf Hsz. unfold grow. rewrite (wf_capacity m ch Hwf).
  pose proof (size_nonneg m ch Hwf) as Hsz0.
  destruct (Z.eqb_spec (zlen (info m)) 0) as [H0|H0].
  { assert (info m = []) as Hnil by (destruct (info m); [done|unfold zlen in H0; cbn in H0; lia]).
    destruct (wf_empty m ch Hwf Hnil) as (Hk & Hv & Hs & Hno).
    pose proof (alloc_spec minCapacity 2 (watch m) m eq_refl ltac:(lia)) as Ha.
    destruct m as [sz inf ks vs wa lf]; cbn in *. subst.
    eapply returns_mono; [exact Ha|]. intros m' (Hwf' & Hl & Hw & Hs & Hn).
    assert (minCapacity = 4) as E4 by done.
    split_and!; [by eauto|exists 2; lia|lia|lia|done|].
    intros h k v; split; intros [i Hi]; [by apply Hn in Hi|by apply Hno in Hi]. }
  assert (table (info m)) as Htab.
  { destruct (wf_tab _ _ Hwf) as [Hn|]; [by rewrite Hn in H0|done]. }
  destruct (Z.eqb_spec (zlen (info m)) (size m)) as [Hf|Hf].
  - destruct Htab as (p & Hp & Hl).
    assert (p < 31). { destruct (decide (p = 31)) as [->|]; [|lia]. lia. }
    assert (u32 (zlen (info m) * 2) = 2 ^ (p + 1)) as Hc.
    { rewrite Hl, Z.mul_comm, <- Z.pow_succ_r by lia.
      replace (Z.succ p) with (p + 1) by lia. apply u32_small. unfold is_u32.
      pose proof (Z.pow_le_mono_r 2 (p + 1) 31). pose proof (Z.pow_pos_nonneg 2 (p + 1)). lia. }
    rewrite Hc. assert (2 ^ (p + 1) = 2 * 2 ^ p) as H2.
    { replace (p + 1) with (Z.succ p) by lia. apply Z.pow_succ_r. lia. }
    pose proof (Z.pow_pos_nonneg 2 p).
    eapply returns_mono; [eapply (rehash_spec _ (p + 1)); [done|done|lia|lia]|].
    intros m' ([ch' Hwf'] & Hl' & Hw & Hn).
    pose proof (same_nodes_entries m ch m' ch' Hwf Hwf' Hn) as Hperm.
    assert (size m' = size m) as Hs by (rewrite (wf_size _ _ Hwf), (wf_size _ _ Hwf'), Hperm; done).
    split_and!; [by eauto|exists (p + 1); lia|lia|done|done|done].
  - cbn. split_and!; [by eauto|done| |done|done|done].
    pose proof (size_le_capacity m ch Hwf). lia.
Qed.

Lemma insertVal_grow m m' k v h wt :
  grow (insertN keyT valT 1) m = Ret m' → grow (insertN keyT valT 1) m' = Ret m' →
  insertVal keyT valT (insertN keyT valT 1) m k v h wt =
  insertVal keyT valT (insertN keyT valT 1) m' k v h wt.
Proof. intros H H'. unfold insertVal, insertKey. by rewrite H, H'. Qed.

(** [insert] adds a node for a key that is not in the map, growing as needed. *)
Lemma insert_spec m ch k v h :
  map_wf m ch → size m < 2 ^ 31 → is_u32 h → (∀ i h' v', ¬ node m i h' k v') →
  returns (insert keyT valT m k v h free) (λ '(m', into, wt'),
    inserted m k v h free m' into wt').
Proof.
  intros Hwf Hsz Hh Hnew. pose proof (grow_spec m ch Hwf Hsz) as Hg.
  destruct (grow (insertN keyT valT 1) m) as [m1| | |] eqn:Eg; try done.
  destruct Hg as ([ch1 Hwf1] & Htab & Hroom & Hs & Hw & Hn).
  unfold insert. cbn [insertN]. fold (insertN (Watch:=Watch) keyT valT 1).
  rewrite (insertVal_grow m m1); [|done|].
  2:{ unfold grow. rewrite (wf_capacity m1 ch1 Hwf1). pose proof (table_bound _ Htab).
      destruct (Z.eqb_spec (zlen (info m1)) 0); [lia|].
      destruct (Z.eqb_spec (zlen (info m1)) (size m1)); [lia|done]. }
  eapply returns_mono; [eapply (insertVal_room _ _ _ m1 ch1); [done|done|done|done|]|].
  { intros i h' v' Hi. destruct (proj1 (Hn h' k v')) as [j Hj]; [eauto|]. by apply Hnew in Hj. }
  intros [[m' into] wt'] [[Hwf' Hw' Hs' Hnd Hnds _ Hwtf] _].
  split; [done|congruence|lia|done| | |done].
  - intros h' k' v'. by rewrite Hnds, Hn.
  - intros h' k' v' Hi. by apply (node_not_free m ch) in Hi.
Qed.
End rebuild.
