(* ===== verification/HashMapLookup.v ===== *)
(** * Lookup and removal in the hash map

    [findSlotI] and [remove] of [Core/Map.cpp] on a well-formed table: what they
    find, and which nodes are left. *)

From stdpp Require Import base list numbers strings option decidable sets gmap.
From Stdlib Require Import ZArith Lia.
From S2P Require Import Prelude Handle Bitwise HashMap HashChains HashMapProofs.
Import MapBase.

Section chain_facts.
Context {K V Watch : Type}.
Implicit Types m : MapBase K V Watch.

(** The chain of an occupied slot, from that slot on. *)
Lemma chain_from m ch b x :
  map_wf m ch → table (info m) → info m !! b = Some x → status x ≠ free →
  ∃ l1 l, ch (bucket (zlen (info m)) (hash x)) = l1 ++ b :: l ∧ (length l < length (info m))%nat ∧
    seg (info m) (b :: l) end_ ∧
    (∀ j, j ∈ b :: l → ∃ x, info m !! j = Some x ∧ status x ≠ free) ∧ (∀ j, j ∈ l → j ≠ end_).
Proof.
  intros Hwf Htab Hx Hs. set (q := bucket _ _).
  assert (0 ≤ q < zlen (info m)) as Hq by (apply bucket_range; [done|by eapply (wf_hash _ _ Hwf)]).
  destruct (wf_chains _ _ Hwf q Hq) as [_ Hnd Hseg Hm].
  assert (b ∈ ch q) as Hin by (apply Hm; by exists x).
  apply list_elem_of_split in Hin as (l1 & l & E). rewrite E in Hnd, Hseg, Hm.
  exists l1, l. split; [done|]. split_and!.
  - assert (length (l1 ++ b :: l) ≤ length (info m))%nat as Hlen.
    { apply nodup_range_length; [done|]. intros i Hi%Hm%used_range. done. }
    rewrite length_app in Hlen. cbn in Hlen. lia.
  - by apply seg_app in Hseg as [_ ?].
  - intros j Hj. destruct (proj1 (Hm j)) as (y & ? & ? & _); [set_solver|eauto].
  - intros j Hj. eapply slot_not_code; [done|]. eapply used_range, Hm. set_solver.
Qed.

(** A node is in the chain of its bucket, and that chain starts at the bucket. *)
Lemma node_chain m ch i h k v :
  map_wf m ch → table (info m) → node m i h k v →
  ∃ l, ch (bucket (zlen (info m)) h) = bucket (zlen (info m)) h :: l ∧
    i ∈ bucket (zlen (info m)) h :: l.
Proof.
  intros Hwf Htab ((x & Hx & Hs & <-) & _). set (b := bucket _ _).
  assert (0 ≤ b < zlen (info m)) as Hb by (apply bucket_range; [done|by eapply (wf_hash _ _ Hwf)]).
  destruct (wf_chains _ _ Hwf b Hb) as [Hhd _ _ Hm].
  assert (i ∈ ch b) as Hin by (apply Hm; by exists x).
  destruct (ch b) as [|c l]; [set_solver|]. destruct Hhd as [|[= ->]]; [done|]. by exists l.
Qed.
End chain_facts.

Section lookup.
Context {World Watch K V : Type} (keyT : Handle World K) (hashOf : World → K → Z).
Context `{!KeyHandle keyT hashOf}.
Implicit Types m : MapBase K V Watch.

(** The test of one slot of a chain: is it the node searched for? *)
Lemma match_slot m ch i x k h :
  map_wf m ch → info m !! i = Some x → status x ≠ free →
  returns (if hash x =? h then c ← keyAt m i; equal keyT k c else Ret false)
    (λ r, if r : bool then ∃ v, node m i h k v else ∀ v, ¬ node m i h k v).
Proof.
  intros Hwf Hx Hs. destruct (wf_node m ch Hwf i x Hx Hs) as (k' & v' & Hn).
  pose proof Hn as (_ & Hk & Hv).
  destruct (Z.eqb_spec (hash x) h) as [<-|Hne].
  - unfold keyAt. rewrite (aget_Some _ _ _ Hk). cbn.
    destruct (key_equal (h:=keyT) k k') as (r & -> & Hr). cbn. destruct r.
    + exists v'. by replace k with k' by (symmetry; apply Hr; done).
    + intros v [_ [? _]]. simplify_eq. naive_solver.
  - cbn. intros v ((y & ? & _ & ?) & _). simplify_eq.
Qed.

Lemma findChain_spec fuel m ch i l k h :
  map_wf m ch → seg (info m) (i :: l) end_ →
  (∀ j, j ∈ i :: l → ∃ x, info m !! j = Some x ∧ status x ≠ free) →
  (∀ j, j ∈ l → j ≠ end_) → (length l < fuel)%nat →
  returns (findChain keyT fuel m k h i) (λ r,
    (r = free ∧ ∀ j v, j ∈ i :: l → ¬ node m j h k v) ∨ ∃ v, node m r h k v).
Proof.
  intros Hwf. revert fuel i. induction l as [|j l IH]; intros [|fuel] i Hseg Hocc Hend Hf;
    cbn in Hf; try lia; cbn [findChain].
  all: destruct (Hocc i) as (x & Hx & Hs); [set_solver|]; rewrite (aget_Some _ _ _ Hx); cbn.
  all: eapply returns_bind; [by eapply match_slot|]; intros [] Hr; cbn; [by right|].
  all: pose proof (seg_cons_status _ _ _ _ _ Hseg Hx) as Hst; cbn in Hst; rewrite Hst.
  - rewrite Z.eqb_refl. cbn. left. split; [done|]. intros j v ->%list_elem_of_singleton. done.
  - destruct (Z.eqb_spec j end_) as [E|_]; [by destruct (Hend j); [set_solver|]|].
    cbn in Hseg. eapply returns_mono.
    + apply IH; [apply Hseg|set_solver|set_solver|lia].
    + intros r [[-> Hno]|?]; [left|by right]. split; [done|].
      intros j' v [->|?]%elem_of_cons; [done|by apply Hno].
Qed.

(** [findSlotI] returns the slot of the key stored under this hash, or [free]. *)
Lemma findSlotI_spec m ch k h :
  map_wf m ch → table (info m) → is_u32 h →
  returns (findSlotI keyT m k h) (λ r,
    (r = free ∧ ∀ i v, ¬ node m i h k v) ∨ ∃ v, node m r h k v).
Proof.
  intros Hwf Htab Hh. unfold findSlotI. rewrite (wf_primary m ch Hwf) by done.
  pose proof (bucket_range (info m) h Htab Hh) as Hb. set (b := bucket _ h) in *.
  destruct (lookupZ_lt_Some _ _ Hb) as [x Hx]. rewrite (aget_Some _ _ _ Hx). cbn.
  assert (∀ i v, node m i h k v → used (info m) b b) as Hprim.
  { intros i v Hn. destruct (node_chain m ch i h k v Hwf Htab Hn) as (l & Hl & _).
    apply (wf_chains _ _ Hwf b Hb). fold b in Hl. rewrite Hl. set_solver. }
  destruct (Z.eqb_spec (status x) free) as [Hf|Hf].
  { cbn. left. split; [done|]. intros i v Hn%Hprim. by eapply unused_slot. }
  destruct (chain_from m ch b x Hwf Htab Hx Hf) as (l1 & l & Hq & Hlen & Hseg & Hocc & Hend).
  eapply returns_mono; [by eapply findChain_spec|].
  intros r [[-> Hno]|?]; [left|by right]. split; [done|]. intros i v Hn.
  destruct (node_chain m ch i h k v Hwf Htab Hn) as (l' & Hl' & Hi). fold b in Hl', Hi.
  destruct (Hprim _ _ Hn) as (x' & Hx' & _ & Hbx).
  assert (x' = x) as -> by congruence. rewrite Hbx, Hl' in Hq.
  destruct l1 as [|c l1]; cbn in Hq; injection Hq as Hq.
  - subst l'. by eapply Hno.
  - destruct (wf_chains _ _ Hwf b Hb) as [_ Hnd _ _]. rewrite Hl' in Hnd.
    apply NoDup_cons in Hnd. subst l'. set_solver.
Qed.
End lookup.

(** ** Removal *)
Section remove.
Context {World Addr Watch K V : Type} (gc : GcWatch World Addr Watch).
Context (addressOf : K → Addr) (keyT : Handle World K) (valT : Handle World V).
Context (hashOf : World → K → Z) `{!KeyHandle keyT hashOf, !CopyHandle valT}.
Implicit Types m : MapBase K V Watch.

Lemma node_eq m ch i j h h' k v v' :
  map_wf m ch → node m i h k v → node m j h' k v' → i = j.
Proof. intros Hwf Hi Hj. by destruct (node_inj m ch Hwf _ _ _ _ _ _ _ Hi Hj). Qed.

Lemma node_size m ch i h k v :
  map_wf m ch → table (info m) → node m i h k v → 1 ≤ size m ≤ 2 ^ 31.
Proof.
  intros Hwf Htab Hn. pose proof (size_pos m ch i h k v Hwf Hn).
  pose proof (size_le_capacity m ch Hwf). pose proof (table_bound _ Htab). lia.
Qed.

Definition removed_watch (w : World) (k : K) m : option Watch :=
  (λ s, watch_remove gc w s (addressOf k)) <$> watch m.

(** [remove] dropped the node of [k] and kept the others. *)
Record removed (w : World) m (k : K) m' : Prop := {
  rm_wf : ∃ ch, map_wf m' ch;
  rm_size : size m' = size m - 1;
  rm_info : zlen (info m') = zlen (info m);
  rm_watch : watch m' = removed_watch w k m;
  rm_nodes : ∀ h' k' v', (∃ i, node m' i h' k' v') ↔ (∃ i, node m i h' k' v') ∧ k' ≠ k;
}.

Lemma removed_intro w m ch m' ch' i0 h0 k v0 :
  map_wf m ch → table (info m) → node m i0 h0 k v0 →
  slots_wf m' → chains (info m') ch' → zlen (info m') = zlen (info m) →
  lastFree m' = lastFree m → (∀ i x, info m' !! i = Some x → is_u32 (hash x)) →
  size m' = size m - 1 → watch m' = removed_watch w k m →
  (∀ h' k' v', (∃ i, node m' i h' k' v') ↔ (∃ i, node m i h' k' v') ∧ k' ≠ k) →
  removed w m k m'.
Proof.
  intros Hwf Htab Hn0 Hs Hch Hl Hla Hha Hsz Hw Hn. split; [|done..]. exists ch'.
  assert (entries m ≡ₚ (k, v0) :: entries m') as Hperm.
  { apply entries_perm; [by eapply wf_slots| |].
    - apply NoDup_cons. split; [|eapply NoDup_fmap_1, entries_nodup, sw_inj, Hs].
      intros (i & h & Hi)%slots_entries_node; [|done].
      destruct (proj1 (Hn h k v0)) as [_ ?]; eauto.
    - intros k' v'. rewrite elem_of_cons, (slots_entries_node m') by done. split.
      + intros (i & h & Hi). destruct (decide (i = i0)) as [->|Hne].
        * left. destruct Hi as [_ [? ?]], Hn0 as [_ [? ?]]. by simplify_eq.
        * right. destruct (proj2 (Hn h k' v')) as [j ?]; [|by eauto]. split; [by eauto|].
          intros ->. apply Hne. by eapply (node_eq m ch).
      + intros [[= -> ->]|(i & h & Hi)]; [by eauto|].
        destruct (proj1 (Hn h k' v')) as [[j ?] _]; eauto. }
  destruct Hs. destruct (wf_last _ _ Hwf) as [? Hlt].
  split; try done.
  - right. unfold table in *. by rewrite Hl.
  - rewrite Hla, Hl. split; [done|]. intros _. apply Hlt.
    intros E. apply table_bound in Htab. rewrite E in Htab. unfold zlen in Htab. cbn in Htab. lia.
  - rewrite Hsz, (wf_size _ _ Hwf), Hperm, zlen_cons. lia.
Qed.

(** The slot [b] emptied; its predecessor [p], if any, linked past it. *)
Definition unlinked (w : World) m (k : K) (b : Z) (x : Info) (inf : list Info) :
    MapBase K V Watch :=
  mkMap (size m - 1) (<[b := mkInfo free (hash x)]> inf) (<[b := None]> (key m))
    (<[b := None]> (val m)) (removed_watch w k m) (lastFree m).

Lemma unlinked_spec w m ch k v h b x inf ch' :
  map_wf m ch → table (info m) → node m b h k v → info m !! b = Some x →
  zlen inf = zlen (info m) →
  (∀ i y, inf !! i = Some y → ∃ y0, info m !! i = Some y0 ∧ hash y = hash y0 ∧
    (status y = free ↔ status y0 = free)) →
  chains (<[b := mkInfo free (hash x)]> inf) ch' →
  removed w m k (unlinked w m k b x inf).
Proof.
  intros Hwf Htab Hn Hx Hl Hinf Hch. pose proof (node_range _ _ _ _ _ Hn) as Hb.
  pose proof (wf_key _ _ Hwf) as Hlk. pose proof (wf_val _ _ Hwf) as Hlv.
  assert (∀ i h' k' v', node (unlinked w m k b x inf) i h' k' v' ↔ i ≠ b ∧ node m i h' k' v') as Hnode.
  { intros i h' k' v'. unfold node, unlinked; cbn. destruct (decide (i = b)) as [->|]; lk.
    - split; [|naive_solver]. intros [(z & ? & ? & _) _]. by simplify_eq.
    - split.
      + intros [(z & Hz & ? & <-) ?]. split; [done|]. split; [|done].
        destruct (Hinf _ _ Hz) as (z0 & ? & ? & ?). exists z0. naive_solver.
      + intros [_ [(z & Hz & ? & <-) ?]]. split; [|done].
        pose proof (lookupZ_Some_lt _ _ _ Hz) as Hr. rewrite <- Hl in Hr.
        destruct (lookupZ_lt_Some _ _ Hr) as [y Hy].
        destruct (Hinf _ _ Hy) as (z0 & ? & ? & ?). simplify_eq. exists y. naive_solver. }
  eapply removed_intro; [done|done|done| |done|cbn; zsolve|done| |done|done|].
  - split; unfold unlinked; cbn; rewrite ?zlen_insert; [lia|lia|..].
    + intros i z Hz Hzf. lk; [done|]. destruct (Hinf _ _ Hz) as (z0 & ? & _ & ?).
      eapply (wf_free _ _ Hwf); [done|naive_solver].
    + intros i z Hz Hzf. lk. destruct (Hinf _ _ Hz) as (z0 & ? & _ & ?).
      eapply (wf_occ _ _ Hwf); [done|naive_solver].
    + intros i j k' Hi Hj. lk. by eapply (wf_inj _ _ Hwf).
  - intros i z Hz. unfold unlinked in Hz; cbn in Hz. lk; [by eapply (wf_hash _ _ Hwf)|].
    destruct (Hinf _ _ Hz) as (z0 & ? & -> & _). by eapply (wf_hash _ _ Hwf).
  - intros h' k' v'. setoid_rewrite Hnode. split.
    + intros (i & Hne & Hi). split; [by eauto|]. intros ->. apply Hne. by eapply (node_eq m ch).
    + intros [[i Hi] Hne]. exists i. split; [|done]. intros ->. apply Hne.
      destruct Hi as [_ [? _]], Hn as [_ [? _]]. by simplify_eq.
Qed.

(** The head [b] of a chain replaced by the second node, from slot [n]. *)
Definition replaced (w : World) m (k : K) (b n : Z) (nx : Info) (nk : K) (nv : V) :
    MapBase K V Watch :=
  mkMap (size m - 1) (<[n := mkInfo free (hash nx)]> (<[b := nx]> (info m)))
    (<[n := None]> (<[b := Some nk]> (key m))) (<[n := None]> (<[b := Some nv]> (val m)))
    (removed_watch w k m) (lastFree m).

Lemma replaced_spec w m ch k v h b n nx nh nk nv ch' :
  map_wf m ch → table (info m) → node m b h k v → node m n nh nk nv → b ≠ n →
  info m !! n = Some nx →
  chains (<[n := mkInfo free (hash nx)]> (<[b := nx]> (info m))) ch' →
  removed w m k (replaced w m k b n nx nk nv).
Proof.
  intros Hwf Htab Hn Hnn Hbn Hnx Hch. pose proof (node_range _ _ _ _ _ Hn) as Hb.
  pose proof (node_range _ _ _ _ _ Hnn) as Hrn.
  pose proof (wf_key _ _ Hwf) as Hlk. pose proof (wf_val _ _ Hwf) as Hlv.
  pose proof Hnn as ((? & ? & Hns & <-) & Hnk & Hnv). simplify_eq.
  pose proof Hn as (_ & Hk & Hv).
  assert (nk ≠ k) as Hkk by (intros ->; by apply Hbn, (wf_inj _ _ Hwf _ _ k)).
  assert (∀ i h' k' v', node (replaced w m k b n nx nk nv) i h' k' v' ↔
    (i = b ∧ node m n h' k' v') ∨ (i ≠ b ∧ i ≠ n ∧ node m i h' k' v')) as Hnode.
  { intros i h' k' v'. unfold node, replaced; cbn. destruct (decide (i = n)) as [->|].
    - lk. split; [|naive_solver]. intros [(z & ? & ? & _) _]. by simplify_eq.
    - destruct (decide (i = b)) as [->|]; lk; [|naive_solver].
      split; [|naive_solver]. intros ?. left. split; [done|]. rewrite Hnx, Hnk, Hnv. done. }
  eapply removed_intro; [done|done|done| |done|cbn; zsolve|done| |done|done|].
  - split; unfold replaced; cbn; rewrite ?zlen_insert; [lia|lia|..].
    + intros i z Hz Hzf. lk; [done|]. by eapply (wf_free _ _ Hwf).
    + intros i z Hz Hzf. lk; [by eauto|by eapply (wf_occ _ _ Hwf)].
    + intros i j k' Hi Hj. lk; try done;
        first [ assert (n = i) by (by apply (wf_inj _ _ Hwf n i k')); congruence
              | assert (n = j) by (by apply (wf_inj _ _ Hwf n j k')); congruence
              | by eapply (wf_inj _ _ Hwf) ].
  - intros i z Hz. unfold replaced in Hz; cbn in Hz. lk; by eapply (wf_hash _ _ Hwf).
  - intros h' k' v'. setoid_rewrite Hnode. split.
    + intros (i & [[-> Hi]|(? & ? & Hi)]).
      * split; [by eauto|]. intros ->. destruct Hi as [_ [? _]]. congruence.
      * split; [by eauto|]. intros ->. assert (b = i) by (by eapply (node_eq m ch)). congruence.
    + intros [[i Hi] Hne]. destruct (decide (i = n)) as [->|]; [exists b; by left|].
      exists i. right. split; [|done]. intros ->. apply Hne.
      destruct Hi as [_ [? _]], Hn as [_ [? _]]. by simplify_eq.
Qed.

Ltac run_step :=
  first [ rewrite aset_in by zsolve; cbn | erewrite aget_Some by (by lk); cbn ].

(** A node inside a chain. *)
Lemma removeAt_unlink w m ch k v h q l1 p b l2 :
  map_wf m ch → table (info m) → 0 ≤ q < zlen (info m) → ch q = l1 ++ p :: b :: l2 →
  node m b h k v → returns (removeAt gc addressOf keyT valT w m k p b) (removed w m k).
Proof.
  intros Hwf Htab Hq Hl Hn. pose proof Hn as ((x & Hx & Hs & _) & Hk & Hv).
  destruct (wf_chains _ _ Hwf q Hq) as [_ Hnd Hseg Hm]. rewrite Hl in Hnd, Hseg, Hm.
  assert (used (info m) p q) as (px & Hp & Hps & _) by (apply Hm; set_solver).
  pose proof (lookupZ_Some_lt _ _ _ Hp) as Hrp. pose proof (node_range _ _ _ _ _ Hn) as Hrb.
  assert (p ≠ b) by (apply NoDup_app in Hnd as (_ & _ & ?%NoDup_cons); set_solver).
  pose proof (wf_key _ _ Hwf) as Hlk. pose proof (wf_val _ _ Hwf) as Hlv.
  pose proof (node_size m ch _ _ _ _ Hwf Htab Hn) as Hsz.
  unfold removeAt. rewrite (aget_Some _ _ _ Hx); cbn.
  destruct (Z.eqb_spec p free) as [->|_]; [by destruct (slot_not_code _ _ Htab Hrp)|].
  unfold setStatus, destroyKey, destroyVal; cbn.
  rewrite (aget_Some _ _ _ Hp); cbn. run_step.
  rewrite (aget_Some _ b x) by (by lk); cbn. run_step.
  rewrite (aget_Some _ _ _ Hk); cbn. run_step.
  rewrite (aget_Some _ _ _ Hv); cbn. run_step.
  unfold set_size, set_watch; cbn. rewrite u32_small by (unfold is_u32; lia).
  eapply (unlinked_spec w m ch k v h b x _ _ Hwf Htab Hn Hx); [by rewrite zlen_insert| |].
  - intros i y Hy. lk; [|by eauto]. exists px. naive_solver.
  - eapply chains_unlink; [apply Hwf|exact Hq|exact Hl|done|done].
Qed.

(** The only node of its chain. *)
Lemma removeAt_single w m ch k v h b :
  map_wf m ch → table (info m) → ch b = [b] →
  node m b h k v → returns (removeAt gc addressOf keyT valT w m k free b) (removed w m k).
Proof.
  intros Hwf Htab Hl Hn. pose proof Hn as ((x & Hx & Hs & _) & Hk & Hv).
  pose proof (node_range _ _ _ _ _ Hn) as Hrb.
  destruct (wf_chains _ _ Hwf b Hrb) as [_ _ Hseg _]. rewrite Hl in Hseg.
  pose proof (seg_cons_status _ _ _ _ _ Hseg Hx) as Hst. cbn in Hst.
  pose proof (wf_key _ _ Hwf) as Hlk. pose proof (wf_val _ _ Hwf) as Hlv.
  pose proof (node_size m ch _ _ _ _ Hwf Htab Hn) as Hsz.
  unfold removeAt. rewrite (aget_Some _ _ _ Hx); cbn. rewrite Hst, !Z.eqb_refl; cbn.
  unfold setStatus, destroyKey, destroyVal; cbn.
  rewrite (aget_Some _ _ _ Hx); cbn. run_step.
  rewrite (aget_Some _ _ _ Hk); cbn. run_step.
  rewrite (aget_Some _ _ _ Hv); cbn. run_step.
  unfold set_size, set_watch; cbn. rewrite u32_small by (unfold is_u32; lia).
  eapply (unlinked_spec w m ch k v h b x (info m) _ Hwf Htab Hn Hx); [done|by eauto|].
  eapply chains_single; [apply Hwf|done|done].
Qed.

(** The first node of a longer chain. *)
Lemma removeAt_head w m ch k v h b n l :
  map_wf m ch → table (info m) → ch b = b :: n :: l →
  node m b h k v → returns (removeAt gc addressOf keyT valT w m k free b) (removed w m k).
Proof.
  intros Hwf Htab Hl Hn. pose proof Hn as ((x & Hx & Hs & _) & Hk & Hv).
  pose proof (node_range _ _ _ _ _ Hn) as Hrb.
  destruct (wf_chains _ _ Hwf b Hrb) as [_ Hnd Hseg Hm]. rewrite Hl in Hseg, Hm, Hnd.
  pose proof (seg_cons_status _ _ _ _ _ Hseg Hx) as Hst. cbn in Hst.
  assert (used (info m) n b) as (nx & Hnx & Hns & _) by (apply Hm; set_solver).
  pose proof (lookupZ_Some_lt _ _ _ Hnx) as Hrn.
  destruct (wf_occ _ _ Hwf _ _ Hnx Hns) as (nk & nv & Hnk & Hnv).
  assert (b ≠ n) as Hbn by (apply NoDup_cons in Hnd; set_solver).
  pose proof (wf_key _ _ Hwf) as Hlk. pose proof (wf_val _ _ Hwf) as Hlv.
  pose proof (node_size m ch _ _ _ _ Hwf Htab Hn) as Hsz.
  unfold removeAt. rewrite (aget_Some _ _ _ Hx); cbn. rewrite Hst, Z.eqb_refl; cbn.
  destruct (Z.eqb_spec n end_) as [->|_]; [by destruct (slot_not_code _ _ Htab Hrn)|]. cbn.
  unfold setStatus, setInfo, keyAt, valAt, putKey, putVal, destroyKey, destroyVal; cbn.
  rewrite (aget_Some _ _ _ Hx); cbn. run_step.
  rewrite (aget_Some _ _ _ Hk); cbn. run_step.
  rewrite (aget_Some _ _ _ Hv); cbn. run_step.
  rewrite (aget_Some _ n (Some nk)) by (by lk); cbn. run_step.
  rewrite (aget_Some _ n (Some nv)) by (by lk); cbn. run_step.
  rewrite (aget_Some _ n nx) by (by lk); cbn. run_step.
  rewrite (aget_Some _ n nx) by (by lk); cbn. run_step.
  rewrite (aget_Some _ n (Some nk)) by (by lk); cbn. run_step.
  rewrite (aget_Some _ n (Some nv)) by (by lk); cbn. run_step.
  unfold set_size, set_watch; cbn. rewrite u32_small by (unfold is_u32; lia).
  rewrite !copy_id, !list_insertZ_insert.
  eapply (replaced_spec w m ch k v h b n nx (hash nx) nk nv);
    [done|done|done|by split; [eauto|]|done|done|].
  eapply chains_replace_head; [apply Hwf|exact Hx|done|done].
Qed.

(** Walking the chain [l1 ++ i :: l] from [i]. *)
Lemma removeChain_spec fuel w m ch k h q l1 prev i l :
  map_wf m ch → table (info m) → 0 ≤ q < zlen (info m) → ch q = l1 ++ i :: l →
  (prev = free ∧ (l1 = [] ∨ ∀ j v, ¬ node m j h k v)) ∨ (∃ l0, l1 = l0 ++ [prev]) →
  (length l < fuel)%nat →
  returns (removeChain gc addressOf keyT valT fuel w m k h prev i) (λ '(m', r),
    if r : bool then removed w m k m' ∧ ∃ j v, node m j h k v
    else m' = m ∧ ∀ j v, j ∈ i :: l → ¬ node m j h k v).
Proof.
  intros Hwf Htab Hq. revert fuel l1 prev i.
  induction l as [|j l IH]; intros [|fuel] l1 prev i Hl Hprev Hf; cbn in Hf; try lia.
  all: destruct (wf_chains _ _ Hwf q Hq) as [Hhd Hnd Hseg Hm]; rewrite Hl in Hhd, Hnd, Hseg, Hm.
  all: assert (used (info m) i q) as (x & Hx & Hs & _) by (apply Hm; set_solver).
  all: cbn [removeChain]; rewrite (aget_Some _ _ _ Hx); cbn.
  all: apply seg_app in Hseg as [_ Hseg].
  all: pose proof (seg_cons_status _ _ _ _ _ Hseg Hx) as Hst; cbn in Hst.
  all: eapply returns_bind; [by eapply match_slot|]; intros [] Hr; cbn.
  1,3: destruct Hr as [v Hn]; eapply returns_bind with (P := removed w m k);
    [|intros m' Hm'; cbn; by eauto]; destruct Hprev as [[-> [->|Hno]]|[l0 ->]];
    [|by apply Hno in Hn|rewrite <- app_assoc in Hl; cbn in Hl; by eapply removeAt_unlink].
  - cbn in Hhd, Hl. destruct Hhd as [|[= ->]]; [done|]. by eapply removeAt_single.
  - cbn in Hhd, Hl. destruct Hhd as [|[= ->]]; [done|]. by eapply removeAt_head.
  - rewrite Hst, Z.eqb_refl. cbn. split; [done|]. intros j v ->%list_elem_of_singleton. apply Hr.
  - rewrite Hst. assert (used (info m) j q) as Hu by (apply Hm; set_solver).
    destruct (Z.eqb_spec j end_) as [E|_].
    { by destruct (slot_not_code _ j Htab (used_range _ _ _ Hu)). }
    eapply returns_mono.
    + apply (IH _ (l1 ++ [i])); [by rewrite <- app_assoc|right; by eauto|lia].
    + intros [m' []] Hp; [done|]. destruct Hp as [-> Hno]. split; [done|].
      intros j' v [->|?]%elem_of_cons; [apply Hr|by apply Hno].
Qed.

(** [remove] drops the node stored under the key's hash, if there is one. *)
Lemma remove_spec w m ch k :
  map_wf m ch → table (info m) →
  returns (remove gc addressOf keyT valT w m k) (λ '(m', r),
    if r : bool then removed w m k m' ∧ ∃ i v, node m i (hashOf w k) k v
    else m' = m ∧ ∀ i v, ¬ node m i (hashOf w k) k v).
Proof.
  intros Hwf Htab. unfold remove. rewrite (key_hash (hashOf:=hashOf)). cbn.
  pose proof (key_hash_u32 (h:=keyT) (hashOf:=hashOf) w k) as Hh. set (h := hashOf w k) in *.
  rewrite (wf_primary m ch Hwf) by done.
  pose proof (bucket_range (info m) h Htab Hh) as Hb. set (b := bucket _ h) in *.
  destruct (lookupZ_lt_Some _ _ Hb) as [x Hx]. rewrite (aget_Some _ _ _ Hx). cbn.
  assert (∀ i v, node m i h k v → ∃ l, ch b = b :: l ∧ i ∈ b :: l) as Hin.
  { intros i v Hn. by eapply node_chain. }
  destruct (Z.eqb_spec (status x) free) as [Hf|Hf].
  { cbn. split; [done|]. intros i v (l & Hl & _)%Hin. eapply unused_slot; [done..|].
    apply (wf_chains _ _ Hwf b Hb). rewrite Hl. set_solver. }
  destruct (chain_from m ch b x Hwf Htab Hx Hf) as (l1 & l & Hl & Hlen & _).
  set (q := bucket _ (hash x)) in *.
  assert (0 ≤ q < zlen (info m)) as Hq by (apply bucket_range; [done|by eapply (wf_hash _ _ Hwf)]).
  assert (l1 = [] ∨ ∀ j v, ¬ node m j h k v) as Hl1.
  { destruct (wf_chains _ _ Hwf q Hq) as [Hhd Hnd _ Hm]. destruct l1 as [|c l1]; [by left|right].
    intros j v (l' & Hl' & _)%Hin. rewrite Hl in Hhd, Hnd.
    destruct Hhd as [|[= ->]]; [done|]. cbn in Hnd. apply NoDup_cons in Hnd as [Hnd _].
    assert (used (info m) b b) as Hu by (apply (wf_chains _ _ Hwf b Hb); rewrite Hl'; set_solver).
    assert (used (info m) b q) as Hu' by (apply Hm; rewrite Hl; set_solver).
    pose proof (used_fun _ _ _ _ Hu Hu') as E. rewrite <- E in Hnd. set_solver. }
  eapply returns_mono; [eapply (removeChain_spec _ w m ch k h q l1); eauto|].
  intros [m' []] Hp; [done|]. destruct Hp as [-> Hno]. split; [done|].
  intros i v Hn. destruct Hl1 as [->|Hno']; [|by eapply Hno'].
  destruct (Hin i v Hn) as (l' & Hl' & Hi).
  assert (used (info m) b b) as Hu by (apply (wf_chains _ _ Hwf b Hb); rewrite Hl'; set_solver).
  assert (used (info m) b q) as Hu' by (apply (wf_chains _ _ Hwf q Hq); rewrite Hl; set_solver).
  pose proof (used_fun _ _ _ _ Hu Hu') as E. rewrite <- E, Hl' in Hl. cbn in Hl.
  injection Hl as ->. by eapply Hno.
Qed.
End remove.
