(* ===== verification/HashMapSpec.v ===== *)
(** * The hash map as a finite map

    The public operations of [MapBase] against the finite map [to_map m] they
    implement.  Keys that are hashed by address may move between operations: the
    invariant [map_inv] says that every stored hash is the key's hash in some world
    whose location the watch still tracks. *)

From stdpp Require Import base list numbers strings option decidable sets gmap.
From Stdlib Require Import ZArith Lia.
From S2P Require Import Prelude Handle Bitwise HashMap HashChains HashMapProofs HashMapLookup.
Import MapBase.

(** What the map relies on for its keys and its collector.  Without location
    hashing the world is irrelevant.  With it, a key is a pointer to an object, its
    hash depends on where that object is, and the address of the caller's key is not
    the address of such an object. *)
Class KeyWorld {World Addr Watch K Loc} (keyT : Handle World K) (hashOf : World → K → Z)
    (gc : GcWatch World Addr Watch) (deref addressOf : K → Addr)
    (loc : World → Addr → Loc) (tracks : Watch → Addr → World → Prop) : Prop := {
  kw_watch :: WatchLaws gc loc tracks;
  kw_static : locationHash keyT = false → ∀ w w' k, hashOf w k = hashOf w' k;
  kw_loc : locationHash keyT = true → ∀ w w' k,
    loc w (deref k) = loc w' (deref k) → hashOf w k = hashOf w' k;
  kw_deref : locationHash keyT = true → ∀ k k', deref k = deref k' → k = k';
  kw_address : locationHash keyT = true → ∀ k k', addressOf k ≠ deref k';
}.

Lemma map_wf_watch {K V Watch} (m : MapBase K V Watch) ch x :
  map_wf m ch → map_wf (set_watch x m) ch.
Proof. intros []. by split. Qed.

(** The finite map a table represents. *)
Definition to_map {K V Watch} `{Countable K} (m : MapBase K V Watch) : gmap K V :=
  list_to_map (entries m).

Section spec.
Context {World Addr Watch K V Loc : Type} `{Countable K}.
Context (gc : GcWatch World Addr Watch) (deref addressOf : K → Addr).
Context (keyT : Handle World K) (valT : Handle World V).
Context (hashOf : World → K → Z) (loc : World → Addr → Loc).
Context (tracks : Watch → Addr → World → Prop).
Context `{!KeyHandle keyT hashOf, !CopyHandle valT}.
Context `{!KeyWorld keyT hashOf gc deref addressOf loc tracks}.
Implicit Types m : MapBase K V Watch.

(** Stored hashes are current, or the watch knows the key has moved. *)
Definition hash_inv m : Prop := ∀ i h k v, node m i h k v →
  ∃ w0, h = hashOf w0 k ∧ ∀ s, watch m = Some s → tracks s (deref k) w0.

Record map_inv m : Prop := {
  inv_wf : ∃ ch, map_wf m ch;
  inv_watch : watch m = None ↔ locationHash keyT = false;
  inv_hash : hash_inv m;
}.

(** [m] has an entry for [k]. *)
Definition holds m (k : K) (v : V) : Prop := ∃ i h, node m i h k v.

Lemma lookup_to_map m ch k v : map_wf m ch → to_map m !! k = Some v ↔ holds m k v.
Proof.
  intros Hwf. unfold to_map, holds. rewrite <- (entries_node m ch Hwf). split.
  - apply elem_of_list_to_map_2.
  - apply elem_of_list_to_map_1, wf_entries_nodup with ch. done.
Qed.

Lemma lookup_to_map_None m ch k :
  map_wf m ch → to_map m !! k = None ↔ ∀ v, ¬ holds m k v.
Proof.
  intros Hwf. rewrite eq_None_not_Some. split.
  - intros Hn v Hv. apply Hn. exists v. by apply (lookup_to_map m ch).
  - intros Hn [v Hv]. eapply Hn. by apply (lookup_to_map m ch).
Qed.

(** A finite map is the one represented when it has the same entries. *)
Lemma to_map_eq m ch (M : gmap K V) :
  map_wf m ch → (∀ k v, M !! k = Some v ↔ holds m k v) → to_map m = M.
Proof.
  intros Hwf HM. apply map_eq. intros k. apply option_eq. intros v.
  by rewrite HM, (lookup_to_map m ch).
Qed.

Lemma holds_fun m ch k v v' : map_wf m ch → holds m k v → holds m k v' → v = v'.
Proof.
  intros Hwf (i & h & Hi) (j & h' & Hj).
  by destruct (node_inj m ch Hwf _ _ _ _ _ _ _ Hi Hj) as (_ & _ & ?).
Qed.

Lemma to_map_size m ch : map_wf m ch → size m = Z.of_nat (base.size (to_map m)).
Proof.
  intros Hwf. rewrite (wf_size _ _ Hwf). unfold to_map, zlen. f_equal.
  rewrite <- length_map_to_list.
  assert (map_to_list (list_to_map (entries m) : gmap K V) ≡ₚ entries m) as Hp.
  { apply map_to_list_to_map, wf_entries_nodup with ch. done. }
  by rewrite Hp.
Qed.

(** ** Finding a slot *)

(** A key whose object is where the watch last saw it is stored under its hash. *)
Lemma unmoved_hash w m i h k v :
  map_inv m → changedHash gc deref w m k = false → node m i h k v → h = hashOf w k.
Proof.
  intros [_ Hw Hh] Hc Hn. destruct (Hh _ _ _ _ Hn) as (w0 & -> & Ht).
  unfold changedHash in Hc. destruct (watch m) as [s|] eqn:E.
  - assert (locationHash keyT = true) as Hl by (destruct (locationHash keyT); naive_solver).
    apply (kw_loc Hl). symmetry. eapply moved_sound; [by apply Ht|done].
  - apply kw_static. by apply Hw.
Qed.

(** The state of a table that is being rebuilt in world [w]. *)
Record rebuilt (w : World) (P : K → Prop) m (cap j : Z) m' : Prop := {
  rb_wf : ∃ ch, map_wf m' ch;
  rb_cap : zlen (info m') = cap;
  rb_watch : ∃ s, watch m' = Some s ∧
    ∀ i h k v, node m' i h k v → h = hashOf w k ∧ tracks s (deref k) w;
  rb_nodes : refilled (λ _ k, hashOf w k) P m j m';
}.

Lemma rebuilt_alloc w P m cap p :
  cap = 2 ^ p → 0 ≤ p ≤ 31 →
  returns (allocRehash cap (mkMap (size m) [] [] [] (Some (createWatch gc w)) (lastFree m)))
    (λ m', rebuilt w P m cap 0 m' ∧ ∀ i h k v, ¬ node m' i h k v).
Proof.
  intros Hcap Hp. eapply returns_mono; [by eapply alloc_spec|].
  intros m' (Hwf & Hl & Hw & _ & Hn). split; [|done]. split; [by eauto|done| |].
  - eexists. split; [done|]. intros i h k v Hi. by apply Hn in Hi.
  - by apply refilled_start.
Qed.

Lemma rebuilt_skip w P m cap j m' :
  rebuilt w P m cap j m' → (∀ h k v, node m j h k v → ¬ P k) → rebuilt w P m cap (j + 1) m'.
Proof. intros [] ?. split; [done..|]. by apply refilled_skip. Qed.

(** One iteration: hash the key anew, watch it, insert it. *)
Lemma rebuilt_insert w P m ch cap p j m' h0 k v wt :
  locationHash keyT = true → map_wf m ch → cap = 2 ^ p → 0 ≤ p ≤ 31 → size m ≤ cap →
  rebuilt w P m cap j m' → node m j h0 k v → P k →
  ∃ m1, newHash gc deref keyT w m' k = Ret (m1, hashOf w k) ∧
  returns (insertN keyT valT 1 m1 k v (hashOf w k) wt)
    (λ '(m'', into, wt'), rebuilt w P m cap (j + 1) m'' ∧
       inserted (set_watch (watch m'') m') k v (hashOf w k) wt m'' into wt').
Proof.
  intros Hloc Hwf Hcap Hp Hsz [[ch' Hwf'] Hl (s & Hs & Htr) Hre] Hn HP.
  unfold newHash. rewrite Hs, (key_hash (hashOf:=hashOf)). cbn [mbind outcome_bind].
  set (s' := watch_add gc w s (deref k)). set (m1 := set_watch (Some s') m').
  pose proof (refilled_room _ _ m ch Hwf m' ch' j h0 k v Hwf' Hre Hn) as Hroom.
  pose proof (refilled_new _ _ m ch Hwf m' j h0 k v Hre Hn) as Hnew.
  exists m1. split; [done|]. eapply returns_mono.
  - eapply (insertVal_room _ _ _ m1 ch').
    + by apply map_wf_watch.
    + exists p. unfold m1. cbn. lia.
    + unfold m1. cbn. lia.
    + apply key_hash_u32.
    + exact Hnew.
  - intros [[m'' into] wt'] [Hi Hl'].
    pose proof (ins_watch _ _ _ _ _ _ _ _ Hi) as Hw. cbn in Hw.
    split; [|by rewrite Hw]. split.
    + apply (ins_wf _ _ _ _ _ _ _ _ Hi).
    + rewrite Hl'. done.
    + exists s'. split; [done|]. intros i h k' v' Hk'.
      destruct (proj1 (ins_nodes _ _ _ _ _ _ _ _ Hi h k' v')) as [(-> & -> & ->)|[i' Hi']]; [by eauto| |].
      * split; [done|]. apply tracks_add.
      * destruct (Htr _ _ _ _ Hi') as [-> Ht]. split; [done|]. apply tracks_add_other; [|done].
        intros ->%(kw_deref Hloc). by eapply Hnew.
    + eapply (refilled_insert (λ _ k, hashOf w k) P m m1); [exact Hre|exact Hn|done|exact Hi].
Qed.

(** At the end of a rebuild the table satisfies the invariant. *)
Lemma rebuilt_end w P m ch cap m' :
  locationHash keyT = true → map_wf m ch → rebuilt w P m cap (zlen (info m)) m' →
  map_inv m' ∧ ∀ k v, holds m' k v ↔ holds m k v ∧ P k.
Proof.
  intros Hloc Hwf [Hwf' _ (s & Hs & Htr) Hre]. split.
  - split; [done| |].
    + rewrite Hs, Hloc. done.
    + intros i h k v Hn. destruct (Htr _ _ _ _ Hn) as [-> Ht]. exists w. split; [done|].
      intros s' E. rewrite Hs in E. by simplify_eq.
  - intros k v. unfold holds. pose proof (refilled_end _ _ m m' Hre) as He. split.
    + intros (i & h & Hi). destruct (proj1 (He h k v)) as (i0 & h0 & ? & _ & ?); eauto.
    + intros [(i & h & Hi) HP]. destruct (proj2 (He (hashOf w k) k v)) as [j ?]; eauto 10.
Qed.

(** What [rehashFind] knows of the key it looks for. *)
Definition tracked (w : World) m (k : K) (r : Z) : Prop :=
  (r = free ∧ ∀ v, ¬ holds m k v) ∨ ∃ h v, node m r h k v.

Lemma wf_table_cap m ch : map_wf m ch → table (info m) →
  ∃ p, capacity m = 2 ^ p ∧ 0 ≤ p ≤ 31 ∧ size m ≤ capacity m.
Proof.
  intros Hwf (p & Hp & E). exists p. rewrite (wf_capacity m ch Hwf).
  pose proof (size_le_capacity m ch Hwf). done.
Qed.

(** [rehashFind] rebuilds the table in the current world and returns the slot of
    the key in it. *)
Lemma rehashFind_spec w m ch k :
  locationHash keyT = true → map_wf m ch → table (info m) →
  returns (rehashFind gc deref keyT valT w (capacity m) m k) (λ '(m', r),
    map_inv m' ∧ (∀ k v, holds m' k v ↔ holds m k v) ∧ tracked w m' k r).
Proof.
  intros Hloc Hwf Htab. destruct (wf_table_cap m ch Hwf Htab) as (p & Hcap & Hp & Hsz).
  unfold rehashFind. eapply returns_bind; [by eapply (rebuilt_alloc w (λ _, True) m _ p)|].
  intros m0 [Hrb0 Hn0]. case_bool_decide as Hnil.
  { apply table_bound in Htab. rewrite Hnil in Htab. unfold zlen in Htab. cbn in Htab. lia. }
  eapply returns_mono.
  - apply (returns_for_loop (λ j '(m', r),
      rebuilt w (λ _, True) m (capacity m) j m' ∧ tracked w m' k r)).
    { split; [done|]. left. split; [done|]. intros v (i & h & Hi). by apply Hn0 in Hi. }
    intros j [m' r] Hj [Hrb Htr]. cbn in Hj.
    destruct (lookupZ_lt_Some (info m) j) as [x Hx]; [unfold zlen; lia|].
    rewrite (aget_Some _ _ _ Hx). cbn. destruct (Z.eqb_spec (status x) free) as [Hf|Hf].
    { cbn. split; [|done]. apply rebuilt_skip; [done|].
      intros h k' v' [(y & ? & ? & _) _]. by simplify_eq. }
    destruct (wf_node m ch Hwf j x Hx Hf) as (k' & v' & Hn).
    pose proof Hn as (_ & Hk & Hv). rewrite (aget_Some _ _ _ Hk); cbn.
    rewrite (aget_Some _ _ _ Hv); cbn.
    destruct (rebuilt_insert w (λ _, True) m ch (capacity m) p j m' (hash x) k' v' r)
      as (m1 & -> & Hins); [done..|]. cbn. eapply returns_bind; [exact Hins|].
    intros [[m'' into] r'] [Hrb' Hi]. destruct (key_equal (h:=keyT) k' k) as (e & -> & He). cbn.
    split; [done|]. destruct e.
    + right. replace k with k' by (by apply He). do 2 eexists. apply (ins_node _ _ _ _ _ _ _ _ Hi).
    + destruct Htr as [[-> Hno]|(h & v & Hr)].
      * left. split; [by apply (ins_wt_free _ _ _ _ _ _ _ _ Hi)|].
        intros v (i & h & Hi').
        destruct (proj1 (ins_nodes _ _ _ _ _ _ _ _ Hi h k v)) as [(_ & -> & _)|[i' ?]]; [by eauto| |].
        -- naive_solver.
        -- eapply Hno. do 2 eexists. done.
      * right. do 2 eexists. apply (ins_wt _ _ _ _ _ _ _ _ Hi). exact Hr.
  - intros [m' r] [Hrb Htr].
    destruct (rebuilt_end w (λ _, True) m ch (capacity m) m' Hloc Hwf Hrb) as [Hinv Hh].
    split; [done|]. split; [|done]. intros k' v'. rewrite Hh. tauto.
Qed.

(** [rehashRemove] rebuilds the table without the key. *)
Lemma rehashRemove_spec w m ch k :
  locationHash keyT = true → map_wf m ch → table (info m) →
  returns (rehashRemove gc deref keyT valT w (capacity m) m k) (λ '(m', r),
    map_inv m' ∧ (∀ k' v, holds m' k' v ↔ holds m k' v ∧ k' ≠ k) ∧
    (r = true ↔ ∃ v, holds m k v)).
Proof.
  intros Hloc Hwf Htab. destruct (wf_table_cap m ch Hwf Htab) as (p & Hcap & Hp & Hsz).
  unfold rehashRemove. eapply returns_bind; [by eapply (rebuilt_alloc w (λ k', k' ≠ k) m _ p)|].
  intros m0 [Hrb0 Hn0]. case_bool_decide as Hnil.
  { apply table_bound in Htab. rewrite Hnil in Htab. unfold zlen in Htab. cbn in Htab. lia. }
  eapply returns_bind.
  - apply (returns_for_loop (λ j '(m', r, wt),
      rebuilt w (λ k', k' ≠ k) m (capacity m) j m' ∧
      (r = true ↔ ∃ i h v, i < j ∧ node m i h k v))).
    { split; [done|]. split; [done|]. intros (i & h & v & ? & Hi%node_range). lia. }
    intros j [[m' r] wt] Hj [Hrb Hr]. cbn in Hj.
    assert (∀ (b : bool), (b = true ↔ r = true ∨ ∃ h v, node m j h k v) →
      (b = true ↔ ∃ i h v, i < j + 1 ∧ node m i h k v)) as Hnext.
    { intros b ->. rewrite Hr. split.
      - intros [(i & h & v & ? & ?)|(h & v & ?)]; [exists i, h, v|exists j, h, v]; (split; [lia|done]).
      - intros (i & h & v & ? & ?). destruct (decide (i = j)) as [->|]; [by eauto|].
        left. exists i, h, v. split; [lia|done]. }
    destruct (lookupZ_lt_Some (info m) j) as [x Hx]; [unfold zlen; lia|].
    rewrite (aget_Some _ _ _ Hx). cbn. destruct (Z.eqb_spec (status x) free) as [Hf|Hf].
    { assert (∀ h k' v', ¬ node m j h k' v') as Hno.
      { intros h k' v' [(y & ? & ? & _) _]. by simplify_eq. }
      cbn. split; [apply rebuilt_skip; [done|by intros ? ? ? ?%Hno]|].
      apply Hnext. split; [by left|]. intros [?|(? & ? & ?%Hno)]; done. }
    destruct (wf_node m ch Hwf j x Hx Hf) as (k' & v' & Hn).
    pose proof Hn as (_ & Hk & Hv). rewrite (aget_Some _ _ _ Hk); cbn.
    assert (∀ h k0 v, node m j h k0 v → k0 = k') as Hkj.
    { intros h k0 v [_ [? _]]. by simplify_eq. }
    destruct (key_equal (h:=keyT) k' k) as (e & -> & He). cbn. destruct e.
    { assert (k' = k) as -> by (by apply He). cbn. split.
      - apply rebuilt_skip; [done|]. intros h k0 v ->%Hkj. naive_solver.
      - apply Hnext. split; [by eauto|done]. }
    assert (k' ≠ k) as Hne by naive_solver.
    destruct (rebuilt_insert w (λ k', k' ≠ k) m ch (capacity m) p j m' (hash x) k' v' wt)
      as (m1 & -> & Hins); [done..|]. cbn. rewrite (aget_Some _ _ _ Hv); cbn.
    eapply returns_bind; [exact Hins|]. intros [[m'' into] wt'] [Hrb' Hi]. cbn.
    split; [done|]. apply Hnext. split; [by left|]. intros [?|(? & ? & ?%Hkj)]; naive_solver.
  - intros [[m' r] wt] [Hrb Hr].
    destruct (rebuilt_end w _ m ch (capacity m) m' Hloc Hwf Hrb) as [Hinv Hh].
    cbn. split; [done|]. split; [done|]. rewrite Hr. split.
    + intros (i & h & v & _ & ?). exists v, i, h. done.
    + intros (v & i & h & Hn). exists i, h, v. split; [|done]. apply node_range in Hn. unfold zlen in Hn. lia.
Qed.

(** ** Lookup *)
Lemma findSlot_spec w m k :
  map_inv m →
  returns (findSlot gc deref keyT valT w m k (hashOf w k)) (λ '(m', r),
    map_inv m' ∧ (∀ k v, holds m' k v ↔ holds m k v) ∧ tracked w m' k r).
Proof.
  intros Hinv. pose proof Hinv as [[ch Hwf] Hw Hh]. unfold findSlot.
  rewrite (wf_capacity m ch Hwf). destruct (wf_tab _ _ Hwf) as [Hnil|Htab].
  { rewrite Hnil. cbn. split; [done|]. split; [done|]. left. split; [done|].
    intros v (i & h & Hi). by apply (wf_empty m ch Hwf Hnil) in Hi. }
  pose proof (table_bound _ Htab) as Hb. destruct (Z.eqb_spec (zlen (info m)) 0); [lia|].
  eapply returns_bind; [apply (findSlotI_spec keyT hashOf m ch); [done|done|apply key_hash_u32]|].
  intros r Hr. destruct (Z.eqb_spec r free) as [->|Hne]; cbn.
  - destruct (changedHash gc deref w m k) eqn:Hc.
    + assert (locationHash keyT = true) as Hloc.
      { unfold changedHash in Hc. destruct (watch m), (locationHash keyT); naive_solver. }
      rewrite <- (wf_capacity m ch Hwf). by eapply rehashFind_spec.
    + cbn. split; [done|]. split; [done|]. left. split; [done|]. intros v (i & h & Hn).
      destruct Hr as [[_ Hno]|[v' Hn']]; [|by eapply (node_not_free m ch)].
      eapply Hno. by rewrite <- (unmoved_hash w m i h k v Hinv Hc Hn).
  - split; [done|]. split; [done|]. right. destruct Hr as [[? _]|[v ?]]; [done|]. eauto.
Qed.

(** A slot number returned for a key is not the code for "not found". *)
Lemma tracked_cases w m k r :
  map_inv m → tracked w m k r →
  ((r =? free) = true ∧ ∀ v, ¬ holds m k v) ∨ ((r =? free) = false ∧ ∃ h v, node m r h k v).
Proof.
  intros [[ch Hwf] _ _] [[-> Hno]|(h & v & Hn)]; [left; by rewrite Z.eqb_refl|right].
  split; [|eauto]. apply Z.eqb_neq. intros ->. by apply (node_not_free m ch) in Hn.
Qed.

(** The hash to insert a new key under, and the key watched. *)
Lemma newHash_insert w m k v :
  map_inv m → size m < 2 ^ 31 → (∀ v, ¬ holds m k v) →
  ∃ m1, match watch m with
        | Some _ => newHash gc deref keyT w m k
        | None => Ret (m, hashOf w k)
        end = Ret (m1, hashOf w k) ∧
    returns (insert keyT valT m1 k v (hashOf w k) free) (λ '(m', into, _),
      map_inv m' ∧ size m' = size m + 1 ∧ node m' into (hashOf w k) k v ∧
      ∀ k' v', holds m' k' v' ↔ (k' = k ∧ v' = v) ∨ holds m k' v').
Proof.
  intros [[ch Hwf] Hw Hh] Hsz Hno.
  exists (match watch m with
     | Some s => set_watch (Some (watch_add gc w s (deref k))) m | None => m end).
  split.
  { unfold newHash. destruct (watch m); [|done]. by rewrite (key_hash (hashOf:=hashOf)). }
  set (m1 := match watch m with Some _ => _ | None => _ end).
  assert (map_wf m1 ch) as Hwf1 by (subst m1; destruct (watch m); [by apply map_wf_watch|done]).
  assert (size m1 = size m) as Hs1 by (subst m1; by destruct (watch m)).
  assert (∀ i h k v, node m1 i h k v ↔ node m i h k v) as Hn1 by (subst m1; by destruct (watch m)).
  eapply returns_mono; [eapply (insert_spec _ _ m1 ch); [done|lia|apply key_hash_u32|]|].
  { intros i h' v' Hi%Hn1. eapply Hno. do 2 eexists. done. }
  intros [[m' into] wt'] Hi. pose proof (ins_watch _ _ _ _ _ _ _ _ Hi) as Hw'.
  split_and!; [|rewrite <- Hs1; apply (ins_size _ _ _ _ _ _ _ _ Hi)|apply (ins_node _ _ _ _ _ _ _ _ Hi)|].
  - split; [apply (ins_wf _ _ _ _ _ _ _ _ Hi)| |].
    + rewrite Hw', <- Hw. subst m1. by destruct (watch m) eqn:E; [|rewrite E].
    + intros i h k' v' Hk'.
      destruct (proj1 (ins_nodes _ _ _ _ _ _ _ _ Hi h k' v')) as [(-> & -> & ->)|[i' Hi']]; [by eauto| |].
      * exists w. split; [done|]. rewrite Hw'. subst m1. destruct (watch m) eqn:E; cbn.
        -- intros s [= <-]. apply tracks_add.
        -- intros s Hs. congruence.
      * apply Hn1 in Hi'. destruct (Hh _ _ _ _ Hi') as (w0 & -> & Ht). exists w0.
        split; [done|]. rewrite Hw'. subst m1. destruct (watch m) as [s0|] eqn:E; cbn.
        -- intros s [= <-]. apply tracks_add_other; [|by apply Ht].
           intros Hd. assert (locationHash keyT = true) as Hl by (destruct (locationHash keyT); naive_solver).
           apply (kw_deref Hl) in Hd as ->. eapply Hno. do 2 eexists. done.
        -- intros s Hs. congruence.
  - intros k' v'. unfold holds. split.
    + intros (i & h & Hi'). destruct (proj1 (ins_nodes _ _ _ _ _ _ _ _ Hi h k' v')) as
        [(_ & -> & ->)|[j Hj%Hn1]]; [by eauto|by left|right; eauto].
    + intros [[-> ->]|(i & h & Hi')]; [do 2 eexists; apply (ins_node _ _ _ _ _ _ _ _ Hi)|].
      destruct (proj2 (ins_nodes _ _ _ _ _ _ _ _ Hi h k' v')) as [j ?]; [|by eauto].
      right. exists i. by apply Hn1.
Qed.
End spec.
