(* ===== verification/HashMapClient.v ===== *)
(** * Clients of the hash map

    Each public operation of [MapBase] ([Core/Map.cpp], [Core/Map.h]) against its
    effect on the finite map, any sequence of operations against the same sequence on
    [gmap]s, iteration, and copies. *)

From stdpp Require Import base list numbers strings option decidable sets gmap.
From Stdlib Require Import ZArith Lia.
From S2P Require Import Prelude Handle Bitwise HashMap HashChains HashMapProofs HashMapLookup.
From S2P Require Import HashMapSpec.
Import MapBase.

(** Replacing a value by another keeps the number of entries. *)
Lemma entriesOf_set_val {K V} (ks : list (option K)) (vs : list (option V)) (i : Z) v0 v :
  vs !! i = Some (Some v0) →
  length (entriesOf ks (<[i := Some v]> vs)) = length (entriesOf ks vs).
Proof.
  intros Hi. pose proof (lookupZ_Some_lt _ _ _ Hi) as [? _].
  rewrite lookupZ_to_nat in Hi by done. unfold base.insert, list_insertZ. rewrite decide_True by done.
  clear -Hi. revert ks vs Hi. induction (Z.to_nat i) as [|n IH]; intros [|[k|] ks] [|[u|] vs] Hi;
    try done; cbn in *; auto using f_equal.
Qed.

Section client.
Context {World Addr Watch K V Loc : Type} `{Countable K}.
Context (gc : GcWatch World Addr Watch) (deref addressOf : K → Addr).
Context (keyT : Handle World K) (valT : Handle World V).
Context (hashOf : World → K → Z) (loc : World → Addr → Loc).
Context (tracks : Watch → Addr → World → Prop).
Context `{!KeyHandle keyT hashOf, !CopyHandle valT}.
Context `{!KeyWorld keyT hashOf gc deref addressOf loc tracks}.
Implicit Types (m : MapBase K V Watch) (M : gmap K V).

(** A table in a good state that represents [M]. *)
Definition represents m M : Prop :=
  map_inv deref keyT hashOf tracks m ∧ to_map m = M.

Lemma represents_holds m M k v : represents m M → M !! k = Some v ↔ holds m k v.
Proof. intros [[[ch Hwf] _ _] <-]. by apply (lookup_to_map m ch). Qed.

Lemma represents_intro m M :
  map_inv deref keyT hashOf tracks m → (∀ k v, holds m k v ↔ M !! k = Some v) → represents m M.
Proof.
  intros Hi Hh. split; [done|]. destruct (inv_wf _ _ _ _ _ Hi) as [ch Hwf].
  apply (to_map_eq m ch); [done|]. intros. by rewrite Hh.
Qed.

Lemma represents_None m M k : represents m M → M !! k = None ↔ ∀ v, ¬ holds m k v.
Proof. intros [[[ch Hwf] _ _] <-]. by apply (lookup_to_map_None m ch). Qed.

Lemma represents_size m M : represents m M → size m = Z.of_nat (base.size M).
Proof. intros [[[ch Hwf] _ _] <-]. by apply (to_map_size m ch). Qed.

(** [findSlot] changes where entries are, not what they are, and returns where the
    key's entry is. *)
Lemma findSlot_represents w m M k :
  represents m M →
  returns (findSlot gc deref keyT valT w m k (hashOf w k)) (λ '(m', r), represents m' M ∧
    (((r =? free) = true ∧ M !! k = None) ∨
     ((r =? free) = false ∧ ∃ h v, node m' r h k v ∧ M !! k = Some v))).
Proof.
  intros Hr. pose proof Hr as [Hinv _].
  eapply returns_mono; [by apply (findSlot_spec gc deref addressOf keyT valT hashOf loc tracks w m k)|].
  intros [m' r] (Hinv' & Hh & Ht).
  assert (represents m' M) as Hr'.
  { apply represents_intro; [done|]. intros k' v. rewrite Hh. symmetry. by apply represents_holds. }
  split; [done|]. destruct (tracked_cases deref keyT hashOf tracks w m' k r Hinv' Ht) as [[? Hno]|[? (h & v & Hn)]].
  - left. split; [done|]. by apply (represents_None m').
  - right. split; [done|]. exists h, v. split; [done|].
    apply (represents_holds m' M k v Hr'). by exists r, h.
Qed.

Lemma valAt_node m i h k v : node m i h k v → valAt m i = Ret v.
Proof. intros (_ & _ & Hv). unfold valAt. by rewrite (aget_Some _ _ _ Hv). Qed.

(** ** Insertion *)

(** A key that is not in the table is inserted. *)
Lemma insert_represents w m M k v :
  represents m M → size m < 2 ^ 31 → M !! k = None →
  ∃ m1, match watch m with
        | Some _ => newHash gc deref keyT w m k
        | None => Ret (m, hashOf w k)
        end = Ret (m1, hashOf w k) ∧
    returns (insert keyT valT m1 k v (hashOf w k) free) (λ '(m', into, _),
      represents m' (<[k := v]> M) ∧ node m' into (hashOf w k) k v).
Proof.
  intros Hr Hs Hk. pose proof Hr as [Hinv _].
  destruct (newHash_insert gc deref addressOf keyT valT hashOf loc tracks w m k v) as (m1 & -> & Hi);
    [done|done|by apply (represents_None m M)|].
  exists m1. split; [done|]. eapply returns_mono; [exact Hi|].
  intros [[m' into] wt'] (Hinv' & _ & Hn & Hh). split; [|done].
  apply represents_intro; [done|]. intros k' v'.
  rewrite Hh, lookup_insert_Some, <- (represents_holds m M k' v' Hr). split.
  - intros [[-> ->]|Hk']; [by left|]. right. split; [congruence|done].
  - intros [[-> ->]|[? ?]]; auto.
Qed.

(** The value in the slot of a key is replaced. *)
Lemma overwrite_represents m M r h k v0 v :
  represents m M → node m r h k v0 →
  returns (m ← destroyVal valT m r; putVal valT m r v) (λ m', represents m' (<[k := v]> M)).
Proof.
  intros Hr Hn. pose proof Hr as [[[ch Hwf] Hw Hh] _].
  pose proof (node_range _ _ _ _ _ Hn) as Hrg. pose proof Hn as ((x & Hx & Hs & Hxh) & Hk & Hv).
  pose proof (wf_val _ _ Hwf) as Hlv.
  unfold destroyVal. rewrite (aget_Some _ _ _ Hv). cbn [mbind outcome_bind].
  rewrite aset_in by lia. cbn [mbind outcome_bind]. unfold putVal.
  rewrite (copy_id (h:=valT)). rewrite aset_in by (cbn; rewrite zlen_insert; lia). cbn.
  rewrite list_insertZ_insert.
  set (m' := set_val _ _).
  assert (∀ i h' k' v', node m' i h' k' v' ↔
    (i = r ∧ h' = h ∧ k' = k ∧ v' = v) ∨ (i ≠ r ∧ node m i h' k' v')) as Hnode.
  { intros i h' k' v'. unfold node, m'. cbn. rewrite lookupZ_insert by lia. case_decide as E.
    - subst i. split.
      + intros ((y & ? & ? & ?) & ? & ?). simplify_eq. by left.
      + intros [(_ & -> & -> & ->)|[? _]]; [|done]. split_and!; eauto.
    - naive_solver. }
  apply represents_intro.
  - split; [|exact Hw|].
    + exists ch. destruct Hwf. split; cbn; try done.
      * by rewrite zlen_insert.
      * intros i y Hy Hf. rewrite lookupZ_insert_ne by (intros ->; simplify_eq). eauto.
      * intros i y Hy Hf. rewrite lookupZ_insert by lia. case_decide as E; [|eauto].
        subst i. eauto.
      * rewrite wf_size. unfold entries. cbn. unfold zlen. f_equal. symmetry.
        by eapply entriesOf_set_val.
    + intros i h' k' v' [(-> & -> & -> & ->)|[_ Hi]]%Hnode; [by eapply Hh|by eapply Hh].
  - intros k' v'. rewrite lookup_insert_Some, (represents_holds m M k' v' Hr). split.
    + intros (i & h' & [(_ & _ & -> & ->)|[Hne Hi]]%Hnode); [by left|]. right.
      split; [|by exists i, h']. intros ->. by destruct (node_eq m ch _ _ _ _ _ _ _ Hwf Hn Hi).
    + intros [[-> ->]|[Hne (i & h' & Hi)]]; [exists r, h; apply Hnode; by left|].
      exists i, h'. apply Hnode. right. split; [|done]. intros ->.
      destruct Hi as (_ & ? & _). congruence.
Qed.

(** ** The operations *)

Lemma putRaw_represents w m M k v :
  represents m M → Z.of_nat (base.size M) < 2 ^ 31 →
  returns (putRaw gc deref keyT valT w m k v) (λ '(m', r),
    represents m' (<[k := v]> M) ∧ r = bool_decide (M !! k = None)).
Proof.
  intros Hr Hs. unfold putRaw. rewrite (key_hash (hashOf:=hashOf)). cbn [mbind outcome_bind].
  eapply returns_bind; [by apply findSlot_represents|].
  intros [m1 r] [Hr1 [[-> Hk]|[-> (h & v0 & Hn & Hk)]]].
  - destruct (insert_represents w m1 M k v Hr1) as (m2 & -> & Hi);
      [by rewrite (represents_size m1 M)|done|].
    cbn [mbind outcome_bind]. eapply returns_bind; [exact Hi|].
    intros [[m' into] wt'] [? _]. split; [done|]. by rewrite bool_decide_true.
  - pose proof (overwrite_represents m1 M r h k v0 v Hr1 Hn) as Ho.
    destruct (destroyVal valT m1 r) as [m2| | |]; try done. cbn [mbind outcome_bind] in *.
    eapply returns_bind; [exact Ho|]. intros m' ?. split; [done|].
    rewrite bool_decide_false; [done|]. by rewrite Hk.
Qed.

Lemma hasRaw_represents w m M k :
  represents m M →
  returns (hasRaw gc deref keyT valT w m k) (λ '(m', r),
    represents m' M ∧ r = bool_decide (is_Some (M !! k))).
Proof.
  intros Hr. unfold hasRaw. rewrite (key_hash (hashOf:=hashOf)). cbn [mbind outcome_bind].
  eapply returns_bind; [by apply findSlot_represents|].
  intros [m1 r] [Hr1 [[-> Hk]|[-> (h & v0 & Hn & Hk)]]]; cbn; rewrite Hk; by split.
Qed.

Lemma getUnsafeRaw_represents w m M k :
  represents m M →
  returns (getUnsafeRaw gc deref keyT valT w m k) (λ '(m', r),
    represents m' M ∧
    match r with
    | None => M !! k = None
    | Some p => ∃ v, M !! k = Some v ∧ valAt m' p = Ret v
    end).
Proof.
  intros Hr. unfold getUnsafeRaw. rewrite (key_hash (hashOf:=hashOf)). cbn [mbind outcome_bind].
  eapply returns_bind; [by apply findSlot_represents|].
  intros [m1 r] [Hr1 [[-> Hk]|[-> (h & v0 & Hn & Hk)]]]; cbn; split; eauto using valAt_node.
Qed.

Lemma Map_getDef_represents w m M k d :
  represents m M →
  returns (Map_getDef gc deref keyT valT w m k d) (λ '(m', v),
    represents m' M ∧ v = default d (M !! k)).
Proof.
  intros Hr. unfold Map_getDef, getRawDef. rewrite (key_hash (hashOf:=hashOf)).
  pose proof (findSlot_represents w m M k Hr) as Hf. cbn [mbind outcome_bind].
  destruct (findSlot gc deref keyT valT w m k (hashOf w k)) as [[m1 r]| | |]; try done.
  destruct Hf as [Hr1 [[E Hk]|[E (h & v0 & Hn & Hk)]]]; cbn; rewrite E, Hk; [done|].
  rewrite (valAt_node _ _ _ _ _ Hn). done.
Qed.

(** [insert] without a value, then the value constructed in place, is [insert]. *)
Lemma insert0_insert m k v h :
  ('(m', slot, _) ← insert0 keyT valT m k h free;
   l ← aset (val m') slot (Some v); Ret (set_val l m', slot)) =
  ('(m', slot, _) ← insert keyT valT m k v h free; Ret (m', slot)).
Proof.
  unfold insert0, insert. cbn [insertN]. fold (insertN (Watch:=Watch) keyT valT 1). unfold insertVal.
  destruct (insertKey _ _ _ _ _ _ _) as [[[m' slot] wt']| | |]; cbn [mbind outcome_bind]; try done.
  unfold putVal. rewrite (copy_id (h:=valT)).
  destruct (aset (val m') slot (Some v)); done.
Qed.

Lemma Map_at_represents w m M k d :
  represents m M → Z.of_nat (base.size M) < 2 ^ 31 →
  returns (Map_at gc deref keyT valT w m k d) (λ '(m', v),
    represents m' (<[k := default d (M !! k)]> M) ∧ v = default d (M !! k)).
Proof.
  intros Hr Hs. unfold Map_at, atRaw. rewrite (key_hash (hashOf:=hashOf)).
  pose proof (findSlot_represents w m M k Hr) as Hf. cbn [mbind outcome_bind].
  destruct (findSlot gc deref keyT valT w m k (hashOf w k)) as [[m1 r]| | |]; try done.
  destruct Hf as [Hr1 [[E Hk]|[E (h & v0 & Hn & Hk)]]]; cbn [mbind outcome_bind]; rewrite E, Hk.
  - destruct (insert_represents w m1 M k d Hr1) as (m2 & -> & Hi);
      [by rewrite (represents_size m1 M)|done|].
    cbn [mbind outcome_bind]. rewrite insert0_insert.
    destruct (insert keyT valT m2 k d (hashOf w k) free) as [[[m' into] wt']| | |]; try done.
    cbn. destruct Hi as [? Hn]. by rewrite (valAt_node _ _ _ _ _ Hn).
  - cbn. rewrite (valAt_node _ _ _ _ _ Hn). cbn. by rewrite (insert_id M k v0).
Qed.

(** ** Removal *)

Lemma removed_represents w m M k m' :
  represents m M → removed gc addressOf w m k m' → represents m' (delete k M).
Proof.
  intros Hr [Hwf' _ _ Hw' Hn']. pose proof Hr as [[_ Hw Hh] _]. apply represents_intro.
  - split; [done| |].
    + rewrite Hw', <- Hw. unfold removed_watch. destruct (watch m); done.
    + intros i h k' v' Hi. destruct (proj1 (Hn' h k' v')) as [[j Hj] Hne]; [by eauto|].
      destruct (Hh _ _ _ _ Hj) as (w0 & -> & Ht). exists w0. split; [done|].
      rewrite Hw'. unfold removed_watch. destruct (watch m) as [s0|] eqn:E; [|done].
      intros s [= <-]. apply tracks_remove_other; [|by apply Ht].
      assert (locationHash keyT = true) as Hl by (destruct (locationHash keyT); naive_solver).
      intros Ha. by apply (kw_address Hl k k').
  - intros k' v'. rewrite lookup_delete_Some, (represents_holds m M k' v' Hr). unfold holds. split.
    + intros (i & h & Hi). destruct (proj1 (Hn' h k' v')) as [[j Hj] Hne]; [by eauto|].
      split; [done|]. by exists j, h.
    + intros [Hne (i & h & Hi)]. destruct (proj2 (Hn' h k' v')) as [j Hj]; [|by exists j, h].
      split; [by exists i|done].
Qed.

Lemma removeRaw_represents w m M k :
  represents m M →
  returns (removeRaw gc deref addressOf keyT valT w m k) (λ '(m', r),
    represents m' (delete k M) ∧ r = bool_decide (is_Some (M !! k))).
Proof.
  intros Hr. pose proof Hr as [[[ch Hwf] Hw Hh] _]. unfold removeRaw.
  rewrite (wf_capacity m ch Hwf). destruct (wf_tab _ _ Hwf) as [Hnil|Htab].
  { rewrite Hnil. cbn. assert (M !! k = None) as E.
    { apply (represents_None m M k Hr). intros v (i & h & Hi).
      by apply (wf_empty m ch Hwf Hnil) in Hi. }
    rewrite E, (delete_id M k) by done. done. }
  pose proof (table_bound _ Htab) as Hb. destruct (Z.eqb_spec (zlen (info m)) 0); [lia|].
  eapply returns_bind; [by apply (remove_spec gc addressOf keyT valT hashOf w m ch k)|].
  intros [m' r] Hrem. destruct r.
  { destruct Hrem as [Hrem (i & v & Hi)]. split; [by eapply removed_represents|].
    rewrite bool_decide_true; [done|]. exists v. apply (represents_holds m M k v Hr).
    by exists i, (hashOf w k). }
  destruct Hrem as [-> Hno]. destruct (changedHash gc deref w m k) eqn:Hc.
  - assert (locationHash keyT = true) as Hloc.
    { unfold changedHash in Hc. destruct (watch m), (locationHash keyT); naive_solver. }
    eapply returns_mono; [by apply (rehashRemove_spec gc deref addressOf keyT valT hashOf loc tracks w m ch k)|].
    intros [m' r] (Hinv' & Hh' & Hb'). split.
    + apply represents_intro; [done|]. intros k' v'.
      rewrite Hh', lookup_delete_Some, (represents_holds m M k' v' Hr). naive_solver.
    + apply eq_bool_prop_intro. rewrite !Is_true_true, bool_decide_eq_true, Hb'.
      unfold is_Some. by setoid_rewrite (represents_holds m M k _ Hr).
  - assert (M !! k = None) as E.
    { apply (represents_None m M k Hr). intros v (i & h & Hi). eapply (Hno i v).
      by rewrite <- (unmoved_hash gc deref addressOf keyT hashOf loc tracks w m i h k v (proj1 Hr) Hc Hi). }
    cbn. rewrite E, (delete_id M k) by done. done.
Qed.

(** ** The whole table *)

Lemma empty_represents m :
  size m = 0 → info m = [] → key m = [] → val m = [] → lastFree m = 0 →
  (watch m = None ↔ locationHash keyT = false) → represents m ∅.
Proof.
  destruct m as [sz inf ks vs wa lf]; cbn. intros -> -> -> -> -> Hw. apply represents_intro.
  - split; [|done|].
    + exists (λ _, []). split; cbn; try done; try (by left); intros *; try by rewrite lookupZ_nil.
      intros q [? Hq]. unfold zlen in Hq. cbn in Hq. lia.
    + intros i h k v ((x & Hx & _) & _). cbn in Hx. by rewrite lookupZ_nil in Hx.
  - intros k v. rewrite lookup_empty. split; [|done].
    intros (i & h & (x & Hx & _) & _). cbn in Hx. by rewrite lookupZ_nil in Hx.
Qed.

Lemma clear_represents w m M : represents m M → represents (clear gc w m) ∅.
Proof.
  intros [[_ Hw _] _]. apply empty_represents; try done. cbn. rewrite <- Hw. by destruct (watch m).
Qed.

(** [shrink] keeps the entries; the capacity is the least power of two that holds
    them, at least [minCapacity]. *)
Lemma shrink_represents w m M :
  represents m M → Z.of_nat (base.size M) ≤ 2 ^ 31 →
  returns (shrink gc keyT valT w m) (λ m', represents m' M ∧
    capacity m' = if decide (M = ∅) then 0
                  else Z.max minCapacity (2 ^ Z.log2_up (Z.of_nat (base.size M)))).
Proof.
  intros Hr Hs. pose proof Hr as [[[ch Hwf] Hw Hh] _]. pose proof (represents_size m M Hr) as Hsz.
  unfold shrink. rewrite Hsz. destruct (Z.eqb_spec (Z.of_nat (base.size M)) 0) as [H0|H0].
  { assert (M = ∅) as -> by (apply map_size_empty_iff; lia). rewrite decide_True by done. split; [|done].
    by eapply clear_represents. }
  rewrite decide_False by (intros ->; by rewrite map_size_empty in H0).
  set (n := Z.of_nat (base.size M)) in *.
  rewrite nextPowerOfTwo_log2_up by (change (2 ^ (32 - 1)) with (2 ^ 31); lia).
  assert (Z.log2_up n ≤ 31) by (change 31 with (Z.log2_up (2 ^ 31)); by apply Z.log2_up_le_mono).
  pose proof (Z.log2_up_nonneg n) as Hl.
  assert (∃ p, Z.max minCapacity (2 ^ Z.log2_up n) = 2 ^ p ∧ 0 ≤ p ≤ 31 ∧ n ≤ 2 ^ p) as (p & -> & Hp & Hle).
  { pose proof (Z.log2_log2_up_spec n ltac:(lia)) as [_ Hup]. unfold minCapacity.
    destruct (decide (Z.log2_up n ≤ 2)) as [Hle|Hle].
    - exists 2. pose proof (Z.pow_le_mono_r 2 _ _ ltac:(lia) Hle). lia.
    - exists (Z.log2_up n). pose proof (Z.pow_le_mono_r 2 2 (Z.log2_up n)). lia. }
  eapply returns_mono; [eapply (rehash_spec keyT valT (2 ^ p) p m ch); [done|done|done|lia]|].
  intros m' ([ch' Hwf'] & Hc & Hw' & Hn). split.
  - apply represents_intro.
    + split; [by eauto|by rewrite Hw'|]. intros i h k v Hi.
      destruct (proj1 (Hn h k v)) as [j Hj]; [by eauto|]. rewrite Hw'. by eapply Hh.
    + intros k v. rewrite (represents_holds m M k v Hr). unfold holds.
      split; intros (i & h & Hi); [destruct (proj1 (Hn h k v)) as [j ?]|destruct (proj2 (Hn h k v)) as [j ?]]; eauto.
  - by rewrite (wf_capacity m' ch' Hwf').
Qed.

(** ** Iteration

    [for (Iter i = map->begin(); i != map->end(); ++i)], collecting keys and
    values. *)
Fixpoint drain (fuel : nat) (it : Iter K V) : outcome (list (K * V)) :=
  match fuel with
  | O => OutOfFuel
  | S fuel =>
      if iterEq false it endRaw then Ret []
      else
        k ← rawKey it; v ← rawVal it;
        it ← preIncRaw it;
        rest ← drain fuel it;
        Ret ((k, v) :: rest)
  end.

Definition iterate m : outcome (list (K * V)) :=
  it ← beginRaw m; drain (S (length (key m))) it.

(** The entries from slot [p] on. *)
Definition entriesFrom m (p : Z) : list (K * V) :=
  entriesOf (drop (Z.to_nat p) (key m)) (drop (Z.to_nat p) (val m)).

Definition iter_of m (p : Z) : Iter K V := mkIter (info m) (key m) (val m) p.

Lemma atEnd_iter m p : 0 ≤ p ≤ zlen (key m) → atEnd (iter_of m p) = (p =? zlen (key m)).
Proof.
  unfold atEnd, iter_of; cbn. destruct (key m) eqn:E; [|done].
  unfold zlen; cbn. intros. symmetry. apply Z.eqb_eq. lia.
Qed.

Lemma entriesFrom_free m ch p x :
  map_wf m ch → info m !! p = Some x → status x = free → entriesFrom m p = entriesFrom m (p + 1).
Proof.
  intros Hwf Hx Hf. destruct (wf_free _ _ Hwf p x Hx Hf) as [Hk Hv].
  pose proof (lookupZ_Some_lt _ _ _ Hx) as [? _]. rewrite lookupZ_to_nat in Hk by done. rewrite lookupZ_to_nat in Hv by done.
  unfold entriesFrom. rewrite Z2Nat.inj_add by lia. rewrite Nat.add_1_r.
  by rewrite (drop_S _ _ _ Hk), (drop_S _ _ _ Hv).
Qed.

Lemma entriesFrom_used m p k v :
  key m !! p = Some (Some k) → val m !! p = Some (Some v) →
  entriesFrom m p = (k, v) :: entriesFrom m (p + 1).
Proof.
  intros Hk Hv. pose proof (lookupZ_Some_lt _ _ _ Hk) as [? _].
  rewrite lookupZ_to_nat in Hk by done. rewrite lookupZ_to_nat in Hv by done.
  unfold entriesFrom. rewrite Z2Nat.inj_add by lia. rewrite Nat.add_1_r.
  by rewrite (drop_S _ _ _ Hk), (drop_S _ _ _ Hv).
Qed.

(** The position an iterator stops at: the end, or an occupied slot. *)
Definition stopped m (p : Z) : Prop :=
  p = zlen (key m) ∨ ∃ h k v, node m p h k v.

Lemma skipFree_spec m ch fuel p :
  map_wf m ch → 0 ≤ p ≤ zlen (key m) → zlen (key m) - p < Z.of_nat fuel →
  returns (skipFree fuel (iter_of m p)) (λ it, ∃ q, it = iter_of m q ∧ p ≤ q ≤ zlen (key m) ∧
    stopped m q ∧ entriesFrom m p = entriesFrom m q).
Proof.
  intros Hwf. revert p. induction fuel as [|fuel IH]; intros p Hp Hf; [lia|]. cbn [skipFree].
  pose proof (wf_key _ _ Hwf) as Hlk. rewrite (atEnd_iter m p Hp).
  destruct (Z.eqb_spec p (zlen (key m))) as [E|E].
  { exists p. split_and!; try done; try lia. by left. }
  destruct (lookupZ_lt_Some (info m) p) as [x Hx]; [lia|]. cbn.
  rewrite (aget_Some _ _ _ Hx). cbn. destruct (Z.eqb_spec (status x) free) as [Hs|Hs].
  - assert (u32 (p + 1) = p + 1) as ->.
    { apply u32_small. destruct (wf_tab _ _ Hwf) as [Hn|Ht]; [by rewrite Hn, lookupZ_nil in Hx|].
      pose proof (table_bound _ Ht). zsolve. }
    eapply returns_mono; [apply (IH (p + 1)); lia|].
    intros it (q & -> & Hq & Hst & He). exists q. split_and!; try done; try lia.
    by rewrite <- He, (entriesFrom_free m ch p x).
  - exists p. split_and!; try done; try lia. right.
    destruct (wf_node m ch Hwf p x Hx Hs) as (k & v & Hn). eauto.
Qed.

Lemma preIncRaw_spec m ch p h k v :
  map_wf m ch → node m p h k v →
  returns (preIncRaw (iter_of m p)) (λ it, ∃ q, it = iter_of m q ∧ p < q ≤ zlen (key m) ∧
    stopped m q ∧ entriesFrom m (p + 1) = entriesFrom m q).
Proof.
  intros Hwf ((x & Hx & _) & Hk & _).
  pose proof (lookupZ_Some_lt _ _ _ Hk) as Hp. pose proof (wf_key _ _ Hwf) as Hlk.
  assert (u32 (p + 1) = p + 1) as Hu.
  { apply u32_small. destruct (wf_tab _ _ Hwf) as [Hnil|Ht]; [by rewrite Hnil, lookupZ_nil in Hx|].
    pose proof (table_bound _ Ht). zsolve. }
  unfold preIncRaw. rewrite atEnd_iter by lia. destruct (Z.eqb_spec p (zlen (key m))); [lia|].
  unfold iter_of at 1 2 3 4 5. cbn -[skipFree]. rewrite Hu.
  eapply returns_mono; [apply (skipFree_spec m ch _ (p + 1) Hwf); unfold zlen in *; lia|].
  intros it (q & ? & ? & ?). exists q. split_and!; [done|lia..|naive_solver|naive_solver].
Qed.

Lemma drain_spec m ch fuel p :
  map_wf m ch → 0 ≤ p ≤ zlen (key m) → stopped m p → zlen (key m) - p < Z.of_nat fuel →
  drain fuel (iter_of m p) = Ret (entriesFrom m p).
Proof.
  intros Hwf. revert p. induction fuel as [|fuel IH]; intros p Hp Hst Hf; [lia|]. cbn [drain].
  unfold iterEq. rewrite (atEnd_iter m p Hp). cbn [andb atEnd endRaw it_key]. rewrite andb_true_r.
  destruct (Z.eqb_spec p (zlen (key m))) as [E|E]; cbn [andb].
  { unfold entriesFrom. rewrite (drop_ge (key m)); [done|unfold zlen in E; lia]. }
  destruct Hst as [?|(h & k & v & Hn)]; [done|]. pose proof Hn as ((x & Hx & _) & Hk & Hv).
  unfold rawKey, rawVal. cbn [it_key it_val pos iter_of].
  rewrite (aget_Some _ _ _ Hk), (aget_Some _ _ _ Hv). cbn [mbind outcome_bind].
  destruct (proj1 (returns_exists _ _) (preIncRaw_spec m ch p h k v Hwf Hn))
    as (it & -> & q & -> & Hq & Hst & He). cbn [mbind outcome_bind].
  rewrite (IH q) by (done || lia). cbn. by rewrite (entriesFrom_used m p k v Hk Hv), He.
Qed.

Lemma iterate_entries m ch : map_wf m ch → iterate m = Ret (entries m).
Proof.
  intros Hwf. unfold iterate, beginRaw.
  destruct (proj1 (returns_exists _ _) (skipFree_spec m ch (S (length (key m))) 0 Hwf
    ltac:(unfold zlen; lia) ltac:(unfold zlen; lia))) as (it & Hit & q & -> & Hq & Hst & He).
  change (mkIter (info m) (key m) (val m) 0) with (iter_of m 0). rewrite Hit. cbn [mbind outcome_bind].
  rewrite (drain_spec m ch); [by rewrite <- He|done|lia|done|unfold zlen; lia].
Qed.

(** ** Copies *)

Lemma copyArray_id {T} (h : Handle World T) (a : list (option T)) (inf : list Info) :
  CopyHandle h → zlen a = zlen inf →
  (∀ i x, inf !! i = Some x → status x = free → a !! i = Some None) → copyArray h a inf = a.
Proof.
  intros Hc Hl Hfree. unfold copyArray. unfold CopyHandle, safeCopy in Hc.
  destruct (copyFn h) as [f|]; [|done]. apply list_eq. intros i. rewrite lookup_zip_with.
  destruct (a !! i) as [o|] eqn:Ha; [|done]. cbn.
  assert (is_Some (inf !! i)) as [x Hx].
  { apply lookup_lt_is_Some. apply lookup_lt_Some in Ha. unfold zlen in Hl. lia. }
  rewrite Hx. cbn. f_equal. destruct (Z.eqb_spec (status x) free) as [Hs|_].
  - specialize (Hfree (Z.of_nat i) x). rewrite !lookupZ_nat in Hfree.
    specialize (Hfree Hx Hs). congruence.
  - destruct o; cbn; [by rewrite Hc|done].
Qed.

Lemma copy_same m ch : map_wf m ch → copy keyT valT m = m.
Proof.
  intros Hwf. unfold copy, copyInfo. rewrite !copyArray_id; try typeclasses eauto.
  - by destruct m.
  - apply (wf_val _ _ Hwf).
  - intros. by eapply (wf_free _ _ Hwf).
  - apply (wf_key _ _ Hwf).
  - intros. by eapply (wf_free _ _ Hwf).
Qed.
End client.
