(* ===== verification/HashMapCorrect.v ===== *)
(** * Correctness of the hash map

    The theorems about [Map<K, V>] as its users see it: every sequence of operations,
    with objects moving in between, gives the results the finite map gives; lookup of
    a missing key throws; [shrink]; iteration; copies; and what the statistics
    functions do.

    The theorems are instantiated at two concrete types: keys hashed by their value
    ([ByValue]), and keys hashed by their address under a moving collector
    ([ByAddress]). *)

From stdpp Require Import base list numbers strings option decidable sets gmap.
From Stdlib Require Import ZArith Lia.
From S2P Require Import Prelude Handle Bitwise HashMap HashChains HashMapProofs HashMapLookup.
From S2P Require Import HashMapSpec HashMapClient.
Import MapBase.

(** ** Operations and their meaning *)

Inductive op (K V : Type) :=
  | Put (k : K) (v : V)
  | Has (k : K)
  | Get (k : K)
  | GetDef (k : K) (def : V)
  | At (k : K) (create : V)
  | Remove (k : K)
  | Count
  | Shrink
  | Copy
  | Clear.
Arguments Put {K V}.
Arguments Has {K V}.
Arguments Get {K V}.
Arguments GetDef {K V}.
Arguments At {K V}.
Arguments Remove {K V}.
Arguments Count {K V}.
Arguments Shrink {K V}.
Arguments Copy {K V}.
Arguments Clear {K V}.

Inductive res (V : Type) :=
  | RUnit
  | RBool (b : bool)
  | RVal (v : V)
  | ROpt (v : option V)
  | RNat (n : Z).
Arguments RUnit {V}.
Arguments RBool {V}.
Arguments RVal {V}.
Arguments ROpt {V}.
Arguments RNat {V}.

(** What the operation means on a finite map. *)
Definition meaning {K V} `{Countable K} (M : gmap K V) (o : op K V) : gmap K V * res V :=
  match o with
  | Put k v => (<[k := v]> M, RBool (bool_decide (M !! k = None)))
  | Has k => (M, RBool (bool_decide (is_Some (M !! k))))
  | Get k => (M, ROpt (M !! k))
  | GetDef k d => (M, RVal (default d (M !! k)))
  | At k d => (<[k := default d (M !! k)]> M, RVal (default d (M !! k)))
  | Remove k => (delete k M, RBool (bool_decide (is_Some (M !! k))))
  | Count => (M, RNat (Z.of_nat (base.size M)))
  | Shrink => (M, RUnit)
  | Copy => (M, RUnit)
  | Clear => (∅, RUnit)
  end.

Fixpoint meanings {K V} `{Countable K} (M : gmap K V) (os : list (op K V)) : gmap K V * list (res V) :=
  match os with
  | [] => (M, [])
  | o :: os => let '(M, r) := meaning M o in let '(M, rs) := meanings M os in (M, r :: rs)
  end.

(** No operation adds more than one key. *)
Lemma meaning_size {K V} `{Countable K} (M : gmap K V) o :
  (base.size (meaning M o).1 ≤ S (base.size M))%nat.
Proof.
  assert (∀ k (v : V), (base.size (<[k := v]> M) ≤ S (base.size M))%nat) as Hi.
  { intros. rewrite map_size_insert. destruct (M !! k); cbn; lia. }
  destruct o; cbn; auto; [rewrite map_size_delete; destruct (M !! k); cbn; lia|].
  rewrite map_size_empty. lia.
Qed.

Section correct.
Context {World Addr Watch K V Loc : Type} `{Countable K}.
Context (gc : GcWatch World Addr Watch) (deref addressOf : K → Addr).
Context (keyT : Handle World K) (valT : Handle World V).
Context (hashOf : World → K → Z) (loc : World → Addr → Loc).
Context (tracks : Watch → Addr → World → Prop).
Context `{!KeyHandle keyT hashOf, !CopyHandle valT}.
Context `{!KeyWorld keyT hashOf gc deref addressOf loc tracks}.
Implicit Types (m : MapBase K V Watch) (M : gmap K V).

Abbreviation rep := (represents deref keyT hashOf tracks).

(** The operation on the table.  [Get] is [getUnsafeRaw], which returns null for a
    missing key. *)
Definition exec (w : World) m (o : op K V) : outcome (MapBase K V Watch * res V) :=
  match o with
  | Put k v => '(m, b) ← Map_put gc deref keyT valT w m k v; Ret (m, RBool b)
  | Has k => '(m, b) ← Map_has gc deref keyT valT w m k; Ret (m, RBool b)
  | Get k =>
      '(m, p) ← getUnsafeRaw gc deref keyT valT w m k;
      match p with
      | None => Ret (m, ROpt None)
      | Some p => v ← valAt m p; Ret (m, ROpt (Some v))
      end
  | GetDef k d => '(m, v) ← Map_getDef gc deref keyT valT w m k d; Ret (m, RVal v)
  | At k d => '(m, v) ← Map_at gc deref keyT valT w m k d; Ret (m, RVal v)
  | Remove k => '(m, b) ← Map_remove gc deref addressOf keyT valT w m k; Ret (m, RBool b)
  | Count => Ret (m, RNat (count m))
  | Shrink => m ← shrink gc keyT valT w m; Ret (m, RUnit)
  | Copy => Ret (copy keyT valT m, RUnit)
  | Clear => Ret (clear gc w m, RUnit)
  end.

(** A sequence of operations, each in the world the collector has reached. *)
Fixpoint run m (tr : list (World * op K V)) : outcome (MapBase K V Watch * list (res V)) :=
  match tr with
  | [] => Ret (m, [])
  | (w, o) :: tr =>
      '(m, r) ← exec w m o;
      '(m, rs) ← run m tr;
      Ret (m, r :: rs)
  end.

Lemma exec_meaning w m M o :
  rep m M → Z.of_nat (base.size M) < 2 ^ 31 →
  returns (exec w m o) (λ '(m', r), rep m' (meaning M o).1 ∧ r = (meaning M o).2).
Proof.
  intros Hr Hs. destruct o; cbn [exec meaning fst snd].
  - eapply returns_bind; [by eapply putRaw_represents|]. intros [m' b] [? ->]. done.
  - eapply returns_bind; [by eapply hasRaw_represents|]. intros [m' b] [? ->]. done.
  - eapply returns_bind; [by eapply getUnsafeRaw_represents|]. intros [m' [p|]] [? Hp].
    + destruct Hp as (v & -> & ->). done.
    + by rewrite Hp.
  - eapply returns_bind; [by eapply Map_getDef_represents|]. intros [m' b] [? ->]. done.
  - eapply returns_bind; [by eapply Map_at_represents|]. intros [m' b] [? ->]. done.
  - eapply returns_bind; [by eapply removeRaw_represents|]. intros [m' b] [? ->]. done.
  - cbn. split; [done|]. unfold count. by rewrite (represents_size _ _ _ _ m M Hr).
  - eapply returns_bind; [apply (shrink_represents gc deref keyT valT hashOf tracks); [done|lia]|]. intros m' [? _]. done.
  - cbn. destruct (inv_wf _ _ _ _ _ (proj1 Hr)) as [ch Hwf]. by rewrite (copy_same keyT valT hashOf m ch).
  - cbn. split; [|done]. by eapply clear_represents.
Qed.

Lemma run_meanings m M tr :
  rep m M → Z.of_nat (base.size M) + zlen tr ≤ 2 ^ 31 →
  returns (run m tr) (λ '(m', rs), rep m' (meanings M tr.*2).1 ∧ rs = (meanings M tr.*2).2).
Proof.
  revert m M. induction tr as [|[w o] tr IH]; intros m M Hr Hs; [done|].
  cbn [run fmap list_fmap meanings snd]. rewrite zlen_cons in Hs. pose proof (zlen_nonneg tr).
  eapply returns_bind; [apply exec_meaning; [done|lia]|].
  intros [m1 r] [Hr1 ->]. pose proof (meaning_size M o). destruct (meaning M o) as [M1 r]. cbn in *.
  eapply returns_bind; [apply (IH m1 M1 Hr1); lia|].
  intros [m2 rs] [Hr2 ->]. destruct (meanings M1 tr.*2) as [M2 rs]. done.
Qed.

(** C1: the hash map implements a finite map.  Starting from the constructor, any
    sequence of at most 2^31 operations (put, has, get, at, remove, shrink, copy,
    clear) returns, with the results the finite map gives, although the collector
    may move every object between two operations. *)
Theorem map_refines w tr :
  checkHashHandle keyT = Ret tt → zlen tr ≤ 2 ^ 31 →
  ∃ m, (m0 ← new gc keyT w; run m0 tr) = Ret (m, (meanings ∅ tr.*2).2) ∧
    to_map m = (meanings ∅ tr.*2).1.
Proof.
  intros Hc Hl. unfold new. rewrite Hc. cbn [mbind outcome_bind].
  set (m0 := mkMap _ _ _ _ _ _).
  assert (rep m0 ∅) as H0 by (apply empty_represents; try done; cbn; by destruct (locationHash keyT)).
  destruct (proj1 (returns_exists _ _) (run_meanings m0 ∅ tr H0 ltac:(rewrite map_size_empty; lia)))
    as ([m rs] & -> & [_ Hm] & ->). eauto.
Qed.

(** [get] returns the value of the key, and throws [MapError] with the key in the
    message when there is none. *)
Theorem get_spec w m M k :
  rep m M →
  match M !! k with
  | Some v => ∃ m', Map_get gc deref keyT valT w m k = Ret (m', v) ∧ rep m' M
  | None => Map_get gc deref keyT valT w m k =
      Throw (MapError ("The key " +:+ toSFn keyT k +:+ " is not in the map."))
  end.
Proof.
  intros Hr. unfold Map_get, getRaw.
  destruct (proj1 (returns_exists _ _) (getUnsafeRaw_represents gc deref addressOf keyT valT hashOf
    loc tracks w m M k Hr)) as ([m' p] & -> & Hr' & Hp).
  cbn [mbind outcome_bind]. destruct p as [p|]; cbn.
  - destruct Hp as (v & -> & ->). cbn. eauto.
  - by rewrite Hp.
Qed.

(** [shrink] keeps every entry and leaves the least power of two that holds them
    as capacity, at least 4; an empty map keeps no memory. *)
Theorem shrink_spec w m M :
  rep m M → Z.of_nat (base.size M) ≤ 2 ^ 31 →
  ∃ m', shrink gc keyT valT w m = Ret m' ∧ rep m' M ∧
    capacity m' = if decide (M = ∅) then 0
                  else Z.max minCapacity (2 ^ Z.log2_up (Z.of_nat (base.size M))).
Proof.
  intros Hr Hs. apply returns_exists. by eapply shrink_represents.
Qed.

(** The iteration from [begin] to [end] visits every entry exactly once. *)
Theorem iterate_spec m M :
  rep m M → ∃ l, iterate m = Ret l ∧ l ≡ₚ map_to_list M ∧ NoDup l.*1.
Proof.
  intros [[[ch Hwf] _ _] <-]. exists (entries m). split; [by eapply iterate_entries|].
  assert (NoDup (entries m).*1) by by eapply wf_entries_nodup.
  split; [|done]. unfold to_map. by rewrite map_to_list_to_map.
Qed.
End correct.

(** ** Keys hashed by address

    A world is how far the collector has moved the objects.  A watch remembers where
    it saw the objects added to it; an address is that of an object a key points to
    ([inl]) or of the key itself ([inr]). *)
Module ByAddress.
Definition World := Z.
Definition Addr : Type := Z + Z.
Definition Watch := list (Addr * World).

Definition loc (w : World) (a : Addr) : Z := match a with inl o => o + w | inr o => o end.

Definition gc : GcWatch World Addr Watch := {|
  createWatch := λ _, [];
  watch_add := λ w s a, (a, w) :: s;
  watch_remove := λ _ s a, filter (λ p, p.1 ≠ a) s;
  watch_clear := λ _ _, [];
  watch_moved := λ w s a, existsb (λ p, bool_decide (p.1 = a) && negb (loc w a =? loc p.2 a)) s;
|}.

Definition tracks (s : Watch) (a : Addr) (w : World) : Prop := (a, w) ∈ s.

Definition keyT : Handle World Z := {|
  locationHash := true; copyFn := None; deepCopyFn := None; toSFn := λ k, pretty.pretty k;
  hashFn := Some (λ w k, k + w); equalFn := Some Z.eqb; lessFn := None;
|}.
Definition valT : Handle World Z := {|
  locationHash := false; copyFn := Some (λ v, v); deepCopyFn := None; toSFn := λ k, pretty.pretty k;
  hashFn := None; equalFn := None; lessFn := None;
|}.
Definition hashOf (w : World) (k : Z) : Z := u32 (k + w).

#[global] Instance gc_laws : WatchLaws gc loc tracks.
Proof.
  split; unfold tracks; cbn.
  - intros. by left.
  - intros. by right.
  - intros. apply list_elem_of_filter. by split.
  - intros s a w w' Ht Hm. destruct (decide (loc w' a = loc w a)) as [|Hne]; [done|].
    assert (existsb (λ p, bool_decide (p.1 = a) && negb (loc w' a =? loc p.2 a)) s = true) as E.
    { apply existsb_exists. exists (a, w). split; [by apply list_elem_of_In|]. cbn.
      rewrite bool_decide_true by done. by rewrite (proj2 (Z.eqb_neq _ _) Hne). }
    congruence.
Qed.

#[global] Instance valT_copy : CopyHandle valT.
Proof. done. Qed.

#[global] Instance keyT_handle : KeyHandle keyT hashOf.
Proof.
  split; [done|done|intros; apply u32_range|].
  intros a b. exists (a =? b). split; [done|]. apply Z.eqb_eq.
Qed.

#[global] Instance key_world : KeyWorld keyT hashOf gc inl inr loc tracks.
Proof.
  split; try done; try typeclasses eauto.
  - cbn. intros _ w w' k E. unfold hashOf. by rewrite E.
  - by intros _ k k' [= ->].
Qed.

(** Objects move by 1000 after four keys have been added. *)
Definition trace : list (World * op Z Z) :=
  [(0, Put 3 30); (0, Put 7 70); (0, Put 11 110); (0, Put 4 40); (1000, Get 7); (1000, Put 7 71);
   (1007, Remove 3); (1007, Has 3); (1007, At 9 90); (5, GetDef 7 0); (5, Shrink); (5, Copy);
   (6, Count); (6, Get 11); (6, Clear); (6, Count)].
End ByAddress.

Lemma map_refines_witness :
  ∃ m, (m0 ← new ByAddress.gc ByAddress.keyT 0;
        run ByAddress.gc inl inr ByAddress.keyT ByAddress.valT m0 ByAddress.trace) =
    Ret (m, [RBool true; RBool true; RBool true; RBool true; ROpt (Some 70); RBool false;
             RBool true; RBool false; RVal 90; RVal 71; RUnit; RUnit; RNat 4; ROpt (Some 110);
             RUnit; RNat 0]).
Proof.
  destruct (map_refines ByAddress.gc inl inr ByAddress.keyT ByAddress.valT ByAddress.hashOf
    ByAddress.loc ByAddress.tracks 0 ByAddress.trace eq_refl ltac:(vm_compute; discriminate))
    as (m & E & _).
  exists m. rewrite E. vm_compute. reflexivity.
Defined.

(** ** Keys hashed by value *)
Module ByValue.
Definition gc : GcWatch unit unit unit := {|
  createWatch := λ _, (); watch_add := λ _ s _, s; watch_remove := λ _ s _, s;
  watch_clear := λ _ s, s; watch_moved := λ _ _ _, true;
|}.
Definition keyT : Handle unit Z := {|
  locationHash := false; copyFn := None; deepCopyFn := None; toSFn := λ k, pretty.pretty k;
  hashFn := Some (λ _ k, k); equalFn := Some Z.eqb; lessFn := None;
|}.
Definition hashOf (w : unit) (k : Z) : Z := u32 k.
Definition tracks (_ : unit) (_ : unit) (_ : unit) : Prop := True.

#[global] Instance keyT_handle : KeyHandle keyT hashOf.
Proof.
  split; [done|done|intros; apply u32_range|].
  intros a b. exists (a =? b). split; [done|]. apply Z.eqb_eq.
Qed.
#[global] Instance keyT_copy : CopyHandle keyT.
Proof. done. Qed.
#[global] Instance key_world : KeyWorld keyT hashOf gc (λ _, ()) (λ _, ()) (λ _ _, ()) tracks.
Proof. split; done. Qed.

(** The map with the entries 3 ↦ 30 and 7 ↦ 70: both keys have primary slot 3. *)
Definition two : MapBase Z Z unit :=
  mkMap 2 [mkInfo end_ 7; mkInfo free 0; mkInfo free 0; mkInfo 0 3]
    [Some 7; None; None; Some 3] [Some 70; None; None; Some 30] None 0.

Lemma two_built :
  (m0 ← new gc keyT (); run gc (λ _, ()) (λ _, ()) keyT keyT m0 [((), Put 3 30); ((), Put 7 70)]) =
  Ret (two, [RBool true; RBool true]).
Proof. vm_compute. reflexivity. Qed.

Lemma two_represents : represents (λ _, ()) keyT hashOf tracks two {[3 := 30; 7 := 70]}.
Proof.
  pose proof two_built as E. unfold new in E. cbn [mbind outcome_bind] in E.
  set (m0 := mkMap _ _ _ _ _ _) in E.
  pose proof (run_meanings gc (λ _, ()) (λ _, ()) keyT keyT hashOf (λ _ _, ()) tracks m0 ∅
    [((), Put 3 30); ((), Put 7 70)]) as Hrun.
  cbn [checkHashHandle] in E. change (run gc (λ _, ()) (λ _, ()) keyT keyT m0
    [((), Put 3 30); ((), Put 7 70)] = Ret (two, [RBool true; RBool true])) in E.
  rewrite E in Hrun. apply Hrun; [by apply empty_represents|done].
Qed.
End ByValue.

Lemma get_spec_witness :
  ByValue.two.(key) !! 0 = Some (Some 7) ∧
  (∃ m', Map_get ByValue.gc (λ _, ()) ByValue.keyT ByValue.keyT () ByValue.two 7 = Ret (m', 70)) ∧
  Map_get ByValue.gc (λ _, ()) ByValue.keyT ByValue.keyT () ByValue.two 8 =
    Throw (MapError "The key 8 is not in the map.").
Proof.
  split; [reflexivity|]. split.
  - destruct (get_spec ByValue.gc (λ _, ()) (λ _, ()) ByValue.keyT ByValue.keyT ByValue.hashOf
      (λ _ _, ()) ByValue.tracks () _ _ 7 ByValue.two_represents) as (m' & E & _). by exists m'.
  - exact (get_spec ByValue.gc (λ _, ()) (λ _, ()) ByValue.keyT ByValue.keyT ByValue.hashOf
      (λ _ _, ()) ByValue.tracks () _ _ 8 ByValue.two_represents).
Defined.

Lemma shrink_spec_witness :
  ∃ m', shrink ByValue.gc ByValue.keyT ByValue.keyT () ByValue.two = Ret m' ∧ capacity m' = 4.
Proof.
  destruct (shrink_spec ByValue.gc (λ _, ()) ByValue.keyT ByValue.keyT ByValue.hashOf
    ByValue.tracks () _ _ ByValue.two_represents ltac:(vm_compute; discriminate))
    as (m' & E & _ & Hc). exists m'. split; [exact E|]. rewrite Hc. reflexivity.
Defined.

Lemma iterate_spec_witness :
  iterate ByValue.two = Ret [(7, 70); (3, 30)] ∧
  ∃ l, iterate ByValue.two = Ret l ∧ l ≡ₚ map_to_list {[3 := 30; 7 := 70]} ∧ NoDup l.*1.
Proof.
  split; [reflexivity|].
  exact (iterate_spec (λ _, ()) ByValue.keyT ByValue.hashOf ByValue.tracks _ _
    ByValue.two_represents).
Defined.

(** [countCollisions] and [countMaxChain] step through the array ([at++]) where they
    should follow the chain ([at = info->v[at].status]): on a map with two colliding
    keys in the last bucket they read past the end of the slot array. *)
Theorem countCollisions_overrun :
  (m0 ← new ByValue.gc ByValue.keyT ();
   '(m, _) ← run ByValue.gc (λ _, ()) (λ _, ()) ByValue.keyT ByValue.keyT m0
               [((), Put 3 30); ((), Put 7 70)];
   countCollisions m) = Fault ∧
  (m0 ← new ByValue.gc ByValue.keyT ();
   '(m, _) ← run ByValue.gc (λ _, ()) (λ _, ()) ByValue.keyT ByValue.keyT m0
               [((), Put 3 30); ((), Put 7 70)];
   countMaxChain m) = Fault.
Proof. split; vm_compute; reflexivity. Qed.
