(* ===== verification/HashSet.v ===== *)
(** * The hash set

    [Core/Set.h] and [Core/Set.cpp]: [SetBase] has the table of [MapBase] without the
    value array.  This file holds its data and its operations; [HashSetProofs.v]
    proves that they implement finite sets. *)

From stdpp Require Import base list numbers strings option decidable.
From Stdlib Require Import ZArith Lia.
From S2P Require Import Prelude Handle Bitwise HashMap.

Module SetBase.

(** [struct Info] and its status codes are those of the map. *)
Abbreviation Info := MapBase.Info.
Abbreviation mkInfo := MapBase.mkInfo.
Abbreviation status := MapBase.status.
Abbreviation hash := MapBase.hash.
Abbreviation free := MapBase.free.
Abbreviation end_ := MapBase.end_.

Definition minCapacity : Z := 4.

Record SetBase (K Watch : Type) := mkSet {
  size : Z;
  info : list Info;
  key : list (option K);
  watch : option Watch;
  lastFree : Z;
}.
Arguments mkSet {K Watch}.
Arguments size {K Watch}.
Arguments info {K Watch}.
Arguments key {K Watch}.
Arguments watch {K Watch}.
Arguments lastFree {K Watch}.

(** ** Iterators *)
Record Iter (K : Type) := mkIter {
  it_info : list Info;
  it_key : list (option K);
  pos : Z;
}.
Arguments mkIter {K}.
Arguments it_info {K}.
Arguments it_key {K}.
Arguments pos {K}.

Section iter.
Context {K Watch : Type}.
Implicit Types (s : SetBase K Watch) (it : Iter K).

Definition atEnd it : bool :=
  match it_info it with [] => true | _ => pos it =? zlen (it_info it) end.

(** [while (!atEnd() && info->v[pos].status == Info::free) pos++] *)
Fixpoint skipFree (fuel : nat) it : outcome (Iter K) :=
  match fuel with
  | O => OutOfFuel
  | S fuel =>
      if atEnd it then Ret it
      else
        x ← aget (it_info it) (pos it);
        if status x =? free
        then skipFree fuel (mkIter (it_info it) (it_key it) (u32 (pos it + 1)))
        else Ret it
  end.

Definition endRaw : Iter K := mkIter [] [] 0.

Definition beginRaw s : outcome (Iter K) :=
  skipFree (S (length (info s))) (mkIter (info s) (key s) 0).

(** [operator ==]; [same] says that the iterators hold the same arrays. *)
Definition iterEq (same : bool) it it' : bool :=
  if atEnd it && atEnd it' then true else same && (pos it =? pos it').

Definition preIncRaw it : outcome (Iter K) :=
  let it := if atEnd it then it else mkIter (it_info it) (it_key it) (u32 (pos it + 1)) in
  skipFree (S (length (it_info it))) it.

Definition postIncRaw it : outcome (Iter K * Iter K) :=
  it' ← preIncRaw it; Ret (it, it').

Definition rawVal it : outcome K :=
  o ← aget (it_key it) (pos it); match o with Some k => Ret k | None => Fault end.
End iter.

Section set.
Context {World Addr Watch K : Type}.
Context (gc : GcWatch World Addr Watch) (deref addressOf : K → Addr).
Context (keyT : Handle World K).

Abbreviation set := (SetBase K Watch).
Implicit Types s : set.

(** ** Field updates *)
Definition set_info (i : list Info) s : set := mkSet (size s) i (key s) (watch s) (lastFree s).
Definition set_key (k : list (option K)) s : set :=
  mkSet (size s) (info s) k (watch s) (lastFree s).
Definition set_size (n : Z) s : set := mkSet n (info s) (key s) (watch s) (lastFree s).
Definition set_watch (x : option Watch) s : set :=
  mkSet (size s) (info s) (key s) x (lastFree s).
Definition set_lastFree (f : Z) s : set := mkSet (size s) (info s) (key s) (watch s) f.

(** ** Accessors *)
Definition count s : Z := size s.
Definition any s : bool := 0 <? size s.
Definition empty s : bool := size s =? 0.

Definition capacity s : Z := u32 (zlen (info s)).

(** The object at [keyPtr(id)]. *)
Definition keyAt s (id : Z) : outcome K :=
  o ← aget (key s) id; match o with Some k => Ret k | None => Fault end.

Definition setStatus s (id st : Z) : outcome set :=
  i ← aget (info s) id;
  l ← aset (info s) id (mkInfo st (hash i));
  Ret (set_info l s).
Definition setInfo s (id : Z) (i : Info) : outcome set :=
  l ← aset (info s) id i; Ret (set_info l s).
Definition putKey s (id : Z) (k : K) : outcome set :=
  l ← aset (key s) id (Some (safeCopy keyT k)); Ret (set_key l s).
Definition destroyKey s (id : Z) : outcome set :=
  o ← aget (key s) id;
  l ← aset (key s) id (safeDestroy keyT o); Ret (set_key l s).

(** ** Construction, clearing *)
Definition new (w : World) : outcome set :=
  checkHashHandle keyT ;;
  Ret (mkSet 0 [] [] (if locationHash keyT then Some (createWatch gc w) else None) 0).

Definition clear (w : World) s : set := mkSet 0 [] [] (watch_clear gc w <$> watch s) 0.

(** ** Hashing and watching *)
Definition newHash (w : World) s (k : K) : outcome (set * Z) :=
  match watch s with
  | Some x =>
      let s := set_watch (Some (watch_add gc w x (deref k))) s in
      h ← callHash keyT w k; Ret (s, h)
  | None => h ← callHash keyT w k; Ret (s, h)
  end.

Definition changedHash (w : World) s (k : K) : bool :=
  match watch s with
  | Some x => watch_moved gc w x (deref k)
  | None => false
  end.

(** ** Slots *)
Definition primarySlot s (h : Z) : Z := Z.land h (u32 (capacity s - 1)).

Fixpoint freeSlotLoop (fuel : nat) s (at_ : Z) : outcome Z :=
  match fuel with
  | O => OutOfFuel
  | S fuel =>
      i ← aget (info s) at_;
      if status i =? free then Ret at_
      else freeSlotLoop fuel s (Z.land (u32 (at_ + 1)) (u32 (capacity s - 1)))
  end.

Definition freeSlot s : outcome (set * Z) :=
  f ← freeSlotLoop (length (info s)) s (lastFree s);
  Ret (set_lastFree f s, f).

Fixpoint findChain (fuel : nat) s (k : K) (h slot : Z) : outcome Z :=
  match fuel with
  | O => OutOfFuel
  | S fuel =>
      i ← aget (info s) slot;
      found ← (if hash i =? h then c ← keyAt s slot; equal keyT k c else Ret false);
      if found : bool then Ret slot
      else if status i =? end_ then Ret free
      else findChain fuel s k h (status i)
  end.

Definition findSlotI s (k : K) (h : Z) : outcome Z :=
  let slot := primarySlot s h in
  i ← aget (info s) slot;
  if status i =? free then Ret free
  else findChain (length (info s)) s k h slot.

(** ** Allocation *)
Definition alloc (cap : Z) s : outcome set :=
  assert (bool_decide (info s = []));;
  assert (bool_decide (length (key s) = O));;
  assert (isPowerOfTwo 32 cap);;
  Ret (mkSet 0 (replicate (Z.to_nat cap) (mkInfo free 0)) (replicate (Z.to_nat cap) None)
         (watch s) 0).

Definition allocRehash (cap : Z) s : outcome set := alloc cap s.

(** ** Insertion *)
Section insert.
Context (ins : set → K → Z → Z → outcome (set * Z * Z)).

Definition rehash (cap : Z) s : outcome set :=
  let oldInfo := info s in
  let oldKey := key s in
  s ← alloc cap (mkSet (size s) [] [] (watch s) (lastFree s));
  if bool_decide (oldInfo = []) then Ret s
  else
    '(s, _) ← for_loop (length oldInfo) 0 (λ i '(s, wt),
      oi ← aget oldInfo i;
      if status oi =? free then Ret (s, wt)
      else
        k ← aget oldKey i;
        match k with
        | Some k => '(s, _, wt) ← ins s k (hash oi) wt; Ret (s, wt)
        | None => Fault
        end) (s, free);
    Ret s.

Definition grow s : outcome set :=
  let c := capacity s in
  if c =? 0 then alloc minCapacity s
  else if c =? size s then rehash (u32 (c * 2)) s
  else Ret s.

Fixpoint findPrev (fuel : nat) s (into from : Z) : outcome Z :=
  match fuel with
  | O => OutOfFuel
  | S fuel =>
      i ← aget (info s) from;
      if status i =? into then Ret from else findPrev fuel s into (status i)
  end.

Definition makeRoom s (into wt : Z) (i : Info) : outcome (set * Z * Z * Z) :=
  let from := primarySlot s (hash i) in
  if from =? into then
    '(s, to) ← freeSlot s;
    let st := status i in
    s ← setStatus s into to;
    Ret (s, to, st, wt)
  else
    from ← findPrev (length (info s)) s into from;
    '(s, to) ← freeSlot s;
    s ← setStatus s from to;
    moved ← aget (info s) into;
    s ← setInfo s to moved;
    k ← keyAt s into; s ← putKey s to k;
    s ← destroyKey s into;
    s ← setStatus s into free;
    Ret (s, into, end_, if wt =? into then to else wt).

Definition insertKey s (k : K) (h wt : Z) : outcome (set * Z * Z) :=
  s ← grow s;
  let into := primarySlot s h in
  i ← aget (info s) into;
  '(s, into, st, wt) ← (if status i =? free then Ret (s, into, end_, wt)
                        else makeRoom s into wt i);
  i ← aget (info s) into;
  assert (status i =? free);;
  s ← setInfo s into (mkInfo st h);
  s ← putKey s into k;
  Ret (set_size (u32 (size s + 1)) s, into, wt).
End insert.

(** [insert] with at most [d] nested calls through [rehash]. *)
Fixpoint insertN (d : nat) : set → K → Z → Z → outcome (set * Z * Z) :=
  match d with
  | O => λ _ _ _ _, OutOfFuel
  | S d => insertKey (insertN d)
  end.

Definition insert := insertN 2.

Definition shrink (w : World) s : outcome set :=
  if size s =? 0 then Ret (clear w s)
  else rehash (insertN 1) (Z.max minCapacity (nextPowerOfTwo 32 (size s))) s.

(** ** Rehashing after the collector moved objects *)
Definition rehashFind (w : World) (cap : Z) s (find : K) : outcome (set * Z) :=
  let oldInfo := info s in
  let oldKey := key s in
  s ← allocRehash cap (mkSet (size s) [] [] (Some (createWatch gc w)) (lastFree s));
  if bool_decide (oldInfo = []) then Ret (s, free)
  else
    for_loop (length oldInfo) 0 (λ i '(s, found),
      oi ← aget oldInfo i;
      if status oi =? free then Ret (s, found)
      else
        k ← aget oldKey i;
        match k with
        | Some k =>
            '(s, h) ← newHash w s k;
            '(s, into, found) ← insertN 1 s k h found;
            e ← equal keyT k find;
            Ret (s, if e : bool then into else found)
        | None => Fault
        end) (s, free).

Definition rehashRemove (w : World) (cap : Z) s (remove : K) : outcome (set * bool) :=
  let oldInfo := info s in
  let oldKey := key s in
  s ← allocRehash cap (mkSet (size s) [] [] (Some (createWatch gc w)) (lastFree s));
  if bool_decide (oldInfo = []) then Ret (s, false)
  else
    let s := set_watch (watch_clear gc w <$> watch s) s in
    '(s, found, _) ← for_loop (length oldInfo) 0 (λ i '(s, found, wt),
      oi ← aget oldInfo i;
      if status oi =? free then Ret (s, found, wt)
      else
        k ← aget oldKey i;
        match k with
        | Some k =>
            e ← equal keyT k remove;
            if e : bool then Ret (s, true, wt)
            else
              '(s, h) ← newHash w s k;
              '(s, _, wt) ← insertN 1 s k h wt;
              Ret (s, found, wt)
        | None => Fault
        end) (s, false, free);
    Ret (s, found).

Definition findSlot (w : World) s (k : K) (h : Z) : outcome (set * Z) :=
  if capacity s =? 0 then Ret (s, free)
  else
    r ← findSlotI s k h;
    if (r =? free) && changedHash w s k then rehashFind w (capacity s) s k
    else Ret (s, r).

(** ** The public interface *)
Definition putRaw (w : World) s (k : K) : outcome (set * bool) :=
  h ← callHash keyT w k;
  '(s, old) ← findSlot w s k h;
  if old =? free then
    '(s, h) ← match watch s with Some _ => newHash w s k | None => Ret (s, h) end;
    '(s, _, _) ← insert s k h free;
    Ret (s, true)
  else
    s ← destroyKey s old;
    s ← putKey s old k;
    Ret (s, false).

(** The loop of [putSetRaw] from the iterator [it]. *)
Fixpoint putAll (fuel : nat) (w : World) s (it : Iter K) : outcome set :=
  match fuel with
  | O => OutOfFuel
  | S fuel =>
      if iterEq false it endRaw then Ret s
      else
        k ← rawVal it;
        '(s, _) ← putRaw w s k;
        it ← preIncRaw it;
        putAll fuel w s it
  end.

(** [same]: [this == from]. *)
Definition putSetRaw (same : bool) (w : World) s (from : set) : outcome set :=
  if same then Ret s
  else it ← beginRaw from; putAll (S (length (info from))) w s it.

Definition hasRaw (w : World) s (k : K) : outcome (set * bool) :=
  h ← callHash keyT w k;
  '(s, slot) ← findSlot w s k h;
  Ret (s, negb (slot =? free)).

Definition getUnsafeRaw (w : World) s (k : K) : outcome (set * option Z) :=
  h ← callHash keyT w k;
  '(s, slot) ← findSlot w s k h;
  Ret (s, if slot =? free then None else Some slot).

Definition getRaw (w : World) s (k : K) : outcome (set * Z) :=
  '(s, result) ← getUnsafeRaw w s k;
  match result with
  | None => Throw (SetError ("The key " +:+ toSFn keyT k +:+ " is not in the map."))
  | Some p => Ret (s, p)
  end.

Definition atRaw (w : World) s (k : K) : outcome (set * Z) :=
  h ← callHash keyT w k;
  '(s, slot) ← findSlot w s k h;
  if slot =? free then
    '(s, h) ← match watch s with Some _ => newHash w s k | None => Ret (s, h) end;
    '(s, slot, _) ← insert s k h free;
    Ret (s, slot)
  else Ret (s, slot).

Definition removeAt (w : World) s (k : K) (prev slot : Z) : outcome set :=
  si ← aget (info s) slot;
  s ← (if prev =? free then Ret s else setStatus s prev (status si));
  let next := status si in
  s ← setStatus s slot free;
  s ← destroyKey s slot;
  s ← (if (prev =? free) && negb (next =? end_) then
         nk ← keyAt s next; s ← putKey s slot nk;
         ni ← aget (info s) next;
         s ← setInfo s slot ni;
         s ← setStatus s next free;
         destroyKey s next
       else Ret s);
  let s := set_size (u32 (size s - 1)) s in
  Ret (set_watch ((λ x, watch_remove gc w x (addressOf k)) <$> watch s) s).

Fixpoint removeChain (fuel : nat) (w : World) s (k : K) (h prev slot : Z) :
    outcome (set * bool) :=
  match fuel with
  | O => OutOfFuel
  | S fuel =>
      i ← aget (info s) slot;
      found ← (if hash i =? h then c ← keyAt s slot; equal keyT k c else Ret false);
      if found : bool then s ← removeAt w s k prev slot; Ret (s, true)
      else if status i =? end_ then Ret (s, false)
      else removeChain fuel w s k h slot (status i)
  end.

Definition remove (w : World) s (k : K) : outcome (set * bool) :=
  h ← callHash keyT w k;
  let slot := primarySlot s h in
  i ← aget (info s) slot;
  if status i =? free then Ret (s, false)
  else removeChain (length (info s)) w s k h free slot.

Definition removeRaw (w : World) s (k : K) : outcome (set * bool) :=
  if capacity s =? 0 then Ret (s, false)
  else
    '(s, r) ← remove w s k;
    if r : bool then Ret (s, true)
    else if changedHash w s k then rehashRemove w (capacity s) s k
    else Ret (s, false).

(** ** Copying, output *)
Definition copy s : set :=
  let inf := MapBase.copyInfo (info s) in
  mkSet (size s) inf (MapBase.copyArray keyT (key s) inf) (watch s) (lastFree s).

Definition deepCopy s : set :=
  mkSet (size s) (info s) (MapBase.deepCopyArray (deepCopyFn keyT) (info s) (key s)) (watch s)
    (lastFree s).

Definition toS s : outcome string :=
  '(_, out) ← for_loop (S:=bool * string) (length (info s)) 0 (λ i '(first, out),
    x ← aget (info s) i;
    if status x =? free then Ret (first, out)
    else
      let out := if first then out else out +:+ ", "%string in
      k ← keyAt s i;
      Ret (false, out +:+ toSFn keyT k)) (true, "{"%string);
  Ret (out +:+ "}"%string).

(** ** The C++ interface [Set<K>] *)
Definition Set_put := putRaw.
Definition Set_has := hasRaw.
Definition Set_get (w : World) s (k : K) : outcome (set * K) :=
  '(s, p) ← getRaw w s k; v ← keyAt s p; Ret (s, v).
Definition Set_at (w : World) s (k : K) : outcome (set * K) :=
  '(s, p) ← atRaw w s k; v ← keyAt s p; Ret (s, v).
Definition Set_remove := removeRaw.
End set.
End SetBase.
