(* ===== verification/HashSetProofs.v ===== *)
(** * The hash set simulates the hash map

    A set is a map that forgot its values: [forget] drops the value array.  Each
    operation of [SetBase] does on [forget m] what the operation of [MapBase] does on
    [m], so that the map's theorems carry over. *)

From stdpp Require Import base list numbers strings option decidable sets gmap.
From Stdlib Require Import ZArith Lia.
From S2P Require Import Prelude Handle Bitwise HashMap HashChains HashMapProofs HashMapLookup.
From S2P Require Import HashMapSpec HashMapClient HashSet.

Abbreviation map K Watch := (MapBase.MapBase K unit Watch).

(** The value type: there is nothing to copy. *)
Definition unitT {World} : Handle World unit := {|
  locationHash := false; copyFn := None; deepCopyFn := None; toSFn := λ _, ""%string;
  hashFn := None; equalFn := None; lessFn := None;
|}.

#[global] Instance unitT_copy {World} : CopyHandle (@unitT World).
Proof. done. Qed.

Definition forget {K Watch} (m : map K Watch) : SetBase.SetBase K Watch :=
  SetBase.mkSet (MapBase.size m) (MapBase.info m) (MapBase.key m) (MapBase.watch m)
    (MapBase.lastFree m).

(** ** Simulation of calls *)

Definition simulates {A B} (f : A → B) (om : outcome A) (os : outcome B) : Prop :=
  ∀ a, om = Ret a → os = Ret (f a).

Section simulates.
Context {A B C D : Type}.

Lemma sim_ret (f : A → B) a b : b = f a → simulates f (Ret a) (Ret b).
Proof. by intros -> a' [= ->]. Qed.

Lemma sim_bind (f : A → B) (g : C → D) om os km ks :
  simulates f om os → (∀ a, simulates g (km a) (ks (f a))) →
  simulates g (om ≫= km) (os ≫= ks).
Proof. intros Ho Hk c. destruct om as [a| | |]; [|done..]. rewrite (Ho a eq_refl). apply Hk. Qed.

Lemma sim_same (g : C → D) (o : outcome A) km ks :
  (∀ a, simulates g (km a) (ks a)) → simulates g (o ≫= km) (o ≫= ks).
Proof. intros Hk c. destruct o as [a| | |]; [|done..]. apply Hk. Qed.

(** A step of the map the set does not have. *)
Lemma sim_skip (g : C → D) (o : outcome A) km os :
  (∀ a, o = Ret a → simulates g (km a) os) → simulates g (o ≫= km) os.
Proof. intros Hk c. destruct o as [a| | |]; [|done..]. by apply Hk. Qed.

Lemma sim_fault (f : A → B) os : simulates f Fault os.
Proof. done. Qed.

Lemma sim_fuel (f : A → B) os : simulates f OutOfFuel os.
Proof. done. Qed.

(** A map operation that returns gives the result of the set operation. *)
Lemma sim_returns (f : A → B) om os (Q : B → Prop) :
  simulates f om os → returns om (λ a, Q (f a)) → returns os Q.
Proof. intros Hs Hr. destruct om as [a| | |]; try done. by rewrite (Hs a eq_refl). Qed.
End simulates.

Lemma sim_for_loop {A B} (f : A → B) n i bm bs a :
  (∀ j a, simulates f (bm j a) (bs j (f a))) →
  simulates f (for_loop n i bm a) (for_loop n i bs (f a)).
Proof.
  intros Hb. revert i a. induction n as [|n IH]; intros i a; cbn [for_loop]; [by apply sim_ret|].
  eapply sim_bind; [apply Hb|]. intros a'. apply IH.
Qed.

(** Results that carry the table. *)
Definition forget1 {K Watch A} (p : map K Watch * A) : SetBase.SetBase K Watch * A :=
  (forget p.1, p.2).
Definition forget2 {K Watch A B} (p : map K Watch * A * B) : SetBase.SetBase K Watch * A * B :=
  (forget1 p.1, p.2).
Definition forget3 {K Watch A B C} (p : map K Watch * A * B * C) :
  SetBase.SetBase K Watch * A * B * C := (forget2 p.1, p.2).

Lemma sim_refl {A} (o : outcome A) : simulates id o o.
Proof. by intros a ->. Qed.

Create HintDb sim.
#[export] Hint Resolve sim_refl : sim.

(** One step of a simulation: the same read on both sides, a step proved before, a
    step on values, a branch, the result. *)
Ltac sim_step :=
  lazymatch goal with
  | |- simulates _ (Ret _) (Ret _) => apply sim_ret; reflexivity
  | |- simulates _ Fault _ => apply sim_fault
  | |- simulates _ OutOfFuel _ => apply sim_fuel
  | |- simulates _ (if ?b then _ else _) (if ?b then _ else _) => destruct b
  | |- simulates _ (match ?b with Some _ => _ | None => _ end) (match ?b with Some _ => _ | None => _ end) =>
      destruct b
  | |- simulates _ (_ ≫= _) (_ ≫= _) =>
      first [ apply sim_same; intros ?
            | eapply sim_bind; [solve [eauto with sim]|];
              let x := fresh "x" in intros x; repeat lazymatch type of x with (_ * _)%type => destruct x as [x ?] end; cbn [forget1 forget2 forget3 fst snd id] ]
  | |- _ => solve [eauto with sim]
  end.

Section sim.
Context {World Addr Watch K : Type}.
Context (gc : GcWatch World Addr Watch) (deref addressOf : K → Addr).
Context (keyT : Handle World K).
Implicit Types m : map K Watch.

Lemma sim_setStatus m i st :
  simulates forget (MapBase.setStatus m i st) (SetBase.setStatus (forget m) i st).
Proof. unfold MapBase.setStatus, SetBase.setStatus. cbn [SetBase.info forget]. repeat sim_step. Qed.

Lemma sim_setInfo m i x :
  simulates forget (MapBase.setInfo m i x) (SetBase.setInfo (forget m) i x).
Proof. unfold MapBase.setInfo, SetBase.setInfo. cbn [SetBase.info forget]. repeat sim_step. Qed.

Lemma sim_putKey m i k :
  simulates forget (MapBase.putKey keyT m i k) (SetBase.putKey keyT (forget m) i k).
Proof. unfold MapBase.putKey, SetBase.putKey. cbn [SetBase.key forget]. repeat sim_step. Qed.

Lemma sim_destroyKey m i :
  simulates forget (MapBase.destroyKey keyT m i) (SetBase.destroyKey keyT (forget m) i).
Proof. unfold MapBase.destroyKey, SetBase.destroyKey. cbn [SetBase.key forget]. repeat sim_step. Qed.

Lemma forget_putVal m i v m' : MapBase.putVal (@unitT World) m i v = Ret m' → forget m' = forget m.
Proof. unfold MapBase.putVal. destruct (aset _ _ _); cbn; [|done..]. by intros [= <-]. Qed.

Lemma forget_destroyVal m i m' : MapBase.destroyVal (@unitT World) m i = Ret m' → forget m' = forget m.
Proof.
  unfold MapBase.destroyVal. destruct (aget _ _); cbn; [|done..].
  destruct (aset _ _ _); cbn; [|done..]. by intros [= <-].
Qed.

Lemma sim_keyAt m i : simulates id (MapBase.keyAt m i) (SetBase.keyAt (forget m) i).
Proof. unfold MapBase.keyAt, SetBase.keyAt. cbn [SetBase.key forget]. repeat sim_step. Qed.

Lemma sim_freeSlotLoop fuel m i :
  simulates id (MapBase.freeSlotLoop fuel m i) (SetBase.freeSlotLoop fuel (forget m) i).
Proof.
  revert i. induction fuel as [|fuel IH]; intros i; cbn [MapBase.freeSlotLoop SetBase.freeSlotLoop];
    cbn [SetBase.info forget]; repeat sim_step.
Qed.

Lemma sim_freeSlot m : simulates forget1 (MapBase.freeSlot m) (SetBase.freeSlot (forget m)).
Proof.
  unfold MapBase.freeSlot, SetBase.freeSlot.
  eapply sim_bind; [apply sim_freeSlotLoop|]. intros. by apply sim_ret.
Qed.

(** A step of the map on its values leaves the set as it is. *)
Ltac sim_val :=
  apply sim_skip; let E := fresh in intros ? E;
  first [apply forget_putVal in E; rewrite <- E | apply forget_destroyVal in E; rewrite <- E | clear E].

#[local] Hint Resolve sim_setStatus sim_setInfo sim_putKey sim_destroyKey sim_keyAt sim_freeSlot : sim.

Lemma sim_alloc cap m : simulates forget (MapBase.alloc cap m) (SetBase.alloc cap (forget m)).
Proof.
  unfold MapBase.alloc, SetBase.alloc. do 2 sim_step. sim_val. repeat sim_step.
Qed.
#[local] Hint Resolve sim_alloc : sim.

Lemma sim_findPrev fuel m into from :
  simulates id (MapBase.findPrev fuel m into from) (SetBase.findPrev fuel (forget m) into from).
Proof.
  revert from. induction fuel as [|fuel IH]; intros from; cbn [MapBase.findPrev SetBase.findPrev];
    repeat sim_step.
Qed.
#[local] Hint Resolve sim_findPrev : sim.

Lemma sim_makeRoom m into wt i :
  simulates forget3 (MapBase.makeRoom keyT unitT m into wt i)
    (SetBase.makeRoom keyT (forget m) into wt i).
Proof.
  unfold MapBase.makeRoom, SetBase.makeRoom. cbn [forget SetBase.info].
  change (SetBase.primarySlot _ _) with (MapBase.primarySlot m (MapBase.hash i)).
  sim_step; repeat sim_step.
  do 2 sim_val. sim_step. sim_val. repeat sim_step.
Qed.
#[local] Hint Resolve sim_makeRoom : sim.

Section insert.
Context (insM : map K Watch → K → unit → Z → Z → outcome (map K Watch * Z * Z)).
Context (insS : SetBase.SetBase K Watch → K → Z → Z → outcome (SetBase.SetBase K Watch * Z * Z)).
Context (Hins : ∀ m k v h wt, simulates forget2 (insM m k v h wt) (insS (forget m) k h wt)).

Lemma sim_rehash cap m :
  simulates forget (MapBase.rehash insM cap m) (SetBase.rehash insS cap (forget m)).
Proof using Hins.
  unfold MapBase.rehash, SetBase.rehash.
  eapply sim_bind; [apply (sim_alloc cap (MapBase.mkMap _ [] [] [] _ _))|]. intros m0.
  cbn [forget SetBase.info]. sim_step; [by apply sim_ret|].
  eapply (sim_bind forget1).
  - apply (sim_for_loop forget1 _ _ _ _ (m0, MapBase.free)). intros j [m1 wt]. cbn [forget1 fst snd].
    sim_step. sim_step; [by apply sim_ret|]. sim_step. sim_val.
    destruct a0 as [k|]; [|apply sim_fault]. destruct a1; [|apply sim_fault].
    eapply sim_bind; [apply Hins|]. intros [[m2 x] y]. by apply sim_ret.
  - intros [m1 wt]. by apply sim_ret.
Qed.

Lemma sim_grow m : simulates forget (MapBase.grow insM m) (SetBase.grow insS (forget m)).
Proof using Hins.
  unfold MapBase.grow, SetBase.grow. change (SetBase.capacity (forget m)) with (MapBase.capacity m).
  sim_step; [apply sim_alloc|]. cbn [SetBase.size forget]. sim_step; [apply sim_rehash|by apply sim_ret].
Qed.

Lemma sim_insertKey m k h wt :
  simulates forget2 (MapBase.insertKey keyT unitT insM m k h wt)
    (SetBase.insertKey keyT insS (forget m) k h wt).
Proof using Hins.
  unfold MapBase.insertKey, SetBase.insertKey.
  eapply sim_bind; [apply sim_grow|]. intros m1. sim_step.
  eapply (sim_bind forget3).
  { change (SetBase.primarySlot (forget m1) h) with (MapBase.primarySlot m1 h).
    sim_step; [by apply sim_ret|apply sim_makeRoom]. }
  intros [[[m2 into] st] wt']. cbn [forget1 forget2 forget3 fst snd].
  repeat sim_step.
Qed.

Lemma sim_insertVal m k v h wt :
  simulates forget2 (MapBase.insertVal keyT unitT insM m k v h wt)
    (SetBase.insertKey keyT insS (forget m) k h wt).
Proof using Hins.
  unfold MapBase.insertVal. intros r Hr.
  pose proof (sim_insertKey m k h wt) as Hs.
  destruct (MapBase.insertKey keyT unitT insM m k h wt) as [[[m1 into] wt']| | |]; try done.
  rewrite (Hs _ eq_refl). cbn in Hr |- *.
  destruct (MapBase.putVal unitT m1 into v) as [m2| | |] eqn:E; try done. cbn in Hr. simplify_eq.
  apply forget_putVal in E. unfold forget2, forget1. cbn. by rewrite E.
Qed.
End insert.

Lemma sim_insertN d m k v h wt :
  simulates forget2 (MapBase.insertN keyT unitT d m k v h wt)
    (SetBase.insertN keyT d (forget m) k h wt).
Proof.
  revert m k v h wt. induction d as [|d IH]; intros; [apply sim_fuel|].
  cbn [MapBase.insertN SetBase.insertN]. by apply sim_insertVal.
Qed.
#[local] Hint Resolve sim_insertN : sim.

Lemma sim_newHash w m k :
  simulates forget1 (MapBase.newHash gc deref keyT w m k) (SetBase.newHash gc deref keyT w (forget m) k).
Proof.
  unfold MapBase.newHash, SetBase.newHash. cbn [forget SetBase.watch]. repeat sim_step.
Qed.
#[local] Hint Resolve sim_newHash : sim.

Lemma sim_findChain fuel m k h slot :
  simulates id (MapBase.findChain keyT fuel m k h slot) (SetBase.findChain keyT fuel (forget m) k h slot).
Proof.
  revert slot. induction fuel as [|fuel IH]; intros slot; cbn [MapBase.findChain SetBase.findChain];
    [apply sim_fuel|]. sim_step.
  eapply (sim_bind id); [|intros; cbn [id]; repeat sim_step]. repeat sim_step.
Qed.

Lemma sim_findSlotI m k h :
  simulates id (MapBase.findSlotI keyT m k h) (SetBase.findSlotI keyT (forget m) k h).
Proof.
  unfold MapBase.findSlotI, SetBase.findSlotI. sim_step. sim_step; [by apply sim_ret|apply sim_findChain].
Qed.

Lemma sim_rehashFind w cap m k :
  simulates forget1 (MapBase.rehashFind gc deref keyT unitT w cap m k)
    (SetBase.rehashFind gc deref keyT w cap (forget m) k).
Proof.
  unfold MapBase.rehashFind, SetBase.rehashFind.
  eapply sim_bind; [apply (sim_alloc cap (MapBase.mkMap _ [] [] [] _ _))|]. intros m0.
  cbn [forget SetBase.info]. sim_step; [by apply sim_ret|].
  apply (sim_for_loop forget1 _ _ _ _ (m0, MapBase.free)). intros j [m1 found]. cbn [forget1 fst snd].
  sim_step. sim_step; [by apply sim_ret|]. sim_step. sim_val.
  destruct a0 as [k0|]; [|apply sim_fault]. destruct a1; [|apply sim_fault]. repeat sim_step.
Qed.

Lemma sim_findSlot w m k h :
  simulates forget1 (MapBase.findSlot gc deref keyT unitT w m k h)
    (SetBase.findSlot gc deref keyT w (forget m) k h).
Proof.
  unfold MapBase.findSlot, SetBase.findSlot. change (SetBase.capacity (forget m)) with (MapBase.capacity m).
  sim_step; [by apply sim_ret|]. eapply sim_bind; [apply sim_findSlotI|]. intros r. cbn [id].
  change (SetBase.changedHash gc deref w (forget m) k) with (MapBase.changedHash gc deref w m k).
  sim_step; [apply sim_rehashFind|by apply sim_ret].
Qed.
#[local] Hint Resolve sim_findSlot : sim.

(** The set clears the watch it just created before it rebuilds the table: it is
    the map with a collector that creates cleared watches. *)
Definition cleared : GcWatch World Addr Watch := {|
  createWatch := λ w, watch_clear gc w (createWatch gc w);
  watch_add := watch_add gc; watch_remove := watch_remove gc;
  watch_clear := watch_clear gc; watch_moved := watch_moved gc;
|}.

Lemma sim_rehashRemove w cap m k :
  MapBase.info m ≠ [] →
  simulates forget1 (MapBase.rehashRemove cleared deref keyT unitT w cap m k)
    (SetBase.rehashRemove gc deref keyT w cap (forget m) k).
Proof.
  intros Hnil. unfold MapBase.rehashRemove, SetBase.rehashRemove, MapBase.allocRehash, SetBase.allocRehash,
    MapBase.alloc, SetBase.alloc. cbn -[for_loop isPowerOfTwo MapBase.insertN SetBase.insertN].
  destruct (isPowerOfTwo 32 cap); cbn -[for_loop MapBase.insertN SetBase.insertN]; [|apply sim_fault].
  set (m0 := MapBase.mkMap 0 _ _ _ _ 0). rewrite bool_decide_false by done.
  eapply (sim_bind forget2).
  - apply (sim_for_loop forget2 _ _ _ _ (m0, false, MapBase.free)).
    intros j [[m1 found] wt]. cbn [forget1 forget2 fst snd].
    sim_step. sim_step; [by apply sim_ret|]. sim_step. destruct a0 as [k0|]; [|apply sim_fault].
    sim_step. sim_step; [by apply sim_ret|].
    eapply sim_bind; [apply (sim_newHash w m1 k0)|]. intros [m2 h]. cbn [forget1 fst snd].
    sim_val. destruct a0; [|apply sim_fault]. repeat sim_step.
  - intros [[m1 found] wt]. by apply sim_ret.
Qed.

Lemma sim_removeAt w m k prev slot :
  simulates forget (MapBase.removeAt gc addressOf keyT unitT w m k prev slot)
    (SetBase.removeAt gc addressOf keyT w (forget m) k prev slot).
Proof.
  unfold MapBase.removeAt, SetBase.removeAt. sim_step.
  eapply (sim_bind forget); [repeat sim_step|]. intros m1. sim_step. sim_step. sim_val.
  eapply (sim_bind forget).
  - sim_step; [|by apply sim_ret]. sim_step. sim_step. do 2 sim_val. repeat sim_step.
    intros r Hr. pose proof (sim_destroyKey x3 (MapBase.status a)) as Hd.
    destruct (MapBase.destroyKey keyT x3 (MapBase.status a)) as [m5| | |]; try done.
    rewrite (Hd _ eq_refl). cbn in Hr. by apply forget_destroyVal in Hr as ->.
  - intros m2. by apply sim_ret.
Qed.
#[local] Hint Resolve sim_removeAt : sim.

Lemma sim_removeChain fuel w m k h prev slot :
  simulates forget1 (MapBase.removeChain gc addressOf keyT unitT fuel w m k h prev slot)
    (SetBase.removeChain gc addressOf keyT fuel w (forget m) k h prev slot).
Proof.
  revert prev slot. induction fuel as [|fuel IH]; intros prev slot;
    cbn [MapBase.removeChain SetBase.removeChain]; [apply sim_fuel|]. sim_step.
  eapply (sim_bind id); [repeat sim_step|]. intros found. cbn [id]. repeat sim_step.
Qed.

Lemma sim_remove w m k :
  simulates forget1 (MapBase.remove gc addressOf keyT unitT w m k)
    (SetBase.remove gc addressOf keyT w (forget m) k).
Proof.
  unfold MapBase.remove, SetBase.remove. do 2 sim_step. sim_step; [by apply sim_ret|apply sim_removeChain].
Qed.

Lemma sim_shrink w m :
  simulates forget (MapBase.shrink gc keyT unitT w m) (SetBase.shrink gc keyT w (forget m)).
Proof.
  unfold MapBase.shrink, SetBase.shrink. cbn [forget SetBase.size].
  sim_step; [by apply sim_ret|]. apply sim_rehash. apply sim_insertN.
Qed.
End sim.

(** Removal, with the rebuilt table's watch cleared. *)
Lemma sim_removeRaw {World Addr Watch K} (gc : GcWatch World Addr Watch) deref addressOf
    (keyT : Handle World K) w m k :
  (MapBase.info m = [] → MapBase.capacity m = 0) →
  (∀ m' r, MapBase.remove gc addressOf keyT unitT w m k = Ret (m', r) → r = false → m' = m) →
  simulates forget1 (MapBase.removeRaw (cleared gc) deref addressOf keyT unitT w m k)
    (SetBase.removeRaw gc deref addressOf keyT w (forget m) k).
Proof.
  intros Hcap Hsame. unfold MapBase.removeRaw, SetBase.removeRaw.
  change (SetBase.capacity (forget m)) with (MapBase.capacity m).
  destruct (Z.eqb_spec (MapBase.capacity m) 0) as [|Hne]; [by apply sim_ret|].
  intros r Hr. pose proof (sim_remove gc addressOf keyT w m k) as Hs.
  change (MapBase.remove (cleared gc) addressOf keyT unitT w m k)
    with (MapBase.remove gc addressOf keyT unitT w m k) in Hr.
  destruct (MapBase.remove gc addressOf keyT unitT w m k) as [[m1 b]| | |]; try done.
  rewrite (Hs _ eq_refl). cbn [mbind outcome_bind forget1 fst snd] in *.
  destruct b; [by simplify_eq|]. rewrite (Hsame m1 false eq_refl eq_refl) in *.
  change (SetBase.changedHash gc deref w (forget m) k) with (MapBase.changedHash gc deref w m k).
  change (MapBase.changedHash (cleared gc) deref w m k) with (MapBase.changedHash gc deref w m k) in Hr.
  destruct (MapBase.changedHash gc deref w m k); [|by simplify_eq].
  apply sim_rehashRemove; [|done]. naive_solver.
Qed.

#[global] Instance cleared_world {World Addr Watch K Loc} (keyT : Handle World K) hashOf
    (gc : GcWatch World Addr Watch) deref addressOf (loc : World → Addr → Loc) tracks :
  KeyWorld keyT hashOf gc deref addressOf loc tracks →
  KeyWorld keyT hashOf (cleared gc) deref addressOf loc tracks.
Proof. intros [[] ? ? ? ?]. split; [by split|done..]. Qed.
