(* ===== verification/HashSetCorrect.v ===== *)
(** * Correctness of the hash set

    [Set<K>] ([Core/Set.h], [Core/Set.cpp]) implements finite sets: every sequence of
    operations, with objects moving in between, gives the results the finite set
    gives. *)

From stdpp Require Import base list numbers strings option decidable sets gmap.
From Stdlib Require Import ZArith Lia.
From S2P Require Import Prelude Handle Bitwise HashMap HashChains HashMapProofs HashMapLookup.
From S2P Require Import HashMapSpec HashMapClient HashMapCorrect HashSet HashSetProofs.

(** ** Operations and their meaning *)

Inductive set_op (K : Type) :=
  | SPut (k : K)
  | SHas (k : K)
  | SGet (k : K)
  | SAt (k : K)
  | SRemove (k : K)
  | SCount
  | SShrink
  | SCopy
  | SClear.
Arguments SPut {K}.
Arguments SHas {K}.
Arguments SGet {K}.
Arguments SAt {K}.
Arguments SRemove {K}.
Arguments SCount {K}.
Arguments SShrink {K}.
Arguments SCopy {K}.
Arguments SClear {K}.

Definition set_meaning {K} `{Countable K} (X : gset K) (o : set_op K) : gset K * res K :=
  match o with
  | SPut k => ({[k]} ∪ X, RBool (bool_decide (k ∉ X)))
  | SHas k => (X, RBool (bool_decide (k ∈ X)))
  | SGet k => (X, ROpt (if decide (k ∈ X) then Some k else None))
  | SAt k => ({[k]} ∪ X, RVal k)
  | SRemove k => (X ∖ {[k]}, RBool (bool_decide (k ∈ X)))
  | SCount => (X, RNat (Z.of_nat (base.size X)))
  | SShrink => (X, RUnit)
  | SCopy => (X, RUnit)
  | SClear => (∅, RUnit)
  end.

Fixpoint set_meanings {K} `{Countable K} (X : gset K) (os : list (set_op K)) : gset K * list (res K) :=
  match os with
  | [] => (X, [])
  | o :: os => let '(X, r) := set_meaning X o in let '(X, rs) := set_meanings X os in (X, r :: rs)
  end.

Lemma set_meaning_size {K} `{Countable K} (X : gset K) o :
  (base.size (set_meaning X o).1 ≤ S (base.size X))%nat.
Proof.
  assert (∀ k, (base.size ({[k]} ∪ X) ≤ S (base.size X))%nat) as Hi.
  { intros k. rewrite size_union_alt, size_singleton.
    pose proof (subseteq_size (X ∖ {[k]}) X ltac:(set_solver)). lia. }
  destruct o; cbn; auto.
  - pose proof (subseteq_size (X ∖ {[k]}) X ltac:(set_solver)). lia.
  - rewrite size_empty. lia.
Qed.

Section correct.
Context {World Addr Watch K Loc : Type} `{Countable K}.
Context (gc : GcWatch World Addr Watch) (deref addressOf : K → Addr).
Context (keyT : Handle World K).
Context (hashOf : World → K → Z) (loc : World → Addr → Loc).
Context (tracks : Watch → Addr → World → Prop).
Context `{!KeyHandle keyT hashOf}.
Context `{!KeyWorld keyT hashOf gc deref addressOf loc tracks}.
Implicit Types (s : SetBase.SetBase K Watch) (m : map K Watch) (X : gset K).

Abbreviation rep := (represents deref keyT hashOf tracks).

(** A table in a good state that represents the set [X]. *)
Definition set_rep s X : Prop := ∃ m M, rep m M ∧ forget m = s ∧ dom M = X.

Lemma set_rep_intro m M X : rep m M → dom M = X → set_rep (forget m) X.
Proof. intros. by exists m, M. Qed.

Lemma keyAt_node m i h k v : node m i h k v → SetBase.keyAt (forget m) i = Ret k.
Proof. intros (_ & Hk & _). unfold SetBase.keyAt. cbn. by rewrite (aget_Some _ _ _ Hk). Qed.

Lemma findSlot_rep w m M k :
  rep m M →
  returns (SetBase.findSlot gc deref keyT w (forget m) k (hashOf w k)) (λ '(s', r), ∃ m',
    s' = forget m' ∧ rep m' M ∧
    (((r =? MapBase.free) = true ∧ M !! k = None) ∨
     ((r =? MapBase.free) = false ∧ ∃ h v, node m' r h k v ∧ M !! k = Some v))).
Proof.
  intros Hr. eapply sim_returns; [apply sim_findSlot|].
  eapply returns_mono; [by eapply findSlot_represents|]. intros [m' r] [? ?]. by exists m'.
Qed.

Lemma insert_rep w m M k :
  rep m M → MapBase.size m < 2 ^ 31 → M !! k = None →
  returns ('(s, h) ← match SetBase.watch (forget m) with
                     | Some _ => SetBase.newHash gc deref keyT w (forget m) k
                     | None => Ret (forget m, hashOf w k)
                     end;
           SetBase.insert keyT s k h MapBase.free) (λ '(s', into, _), ∃ m',
    s' = forget m' ∧ rep m' (<[k := ()]> M) ∧ node m' into (hashOf w k) k ()).
Proof.
  intros Hr Hs Hk.
  destruct (insert_represents gc deref addressOf keyT unitT hashOf loc tracks w m M k () Hr Hs Hk)
    as (m1 & E & Hi).
  assert (match SetBase.watch (forget m) with
          | Some _ => SetBase.newHash gc deref keyT w (forget m) k
          | None => Ret (forget m, hashOf w k) end = Ret (forget m1, hashOf w k)) as ->.
  { cbn [forget SetBase.watch]. destruct (MapBase.watch m).
    - apply (sim_newHash gc deref keyT w m k _ E).
    - by simplify_eq. }
  cbn [mbind outcome_bind]. eapply (sim_returns forget2).
  - apply (sim_insertN keyT 2 m1 k () (hashOf w k) MapBase.free).
  - eapply returns_mono; [exact Hi|]. intros [[m' into] wt] [? ?]. by exists m'.
Qed.

(** ** The operations *)

Lemma bind_assoc {A B C} (o : outcome A) (f : A → outcome B) (g : B → outcome C) :
  ((o ≫= f) ≫= g) = (o ≫= λ a, f a ≫= g).
Proof. by destruct o. Qed.

(** Writing back the key that is there changes nothing. *)
Lemma rewrite_key m i h k v :
  node m i h k v →
  (s ← SetBase.destroyKey keyT (forget m) i; SetBase.putKey keyT s i k) = Ret (forget m).
Proof.
  intros (_ & Hk & _). pose proof (lookupZ_Some_lt _ _ _ Hk) as Hr.
  unfold SetBase.destroyKey, SetBase.putKey. cbn [forget SetBase.key].
  rewrite (aget_Some _ _ _ Hk). cbn [mbind outcome_bind]. rewrite aset_in by done.
  cbn. rewrite (copy_id (h:=keyT)), aset_in by (rewrite zlen_insert; done). cbn.
  by rewrite list_insertZ_insert, list_insertZ_id.
Qed.

Lemma put_rep w s X k :
  set_rep s X → Z.of_nat (base.size X) < 2 ^ 31 →
  returns (SetBase.Set_put gc deref keyT w s k) (λ '(s', r),
    set_rep s' ({[k]} ∪ X) ∧ r = bool_decide (k ∉ X)).
Proof.
  intros (m & M & Hr & <- & <-) Hs. unfold SetBase.Set_put, SetBase.putRaw.
  rewrite (key_hash (hashOf:=hashOf)). cbn [mbind outcome_bind].
  eapply returns_bind; [by apply findSlot_rep|].
  intros [s1 r] (m1 & -> & Hr1 & [[E Hk]|[E (h & v & Hn & Hk)]]); rewrite E.
  - pose proof (insert_rep w m1 M k Hr1) as Hi. rewrite size_dom in Hs.
    rewrite (represents_size _ _ _ _ m1 M Hr1) in Hi. specialize (Hi Hs Hk).
    destruct (match SetBase.watch _ with Some _ => _ | None => _ end) as [[s2 h]| | |]; try done.
    cbn [mbind outcome_bind] in *. eapply returns_bind; [exact Hi|].
    intros [[s3 into] wt] (m' & -> & Hr' & _). split.
    + apply (set_rep_intro m' _ _ Hr'). by rewrite dom_insert_L.
    + rewrite bool_decide_true; [done|]. by apply not_elem_of_dom.
  - pose proof (rewrite_key m1 r h k v Hn) as Hw.
    destruct (SetBase.destroyKey keyT (forget m1) r) as [s2| | |]; try done.
    cbn [mbind outcome_bind] in *. rewrite Hw. cbn. assert (k ∈ dom M) by by apply elem_of_dom_2 in Hk.
    split; [|rewrite bool_decide_false; [done|naive_solver]].
    apply (set_rep_intro m1 M _ Hr1). set_solver.
Qed.

Lemma has_rep w s X k :
  set_rep s X →
  returns (SetBase.Set_has gc deref keyT w s k) (λ '(s', r), set_rep s' X ∧ r = bool_decide (k ∈ X)).
Proof.
  intros (m & M & Hr & <- & <-). unfold SetBase.Set_has, SetBase.hasRaw.
  rewrite (key_hash (hashOf:=hashOf)). cbn [mbind outcome_bind].
  eapply returns_bind; [by apply findSlot_rep|].
  intros [s1 r] (m1 & -> & Hr1 & [[E Hk]|[E (h & v & Hn & Hk)]]); rewrite E; cbn;
    (split; [by eapply set_rep_intro|]).
  - by rewrite bool_decide_false by by apply not_elem_of_dom.
  - by rewrite bool_decide_true by by apply elem_of_dom_2 in Hk.
Qed.

Lemma getUnsafe_rep w s X k :
  set_rep s X →
  returns (SetBase.getUnsafeRaw gc deref keyT w s k) (λ '(s', r), set_rep s' X ∧
    match r with Some p => k ∈ X ∧ SetBase.keyAt s' p = Ret k | None => k ∉ X end).
Proof.
  intros (m & M & Hr & <- & <-). unfold SetBase.getUnsafeRaw.
  rewrite (key_hash (hashOf:=hashOf)). cbn [mbind outcome_bind].
  eapply returns_bind; [by apply findSlot_rep|].
  intros [s1 r] (m1 & -> & Hr1 & [[E Hk]|[E (h & v & Hn & Hk)]]); rewrite E; cbn;
    (split; [by eapply set_rep_intro|]).
  - by apply not_elem_of_dom.
  - split; [by apply elem_of_dom_2 in Hk|]. by eapply keyAt_node.
Qed.

Lemma set_at_rep w s X k :
  set_rep s X → Z.of_nat (base.size X) < 2 ^ 31 →
  returns (SetBase.Set_at gc deref keyT w s k) (λ '(s', r), set_rep s' ({[k]} ∪ X) ∧ r = k).
Proof.
  intros (m & M & Hr & <- & <-) Hs. unfold SetBase.Set_at, SetBase.atRaw.
  rewrite (key_hash (hashOf:=hashOf)). cbn [mbind outcome_bind].
  pose proof (findSlot_rep w m M k Hr) as Hf.
  destruct (SetBase.findSlot _ _ _ _ _ _ _) as [[s1 r]| | |]; try done.
  destruct Hf as (m1 & -> & Hr1 & [[E Hk]|[E (h & v & Hn & Hk)]]); cbn [mbind outcome_bind]; rewrite E.
  - pose proof (insert_rep w m1 M k Hr1) as Hi. rewrite size_dom in Hs.
    rewrite (represents_size _ _ _ _ m1 M Hr1) in Hi. specialize (Hi Hs Hk).
    destruct (match SetBase.watch _ with Some _ => _ | None => _ end) as [[s2 h]| | |]; try done.
    cbn [mbind outcome_bind] in *.
    destruct (SetBase.insert keyT s2 k h MapBase.free) as [[[s3 into] wt]| | |]; try done.
    destruct Hi as (m' & -> & Hr' & Hn). cbn. rewrite (keyAt_node _ _ _ _ _ Hn). cbn.
    split; [|done]. apply (set_rep_intro m' _ _ Hr'). by rewrite dom_insert_L.
  - cbn. rewrite (keyAt_node _ _ _ _ _ Hn). cbn. split; [|done].
    apply (set_rep_intro m1 M _ Hr1). apply elem_of_dom_2 in Hk. set_solver.
Qed.

Lemma set_remove_rep w s X k :
  set_rep s X →
  returns (SetBase.Set_remove gc deref addressOf keyT w s k) (λ '(s', r),
    set_rep s' (X ∖ {[k]}) ∧ r = bool_decide (k ∈ X)).
Proof.
  intros (m & M & Hr & <- & <-). unfold SetBase.Set_remove.
  pose proof Hr as [[[ch Hwf] _ _] _].
  eapply (sim_returns forget1).
  - apply sim_removeRaw.
    + intros Hnil. unfold MapBase.capacity. by rewrite Hnil.
    + intros m' r E ->. destruct (wf_tab _ _ Hwf) as [Hnil|Htab].
      * unfold MapBase.remove in E. rewrite (key_hash (hashOf:=hashOf)) in E. cbn in E.
        unfold aget in E. by rewrite Hnil, lookupZ_nil in E.
      * pose proof (remove_spec gc addressOf keyT unitT hashOf w m ch k Hwf Htab) as Hs.
        rewrite E in Hs. by destruct Hs.
  - eapply returns_mono; [by apply (removeRaw_represents (cleared gc) deref addressOf keyT unitT hashOf
      loc tracks w m M k)|].
    intros [m' r] [Hr' ->]. cbn. split.
    + apply (set_rep_intro m' _ _ Hr'). by rewrite dom_delete_L.
    + apply bool_decide_ext. by rewrite elem_of_dom.
Qed.

Lemma size_rep s X : set_rep s X → SetBase.size s = Z.of_nat (base.size X).
Proof.
  intros (m & M & Hr & <- & <-). cbn. rewrite size_dom. by eapply represents_size.
Qed.

Lemma clear_rep w s X : set_rep s X → set_rep (SetBase.clear gc w s) ∅.
Proof.
  intros (m & M & Hr & <- & <-).
  apply (set_rep_intro (MapBase.clear gc w m) ∅); [by eapply clear_represents|]. by rewrite dom_empty_L.
Qed.

Lemma shrink_rep w s X :
  set_rep s X → Z.of_nat (base.size X) ≤ 2 ^ 31 →
  returns (SetBase.shrink gc keyT w s) (λ s', set_rep s' X).
Proof.
  intros (m & M & Hr & <- & <-) Hs. rewrite size_dom in Hs. eapply sim_returns; [apply sim_shrink|].
  eapply returns_mono; [by apply (shrink_represents gc deref keyT unitT hashOf tracks w m M)|].
  intros m' [? _]. by eapply set_rep_intro.
Qed.

Lemma set_copy_rep s X : set_rep s X → SetBase.copy keyT s = s.
Proof.
  intros (m & M & [[[ch Hwf] _ _] _] & <- & _).
  pose proof (f_equal forget (copy_same keyT unitT hashOf m ch Hwf)) as E. exact E.
Qed.

Lemma set_new_rep w : checkHashHandle keyT = Ret tt →
  returns (SetBase.new gc keyT w) (λ s, set_rep s ∅).
Proof.
  intros Hc. unfold SetBase.new. rewrite Hc. cbn.
  eexists (MapBase.mkMap 0 [] [] [] _ 0), ∅. split_and!; [|done|by rewrite dom_empty_L].
  apply empty_represents; try done. cbn. by destruct (locationHash keyT).
Qed.

(** ** Sequences of operations *)

Definition set_exec (w : World) s (o : set_op K) : outcome (SetBase.SetBase K Watch * res K) :=
  match o with
  | SPut k => '(s, b) ← SetBase.Set_put gc deref keyT w s k; Ret (s, RBool b)
  | SHas k => '(s, b) ← SetBase.Set_has gc deref keyT w s k; Ret (s, RBool b)
  | SGet k =>
      '(s, p) ← SetBase.getUnsafeRaw gc deref keyT w s k;
      match p with
      | None => Ret (s, ROpt None)
      | Some p => v ← SetBase.keyAt s p; Ret (s, ROpt (Some v))
      end
  | SAt k => '(s, v) ← SetBase.Set_at gc deref keyT w s k; Ret (s, RVal v)
  | SRemove k => '(s, b) ← SetBase.Set_remove gc deref addressOf keyT w s k; Ret (s, RBool b)
  | SCount => Ret (s, RNat (SetBase.count s))
  | SShrink => s ← SetBase.shrink gc keyT w s; Ret (s, RUnit)
  | SCopy => Ret (SetBase.copy keyT s, RUnit)
  | SClear => Ret (SetBase.clear gc w s, RUnit)
  end.

Fixpoint set_run s (tr : list (World * set_op K)) : outcome (SetBase.SetBase K Watch * list (res K)) :=
  match tr with
  | [] => Ret (s, [])
  | (w, o) :: tr =>
      '(s, r) ← set_exec w s o;
      '(s, rs) ← set_run s tr;
      Ret (s, r :: rs)
  end.

Lemma set_exec_meaning w s X o :
  set_rep s X → Z.of_nat (base.size X) < 2 ^ 31 →
  returns (set_exec w s o) (λ '(s', r), set_rep s' (set_meaning X o).1 ∧ r = (set_meaning X o).2).
Proof.
  intros Hr Hs. destruct o; cbn [set_exec set_meaning fst snd].
  - eapply returns_bind; [by eapply put_rep|]. intros [s' b] [? ->]. done.
  - eapply returns_bind; [by eapply has_rep|]. intros [s' b] [? ->]. done.
  - eapply returns_bind; [by eapply getUnsafe_rep|]. intros [s' [p|]] [? Hp].
    + destruct Hp as [Hk ->]. cbn. by rewrite decide_True.
    + by rewrite decide_False.
  - eapply returns_bind; [by eapply set_at_rep|]. intros [s' b] [? ->]. done.
  - eapply returns_bind; [by eapply set_remove_rep|]. intros [s' b] [? ->]. done.
  - cbn. split; [done|]. unfold SetBase.count. by rewrite (size_rep s X Hr).
  - eapply returns_bind; [apply (shrink_rep w s X Hr); lia|]. done.
  - cbn. by rewrite (set_copy_rep s X Hr).
  - cbn. split; [|done]. by eapply clear_rep.
Qed.

Lemma set_run_meanings s X tr :
  set_rep s X → Z.of_nat (base.size X) + zlen tr ≤ 2 ^ 31 →
  returns (set_run s tr) (λ '(s', rs),
    set_rep s' (set_meanings X tr.*2).1 ∧ rs = (set_meanings X tr.*2).2).
Proof.
  revert s X. induction tr as [|[w o] tr IH]; intros s X Hr Hs; [done|].
  cbn [set_run fmap list_fmap set_meanings snd]. rewrite zlen_cons in Hs. pose proof (zlen_nonneg tr).
  eapply returns_bind; [apply set_exec_meaning; [done|lia]|].
  intros [s1 r] [Hr1 ->]. pose proof (set_meaning_size X o).
  destruct (set_meaning X o) as [X1 r]. cbn in *.
  eapply returns_bind; [apply (IH s1 X1 Hr1); lia|].
  intros [s2 rs] [Hr2 ->]. destruct (set_meanings X1 tr.*2) as [X2 rs]. done.
Qed.

(** C2: the hash set implements a finite set.  Starting from the constructor, any
    sequence of at most 2^31 operations returns, with the results the finite set
    gives, although the collector may move every object between two operations. *)
Theorem set_refines w tr :
  checkHashHandle keyT = Ret tt → zlen tr ≤ 2 ^ 31 →
  ∃ s, (s0 ← SetBase.new gc keyT w; set_run s0 tr) = Ret (s, (set_meanings ∅ tr.*2).2) ∧
    set_rep s (set_meanings ∅ tr.*2).1.
Proof.
  intros Hc Hl. pose proof (set_new_rep w Hc) as Hn.
  destruct (SetBase.new gc keyT w) as [s0| | |]; try done. cbn [mbind outcome_bind].
  destruct (proj1 (returns_exists _ _) (set_run_meanings s0 ∅ tr Hn ltac:(rewrite size_empty; lia)))
    as ([s rs] & -> & ? & ->). eauto.
Qed.

(** ** Adding the elements of another set *)

Definition forgetIt (it : MapBase.Iter K unit) : SetBase.Iter K :=
  SetBase.mkIter (MapBase.it_info it) (MapBase.it_key it) (MapBase.pos it).

Lemma atEnd_forget it :
  zlen (MapBase.it_key it) = zlen (MapBase.it_info it) →
  SetBase.atEnd (forgetIt it) = MapBase.atEnd it.
Proof.
  unfold SetBase.atEnd, MapBase.atEnd. destruct it as [inf ks vs p]; cbn. intros Hl.
  rewrite <- Hl. unfold zlen in Hl. by destruct inf, ks.
Qed.

Lemma sim_skipFree fuel it :
  zlen (MapBase.it_key it) = zlen (MapBase.it_info it) →
  simulates forgetIt (MapBase.skipFree fuel it) (SetBase.skipFree fuel (forgetIt it)).
Proof.
  revert it. induction fuel as [|fuel IH]; intros it Hl; [apply sim_fuel|].
  cbn [MapBase.skipFree SetBase.skipFree]. rewrite atEnd_forget by done.
  sim_step; [by apply sim_ret|]. sim_step. sim_step; [|by apply sim_ret]. by apply (IH (MapBase.mkIter _ _ _ _)).
Qed.

Lemma sim_preIncRaw it :
  zlen (MapBase.it_key it) = zlen (MapBase.it_info it) →
  simulates forgetIt (MapBase.preIncRaw it) (SetBase.preIncRaw (forgetIt it)).
Proof.
  intros Hl. unfold MapBase.preIncRaw, SetBase.preIncRaw. rewrite atEnd_forget by done.
  assert (length (MapBase.it_key it) = length (MapBase.it_info it)) as Hl' by (unfold zlen in Hl; lia).
  destruct (MapBase.atEnd it); cbn -[MapBase.skipFree SetBase.skipFree]; rewrite <- Hl'.
  - by apply sim_skipFree.
  - by apply (sim_skipFree _ (MapBase.mkIter _ _ _ _)).
Qed.

Lemma putAll_rep w m ch fuel p s X :
  map_wf m ch → 0 ≤ p ≤ zlen (MapBase.key m) → stopped m p →
  zlen (MapBase.key m) - p < Z.of_nat fuel →
  set_rep s X → Z.of_nat (base.size X) + zlen (entriesFrom m p) ≤ 2 ^ 31 →
  returns (SetBase.putAll gc deref keyT fuel w s (forgetIt (iter_of m p))) (λ s',
    set_rep s' (list_to_set (entriesFrom m p).*1 ∪ X)).
Proof.
  intros Hwf. pose proof (wf_key _ _ Hwf) as Hlk.
  revert p s X. induction fuel as [|fuel IH]; intros p s X Hp Hst Hf Hr Hs; [lia|].
  cbn [SetBase.putAll]. unfold SetBase.iterEq. rewrite atEnd_forget by done. rewrite atEnd_iter by done.
  cbn [SetBase.atEnd SetBase.endRaw SetBase.it_info]. rewrite andb_true_r.
  destruct (Z.eqb_spec p (zlen (MapBase.key m))) as [E|E]; cbn [andb].
  { cbn. unfold entriesFrom. rewrite (drop_ge (MapBase.key m)) by (unfold zlen in E; lia). cbn.
    by rewrite union_empty_l_L. }
  destruct Hst as [?|(h & k & v & Hn)]; [done|]. pose proof Hn as (_ & Hk & Hv).
  unfold SetBase.rawVal. cbn [SetBase.it_key SetBase.pos forgetIt iter_of MapBase.it_key MapBase.pos].
  rewrite (aget_Some _ _ _ Hk). cbn [mbind outcome_bind].
  rewrite (entriesFrom_used m p k v Hk Hv) in Hs |- *. rewrite zlen_cons in Hs.
  pose proof (zlen_nonneg (entriesFrom m (p + 1))).
  eapply returns_bind; [apply (put_rep w s X k Hr); lia|]. intros [s1 b] [Hr1 _].
  destruct (proj1 (returns_exists _ _) (preIncRaw_spec m ch p h k v Hwf Hn))
    as (it & E' & q & -> & Hq & Hst & He).
  rewrite (sim_preIncRaw (iter_of m p) Hlk _ E'). cbn [mbind outcome_bind].
  rewrite He in Hs |- *. pose proof (set_meaning_size X (SPut k)) as Hsz. cbn in Hsz.
  eapply returns_mono; [apply (IH q s1 ({[k]} ∪ X)); (done || lia)|].
  intros s' Hr'. cbn. eapply eq_rect; [exact Hr'|]. set_solver.
Qed.

(** Adding a set to another one gives their union (below 2^31 elements in all);
    adding a set to itself leaves it alone. *)
Theorem putSet_union w s X s' X' :
  set_rep s X → set_rep s' X' → Z.of_nat (base.size X) + Z.of_nat (base.size X') ≤ 2 ^ 31 →
  SetBase.putSetRaw gc deref keyT true w s s = Ret s ∧
  ∃ r, SetBase.putSetRaw gc deref keyT false w s s' = Ret r ∧ set_rep r (X' ∪ X).
Proof.
  intros Hr (m & M & Hr' & <- & <-) Hs. split; [done|]. apply returns_exists.
  pose proof Hr' as [[[ch Hwf] _ _] HM]. pose proof (wf_key _ _ Hwf) as Hlk.
  unfold SetBase.putSetRaw, SetBase.beginRaw.
  assert (length (MapBase.key m) = length (MapBase.info m)) as Hl by (unfold zlen in Hlk; lia).
  cbn [forget SetBase.info SetBase.key]. rewrite <- Hl.
  destruct (proj1 (returns_exists _ _) (skipFree_spec m ch (S (length (MapBase.key m))) 0 Hwf
    ltac:(unfold zlen; lia) ltac:(unfold zlen; lia))) as (it & Hit & q & -> & Hq & Hst & He).
  change (SetBase.mkIter (MapBase.info m) (MapBase.key m) 0) with (forgetIt (iter_of m 0)).
  rewrite (sim_skipFree _ (iter_of m 0) Hlk _ Hit). cbn [mbind outcome_bind].
  assert (entriesFrom m q = entries m) as Hq' by (by rewrite <- He).
  assert (dom M = list_to_set (entries m).*1) as Hd.
  { rewrite <- HM. unfold to_map. apply dom_list_to_map_L. }
  eapply returns_mono; [apply (putAll_rep w m ch _ q s X)|]; try done; try (unfold zlen; lia).
  - rewrite Hq'. rewrite size_dom, <- (represents_size _ _ _ _ m M Hr'), (wf_size _ _ Hwf) in Hs. lia.
  - intros r. by rewrite Hq', Hd.
Qed.
End correct.

Lemma set_refines_witness :
  ∃ s, (s0 ← SetBase.new ByAddress.gc ByAddress.keyT 0;
        set_run ByAddress.gc inl inr ByAddress.keyT s0
          [(0, SPut 3); (0, SPut 7); (0, SPut 11); (7, SHas 7); (7, SPut 7); (9, SRemove 3);
           (9, SGet 11); (9, SGet 3); (0, SAt 5); (0, SShrink); (0, SCopy); (2, SCount); (2, SClear)]) =
    Ret (s, [RBool true; RBool true; RBool true; RBool true; RBool false; RBool true; ROpt (Some 11);
             ROpt None; RVal 5; RUnit; RUnit; RNat 3; RUnit]).
Proof.
  destruct (set_refines ByAddress.gc inl inr ByAddress.keyT ByAddress.hashOf ByAddress.loc
    ByAddress.tracks 0
    [(0, SPut 3); (0, SPut 7); (0, SPut 11); (7, SHas 7); (7, SPut 7); (9, SRemove 3);
     (9, SGet 11); (9, SGet 3); (0, SAt 5); (0, SShrink); (0, SCopy); (2, SCount); (2, SClear)]
    eq_refl ltac:(vm_compute; discriminate)) as (s & E & _).
  exists s. rewrite E. vm_compute. reflexivity.
Defined.

(** The set {3, 7}, with the table of [ByValue.two]. *)
Lemma two_set_rep :
  set_rep (λ _, ()) ByValue.keyT ByValue.hashOf ByValue.tracks
    (SetBase.mkSet 0 [] [] None 0 : SetBase.SetBase Z unit) ∅ ∧
  ∃ s, (s0 ← SetBase.new ByValue.gc ByValue.keyT ();
        set_run ByValue.gc (λ _, ()) (λ _, ()) ByValue.keyT s0 [((), SPut 3); ((), SPut 7)]) =
       Ret (s, [RBool true; RBool true]) ∧
    set_rep (λ _, ()) ByValue.keyT ByValue.hashOf ByValue.tracks s {[7; 3]}.
Proof.
  assert (set_rep (λ _, ()) ByValue.keyT ByValue.hashOf ByValue.tracks
    (SetBase.mkSet 0 [] [] None 0 : SetBase.SetBase Z unit) ∅) as H0.
  { exact (set_new_rep ByValue.gc (λ _, ()) ByValue.keyT ByValue.hashOf ByValue.tracks () eq_refl). }
  split; [done|].
  pose proof (set_run_meanings ByValue.gc (λ _, ()) (λ _, ()) ByValue.keyT ByValue.hashOf (λ _ _, ())
    ByValue.tracks _ ∅ [((), SPut 3); ((), SPut 7)] H0 ltac:(vm_compute; discriminate)) as Hr.
  destruct (proj1 (returns_exists _ _) Hr) as ([s rs] & E & Hs & ->). exists s. split; [exact E|].
  eapply eq_rect; [exact Hs|]. vm_compute. reflexivity.
Qed.

Lemma putSet_union_witness :
  ∃ s r, SetBase.putSetRaw ByValue.gc (λ _, ()) ByValue.keyT false () (SetBase.mkSet 0 [] [] None 0) s = Ret r ∧
    set_rep (λ _, ()) ByValue.keyT ByValue.hashOf ByValue.tracks r ({[7; 3]} ∪ ∅).
Proof.
  destruct two_set_rep as [H0 (s & _ & Hs)]. exists s.
  exact (proj2 (putSet_union ByValue.gc (λ _, ()) (λ _, ()) ByValue.keyT ByValue.hashOf (λ _ _, ())
    ByValue.tracks () _ ∅ s {[7; 3]} H0 Hs ltac:(vm_compute; discriminate))).
Defined.
