(* ===== verification/Sort.v ===== *)
(** * Sorting and heaps

    [Core/GcArray.h], [Core/Sort.h] and [Core/Sort.cpp]: the arrays of the garbage
    collector, and the heap, insertion sort and quicksort routines that work on a range
    of such an array with one free slot at [data->filled] as scratch space.

    A slot is an [option]: [None] is memory that holds no object.  Moves are bitwise
    copies of slots; comparing memory that holds no object is a fault. *)

From stdpp Require Import base list numbers strings option decidable.
From Stdlib Require Import ZArith Lia.
From S2P Require Import Prelude Handle.

(** ** GcArray: [count] is the length of [v]. *)
Record GcArray (T : Type) := mkGcArray {
  filled : Z;
  v : list (option T);
}.
Arguments mkGcArray {T}.
Arguments filled {T}.
Arguments v {T}.

Definition gc_count {T} (a : GcArray T) : Z := zlen (v a).

(** [runtime::allocArray]: zeroed memory. *)
Definition allocArray {T} (n : Z) : GcArray T := mkGcArray 0 (replicate (Z.to_nat n) None).

(** The object in slot [i]. *)
Definition slot {T} (l : list (option T)) (i : Z) : outcome T :=
  o ← aget l i; match o with Some x => Ret x | None => Fault end.

(** [memcpy] or [memmove] of [n] slots, from [src] at [from] to [dst] at [to]. *)
Definition memmove {T} (dst : list (option T)) (to : Z) (src : list (option T)) (from n : Z) :
    outcome (list (option T)) :=
  if decide (0 ≤ n ∧ 0 ≤ to ∧ to + n ≤ zlen dst ∧ 0 ≤ from ∧ from + n ≤ zlen src)
  then Ret (take (Z.to_nat to) dst ++ take (Z.to_nat n) (drop (Z.to_nat from) src) ++
            drop (Z.to_nat (to + n)) dst)
  else Fault.

Module Sort.

(** [SortData], without the array, which the operations below transform: [scratch] is
    [data->filled]. *)
Record SortData (World T : Type) := mkSortData {
  type : Handle World T;
  compareFn : option (T → T → bool);
  scratch : Z;
  begin : Z;
  end_ : Z;
}.
Arguments mkSortData {World T}.
Arguments type {World T}.
Arguments compareFn {World T}.
Arguments scratch {World T}.
Arguments begin {World T}.
Arguments end_ {World T}.

Section sort.
Context {World T : Type}.
Implicit Types (d : SortData World T) (l : list (option T)).

(** [init]: there is a free element. *)
Definition init (data : GcArray T) d : outcome (SortData World T) :=
  assert (filled data <? gc_count data);; Ret d.

Definition sortData (data : GcArray T) (h : Handle World T) (cmp : option (T → T → bool)) :
    outcome (SortData World T) :=
  init data (mkSortData h cmp (filled data) 0 (filled data)).

Definition sortDataRange (data : GcArray T) (h : Handle World T) (cmp : option (T → T → bool))
    (b e : Z) : outcome (SortData World T) :=
  init data (mkSortData h cmp (filled data) b e).

(** [SortData(src, begin, end)] *)
Definition narrow d (b e : Z) : SortData World T :=
  mkSortData (type d) (compareFn d) (scratch d) b e.

(** [compare(d, params)] *)
Definition compareVal d (a b : T) : outcome bool :=
  match compareFn d with
  | Some f => Ret (f a b)
  | None => match lessFn (type d) with Some f => Ret (f a b) | None => Fault end
  end.

(** [compare(d, a, b)], [a] and [b] slots. *)
Definition compare d l (a b : Z) : outcome bool :=
  x ← slot l a; y ← slot l b; compareVal d x y.

(** [compare(d, a, b)], [b] an object elsewhere. *)
Definition compareElem d l (a : Z) (b : T) : outcome bool :=
  x ← slot l a; compareVal d x b.

(** [move(d, to, from)] *)
Definition move l (to from : Z) : outcome (list (option T)) :=
  if to =? from then Ret l else x ← aget l from; aset l to x.

(** [move(d, preserve, to, from)] *)
Definition movePreserve d l (preserve to from : Z) : outcome (list (option T) * Z) :=
  '(l, preserve) ← (if preserve =? to
                    then l ← move l (scratch d) to; Ret (l, scratch d)
                    else Ret (l, preserve));
  l ← move l to from;
  Ret (l, preserve).

(** ** Heaps *)
Definition left d (item : Z) : Z := u64 (u64 (item - begin d) * 2 + 1 + begin d).
Definition right d (item : Z) : Z := u64 (u64 (item - begin d) * 2 + 2 + begin d).
Definition parent d (item : Z) : Z := u64 (u64 (item - begin d - 1) `div` 2 + begin d).

(** [at >= sort.end || !compare(sort, elem, at)] *)
Definition notBelow d l (elem at_ : Z) : outcome bool :=
  if end_ d <=? at_ then Ret true else negb <$> compare d l elem at_.

Fixpoint siftDownLoop (fuel : nat) d l (at_ elem : Z) : outcome (list (option T) * Z * Z) :=
  match fuel with
  | O => OutOfFuel
  | S fuel =>
      if end_ d <=? at_ then Ret (l, at_, elem)
      else
        let lft := left d at_ in
        let rgt := right d at_ in
        okL ← notBelow d l elem lft;
        ok ← (if okL : bool then notBelow d l elem rgt else Ret false);
        if ok : bool then Ret (l, at_, elem)
        else
          pickR ← (if rgt <? end_ d then compare d l lft rgt else Ret false);
          let next := if pickR : bool then rgt else lft in
          '(l, elem) ← movePreserve d l elem at_ next;
          siftDownLoop fuel d l next elem
  end.

(** [siftDown(sort, top, elem)]; the position grows in each iteration. *)
Definition siftDown d l (top elem : Z) : outcome (list (option T)) :=
  '(l, at_, elem) ← siftDownLoop (S (length l)) d l top elem;
  move l at_ elem.

Fixpoint makeHeapLoop (fuel : nat) d l (top : Z) : outcome (list (option T)) :=
  match fuel with
  | O => OutOfFuel
  | S fuel =>
      if begin d <? top then
        let top := u64 (top - 1) in
        l ← siftDown d l top top;
        makeHeapLoop fuel d l top
      else Ret l
  end.

Definition makeHeap d l : outcome (list (option T)) :=
  makeHeapLoop (S (length l)) d l (u64 (parent d (end_ d) + 1)).

Fixpoint siftUp (fuel : nat) d l (elem : T) (at_ : Z) : outcome (list (option T) * Z) :=
  match fuel with
  | O => OutOfFuel
  | S fuel =>
      if at_ =? begin d then Ret (l, at_)
      else
        let p := parent d at_ in
        c ← compareElem d l p elem;
        if c : bool then l ← move l at_ p; siftUp fuel d l elem p
        else Ret (l, at_)
  end.

Definition heapInsert d l (elem : T) : outcome (list (option T)) :=
  '(l, at_) ← siftUp (S (length l)) d l elem (end_ d);
  aset l at_ (Some (safeCopy (type d) elem)).

Definition heapRemove d l : outcome (list (option T)) :=
  if end_ d <=? begin d + 1 then Ret l
  else
    l ← move l (scratch d) (begin d);
    l ← siftDown d l (begin d) (u64 (end_ d - 1));
    move l (u64 (end_ d - 1)) (scratch d).

Fixpoint heapSortLoop (fuel : nat) d l : outcome (list (option T)) :=
  match fuel with
  | O => OutOfFuel
  | S fuel =>
      if begin d + 1 <? end_ d then
        l ← heapRemove d l;
        heapSortLoop fuel (narrow d (begin d) (end_ d - 1)) l
      else Ret l
  end.

Definition heapSort d l : outcome (list (option T)) :=
  l ← makeHeap d l; heapSortLoop (S (length l)) d l.

(** ** Insertion sort *)

(** [do { move(to, to - 1); to--; } while (to > begin && compare(scratch, to - 1))] *)
Fixpoint shiftRight (fuel : nat) d l (to : Z) : outcome (list (option T) * Z) :=
  match fuel with
  | O => OutOfFuel
  | S fuel =>
      l ← move l to (to - 1);
      let to := to - 1 in
      more ← (if begin d <? to then compare d l (scratch d) (to - 1) else Ret false);
      if more : bool then shiftRight fuel d l to else Ret (l, to)
  end.

Definition insertOne d l (target : Z) : outcome (list (option T)) :=
  c ← compare d l target (target - 1);
  if c : bool then
    l ← move l (scratch d) target;
    '(l, to) ← shiftRight (length l) d l target;
    move l to (scratch d)
  else Ret l.

Definition insertionSort d l : outcome (list (option T)) :=
  for_loop (Z.to_nat (end_ d - (begin d + 1))) (begin d + 1) (λ target l, insertOne d l target) l.

(** ** Quicksort *)
Definition pickPivot d l : outcome Z :=
  let a := begin d in
  let b := end_ d - 1 in
  let c := (b - a) `div` 2 + a in
  if (a =? c) || (b =? c) then Ret c
  else
    ab ← compare d l a b;
    if ab : bool then
      bc ← compare d l b c;
      if bc : bool then Ret b
      else ca ← compare d l c a; Ret (if ca : bool then a else c)
    else
      cb ← compare d l c b;
      if cb : bool then Ret b
      else ac ← compare d l a c; Ret (if ac : bool then a else c).

(** [while (l < r && !compare(r, temp)) r--] *)
Fixpoint scanRight (fuel : nat) d l (lo hi : Z) : outcome Z :=
  match fuel with
  | O => OutOfFuel
  | S fuel =>
      if lo <? hi then
        c ← compare d l hi (scratch d);
        if c : bool then Ret hi else scanRight fuel d l lo (hi - 1)
      else Ret hi
  end.

(** [while (l < r && !compare(temp, l)) l++] *)
Fixpoint scanLeft (fuel : nat) d l (lo hi : Z) : outcome Z :=
  match fuel with
  | O => OutOfFuel
  | S fuel =>
      if lo <? hi then
        c ← compare d l (scratch d) lo;
        if c : bool then Ret lo else scanLeft fuel d l (lo + 1) hi
      else Ret lo
  end.

Fixpoint partitionLoop (fuel : nat) d l (lo hi : Z) : outcome (list (option T) * Z) :=
  match fuel with
  | O => OutOfFuel
  | S fuel =>
      if lo <? hi then
        hi ← scanRight (S (length l)) d l lo hi;
        '(l, lo) ← (if lo <? hi then l ← move l lo hi; Ret (l, lo + 1) else Ret (l, lo));
        lo ← scanLeft (S (length l)) d l lo hi;
        '(l, hi) ← (if lo <? hi then l ← move l hi lo; Ret (l, hi - 1) else Ret (l, hi));
        partitionLoop fuel d l lo hi
      else Ret (l, lo)
  end.

Definition partition d l (pivot : Z) : outcome (list (option T) * Z) :=
  l ← move l (scratch d) pivot;
  l ← (if pivot =? begin d then Ret l else move l pivot (begin d));
  '(l, lo) ← partitionLoop (S (length l)) d l (begin d) (end_ d - 1);
  l ← move l lo (scratch d);
  Ret (l, lo).

Definition STACK_SIZE : Z := 30.
Definition INSERTION_LIMIT : Z := 16.

(** One round of the main loop on the range of [d], which goes on with [rec]: [stack]
    holds the remembered ranges, the last one first. *)
Definition sortStep (rec : SortData World T → list (Z * Z) → list (option T) → outcome (list (option T)))
    d (stack : list (Z * Z)) l : outcome (list (option T)) :=
  if end_ d - begin d <=? INSERTION_LIMIT then
    l ← insertionSort d l;
    rec (narrow d (end_ d) (end_ d)) stack l
  else if STACK_SIZE <=? zlen stack then
    l ← heapSort d l;
    rec (narrow d (end_ d) (end_ d)) stack l
  else
    pivot ← pickPivot d l;
    '(l, pivot) ← partition d l pivot;
    let '(held, d) :=
      if pivot - begin d <? end_ d - pivot
      then ((begin d, pivot), narrow d (pivot + 1) (end_ d))
      else ((pivot + 1, end_ d), narrow d (begin d) pivot) in
    let stack := if held.1 + 1 <? held.2 then held :: stack else stack in
    rec d stack l.

Fixpoint sortLoop (fuel : nat) d (stack : list (Z * Z)) l : outcome (list (option T)) :=
  match fuel with
  | O => OutOfFuel
  | S fuel =>
      if end_ d <=? begin d + 1 then
        match stack with
        | (b, e) :: stack => sortStep (sortLoop fuel) (narrow d b e) stack l
        | [] => Ret l
        end
      else sortStep (sortLoop fuel) d stack l
  end.

(** Each iteration settles at least one element. *)
Definition sort d l : outcome (list (option T)) :=
  sortLoop (S (length l)) d [] l.
End sort.
End Sort.
