(* ===== verification/Ranges.v ===== *)
(** * Ranges of arrays

    Rearrangements of a range of an array, shared by the proofs of the sorting and heap
    routines: [permutes b e l l'] says that [l'] is [l] with the elements of the range
    [b, e) in some order; [shuffles s b e l l'] allows in addition that the scratch slot
    [s] was overwritten. *)

From stdpp Require Import base list numbers option decidable.
From Stdlib Require Import ZArith Lia.
From S2P Require Import Prelude.

(** The elements of the range [b, e). *)
Definition sub {A} (b e : Z) (l : list A) : list A :=
  take (Z.to_nat (e - b)) (drop (Z.to_nat b) l).

Definition permutes {A} (b e : Z) (l l' : list A) : Prop :=
  l' ≡ₚ l ∧ ∀ i, ¬ (b ≤ i < e) → l' !! i = l !! i.

Definition shuffles {A} (s b e : Z) (l l' : list A) : Prop :=
  ∃ y, permutes b e (<[s := y]> l) l'.

Section ranges.
Context {A : Type}.
Implicit Types l : list A.

Lemma sub_lookup b e l i :
  0 ≤ b → 0 ≤ i < e - b → sub b e l !! i = l !! (b + i).
Proof.
  intros Hb Hi. unfold sub. rewrite !lookupZ_to_nat by lia.
  rewrite lookup_take_lt by lia. rewrite lookup_drop. f_equal. lia.
Qed.

Lemma zlen_sub b e l : 0 ≤ b ≤ e → e ≤ zlen l → zlen (sub b e l) = e - b.
Proof. intros. unfold sub, zlen in *. rewrite length_take, length_drop. lia. Qed.

(** The array is what is before, in and after the range. *)
Lemma sub_split b e l : 0 ≤ b ≤ e → e ≤ zlen l → l = sub 0 b l ++ sub b e l ++ sub e (zlen l) l.
Proof.
  intros Hb He. unfold sub, zlen in *. rewrite Z.sub_0_r. change (Z.to_nat 0) with O. rewrite drop_0.
  rewrite <- (take_drop (Z.to_nat b) l) at 1. f_equal.
  rewrite <- (take_drop (Z.to_nat (e - b)) (drop (Z.to_nat b) l)) at 1. f_equal.
  rewrite drop_drop. replace (Z.to_nat b + Z.to_nat (e - b))%nat with (Z.to_nat e) by lia.
  rewrite take_ge; [done|]. rewrite length_drop. lia.
Qed.

Lemma sub_eq b e l l' :
  0 ≤ b ≤ e → e ≤ zlen l → zlen l' = zlen l →
  (∀ i, b ≤ i < e → l' !! i = l !! i) → sub b e l' = sub b e l.
Proof.
  intros Hb He Hl H. apply list_eqZ; rewrite !zlen_sub by lia; [done|].
  intros i Hi. rewrite !sub_lookup by lia. apply H. lia.
Qed.

Lemma sub_elem b e l x : 0 ≤ b → x ∈ sub b e l ↔ ∃ i, b ≤ i < e ∧ l !! i = Some x.
Proof.
  intros Hb. rewrite list_elem_of_lookupZ. split.
  - intros [i Hi]. pose proof (lookupZ_Some_lt _ _ _ Hi) as Hr.
    assert (i < e - b). { unfold sub, zlen in Hr. rewrite length_take in Hr. lia. }
    exists (b + i). rewrite sub_lookup in Hi by lia. split; [lia|done].
  - intros (i & Hr & Hi). exists (i - b). rewrite sub_lookup by lia.
    by replace (b + (i - b)) with i by lia.
Qed.

Lemma zlen_permutes b e l l' : permutes b e l l' → zlen l' = zlen l.
Proof. intros [Hp _]. by rewrite Hp. Qed.

Lemma permutes_refl b e l : permutes b e l l.
Proof. by split. Qed.

Lemma permutes_trans b e l1 l2 l3 : permutes b e l1 l2 → permutes b e l2 l3 → permutes b e l1 l3.
Proof.
  intros [Hp Ho] [Hp' Ho']. split; [by etrans|]. intros i Hi. by rewrite Ho', Ho.
Qed.

Lemma permutes_weaken b e b' e' l l' :
  b' ≤ b → e ≤ e' → permutes b e l l' → permutes b' e' l l'.
Proof. intros ? ? [Hp Ho]. split; [done|]. intros i Hi. apply Ho. lia. Qed.

(** Permuting the range is permuting the list of its elements. *)
Lemma permutes_sub b e l l' :
  0 ≤ b ≤ e → e ≤ zlen l → permutes b e l l' → sub b e l' ≡ₚ sub b e l.
Proof.
  intros Hb He Hpm. pose proof (zlen_permutes _ _ _ _ Hpm) as Hl. destruct Hpm as [Hp Ho].
  rewrite (sub_split b e l), (sub_split b e l') in Hp by lia.
  rewrite (sub_eq 0 b l l') in Hp by (lia || (intros; apply Ho; lia)).
  rewrite Hl, (sub_eq e (zlen l) l l') in Hp by (lia || (intros; apply Ho; lia)).
  by apply Permutation_app_inv_l, Permutation_app_inv_r in Hp.
Qed.

(** What is in the range after was in the range before. *)
Lemma permutes_back b e l l' i x :
  0 ≤ b ≤ e → e ≤ zlen l → permutes b e l l' → b ≤ i < e → l' !! i = Some x →
  ∃ j, b ≤ j < e ∧ l !! j = Some x.
Proof.
  intros Hb He Hpm Hi Hx. apply sub_elem; [lia|]. rewrite <- (permutes_sub b e l l') by done.
  apply sub_elem; [lia|]. eauto.
Qed.

Lemma permutes_swap b e l i j x y :
  b ≤ i < e → b ≤ j < e → l !! i = Some x → l !! j = Some y →
  permutes b e l (<[j := x]> (<[i := y]> l)).
Proof.
  intros Hi Hj Hx Hy. pose proof (lookupZ_Some_lt _ _ _ Hx). pose proof (lookupZ_Some_lt _ _ _ Hy).
  split.
  - rewrite lookupZ_to_nat in Hx by lia. rewrite lookupZ_to_nat in Hy by lia.
    unfold insert, list_insertZ. rewrite !decide_True by lia. by apply Permutation_insert_swap.
  - intros k Hk. rewrite !lookupZ_insert_ne by lia. done.
Qed.

(** Filling the hole at [i] with the element at [j] moves the hole to [j]: with [x] in
    the hole, two elements change places. *)
Lemma permutes_hole b e l i j o x :
  b ≤ i < e → b ≤ j < e → 0 ≤ i < zlen l → l !! j = Some o → i ≠ j →
  permutes b e (<[i := x]> l) (<[j := x]> (<[i := o]> l)).
Proof.
  intros Hi Hj Hl Ho Hne.
  pose proof (permutes_swap b e (<[i := x]> l) i j x o Hi Hj) as Hs.
  rewrite list_insertZ_insert in Hs. apply Hs.
  - by apply lookupZ_insert_eq.
  - by rewrite lookupZ_insert_ne.
Qed.

(** Overwriting a slot outside the range. *)
Lemma permutes_insert b e l l' s x :
  0 ≤ s < zlen l → ¬ (b ≤ s < e) → permutes b e l l' → permutes b e (<[s := x]> l) (<[s := x]> l').
Proof.
  intros Hs Hn Hpm. pose proof (zlen_permutes _ _ _ _ Hpm) as Hl. destruct Hpm as [Hp Ho]. split.
  - pose proof (Ho s Hn) as Es. destruct (lookupZ_lt_Some l s Hs) as [y Hy]. rewrite Hy in Es.
    clear Ho. unfold zlen in *. rewrite lookupZ_to_nat in Es by lia. rewrite lookupZ_to_nat in Hy by lia.
    unfold insert, list_insertZ. rewrite !decide_True by lia.
    rewrite <- (take_drop_middle l _ _ Hy), <- (take_drop_middle l' _ _ Es) in Hp.
    rewrite !insert_take_drop by lia.
    rewrite <- !Permutation_middle in Hp |- *. apply Permutation_cons_inv in Hp. by rewrite Hp.
  - intros i Hi. destruct (decide (s = i)) as [->|].
    + rewrite !lookupZ_insert_eq by (lia || done). done.
    + rewrite !lookupZ_insert_ne by done. by apply Ho.
Qed.

(** ** With a scratch slot *)

Lemma shuffles_zlen s b e l l' : shuffles s b e l l' → zlen l' = zlen l.
Proof. intros [y Hp]. apply zlen_permutes in Hp. by rewrite zlen_insert in Hp. Qed.

Lemma shuffles_permutes s b e l l' x :
  l !! s = Some x → permutes b e l l' → shuffles s b e l l'.
Proof. intros Hs Hp. exists x. by rewrite list_insertZ_id. Qed.

Lemma shuffles_refl s b e l x : l !! s = Some x → shuffles s b e l l.
Proof. intros. by eapply shuffles_permutes, permutes_refl. Qed.

Lemma shuffles_trans s b e l1 l2 l3 :
  0 ≤ s < zlen l1 → ¬ (b ≤ s < e) → shuffles s b e l1 l2 → shuffles s b e l2 l3 → shuffles s b e l1 l3.
Proof.
  intros Hs Hn [x Hp] [y Hp']. exists y. eapply permutes_trans; [|exact Hp'].
  pose proof (permutes_insert b e (<[s := x]> l1) l2 s y) as H. rewrite list_insertZ_insert in H.
  apply H; [by rewrite zlen_insert|done|done].
Qed.

Lemma shuffles_weaken s b e b' e' l l' :
  b' ≤ b → e ≤ e' → shuffles s b e l l' → shuffles s b' e' l l'.
Proof. intros ? ? [y Hp]. exists y. by eapply permutes_weaken. Qed.

Lemma shuffles_outside s b e l l' i :
  i ≠ s → ¬ (b ≤ i < e) → shuffles s b e l l' → l' !! i = l !! i.
Proof. intros Hs Hn [y [_ Ho]]. rewrite Ho by done. by rewrite lookupZ_insert_ne. Qed.

Lemma shuffles_back s b e l l' i x :
  0 ≤ b ≤ e → e ≤ zlen l → ¬ (b ≤ s < e) → shuffles s b e l l' → b ≤ i < e → l' !! i = Some x →
  ∃ j, b ≤ j < e ∧ l !! j = Some x.
Proof.
  intros Hb He Hs [y Hp] Hi Hx.
  destruct (permutes_back b e _ _ i x Hb ltac:(by rewrite zlen_insert) Hp Hi Hx) as (j & Hj & E).
  exists j. split; [done|]. by rewrite lookupZ_insert_ne in E by lia.
Qed.

Lemma shuffles_sub s b e l l' :
  0 ≤ b ≤ e → e ≤ zlen l → ¬ (b ≤ s < e) → shuffles s b e l l' → sub b e l' ≡ₚ sub b e l.
Proof.
  intros Hb He Hs [y Hp]. rewrite (permutes_sub b e (<[s := y]> l) l'); [|done|by rewrite zlen_insert|done].
  rewrite (sub_eq b e l (<[s := y]> l)); [done|done|done|by rewrite zlen_insert|].
  intros i Hi. apply lookupZ_insert_ne. lia.
Qed.
End ranges.
