(* ===== verification/SortProofs.v ===== *)
(** * Insertion sort and quicksort

    The routines of [Core/Sort.cpp] rearrange the range they are given, touch nothing
    else but the scratch slot, and leave the range sorted. *)

From stdpp Require Import base list numbers option decidable.
From Stdlib Require Import ZArith Lia.
From S2P Require Import Prelude Handle Sort Ranges.
Import Sort.

(** What sorting relies on: [<] is a strict weak order. *)
Class StrictWeak {T} (less : T → T → bool) : Prop := {
  sw_irrefl : ∀ x, less x x = false;
  sw_trans : ∀ x y z, less x y = true → less y z = true → less x z = true;
  sw_split : ∀ x y z, less x z = true → less x y = true ∨ less y z = true;
}.

Section order.
Context {T : Type} (less : T → T → bool) `{!StrictWeak less}.

(** [x] may come before [y]. *)
Definition le (x y : T) : Prop := less y x = false.

Lemma le_refl x : le x x.
Proof. apply sw_irrefl. Qed.

Lemma le_trans x y z : le x y → le y z → le x z.
Proof.
  unfold le. intros Hxy Hyz. destruct (less z x) eqn:E; [|done].
  destruct (sw_split z y x E); congruence.
Qed.

Lemma less_le x y : less x y = true → le x y.
Proof.
  unfold le. intros Hxy. destruct (less y x) eqn:E; [|done].
  pose proof (sw_trans _ _ _ Hxy E). by rewrite sw_irrefl in *.
Qed.

Lemma le_total x y : le x y ∨ le y x.
Proof. destruct (less y x) eqn:E; [right; by apply less_le|by left]. Qed.
End order.

(** ** Ranges of slots *)

(** Every slot of the range holds an object. *)
Definition valid {T} (b e : Z) (l : list (option T)) : Prop :=
  ∀ i, b ≤ i < e → ∃ x, l !! i = Some (Some x).

Definition sorted {T} (less : T → T → bool) (b e : Z) (l : list (option T)) : Prop :=
  ∀ i j x y, b ≤ i < j → j < e → l !! i = Some (Some x) → l !! j = Some (Some y) → le less x y.

(** [d] describes a range of [l] with a free slot after it, and compares with [less]. *)
Record usable {World T} (d : SortData World T) (less : T → T → bool) (l : list (option T)) : Prop := {
  us_cmp : ∀ x y, compareVal d x y = Ret (less x y);
  us_begin : 0 ≤ begin d;
  us_range : begin d ≤ end_ d;
  us_scratch : end_ d ≤ scratch d;
  us_room : scratch d < zlen l;
  us_bound : zlen l < 2 ^ 62;
  us_valid : valid (begin d) (end_ d) l;
}.

Section basics.
Context {World T : Type} (less : T → T → bool) `{!StrictWeak less}.
Implicit Types (d : SortData World T) (l : list (option T)).

Lemma slot_Some l i (x : T) : l !! i = Some (Some x) → slot l i = Ret x.
Proof. intros H. unfold slot. by rewrite (aget_Some _ _ _ H). Qed.

Lemma compare_Ret d l i j x y :
  (∀ x y, compareVal d x y = Ret (less x y)) →
  l !! i = Some (Some x) → l !! j = Some (Some y) → compare d l i j = Ret (less x y).
Proof. intros Hc Hi Hj. unfold compare. rewrite (slot_Some _ _ _ Hi), (slot_Some _ _ _ Hj). apply Hc. Qed.

Lemma move_Ret l i j o :
  i ≠ j → 0 ≤ i < zlen l → l !! j = Some o → move l i j = Ret (<[i := o]> l).
Proof.
  intros Hne Hi Hj. unfold move. destruct (Z.eqb_spec i j); [done|].
  rewrite (aget_Some _ _ _ Hj). cbn. by rewrite aset_in.
Qed.

Lemma valid_permutes b e l l' :
  0 ≤ b ≤ e → e ≤ zlen l → permutes b e l l' → valid b e l → valid b e l'.
Proof.
  intros Hb He Hp Hv i Hi. pose proof (zlen_permutes _ _ _ _ Hp) as Hl.
  destruct (lookupZ_lt_Some l' i) as [o Ho]; [lia|].
  destruct (permutes_back b e l l' i o Hb He Hp Hi Ho) as (j & Hj & Ej).
  destruct (Hv j Hj) as [x Hx]. exists x. congruence.
Qed.

Lemma valid_insert b e l s o :
  ¬ (b ≤ s < e) → valid b e l → valid b e (<[s := o]> l).
Proof. intros Hs Hv i Hi. rewrite lookupZ_insert_ne by lia. by apply Hv. Qed.

Lemma valid_shuffles s b e l l' :
  0 ≤ b ≤ e → e ≤ zlen l → ¬ (b ≤ s < e) → shuffles s b e l l' → valid b e l → valid b e l'.
Proof.
  intros Hb He Hs [y Hp] Hv. eapply valid_permutes; [done| |exact Hp|by apply valid_insert].
  by rewrite zlen_insert.
Qed.

(** The range stays usable when it is shuffled. *)
Lemma usable_shuffles d b e l l' :
  usable d less l → shuffles (scratch d) b e l l' → begin d ≤ b → e ≤ end_ d → usable d less l'.
Proof.
  intros [] Hs ? ?. pose proof (shuffles_zlen _ _ _ _ _ Hs) as Hl.
  split; try done; try lia.
  eapply (valid_shuffles (scratch d)); [lia| |lia| |done]; [lia|]. by eapply shuffles_weaken.
Qed.

Lemma sorted_weaken b e b' e' l : b ≤ b' → e' ≤ e → sorted less b e l → sorted less b' e' l.
Proof. intros ? ? H i j x y Hi Hj. apply H; lia. Qed.
End basics.

(** ** Insertion sort *)
Section insertion.
Context {World T : Type} (less : T → T → bool) `{!StrictWeak less}.
Implicit Types (d : SortData World T) (l : list (option T)).

(** The element [x] taken out of [b, t] leaves a hole at [to]; what is right of the
    hole is above [x]. *)
Record hole (b t to : Z) (x : T) (w0 l : list (option T)) : Prop := {
  ho_perm : permutes b (t + 1) w0 (<[to := Some x]> l);
  ho_sorted : ∀ i j u v, b ≤ i < j → j ≤ t → i ≠ to → j ≠ to →
    l !! i = Some (Some u) → l !! j = Some (Some v) → le less u v;
  ho_above : ∀ j u, to < j ≤ t → l !! j = Some (Some u) → less x u = true;
}.

Lemma hole_valid b t to x w0 l :
  0 ≤ b → b ≤ to ≤ t → t < zlen l → valid b (t + 1) w0 → hole b t to x w0 l →
  ∀ i, b ≤ i ≤ t → i ≠ to → ∃ u, l !! i = Some (Some u).
Proof.
  intros Hb Hto Ht Hv [Hp _ _] i Hi Hne.
  pose proof (zlen_permutes _ _ _ _ Hp) as Hl. rewrite zlen_insert in Hl.
  destruct (valid_permutes b (t + 1) w0 _ ltac:(lia) ltac:(lia) Hp Hv i ltac:(lia)) as [u Hu].
  rewrite lookupZ_insert_ne in Hu by done. eauto.
Qed.

(** One step of the hole to the left. *)
Lemma hole_step b t to x w0 l u :
  0 ≤ b → b < to ≤ t → t < zlen l → hole b t to x w0 l →
  l !! (to - 1) = Some (Some u) → less x u = true →
  hole b t (to - 1) x w0 (<[to := Some u]> l).
Proof.
  intros Hb Hto Ht [Hp Hs Ha] Hu Hless. split.
  - eapply permutes_trans; [exact Hp|]. apply permutes_hole; (lia || done).
  - intros i j u' v Hi Hj Hni Hnj Hiu Hjv.
    rewrite lookupZ_insert in Hiu by lia. rewrite lookupZ_insert in Hjv by lia.
    destruct (decide (to = i)) as [<-|], (decide (to = j)) as [<-|]; simplify_eq; try lia.
    + apply (Hs (to - 1) j); (lia || done).
    + apply (Hs i (to - 1)); (lia || done).
    + apply (Hs i j); (lia || done).
  - intros j v Hj Hjv. rewrite lookupZ_insert in Hjv by lia.
    destruct (decide (to = j)) as [<-|]; simplify_eq; [done|]. apply (Ha j v); [lia|done].
Qed.

(** Where the hole stops, [x] fits. *)
Lemma hole_stop b t to x w0 l :
  0 ≤ b → b ≤ to ≤ t → t < zlen l → hole b t to x w0 l →
  (b < to → ∀ u, l !! (to - 1) = Some (Some u) → less x u = false) →
  valid b (t + 1) w0 →
  sorted less b (t + 1) (<[to := Some x]> l).
Proof.
  intros Hb Hto Ht Hh Hstop Hv i j u v Hi Hj Hiu Hjv.
  pose proof (hole_valid b t to x w0 l Hb Hto Ht Hv Hh) as Hval. destruct Hh as [Hp Hs Ha].
  rewrite lookupZ_insert in Hiu by lia. rewrite lookupZ_insert in Hjv by lia.
  destruct (decide (to = i)) as [<-|], (decide (to = j)) as [<-|]; simplify_eq; try lia.
  - apply less_le; [done|]. by apply (Ha j); [lia|].
  - destruct (Hval (to - 1)) as [w Hw]; [lia|lia|].
    assert (le less w v) by (apply Hstop; (lia || done)).
    destruct (decide (i = to - 1)) as [->|]; [by simplify_eq|].
    apply (le_trans less u w v); [|done]. apply (Hs i (to - 1)); (lia || done).
  - apply (Hs i j); (lia || done).
Qed.

Lemma shiftRight_spec fuel d t to x w0 l :
  (∀ x y, compareVal d x y = Ret (less x y)) →
  0 ≤ begin d → begin d < to ≤ t → t < scratch d < zlen l → (Z.to_nat (to - begin d) < S fuel)%nat →
  valid (begin d) (t + 1) w0 → hole (begin d) t to x w0 l → l !! scratch d = Some (Some x) →
  (∀ u, l !! (to - 1) = Some (Some u) → less x u = true) →
  returns (shiftRight fuel d l to) (λ '(l', to'),
    begin d ≤ to' ≤ t ∧ l' !! scratch d = Some (Some x) ∧
    permutes (begin d) (t + 1) w0 (<[to' := Some x]> l') ∧
    sorted less (begin d) (t + 1) (<[to' := Some x]> l')).
Proof.
  intros Hc Hb. revert to l. induction fuel as [|fuel IH]; intros to l Hto Hs Hf Hv Hh Hx Hless; [lia|].
  cbn [shiftRight].
  destruct (hole_valid (begin d) t to x w0 l Hb ltac:(lia) ltac:(lia) Hv Hh (to - 1)) as [u Hu]; [lia|lia|].
  rewrite (move_Ret l to (to - 1) (Some u)) by (lia || done). cbn [mbind outcome_bind].
  pose proof (hole_step (begin d) t to x w0 l u Hb ltac:(lia) ltac:(lia) Hh Hu (Hless u Hu)) as Hh'.
  set (l' := <[to := Some u]> l) in *.
  assert (zlen l' = zlen l) as Hl' by apply zlen_insert.
  assert (l' !! scratch d = Some (Some x)) as Hx' by (unfold l'; by rewrite lookupZ_insert_ne by lia).
  destruct (Z.ltb_spec (begin d) (to - 1)) as [Hlt|Hge].
  - destruct (hole_valid (begin d) t (to - 1) x w0 l' Hb ltac:(lia) ltac:(lia) Hv Hh' (to - 1 - 1)) as [u' Hu']; [lia|lia|].
    rewrite (compare_Ret less d l' (scratch d) (to - 1 - 1) x u') by done. cbn [mbind outcome_bind].
    destruct (less x u') eqn:E.
    + apply IH; try done; try lia. intros u'' Hu''. congruence.
    + cbn. split_and!; try lia; [done|apply (ho_perm _ _ _ _ _ _ Hh')|].
      apply (hole_stop _ _ _ _ w0); try done; try lia. intros _ u'' Hu''. congruence.
  - cbn. split_and!; try lia; [done|apply (ho_perm _ _ _ _ _ _ Hh')|].
    apply (hole_stop _ _ _ _ w0); try done; lia.
Qed.

Lemma insertOne_spec d l t :
  usable d less l → begin d < t < end_ d → sorted less (begin d) t l →
  returns (insertOne d l t) (λ l',
    shuffles (scratch d) (begin d) (t + 1) l l' ∧ sorted less (begin d) (t + 1) l').
Proof.
  intros Hu Ht Hs. pose proof Hu as [Hc Hb Hr Hsc Hroom Hbd Hv]. unfold insertOne.
  destruct (Hv t) as [x Hx]; [lia|]. destruct (Hv (t - 1)) as [y Hy]; [lia|].
  destruct (lookupZ_lt_Some l (scratch d)) as [o Ho]; [lia|].
  rewrite (compare_Ret less d l t (t - 1) x y) by done. cbn [mbind outcome_bind].
  destruct (less x y) eqn:E.
  - rewrite (move_Ret l (scratch d) t (Some x)) by (lia || done). cbn [mbind outcome_bind].
    set (l1 := <[scratch d := Some x]> l). assert (zlen l1 = zlen l) as Hl1 by apply zlen_insert.
    assert (l1 !! scratch d = Some (Some x)) as Hx1 by (apply lookupZ_insert_eq; lia).
    assert (∀ i, i ≠ scratch d → l1 !! i = l !! i) as Hi1 by (intros; by apply lookupZ_insert_ne).
    assert (<[t := Some x]> l1 = l1) as Hid by (apply list_insertZ_id; rewrite Hi1; (lia || done)).
    eapply returns_bind.
    + apply (shiftRight_spec (length l1) d t t x l1 l1); try done; try lia.
      * unfold zlen in *. lia.
      * intros i Hi. rewrite Hi1 by lia. apply Hv. lia.
      * split; [rewrite Hid; apply permutes_refl| |lia].
        intros i j u v Hi Hj _ Hjt Hiu Hjv. rewrite Hi1 in Hiu by lia. rewrite Hi1 in Hjv by lia.
        apply (Hs i j); (lia || done).
      * intros u Hu'. rewrite Hi1 in Hu' by lia. congruence.
    + intros [l2 to] (Hto & Hx2 & Hp & Hs2).
      pose proof (zlen_permutes _ _ _ _ Hp) as Hl2. rewrite zlen_insert in Hl2.
      rewrite (move_Ret l2 to (scratch d) (Some x)) by (lia || done). cbn. split; [|done].
      by exists (Some x).
  - cbn. split; [by eapply shuffles_refl|]. intros i j u v Hi Hj Hiu Hjv.
    destruct (decide (j = t)) as [->|]; [|apply (Hs i j); (lia || done)].
    assert (le less y x) by done. assert (v = x) as -> by congruence.
    destruct (decide (i = t - 1)) as [->|]; [congruence|].
    apply (le_trans less u y x); [|done]. apply (Hs i (t - 1)); (lia || done).
Qed.

(** [insertionSort] sorts the range. *)
Lemma insertionSort_spec d l :
  usable d less l →
  returns (insertionSort d l) (λ l',
    shuffles (scratch d) (begin d) (end_ d) l l' ∧ sorted less (begin d) (end_ d) l').
Proof.
  intros Hu. pose proof Hu as [Hc Hb Hr Hsc Hroom Hbd Hv]. unfold insertionSort.
  destruct (lookupZ_lt_Some l (scratch d)) as [o Ho]; [lia|].
  destruct (decide (end_ d ≤ begin d + 1)) as [Hsm|Hlg].
  { replace (Z.to_nat (end_ d - (begin d + 1))) with O by lia. cbn.
    split; [by eapply shuffles_refl|]. intros i j. lia. }
  eapply returns_mono.
  - apply (returns_for_loop (λ t l', shuffles (scratch d) (begin d) t l l' ∧
      sorted less (begin d) t l')).
    { split; [by eapply shuffles_refl|]. intros i j. lia. }
    intros t l' Ht [Hsh Hso].
    assert (usable d less l') as Hu' by (eapply (usable_shuffles less d (begin d) t l); (done || lia)).
    eapply returns_mono; [apply (insertOne_spec d l' t); [done|lia|done]|].
    intros l'' [Hsh' Hso']. split; [|done].
    eapply (shuffles_trans _ _ _ l l'); [lia|lia| |done]. eapply shuffles_weaken; [| |exact Hsh]; lia.
  - intros l'. by replace (begin d + 1 + Z.of_nat (Z.to_nat (end_ d - (begin d + 1)))) with (end_ d) by lia.
Qed.
End insertion.

(** ** Partitioning *)
Section partition.
Context {World T : Type} (less : T → T → bool) `{!StrictWeak less}.
Implicit Types (d : SortData World T) (l : list (option T)).

(** The pivot [x] is in the scratch slot and leaves a hole at [h]; what is left of
    [lo] is not above it, what is right of [hi] is not below it. *)
Record parting d (x : T) (w0 l : list (option T)) (h lo hi : Z) : Prop := {
  pt_range : begin d ≤ lo ≤ hi ∧ hi < end_ d;
  pt_perm : permutes (begin d) (end_ d) w0 (<[h := Some x]> l);
  pt_len : zlen l = zlen w0;
  pt_pivot : l !! scratch d = Some (Some x);
  pt_below : ∀ i u, begin d ≤ i < lo → l !! i = Some (Some u) → le less u x;
  pt_above : ∀ i u, hi < i < end_ d → l !! i = Some (Some u) → le less x u;
}.

Context (d : SortData World T) (w0 : list (option T)) (x : T).
Context (Hu : usable d less w0).

Lemma parting_valid l h lo hi i :
  parting d x w0 l h lo hi → begin d ≤ i < end_ d → i ≠ h → ∃ u, l !! i = Some (Some u).
Proof using Hu.
  intros [Hr Hp Hl _ _ _] Hi Hne. destruct Hu as [Hc Hb Hrg Hsc Hroom Hbd Hv].
  destruct (valid_permutes (begin d) (end_ d) w0 _ ltac:(lia) ltac:(lia) Hp Hv i Hi) as [u Hu'].
  rewrite lookupZ_insert_ne in Hu' by done. eauto.
Qed.

Lemma scanRight_spec fuel l lo hi :
  parting d x w0 l lo lo hi → hi - lo < Z.of_nat fuel →
  returns (scanRight fuel d l lo hi) (λ hi', lo ≤ hi' ≤ hi ∧ parting d x w0 l lo lo hi' ∧
    (lo < hi' → ∀ u, l !! hi' = Some (Some u) → less u x = true)).
Proof using Hu.
  revert hi. induction fuel as [|fuel IH]; intros hi Hp Hf; [pose proof (pt_range _ _ _ _ _ _ _ Hp); lia|].
  cbn [scanRight]. pose proof (pt_range _ _ _ _ _ _ _ Hp) as Hr.
  destruct (Z.ltb_spec lo hi) as [Hlt|Hge]; [|cbn; split_and!; try done; lia].
  destruct (parting_valid l lo lo hi hi Hp) as [u Hu']; [lia|lia|].
  rewrite (compare_Ret less d l hi (scratch d) u x); [|apply Hu|done|apply Hp]. cbn [mbind outcome_bind].
  destruct (less u x) eqn:E.
  - cbn. split_and!; try done; try lia. intros _ u' ?. congruence.
  - eapply returns_mono; [apply (IH (hi - 1))|].
    + destruct Hp as [? ? ? ? ? Ha]. split; try done; try lia. intros i u' Hi Hiu.
      destruct (decide (i = hi)) as [->|]; [|apply (Ha i); (lia || done)].
      assert (u' = u) as -> by congruence. done.
    + lia.
    + intros hi' (? & ? & ?). split_and!; try done; lia.
Qed.

Lemma scanLeft_spec fuel l lo hi :
  parting d x w0 l hi lo hi → hi - lo < Z.of_nat fuel →
  returns (scanLeft fuel d l lo hi) (λ lo', lo ≤ lo' ≤ hi ∧ parting d x w0 l hi lo' hi ∧
    (lo' < hi → ∀ u, l !! lo' = Some (Some u) → less x u = true)).
Proof using Hu.
  revert lo. induction fuel as [|fuel IH]; intros lo Hp Hf; [pose proof (pt_range _ _ _ _ _ _ _ Hp); lia|].
  cbn [scanLeft]. pose proof (pt_range _ _ _ _ _ _ _ Hp) as Hr.
  destruct (Z.ltb_spec lo hi) as [Hlt|Hge]; [|cbn; split_and!; try done; lia].
  destruct (parting_valid l hi lo hi lo Hp) as [u Hu']; [lia|lia|].
  rewrite (compare_Ret less d l (scratch d) lo x u); [|apply Hu|apply Hp|done]. cbn [mbind outcome_bind].
  destruct (less x u) eqn:E.
  - cbn. split_and!; try done; try lia. intros _ u' ?. congruence.
  - eapply returns_mono; [apply (IH (lo + 1))|].
    + destruct Hp as [? ? ? ? Hbl ?]. split; try done; try lia. intros i u' Hi Hiu.
      destruct (decide (i = lo)) as [->|]; [|apply (Hbl i); (lia || done)].
      assert (u' = u) as -> by congruence. done.
    + lia.
    + intros lo' (? & ? & ?). split_and!; try done; lia.
Qed.

(** An element below the pivot goes into the hole on the left, the hole to its
    place; and the other way around. *)
Lemma parting_left l lo hi :
  parting d x w0 l lo lo hi → lo < hi → (∀ u, l !! hi = Some (Some u) → less u x = true) →
  ∃ u, l !! hi = Some (Some u) ∧ parting d x w0 (<[lo := Some u]> l) hi (lo + 1) hi.
Proof using Hu StrictWeak0.
  intros Hp Hlt Hless. destruct Hu as [Hc Hb Hrg Hsc Hroom Hbd Hv].
  destruct (parting_valid l lo lo hi hi Hp) as [u Hu']; [destruct Hp; lia|lia|].
  exists u. split; [done|]. destruct Hp as [Hr Hp Hl Hx Hbl Ha]. split.
  - lia.
  - eapply permutes_trans; [exact Hp|]. apply permutes_hole; (lia || done).
  - by rewrite zlen_insert.
  - by rewrite lookupZ_insert_ne by lia.
  - intros i w Hi Hiw. rewrite lookupZ_insert in Hiw by lia. case_decide; simplify_eq.
    + by apply less_le, Hless.
    + apply (Hbl i w); [lia|done].
  - intros i w Hi Hiw. rewrite lookupZ_insert_ne in Hiw by lia. by apply (Ha i).
Qed.

Lemma parting_right l lo hi :
  parting d x w0 l hi lo hi → lo < hi → (∀ u, l !! lo = Some (Some u) → less x u = true) →
  ∃ u, l !! lo = Some (Some u) ∧ parting d x w0 (<[hi := Some u]> l) lo lo (hi - 1).
Proof using Hu StrictWeak0.
  intros Hp Hlt Hless. destruct Hu as [Hc Hb Hrg Hsc Hroom Hbd Hv].
  destruct (parting_valid l hi lo hi lo Hp) as [u Hu']; [destruct Hp; lia|lia|].
  exists u. split; [done|]. destruct Hp as [Hr Hp Hl Hx Hbl Ha]. split.
  - lia.
  - eapply permutes_trans; [exact Hp|]. apply permutes_hole; (lia || done).
  - by rewrite zlen_insert.
  - by rewrite lookupZ_insert_ne by lia.
  - intros i w Hi Hiw. rewrite lookupZ_insert_ne in Hiw by lia. by apply (Hbl i).
  - intros i w Hi Hiw. rewrite lookupZ_insert in Hiw by lia. case_decide; simplify_eq.
    + by apply less_le, Hless.
    + apply (Ha i w); [lia|done].
Qed.

Lemma partitionLoop_spec fuel l lo hi :
  parting d x w0 l lo lo hi → hi - lo < Z.of_nat fuel →
  returns (partitionLoop fuel d l lo hi) (λ '(l', p), parting d x w0 l' p p p).
Proof using Hu StrictWeak0.
  revert l lo hi. induction fuel as [|fuel IH]; intros l lo hi Hp Hf;
    [pose proof (pt_range _ _ _ _ _ _ _ Hp); lia|].
  cbn [partitionLoop]. pose proof (pt_range _ _ _ _ _ _ _ Hp) as Hr.
  pose proof Hu as [Hc Hb Hrg Hsc Hroom Hbd Hv]. pose proof (pt_len _ _ _ _ _ _ _ Hp) as Hl.
  destruct (Z.ltb_spec lo hi) as [Hlt|Hge].
  2:{ cbn. assert (lo = hi) as <- by lia. done. }
  eapply returns_bind; [apply (scanRight_spec _ l lo hi Hp); unfold zlen in *; lia|].
  intros hi1 (Hh1 & Hp1 & Hless1). destruct (Z.ltb_spec lo hi1) as [Hlt1|Hge1].
  - destruct (parting_left l lo hi1 Hp1 Hlt1 (Hless1 Hlt1)) as (u & Hu1 & Hp2).
    rewrite (move_Ret l lo hi1 (Some u)) by (lia || done). cbn [mbind outcome_bind].
    set (l1 := <[lo := Some u]> l) in *. pose proof (pt_len _ _ _ _ _ _ _ Hp2) as Hl1.
    eapply returns_bind; [apply (scanLeft_spec _ l1 (lo + 1) hi1 Hp2); unfold zlen in *; lia|].
    intros lo2 (Hh2 & Hp3 & Hless2). destruct (Z.ltb_spec lo2 hi1) as [Hlt2|Hge2].
    + destruct (parting_right l1 lo2 hi1 Hp3 Hlt2 (Hless2 Hlt2)) as (u' & Hu2 & Hp4).
      rewrite (move_Ret l1 hi1 lo2 (Some u')) by (lia || done). cbn [mbind outcome_bind].
      apply IH; [done|lia].
    + assert (lo2 = hi1) as -> by lia. cbn [mbind outcome_bind]. apply IH; [done|lia].
  - assert (hi1 = lo) as -> by lia. cbn [mbind outcome_bind].
    assert (scanLeft (S (length l)) d l lo lo = Ret lo) as ->.
    { cbn [scanLeft]. destruct (Z.ltb_spec lo lo); [lia|done]. }
    cbn [mbind outcome_bind]. destruct (Z.ltb_spec lo lo); [lia|]. cbn [mbind outcome_bind].
    apply IH; [done|lia].
Qed.
End partition.

Section quicksort.
Context {World T : Type} (less : T → T → bool) `{!StrictWeak less}.
Implicit Types (d : SortData World T) (l : list (option T)).

(** [p] splits the range: nothing before it is above, nothing after it is below. *)
Definition split_at (b e p : Z) l : Prop :=
  b ≤ p < e ∧ ∀ i j u v, b ≤ i ≤ p → p ≤ j < e →
    l !! i = Some (Some u) → l !! j = Some (Some v) → le less u v.

Lemma partition_spec d l pivot :
  usable d less l → begin d ≤ pivot < end_ d →
  returns (partition d l pivot) (λ '(l', p),
    shuffles (scratch d) (begin d) (end_ d) l l' ∧ split_at (begin d) (end_ d) p l').
Proof.
  intros Hu Hpv. pose proof Hu as [Hc Hb Hrg Hsc Hroom Hbd Hv]. unfold partition.
  destruct (Hv pivot Hpv) as [x Hx]. destruct (Hv (begin d)) as [y Hy]; [lia|].
  rewrite (move_Ret l (scratch d) pivot (Some x)) by (lia || done). cbn [mbind outcome_bind].
  set (w0 := <[scratch d := Some x]> l). assert (zlen w0 = zlen l) as Hl0 by apply zlen_insert.
  assert (∀ i, i ≠ scratch d → w0 !! i = l !! i) as Hi0 by (intros; by apply lookupZ_insert_ne).
  assert (usable d less w0) as Hu0.
  { split; try done; try lia. apply valid_insert; [lia|done]. }
  assert (∃ l1, (if pivot =? begin d then Ret w0 else move w0 pivot (begin d)) = Ret l1 ∧
    parting less d x w0 l1 (begin d) (begin d) (end_ d - 1)) as (l1 & -> & Hp1).
  { destruct (Z.eqb_spec pivot (begin d)) as [->|Hne].
    - exists w0. split; [done|]. split; try lia; [|by apply lookupZ_insert_eq; lia].
      rewrite list_insertZ_id; [apply permutes_refl|]. rewrite Hi0; [done|lia].
    - assert (w0 !! begin d = Some (Some y)) as Hy0 by (rewrite Hi0; [done|lia]).
      rewrite (move_Ret w0 pivot (begin d) (Some y)) by (lia || done).
      eexists. split; [done|]. split; try lia.
      + assert (w0 = <[pivot := Some x]> w0) as Hw.
        { symmetry. apply list_insertZ_id. rewrite Hi0; [done|lia]. }
        rewrite Hw at 1. apply permutes_hole; (lia || done).
      + by rewrite zlen_insert.
      + rewrite lookupZ_insert_ne by lia. apply lookupZ_insert_eq. lia. }
  cbn [mbind outcome_bind]. pose proof (pt_len _ _ _ _ _ _ _ _ Hp1) as Hl1.
  eapply returns_bind; [apply (partitionLoop_spec less d w0 x Hu0 _ _ _ _ Hp1); unfold zlen in *; lia|].
  intros [l2 p] [Hr Hp Hl2 Hx2 Hbl Ha].
  rewrite (move_Ret l2 p (scratch d) (Some x)) by (lia || done). cbn. split; [by exists (Some x)|].
  split; [lia|].
  assert (∀ i u, begin d ≤ i ≤ p → <[p := Some x]> l2 !! i = Some (Some u) → le less u x) as H1.
  { intros i u Hi. rewrite lookupZ_insert by lia. case_decide; intros ?; simplify_eq; [by apply le_refl|].
    apply (Hbl i); [lia|done]. }
  assert (∀ i u, p ≤ i < end_ d → <[p := Some x]> l2 !! i = Some (Some u) → le less x u) as H2.
  { intros i u Hi. rewrite lookupZ_insert by lia. case_decide; intros ?; simplify_eq; [by apply le_refl|].
    apply (Ha i); [lia|done]. }
  intros i j u v Hi Hj Hiu Hjv. apply (le_trans less u x v); [by apply (H1 i)|by apply (H2 j)].
Qed.

Lemma pickPivot_spec d l :
  usable d less l → begin d < end_ d →
  returns (pickPivot d l) (λ p, begin d ≤ p < end_ d).
Proof.
  intros [Hc Hb Hrg Hsc Hroom Hbd Hv] Hne. unfold pickPivot. cbn zeta.
  set (c := (end_ d - 1 - begin d) `div` 2 + begin d).
  assert (begin d ≤ c < end_ d) as Hcr.
  { pose proof (Z.div_mod (end_ d - 1 - begin d) 2 ltac:(lia)).
    pose proof (Z.mod_pos_bound (end_ d - 1 - begin d) 2 ltac:(lia)). lia. }
  destruct ((begin d =? c) || (end_ d - 1 =? c)); [done|].
  destruct (Hv (begin d)) as [x Hx]; [lia|]. destruct (Hv (end_ d - 1)) as [y Hy]; [lia|].
  destruct (Hv c) as [z Hz]; [lia|].
  rewrite (compare_Ret less d l (begin d) (end_ d - 1) x y) by done. cbn [mbind outcome_bind].
  destruct (less x y).
  - rewrite (compare_Ret less d l (end_ d - 1) c y z) by done. cbn [mbind outcome_bind].
    destruct (less y z); [cbn; lia|]. rewrite (compare_Ret less d l c (begin d) z x) by done. cbn.
    destruct (less z x); lia.
  - rewrite (compare_Ret less d l c (end_ d - 1) z y) by done. cbn [mbind outcome_bind].
    destruct (less z y); [cbn; lia|]. rewrite (compare_Ret less d l (begin d) c x z) by done. cbn.
    destruct (less x z); lia.
Qed.
End quicksort.
