(* ===== verification/HeapProofs.v ===== *)
(** * Heaps

    The heap routines of [Core/Sort.cpp]: [siftDown], [makeHeap], [heapInsert],
    [heapRemove] and [heapSort] keep or establish the heap order, rearrange only the
    range they are given (and the scratch slot), and sort. *)

From stdpp Require Import base list numbers option decidable.
From Stdlib Require Import ZArith Lia.
From S2P Require Import Prelude Handle Sort Ranges SortProofs.
Import Sort.

(** ** Positions in the tree rooted at [b] *)

Definition par (b i : Z) : Z := (i - b - 1) `div` 2 + b.

Lemma par_range b i : b < i → b ≤ par b i < i.
Proof. unfold par. intros. Z.to_euclidean_division_equations. lia. Qed.

Lemma par_children b i a :
  b < i → par b i = a ↔ i = (a - b) * 2 + 1 + b ∨ i = (a - b) * 2 + 2 + b.
Proof. unfold par. intros. Z.to_euclidean_division_equations. lia. Qed.

Lemma par_mono b i j : i ≤ j → par b i ≤ par b j.
Proof. unfold par. intros. Z.to_euclidean_division_equations. lia. Qed.

(** In [b, n), no child of a node at or after [t] is above it. *)
Definition heap_from {T} (less : T → T → bool) (b n t : Z) (l : list (option T)) : Prop :=
  ∀ i x y, b < i < n → t ≤ par b i → l !! i = Some (Some x) → l !! par b i = Some (Some y) →
    le less x y.

Definition heap {T} (less : T → T → bool) (b n : Z) (l : list (option T)) : Prop :=
  heap_from less b n b l.

Section heap.
Context {World T : Type} (less : T → T → bool) `{!StrictWeak less}.
Implicit Types (d : SortData World T) (l : list (option T)).

Lemma left_eq d i :
  0 ≤ begin d ≤ i → i < 2 ^ 62 → left d i = (i - begin d) * 2 + 1 + begin d.
Proof. intros. unfold left. rewrite (u64_small (i - begin d)) by zsolve. apply u64_small. zsolve. Qed.

Lemma right_eq d i :
  0 ≤ begin d ≤ i → i < 2 ^ 62 → right d i = (i - begin d) * 2 + 2 + begin d.
Proof. intros. unfold right. rewrite (u64_small (i - begin d)) by zsolve. apply u64_small. zsolve. Qed.

Lemma parent_eq d i :
  0 ≤ begin d < i → i < 2 ^ 62 → parent d i = par (begin d) i.
Proof.
  intros. unfold parent. rewrite (u64_small (i - begin d - 1)) by zsolve. apply u64_small.
  pose proof (par_range (begin d) i). unfold par in *. zsolve.
Qed.

(** The root of a heap is not below any element. *)
Lemma heap_root b n l i x r :
  heap less b n l → valid b n l → b ≤ i < n →
  l !! b = Some (Some r) → l !! i = Some (Some x) → le less x r.
Proof.
  intros Hh Hv Hi Hr. revert x Hi. induction i as [i IH] using (well_founded_induction (Z.lt_wf b)).
  intros x Hi Hx. destruct (decide (i = b)) as [->|Hne].
  { assert (x = r) as -> by congruence. by apply le_refl. }
  pose proof (par_range b i ltac:(lia)) as Hp. destruct (Hv (par b i)) as [y Hy]; [lia|].
  apply (le_trans less x y r); [|apply (IH (par b i)); (lia || done)].
  apply (Hh i); (lia || done).
Qed.

(** ** Sifting down *)

(** [x], kept in slot [elem], leaves a hole at [at_] in the heap [b, n).  The order
    holds between all other nodes at or after [top], and across the hole. *)
Record sifting (s b n top : Z) (x : T) (w0 l : list (option T)) (at_ elem : Z) : Prop := {
  sf_at : top ≤ at_ < n;
  sf_elem : l !! elem = Some (Some x);
  sf_place : elem = at_ ∨ ¬ (b ≤ elem < n);
  sf_perm : shuffles s b n w0 (<[at_ := Some x]> l);
  sf_len : zlen l = zlen w0;
  sf_order : ∀ i u v, b < i < n → top ≤ par b i → i ≠ at_ → par b i ≠ at_ →
    l !! i = Some (Some u) → l !! par b i = Some (Some v) → le less u v;
  sf_across : at_ ≠ top → ∀ i u v, b < i < n → par b i = at_ →
    l !! i = Some (Some u) → l !! par b at_ = Some (Some v) → le less u v;
  sf_up : at_ ≠ top → ∀ v, l !! par b at_ = Some (Some v) → le less x v;
}.

Section sift.
Context (s b n top : Z) (x : T) (w0 : list (option T)).
Context (Hb : 0 ≤ b ≤ top) (Hn : n ≤ s) (Hs : 0 ≤ s < zlen w0) (Hv : valid b n w0).

Lemma sifting_valid l at_ elem i :
  sifting s b n top x w0 l at_ elem → b ≤ i < n → i ≠ at_ → ∃ u, l !! i = Some (Some u).
Proof using Hb Hn Hs Hv.
  intros Hf Hi Hne. destruct (valid_shuffles s b n w0 _ ltac:(lia) ltac:(lia) ltac:(lia)
    (sf_perm _ _ _ _ _ _ _ _ _ Hf) Hv i Hi) as [u Hu].
  rewrite lookupZ_insert_ne in Hu by done. eauto.
Qed.

(** The scratch slot may be overwritten. *)
Lemma shuffles_scratch l l' o :
  zlen l = zlen w0 → shuffles s b n l l' → shuffles s b n l (<[s := o]> l').
Proof using Hn Hs.
  intros Hl [y Hp]. exists o. pose proof (permutes_insert b n (<[s := y]> l) l' s o) as H.
  rewrite list_insertZ_insert in H. apply H; [rewrite zlen_insert; lia|lia|done].
Qed.

(** The larger child [next] moves up, the hole down. *)
Lemma sift_step l at_ elem next c :
  sifting s b n top x w0 l at_ elem → b < next < n → par b next = at_ →
  l !! next = Some (Some c) → less x c = true →
  (∀ i u, b < i < n → par b i = at_ → l !! i = Some (Some u) → le less u c) →
  ∃ l' elem', (elem ≠ at_ → elem' = elem ∧ l' !! s = l !! s) ∧
    (∀ d : SortData World T, scratch d = s → movePreserve d l elem at_ next = Ret (l', elem')) ∧
    sifting s b n top x w0 l' next elem'.
Proof using Hb Hn Hs Hv StrictWeak0.
  intros Hf Hnx Hpar Hc Hless Hmax. pose proof Hf as [Hat Hel Hpl Hpm Hlen Hord Hac Hup].
  pose proof (par_range b next ltac:(lia)) as Hpr.
  set (elem' := if elem =? at_ then s else elem).
  set (l1 := if elem =? at_ then <[s := Some x]> l else l).
  assert (zlen l1 = zlen l) as Hl1 by (unfold l1; destruct (elem =? at_); [apply zlen_insert|done]).
  assert (∀ i, i < n → l1 !! i = l !! i) as Hi1.
  { intros i Hi. unfold l1. destruct (elem =? at_); [apply lookupZ_insert_ne; lia|done]. }
  assert (shuffles s b n w0 (<[at_ := Some x]> l1)) as Hpm1.
  { unfold l1. destruct (elem =? at_); [|done].
    rewrite list_insertZ_commute by lia. by apply shuffles_scratch. }
  assert (elem' ≠ at_ ∧ l1 !! elem' = Some (Some x)) as [Hne' Hel'].
  { unfold elem', l1. destruct (Z.eqb_spec elem at_); [|done]. split; [lia|].
    apply lookupZ_insert_eq. lia. }
  assert (l1 !! next = Some (Some c)) as Hc1 by (rewrite Hi1; [done|lia]).
  exists (<[at_ := Some c]> l1), elem'. split_and!.
  - intros Hne. unfold elem', l1. destruct (Z.eqb_spec elem at_); [done|].
    split; [done|]. by apply lookupZ_insert_ne; lia.
  - intros d Hd. unfold movePreserve.
    assert ((if elem =? at_ then l2 ← move l (scratch d) at_; Ret (l2, scratch d) else Ret (l, elem)) =
      Ret (l1, elem')) as ->.
    { unfold l1, elem'. destruct (Z.eqb_spec elem at_) as [->|]; [|done]. rewrite Hd.
      by rewrite (move_Ret l s at_ (Some x)) by (lia || done). }
    cbn [mbind outcome_bind]. by rewrite (move_Ret l1 at_ next (Some c)) by (lia || done).
  - assert (∀ i, i < n → <[at_ := Some c]> l1 !! i = if decide (at_ = i) then Some (Some c) else l !! i) as Hlk.
    { intros i Hi. rewrite lookupZ_insert by lia. by rewrite Hi1. }
    split.
    + lia.
    + by rewrite lookupZ_insert_ne.
    + right. unfold elem'. destruct (Z.eqb_spec elem at_); lia.
    + destruct Hpm1 as [y Hpm1]. exists y. eapply permutes_trans; [exact Hpm1|].
      apply permutes_hole; (lia || done).
    + by rewrite zlen_insert, Hl1.
    + intros i u v Hi Ht Hin Hpn Hu Hpv. pose proof (par_range b i ltac:(lia)) as Hpi.
      rewrite Hlk in Hu by lia. rewrite Hlk in Hpv by lia.
      destruct (decide (at_ = i)) as [<-|Hai].
      * destruct (decide (at_ = par b at_)); [lia|]. assert (u = c) as -> by congruence.
        apply (Hac ltac:(lia) next); (lia || done).
      * destruct (decide (at_ = par b i)) as [E|].
        -- assert (v = c) as -> by congruence. by apply (Hmax i).
        -- apply (Hord i); (lia || done).
    + intros _ i u v Hi Hpi Hu Hpv. rewrite Hlk in Hu by lia. rewrite Hlk in Hpv by lia.
      pose proof (par_range b i ltac:(lia)).
      rewrite decide_False in Hu by lia. rewrite decide_True in Hpv by lia.
      assert (v = c) as -> by congruence.
      apply (Hord i u c); try lia; [done|by rewrite Hpi].
    + intros _ v Hpv. rewrite Hlk in Hpv by lia. rewrite decide_True in Hpv by lia.
      assert (v = c) as -> by congruence. by apply less_le.
Qed.

(** Where neither child is above [x], it fits. *)
Lemma sift_stop l at_ elem :
  sifting s b n top x w0 l at_ elem →
  (∀ i u, b < i < n → par b i = at_ → l !! i = Some (Some u) → less x u = false) →
  heap_from less b n top (<[at_ := Some x]> l).
Proof using Hb Hn Hs.
  intros [Hat Hel Hpl Hpm Hlen Hord Hac Hup] Hstop i u v Hi Ht Hu Hpv.
  pose proof (par_range b i ltac:(lia)) as Hpi.
  rewrite lookupZ_insert in Hu by lia. rewrite lookupZ_insert in Hpv by lia.
  destruct (decide (at_ = i)) as [<-|Hai].
  - destruct (decide (at_ = par b at_)); [lia|]. assert (u = x) as -> by congruence.
    apply Hup; (lia || done).
  - destruct (decide (at_ = par b i)) as [E|].
    + assert (v = x) as -> by congruence. unfold le. by apply (Hstop i).
    + apply (Hord i); (lia || done).
Qed.
End sift.

Section siftDown.
Context (d : SortData World T) (n top : Z) (x : T) (w0 : list (option T)).
Context (Hcmp : ∀ x y, compareVal d x y = Ret (less x y)).
Context (Hb : 0 ≤ begin d ≤ top) (Hn : n ≤ end_ d ≤ scratch d).
Context (Hs : scratch d < zlen w0) (Hbd : zlen w0 < 2 ^ 62) (Hv : valid (begin d) n w0).

Abbreviation inv := (sifting (scratch d) (begin d) n top x w0).

(** Slots of the range after the heap hold [x] itself. *)
Abbreviation tail elem := (∀ i, n ≤ i < end_ d → i = elem).

Lemma notBelow_spec l at_ elem i :
  inv l at_ elem → tail elem → begin d ≤ i → i ≠ at_ →
  returns (notBelow d l elem i) (λ r,
    if r : bool then i < n → ∀ u, l !! i = Some (Some u) → less x u = false
    else i < n ∧ ∃ u, l !! i = Some (Some u) ∧ less x u = true).
Proof using Hcmp Hb Hn Hs Hv StrictWeak0.
  intros Hf Ht Hi Hne. unfold notBelow. destruct (Z.leb_spec (end_ d) i) as [|Hlt]; [cbn; lia|].
  pose proof (sf_elem _ _ _ _ _ _ _ _ _ Hf) as Hel.
  destruct (decide (i < n)) as [Hin|Hin].
  - destruct (sifting_valid (scratch d) (begin d) n top x w0 ltac:(lia) ltac:(lia)
      ltac:(destruct Hf; lia) Hv l at_ elem i Hf) as [u Hu]; [lia|done|].
    rewrite (compare_Ret less d l elem i x u) by done. cbn.
    destruct (less x u) eqn:E; cbn; [split; [done|eauto]|]. intros _ u' Hu'. congruence.
  - assert (i = elem) as -> by (apply Ht; lia).
    rewrite (compare_Ret less d l elem elem x x) by done. cbn. rewrite sw_irrefl. cbn. lia.
Qed.

(** The choice of the child to move: the larger one, if one of them is above [x]. *)
Lemma choose_spec l at_ elem :
  inv l at_ elem → tail elem →
  let lft := (at_ - begin d) * 2 + 1 + begin d in
  let rgt := (at_ - begin d) * 2 + 2 + begin d in
  returns (okL ← notBelow d l elem lft;
           ok ← (if okL : bool then notBelow d l elem rgt else Ret false);
           if ok : bool then Ret None
           else
             pickR ← (if rgt <? end_ d then compare d l lft rgt else Ret false);
             Ret (Some (if pickR : bool then rgt else lft))) (λ r,
    match r with
    | None => ∀ i u, begin d < i < n → par (begin d) i = at_ → l !! i = Some (Some u) → less x u = false
    | Some next => begin d < next < n ∧ par (begin d) next = at_ ∧
        ∃ c, l !! next = Some (Some c) ∧ less x c = true ∧
          ∀ i u, begin d < i < n → par (begin d) i = at_ → l !! i = Some (Some u) → le less u c
    end).
Proof using Hcmp Hb Hn Hs Hv StrictWeak0.
  intros Hf Ht lft rgt. pose proof (sf_at _ _ _ _ _ _ _ _ _ Hf) as Hat.
  assert (∀ i, begin d < i → par (begin d) i = at_ ↔ i = lft ∨ i = rgt) as Hch
    by (intros; by apply par_children).
  assert (∀ i, begin d ≤ i < n → i ≠ at_ → ∃ u, l !! i = Some (Some u)) as Hval.
  { intros i Hi Hne. by apply (sifting_valid (scratch d) (begin d) n top x w0 ltac:(lia) ltac:(lia)
      ltac:(lia) Hv l at_ elem i Hf). }
  pose proof (notBelow_spec l at_ elem lft Hf Ht ltac:(lia) ltac:(lia)) as HL.
  pose proof (notBelow_spec l at_ elem rgt Hf Ht ltac:(lia) ltac:(lia)) as HR.
  destruct (notBelow d l elem lft) as [okL| | |]; try done. cbn [mbind outcome_bind].
  destruct (notBelow d l elem rgt) as [okR| | |]; try done. cbn in HL, HR.
  assert ((if okL then Ret okR else Ret false) = Ret (okL && okR)) as -> by by destruct okL.
  cbn [mbind outcome_bind]. destruct (okL && okR) eqn:Eok.
  { apply andb_true_iff in Eok as [-> ->]. cbn. intros i u Hi Hpi Hu.
    apply Hch in Hpi as [->| ->]; [apply HL|apply HR|lia]; (lia || done). }
  assert ((lft < n ∧ ∃ u, l !! lft = Some (Some u) ∧ less x u = true) ∨
          (rgt < n ∧ ∃ u, l !! rgt = Some (Some u) ∧ less x u = true)) as Habove.
  { destruct okL, okR; try done; auto. }
  assert (lft < n) as Hln by (destruct Habove as [[? _]|[? _]]; lia).
  destruct (Hval lft) as [u Hu]; [lia|lia|].
  destruct (Z.ltb_spec rgt (end_ d)) as [Hre|Hre].
  - assert (∃ v, l !! rgt = Some (Some v) ∧ (rgt < n ∨ v = x)) as (v & Hv' & Hvx).
    { destruct (decide (rgt < n)); [destruct (Hval rgt) as [v ?]; [lia|lia|]; eauto|].
      exists x. split; [|by right]. rewrite (Ht rgt) by lia. apply Hf. }
    rewrite (compare_Ret less d l lft rgt u v) by done. cbn. destruct (less u v) eqn:E.
    + assert (rgt < n ∧ less x v = true) as [Hrn Hxv].
      { destruct Habove as [[_ (u' & Hu' & Hless)]|[Hrn (v' & Hv'' & Hless)]].
        - assert (u' = u) as -> by congruence. pose proof (sw_trans _ _ _ Hless E) as Hxv.
          destruct Hvx as [| ->]; [done|]. by rewrite sw_irrefl in Hxv.
        - split; [done|]. congruence. }
      split_and!; [lia..|apply Hch; [lia|auto]|]. exists v. split_and!; [done|done|].
      intros i w Hi Hpi Hw. apply Hch in Hpi as [->| ->]; [| |lia].
      * assert (w = u) as -> by congruence. by apply less_le.
      * assert (w = v) as -> by congruence. by apply le_refl.
    + assert (less x u = true) as Hxu.
      { destruct Habove as [[_ (u' & Hu' & Hless)]|[Hrn (v' & Hv'' & Hless)]]; [congruence|].
        assert (v' = v) as -> by congruence. destruct (sw_split x u v Hless); [done|congruence]. }
      split_and!; [lia..|apply Hch; [lia|auto]|]. exists u. split_and!; [done|done|].
      intros i w Hi Hpi Hw. apply Hch in Hpi as [->| ->]; [| |lia].
      * assert (w = u) as -> by congruence. by apply le_refl.
      * assert (w = v) as -> by congruence. done.
  - cbn. destruct Habove as [[_ (u' & Hu' & Hless)]|[Hrn _]]; [|lia].
    split_and!; [lia..|apply Hch; [lia|auto]|]. exists u'. split_and!; [done|done|].
    intros i w Hi Hpi Hw. apply Hch in Hpi as [->| ->]; [| |lia]; [|lia].
    assert (w = u') as -> by congruence. by apply le_refl.
Qed.

(** The loop body as a choice followed by a move. *)
Lemma siftDownLoop_unfold fuel l at_ elem :
  begin d ≤ at_ < end_ d → at_ < 2 ^ 62 →
  siftDownLoop (S fuel) d l at_ elem =
    (r ← (let lft := (at_ - begin d) * 2 + 1 + begin d in
          let rgt := (at_ - begin d) * 2 + 2 + begin d in
          okL ← notBelow d l elem lft;
          ok ← (if okL : bool then notBelow d l elem rgt else Ret false);
          if ok : bool then Ret None
          else
            pickR ← (if rgt <? end_ d then compare d l lft rgt else Ret false);
            Ret (Some (if pickR : bool then rgt else lft)));
     match r with
     | None => Ret (l, at_, elem)
     | Some next => '(l, elem) ← movePreserve d l elem at_ next; siftDownLoop fuel d l next elem
     end).
Proof using Hb.
  intros Hat H62. cbn [siftDownLoop]. destruct (Z.leb_spec (end_ d) at_); [lia|].
  rewrite left_eq, right_eq by lia. cbn zeta.
  destruct (notBelow d l elem ((at_ - begin d) * 2 + 1 + begin d)) as [okL| | |]; try done. cbn [mbind outcome_bind].
  destruct (if okL then notBelow d l elem ((at_ - begin d) * 2 + 2 + begin d) else Ret false) as [ok| | |]; try done.
  cbn [mbind outcome_bind]. destruct ok; [done|].
  by destruct (if (at_ - begin d) * 2 + 2 + begin d <? end_ d then _ else _) as [pickR| | |].
Qed.

Lemma siftDownLoop_spec fuel l at_ elem :
  inv l at_ elem → tail elem → n - at_ < Z.of_nat fuel →
  returns (siftDownLoop fuel d l at_ elem) (λ '(l', at', elem'),
    inv l' at' elem' ∧ heap_from less (begin d) n top (<[at' := Some x]> l') ∧
    (elem ≠ at_ → l' !! scratch d = l !! scratch d)).
Proof using Hcmp Hb Hn Hs Hv Hbd StrictWeak0.
  revert l at_ elem. induction fuel as [|fuel IH]; intros l at_ elem Hf Ht Hfu;
    [pose proof (sf_at _ _ _ _ _ _ _ _ _ Hf); lia|].
  pose proof (sf_at _ _ _ _ _ _ _ _ _ Hf) as Hat.
  rewrite siftDownLoop_unfold by lia.
  eapply returns_bind; [apply (choose_spec l at_ elem Hf Ht)|].
  intros [next|] Hr.
  - destruct Hr as (Hnx & Hpar & c & Hc & Hless & Hmax).
    destruct (sift_step (scratch d) (begin d) n top x w0 ltac:(lia) ltac:(lia) ltac:(lia) Hv
      l at_ elem next c Hf Hnx Hpar Hc Hless Hmax) as (l' & elem' & Hsame & Hmv & Hf').
    rewrite (Hmv d eq_refl). cbn [mbind outcome_bind].
    pose proof (par_range (begin d) next ltac:(lia)) as Hpr.
    eapply returns_mono; [apply (IH l' next elem' Hf')|].
    + intros i Hi. destruct (decide (elem = at_)) as [->|Hne]; [pose proof (Ht i Hi); lia|].
      destruct (Hsame Hne) as [-> _]. by apply Ht.
    + lia.
    + intros [[l2 at2] elem2] (? & ? & Hs2). split_and!; [done|done|]. intros Hne.
      destruct (Hsame Hne) as [-> <-]. apply Hs2.
      pose proof (sf_place _ _ _ _ _ _ _ _ _ Hf). lia.
  - cbn. split_and!; [done| |done].
    by apply (sift_stop (scratch d) (begin d) n top x w0 ltac:(lia) ltac:(lia) ltac:(lia) l at_ elem Hf).
Qed.
End siftDown.

(** [siftDown] puts the object of slot [elem] where it belongs in the tree below
    [top]. *)
Lemma siftDown_spec d n top elem x l :
  (∀ x y, compareVal d x y = Ret (less x y)) →
  0 ≤ begin d ≤ top → top < n → n ≤ end_ d ≤ scratch d → scratch d < zlen l → zlen l < 2 ^ 62 →
  (∀ i, n ≤ i < end_ d → i = elem) → elem = top ∨ ¬ (begin d ≤ elem < n) →
  l !! elem = Some (Some x) → valid (begin d) n (<[top := Some x]> l) →
  heap_from less (begin d) n (top + 1) l →
  returns (siftDown d l top elem) (λ l',
    shuffles (scratch d) (begin d) n (<[top := Some x]> l) l' ∧
    heap_from less (begin d) n top l' ∧
    (elem ≠ top → l' !! scratch d = l !! scratch d)).
Proof.
  intros Hcmp Hb Ht Hn Hs Hbd Htail Hpl Hel Hv Hh. unfold siftDown.
  set (w0 := <[top := Some x]> l). assert (zlen w0 = zlen l) as Hl0 by apply zlen_insert.
  destruct (lookupZ_lt_Some w0 (scratch d)) as [o Ho]; [lia|].
  eapply returns_bind.
  - apply (siftDownLoop_spec d n top x w0 Hcmp Hb Hn ltac:(lia) ltac:(lia) Hv _ l top elem);
      [|done|unfold zlen in *; lia].
    split; try done; try lia.
    + by eapply shuffles_refl.
    + intros i u v Hi Hp _ Hne Hu Hpv. apply (Hh i); (lia || done).
  - intros [[l1 at1] elem1] (Hf & Hh1 & Hsame). pose proof Hf as [Hat Hel1 Hpl1 Hpm Hlen _ _ _].
    assert (move l1 at1 elem1 = Ret (<[at1 := Some x]> l1)) as ->.
    { destruct (decide (at1 = elem1)) as [->|].
      - unfold move. rewrite Z.eqb_refl. by rewrite list_insertZ_id.
      - rewrite (move_Ret l1 at1 elem1 (Some x)) by (lia || done). done. }
    cbn. split_and!; [done|done|]. intros Hne. rewrite lookupZ_insert_ne by lia. by apply Hsame.
Qed.

(** ** Building a heap *)

Lemma makeHeapLoop_spec fuel d l top l0 :
  usable d less l → begin d ≤ top ≤ end_ d → top - begin d < Z.of_nat fuel →
  shuffles (scratch d) (begin d) (end_ d) l0 l → zlen l0 = zlen l →
  heap_from less (begin d) (end_ d) top l →
  returns (makeHeapLoop fuel d l top) (λ l',
    shuffles (scratch d) (begin d) (end_ d) l0 l' ∧ heap less (begin d) (end_ d) l').
Proof.
  revert l top. induction fuel as [|fuel IH]; intros l top Hu Ht Hf Hsh Hl0 Hh; [lia|].
  cbn [makeHeapLoop]. pose proof Hu as [Hc Hb Hrg Hsc Hroom Hbd Hv].
  destruct (Z.ltb_spec (begin d) top) as [Hlt|Hge].
  - rewrite (u64_small (top - 1)) by zsolve. destruct (Hv (top - 1)) as [x Hx]; [lia|].
    assert (<[top - 1 := Some x]> l = l) as Hid by (by apply list_insertZ_id).
    eapply returns_bind.
    + apply (siftDown_spec d (end_ d) (top - 1) (top - 1) x l); try done; try lia.
      * by rewrite Hid.
      * by replace (top - 1 + 1) with top by lia.
    + rewrite Hid. intros l1 (Hsh1 & Hh1 & _). pose proof (shuffles_zlen _ _ _ _ _ Hsh1).
      apply IH; try lia; [|by eapply shuffles_trans; [lia|lia|done|done]|done].
      eapply (usable_shuffles less d (begin d) (end_ d) l); (done || lia).
  - cbn. split; [done|]. assert (top = begin d) as -> by lia. done.
Qed.

Lemma makeHeap_spec d l :
  usable d less l → begin d < end_ d →
  returns (makeHeap d l) (λ l',
    shuffles (scratch d) (begin d) (end_ d) l l' ∧ heap less (begin d) (end_ d) l').
Proof.
  intros Hu Hne. pose proof Hu as [Hc Hb Hrg Hsc Hroom Hbd Hv]. unfold makeHeap.
  destruct (lookupZ_lt_Some l (scratch d)) as [o Ho]; [lia|].
  rewrite parent_eq by lia. pose proof (par_range (begin d) (end_ d) ltac:(lia)) as Hp.
  rewrite u64_small by zsolve.
  apply (makeHeapLoop_spec _ d l _ l); try done; try lia.
  - unfold zlen in *. lia.
  - by eapply shuffles_refl.
  - intros i x y Hi Hpi. pose proof (par_mono (begin d) i (end_ d) ltac:(lia)). lia.
Qed.

(** ** Removing the root *)

(** [heapRemove] moves the root to the end of the range; the rest is a heap again. *)
Lemma heapRemove_spec d l :
  usable d less l → begin d + 1 < end_ d → heap less (begin d) (end_ d) l →
  returns (heapRemove d l) (λ l',
    shuffles (scratch d) (begin d) (end_ d) l l' ∧ heap less (begin d) (end_ d - 1) l' ∧
    l' !! (end_ d - 1) = l !! begin d).
Proof.
  intros Hu Hne Hh. pose proof Hu as [Hc Hb Hrg Hsc Hroom Hbd Hv]. unfold heapRemove.
  destruct (Z.leb_spec (end_ d) (begin d + 1)); [lia|]. rewrite (u64_small (end_ d - 1)) by zsolve.
  destruct (Hv (begin d)) as [r Hr]; [lia|]. destruct (Hv (end_ d - 1)) as [x Hx]; [lia|].
  rewrite (move_Ret l (scratch d) (begin d) (Some r)) by (lia || done). cbn [mbind outcome_bind].
  set (l1 := <[(scratch d) := Some r]> l). assert (zlen l1 = zlen l) as Hl1 by apply zlen_insert.
  assert (∀ i, i ≠ (scratch d) → l1 !! i = l !! i) as Hi1 by (intros; by apply lookupZ_insert_ne).
  eapply returns_bind.
  - apply (siftDown_spec d (end_ d - 1) (begin d) (end_ d - 1) x l1); try done; try lia.
    + rewrite Hi1; [done|lia].
    + intros i Hi. rewrite lookupZ_insert by lia. case_decide; [by eauto|].
      rewrite Hi1 by lia. apply Hv. lia.
    + intros i u v Hi Hp Hui Hvi. rewrite Hi1 in Hui by lia. pose proof (par_range (begin d) i ltac:(lia)).
      rewrite Hi1 in Hvi by lia. apply (Hh i); (lia || done).
  - intros l2 ([y Hpm] & Hh2 & Hsame).
    pose proof (zlen_permutes _ _ _ _ Hpm) as Hl2. rewrite !zlen_insert in Hl2.
    assert (l2 !! (scratch d) = Some (Some r)) as Hs2.
    { rewrite Hsame by lia. apply lookupZ_insert_eq. lia. }
    rewrite (move_Ret l2 (end_ d - 1) (scratch d) (Some r)) by (lia || done). cbn. split_and!.
    + exists y. apply (permutes_insert _ _ _ _ (end_ d - 1) (Some r)) in Hpm; [|rewrite !zlen_insert; lia|lia].
      eapply permutes_trans; [|eapply permutes_weaken; [| |exact Hpm]; lia].
      replace (<[end_ d - 1 := Some r]> (<[(scratch d) := y]> (<[(begin d) := Some x]> l1)))
        with (<[end_ d - 1 := Some r]> (<[(begin d) := Some x]> (<[(scratch d) := y]> l))).
      * apply permutes_swap; try lia; by rewrite lookupZ_insert_ne by lia.
      * unfold l1. rewrite (list_insertZ_commute _ (scratch d) (begin d)) by lia. by rewrite list_insertZ_insert.
    + intros i u v Hi Hp Hui Hvi. pose proof (par_range (begin d) i ltac:(lia)).
      rewrite lookupZ_insert_ne in Hui by lia. rewrite lookupZ_insert_ne in Hvi by lia. by apply (Hh2 i).
    + rewrite lookupZ_insert_eq by lia. done.
Qed.

(** ** Heap sort *)

(** From [e] on the range is sorted, and nothing before is above. *)
Definition settled (b e e0 : Z) l : Prop :=
  ∀ i j u v, b ≤ i < j → e ≤ j < e0 → l !! i = Some (Some u) → l !! j = Some (Some v) → le less u v.

Lemma settled_remove b e e0 s l l' r :
  0 ≤ b → b < e → e ≤ e0 ≤ s → s < zlen l → valid b e0 l → heap less b e l → settled b e e0 l →
  shuffles s b e l l' → l !! b = Some (Some r) → l' !! (e - 1) = Some (Some r) →
  settled b (e - 1) e0 l'.
Proof.
  intros Hb He He0 Hs Hv Hh Hset Hsh Hr Hlast i j u v Hij Hj Hu Hvj.
  assert (∀ k w, b ≤ k < e → l' !! k = Some (Some w) → ∃ k', b ≤ k' < e ∧ l !! k' = Some (Some w)) as Hback.
  { intros k w Hk Hw. by apply (shuffles_back s b e l l' k (Some w)); try lia. }
  assert (∀ k, k ≠ s → ¬ (b ≤ k < e) → l' !! k = l !! k) as Hout
    by (intros; by eapply shuffles_outside).
  destruct (decide (j < e)) as [Hje|Hje].
  - assert (j = e - 1) as -> by lia. assert (v = r) as -> by congruence.
    destruct (Hback i u ltac:(lia) Hu) as (i' & Hi' & Hu').
    eapply (heap_root b e l i' u r); try done.
    intros k Hk. apply Hv. lia.
  - rewrite Hout in Hvj by lia. destruct (decide (i < e)) as [Hie|Hie].
    + destruct (Hback i u ltac:(lia) Hu) as (i' & Hi' & Hu').
      apply (Hset i' j); (lia || done).
    + rewrite Hout in Hu by lia. apply (Hset i j); (lia || done).
Qed.

Lemma heapSortLoop_spec fuel d l e0 l0 :
  usable d less l → begin d ≤ end_ d ≤ e0 → e0 ≤ scratch d → end_ d - begin d < Z.of_nat fuel →
  valid (begin d) e0 l → zlen l0 = zlen l → shuffles (scratch d) (begin d) e0 l0 l →
  heap less (begin d) (end_ d) l → settled (begin d) (end_ d) e0 l →
  returns (heapSortLoop fuel d l) (λ l',
    shuffles (scratch d) (begin d) e0 l0 l' ∧ sorted less (begin d) e0 l').
Proof.
  revert d l. induction fuel as [|fuel IH]; intros d l Hu He He0 Hf Hv Hl0 Hsh Hh Hset; [lia|].
  cbn [heapSortLoop]. pose proof Hu as [Hc Hb Hrg Hsc Hroom Hbd _].
  destruct (Z.ltb_spec (begin d + 1) (end_ d)) as [Hlt|Hge].
  - destruct (Hv (begin d)) as [r Hr]; [lia|].
    eapply returns_bind; [by apply heapRemove_spec|]. intros l1 (Hsh1 & Hh1 & Hlast).
    pose proof (shuffles_zlen _ _ _ _ _ Hsh1) as Hl1.
    assert (shuffles (scratch d) (begin d) e0 l l1) as Hsh1' by (eapply shuffles_weaken; [| |done]; lia).
    assert (valid (begin d) e0 l1) as Hv1 by (eapply valid_shuffles; [| | |exact Hsh1'|done]; lia).
    apply (IH (narrow d (begin d) (end_ d - 1)) l1); cbn; try lia; try done.
    + split; cbn; try lia; [done|]. intros i Hi. apply Hv1. lia.
    + eapply (shuffles_trans (scratch d) (begin d) e0 l0 l); (lia || done).
    + eapply (settled_remove (begin d) (end_ d) e0 (scratch d) l l1 r); try done; try lia. congruence.
  - cbn. split; [done|]. intros i j u v Hij Hj Hu' Hv'. apply (Hset i j); (lia || done).
Qed.

(** [heapSort] sorts the range. *)
Lemma heapSort_spec d l :
  usable d less l → begin d < end_ d →
  returns (heapSort d l) (λ l',
    shuffles (scratch d) (begin d) (end_ d) l l' ∧ sorted less (begin d) (end_ d) l').
Proof.
  intros Hu Hne. unfold heapSort. pose proof Hu as [Hc Hb Hrg Hsc Hroom Hbd Hv].
  eapply returns_bind; [by apply makeHeap_spec|]. intros l1 [Hsh1 Hh1].
  pose proof (shuffles_zlen _ _ _ _ _ Hsh1) as Hl1.
  assert (usable d less l1) as Hu1 by (eapply (usable_shuffles less d (begin d) (end_ d) l); (done || lia)).
  apply (heapSortLoop_spec _ d l1 (end_ d) l); try done; try lia.
  - unfold zlen in *. lia.
  - apply Hu1.
  - intros i j u v Hij Hj. lia.
Qed.

(** ** Inserting *)

(** The new object [x] leaves a hole at [at_] in the heap [b, e]. *)
Record sifting_up (b e : Z) (x : T) (w0 l : list (option T)) (at_ : Z) : Prop := {
  su_at : b ≤ at_ ≤ e;
  su_perm : permutes b (e + 1) w0 (<[at_ := Some x]> l);
  su_len : zlen l = zlen w0;
  su_order : ∀ i u v, b < i ≤ e → i ≠ at_ → par b i ≠ at_ →
    l !! i = Some (Some u) → l !! par b i = Some (Some v) → le less u v;
  su_across : b < at_ → ∀ i u v, b < i ≤ e → par b i = at_ →
    l !! i = Some (Some u) → l !! par b at_ = Some (Some v) → le less u v;
  su_down : ∀ i u, b < i ≤ e → par b i = at_ → l !! i = Some (Some u) → le less u x;
}.

Lemma siftUp_step b e x w0 l at_ p :
  0 ≤ b → e < zlen w0 → sifting_up b e x w0 l at_ → b < at_ →
  l !! par b at_ = Some (Some p) → less p x = true →
  sifting_up b e x w0 (<[at_ := Some p]> l) (par b at_).
Proof.
  intros Hb He [Hat Hpm Hlen Hord Hac Hdn] Hlt Hp Hless. pose proof (par_range b at_ Hlt) as Hpr.
  assert (∀ i, <[at_ := Some p]> l !! i = if decide (at_ = i) then Some (Some p) else l !! i) as Hlk
    by (intros; apply lookupZ_insert; lia).
  split.
  - lia.
  - eapply permutes_trans; [exact Hpm|]. apply permutes_hole; (lia || done).
  - by rewrite zlen_insert.
  - intros i u v Hi Hin Hpn Hu Hv. rewrite Hlk in Hu, Hv. pose proof (par_range b i ltac:(lia)).
    destruct (decide (at_ = i)) as [<-|]; [done|].
    destruct (decide (at_ = par b i)) as [E|].
    + assert (v = p) as -> by congruence. by apply (Hac Hlt i).
    + apply (Hord i); (lia || done).
  - intros Hlt' i u v Hi Hpi Hu Hv. rewrite Hlk in Hu, Hv. pose proof (par_range b i ltac:(lia)).
    pose proof (par_range b (par b at_) ltac:(lia)). rewrite decide_False in Hv by lia.
    assert (le less p v) as Hpv.
    { apply (Hord (par b at_)); try lia; done. }
    destruct (decide (at_ = i)) as [<-|]; [congruence|].
    apply (le_trans less u p v); [|done]. apply (Hord i); try lia; [done|by rewrite Hpi].
  - intros i u Hi Hpi Hu. rewrite Hlk in Hu. assert (le less p x) as Hpx by by apply less_le.
    destruct (decide (at_ = i)) as [<-|]; [congruence|].
    apply (le_trans less u p x); [|done]. apply (Hord i); try lia; [done|by rewrite Hpi].
Qed.

Lemma siftUp_stop b e x w0 l at_ :
  0 ≤ b → e < zlen w0 → sifting_up b e x w0 l at_ →
  (b < at_ → ∀ p, l !! par b at_ = Some (Some p) → less p x = false) →
  heap less b (e + 1) (<[at_ := Some x]> l).
Proof.
  intros Hb He [Hat Hpm Hlen Hord Hac Hdn] Hstop i u v Hi _ Hu Hv. pose proof (par_range b i ltac:(lia)).
  rewrite lookupZ_insert in Hu by lia. rewrite lookupZ_insert in Hv by lia.
  destruct (decide (at_ = i)) as [<-|].
  - rewrite decide_False in Hv by lia. assert (u = x) as -> by congruence.
    unfold le. apply Hstop; [lia|done].
  - destruct (decide (at_ = par b i)).
    + assert (v = x) as -> by congruence. apply (Hdn i); (lia || done).
    + apply (Hord i); (lia || done).
Qed.

Lemma siftUp_spec fuel d x w0 l at_ :
  (∀ x y, compareVal d x y = Ret (less x y)) → 0 ≤ begin d → end_ d < zlen w0 → zlen w0 < 2 ^ 62 →
  valid (begin d) (end_ d + 1) w0 → sifting_up (begin d) (end_ d) x w0 l at_ →
  at_ - begin d < Z.of_nat fuel →
  returns (siftUp fuel d l x at_) (λ '(l', at'),
    zlen l' = zlen w0 ∧ begin d ≤ at' ≤ end_ d ∧
    permutes (begin d) (end_ d + 1) w0 (<[at' := Some x]> l') ∧
    heap less (begin d) (end_ d + 1) (<[at' := Some x]> l')).
Proof.
  intros Hc Hb He Hbd Hv. revert l at_. induction fuel as [|fuel IH]; intros l at_ Hs Hf;
    [pose proof (su_at _ _ _ _ _ _ Hs); lia|].
  cbn [siftUp]. pose proof Hs as [Hat Hpm Hlen _ _ _].
  destruct (Z.eqb_spec at_ (begin d)) as [Heq|Hne].
  { cbn. split_and!; try done; try lia. eapply siftUp_stop; try done. lia. }
  rewrite parent_eq by lia. pose proof (par_range (begin d) at_ ltac:(lia)) as Hpr.
  destruct (valid_permutes (begin d) (end_ d + 1) w0 _ ltac:(lia) ltac:(lia) Hpm Hv (par (begin d) at_))
    as [p Hp]; [lia|]. rewrite lookupZ_insert_ne in Hp by lia.
  unfold compareElem. rewrite (slot_Some l _ p Hp). cbn [mbind outcome_bind]. rewrite Hc.
  cbn [mbind outcome_bind]. destruct (less p x) eqn:E.
  - rewrite (move_Ret l at_ _ (Some p)) by (lia || done). cbn [mbind outcome_bind].
    apply IH; [|lia]. by apply siftUp_step; try lia.
  - cbn. split_and!; try done; try lia. eapply siftUp_stop; try done. intros _ p' Hp'. congruence.
Qed.

(** [heapInsert] adds the object to the heap, which grows by one slot. *)
Lemma heapInsert_spec d l x :
  (∀ x y, compareVal d x y = Ret (less x y)) → CopyHandle (type d) →
  0 ≤ begin d ≤ end_ d → end_ d < zlen l → zlen l < 2 ^ 62 → valid (begin d) (end_ d) l →
  heap less (begin d) (end_ d) l →
  returns (heapInsert d l x) (λ l',
    permutes (begin d) (end_ d + 1) (<[end_ d := Some x]> l) l' ∧
    heap less (begin d) (end_ d + 1) l').
Proof.
  intros Hc Hcp Hb He Hbd Hv Hh. unfold heapInsert.
  set (w0 := <[end_ d := Some x]> l). assert (zlen w0 = zlen l) as Hl0 by apply zlen_insert.
  eapply returns_bind.
  - apply (siftUp_spec _ d x w0 l (end_ d)); try done; try lia.
    + intros i Hi. unfold w0. rewrite lookupZ_insert by lia. case_decide; [by eauto|]. apply Hv. lia.
    + assert (∀ i, begin d < i ≤ end_ d → par (begin d) i ≠ end_ d) as Hno.
      { intros i Hi E. pose proof (par_range (begin d) i ltac:(lia)). lia. }
      split; try done; try lia.
      * intros i u v Hi Hne Hpn Hu Hv'. pose proof (par_range (begin d) i ltac:(lia)).
        apply (Hh i); (lia || done).
      * intros _ i u v Hi Hpi. by destruct (Hno i Hi).
      * intros i u Hi Hpi. by destruct (Hno i Hi).
    + unfold zlen in *. lia.
  - intros [l1 at1] (Hl1 & Hat & Hpm & Hh1). rewrite (copy_id (h:=type d)). rewrite aset_in by lia. done.
Qed.
End heap.
