(* ===== verification/SortCorrect.v ===== *)
(** * Correctness of sorting

    [sort] of [Core/Sort.cpp] combines quicksort, insertion sort and heap sort; it
    terminates and sorts for every strict weak order, and it touches nothing but its
    range and the scratch slot. *)

From stdpp Require Import base list numbers strings option decidable sets pretty.
From Stdlib Require Import ZArith Lia.
From S2P Require Import Prelude Handle Sort Ranges SortProofs HeapProofs.
Import Sort.

(** ** Pending ranges

    [sort] works on one range and remembers others; two elements that are not in the
    same pending range are in order. *)
Section pending.
Context {T : Type} (less : T → T → bool) `{!StrictWeak less}.
Implicit Types (l : list (option T)) (r : Z * Z) (rs : list (Z * Z)).

Definition inside (i : Z) r : Prop := r.1 ≤ i < r.2.

(** The pending ranges are disjoint parts of [b0, e0). *)
Record pending (b0 e0 : Z) rs : Prop := {
  pe_range : ∀ r, r ∈ rs → b0 ≤ r.1 ∧ r.1 ≤ r.2 ∧ r.2 ≤ e0;
  pe_disjoint : ∀ (k1 k2 : nat) r1 r2 i, rs !! k1 = Some r1 → rs !! k2 = Some r2 →
    inside i r1 → inside i r2 → k1 = k2;
}.

Definition ordered (b0 e0 : Z) rs l : Prop :=
  ∀ i j u v, b0 ≤ i < j → j < e0 → (∀ r, r ∈ rs → inside i r → inside j r → False) →
    l !! i = Some (Some u) → l !! j = Some (Some v) → le less u v.

Fixpoint total rs : Z := match rs with [] => 0 | r :: rs => r.2 - r.1 + total rs end.

Lemma pending_tail b0 e0 r rs : pending b0 e0 (r :: rs) → pending b0 e0 rs.
Proof.
  intros [Hr Hd]. split; [intros; apply Hr; by right|].
  intros k1 k2 r1 r2 i H1 H2 ? ?. assert (S k1 = S k2); [|lia]. by eapply (Hd (S k1) (S k2)).
Qed.

Lemma pending_other b0 e0 r rs r' i :
  pending b0 e0 (r :: rs) → r' ∈ rs → inside i r → inside i r' → False.
Proof.
  intros [_ Hd] [k Hk]%list_elem_of_lookup H1 H2.
  specialize (Hd O (S k) r r' i eq_refl Hk H1 H2). done.
Qed.

Lemma pending_cons b0 e0 r rs :
  b0 ≤ r.1 → r.1 ≤ r.2 → r.2 ≤ e0 → pending b0 e0 rs →
  (∀ r' i, r' ∈ rs → inside i r → inside i r' → False) → pending b0 e0 (r :: rs).
Proof.
  intros H1 H2 H3 [Hr Hd] Hn. split.
  - intros r' [->|?]%elem_of_cons; [done|by apply Hr].
  - intros [|k1] [|k2] r1 r2 i Hk1 Hk2 Hi1 Hi2; cbn in *; simplify_eq; try done.
    + exfalso. eapply Hn; [|exact Hi1|exact Hi2]. by eapply list_elem_of_lookup_2.
    + exfalso. eapply Hn; [|exact Hi2|exact Hi1]. by eapply list_elem_of_lookup_2.
    + f_equal. by eapply Hd.
Qed.

Lemma total_nonneg b0 e0 rs : pending b0 e0 rs → 0 ≤ total rs.
Proof.
  intros [Hr _]. induction rs as [|r rs IH]; [done|]. cbn.
  destruct (Hr r) as (? & ? & ?); [by left|]. assert (0 ≤ total rs); [|lia].
  apply IH. intros. apply Hr. by right.
Qed.

(** Shuffling a pending range keeps the order of the rest. *)
Lemma ordered_shuffles b0 e0 s r rs l l' :
  0 ≤ b0 → e0 ≤ s → s < zlen l → pending b0 e0 (r :: rs) → ordered b0 e0 (r :: rs) l →
  shuffles s r.1 r.2 l l' → ordered b0 e0 (r :: rs) l'.
Proof.
  intros Hb He Hs Hp Ho Hsh i j u v Hij Hj Hsep Hu Hv.
  destruct (pe_range _ _ _ Hp r) as (? & ? & ?); [by left|].
  assert (∀ k w, inside k r → l' !! k = Some w → ∃ k', inside k' r ∧ l !! k' = Some w) as Hback.
  { intros k w Hk Hw. apply (shuffles_back s r.1 r.2 l l' k w); try done; lia. }
  assert (∀ k, b0 ≤ k < e0 → ¬ inside k r → l' !! k = l !! k) as Hout.
  { intros k Hk Hn. eapply shuffles_outside; [|exact Hn|done]. lia. }
  destruct (decide (r.1 ≤ i < r.2)) as [Hi|Hi], (decide (r.1 ≤ j < r.2)) as [Hjr|Hjr].
  - exfalso. eapply (Hsep r); [by left|done|done].
  - destruct (Hback i _ Hi Hu) as (i' & Hi' & Hu'). rewrite Hout in Hv by (done || lia).
    apply (Ho i' j u v); unfold inside in *; try lia; try done.
    intros r' [->|Hr']%elem_of_cons Hin1 Hin2; [lia|]. by eapply (pending_other b0 e0 r rs r' i').
  - destruct (Hback j _ Hjr Hv) as (j' & Hj' & Hv'). rewrite Hout in Hu by (done || lia).
    apply (Ho i j' u v); unfold inside in *; try lia; try done.
    intros r' [->|Hr']%elem_of_cons Hin1 Hin2; [lia|]. by eapply (pending_other b0 e0 r rs r' j').
  - rewrite Hout in Hu by (done || lia). rewrite Hout in Hv by (done || lia).
    by apply (Ho i j u v).
Qed.

(** A sorted range is no longer pending. *)
Lemma ordered_sorted b0 e0 r rs l :
  ordered b0 e0 (r :: rs) l → sorted less r.1 r.2 l → ordered b0 e0 rs l.
Proof.
  intros Ho Hs i j u v Hij Hj Hsep Hu Hv.
  destruct (decide (r.1 ≤ i ∧ j < r.2)) as [[? ?]|Hn]; [apply (Hs i j); (lia || done)|].
  apply (Ho i j u v); try done. intros r' [->|Hr']%elem_of_cons Hin1 Hin2; [unfold inside in *; lia|].
  by eapply Hsep.
Qed.

(** A split range becomes its two parts. *)
Lemma ordered_split b0 e0 b e p rs l :
  ordered b0 e0 ((b, e) :: rs) l → split_at less b e p l →
  ordered b0 e0 ((b, p) :: (p + 1, e) :: rs) l.
Proof.
  intros Ho [Hp Hs] i j u v Hij Hj Hsep Hu Hv.
  destruct (decide (b ≤ i ∧ j < e)) as [[? ?]|Hn].
  - assert (¬ (j < p)). { intros ?. apply (Hsep (b, p)); unfold inside; cbn; [by left|lia|lia]. }
    assert (¬ (p < i)). { intros ?. apply (Hsep (p + 1, e)); unfold inside; cbn; [by right; left|lia|lia]. }
    apply (Hs i j); (lia || done).
  - apply (Ho i j u v); try done. intros r' [->|Hr']%elem_of_cons Hin1 Hin2; [unfold inside in *; cbn in *; lia|].
    apply (Hsep r'); [by do 2 right|done|done].
Qed.

Lemma pending_split b0 e0 b e p rs :
  b ≤ p < e → pending b0 e0 ((b, e) :: rs) → pending b0 e0 ((b, p) :: (p + 1, e) :: rs).
Proof.
  intros Hp Hpe. pose proof (pe_range _ _ _ Hpe (b, e) ltac:(by left)) as (H1 & H2 & H3). cbn in *.
  assert (∀ r' i, r' ∈ rs → b ≤ i < e → inside i r' → False) as Hd.
  { intros r' i Hr' Hi Hi'. by apply (pending_other b0 e0 (b, e) rs r' i). }
  apply pending_cons; cbn; try lia.
  - apply pending_cons; cbn; try lia; [by eapply pending_tail|].
    intros r' i Hr' Hi Hi'. apply (Hd r' i Hr'); [unfold inside in Hi; cbn in Hi; lia|done].
  - intros r' i [->|Hr']%elem_of_cons Hi Hi'; [unfold inside in *; cbn in *; lia|].
    apply (Hd r' i Hr'); [unfold inside in Hi; cbn in Hi; lia|done].
Qed.

Lemma ordered_swap b0 e0 r r' rs l :
  ordered b0 e0 (r :: r' :: rs) l → ordered b0 e0 (r' :: r :: rs) l.
Proof.
  intros Ho i j u v Hij Hj Hsep. apply (Ho i j u v Hij Hj). intros x Hx. apply Hsep. set_solver.
Qed.

Lemma pending_swap b0 e0 r r' rs : pending b0 e0 (r :: r' :: rs) → pending b0 e0 (r' :: r :: rs).
Proof.
  intros Hp. pose proof (pending_tail _ _ _ _ Hp) as Hp'.
  destruct (pe_range _ _ _ Hp r ltac:(by left)) as (? & ? & ?).
  destruct (pe_range _ _ _ Hp' r' ltac:(by left)) as (? & ? & ?).
  assert (∀ x i, x ∈ r' :: rs → inside i r → inside i x → False) as Hd.
  { intros x i Hx Hi Hi'. exact (pending_other b0 e0 r (r' :: rs) x i Hp Hx Hi Hi'). }
  apply pending_cons; try done.
  - apply pending_cons; try done; [by eapply pending_tail|].
    intros x i Hx. apply Hd. by right.
  - intros x i [->|Hx]%elem_of_cons Hi Hi'; [by apply (Hd r' i); [left|..]|].
    by apply (pending_other b0 e0 r' rs x i).
Qed.

(** A range of at most one element needs no work. *)
Lemma ordered_drop b0 e0 r rs l : r.2 ≤ r.1 + 1 → ordered b0 e0 (r :: rs) l → ordered b0 e0 rs l.
Proof. intros Hr Ho. eapply ordered_sorted; [done|]. intros i j. lia. Qed.
End pending.

(** ** The main loop *)
Section sort.
Context {World T : Type} (less : T → T → bool) `{!StrictWeak less}.
Implicit Types (d : SortData World T) (l : list (option T)).

Record sorting (s b0 e0 : Z) l0 d (stack : list (Z * Z)) l : Prop := {
  so_cmp : ∀ x y, compareVal d x y = Ret (less x y);
  so_scratch : scratch d = s;
  so_bounds : 0 ≤ b0 ∧ e0 ≤ s ∧ s < zlen l ∧ zlen l < 2 ^ 62;
  so_valid : valid b0 e0 l;
  so_len : zlen l0 = zlen l;
  so_shuffle : shuffles s b0 e0 l0 l;
  so_stack : ∀ r, r ∈ stack → r.1 + 1 < r.2;
  so_pending : pending b0 e0 ((begin d, end_ d) :: stack);
  so_ordered : ordered less b0 e0 ((begin d, end_ d) :: stack) l;
}.

Lemma sorting_usable s b0 e0 l0 d stack l : sorting s b0 e0 l0 d stack l → usable d less l.
Proof.
  intros [Hc Hs Hb Hv Hl Hsh Hst Hp Ho].
  destruct (pe_range _ _ _ Hp (begin d, end_ d) ltac:(by left)) as (? & ? & ?). cbn in *.
  split; try done; try lia. intros i Hi. apply Hv. lia.
Qed.

(** The range of [d] has been shuffled and its pending part is now [rs]. *)
Lemma sorting_step s b0 e0 l0 d stack l l' d' stack' :
  sorting s b0 e0 l0 d stack l →
  shuffles s (begin d) (end_ d) l l' →
  (∀ x y, compareVal d' x y = Ret (less x y)) → scratch d' = s →
  (∀ r, r ∈ stack' → r.1 + 1 < r.2) →
  pending b0 e0 ((begin d', end_ d') :: stack') →
  (ordered less b0 e0 ((begin d, end_ d) :: stack) l' →
   ordered less b0 e0 ((begin d', end_ d') :: stack') l') →
  sorting s b0 e0 l0 d' stack' l'.
Proof.
  intros [Hc Hs Hb Hv Hl Hsh Hst Hp Ho] Hsh' Hc' Hs' Hst' Hp' Ho'.
  destruct (pe_range _ _ _ Hp (begin d, end_ d) ltac:(by left)) as (? & ? & ?). cbn in *.
  pose proof (shuffles_zlen _ _ _ _ _ Hsh') as Hl'.
  assert (shuffles s b0 e0 l l') as Hsh'' by (eapply shuffles_weaken; [| |done]; lia).
  split; try done; try lia.
  - eapply valid_shuffles; [| | |exact Hsh''|done]; lia.
  - eapply shuffles_trans; [lia|lia|done|done].
  - apply Ho'. eapply (ordered_shuffles less b0 e0 s (begin d, end_ d)); [| | | | |exact Hsh']; (done || lia).
Qed.

(** The whole range is sorted: go on with the ranges on the stack. *)
Lemma sorting_done s b0 e0 l0 d stack l l' :
  sorting s b0 e0 l0 d stack l → shuffles s (begin d) (end_ d) l l' →
  sorted less (begin d) (end_ d) l' → sorting s b0 e0 l0 (narrow d (end_ d) (end_ d)) stack l'.
Proof.
  intros Hso Hsh Hs. pose proof Hso as [Hc Hsc Hb Hv Hl _ Hst Hp Ho].
  destruct (pe_range _ _ _ Hp (begin d, end_ d) ltac:(by left)) as (? & ? & ?). cbn in *.
  apply (sorting_step s b0 e0 l0 d stack l l'); try done.
  - apply pending_cons; cbn; try lia; [by eapply pending_tail|]. unfold inside. cbn. lia.
  - intros Ho'. cbn. apply (ordered_sorted _ _ _ _ _ _ Ho') in Hs.
    intros i j u v Hij Hj Hsep. apply (Hs i j u v Hij Hj). intros r Hr. apply Hsep. by right.
Qed.

Lemma sortStep_spec rec s b0 e0 l0 d stack l Q :
  sorting s b0 e0 l0 d stack l → begin d + 1 < end_ d →
  (∀ d' stack' l', sorting s b0 e0 l0 d' stack' l' →
    total ((begin d', end_ d') :: stack') < total ((begin d, end_ d) :: stack) →
    returns (rec d' stack' l') Q) →
  returns (sortStep rec d stack l) Q.
Proof.
  intros Hso Hlt Hrec. pose proof (sorting_usable _ _ _ _ _ _ _ Hso) as Hu.
  pose proof (so_scratch _ _ _ _ _ _ _ Hso) as Hsc. unfold sortStep.
  destruct (end_ d - begin d <=? INSERTION_LIMIT).
  { eapply returns_bind; [by apply (insertionSort_spec less)|]. rewrite Hsc. intros l' [Hsh Hs].
    apply Hrec; [by eapply sorting_done|cbn; lia]. }
  destruct (STACK_SIZE <=? zlen stack).
  { eapply returns_bind; [apply (heapSort_spec less); [done|lia]|]. rewrite Hsc. intros l' [Hsh Hs].
    apply Hrec; [by eapply sorting_done|cbn; lia]. }
  eapply returns_bind; [apply (pickPivot_spec less); [done|lia]|]. intros pv Hpv.
  eapply returns_bind; [by apply (partition_spec less)|]. rewrite Hsc. intros [l' p] [Hsh Hsp].
  pose proof Hsp as [Hp _]. pose proof Hso as [Hc _ Hb Hv Hl _ Hst Hpe Ho].
  set (held := if p - begin d <? end_ d - p then (begin d, p) else (p + 1, end_ d)).
  set (d' := if p - begin d <? end_ d - p then narrow d (p + 1) (end_ d) else narrow d (begin d) p).
  replace (if p - begin d <? end_ d - p then (begin d, p, narrow d (p + 1) (end_ d))
           else (p + 1, end_ d, narrow d (begin d) p)) with (held, d')
    by (unfold held, d'; by destruct (p - begin d <? end_ d - p)).
  set (stack' := if held.1 + 1 <? held.2 then held :: stack else stack).
  assert (pending b0 e0 ((begin d', end_ d') :: held :: stack) ∧
    (ordered less b0 e0 ((begin d, end_ d) :: stack) l' →
     ordered less b0 e0 ((begin d', end_ d') :: held :: stack) l') ∧
    total ((begin d', end_ d') :: held :: stack) < total ((begin d, end_ d) :: stack)) as (Hpe' & Ho' & Ht').
  { pose proof (pending_split b0 e0 (begin d) (end_ d) p stack Hp Hpe) as Hps.
    unfold held, d'. destruct (p - begin d <? end_ d - p); cbn; split_and!; try lia.
    - by apply pending_swap.
    - intros Ho'. by apply ordered_swap, ordered_split.
    - done.
    - intros Ho'. by apply ordered_split. }
  assert (pending b0 e0 ((begin d', end_ d') :: stack')) as Hpe''.
  { unfold stack'. destruct (held.1 + 1 <? held.2); [done|]. by eapply pending_tail, pending_swap. }
  apply Hrec.
  - apply (sorting_step s b0 e0 l0 d stack l l'); try done.
    + unfold d'. by destruct (p - begin d <? end_ d - p).
    + unfold d'. by destruct (p - begin d <? end_ d - p).
    + unfold stack'. destruct (Z.ltb_spec (held.1 + 1) held.2) as [Hh|]; [|done].
      intros r [->|Hr]%elem_of_cons; [lia|by apply Hst].
    + intros Ho''. apply Ho' in Ho''. unfold stack'.
      destruct (Z.ltb_spec (held.1 + 1) held.2) as [|Hh]; [done|].
      eapply (ordered_drop less b0 e0 held); [lia|]. by apply ordered_swap.
  - destruct (pe_range _ _ _ Hpe' held ltac:(by right; left)) as (? & ? & ?).
    unfold stack'. cbn in Ht'. destruct (held.1 + 1 <? held.2); cbn; lia.
Qed.

Lemma sortLoop_spec fuel s b0 e0 l0 d stack l :
  sorting s b0 e0 l0 d stack l → total ((begin d, end_ d) :: stack) < Z.of_nat fuel →
  returns (sortLoop fuel d stack l) (λ l', shuffles s b0 e0 l0 l' ∧ sorted less b0 e0 l').
Proof.
  revert d stack l. induction fuel as [|fuel IH]; intros d stack l Hso Hf.
  { pose proof (total_nonneg _ _ _ (so_pending _ _ _ _ _ _ _ Hso)). lia. }
  cbn [sortLoop]. pose proof Hso as [Hc Hsc Hb Hv Hl Hsh Hst Hpe Ho].
  destruct (Z.leb_spec (end_ d) (begin d + 1)) as [Hsm|Hlg].
  - destruct stack as [|[b e] stack].
    + cbn. split; [done|]. intros i j u v Hij Hj. apply (Ho i j u v Hij Hj).
      intros r [->|?%not_elem_of_nil]%elem_of_cons; [|done]. unfold inside. cbn. lia.
    + apply (sortStep_spec _ s b0 e0 l0); cbn.
      * split; try done.
        -- intros r Hr. apply Hst. by right.
        -- by eapply pending_tail.
        -- by eapply ordered_drop; [|exact Ho].
      * apply (Hst (b, e)). by left.
      * intros d' stack' l' Hso' Ht. apply IH; [done|].
        destruct (pe_range _ _ _ Hpe (begin d, end_ d) ltac:(by left)) as (? & ? & ?). cbn in *. lia.
  - apply (sortStep_spec _ s b0 e0 l0); [done|lia|].
    intros d' stack' l' Hso' Ht. apply IH; [done|lia].
Qed.

Lemma sort_spec d l :
  usable d less l →
  returns (sort d l) (λ l', shuffles (scratch d) (begin d) (end_ d) l l' ∧
    sorted less (begin d) (end_ d) l').
Proof.
  intros Hu. pose proof Hu as [Hc Hb Hrg Hsc Hroom Hbd Hv]. unfold sort.
  destruct (lookupZ_lt_Some l (scratch d)) as [o Ho]; [lia|].
  apply sortLoop_spec.
  - split; try done; try lia.
    + by eapply shuffles_refl.
    + intros r Hr. by apply not_elem_of_nil in Hr.
    + apply pending_cons; cbn; try lia.
      * split; [intros r Hr; by apply not_elem_of_nil in Hr|by intros ? ? ? ? ? ?].
      * intros r i Hr. by apply not_elem_of_nil in Hr.
    + intros i j u v Hij Hj Hsep. exfalso. apply (Hsep (begin d, end_ d)); unfold inside; cbn; [by left|lia|lia].
  - cbn. unfold zlen in *. lia.
Qed.
End sort.

Section correct.
Context {World T : Type} (less : T → T → bool) `{!StrictWeak less}.
Implicit Types (d : SortData World T) (l : list (option T)).

(** C5: [sort] terminates for every range and leaves the same elements in the range,
    sorted; slots outside the range other than the scratch slot keep their
    contents. *)
Theorem sort_correct d l :
  usable d less l →
  ∃ l', sort d l = Ret l' ∧ sub (begin d) (end_ d) l' ≡ₚ sub (begin d) (end_ d) l ∧
    sorted less (begin d) (end_ d) l' ∧
    ∀ i, ¬ (begin d ≤ i < end_ d) → i ≠ scratch d → l' !! i = l !! i.
Proof.
  intros Hu. destruct (proj1 (returns_exists _ _) (sort_spec less d l Hu)) as (l' & E & Hsh & Hs).
  destruct Hu as [Hc Hb Hrg Hsc Hroom Hbd Hv]. exists l'. split_and!; try done.
  - eapply shuffles_sub; [| | |done]; lia.
  - intros i Hi Hne. by eapply shuffles_outside.
Qed.

(** Heap sort (the fallback of [sort] when its stack is full) sorts every
    non-empty range on its own, touching nothing else but the scratch slot. *)
Theorem heapSort_correct d l :
  usable d less l → begin d < end_ d →
  ∃ l', heapSort d l = Ret l' ∧ sub (begin d) (end_ d) l' ≡ₚ sub (begin d) (end_ d) l ∧
    sorted less (begin d) (end_ d) l' ∧
    ∀ i, ¬ (begin d ≤ i < end_ d) → i ≠ scratch d → l' !! i = l !! i.
Proof.
  intros Hu Hne. destruct (proj1 (returns_exists _ _) (heapSort_spec less d l Hu Hne)) as (l' & E & Hsh & Hs).
  destruct Hu as [Hc Hb Hrg Hsc Hroom Hbd Hv]. exists l'. split_and!; try done.
  - eapply shuffles_sub; [| | |done]; lia.
  - intros i Hi Hne'. by eapply shuffles_outside.
Qed.

(** On an empty range the position of the last parent wraps around. *)
Lemma makeHeapLoop_empty fuel d l top :
  end_ d = begin d → 0 ≤ begin d → begin d + Z.of_nat fuel ≤ top < 2 ^ 64 →
  makeHeapLoop fuel d l top = OutOfFuel.
Proof.
  intros He Hb. revert top. induction fuel as [|fuel IH]; intros top Ht; [done|].
  cbn [makeHeapLoop]. destruct (Z.ltb_spec (begin d) top); [|lia].
  rewrite (u64_small (top - 1)) by zsolve. unfold siftDown. cbn [siftDownLoop].
  destruct (Z.leb_spec (end_ d) (top - 1)); [|lia]. cbn [mbind outcome_bind]. unfold move.
  rewrite Z.eqb_refl. cbn [mbind outcome_bind]. apply IH. lia.
Qed.

(** [makeHeap] on an empty range does not return within 2^62 iterations: the
    parent of position 0 underflows to 2^63 - 1 and the loop counts down from there.
    ([PQueue] built from an empty array calls it this way.) *)
Theorem makeHeap_empty fuel d l :
  begin d = 0 → end_ d = 0 → Z.of_nat fuel ≤ 2 ^ 62 →
  makeHeapLoop fuel d l (u64 (parent d (end_ d) + 1)) = OutOfFuel.
Proof.
  intros Hb He Hf.
  assert (u64 (parent d (end_ d) + 1) = 2 ^ 63) as -> by (unfold parent; rewrite Hb, He; reflexivity).
  apply makeHeapLoop_empty; lia.
Qed.
End correct.

#[global] Instance ltb_weak : StrictWeak Z.ltb.
Proof. split; intros *; rewrite ?Z.ltb_irrefl, ?Z.ltb_lt; [done|lia|lia]. Qed.

Definition intT : Handle unit Z := {|
  locationHash := false; copyFn := None; deepCopyFn := None; toSFn := pretty.pretty;
  hashFn := Some (λ _ k, k); equalFn := Some Z.eqb; lessFn := Some Z.ltb;
|}.

#[global] Instance intT_copy : CopyHandle intT.
Proof. done. Qed.

Definition sample : list (option Z) :=
  Some <$> [5; 3; 8; 1; 9; 2; 7; 4; 6; 0; 15; 13; 18; 11; 19; 12; 17; 14; 16; 10].

Lemma sample_usable :
  usable (mkSortData intT None 20 0 20) Z.ltb (sample ++ [None]).
Proof.
  split; cbn; try done; try (vm_compute; (discriminate || reflexivity)).
  intros i Hi. unfold sample. assert (∃ n : nat, i = Z.of_nat n ∧ (n < 20)%nat) as (n & -> & Hn)
    by (exists (Z.to_nat i); lia).
  rewrite lookupZ_nat. do 20 (destruct n as [|n]; [by eexists|]). lia.
Qed.

Lemma sort_correct_witness :
  sort (mkSortData intT None 20 0 20) (sample ++ [None]) =
    Ret ((Some <$> [0; 1; 2; 3; 4; 5; 6; 7; 8; 9; 10; 11; 12; 13; 14; 15; 16; 17; 18; 19]) ++ [Some 2]) ∧
  ∃ l', sort (mkSortData intT None 20 0 20) (sample ++ [None]) = Ret l' ∧
    sub 0 20 l' ≡ₚ sample ∧ sorted Z.ltb 0 20 l'.
Proof.
  split; [vm_compute; reflexivity|].
  destruct (sort_correct Z.ltb _ _ sample_usable) as (l' & E & Hp & Hs & _).
  exists l'. exact (conj E (conj Hp Hs)).
Defined.

Lemma heapSort_correct_witness :
  ∃ l', heapSort (mkSortData intT None 20 0 20) (sample ++ [None]) = Ret l' ∧
    sub 0 20 l' ≡ₚ sample ∧ sorted Z.ltb 0 20 l'.
Proof.
  destruct (heapSort_correct Z.ltb _ _ sample_usable eq_refl) as (l' & E & Hp & Hs & _).
  exists l'. exact (conj E (conj Hp Hs)).
Defined.

Lemma makeHeap_empty_witness :
  makeHeapLoop 1000 (mkSortData intT None 0 0 0) [None] (u64 (parent (mkSortData intT None 0 0 0) 0 + 1)) = OutOfFuel.
Proof. apply (makeHeap_empty 1000 (mkSortData intT None 0 0 0)); [reflexivity|reflexivity|lia]. Defined.
