(* ===== verification/Array.v ===== *)
(** * Dynamic arrays

    [Core/Array.h] and [Core/Array.cpp]: [ArrayBase], a growing array over a
    collector-allocated block.  [data] is null ([None]) until something is added;
    pointers to elements ([void *] results) are indices. *)

From stdpp Require Import base list numbers strings option decidable.
From Stdlib Require Import ZArith Lia.
From S2P Require Import Prelude Handle Sort.

Module ArrayBase.

Record ArrayBase (T : Type) := mkArray { data : option (GcArray T) }.
Arguments mkArray {T}.
Arguments data {T}.

Section array.
Context {World T : Type} (handle : Handle World T).
Implicit Types a : ArrayBase T.

Definition count a : Z := match data a with Some d => u32 (filled d) | None => 0 end.
Definition any a : bool := 0 <? count a.
Definition empty a : bool := count a =? 0.

(** The slots: none while [data] is null. *)
Definition slots a : list (option T) := match data a with Some d => v d | None => [] end.

(** The object at [ptr(id)]. *)
Definition elemAt a (id : Z) : outcome T := slot (slots a) id.

(** ** Construction *)
Definition new : ArrayBase T := mkArray None.

Definition ensure a (n : Z) : outcome (ArrayBase T) :=
  if n =? 0 then Ret a
  else
    let oldCap := match data a with Some d => u32 (gc_count d) | None => 0 end in
    if n <=? oldCap then Ret a
    else
      let oldCount := count a in
      let newCap := Z.max 16 (u32 (oldCap * 2)) in
      let newCap := if newCap <? n then n else newCap in
      let newData := allocArray newCap in
      match data a with
      | Some d =>
          l ← memmove (v newData) 0 (v d) 0 oldCount;
          Ret (mkArray (Some (mkGcArray oldCount l)))
      | None => Ret (mkArray (Some newData))
      end.

Definition reserve := ensure.

Definition clear : ArrayBase T := mkArray None.

(** A call through [data], which the code has made sure is not null. *)
Definition withData a (f : GcArray T → outcome (GcArray T)) : outcome (ArrayBase T) :=
  match data a with Some d => d ← f d; Ret (mkArray (Some d)) | None => Fault end.

Definition pushRaw a (element : T) : outcome (ArrayBase T) :=
  let c := count a in
  a ← ensure a (u32 (c + 1));
  withData a (λ d,
    l ← aset (v d) c (Some (safeCopy handle element));
    Ret (mkGcArray (c + 1) l)).

(** [ArrayBase(type, n, src)] *)
Definition newFilled (n : Z) (src : T) : outcome (ArrayBase T) :=
  a ← ensure new n;
  for_loop (Z.to_nat n) 0 (λ i a,
    withData a (λ d,
      l ← aset (v d) i (Some (safeCopy handle src));
      Ret (mkGcArray (i + 1) l))) a.

(** [ArrayBase(other)] *)
Definition copy (other : ArrayBase T) : outcome (ArrayBase T) :=
  let c := count other in
  match copyFn handle with
  | Some f =>
      a ← ensure new c;
      for_loop (Z.to_nat c) 0 (λ i a,
        x ← elemAt other i;
        withData a (λ d,
          l ← aset (v d) i (Some (f x));
          Ret (mkGcArray (i + 1) l))) a
  | None =>
      if 0 <? c then
        a ← ensure new c;
        withData a (λ d,
          l ← memmove (v d) 0 (slots other) 0 c;
          Ret (mkGcArray c l))
      else Ret new
  end.

Definition deepCopy a : outcome (ArrayBase T) :=
  match deepCopyFn handle with
  | Some f =>
      for_loop (Z.to_nat (count a)) 0 (λ i a,
        x ← elemAt a i;
        withData a (λ d, l ← aset (v d) i (Some (f x)); Ret (mkGcArray (filled d) l))) a
  | None => Ret a
  end.

(** ** Access *)
Definition getRaw a (id : Z) : outcome Z :=
  if id <? count a then Ret id else Throw (ArrayError id (count a) None).
Definition firstRaw a : outcome Z := getRaw a 0.
Definition lastRaw a : outcome Z := getRaw a (u32 (count a - 1)).

(** [rnd] is [rand(0, count())]. *)
Definition randomRaw a (rnd : Z) : outcome Z :=
  if empty a then Throw (ArrayError 0 0 (Some "random"%string)) else getRaw a rnd.

(** ** Changing the array *)
Definition remove a (id : Z) : outcome (ArrayBase T) :=
  let c := count a in
  if c <=? id then Throw (ArrayError id c None)
  else
    withData a (λ d,
      o ← aget (v d) id;
      l ← aset (v d) id (safeDestroy handle o);
      l ← memmove l id l (id + 1) (c - id - 1);
      Ret (mkGcArray (filled d - 1) l)).

Definition pop a : outcome (ArrayBase T) :=
  if empty a then Throw (ArrayError 0 0 (Some "pop"%string))
  else
    let id := count a - 1 in
    withData a (λ d,
      o ← aget (v d) id;
      l ← aset (v d) id (safeDestroy handle o);
      Ret (mkGcArray (filled d - 1) l)).

Definition insertRaw a (to : Z) (item : T) : outcome (ArrayBase T) :=
  let c := count a in
  if c <? to then Throw (ArrayError to c (Some "insert"%string))
  else
    a ← ensure a (u32 (c + 1));
    withData a (λ d,
      l ← memmove (v d) (to + 1) (v d) to (c - to);
      l ← aset l to (Some (safeCopy handle item));
      Ret (mkGcArray (filled d + 1) l)).

(** [appendRaw(from)]; [same]: [from == this], whose data is the grown one. *)
Definition appendRaw (same : bool) a (from : ArrayBase T) : outcome (ArrayBase T) :=
  let here := count a in
  let copy := count from in
  if u32 (here + copy) =? 0 then Ret a
  else
    a ← ensure a (u32 (here + copy));
    let src := if same then slots a else slots from in
    a ← match copyFn handle with
        | Some f =>
            for_loop (Z.to_nat copy) 0 (λ i a,
              x ← slot (if same then slots a else src) i;
              withData a (λ d,
                l ← aset (v d) (here + i) (Some (f x));
                Ret (mkGcArray (filled d) l))) a
        | None =>
            withData a (λ d,
              l ← memmove (v d) here src 0 copy;
              Ret (mkGcArray (filled d) l))
        end;
    withData a (λ d, Ret (mkGcArray (u32 (here + copy)) (v d))).

(** [arraySwap(ptr(i), ptr(j))] *)
Definition swap (l : list (option T)) (i j : Z) : outcome (list (option T)) :=
  x ← aget l i; y ← aget l j; l ← aset l i y; aset l j x.

(** [while ((first != last) && (first != --last)) { swap; first++; }] *)
Fixpoint reverseLoop (fuel : nat) (l : list (option T)) (first last : Z) : outcome (list (option T)) :=
  match fuel with
  | O => OutOfFuel
  | S fuel =>
      if first =? last then Ret l
      else
        let last := last - 1 in
        if first =? last then Ret l
        else l ← swap l first last; reverseLoop fuel l (first + 1) last
  end.

Definition reverse a : outcome (ArrayBase T) :=
  if empty a then Ret a
  else
    withData a (λ d,
      l ← reverseLoop (S (length (v d))) (v d) 0 (count a);
      Ret (mkGcArray (filled d) l)).

(** ** Sorting *)
Definition sortWith a (compare : option (T → T → bool)) : outcome (ArrayBase T) :=
  if empty a then Ret a
  else
    a ← ensure a (u32 (count a + 1));
    withData a (λ d,
      sd ← Sort.sortData d handle compare;
      l ← Sort.sort sd (v d);
      Ret (mkGcArray (filled d) l)).

Definition sortRaw a : outcome (ArrayBase T) :=
  assert (match lessFn handle with Some _ => true | None => false end);;
  sortWith a None.

Definition sortRawPred a (compare : T → T → bool) : outcome (ArrayBase T) :=
  sortWith a (Some compare).

(** ** Duplicates *)

(** The comparison of neighbours: [compare] and the result that means "equal". *)
Definition dupCompare : outcome ((T → T → bool) * bool) :=
  match equalFn handle with
  | Some f => Ret (f, true)
  | None => match lessFn handle with Some f => Ret (f, false) | None => Fault end
  end.

(** [for (i = 1; i < count(); i++) if (compare(ptr(out), ptr(i)) != isEqual) ...] *)
Definition uniqueLoop (compare : T → T → bool) (isEqual : bool) (c : Z) (l : list (option T)) :
    outcome (list (option T) * Z) :=
  for_loop (Z.to_nat (c - 1)) 1 (λ i '(l, out),
    x ← slot l out; y ← slot l i;
    if eqb (compare x y) isEqual then Ret (l, out)
    else
      let out := out + 1 in
      l ← (if out =? i then Ret l else swap l out i);
      Ret (l, out)) (l, 0).

(** [while (count() > out + 1) pop()] *)
Fixpoint popTo (fuel : nat) a (out : Z) : outcome (ArrayBase T) :=
  match fuel with
  | O => OutOfFuel
  | S fuel => if out + 1 <? count a then a ← pop a; popTo fuel a out else Ret a
  end.

Definition removeDuplicatesWith a (compare : T → T → bool) (isEqual : bool) :
    outcome (ArrayBase T) :=
  match data a with
  | Some d =>
      '(l, out) ← uniqueLoop compare isEqual (count a) (v d);
      popTo (S (length l)) (mkArray (Some (mkGcArray (filled d) l))) out
  | None => Fault
  end.

Definition removeDuplicatesRaw a : outcome (ArrayBase T) :=
  if count a =? 0 then Ret a
  else '(compare, isEqual) ← dupCompare; removeDuplicatesWith a compare isEqual.

(** Both [<] and [==] are supported: the element is compared with itself. *)
Definition removeDuplicatesRawPred a (compare : T → T → bool) : outcome (ArrayBase T) :=
  if count a =? 0 then Ret a
  else x ← elemAt a 0; removeDuplicatesWith a compare (compare x x).

Definition withoutDuplicatesWith a (compare : T → T → bool) (isEqual : bool) :
    outcome (ArrayBase T) :=
  x ← elemAt a 0;
  copy ← pushRaw new x;
  for_loop (Z.to_nat (count a - 1)) 1 (λ i copy,
    x ← elemAt copy (count copy - 1); y ← elemAt a i;
    if eqb (compare x y) isEqual then Ret copy else pushRaw copy y) copy.

Definition withoutDuplicatesRaw a : outcome (ArrayBase T) :=
  if count a =? 0 then Ret new
  else '(compare, isEqual) ← dupCompare; withoutDuplicatesWith a compare isEqual.

Definition withoutDuplicatesRawPred a (compare : T → T → bool) : outcome (ArrayBase T) :=
  if count a =? 0 then Ret new
  else x ← elemAt a 0; withoutDuplicatesWith a compare (compare x x).

(** ** Binary search *)
Fixpoint boundLoop (fuel : nat) (test : Z → outcome bool) (first count : Z) : outcome Z :=
  match fuel with
  | O => OutOfFuel
  | S fuel =>
      if 0 <? count then
        let step := count `div` 2 in
        let middle := u32 (first + step) in
        b ← test middle;
        if b : bool then boundLoop fuel test (u32 (middle + 1)) (u32 (count - (step + 1)))
        else boundLoop fuel test first step
      else Ret first
  end.

Definition bound a (test : T → outcome bool) : outcome Z :=
  boundLoop (S (Z.to_nat (count a))) (λ middle, x ← elemAt a middle; test x) 0 (count a).

Definition less (x y : T) : outcome bool :=
  match lessFn handle with Some f => Ret (f x y) | None => Fault end.

Definition lowerBoundRaw a (find : T) : outcome Z := bound a (λ x, less x find).
Definition lowerBoundRawPred {U} a (find : U) (compare : T → U → bool) : outcome Z :=
  bound a (λ x, Ret (compare x find)).
Definition upperBoundRaw a (find : T) : outcome Z := bound a (λ x, negb <$> less find x).
Definition upperBoundRawPred {U} a (find : U) (compare : U → T → bool) : outcome Z :=
  bound a (λ x, Ret (negb (compare find x))).

(** ** Comparison *)

(** [for (i = 0; i < n; i++)] with a [return] in the body. *)
Fixpoint forReturn {R} (n : nat) (i : Z) (body : Z → outcome (option R)) : outcome (option R) :=
  match n with
  | O => Ret None
  | S n =>
      r ← body i;
      match r with Some x => Ret (Some x) | None => forReturn n (i + 1) body end
  end.

Definition equalRaw a (other : ArrayBase T) : outcome bool :=
  if negb (count a =? count other) then Ret false
  else
    r ← forReturn (Z.to_nat (count a)) 0 (λ i,
      x ← elemAt a i; y ← elemAt other i;
      e ← equal handle x y;
      Ret (if e : bool then None else Some false));
    Ret (default true r).

Definition lessRaw a (other : ArrayBase T) : outcome bool :=
  let smallest := Z.min (count a) (count other) in
  r ← match equalFn handle with
      | Some eq =>
          forReturn (Z.to_nat smallest) 0 (λ i,
            x ← elemAt a i; y ← elemAt other i;
            if eq x y then Ret None else Some <$> less x y)
      | None =>
          forReturn (Z.to_nat smallest) 0 (λ i,
            x ← elemAt a i; y ← elemAt other i;
            lt ← less x y;
            if lt : bool then Ret (Some true)
            else gt ← less y x; Ret (if gt : bool then Some false else None))
      end;
  Ret (default (count a <? count other) r).

(** ** Output *)
Definition toS a : outcome string :=
  first ← (if 0 <? count a then x ← elemAt a 0; Ret (toSFn handle x) else Ret ""%string);
  out ← for_loop (Z.to_nat (count a - 1)) 1 (λ i out,
    x ← elemAt a i; Ret (out +:+ ", "%string +:+ toSFn handle x)) ("["%string +:+ first);
  Ret (out +:+ "]"%string).

(** ** Iterators: an array and an index; [None] is a null owner. *)
Record Iter := mkIter { owner : option (ArrayBase T); index : Z }.

Definition iter_end : Iter := mkIter None 0.
Definition beginRaw a : Iter := mkIter (Some a) 0.
Definition endRaw a : Iter := mkIter (Some a) (count a).

Definition atEnd (it : Iter) : bool :=
  match owner it with None => true | Some a => count a <=? index it end.

(** [operator ==]; [same]: the owners are the same object. *)
Definition iterEq (same : bool) (x y : Iter) : bool :=
  if atEnd x || atEnd y then eqb (atEnd x) (atEnd y) else (index x =? index y) && same.

Definition preIncRaw (it : Iter) : Iter :=
  if atEnd it then it else mkIter (owner it) (u32 (index it + 1)).
Definition postIncRaw (it : Iter) : Iter * Iter := (it, preIncRaw it).

Definition iter_getRaw (it : Iter) : outcome Z :=
  if atEnd it then
    match owner it with
    | None => Fault
    | Some a => Throw (ArrayError (index it) (count a) (Some "iterator"%string))
    end
  else match owner it with Some a => getRaw a (index it) | None => Fault end.

(** ** The C++ interface [Array<T>] *)
Definition Array_at a (i : Z) : outcome T := p ← getRaw a i; elemAt a p.
Definition Array_first a : outcome T := p ← firstRaw a; elemAt a p.
Definition Array_last a : outcome T := p ← lastRaw a; elemAt a p.
Definition Array_sorted a : outcome (ArrayBase T) := c ← copy a; sortRaw c.
Definition Array_sortedPred a (compare : T → T → bool) : outcome (ArrayBase T) :=
  c ← copy a; sortRawPred c compare.
End array.
End ArrayBase.
