(* ===== verification/ArrayProofs.v ===== *)
(** * Arrays as lists

    Each operation of [ArrayBase] against its effect on the list of elements. *)

From stdpp Require Import base list numbers strings option decidable.
From Stdlib Require Import ZArith Lia.
From S2P Require Import Prelude Handle Sort Ranges SortProofs HeapProofs SortCorrect Array.
Import ArrayBase.

(** ** Blocks of memory *)
Section blocks.
Context {T : Type}.
Implicit Types (l m : list (option T)) (xs : list T).

Lemma memmove_app l1 m l2 s1 m' s2 :
  zlen m = zlen m' →
  memmove (l1 ++ m ++ l2) (zlen l1) (s1 ++ m' ++ s2) (zlen s1) (zlen m') = Ret (l1 ++ m' ++ l2).
Proof.
  intros Hl. unfold memmove. unfold zlen in *. rewrite decide_True.
  - f_equal. rewrite !Nat2Z.id. rewrite take_app_length, drop_app_length, take_app_length.
    f_equal. f_equal.
    replace (Z.to_nat (Z.of_nat (length l1) + Z.of_nat (length m'))) with (length (l1 ++ m)).
    + by rewrite app_assoc, drop_app_length.
    + rewrite length_app. lia.
  - rewrite !length_app. lia.
Qed.

(** The same with the positions given by their values. *)
Lemma memmove_at l1 m l2 s1 m' s2 dst src to from n :
  dst = l1 ++ m ++ l2 → src = s1 ++ m' ++ s2 → to = zlen l1 → from = zlen s1 → n = zlen m' →
  zlen m = zlen m' → memmove dst to src from n = Ret (l1 ++ m' ++ l2).
Proof. intros -> -> -> -> -> ?. by apply memmove_app. Qed.

Lemma aset_app l1 o l2 x : aset (l1 ++ o :: l2) (zlen l1) x = Ret (l1 ++ x :: l2).
Proof.
  rewrite aset_in.
  - f_equal. unfold insert, list_insertZ, zlen. rewrite decide_True by lia. rewrite Nat2Z.id.
    by rewrite insert_app_r_alt, Nat.sub_diag by lia.
  - rewrite zlen_app, zlen_cons. pose proof (zlen_nonneg l1). pose proof (zlen_nonneg l2). lia.
Qed.

(** Positions after [xs]. *)
Lemma aset_elems xs o l2 x :
  aset ((Some <$> xs) ++ o :: l2) (zlen xs) x = Ret ((Some <$> xs) ++ x :: l2).
Proof. rewrite <- (zlen_fmap Some xs). apply aset_app. Qed.

Lemma lookupZ_app_middle l1 o l2 : (l1 ++ o :: l2) !! zlen l1 = Some o.
Proof. unfold zlen. rewrite lookupZ_nat. by apply list_lookup_middle. Qed.

Lemma aget_elems xs o l2 : aget ((Some <$> xs) ++ o :: l2) (zlen xs) = Ret o.
Proof. apply aget_Some. rewrite <- (zlen_fmap Some xs). apply lookupZ_app_middle. Qed.

Lemma slot_app xs x l2 ys i :
  i = zlen xs → ys = xs ++ [x] → slot ((Some <$> ys) ++ l2) i = Ret x.
Proof.
  intros -> ->. unfold slot. rewrite fmap_app, <- app_assoc. cbn.
  rewrite <- (zlen_fmap Some xs). by rewrite (aget_Some _ _ (Some x)) by apply lookupZ_app_middle.
Qed.

Lemma lookupZ_elems xs l2 i x : xs !! i = Some x → ((Some <$> xs) ++ l2) !! i = Some (Some x).
Proof.
  intros Hx. pose proof (lookupZ_Some_lt _ _ _ Hx) as Hi. unfold zlen in Hi.
  rewrite lookupZ_to_nat in Hx by lia. rewrite lookupZ_to_nat by lia.
  rewrite lookup_app_l by (rewrite length_fmap; lia). by rewrite list_lookup_fmap, Hx.
Qed.
End blocks.

(** ** The representation *)

(** The array holds [xs]. *)
Definition rep {T} (a : ArrayBase T) (xs : list T) : Prop :=
  (data a = None ∧ xs = []) ∨
  ∃ rest, data a = Some (mkGcArray (zlen xs) ((Some <$> xs) ++ rest)) ∧ zlen xs + zlen rest < 2 ^ 32.

(** ... in a block with room for [n] elements. *)
Definition rep_room {T} (a : ArrayBase T) (xs : list T) (n : Z) : Prop :=
  ∃ rest, data a = Some (mkGcArray (zlen xs) ((Some <$> xs) ++ rest)) ∧
    n ≤ zlen xs + zlen rest < 2 ^ 32.

Section rep.
Context {World T : Type} (handle : Handle World T) `{!CopyHandle handle}.
Implicit Types (a : ArrayBase T) (xs : list T).

Lemma rep_room_rep a xs n : rep_room a xs n → rep a xs.
Proof. intros (rest & Hd & Hr). right. exists rest. split; [done|lia]. Qed.

Lemma rep_length a xs : rep a xs → zlen xs < 2 ^ 32.
Proof.
  intros [[_ ->]|(rest & _ & ?)]; [unfold zlen; cbn; lia|]. pose proof (zlen_nonneg rest). lia.
Qed.

Lemma count_rep a xs : rep a xs → count a = zlen xs.
Proof.
  intros Hr. pose proof (rep_length a xs Hr). unfold count.
  destruct Hr as [[-> ->]|(rest & -> & ?)]; [done|]. cbn. apply u32_small.
  pose proof (zlen_nonneg xs). zsolve.
Qed.

Lemma elemAt_rep a xs i x : rep a xs → xs !! i = Some x → elemAt a i = Ret x.
Proof.
  intros [[_ ->]|(rest & Hd & _)] Hx; [by rewrite lookupZ_nil in Hx|].
  unfold elemAt, slots, slot. rewrite Hd. cbn. by rewrite (aget_Some _ _ (Some x)) by by apply lookupZ_elems.
Qed.

Lemma new_rep : rep (new : ArrayBase T) [].
Proof. by left. Qed.

Lemma ensure_rep a xs n :
  rep a xs → 0 ≤ n < 2 ^ 32 →
  ∃ a', ensure a n = Ret a' ∧ rep a' xs ∧ (n ≠ 0 → rep_room a' xs n).
Proof.
  intros Hr Hn. pose proof (count_rep a xs Hr) as Hc. unfold ensure.
  destruct (Z.eqb_spec n 0) as [->|Hn0]; [by exists a|].
  assert (∀ c, n ≤ Z.of_nat (Z.to_nat (if Z.max 16 (u32 c) <? n then n else Z.max 16 (u32 c))) < 2 ^ 32) as Hcap.
  { intros c. pose proof (u32_range c). destruct (Z.ltb_spec (Z.max 16 (u32 c)) n); zsolve. }
  destruct Hr as [[Hd ->]|(rest & Hd & Hb)].
  - rewrite Hd. cbn [gc_count]. destruct (Z.leb_spec n 0); [lia|].
    eexists. split; [done|]. set (cap := if _ <? _ then _ else _) in *.
    assert (rep_room (mkArray (Some (allocArray (T:=T) cap))) [] n) as Hroom.
    { exists (replicate (Z.to_nat cap) None). split; [done|]. rewrite zlen_replicate.
      specialize (Hcap (0 * 2)). change (zlen (@nil T)) with 0. unfold cap in *. lia. }
    split; [by eapply rep_room_rep|done].
  - rewrite Hd. cbn [gc_count v]. unfold gc_count. cbn [v]. rewrite zlen_app, zlen_fmap.
    pose proof (zlen_nonneg xs). pose proof (zlen_nonneg rest). rewrite u32_small by zsolve.
    destruct (Z.leb_spec n (zlen xs + zlen rest)) as [Hle|Hgt].
    + exists a. split; [done|]. split; [right; by exists rest|]. intros _. exists rest. split; [done|lia].
    + rewrite Hc. specialize (Hcap ((zlen xs + zlen rest) * 2)).
      set (cap := if _ <? _ then _ else _) in *.
      erewrite (memmove_at [] (replicate (length xs) None)
        (replicate (Z.to_nat cap - length xs) None) [] (Some <$> xs) rest); try done.
      * cbn [mbind outcome_bind app]. eexists. split; [done|].
        set (rest' := replicate _ _). assert (zlen rest' = Z.of_nat (Z.to_nat cap) - zlen xs) as Hr'.
        { unfold rest'. rewrite zlen_replicate. unfold zlen in *. lia. }
        assert (rep_room (mkArray (Some (mkGcArray (zlen xs) ((Some <$> xs) ++ rest')))) xs n) as Hroom.
        { exists rest'. split; [done|]. lia. }
        split; [by eapply rep_room_rep|done].
      * cbn. rewrite <- replicate_add. f_equal. unfold zlen in *. lia.
      * by rewrite zlen_fmap.
      * rewrite zlen_replicate, zlen_fmap. done.
Qed.

(** After [ensure] there is at least one free slot. *)
Lemma ensure_push a xs :
  rep a xs → zlen xs + 1 < 2 ^ 32 →
  ∃ o rest, ensure a (u32 (zlen xs + 1)) =
      Ret (mkArray (Some (mkGcArray (zlen xs) ((Some <$> xs) ++ o :: rest)))) ∧
    zlen xs + 1 + zlen rest < 2 ^ 32.
Proof.
  intros Hr Hb. pose proof (zlen_nonneg xs). rewrite u32_small by zsolve.
  destruct (ensure_rep a xs (zlen xs + 1) Hr ltac:(lia)) as (a' & E & _ & Hroom).
  destruct (Hroom ltac:(lia)) as (rest & Hd & Hr'). destruct rest as [|o rest]; [change (zlen (@nil (option T))) with 0 in Hr'; lia|].
  exists o, rest. rewrite zlen_cons in Hr'. destruct a'. cbn in Hd. rewrite E, Hd. split; [done|lia].
Qed.

Lemma rep_intro xs rest :
  zlen xs + zlen rest < 2 ^ 32 → rep (mkArray (Some (mkGcArray (zlen xs) ((Some <$> xs) ++ rest)))) xs.
Proof. intros. right. by exists rest. Qed.

Lemma pushRaw_rep a xs x :
  rep a xs → zlen xs + 1 < 2 ^ 32 →
  ∃ a', pushRaw handle a x = Ret a' ∧ rep a' (xs ++ [x]).
Proof.
  intros Hr Hb. unfold pushRaw. rewrite (count_rep a xs Hr).
  destruct (ensure_push a xs Hr Hb) as (o & rest & -> & Hb'). cbn [mbind outcome_bind withData data v].
  rewrite (copy_id (h:=handle)). rewrite aset_elems. cbn.
  eexists. split; [done|].
  replace ((Some <$> xs) ++ Some x :: rest) with ((Some <$> (xs ++ [x])) ++ rest)
    by (by rewrite fmap_app, <- app_assoc).
  replace (zlen xs + 1) with (zlen (xs ++ [x])) in * by (by rewrite zlen_app).
  by apply rep_intro.
Qed.

Lemma insertRaw_rep a xs ys x :
  rep a (xs ++ ys) → zlen (xs ++ ys) + 1 < 2 ^ 32 →
  ∃ a', insertRaw handle a (zlen xs) x = Ret a' ∧ rep a' (xs ++ x :: ys).
Proof.
  intros Hr Hb. unfold insertRaw. rewrite (count_rep a _ Hr).
  pose proof (zlen_nonneg xs). pose proof (zlen_nonneg ys).
  rewrite zlen_app in *. destruct (Z.ltb_spec (zlen xs + zlen ys) (zlen xs)); [lia|].
  destruct (ensure_push a _ Hr) as (o & rest & E & Hb'); [by rewrite zlen_app|].
  rewrite zlen_app in E, Hb'. rewrite E. cbn [mbind outcome_bind withData data v filled].
  rewrite fmap_app, <- app_assoc. rewrite (copy_id (h:=handle)).
  assert (∃ o' t, (Some <$> ys) ++ [o] = o' :: t ∧ zlen t = zlen ys) as (o' & t & Et & Ht).
  { destruct ys as [|y ys']; [by exists o, []|]. exists (Some y), ((Some <$> ys') ++ [o]). split; [done|].
    unfold zlen. rewrite length_app, length_fmap. cbn. lia. }
  replace ((Some <$> xs) ++ (Some <$> ys) ++ o :: rest) with ((Some <$> xs) ++ o' :: t ++ rest)
    by (rewrite (app_comm_cons t rest o'), <- Et, <- app_assoc; done).
  rewrite (memmove_at ((Some <$> xs) ++ [o']) t rest (Some <$> xs) (Some <$> ys) (o :: rest)).
  - cbn [mbind outcome_bind]. rewrite <- app_assoc. cbn [app]. rewrite aset_elems.
    cbn. eexists. split; [done|].
    replace ((Some <$> xs) ++ Some x :: (Some <$> ys) ++ rest)
      with ((Some <$> (xs ++ x :: ys)) ++ rest) by (by rewrite fmap_app, fmap_cons, <- app_assoc).
    replace (zlen xs + zlen ys + 1) with (zlen (xs ++ x :: ys)) in *
      by (rewrite zlen_app, zlen_cons; lia).
    by apply rep_intro.
  - by rewrite <- app_assoc.
  - rewrite (app_comm_cons t rest o'), <- Et, <- !app_assoc. done.
  - rewrite zlen_app, zlen_fmap. done.
  - by rewrite zlen_fmap.
  - rewrite zlen_fmap. lia.
  - by rewrite zlen_fmap.
Qed.

Lemma remove_rep a xs x ys :
  rep a (xs ++ x :: ys) → ∃ a', remove handle a (zlen xs) = Ret a' ∧ rep a' (xs ++ ys).
Proof.
  intros Hr. unfold remove. rewrite (count_rep a _ Hr).
  pose proof (zlen_nonneg xs). pose proof (zlen_nonneg ys).
  rewrite zlen_app, zlen_cons. destruct (Z.leb_spec (zlen xs + (zlen ys + 1)) (zlen xs)); [lia|].
  destruct Hr as [[_ Hnil]|(rest & Hd & Hb)]; [by destruct xs|].
  unfold withData. rewrite Hd. cbn [v filled]. rewrite fmap_app, fmap_cons, <- app_assoc.
  change ((Some x :: (Some <$> ys)) ++ rest) with (Some x :: (Some <$> ys) ++ rest).
  rewrite aget_elems.
  cbn [mbind outcome_bind]. rewrite aset_elems. cbn [mbind outcome_bind].
  rewrite zlen_app, zlen_cons in Hb |- *.
  assert (∃ o t, (safeDestroy handle (Some x) :: (Some <$> ys)) ++ rest = t ++ o :: rest ∧ zlen t = zlen ys)
    as (o & t & Et & Ht).
  { destruct (exists_last (l:=safeDestroy handle (Some x) :: (Some <$> ys))) as (t & o & E); [done|].
    exists o, t. rewrite E, <- app_assoc. split; [done|]. apply (f_equal zlen) in E.
    rewrite zlen_cons, zlen_app, zlen_fmap in E. change (zlen [o]) with 1 in E. lia. }
  rewrite (memmove_at (Some <$> xs) t (o :: rest) ((Some <$> xs) ++ [safeDestroy handle (Some x)])
    (Some <$> ys) rest).
  - cbn. eexists. split; [done|].
    replace ((Some <$> xs) ++ (Some <$> ys) ++ o :: rest) with ((Some <$> (xs ++ ys)) ++ o :: rest)
      by (by rewrite fmap_app, <- app_assoc).
    replace (zlen xs + (zlen ys + 1) - 1) with (zlen (xs ++ ys)) by (rewrite zlen_app; lia).
    apply rep_intro. rewrite zlen_app, zlen_cons. lia.
  - cbn. by rewrite <- Et.
  - by rewrite <- app_assoc.
  - by rewrite zlen_fmap.
  - by rewrite zlen_app, zlen_fmap.
  - rewrite zlen_fmap. lia.
  - by rewrite zlen_fmap.
Qed.

Lemma pop_rep a xs x : rep a (xs ++ [x]) → ∃ a', pop handle a = Ret a' ∧ rep a' xs.
Proof.
  intros Hr. unfold pop, empty. rewrite (count_rep a _ Hr). rewrite zlen_app. change (zlen [x]) with 1.
  pose proof (zlen_nonneg xs). destruct (Z.eqb_spec (zlen xs + 1) 0); [lia|].
  replace (zlen xs + 1 - 1) with (zlen xs) by lia.
  destruct Hr as [[_ Hnil]|(rest & Hd & Hb)]; [by destruct xs|].
  unfold withData. rewrite Hd. cbn [v filled]. rewrite fmap_app, <- app_assoc. cbn [fmap list_fmap app].
  rewrite aget_elems.
  cbn [mbind outcome_bind]. rewrite aset_elems. cbn.
  eexists. split; [done|]. rewrite zlen_app in Hb |- *. change (zlen [x]) with 1 in *.
  replace (zlen xs + 1 - 1) with (zlen xs) by lia. apply rep_intro. rewrite zlen_cons. lia.
Qed.

Lemma slots_rep a xs : rep a xs → ∃ rest, slots a = (Some <$> xs) ++ rest.
Proof.
  intros [[Hd ->]|(rest & Hd & _)]; unfold slots; rewrite Hd; [by exists []|by exists rest].
Qed.

(** ** Copying blocks *)

(** A block with room for [ys] after [xs]. *)
Lemma rep_room_split a xs n :
  rep_room a xs n → 0 ≤ n → ∃ r1 r2,
    data a = Some (mkGcArray (zlen xs) ((Some <$> xs) ++ r1 ++ r2)) ∧ zlen xs + zlen r1 = Z.max n (zlen xs) ∧
    zlen xs + zlen r1 + zlen r2 < 2 ^ 32.
Proof.
  intros (rest & Hd & Hr) Hn. pose proof (zlen_nonneg xs). set (k := Z.to_nat (Z.max 0 (n - zlen xs))).
  exists (take k rest), (drop k rest). rewrite take_drop. split; [done|].
  assert (zlen (take k rest) = Z.max 0 (n - zlen xs)) as E.
  { unfold zlen in *. rewrite length_take. lia. }
  assert (zlen (take k rest) + zlen (drop k rest) = zlen rest) as E'.
  { rewrite <- zlen_app, take_drop. done. }
  lia.
Qed.

(** The loop that copies [ys] behind [xs], element by element. *)
Lemma copyLoop_rep (f : T → T) (get : ArrayBase T → Z → outcome T) (fill : Z → Z → Z) xs ys r1 r2 c0 :
  (∀ x, f x = x) → zlen r1 = zlen ys →
  (∀ a i c r, 0 ≤ i < zlen ys →
     data a = Some (mkGcArray c ((Some <$> (xs ++ take (Z.to_nat i) ys)) ++ r)) →
     ∃ y, ys !! i = Some y ∧ get a i = Ret y) →
  returns (for_loop (length ys) 0 (λ i a,
      x ← get a i;
      withData a (λ d,
        l ← aset (v d) (zlen xs + i) (Some (f x));
        Ret (mkGcArray (fill (filled d) i) l)))
    (mkArray (Some (mkGcArray c0 ((Some <$> xs) ++ r1 ++ r2)))))
    (λ a, ∃ c, data a = Some (mkGcArray c ((Some <$> (xs ++ ys)) ++ r2)) ∧
      (ys = [] → c = c0) ∧ (∀ c', ys ≠ [] → (∀ x, fill x (zlen ys - 1) = c') → c = c') ∧
      ((∀ x i, fill x i = x) → c = c0)).
Proof.
  intros Hf Hr1 Hget. eapply returns_mono.
  - apply (returns_for_loop (λ i a, 0 ≤ i ≤ zlen ys ∧ ∃ c r, zlen r = zlen ys - i ∧
      data a = Some (mkGcArray c ((Some <$> (xs ++ take (Z.to_nat i) ys)) ++ r ++ r2)) ∧
      (i = 0 → c = c0) ∧ (0 < i → ∃ x, c = fill x (i - 1)) ∧ ((∀ x i, fill x i = x) → c = c0))).
    { split; [pose proof (zlen_nonneg ys); lia|]. exists c0, r1. rewrite Z.sub_0_r. cbn. rewrite app_nil_r.
      split_and!; try done. }
    intros i a Hi (Hi' & c & r & Hr & Hd & _ & _ & Hfix). rewrite Z.add_0_l in Hi. fold (zlen ys) in Hi.
    destruct (Hget a i c (r ++ r2) ltac:(lia) Hd) as (y & Hy & ->). cbn [mbind outcome_bind].
    unfold withData. rewrite Hd. cbn [v filled]. destruct r as [|o r]; [change (zlen (@nil (option T))) with 0 in Hr; lia|].
    assert (zlen (xs ++ take (Z.to_nat i) ys) = zlen xs + i) as Hz.
    { rewrite zlen_app. f_equal. unfold zlen in *. rewrite length_take. lia. }
    rewrite <- Hz. cbn [app]. rewrite aset_elems. cbn. split; [lia|].
    exists (fill c i), r. rewrite zlen_cons in Hr. split; [lia|]. split_and!.
    + do 2 f_equal. replace (Z.to_nat (i + 1)) with (S (Z.to_nat i)) by lia.
      rewrite lookupZ_to_nat in Hy by lia.
      assert (xs ++ take (S (Z.to_nat i)) ys = (xs ++ take (Z.to_nat i) ys) ++ [y]) as ->
        by (by rewrite (take_S_r _ _ _ Hy), app_assoc).
      rewrite (fmap_app Some (xs ++ take (Z.to_nat i) ys)), <- app_assoc. cbn. by rewrite Hf.
    + lia.
    + intros _. exists c. f_equal. lia.
    + intros Hfx. rewrite Hfx. by apply Hfix.
  - intros a (_ & c & r & Hr & Hd & H0 & H1 & H2). rewrite Z.add_0_l in *. fold (zlen ys) in *.
    destruct r; [|rewrite zlen_cons in Hr; pose proof (zlen_nonneg r); lia].
    exists c. unfold zlen in Hd. rewrite Nat2Z.id, firstn_all in Hd. split; [done|].
    split_and!; [|intros c' Hne Hc'|done].
    + intros ->. by apply H0.
    + destruct H1 as [x ->]; [|apply Hc']. destruct ys; [done|]. rewrite zlen_cons. pose proof (zlen_nonneg ys). lia.
Qed.

Lemma copyFn_id f x : copyFn handle = Some f → f x = x.
Proof using CopyHandle0. intros E. pose proof (copy_id (h:=handle) x) as H. unfold safeCopy in H. by rewrite E in H. Qed.

Lemma appendRaw_rep same a from xs ys :
  rep a xs → rep from ys → (same = true → from = a) → zlen xs + zlen ys < 2 ^ 32 →
  ∃ a', appendRaw handle same a from = Ret a' ∧ rep a' (xs ++ ys).
Proof using CopyHandle0.
  intros Hr Hr' Hsame Hb. pose proof (zlen_nonneg xs). pose proof (zlen_nonneg ys).
  assert (same = true → ys = xs) as Hys.
  { intros E. rewrite (Hsame E) in Hr'. apply list_eqZ.
    - by rewrite <- (count_rep a xs Hr), <- (count_rep a ys Hr').
    - intros i Hi. destruct (lookupZ_lt_Some ys i Hi) as [y Hy].
      rewrite <- (count_rep a ys Hr'), (count_rep a xs Hr) in Hi.
      destruct (lookupZ_lt_Some xs i Hi) as [x Hx].
      pose proof (elemAt_rep a xs i x Hr Hx). pose proof (elemAt_rep a ys i y Hr' Hy). congruence. }
  unfold appendRaw. rewrite (count_rep a xs Hr), (count_rep from ys Hr'). rewrite u32_small by zsolve.
  destruct (Z.eqb_spec (zlen xs + zlen ys) 0) as [E0|E0].
  { exists a. split; [done|]. destruct ys; [by rewrite app_nil_r|].
    rewrite zlen_cons in E0. pose proof (zlen_nonneg ys). lia. }
  destruct (ensure_rep a xs (zlen xs + zlen ys) Hr ltac:(lia)) as (a1 & -> & Hr1 & Hroom).
  destruct (rep_room_split a1 xs _ (Hroom E0) ltac:(lia)) as (r1 & r2 & Hd & Hz & Hb1).
  destruct a1 as [d1]. cbn in Hd. subst d1. cbn [mbind outcome_bind].
  destruct (slots_rep from ys Hr') as [rf Hsf].
  assert (∃ rs, (if same then slots (mkArray (Some (mkGcArray (zlen xs) ((Some <$> xs) ++ r1 ++ r2)))) else slots from)
    = (Some <$> ys) ++ rs) as [rs Hsrc].
  { destruct same; [|by exists rf]. exists (r1 ++ r2). by rewrite (Hys eq_refl). }
  rewrite Hsrc. assert (Z.to_nat (zlen ys) = length ys) as Hn by (unfold zlen; lia).
  assert (∃ a2, match copyFn handle with
      | Some f => for_loop (Z.to_nat (zlen ys)) 0 (λ i a,
          x ← slot (if same then slots a else (Some <$> ys) ++ rs) i;
          withData a (λ d, l ← aset (v d) (zlen xs + i) (Some (f x)); Ret (mkGcArray (filled d) l)))
          (mkArray (Some (mkGcArray (zlen xs) ((Some <$> xs) ++ r1 ++ r2))))
      | None => withData (mkArray (Some (mkGcArray (zlen xs) ((Some <$> xs) ++ r1 ++ r2)))) (λ d,
          l ← memmove (v d) (zlen xs) ((Some <$> ys) ++ rs) 0 (zlen ys); Ret (mkGcArray (filled d) l))
      end = Ret a2 ∧ data a2 = Some (mkGcArray (zlen xs) ((Some <$> (xs ++ ys)) ++ r2))) as (a2 & -> & Hd2).
  { destruct (copyFn handle) as [f|] eqn:Ef.
    - rewrite Hn. pose proof (copyLoop_rep f (λ a i, slot (if same then slots a else (Some <$> ys) ++ rs) i)
        (λ x _, x) xs ys r1 r2 (zlen xs)) as Hl.
      destruct (proj1 (returns_exists _ _) (Hl ltac:(intros; by apply copyFn_id) ltac:(lia) ltac:(clear Hl;
        intros a0 i c r Hi Hd; destruct (lookupZ_lt_Some ys i Hi) as [y Hy]; exists y; split; [done|];
        unfold slot; destruct same; [unfold slots; rewrite Hd; cbn; rewrite fmap_app, <- app_assoc;
          rewrite (Hys eq_refl) in Hy |- *|]; by rewrite (aget_Some _ _ (Some y)) by by apply lookupZ_elems)))
        as (a2 & E & c & Hd2 & _ & _ & Hc).
      exists a2. split; [exact E|]. rewrite Hd2. by rewrite (Hc ltac:(done)).
    - unfold withData. cbn [data v filled].
      rewrite (memmove_at (Some <$> xs) r1 r2 [] (Some <$> ys) rs); try done.
      + cbn. eexists. split; [done|]. cbn. by rewrite fmap_app, <- app_assoc.
      + by rewrite zlen_fmap.
      + by rewrite zlen_fmap.
      + rewrite zlen_fmap. lia. }
  cbn [mbind outcome_bind]. unfold withData. rewrite Hd2. cbn. eexists. split; [done|].
  rewrite <- zlen_app. apply rep_intro. rewrite zlen_app. lia.
Qed.

Lemma copy_rep a xs : rep a xs → ∃ a', copy handle a = Ret a' ∧ rep a' xs.
Proof using CopyHandle0.
  intros Hr. unfold copy. rewrite (count_rep a xs Hr). pose proof (zlen_nonneg xs). pose proof (rep_length a xs Hr).
  assert (Z.to_nat (zlen xs) = length xs) as Hn by (unfold zlen; lia).
  destruct (ensure_rep new [] (zlen xs) new_rep ltac:(lia)) as (a1 & -> & Hr1 & Hroom).
  destruct (decide (zlen xs = 0)) as [E0|E0].
  { assert (xs = []) as -> by (destruct xs; [done|rewrite zlen_cons in E0; pose proof (zlen_nonneg xs); lia]).
    destruct (copyFn handle); cbn; eauto using new_rep. }
  destruct (rep_room_split a1 [] _ (Hroom E0) ltac:(lia)) as (r1 & r2 & Hd & Hz & Hb1).
  change (zlen (@nil T)) with 0 in Hz, Hb1. destruct a1 as [d1]. cbn in Hd. subst d1. cbn [mbind outcome_bind].
  destruct (copyFn handle) as [f|] eqn:Ef.
  - rewrite Hn. pose proof (copyLoop_rep f (λ _ i, elemAt a i) (λ _ i, i + 1) [] xs r1 r2 0) as Hl.
    destruct (proj1 (returns_exists _ _) (Hl ltac:(intros; by apply copyFn_id) ltac:(lia) ltac:(clear Hl;
      intros a0 i c r Hi Hd; destruct (lookupZ_lt_Some xs i Hi) as [y Hy]; exists y; split;
      [done|by apply (elemAt_rep a xs)]))) as (a2 & E & c & Hd2 & _ & Hc & _).
    exists a2. split; [exact E|]. right. exists r2. rewrite Hd2. cbn.
    rewrite (Hc (zlen xs)); [split; [done|lia]| |intros; lia]. intros ->. by apply E0.
  - destruct (Z.ltb_spec 0 (zlen xs)); [|lia]. unfold withData. cbn [data v filled mbind outcome_bind].
    destruct (slots_rep a xs Hr) as [rf Hsf]. rewrite Hsf.
    rewrite (memmove_at [] r1 r2 [] (Some <$> xs) rf); try done.
    + cbn. eexists. split; [done|]. apply rep_intro. lia.
    + by rewrite zlen_fmap.
    + rewrite zlen_fmap. lia.
Qed.

Lemma newFilled_rep n x :
  0 ≤ n < 2 ^ 32 → ∃ a, newFilled handle n x = Ret a ∧ rep a (replicate (Z.to_nat n) x).
Proof using CopyHandle0.
  intros Hn. unfold newFilled.
  destruct (ensure_rep new [] n new_rep ltac:(lia)) as (a1 & -> & Hr1 & Hroom).
  destruct (decide (n = 0)) as [->|E0]; [by exists a1|].
  destruct (rep_room_split a1 [] _ (Hroom E0) ltac:(lia)) as (r1 & r2 & Hd & Hz & Hb1).
  change (zlen (@nil T)) with 0 in Hz, Hb1. destruct a1 as [d1]. cbn in Hd. subst d1. cbn [mbind outcome_bind].
  set (xs := replicate (Z.to_nat n) x). assert (zlen xs = n) as Hx by (unfold xs; rewrite zlen_replicate; lia).
  assert (∀ i, 0 ≤ i < zlen xs → xs !! i = Some x) as Hrep by (intros; unfold xs; apply lookupZ_replicate; lia).
  assert (Z.to_nat n = length xs) as Hlen by (unfold zlen in Hx; lia). clearbody xs.
  pose proof (copyLoop_rep (λ y, safeCopy handle y) (λ _ _, Ret x) (λ _ i, i + 1) [] xs r1 r2 0) as Hl.
  destruct (proj1 (returns_exists _ _) (Hl ltac:(intros; by apply (copy_id (h:=handle))) ltac:(lia) ltac:(clear Hl;
    intros a0 i c r Hi Hd; exists x; split; [by apply Hrep|done])))
    as (a2 & E & c & Hd2 & _ & Hc & _).
  exists a2. split; [rewrite Hlen; exact E|]. right. exists r2. rewrite Hd2. cbn.
  rewrite (Hc (zlen xs)); [split; [done|lia]| |intros; lia]. intros Hnil. rewrite Hnil in Hx.
  change (zlen (@nil T)) with 0 in Hx. lia.
Qed.

(** ** Reversal *)

Lemma swap_app (l1 m l2 : list (option T)) x y i j :
  i = zlen l1 → j = zlen l1 + 1 + zlen m →
  swap (l1 ++ x :: m ++ y :: l2) i j = Ret (l1 ++ y :: m ++ x :: l2).
Proof.
  intros -> ->. unfold swap.
  rewrite (aget_Some (l1 ++ x :: m ++ y :: l2) (zlen l1) x) by apply lookupZ_app_middle.
  cbn [mbind outcome_bind].
  assert (l1 ++ x :: m ++ y :: l2 = (l1 ++ x :: m) ++ y :: l2) as E by (by rewrite <- app_assoc).
  assert (zlen (l1 ++ x :: m) = zlen l1 + 1 + zlen m) as Hz by (rewrite zlen_app, zlen_cons; lia).
  rewrite E, <- Hz, (aget_Some ((l1 ++ x :: m) ++ y :: l2) _ y) by apply lookupZ_app_middle. cbn [mbind outcome_bind].
  rewrite <- E, aset_app. cbn [mbind outcome_bind].
  assert (l1 ++ y :: m ++ y :: l2 = (l1 ++ y :: m) ++ y :: l2) as -> by (by rewrite <- app_assoc).
  assert (zlen (l1 ++ x :: m) = zlen (l1 ++ y :: m)) as -> by (by rewrite !zlen_app, !zlen_cons).
  rewrite aset_app. by rewrite <- app_assoc.
Qed.

Lemma reverseLoop_spec fuel (l1 m l2 : list (option T)) :
  (length m < fuel)%nat →
  reverseLoop fuel (l1 ++ m ++ l2) (zlen l1) (zlen l1 + zlen m) = Ret (l1 ++ rev m ++ l2).
Proof.
  revert l1 m l2. induction fuel as [|fuel IH]; intros l1 m l2 Hf; [lia|]. cbn [reverseLoop].
  destruct m as [|x m]; [change (zlen (@nil (option T))) with 0; by rewrite Z.add_0_r, Z.eqb_refl|].
  rewrite zlen_cons. pose proof (zlen_nonneg m).
  destruct (Z.eqb_spec (zlen l1) (zlen l1 + (zlen m + 1))); [lia|].
  destruct m as [|y m _] using rev_ind.
  { change (zlen (@nil (option T))) with 0. destruct (Z.eqb_spec (zlen l1) (zlen l1 + (0 + 1) - 1)); [done|lia]. }
  rewrite zlen_app. change (zlen [y]) with 1. pose proof (zlen_nonneg m).
  destruct (Z.eqb_spec (zlen l1) (zlen l1 + (zlen m + 1 + 1) - 1)); [lia|].
  replace (l1 ++ (x :: m ++ [y]) ++ l2) with (l1 ++ x :: m ++ y :: l2) by (cbn; by rewrite <- app_assoc).
  rewrite (swap_app l1 m l2 x y) by lia. cbn [mbind outcome_bind].
  specialize (IH (l1 ++ [y]) m (x :: l2)). rewrite zlen_app, <- !app_assoc in IH. change (zlen [y]) with 1 in IH.
  cbn in Hf. rewrite length_app in Hf. cbn in Hf.
  replace (zlen l1 + (zlen m + 1 + 1) - 1) with (zlen l1 + 1 + zlen m) by lia. cbn in IH.
  rewrite IH by lia. cbn [rev]. rewrite rev_app_distr. cbn. by rewrite <- app_assoc.
Qed.

Lemma reverse_rep a xs : rep a xs → ∃ a', ArrayBase.reverse a = Ret a' ∧ rep a' (rev xs).
Proof.
  intros Hr. unfold ArrayBase.reverse, empty. rewrite (count_rep a xs Hr).
  destruct (Z.eqb_spec (zlen xs) 0) as [E0|E0].
  { exists a. split; [done|]. by destruct xs; [|rewrite zlen_cons in E0; pose proof (zlen_nonneg xs); lia]. }
  destruct Hr as [[_ ->]|(rest & Hd & Hb)]; [done|]. unfold withData. rewrite Hd. cbn [v filled].
  pose proof (reverseLoop_spec (S (length ((Some <$> xs) ++ rest))) [] (Some <$> xs) rest) as Hl.
  rewrite zlen_fmap in Hl. change (zlen (@nil (option T))) with 0 in Hl. cbn [app] in Hl. rewrite Z.add_0_l in Hl.
  rewrite Hl by (rewrite length_app, length_fmap; lia). cbn. eexists. split; [done|].
  assert (rev (Some <$> xs) = Some <$> rev xs) as -> by (symmetry; apply (map_rev Some xs)).
  replace (zlen xs) with (zlen (rev xs)) in * by (unfold zlen; by rewrite length_rev).
  by apply rep_intro.
Qed.
End rep.
