(* ===== verification/ArrayCorrect.v ===== *)
(** * Correctness of arrays

    [Array<T>] ([Core/Array.h], [Core/Array.cpp]) behaves as a list: sequences of
    operations with their errors, sorting, removal of duplicates, binary search and
    comparison. *)

From stdpp Require Import base list numbers strings option decidable pretty.
From Stdlib Require Import ZArith Lia.
From S2P Require Import Prelude Handle Sort Ranges SortProofs HeapProofs SortCorrect Array ArrayProofs.
Import ArrayBase.

(** ** Sequences of operations *)

Inductive aop (T : Type) :=
  | APush (x : T)
  | AInsert (i : nat) (x : T)
  | ARemove (i : nat)
  | APop
  | AGet (i : nat)
  | AFirst
  | ALast
  | ACount
  | AReverse
  | AReserve (n : nat)
  | AAppendSelf
  | ACopy
  | AClear.
Arguments APush {T}.
Arguments AInsert {T}.
Arguments ARemove {T}.
Arguments APop {T}.
Arguments AGet {T}.
Arguments AFirst {T}.
Arguments ALast {T}.
Arguments ACount {T}.
Arguments AReverse {T}.
Arguments AReserve {T}.
Arguments AAppendSelf {T}.
Arguments ACopy {T}.
Arguments AClear {T}.

(** What a caller sees: nothing, an element, a number or an exception. *)
Inductive ares (T : Type) :=
  | AUnit
  | AElem (x : T)
  | ANat (n : Z)
  | AExn (e : exn).
Arguments AUnit {T}.
Arguments AElem {T}.
Arguments ANat {T}.
Arguments AExn {T}.

(** The operation on a list; failed operations leave it as it was. *)
Definition ameaning {T} (xs : list T) (o : aop T) : list T * ares T :=
  match o with
  | APush x => (xs ++ [x], AUnit)
  | AInsert i x =>
      if decide (i ≤ length xs)%nat then (take i xs ++ x :: drop i xs, AUnit)
      else (xs, AExn (ArrayError (Z.of_nat i) (zlen xs) (Some "insert"%string)))
  | ARemove i =>
      if decide (i < length xs)%nat then (delete i xs, AUnit)
      else (xs, AExn (ArrayError (Z.of_nat i) (zlen xs) None))
  | APop =>
      if decide (xs = []) then (xs, AExn (ArrayError 0 0 (Some "pop"%string)))
      else (take (length xs - 1) xs, AUnit)
  | AGet i =>
      match xs !! i with
      | Some x => (xs, AElem x)
      | None => (xs, AExn (ArrayError (Z.of_nat i) (zlen xs) None))
      end
  | AFirst =>
      match head xs with Some x => (xs, AElem x) | None => (xs, AExn (ArrayError 0 0 None)) end
  | ALast =>
      match last xs with
      | Some x => (xs, AElem x)
      | None => (xs, AExn (ArrayError (2 ^ 32 - 1) 0 None))
      end
  | ACount => (xs, ANat (zlen xs))
  | AReverse => (rev xs, AUnit)
  | AReserve _ => (xs, AUnit)
  | AAppendSelf => (xs ++ xs, AUnit)
  | ACopy => (xs, AUnit)
  | AClear => ([], AUnit)
  end.

Fixpoint ameanings {T} (xs : list T) (os : list (aop T)) : list T * list (ares T) :=
  match os with
  | [] => (xs, [])
  | o :: os => let '(xs, r) := ameaning xs o in let '(xs, rs) := ameanings xs os in (xs, r :: rs)
  end.

(** Every list on the way fits the 32-bit length. *)
Fixpoint fits {T} (xs : list T) (os : list (aop T)) : Prop :=
  match os with
  | [] => True
  | o :: os =>
      zlen xs + 1 < 2 ^ 32 ∧ zlen (ameaning xs o).1 < 2 ^ 32 ∧
      match o with AReserve n => Z.of_nat n < 2 ^ 32 | _ => True end ∧ fits (ameaning xs o).1 os
  end.

Section sequences.
Context {World T : Type} (handle : Handle World T) `{!CopyHandle handle}.
Implicit Types (a : ArrayBase T) (xs : list T).

(** A caller that catches exceptions keeps the array it had. *)
Definition catch a (o : outcome (ArrayBase T * ares T)) : outcome (ArrayBase T * ares T) :=
  match o with Throw e => Ret (a, AExn e) | _ => o end.

Definition aexec a (o : aop T) : outcome (ArrayBase T * ares T) :=
  catch a match o with
  | APush x => a ← pushRaw handle a x; Ret (a, AUnit)
  | AInsert i x => a ← insertRaw handle a (Z.of_nat i) x; Ret (a, AUnit)
  | ARemove i => a ← remove handle a (Z.of_nat i); Ret (a, AUnit)
  | APop => a ← pop handle a; Ret (a, AUnit)
  | AGet i => x ← Array_at a (Z.of_nat i); Ret (a, AElem x)
  | AFirst => x ← Array_first a; Ret (a, AElem x)
  | ALast => x ← Array_last a; Ret (a, AElem x)
  | ACount => Ret (a, ANat (count a))
  | AReverse => a ← reverse a; Ret (a, AUnit)
  | AReserve n => a ← reserve a (Z.of_nat n); Ret (a, AUnit)
  | AAppendSelf => a ← appendRaw handle true a a; Ret (a, AUnit)
  | ACopy => a ← copy handle a; Ret (a, AUnit)
  | AClear => Ret (clear, AUnit)
  end.

Fixpoint arun a (os : list (aop T)) : outcome (ArrayBase T * list (ares T)) :=
  match os with
  | [] => Ret (a, [])
  | o :: os => '(a, r) ← aexec a o; '(a, rs) ← arun a os; Ret (a, r :: rs)
  end.

Lemma at_rep a xs i :
  rep a xs → 0 ≤ i →
  Array_at a i = match xs !! i with
                 | Some x => Ret x
                 | None => Throw (ArrayError i (zlen xs) None)
                 end.
Proof.
  intros Hr Hi. unfold Array_at, getRaw. rewrite (count_rep a xs Hr).
  destruct (Z.ltb_spec i (zlen xs)) as [Hlt|Hge].
  - destruct (lookupZ_lt_Some xs i) as [x Hx]; [lia|]. rewrite Hx. cbn. by apply (elemAt_rep a xs).
  - by rewrite lookupZ_ge_None by lia.
Qed.

Lemma last_lookupZ xs : xs ≠ [] → xs !! (zlen xs - 1) = last xs.
Proof.
  intros Hne. rewrite last_lookup. unfold zlen. destruct xs; [done|]. cbn [length].
  rewrite lookupZ_to_nat by lia. f_equal. lia.
Qed.

Lemma aexec_meaning a xs o :
  rep a xs → zlen xs + 1 < 2 ^ 32 → zlen (ameaning xs o).1 < 2 ^ 32 →
  match o with AReserve n => Z.of_nat n < 2 ^ 32 | _ => True end →
  ∃ a', aexec a o = Ret (a', (ameaning xs o).2) ∧ rep a' (ameaning xs o).1.
Proof.
  intros Hr H1 H2 H3. unfold aexec. pose proof (count_rep a xs Hr) as Hc.
  destruct o as [x|i x|i| |i| | | | |n| | |]; cbn [ameaning] in *.
  - destruct (pushRaw_rep handle a xs x Hr H1) as (a' & -> & ?). by exists a'.
  - case_decide as Hi.
    + rewrite <- (take_drop i xs) in Hr, H1.
      destruct (insertRaw_rep handle a _ _ x Hr H1) as (a' & E & ?).
      assert (zlen (take i xs) = Z.of_nat i) as Hz by (unfold zlen; rewrite length_take; lia).
      rewrite Hz in E. rewrite E. by exists a'.
    + unfold insertRaw. rewrite Hc. destruct (Z.ltb_spec (zlen xs) (Z.of_nat i)); [by exists a|unfold zlen in *; lia].
  - case_decide as Hi.
    + destruct (lookup_lt_is_Some_2 xs i Hi) as [x Hx]. pose proof (take_drop_middle xs i x Hx) as E.
      rewrite <- E in Hr. destruct (remove_rep handle a _ _ _ Hr) as (a' & E' & ?).
      assert (zlen (take i xs) = Z.of_nat i) as Hz by (unfold zlen; rewrite length_take; lia).
      rewrite Hz in E'. rewrite E'. exists a'. split; [done|]. by rewrite delete_take_drop.
    + unfold remove. rewrite Hc. destruct (Z.leb_spec (zlen xs) (Z.of_nat i)); [by exists a|unfold zlen in *; lia].
  - case_decide as Hn.
    + subst xs. unfold pop, empty. rewrite Hc. by exists a.
    + destruct xs as [|x xs _] using rev_ind; [done|]. destruct (pop_rep handle a xs x Hr) as (a' & -> & ?).
      exists a'. split; [done|]. cbn. rewrite length_app. cbn. rewrite take_app_length' by lia. done.
  - rewrite (at_rep a xs _ Hr) by lia. rewrite lookupZ_nat. destruct (xs !! i); by exists a.
  - unfold Array_first, firstRaw. fold (Array_at a 0). rewrite (at_rep a xs 0 Hr) by lia.
    destruct xs; cbn; by exists a.
  - unfold Array_last, lastRaw. fold (Array_at a (u32 (count a - 1))). rewrite Hc.
    destruct (decide (xs = [])) as [->|Hne].
    + rewrite (at_rep a [] _ Hr) by (vm_compute; discriminate). rewrite lookupZ_nil. by exists a.
    + assert (0 < zlen xs) by (destruct xs; [done|]; rewrite zlen_cons; pose proof (zlen_nonneg xs); lia).
      rewrite u32_small by zsolve. rewrite (at_rep a xs _ Hr), last_lookupZ by (done || lia).
      destruct (last xs) eqn:E; [by exists a|]. by apply last_None in E.
  - rewrite Hc. by exists a.
  - destruct (reverse_rep a xs Hr) as (a' & -> & ?). by exists a'.
  - destruct (ensure_rep a xs (Z.of_nat n) Hr ltac:(lia)) as (a' & E & ? & _). unfold reserve. rewrite E. by exists a'.
  - cbn in H2. rewrite zlen_app in H2. destruct (appendRaw_rep handle true a a xs xs Hr Hr) as (a' & -> & ?); [done|lia|]. by exists a'.
  - destruct (copy_rep handle a xs Hr) as (a' & -> & ?). by exists a'.
  - exists clear. split; [done|]. by left.
Qed.

(** C6: an array behaves as a list.  Any sequence of operations returns the results
    the list gives, exceptions included (insert, remove, get out of range; pop, first,
    last on an empty array), and a failed operation changes nothing. *)
Theorem array_refines a xs os :
  rep a xs → fits xs os →
  ∃ a', arun a os = Ret (a', (ameanings xs os).2) ∧ rep a' (ameanings xs os).1.
Proof.
  revert a xs. induction os as [|o os IH]; intros a xs Hr Hf; [by exists a|].
  destruct Hf as (H1 & H2 & H3 & Hf). cbn [arun ameanings].
  destruct (aexec_meaning a xs o Hr H1 H2 H3) as (a1 & -> & Hr1). cbn [mbind outcome_bind].
  destruct (ameaning xs o) as [xs1 r]. cbn in *.
  destruct (IH a1 xs1 Hr1 Hf) as (a2 & -> & Hr2). cbn. destruct (ameanings xs1 os) as [xs2 rs]. by exists a2.
Qed.
End sequences.

Lemma array_refines_witness :
  ∃ a, arun intT new
    [APush 1; APush 2; AInsert 1 3; ARemove 7; AReverse; AGet 0; AGet 5; AAppendSelf; ARemove 0;
     ALast; AReserve 100; ACopy; APop; ACount; AClear; APop; AFirst; ALast] =
    Ret (a, [AUnit; AUnit; AUnit; AExn (ArrayError 7 3 None); AUnit; AElem 2;
             AExn (ArrayError 5 3 None); AUnit; AUnit; AElem 1; AUnit; AUnit; AUnit; ANat 4; AUnit;
             AExn (ArrayError 0 0 (Some "pop"%string)); AExn (ArrayError 0 0 None);
             AExn (ArrayError 4294967295 0 None)]).
Proof.
  destruct (array_refines intT new []
    [APush 1; APush 2; AInsert 1 3; ARemove 7; AReverse; AGet 0; AGet 5; AAppendSelf; ARemove 0;
     ALast; AReserve 100; ACopy; APop; ACount; AClear; APop; AFirst; ALast] (or_introl (conj eq_refl eq_refl))
     ltac:(repeat split)) as (a & E & _).
  exists a. exact E.
Defined.

(** ** Sorting *)
Section sorting.
Context {World T : Type} (handle : Handle World T) (less : T → T → bool) `{!StrictWeak less}.
Implicit Types (a : ArrayBase T) (xs : list T).

Definition sorted_list xs : Prop :=
  ∀ (i j : Z) x y, i < j → xs !! i = Some x → xs !! j = Some y → le less x y.

(** Slots that all hold objects are a list of objects. *)
Lemma valid_elems (n : nat) (l : list (option T)) :
  valid 0 (Z.of_nat n) l → (n ≤ length l)%nat →
  ∃ ys, l = (Some <$> ys) ++ drop n l ∧ length ys = n.
Proof.
  revert l. induction n as [|n IH]; intros l Hv Hn; [by exists []|].
  destruct l as [|o l]; [cbn in Hn; lia|]. destruct (Hv 0) as [x Hx]; [lia|].
  change 0 with (Z.of_nat 0) in Hx. rewrite lookupZ_nat in Hx. cbn in Hx. simplify_eq.
  destruct (IH l) as (ys & E & Hl); [|cbn in Hn; lia|].
  - intros i Hi. destruct (Hv (i + 1)) as [y Hy]; [lia|]. exists y.
    rewrite lookupZ_to_nat in Hy by lia. rewrite lookupZ_to_nat by lia.
    replace (Z.to_nat (i + 1)) with (S (Z.to_nat i)) in Hy by lia. done.
  - exists (x :: ys). cbn. split; [by f_equal|lia].
Qed.

Lemma fmap_Some_Permutation (xs ys : list T) : Some <$> xs ≡ₚ Some <$> ys → xs ≡ₚ ys.
Proof.
  intros H. apply (omap_Permutation id) in H.
  assert (∀ zs : list T, omap id (Some <$> zs) = zs) as E by (induction zs as [|z zs IH]; cbn; [done|by f_equal]).
  by rewrite !E in H.
Qed.

Lemma sub_elems xs rest : sub 0 (zlen xs) ((Some <$> xs) ++ rest) = Some <$> xs.
Proof.
  unfold sub, zlen. rewrite Z.sub_0_r, Nat2Z.id. cbn. rewrite <- (length_fmap Some xs). apply take_app_length.
Qed.

Lemma sortWith_rep a xs cmp :
  (∀ x y, match cmp with Some f => f x y = less x y | None => ∃ f, lessFn handle = Some f ∧ f x y = less x y end) →
  rep a xs → zlen xs + 1 < 2 ^ 32 →
  ∃ a' ys, sortWith handle a cmp = Ret a' ∧ rep a' ys ∧ ys ≡ₚ xs ∧ sorted_list ys.
Proof.
  intros Hcmp Hr Hb. unfold sortWith, empty. rewrite (count_rep a xs Hr). pose proof (zlen_nonneg xs).
  destruct (Z.eqb_spec (zlen xs) 0) as [E0|E0].
  { assert (xs = []) as -> by (destruct xs; [done|rewrite zlen_cons in E0; pose proof (zlen_nonneg xs); lia]).
    exists a, []. split_and!; try done. intros i j x y _ Hx. by rewrite lookupZ_nil in Hx. }
  destruct (ensure_push a xs Hr Hb) as (o & rest & -> & Hb'). cbn [mbind outcome_bind withData data v].
  set (l := (Some <$> xs) ++ o :: rest). unfold Sort.sortData, Sort.init. cbn [filled]. unfold gc_count. cbn [v].
  assert (zlen l = zlen xs + 1 + zlen rest) as Hl by (unfold l; rewrite zlen_app, zlen_fmap, zlen_cons; lia).
  pose proof (zlen_nonneg rest). destruct (Z.ltb_spec (zlen xs) (zlen l)); [|lia]. cbn [assert mbind outcome_bind].
  set (d := Sort.mkSortData handle cmp (zlen xs) 0 (zlen xs)).
  assert (usable d less l) as Hu.
  { split; cbn; try lia.
    - intros x y. unfold Sort.compareVal. cbn. specialize (Hcmp x y).
      destruct cmp as [f|]; [by rewrite Hcmp|]. destruct Hcmp as (f & -> & <-). done.
    - intros i Hi. destruct (lookupZ_lt_Some xs i) as [x Hx]; [lia|]. exists x. by apply lookupZ_elems. }
  destruct (proj1 (returns_exists _ _) (sort_spec less d l Hu)) as (l' & -> & Hsh & Hs). cbn in Hsh, Hs.
  cbn [mbind outcome_bind]. pose proof (shuffles_zlen _ _ _ _ _ Hsh) as Hl'.
  assert (valid 0 (zlen xs) l') as Hv.
  { eapply valid_shuffles; [| | |exact Hsh|exact (us_valid _ _ _ Hu)]; lia. }
  destruct (valid_elems (length xs) l' Hv) as (ys & E & Hy); [unfold zlen in *; lia|].
  assert (zlen ys = zlen xs) as Hz by (unfold zlen; lia).
  set (r := drop (length xs) l') in E. exists (mkArray (Some (mkGcArray (zlen ys) l'))), ys. split_and!.
  - by rewrite Hz.
  - rewrite E. apply rep_intro. apply (f_equal zlen) in E. rewrite zlen_app, zlen_fmap in E. lia.
  - apply fmap_Some_Permutation. pose proof (shuffles_sub (zlen xs) 0 (zlen xs) l l' ltac:(lia) ltac:(lia) ltac:(lia) Hsh) as Hp.
    unfold l in Hp. rewrite sub_elems in Hp. rewrite <- Hz, E, sub_elems in Hp. done.
  - intros i j x y Hij Hx Hy'. pose proof (lookupZ_Some_lt _ _ _ Hx). pose proof (lookupZ_Some_lt _ _ _ Hy').
    apply (Hs i j); try lia; rewrite E; by apply lookupZ_elems.
Qed.

(** [sort] with the [<] of the element type leaves the same elements, in order. *)
Theorem sort_array a xs :
  lessFn handle = Some less → rep a xs → zlen xs + 1 < 2 ^ 32 →
  ∃ a' ys, sortRaw handle a = Ret a' ∧ rep a' ys ∧ ys ≡ₚ xs ∧ sorted_list ys.
Proof.
  intros Hl Hr Hb. unfold sortRaw. rewrite Hl. cbn [assert mbind outcome_bind].
  apply sortWith_rep; [|done|done]. intros x y. by exists less.
Qed.
End sorting.

Lemma sort_array_witness :
  ∃ a a' ys, arun intT new [APush 3; APush 1; APush 2] = Ret (a, [AUnit; AUnit; AUnit]) ∧
    sortRaw intT a = Ret a' ∧ rep a' ys ∧ ys ≡ₚ [3; 1; 2] ∧ sorted_list Z.ltb ys.
Proof.
  destruct (aexec_meaning intT new [] (APush 3)) as (a1 & E1 & R1); [by left|done..|].
  destruct (aexec_meaning intT a1 [3] (APush 1)) as (a2 & E2 & R2); [done..|].
  destruct (aexec_meaning intT a2 [3; 1] (APush 2)) as (a3 & E3 & R3); [done..|].
  destruct (sort_array intT Z.ltb a3 [3; 1; 2] eq_refl R3 eq_refl) as (a' & ys & Hs & Hrest).
  exists a3, a', ys. split; [|exact (conj Hs Hrest)]. cbn [arun]. rewrite E1. cbn [mbind outcome_bind].
  rewrite E2. cbn [mbind outcome_bind]. rewrite E3. reflexivity.
Defined.

(** ** Binary search *)
Section bounds.
Context {World T : Type} (handle : Handle World T).
Implicit Types (a : ArrayBase T) (xs : list T).

(** [r] splits [0, n): the test holds before it and fails from it on. *)
Definition splits (p : Z → bool) (n r : Z) : Prop :=
  0 ≤ r ≤ n ∧ (∀ i, 0 ≤ i < r → p i = true) ∧ (∀ i, r ≤ i < n → p i = false).

Lemma boundLoop_spec fuel test (p : Z → bool) n first c :
  (∀ i, 0 ≤ i < n → test i = Ret (p i)) →
  (∀ i j, 0 ≤ i ≤ j → j < n → p j = true → p i = true) →
  n < 2 ^ 32 → 0 ≤ first → 0 ≤ c → first + c ≤ n → c < Z.of_nat fuel →
  (∀ i, 0 ≤ i < first → p i = true) → (∀ i, first + c ≤ i < n → p i = false) →
  returns (boundLoop fuel test first c) (splits p n).
Proof.
  intros Ht Hm Hn. revert first c. induction fuel as [|fuel IH]; intros first c H0 Hc Hr Hf Hb Ha; [lia|].
  cbn [boundLoop]. destruct (Z.ltb_spec 0 c) as [Hpos|Hz].
  - cbn zeta. assert (0 ≤ c `div` 2 < c) as Hstep by (Z.to_euclidean_division_equations; lia).
    rewrite (u32_small (first + c `div` 2)) by zsolve. rewrite Ht by lia. cbn [mbind outcome_bind].
    destruct (p (first + c `div` 2)) eqn:E.
    + rewrite !u32_small by zsolve. apply IH; try lia.
      * intros i Hi. apply (Hm i (first + c `div` 2)); (lia || done).
      * intros i Hi. apply Ha. lia.
    + apply IH; try lia; [done|]. intros i Hi. destruct (p i) eqn:E'; [|done].
      rewrite (Hm (first + c `div` 2) i) in E by (lia || done). done.
  - cbn. assert (c = 0) as -> by lia. rewrite Z.add_0_r in Ha. split; [lia|]. done.
Qed.

Lemma bound_spec a xs (test : T → outcome bool) (q : T → bool) :
  rep a xs → (∀ x, test x = Ret (q x)) →
  (∀ (i j : Z) x y, i ≤ j → xs !! i = Some x → xs !! j = Some y → q y = true → q x = true) →
  ∃ r, bound a test = Ret r ∧ 0 ≤ r ≤ zlen xs ∧
    ∀ (i : Z) x, xs !! i = Some x → q x = true ↔ i < r.
Proof.
  intros Hr Ht Hm. unfold bound. rewrite (count_rep a xs Hr). pose proof (zlen_nonneg xs).
  pose proof (rep_length a xs Hr).
  set (p := λ i : Z, match xs !! i with Some x => q x | None => false end).
  destruct (proj1 (returns_exists _ _) (boundLoop_spec (S (Z.to_nat (zlen xs)))
    (λ m, x ← elemAt a m; test x) p (zlen xs) 0 (zlen xs)
    ltac:(intros i Hi; destruct (lookupZ_lt_Some xs i Hi) as [x Hx]; unfold p;
          rewrite (elemAt_rep a xs i x Hr Hx), Hx; apply Ht)
    ltac:(unfold p; intros i j Hij Hj; destruct (lookupZ_lt_Some xs i ltac:(lia)) as [x Hx];
          destruct (lookupZ_lt_Some xs j ltac:(lia)) as [y Hy]; rewrite Hx, Hy; apply (Hm i j); [lia|done|done])
    ltac:(lia) ltac:(lia) ltac:(lia) ltac:(lia) ltac:(lia) ltac:(lia) ltac:(lia)))
    as (r & -> & Hr' & Hb & Ha).
  exists r. split; [done|]. split; [done|]. intros i x Hx. pose proof (lookupZ_Some_lt _ _ _ Hx) as Hi.
  assert (p i = q x) as Hp by (unfold p; by rewrite Hx). rewrite <- Hp. split.
  - intros E. destruct (decide (i < r)); [done|]. rewrite Ha in E by lia. done.
  - intros Hlt. apply Hb. lia.
Qed.

(** On a sorted array [lowerBound] returns the position of the first element that
    is not below [x], and [upperBound] that of the first element above [x]; both
    return the count if there is none. *)
Theorem bounds_spec less `{!StrictWeak less} a xs x :
  lessFn handle = Some less → rep a xs → sorted_list less xs →
  ∃ lo hi, lowerBoundRaw handle a x = Ret lo ∧ upperBoundRaw handle a x = Ret hi ∧
    0 ≤ lo ≤ hi ∧ hi ≤ zlen xs ∧
    (∀ (i : Z) y, xs !! i = Some y → less y x = true ↔ i < lo) ∧
    (∀ (i : Z) y, xs !! i = Some y → less x y = true ↔ hi ≤ i).
Proof.
  intros Hl Hr Hs. unfold lowerBoundRaw, upperBoundRaw, ArrayBase.less. rewrite Hl.
  assert (∀ (i j : Z) y z, i ≤ j → xs !! i = Some y → xs !! j = Some z → le less y z) as Hle.
  { intros i j y z Hij Hy Hz. destruct (decide (i = j)) as [->|]; [|by apply (Hs i j); [lia|..]].
    assert (y = z) as -> by congruence. by apply le_refl. }
  destruct (bound_spec a xs (λ y, Ret (less y x)) (λ y, less y x) Hr) as (lo & E1 & Hlo & Hlo'); [done| |].
  { intros i j y z Hij Hy Hz E. destruct (sw_split z y x E) as [E'|]; [|done].
    pose proof (Hle i j y z Hij Hy Hz) as Hyz. unfold le in Hyz. congruence. }
  destruct (bound_spec a xs (λ y, negb <$> Ret (less x y)) (λ y, negb (less x y)) Hr) as (hi & E2 & Hhi & Hhi'); [done| |].
  { intros i j y z Hij Hy Hz E. apply negb_true_iff in E. apply negb_true_iff.
    destruct (less x y) eqn:E'; [|done]. destruct (sw_split x z y E') as [|E'']; [congruence|].
    pose proof (Hle i j y z Hij Hy Hz) as Hyz. unfold le in Hyz. congruence. }
  exists lo, hi. split_and!; try done; try lia.
  - destruct (decide (lo ≤ hi)) as [|Hn]; [done|]. destruct (lookupZ_lt_Some xs hi) as [y Hy]; [lia|].
    assert (less y x = true) as H1 by (apply (Hlo' hi); [done|lia]).
    assert (less x y = true) as H2.
    { destruct (less x y) eqn:E; [done|]. pose proof (proj1 (Hhi' hi y Hy)) as H. rewrite E in H.
      specialize (H eq_refl). lia. }
    pose proof (less_le less y x H1) as H. unfold le in H. congruence.
  - intros i y Hy. specialize (Hhi' i y Hy). destruct (less x y); cbn in Hhi'; [|split; [done|]];
      intuition (done || lia).
Qed.
End bounds.

Lemma bounds_spec_witness :
  ∃ a lo hi, arun intT new [APush 1; APush 2; APush 2; APush 5] = Ret (a, [AUnit; AUnit; AUnit; AUnit]) ∧
    lowerBoundRaw intT a 2 = Ret lo ∧ upperBoundRaw intT a 2 = Ret hi ∧ lo = 1 ∧ hi = 3.
Proof.
  set (a := mkArray (Some (mkGcArray 4 ((Some <$> [1; 2; 2; 5]) ++ replicate 12 None)))).
  assert (rep a [1; 2; 2; 5]) as Hr by (right; by exists (replicate 12 None)).
  assert (sorted_list Z.ltb [1; 2; 2; 5]) as Hs.
  { intros i j x y Hij Hx Hy. pose proof (lookupZ_Some_lt _ _ _ Hx). pose proof (lookupZ_Some_lt _ _ _ Hy).
    unfold zlen in *. cbn in *. unfold le. apply Z.ltb_ge.
    assert (i = 0 ∨ i = 1 ∨ i = 2) as Hi by lia. assert (j = 1 ∨ j = 2 ∨ j = 3) as Hj by lia.
    destruct Hi as [->|[->| ->]], Hj as [->|[->| ->]]; vm_compute in Hx, Hy; simplify_eq; lia. }
  destruct (bounds_spec intT Z.ltb a [1; 2; 2; 5] 2 eq_refl Hr Hs) as (lo & hi & El & Eh & _).
  exists a, lo, hi. split; [reflexivity|]. split; [exact El|]. split; [exact Eh|].
  vm_compute in El, Eh. simplify_eq. done.
Defined.

(** ** Removing duplicates *)

(** Both sides of an equation of slot lists in right-nested form. *)
Ltac norm_lists :=
  repeat first [rewrite fmap_app | rewrite fmap_cons | rewrite fmap_nil | rewrite <- app_assoc
               | progress cbn [app]].

Section duplicates.
Context {World T : Type} (handle : Handle World T) `{!CopyHandle handle}.
Context (cmp : T → T → bool) (isEqual : bool).
Implicit Types (a : ArrayBase T) (xs ys : list T).

(** Of neighbours that compare as equal, the first is kept. *)
Fixpoint uniqFrom (x : T) ys : list T :=
  match ys with
  | [] => [x]
  | y :: ys => if eqb (cmp x y) isEqual then uniqFrom x ys else x :: uniqFrom y ys
  end.
Definition uniq xs : list T := match xs with [] => [] | x :: xs => uniqFrom x xs end.

(** The elements [kept ++ [x]] are kept, [ms] are duplicates, [ys] are to come. *)
Lemma uniqueLoop_spec ys : ∀ kept x (ms : list T) rest,
  returns (for_loop (length ys) (zlen kept + 1 + zlen ms) (λ i '(l, out),
      x ← slot l out; y ← slot l i;
      if eqb (cmp x y) isEqual then Ret (l, out)
      else
        let out := out + 1 in
        l ← (if out =? i then Ret l else swap l out i);
        Ret (l, out)) ((Some <$> kept ++ [x] ++ ms ++ ys) ++ rest, zlen kept))
    (λ '(l, out), ∃ us ms', l = (Some <$> us ++ ms') ++ rest ∧ us = kept ++ uniqFrom x ys ∧
      out + 1 = zlen us ∧ zlen us + zlen ms' = zlen (kept ++ [x] ++ ms ++ ys)).
Proof.
  induction ys as [|y ys IH]; intros kept x ms rest.
  { cbn. exists (kept ++ [x]), ms. split_and!; try done.
    - by rewrite app_nil_r, <- app_assoc.
    - rewrite zlen_app. done.
    - rewrite !zlen_app. change (zlen (x :: ms ++ [])) with (zlen ([x] ++ ms ++ [])).
      rewrite !zlen_app. change (zlen (@nil T)) with 0. lia. }
  cbn [length for_loop].
  assert (slot ((Some <$> kept ++ [x] ++ ms ++ y :: ys) ++ rest) (zlen kept) = Ret x) as ->.
  { unfold slot. rewrite (aget_Some _ _ (Some x)); [done|]. apply lookupZ_elems.
    unfold zlen. rewrite lookupZ_nat. by apply list_lookup_middle. }
  assert (slot ((Some <$> kept ++ [x] ++ ms ++ y :: ys) ++ rest) (zlen kept + 1 + zlen ms) = Ret y) as ->.
  { unfold slot. rewrite (aget_Some _ _ (Some y)); [done|]. apply lookupZ_elems.
    replace (kept ++ [x] ++ ms ++ y :: ys) with ((kept ++ [x] ++ ms) ++ y :: ys) by (by rewrite <- !app_assoc).
    replace (zlen kept + 1 + zlen ms) with (zlen (kept ++ [x] ++ ms)) by (rewrite !zlen_app; change (zlen [x]) with 1; lia).
    unfold zlen. rewrite lookupZ_nat. by apply list_lookup_middle. }
  cbn [mbind outcome_bind]. cbn [uniqFrom]. destruct (eqb (cmp x y) isEqual) eqn:E.
  - cbn [mbind outcome_bind]. specialize (IH kept x (ms ++ [y]) rest).
    rewrite zlen_app in IH. change (zlen [y]) with 1 in IH.
    replace (zlen kept + 1 + (zlen ms + 1)) with (zlen kept + 1 + zlen ms + 1) in IH by lia.
    replace ((ms ++ [y]) ++ ys) with (ms ++ y :: ys) in IH by (by rewrite <- app_assoc). exact IH.
  - cbn zeta. specialize (IH (kept ++ [x]) y).
    rewrite zlen_app in IH. change (zlen [x]) with 1 in IH.
    assert (∀ ys', (kept ++ [x]) ++ uniqFrom y ys' = kept ++ x :: uniqFrom y ys') as Eu
      by (intros; by rewrite <- app_assoc).
    destruct ms as [|m ms].
    + change (zlen (@nil T)) with 0. destruct (Z.eqb_spec (zlen kept + 1) (zlen kept + 1 + 0)); [|lia].
      cbn [mbind outcome_bind]. specialize (IH [] rest). change (zlen (@nil T)) with 0 in IH.
      rewrite Eu in IH. replace ((kept ++ [x]) ++ [y] ++ [] ++ ys) with (kept ++ [x] ++ [] ++ y :: ys) in IH
        by (by rewrite <- app_assoc).
      replace (zlen kept + 1 + 0 + 1) with (zlen kept + 1 + 1 + 0) by lia. exact IH.
    + rewrite zlen_cons. pose proof (zlen_nonneg ms).
      destruct (Z.eqb_spec (zlen kept + 1) (zlen kept + 1 + (zlen ms + 1))); [lia|].
      replace ((Some <$> kept ++ [x] ++ (m :: ms) ++ y :: ys) ++ rest)
        with ((Some <$> kept ++ [x]) ++ Some m :: (Some <$> ms) ++ Some y :: (Some <$> ys) ++ rest)
        by (by norm_lists).
      rewrite swap_app; [|rewrite zlen_fmap, zlen_app; done|rewrite !zlen_fmap, zlen_app; change (zlen [x]) with 1; lia].
      cbn [mbind outcome_bind]. specialize (IH (ms ++ [m]) rest). rewrite zlen_app in IH. change (zlen [m]) with 1 in IH.
      rewrite Eu in IH.
      replace ((Some <$> (kept ++ [x]) ++ [y] ++ (ms ++ [m]) ++ ys) ++ rest)
        with ((Some <$> kept ++ [x]) ++ Some y :: (Some <$> ms) ++ Some m :: (Some <$> ys) ++ rest) in IH
        by (by norm_lists).
      replace (zlen kept + 1 + (zlen ms + 1) + 1) with (zlen kept + 1 + 1 + (zlen ms + 1)) by lia.
      eapply returns_mono; [exact IH|]. intros [l out] (us & ms' & H1 & H2 & H3 & H4).
      exists us, ms'. split_and!; try done. rewrite H4. unfold zlen.
      repeat first [rewrite length_app | progress cbn [length app]]. lia.
Qed.

Lemma uniqueLoop_start x xs rest :
  returns (uniqueLoop cmp isEqual (zlen (x :: xs)) ((Some <$> x :: xs) ++ rest)) (λ '(l, out),
    ∃ us ms, l = (Some <$> us ++ ms) ++ rest ∧ us = uniqFrom x xs ∧ out + 1 = zlen us ∧
      zlen us + zlen ms = zlen (x :: xs)).
Proof.
  unfold uniqueLoop.
  replace (Z.to_nat (zlen (x :: xs) - 1)) with (length xs) by (rewrite zlen_cons; unfold zlen; lia).
  exact (uniqueLoop_spec xs [] x [] rest).
Qed.

Lemma popTo_rep fuel a us ms :
  rep a (us ++ ms) → us ≠ [] → (length ms < fuel)%nat →
  ∃ a', popTo handle fuel a (zlen us - 1) = Ret a' ∧ rep a' us.
Proof.
  revert a ms. induction fuel as [|fuel IH]; intros a ms Hr Hne Hf; [lia|]. cbn [popTo].
  rewrite (count_rep a _ Hr), zlen_app. destruct ms as [|m ms _] using rev_ind.
  - change (zlen (@nil T)) with 0. destruct (Z.ltb_spec (zlen us - 1 + 1) (zlen us + 0)); [lia|].
    exists a. by rewrite app_nil_r in Hr.
  - rewrite zlen_app. change (zlen [m]) with 1. pose proof (zlen_nonneg ms).
    destruct (Z.ltb_spec (zlen us - 1 + 1) (zlen us + (zlen ms + 1))); [|lia].
    rewrite app_assoc in Hr. destruct (pop_rep handle a (us ++ ms) m Hr) as (a' & -> & Hr'). cbn [mbind outcome_bind].
    rewrite length_app in Hf. cbn in Hf. apply (IH a' ms); [done|done|lia].
Qed.

Lemma removeDuplicatesWith_rep a xs :
  rep a xs → xs ≠ [] → ∃ a', removeDuplicatesWith handle a cmp isEqual = Ret a' ∧ rep a' (uniq xs).
Proof.
  intros Hr Hne. destruct xs as [|x xs]; [done|]. pose proof (count_rep a _ Hr) as Hc.
  unfold removeDuplicatesWith. destruct Hr as [[_ ?]|(rest & Hd & Hb)]; [done|]. rewrite Hd, Hc. cbn [v filled].
  destruct (proj1 (returns_exists _ _) (uniqueLoop_start x xs rest))
    as ([l out] & -> & us & ms & -> & Hus & Hout & Hz). cbn [mbind outcome_bind].
  replace out with (zlen us - 1) by lia. rewrite <- zlen_app in Hz.
  replace (uniq (x :: xs)) with us by done. apply (popTo_rep _ _ us ms).
  - rewrite <- Hz. apply rep_intro. rewrite Hz. done.
  - rewrite Hus. cbn. destruct xs as [|y xs']; [done|]. cbn.
    clear. revert x y. induction xs' as [|z xs' IH]; intros x y; cbn; [by destruct (eqb _ _)|].
    destruct (eqb (cmp x y) isEqual); [apply IH|done].
  - rewrite length_app, length_fmap, length_app. lia.
Qed.

Lemma withoutDuplicatesWith_rep a xs :
  rep a xs → xs ≠ [] → ∃ a', withoutDuplicatesWith handle a cmp isEqual = Ret a' ∧ rep a' (uniq xs).
Proof.
  intros Hr Hne. pose proof (rep_length a xs Hr) as Hlen. destruct xs as [|x0 xs]; [done|]. clear Hne.
  unfold withoutDuplicatesWith. rewrite (count_rep a _ Hr).
  assert (elemAt a 0 = Ret x0) as -> by (by apply (elemAt_rep a (x0 :: xs))). cbn [mbind outcome_bind].
  destruct (pushRaw_rep handle new [] x0 new_rep ltac:(done)) as (c0 & -> & Hc0). cbn [mbind outcome_bind app] in *.
  replace (Z.to_nat (zlen (x0 :: xs) - 1)) with (length xs) by (rewrite zlen_cons; unfold zlen; lia).
  assert (∀ ys pre kept x c, pre ++ ys = x0 :: xs → rep c (kept ++ [x]) → (length (kept ++ [x]) ≤ length pre)%nat →
    ∃ c', for_loop (length ys) (zlen pre) (λ i c,
      x ← elemAt c (count c - 1); y ← elemAt a i;
      if eqb (cmp x y) isEqual then Ret c else pushRaw handle c y) c = Ret c' ∧
      rep c' (kept ++ uniqFrom x ys)) as Hloop.
  { induction ys as [|y ys IH]; intros pre kept x c Hpre Hc Hle; [by exists c|].
    cbn [length for_loop]. rewrite (count_rep c _ Hc), zlen_app. change (zlen [x]) with 1.
    replace (zlen kept + 1 - 1) with (zlen kept) by lia.
    rewrite (elemAt_rep c (kept ++ [x]) _ x Hc) by (unfold zlen; rewrite lookupZ_nat; by apply list_lookup_middle).
    cbn [mbind outcome_bind]. rewrite (elemAt_rep a (x0 :: xs) (zlen pre) y Hr)
      by (rewrite <- Hpre; unfold zlen; rewrite lookupZ_nat; by apply list_lookup_middle).
    cbn [mbind outcome_bind uniqFrom].
    assert (pre ++ y :: ys = (pre ++ [y]) ++ ys) as Hp by (by rewrite <- app_assoc).
    assert (zlen pre + 1 = zlen (pre ++ [y])) as Hz by (by rewrite zlen_app).
    destruct (eqb (cmp x y) isEqual).
    - cbn [mbind outcome_bind]. rewrite Hz. apply IH; [by rewrite <- Hp|done|rewrite (length_app pre); cbn [length]; lia].
    - apply (f_equal length) in Hpre as Hln. rewrite length_app in Hln. cbn in Hln. unfold zlen in Hlen. cbn in Hlen.
      destruct (pushRaw_rep handle c (kept ++ [x]) y Hc) as (c1 & -> & Hc1); [unfold zlen; lia|].
      cbn [mbind outcome_bind]. rewrite Hz.
      destruct (IH (pre ++ [y]) (kept ++ [x]) y c1) as (c' & -> & Hc'); [by rewrite <- Hp|done| |].
      + rewrite !length_app in *. cbn in *. lia.
      + exists c'. split; [done|]. by rewrite <- app_assoc in Hc'. }
  destruct (Hloop xs [x0] [] x0 c0) as (c' & E & Hc'); [done|done|done|]. exists c'. split; [exact E|done].
Qed.
End duplicates.

(** [removeDuplicates] (in place, by swapping and popping) and [withoutDuplicates]
    (into a new array) both keep exactly the first element of every run of equal
    neighbours; with [==] if the type has it, with [<] otherwise. *)
Theorem duplicates_spec {World T} (handle : Handle World T) `{!CopyHandle handle} a xs cmp isEqual :
  rep a xs → dupCompare handle = Ret (cmp, isEqual) →
  ∃ a' b, removeDuplicatesRaw handle a = Ret a' ∧ withoutDuplicatesRaw handle a = Ret b ∧
    rep a' (uniq cmp isEqual xs) ∧ rep b (uniq cmp isEqual xs).
Proof.
  intros Hr Hd. unfold removeDuplicatesRaw, withoutDuplicatesRaw. rewrite (count_rep a xs Hr), Hd.
  destruct (decide (xs = [])) as [->|Hne].
  { exists a, new. split_and!; try done. apply new_rep. }
  destruct (Z.eqb_spec (zlen xs) 0) as [E0|_].
  { destruct xs; [done|]. rewrite zlen_cons in E0. pose proof (zlen_nonneg xs). lia. }
  cbn [mbind outcome_bind].
  destruct (removeDuplicatesWith_rep handle cmp isEqual a xs Hr Hne) as (a' & -> & ?).
  destruct (withoutDuplicatesWith_rep handle cmp isEqual a xs Hr Hne) as (b & -> & ?). eauto 10.
Qed.

Lemma duplicates_spec_witness :
  ∃ a' b, removeDuplicatesRaw intT
      (mkArray (Some (mkGcArray 5 (Some <$> [1; 1; 2; 2; 1])))) = Ret a' ∧
    withoutDuplicatesRaw intT (mkArray (Some (mkGcArray 5 (Some <$> [1; 1; 2; 2; 1])))) = Ret b ∧
    rep a' [1; 2; 1] ∧ rep b [1; 2; 1].
Proof.
  exact (duplicates_spec intT (mkArray (Some (mkGcArray 5 (Some <$> [1; 1; 2; 2; 1])))) [1; 1; 2; 2; 1]
    Z.eqb true (or_intror (ex_intro _ [] (conj eq_refl eq_refl))) eq_refl).
Defined.
