(* ===== verification/PQueue.v ===== *)
(** * Priority queues

    [Core/PQueue.h] and [Core/PQueue.cpp]: [PQueueBase], a max-heap in a growing block
    that keeps one slot free for the heap routines. *)

From stdpp Require Import base list numbers strings option decidable pretty.
From Stdlib Require Import ZArith Lia.
From S2P Require Import Prelude Handle Sort Ranges SortProofs HeapProofs SortCorrect.
From S2P Require Import Array ArrayProofs ArrayCorrect.

Module PQueueBase.

Record PQueueBase (T : Type) := mkPQueue {
  data : option (GcArray T);
  compare : option (T → T → bool);
}.
Arguments mkPQueue {T}.
Arguments data {T}.
Arguments compare {T}.

Section pqueue.
Context {World T : Type} (handle : Handle World T).
Implicit Types q : PQueueBase T.

Definition count q : Z := match data q with Some d => u32 (filled d) | None => 0 end.
Definition any q : bool := 0 <? count q.
Definition empty q : bool := count q =? 0.

(** [PQueueBase(type)], [PQueueBase(type, compare)] *)
Definition new (cmp : option (T → T → bool)) : PQueueBase T := mkPQueue None cmp.

Definition ensure q (n : Z) : outcome (PQueueBase T) :=
  if n =? 0 then Ret q
  else
    let n := u32 (n + 1) in
    let oldCap := match data q with Some d => u32 (gc_count d) | None => 0 end in
    if n <=? oldCap then Ret q
    else
      let oldCount := count q in
      let newCap := Z.max 16 (u32 (oldCap * 2)) in
      let newCap := if newCap <? n then n else newCap in
      let newData := allocArray newCap in
      match data q with
      | Some d =>
          l ← memmove (v newData) 0 (v d) 0 oldCount;
          Ret (mkPQueue (Some (mkGcArray oldCount l)) (compare q))
      | None => Ret (mkPQueue (Some newData) (compare q))
      end.

Definition reserve := ensure.

(** The static [copyArray(src)]. *)
Definition copyArray (src : ArrayBase.ArrayBase T) : outcome (GcArray T) :=
  for_loop (Z.to_nat (ArrayBase.count src)) 0 (λ i r,
    p ← ArrayBase.getRaw src i;
    x ← ArrayBase.elemAt src p;
    l ← aset (v r) i (Some (safeCopy handle x));
    Ret (mkGcArray (i + 1) l)) (allocArray (u32 (ArrayBase.count src + 1))).

(** [PQueueBase(src)], [PQueueBase(src, compare)] *)
Definition ofArray (src : ArrayBase.ArrayBase T) (cmp : option (T → T → bool)) :
    outcome (PQueueBase T) :=
  d ← copyArray src;
  sd ← Sort.sortData d handle cmp;
  l ← Sort.makeHeap sd (v d);
  Ret (mkPQueue (Some (mkGcArray (filled d) l)) cmp).

(** [PQueueBase(o)] *)
Definition copy (o : PQueueBase T) : outcome (PQueueBase T) :=
  q ← ensure (new (compare o)) (count o);
  for_loop (Z.to_nat (count o)) 0 (λ i q,
    match data q, data o with
    | Some d, Some od =>
        x ← slot (v od) i;
        l ← aset (v d) i (Some (safeCopy handle x));
        Ret (mkPQueue (Some (mkGcArray (i + 1) l)) (compare q))
    | _, _ => Fault
    end) q.

(** [cloned(compare, env)] is [clone]. *)
Definition deepCopy (clone : (T → T → bool) → (T → T → bool)) q : outcome (PQueueBase T) :=
  d ← match deepCopyFn handle with
      | None => Ret (data q)
      | Some f =>
          for_loop (Z.to_nat (count q)) 0 (λ i d,
            match d with
            | Some d => x ← slot (v d) i; l ← aset (v d) i (Some (f x)); Ret (Some (mkGcArray (filled d) l))
            | None => Fault
            end) (data q)
      end;
  Ret (mkPQueue d (clone <$> compare q)).

Definition topRaw q : outcome Z :=
  if empty q then
    Throw (PQueueError "Trying to access elements in an empty priority queue."%string)
  else Ret 0.

(** [PQueue::top]: the object at the first position. *)
Definition PQueue_top q : outcome T :=
  p ← topRaw q; match data q with Some d => slot (v d) p | None => Fault end.

(** [pop]: the queue and the object the destructor is called for. *)
Definition pop q : outcome (PQueueBase T * option T) :=
  match data q with
  | None => Fault
  | Some d =>
      sd ← Sort.sortData d handle (compare q);
      l ← Sort.heapRemove sd (v d);
      o ← aget l (filled d);
      l ← aset l (filled d) (safeDestroy handle o);
      Ret (mkPQueue (Some (mkGcArray (u64 (filled d - 1)) l)) (compare q), o)
  end.

Definition pushRaw q (src : T) : outcome (PQueueBase T) :=
  q ← ensure q (u32 (count q + 1));
  match data q with
  | None => Fault
  | Some d =>
      sd ← Sort.sortData d handle (compare q);
      l ← Sort.heapInsert sd (v d) src;
      Ret (mkPQueue (Some (mkGcArray (filled d + 1) l)) (compare q))
  end.

Definition toS q : outcome string :=
  let elem i := match data q with Some d => slot (v d) i | None => Fault end in
  first ← (if 0 <? count q then x ← elem 0; Ret (toSFn handle x) else Ret ""%string);
  out ← for_loop (Z.to_nat (count q - 1)) 1 (λ i out,
    x ← elem i; Ret (out +:+ ", "%string +:+ toSFn handle x)) ("PQ:{"%string +:+ first);
  Ret (out +:+ "}"%string).
End pqueue.
End PQueueBase.
Import PQueueBase.

(** ** The representation *)

Section rep.
Context {World T : Type} (handle : Handle World T) `{!CopyHandle handle}.
Context (less : T → T → bool) `{!StrictWeak less}.
Implicit Types (q : PQueueBase T) (xs : list T).

(** The queue compares with [less]. *)
Definition compares (cmp : option (T → T → bool)) : Prop :=
  ∀ x y, match cmp with
         | Some f => f x y = less x y
         | None => ∃ f, lessFn handle = Some f ∧ f x y = less x y
         end.

(** The queue holds the elements [xs], in the order of a heap, and a free slot. *)
Definition pq_rep q xs : Prop :=
  compares (compare q) ∧
  ((data q = None ∧ xs = []) ∨
   ∃ ys o rest, data q = Some (mkGcArray (zlen ys) ((Some <$> ys) ++ o :: rest)) ∧
     zlen ys + 1 + zlen rest < 2 ^ 32 ∧ ys ≡ₚ xs ∧ heap less 0 (zlen ys) ((Some <$> ys) ++ o :: rest)).

Lemma pq_count q xs : pq_rep q xs → count q = zlen xs.
Proof.
  intros [_ [[Hd ->]|(ys & o & rest & Hd & Hb & Hp & _)]]; unfold count; rewrite Hd; [done|].
  cbn. rewrite Hp in Hb |- *. apply u32_small. pose proof (zlen_nonneg xs). pose proof (zlen_nonneg rest). zsolve.
Qed.

Lemma pq_usable cmp ys o rest :
  compares cmp → zlen ys + 1 + zlen rest < 2 ^ 32 →
  usable (Sort.mkSortData handle cmp (zlen ys) 0 (zlen ys)) less ((Some <$> ys) ++ o :: rest).
Proof.
  intros Hc Hb. pose proof (zlen_nonneg ys). pose proof (zlen_nonneg rest).
  split; cbn; rewrite ?zlen_app, ?zlen_fmap, ?zlen_cons; try lia.
  - intros x y. unfold Sort.compareVal. cbn. specialize (Hc x y).
    destruct cmp as [f|]; [by rewrite Hc|]. destruct Hc as (f & -> & <-). done.
  - intros i Hi. destruct (lookupZ_lt_Some ys i) as [x Hx]; [lia|]. exists x. by apply lookupZ_elems.
Qed.

(** The heap order does not depend on what follows. *)
Lemma heap_prefix ys n r r' :
  n ≤ zlen ys → heap less 0 n ((Some <$> ys) ++ r) → heap less 0 n ((Some <$> ys) ++ r').
Proof.
  intros Hn Hh i x y Hi Hpar Hx Hy. pose proof (par_range 0 i ltac:(lia)).
  assert (∀ j : Z, j < zlen ys → ((Some <$> ys) ++ r) !! j = ((Some <$> ys) ++ r') !! j) as Hsame.
  { intros j Hj. destruct (decide (0 ≤ j)); [|by rewrite !lookupZ_neg by lia]. unfold zlen in Hj.
    rewrite !lookupZ_to_nat by lia. rewrite !lookup_app_l by (rewrite length_fmap; lia). done. }
  apply (Hh i x y); try done; [by rewrite Hsame by lia|by rewrite Hsame by lia].
Qed.

(** The queue has the elements [ys], in this order, and at least [n] slots in all. *)
Definition pq_room q (ys : list T) (n : Z) : Prop :=
  ∃ rest, data q = Some (mkGcArray (zlen ys) ((Some <$> ys) ++ rest)) ∧
    zlen ys < zlen ys + zlen rest < 2 ^ 32 ∧ n ≤ zlen ys + zlen rest ∧
    heap less 0 (zlen ys) ((Some <$> ys) ++ rest).

Lemma pq_room_rep q ys n : compares (compare q) → pq_room q ys n → pq_rep q ys.
Proof.
  intros Hc (rest & Hd & Hr & _ & Hh). split; [done|]. right.
  destruct rest as [|o rest]; [change (zlen (@nil (option T))) with 0 in Hr; lia|].
  rewrite zlen_cons in Hr. exists ys, o, rest. split_and!; [done|lia|done|done].
Qed.

Lemma heap_nil l : heap less 0 0 l.
Proof. intros i x y Hi. lia. Qed.

(** The elements in a block of at least [n] slots. *)
Lemma pq_room_alloc q (ys : list T) rest n cap :
  data q = Some (mkGcArray (zlen ys) ((Some <$> ys) ++ rest)) → zlen rest = cap - zlen ys →
  zlen ys < cap < 2 ^ 32 → n ≤ cap → heap less 0 (zlen ys) ((Some <$> ys) ++ rest) → pq_room q ys n.
Proof. intros Hd Hr Hc Hn Hh. exists rest. split_and!; (done || lia). Qed.

Lemma ensure_room q xs n :
  pq_rep q xs → 1 ≤ n → n + 1 < 2 ^ 32 →
  ∃ q' ys, ensure q n = Ret q' ∧ compare q' = compare q ∧ ys ≡ₚ xs ∧ pq_room q' ys (n + 1).
Proof.
  intros Hr Hn Hb. pose proof (pq_count q xs Hr) as Hc. unfold ensure. cbn zeta. rewrite Hc.
  destruct (Z.eqb_spec n 0); [lia|]. rewrite (u32_small (n + 1)) by zsolve.
  assert (∀ c, n + 1 ≤ (if Z.max 16 (u32 c) <? n + 1 then n + 1 else Z.max 16 (u32 c)) < 2 ^ 32) as Hcap.
  { intros c. pose proof (u32_range c). destruct (Z.ltb_spec (Z.max 16 (u32 c)) (n + 1)); zsolve. }
  destruct Hr as [Hcmp [[Hd ->]|(ys & o & rest & Hd & Hb' & Hp & Hh)]]; rewrite Hd.
  - destruct (Z.leb_spec (n + 1) 0); [lia|]. specialize (Hcap (0 * 2)). unfold allocArray. set (cap := if _ <? _ then _ else _) in *.
    eexists _, []. split; [done|]. split; [done|]. split; [done|].
    eapply (pq_room_alloc _ [] (replicate (Z.to_nat cap) None) _ cap); try done; try (change (zlen (@nil T)) with 0; lia).
    + rewrite zlen_replicate. change (zlen (@nil T)) with 0. lia.
    + apply heap_nil.
  - pose proof (zlen_nonneg ys). pose proof (zlen_nonneg rest). unfold gc_count. cbn [v].
    rewrite zlen_app, zlen_fmap, zlen_cons. rewrite (u32_small (zlen ys + _)) by zsolve.
    destruct (Z.leb_spec (n + 1) (zlen ys + (zlen rest + 1))) as [Hle|Hgt].
    { exists q, ys. split; [done|]. split; [done|]. split; [done|].
      apply (pq_room_alloc q ys (o :: rest) _ (zlen ys + zlen rest + 1)); rewrite ?zlen_cons; (done || lia). }
    specialize (Hcap ((zlen ys + (zlen rest + 1)) * 2)). unfold allocArray. set (cap := if _ <? _ then _ else _) in *.
    assert (length ys ≤ Z.to_nat cap)%nat as Hfit by (unfold zlen in *; lia).
    cbn [v]. rewrite (memmove_at [] (replicate (length ys) None) (replicate (Z.to_nat cap - length ys) None)
      [] (Some <$> ys) (o :: rest)); try done.
    + cbn [mbind outcome_bind app]. eexists _, ys. split; [done|]. split; [done|]. split; [done|].
      eapply (pq_room_alloc _ ys (replicate (Z.to_nat cap - length ys) None) _ cap); try lia.
      * cbn. rewrite <- Hp. done.
      * rewrite zlen_replicate. unfold zlen in *. lia.
      * eapply heap_prefix; [done|exact Hh].
    + cbn. rewrite <- replicate_add. f_equal. lia.
    + rewrite zlen_fmap. by rewrite Hp.
    + by rewrite zlen_replicate, zlen_fmap.
Qed.

(** [reserve] changes no element. *)
Lemma reserve_rep q xs n :
  pq_rep q xs → 0 ≤ n → n + 1 < 2 ^ 32 → ∃ q', reserve q n = Ret q' ∧ pq_rep q' xs.
Proof.
  intros Hr Hn Hb. destruct (decide (n = 0)) as [->|]; [by exists q|].
  destruct (ensure_room q xs n Hr ltac:(lia) Hb) as (q' & ys & E & Hc & Hp & Hq).
  exists q'. split; [done|]. apply pq_room_rep in Hq; [|rewrite Hc; by destruct Hr].
  destruct Hq as [? [[? ->]|(ys' & o & rest & ? & ? & Hp' & ?)]]; split; auto.
  - left. split; [done|]. by apply Permutation_nil_l in Hp.
  - right. exists ys', o, rest. split_and!; try done. by rewrite Hp'.
Qed.

(** Rearranged elements are elements. *)
Lemma permutes_elems (us : list T) (r l' : list (option T)) :
  permutes 0 (zlen us) ((Some <$> us) ++ r) l' → ∃ zs, l' = (Some <$> zs) ++ r ∧ zs ≡ₚ us.
Proof.
  intros Hp. pose proof (zlen_nonneg us). pose proof (zlen_nonneg r).
  set (l := (Some <$> us) ++ r) in *. assert (zlen l = zlen us + zlen r) as Hl by (unfold l; by rewrite zlen_app, zlen_fmap).
  pose proof (zlen_permutes _ _ _ _ Hp) as Hl'.
  assert (valid 0 (zlen us) l) as Hv.
  { intros i Hi. destruct (lookupZ_lt_Some us i Hi) as [x Hx]. exists x. by apply lookupZ_elems. }
  destruct (valid_elems (length us) l') as (zs & E & Hz).
  { apply (valid_permutes 0 (zlen us) l l'); (done || lia). }
  { unfold zlen in *. lia. }
  assert (drop (length us) l' = r) as Hd.
  { apply list_eq. intros i. rewrite lookup_drop, <- lookupZ_nat. destruct Hp as [_ Ho]. rewrite Ho by (unfold zlen; lia).
    unfold l. rewrite lookupZ_nat, lookup_app_r by (rewrite length_fmap; lia). rewrite length_fmap. f_equal. lia. }
  exists zs. rewrite Hd in E. split; [done|]. apply fmap_Some_Permutation.
  pose proof (permutes_sub 0 (zlen us) l l' ltac:(lia) ltac:(lia) Hp) as Hs. unfold l in Hs. rewrite sub_elems in Hs.
  rewrite E in Hs. assert (zlen zs = zlen us) as Hzz by (unfold zlen; lia). rewrite <- Hzz, sub_elems in Hs. done.
Qed.

Lemma shuffles_elems (us : list T) (o : option T) (r l' : list (option T)) :
  shuffles (zlen us) 0 (zlen us) ((Some <$> us) ++ o :: r) l' →
  ∃ zs o', l' = (Some <$> zs) ++ o' :: r ∧ zs ≡ₚ us.
Proof.
  intros [y Hp]. assert (<[zlen us := y]> ((Some <$> us) ++ o :: r) = (Some <$> us) ++ y :: r) as E.
  { pose proof (aset_elems us o r y) as Ha. unfold aset in Ha. case_decide; by simplify_eq. }
  rewrite E in Hp. destruct (permutes_elems us (y :: r) l' Hp) as (zs & -> & ?). by exists zs, y.
Qed.

Lemma pq_push q xs x :
  pq_rep q xs → zlen xs + 2 < 2 ^ 32 → ∃ q', pushRaw handle q x = Ret q' ∧ pq_rep q' (x :: xs).
Proof using CopyHandle0 StrictWeak0.
  intros Hr Hb. pose proof Hr as [Hcmp _]. unfold pushRaw.
  rewrite (pq_count q xs Hr). pose proof (zlen_nonneg xs). rewrite u32_small by zsolve.
  destruct (ensure_room q xs (zlen xs + 1) Hr ltac:(lia) ltac:(lia)) as (q1 & ys & -> & Hc & Hp & rest2 & Hd & Hb1 & Hb2 & Hh).
  assert (zlen ys = zlen xs) as Hy by (by rewrite Hp).
  destruct rest2 as [|o [|o' rest]]; [change (zlen (@nil (option T))) with 0 in Hb2; lia|change (zlen [o]) with 1 in Hb2; lia|].
  rewrite !zlen_cons in *. cbn [mbind outcome_bind]. rewrite Hd, Hc.
  pose proof (zlen_nonneg rest).
  unfold Sort.sortData, Sort.init, gc_count. cbn [filled v].
  set (l := (Some <$> ys) ++ o :: o' :: rest) in *.
  assert (zlen l = zlen ys + 2 + zlen rest) as Hl by (unfold l; rewrite zlen_app, zlen_fmap, !zlen_cons; lia).
  destruct (Z.ltb_spec (zlen ys) (zlen l)); [|lia]. cbn [assert mbind outcome_bind].
  pose proof (pq_usable (compare q) ys o (o' :: rest) Hcmp ltac:(rewrite zlen_cons; lia)) as Hu. fold l in Hu.
  destruct (proj1 (returns_exists _ _) (heapInsert_spec less _ l x (us_cmp _ _ _ Hu) CopyHandle0
    ltac:(cbn; lia) ltac:(cbn; lia) ltac:(lia) (us_valid _ _ _ Hu) Hh)) as (l' & -> & Hpm & Hh'). cbn in Hpm, Hh'.
  cbn [mbind outcome_bind]. eexists. split; [done|]. split; [done|]. right.
  assert (<[zlen ys := Some x]> l = (Some <$> ys ++ [x]) ++ o' :: rest) as E.
  { pose proof (aset_elems ys o (o' :: rest) (Some x)) as Ha. unfold aset in Ha. fold l in Ha.
    rewrite decide_True in Ha by lia. simplify_eq. rewrite Ha. by rewrite fmap_app, <- app_assoc. }
  rewrite E in Hpm. replace (zlen ys + 1) with (zlen (ys ++ [x])) in * by (by rewrite zlen_app).
  destruct (permutes_elems (ys ++ [x]) (o' :: rest) l' Hpm) as (zs & -> & Hzs).
  assert (zlen zs = zlen (ys ++ [x])) as Hz by (by rewrite Hzs). exists zs, o', rest. cbn. rewrite Hz.
  split_and!; [done|rewrite zlen_app; change (zlen [x]) with 1; lia| |done].
  rewrite Hzs, Hp. by rewrite (Permutation_app_comm xs [x]).
Qed.

(** The first element is a largest one. *)
Lemma pq_top q xs :
  pq_rep q xs →
  match xs with
  | [] => PQueue_top q = Throw (PQueueError "Trying to access elements in an empty priority queue."%string)
  | _ => ∃ x, PQueue_top q = Ret x ∧ x ∈ xs ∧ ∀ y, y ∈ xs → le less y x
  end.
Proof using StrictWeak0.
  intros Hr. unfold PQueue_top, topRaw, empty. rewrite (pq_count q xs Hr).
  destruct xs as [|x0 xs]; [done|]. pose proof (zlen_nonneg xs). rewrite zlen_cons.
  destruct (Z.eqb_spec (zlen xs + 1) 0); [lia|]. cbn [mbind outcome_bind].
  destruct Hr as [_ [[_ ?]|(ys & o & rest & Hd & Hb & Hp & Hh)]]; [done|]. rewrite Hd. cbn [v].
  destruct ys as [|y ys]; [by apply Permutation_nil_cons in Hp|].
  exists y. split; [done|]. rewrite <- Hp. split; [by left|].
  intros z Hz. rewrite <- Hp in Hz. apply list_elem_of_lookupZ in Hz as [i Hi].
  pose proof (lookupZ_Some_lt _ _ _ Hi).
  apply (heap_root less 0 (zlen (y :: ys)) _ i z y Hh); [|done|done|by apply lookupZ_elems].
  intros j Hj. destruct (lookupZ_lt_Some (y :: ys) j Hj) as [w Hw]. exists w. by apply lookupZ_elems.
Qed.

(** [heapRemove] moves the first element behind the others. *)
Lemma heapRemove_elems cmp (y : T) ys o rest :
  compares cmp → zlen (y :: ys) + 1 + zlen rest < 2 ^ 32 →
  heap less 0 (zlen (y :: ys)) ((Some <$> y :: ys) ++ o :: rest) →
  ∃ zs o', Sort.heapRemove (Sort.mkSortData handle cmp (zlen (y :: ys)) 0 (zlen (y :: ys))) ((Some <$> y :: ys) ++ o :: rest) =
      Ret ((Some <$> zs ++ [y]) ++ o' :: rest) ∧ y :: ys ≡ₚ zs ++ [y] ∧
    heap less 0 (zlen zs) ((Some <$> zs ++ [y]) ++ o' :: rest).
Proof using StrictWeak0.
  intros Hcmp Hb Hh. pose proof (pq_usable cmp (y :: ys) o rest Hcmp Hb) as Hu.
  destruct (decide (1 < zlen (y :: ys))) as [Hlg|Hsm].
  - destruct (proj1 (returns_exists _ _) (heapRemove_spec less _ _ Hu ltac:(cbn; lia) Hh))
      as (l' & -> & Hsh & Hh' & Hlast). cbn in Hsh, Hh', Hlast.
    destruct (shuffles_elems (y :: ys) o rest l' Hsh) as (us & o' & -> & Hus).
    destruct us as [|z zs _] using rev_ind; [by apply Permutation_nil_cons in Hus|].
    assert (zlen (y :: ys) - 1 = zlen zs) as Hz.
    { assert (zlen (zs ++ [z]) = zlen (y :: ys)) as Hq by (by rewrite Hus). rewrite zlen_app in Hq.
      change (zlen [z]) with 1 in Hq. lia. }
    rewrite Hz in Hlast, Hh'. assert (z = y) as ->; [|by exists zs, o'].
    rewrite (lookupZ_elems _ _ _ z) in Hlast; [|unfold zlen; rewrite lookupZ_nat; by apply list_lookup_middle].
    change (Some (Some z) = Some (Some y)) in Hlast. congruence.
  - assert (ys = []) as -> by (destruct ys; [done|rewrite !zlen_cons in Hsm; pose proof (zlen_nonneg ys); lia]).
    exists [], o. split_and!; [done|done|apply heap_nil].
Qed.

(** [pop] removes the element [top] returns. *)
Lemma pq_pop q xs :
  pq_rep q xs → xs ≠ [] →
  ∃ q' x xs' o, pop handle q = Ret (q', o) ∧ PQueue_top q = Ret x ∧ xs ≡ₚ x :: xs' ∧ pq_rep q' xs'.
Proof using StrictWeak0.
  intros Hr Hne. pose proof (pq_top q xs Hr) as Ht. destruct xs as [|x0 xs]; [done|].
  destruct Ht as (x & Ht & _). pose proof Hr as [Hcmp [[_ ?]|(ys & o & rest & Hd & Hb & Hp & Hh)]]; [done|].
  unfold pop. rewrite Hd. unfold Sort.sortData, Sort.init, gc_count. cbn [filled v].
  pose proof (zlen_nonneg ys). pose proof (zlen_nonneg rest).
  destruct (Z.ltb_spec (zlen ys) (zlen ((Some <$> ys) ++ o :: rest)));
    [|rewrite zlen_app, zlen_fmap, zlen_cons in *; lia]. cbn [assert mbind outcome_bind].
  destruct ys as [|y ys]; [by apply Permutation_nil_cons in Hp|].
  assert (x = y) as ->.
  { unfold PQueue_top, topRaw in Ht. destruct (empty q); [done|]. cbn [mbind outcome_bind] in Ht.
    rewrite Hd in Ht. change (Ret y = Ret x) in Ht. congruence. }
  destruct (heapRemove_elems (compare q) y ys o rest Hcmp Hb Hh) as (zs & o' & -> & Hzs & Hh').
  cbn [mbind outcome_bind]. assert (zlen (y :: ys) = zlen (zs ++ [y])) as Hz by (by rewrite Hzs).
  rewrite Hz in *. rewrite aget_elems. cbn [mbind outcome_bind]. rewrite aset_elems. cbn [mbind outcome_bind].
  rewrite zlen_app in *. change (zlen [y]) with 1 in *. pose proof (zlen_nonneg zs).
  rewrite u64_small by zsolve. eexists _, y, zs, o'. split; [done|]. split; [done|]. split.
  { rewrite <- Hp, Hzs. by rewrite Permutation_app_comm. }
  split; [done|]. right. exists zs, (Some y), (None :: rest). cbn.
  rewrite fmap_app, <- app_assoc in Hh' |- *. cbn [fmap list_fmap app] in *.
  split_and!; [repeat f_equal; lia|rewrite zlen_cons; lia|done|].
  eapply heap_prefix; [done|exact Hh'].
Qed.

(** The first [i] of the elements [xs] are copied to a block of [n] slots. *)
Definition filled_to xs (n i : Z) (r : GcArray T) : Prop :=
  zlen (v r) = n ∧
  ∃ rest, r = mkGcArray i ((Some <$> take (Z.to_nat i) xs) ++ rest) ∧ zlen xs - i ≤ zlen rest.

Lemma fill_step xs n i r x :
  filled_to xs n i r → xs !! i = Some x →
  returns (l ← aset (v r) i (Some (safeCopy handle x)); Ret (mkGcArray (i + 1) l)) (filled_to xs n (i + 1)).
Proof using CopyHandle0.
  intros (Hn & rest & -> & Hrest) Hx. pose proof (lookupZ_Some_lt _ _ _ Hx) as Hi. cbn [v] in *.
  rewrite copy_id. assert (zlen (take (Z.to_nat i) xs) = i) as Ht.
  { unfold zlen in *. rewrite length_take. lia. }
  destruct rest as [|o rest]; [change (zlen (@nil (option T))) with 0 in Hrest; lia|].
  pose proof (aset_elems (take (Z.to_nat i) xs) o rest (Some x)) as Ha. rewrite Ht in Ha. rewrite Ha. cbn.
  split; cbn; [rewrite zlen_app, zlen_cons in *; lia|].
  exists rest. rewrite zlen_cons in Hrest. split; [|lia].
  replace (Z.to_nat (i + 1)) with (S (Z.to_nat i)) by lia. rewrite lookupZ_to_nat in Hx by lia.
  rewrite (take_S_r _ _ x Hx), fmap_app, <- app_assoc. done.
Qed.

Lemma filled_start xs n : zlen xs ≤ n → filled_to xs n 0 (allocArray n).
Proof.
  intros Hn. pose proof (zlen_nonneg xs). unfold allocArray. split; cbn; [rewrite zlen_replicate; lia|].
  eexists. split; [done|]. rewrite zlen_replicate. lia.
Qed.

Lemma filled_end xs n i r :
  filled_to xs n i r → i = zlen xs →
  ∃ rest, r = mkGcArray (zlen xs) ((Some <$> xs) ++ rest) ∧ zlen xs + zlen rest = n.
Proof.
  intros (Hn & rest & -> & _) ->. cbn in Hn. rewrite take_ge in * by (unfold zlen; lia).
  rewrite zlen_app, zlen_fmap in Hn. by exists rest.
Qed.

Lemma copyArray_spec a xs :
  ArrayProofs.rep a xs → zlen xs + 1 < 2 ^ 32 →
  ∃ o, copyArray handle a = Ret (mkGcArray (zlen xs) ((Some <$> xs) ++ [o])).
Proof using CopyHandle0.
  intros Hr Hb. unfold copyArray. pose proof (ArrayProofs.count_rep a xs Hr) as Hc. rewrite Hc. pose proof (zlen_nonneg xs).
  rewrite u32_small by zsolve.
  for_inv (filled_to xs (zlen xs + 1)) r Hf; [apply filled_start; lia| |].
  { intros i r Hi Hf. destruct (lookupZ_lt_Some xs i) as [x Hx]; [lia|]. unfold ArrayBase.getRaw. rewrite Hc.
    destruct (Z.ltb_spec i (zlen xs)); [|lia]. cbn [mbind outcome_bind].
    rewrite (ArrayProofs.elemAt_rep a xs i x Hr Hx). by apply fill_step. }
  destruct (filled_end _ _ _ _ Hf ltac:(lia)) as (rest & -> & Hz).
  destruct rest as [|o [|]]; [| |rewrite !zlen_cons in Hz; pose proof (zlen_nonneg l); lia].
  - change (zlen (@nil (option T))) with 0 in Hz. lia.
  - by exists o.
Qed.

(** A queue built from a non-empty array holds the array's elements. *)
Lemma ofArray_rep a xs cmp :
  ArrayProofs.rep a xs → compares cmp → zlen xs + 1 < 2 ^ 32 → xs ≠ [] →
  ∃ q, ofArray handle a cmp = Ret q ∧ pq_rep q xs.
Proof using CopyHandle0 StrictWeak0.
  intros Hr Hc Hb Hne. unfold ofArray. destruct (copyArray_spec a xs Hr Hb) as (o & ->). cbn [mbind outcome_bind v filled].
  unfold Sort.sortData, Sort.init, gc_count. cbn [filled v]. pose proof (zlen_nonneg xs).
  destruct (Z.ltb_spec (zlen xs) (zlen ((Some <$> xs) ++ [o]))) as [_|Hl];
    [|rewrite zlen_app, zlen_fmap in Hl; change (zlen [o]) with 1 in Hl; lia]. cbn [assert mbind outcome_bind].
  pose proof (pq_usable cmp xs o [] Hc ltac:(change (zlen (@nil (option T))) with 0; lia)) as Hu.
  destruct (proj1 (returns_exists _ _) (makeHeap_spec less _ _ Hu
    ltac:(cbn; destruct xs; [done|rewrite zlen_cons in *; pose proof (zlen_nonneg xs); lia]))) as (l & -> & Hsh & Hh). cbn in Hsh, Hh.
  destruct (shuffles_elems xs o [] l Hsh) as (zs & o' & -> & Hzs). cbn [mbind outcome_bind].
  assert (zlen zs = zlen xs) as Hz by (by rewrite Hzs). rewrite <- Hz in *.
  eexists. split; [done|]. split; [done|]. right. exists zs, o', []. cbn. change (zlen (@nil (option T))) with 0.
  split_and!; [done|lia|done|done].
Qed.

(** A copy holds the same elements. *)
Lemma copy_pq q xs :
  pq_rep q xs → zlen xs + 1 < 2 ^ 32 → ∃ q', copy handle q = Ret q' ∧ pq_rep q' xs.
Proof using CopyHandle0.
  intros Hr Hb. unfold copy. pose proof (pq_count q xs Hr) as Hct. rewrite Hct.
  destruct (decide (xs = [])) as [->|Hne].
  { exists (new (compare q)). split; [done|]. split; [by destruct Hr|]. by left. }
  pose proof (zlen_nonneg xs). assert (1 ≤ zlen xs) by (destruct xs; [done|rewrite zlen_cons in *; pose proof (zlen_nonneg xs); lia]).
  destruct Hr as [Hcmp [[_ ?]|(ys & o & rest & Hd & Hb' & Hp & Hh)]]; [done|].
  assert (zlen ys = zlen xs) as Hy by (by rewrite Hp). unfold ensure, new. cbn [data count compare]. cbn zeta.
  destruct (Z.eqb_spec (zlen xs) 0); [lia|]. rewrite (u32_small (zlen xs + 1)) by zsolve.
  destruct (Z.leb_spec (zlen xs + 1) 0); [lia|]. cbn [mbind outcome_bind].
  set (cap := if _ <? _ then _ else _). assert (zlen xs + 1 ≤ cap < 2 ^ 32) as Hcap.
  { unfold cap. pose proof (u32_range (0 * 2)). destruct (Z.ltb_spec (Z.max 16 (u32 (0 * 2))) (zlen xs + 1)); zsolve. }
  for_inv (λ i q', ∃ d, q' = mkPQueue (Some d) (compare q) ∧ filled_to ys cap i d) q' Hf.
  { eexists. split; [done|]. apply filled_start. lia. }
  { intros i q' Hi (d & -> & Hf). destruct (lookupZ_lt_Some ys i) as [x Hx]; [lia|]. cbn [data compare]. rewrite Hd. cbn [v].
    unfold slot. rewrite (aget_Some _ _ (Some x)) by by apply lookupZ_elems. cbn [mbind outcome_bind].
    pose proof (fill_step ys cap i d x Hf Hx) as Hs. destruct (aset _ _ _); [|done..].
    cbn in *. by eexists. }
  destruct Hf as (d & -> & Hf).
  destruct (filled_end _ _ _ _ Hf ltac:(lia)) as (rest' & -> & Hz). eexists. split; [done|].
  split; [done|]. right. destruct rest' as [|o' rest']; [change (zlen (@nil (option T))) with 0 in Hz; lia|].
  rewrite zlen_cons in Hz. exists ys, o', rest'. split_and!; [done|lia|done|].
  eapply heap_prefix; [done|exact Hh].
Qed.
End rep.
