(* ===== verification/PQueueCorrect.v ===== *)
(** * Correctness of priority queues

    [PQueue<T>] ([Core/PQueue.h], [Core/PQueue.cpp]) behaves as a bag whose largest
    elements leave first: a step relation on bags is the specification, and every
    sequence of calls that does not pop an empty queue is a run of it.  What [pop]
    does to an empty queue is stated too. *)

From stdpp Require Import base list numbers strings option decidable pretty.
From Stdlib Require Import ZArith Lia.
From S2P Require Import Prelude Handle Sort Ranges SortProofs HeapProofs SortCorrect.
From S2P Require Import Array ArrayProofs ArrayCorrect PQueue.
Import PQueueBase.

Inductive pop_op (T : Type) :=
  | PPush (x : T)
  | PPop
  | PTop
  | PTake
  | PCount
  | PReserve (n : nat)
  | PCopy.
Arguments PPush {T}.
Arguments PPop {T}.
Arguments PTop {T}.
Arguments PTake {T}.
Arguments PCount {T}.
Arguments PReserve {T}.
Arguments PCopy {T}.

(** ** The specification: a bag *)

Definition emptyError : exn := PQueueError "Trying to access elements in an empty priority queue."%string.

(** [x] is a largest element of the bag. *)
Definition largest {T} (less : T → T → bool) (x : T) (xs : list T) : Prop :=
  x ∈ xs ∧ ∀ y, y ∈ xs → le less y x.

(** A call on a bag, what the caller sees and the bag after it.  [PTake] is [top]
    followed by [pop].  Bags that are permutations are the same. *)
Inductive pstep {T} (less : T → T → bool) : list T → pop_op T → ares T → list T → Prop :=
  | step_push xs x ys : ys ≡ₚ x :: xs → pstep less xs (PPush x) AUnit ys
  | step_pop xs x ys : largest less x xs → xs ≡ₚ x :: ys → pstep less xs PPop AUnit ys
  | step_top xs x : largest less x xs → pstep less xs PTop (AElem x) xs
  | step_top_empty : pstep less [] PTop (AExn emptyError) []
  | step_take xs x ys : largest less x xs → xs ≡ₚ x :: ys → pstep less xs PTake (AElem x) ys
  | step_take_empty : pstep less [] PTake (AExn emptyError) []
  | step_count xs : pstep less xs PCount (ANat (zlen xs)) xs
  | step_reserve xs n : pstep less xs (PReserve n) AUnit xs
  | step_copy xs : pstep less xs PCopy AUnit xs.

Inductive psteps {T} (less : T → T → bool) : list T → list (pop_op T) → list (ares T) → list T → Prop :=
  | steps_nil xs : psteps less xs [] [] xs
  | steps_cons xs o r ys os rs zs :
      pstep less xs o r ys → psteps less ys os rs zs → psteps less xs (o :: os) (r :: rs) zs.

(** The number of elements after a call, if it does not pop an empty queue; sizes fit
    the 32-bit counts. *)
Definition psize {T} (n : nat) (o : pop_op T) : option nat :=
  match o with
  | PPush _ => if decide (Z.of_nat n + 2 < 2 ^ 32) then Some (S n) else None
  | PPop => match n with O => None | S n => Some n end
  | PTake => Some (n - 1)%nat
  | PReserve k => if decide (Z.of_nat k + 1 < 2 ^ 32) then Some n else None
  | _ => Some n
  end.

Fixpoint allowed {T} (n : nat) (os : list (pop_op T)) : bool :=
  match os with
  | [] => true
  | o :: os => match psize n o with Some n => allowed n os | None => false end
  end.

(** ** Sequences of calls *)

Section sequences.
Context {World T : Type} (handle : Handle World T).

(** A caller that catches exceptions keeps the queue it had. *)
Definition pcatch (q : PQueueBase T) (o : outcome (PQueueBase T * ares T)) : outcome (PQueueBase T * ares T) :=
  match o with Throw e => Ret (q, AExn e) | _ => o end.

Definition pexec (q : PQueueBase T) (o : pop_op T) : outcome (PQueueBase T * ares T) :=
  pcatch q match o with
  | PPush x => q ← pushRaw handle q x; Ret (q, AUnit)
  | PPop => '(q, _) ← pop handle q; Ret (q, AUnit)
  | PTop => x ← PQueue_top q; Ret (q, AElem x)
  | PTake => x ← PQueue_top q; '(q, _) ← pop handle q; Ret (q, AElem x)
  | PCount => Ret (q, ANat (count q))
  | PReserve n => q ← reserve q (Z.of_nat n); Ret (q, AUnit)
  | PCopy => q ← copy handle q; Ret (q, AUnit)
  end.

Fixpoint prun (q : PQueueBase T) (os : list (pop_op T)) : outcome (PQueueBase T * list (ares T)) :=
  match os with
  | [] => Ret (q, [])
  | o :: os => '(q, r) ← pexec q o; '(q, rs) ← prun q os; Ret (q, r :: rs)
  end.
End sequences.

Section correct.
Context {World T : Type} (handle : Handle World T) `{!CopyHandle handle}.
Context (less : T → T → bool) `{!StrictWeak less}.
Implicit Types (q : PQueueBase T) (xs : list T).

Lemma pq_rep_small q xs : pq_rep handle less q xs → zlen xs + 1 < 2 ^ 32 ∨ xs = [].
Proof.
  intros [_ [[_ ->]|(ys & o & rest & _ & Hb & Hp & _)]]; [by right|]. left.
  rewrite <- Hp. pose proof (zlen_nonneg rest). lia.
Qed.

Lemma pop_largest q xs :
  pq_rep handle less q xs → xs ≠ [] →
  ∃ q' x ys o, pop handle q = Ret (q', o) ∧ PQueue_top q = Ret x ∧ largest less x xs ∧
    xs ≡ₚ x :: ys ∧ pq_rep handle less q' ys.
Proof using StrictWeak0.
  intros Hr Hne. destruct (pq_pop handle less q xs Hr Hne) as (q' & x & ys & o & Hp & Ht & Hx & Hr').
  pose proof (pq_top handle less q xs Hr) as Htop. destruct xs; [done|].
  destruct Htop as (x' & Ht' & Hin & Hle). assert (x' = x) as -> by congruence.
  exists q', x, ys, o. done.
Qed.

(** One call. *)
Lemma pexec_rep q xs o n :
  pq_rep handle less q xs → psize (length xs) o = Some n →
  ∃ q' r ys, pexec handle q o = Ret (q', r) ∧ pstep less xs o r ys ∧ length ys = n ∧ pq_rep handle less q' ys.
Proof using CopyHandle0 StrictWeak0.
  intros Hr Hn. pose proof (pq_top handle less q xs Hr) as Htop.
  pose proof (pop_largest q xs Hr) as Hpop.
  destruct o as [x| | | | |k|]; cbn [psize] in Hn; unfold pexec.
  - case_decide; simplify_eq. destruct (pq_push handle less q xs x Hr) as (q' & -> & Hr'); [done|].
    exists q', AUnit, (x :: xs). split_and!; [done|by constructor|done|done].
  - destruct xs as [|x0 xs]; simplify_eq/=. destruct (Hpop ltac:(done)) as (q' & x & ys & o & -> & _ & Hl & Hp & Hr').
    exists q', AUnit, ys. split_and!; [done|by econstructor| |done].
    apply Permutation_length in Hp. cbn in Hp. lia.
  - simplify_eq. destruct xs as [|x0 xs].
    + rewrite Htop. exists q, (AExn emptyError), []. split_and!; [done|constructor|done|done].
    + destruct Htop as (x & -> & Hx). exists q, (AElem x), (x0 :: xs). split_and!; [done|by constructor|done|done].
  - simplify_eq. destruct xs as [|x0 xs].
    + rewrite Htop. exists q, (AExn emptyError), []. split_and!; [done|constructor|done|done].
    + destruct (Hpop ltac:(done)) as (q' & x & ys & o & -> & -> & Hl & Hp & Hr').
      exists q', (AElem x), ys. split_and!; [done|by econstructor| |done].
      apply Permutation_length in Hp. cbn in Hp |- *. lia.
  - simplify_eq. rewrite (pq_count handle less q xs Hr). exists q, (ANat (zlen xs)), xs. split_and!; [done|constructor|done|done].
  - case_decide; simplify_eq. destruct (reserve_rep handle less q xs (Z.of_nat k) Hr) as (q' & -> & Hr'); [lia|done|].
    exists q', AUnit, xs. split_and!; [done|constructor|done|done].
  - simplify_eq. destruct (copy_pq handle less q xs Hr) as (q' & -> & Hr').
    { destruct (pq_rep_small q xs Hr) as [?| ->]; [lia|done]. }
    exists q', AUnit, xs. split_and!; [done|constructor|done|done].
Qed.

Lemma prun_rep q xs os :
  pq_rep handle less q xs → allowed (length xs) os = true →
  ∃ q' rs ys, prun handle q os = Ret (q', rs) ∧ psteps less xs os rs ys ∧ pq_rep handle less q' ys.
Proof using CopyHandle0 StrictWeak0.
  revert q xs. induction os as [|o os IH]; intros q xs Hr Ha.
  { exists q, [], xs. split_and!; [done|constructor|done]. }
  cbn in Ha. destruct (psize (length xs) o) as [n|] eqn:En; [|done].
  destruct (pexec_rep q xs o n Hr En) as (q1 & r & ys & E & Hs & <- & Hr1).
  destruct (IH q1 ys Hr1 Ha) as (q' & rs & zs & E' & Hs' & Hr'). exists q', (r :: rs), zs.
  cbn. rewrite E. cbn. rewrite E'. split_and!; [done|by econstructor|done].
Qed.

(** C7: every sequence of [push], [pop], [top], [count], [reserve] and copy
    construction on a new priority queue that never pops an empty queue returns, with
    the results of a bag that gives up its largest element, for a comparison
    function or the type's [<]; [top] of an empty queue throws [PQueueError]. *)
Theorem pqueue_refines cmp os :
  compares handle less cmp → allowed 0 os = true →
  ∃ q rs xs, prun handle (new cmp) os = Ret (q, rs) ∧ psteps less [] os rs xs ∧ pq_rep handle less q xs.
Proof using CopyHandle0 StrictWeak0.
  intros Hc Ha. apply (prun_rep (new cmp) []); [|done]. split; [done|]. by left.
Qed.

(** Taking all elements of a bag. *)
Lemma take_all xs n rs ys :
  psteps less xs (replicate n PTake) rs ys → length xs = n →
  ∃ zs, rs = AElem <$> zs ∧ zs ≡ₚ xs ∧ ∀ i j x y, (i < j)%nat → zs !! i = Some x → zs !! j = Some y → le less y x.
Proof.
  revert xs rs. induction n as [|n IH]; intros xs rs Hs Hn; inversion Hs as [|? ? ? ? ? ? ? Hst Hss]; subst.
  { exists []. split; [done|]. split; [by destruct ys|]. intros i j x y _ Hx. done. }
  inversion Hst; subst; [|done]. match goal with H : xs ≡ₚ ?x :: ?ys |- _ => rename x into z, ys into us, H into Hp end.
  destruct (IH us rs0) as (zs & -> & Hz & Ho); [done|by rewrite Hp in Hn; simplify_eq/=|].
  exists (z :: zs). split; [done|]. split; [by rewrite Hz|].
  intros [|i] [|j] x y Hij Hx Hy; [lia| |lia|apply (Ho i j); [lia|done|done]]. simplify_eq/=.
  match goal with H : largest _ _ _ |- _ => apply H end. rewrite Hp, <- Hz. right. by eapply list_elem_of_lookup_2.
Qed.

(** A queue built from a non-empty array ([makeHeap]) and then emptied by [top] and
    [pop] yields exactly the array's elements, in descending order. *)
Theorem drain_array cmp a xs :
  compares handle less cmp → rep a xs → xs ≠ [] → zlen xs + 1 < 2 ^ 32 →
  ∃ q q' zs, ofArray handle a cmp = Ret q ∧
    prun handle q (replicate (length xs) PTake) = Ret (q', AElem <$> zs) ∧ zs ≡ₚ xs ∧
    ∀ i j x y, (i < j)%nat → zs !! i = Some x → zs !! j = Some y → le less y x.
Proof using CopyHandle0 StrictWeak0.
  intros Hc Ha Hne Hb. destruct (ofArray_rep handle less a xs cmp Ha Hc Hb Hne) as (q & -> & Hr).
  assert (∀ n m, allowed n (replicate m (@PTake T)) = true) as Hal.
  { intros n m. revert n. induction m as [|m IH]; intros n; [done|]. apply IH. }
  destruct (prun_rep q xs _ Hr (Hal _ (length xs))) as (q' & rs & ys & E & Hs & _).
  destruct (take_all xs _ rs ys Hs eq_refl) as (zs & -> & Hz). by exists q, q', zs.
Qed.
End correct.

Lemma pqueue_refines_witness :
  ∃ q rs xs, prun intT (new None) [PTop; PPush 3; PPush 7; PPush 5; PCopy; PTake; PCount; PPop; PTake; PTake] = Ret (q, rs) ∧
    psteps Z.ltb [] [PTop; PPush 3; PPush 7; PPush 5; PCopy; PTake; PCount; PPop; PTake; PTake] rs xs ∧
    rs = [AExn emptyError; AUnit; AUnit; AUnit; AUnit; AElem 7; ANat 2; AUnit; AElem 3; AExn emptyError].
Proof.
  destruct (pqueue_refines intT Z.ltb None
    [PTop; PPush 3; PPush 7; PPush 5; PCopy; PTake; PCount; PPop; PTake; PTake]) as (q & rs & xs & E & Hs & _).
  - intros x y. exists Z.ltb. done.
  - reflexivity.
  - exists q, rs, xs. split; [exact E|]. split; [exact Hs|]. vm_compute in E. simplify_eq. reflexivity.
Defined.

Lemma drain_array_witness :
  ∃ q q' zs, ofArray intT (ArrayBase.mkArray (Some (mkGcArray 4 (Some <$> [2; 9; 4; 7])))) (Some (λ x y, y <? x)) = Ret q ∧
    prun intT q (replicate 4 PTake) = Ret (q', AElem <$> zs) ∧ zs = [2; 4; 7; 9].
Proof.
  assert (StrictWeak (λ x y, y <? x)) as Hw.
  { split; intros *; rewrite ?Z.ltb_irrefl, ?Z.ltb_lt; [done|lia|lia]. }
  destruct (drain_array intT (λ x y, y <? x) (Some (λ x y, y <? x))
    (ArrayBase.mkArray (Some (mkGcArray 4 (Some <$> [2; 9; 4; 7])))) [2; 9; 4; 7]) as (q & q' & zs & E & Er & _).
  - done.
  - right. by exists [].
  - done.
  - reflexivity.
  - exists q, q', zs. split; [exact E|]. split; [exact Er|].
    vm_compute in E. simplify_eq. vm_compute in Er. injection Er as _ H.
    destruct zs as [|? [|? [|? [|? [|? ?]]]]]; vm_compute in H; simplify_eq. reflexivity.
Defined.

(** ** Popping an empty queue *)

(** [pop] does not check for an empty queue.  On a queue that never held an element
    it follows a null pointer; on one that did it returns and the 64-bit element count
    wraps around, so that [count], its low 32 bits, reports 2^32 - 1 elements. *)
Theorem pop_empty {World T} (handle : Handle World T) cmp o l :
  pop handle (new cmp) = Fault ∧
  ∃ q x, pop handle (mkPQueue (Some (mkGcArray 0 (o :: l))) cmp) = Ret (q, x) ∧
    count q = 2 ^ 32 - 1 ∧ empty q = false.
Proof.
  split; [done|]. unfold pop, Sort.sortData, Sort.init, gc_count. cbn [data filled v compare].
  rewrite zlen_cons. pose proof (zlen_nonneg l). destruct (Z.ltb_spec 0 (zlen l + 1)); [|lia].
  cbn [assert mbind outcome_bind]. unfold Sort.heapRemove. cbn. by eexists _, _.
Qed.

(** [pop] destroys the slot behind the last element instead of the element it
    removed: after two pushes and two pops of 1 and 2, the destructor ran twice for the
    element 2 and never for 1. *)
Theorem pop_destroys_wrong_object :
  (q ← pushRaw intT (new None) 1; q ← pushRaw intT q 2;
   '(q, o1) ← pop intT q; '(q, o2) ← pop intT q; Ret (count q, o1, o2)) =
  Ret (0, Some 2, Some 2).
Proof. vm_compute. reflexivity. Qed.
