(* ===== verification/Queue.v ===== *)
(** * Queues

    [Core/Queue.h] and [Core/Queue.cpp]: [QueueBase], a ring buffer that grows. *)

From stdpp Require Import base list numbers strings option decidable pretty.
From Stdlib Require Import ZArith Lia.
From S2P Require Import Prelude Handle Sort.

Module QueueBase.

Record QueueBase (T : Type) := mkQueue {
  data : option (GcArray T);
  head : Z;
}.
Arguments mkQueue {T}.
Arguments data {T}.
Arguments head {T}.

Section queue.
Context {World T : Type} (handle : Handle World T).
Implicit Types q : QueueBase T.

Definition new : QueueBase T := mkQueue None 0.
Definition clear : QueueBase T := mkQueue None 0.

Definition count q : Z := match data q with Some d => u32 (filled d) | None => 0 end.
Definition any q : bool := 0 <? count q.
Definition empty q : bool := count q =? 0.

(** The object at [ptr(id)]. *)
Definition ptr q (id : Z) : outcome T :=
  match data q with Some d => slot (v d) id | None => Fault end.

(** [step(at)]: the position after [at]. *)
Definition step q (at_ : Z) : outcome Z :=
  match data q with
  | Some d => let at_ := u32 (at_ + 1) in Ret (if at_ =? gc_count d then 0 else at_)
  | None => Fault
  end.

Definition ensure q (n : Z) : outcome (QueueBase T) :=
  if n =? 0 then Ret q
  else
    let oldCap := match data q with Some d => u32 (gc_count d) | None => 0 end in
    if n <=? oldCap then Ret q
    else
      let oldCount := count q in
      let newCap := Z.max 16 (u32 (oldCap * 2)) in
      let newCap := if newCap <? n then n else newCap in
      let newData := allocArray newCap in
      match data q with
      | Some d =>
          let firstBatch := Z.min oldCount (u32 (u32 (gc_count d) - head q)) in
          l ← memmove (v newData) 0 (v d) (head q) firstBatch;
          l ← (if firstBatch <? oldCount then memmove l firstBatch (v d) 0 (oldCount - firstBatch) else Ret l);
          Ret (mkQueue (Some (mkGcArray oldCount l)) 0)
      | None => Ret (mkQueue (Some newData) 0)
      end.

Definition reserve := ensure.

(** [QueueBase(other)]: the new queue [q] steps around its own buffer while it reads
    the other's. *)
Definition copy (other : QueueBase T) : outcome (QueueBase T) :=
  if empty other then Ret new
  else
    q ← ensure new (count other);
    '(q, _) ← for_loop (Z.to_nat (count other)) 0 (λ i '(q, at_),
      match data q with
      | Some d =>
          x ← ptr other at_;
          l ← aset (v d) i (Some (safeCopy handle x));
          at_ ← step q at_;
          Ret (mkQueue (Some (mkGcArray (filled d) l)) (head q), at_)
      | None => Fault
      end) (q, head other);
    match data q with
    | Some d => Ret (mkQueue (Some (mkGcArray (count other) (v d))) (head q))
    | None => Fault
    end.

Definition deepCopy q : outcome (QueueBase T) :=
  match deepCopyFn handle, data q with
  | Some f, Some d =>
      '(q, _) ← for_loop (Z.to_nat (filled d)) 0 (λ _ '(q, at_),
        match data q with
        | Some d =>
            x ← slot (v d) at_;
            l ← aset (v d) at_ (Some (f x));
            at_ ← step q at_;
            Ret (mkQueue (Some (mkGcArray (filled d) l)) (head q), at_)
        | None => Fault
        end) (q, head q);
      Ret q
  | _, _ => Ret q
  end.

Definition topRaw q : outcome Z :=
  if empty q then Throw (QueueError "Cannot get the top element of an empty queue."%string)
  else Ret (head q).

(** [Queue<T>::top] *)
Definition Queue_top q : outcome T := p ← topRaw q; ptr q p.

Definition pop q : outcome (QueueBase T) :=
  if empty q then Throw (QueueError "Cannot pop an empty queue."%string)
  else
    match data q with
    | Some d =>
        let head := u32 (head q + 1) in
        let head := if gc_count d <=? head then u32 (head - u32 (gc_count d)) else head in
        Ret (mkQueue (Some (mkGcArray (u64 (filled d - 1)) (v d))) head)
    | None => Fault
    end.

Definition pushRaw q (elem : T) : outcome (QueueBase T) :=
  q ← ensure q (u32 (count q + 1));
  match data q with
  | Some d =>
      let to := u32 (head q + u32 (filled d)) in
      let to := if gc_count d <=? to then u32 (to - u32 (gc_count d)) else to in
      l ← aset (v d) to (Some (safeCopy handle elem));
      Ret (mkQueue (Some (mkGcArray (u64 (filled d + 1)) l)) (head q))
  | None => Fault
  end.

Definition toS q : outcome string :=
  '(out, _) ← for_loop (Z.to_nat (count q)) 0 (λ i '(out, at_),
    let out := if 0 <? i then out +:+ ", "%string else out in
    x ← ptr q at_;
    at_ ← step q at_;
    Ret (out +:+ toSFn handle x, at_)) ("Queue:["%string, head q);
  Ret (out +:+ "]"%string).

(** ** Iterators: a queue and an index relative to its head; [None] is a null owner. *)
Record Iter := mkIter { owner : option (QueueBase T); index : Z }.

Definition iter_end : Iter := mkIter None 0.
Definition beginRaw q : Iter := mkIter (Some q) 0.
Definition endRaw q : Iter := mkIter (Some q) (count q).

Definition atEnd (it : Iter) : bool :=
  match owner it with None => true | Some q => count q <=? index it end.

(** [operator ==]; [same]: the owners are the same object. *)
Definition iterEq (same : bool) (x y : Iter) : bool :=
  if atEnd x || atEnd y then eqb (atEnd x) (atEnd y) else (index x =? index y) && same.
Definition iterNe (same : bool) (x y : Iter) : bool := negb (iterEq same x y).

Definition preIncRaw (it : Iter) : Iter :=
  if atEnd it then it else mkIter (owner it) (u32 (index it + 1)).
Definition postIncRaw (it : Iter) : Iter * Iter := (it, preIncRaw it).

Definition iter_getRaw (it : Iter) : outcome T :=
  if atEnd it then Throw (QueueError "Trying to dereference an invalid iterator."%string)
  else
    match owner it with
    | Some q =>
        match data q with
        | Some d =>
            let i := u32 (head q + index it) in
            let i := if gc_count d <=? i then u32 (i - u32 (gc_count d)) else i in
            ptr q i
        | None => Fault
        end
    | None => Fault
    end.
End queue.
End QueueBase.
