(* ===== verification/QueueCorrect.v ===== *)
(** * Correctness of queues

    [Queue<T>] ([Core/Queue.h], [Core/Queue.cpp]) behaves as a list that grows at one end
    and shrinks at the other: sequences of operations with their errors, iteration,
    output, deep copies, and when the copy constructor copies. *)

From stdpp Require Import base list numbers strings option decidable pretty.
From Stdlib Require Import ZArith Lia.
From S2P Require Import Prelude Handle Sort Ranges SortProofs SortCorrect Array ArrayProofs ArrayCorrect Queue.
Import QueueBase.

(** ** The representation *)

Lemma append_assoc (s t u : string) : (s +:+ t) +:+ u = s +:+ t +:+ u.
Proof.
  induction s as [|c s IH]; [done|].
  change (String c ((s +:+ t) +:+ u) = String c (s +:+ t +:+ u)). by rewrite IH.
Qed.

(** Positions less than a turn apart are different. *)
Lemma mod_inj (a b c : Z) : a `mod` c = b `mod` c → 0 < c → a < b + c → b < a + c → a = b.
Proof.
  intros E Hc Ha Hb. pose proof (Z.div_mod a c ltac:(lia)). pose proof (Z.div_mod b c ltac:(lia)).
  assert (a `div` c = b `div` c) by nia. nia.
Qed.

Section rep.
Context {World T : Type} (handle : Handle World T) `{!CopyHandle handle}.
Implicit Types (q : QueueBase T) (xs : list T) (l : list (option T)).

(** The block [l] holds the elements [xs] from slot [h] on, around its end. *)
Definition ring l (h : Z) xs : Prop :=
  ∀ (i : Z) x, xs !! i = Some x → l !! ((h + i) `mod` zlen l) = Some (Some x).

Definition q_rep q xs : Prop :=
  (data q = None ∧ xs = [] ∧ head q = 0) ∨
  ∃ l, data q = Some (mkGcArray (zlen xs) l) ∧ zlen xs ≤ zlen l ≤ 2 ^ 31 ∧
    0 ≤ head q < zlen l ∧ ring l (head q) xs.

Lemma new_qrep : q_rep new [].
Proof. by left. Qed.

Lemma q_rep_bound q xs : q_rep q xs → zlen xs ≤ 2 ^ 31.
Proof. intros [(_ & -> & _)|(l & _ & ? & _)]; [done|lia]. Qed.

Lemma q_count q xs : q_rep q xs → count q = zlen xs.
Proof.
  intros Hr. pose proof (q_rep_bound q xs Hr). pose proof (zlen_nonneg xs). unfold count.
  destruct Hr as [(-> & -> & _)|(l & -> & _)]; [done|]. cbn. apply u32_small. zsolve.
Qed.

(** A position past the end wraps around once. *)
Lemma wrap_pos (h i c : Z) :
  0 ≤ h < c → 0 ≤ i ≤ c → c ≤ 2 ^ 31 →
  (if c <=? u32 (h + i) then u32 (u32 (h + i) - u32 c) else u32 (h + i)) = (h + i) `mod` c.
Proof.
  intros Hh Hi Hc. rewrite (u32_small (h + i)), (u32_small c) by zsolve. destruct (Z.leb_spec c (h + i)).
  - rewrite u32_small by zsolve. apply Z.mod_unique_pos with 1; lia.
  - by rewrite Z.mod_small by lia.
Qed.

Lemma step_pos q c l h i :
  data q = Some (mkGcArray c l) → 0 ≤ h < zlen l → 0 ≤ i → zlen l ≤ 2 ^ 31 →
  step q ((h + i) `mod` zlen l) = Ret ((h + (i + 1)) `mod` zlen l).
Proof.
  intros Hd Hh Hi Hc. unfold step. rewrite Hd. unfold gc_count. cbn [v]. set (n := zlen l) in *.
  pose proof (Z.mod_pos_bound (h + i) n ltac:(lia)). rewrite u32_small by zsolve.
  replace (h + (i + 1)) with (h + i + 1) by lia. f_equal.
  rewrite <- (Z.add_mod_idemp_l (h + i) 1 n) by lia. destruct (Z.eqb_spec ((h + i) `mod` n + 1) n) as [->|].
  - by rewrite Z.mod_same by lia.
  - by rewrite (Z.mod_small (_ + 1)) by lia.
Qed.

Lemma ptr_ring q c l h xs i x :
  data q = Some (mkGcArray c l) → ring l h xs → xs !! i = Some x → ptr q ((h + i) `mod` zlen l) = Ret x.
Proof.
  intros Hd Hr Hx. unfold ptr, slot. rewrite Hd. cbn [v]. by rewrite (aget_Some _ _ (Some x)) by by apply Hr.
Qed.

(** Elements from the start of a block. *)
Lemma ring_start xs l : ring ((Some <$> xs) ++ l) 0 xs.
Proof.
  intros i x Hx. pose proof (lookupZ_Some_lt _ _ _ Hx). rewrite Z.add_0_l, Z.mod_small; [by apply lookupZ_elems|].
  rewrite zlen_app, zlen_fmap. pose proof (zlen_nonneg l). lia.
Qed.

(** The elements of a ring as the two pieces [ensure] copies. *)
Lemma ring_pieces l h xs :
  ring l h xs → 0 ≤ h < zlen l → zlen xs ≤ zlen l →
  let first := Z.min (zlen xs) (zlen l - h) in
  Some <$> xs = sub h (h + first) l ++ sub 0 (zlen xs - first) l.
Proof.
  intros Hr Hh Hl first. pose proof (zlen_nonneg xs).
  assert (zlen (sub h (h + first) l) = first) as H1 by (rewrite zlen_sub; unfold first; lia).
  assert (zlen (sub 0 (zlen xs - first) l) = zlen xs - first) as H2 by (rewrite zlen_sub; unfold first; lia).
  apply list_eqZ; rewrite zlen_fmap; [rewrite zlen_app; lia|]. intros i Hi.
  destruct (lookupZ_lt_Some xs i Hi) as [x Hx]. specialize (Hr i x Hx).
  assert ((Some <$> xs) !! i = Some (Some x)) as ->.
  { rewrite lookupZ_to_nat in Hx by lia. rewrite lookupZ_to_nat by lia. by rewrite list_lookup_fmap, Hx. }
  destruct (decide (i < first)).
  - rewrite Z.mod_small in Hr by (unfold first in *; lia). unfold zlen in H1.
    rewrite lookupZ_to_nat, lookup_app_l by lia. rewrite <- lookupZ_to_nat, sub_lookup by lia. done.
  - assert ((h + i) `mod` zlen l = i - first) as E.
    { symmetry. apply Z.mod_unique_pos with 1; unfold first in *; lia. } rewrite E in Hr.
    rewrite lookupZ_to_nat, lookup_app_r by (unfold zlen in H1; lia). unfold zlen in H1.
    replace (Z.to_nat i - length (sub h (h + first) l))%nat with (Z.to_nat (i - first)) by lia.
    rewrite <- lookupZ_to_nat, sub_lookup by lia. by rewrite Z.add_0_l.
Qed.

(** [memmove] of a range. *)
Lemma memmove_sub l1 m l2 src b n :
  0 ≤ b → 0 ≤ n → b + n ≤ zlen src → zlen m = n →
  memmove (l1 ++ m ++ l2) (zlen l1) src b n = Ret (l1 ++ sub b (b + n) src ++ l2).
Proof.
  intros Hb Hn Hs Hm.
  rewrite (memmove_at l1 m l2 (sub 0 b src) (sub b (b + n) src) (sub (b + n) (zlen src) src)); try done.
  - rewrite (sub_split b (b + n) src) at 1 by lia. done.
  - rewrite zlen_sub; lia.
  - rewrite zlen_sub; lia.
  - rewrite zlen_sub; lia.
Qed.

(** The two copies of [ensure] put the elements at the start of the new block. *)
Lemma two_batches l h xs cap :
  ring l h xs → 0 ≤ h < zlen l → zlen xs ≤ zlen l → zlen xs ≤ cap →
  let first := Z.min (zlen xs) (zlen l - h) in
  (l' ← memmove (replicate (Z.to_nat cap) None) 0 l h first;
   if first <? zlen xs then memmove l' first l 0 (zlen xs - first) else Ret l') =
  Ret ((Some <$> xs) ++ replicate (Z.to_nat (cap - zlen xs)) None).
Proof.
  intros Hr Hh Hl Hcap first. pose proof (zlen_nonneg xs).
  rewrite (ring_pieces l h xs Hr Hh Hl). fold first. set (r := replicate (Z.to_nat (cap - zlen xs)) (@None T)).
  set (m := replicate (Z.to_nat (zlen xs - first)) (@None T)).
  replace (replicate (Z.to_nat cap) None) with (replicate (Z.to_nat first) None ++ m ++ r)
    by (unfold r, m; rewrite <- !replicate_add; f_equal; unfold first; lia).
  pose proof (memmove_sub [] (replicate (Z.to_nat first) None) (m ++ r) l h first
    ltac:(lia) ltac:(unfold first; lia) ltac:(unfold first; lia) ltac:(rewrite zlen_replicate; unfold first; lia)) as Hm.
  cbn [app] in Hm. change (zlen (@nil (option T))) with 0 in Hm. rewrite Hm. cbn [mbind outcome_bind].
  set (s1 := sub h (h + first) l). assert (zlen s1 = first) as H1 by (unfold s1; rewrite zlen_sub; unfold first; lia).
  rewrite <- app_assoc. unfold m. destruct (Z.ltb_spec first (zlen xs)).
  - rewrite <- H1 at 2. rewrite memmove_sub; try (rewrite ?zlen_replicate; unfold first; lia).
    by rewrite Z.add_0_l.
  - replace (zlen xs - first) with 0 by (unfold first in *; lia). done.
Qed.

Lemma ensure_qrep q xs n :
  q_rep q xs → 0 ≤ n ≤ 2 ^ 30 →
  ∃ q', ensure q n = Ret q' ∧ q_rep q' xs ∧ (1 ≤ n → ∃ d, data q' = Some d ∧ n ≤ gc_count d) ∧
    (data q = None → n ≠ 0 → q' = mkQueue (Some (allocArray (Z.max 16 n))) 0).
Proof.
  intros Hr Hn. pose proof (q_count q xs Hr) as Hc. unfold ensure. cbn zeta. rewrite Hc.
  destruct (Z.eqb_spec n 0) as [->|]; [exists q; split_and!; try done; lia|]. pose proof (zlen_nonneg xs).
  destruct Hr as [(Hd & -> & Hh)|(l & Hd & Hl & Hh & Hr)]; rewrite Hd.
  - destruct (Z.leb_spec n 0); [lia|]. change (u32 (0 * 2)) with 0. rewrite (Z.max_l 16 0) by lia.
    set (cap := if 16 <? n then n else 16).
    assert (cap = Z.max 16 n) as Hcap by (unfold cap; destruct (Z.ltb_spec 16 n); lia).
    eexists. split; [done|]. split; [|split; [|by rewrite Hcap]].
    + right. unfold allocArray. eexists. cbn. change (zlen (@nil T)) with 0. split; [done|].
      rewrite !zlen_replicate. split_and!; try lia. intros i x Hx. by rewrite lookupZ_nil in Hx.
    + intros _. eexists. split; [done|]. unfold allocArray, gc_count. cbn. rewrite zlen_replicate. lia.
  - unfold gc_count. cbn [v]. rewrite (u32_small (zlen l)) by zsolve. destruct (Z.leb_spec n (zlen l)).
    { exists q. split; [done|]. split; [|split; [|congruence]]; [right; by exists l|]. intros _. eexists. split; [exact Hd|]. done. }
    rewrite (u32_small (zlen l * 2)), (u32_small (zlen l - head q)) by zsolve.
    set (cap := if _ <? _ then _ else _).
    assert (n ≤ cap ≤ 2 ^ 31) as Hcap by (unfold cap; destruct (Z.ltb_spec (Z.max 16 (zlen l * 2)) n); lia).
    pose proof (two_batches l (head q) xs cap Hr Hh ltac:(lia) ltac:(lia)) as Hb. cbn zeta in Hb.
    unfold allocArray. cbn [v]. destruct (memmove _ 0 l _ _) as [l1| | |]; try done. cbn [mbind outcome_bind] in Hb |- *. rewrite Hb.
    set (r := replicate (Z.to_nat (cap - zlen xs)) (@None T)).
    cbn [mbind outcome_bind]. assert (zlen ((Some <$> xs) ++ r) = cap) as Hz.
    { rewrite zlen_app, zlen_fmap. unfold r. rewrite zlen_replicate. lia. }
    eexists. split; [done|]. split; [|split; [|congruence]].
    + right. eexists. cbn. split; [done|]. rewrite Hz. split_and!; try lia. apply ring_start.
    + intros _. eexists. split; [done|]. unfold gc_count. cbn. lia.
Qed.

(** What is read of the ring at index [i]. *)
Lemma ring_read q c l xs i x :
  data q = Some (mkGcArray c l) → 0 ≤ head q < zlen l → zlen xs ≤ zlen l ≤ 2 ^ 31 → ring l (head q) xs →
  xs !! i = Some x →
  ptr q (let j := u32 (head q + i) in if zlen l <=? j then u32 (j - u32 (zlen l)) else j) = Ret x.
Proof.
  intros Hd Hh Hl Hr Hx. pose proof (lookupZ_Some_lt _ _ _ Hx). cbn zeta. rewrite wrap_pos by lia.
  by apply (ptr_ring q c l (head q) xs).
Qed.

Lemma pushRaw_qrep q xs x :
  q_rep q xs → zlen xs < 2 ^ 30 → ∃ q', pushRaw handle q x = Ret q' ∧ q_rep q' (xs ++ [x]).
Proof using CopyHandle0.
  intros Hr Hb. unfold pushRaw. rewrite (q_count q xs Hr). pose proof (zlen_nonneg xs). rewrite u32_small by zsolve.
  destruct (ensure_qrep q xs (zlen xs + 1) Hr ltac:(lia)) as (q1 & -> & Hr1 & Hroom & _). cbn [mbind outcome_bind].
  destruct (Hroom ltac:(lia)) as (d & Hd & Hg). destruct Hr1 as [(? & _)|(l & Hd1 & Hl & Hh & Hring)]; [congruence|].
  assert (d = mkGcArray (zlen xs) l) as -> by congruence. rewrite Hd. unfold gc_count in *. cbn [v filled] in *.
  rewrite (u32_small (zlen xs)), (u64_small (zlen xs + 1)) by zsolve. rewrite wrap_pos by lia.
  set (p := (head q1 + zlen xs) `mod` zlen l). pose proof (Z.mod_pos_bound (head q1 + zlen xs) (zlen l) ltac:(lia)) as Hp.
  fold p in Hp. rewrite aset_in by done. cbn [mbind outcome_bind]. rewrite copy_id. eexists. split; [done|]. right.
  eexists. cbn. rewrite zlen_app, zlen_insert. change (zlen [x]) with 1. split; [done|].
  split_and!; try lia. intros i y Hy. rewrite zlen_insert.
  pose proof (lookupZ_Some_lt _ _ _ Hy) as Hi. rewrite zlen_app in Hi. change (zlen [x]) with 1 in Hi.
  destruct (decide (i = zlen xs)) as [->|].
  - fold p. rewrite lookupZ_insert_eq by done. unfold zlen in Hy. rewrite lookupZ_nat, list_lookup_middle in Hy by done. congruence.
  - rewrite lookupZ_insert_ne.
    + apply Hring. unfold zlen in *. rewrite lookupZ_to_nat in Hy |- * by lia. by rewrite lookup_app_l in Hy by lia.
    + unfold p. intros E. apply mod_inj in E; lia.
Qed.

Lemma pop_qrep q x xs :
  q_rep q (x :: xs) → Queue_top q = Ret x ∧ ∃ q', pop q = Ret q' ∧ q_rep q' xs.
Proof.
  intros Hr. unfold Queue_top, topRaw, pop, empty. rewrite (q_count q _ Hr), zlen_cons. pose proof (zlen_nonneg xs).
  destruct (Z.eqb_spec (zlen xs + 1) 0); [lia|]. cbn [mbind outcome_bind].
  destruct Hr as [(_ & ? & _)|(l & Hd & Hl & Hh & Hring)]; [done|]. rewrite zlen_cons in *.
  pose proof (ring_read q _ l (x :: xs) 0 x Hd Hh ltac:(rewrite zlen_cons; lia) Hring ltac:(done)) as Ht.
  cbn zeta in Ht. rewrite Z.add_0_r, u32_small in Ht by zsolve. destruct (Z.leb_spec (zlen l) (head q)); [lia|].
  split; [done|]. rewrite Hd. unfold gc_count. cbn [v filled]. rewrite wrap_pos by lia. rewrite u64_small by zsolve.
  eexists. split; [done|]. right. exists l. cbn. pose proof (Z.mod_pos_bound (head q + 1) (zlen l) ltac:(lia)).
  split_and!; try lia; [repeat f_equal; lia|].
  intros i y Hy. pose proof (lookupZ_Some_lt _ _ _ Hy).
  rewrite Z.add_mod_idemp_l by lia. replace (head q + 1 + i) with (head q + (i + 1)) by lia. apply Hring.
  rewrite lookupZ_to_nat in Hy |- * by lia. by replace (Z.to_nat (i + 1)) with (S (Z.to_nat i)) by lia.
Qed.

Lemma empty_qrep q :
  q_rep q [] →
  Queue_top q = Throw (QueueError "Cannot get the top element of an empty queue."%string) ∧
  pop q = Throw (QueueError "Cannot pop an empty queue."%string).
Proof. intros Hr. unfold Queue_top, topRaw, pop, empty. by rewrite (q_count q _ Hr). Qed.

(** ** Reading all elements *)

(** [for (x in q)]: from [begin] to [end]. *)
Fixpoint iterLoop (fuel : nat) (it e : Iter) (acc : list T) : outcome (list T) :=
  match fuel with
  | O => OutOfFuel
  | S fuel =>
      if iterNe true it e then x ← iter_getRaw it; iterLoop fuel (preIncRaw it) e (acc ++ [x])
      else Ret acc
  end.
Definition elements q : outcome (list T) :=
  iterLoop (S (Z.to_nat (count q))) (beginRaw q) (endRaw q) [].

Lemma iterLoop_spec q xs fuel i :
  q_rep q xs → 0 ≤ i ≤ zlen xs → (Z.to_nat (zlen xs - i) < fuel)%nat →
  iterLoop fuel (mkIter (Some q) i) (endRaw q) (take (Z.to_nat i) xs) = Ret xs.
Proof.
  intros Hr Hi. pose proof (q_count q xs Hr) as Hc. pose proof (q_rep_bound q xs Hr).
  revert i Hi. induction fuel as [|fuel IH]; intros i Hi Hf; [lia|]. cbn [iterLoop].
  unfold iterNe, iterEq, endRaw, preIncRaw, iter_getRaw, atEnd. cbn [owner index]. rewrite Hc.
  destruct (Z.leb_spec (zlen xs) (zlen xs)); [|lia]. rewrite orb_true_r.
  destruct (Z.leb_spec (zlen xs) i); cbn [eqb negb].
  { f_equal. apply take_ge. unfold zlen in *. lia. }
  destruct (lookupZ_lt_Some xs i) as [x Hx]; [lia|].
  destruct Hr as [(_ & -> & _)|(l & Hd & Hl & Hh & Hring)]; [by rewrite lookupZ_nil in Hx|].
  rewrite Hd. unfold gc_count. cbn [v].
  pose proof (ring_read q _ l xs i x Hd Hh ltac:(lia) Hring Hx) as Hp. cbn zeta in Hp |- *. rewrite Hp. cbn [mbind outcome_bind].
  rewrite (u32_small (i + 1)) by zsolve. rewrite lookupZ_to_nat in Hx by lia.
  replace (take (Z.to_nat i) xs ++ [x]) with (take (Z.to_nat (i + 1)) xs).
  - unfold endRaw in IH. rewrite Hc in IH. apply IH; lia.
  - replace (Z.to_nat (i + 1)) with (S (Z.to_nat i)) by lia. by rewrite (take_S_r _ _ x).
Qed.

Lemma elements_qrep q xs : q_rep q xs → elements q = Ret xs.
Proof.
  intros Hr. unfold elements. rewrite (q_count q xs Hr). pose proof (zlen_nonneg xs).
  apply (iterLoop_spec q xs _ 0 Hr); lia.
Qed.

(** ** Deep copies, output and copies *)

(** Updating the element at index [i] of a ring. *)
Lemma ring_insert l h xs i y :
  ring l h xs → 0 ≤ h < zlen l → zlen xs ≤ zlen l → 0 ≤ i < zlen xs →
  ring (<[(h + i) `mod` zlen l := Some y]> l) h (<[i := y]> xs).
Proof.
  intros Hr Hh Hl Hi j x Hx. pose proof (lookupZ_Some_lt _ _ _ Hx) as Hj. rewrite zlen_insert in Hj. rewrite zlen_insert.
  pose proof (Z.mod_pos_bound (h + i) (zlen l) ltac:(lia)). destruct (decide (j = i)) as [->|].
  - rewrite lookupZ_insert_eq in Hx by lia. rewrite lookupZ_insert_eq by lia. congruence.
  - rewrite lookupZ_insert_ne in Hx by done. rewrite lookupZ_insert_ne; [by apply Hr|].
    intros E. apply mod_inj in E; lia.
Qed.

(** The first [i] elements replaced by [f] of them. *)
Definition mapped (f : T → T) xs (i : Z) : list T := (f <$> take (Z.to_nat i) xs) ++ drop (Z.to_nat i) xs.

Lemma mapped_step f xs i x :
  xs !! i = Some x → mapped f xs i !! i = Some x ∧ <[i := f x]> (mapped f xs i) = mapped f xs (i + 1) ∧
  zlen (mapped f xs i) = zlen xs.
Proof.
  intros Hx. pose proof (lookupZ_Some_lt _ _ _ Hx) as Hi. unfold zlen in Hi. rewrite lookupZ_to_nat in Hx by lia.
  unfold mapped. replace (Z.to_nat (i + 1)) with (S (Z.to_nat i)) by lia. set (n := Z.to_nat i) in *.
  rewrite (drop_S xs x n Hx). assert (length (f <$> take n xs) = n) as Hl by (rewrite length_fmap, length_take; lia).
  split_and!.
  - rewrite lookupZ_to_nat by lia. fold n. rewrite lookup_app_r by lia. rewrite Hl, Nat.sub_diag. done.
  - unfold insert, list_insertZ. rewrite decide_True by lia. fold n.
    rewrite insert_app_r_alt by lia. rewrite Hl, Nat.sub_diag. cbn.
    rewrite (take_S_r xs n x Hx), fmap_app, <- app_assoc. done.
  - unfold zlen. rewrite length_app, Hl. cbn. rewrite length_drop. lia.
Qed.

Lemma deepCopy_qrep q xs f :
  q_rep q xs → deepCopyFn handle = Some f → ∃ q', deepCopy handle q = Ret q' ∧ q_rep q' (f <$> xs).
Proof.
  intros Hr Hf. pose proof (q_rep_bound q xs Hr). unfold deepCopy. rewrite Hf.
  destruct Hr as [(Hd & -> & Hh)|(l & Hd & Hl & Hh & Hring)]; rewrite Hd; [exists q; split; [done|by left]|].
  cbn [filled]. pose proof (zlen_nonneg xs).
  for_inv (λ i '(q', at_), at_ = (head q + i) `mod` zlen l ∧
    ∃ l', q' = mkQueue (Some (mkGcArray (zlen xs) l')) (head q) ∧ zlen l' = zlen l ∧ ring l' (head q) (mapped f xs i)) r Hi.
  { split; [by rewrite Z.add_0_r, Z.mod_small|]. exists l. destruct q; cbn in *. rewrite Hd. done. }
  { intros i [q' at_] Hi (-> & l' & -> & Hl' & Hr'). cbn [data v filled head].
    destruct (lookupZ_lt_Some xs i) as [x Hx]; [lia|]. destruct (mapped_step f xs i x Hx) as (Hm & Hs & Hz).
    pose proof (ptr_ring (mkQueue (Some (mkGcArray (zlen xs) l')) (head q)) _ l' _ _ i x eq_refl Hr' Hm) as Hp.
    unfold ptr in Hp. cbn in Hp. rewrite Hl' in Hp. rewrite Hp. cbn [mbind outcome_bind].
    pose proof (Z.mod_pos_bound (head q + i) (zlen l) ltac:(lia)). rewrite aset_in by lia. cbn [mbind outcome_bind].
    rewrite <- Hl'. rewrite (step_pos _ (zlen xs) l' (head q) i) by (done || lia). cbn. split; [done|].
    eexists. split; [done|]. rewrite zlen_insert. split; [done|]. rewrite <- Hs. apply ring_insert; (done || lia). }
  destruct r as [q' at_]. destruct Hi as (_ & l' & -> & Hl' & Hr'). eexists. split; [done|]. right. exists l'. cbn.
  assert (mapped f xs (0 + Z.of_nat (Z.to_nat (zlen xs))) = f <$> xs) as E.
  { unfold mapped. rewrite take_ge, drop_ge by (unfold zlen; lia). by rewrite app_nil_r. }
  rewrite E in Hr'. assert (zlen (f <$> xs) = zlen xs) as -> by (unfold zlen; by rewrite length_fmap).
  split_and!; (done || lia).
Qed.

(** The elements in the order they leave, in the type's own text. *)
Definition render xs : string := ("Queue:[" +:+ String.concat ", " (toSFn handle <$> xs) +:+ "]")%string.

Lemma concat_snoc (ss : list string) s :
  String.concat ", " (ss ++ [s]) = match ss with [] => s | _ => (String.concat ", " ss +:+ ", " +:+ s)%string end.
Proof.
  induction ss as [|s1 ss IH]; [done|]. destruct ss as [|s2 ss]; [done|].
  change (String.concat ", " ((s1 :: s2 :: ss) ++ [s])) with ((s1 +:+ ", " +:+ String.concat ", " ((s2 :: ss) ++ [s]))%string).
  rewrite IH. change (String.concat ", " (s1 :: s2 :: ss)) with ((s1 +:+ ", " +:+ String.concat ", " (s2 :: ss))%string).
  by rewrite !append_assoc.
Qed.

Lemma toS_qrep q xs : q_rep q xs → toS handle q = Ret (render xs).
Proof.
  intros Hr. unfold toS. rewrite (q_count q xs Hr). pose proof (zlen_nonneg xs).
  destruct Hr as [(Hd & -> & Hh)|(l & Hd & Hl & Hh & Hring)]; [done|].
  for_inv (λ i '(out, at_), at_ = (head q + i) `mod` zlen l ∧
    out = ("Queue:[" +:+ String.concat ", " (toSFn handle <$> take (Z.to_nat i) xs))%string) r Hi.
  { split; [by rewrite Z.add_0_r, Z.mod_small|done]. }
  { intros i [out at_] Hi (-> & ->). destruct (lookupZ_lt_Some xs i) as [x Hx]; [lia|].
    rewrite (ptr_ring q _ l _ _ i x Hd Hring Hx). cbn [mbind outcome_bind].
    rewrite (step_pos q _ l (head q) i Hd) by lia. cbn [mbind outcome_bind returns]. split; [done|].
    rewrite lookupZ_to_nat in Hx by lia. replace (Z.to_nat (i + 1)) with (S (Z.to_nat i)) by lia.
    rewrite (take_S_r xs _ x Hx), fmap_app. change (toSFn handle <$> [x]) with [toSFn handle x]. rewrite concat_snoc.
    destruct (Z.ltb_spec 0 i); cbn zeta.
    - destruct (toSFn handle <$> take (Z.to_nat i) xs) as [|s0 ss] eqn:E; [|by rewrite !append_assoc].
      apply fmap_nil_inv in E. apply (f_equal length) in E. rewrite length_take in E. apply lookup_lt_Some in Hx. cbn in E. lia.
    - by replace i with 0 by lia. }
  destruct r as [out at_]. destruct Hi as [_ ->]. cbn zeta. rewrite take_ge by (unfold zlen; lia).
  unfold render. by rewrite !append_assoc.
Qed.

Definition capacity q : Z := match data q with Some d => gc_count d | None => 0 end.

(** The copy constructor reads slot [pos i] of the other queue for element [i], where
    [pos] moves on as [step] does in a block of [cap] slots. *)
Lemma copyLoop_qrep q xs (pos : Z → Z) :
  let cap := Z.max 16 (zlen xs) in
  q_rep q xs → xs ≠ [] → zlen xs ≤ 2 ^ 30 → pos 0 = head q →
  (∀ i x, xs !! i = Some x → ptr q (pos i) = Ret x) →
  (∀ i, 0 ≤ i < zlen xs → (if u32 (pos i + 1) =? cap then 0 else u32 (pos i + 1)) = pos (i + 1)) →
  ∃ q', copy handle q = Ret q' ∧ q_rep q' xs.
Proof using CopyHandle0.
  intros cap Hr Hne Hb H0 Hpos Hstep. pose proof (q_count q xs Hr) as Hc. unfold copy, empty. rewrite Hc.
  assert (0 < zlen xs) by (destruct xs; [done|rewrite zlen_cons; pose proof (zlen_nonneg xs); lia]).
  destruct (Z.eqb_spec (zlen xs) 0); [lia|].
  destruct (ensure_qrep new [] (zlen xs) new_qrep ltac:(lia)) as (q1 & -> & _ & _ & Hq1).
  rewrite (Hq1 eq_refl ltac:(lia)). fold cap. clear q1 Hq1. cbn [mbind outcome_bind].
  for_inv (λ i '(q', at_), at_ = pos i ∧ ∃ rest, q' = mkQueue (Some (mkGcArray 0 ((Some <$> take (Z.to_nat i) xs) ++ rest))) 0 ∧
    i + zlen rest = cap) r Hi.
  { split; [done|]. exists (replicate (Z.to_nat cap) None). split; [done|]. rewrite zlen_replicate. lia. }
  { intros i [q' at_] Hi (-> & rest & -> & Hz). destruct (lookupZ_lt_Some xs i) as [x Hx]; [lia|].
    cbn [data v filled head]. rewrite (Hpos i x Hx). cbn [mbind outcome_bind]. rewrite copy_id.
    assert (zlen (take (Z.to_nat i) xs) = i) as Ht by (unfold zlen in *; rewrite length_take; lia).
    destruct rest as [|o rest]; [change (zlen (@nil (option T))) with 0 in Hz; lia|]. rewrite zlen_cons in Hz.
    pose proof (aset_elems (take (Z.to_nat i) xs) o rest (Some x)) as Ha. rewrite Ht in Ha. rewrite Ha. cbn [mbind outcome_bind].
    unfold step, gc_count. cbn [data v]. rewrite zlen_app, zlen_fmap, zlen_cons, Ht. rewrite Hz. cbn [mbind outcome_bind returns].
    split; [by apply Hstep; lia|]. exists rest. split; [|lia]. rewrite lookupZ_to_nat in Hx by lia.
    replace (Z.to_nat (i + 1)) with (S (Z.to_nat i)) by lia. by rewrite (take_S_r _ _ x Hx), fmap_app, <- app_assoc. }
  destruct r as [q' at_]. destruct Hi as (_ & rest & -> & Hz). cbn [data v head]. eexists. split; [done|].
  rewrite take_ge by (unfold zlen; lia). right. eexists. cbn. split; [done|].
  rewrite zlen_app, zlen_fmap. split_and!; [lia|lia|lia|lia|apply ring_start].
Qed.

Lemma copy_qrep q xs :
  let cap := Z.max 16 (zlen xs) in
  q_rep q xs → zlen xs ≤ 2 ^ 30 →
  capacity q = cap ∨ head q + zlen xs ≤ capacity q ∧ (head q + zlen xs ≤ cap ∨ cap ≤ head q) ∨ xs = [] →
  ∃ q', copy handle q = Ret q' ∧ q_rep q' xs.
Proof using CopyHandle0.
  intros cap Hr Hb Hcase. destruct (decide (xs = [])) as [->|Hne].
  { exists new. unfold copy, empty. rewrite (q_count q _ Hr). by split; [|left]. }
  pose proof Hr as [(_ & ? & _)|(l & Hd & Hl & Hh & Hring)]; [done|].
  assert (capacity q = zlen l) as Hcap by (unfold capacity; by rewrite Hd).
  rewrite Hcap in Hcase. destruct Hcase as [Hcase|[[Hin Hcase]|]]; [| |done].
  - apply (copyLoop_qrep q xs (λ i, (head q + i) `mod` zlen l)); try done.
    + by rewrite Z.add_0_r, Z.mod_small.
    + intros i x Hx. by apply (ptr_ring q (zlen xs) l (head q) xs).
    + intros i Hi. pose proof (step_pos q _ l (head q) i Hd Hh ltac:(lia) ltac:(lia)) as Hs.
      unfold step, gc_count in Hs. rewrite Hd in Hs. cbn [v] in Hs. rewrite Hcase in Hs. fold cap. rewrite Hcase. congruence.
  - assert (∀ i x, xs !! i = Some x → ptr q (head q + i) = Ret x) as Hp.
    { intros i x Hx. pose proof (lookupZ_Some_lt _ _ _ Hx). rewrite <- (Z.mod_small (head q + i) (zlen l)) by lia.
      by apply (ptr_ring q (zlen xs) l (head q) xs). }
    apply (copyLoop_qrep q xs (λ i, if decide (i = zlen xs ∧ head q + i = cap) then 0 else head q + i)); try done.
    + rewrite decide_False; [lia|]. intros [E _]. destruct xs; [done|]. rewrite zlen_cons in E. pose proof (zlen_nonneg xs). lia.
    + intros i x Hx. pose proof (lookupZ_Some_lt _ _ _ Hx). rewrite decide_False by lia. by apply Hp.
    + intros i Hi. fold cap. rewrite (decide_False (P := i = zlen xs ∧ _)) by lia. rewrite u32_small by zsolve.
      rewrite Z.add_assoc. destruct (Z.eqb_spec (head q + i + 1) cap), (decide (i + 1 = zlen xs ∧ head q + i + 1 = cap)); lia.
Qed.
End rep.

(** ** Sequences of operations *)

Inductive qop (T : Type) :=
  | QPush (x : T)
  | QPop
  | QTop
  | QCount
  | QReserve (n : nat)
  | QClear
  | QElements.
Arguments QPush {T}.
Arguments QPop {T}.
Arguments QTop {T}.
Arguments QCount {T}.
Arguments QReserve {T}.
Arguments QClear {T}.
Arguments QElements {T}.

Inductive qres (T : Type) :=
  | QUnit
  | QElem (x : T)
  | QNat (n : Z)
  | QList (xs : list T)
  | QExn (e : exn).
Arguments QUnit {T}.
Arguments QElem {T}.
Arguments QNat {T}.
Arguments QList {T}.
Arguments QExn {T}.

(** The operation on a list whose first element leaves first. *)
Definition qmeaning {T} (xs : list T) (o : qop T) : list T * qres T :=
  match o with
  | QPush x => (xs ++ [x], QUnit)
  | QPop =>
      match xs with
      | [] => ([], QExn (QueueError "Cannot pop an empty queue."%string))
      | _ :: xs => (xs, QUnit)
      end
  | QTop =>
      match xs with
      | [] => ([], QExn (QueueError "Cannot get the top element of an empty queue."%string))
      | x :: _ => (xs, QElem x)
      end
  | QCount => (xs, QNat (zlen xs))
  | QReserve _ => (xs, QUnit)
  | QClear => ([], QUnit)
  | QElements => (xs, QList xs)
  end.

Fixpoint qmeanings {T} (xs : list T) (os : list (qop T)) : list T * list (qres T) :=
  match os with
  | [] => (xs, [])
  | o :: os => let '(xs, r) := qmeaning xs o in let '(xs, rs) := qmeanings xs os in (xs, r :: rs)
  end.

(** At most 2^30 elements at any time, and no more reserved. *)
Fixpoint qfits {T} (xs : list T) (os : list (qop T)) : Prop :=
  match os with
  | [] => True
  | o :: os =>
      zlen (qmeaning xs o).1 ≤ 2 ^ 30 ∧
      match o with QReserve n => Z.of_nat n ≤ 2 ^ 30 | _ => True end ∧ qfits (qmeaning xs o).1 os
  end.

Section sequences.
Context {World T : Type} (handle : Handle World T) `{!CopyHandle handle}.

(** A caller that catches exceptions keeps the queue it had. *)
Definition qcatch (q : QueueBase T) (o : outcome (QueueBase T * qres T)) : outcome (QueueBase T * qres T) :=
  match o with Throw e => Ret (q, QExn e) | _ => o end.

Definition qexec (q : QueueBase T) (o : qop T) : outcome (QueueBase T * qres T) :=
  qcatch q match o with
  | QPush x => q ← pushRaw handle q x; Ret (q, QUnit)
  | QPop => q ← pop q; Ret (q, QUnit)
  | QTop => x ← Queue_top q; Ret (q, QElem x)
  | QCount => Ret (q, QNat (count q))
  | QReserve n => q ← reserve q (Z.of_nat n); Ret (q, QUnit)
  | QClear => Ret (clear, QUnit)
  | QElements => xs ← elements q; Ret (q, QList xs)
  end.

Fixpoint qrun (q : QueueBase T) (os : list (qop T)) : outcome (QueueBase T * list (qres T)) :=
  match os with
  | [] => Ret (q, [])
  | o :: os => '(q, r) ← qexec q o; '(q, rs) ← qrun q os; Ret (q, r :: rs)
  end.

Lemma qexec_rep q xs o :
  q_rep q xs → qfits xs [o] → ∃ q', qexec q o = Ret (q', (qmeaning xs o).2) ∧ q_rep q' (qmeaning xs o).1.
Proof using CopyHandle0.
  intros Hr (Hf & Hn & _). pose proof Hr as Hr'.
  destruct o as [x| | | |n| |]; cbn [qmeaning fst snd] in *; unfold qexec.
  - rewrite zlen_app in Hf. change (zlen [x]) with 1 in Hf.
    destruct (pushRaw_qrep handle q xs x Hr ltac:(lia)) as (q' & -> & ?). by exists q'.
  - destruct xs as [|x xs]; cbn.
    + destruct (empty_qrep q Hr) as [_ ->]. by exists q.
    + destruct (pop_qrep q x xs Hr) as (_ & q' & -> & ?). by exists q'.
  - destruct xs as [|x xs]; cbn.
    + destruct (empty_qrep q Hr) as [-> _]. by exists q.
    + destruct (pop_qrep q x xs Hr) as (-> & _). by exists q.
  - rewrite (q_count q xs Hr). by exists q.
  - destruct (ensure_qrep q xs (Z.of_nat n) Hr ltac:(lia)) as (q' & E & ? & _). unfold reserve. rewrite E. by exists q'.
  - exists clear. split; [done|]. apply new_qrep.
  - rewrite (elements_qrep q xs Hr). by exists q.
Qed.

Lemma qrun_rep q xs os :
  q_rep q xs → qfits xs os →
  ∃ q', qrun q os = Ret (q', (qmeanings xs os).2) ∧ q_rep q' (qmeanings xs os).1.
Proof using CopyHandle0.
  revert q xs. induction os as [|o os IH]; intros q xs Hr Hf; [by exists q|].
  destruct Hf as (H1 & H2 & Hf). destruct (qexec_rep q xs o Hr) as (q1 & E & Hr1); [done|].
  destruct (IH q1 _ Hr1 Hf) as (q' & E' & Hr'). exists q'. cbn. rewrite E. cbn. rewrite E'. cbn.
  destruct (qmeaning xs o) as [ys r]. cbn in *. by destruct (qmeanings ys os).
Qed.

(** C8: every sequence of [push], [pop], [top], [count], [reserve], [clear] and
    iteration on a queue, with at most 2^30 elements, gives the results of a
    first-in-first-out list, growing and wrapping around included; [pop] and [top] of
    an empty queue throw [QueueError] and change nothing. *)
Theorem queue_refines os :
  qfits [] os →
  ∃ q, qrun new os = Ret (q, (qmeanings [] os).2) ∧ q_rep q (qmeanings [] os).1.
Proof using CopyHandle0. intros Hf. apply qrun_rep; [apply new_qrep|done]. Qed.

(** [toS] prints the elements in queue order, and [deepCopy] replaces every
    element by its deep copy in place, wherever the ring buffer wraps. *)
Theorem queue_contents q xs f :
  q_rep q xs → deepCopyFn handle = Some f →
  toS handle q = Ret (render handle xs) ∧ elements q = Ret xs ∧
  ∃ q', deepCopy handle q = Ret q' ∧ elements q' = Ret (f <$> xs).
Proof.
  intros Hr Hf. split; [by apply toS_qrep|]. split; [by apply elements_qrep|].
  destruct (deepCopy_qrep handle q xs f Hr Hf) as (q' & -> & Hr'). exists q'. split; [done|]. by apply elements_qrep.
Qed.

(** The copy constructor yields a queue with the same elements if the buffer of the
    copied queue is as large as the new one ([max(16, count)] slots), or if the elements do
    not wrap and end before the new size is reached or start behind it. *)
Theorem queue_copy q xs :
  q_rep q xs → zlen xs ≤ 2 ^ 30 →
  capacity q = Z.max 16 (zlen xs) ∨
    head q + zlen xs ≤ capacity q ∧ (head q + zlen xs ≤ Z.max 16 (zlen xs) ∨ Z.max 16 (zlen xs) ≤ head q) ∨ xs = [] →
  ∃ q', copy handle q = Ret q' ∧ elements q' = Ret xs.
Proof using CopyHandle0.
  intros Hr Hb Hc. destruct (copy_qrep handle q xs Hr Hb Hc) as (q' & -> & Hr').
  exists q'. split; [done|]. by apply elements_qrep.
Qed.
End sequences.

Definition pushes (xs : list Z) : list (qop Z) := QPush <$> xs.

(** A queue of two elements in a buffer of 32 slots. *)
Definition drained : list (qop Z) := pushes (seqZ 1 17) ++ replicate 15 QPop.

Lemma queue_refines_witness :
  ∃ q rs, qrun intT new (QPop :: drained ++ [QTop; QCount; QElements]) = Ret (q, rs) ∧ q_rep q [16; 17] ∧
    last rs = Some (QList [16; 17]).
Proof.
  destruct (queue_refines intT (QPop :: drained ++ [QTop; QCount; QElements])) as (q & E & Hr).
  - vm_compute. repeat split; discriminate.
  - exists q, (qmeanings [] (QPop :: drained ++ [QTop; QCount; QElements])).2. split; [exact E|]. split; [exact Hr|]. reflexivity.
Defined.

(** A queue that wraps around the end of its buffer. *)
Definition wrapped : QueueBase Z :=
  mkQueue (Some (mkGcArray 3 (Some <$> [30; 1; 2; 3; 4; 5; 6; 7; 8; 9; 11; 12; 13; 14; 10; 20]))) 14.

Lemma wrapped_rep : q_rep wrapped [10; 20; 30].
Proof.
  right. eexists. split; [reflexivity|]. split; [vm_compute; split; discriminate|]. split; [vm_compute; split; [discriminate|done]|].
  intros i x Hx. pose proof (lookupZ_Some_lt _ _ _ Hx) as Hi. unfold zlen in Hi. cbn in Hi.
  assert (i = 0 ∨ i = 1 ∨ i = 2) as [->|[->| ->]] by lia; vm_compute in Hx; simplify_eq; reflexivity.
Qed.

(** Integers whose deep copy negates them. *)
Definition negT : Handle unit Z := {|
  locationHash := false; copyFn := None; deepCopyFn := Some Z.opp; toSFn := pretty.pretty;
  hashFn := None; equalFn := None; lessFn := None;
|}.

Lemma queue_contents_witness :
  toS negT wrapped = Ret "Queue:[10, 20, 30]"%string ∧
  ∃ q', deepCopy negT wrapped = Ret q' ∧ elements q' = Ret [-10; -20; -30].
Proof.
  destruct (queue_contents negT wrapped [10; 20; 30] Z.opp wrapped_rep eq_refl) as (Hs & _ & Hd).
  split; [rewrite Hs; vm_compute; reflexivity|exact Hd].
Defined.

Lemma queue_copy_witness : ∃ q', copy intT wrapped = Ret q' ∧ elements q' = Ret [10; 20; 30].
Proof.
  apply (queue_copy intT wrapped [10; 20; 30] wrapped_rep); [vm_compute; discriminate|left; reflexivity].
Defined.

(** The copy constructor steps around the size of the new buffer while it reads the
    old one: the copy of a queue that holds 16 and 17 after seventeen pushes and fifteen
    pops holds 16 and the long removed element 1. *)
Theorem queue_copy_wrong :
  (q ← fst <$> qrun intT new drained; c ← copy intT q; xs ← elements q; ys ← elements c; Ret (xs, ys)) =
  Ret ([16; 17], [16; 1]).
Proof. vm_compute. reflexivity. Qed.
