(* ===== verification/Search.v ===== *)
(** * Binary search

    [Core/Search.h] and [Core/Search.cpp]: [binarySearch] for the four integer types,
    instances of one template. *)

From stdpp Require Import base list numbers decidable.
From Stdlib Require Import ZArith Lia.
From S2P Require Import Prelude.

Module Search.

(** The integer types of the template parameter. *)
Inductive intType := Int | Nat | Long | Word.

Definition bits (T : intType) : nat :=
  match T with Int | Nat => 32 | Long | Word => 64 end.
Definition isSigned (T : intType) : bool :=
  match T with Int | Long => true | Nat | Word => false end.
Definition minVal (T : intType) : Z :=
  if isSigned T then - 2 ^ (Z.of_nat (bits T) - 1) else 0.
Definition maxVal (T : intType) : Z :=
  if isSigned T then 2 ^ (Z.of_nat (bits T) - 1) - 1 else 2 ^ Z.of_nat (bits T) - 1.

(** The result of an operation of type [T]: unsigned arithmetic wraps, signed overflow is
    undefined. *)
Definition arith (T : intType) (z : Z) : outcome Z :=
  if isSigned T then if (minVal T <=? z) && (z <=? maxVal T) then Ret z else Fault
  else Ret (z `mod` 2 ^ Z.of_nat (bits T)).

Fixpoint bSearchLoop (fuel : nat) (T : intType) (predicate : Z → bool) (from to : Z) : outcome Z :=
  match fuel with
  | O => OutOfFuel
  | S fuel =>
      if from <? to then
        d ← arith T (to - from);
        mid ← arith T (Z.quot d 2 + from);
        if predicate mid then
          from ← arith T (mid + 1);
          bSearchLoop fuel T predicate from to
        else bSearchLoop fuel T predicate from mid
      else Ret from
  end.

(** The interval halves in every round. *)
Definition bSearch (T : intType) (from to : Z) (predicate : Z → bool) : outcome Z :=
  bSearchLoop (S (bits T)) T predicate from to.

Definition binarySearch := bSearch.
End Search.
Import Search.

Definition inType (T : intType) (z : Z) : Prop := minVal T ≤ z ≤ maxVal T.

Lemma arith_in T z : inType T z → arith T z = Ret z.
Proof.
  unfold inType, arith. intros Hz. destruct T; cbn in *;
    try (rewrite (proj2 (andb_true_iff _ _)); [done|]; rewrite !Z.leb_le; lia);
    by rewrite Z.mod_small by lia.
Qed.

(** The boundary [r] of a monotone predicate on an interval. *)
Definition boundary (p : Z → bool) (from to r : Z) : Prop :=
  from ≤ r ≤ to ∧ ∀ i, from ≤ i < to → p i = true ↔ i < r.

Lemma bSearchLoop_spec fuel T p from to :
  inType T from → inType T to → from ≤ to → to - from ≤ maxVal T → to - from < 2 ^ (Z.of_nat fuel - 1) → (0 < fuel)%nat →
  (∀ i j, from ≤ i ≤ j → j < to → p j = true → p i = true) →
  ∃ r, bSearchLoop fuel T p from to = Ret r ∧ boundary p from to r.
Proof.
  unfold inType. revert from to. induction fuel as [|fuel IH]; intros from to Hf Ht Hle Hd Hb Hpos Hm; [lia|]. cbn [bSearchLoop].
  replace (Z.of_nat (S fuel) - 1) with (Z.of_nat fuel) in Hb by lia.
  destruct (Z.ltb_spec from to) as [Hlt|Hge].
  - assert (minVal T ≤ 0) by (by destruct T). assert (0 < fuel)%nat by (destruct fuel; [cbn in Hb|]; lia).
    assert (2 ^ Z.of_nat fuel = 2 * 2 ^ (Z.of_nat fuel - 1)) as Hp by (rewrite <- Z.pow_succ_r by lia; f_equal; lia).
    rewrite arith_in by (unfold inType; lia). cbn [mbind outcome_bind]. rewrite Z.quot_div_nonneg by lia.
    set (mid := (to - from) `div` 2 + from). assert (from ≤ mid < to) as Hmid by (unfold mid; Z.to_euclidean_division_equations; lia).
    assert (2 * (mid - from) ≤ to - from < 2 * (mid - from) + 2) as Hhalf by (unfold mid; Z.to_euclidean_division_equations; lia).
    rewrite arith_in by (unfold inType; lia). cbn [mbind outcome_bind]. destruct (p mid) eqn:E.
    + rewrite arith_in by (unfold inType; lia). cbn [mbind outcome_bind].
      destruct (IH (mid + 1) to) as (r & -> & Hr & Hi); try lia; [intros i j Hij Hj; apply Hm; lia|].
      exists r. split; [done|]. split; [lia|]. intros i Hr'. destruct (decide (mid < i)); [apply Hi; lia|].
      split; [lia|]. intros _. apply (Hm i mid); [lia|lia|done].
    + destruct (IH from mid) as (r & -> & Hr & Hi); try lia; [intros i j Hij Hj; apply Hm; lia|].
      exists r. split; [done|]. split; [lia|]. intros i Hr'. destruct (decide (i < mid)); [apply Hi; lia|].
      split; [|lia]. intros E'. rewrite (Hm mid i) in E; (done || lia).
  - exists from. split; [done|]. split; [lia|]. intros i Hi. lia.
Qed.

(** C38: [binarySearch] of any of the four types returns, for a predicate that is true up to
    some point of the interval and false from there on, the first index for which it is
    false, or the end of the interval; the length of the interval must fit the type (it
    always does for the unsigned ones). *)
Theorem binarySearch_spec T from to p :
  inType T from → inType T to → from ≤ to → to - from ≤ maxVal T →
  (∀ i j, from ≤ i ≤ j → j < to → p j = true → p i = true) →
  ∃ r, binarySearch T from to p = Ret r ∧ boundary p from to r.
Proof.
  intros Hf Ht Hle Hd Hm. apply bSearchLoop_spec; try done; [|lia].
  unfold inType in *. destruct T; cbn in *; lia.
Qed.

Lemma binarySearch_spec_witness :
  ∃ r, binarySearch Int (-10) 1000 (λ x, x <? 42) = Ret r ∧ boundary (λ x, x <? 42) (-10) 1000 r ∧ r = 42.
Proof.
  destruct (binarySearch_spec Int (-10) 1000 (λ x, x <? 42)) as (r & E & Hb).
  - by split.
  - by split.
  - lia.
  - done.
  - intros i j Hij Hj. rewrite !Z.ltb_lt. lia.
  - exists r. split; [exact E|]. split; [exact Hb|]. vm_compute in E. congruence.
Defined.

(** On an interval longer than the type's largest value the signed versions overflow in
    [to - from], which is undefined. *)
Theorem binarySearch_overflow p :
  binarySearch Int (minVal Int) (maxVal Int) p = Fault ∧ binarySearch Long (minVal Long) (maxVal Long) p = Fault.
Proof. done. Qed.
