(* ===== verification/Utf.v ===== *)
(** * Unicode transcoding

    [Core/Utf.h], the UTF-16 and UTF-8 helpers, and [Core/Convert.cpp], the conversion of
    zero-terminated strings between the two.  Code units are numbers of their width.
    A string is the list of the units in memory; reading past it faults. *)

From stdpp Require Import base list numbers decidable option.
From Stdlib Require Import ZArith Lia.
From S2P Require Import Prelude.

Definition replacementChar : Z := 0xFFFD.

Module utf16.
Definition leading (ch : Z) : bool := Z.land ch 0xFC00 =? 0xD800.
Definition trailing (ch : Z) : bool := Z.land ch 0xFC00 =? 0xDC00.

Definition assemble (lead trail : Z) : Z :=
  let r := u32 (Z.shiftl (Z.land lead 0x3FF) 10) in
  let r := Z.lor r (Z.land trail 0x3FF) in
  u32 (r + 0x10000).

Definition valid (cp : Z) : bool :=
  if 0x110000 <=? cp then false
  else if (0xD800 <=? cp) && (cp <? 0xE000) then false
  else true.

Definition split (cp : Z) : bool := 0x10000 <=? cp.

Definition splitLeading (cp : Z) : Z :=
  if negb (split cp) || negb (valid cp) then 0
  else
    let cp := u32 (cp - 0x10000) in
    let cp := Z.shiftr cp 10 in
    u16 (0xD800 + Z.land cp 0x3FF).

Definition splitTrailing (cp : Z) : Z :=
  if negb (valid cp) then replacementChar
  else if split cp then
    let cp := u32 (cp - 0x10000) in
    u16 (0xDC00 + Z.land cp 0x3FF)
  else u16 cp.
End utf16.

Module utf8.
Definition isCont (c : Z) : bool := Z.land c 0xC0 =? 0x80.
Definition contData (c : Z) : Z := Z.land c 0x3F.
Definition addCont (prev cont : Z) : Z := Z.lor (u32 (Z.shiftl prev 6)) (contData cont).

(** The data of the first byte and the number of bytes that follow. *)
Definition firstData (c : Z) : Z * nat :=
  if Z.land c 0x80 =? 0 then (c, 0%nat)
  else if Z.land c 0xC0 =? 0x80 then (replacementChar, 0%nat)
  else if Z.land c 0xE0 =? 0xC0 then (Z.land c 0x1F, 1%nat)
  else if Z.land c 0xF0 =? 0xE0 then (Z.land c 0x0F, 2%nat)
  else if Z.land c 0xF8 =? 0xF0 then (Z.land c 0x07, 3%nat)
  else if Z.land c 0xFC =? 0xF8 then (Z.land c 0x03, 4%nat)
  else if Z.land c 0xFE =? 0xFC then (Z.land c 0x01, 5%nat)
  else (replacementChar, 0%nat).

Definition maxBytes : Z := 9.

(** [do ... while (cp >= (Nat(1) << leadingBits))]: the buffer, the position, the rest of
    the codepoint, the number of bytes and the bits of the first byte. *)
Fixpoint encodeLoop (fuel : nat) (cp : Z) (buffer : list Z) (at_ leadingBits bytes : Z) :
    outcome (list Z * Z * Z * Z * Z) :=
  match fuel with
  | O => OutOfFuel
  | S fuel =>
      let at_ := at_ - 1 in
      buffer ← aset buffer at_ (u8 (Z.lor 0x80 (Z.land cp 0x3F)));
      let cp := Z.shiftr cp 6 in
      let bytes := u32 (bytes + 1) in
      let leadingBits := u32 (leadingBits - 1) in
      if u32 (Z.shiftl 1 leadingBits) <=? cp then encodeLoop fuel cp buffer at_ leadingBits bytes
      else Ret (buffer, at_, cp, leadingBits, bytes)
  end.

(** The buffer, the position of the first byte and the number of bytes. *)
Definition encode (cp : Z) (buffer : list Z) : outcome (list Z * Z * Z) :=
  if cp <? 0x80 then
    buffer ← aset buffer 0 (u8 cp);
    buffer ← aset buffer 1 0;
    Ret (buffer, 0, 1)
  else
    let at_ := maxBytes - 1 in
    buffer ← aset buffer at_ 0;
    '(buffer, at_, cp, leadingBits, bytes) ← encodeLoop 7 cp buffer at_ 6 0;
    let at_ := at_ - 1 in
    buffer ← aset buffer at_ (u8 (Z.lor (Z.shiftl 0xFF (leadingBits + 1)) cp));
    Ret (buffer, at_, u32 (bytes + 1)).
End utf8.

Module Convert.
(** [WRITE(x)]: the buffer has [maxCount] units. *)
Definition WRITE (to : list Z) (out x : Z) : list Z * Z :=
  (if out <? zlen to then <[out := x]> to else to, u64 (out + 1)).

Definition TERMINATE (to : list Z) (out : Z) : list Z * Z :=
  let '(to, out) := WRITE to out 0 in
  (if 0 <? zlen to then <[zlen to - 1 := 0]> to else to, out).

(** The loop over the continuation bytes: the codepoint and the position after it. *)
Fixpoint contLoop (remaining : nat) (from : list Z) (at_ cp : Z) : outcome (Z * Z) :=
  match remaining with
  | O => Ret (cp, at_)
  | S remaining =>
      c ← aget from at_;
      if utf8.isCont c then contLoop remaining from (at_ + 1) (utf8.addCont cp c)
      else Ret (replacementChar, at_)
  end.

(** A codepoint in UTF-16. *)
Definition write16 (to : list Z) (out cp : Z) : list Z * Z :=
  if utf16.split cp then
    let '(to, out) := WRITE to out (utf16.splitLeading cp) in
    WRITE to out (utf16.splitTrailing cp)
  else WRITE to out (u16 cp).

(** [convert(const char *, wchar *, size_t)]: the target buffer and the units needed. *)
Fixpoint toWCharLoop (fuel : nat) (from : list Z) (at_ : Z) (to : list Z) (out : Z) : outcome (list Z * Z) :=
  match fuel with
  | O => OutOfFuel
  | S fuel =>
      c ← aget from at_;
      if c =? 0 then Ret (TERMINATE to out)
      else
        let '(cp, remaining) := utf8.firstData c in
        '(cp, at_) ← contLoop remaining from (at_ + 1) cp;
        let '(to, out) := write16 to out cp in
        toWCharLoop fuel from at_ to out
  end.

Definition convert8 (from to : list Z) : outcome (list Z * Z) :=
  toWCharLoop (S (length from)) from 0 to 0.

(** [convert(const wchar *, char *, size_t)]; [buffer] is the local array. *)
Fixpoint toCharLoop (fuel : nat) (from : list Z) (at_ : Z) (to : list Z) (out : Z) (buffer : list Z) :
    outcome (list Z * Z) :=
  match fuel with
  | O => OutOfFuel
  | S fuel =>
      now ← aget from at_;
      if now =? 0 then Ret (TERMINATE to out)
      else
        let at_ := at_ + 1 in
        '(cp, at_) ← (if utf16.leading now then
                        next ← aget from at_;
                        if utf16.trailing next then Ret (utf16.assemble now next, at_ + 1)
                        else Ret (replacementChar, at_)
                      else Ret (now, at_));
        '(buffer, buf, count) ← utf8.encode cp buffer;
        '(to, out) ← for_loop (Z.to_nat count) 0 (λ i '(to, out),
          b ← aget buffer (buf + i); Ret (WRITE to out b)) (to, out);
        toCharLoop fuel from at_ to out buffer
  end.

Definition convert16 (from to : list Z) : outcome (list Z * Z) :=
  toCharLoop (S (length from)) from 0 to 0 (replicate (Z.to_nat utf8.maxBytes) 0).

(** [WRAP_CONVERT]: measure, allocate, convert. *)
Definition toWChar (from : list Z) : outcome (list Z) :=
  '(_, space) ← convert8 from [];
  '(r, _) ← convert8 from (replicate (Z.to_nat space) 0);
  Ret r.
Definition toChar (from : list Z) : outcome (list Z) :=
  '(_, space) ← convert16 from [];
  '(r, _) ← convert16 from (replicate (Z.to_nat space) 0);
  Ret r.

(** [convert(const char *, size_t, wchar *, size_t)]: the string has [fromCount] bytes and may
    contain zeros. *)
Fixpoint contLoopCounted (remaining : nat) (from : list Z) (fromCount at_ cp : Z) : outcome (Z * Z) :=
  match remaining with
  | O => Ret (cp, at_)
  | S remaining =>
      if at_ <? fromCount then
        c ← aget from at_;
        if utf8.isCont c then contLoopCounted remaining from fromCount (at_ + 1) (utf8.addCont cp c)
        else Ret (replacementChar, at_)
      else Ret (replacementChar, at_)
  end.

Fixpoint toWCharLoopCounted (fuel : nat) (from : list Z) (fromCount at_ : Z) (to : list Z) (out : Z) :
    outcome (list Z * Z) :=
  match fuel with
  | O => OutOfFuel
  | S fuel =>
      if at_ <? fromCount then
        c ← aget from at_;
        let '(cp, remaining) := utf8.firstData c in
        '(cp, at_) ← contLoopCounted remaining from fromCount (at_ + 1) cp;
        let '(to, out) := write16 to out cp in
        toWCharLoopCounted fuel from fromCount at_ to out
      else Ret (TERMINATE to out)
  end.

Definition convertCounted (from : list Z) (fromCount : Z) (to : list Z) : outcome (list Z * Z) :=
  toWCharLoopCounted (S (Z.to_nat fromCount)) from fromCount 0 to 0.

(** [toWChar(Engine &, const char *, size_t)] *)
Definition toWCharCounted (from : list Z) (maxCount : Z) : outcome (list Z) :=
  '(_, space) ← convertCounted from maxCount [];
  '(r, _) ← convertCounted from maxCount (replicate (Z.to_nat space) 0);
  Ret r.

(** [convert(const wchar_t *, wchar *, size_t)]: [wchar_t] is a signed 32-bit number. *)
Fixpoint fromWCharTLoop (fuel : nat) (from : list Z) (at_ : Z) (to : list Z) (out : Z) : outcome (list Z * Z) :=
  match fuel with
  | O => OutOfFuel
  | S fuel =>
      c ← aget from at_;
      if c =? 0 then Ret (TERMINATE to out)
      else
        let cp := u32 c in
        let '(to, out) := write16 to out cp in
        fromWCharTLoop fuel from (at_ + 1) to out
  end.

Definition convertWCharT (from to : list Z) : outcome (list Z * Z) :=
  fromWCharTLoop (S (length from)) from 0 to 0.

Definition toWCharT (from : list Z) : outcome (list Z) :=
  '(_, space) ← convertWCharT from [];
  '(r, _) ← convertWCharT from (replicate (Z.to_nat space) 0);
  Ret r.
End Convert.
