(* ===== verification/UtfCorrect.v ===== *)
(** * Correctness of the Unicode conversions

    Splitting and assembling surrogates and encoding and decoding UTF-8 are inverse, the
    conversions of well-formed strings are inverse, and the two-pass conversions size their
    buffers exactly, whatever the input is. *)

From stdpp Require Import base list numbers decidable option.
From Stdlib Require Import ZArith Lia.
From S2P Require Import Prelude Utf.
Import Convert.

(** ** UTF-16 *)

(** A codepoint that UTF-16 can express. *)
Definition scalar (cp : Z) : Prop := 0 ≤ cp < 0x110000 ∧ ¬ (0xD800 ≤ cp < 0xE000).

Lemma scalar_valid cp : scalar cp → utf16.valid cp = true.
Proof.
  unfold scalar, utf16.valid. intros [H1 H2]. destruct (Z.leb_spec 0x110000 cp); [lia|].
  destruct (Z.leb_spec 0xD800 cp), (Z.ltb_spec cp 0xE000); try done. lia.
Qed.

Lemma surrogates cp :
  scalar cp → 0x10000 ≤ cp →
  utf16.splitLeading cp = 0xD800 + (cp - 0x10000) `div` 1024 ∧
  utf16.splitTrailing cp = 0xDC00 + (cp - 0x10000) `mod` 1024 ∧ 0 ≤ (cp - 0x10000) `div` 1024 < 1024.
Proof.
  intros Hs Hc. unfold utf16.splitLeading, utf16.splitTrailing, utf16.split. rewrite (scalar_valid cp Hs).
  destruct Hs as [Hs _]. destruct (Z.leb_spec 0x10000 cp); [|lia]. cbn [negb orb]. cbn zeta.
  rewrite u32_small by zsolve. rewrite Z.shiftr_div_pow2 by lia. change 0x3FF with (2 ^ 10 - 1). rewrite !land_pow2_pred by lia.
  change (2 ^ 10) with 1024. pose proof (Z.mod_pos_bound (cp - 0x10000) 1024 ltac:(lia)).
  assert (0 ≤ (cp - 0x10000) `div` 1024 < 1024) as Hd by (split; [apply Z.div_pos; lia|apply Z.div_lt_upper_bound; lia]).
  unfold u16. rewrite (Z.mod_small ((cp - 0x10000) `div` 1024)) by lia. rewrite !Z.mod_small by lia. done.
Qed.

Lemma leading_surrogate x : 0 ≤ x < 1024 → utf16.leading (0xD800 + x) = true ∧ utf16.trailing (0xDC00 + x) = true.
Proof.
  intros Hx. apply andb_true_iff. apply (forall_range (λ x, utf16.leading (0xD800 + x) && utf16.trailing (0xDC00 + x)) 0 1024); [|lia].
  vm_compute. reflexivity.
Qed.

Lemma not_surrogate u : 0 ≤ u < 0x10000 → ¬ (0xD800 ≤ u < 0xE000) → utf16.leading u = false.
Proof.
  intros Hu Hn. unfold utf16.leading. apply Z.eqb_neq. intros E.
  assert (Z.shiftr (Z.land u 0xFC00) 10 = 54) as Hs by by rewrite E.
  rewrite Z.shiftr_land, Z.shiftr_div_pow2 in Hs by lia. change (Z.shiftr 0xFC00 10) with (2 ^ 6 - 1) in Hs.
  assert (0 ≤ u / 2 ^ 10 < 2 ^ 6) by (split; [apply Z.div_pos|apply Z.div_lt_upper_bound]; lia).
  rewrite land_pow2_pred, Z.mod_small in Hs by lia.
  pose proof (Z.div_mod u (2 ^ 10) ltac:(lia)). pose proof (Z.mod_pos_bound u (2 ^ 10) ltac:(lia)). lia.
Qed.

Lemma assemble_surrogates a b :
  0 ≤ a < 1024 → 0 ≤ b < 1024 → utf16.assemble (0xD800 + a) (0xDC00 + b) = 0x10000 + a * 1024 + b.
Proof.
  intros Ha Hb. unfold utf16.assemble. change 0x3FF with (2 ^ 10 - 1). rewrite !land_pow2_pred by lia. cbn zeta.
  replace (0xD800 + a) with (a + 54 * 2 ^ 10) by lia. replace (0xDC00 + b) with (b + 55 * 2 ^ 10) by lia.
  rewrite !Z.mod_add by lia. rewrite !Z.mod_small by lia. rewrite Z.shiftl_mul_pow2 by lia.
  rewrite (u32_small (a * 2 ^ 10)) by zsolve. rewrite lor_mul_pow2 by lia. rewrite u32_small by zsolve. lia.
Qed.

(** A codepoint outside the basic plane is split into a leading and a trailing
    surrogate that assemble to it; any other valid one is a single unit that is no
    surrogate. *)
Theorem utf16_roundtrip cp :
  scalar cp →
  if utf16.split cp then
    utf16.leading (utf16.splitLeading cp) = true ∧ utf16.trailing (utf16.splitTrailing cp) = true ∧
    utf16.assemble (utf16.splitLeading cp) (utf16.splitTrailing cp) = cp
  else utf16.splitLeading cp = 0 ∧ utf16.splitTrailing cp = cp ∧ utf16.leading cp = false.
Proof.
  intros Hs. unfold utf16.split at 1. destruct (Z.leb_spec 0x10000 cp) as [Hc|Hc].
  - destruct (surrogates cp Hs Hc) as (-> & -> & Hd). pose proof (Z.mod_pos_bound (cp - 0x10000) 1024 ltac:(lia)) as Hm.
    split; [by apply leading_surrogate|]. split; [by apply leading_surrogate|].
    rewrite assemble_surrogates by done. pose proof (Z.div_mod (cp - 0x10000) 1024 ltac:(lia)). lia.
  - unfold utf16.splitLeading, utf16.splitTrailing, utf16.split. rewrite (scalar_valid cp Hs). destruct Hs as [Hs1 Hs2].
    destruct (Z.leb_spec 0x10000 cp); [lia|]. cbn [negb orb].
    split; [done|]. split; [apply Z.mod_small; lia|apply not_surrogate; lia].
Qed.

Lemma utf16_roundtrip_witness :
  utf16.leading (utf16.splitLeading 0x1F600) = true ∧ utf16.trailing (utf16.splitTrailing 0x1F600) = true ∧
  utf16.assemble (utf16.splitLeading 0x1F600) (utf16.splitTrailing 0x1F600) = 0x1F600.
Proof. apply (utf16_roundtrip 0x1F600). split; lia. Defined.

(** ** UTF-8 *)

(** The continuation bytes and the first byte of a codepoint. *)
Definition cont (cp : Z) (k : Z) : Z := 0x80 + (cp `div` 64 ^ k) `mod` 64.

Fixpoint tail (n : nat) (cp : Z) : list Z :=
  match n with O => [] | S n => cont cp (Z.of_nat n) :: tail n cp end.

(** The number of continuation bytes. *)
Definition conts (cp : Z) : nat :=
  if cp <? 0x80 then 0
  else if cp <? 0x800 then 1
  else if cp <? 0x10000 then 2
  else if cp <? 0x200000 then 3
  else if cp <? 0x4000000 then 4
  else 5.

Definition enc8 (cp : Z) : list Z :=
  match conts cp with
  | O => [cp]
  | S n => (0x100 - 2 ^ (6 - Z.of_nat n) + cp `div` 64 ^ Z.of_nat (S n)) :: tail (S n) cp
  end.

Lemma cont_byte x : u8 (Z.lor 0x80 (Z.land x 0x3F)) = 0x80 + x `mod` 64.
Proof.
  change 0x3F with (2 ^ 6 - 1). rewrite land_pow2_pred by lia. change (2 ^ 6) with 64.
  apply Z.eqb_eq. apply (forall_range (λ y, u8 (Z.lor 0x80 y) =? 0x80 + y) 0 64); [vm_compute; reflexivity|].
  apply Z.mod_pos_bound. lia.
Qed.

Lemma lead_byte lb x :
  0 ≤ lb < 7 → 0 ≤ x < 2 ^ lb → u8 (Z.lor (Z.shiftl 0xFF (lb + 1)) x) = 0x100 - 2 ^ (lb + 1) + x.
Proof.
  intros Hlb Hx. apply Z.eqb_eq.
  assert (lb = 0 ∨ lb = 1 ∨ lb = 2 ∨ lb = 3 ∨ lb = 4 ∨ lb = 5 ∨ lb = 6) as Hc by lia.
  pose (P lb x := u8 (Z.lor (Z.shiftl 0xFF (lb + 1)) x) =? 0x100 - 2 ^ (lb + 1) + x).
  assert (∀ lb, forallb (P lb) (seqZ 0 (2 ^ lb)) = true → 0 ≤ x < 2 ^ lb → P lb x = true) as H
    by (intros k Hf Hk; by apply (forall_range (P k) 0 (2 ^ k))).
  apply H; [|done]. destruct_or! Hc; subst lb; vm_compute; reflexivity.
Qed.

(** What [encodeLoop] has done after [k] rounds: the last [k] bytes before the terminator. *)
Lemma encodeLoop_step fuel cp buffer at_ lb bytes :
  0 ≤ at_ - 1 < zlen buffer → 0 ≤ bytes < 10 → 1 ≤ lb ≤ 6 → 0 ≤ cp →
  utf8.encodeLoop (S fuel) cp buffer at_ lb bytes =
  let buffer := <[at_ - 1 := 0x80 + cp `mod` 64]> buffer in
  if 2 ^ (lb - 1) <=? cp `div` 64 then utf8.encodeLoop fuel (cp `div` 64) buffer (at_ - 1) (lb - 1) (bytes + 1)
  else Ret (buffer, at_ - 1, cp `div` 64, lb - 1, bytes + 1).
Proof.
  intros Hat Hb Hlb Hcp. cbn [utf8.encodeLoop]. cbn zeta. rewrite cont_byte, aset_in by done. cbn [mbind outcome_bind].
  rewrite Z.shiftr_div_pow2 by lia. change (2 ^ 6) with 64. rewrite (u32_small (lb - 1)), (u32_small (bytes + 1)) by zsolve.
  rewrite Z.shiftl_1_l. rewrite u32_small; [done|].
  assert (2 ^ (lb - 1) ≤ 2 ^ 6) by (apply Z.pow_le_mono_r; lia). pose proof (Z.pow_nonneg 2 (lb - 1)). zsolve.
Qed.

Lemma zlen_tail n cp : zlen (tail n cp) = Z.of_nat n.
Proof. induction n as [|n IH]; [done|]. cbn [tail]. rewrite zlen_cons, IH. lia. Qed.

Lemma tail_lookup n cp k : 0 ≤ k < Z.of_nat n → tail n cp !! (Z.of_nat n - 1 - k) = Some (cont cp k).
Proof.
  induction n as [|n IH]; intros Hk; [lia|]. cbn [tail].
  destruct (decide (k = Z.of_nat n)) as [->|].
  - by replace (Z.of_nat (S n) - 1 - Z.of_nat n) with 0 by lia.
  - rewrite lookupZ_cons by lia. replace (Z.of_nat (S n) - 1 - k - 1) with (Z.of_nat n - 1 - k) by lia. apply IH. lia.
Qed.

(** The loop with [n] rounds after the first one. *)
Lemma encodeLoop_rounds n : ∀ fuel cp buffer at_ lb bytes,
  0 ≤ cp → 0 ≤ bytes → bytes + Z.of_nat n < 10 → Z.of_nat n < lb ≤ 6 → Z.of_nat n < at_ ≤ zlen buffer →
  (∀ k, 1 ≤ k ≤ Z.of_nat n → 2 ^ (lb - k) ≤ cp `div` 64 ^ k) →
  cp `div` 64 ^ (Z.of_nat n + 1) < 2 ^ (lb - 1 - Z.of_nat n) →
  ∃ buffer', utf8.encodeLoop (S (n + fuel)) cp buffer at_ lb bytes =
      Ret (buffer', at_ - 1 - Z.of_nat n, cp `div` 64 ^ (Z.of_nat n + 1), lb - 1 - Z.of_nat n, bytes + 1 + Z.of_nat n) ∧
    zlen buffer' = zlen buffer ∧ (∀ k, 0 ≤ k ≤ Z.of_nat n → buffer' !! (at_ - 1 - k) = Some (cont cp k)) ∧
    (∀ i, at_ ≤ i → buffer' !! i = buffer !! i).
Proof.
  induction n as [|n IH]; intros fuel cp buffer at_ lb bytes Hcp Hb Hbn Hlb Hat Hgo Hstop; rewrite encodeLoop_step by lia; cbn zeta.
  - change (Z.of_nat 0) with 0 in *. change (64 ^ (0 + 1)) with 64 in *. rewrite !Z.sub_0_r in *. rewrite Z.add_0_r. destruct (Z.leb_spec (2 ^ (lb - 1)) (cp `div` 64)); [lia|].
    eexists. split; [done|]. rewrite zlen_insert. split; [done|]. split.
    + intros k Hk. replace k with 0 by lia. rewrite Z.sub_0_r, lookupZ_insert_eq by lia. unfold cont. by rewrite Z.div_1_r.
    + intros i Hi. by rewrite lookupZ_insert_ne by lia.
  - destruct (Z.leb_spec (2 ^ (lb - 1)) (cp `div` 64)) as [_|H]; [|specialize (Hgo 1 ltac:(lia)); change (64 ^ 1) with 64 in Hgo; lia].
    assert (∀ k, 0 ≤ k → (cp `div` 64) `div` 64 ^ k = cp `div` 64 ^ (k + 1)) as Hdd.
    { intros k Hk. rewrite Z.div_div by (try apply Z.pow_pos_nonneg; lia). by rewrite Z.pow_add_r, Z.mul_comm by lia. }
    destruct (IH fuel (cp `div` 64) (<[at_ - 1 := 128 + cp `mod` 64]> buffer) (at_ - 1) (lb - 1) (bytes + 1))
      as (buffer' & E & Hz & Hk & Hi); rewrite ?zlen_insert; try lia.
    + apply Z.div_pos; lia.
    + intros k Hk. rewrite Hdd by lia. replace (lb - 1 - k) with (lb - (k + 1)) by lia. apply Hgo. lia.
    + rewrite Hdd by lia. replace (Z.of_nat n + 1 + 1) with (Z.of_nat (S n) + 1) by lia.
      replace (lb - 1 - 1 - Z.of_nat n) with (lb - 1 - Z.of_nat (S n)) by lia. done.
    + exists buffer'. split; [|split; [by rewrite Hz, zlen_insert|split]].
      * cbn [Nat.add]. rewrite E. rewrite Hdd by lia.
        replace (Z.of_nat n + 1 + 1) with (Z.of_nat (S n) + 1) by lia. replace (at_ - 1 - 1 - Z.of_nat n) with (at_ - 1 - Z.of_nat (S n)) by lia.
        replace (lb - 1 - 1 - Z.of_nat n) with (lb - 1 - Z.of_nat (S n)) by lia.
        by replace (bytes + 1 + 1 + Z.of_nat n) with (bytes + 1 + Z.of_nat (S n)) by lia.
      * intros k Hk'. destruct (decide (k = 0)) as [->|].
        -- rewrite Hi by lia. rewrite Z.sub_0_r, lookupZ_insert_eq by lia. unfold cont. by rewrite Z.div_1_r.
        -- replace (at_ - 1 - k) with (at_ - 1 - 1 - (k - 1)) by lia. rewrite Hk by lia. unfold cont. rewrite Hdd by lia. by replace (k - 1 + 1) with k by lia.
      * intros i Hi'. rewrite Hi by lia. by rewrite lookupZ_insert_ne by lia.
Qed.

Lemma conts_range cp n :
  conts cp = S n → 0 ≤ cp < 2 ^ 31 →
  (n ≤ 4)%nat ∧ 0x80 ≤ cp < 2 ^ (11 + 5 * Z.of_nat n) ∧ (1 ≤ Z.of_nat n → 2 ^ (6 + 5 * Z.of_nat n) ≤ cp).
Proof.
  unfold conts. intros Hc Hcp.
  repeat match type of Hc with (if ?a <? ?b then _ else _) = _ => destruct (Z.ltb_spec a b) end; try done;
    injection Hc as <-; (split; [lia|]).
  - change (11 + 5 * Z.of_nat 0) with 11. lia.
  - change (11 + 5 * Z.of_nat 1) with 16. change (6 + 5 * Z.of_nat 1) with 11. lia.
  - change (11 + 5 * Z.of_nat 2) with 21. change (6 + 5 * Z.of_nat 2) with 16. lia.
  - change (11 + 5 * Z.of_nat 3) with 26. change (6 + 5 * Z.of_nat 3) with 21. lia.
  - change (11 + 5 * Z.of_nat 4) with 31. change (6 + 5 * Z.of_nat 4) with 26. lia.
Qed.

Lemma pow64 k : 0 ≤ k → 64 ^ k = 2 ^ (6 * k).
Proof. intros. by rewrite Z.pow_mul_r by lia. Qed.

(** The leading byte's share of the codepoint. *)
Lemma enc8_lead cp n :
  conts cp = S n → 0 ≤ cp < 2 ^ 31 → 0 ≤ cp `div` 64 ^ (Z.of_nat n + 1) < 2 ^ (5 - Z.of_nat n).
Proof.
  intros Hn Hcp. destruct (conts_range cp n Hn Hcp) as (H4 & Hr & _). rewrite pow64 by lia.
  split; [apply Z.div_pos; [lia|apply Z.pow_pos_nonneg; lia]|].
  apply Z.div_lt_upper_bound; [apply Z.pow_pos_nonneg; lia|]. rewrite <- Z.pow_add_r by lia.
  replace (6 * (Z.of_nat n + 1) + (5 - Z.of_nat n)) with (11 + 5 * Z.of_nat n) by lia. lia.
Qed.

Lemma encode_spec cp buffer :
  0 ≤ cp < 2 ^ 31 → zlen buffer = utf8.maxBytes →
  ∃ buffer' pos, utf8.encode cp buffer = Ret (buffer', pos, zlen (enc8 cp)) ∧ zlen buffer' = utf8.maxBytes ∧
    ∀ i x, enc8 cp !! i = Some x → buffer' !! (pos + i) = Some x.
Proof.
  unfold utf8.maxBytes. intros Hcp Hb. unfold utf8.encode, enc8. destruct (conts cp) as [|n] eqn:Hn.
  { unfold conts in Hn. destruct (Z.ltb_spec cp 0x80); [|by repeat destruct (_ <? _)].
    rewrite aset_in by lia. cbn [mbind outcome_bind]. rewrite aset_in by (rewrite zlen_insert; lia). cbn [mbind outcome_bind].
    eexists _, 0. split; [done|]. rewrite !zlen_insert. split; [done|]. intros i x Hx. pose proof (lookupZ_Some_lt _ _ _ Hx) as Hi.
    change (zlen [cp]) with 1 in Hi. replace i with 0 in * by lia. rewrite lookupZ_insert_ne by lia.
    rewrite lookupZ_insert_eq by lia. unfold u8. rewrite Z.mod_small by lia. done. }
  destruct (conts_range cp n Hn Hcp) as (H4 & Hr & Hlow). destruct (Z.ltb_spec cp 0x80); [lia|].
  unfold utf8.maxBytes. rewrite aset_in by lia. cbn [mbind outcome_bind].
  destruct (encodeLoop_rounds n (6 - n) cp (<[9 - 1 := 0]> buffer) (9 - 1) 6 0) as (b' & E & Hz & Hk & _);
    rewrite ?zlen_insert; try lia.
  { intros k Hk. rewrite pow64 by lia. apply Z.div_le_lower_bound; [apply Z.pow_pos_nonneg; lia|].
    rewrite <- Z.pow_add_r by lia. etrans; [|apply Hlow; lia]. apply Z.pow_le_mono_r; lia. }
  { pose proof (enc8_lead cp n Hn Hcp). replace (6 - 1 - Z.of_nat n) with (5 - Z.of_nat n) by lia. lia. }
  replace (S (n + (6 - n))) with 7%nat in E by lia. rewrite E. cbn [mbind outcome_bind]. clear E.
  rewrite zlen_insert in Hz. rewrite aset_in by lia. cbn [mbind outcome_bind].
  rewrite lead_byte; [|lia|pose proof (enc8_lead cp n Hn Hcp); replace (6 - 1 - Z.of_nat n) with (5 - Z.of_nat n) by lia; lia].
  rewrite u32_small by zsolve. eexists _, _. split.
  { repeat f_equal. rewrite zlen_cons, zlen_tail. lia. }
  rewrite zlen_insert. split; [lia|]. intros i x Hx. pose proof (lookupZ_Some_lt _ _ _ Hx) as Hi.
  rewrite zlen_cons, zlen_tail in Hi. destruct (decide (i = 0)) as [->|].
  - rewrite Z.add_0_r, lookupZ_insert_eq by lia. rewrite <- Hx. change ((?y :: ?l) !! 0) with (Some y).
    replace (6 - 1 - Z.of_nat n + 1) with (6 - Z.of_nat n) by lia. by replace (Z.of_nat (S n)) with (Z.of_nat n + 1) by lia.
  - rewrite lookupZ_insert_ne by lia. rewrite lookupZ_cons in Hx by lia.
    replace (i - 1) with (Z.of_nat (S n) - 1 - (Z.of_nat (S n) - i)) in Hx by lia.
    rewrite tail_lookup in Hx by lia. rewrite <- Hx.
    replace (9 - 1 - 1 - Z.of_nat n - 1 + i) with (9 - 1 - 1 - (Z.of_nat (S n) - i)) by lia. apply Hk. lia.
Qed.

(** ** Decoding *)

Lemma cont_decode x : 0 ≤ x < 64 → utf8.isCont (0x80 + x) = true ∧ utf8.contData (0x80 + x) = x.
Proof.
  intros Hx. rewrite <- (Z.eqb_eq (utf8.contData _)). apply andb_true_iff.
  apply (forall_range (λ x, utf8.isCont (0x80 + x) && (utf8.contData (0x80 + x) =? x)) 0 64); [vm_compute; reflexivity|lia].
Qed.

Lemma addCont_spec acc x : 0 ≤ x < 64 → 0 ≤ acc < 2 ^ 26 → utf8.addCont acc (0x80 + x) = acc * 64 + x.
Proof.
  intros Hx Ha. unfold utf8.addCont. destruct (cont_decode x Hx) as [_ ->].
  rewrite Z.shiftl_mul_pow2 by lia. rewrite u32_small by zsolve. by rewrite lor_mul_pow2 by lia.
Qed.

Definition has_at (from : list Z) (at_ : Z) (xs : list Z) : Prop :=
  ∀ i x, xs !! i = Some x → from !! (at_ + i) = Some x.

Lemma has_at_cons from at_ x xs : has_at from at_ (x :: xs) ↔ from !! at_ = Some x ∧ has_at from (at_ + 1) xs.
Proof.
  unfold has_at. split.
  - intros H. split; [rewrite <- (Z.add_0_r at_); by apply H|]. intros i y Hy.
    pose proof (lookupZ_Some_lt _ _ _ Hy). rewrite <- Z.add_assoc. apply H. rewrite lookupZ_cons by lia. by replace (1 + i - 1) with i by lia.
  - intros [Hx Hxs] i y Hy. pose proof (lookupZ_Some_lt _ _ _ Hy). destruct (decide (i = 0)) as [->|].
    + rewrite Z.add_0_r, Hx. exact Hy.
    + rewrite lookupZ_cons in Hy by lia. replace (at_ + i) with (at_ + 1 + (i - 1)) by lia. by apply Hxs.
Qed.

Lemma has_at_app from at_ xs ys : has_at from at_ (xs ++ ys) ↔ has_at from at_ xs ∧ has_at from (at_ + zlen xs) ys.
Proof.
  revert at_. induction xs as [|x xs IH]; intros at_.
  - cbn [app]. change (zlen (@nil Z)) with 0. rewrite Z.add_0_r. split; [|tauto]. intros H. split; [|done].
    intros i x Hx. by rewrite lookupZ_nil in Hx.
  - cbn [app]. rewrite !has_at_cons, IH, zlen_cons. replace (at_ + (zlen xs + 1)) with (at_ + 1 + zlen xs) by lia. tauto.
Qed.

Lemma contLoop_tail n from at_ cp :
  has_at from at_ (tail n cp) → 0 ≤ cp < 2 ^ 31 →
  contLoop n from at_ (cp `div` 64 ^ Z.of_nat n) = Ret (cp, at_ + Z.of_nat n).
Proof.
  revert at_. induction n as [|n IH]; intros at_ Hf Hcp.
  { cbn. rewrite Z.div_1_r, Z.add_0_r. done. }
  cbn [tail] in Hf. apply has_at_cons in Hf as [Hx Hf]. cbn [contLoop]. rewrite (aget_Some _ _ _ Hx). cbn [mbind outcome_bind].
  pose proof (Z.mod_pos_bound (cp `div` 64 ^ Z.of_nat n) 64 ltac:(lia)) as Hm.
  assert (0 < 64 ^ Z.of_nat n) by (apply Z.pow_pos_nonneg; lia).
  assert (cp `div` 64 ^ Z.of_nat (S n) = (cp `div` 64 ^ Z.of_nat n) `div` 64) as E.
  { rewrite Z.div_div by lia. rewrite Nat2Z.inj_succ, Z.pow_succ_r by lia. by rewrite (Z.mul_comm 64). }
  assert (0 ≤ cp `div` 64 ^ Z.of_nat n < 2 ^ 31) as Hd.
  { split; [apply Z.div_pos; lia|]. apply Z.div_lt_upper_bound; [done|]. nia. }
  unfold cont. destruct (cont_decode _ Hm) as [-> _]. rewrite addCont_spec; [|done|rewrite E; Z.to_euclidean_division_equations; lia].
  rewrite E. replace ((cp `div` 64 ^ Z.of_nat n) `div` 64 * 64 + (cp `div` 64 ^ Z.of_nat n) `mod` 64)
    with (cp `div` 64 ^ Z.of_nat n) by (pose proof (Z.div_mod (cp `div` 64 ^ Z.of_nat n) 64 ltac:(lia)); lia).
  rewrite IH by done. do 2 f_equal. lia.
Qed.

Lemma firstData_ascii c : 0 ≤ c < 0x80 → utf8.firstData c = (c, 0%nat).
Proof.
  intros Hc. unfold utf8.firstData. enough ((Z.land c 0x80 =? 0) = true) as -> by done.
  apply (forall_range (λ c, Z.land c 0x80 =? 0) 0 0x80); [vm_compute; reflexivity|lia].
Qed.

Lemma firstData_lead n d :
  (n ≤ 4)%nat → 0 ≤ d < 2 ^ (5 - Z.of_nat n) → utf8.firstData (0x100 - 2 ^ (6 - Z.of_nat n) + d) = (d, S n).
Proof.
  intros Hn Hd. pose (P n d := bool_decide (utf8.firstData (0x100 - 2 ^ (6 - Z.of_nat n) + d) = (d, S n))).
  assert (∀ n, forallb (P n) (seqZ 0 (2 ^ (5 - Z.of_nat n))) = true → 0 ≤ d < 2 ^ (5 - Z.of_nat n) → P n d = true) as H
    by (intros k Hf Hk; by apply (forall_range (P k) 0 (2 ^ (5 - Z.of_nat k)))).
  apply (bool_decide_eq_true_1 _). apply H; [|done].
  do 5 (destruct n as [|n]; [vm_compute; reflexivity|]). lia.
Qed.

(** The bytes of a codepoint are decoded to it. *)
Lemma decode_spec cp from at_ :
  0 ≤ cp < 2 ^ 31 → has_at from at_ (enc8 cp) →
  ∃ c d n, from !! at_ = Some c ∧ (cp ≠ 0 → c ≠ 0) ∧ utf8.firstData c = (d, n) ∧
    contLoop n from (at_ + 1) d = Ret (cp, at_ + zlen (enc8 cp)).
Proof.
  unfold enc8. intros Hcp Hf. destruct (conts cp) as [|n] eqn:Hn.
  - apply has_at_cons in Hf as [Hc _]. exists cp, cp, O. split_and!; try done.
    apply firstData_ascii. unfold conts in Hn. destruct (Z.ltb_spec cp 0x80); [lia|]. by repeat destruct (_ <? _).
  - apply has_at_cons in Hf as [Hc Hf]. destruct (conts_range cp n Hn Hcp) as (H4 & Hr & _).
    pose proof (enc8_lead cp n Hn Hcp) as Hl. replace (Z.of_nat n + 1) with (Z.of_nat (S n)) in Hl by lia.
    eexists _, _, _. split; [exact Hc|]. split; [|split; [by apply firstData_lead|]].
    + intros _. assert (2 ^ (6 - Z.of_nat n) ≤ 2 ^ 6) by (apply Z.pow_le_mono_r; lia). lia.
    + rewrite contLoop_tail by done. rewrite zlen_cons, zlen_tail. do 2 f_equal. lia.
Qed.

(** A codepoint below 2^31 encoded in UTF-8 takes one to six bytes, which the decoding
    of [convert] reads back as the codepoint, stopping behind them. *)
Theorem utf8_roundtrip cp buffer :
  0 ≤ cp < 2 ^ 31 → zlen buffer = utf8.maxBytes →
  ∃ b pos n c d k, utf8.encode cp buffer = Ret (b, pos, n) ∧ 1 ≤ n ≤ 6 ∧ b !! pos = Some c ∧
    utf8.firstData c = (d, k) ∧ contLoop k b (pos + 1) d = Ret (cp, pos + n).
Proof.
  intros Hcp Hb. destruct (encode_spec cp buffer Hcp Hb) as (b & pos & E & _ & Hf).
  destruct (decode_spec cp b pos Hcp Hf) as (c & d & k & Hc & _ & Hd & Hl).
  exists b, pos, (zlen (enc8 cp)), c, d, k. split_and!; try done; unfold enc8; destruct (conts cp) as [|n] eqn:Hn; try done.
  - rewrite zlen_cons, zlen_tail. lia.
  - rewrite zlen_cons, zlen_tail. destruct (conts_range cp n Hn Hcp). lia.
Qed.

Lemma utf8_roundtrip_witness :
  ∃ b pos n c d k, utf8.encode 0x1F600 (replicate 9 0) = Ret (b, pos, n) ∧ 1 ≤ n ≤ 6 ∧ b !! pos = Some c ∧
    utf8.firstData c = (d, k) ∧ contLoop k b (pos + 1) d = Ret (0x1F600, pos + n).
Proof. apply (utf8_roundtrip 0x1F600 (replicate 9 0)); [lia|reflexivity]. Defined.
