(* ===== verification/ConvertCorrect.v ===== *)
(** * Correctness of the string conversions

    [Core/Convert.cpp]: what the conversions write, for well-formed and for arbitrary
    strings, into a buffer of any size. *)

From stdpp Require Import base list numbers decidable option.
From Stdlib Require Import ZArith Lia.
From S2P Require Import Prelude Utf UtfCorrect.
Import Convert.

(** ** Output *)

(** The units [ws] have been written to a buffer of [n] units, as far as it goes. *)
Definition written (n : Z) (to : list Z) (out : Z) (ws : list Z) : Prop :=
  zlen to = n ∧ out = zlen ws ∧ ∀ i, 0 ≤ i < zlen ws → i < n → to !! i = ws !! i.

(** What a conversion leaves in the buffer: cut off if need be, but terminated. *)
Definition final (n : Z) (ws : list Z) : list Z :=
  if decide (n = 0) then [] else take (Z.to_nat (n - 1)) ws ++ [0].

Lemma written_start n : 0 ≤ n → written n (replicate (Z.to_nat n) 0) 0 [].
Proof. intros Hn. split; [rewrite zlen_replicate; lia|]. split; [done|]. intros i Hi. change (zlen (@nil Z)) with 0 in Hi. lia. Qed.

Lemma lookupZ_app (xs ys : list Z) i : xs !! i = (xs ++ ys) !! i ∨ zlen xs ≤ i ∨ i < 0.
Proof.
  destruct (decide (0 ≤ i < zlen xs)) as [Hi|]; [left|lia]. unfold zlen in Hi.
  rewrite !lookupZ_to_nat by lia. by rewrite lookup_app_l by lia.
Qed.

Lemma lookupZ_snoc (ws : list Z) x : (ws ++ [x]) !! zlen ws = Some x.
Proof. unfold zlen. rewrite lookupZ_nat. by apply list_lookup_middle. Qed.

Lemma WRITE_written n to out ws x :
  written n to out ws → zlen ws + 1 < 2 ^ 64 →
  written n (WRITE to out x).1 (WRITE to out x).2 (ws ++ [x]).
Proof.
  intros (Hn & -> & Hw) Hb. unfold WRITE. cbn [fst snd]. pose proof (zlen_nonneg ws).
  split; [|split].
  - destruct (_ <? _); [by rewrite zlen_insert|done].
  - rewrite u64_small by zsolve. by rewrite zlen_app.
  - intros i Hi Hin. rewrite zlen_app in Hi. change (zlen [x]) with 1 in Hi. rewrite Hn.
    destruct (Z.ltb_spec (zlen ws) n);
      [|rewrite Hw by lia; destruct (lookupZ_app ws [x] i) as [|]; [done|lia]]. destruct (decide (i = zlen ws)) as [->|].
    + rewrite lookupZ_insert_eq by lia. by rewrite lookupZ_snoc.
    + rewrite lookupZ_insert_ne by lia. rewrite Hw by lia. destruct (lookupZ_app ws [x] i) as [|]; [done|lia].
Qed.

Lemma write16_written n to out ws cp :
  written n to out ws → zlen ws + 2 < 2 ^ 64 →
  written n (write16 to out cp).1 (write16 to out cp).2
    (ws ++ if utf16.split cp then [utf16.splitLeading cp; utf16.splitTrailing cp] else [u16 cp]).
Proof.
  intros Hw Hb. unfold write16. destruct (utf16.split cp); [|apply WRITE_written; [done|lia]].
  pose proof (WRITE_written n to out ws (utf16.splitLeading cp) Hw ltac:(lia)) as H1.
  destruct (WRITE to out (utf16.splitLeading cp)) as [to1 out1]. cbn in H1.
  pose proof (WRITE_written n to1 out1 _ (utf16.splitTrailing cp) H1) as H2. rewrite zlen_app in H2.
  change (zlen [utf16.splitLeading cp]) with 1 in H2. rewrite <- app_assoc in H2. apply H2. lia.
Qed.

Lemma TERMINATE_final n to out ws :
  written n to out ws → 0 ≤ n ≤ zlen ws + 1 → zlen ws + 1 < 2 ^ 64 →
  TERMINATE to out = (final n ws, zlen ws + 1).
Proof.
  intros Hw Hn Hb. unfold TERMINATE. pose proof (WRITE_written n to out ws 0 Hw Hb) as Hw'.
  destruct (WRITE to out 0) as [to' out']. cbn in Hw'. destruct Hw' as (Hz & -> & Hl).
  rewrite zlen_app. change (zlen [0]) with 1. f_equal. unfold final. rewrite Hz.
  destruct (Z.ltb_spec 0 n); case_decide; try lia; [|by destruct to'; [|rewrite zlen_cons in Hz; pose proof (zlen_nonneg to'); lia]].
  apply list_eqZ.
  - rewrite zlen_insert, zlen_app. change (zlen [0]) with 1. unfold zlen in *. rewrite length_take. lia.
  - intros i Hi. rewrite zlen_insert in Hi. assert (length (take (Z.to_nat (n - 1)) ws) = Z.to_nat (n - 1)) as Ht
      by (rewrite length_take; unfold zlen in *; lia).
    destruct (decide (i = n - 1)) as [->|].
    + rewrite lookupZ_insert_eq by lia. rewrite lookupZ_to_nat, lookup_app_r by lia. by rewrite Ht, Nat.sub_diag.
    + rewrite lookupZ_insert_ne by lia. rewrite Hl by (rewrite ?zlen_app; change (zlen [0]) with 1; lia).
      destruct (lookupZ_app ws [0] i) as [<-|]; [|lia]. rewrite !lookupZ_to_nat by lia.
      rewrite lookup_app_l by lia. by rewrite lookup_take_lt by lia.
Qed.

Lemma final_all ws : final (zlen ws + 1) ws = ws ++ [0].
Proof.
  unfold final. pose proof (zlen_nonneg ws). rewrite decide_False by lia. f_equal. apply take_ge. unfold zlen. lia.
Qed.

(** ** Well-formed strings *)

(** The UTF-16 and UTF-8 units of a string of codepoints. *)
Definition enc16 (cp : Z) : list Z :=
  if utf16.split cp then [utf16.splitLeading cp; utf16.splitTrailing cp] else [u16 cp].
Definition units16 (cps : list Z) : list Z := concat (enc16 <$> cps).
Definition units8 (cps : list Z) : list Z := concat (enc8 <$> cps).

Lemma enc8_length cp : 0 ≤ cp < 2 ^ 31 → 1 ≤ zlen (enc8 cp) ≤ 6.
Proof.
  intros Hcp. unfold enc8. destruct (conts cp) as [|n] eqn:Hn; [done|]. rewrite zlen_cons, zlen_tail.
  destruct (conts_range cp n Hn Hcp). lia.
Qed.

Lemma enc16_length cp : 1 ≤ zlen (enc16 cp) ≤ 2.
Proof. unfold enc16. by destruct (utf16.split cp). Qed.

(** [convert] from UTF-8. *)
Lemma toWCharLoop_units n from cps : ∀ fuel at_ to out ws,
  has_at from at_ (units8 cps ++ [0]) → Forall (λ cp, 0 < cp < 2 ^ 31) cps → (length cps < fuel)%nat →
  written n to out ws → zlen (ws ++ units16 cps) + 1 < 2 ^ 64 → 0 ≤ n ≤ zlen (ws ++ units16 cps) + 1 →
  toWCharLoop fuel from at_ to out = Ret (final n (ws ++ units16 cps), zlen (ws ++ units16 cps) + 1).
Proof.
  induction cps as [|cp cps IH]; intros [|fuel] at_ to out ws Hf Hcp Hfuel Hw Hb Hn; try (cbn in Hfuel; lia); cbn [toWCharLoop].
  - apply has_at_cons in Hf as [H0 _]. rewrite (aget_Some _ _ _ H0). cbn [mbind outcome_bind]. rewrite Z.eqb_refl.
    unfold units16 in *. cbn [fmap list_fmap concat] in *. rewrite app_nil_r in *. by rewrite (TERMINATE_final n to out ws).
  - inversion Hcp as [|? ? Hc Hcps]; subst. unfold units8 in Hf. cbn in Hf. rewrite <- app_assoc in Hf.
    apply has_at_app in Hf as [Hf1 Hf2]. destruct (decode_spec cp from at_ ltac:(lia) Hf1) as (c & d & k & Hx & Hnz & Hfd & Hl).
    rewrite (aget_Some _ _ _ Hx). cbn [mbind outcome_bind]. destruct (Z.eqb_spec c 0) as [->|]; [exfalso; apply Hnz; lia|].
    rewrite Hfd, Hl. cbn [mbind outcome_bind]. pose proof (write16_written n to out ws cp Hw) as Hw'. fold (enc16 cp) in Hw'.
    destruct (write16 to out cp) as [to' out']. unfold units16 in *. cbn [fmap list_fmap concat] in *. rewrite app_assoc in *.
    pose proof (enc16_length cp). pose proof (zlen_nonneg (concat (enc16 <$> cps))). rewrite !zlen_app in Hb.
    apply IH; try done; [cbn in Hfuel; lia|apply Hw'; lia|rewrite !zlen_app; lia].
Qed.

(** [convert] from UTF-16: one codepoint. *)
Lemma enc16_read from at_ cp :
  scalar cp → cp ≠ 0 → has_at from at_ (enc16 cp) →
  ∃ now, aget from at_ = Ret now ∧ now ≠ 0 ∧
    (if utf16.leading now then
       next ← aget from (at_ + 1);
       if utf16.trailing next then Ret (utf16.assemble now next, at_ + 1 + 1) else Ret (replacementChar, at_ + 1)
     else Ret (now, at_ + 1)) = Ret (cp, at_ + zlen (enc16 cp)).
Proof.
  intros Hs Hnz Hf. unfold enc16 in *. destruct (utf16.split cp) eqn:Es.
  - unfold utf16.split in Es. apply Z.leb_le in Es. destruct (surrogates cp Hs Es) as (El & Et & Hd). rewrite El, Et in *.
    apply has_at_cons in Hf as [H1 Hf]. apply has_at_cons in Hf as [H2 _].
    pose proof (Z.mod_pos_bound (cp - 0x10000) 1024 ltac:(lia)) as Hm.
    eexists. split; [by apply aget_Some|]. split; [lia|]. destruct (leading_surrogate _ Hd) as [-> _].
    rewrite (aget_Some _ _ _ H2). cbn [mbind outcome_bind]. destruct (leading_surrogate _ Hm) as [_ ->].
    rewrite assemble_surrogates by done. pose proof (Z.div_mod (cp - 0x10000) 1024 ltac:(lia)).
    do 2 f_equal; [lia|]. rewrite !zlen_cons. change (zlen (@nil Z)) with 0. lia.
  - unfold utf16.split in Es. apply Z.leb_gt in Es. destruct Hs as [Hs1 Hs2]. apply has_at_cons in Hf as [H1 _].
    unfold u16 in *. rewrite Z.mod_small in * by lia.
    exists cp. split; [by apply aget_Some|]. split; [done|]. by rewrite not_surrogate by lia.
Qed.

(** The loop that writes the bytes of a codepoint. *)
Lemma writeBytes n buffer pos bs : ∀ to out ws,
  has_at buffer pos bs → written n to out ws → zlen ws + zlen bs < 2 ^ 64 →
  ∃ to' out', for_loop (length bs) 0 (λ i '(to, out), b ← aget buffer (pos + i); Ret (WRITE to out b)) (to, out) = Ret (to', out') ∧
    written n to' out' (ws ++ bs).
Proof.
  intros to out ws Hb Hw Hz. pose proof (zlen_nonneg ws).
  for_inv (λ i '(to', out'), written n to' out' (ws ++ take (Z.to_nat i) bs)) r Hi.
  - by rewrite app_nil_r.
  - intros i [to' out'] Hi Hw'. destruct (lookupZ_lt_Some bs i) as [b Hx]; [unfold zlen; lia|].
    rewrite (aget_Some _ _ _ (Hb i b Hx)). cbn [mbind outcome_bind returns].
    replace (Z.to_nat (i + 1)) with (S (Z.to_nat i)) by lia. rewrite lookupZ_to_nat in Hx by lia. rewrite (take_S_r _ _ _ Hx), app_assoc.
    pose proof (WRITE_written n to' out' _ b Hw') as H'. destruct (WRITE to' out' b). apply H'.
    rewrite zlen_app. unfold zlen in *. rewrite length_take. lia.
  - destruct r as [to' out']. rewrite take_ge in Hi by lia. eauto.
Qed.

Lemma toCharLoop_units n from cps : ∀ fuel at_ to out ws buffer,
  has_at from at_ (units16 cps ++ [0]) → Forall (λ cp, scalar cp ∧ cp ≠ 0) cps → (length cps < fuel)%nat →
  zlen buffer = utf8.maxBytes →
  written n to out ws → zlen (ws ++ units8 cps) + 1 < 2 ^ 64 → 0 ≤ n ≤ zlen (ws ++ units8 cps) + 1 →
  toCharLoop fuel from at_ to out buffer = Ret (final n (ws ++ units8 cps), zlen (ws ++ units8 cps) + 1).
Proof.
  induction cps as [|cp cps IH]; intros [|fuel] at_ to out ws buffer Hf Hcp Hfuel Hbuf Hw Hb Hn; try (cbn in Hfuel; lia); cbn [toCharLoop].
  - apply has_at_cons in Hf as [H0 _]. rewrite (aget_Some _ _ _ H0). cbn [mbind outcome_bind]. rewrite Z.eqb_refl.
    unfold units8 in *. cbn [fmap list_fmap concat] in *. rewrite app_nil_r in *. by rewrite (TERMINATE_final n to out ws).
  - inversion Hcp as [|? ? [Hs Hnz] Hcps]; subst. unfold units16 in Hf. cbn in Hf. rewrite <- app_assoc in Hf.
    apply has_at_app in Hf as [Hf1 Hf2]. destruct (enc16_read from at_ cp Hs Hnz Hf1) as (now & -> & Hnow & Hrd).
    cbn [mbind outcome_bind]. destruct (Z.eqb_spec now 0); [done|]. cbn zeta. rewrite Hrd. cbn [mbind outcome_bind].
    assert (0 ≤ cp < 2 ^ 31) as Hr by (destruct Hs; lia).
    destruct (encode_spec cp buffer Hr Hbuf) as (b' & pos & -> & Hb' & Hat). cbn [mbind outcome_bind].
    unfold units8 in *. cbn [fmap list_fmap concat] in *. rewrite app_assoc in *. pose proof (zlen_nonneg (concat (enc8 <$> cps))).
    destruct (writeBytes n b' pos (enc8 cp) to out ws Hat Hw) as (to' & out' & E & Hw'); [rewrite !zlen_app in Hb; lia|].
    replace (Z.to_nat (zlen (enc8 cp))) with (length (enc8 cp)) by (unfold zlen; lia). rewrite E. cbn [mbind outcome_bind].
    apply IH; try done. cbn in Hfuel. lia.
Qed.

(** ** The conversions *)

Lemma has_at_start xs ys : has_at (xs ++ ys) 0 xs.
Proof. intros i x Hx. pose proof (lookupZ_Some_lt _ _ _ Hx). rewrite Z.add_0_l. destruct (lookupZ_app xs ys i) as [<-|]; [done|lia]. Qed.

Lemma has_at_all xs : has_at xs 0 xs.
Proof. intros i x Hx. by rewrite Z.add_0_l. Qed.

(** Each codepoint takes at least one unit. *)
Lemma units_length (f : Z → list Z) cps :
  Forall (λ cp, 1 ≤ zlen (f cp)) cps → (length cps ≤ length (concat (f <$> cps)))%nat.
Proof.
  induction 1 as [|cp cps Hc Hcps IH]; [done|]. cbn. rewrite length_app. unfold zlen in Hc. lia.
Qed.

Lemma convert8_units cps to :
  Forall (λ cp, 0 < cp < 2 ^ 31) cps → zlen (units16 cps) + 1 < 2 ^ 64 → zlen to ≤ zlen (units16 cps) + 1 →
  convert8 (units8 cps ++ [0]) to = Ret (final (zlen to) (units16 cps), zlen (units16 cps) + 1).
Proof.
  intros Hc Hb Hn. unfold convert8. apply (toWCharLoop_units (zlen to) _ cps _ 0 to 0 []); try done.
  - apply has_at_all.
  - rewrite length_app. cbn. unfold units8. pose proof (units_length enc8 cps). rewrite Nat.add_1_r.
    enough (length cps ≤ length (concat (enc8 <$> cps)))%nat by lia. apply H.
    eapply Forall_impl; [|exact Hc]. intros cp Hcp. apply enc8_length. cbn in Hcp. lia.
  - split; [done|]. split; [done|]. intros i Hi. change (zlen (@nil Z)) with 0 in Hi. lia.
  - cbn [app]. split; [apply zlen_nonneg|done].
Qed.

Lemma convert16_units cps to :
  Forall (λ cp, scalar cp ∧ cp ≠ 0) cps → zlen (units8 cps) + 1 < 2 ^ 64 → zlen to ≤ zlen (units8 cps) + 1 →
  convert16 (units16 cps ++ [0]) to = Ret (final (zlen to) (units8 cps), zlen (units8 cps) + 1).
Proof.
  intros Hc Hb Hn. unfold convert16. apply (toCharLoop_units (zlen to) _ cps _ 0 to 0 []); try done.
  - apply has_at_all.
  - rewrite length_app. cbn. unfold units16. pose proof (units_length enc16 cps). rewrite Nat.add_1_r.
    enough (length cps ≤ length (concat (enc16 <$> cps)))%nat by lia. apply H.
    eapply Forall_impl; [|exact Hc]. intros cp _. destruct (enc16_length cp); lia.
  - split; [done|]. split; [done|]. intros i Hi. change (zlen (@nil Z)) with 0 in Hi. lia.
  - cbn [app]. split; [apply zlen_nonneg|done].
Qed.

(** Measuring and converting gives all units. *)
Lemma two_pass (convert : list Z → outcome (list Z * Z)) ws :
  (∀ to, zlen to ≤ zlen ws + 1 → convert to = Ret (final (zlen to) ws, zlen ws + 1)) →
  ('(_, space) ← convert []; '(r, _) ← convert (replicate (Z.to_nat space) 0); Ret r) = Ret (ws ++ [0]).
Proof.
  intros H. pose proof (zlen_nonneg ws). rewrite (H []) by (change (zlen (@nil Z)) with 0; lia). cbn [mbind outcome_bind].
  rewrite H by (rewrite zlen_replicate; lia). cbn [mbind outcome_bind]. rewrite zlen_replicate, Z2Nat.id by lia. by rewrite final_all.
Qed.

(** C35: converting a string of valid codepoints (none of them 0) from UTF-16 to UTF-8 and
    back, or from UTF-8 to UTF-16 and back, gives the string again, terminated, with the
    buffers the first passes measured. *)
Theorem convert_roundtrip cps :
  Forall (λ cp, scalar cp ∧ cp ≠ 0) cps → zlen (units8 cps) + 1 < 2 ^ 64 → zlen (units16 cps) + 1 < 2 ^ 64 →
  toChar (units16 cps ++ [0]) = Ret (units8 cps ++ [0]) ∧ toWChar (units8 cps ++ [0]) = Ret (units16 cps ++ [0]) ∧
  (toChar (units16 cps ++ [0]) ≫= toWChar) = Ret (units16 cps ++ [0]) ∧
  (toWChar (units8 cps ++ [0]) ≫= toChar) = Ret (units8 cps ++ [0]).
Proof.
  intros Hc H8 H16.
  assert (toChar (units16 cps ++ [0]) = Ret (units8 cps ++ [0])) as E1.
  { apply (two_pass (convert16 (units16 cps ++ [0]))). intros to Hto. by apply convert16_units. }
  assert (toWChar (units8 cps ++ [0]) = Ret (units16 cps ++ [0])) as E2.
  { apply (two_pass (convert8 (units8 cps ++ [0]))). intros to Hto. apply convert8_units; try done.
    eapply Forall_impl; [|exact Hc]. intros cp [[? ?] ?]. lia. }
  rewrite E1, E2. cbn [mbind outcome_bind]. rewrite E1, E2. done.
Qed.

Lemma convert_roundtrip_witness :
  toChar [0x41; 0xE5; 0x20AC; 0xD83D; 0xDE00; 0] = Ret [0x41; 0xC3; 0xA5; 0xE2; 0x82; 0xAC; 0xF0; 0x9F; 0x98; 0x80; 0] ∧
  (toChar [0x41; 0xE5; 0x20AC; 0xD83D; 0xDE00; 0] ≫= toWChar) = Ret [0x41; 0xE5; 0x20AC; 0xD83D; 0xDE00; 0].
Proof.
  destruct (convert_roundtrip [0x41; 0xE5; 0x20AC; 0x1F600]) as (H1 & _ & H3 & _).
  - repeat constructor; lia.
  - reflexivity.
  - reflexivity.
  - split; [exact H1|exact H3].
Defined.

(** ** Arbitrary bytes *)

Lemma contLoop_stays k bs : ∀ at_ cp,
  Forall (λ b, 0 < b) bs → 0 ≤ at_ ≤ zlen bs →
  ∃ cp' at', contLoop k (bs ++ [0]) at_ cp = Ret (cp', at') ∧ at_ ≤ at' ≤ zlen bs.
Proof.
  induction k as [|k IH]; intros at_ cp Hb Hat; [exists cp, at_; split; [done|lia]|]. cbn [contLoop].
  destruct (decide (at_ = zlen bs)) as [->|].
  - rewrite (aget_Some _ _ _ (lookupZ_snoc bs 0)). cbn. exists replacementChar, (zlen bs). split; [done|lia].
  - destruct (lookupZ_lt_Some bs at_) as [c Hc]; [lia|]. destruct (lookupZ_app bs [0] at_) as [E|]; [|lia].
    rewrite (aget_Some _ _ c) by congruence. cbn [mbind outcome_bind]. destruct (utf8.isCont c); [|eexists _, _; split; [done|lia]].
    destruct (IH (at_ + 1) (utf8.addCont cp c)) as (cp' & at' & -> & ?); [done|lia|]. eexists _, _. split; [done|lia].
Qed.

Lemma toWCharLoop_total bs fuel : ∀ at_,
  Forall (λ b, 0 < b) bs → zlen bs < 2 ^ 62 → 0 ≤ at_ ≤ zlen bs → (Z.to_nat (zlen bs - at_) < fuel)%nat →
  ∃ ws, zlen ws ≤ 2 * (zlen bs - at_) ∧ ∀ n to out pre,
    written n to out pre → zlen pre ≤ 2 * at_ → 0 ≤ n ≤ zlen (pre ++ ws) + 1 →
    toWCharLoop fuel (bs ++ [0]) at_ to out = Ret (final n (pre ++ ws), zlen (pre ++ ws) + 1).
Proof.
  induction fuel as [|fuel IH]; intros at_ Hb Hz Hat Hf; [lia|]. destruct (decide (at_ = zlen bs)) as [->|Hne].
  - exists []. split; [change (zlen (@nil Z)) with 0; lia|]. intros n to out pre Hw Hp Hn. rewrite app_nil_r in *. cbn [toWCharLoop].
    rewrite (aget_Some _ _ _ (lookupZ_snoc bs 0)). cbn [mbind outcome_bind]. rewrite Z.eqb_refl.
    rewrite (TERMINATE_final n to out pre); [done|done|done|lia].
  - destruct (lookupZ_lt_Some bs at_) as [c Hc]; [lia|]. destruct (lookupZ_app bs [0] at_) as [E|]; [|lia].
    assert (0 < c) by (rewrite Forall_forall in Hb; apply Hb, list_elem_of_In, list_elem_of_lookupZ; eauto).
    destruct (utf8.firstData c) as [d k] eqn:Hfd.
    destruct (contLoop_stays k bs (at_ + 1) d Hb ltac:(lia)) as (cp & at' & Hcl & Hat').
    destruct (IH at') as (ws & Hws & Hrun); try done; [lia|lia|].
    exists (enc16 cp ++ ws). pose proof (enc16_length cp). rewrite zlen_app. split; [lia|].
    intros n to out pre Hw Hp Hn. cbn [toWCharLoop]. rewrite (aget_Some _ _ c) by congruence. cbn [mbind outcome_bind].
    destruct (Z.eqb_spec c 0); [lia|]. rewrite Hfd, Hcl. cbn [mbind outcome_bind].
    pose proof (write16_written n to out pre cp Hw ltac:(lia)) as Hw'. fold (enc16 cp) in Hw'.
    destruct (write16 to out cp) as [to' out']. rewrite app_assoc in *. apply Hrun; [done|rewrite zlen_app; lia|done].
Qed.

(** [toWChar] of any zero-terminated byte string, well-formed UTF-8 or not, returns: the
    first pass measures what the second one writes, and the result is terminated. *)
Theorem toWChar_total bs :
  Forall (λ b, 0 < b) bs → zlen bs < 2 ^ 62 →
  ∃ ws, toWChar (bs ++ [0]) = Ret (ws ++ [0]) ∧ zlen ws ≤ 2 * zlen bs ∧
    ∀ to, zlen to ≤ zlen ws + 1 → convert8 (bs ++ [0]) to = Ret (final (zlen to) ws, zlen ws + 1).
Proof.
  intros Hb Hz. pose proof (zlen_nonneg bs).
  destruct (toWCharLoop_total bs (S (length (bs ++ [0]))) 0 Hb Hz) as (ws & Hl & Hrun); [lia|rewrite length_app; unfold zlen; lia|].
  assert (∀ to, zlen to ≤ zlen ws + 1 → convert8 (bs ++ [0]) to = Ret (final (zlen to) ws, zlen ws + 1)) as Hall.
  { intros to Hto. apply (Hrun (zlen to) to 0 []); [|done|split; [apply zlen_nonneg|done]].
    split; [done|]. split; [done|]. intros i Hi. change (zlen (@nil Z)) with 0 in Hi. lia. }
  exists ws. split; [by apply two_pass|]. split; [lia|done].
Qed.

Lemma toWChar_total_witness :
  ∃ ws, toWChar ([0xE2; 0x82; 0x41; 0xFF] ++ [0]) = Ret (ws ++ [0]) ∧ ws = [0xFFFD; 0x41; 0xFFFD].
Proof.
  destruct (toWChar_total [0xE2; 0x82; 0x41; 0xFF]) as (ws & E & _).
  - repeat constructor.
  - reflexivity.
  - exists ws. split; [exact E|]. vm_compute in E. injection E as E. by apply (app_inj_tail [0xFFFD; 0x41; 0xFFFD] ws 0 0) in E as [<- _].
Defined.

(** Bytes that decode to a codepoint above 0x10FFFF or to 0 (an overlong encoding) put a
    zero unit in the middle of the result, which ends the string there: the 6 byte string
    "A", F4 90 80 80, "B" becomes "A". *)
Theorem convert_embedded_zero :
  toWChar [0x41; 0xF4; 0x90; 0x80; 0x80; 0x42; 0] = Ret [0x41; 0; 0xFFFD; 0x42; 0] ∧
  toWChar [0x41; 0xC0; 0x80; 0x42; 0] = Ret [0x41; 0; 0x42; 0].
Proof. split; vm_compute; reflexivity. Qed.

(** ** Counted strings and [wchar_t] *)

Lemma contLoopCounted_eq k bs : ∀ at_ cp,
  0 ≤ at_ ≤ zlen bs → contLoopCounted k bs (zlen bs) at_ cp = contLoop k (bs ++ [0]) at_ cp.
Proof.
  induction k as [|k IH]; intros at_ cp Hat; [done|]. cbn [contLoop contLoopCounted].
  destruct (Z.ltb_spec at_ (zlen bs)).
  - unfold aget. destruct (lookupZ_app bs [0] at_) as [<-|]; [|lia]. destruct (bs !! at_) as [c|]; [|done].
    cbn. destruct (utf8.isCont c); [|done]. apply IH. lia.
  - replace at_ with (zlen bs) by lia. by rewrite (aget_Some _ _ _ (lookupZ_snoc bs 0)).
Qed.

Lemma toWCharLoopCounted_eq bs fuel : ∀ at_ to out,
  Forall (λ b, 0 < b) bs → 0 ≤ at_ ≤ zlen bs → (Z.to_nat (zlen bs - at_) < fuel)%nat → ∀ fuel', (fuel ≤ fuel')%nat →
  toWCharLoopCounted fuel bs (zlen bs) at_ to out = toWCharLoop fuel' (bs ++ [0]) at_ to out.
Proof.
  induction fuel as [|fuel IH]; intros at_ to out Hb Hat Hf [|fuel'] Hf'; try lia. cbn [toWCharLoop toWCharLoopCounted].
  destruct (Z.ltb_spec at_ (zlen bs)).
  - destruct (lookupZ_lt_Some bs at_) as [c Hc]; [lia|]. destruct (lookupZ_app bs [0] at_) as [E|]; [|lia].
    rewrite (aget_Some bs at_ c), (aget_Some (bs ++ [0]) at_ c) by congruence. cbn [mbind outcome_bind].
    assert (0 < c) by (rewrite Forall_forall in Hb; apply Hb, list_elem_of_In, list_elem_of_lookupZ; eauto).
    destruct (Z.eqb_spec c 0); [lia|]. destruct (utf8.firstData c) as [d k].
    rewrite contLoopCounted_eq by lia. destruct (contLoop_stays k bs (at_ + 1) d Hb ltac:(lia)) as (cp & at' & -> & Hat').
    cbn [mbind outcome_bind]. destruct (write16 to out cp). apply IH; [done|lia|lia|lia].
  - replace at_ with (zlen bs) by lia. by rewrite (aget_Some _ _ _ (lookupZ_snoc bs 0)).
Qed.

Lemma convertCounted_eq bs to : Forall (λ b, 0 < b) bs → convertCounted bs (zlen bs) to = convert8 (bs ++ [0]) to.
Proof.
  intros Hb. pose proof (zlen_nonneg bs). unfold convertCounted, convert8. apply toWCharLoopCounted_eq; [done|lia|lia|].
  rewrite length_app. cbn. unfold zlen. lia.
Qed.

(** The conversion of a counted byte string without zeros, which may end within a
    codepoint, is that of the zero-terminated string, for any buffer; it never reads at or
    past the count. *)
Theorem counted_equivalent bs to :
  Forall (λ b, 0 < b) bs →
  convertCounted bs (zlen bs) to = convert8 (bs ++ [0]) to ∧ toWCharCounted bs (zlen bs) = toWChar (bs ++ [0]).
Proof.
  intros Hb. pose proof (λ to, convertCounted_eq bs to Hb) as E. split; [apply E|]. unfold toWCharCounted, toWChar. rewrite E. destruct (convert8 _ []) as [[? sp]| | |]; try done.
  cbn [mbind outcome_bind]. by rewrite E.
Qed.

Lemma counted_equivalent_witness :
  convertCounted [0x41; 0xE2; 0x82] 3 [7; 7] = convert8 [0x41; 0xE2; 0x82; 0] [7; 7] ∧
  toWCharCounted [0x41; 0xE2; 0x82] 3 = Ret [0x41; 0xFFFD; 0].
Proof.
  destruct (counted_equivalent [0x41; 0xE2; 0x82] [7; 7]) as [H1 H2]; [repeat constructor|].
  split; [exact H1|]. etransitivity; [exact H2|]. vm_compute. reflexivity.
Defined.

Lemma fromWCharTLoop_units n from cps : ∀ fuel at_ to out ws,
  has_at from at_ (cps ++ [0]) → Forall (λ cp, 0 < cp < 2 ^ 31) cps → (length cps < fuel)%nat →
  written n to out ws → zlen (ws ++ units16 cps) + 1 < 2 ^ 64 → 0 ≤ n ≤ zlen (ws ++ units16 cps) + 1 →
  fromWCharTLoop fuel from at_ to out = Ret (final n (ws ++ units16 cps), zlen (ws ++ units16 cps) + 1).
Proof.
  induction cps as [|cp cps IH]; intros [|fuel] at_ to out ws Hf Hcp Hfuel Hw Hb Hn; try (cbn in Hfuel; lia); cbn [fromWCharTLoop].
  - apply has_at_cons in Hf as [H0 _]. rewrite (aget_Some _ _ _ H0). cbn [mbind outcome_bind]. rewrite Z.eqb_refl.
    unfold units16 in *. cbn [fmap list_fmap concat] in *. rewrite app_nil_r in *. by rewrite (TERMINATE_final n to out ws).
  - inversion Hcp as [|? ? Hc Hcps]; subst. cbn [app] in Hf. apply has_at_cons in Hf as [Hx Hf2].
    rewrite (aget_Some _ _ _ Hx). cbn [mbind outcome_bind]. destruct (Z.eqb_spec cp 0); [lia|].
    rewrite u32_small by zsolve. pose proof (write16_written n to out ws cp Hw) as Hw'. fold (enc16 cp) in Hw'.
    destruct (write16 to out cp) as [to' out']. unfold units16 in *. cbn [fmap list_fmap concat] in *. rewrite app_assoc in *.
    pose proof (enc16_length cp). pose proof (zlen_nonneg (concat (enc16 <$> cps))). rewrite !zlen_app in Hb.
    apply IH; try done; [cbn in Hfuel; lia|apply Hw'; lia|rewrite !zlen_app; lia].
Qed.

(** Strings of [wchar_t] become the UTF-16 units of their codepoints. *)
Theorem toWCharT_units cps :
  Forall (λ cp, 0 < cp < 2 ^ 31) cps → zlen (units16 cps) + 1 < 2 ^ 64 →
  toWCharT (cps ++ [0]) = Ret (units16 cps ++ [0]).
Proof.
  intros Hc Hb. apply (two_pass (convertWCharT (cps ++ [0]))). intros to Hto. unfold convertWCharT.
  apply (fromWCharTLoop_units (zlen to) _ cps _ 0 to 0 []); try done.
  - apply has_at_all.
  - rewrite length_app. cbn. lia.
  - split; [done|]. split; [done|]. intros i Hi. change (zlen (@nil Z)) with 0 in Hi. lia.
  - cbn [app]. split; [apply zlen_nonneg|done].
Qed.
