(* ===== verification/InlineSet.v ===== *)
(** * Inline sets

    [OS/InlineSet.h]: a set as a doubly linked list within its elements, which the garbage
    collector iterates through while the thread that changes it is stopped between two
    instructions.

    Elements are pointers into a heap of nodes ([SetMember]: the [prev] and [next] fields);
    [None] is null.  [insert] and [erase] return all the states the memory goes through: the
    state before the call and the one after each write. *)

From stdpp Require Import base list numbers decidable option gmap.
From Stdlib Require Import ZArith Lia.
From S2P Require Import Prelude.

Module InlineSet.

Abbreviation ptr := (option positive).

(** [SetMember] *)
Record Node := mkNode { prev : ptr; next : ptr }.

Record State := mkState {
  heap : gmap positive Node;
  first : ptr;
  last : ptr;
  size : Z;
}.

(** [SetMember()], [inASet] *)
Definition newMember : Node := mkNode None None.
Definition inASet (n : Node) : bool := bool_decide (next n ≠ None) || bool_decide (prev n ≠ None).

(** Reads and writes of fields; a pointer to no node faults. *)
Definition node (s : State) (p : positive) : outcome Node :=
  match heap s !! p with Some n => Ret n | None => Fault end.
Definition setNext (s : State) (p : positive) (x : ptr) : outcome State :=
  n ← node s p; Ret (mkState (<[p := mkNode (prev n) x]> (heap s)) (first s) (last s) (size s)).
Definition setPrev (s : State) (p : positive) (x : ptr) : outcome State :=
  n ← node s p; Ret (mkState (<[p := mkNode x (next n)]> (heap s)) (first s) (last s) (size s)).
Definition setFirst (s : State) (x : ptr) : State := mkState (heap s) x (last s) (size s).
Definition setLast (s : State) (x : ptr) : State := mkState (heap s) (first s) x (size s).
Definition setSize (s : State) (n : Z) : State := mkState (heap s) (first s) (last s) n.

(** [InlineSet()], on the heap of its elements. *)
Definition new (h : gmap positive Node) : State := mkState h None None 0.

(** [insert(item)] *)
Definition insert (s : State) (item : positive) : outcome (list State) :=
  let s1 := setSize s (u32 (size s + 1)) in
  n ← node s1 item;
  assert (bool_decide (prev n = None));;
  assert (bool_decide (next n = None));;
  s2 ← setPrev s1 item (last s1);
  s3 ← setNext s2 item None;
  s4 ← match last s3 with Some l => setNext s3 l (Some item) | None => Ret s3 end;
  let s5 := match first s4 with None => setFirst s4 (Some item) | Some _ => s4 end in
  let s6 := setLast s5 (Some item) in
  Ret [s; s1; s2; s3; s4; s5; s6].

(** [erase(item)] *)
Definition erase (s : State) (item : positive) : outcome (list State) :=
  assert (0 <? size s);;
  let s1 := setSize s (u32 (size s - 1)) in
  n ← node s1 item;
  let s2 := if bool_decide (first s1 = Some item) then setFirst s1 (next n) else s1 in
  n ← node s2 item;
  let s3 := if bool_decide (last s2 = Some item) then setLast s2 (prev n) else s2 in
  n ← node s3 item;
  s4 ← match prev n with Some p => setNext s3 p (next n) | None => Ret s3 end;
  n ← node s4 item;
  s5 ← match next n with Some p => setPrev s4 p (prev n) | None => Ret s4 end;
  s6 ← setNext s5 item None;
  s7 ← setPrev s6 item None;
  Ret [s; s1; s2; s3; s4; s5; s6; s7].

(** The memory when a call returns. *)
Definition after (states : outcome (list State)) : outcome State :=
  l ← states; match list.last l with Some s => Ret s | None => Fault end.

Fixpoint clearLoop (fuel : nat) (s : State) (current : ptr) : outcome State :=
  match fuel with
  | O => OutOfFuel
  | S fuel =>
      match current with
      | None => Ret s
      | Some p =>
          n ← node s p;
          s ← setPrev s p None;
          s ← setNext s p None;
          clearLoop fuel s (next n)
      end
  end.

(** [clear()], also the destructor. *)
Definition clear (s : State) : outcome State :=
  s ← clearLoop (S (base.size (heap s))) s (first s);
  Ret (setSize (setLast (setFirst s None) None) 0).

Definition empty (s : State) : bool := bool_decide (first s = None) && bool_decide (last s = None).
Definition any (s : State) : bool := negb (empty s).
Definition count (s : State) : Z := size s.

(** [class iterator]: the element and the one after it. *)
Record iterator := mkIterator { at_ : ptr; nextAt : ptr }.

Definition iteratorOf (s : State) (p : ptr) : outcome iterator :=
  match p with
  | Some q => n ← node s q; Ret (mkIterator p (next n))
  | None => Ret (mkIterator None None)
  end.
Definition begin (s : State) : outcome iterator := iteratorOf s (first s).
Definition end_ (s : State) : outcome iterator := iteratorOf s None.

(** [operator ++] *)
Definition increment (s : State) (it : iterator) : outcome iterator :=
  match nextAt it with
  | Some q => n ← node s q; Ret (mkIterator (nextAt it) (next n))
  | None => Ret (mkIterator None None)
  end.
Definition postIncrement (s : State) (it : iterator) : outcome (iterator * iterator) :=
  it' ← increment s it; Ret (it, it').
Definition iterEq (a b : iterator) : bool := bool_decide (at_ a = at_ b).

(** [for (i = begin(); i != end(); ++i)] with a [return] in the body. *)
Fixpoint containsLoop (fuel : nat) (s : State) (it e : iterator) (item : positive) : outcome bool :=
  match fuel with
  | O => OutOfFuel
  | S fuel =>
      if iterEq it e then Ret false
      else if bool_decide (at_ it = Some item) then Ret true
      else it ← increment s it; containsLoop fuel s it e item
  end.

Definition contains (s : State) (item : positive) : outcome bool :=
  it ← begin s; e ← end_ s; containsLoop (S (base.size (heap s))) s it e item.
End InlineSet.
