(* ===== verification/InlineSetCorrect.v ===== *)
(** * Inline sets: correctness

    The elements form a doubly linked list ([set_rep]).  [insert] and [erase] keep it, every
    intermediate state of the memory can be iterated through, and a loop may erase the
    element it is at.  A sequence of calls behaves as operations on a list without
    duplicates. *)

From stdpp Require Import base list numbers decidable option gmap fin_maps.
From Stdlib Require Import ZArith Lia.
From S2P Require Import Prelude InlineSet.

Import InlineSet.

Implicit Types (h : gmap positive Node) (xs ys : list positive) (p n : ptr) (s : State).

(** ** List segments *)

(** The first element of [xs], or what follows it; the last one, or what is before it. *)
Definition hd xs n : ptr := match xs with [] => n | x :: _ => Some x end.
Fixpoint lst p xs : ptr := match xs with [] => p | x :: xs => lst (Some x) xs end.

(** [xs] is linked in both directions, between [p] and [n]. *)
Fixpoint dll h p xs n : Prop :=
  match xs with
  | [] => True
  | x :: xs => h !! x = Some (mkNode p (hd xs n)) ∧ dll h (Some x) xs n
  end.

(** [xs] is linked forwards, up to [n]. *)
Fixpoint fwd h xs n : Prop :=
  match xs with
  | [] => True
  | x :: xs => (∃ p, h !! x = Some (mkNode p (hd xs n))) ∧ fwd h xs n
  end.

Lemma hd_app xs ys n : hd (xs ++ ys) n = hd xs (hd ys n).
Proof. by destruct xs. Qed.

Lemma lst_app p xs ys : lst p (xs ++ ys) = lst (lst p xs) ys.
Proof. revert p. induction xs; simpl; auto. Qed.

Lemma lst_snoc p xs x : lst p (xs ++ [x]) = Some x.
Proof. by rewrite lst_app. Qed.

Lemma dll_app h p xs ys n :
  dll h p (xs ++ ys) n ↔ dll h p xs (hd ys n) ∧ dll h (lst p xs) ys n.
Proof.
  revert p. induction xs as [|x xs IH]; intros p; simpl; [naive_solver|].
  rewrite IH, hd_app. naive_solver.
Qed.

Lemma dll_frame h p xs n z v : z ∉ xs → dll h p xs n → dll (<[z := v]> h) p xs n.
Proof.
  revert p. induction xs as [|x xs IH]; intros p Hz; simpl; [done|].
  apply not_elem_of_cons in Hz as [? ?]. intros [? ?]. split; [|by apply IH].
  by rewrite lookup_insert_ne.
Qed.

Lemma fwd_frame h xs n z v : z ∉ xs → fwd h xs n → fwd (<[z := v]> h) xs n.
Proof.
  induction xs as [|x xs IH]; intros Hz; simpl; [done|].
  apply not_elem_of_cons in Hz as [? ?]. intros [? ?]. split; [|by apply IH].
  by rewrite lookup_insert_ne.
Qed.

Lemma fwd_app h xs ys n : fwd h (xs ++ ys) n ↔ fwd h xs (hd ys n) ∧ fwd h ys n.
Proof.
  induction xs as [|x xs IH]; simpl; [naive_solver|]. rewrite IH, hd_app. naive_solver.
Qed.

Lemma dll_fwd h p xs n : dll h p xs n → fwd h xs n.
Proof. revert p. induction xs as [|x xs IH]; simpl; naive_solver. Qed.

Lemma dll_dom h p xs n x : dll h p xs n → x ∈ xs → x ∈ dom h.
Proof.
  intros H Hx. apply list_elem_of_split in Hx as (l1&l2&->).
  apply dll_app in H as [_ [H _]]. by apply elem_of_dom_2 in H.
Qed.

Lemma fwd_dom h xs n x : fwd h xs n → x ∈ xs → x ∈ dom h.
Proof.
  intros H Hx. apply list_elem_of_split in Hx as (l1&l2&->).
  apply fwd_app in H as [_ [[? H] _]]. by apply elem_of_dom_2 in H.
Qed.

(** Elements without duplicates are at most as many as the nodes: the fuel of the loops is
    enough. *)
Lemma nodup_size h xs : NoDup xs → (∀ x, x ∈ xs → x ∈ dom h) → (length xs ≤ base.size h)%nat.
Proof.
  intros Hnd Hd. rewrite <- (size_list_to_set (C := gset positive) xs) by done.
  rewrite <- (size_dom h). apply subseteq_size. intros x. rewrite elem_of_list_to_set. apply Hd.
Qed.

(** ** Iteration *)

(** The elements a loop [for (i = begin(); i != end(); ++i)] goes through. *)
Fixpoint visitLoop (fuel : nat) s (it e : iterator) : outcome (list positive) :=
  match fuel with
  | O => OutOfFuel
  | S fuel =>
      if iterEq it e then Ret []
      else match at_ it with
           | Some x => it ← increment s it; xs ← visitLoop fuel s it e; Ret (x :: xs)
           | None => Fault
           end
  end.
Definition visit s : outcome (list positive) :=
  it ← begin s; e ← end_ s; visitLoop (S (base.size (heap s))) s it e.

(** The iterator at the first of the elements [xs]. *)
Definition iter_at xs : iterator := mkIterator (hd xs None) (hd (tail xs) None).

Lemma iteratorOf_fwd s xs : fwd (heap s) xs None → iteratorOf s (hd xs None) = Ret (iter_at xs).
Proof. destruct xs as [|x xs]; [done|]. intros [[p H] _]. simpl. unfold node. by rewrite H. Qed.

Lemma increment_fwd s x xs :
  fwd (heap s) xs None → increment s (iter_at (x :: xs)) = Ret (iter_at xs).
Proof.
  destruct xs as [|y xs]; [done|]. intros [[p H] _]. unfold increment. simpl. unfold node.
  by rewrite H.
Qed.

Lemma visitLoop_fwd fuel s xs :
  (length xs < fuel)%nat → fwd (heap s) xs None →
  visitLoop fuel s (iter_at xs) (mkIterator None None) = Ret xs.
Proof.
  revert fuel. induction xs as [|x xs IH]; intros [|fuel] Hf H; simpl in Hf; try lia; [done|].
  cbn [visitLoop]. unfold iterEq. simpl. destruct H as [_ H].
  rewrite (increment_fwd s x xs H). cbn. by rewrite (IH fuel) by (done || lia).
Qed.

Lemma visit_fwd s xs :
  NoDup xs → first s = hd xs None → fwd (heap s) xs None → visit s = Ret xs.
Proof.
  intros Hnd Hf H. unfold visit, begin. rewrite Hf, (iteratorOf_fwd s xs H). cbn [mbind outcome_bind end_ iteratorOf].
  apply visitLoop_fwd; [|done].
  pose proof (nodup_size (heap s) xs Hnd ltac:(eauto using fwd_dom)). lia.
Qed.

(** ** The representation *)

Record set_rep s xs : Prop := {
  rep_nodup : NoDup xs;
  rep_first : first s = hd xs None;
  rep_last : last s = lst None xs;
  rep_links : dll (heap s) None xs None;
  rep_size : InlineSet.size s = u32 (zlen xs);
}.

Lemma rep_visit s xs : set_rep s xs → visit s = Ret xs.
Proof. intros []. apply visit_fwd; eauto using dll_fwd. Qed.

(** ** Insertion *)

(** What an iteration between two instructions may see. *)
Definition sees (before after : list positive) s : Prop :=
  visit s = Ret before ∨ visit s = Ret after.

Lemma hd_not_nil xs ys n : xs ≠ [] → hd (xs ++ ys) n = hd xs None ∧ hd xs None ≠ None.
Proof. by destruct xs. Qed.

Lemma node_lookup s x nd : heap s !! x = Some nd → node s x = Ret nd.
Proof. unfold node. by intros ->. Qed.

(** Setting the [next] of the last element. *)
Lemma fwd_link h ys l p n m :
  l ∉ ys → fwd h (ys ++ [l]) n → fwd (<[l := mkNode p m]> h) (ys ++ [l]) m.
Proof.
  intros Hl. rewrite !fwd_app. intros [H _]. split; [by apply fwd_frame|].
  simpl. rewrite lookup_insert_eq. eauto.
Qed.

Lemma dll_link h q ys l n m :
  l ∉ ys → dll h q (ys ++ [l]) n → dll (<[l := mkNode (lst q ys) m]> h) q (ys ++ [l]) m.
Proof.
  intros Hl. rewrite !dll_app. intros [H _]. split; [by apply dll_frame|].
  simpl. by rewrite lookup_insert_eq.
Qed.

Lemma inline_insert_spec s xs item :
  set_rep s xs → heap s !! item = Some newMember → item ∉ xs →
  returns (insert s item) (λ sts,
    Forall (sees xs (xs ++ [item])) sts ∧
    ∃ s', list.last sts = Some s' ∧ set_rep s' (xs ++ [item]) ∧
      ∀ x, x ∉ xs → x ≠ item → heap s' !! x = heap s !! x).
Proof.
  intros Hr Hn Hi. pose proof (rep_visit s xs Hr) as Hv. destruct Hr as [Hnd Hf Hl Hd Hs].
  assert (NoDup (xs ++ [item])) as Hnd' by (apply NoDup_app; repeat split; [done|set_solver|apply NoDup_singleton]).
  pose proof (dll_fwd _ _ _ _ Hd) as Hw.
  unfold insert, setPrev, setNext, node, setSize. cbn [heap first last InlineSet.size]. rewrite Hn. cbn [mbind outcome_bind].
  unfold newMember. cbn. rewrite !lookup_insert_eq. cbn. rewrite insert_insert_eq.
  assert (u32 (InlineSet.size s + 1) = u32 (zlen (xs ++ [item]))) as Hs'.
  { rewrite Hs, zlen_app. unfold u32. by rewrite Zplus_mod_idemp_l. }
  destruct xs as [|l ys _] using rev_ind.
  - simpl in Hf, Hl. rewrite Hf, Hl. cbn. split.
    + rewrite !Forall_cons, Forall_nil. split_and!; try done; try (by left; apply visit_fwd);
        right; apply visit_fwd; try done; simpl; rewrite lookup_insert_eq; eauto.
    + eexists. split; [done|]. split; [constructor; try done; simpl; by rewrite lookup_insert_eq|].
      intros x _ ?. simpl. by rewrite lookup_insert_ne.
  - rewrite lst_snoc in Hl. rewrite Hl. cbn.
    apply not_elem_of_app in Hi as [Hi Hil]. assert (l ≠ item) as Hli by set_solver.
    assert (l ∉ ys) as Hly by (apply NoDup_app in Hnd; set_solver).
    pose proof Hd as [_ [Hln _]]%dll_app.
    rewrite lookup_insert_ne by done. rewrite Hln. cbn.
    destruct (hd_not_nil (ys ++ [l]) [item] None) as [Hh Hne]; [by destruct ys|].
    rewrite <- Hf in Hne. destruct (first s) as [fs|] eqn:Hfs; [|done]. clear Hne.
    set (v := mkNode (Some l) None). set (h' := <[l := _]> (<[item := v]> (heap s))).
    assert (dll h' None ((ys ++ [l]) ++ [item]) None) as Hd'.
    { apply dll_app. split; [|rewrite lst_snoc; simpl; unfold h'; by rewrite lookup_insert_ne, lookup_insert_eq].
      apply dll_link with None; [done|]. apply dll_frame; set_solver. }
    split.
    + rewrite !Forall_cons, Forall_nil. split_and!; try done.
      all: try (left; apply visit_fwd; simpl; [done|congruence|solve [done|apply fwd_frame; [set_solver|done]]]).
      all: right; apply visit_fwd; simpl; [done|congruence|by eapply dll_fwd].
    + eexists. split; [done|]. split.
      * constructor; simpl; [done|congruence|by rewrite lst_snoc|done|done].
      * intros x Hx ?. simpl. unfold h'. rewrite !lookup_insert_ne; set_solver.
Qed.

(** ** Removal *)

(** The links around the removed element. *)
Definition relinkNext h (l1 : list positive) (x : ptr) : gmap positive Node :=
  match lst None l1 with
  | Some p => alter (λ nd, mkNode (prev nd) x) p h
  | None => h
  end.
Definition relinkPrev h (l2 : list positive) (x : ptr) : gmap positive Node :=
  match hd l2 None with
  | Some q => alter (λ nd, mkNode x (next nd)) q h
  | None => h
  end.

Lemma alter_insert h x f nd : h !! x = Some nd → alter f x h = <[x := f nd]> h.
Proof.
  intros Hx. apply map_eq. intros y. destruct (decide (x = y)) as [->|].
  - by rewrite lookup_alter_eq, lookup_insert_eq, Hx.
  - by rewrite lookup_alter_ne, lookup_insert_ne.
Qed.

Lemma dll_alter h p xs n z f : z ∉ xs → dll h p xs n → dll (alter f z h) p xs n.
Proof.
  revert p. induction xs as [|x xs IH]; intros p Hz; simpl; [done|].
  apply not_elem_of_cons in Hz as [? ?]. intros [? ?]. split; [|by apply IH].
  by rewrite lookup_alter_ne.
Qed.

Lemma lst_nil_or xs : xs = [] ∨ ∃ l x, xs = l ++ [x].
Proof. destruct xs as [|x l _] using rev_ind; eauto. Qed.

Lemma relinkNext_dll h l1 n x :
  NoDup l1 → dll h None l1 n → dll (relinkNext h l1 x) None l1 x.
Proof.
  destruct (lst_nil_or l1) as [->|(l&p&->)]; [done|]. intros Hnd Hd.
  unfold relinkNext. rewrite lst_snoc. assert (p ∉ l) by (apply NoDup_app in Hnd; set_solver).
  apply dll_app in Hd as [Hd Hp]. apply dll_app. split; [by apply dll_alter|].
  destruct Hp as [Hp _]. split; [|done]. by rewrite lookup_alter_eq, Hp.
Qed.

Lemma relinkNext_frame h l1 x p ys n :
  (∀ z, z ∈ l1 → z ∉ ys) → dll h p ys n → dll (relinkNext h l1 x) p ys n.
Proof.
  destruct (lst_nil_or l1) as [->|(l&q&->)]; [done|]. intros Hz Hd. unfold relinkNext.
  rewrite lst_snoc. apply dll_alter; [apply Hz; set_solver|done].
Qed.

Lemma relinkPrev_dll h p l2 n x :
  NoDup l2 → dll h p l2 n → dll (relinkPrev h l2 x) x l2 n.
Proof.
  destruct l2 as [|q l]; [done|]. intros [? ?]%NoDup_cons [Hq Hd]. unfold relinkPrev. simpl.
  rewrite lookup_alter_eq, Hq. split; [done|]. by apply dll_alter.
Qed.

Lemma relinkPrev_frame h l2 x p ys n :
  (∀ z, z ∈ l2 → z ∉ ys) → dll h p ys n → dll (relinkPrev h l2 x) p ys n.
Proof.
  destruct l2 as [|q l]; [done|]. intros Hz Hd. apply dll_alter; [apply Hz; set_solver|done].
Qed.

(** A change of [prev] is not seen by a loop. *)
Lemma relinkPrev_fwd h l2 x ys n : fwd h ys n → fwd (relinkPrev h l2 x) ys n.
Proof.
  unfold relinkPrev. destruct (hd l2 None) as [q|]; [|done].
  induction ys as [|y ys IH]; [done|]. intros [[p Hy] Hw]. split; [|by apply IH].
  destruct (decide (q = y)) as [->|].
  - rewrite lookup_alter_eq, Hy. simpl. eauto.
  - rewrite lookup_alter_ne by done. eauto.
Qed.

Lemma relinkNext_other h l1 x y : y ∉ l1 → relinkNext h l1 x !! y = h !! y.
Proof.
  destruct (lst_nil_or l1) as [->|(l&p&->)]; [done|]. intros Hy. unfold relinkNext.
  rewrite lst_snoc. apply lookup_alter_ne. set_solver.
Qed.

Lemma relinkPrev_other h l2 x y : y ∉ l2 → relinkPrev h l2 x !! y = h !! y.
Proof. destruct l2 as [|q l]; [done|]. intros Hy. apply lookup_alter_ne. set_solver. Qed.

Lemma setFirst_if (b : bool) h f l z x :
  (if b then setFirst (mkState h f l z) x else mkState h f l z) = mkState h (if b then x else f) l z.
Proof. by destruct b. Qed.

Lemma setLast_if (b : bool) h f l z x :
  (if b then setLast (mkState h f l z) x else mkState h f l z) = mkState h f (if b then x else l) z.
Proof. by destruct b. Qed.

Lemma setNext_relink h l1 n f l z x :
  dll h None l1 n →
  match lst None l1 with Some p => setNext (mkState h f l z) p x | None => Ret (mkState h f l z) end
  = Ret (mkState (relinkNext h l1 x) f l z).
Proof.
  unfold relinkNext. destruct (lst_nil_or l1) as [->|(k&p&->)]; [done|]. rewrite lst_snoc.
  intros [_ [Hp _]]%dll_app. unfold setNext, node. simpl. rewrite Hp. simpl.
  by rewrite (alter_insert _ _ _ _ Hp).
Qed.

Lemma setPrev_relink h p l2 n f l z x :
  dll h p l2 n →
  match hd l2 None with Some q => setPrev (mkState h f l z) q x | None => Ret (mkState h f l z) end
  = Ret (mkState (relinkPrev h l2 x) f l z).
Proof.
  unfold relinkPrev. destruct l2 as [|q l2]; [done|]. intros [Hq _]. simpl.
  unfold setPrev, node. simpl. rewrite Hq. simpl. by rewrite (alter_insert _ _ _ _ Hq).
Qed.

(** The states [erase] goes through. *)
Lemma erase_run s l1 item l2 :
  set_rep s (l1 ++ item :: l2) → zlen (l1 ++ item :: l2) < 2 ^ 32 →
  let f := hd (l1 ++ l2) None in let l := lst None (l1 ++ l2) in
  let z := zlen (l1 ++ l2) in
  let h4 := relinkNext (heap s) l1 (hd l2 None) in
  let h5 := relinkPrev h4 l2 (lst None l1) in
  erase s item = Ret [s; mkState (heap s) (first s) (last s) z; mkState (heap s) f (last s) z;
    mkState (heap s) f l z; mkState h4 f l z; mkState h5 f l z;
    mkState (<[item := mkNode (lst None l1) None]> h5) f l z;
    mkState (<[item := mkNode None None]> h5) f l z].
Proof.
  intros [Hnd Hf Hl Hd Hs] Hz f l z h4 h5.
  assert (zlen (l1 ++ item :: l2) = z + 1) as Hz' by (unfold z; rewrite !zlen_app, zlen_cons; lia).
  assert (0 ≤ z) by apply zlen_nonneg. rewrite Hz' in *. clearbody z.
  rewrite u32_small in Hs by (unfold is_u32; lia).
  assert ((item ∉ l1) ∧ (item ∉ l2)) as [Hi1 Hi2].
  { apply NoDup_app in Hnd as (?&?&Hc). apply NoDup_cons in Hc. set_solver. }
  pose proof Hd as [Hd1 [Hn Hd2]]%dll_app.
  assert (∀ y, y ∈ l1 → y ∉ l2) as Hdj by (apply NoDup_app in Hnd; set_solver).
  assert ((if bool_decide (first s = Some item) then hd l2 None else first s) = f) as Hf'.
  { rewrite Hf. unfold f. destruct l1 as [|y l1]; simpl; [by rewrite bool_decide_true|].
    rewrite bool_decide_false; [done|]. set_solver. }
  assert ((if bool_decide (last s = Some item) then lst None l1 else last s) = l) as Hl'.
  { rewrite Hl. unfold l. rewrite !lst_app. simpl.
    destruct (lst_nil_or l2) as [->|(k&y&->)]; simpl; [by rewrite bool_decide_true|].
    rewrite !lst_snoc. rewrite bool_decide_false; [done|]. set_solver. }
  assert (h4 !! item = Some (mkNode (lst None l1) (hd l2 None))) as H4.
  { unfold h4. by rewrite relinkNext_other. }
  assert (h5 !! item = Some (mkNode (lst None l1) (hd l2 None))) as H5.
  { unfold h5. by rewrite relinkPrev_other. }
  unfold erase. rewrite Hs.
  replace (0 <? z + 1) with true by lia. cbn [assert mbind outcome_bind].
  replace (u32 (z + 1 - 1)) with z by (rewrite u32_small; unfold is_u32; lia).
  pose proof (node_lookup (mkState (heap s) (first s) (last s) z) item _ Hn) as Hn1.
  pose proof (node_lookup (mkState (heap s) f (last s) z) item _ Hn) as Hn2.
  pose proof (node_lookup (mkState (heap s) f l z) item _ Hn) as Hn3.
  pose proof (node_lookup (mkState h4 f l z) item _ H4) as Hn4.
  pose proof (node_lookup (mkState h5 f l z) item _ H5) as Hn5.
  unfold setSize. rewrite Hn1. cbn [mbind outcome_bind next prev first]. rewrite setFirst_if, Hf', Hn2.
  cbn [mbind outcome_bind next prev last]. rewrite setLast_if, Hl', Hn3.
  cbn [mbind outcome_bind next prev]. rewrite (setNext_relink _ _ _ _ _ _ _ Hd1). fold h4.
  cbn [mbind outcome_bind]. rewrite Hn4. cbn [mbind outcome_bind next prev].
  rewrite (setPrev_relink _ (Some item) _ None) by (apply relinkNext_frame; [|done]; set_solver). fold h5.
  cbn [mbind outcome_bind]. unfold setNext. rewrite Hn5. cbn [mbind outcome_bind next prev heap first last InlineSet.size].
  unfold setPrev, node. cbn [heap]. rewrite lookup_insert_eq.
  cbn [mbind outcome_bind next prev heap first last InlineSet.size]. by rewrite insert_insert_eq.
Qed.

Lemma erase_dll h l1 item l2 v :
  NoDup (l1 ++ item :: l2) → dll h None (l1 ++ item :: l2) None →
  dll (<[item := v]> (relinkPrev (relinkNext h l1 (hd l2 None)) l2 (lst None l1))) None (l1 ++ l2) None.
Proof.
  intros Hnd [Hd1 [_ Hd2]]%dll_app. apply NoDup_app in Hnd as (?&?&Hc). apply NoDup_cons in Hc.
  apply dll_frame; [set_solver|]. apply dll_app. split.
  - apply relinkPrev_frame; [set_solver|]. by eapply relinkNext_dll.
  - eapply relinkPrev_dll; [naive_solver|]. apply relinkNext_frame; [set_solver|done].
Qed.

Lemma erase_fwd h l1 item l2 :
  NoDup (l1 ++ item :: l2) → dll h None (l1 ++ item :: l2) None →
  fwd (relinkNext h l1 (hd l2 None)) (l1 ++ l2) None.
Proof.
  intros Hnd [Hd1 [_ Hd2]]%dll_app. apply NoDup_app in Hnd as (?&?&Hc). apply NoDup_cons in Hc.
  apply fwd_app. split; eapply dll_fwd.
  - by eapply relinkNext_dll.
  - apply relinkNext_frame; [set_solver|done].
Qed.

(** The state in which [first] is written and the links are not: if the element was the
    first one, the loop starts at the second, else it sees all. *)
Lemma erase_first_sees h l1 item l2 l z :
  NoDup (l1 ++ item :: l2) → dll h None (l1 ++ item :: l2) None →
  sees (l1 ++ item :: l2) (l1 ++ l2) (mkState h (hd (l1 ++ l2) None) l z).
Proof.
  intros Hnd Hd. destruct l1 as [|y l1].
  - right. apply visit_fwd; simpl; [by apply NoDup_cons in Hnd as [_ ?]|done|]. destruct Hd as [_ Hd]. by eapply dll_fwd.
  - left. apply visit_fwd; [done|done|]. by eapply dll_fwd.
Qed.

Lemma inline_erase_spec s l1 item l2 :
  set_rep s (l1 ++ item :: l2) → zlen (l1 ++ item :: l2) < 2 ^ 32 →
  returns (erase s item) (λ sts,
    Forall (sees (l1 ++ item :: l2) (l1 ++ l2)) sts ∧
    ∃ s', list.last sts = Some s' ∧ set_rep s' (l1 ++ l2) ∧ heap s' !! item = Some newMember ∧
      ∀ x, x ∉ l1 ++ item :: l2 → heap s' !! x = heap s !! x).
Proof.
  intros Hr Hz. rewrite (erase_run s l1 item l2 Hr Hz). simpl.
  pose proof (rep_visit _ _ Hr) as Hv. destruct Hr as [Hnd Hf Hl Hd Hs].
  set (f := hd (l1 ++ l2) None). set (l := lst None (l1 ++ l2)). set (z := zlen (l1 ++ l2)).
  pose proof (erase_fwd _ _ _ _ Hnd Hd) as Hw. set (h4 := relinkNext _ _ _) in *.
  pose proof (λ v, erase_dll _ _ _ _ v Hnd Hd) as Hd'. fold h4 in Hd'.
  set (h5 := relinkPrev _ _ _) in *.
  assert (NoDup (l1 ++ l2)) as Hnd'.
  { apply NoDup_app in Hnd as (?&?&Hc). apply NoDup_cons in Hc. apply NoDup_app; set_solver. }
  split.
  - rewrite !Forall_cons, Forall_nil. split_and!; try done.
    1: by left. 1: left; apply visit_fwd; simpl; [done|done|by eapply dll_fwd].
    1,2: by apply erase_first_sees.
    all: right; apply visit_fwd; simpl; [done|done|].
    + done.
    + by apply relinkPrev_fwd.
    + by eapply dll_fwd.
    + by eapply dll_fwd.
  - eexists. split; [done|]. split_and!.
    + constructor; simpl; try done. symmetry. apply u32_small. unfold is_u32, z in *.
      pose proof (zlen_nonneg (l1 ++ l2)). rewrite zlen_app, zlen_cons in Hz. rewrite zlen_app in *. lia.
    + simpl. by rewrite lookup_insert_eq.
    + intros x Hx. simpl. rewrite lookup_insert_ne by set_solver. unfold h5, h4.
      rewrite relinkPrev_other, relinkNext_other; set_solver.
Qed.

(** ** The other operations *)

Lemma containsLoop_spec fuel s xs item :
  (length xs < fuel)%nat → fwd (heap s) xs None →
  containsLoop fuel s (iter_at xs) (mkIterator None None) item = Ret (bool_decide (item ∈ xs)).
Proof.
  revert fuel. induction xs as [|x xs IH]; intros [|fuel] Hf H; simpl in Hf; try lia.
  { done. }
  destruct H as [_ H]. cbn [containsLoop]. unfold iterEq. cbn [at_ iter_at hd].
  rewrite (bool_decide_false (Some x = None)) by done.
  destruct (decide (x = item)) as [->|Hx].
  { by rewrite !bool_decide_true by (done || apply list_elem_of_here). }
  rewrite bool_decide_false by congruence.
  rewrite increment_fwd by done. cbn [mbind outcome_bind]. rewrite (IH fuel) by (done || lia).
  f_equal. apply bool_decide_ext. set_solver.
Qed.

Lemma contains_spec s xs item : set_rep s xs → contains s item = Ret (bool_decide (item ∈ xs)).
Proof.
  intros [Hnd Hf _ Hd _]. pose proof (dll_fwd _ _ _ _ Hd) as Hw. unfold contains, begin.
  rewrite Hf, (iteratorOf_fwd s xs Hw). cbn [mbind outcome_bind end_ iteratorOf].
  apply containsLoop_spec; [|done].
  pose proof (nodup_size (heap s) xs Hnd ltac:(eauto using fwd_dom)). lia.
Qed.

Lemma clearLoop_spec fuel s xs :
  (length xs < fuel)%nat → NoDup xs → fwd (heap s) xs None →
  ∃ h, clearLoop fuel s (hd xs None) = Ret (mkState h (first s) (last s) (InlineSet.size s)) ∧
    (∀ x, x ∈ xs → h !! x = Some newMember) ∧ (∀ x, x ∉ xs → h !! x = heap s !! x).
Proof.
  revert fuel s. induction xs as [|x xs IH]; intros [|fuel] s Hf Hnd H; simpl in Hf; try lia.
  { exists (heap s). destruct s. split_and!; set_solver. }
  apply NoDup_cons in Hnd as [Hx Hnd]. destruct H as [[p Hp] H]. cbn [clearLoop hd].
  rewrite (node_lookup _ _ _ Hp). cbn [mbind outcome_bind].
  unfold setPrev, setNext. rewrite (node_lookup _ _ _ Hp). cbn [mbind outcome_bind].
  unfold node. cbn [heap]. rewrite lookup_insert_eq. cbn [mbind outcome_bind next prev first last InlineSet.size].
  rewrite insert_insert_eq.
  destruct (IH fuel (mkState (<[x := mkNode None None]> (heap s)) (first s) (last s) (InlineSet.size s)))
    as (h&->&Hin&Hout); [lia|done|by apply fwd_frame|].
  exists h. split; [done|]. split.
  - intros y [->|?]%elem_of_cons; [|by apply Hin]. rewrite Hout by done. cbn. by rewrite lookup_insert_eq.
  - intros y [? ?]%not_elem_of_cons. rewrite Hout by done. cbn. by rewrite lookup_insert_ne.
Qed.

Lemma clear_spec s xs :
  set_rep s xs →
  returns (clear s) (λ s', set_rep s' [] ∧ (∀ x, x ∈ xs → heap s' !! x = Some newMember) ∧
    ∀ x, x ∉ xs → heap s' !! x = heap s !! x).
Proof.
  intros [Hnd Hf _ Hd _]. pose proof (dll_fwd _ _ _ _ Hd) as Hw.
  pose proof (nodup_size (heap s) xs Hnd ltac:(eauto using fwd_dom)).
  unfold clear. rewrite Hf. destruct (clearLoop_spec (S (base.size (heap s))) s xs) as (h&->&Hin&Hout); [lia|done|done|].
  cbn. split; [|done]. constructor; try done. constructor.
Qed.

Lemma lst_None p xs : lst p xs = None → xs = [] ∧ p = None.
Proof. revert p. induction xs as [|x xs IH]; intros p; [done|]. simpl. by intros [_ ?]%IH. Qed.

Lemma empty_spec s xs : set_rep s xs → empty s = bool_decide (xs = []).
Proof.
  intros [_ Hf Hl _ _]. unfold empty. rewrite Hf, Hl. destruct xs as [|x xs]; [done|]. done.
Qed.

(** ** Sequences of calls

    The elements [D] all belong to one set or to none; an element that is in none has null
    pointers. *)
Inductive op := OInsert (x : positive) | OErase (x : positive) | OClear | OContains (x : positive)
  | OCount | OEmpty | OAny.
Inductive obs := Done | Bool (b : bool) | Count (n : Z).

Definition run_op s (o : op) : outcome (State * obs) :=
  match o with
  | OInsert x => s' ← after (insert s x); Ret (s', Done)
  | OErase x => s' ← after (erase s x); Ret (s', Done)
  | OClear => s' ← clear s; Ret (s', Done)
  | OContains x => b ← contains s x; Ret (s, Bool b)
  | OCount => Ret (s, Count (count s))
  | OEmpty => Ret (s, Bool (empty s))
  | OAny => Ret (s, Bool (any s))
  end.
Fixpoint run_ops s (os : list op) : outcome (State * list obs) :=
  match os with
  | [] => Ret (s, [])
  | o :: os => '(s, r) ← run_op s o; '(s, rs) ← run_ops s os; Ret (s, r :: rs)
  end.

(** The same on the list of the elements, in the order they were inserted. *)
Definition spec_op xs (o : op) : list positive * obs :=
  match o with
  | OInsert x => (xs ++ [x], Done)
  | OErase x => (filter (.≠ x) xs, Done)
  | OClear => ([], Done)
  | OContains x => (xs, Bool (bool_decide (x ∈ xs)))
  | OCount => (xs, Count (zlen xs))
  | OEmpty => (xs, Bool (bool_decide (xs = [])))
  | OAny => (xs, Bool (bool_decide (xs ≠ [])))
  end.
Fixpoint spec_ops xs (os : list op) : list positive * list obs :=
  match os with
  | [] => (xs, [])
  | o :: os => let '(xs, r) := spec_op xs o in let '(xs, rs) := spec_ops xs os in (xs, r :: rs)
  end.

(** What the calls assume: an element is inserted when it is in no set, and erased from the
    set it is in. *)
Definition op_ok (D : gset positive) xs (o : op) : Prop :=
  match o with
  | OInsert x => x ∈ D ∧ x ∉ xs
  | OErase x => x ∈ xs
  | _ => True
  end.
#[export] Instance op_ok_dec D xs o : Decision (op_ok D xs o).
Proof. destruct o; cbn; apply _. Defined.

Fixpoint ops_ok (D : gset positive) xs (os : list op) : Prop :=
  match os with
  | [] => True
  | o :: os => op_ok D xs o ∧ ops_ok D (spec_op xs o).1 os
  end.
#[export] Instance ops_ok_dec D xs os : Decision (ops_ok D xs os).
Proof. revert xs. induction os; intros xs; cbn; apply _. Defined.

Record set_inv (D : gset positive) s xs : Prop := {
  inv_rep : set_rep s xs;
  inv_elems : ∀ x, x ∈ xs → x ∈ D;
  inv_others : ∀ x, x ∈ D → x ∉ xs → heap s !! x = Some newMember;
}.

Lemma inv_zlen D s xs : set_inv D s xs → zlen xs ≤ Z.of_nat (base.size D).
Proof.
  intros [[Hnd _ _ _ _] He _]. unfold zlen. apply inj_le.
  rewrite <- (size_list_to_set (C := gset positive) xs) by done. apply subseteq_size.
  intros x. rewrite elem_of_list_to_set. apply He.
Qed.

Lemma filter_all (l : list positive) x : x ∉ l → filter (.≠ x) l = l.
Proof.
  induction l as [|y l IH]; [done|]. intros [? ?]%not_elem_of_cons.
  rewrite filter_cons, decide_True by auto. by rewrite IH.
Qed.

Lemma filter_split (l1 l2 : list positive) x :
  x ∉ l1 → x ∉ l2 → filter (.≠ x) (l1 ++ x :: l2) = l1 ++ l2.
Proof.
  intros H1 H2. rewrite filter_app, filter_cons, decide_False by auto.
  by rewrite !filter_all.
Qed.

Lemma nodup_mid (l1 l2 : list positive) x : NoDup (l1 ++ x :: l2) → (x ∉ l1) ∧ (x ∉ l2).
Proof. intros (?&?&Hc)%NoDup_app. apply NoDup_cons in Hc. set_solver. Qed.

Lemma after_last (m : outcome (list State)) (Q : State → Prop) :
  returns m (λ sts, ∃ s, list.last sts = Some s ∧ Q s) → returns (after m) Q.
Proof. destruct m; try done. intros (s&Hs&HQ). cbn. by rewrite Hs. Qed.

Lemma insert_inv D s xs x :
  set_inv D s xs → x ∈ D → x ∉ xs →
  returns (insert s x) (λ sts, Forall (sees xs (xs ++ [x])) sts ∧
    ∃ s', list.last sts = Some s' ∧ set_inv D s' (xs ++ [x])).
Proof.
  intros [Hr He Ho] HD Hx. eapply returns_mono; [by apply inline_insert_spec; [|apply Ho|]|].
  intros sts (Hs&s'&Hl&Hr'&Hfr). split; [done|]. exists s'. split; [done|]. constructor; [done|set_solver|].
  intros y Hy Hny. rewrite Hfr by set_solver. apply Ho; set_solver.
Qed.

Lemma erase_inv D s xs x :
  set_inv D s xs → x ∈ xs → Z.of_nat (base.size D) < 2 ^ 32 →
  returns (erase s x) (λ sts, Forall (sees xs (filter (.≠ x) xs)) sts ∧
    ∃ s', list.last sts = Some s' ∧ set_inv D s' (filter (.≠ x) xs)).
Proof.
  intros Hi Hx HD. pose proof (inv_zlen _ _ _ Hi) as Hz. destruct Hi as [Hr He Ho].
  apply list_elem_of_split in Hx as (l1&l2&->). destruct (nodup_mid l1 l2 x (rep_nodup _ _ Hr)).
  rewrite filter_split by done. eapply returns_mono; [apply inline_erase_spec; [done|lia]|].
  intros sts (Hs&s'&Hl&Hr'&Hx'&Hfr). split; [done|]. exists s'. split; [done|]. constructor; [done|set_solver|].
  intros y Hy Hny. destruct (decide (y = x)) as [->|]; [done|]. rewrite Hfr by set_solver. apply Ho; set_solver.
Qed.

Lemma run_op_spec D s xs o :
  set_inv D s xs → Z.of_nat (base.size D) < 2 ^ 32 → op_ok D xs o →
  returns (run_op s o) (λ '(s', r), set_inv D s' (spec_op xs o).1 ∧ r = (spec_op xs o).2).
Proof.
  intros Hi HD Hok. pose proof (inv_rep _ _ _ Hi) as Hr. destruct o as [x|x| |x| | |]; simpl in Hok.
  - destruct Hok. eapply returns_bind; [apply after_last|intros s' Hs'; split; [exact Hs'|done]].
    eapply returns_mono; [by apply insert_inv|]. naive_solver.
  - eapply returns_bind; [apply after_last|intros s' Hs'; split; [exact Hs'|done]].
    eapply returns_mono; [by apply erase_inv|]. naive_solver.
  - eapply returns_bind; [by apply clear_spec|]. intros s' (Hr'&Hin&Hout). split; [|done].
    destruct Hi as [_ He Ho]. constructor; [done|set_solver|]. intros x Hx _.
    destruct (decide (x ∈ xs)); [by apply Hin|]. rewrite Hout by done. by apply Ho.
  - cbn [run_op]. by rewrite (contains_spec _ _ _ Hr).
  - split; [done|]. cbn. unfold count. rewrite (rep_size _ _ Hr), u32_small; [done|].
    pose proof (inv_zlen _ _ _ Hi). pose proof (zlen_nonneg xs). unfold is_u32. lia.
  - split; [done|]. cbn. by rewrite (empty_spec _ _ Hr).
  - split; [done|]. cbn. unfold any. rewrite (empty_spec _ _ Hr). by rewrite bool_decide_not.
Qed.

(** ** The properties *)

(** C34: between any two instructions of [insert] and [erase], an iteration through the set
    finishes and goes through all its elements, in order, with or without the element that is
    being inserted or removed; the call returns, and the set is then as specified. *)
Theorem iteration_safe (D : gset positive) s xs x (ins : bool) :
  set_inv D s xs → Z.of_nat (base.size D) < 2 ^ 32 →
  op_ok D xs (if ins then OInsert x else OErase x) →
  let after_ := (spec_op xs (if ins then OInsert x else OErase x)).1 in
  returns (if ins then insert s x else erase s x) (λ sts,
    Forall (λ st, visit st = Ret xs ∨ visit st = Ret after_) sts ∧
    ∃ s', list.last sts = Some s' ∧ set_inv D s' after_).
Proof.
  intros Hi HD Hok. destruct ins; simpl in Hok |- *.
  - destruct Hok. by apply insert_inv.
  - by apply erase_inv.
Qed.

(** C36: from an empty set, any calls that respect the contract return, and give the results of
    the same operations on a list of the elements without duplicates; the representation
    holds after them. *)
Theorem inline_set_refines (D : gset positive) h os :
  Z.of_nat (base.size D) < 2 ^ 32 → (∀ x, x ∈ D → h !! x = Some newMember) → ops_ok D [] os →
  returns (run_ops (new h) os) (λ '(s', rs),
    set_inv D s' (spec_ops [] os).1 ∧ rs = (spec_ops [] os).2 ∧ visit s' = Ret (spec_ops [] os).1).
Proof.
  intros HD Hh Hok. assert (set_inv D (new h) []) as Hi.
  { constructor; [|set_solver|auto]. constructor; try done. constructor. }
  revert Hi Hok. generalize (@nil positive), (new h). induction os as [|o os IH]; intros xs s Hi Hok; cbn.
  { split_and!; [done|done|]. apply rep_visit, Hi. }
  destruct Hok as [Ho Hos]. eapply returns_bind; [by apply run_op_spec|]. intros [s1 r] [Hi1 ->].
  destruct (spec_op xs o) as [xs1 r1]. simpl in *.
  eapply returns_bind; [by apply IH|]. intros [s2 rs]. destruct (spec_ops xs1 os) as [xs2 rs2].
  cbn. naive_solver.
Qed.

(** A heap of three elements in no set, and the set of the first two. *)
Definition elems3 : gset positive := {[1%positive; 2%positive; 3%positive]}.
Definition heap3 : gmap positive Node := gset_to_gmap newMember elems3.
Definition set12 : State :=
  mkState (<[1%positive := mkNode None (Some 2%positive)]> (<[2%positive := mkNode (Some 1%positive) None]> heap3))
    (Some 1%positive) (Some 2%positive) 2.

Lemma heap3_new x : x ∈ elems3 → heap3 !! x = Some newMember.
Proof. intros. unfold heap3. by rewrite lookup_gset_to_gmap_Some. Defined.

Lemma set12_inv : set_inv elems3 set12 [1%positive; 2%positive].
Proof.
  constructor.
  - constructor; try by vm_compute. apply (bool_decide_unpack _). by vm_compute.
  - intros x. unfold elems3. set_solver.
  - intros x Hx Hn. cbn [heap set12]. rewrite !lookup_insert_ne by set_solver. by apply heap3_new.
Defined.

Lemma iteration_safe_witness :
  op_ok elems3 [1%positive; 2%positive] (OErase 1) ∧
  returns (erase set12 1) (λ sts,
    Forall (λ st, visit st = Ret [1%positive; 2%positive] ∨ visit st = Ret [2%positive]) sts ∧
    ∃ s', list.last sts = Some s' ∧ set_inv elems3 s' [2%positive]).
Proof.
  assert (op_ok elems3 [1%positive; 2%positive] (OErase 1)) as H by (apply (bool_decide_unpack _); by vm_compute).
  split; [exact H|].
  exact (iteration_safe elems3 set12 [1%positive; 2%positive] 1 false set12_inv eq_refl H).
Defined.

Definition ops3 : list op :=
  [OInsert 2; OInsert 1; OCount; OErase 2; OContains 1; OContains 2; OInsert 3; OErase 3; OErase 1; OEmpty;
   OInsert 2; OAny; OClear; OCount].

Lemma inline_set_refines_witness :
  ops_ok elems3 [] ops3 ∧
  returns (run_ops (new heap3) ops3) (λ '(s', rs),
    set_inv elems3 s' [] ∧ rs = [Done; Done; Count 2; Done; Bool true; Bool false; Done; Done; Done; Bool true;
      Done; Bool true; Done; Count 0] ∧ visit s' = Ret []).
Proof.
  assert (ops_ok elems3 [] ops3) as H by (apply (bool_decide_unpack _); by vm_compute).
  split; [exact H|]. exact (inline_set_refines elems3 heap3 ops3 eq_refl heap3_new H).
Defined.

(** ** Erasing during an iteration *)

(** [for (i = begin(); i != end(); ++i) if (f(i)) erase( *i);] and the elements it is at. *)
Fixpoint eraseLoop (f : positive → bool) (fuel : nat) s (it e : iterator) : outcome (State * list positive) :=
  match fuel with
  | O => OutOfFuel
  | S fuel =>
      if iterEq it e then Ret (s, [])
      else match at_ it with
           | Some x =>
               s ← if f x then after (erase s x) else Ret s;
               it ← increment s it;
               '(s, xs) ← eraseLoop f fuel s it e; Ret (s, x :: xs)
           | None => Fault
           end
  end.

Lemma eraseLoop_spec D f fuel s ys xs :
  set_inv D s (ys ++ xs) → Z.of_nat (base.size D) < 2 ^ 32 → (length xs < fuel)%nat →
  returns (eraseLoop f fuel s (iter_at xs) (mkIterator None None)) (λ '(s', vs),
    vs = xs ∧ set_inv D s' (ys ++ filter (λ x, f x = false) xs)).
Proof.
  intros Hi HD. revert fuel s ys Hi. induction xs as [|x xs IH]; intros [|fuel] s ys Hi Hf; simpl in Hf; try lia.
  { done. }
  cbn [eraseLoop]. unfold iterEq. cbn [at_ iter_at hd]. rewrite (bool_decide_false (Some x = None)) by done.
  set (ys' := if f x then ys else ys ++ [x]).
  apply returns_bind with (P := λ s, set_inv D s (ys' ++ xs)).
  { unfold ys'. destruct (f x); [|by rewrite <- app_assoc]. apply after_last.
    eapply returns_mono; [apply erase_inv with (x := x); [done|set_solver|done]|].
    destruct (nodup_mid ys xs x (rep_nodup _ _ (inv_rep _ _ _ Hi))). rewrite filter_split by done. naive_solver. }
  intros s1 Hi1. assert (fwd (heap s1) xs None) as Hw.
  { destruct Hi1 as [[_ _ _ Hd _] _ _]. apply dll_app in Hd as [_ Hd]. by eapply dll_fwd. }
  change (mkIterator (Some x) _) with (iter_at (x :: xs)). rewrite increment_fwd by done. cbn [mbind outcome_bind].
  eapply returns_bind; [by apply (IH fuel s1 ys'); [|lia]|].
  intros [s2 vs] [-> Hi2]. cbn [returns]. split; [done|]. rewrite filter_cons. unfold ys' in Hi2.
  destruct (f x); [by rewrite decide_False|]. rewrite decide_True by done. by rewrite <- app_assoc in Hi2.
Qed.

(** C37: a loop may erase the element its iterator is at: the loop ends, it is at every element
    once, and the set keeps those that were not erased. *)
Theorem erase_while_iterating (D : gset positive) s xs f :
  set_inv D s xs → Z.of_nat (base.size D) < 2 ^ 32 →
  returns (it ← begin s; e ← end_ s; eraseLoop f (S (length xs)) s it e) (λ '(s', vs),
    vs = xs ∧ set_inv D s' (filter (λ x, f x = false) xs)).
Proof.
  intros Hi HD. pose proof (inv_rep _ _ _ Hi) as [Hnd Hf _ Hd _]. unfold begin.
  rewrite Hf, (iteratorOf_fwd s xs) by (by eapply dll_fwd). cbn [mbind outcome_bind end_ iteratorOf].
  apply (eraseLoop_spec D f _ s []); [done|done|lia].
Qed.

Lemma erase_while_iterating_witness :
  returns (it ← begin set12; e ← end_ set12; eraseLoop (Pos.leb 2) 3 set12 it e) (λ '(s', vs),
    vs = [1%positive; 2%positive] ∧ set_inv elems3 s' [1%positive]).
Proof. exact (erase_while_iterating elems3 set12 [1%positive; 2%positive] (Pos.leb 2) set12_inv eq_refl). Defined.

(** The only element of a set has the pointers of an element in none: [inASet] is false for
    it, and inserting it a second time passes the assertions and links it to itself: an
    iteration then does not end. *)
Theorem single_member_not_in_set (h : gmap positive Node) x :
  h !! x = Some newMember →
  returns (after (insert (new h) x)) (λ s,
    contains s x = Ret true ∧ inASet <$> node s x = Ret false ∧
    returns (after (insert s x)) (λ s', ∀ fuel, visitLoop fuel s' (mkIterator (Some x) (Some x)) (mkIterator None None) = OutOfFuel
      ∧ begin s' = Ret (mkIterator (Some x) (Some x)))).
Proof.
  intros Hx. unfold insert, setPrev, setNext, node. simpl. rewrite Hx. cbn. rewrite !lookup_insert_eq. cbn.
  rewrite insert_insert_eq, !lookup_insert_eq. cbn. split_and!; [|done|].
  { unfold node. cbn. rewrite lookup_insert_eq. cbn. by rewrite bool_decide_true. }
  repeat (rewrite lookup_insert_eq; cbn). intros fuel. split.
  - induction fuel as [|fuel IH]; [done|]. cbn [visitLoop]. unfold iterEq, increment, node. cbn.
    rewrite lookup_insert_eq. cbn. by rewrite IH.
  - unfold begin, iteratorOf, node. cbn. by rewrite lookup_insert_eq.
Qed.

Lemma single_member_not_in_set_witness :
  heap3 !! 2%positive = Some newMember ∧
  returns (after (insert (new heap3) 2)) (λ s,
    contains s 2 = Ret true ∧ inASet <$> node s 2%positive = Ret false ∧
    returns (after (insert s 2)) (λ s', ∀ fuel,
      visitLoop fuel s' (mkIterator (Some 2%positive) (Some 2%positive)) (mkIterator None None) = OutOfFuel
      ∧ begin s' = Ret (mkIterator (Some 2%positive) (Some 2%positive)))).
Proof. split; [by vm_compute|]. apply (single_member_not_in_set heap3 2). by vm_compute. Defined.
