(* ===== verification/AddrSet.v ===== *)
(** * Address sets

    [Gc/SMM/AddrSet.h]: a set of addresses at some resolution, as a bitmap over a range.
    [size_t] is 64 bits, [byte] 8 bits.  [minBytes] is the template parameter.  The loops
    of [add] and [has] over a range and of [traverse] read and write the array through
    [aget] and [aset], which fault outside it. *)

From stdpp Require Import base list numbers decidable option.
From Stdlib Require Import ZArith Lia.
From S2P Require Import Prelude Bitwise.

Module AddrSet.

Record AddrSet := mkAddrSet { data : Z; marked : list Z }.

Definition elemBits : Z := 8.

Definition offset (s : AddrSet) : Z := Z.land (data s) (u64 (Z.lnot 0x3F)).
Definition shift (s : AddrSet) : Z := Z.land (data s) 0x3F.
Definition resolution (s : AddrSet) : Z := u64 (Z.shiftl 1 (shift s)).

(** Convert from bit indices to real addresses. *)
Definition toAddr (s : AddrSet) (index : Z) : Z := u64 (offset s + u64 (Z.shiftl index (shift s))).

(** The bit of an address. *)
Definition bitId (s : AddrSet) (addr : Z) : Z := Z.shiftr (u64 (addr - offset s)) (shift s).

Definition clear (s : AddrSet) : AddrSet := mkAddrSet (data s) ((λ _, 0) <$> marked s).

Definition empty (s : AddrSet) : bool := foldl Z.lor 0 (marked s) =? 0.

(** [byte((1 << bit) - 1)], complemented as an [int]; and [(2 << bit) - 1]. *)
Definition fromMask (bit : Z) : Z := Z.lnot (u8 (Z.shiftl 1 bit - 1)).
Definition toMask (bit : Z) : Z := Z.shiftl 2 bit - 1.

(** [marked[ch] |= m] *)
Definition orAt (l : list Z) (ch m : Z) : outcome (list Z) :=
  b ← aget l ch; aset l ch (u8 (Z.lor b m)).

Section addrset.
Context (minBytes : Z).

Definition totalBytes : Z := NextPowerOfTwo 63 minBytes 1.

Definition size (s : AddrSet) : Z :=
  u64 (u64 (u64 (Z.shiftl 1 (shift s)) * totalBytes) * elemBits).

(** [init(from, to)], which every constructor calls. *)
Definition init (from to : Z) : AddrSet :=
  let offset := Z.land from (u64 (Z.lnot 0x3F)) in
  let len := nextPowerOfTwo 64 (u64 (to - offset)) in
  let shift := trailingZeros 64 len in
  let range := trailingZeros 64 (u64 (totalBytes * elemBits)) in
  let shift := u64 (shift - Z.min shift range) in
  clear (mkAddrSet (Z.lor offset shift) (replicate (Z.to_nat totalBytes) 0)).

Definition new : AddrSet := init 0 1.

Definition coversAddr (s : AddrSet) (addr : Z) : bool :=
  if addr <? offset s then false
  else if size s <=? u64 (addr - offset s) then false
  else true.

Definition covers (s : AddrSet) (from to : Z) : bool :=
  if from <? offset s then false
  else if size s <? u64 (to - offset s) then false
  else true.

(** [add(addr)] *)
Definition addAddr (s : AddrSet) (addr : Z) : outcome AddrSet :=
  let id := bitId s addr in
  l ← orAt (marked s) (Z.land (id / elemBits) (totalBytes - 1))
    (Z.shiftl (Z.b2z (id <? u64 (totalBytes * elemBits))) (id `mod` elemBits));
  Ret (mkAddrSet (data s) l).

(** [has(addr)] *)
Definition hasAddr (s : AddrSet) (addr : Z) : outcome bool :=
  let id := bitId s addr in
  b ← aget (marked s) (Z.land (id / elemBits) (totalBytes - 1));
  Ret ((id <? u64 (totalBytes * elemBits)) && negb (Z.land b (Z.shiftl 1 (id `mod` elemBits)) =? 0)).

(** [add(from, to)] *)
Definition add (s : AddrSet) (from to : Z) : outcome AddrSet :=
  let off := offset s in
  let ext := u64 (off + size s) in
  if (ext <=? from) || (to <=? off) then Ret s
  else
    let from := Z.max from off in
    let to := Z.min to ext - 1 in
    let idF := bitId s from in
    let idT := bitId s to in
    let chF := idF / elemBits in
    let bitF := idF `mod` elemBits in
    let chT := idT / elemBits in
    let bitT := idT `mod` elemBits in
    if chF =? chT then
      let mask := u8 (toMask bitT) in
      let mask := u8 (Z.land mask (fromMask bitF)) in
      l ← orAt (marked s) chF mask;
      Ret (mkAddrSet (data s) l)
    else
      l ← orAt (marked s) chF (fromMask bitF);
      l ← for_loop (Z.to_nat (chT - (chF + 1))) (chF + 1) (λ ch l, orAt l ch (2 ^ 64 - 1)) l;
      l ← orAt l chT (toMask bitT);
      Ret (mkAddrSet (data s) l).

(** [has(from, to)] *)
Definition has (s : AddrSet) (from to : Z) : outcome bool :=
  let off := offset s in
  let ext := u64 (off + size s) in
  if (ext <=? from) || (to <=? off) then Ret false
  else
    let from := Z.max from off in
    let to := Z.min to ext - 1 in
    let idF := bitId s from in
    let idT := bitId s to in
    let chF := idF / elemBits in
    let bitF := idF `mod` elemBits in
    let chT := idT / elemBits in
    let bitT := idT `mod` elemBits in
    if chF =? chT then
      let mask := u8 (toMask bitT) in
      let mask := u8 (Z.land mask (fromMask bitF)) in
      b ← aget (marked s) chF;
      Ret (negb (Z.land b mask =? 0))
    else
      b ← aget (marked s) chF;
      let r := u8 (Z.land b (fromMask bitF)) in
      r ← for_loop (Z.to_nat (chT - (chF + 1))) (chF + 1) (λ ch r, b ← aget (marked s) ch; Ret (u8 (Z.lor r b))) r;
      b ← aget (marked s) chT;
      let r := u8 (Z.lor r (Z.land b (toMask bitT))) in
      Ret (negb (r =? 0)).

(** [traverse(fn)]: [fn] is called with its state and a range, and returns whether to go
    on.  Every round moves [at] forwards. *)
Section traverse.
Context {S : Type} (fn : S → Z → Z → outcome (S * bool)).

Fixpoint traverseLoop (fuel : nat) (s : AddrSet) (st : S) (flip start at_ : Z) : outcome (S * bool) :=
  match fuel with
  | O => OutOfFuel
  | Datatypes.S fuel =>
      if at_ <? u64 (totalBytes * elemBits) then
        let atElem := at_ / elemBits in
        let atBit := at_ `mod` elemBits in
        b ← aget (marked s) atElem;
        let current := Z.lxor b flip in
        let current := u8 (Z.land current (fromMask atBit)) in
        if negb (current =? 0) then
          let next := trailingZeros 8 current in
          let at_ := atElem * elemBits + next in
          '(st, go) ← (if negb (flip =? 0) then fn st (toAddr s start) (toAddr s at_) else Ret (st, true));
          if negb go then Ret (st, false)
          else traverseLoop fuel s st (u8 (Z.lnot flip)) at_ (at_ + 1)
        else traverseLoop fuel s st flip start ((atElem + 1) * elemBits)
      else if negb (flip =? 0) then fn st (toAddr s start) (toAddr s (u64 (totalBytes * elemBits)))
      else Ret (st, true)
  end.

Definition traverse (s : AddrSet) (st : S) : outcome (S * bool) :=
  traverseLoop (Datatypes.S (Z.to_nat (totalBytes * elemBits))) s st 0 0 0.
End traverse.

(** [Copy] and [resize]. *)
Definition Copy (set : AddrSet) (from to : Z) : outcome (AddrSet * bool) :=
  set ← add set from to; Ret (set, true).

Definition resize (s : AddrSet) (from to : Z) : outcome AddrSet :=
  if empty s then Ret (init from to)
  else
    let from := Z.min from (offset s) in
    let to := Z.max to (u64 (offset s + size s)) in
    '(set, _) ← traverse Copy s (init from to);
    Ret set.
End addrset.

(** [Intersect<sz>] and [intersects]. *)
Definition Intersect (sz : Z) (other : AddrSet) (st : unit) (from to : Z) : outcome (unit * bool) :=
  b ← has sz other from to; Ret (st, negb b).

Definition intersects (minBytes sz : Z) (s other : AddrSet) : outcome bool :=
  '(_, r) ← traverse minBytes (Intersect sz other) s tt;
  Ret (negb r).

(** [AddrSummary] and [PinnedSet] of [Gc/SMM/AddrSet.h], sizes of [Gc/SMM/Config.h]. *)
Definition summaryBytes : Z := 8 * 2.
Definition pinnedBytes : Z := 8 * 16.
Definition historyBytes : Z := 8 * 16.
End AddrSet.
