(* ===== verification/AddrSetCorrect.v ===== *)
(** * Address sets: correctness

    [wf]: the bitmap has its size, and the range does not wrap around.  [mem s a] is what
    the set means: the address [a] is covered and the bit of its region is set.  The
    operations on addresses and ranges are exact for it; [traverse] goes through the maximal
    runs of set bits; [intersects] finds a common address whenever there is one, and
    [resize] loses none as long as the range fits. *)

From stdpp Require Import base list numbers decidable option.
From Stdlib Require Import ZArith Lia.
From S2P Require Import Prelude Bitwise AddrSet.

Import AddrSet.

(** ** Bits of an array of bytes *)

Definition bitAt (l : list Z) (i : Z) : bool :=
  match l !! (i / elemBits) with Some b => Z.testbit b (i `mod` elemBits) | None => false end.

Lemma u8_bits z j : 0 ≤ j < 8 → Z.testbit (u8 z) j = Z.testbit z j.
Proof. intros. unfold u8. by rewrite Z.mod_pow2_bits_low by lia. Qed.

Lemma mod8 i : 0 ≤ i `mod` elemBits < 8.
Proof. apply Z.mod_pos_bound. reflexivity. Qed.

Lemma toMask_bits b j : 0 ≤ b < 8 → 0 ≤ j < 8 → Z.testbit (toMask b) j = (j <=? b).
Proof.
  intros Hb Hj. unfold toMask. rewrite Z.shiftl_mul_pow2 by lia. rewrite <- Z.pow_succ_r by lia.
  replace (2 ^ Z.succ b - 1) with (Z.ones (Z.succ b)) by (rewrite Z.ones_equiv; lia).
  rewrite Z.testbit_ones_nonneg by lia. destruct (Z.leb_spec j b), (Z.ltb_spec j (Z.succ b)); lia.
Qed.

Lemma fromMask_bits b j : 0 ≤ b < 8 → 0 ≤ j < 8 → Z.testbit (fromMask b) j = (b <=? j).
Proof.
  intros Hb Hj. unfold fromMask. rewrite Z.lnot_spec, u8_bits by lia. rewrite Z.shiftl_mul_pow2, Z.mul_1_l by lia.
  replace (2 ^ b - 1) with (Z.ones b) by (rewrite Z.ones_equiv; lia).
  rewrite Z.testbit_ones_nonneg by lia. destruct (Z.leb_spec b j), (Z.ltb_spec j b); lia.
Qed.

Definition bytes (l : list Z) : Prop := Forall is_u8 l.

Lemma bytes_lookup l i b : bytes l → l !! i = Some b → is_u8 b.
Proof. intros Hl Hi. unfold bytes in Hl. rewrite Forall_forall in Hl. apply Hl, list_elem_of_In, list_elem_of_lookupZ. eauto. Qed.

Lemma u8_range z : is_u8 (u8 z).
Proof. apply Z.mod_pos_bound. lia. Qed.

Lemma bytes_insert l i b : bytes l → is_u8 b → bytes (<[i := b]> l).
Proof. intros Hl Hb. unfold insert, list_insertZ. case_decide; [|done]. by apply Forall_insert. Qed.

(** [marked[ch] |= m] sets the bits of [m] in the byte [ch]. *)
Lemma orAt_spec l ch m :
  bytes l → 0 ≤ ch < zlen l →
  ∃ l', orAt l ch m = Ret l' ∧ zlen l' = zlen l ∧ bytes l' ∧
    ∀ i, bitAt l' i = bitAt l i || (bool_decide (i / elemBits = ch) && Z.testbit m (i `mod` elemBits)).
Proof.
  intros Hl Hch. destruct (lookupZ_lt_Some l ch Hch) as [b Hb]. unfold orAt. rewrite (aget_Some _ _ _ Hb).
  cbn [mbind outcome_bind]. rewrite aset_in by done. eexists. split; [done|]. split; [apply zlen_insert|].
  split; [apply bytes_insert; [done|apply u8_range]|]. intros i. unfold bitAt.
  case_bool_decide as Hi.
  - subst ch. rewrite lookupZ_insert_eq by done. rewrite Hb. rewrite u8_bits by apply mod8. by rewrite Z.lor_spec.
  - rewrite lookupZ_insert_ne by congruence. by rewrite orb_false_r.
Qed.

(** A byte is zero if all its bits are. *)
Lemma byte_zero b : is_u8 b → (b = 0 ↔ ∀ j, 0 ≤ j < 8 → Z.testbit b j = false).
Proof.
  intros Hb. split; [intros -> j _; apply Z.bits_0|]. intros H. apply Z.bits_inj'. intros j Hj. rewrite Z.bits_0.
  destruct (decide (j < 8)); [by apply H|]. rewrite <- (Z.mod_small b (2 ^ 8)) by done. by rewrite Z.mod_pow2_bits_high by lia.
Qed.

Lemma byte_nonzero b : is_u8 b → (negb (b =? 0) = true ↔ ∃ j, 0 ≤ j < 8 ∧ Z.testbit b j = true).
Proof.
  intros Hb. rewrite negb_true_iff, Z.eqb_neq. split.
  - intros Hn. destruct (decide (Exists (λ j, Z.testbit b j = true) (seqZ 0 8))) as [He|He].
    + apply Exists_exists in He as (j&Hj&?). apply list_elem_of_In, elem_of_seqZ in Hj. exists j. split; [lia|done].
    + exfalso. apply Hn, byte_zero; [done|]. intros j Hj. apply not_true_is_false. intros Ht. apply He, Exists_exists.
      exists j. split; [apply list_elem_of_In, elem_of_seqZ; lia|done].
  - intros (j&Hj&Ht) ->. by rewrite Z.bits_0 in Ht.
Qed.

(** The lowest set bit. *)
Lemma trailingZeros_byte c :
  is_u8 c → c ≠ 0 →
  0 ≤ trailingZeros 8 c < 8 ∧ Z.testbit c (trailingZeros 8 c) = true ∧
  ∀ j, 0 ≤ j < trailingZeros 8 c → Z.testbit c j = false.
Proof.
  intros Hc Hn.
  assert (∀ P : Z → bool, forallb (λ c, (c =? 0) || P c) (seqZ 0 256) = true → P c = true) as Hall.
  { intros P HP. pose proof (forall_range _ 0 256 c HP ltac:(unfold is_u8 in Hc; lia)) as H. cbn in H.
    apply orb_true_iff in H as [H%Z.eqb_eq|]; done. }
  assert (forallb (λ j, (j <? trailingZeros 8 c) && negb (Z.testbit c j) || (trailingZeros 8 c <=? j)) (seqZ 0 8) &&
    (0 <=? trailingZeros 8 c) && (trailingZeros 8 c <? 8) && Z.testbit c (trailingZeros 8 c) = true) as H.
  { apply (Hall (λ c, forallb (λ j, (j <? trailingZeros 8 c) && negb (Z.testbit c j) || (trailingZeros 8 c <=? j)) (seqZ 0 8) &&
      (0 <=? trailingZeros 8 c) && (trailingZeros 8 c <? 8) && Z.testbit c (trailingZeros 8 c))). vm_compute. reflexivity. }
  apply andb_true_iff in H as [[[H H1%Z.leb_le]%andb_true_iff H2%Z.ltb_lt]%andb_true_iff H3].
  split_and!; [lia|lia|done|]. intros j Hj. pose proof (forall_range _ 0 8 j H ltac:(lia)) as Hx. cbv beta in Hx.
  apply orb_true_iff in Hx as [[_ Hx%negb_true_iff]%andb_true_iff|Hx%Z.leb_le]; [done|lia].
Qed.

(** ** The range of a set *)

Lemma land_high d : is_u64 d → Z.land d (u64 (Z.lnot 0x3F)) = d / 64 * 64.
Proof.
  intros Hd. replace (d / 64 * 64) with (Z.ldiff d (Z.ones 6)).
  - apply Z.bits_inj'. intros i Hi. rewrite Z.land_spec, Z.ldiff_spec. unfold u64. destruct (decide (i < 64)).
    + rewrite Z.mod_pow2_bits_low, Z.lnot_spec by lia. done.
    + rewrite <- (Z.mod_small d (2 ^ 64)) at 2 by done. rewrite !Z.mod_pow2_bits_high by lia. by rewrite andb_false_r.
  - rewrite Z.ldiff_ones_r, Z.shiftl_mul_pow2, Z.shiftr_div_pow2 by lia. done.
Qed.

Lemma land_shift d : Z.land d 0x3F = d `mod` 64.
Proof. by apply (land_pow2_pred d 6). Qed.

Section correct.
Context (minBytes k : Z).

(** The number of bytes is a power of two. *)
Definition sized : Prop := 0 ≤ k ≤ 20 ∧ totalBytes minBytes = 2 ^ k.
Context (Hsized : sized).

(** The number of bits, and the bytes a bit stands for. *)
Definition nbits : Z := 2 ^ (k + 3).
Definition res (s : AddrSet) : Z := 2 ^ shift s.

Record wf (s : AddrSet) : Prop := {
  wf_len : zlen (marked s) = 2 ^ k;
  wf_bytes : bytes (marked s);
  wf_data : is_u64 (data s);
  wf_ext : offset s + res s * nbits < 2 ^ 64;
}.

Definition covered (s : AddrSet) (a : Z) : Prop := offset s ≤ a < offset s + res s * nbits.
Definition idOf (s : AddrSet) (a : Z) : Z := (a - offset s) / res s.
Definition bit (s : AddrSet) (i : Z) : bool := bitAt (marked s) i.

(** The addresses in the set. *)
Definition mem (s : AddrSet) (a : Z) : Prop := covered s a ∧ bit s (idOf s a) = true.

Lemma nbits_bytes : nbits = 2 ^ k * 8.
Proof. destruct Hsized. unfold nbits. rewrite Z.pow_add_r by lia. done. Qed.

Lemma nbits_pos : 0 < nbits.
Proof. destruct Hsized. apply Z.pow_pos_nonneg; lia. Qed.

Lemma bytes_le : 1 ≤ 2 ^ k ≤ 2 ^ 20.
Proof. destruct Hsized. split; [|apply Z.pow_le_mono_r; lia]. pose proof (Z.pow_pos_nonneg 2 k). lia. Qed.

Lemma nbits_u64 : u64 (totalBytes minBytes * elemBits) = nbits.
Proof.
  destruct Hsized as [? ->]. pose proof bytes_le. unfold elemBits. rewrite nbits_bytes.
  apply u64_small. unfold is_u64. lia.
Qed.

Lemma offset_range s : is_u64 (data s) → 0 ≤ offset s < 2 ^ 64 ∧ 0 ≤ shift s < 64.
Proof.
  intros Hd. unfold offset, shift. rewrite land_high, land_shift by done. unfold is_u64 in Hd.
  pose proof (Z.mod_pos_bound (data s) 64). pose proof (Z.div_mod (data s) 64). pose proof (Z.div_pos (data s) 64). lia.
Qed.

Lemma res_pos s : is_u64 (data s) → 0 < res s.
Proof. intros Hd. destruct (offset_range s Hd). apply Z.pow_pos_nonneg; lia. Qed.

Lemma size_spec s : wf s → size minBytes s = res s * nbits.
Proof.
  intros [_ _ Hd He]. destruct (offset_range s Hd). pose proof (res_pos s Hd). pose proof nbits_pos. pose proof bytes_le. unfold size.
  rewrite Z.shiftl_mul_pow2, Z.mul_1_l by lia. fold (res s). destruct Hsized as [? ->]. rewrite nbits_bytes in *. unfold elemBits.
  rewrite (u64_small (res s)) by (unfold is_u64; nia). rewrite (u64_small (res s * 2 ^ k)) by (unfold is_u64; nia).
  rewrite u64_small by (unfold is_u64; nia). lia.
Qed.

Lemma ext_spec s : wf s → u64 (offset s + size minBytes s) = offset s + res s * nbits.
Proof.
  intros Hw. rewrite (size_spec s Hw). destruct Hw as [_ _ Hd He]. destruct (offset_range s Hd). pose proof (res_pos s Hd).
  pose proof nbits_pos. apply u64_small. unfold is_u64. nia.
Qed.

Lemma bitId_covered s a : wf s → covered s a → bitId s a = idOf s a ∧ 0 ≤ idOf s a < nbits.
Proof.
  intros [_ _ Hd He] [Hlo Hhi]. destruct (offset_range s Hd). pose proof (res_pos s Hd). unfold bitId, idOf.
  rewrite u64_small by (unfold is_u64; lia). rewrite Z.shiftr_div_pow2 by lia. fold (res s). split; [done|]. split.
  - apply Z.div_pos; lia.
  - apply Z.div_lt_upper_bound; lia.
Qed.

(** An address outside the range gets a bit outside the bitmap. *)
Lemma bitId_outside s a : wf s → is_u64 a → ¬ covered s a → nbits ≤ bitId s a.
Proof.
  intros [_ _ Hd He] Ha Hc. destruct (offset_range s Hd). pose proof (res_pos s Hd). unfold bitId, covered, is_u64 in *.
  rewrite Z.shiftr_div_pow2 by lia. fold (res s). apply Z.div_le_lower_bound; [done|].
  destruct (decide (a < offset s)).
  - unfold u64. rewrite <- (Z.mod_add (a - offset s) 1) by lia. rewrite Z.mod_small by lia. lia.
  - rewrite u64_small by (unfold is_u64; lia). lia.
Qed.

(** The index [(id / elemBits) & (totalBytes - 1)] is in the array, and exact for an
    address that is covered. *)
Lemma byteIndex id : 0 ≤ id →
  0 ≤ Z.land (id / elemBits) (totalBytes minBytes - 1) < 2 ^ k ∧
  (id < nbits → Z.land (id / elemBits) (totalBytes minBytes - 1) = id / elemBits).
Proof.
  intros Hid. destruct Hsized as [Hk ->]. pose proof bytes_le. rewrite land_pow2_pred by lia. split; [apply Z.mod_pos_bound; lia|].
  intros Hlt. rewrite nbits_bytes in Hlt. apply Z.mod_small. split; [apply Z.div_pos; [lia|done]|].
  apply Z.div_lt_upper_bound; [done|]. unfold elemBits. lia.
Qed.

Lemma bitId_nonneg s a : wf s → 0 ≤ bitId s a.
Proof. intros _. apply Z.shiftr_nonneg. apply u64_range. Qed.

#[local] Instance covered_dec s a : Decision (covered s a).
Proof. unfold covered. apply _. Defined.

Lemma testbit_pow b j : 0 ≤ j → negb (Z.land b (Z.shiftl 1 j) =? 0) = Z.testbit b j.
Proof.
  intros Hj. rewrite Z.shiftl_mul_pow2, Z.mul_1_l by done. apply eq_true_iff_eq. rewrite negb_true_iff, Z.eqb_neq. split.
  - intros Hn. apply not_false_is_true. intros Hf. apply Hn, Z.bits_inj'. intros i Hi. rewrite Z.land_spec, Z.pow2_bits_eqb, Z.bits_0 by done.
    destruct (Z.eqb_spec j i) as [<-|]; [by rewrite Hf|apply andb_false_r].
  - intros Ht Hz. assert (Z.testbit (Z.land b (2 ^ j)) j = true) as H; [|by rewrite Hz, Z.bits_0 in H].
    by rewrite Z.land_spec, Ht, Z.pow2_bits_true by done.
Qed.

(** ** Single addresses *)

Lemma hasAddr_spec s a : wf s → is_u64 a → ∃ r, hasAddr minBytes s a = Ret r ∧ (r = true ↔ mem s a).
Proof.
  intros Hw Ha. pose proof (bitId_nonneg s a Hw) as Hid. destruct (byteIndex _ Hid) as [Hr Hx]. unfold hasAddr.
  destruct (lookupZ_lt_Some (marked s) (Z.land (bitId s a / elemBits) (totalBytes minBytes - 1))) as [b Hb]; [by rewrite (wf_len s Hw)|].
  rewrite (aget_Some _ _ _ Hb). cbn [mbind outcome_bind]. rewrite testbit_pow by apply mod8. rewrite nbits_u64. eexists. split; [done|].
  unfold mem. destruct (decide (covered s a)) as [Hc|Hc].
  - destruct (bitId_covered s a Hw Hc) as [E Hlt]. rewrite E in *. rewrite Hx in Hb by lia. unfold bit, bitAt. rewrite Hb.
    destruct (Z.ltb_spec (idOf s a) nbits); [|lia]. cbn. naive_solver.
  - pose proof (bitId_outside s a Hw Ha Hc). destruct (Z.ltb_spec (bitId s a) nbits); [lia|]. cbn. naive_solver.
Qed.

(** The same range, with other bits. *)
Definition sameRange (s s' : AddrSet) : Prop := data s' = data s ∧ wf s'.

Lemma sameRange_idOf s s' a : sameRange s s' → idOf s' a = idOf s a ∧ (covered s' a ↔ covered s a).
Proof. intros [E _]. unfold idOf, covered, res, offset, shift. by rewrite E. Qed.

Lemma wf_marked s l : wf s → zlen l = zlen (marked s) → bytes l → wf (mkAddrSet (data s) l).
Proof. intros [] ? ?. constructor; cbn; [congruence|done|done|done]. Qed.

Lemma div_mod_inj i j : i / elemBits = j / elemBits → i `mod` elemBits = j `mod` elemBits → i = j.
Proof. unfold elemBits. intros. rewrite (Z.div_mod i 8), (Z.div_mod j 8) by done. lia. Qed.

Lemma addAddr_spec s a :
  wf s → is_u64 a →
  ∃ s', addAddr minBytes s a = Ret s' ∧ sameRange s s' ∧
    ∀ i, bit s' i = bit s i || bool_decide (covered s a ∧ i = idOf s a).
Proof.
  intros Hw Ha. pose proof (bitId_nonneg s a Hw) as Hid. destruct (byteIndex _ Hid) as [Hr Hx].
  unfold addAddr. rewrite nbits_u64.
  destruct (orAt_spec (marked s) (Z.land (bitId s a / elemBits) (totalBytes minBytes - 1))
    (Z.shiftl (Z.b2z (bitId s a <? nbits)) (bitId s a `mod` elemBits))) as (l&->&Hl&Hb&Hbits);
    [apply Hw|by rewrite (wf_len s Hw)|].
  cbn [mbind outcome_bind]. eexists. split; [done|]. split; [split; [done|by apply wf_marked]|].
  intros i. unfold bit. cbn [marked]. rewrite Hbits. f_equal. destruct (decide (covered s a)) as [Hc|Hc].
  - destruct (bitId_covered s a Hw Hc) as [E Hlt]. rewrite E in *. rewrite Hx by lia.
    destruct (Z.ltb_spec (idOf s a) nbits); [|lia]. cbn [Z.b2z]. rewrite Z.shiftl_mul_pow2, Z.mul_1_l by apply mod8.
    rewrite Z.pow2_bits_eqb by apply mod8. apply eq_true_iff_eq. rewrite andb_true_iff, !bool_decide_eq_true, Z.eqb_eq. split.
    + intros [? ?]. split; [done|]. by apply div_mod_inj.
    + by intros [_ ->].
  - pose proof (bitId_outside s a Hw Ha Hc). destruct (Z.ltb_spec (bitId s a) nbits); [lia|]. cbn [Z.b2z].
    rewrite Z.shiftl_0_l, Z.bits_0, andb_false_r. symmetry. apply bool_decide_false. by intros [? _].
Qed.

(** ** Ranges *)

(** The bits of the part of [from, to) that is covered. *)
Definition overlaps (s : AddrSet) (from to : Z) : Prop := from < offset s + res s * nbits ∧ offset s < to.
Definition idFrom (s : AddrSet) (from : Z) : Z := idOf s (Z.max from (offset s)).
Definition idTo (s : AddrSet) (to : Z) : Z := idOf s (Z.min to (offset s + res s * nbits) - 1).

#[local] Instance overlaps_dec s from to : Decision (overlaps s from to).
Proof. unfold overlaps. apply _. Defined.

Lemma overlaps_ids s from to :
  wf s → from < to → overlaps s from to →
  bitId s (Z.max from (offset s)) = idFrom s from ∧ bitId s (Z.min to (offset s + res s * nbits) - 1) = idTo s to ∧
  0 ≤ idFrom s from ≤ idTo s to ∧ idTo s to < nbits.
Proof.
  intros Hw Hlt [H1 H2]. pose proof (res_pos s (wf_data s Hw)). pose proof nbits_pos.
  assert (0 < res s * nbits) by by apply Z.mul_pos_pos.
  destruct (bitId_covered s (Z.max from (offset s)) Hw) as [? ?]; [unfold covered; lia|].
  destruct (bitId_covered s (Z.min to (offset s + res s * nbits) - 1) Hw) as [? ?]; [unfold covered; lia|].
  split_and!; try done; unfold idFrom, idTo; try lia. apply Z.div_le_mono; lia.
Qed.

(** The bits of a range are those of its addresses. *)
Lemma range_ids s from to i :
  wf s → from < to → overlaps s from to →
  (idFrom s from ≤ i ≤ idTo s to ↔ ∃ a, from ≤ a < to ∧ covered s a ∧ idOf s a = i).
Proof.
  intros Hw Hlt Ho. pose proof (res_pos s (wf_data s Hw)) as Hres. pose proof nbits_pos.
  assert (0 < res s * nbits) by by apply Z.mul_pos_pos. destruct (overlaps_ids s from to Hw Hlt Ho) as (_&_&Hid&Hn).
  destruct Ho as [H1 H2]. unfold covered, idFrom, idTo, idOf in *. set (off := offset s) in *. set (r := res s) in *. split.
  - intros [Hi1 Hi2]. exists (Z.max (Z.max from off) (off + i * r)).
    assert (i * r ≤ Z.min to (off + r * nbits) - 1 - off) as Hup.
    { pose proof (Z.mul_div_le (Z.min to (off + r * nbits) - 1 - off) r Hres). nia. }
    split; [lia|]. split; [lia|]. destruct (Z.max_spec (Z.max from off) (off + i * r)) as [[? ->]|[? ->]].
    + replace (off + i * r - off) with (i * r) by lia. apply Z.div_mul. lia.
    + assert (i ≤ (Z.max from off - off) / r) by (apply Z.div_le_lower_bound; lia). lia.
  - intros (a&Ha&Hc&<-). split; apply Z.div_le_mono; lia.
Qed.

(** Positions of bits relative to whole bytes. *)
Lemma div8_lt i j : i / elemBits < j / elemBits → i < j.
Proof. unfold elemBits. intros. pose proof (Z.div_mod i 8). pose proof (Z.div_mod j 8). pose proof (Z.mod_pos_bound i 8). pose proof (Z.mod_pos_bound j 8). lia. Qed.

Lemma div8_eq i j : i / elemBits = j / elemBits → (i ≤ j ↔ i `mod` elemBits ≤ j `mod` elemBits).
Proof. unfold elemBits. intros. pose proof (Z.div_mod i 8). pose proof (Z.div_mod j 8). lia. Qed.

Lemma div8_le i j : i / elemBits = j / elemBits → i ≤ j → i `mod` elemBits ≤ j `mod` elemBits.
Proof. intros E. by apply div8_eq. Qed.

Lemma sameByte_mask iF iT i :
  iF / elemBits = iT / elemBits →
  bool_decide (i / elemBits = iF / elemBits) &&
    Z.testbit (u8 (Z.land (u8 (toMask (iT `mod` elemBits))) (fromMask (iF `mod` elemBits)))) (i `mod` elemBits)
  = bool_decide (iF ≤ i ≤ iT).
Proof.
  intros E. pose proof (mod8 i). pose proof (mod8 iF). pose proof (mod8 iT).
  rewrite u8_bits, Z.land_spec, u8_bits, toMask_bits, fromMask_bits by done.
  apply eq_true_iff_eq. rewrite !andb_true_iff, !bool_decide_eq_true, !Z.leb_le. split.
  - intros (E'&?&?). split; apply div8_eq; lia.
  - intros [? ?]. assert (i / elemBits = iF / elemBits) as E' by (apply Z.le_antisymm; [rewrite E|]; by apply Z.div_le_mono).
    split_and!; [done|by apply (div8_le i iT); [congruence|]|by apply (div8_le iF i)].
Qed.

(** [marked] with the bits from [iF] to [iT] set, in different bytes. *)
Lemma bytes_mask iF iT i :
  iF / elemBits < iT / elemBits →
  (bool_decide (i / elemBits = iF / elemBits) && Z.testbit (fromMask (iF `mod` elemBits)) (i `mod` elemBits)) ||
  bool_decide (iF / elemBits + 1 ≤ i / elemBits < iT / elemBits) ||
  (bool_decide (i / elemBits = iT / elemBits) && Z.testbit (toMask (iT `mod` elemBits)) (i `mod` elemBits))
  = bool_decide (iF ≤ i ≤ iT).
Proof.
  intros Hlt. pose proof (mod8 i). pose proof (mod8 iF). pose proof (mod8 iT). rewrite toMask_bits, fromMask_bits by done.
  apply eq_true_iff_eq. rewrite !orb_true_iff, !andb_true_iff, !bool_decide_eq_true, !Z.leb_le. split.
  - intros [[[E ?]|?]|[E ?]].
    + split; [by apply div8_eq|]. apply Z.lt_le_incl, div8_lt. lia.
    + split; apply Z.lt_le_incl, div8_lt; lia.
    + split; [|by apply div8_eq]. apply Z.lt_le_incl, div8_lt. lia.
  - intros [Hge Hle]. assert (iF / elemBits ≤ i / elemBits ≤ iT / elemBits) by (split; by apply Z.div_le_mono).
    destruct (decide (i / elemBits = iF / elemBits)); [left; left; split; [done|]; by apply (div8_le iF i)|].
    destruct (decide (i / elemBits = iT / elemBits)); [right; split; [done|]; by apply (div8_le i iT)|]. left; right. lia.
Qed.

(** The loop over the bytes between the first and the last one. *)
Lemma orLoop_spec l a b :
  bytes l → 0 ≤ a ≤ b → b ≤ zlen l →
  ∃ l', for_loop (Z.to_nat (b - a)) a (λ ch l, orAt l ch (2 ^ 64 - 1)) l = Ret l' ∧ zlen l' = zlen l ∧ bytes l' ∧
    ∀ i, bitAt l' i = bitAt l i || bool_decide (a ≤ i / elemBits < b).
Proof.
  intros Hl Hab Hb.
  for_inv (λ ch l', zlen l' = zlen l ∧ bytes l' ∧ ∀ i, bitAt l' i = bitAt l i || bool_decide (a ≤ i / elemBits < ch)) r Hr.
  - split_and!; try done. intros i. rewrite bool_decide_false by lia. by rewrite orb_false_r.
  - intros ch l1 Hch (Hz&Hl1&Hbits). destruct (orAt_spec l1 ch (2 ^ 64 - 1)) as (l2&->&Hz2&Hl2&Hbits2); [done|lia|].
    cbn. split_and!; [congruence|done|]. intros i. rewrite Hbits2, Hbits, <- orb_assoc. f_equal.
    change (2 ^ 64 - 1) with (Z.ones 64). pose proof (mod8 i). rewrite Z.ones_spec_low, andb_true_r by lia.
    rewrite <- bool_decide_or. apply bool_decide_ext. lia.
  - rewrite Z2Nat.id in Hr by lia. replace (a + (b - a)) with b in Hr by lia. eauto.
Qed.

Lemma add_spec s from to :
  wf s → from < to →
  ∃ s', add minBytes s from to = Ret s' ∧ sameRange s s' ∧
    ∀ i, bit s' i = bit s i || bool_decide (overlaps s from to ∧ idFrom s from ≤ i ≤ idTo s to).
Proof.
  intros Hw Hlt. unfold add. rewrite (ext_spec s Hw). destruct (decide (overlaps s from to)) as [Ho|Hn].
  2: { replace (_ || _) with true by (unfold overlaps in Hn; destruct (Z.leb_spec (offset s + res s * nbits) from), (Z.leb_spec to (offset s)); done || lia).
    exists s. split; [done|]. split; [by split|]. intros i. rewrite bool_decide_false by naive_solver. by rewrite orb_false_r. }
  replace (_ || _) with false by (destruct Ho; destruct (Z.leb_spec (offset s + res s * nbits) from), (Z.leb_spec to (offset s)); done || lia).
  destruct (overlaps_ids s from to Hw Hlt Ho) as (->&->&Hid&Hn). set (iF := idFrom s from) in *. set (iT := idTo s to) in *.
  pose proof Hw as [Hz Hby _ _]. rewrite nbits_bytes in Hn.
  assert (0 ≤ iF / elemBits ≤ iT / elemBits) as Hch by (split; [apply Z.div_pos; [lia|done]|apply Z.div_le_mono; [done|lia]]).
  assert (iT / elemBits < 2 ^ k) as HcT by (apply Z.div_lt_upper_bound; [done|]; unfold elemBits; lia).
  cbv zeta. destruct (Z.eqb_spec (iF / elemBits) (iT / elemBits)) as [E|E].
  - edestruct orAt_spec as (l&->&Hl&Hb&Hbits); [exact Hby|rewrite Hz; split; [apply Hch|rewrite E; exact HcT]|].
    cbn [mbind outcome_bind]. eexists. split; [done|]. split; [split; [done|by apply wf_marked]|].
    intros i. unfold bit. cbn [marked]. rewrite Hbits, sameByte_mask by done. f_equal. apply bool_decide_ext. naive_solver.
  - edestruct orAt_spec as (l&->&Hl&Hb&Hbits); [exact Hby|rewrite Hz; split; [apply Hch|apply Z.le_lt_trans with (2 := HcT); apply Hch]|].
    cbn [mbind outcome_bind]. destruct (orLoop_spec l (iF / elemBits + 1) (iT / elemBits)) as (l1&->&Hl1&Hb1&Hbits1); [done|lia|lia|].
    cbn [mbind outcome_bind]. edestruct (orAt_spec l1) as (l2&->&Hl2&Hb2&Hbits2); [exact Hb1|rewrite Hl1, Hl, Hz; split; [|exact HcT]; lia|].
    cbn [mbind outcome_bind]. eexists. split; [done|]. split; [split; [done|apply wf_marked; [done|congruence|done]]|].
    intros i. unfold bit. cbn [marked]. rewrite Hbits2, Hbits1, Hbits, <- !orb_assoc. f_equal. rewrite orb_assoc, bytes_mask by lia.
    apply bool_decide_ext. naive_solver.
Qed.

(** In terms of addresses: a range adds the regions of its covered addresses. *)
Lemma add_mem s from to s' a :
  wf s → from < to → add minBytes s from to = Ret s' →
  mem s' a ↔ mem s a ∨ covered s a ∧ ∃ b, from ≤ b < to ∧ covered s b ∧ idOf s b = idOf s a.
Proof.
  intros Hw Hlt E. destruct (add_spec s from to Hw Hlt) as (s1&E1&Hs&Hbits). rewrite E1 in E. injection E as <-.
  unfold mem. destruct (sameRange_idOf s s1 a Hs) as [-> ->]. rewrite Hbits, orb_true_iff, bool_decide_eq_true.
  destruct (decide (overlaps s from to)) as [Ho|Ho].
  - rewrite (range_ids s from to (idOf s a) Hw Hlt Ho). naive_solver.
  - split; [naive_solver|]. intros [?|(?&b&Hb&Hc&_)]; [naive_solver|]. exfalso. apply Ho. unfold overlaps, covered in *. lia.
Qed.

Lemma add_covers s from to s' a :
  wf s → add minBytes s from to = Ret s' → from ≤ a < to → covered s a → mem s' a.
Proof. intros Hw E Ha Hc. apply (add_mem s from to s' a Hw ltac:(lia) E). right. split; [done|]. exists a. auto. Qed.

(** ** Tests of a range *)

Lemma bits_any b m : is_u8 b → (negb (u8 (Z.land b m) =? 0) = true ↔ ∃ j, 0 ≤ j < 8 ∧ Z.testbit b j = true ∧ Z.testbit m j = true).
Proof.
  intros Hb. rewrite byte_nonzero by apply u8_range. split; intros (j&Hj&H); exists j; split; try done.
  - by rewrite u8_bits, Z.land_spec, andb_true_iff in H.
  - by rewrite u8_bits, Z.land_spec, andb_true_iff.
Qed.

Lemma land_u8 b m : is_u8 b → u8 (Z.land b m) = Z.land b m.
Proof.
  intros Hb. apply Z.bits_inj'. intros j Hj. destruct (decide (j < 8)); [by apply u8_bits|]. unfold u8.
  rewrite Z.mod_pow2_bits_high, Z.land_spec by lia. rewrite <- (Z.mod_small b (2 ^ 8)) by done. by rewrite Z.mod_pow2_bits_high by lia.
Qed.

Lemma bit_byte s ch j b : marked s !! ch = Some b → 0 ≤ j < 8 → bit s (ch * 8 + j) = Z.testbit b j.
Proof.
  intros Hb Hj. unfold bit, bitAt, elemBits. rewrite Z.add_comm, Z.div_add, Z.mod_add by lia.
  by rewrite (Z.div_small j), (Z.mod_small j), Z.add_0_l, Hb by lia.
Qed.

Lemma split8 i : i = i / elemBits * 8 + i `mod` elemBits.
Proof. unfold elemBits. rewrite (Z.div_mod i 8) at 1 by done. lia. Qed.

Lemma join8 ch j : 0 ≤ j < 8 → (ch * 8 + j) / elemBits = ch ∧ (ch * 8 + j) `mod` elemBits = j.
Proof.
  intros Hj. unfold elemBits. rewrite Z.add_comm, Z.div_add, Z.mod_add by lia.
  by rewrite (Z.div_small j), (Z.mod_small j) by lia.
Qed.

(** Bits of the bytes before [ch], from the bit [iF] on, at the position [j]. *)
Definition seen (s : AddrSet) (iF ch j : Z) : Prop := ∃ i, i `mod` elemBits = j ∧ iF ≤ i ∧ i / elemBits < ch ∧ bit s i = true.

Lemma seen_step s iF ch j b :
  iF / elemBits < ch → marked s !! ch = Some b → 0 ≤ j < 8 → (seen s iF (ch + 1) j ↔ seen s iF ch j ∨ Z.testbit b j = true).
Proof.
  intros Hlt Hb Hj. split.
  - intros (i&Hi&Hge&Hch&Ht). destruct (decide (i / elemBits = ch)) as [E|]; [right|left; exists i; split_and!; try done; lia].
    rewrite (split8 i), E, Hi, (bit_byte s ch j b) in Ht by done. done.
  - intros [(i&Hi&Hge&Hch&Ht)|Ht]; [exists i; split_and!; try done; lia|]. destruct (join8 ch j Hj) as [E1 E2].
    exists (ch * 8 + j). split_and!; [done| |lia|by rewrite (bit_byte s ch j b)]. apply Z.lt_le_incl, div8_lt. lia.
Qed.

Lemma seen_first s iF b j :
  marked s !! (iF / elemBits) = Some b → 0 ≤ j < 8 →
  (seen s iF (iF / elemBits + 1) j ↔ Z.testbit b j = true ∧ iF `mod` elemBits ≤ j).
Proof.
  intros Hb Hj. split.
  - intros (i&Hi&Hge&Hch&Ht). assert (iF / elemBits ≤ i / elemBits) by by apply Z.div_le_mono.
    assert (i / elemBits = iF / elemBits) as E by lia. rewrite (split8 i), E, Hi, (bit_byte s _ j b) in Ht by done.
    split; [done|]. rewrite <- Hi. by apply div8_le.
  - intros [Ht Hle]. destruct (join8 (iF / elemBits) j Hj) as [E1 E2]. exists (iF / elemBits * 8 + j).
    split_and!; [done| |lia|by rewrite (bit_byte s _ j b)]. apply div8_eq; congruence.
Qed.

Lemma hasLoop_spec s iF b ch :
  wf s → marked s !! (iF / elemBits) = Some b → 0 ≤ iF / elemBits < ch → ch < 2 ^ k →
  ∃ r, for_loop (Z.to_nat (ch - (iF / elemBits + 1))) (iF / elemBits + 1)
      (λ ch r, b ← aget (marked s) ch; Ret (u8 (Z.lor r b))) (u8 (Z.land b (fromMask (iF `mod` elemBits)))) = Ret r ∧
    ∀ j, 0 ≤ j < 8 → (Z.testbit r j = true ↔ seen s iF ch j).
Proof.
  intros Hw Hb Hch Hk. for_inv (λ ch r, ∀ j, 0 ≤ j < 8 → (Z.testbit r j = true ↔ seen s iF ch j)) r Hr.
  - intros j Hj. rewrite u8_bits, Z.land_spec, fromMask_bits, andb_true_iff, Z.leb_le by (done || apply mod8). by rewrite (seen_first s iF b).
  - intros c r Hc Hr. destruct (lookupZ_lt_Some (marked s) c) as [b' Hb']; [rewrite (wf_len s Hw); lia|].
    rewrite (aget_Some _ _ _ Hb'). cbn. intros j Hj. rewrite u8_bits, Z.lor_spec, orb_true_iff, Hr by done. symmetry. apply seen_step; [lia|done|done].
  - exists r. split; [done|]. rewrite Z2Nat.id in Hr by lia. by replace (iF / elemBits + 1 + (ch - (iF / elemBits + 1))) with ch in Hr by lia.
Qed.

Lemma has_ids s from to :
  wf s → from < to →
  ∃ r, has minBytes s from to = Ret r ∧
    (r = true ↔ overlaps s from to ∧ ∃ i, idFrom s from ≤ i ≤ idTo s to ∧ bit s i = true).
Proof.
  intros Hw Hlt. unfold has. rewrite (ext_spec s Hw). destruct (decide (overlaps s from to)) as [Ho|Hn].
  2: { replace (_ || _) with true by (unfold overlaps in Hn; destruct (Z.leb_spec (offset s + res s * nbits) from), (Z.leb_spec to (offset s)); done || lia).
    exists false. split; [done|]. naive_solver. }
  replace (_ || _) with false by (destruct Ho; destruct (Z.leb_spec (offset s + res s * nbits) from), (Z.leb_spec to (offset s)); done || lia).
  destruct (overlaps_ids s from to Hw Hlt Ho) as (->&->&Hid&Hn). set (iF := idFrom s from) in *. set (iT := idTo s to) in *.
  pose proof Hw as [Hz Hby _ _]. rewrite nbits_bytes in Hn.
  assert (0 ≤ iF / elemBits ≤ iT / elemBits) as Hch by (split; [apply Z.div_pos; [lia|done]|apply Z.div_le_mono; [done|lia]]).
  assert (iT / elemBits < 2 ^ k) as HcT by (apply Z.div_lt_upper_bound; [done|]; unfold elemBits; lia).
  destruct (lookupZ_lt_Some (marked s) (iF / elemBits)) as [bF HbF]; [lia|]. rewrite (aget_Some _ _ _ HbF).
  pose proof (bytes_lookup _ _ _ Hby HbF). cbv zeta. cbn [mbind outcome_bind]. destruct (Z.eqb_spec (iF / elemBits) (iT / elemBits)) as [E|E].
  - eexists. split; [done|]. rewrite <- land_u8 by done. rewrite bits_any by done. split.
    + intros (j&Hj&Ht&Hm). split; [done|]. destruct (join8 (iF / elemBits) j Hj) as [E1 E2]. exists (iF / elemBits * 8 + j).
      split; [|by rewrite (bit_byte s _ j bF)]. pose proof (sameByte_mask iF iT (iF / elemBits * 8 + j) E) as Hx.
      rewrite E1, E2, bool_decide_true, Hm in Hx by done. symmetry in Hx. by apply bool_decide_eq_true in Hx.
    + intros (_&i&Hi&Ht). pose proof (sameByte_mask iF iT i E) as Hx. rewrite (bool_decide_true (_ ≤ _ ≤ _)) in Hx by done.
      apply andb_true_iff in Hx as [E'%bool_decide_eq_true Hm]. exists (i `mod` elemBits). pose proof (mod8 i). split_and!; try done; try lia.
      by rewrite <- (bit_byte s _ _ _ HbF), <- E', <- split8 by done.
  - destruct (hasLoop_spec s iF bF (iT / elemBits)) as (r&->&Hr); [done|done|lia|done|]. cbn [mbind outcome_bind].
    destruct (lookupZ_lt_Some (marked s) (iT / elemBits)) as [bT HbT]; [lia|]. rewrite (aget_Some _ _ _ HbT). cbn [mbind outcome_bind].
    eexists. split; [done|]. rewrite byte_nonzero by apply u8_range. split.
    + intros (j&Hj&Ht). rewrite u8_bits, Z.lor_spec, orb_true_iff, Z.land_spec, andb_true_iff, toMask_bits, Hr, Z.leb_le in Ht by (done || apply mod8).
      split; [done|]. destruct Ht as [(i&Hi&Hge&Hc&Ht)|[Ht Hle]].
      * exists i. split; [|done]. split; [done|]. apply Z.lt_le_incl, div8_lt. done.
      * destruct (join8 (iT / elemBits) j Hj) as [E1 E2]. exists (iT / elemBits * 8 + j). split; [|by rewrite (bit_byte s _ j bT)]. split.
        -- apply Z.lt_le_incl, div8_lt. lia.
        -- apply div8_eq; congruence.
    + intros (_&i&Hi&Ht). exists (i `mod` elemBits). pose proof (mod8 i). split; [done|].
      rewrite u8_bits, Z.lor_spec, orb_true_iff, Z.land_spec, andb_true_iff, toMask_bits, Hr, Z.leb_le by (done || apply mod8).
      assert (i / elemBits ≤ iT / elemBits) by (apply Z.div_le_mono; [done|lia]).
      destruct (decide (i / elemBits = iT / elemBits)) as [E'|].
      * right. split; [|apply div8_le; [done|lia]]. by rewrite <- (bit_byte s _ _ _ HbT), <- E', <- split8 by done.
      * left. exists i. split_and!; try done; lia.
Qed.

(** A test of a range finds the addresses of the set in it. *)
Lemma has_spec s from to :
  wf s → from < to → ∃ r, has minBytes s from to = Ret r ∧ (r = true ↔ ∃ a, from ≤ a < to ∧ mem s a).
Proof.
  intros Hw Hlt. destruct (has_ids s from to Hw Hlt) as (r&->&Hr). exists r. split; [done|]. rewrite Hr. clear Hr. split.
  - intros (Ho&i&Hi&Ht). apply (range_ids s from to i Hw Hlt Ho) in Hi as (a&Ha&Hc&<-). exists a. done.
  - intros (a&Ha&Hc&Ht). assert (overlaps s from to) as Ho by (unfold overlaps, covered in *; lia).
    split; [done|]. exists (idOf s a). split; [|done]. apply range_ids; eauto.
Qed.

(** ** Traversal *)

(** [rs] are the maximal runs of the numbers from [from] to [n] for which [p] holds. *)
Inductive runs (p : Z → bool) (n : Z) : Z → list (Z * Z) → Prop :=
  | runs_nil from : from ≤ n → (∀ i, from ≤ i < n → p i = false) → runs p n from []
  | runs_cons from a b rs :
      from ≤ a < b → b ≤ n → (∀ i, from ≤ i < a → p i = false) → (∀ i, a ≤ i < b → p i = true) →
      b = n ∨ p b = false → runs p n b rs → runs p n from ((a, b) :: rs).

Lemma runs_skip p n from from' rs :
  from ≤ from' → (∀ i, from ≤ i < from' → p i = false) → runs p n from' rs → runs p n from rs.
Proof.
  intros Hle Hf Hr. inversion Hr as [? Hn Hp|? a b rs' Hab Hb Hp Ht He Hrs]; subst.
  - constructor; [lia|]. intros i Hi. destruct (decide (i < from')); [apply Hf; lia|apply Hp; lia].
  - econstructor; try done; [lia|]. intros i Hi. destruct (decide (i < from')); [apply Hf; lia|apply Hp; lia].
Qed.

Lemma runs_elem p n from rs a b : runs p n from rs → (a, b) ∈ rs → from ≤ a < b ∧ b ≤ n ∧ ∀ i, a ≤ i < b → p i = true.
Proof.
  induction 1 as [|from a' b' rs Hab Hb Hp Ht He Hrs IH]; [by intros ?%not_elem_of_nil|].
  intros [[= -> ->]|Hin]%elem_of_cons; [done|]. destruct (IH Hin) as (?&?&?). split; [lia|done].
Qed.

Lemma runs_covers p n from rs i : runs p n from rs → from ≤ i < n → p i = true → ∃ a b, (a, b) ∈ rs ∧ a ≤ i < b.
Proof.
  induction 1 as [? Hn Hp|from a b rs Hab Hb Hp Ht He Hrs IH]; intros Hi Hpi.
  - by rewrite Hp in Hpi.
  - destruct (decide (i < a)); [by rewrite Hp in Hpi by lia|]. destruct (decide (i < b)); [exists a, b; split; [left|lia]|].
    destruct IH as (a'&b'&?&?); [lia|done|]. exists a', b'. split; [by right|done].
Qed.

(** One round looks for the next bit that differs from [v], in one byte. *)
Definition flipOf (v : bool) : Z := if v then 255 else 0.

Lemma flipOf_bits v j : 0 ≤ j < 8 → Z.testbit (flipOf v) j = v.
Proof. intros Hj. destruct v; [|apply Z.bits_0]. change (flipOf true) with (Z.ones 8). apply Z.ones_spec_low. lia. Qed.

Lemma scan s at_ v b :
  marked s !! (at_ / elemBits) = Some b →
  let current := u8 (Z.land (Z.lxor b (flipOf v)) (fromMask (at_ `mod` elemBits))) in
  let end_ := (at_ / elemBits + 1) * elemBits in
  at_ < end_ ∧
  (current = 0 → ∀ i, at_ ≤ i < end_ → bit s i = v) ∧
  (current ≠ 0 → let i0 := at_ / elemBits * elemBits + trailingZeros 8 current in
    at_ ≤ i0 < end_ ∧ bit s i0 = negb v ∧ ∀ i, at_ ≤ i < i0 → bit s i = v).
Proof.
  intros Hb current end_. pose proof (mod8 at_) as Hm. pose proof (split8 at_) as Hs.
  set (ch := at_ / elemBits) in *. set (m := at_ `mod` elemBits) in *.
  assert (end_ = ch * 8 + 8) as He by (unfold end_, elemBits; lia). clearbody end_.
  assert (∀ j, 0 ≤ j < 8 → Z.testbit current j = xorb (bit s (ch * 8 + j)) v && (m <=? j)) as Hc.
  { intros j Hj. unfold current. rewrite u8_bits, Z.land_spec, Z.lxor_spec, flipOf_bits, fromMask_bits by done. by rewrite (bit_byte s ch j b). }
  assert (is_u8 current) as Hu by apply u8_range. clearbody current.
  assert (∀ j, m ≤ j < 8 → Z.testbit current j = false → bit s (ch * 8 + j) = v) as Hv.
  { intros j Hj Hf. rewrite Hc in Hf by lia. destruct (Z.leb_spec m j); [|lia]. by destruct (bit s (ch * 8 + j)), v. }
  split; [lia|]. split.
  - intros -> i Hi. replace i with (ch * 8 + (i - ch * 8)) by lia. apply Hv; [lia|apply Z.bits_0].
  - intros Hn. destruct (trailingZeros_byte current Hu Hn) as (Hr&Ht&Hlow). set (z := trailingZeros 8 current) in *. cbv zeta. unfold elemBits.
    rewrite Hc in Ht by done. apply andb_true_iff in Ht as [Ht Hge%Z.leb_le]. split; [lia|]. split; [by destruct (bit s (ch * 8 + z)), v|].
    intros i Hi. replace i with (ch * 8 + (i - ch * 8)) by lia. apply Hv; [lia|apply Hlow; lia].
Qed.

Section traverse.
Context {S : Type} (fn : S → Z → Z → outcome (S * bool)).

(** Calls of [fn] for the ranges until it returns false. *)
Fixpoint foldRanges (s : AddrSet) (st : S) (rs : list (Z * Z)) : outcome (S * bool) :=
  match rs with
  | [] => Ret (st, true)
  | (a, b) :: rs =>
      '(st, go) ← fn st (toAddr s a) (toAddr s b);
      if negb go then Ret (st, false) else foldRanges s st rs
  end.

Lemma foldRanges_single s st a b : foldRanges s st [(a, b)] = fn st (toAddr s a) (toAddr s b).
Proof. cbn. destruct (fn st _ _) as [[st' [|]]| | |]; done. Qed.

Lemma traverseLoop_spec s fuel : wf s → ∀ at_, 0 ≤ at_ ≤ nbits → (Z.to_nat (nbits - at_) < fuel)%nat →
  (∃ rs, runs (bit s) nbits at_ rs ∧ ∀ st start, traverseLoop minBytes fn fuel s st 0 start at_ = foldRanges s st rs) ∧
  (∃ b rs, at_ ≤ b ≤ nbits ∧ (∀ i, at_ ≤ i < b → bit s i = true) ∧ (b = nbits ∨ bit s b = false) ∧ runs (bit s) nbits b rs ∧
    ∀ st start, traverseLoop minBytes fn fuel s st 255 start at_ = foldRanges s st ((start, b) :: rs)).
Proof.
  intros Hw. induction fuel as [|fuel IH]; intros at_ Hat Hf; [lia|]. cbn [traverseLoop]. rewrite nbits_u64.
  destruct (Z.ltb_spec at_ nbits) as [Hlt|Hge].
  2: { assert (at_ = nbits) as -> by lia. split.
    - exists []. split; [apply runs_nil; lia|done].
    - exists nbits, []. split_and!; [lia|lia|intros; lia|by left|apply runs_nil; lia|]. intros st start. by rewrite foldRanges_single. }
  destruct (lookupZ_lt_Some (marked s) (at_ / elemBits)) as [b Hb].
  { rewrite (wf_len s Hw). rewrite nbits_bytes in Hlt. split; [apply Z.div_pos; [lia|done]|apply Z.div_lt_upper_bound; [done|unfold elemBits; lia]]. }
  rewrite (aget_Some _ _ _ Hb). cbn [mbind outcome_bind].
  assert ((at_ / elemBits + 1) * elemBits ≤ nbits) as Hend.
  { rewrite nbits_bytes in *. unfold elemBits in *. assert (at_ / 8 < 2 ^ k) by (apply Z.div_lt_upper_bound; lia). lia. }
  split.
  - destruct (scan s at_ false b Hb) as (He&H0&H1). cbn [flipOf] in *. set (cur := u8 _) in *.
    destruct (Z.eqb_spec cur 0) as [E|E]; cbn [negb].
    + destruct (IH ((at_ / elemBits + 1) * elemBits)) as [(rs&Hrs&Hrun) _]; [lia|lia|]. exists rs. split; [|done].
      apply runs_skip with ((at_ / elemBits + 1) * elemBits); [lia|by apply H0|done].
    + destruct (H1 E) as (Hi&Ht&Hz). set (i0 := at_ / elemBits * elemBits + trailingZeros 8 cur) in *.
      destruct (IH (i0 + 1)) as [_ (b'&rs&Hb'&Hbits&Hstop&Hrs&Hrun)]; [lia|lia|]. exists ((i0, b') :: rs). split; [|intros; apply Hrun].
      apply runs_cons; [lia|lia|done| |done|done]. intros i Hi'. destruct (decide (i = i0)) as [->|]; [done|apply Hbits; lia].
  - destruct (scan s at_ true b Hb) as (He&H0&H1). cbn [flipOf] in *. set (cur := u8 _) in *.
    destruct (Z.eqb_spec cur 0) as [E|E]; cbn [negb].
    + destruct (IH ((at_ / elemBits + 1) * elemBits)) as [_ (b'&rs&Hb'&Hbits&Hstop&Hrs&Hrun)]; [lia|lia|]. exists b', rs.
      split_and!; try done; [lia|lia|]. intros i Hi. destruct (decide (i < (at_ / elemBits + 1) * elemBits)); [apply H0; [done|lia]|apply Hbits; lia].
    + destruct (H1 E) as (Hi&Ht&Hz). set (i0 := at_ / elemBits * elemBits + trailingZeros 8 cur) in *.
      destruct (IH (i0 + 1)) as [(rs&Hrs&Hrun) _]; [lia|lia|]. exists i0, rs. split_and!; [lia|lia|done|by right| |].
      * apply runs_skip with (i0 + 1); [lia| |done]. intros i Hi'. by replace i with i0 by lia.
      * intros st start. cbn [foldRanges Z.eqb negb]. destruct (fn st (toAddr s start) (toAddr s i0)) as [[st' [|]]| | |]; try done. cbn. apply Hrun.
Qed.

(** [traverse] calls its function for the maximal runs of set bits, in order. *)
Lemma traverse_runs s st :
  wf s → ∃ rs, runs (bit s) nbits 0 rs ∧ traverse minBytes fn s st = foldRanges s st rs.
Proof.
  intros Hw. pose proof nbits_pos. destruct (traverseLoop_spec s (Datatypes.S (Z.to_nat (totalBytes minBytes * elemBits))) Hw 0) as [(rs&Hrs&Hrun) _].
  - lia.
  - destruct Hsized as [? ->]. rewrite nbits_bytes. unfold elemBits. lia.
  - exists rs. split; [done|]. unfold traverse. apply Hrun.
Qed.
End traverse.

(** The address of a bit. *)
Lemma toAddr_spec s i : wf s → 0 ≤ i ≤ nbits → toAddr s i = offset s + i * res s.
Proof.
  intros Hw Hi. pose proof (wf_ext s Hw). destruct (offset_range s (wf_data s Hw)). pose proof (res_pos s (wf_data s Hw)).
  unfold toAddr. rewrite Z.shiftl_mul_pow2 by lia. fold (res s). rewrite (u64_small (i * res s)) by (unfold is_u64; nia).
  apply u64_small. unfold is_u64. nia.
Qed.

(** The addresses in the regions of the bits [a] to [b]. *)
Lemma region_range s a b x :
  wf s → 0 ≤ a ≤ b → b ≤ nbits → (toAddr s a ≤ x < toAddr s b ↔ covered s x ∧ a ≤ idOf s x < b).
Proof.
  intros Hw Hab Hb. rewrite !toAddr_spec by (done || lia). pose proof (res_pos s (wf_data s Hw)) as Hr.
  unfold covered, idOf. set (off := offset s). set (r := res s) in *.
  pose proof (Z.div_mod (x - off) r ltac:(lia)). pose proof (Z.mod_pos_bound (x - off) r Hr). split.
  - intros [H1 H2]. split; [nia|]. split; [apply Z.div_le_lower_bound; lia|apply Z.div_lt_upper_bound; lia].
  - intros [_ [H1 H2]]. nia.
Qed.

Lemma runs_mem s rs x :
  wf s → runs (bit s) nbits 0 rs → (mem s x ↔ ∃ a b, (a, b) ∈ rs ∧ toAddr s a ≤ x < toAddr s b).
Proof.
  intros Hw Hrs. split.
  - intros [Hc Ht]. destruct (bitId_covered s x Hw Hc) as [_ Hid]. destruct (runs_covers _ _ _ _ _ Hrs Hid Ht) as (a&b&Hin&Hab).
    destruct (runs_elem _ _ _ _ _ _ Hrs Hin) as (?&?&_). exists a, b. split; [done|]. apply region_range; [done|lia|lia|done].
  - intros (a&b&Hin&Hx). destruct (runs_elem _ _ _ _ _ _ Hrs Hin) as (?&?&Ht). apply region_range in Hx as [Hc Hx]; [|done|lia|lia].
    split; [done|]. by apply Ht.
Qed.

(** ** Construction and resizing *)

Lemma trailingZeros_pow2 p : 0 ≤ p < 64 → trailingZeros 64 (2 ^ p) = p.
Proof.
  intros Hp. apply Z.eqb_eq. apply (forall_range (λ p, trailingZeros 64 (2 ^ p) =? p) 0 64); [|lia]. vm_compute. reflexivity.
Qed.

(** A range for which the computations of [init] do not wrap around. *)
Definition fits (from to : Z) : Prop := 0 ≤ from < to ∧ to ≤ 2 ^ 62.

Lemma init_data from to :
  fits from to → ∃ sh, 0 ≤ sh < 64 ∧ data (init minBytes from to) = from / 64 * 64 + sh ∧
    to - from / 64 * 64 ≤ 2 ^ sh * nbits ∧ 2 ^ sh * nbits ≤ 2 ^ 62.
Proof.
  intros [Hf Ht]. unfold init. cbn [data clear]. rewrite land_high by (unfold is_u64; lia). rewrite nbits_u64. set (off := from / 64 * 64).
  assert (off ≤ from < off + 64) as Hoff.
  { unfold off. pose proof (Z.div_mod from 64). pose proof (Z.mod_pos_bound from 64). lia. }
  assert (0 ≤ off) by (unfold off; pose proof (Z.div_pos from 64); lia).
  rewrite (u64_small (to - off)) by (unfold is_u64; lia). rewrite nextPowerOfTwo_log2_up by lia. set (p := Z.log2_up (to - off)).
  assert (0 ≤ p ≤ 62) as Hp.
  { split; [apply Z.log2_up_nonneg|]. rewrite <- (Z.log2_up_pow2 62) by lia. apply Z.log2_up_le_mono. lia. }
  assert (to - off ≤ 2 ^ p) as Hle.
  { destruct (decide (to - off = 1)) as [->|]; [pose proof (Z.pow_pos_nonneg 2 p); lia|]. apply Z.log2_log2_up_spec. lia. }
  rewrite trailingZeros_pow2 by lia. destruct Hsized as [Hk _]. unfold nbits. rewrite trailingZeros_pow2 by lia.
  rewrite u64_small by (unfold is_u64; lia). exists (p - Z.min p (k + 3)). split; [lia|]. split; [by apply (lor_mul_pow2 (from / 64) _ 6); lia|].
  rewrite <- Z.pow_add_r by lia. split; [|apply Z.pow_le_mono_r; lia]. etransitivity; [exact Hle|]. apply Z.pow_le_mono_r; lia.
Qed.

Lemma bitAt_zero (l : list Z) i : bitAt ((λ _, 0) <$> l) i = false.
Proof.
  unfold bitAt. destruct (_ !! _) as [b|] eqn:E; [|done]. assert (b ∈ (λ _ : Z, 0) <$> l) as Hb by (apply list_elem_of_lookupZ; eauto).
  apply list_elem_of_fmap in Hb as (?&->&_). apply Z.bits_0.
Qed.

Lemma init_marked from to : marked (init minBytes from to) = (λ _, 0) <$> replicate (Z.to_nat (totalBytes minBytes)) 0.
Proof. reflexivity. Qed.

Lemma init_spec from to :
  fits from to →
  let s := init minBytes from to in
  wf s ∧ (∀ a, ¬ mem s a) ∧ (∀ a, from ≤ a < to → covered s a) ∧
  offset s = from / 64 * 64 ∧ offset s + res s * nbits ≤ 2 ^ 63.
Proof.
  intros Hft s. destruct (init_data from to Hft) as (sh&Hsh&Hd&Hle&Hmax). destruct Hft as [Hf Ht].
  assert (0 ≤ from / 64 * 64 ≤ from).
  { pose proof (Z.div_mod from 64). pose proof (Z.mod_pos_bound from 64). pose proof (Z.div_pos from 64). lia. }
  assert (is_u64 (data s)) as Hu by (unfold is_u64, s; lia).
  assert (offset s = from / 64 * 64) as Ho.
  { unfold offset. rewrite land_high by done. unfold s. rewrite Hd, Z.add_comm, Z.div_add, Z.div_small by lia. lia. }
  assert (res s = 2 ^ sh) as Hr.
  { unfold res, shift. rewrite land_shift. unfold s. rewrite Hd, Z.add_comm, Z.mod_add, Z.mod_small by lia. done. }
  unfold covered. rewrite Ho, Hr. split_and!; [|intros a [_ Hb]; unfold bit, s in Hb; rewrite init_marked, bitAt_zero in Hb; discriminate|lia|reflexivity|lia].
  constructor; [| |exact Hu|rewrite Ho, Hr; lia]; unfold s; rewrite init_marked.
  - destruct Hsized as [? ->]. unfold zlen. rewrite length_fmap, length_replicate. pose proof bytes_le. lia.
  - apply Forall_fmap, Forall_forall. intros ? _. unfold compose, is_u8. lia.
Qed.

Lemma foldl_lor (l : list Z) a : Z.eqb (foldl Z.lor a l) 0 = true → a = 0 ∧ Forall (.= 0) l.
Proof.
  revert a. induction l as [|b l IH]; intros a H; cbn in H; [by apply Z.eqb_eq in H|].
  apply IH in H as [H ?]. apply Z.lor_eq_0_iff in H as [-> ->]. by split; [|constructor].
Qed.

Lemma empty_mem s a : empty s = true → ¬ mem s a.
Proof.
  intros [_ H]%foldl_lor [_ Hb]. unfold bit, bitAt in Hb. destruct (marked s !! _) as [b|] eqn:E; [|done].
  rewrite Forall_forall in H. rewrite (H b), Z.bits_0 in Hb; [done|]. apply list_elem_of_In, list_elem_of_lookupZ. eauto.
Qed.

Lemma toAddr_lt s a b : wf s → 0 ≤ a < b → b ≤ nbits → toAddr s a < toAddr s b.
Proof. intros Hw Hab Hb. rewrite !toAddr_spec by (done || lia). pose proof (res_pos s (wf_data s Hw)). nia. Qed.

Lemma copyRanges_spec s rs set :
  wf s → wf set → Forall (λ '(a, b), 0 ≤ a < b ∧ b ≤ nbits) rs →
  ∃ set', foldRanges (Copy minBytes) s set rs = Ret (set', true) ∧ sameRange set set' ∧
    ∀ x, mem set' x ↔ mem set x ∨ covered set x ∧
      ∃ a b y, (a, b) ∈ rs ∧ toAddr s a ≤ y < toAddr s b ∧ covered set y ∧ idOf set y = idOf set x.
Proof.
  intros Hw Hset Hrs. revert set Hset. induction Hrs as [|[a b] rs [Hab Hb] Hrs IH]; intros set Hset.
  { exists set. split_and!; [done|by split|]. intros x. split; [auto|]. intros [?|(_&?&?&?&Hin&_)]; [done|]. by apply not_elem_of_nil in Hin. }
  cbn [foldRanges]. pose proof (toAddr_lt s a b Hw Hab Hb) as Hlt.
  destruct (add_spec set (toAddr s a) (toAddr s b) Hset Hlt) as (set1&E&Hs1&_).
  assert (Copy minBytes set (toAddr s a) (toAddr s b) = Ret (set1, true)) as -> by (unfold Copy; by rewrite E). cbn [mbind outcome_bind negb].
  destruct (IH set1 (proj2 Hs1)) as (set'&->&Hs'&Hmem). exists set'. split; [done|].
  split; [split; [destruct Hs1, Hs'; congruence|apply Hs']|]. intros x. rewrite Hmem, (add_mem set _ _ set1 x Hset Hlt E).
  destruct (sameRange_idOf set set1 x Hs1) as [-> ->].
  assert ((∃ a0 b0 y, (a0, b0) ∈ rs ∧ toAddr s a0 ≤ y < toAddr s b0 ∧ covered set1 y ∧ idOf set1 y = idOf set x) ↔
    (∃ a0 b0 y, (a0, b0) ∈ rs ∧ toAddr s a0 ≤ y < toAddr s b0 ∧ covered set y ∧ idOf set y = idOf set x)) as ->.
  { by split; intros (a0&b0&y&?&?&?&?); exists a0, b0, y; destruct (sameRange_idOf set set1 y Hs1) as [Ei Ec]; rewrite Ei, Ec in *. }
  setoid_rewrite elem_of_cons. split; [naive_solver|]. intros [?|(Hc&a0&b0&y&[[= -> ->]|Hin]&?&?&?)]; [auto|left; right|right]; eauto 10.
Qed.

(** The range [resize] makes room for. *)
Definition resizeFits (s : AddrSet) (from to : Z) : Prop :=
  fits from to ∧ fits (Z.min from (offset s)) (Z.max to (offset s + res s * nbits)).

Lemma resize_spec s from to :
  wf s → resizeFits s from to →
  ∃ s', resize minBytes s from to = Ret s' ∧ wf s' ∧ (∀ a, from ≤ a < to → covered s' a) ∧
    (∀ a, mem s a → mem s' a) ∧ (∀ a, mem s' a → ∃ b, mem s b ∧ idOf s' b = idOf s' a).
Proof.
  intros Hw [Hf1 Hf2]. unfold resize. destruct (empty s) eqn:He.
  { destruct (init_spec from to Hf1) as (?&Hm&?&_). eexists. split; [done|]. split_and!; try done.
    - intros a Ha. by apply empty_mem in Ha.
    - intros a Ha. by apply Hm in Ha. }
  rewrite (ext_spec s Hw). cbv zeta. destruct (init_spec _ _ Hf2) as (Hwi&Hm&Hc&_). set (set := init _ _ _) in *.
  destruct (traverse_runs (Copy minBytes) s set Hw) as (rs&Hrs&->).
  destruct (copyRanges_spec s rs set Hw Hwi) as (set'&->&Hs'&Hmem).
  { apply Forall_forall. intros [a b] Hin%list_elem_of_In. destruct (runs_elem _ _ _ _ _ _ Hrs Hin) as (?&?&_). lia. }
  cbn [mbind outcome_bind]. exists set'. split; [done|]. split; [apply Hs'|].
  assert (∀ a, covered set' a ↔ covered set a) as Hcov by (intros a; apply (sameRange_idOf _ _ _ Hs')).
  split; [intros a Ha; apply Hcov, Hc; lia|]. split.
  - intros a Ha. pose proof Ha as [Hca _]. apply Hmem. right. assert (covered set a) by (apply Hc; unfold covered in Hca; lia).
    split; [done|]. apply (runs_mem s rs a Hw Hrs) in Ha as (i&j&?&?). exists i, j, a. done.
  - intros a [Ha|(_&i&j&y&Hin&Hy&_&Hi)]%Hmem; [by apply Hm in Ha|]. exists y.
    destruct (sameRange_idOf _ _ y Hs') as [-> _]. destruct (sameRange_idOf _ _ a Hs') as [-> _]. split; [|done]. apply (runs_mem s rs y Hw Hrs). eauto.
Qed.
End correct.

#[export] Instance fits_dec from to : Decision (fits from to).
Proof. unfold fits. apply _. Defined.
#[export] Instance resizeFits_dec k s from to : Decision (resizeFits k s from to).
Proof. unfold resizeFits. apply _. Defined.

Lemma intersectRanges_spec (minBytes k sz k2 : Z) s other rs :
  sized minBytes k → sized sz k2 → wf k s → wf k2 other → Forall (λ '(a, b), 0 ≤ a < b ∧ b ≤ nbits k) rs →
  ∃ go, foldRanges (Intersect sz other) s tt rs = Ret (tt, go) ∧
    (go = false ↔ ∃ a b x, (a, b) ∈ rs ∧ toAddr s a ≤ x < toAddr s b ∧ mem k2 other x).
Proof.
  intros Hz1 Hz2 Hw Hwo Hrs. induction Hrs as [|[a b] rs [Hab Hb] Hrs IH].
  { exists true. split; [done|]. split; [done|]. intros (?&?&?&Hin&_). by apply not_elem_of_nil in Hin. }
  cbn [foldRanges]. assert (toAddr s a < toAddr s b) as Hlt by eauto using toAddr_lt.
  destruct (has_spec sz k2 Hz2 other (toAddr s a) (toAddr s b) Hwo Hlt) as (r&E&Hr).
  assert (Intersect sz other tt (toAddr s a) (toAddr s b) = Ret (tt, negb r)) as -> by (unfold Intersect; by rewrite E).
  cbn [mbind outcome_bind]. rewrite negb_involutive.
  destruct r.
  - exists false. split; [done|]. split; [|done]. intros _. destruct (proj1 Hr eq_refl) as (x&?&?). exists a, b, x. split; [left|done].
  - destruct IH as (go&->&Hgo). exists go. split; [done|]. rewrite Hgo. split.
    + intros (a0&b0&x&?&?&?). exists a0, b0, x. split; [by right|done].
    + intros (a0&b0&x&[[= -> ->]|Hin]%elem_of_cons&?&?); [|eauto 10]. exfalso. discriminate (proj2 Hr). eauto.
Qed.

Lemma intersects_mem (minBytes k sz k2 : Z) s other :
  sized minBytes k → sized sz k2 → wf k s → wf k2 other →
  ∃ r, intersects minBytes sz s other = Ret r ∧ (r = true ↔ ∃ x, mem k s x ∧ mem k2 other x).
Proof.
  intros Hz1 Hz2 Hw Hwo. unfold intersects. destruct (traverse_runs minBytes k Hz1 (Intersect sz other) s tt Hw) as (rs&Hrs&->).
  destruct (intersectRanges_spec minBytes k sz k2 s other rs Hz1 Hz2 Hw Hwo) as (go&->&Hgo).
  { apply Forall_forall. intros [a b] Hin%list_elem_of_In. destruct (runs_elem _ _ _ _ _ _ Hrs Hin) as (?&?&_). lia. }
  cbn. eexists. split; [done|]. rewrite negb_true_iff, Hgo. split.
  - intros (a&b&x&?&?&?). exists x. split; [|done]. apply (runs_mem k s rs x Hw Hrs). eauto.
  - intros (x&Hx&?). apply (runs_mem k s rs x Hw Hrs) in Hx as (a&b&?&?). eauto 10.
Qed.

(** ** The properties *)

(** After a range was added, a test of a range is true exactly if it meets an address of
    the set or one in the region (of the resolution of the set) of a covered address of the
    range that was added; neither reads or writes outside the bitmap. *)
Theorem ranges_exact minBytes k s from to from' to' :
  sized minBytes k → wf k s → from < to → from' < to' →
  returns (s' ← add minBytes s from to; has minBytes s' from' to') (λ r, r = true ↔ ∃ a, from' ≤ a < to' ∧
    (mem k s a ∨ covered k s a ∧ ∃ b, from ≤ b < to ∧ covered k s b ∧ idOf s b = idOf s a)).
Proof.
  intros Hz Hw Hlt Hlt'. destruct (add_spec minBytes k Hz s from to Hw Hlt) as (s'&E&[_ Hw']&_). rewrite E. cbn [mbind outcome_bind].
  destruct (has_spec minBytes k Hz s' from' to' Hw' Hlt') as (r&->&Hr). cbn [returns]. rewrite Hr.
  by setoid_rewrite (λ a, add_mem minBytes k Hz s from to s' a Hw Hlt E).
Qed.

Lemma pinnedSized : sized pinnedBytes 7.
Proof. split; [lia|]. vm_compute. reflexivity. Qed.
Lemma summarySized : sized summaryBytes 4.
Proof. split; [lia|]. vm_compute. reflexivity. Qed.

(** A set of a 64 KiB block. *)
Definition block_ex : AddrSet := init pinnedBytes 0x10000 0x20000.
Lemma block_ex_covered a : 0x10000 ≤ a < 0x20000 → covered 7 block_ex a.
Proof. assert (offset block_ex = 0x10000 ∧ res block_ex = 64) as [Eo Er] by by vm_compute. unfold covered. rewrite Eo, Er. by change (nbits 7) with 1024. Qed.
Lemma block_ex_wf : wf 7 block_ex ∧ ∀ a, ¬ mem 7 block_ex a.
Proof. destruct (init_spec pinnedBytes 7 pinnedSized 0x10000 0x20000) as (?&?&_); [unfold fits; lia|done]. Qed.

Lemma ranges_exact_witness :
  returns (s' ← add pinnedBytes block_ex 0x10010 0x11008; has pinnedBytes s' 0x11020 0x11040) (λ r, r = true).
Proof.
  eapply returns_mono; [apply (ranges_exact pinnedBytes 7 block_ex 0x10010 0x11008 0x11020 0x11040 pinnedSized (proj1 block_ex_wf)); lia|].
  intros r Hr. apply Hr. exists 0x11020. split; [lia|]. right. split; [apply block_ex_covered; lia|]. exists 0x11000.
  split; [lia|]. split; [apply block_ex_covered; lia|]. vm_compute. reflexivity.
Defined.

(** [intersects] is true exactly if there is an address in both sets, which may have
    different sizes, ranges and resolutions. *)
Theorem intersects_spec minBytes k sz k2 s other :
  sized minBytes k → sized sz k2 → wf k s → wf k2 other →
  returns (intersects minBytes sz s other) (λ r, r = true ↔ ∃ x, mem k s x ∧ mem k2 other x).
Proof. intros Hz1 Hz2 Hw Hwo. destruct (intersects_mem minBytes k sz k2 s other Hz1 Hz2 Hw Hwo) as (r&->&Hr). done. Qed.

Lemma intersects_spec_witness :
  returns (s ← add pinnedBytes block_ex 0x10010 0x11008;
           o ← add summaryBytes (init summaryBytes 0x8000 0x18000) 0x11000 0x12000;
           intersects pinnedBytes summaryBytes s o) (λ r, r = true).
Proof.
  destruct (add_spec pinnedBytes 7 pinnedSized block_ex 0x10010 0x11008 (proj1 block_ex_wf)) as (s&Es&[_ Hs]&_); [lia|].
  destruct (init_spec summaryBytes 4 summarySized 0x8000 0x18000) as (Hwi&_&Hc&_); [unfold fits; lia|].
  destruct (add_spec summaryBytes 4 summarySized (init summaryBytes 0x8000 0x18000) 0x11000 0x12000 Hwi) as (o&Eo&[_ Ho]&_); [lia|].
  pose proof (intersects_spec pinnedBytes 7 summaryBytes 4 s o pinnedSized summarySized Hs Ho) as H.
  rewrite Es, Eo. cbn [mbind outcome_bind]. eapply returns_mono; [exact H|]. intros r Hr. apply Hr. exists 0x11000.
  split; [apply (add_covers pinnedBytes 7 pinnedSized _ _ _ _ _ (proj1 block_ex_wf) Es); [lia|apply block_ex_covered; lia]|].
  apply (add_covers summaryBytes 4 summarySized _ _ _ _ _ Hwi Eo); [lia|]. apply Hc. lia.
Defined.

(** C40: [resize] loses no address, covers the new range and adds only addresses that share a
    region with one of the set, as long as the range it has to cover ends below 2^62. *)
Theorem resize_keeps minBytes k s from to :
  sized minBytes k → wf k s → resizeFits k s from to →
  returns (resize minBytes s from to) (λ s', wf k s' ∧ (∀ a, from ≤ a < to → covered k s' a) ∧
    (∀ a, mem k s a → mem k s' a) ∧ (∀ a, mem k s' a → ∃ b, mem k s b ∧ idOf s' b = idOf s' a)).
Proof. intros Hz Hw Hf. destruct (resize_spec minBytes k Hz s from to Hw Hf) as (s'&->&?). done. Qed.

Lemma resize_keeps_witness :
  returns (s ← add pinnedBytes block_ex 0x10010 0x11008; s ← resize pinnedBytes s 0x8000 0x9000; hasAddr pinnedBytes s 0x11000) (λ r, r = true).
Proof.
  destruct (add_spec pinnedBytes 7 pinnedSized block_ex 0x10010 0x11008 (proj1 block_ex_wf)) as (s&Es&[Ed Hs]&_); [lia|].
  assert (mem 7 s 0x11000) as Hm.
  { apply (add_covers pinnedBytes 7 pinnedSized _ _ _ _ _ (proj1 block_ex_wf) Es); [lia|apply block_ex_covered; lia]. }
  assert (resizeFits 7 s 0x8000 0x9000) as Hf.
  { assert (resizeFits 7 block_ex 0x8000 0x9000) as Hb by (apply (bool_decide_unpack _); vm_compute; exact I).
    unfold resizeFits, res, offset, shift in *. by rewrite Ed. }
  pose proof (resize_keeps pinnedBytes 7 s 0x8000 0x9000 pinnedSized Hs Hf) as H. rewrite Es. cbn [mbind outcome_bind].
  eapply returns_bind; [exact H|]. intros s' (Hw'&_&Hk&_).
  destruct (hasAddr_spec pinnedBytes 7 pinnedSized s' 0x11000 Hw') as (r&->&Hr); [unfold is_u64; lia|]. cbn. apply Hr, Hk, Hm.
Defined.
