(* ===== verification/History.v ===== *)
(** * The movement history of the SMM collector

    [Gc/SMM/History.h] and [Gc/SMM/History.cpp]: which addresses objects have been moved
    from and to, by epoch, and the watches that ask for it.

    The collector changes the history while the other threads are stopped; a thread that
    queries it takes no lock, so that the history may change between two of its reads.  A
    query runs along the states the memory goes through ([run]), at a moment and with a
    schedule: for every access, how many changes happen before it and, for a test of a
    bitmap during which the bitmap changes, the arbitrary result it gives. *)

From stdpp Require Import base list numbers decidable option.
From Stdlib Require Import ZArith Lia.
From S2P Require Import Prelude Bitwise AddrSet.

Module History.

Definition historyLength : Z := 16.
Abbreviation historyBytes := AddrSet.historyBytes.

(** [inHistory] *)
Definition inHistory (queryLow queryHigh epochLow epochHigh : Z) : bool :=
  if historyLength <=? u32 (epochLow - queryLow) then false
  else if epochLow <? queryLow then epochHigh =? u32 (queryHigh + 1)
  else epochHigh =? queryHigh.

(** ** Changes, by the collector *)

Record HistorySummary := mkSummary { summary : AddrSet.AddrSet; version : Z }.

Definition newSummary : HistorySummary := mkSummary (AddrSet.new historyBytes) 0.

(** [HistorySummary::clear], [HistorySummary::add] *)
Definition summaryClear (s : HistorySummary) : HistorySummary :=
  mkSummary (AddrSet.new historyBytes) (u64 (version s + 1)).

Definition summaryAdd (s : HistorySummary) (from to : Z) : outcome HistorySummary :=
  set ← (if negb (AddrSet.covers historyBytes (summary s) from to)
         then AddrSet.resize historyBytes (summary s) from to
         else Ret (summary s));
  set ← AddrSet.add historyBytes set from to;
  Ret (mkSummary set (u64 (version s + 1))).

Record HistorySet := mkSet { history : list HistorySummary; preHistory : HistorySummary }.

Definition newSet : HistorySet := mkSet (replicate (Z.to_nat historyLength) newSummary) newSummary.

(** [HistorySet::step], [HistorySet::add] *)
Definition setStep (s : HistorySet) (newEpoch : Z) : outcome HistorySet :=
  x ← aget (history s) (newEpoch `mod` historyLength);
  l ← aset (history s) (newEpoch `mod` historyLength) (summaryClear x);
  Ret (mkSet l (preHistory s)).

Definition setAdd (s : HistorySet) (begin end_ : Z) : outcome HistorySet :=
  l ← for_loop (Z.to_nat historyLength) 0 (λ i l,
    x ← aget l i; x ← summaryAdd x begin end_; aset l i x) (history s);
  pre ← summaryAdd (preHistory s) begin end_;
  Ret (mkSet l pre).

Record History := mkHistory { from : HistorySet; to : HistorySet; epochLow : Z; epochHigh : Z }.

Definition new : History := mkHistory newSet newSet 1 0.

Definition step (h : History) : outcome History :=
  let '(low, high) :=
    if epochLow h =? 2 ^ 32 - 1 then (0, u32 (epochHigh h + 1)) else (u32 (epochLow h + 1), epochHigh h) in
  f ← setStep (from h) low;
  t ← setStep (to h) low;
  Ret (mkHistory f t low high).

Definition addFrom (h : History) (begin end_ : Z) : outcome History :=
  f ← setAdd (from h) begin end_; Ret (mkHistory f (to h) (epochLow h) (epochHigh h)).
Definition addTo (h : History) (begin end_ : Z) : outcome History :=
  t ← setAdd (to h) begin end_; Ret (mkHistory (from h) t (epochLow h) (epochHigh h)).

(** ** Queries, by the other threads *)

(** The moment, and for every access to come the changes before it and the result of an
    access that is torn. *)
Definition sched : Type := nat * list (nat * bool).
Definition reader (A : Type) : Type := sched → outcome (A * sched).

#[export] Instance reader_ret : MRet reader := λ A a s, Ret (a, s).
#[export] Instance reader_bind : MBind reader := λ A B f m s, '(a, s) ← m s; f a s.

#[export] Instance AddrSet_eq_dec : EqDecision AddrSet.AddrSet.
Proof. solve_decision. Defined.

Section queries.
Context (run : list History).

(** The history at a moment: the last one does not change any more. *)
Definition stateAt (t : nat) : outcome History :=
  match run !! t with
  | Some h => Ret h
  | None => match list.last run with Some h => Ret h | None => Fault end
  end.

(** [atomicRead] *)
Definition atomicRead {A} (f : History → A) : reader A := λ '(t, sc),
  match sc with
  | [] => OutOfFuel
  | (d, _) :: sc => h ← stateAt (t + d); Ret (f h, ((t + d)%nat, sc))
  end.

(** Whether a summary is the same at every moment from [t] to [t + d]. *)
Fixpoint stable (f : History → outcome HistorySummary) (t d : nat) : outcome bool :=
  h ← stateAt t; x ← f h;
  match d with
  | O => Ret true
  | S d =>
      h' ← stateAt (S t); x' ← f h'; b ← stable f (S t) d;
      Ret (bool_decide (summary x = summary x') && b)
  end.

(** A test of the bitmap of a summary, which is not atomic. *)
Definition testSummary (f : History → outcome HistorySummary) (test : AddrSet.AddrSet → outcome bool) : reader bool :=
  λ '(t, sc),
  match sc with
  | [] => OutOfFuel
  | (d, torn) :: sc =>
      h ← stateAt t; x ← f h; b ← stable f t d;
      r ← (if b : bool then test (summary x) else Ret torn);
      Ret (r, ((t + d)%nat, sc))
  end.

Definition atomicVersion (f : History → outcome HistorySummary) : reader Z := λ s,
  match atomicRead f s with
  | Ret (m, s) => x ← m; Ret (version x, s)
  | Throw e => Throw e
  | Fault => Fault
  | OutOfFuel => OutOfFuel
  end.

(** [HistorySummary::intersects] and [has]: retry until the version is the same before and
    after the test. *)
Fixpoint summaryQuery (fuel : nat) (f : History → outcome HistorySummary)
    (test : AddrSet.AddrSet → outcome bool) : reader bool :=
  match fuel with
  | O => λ _, OutOfFuel
  | S fuel =>
      old ← atomicVersion f;
      result ← testSummary f test;
      now ← atomicVersion f;
      if negb (old =? now) then summaryQuery fuel f test else mret result
  end.

(** Every retry waits for a change. *)
Definition queryFuel : nat := S (length run).

(** [HistorySet::query], for the test of a set and of an address. *)
Definition query (set : History → HistorySet) (test : AddrSet.AddrSet → outcome bool)
    (queryLow queryHigh : Z) : reader bool :=
  low ← atomicRead epochLow;
  high ← atomicRead epochHigh;
  if negb (inHistory queryLow queryHigh low high)
  then summaryQuery queryFuel (λ h, Ret (preHistory (set h))) test
  else
    moved ← summaryQuery queryFuel (λ h, aget (history (set h)) (queryLow `mod` historyLength)) test;
    newLow ← atomicRead epochLow;
    if negb (newLow =? low) then
      high ← atomicRead epochHigh;
      if negb (inHistory queryLow queryHigh newLow high)
      then summaryQuery queryFuel (λ h, Ret (preHistory (set h))) test
      else mret moved
    else mret moved.

Definition querySet (set : History → HistorySet) (watch : AddrSet.AddrSet) : Z → Z → reader bool :=
  query set (λ s, AddrSet.intersects historyBytes historyBytes s watch).
Definition queryAddr (set : History → HistorySet) (addr : Z) : Z → Z → reader bool :=
  query set (λ s, AddrSet.hasAddr historyBytes s addr).

(** ** [AddrWatch] *)

Record AddrWatch := mkWatch { watching : AddrSet.AddrSet; wLow : Z; wHigh : Z }.

(** [clear], which the constructor calls; [empty] *)
Definition newWatch : AddrWatch := mkWatch (AddrSet.new historyBytes) 0 0.
Definition watchClear (w : AddrWatch) : AddrWatch := newWatch.
Definition watchEmpty (w : AddrWatch) : bool := (wLow w =? 0) && (wHigh w =? 0).

(** The loop of [add] that reads the epoch. *)
Fixpoint readEpoch (fuel : nat) : reader (Z * Z) :=
  match fuel with
  | O => λ _, OutOfFuel
  | S fuel =>
      high ← atomicRead epochHigh;
      low ← atomicRead epochLow;
      high' ← atomicRead epochHigh;
      if negb (high =? high') then readEpoch fuel else mret (low, high)
  end.

Definition lift {A} (m : outcome A) : reader A := λ s, a ← m; Ret (a, s).

Definition watchAdd (w : AddrWatch) (addr : Z) : reader AddrWatch :=
  '(low, high) ← (if watchEmpty w then readEpoch queryFuel else mret (wLow w, wHigh w));
  set ← lift (if negb (AddrSet.coversAddr historyBytes (watching w) addr)
              then AddrSet.resize historyBytes (watching w) addr (u64 (addr + 1))
              else Ret (watching w));
  set ← lift (AddrSet.addAddr historyBytes set addr);
  mret (mkWatch set low high).

(** [check()] and [check(addr)] *)
Definition check (w : AddrWatch) : reader bool :=
  if watchEmpty w then mret false
  else querySet from (watching w) (wLow w) (wHigh w).

Definition checkAddr (w : AddrWatch) (addr : Z) : reader bool :=
  moved ← check w;
  if negb moved then mret false
  else queryAddr to addr (wLow w) (wHigh w).
End queries.
End History.
