(* ===== verification/HistoryCorrect.v ===== *)
(** * The movement history: no move is missed

    The collector makes a sequence of changes (a new epoch, a range moved from, a range moved
    to); the history then holds, for each of the last 16 epochs, everything recorded since,
    and in its pre-history everything.  A watch that was asked for an address before it was
    recorded as moved reports it, whatever the schedule of its reads, unless the range of a
    bitmap overflows. *)

From stdpp Require Import base list numbers decidable option.
From Stdlib Require Import ZArith Lia.
From S2P Require Import Prelude Bitwise AddrSet AddrSetCorrect History.

Import History.

(** ** Summaries *)

(** Summaries have 128 bytes. *)
Lemma historySized : sized historyBytes 7.
Proof. split; [lia|]. vm_compute. reflexivity. Qed.

Abbreviation wf7 := (wf 7).
Abbreviation mem7 := (mem 7).

(** The summary contains the addresses [A]. *)
Definition sumInv (x : HistorySummary) (A : Z → Prop) : Prop :=
  wf7 (summary x) ∧ ∀ a, A a → mem7 (summary x) a.

(** The range is one that [init] can represent, and the summary covers it or can be
    resized to cover it. *)
Definition addFits (s : AddrSet.AddrSet) (from to : Z) : Prop :=
  fits from to ∧ (AddrSet.covers historyBytes s from to = true ∨ resizeFits 7 s from to).

Lemma covers_covered s from to a :
  wf7 s → fits from to → AddrSet.covers historyBytes s from to = true → from ≤ a < to → covered 7 s a.
Proof.
  intros Hw [Hf Ht] Hc Ha. unfold AddrSet.covers in Hc. rewrite (size_spec historyBytes 7 historySized s Hw) in Hc.
  destruct (offset_range s (wf_data _ s Hw)) as [Ho _]. destruct (Z.ltb_spec from (AddrSet.offset s)); [done|].
  rewrite u64_small in Hc by (unfold is_u64; lia). destruct (Z.ltb_spec (res s * nbits 7) (to - AddrSet.offset s)); [done|].
  unfold covered. lia.
Qed.

Lemma new_wf : wf7 (AddrSet.new historyBytes).
Proof. apply (init_spec historyBytes 7 historySized 0 1). unfold fits. lia. Qed.

Lemma summaryAdd_spec x A from to :
  sumInv x A → addFits (summary x) from to →
  ∃ x', summaryAdd x from to = Ret x' ∧ sumInv x' (λ a, A a ∨ from ≤ a < to) ∧ version x' = u64 (version x + 1).
Proof.
  intros [Hw HA] [Hf Hfit]. unfold summaryAdd.
  assert (∃ s, (if negb (AddrSet.covers historyBytes (summary x) from to) then AddrSet.resize historyBytes (summary x) from to
      else Ret (summary x)) = Ret s ∧ wf7 s ∧ (∀ a, A a → mem7 s a) ∧ ∀ a, from ≤ a < to → covered 7 s a) as (s&->&Hws&HAs&Hcov).
  { destruct (AddrSet.covers historyBytes (summary x) from to) eqn:Hc; cbn [negb].
    - exists (summary x). split_and!; [done|done|done|]. intros a. by apply covers_covered.
    - destruct Hfit as [?|Hr]; [done|]. destruct (resize_spec historyBytes 7 historySized _ _ _ Hw Hr) as (s&->&?&?&?&_).
      exists s. split_and!; auto. }
  cbn [mbind outcome_bind]. destruct Hf as [Hf Ht]. destruct (add_spec historyBytes 7 historySized s from to) as (s'&E&[_ Hws']&_); [done|lia|].
  rewrite E. cbn [mbind outcome_bind]. eexists. split; [done|]. split; [|done]. split; [done|]. intros a Ha. cbn [summary].
  destruct Ha as [Ha|Ha]; [|by eauto using add_covers, historySized].
  apply (add_mem historyBytes 7 historySized s from to s' a Hws ltac:(lia) E). auto.
Qed.

Lemma summaryClear_spec x : sumInv (summaryClear x) (λ _, False) ∧ version (summaryClear x) = u64 (version x + 1).
Proof. split; [|done]. split; [apply new_wf|done]. Qed.

(** A change of a summary shows in its version. *)
Definition bumps (x x' : HistorySummary) : Prop := x' = x ∨ version x' = u64 (version x + 1).

(** ** Sets of summaries

    [A e] are the addresses recorded since the epoch [e]. *)
Record setInv (s : HistorySet) (E : Z) (A : Z → Z → Prop) : Prop := {
  set_len : zlen (history s) = historyLength;
  set_slot : ∀ e, E - historyLength < e ≤ E →
    ∃ x, history s !! (e `mod` historyLength) = Some x ∧ sumInv x (A e);
  set_pre : sumInv (preHistory s) (λ a, ∃ e, A e a);
}.

(** Every summary of the set [s] becomes that of [s'] by [bumps]. *)
Definition setBumps (s s' : HistorySet) : Prop :=
  bumps (preHistory s) (preHistory s') ∧
  ∀ j x, history s !! j = Some x → ∃ x', history s' !! j = Some x' ∧ bumps x x'.

(** An epoch of every slot. *)
Lemma slot_epoch E j : 0 ≤ j < historyLength → ∃ e, E - historyLength < e ≤ E ∧ e `mod` historyLength = j.
Proof.
  unfold historyLength. intros Hj. exists (E - (E - j) `mod` 16). pose proof (Z.mod_pos_bound (E - j) 16 ltac:(lia)). split; [lia|].
  rewrite Zminus_mod_idemp_r. replace (E - (E - j)) with j by lia. apply Z.mod_small. lia.
Qed.

Lemma mod_distinct E e e' : E - historyLength < e ≤ E → E - historyLength < e' ≤ E → e `mod` historyLength = e' `mod` historyLength → e = e'.
Proof. unfold historyLength. intros. pose proof (Z.div_mod e 16). pose proof (Z.div_mod e' 16). assert (e / 16 = e' / 16) by lia. lia. Qed.

(** The next epoch starts with nothing recorded. *)
Lemma setStep_spec s E A :
  setInv s E A → (∀ a, ¬ A (E + 1) a) →
  ∃ s', setStep s (E + 1) = Ret s' ∧ setInv s' (E + 1) A ∧ setBumps s s'.
Proof.
  intros [Hl Hs Hp] HA. unfold setStep. set (j := (E + 1) `mod` historyLength).
  assert (0 ≤ j < historyLength) as Hj by (apply Z.mod_pos_bound; done).
  destruct (lookupZ_lt_Some (history s) j) as [x Hx]; [lia|]. rewrite (aget_Some _ _ _ Hx). cbn [mbind outcome_bind].
  rewrite aset_in by lia. cbn [mbind outcome_bind]. eexists. split; [done|]. split.
  - constructor; cbn [history preHistory]; [by rewrite zlen_insert| |done]. intros e He. destruct (decide (e = E + 1)) as [->|].
    + exists (summaryClear x). split; [apply lookupZ_insert_eq; lia|]. destruct (summaryClear_spec x) as [[Hw _] _]. split; [done|].
      intros a Ha. by apply HA in Ha.
    + rewrite lookupZ_insert_ne; [apply Hs; lia|]. intros E'. apply (mod_distinct (E + 1)) in E'; [lia|unfold historyLength; lia|lia].
  - split; cbn [history preHistory]; [by left|]. intros i y Hy. destruct (decide (j = i)) as [<-|].
    + rewrite lookupZ_insert_eq by lia. eexists. split; [done|]. right. assert (y = x) as -> by congruence. done.
    + rewrite lookupZ_insert_ne by done. exists y. split; [done|]. by left.
Qed.

(** Where an address range is recorded, every summary must be able to hold it. *)
Definition setFits (s : HistorySet) (from to : Z) : Prop :=
  addFits (summary (preHistory s)) from to ∧ Forall (λ x, addFits (summary x) from to) (history s).

Lemma setAdd_spec s E A begin end_ :
  setInv s E A → setFits s begin end_ →
  ∃ s', setAdd s begin end_ = Ret s' ∧ setInv s' E (λ e a, A e a ∨ e ≤ E ∧ begin ≤ a < end_) ∧ setBumps s s'.
Proof.
  intros [Hl Hs Hp] [Hfp Hfh]. unfold setAdd.
  for_inv (λ i l, zlen l = historyLength ∧
    (∀ j, i ≤ j → l !! j = history s !! j) ∧
    ∀ j x, 0 ≤ j < i → history s !! j = Some x → ∃ x', l !! j = Some x' ∧ bumps x x' ∧ version x' = u64 (version x + 1) ∧
      ∀ B, sumInv x B → sumInv x' (λ a, B a ∨ begin ≤ a < end_)) l Hinv.
  - split_and!; [done|done|]. intros j x Hj. lia.
  - intros i l Hi (Hz&Hsame&Hdone). change (0 + _) with historyLength in Hi. destruct (lookupZ_lt_Some l i) as [x Hx]; [lia|].
    rewrite (aget_Some _ _ _ Hx). cbn [mbind outcome_bind]. rewrite Hsame in Hx by lia.
    assert (∃ B, sumInv x B) as [B HB].
    { destruct (slot_epoch E i) as (e&He&Hm); [done|]. destruct (Hs e He) as (x1&Hx1&?). rewrite Hm, Hx in Hx1. injection Hx1 as <-. eauto. }
    assert (addFits (summary x) begin end_) as Hfit.
    { rewrite Forall_forall in Hfh. apply Hfh, list_elem_of_In, list_elem_of_lookupZ. eauto. }
    destruct (summaryAdd_spec x B _ _ HB Hfit) as (x'&E'&_&Hv). rewrite E'. cbn [mbind outcome_bind]. rewrite aset_in by lia. cbn [returns].
    split_and!; [by rewrite zlen_insert|intros j Hj; rewrite lookupZ_insert_ne by lia; apply Hsame; lia|].
    intros j y Hj Hy. destruct (decide (j = i)) as [->|]; [|rewrite lookupZ_insert_ne by done; apply Hdone; [lia|done]].
    rewrite lookupZ_insert_eq by lia. assert (y = x) as -> by congruence. exists x'. split_and!; [done|by right|done|].
    intros B' HB'. destruct (summaryAdd_spec x B' _ _ HB' Hfit) as (x''&E''&?&_). congruence.
  - destruct Hinv as (Hz&_&Hall). change (0 + _) with historyLength in Hall.
    destruct (summaryAdd_spec _ _ _ _ Hp Hfp) as (pre&->&Hpre&Hv). cbn [mbind outcome_bind]. eexists. split; [done|]. split.
    + constructor; cbn [history preHistory]; [done| |].
      * intros e He. destruct (Hs e He) as (x&Hx&HB). destruct (Hall _ _ (Z.mod_pos_bound e historyLength eq_refl) Hx) as (x'&Hx'&_&_&Hinv).
        exists x'. split; [done|]. destruct (Hinv _ HB) as [? Hm]. split; [done|]. intros a [?|[_ ?]]; apply Hm; auto.
      * destruct Hpre as [? Hm]. split; [done|]. intros a (e&[?|[_ ?]]); apply Hm; eauto.
    + split; cbn [history preHistory]; [by right|]. intros j x Hx. pose proof (lookupZ_Some_lt _ _ _ Hx).
      destruct (Hall j x ltac:(lia) Hx) as (x'&?&?&_). eauto.
Qed.

(** ** Runs of the collector *)

Inductive change := CStep | CFrom (begin end_ : Z) | CTo (begin end_ : Z).

Definition apply (h : History) (c : change) : outcome History :=
  match c with
  | CStep => step h
  | CFrom b e => addFrom h b e
  | CTo b e => addTo h b e
  end.

(** The states of the history during the changes [cs]. *)
Fixpoint runFrom (h : History) (cs : list change) : outcome (list History) :=
  match cs with
  | [] => Ret [h]
  | c :: cs => h' ← apply h c; run ← runFrom h' cs; Ret (h :: run)
  end.

(** Every range can be recorded when it is. *)
Definition changeFits (h : History) (c : change) : Prop :=
  match c with
  | CStep => True
  | CFrom b e => setFits (from h) b e
  | CTo b e => setFits (to h) b e
  end.
Fixpoint runFits (h : History) (cs : list change) : Prop :=
  match cs with
  | [] => True
  | c :: cs => changeFits h c ∧ match apply h c with Ret h' => runFits h' cs | _ => True end
  end.

(** The epoch before the change number [t], and the addresses [a] of the ranges recorded by
    the changes before it in the epoch [e] or later. *)
Definition epochAfter (E : Z) (c : change) : Z := match c with CStep => E + 1 | _ => E end.
Fixpoint epochAt (E : Z) (cs : list change) (t : nat) : Z :=
  match t, cs with
  | S t, c :: cs => epochAt (epochAfter E c) cs t
  | _, _ => E
  end.
Definition fromOf (c : change) : option (Z * Z) := match c with CFrom b e => Some (b, e) | _ => None end.
Definition toOf (c : change) : option (Z * Z) := match c with CTo b e => Some (b, e) | _ => None end.
Definition recordedAt (sel : change → option (Z * Z)) (cs : list change) (i : nat) (a : Z) : Prop :=
  ∃ c b e, cs !! i = Some c ∧ sel c = Some (b, e) ∧ b ≤ a < e.
Definition recorded (sel : change → option (Z * Z)) (E : Z) (cs : list change) (t : nat) (e a : Z) : Prop :=
  ∃ i, (i < t)%nat ∧ recordedAt sel cs i a ∧ e ≤ epochAt E cs i.

Record histInv (h : History) (E : Z) (AF AT : Z → Z → Prop) : Prop := {
  hist_from : setInv (from h) E AF;
  hist_to : setInv (to h) E AT;
  hist_low : epochLow h = E `mod` 2 ^ 32;
  hist_high : epochHigh h = E / 2 ^ 32;
}.

Lemma sumInv_mono x (A B : Z → Prop) : (∀ a, B a → A a) → sumInv x A → sumInv x B.
Proof. intros H [? ?]. split; auto. Qed.

Lemma setInv_mono s E (A B : Z → Z → Prop) : (∀ e a, B e a → A e a) → setInv s E A → setInv s E B.
Proof.
  intros H [Hl Hs Hp]. constructor; [done| |].
  - intros e He. destruct (Hs e He) as (x&?&?). exists x. split; [done|]. by eapply sumInv_mono; [apply H|].
  - eapply sumInv_mono; [|exact Hp]. intros a (e&?). eauto.
Qed.

Definition histBumps (h h' : History) : Prop := setBumps (from h) (from h') ∧ setBumps (to h) (to h').

Lemma setBumps_refl s : setBumps s s.
Proof. split; [by left|]. intros j x ?. exists x. split; [done|by left]. Qed.

(** What a change adds to the recorded ranges. *)
Definition addsTo (sel : change → option (Z * Z)) (E : Z) (c : change) (A : Z → Z → Prop) (e a : Z) : Prop :=
  A e a ∨ e ≤ E ∧ ∃ b en, sel c = Some (b, en) ∧ b ≤ a < en.

Lemma mod_mod16 E : (E `mod` 2 ^ 32) `mod` historyLength = E `mod` historyLength.
Proof. apply Z.mod_mod_divide. by exists (2 ^ 28). Qed.

Lemma setStep_mod s E : setStep s (E `mod` 2 ^ 32) = setStep s E.
Proof. unfold setStep. by rewrite mod_mod16. Qed.

(** The 64-bit epoch counts. *)
Lemma step_epoch E : 0 ≤ E → E + 1 < 2 ^ 64 →
  (if E `mod` 2 ^ 32 =? 2 ^ 32 - 1 then (0, u32 (E / 2 ^ 32 + 1)) else (u32 (E `mod` 2 ^ 32 + 1), E / 2 ^ 32))
  = ((E + 1) `mod` 2 ^ 32, (E + 1) / 2 ^ 32).
Proof.
  intros H0 H1. pose proof (Z.div_mod E (2 ^ 32) ltac:(lia)) as Hd. pose proof (Z.mod_pos_bound E (2 ^ 32) ltac:(lia)) as Hm.
  set (q := E / 2 ^ 32) in *. set (m := E `mod` 2 ^ 32) in *. destruct (Z.eqb_spec m (2 ^ 32 - 1)) as [Em|].
  - replace (E + 1) with ((q + 1) * 2 ^ 32) by lia. rewrite Z.mod_mul, Z.div_mul by lia. f_equal. apply u32_small. unfold is_u32. lia.
  - replace (E + 1) with (m + 1 + q * 2 ^ 32) by lia. rewrite Z.mod_add, Z.div_add, Z.mod_small, Z.div_small by lia.
    f_equal. apply u32_small. unfold is_u32. lia.
Qed.

Lemma apply_spec h E AF AT c :
  histInv h E AF AT → 0 ≤ E → E + 1 < 2 ^ 64 → changeFits h c → (∀ a, ¬ AF (E + 1) a ∧ ¬ AT (E + 1) a) →
  ∃ h', apply h c = Ret h' ∧ histInv h' (epochAfter E c) (addsTo fromOf E c AF) (addsTo toOf E c AT) ∧ histBumps h h'.
Proof.
  intros [HF HT Hlo Hhi] H0 H1 Hfit Hnew. destruct c as [|b e|b e]; cbn [apply epochAfter].
  - unfold step. rewrite Hlo, Hhi, step_epoch by done.
    destruct (setStep_spec _ _ _ HF) as (f&Ef&HF'&Hbf); [apply Hnew|]. destruct (setStep_spec _ _ _ HT) as (t&Et&HT'&Hbt); [apply Hnew|].
    rewrite !setStep_mod, Ef, Et. cbn. eexists. split; [done|]. split; [|done].
    constructor; [| |done|done]; cbn; eapply setInv_mono; [|done| |done]; intros ? ? [?|(_&?&?&?&_)]; done.
  - unfold addFrom. destruct (setAdd_spec _ _ _ _ _ HF Hfit) as (f&->&HF'&Hbf). cbn. eexists. split; [done|].
    split; [|split; [done|apply setBumps_refl]]. constructor; cbn; [| |done|done]; eapply setInv_mono; [|done| |done].
    + intros ? ? [?|(?&?&?&[= -> ->]&?)]; auto.
    + intros ? ? [?|(_&?&?&?&_)]; done.
  - unfold addTo. destruct (setAdd_spec _ _ _ _ _ HT Hfit) as (t&->&HT'&Hbt). cbn. eexists. split; [done|].
    split; [|split; [apply setBumps_refl|done]]. constructor; cbn; [| |done|done]; eapply setInv_mono; [|done| |done].
    + intros ? ? [?|(_&?&?&?&_)]; done.
    + intros ? ? [?|(?&?&?&[= -> ->]&?)]; auto.
Qed.

Lemma epochAt_le E cs t t' : (t ≤ t')%nat → epochAt E cs t ≤ epochAt E cs t'.
Proof.
  revert E t t'. induction cs as [|c cs IH]; intros E [|t] [|t'] Ht; try (cbn; lia).
  - cbn. specialize (IH (epochAfter E c) 0%nat t' ltac:(lia)). destruct c, cs, t'; cbn in *; lia.
  - cbn. apply IH. lia.
Qed.

Lemma epochAt_bound E cs t t' : (t ≤ t')%nat → epochAt E cs t' ≤ epochAt E cs t + Z.of_nat (t' - t).
Proof.
  revert E t t'. induction cs as [|c cs IH]; intros E [|t] [|t'] Ht; try (cbn; lia).
  - cbn. specialize (IH (epochAfter E c) 0%nat t' ltac:(lia)). destruct c, cs, t'; cbn in *; lia.
  - cbn [epochAt]. etransitivity; [apply (IH _ t t'); lia|]. lia.
Qed.

Lemma epochAt_start E cs t : E ≤ epochAt E cs t.
Proof. etransitivity; [|apply (epochAt_le E cs 0 t); lia]. destruct cs; done. Qed.

Lemma run_spec cs : ∀ h E AF AT,
  histInv h E AF AT → (∀ e a, AF e a ∨ AT e a → e ≤ E) → 0 ≤ E → E + Z.of_nat (length cs) < 2 ^ 64 → runFits h cs →
  ∃ run, runFrom h cs = Ret run ∧ length run = S (length cs) ∧
    (∀ t, (t ≤ length cs)%nat → ∃ ht, run !! t = Some ht ∧ histInv ht (epochAt E cs t)
      (λ e a, AF e a ∨ recorded fromOf E cs t e a) (λ e a, AT e a ∨ recorded toOf E cs t e a)) ∧
    (∀ t ht ht', run !! t = Some ht → run !! S t = Some ht' → histBumps ht ht').
Proof.
  induction cs as [|c cs IH]; intros h E AF AT Hi Hb H0 H1 Hfit.
  { exists [h]. split_and!; [done|done| |by intros [|t] ? ? ? ?]. intros [|t] Ht; [|cbn in Ht; lia]. exists h. split; [done|].
    destruct Hi. constructor; [| |done|done]; (eapply setInv_mono; [|done]); intros e a [?|(?&?&_)]; done || lia. }
  destruct Hfit as [Hc Hfit]. cbn [length] in H1.
  destruct (apply_spec h E AF AT c Hi) as (h'&Ea&Hi'&Hbump); [lia|lia|done|intros a; split; intros Ha; [specialize (Hb (E + 1) a (or_introl Ha))|specialize (Hb (E + 1) a (or_intror Ha))]; lia|].
  rewrite Ea in Hfit. destruct (IH h' _ _ _ Hi') as (run&Er&Hlen&Hat&Hbumps).
  - intros e a He. assert (e ≤ E) by (destruct He as [[?|[? _]]|[?|[? _]]]; eauto). destruct c; cbn; lia.
  - destruct c; cbn; lia.
  - destruct c; cbn; lia.
  - done.
  - exists (h :: run). cbn [runFrom]. rewrite Ea. cbn. rewrite Er. cbn. split_and!; [done|by rewrite Hlen| |].
    + assert (∀ sel t e a A, A e a ∨ recorded sel E (c :: cs) (S t) e a →
        addsTo sel E c A e a ∨ recorded sel (epochAfter E c) cs t e a) as Hrec.
      { intros sel t e a A [?|(i&Hi0&(c'&b&en&Hl&Hsel&?)&He)]; [left; by left|]. destruct i as [|i]; cbn in Hl, He.
        - injection Hl as ->. left; right. split; [done|]. eauto.
        - right. exists i. split; [lia|]. split; [|done]. exists c', b, en. done. }
      intros [|t] Ht; cbn [lookup list_lookup epochAt].
      * exists h. split; [done|]. destruct Hi. constructor; [| |done|done]; (eapply setInv_mono; [|done]); intros e a [?|(?&?&_)]; done || lia.
      * destruct (Hat t) as (ht&?&[]); [lia|]. exists ht. split; [done|]. constructor; [| |done|done]; (eapply setInv_mono; [|done]); intros e a; apply Hrec.
    + intros [|t] ht ht' Hl Hl'; cbn in Hl, Hl'; [|by eapply Hbumps]. injection Hl as <-. destruct (Hat 0%nat) as (h1&Hh1&_); [lia|].
      assert (h' = ht') as <-; [|done]. destruct cs as [|c' cs]; cbn in Er; [injection Er as <-; by injection Hl'|].
      destruct (apply h' c'); cbn in Er; try done. destruct (runFrom _ cs); cbn in Er; try done. injection Er as <-. by injection Hl'.
Qed.

(** ** Reads during a run *)

(** A run from a well-formed history; fewer than 2^32 changes happen, and the bitmaps can
    grow to every range that is recorded ([runFits]). *)
Record goodRun (h0 : History) (E0 : Z) (cs : list change) (run : list History) : Prop := {
  good_start : histInv h0 E0 (λ _ _, False) (λ _ _, False);
  good_epoch : 1 ≤ E0;
  good_bound : E0 + Z.of_nat (length cs) < 2 ^ 64;
  good_count : Z.of_nat (length cs) < 2 ^ 32;
  good_fits : runFits h0 cs;
  good_run : runFrom h0 cs = Ret run;
}.

Section readers.
Context (h0 : History) (E0 : Z) (cs : list change) (run : list History).
Context (Hgood : goodRun h0 E0 cs run).

Definition clamp (t : nat) : nat := Nat.min t (length cs).
Definition rem (t : nat) : nat := (length cs - t)%nat.
Abbreviation epoch t := (epochAt E0 cs (clamp t)).

(** What [run_spec] says of the run. *)
Lemma run_facts :
  length run = S (length cs) ∧
  (∀ t, (t ≤ length cs)%nat → ∃ ht, run !! t = Some ht ∧ histInv ht (epochAt E0 cs t)
    (λ e a, False ∨ recorded fromOf E0 cs t e a) (λ e a, False ∨ recorded toOf E0 cs t e a)) ∧
  (∀ t ht ht', run !! t = Some ht → run !! S t = Some ht' → histBumps ht ht').
Proof.
  destruct Hgood as [Hi HE Hb _ Hf Hr]. destruct (run_spec cs h0 E0 _ _ Hi) as (run'&Hr'&?); [tauto|lia|done|done|]. rewrite Hr in Hr'. by injection Hr' as <-.
Qed.

Lemma queryFuel_enough t : (rem t < queryFuel run)%nat.
Proof. unfold queryFuel, rem. destruct run_facts as [-> _]. lia. Qed.

Lemma stateAt_spec t :
  ∃ h, stateAt run t = Ret h ∧ run !! clamp t = Some h ∧
    histInv h (epoch t) (recorded fromOf E0 cs (clamp t)) (recorded toOf E0 cs (clamp t)).
Proof.
  destruct run_facts as (Hlen&Hat&_). destruct (Hat (clamp t)) as (h&Hh&[HF HT]); [unfold clamp; lia|]. exists h. split; [|split; [done|]].
  - unfold stateAt, clamp in *. destruct (decide (t ≤ length cs)%nat).
    + rewrite Nat.min_l in Hh by done. by rewrite Hh.
    + rewrite lookup_ge_None_2 by lia. rewrite Nat.min_r in Hh by lia. rewrite last_lookup, Hlen. cbn. by rewrite Hh.
  - constructor; [| |done|done]; (eapply setInv_mono; [|done]); intros e a ?; by right.
Qed.

Lemma stateAt_bumps t h h' : stateAt run t = Ret h → stateAt run (S t) = Ret h' → histBumps h h' ∧ ((length cs ≤ t)%nat → h' = h).
Proof.
  destruct (stateAt_spec t) as (h1&->&Hl&_). destruct (stateAt_spec (S t)) as (h2&->&Hl'&_). intros [= ->] [= ->].
  destruct run_facts as (_&_&Hbumps). unfold clamp in *. destruct (decide (t < length cs)%nat).
  - rewrite Nat.min_l in Hl, Hl' by lia. split; [by eapply Hbumps|lia].
  - rewrite Nat.min_r in Hl, Hl' by lia. assert (h' = h) as -> by congruence. split; [|done]. split; apply setBumps_refl.
Qed.

Lemma epoch_mono t t' : (t ≤ t')%nat → epoch t ≤ epoch t'.
Proof. intros. apply epochAt_le. unfold clamp. lia. Qed.

Lemma epoch_range t : 1 ≤ epoch t < 2 ^ 64.
Proof.
  destruct Hgood as [_ HE Hb _ _ _]. pose proof (epochAt_start E0 cs (clamp t)). split; [lia|].
  pose proof (epochAt_bound E0 cs 0 (clamp t) ltac:(lia)). unfold clamp in *. destruct cs; cbn in *; lia.
Qed.

Lemma epoch_close t t' : (t ≤ t')%nat → epoch t' < epoch t + 2 ^ 32.
Proof.
  intros Ht. destruct Hgood as [_ _ _ Hc _ _]. pose proof (epochAt_bound E0 cs (clamp t) (clamp t') ltac:(unfold clamp; lia)).
  unfold clamp in *. lia.
Qed.

Lemma recorded_mono sel t t' e a : (t ≤ t')%nat → recorded sel E0 cs (clamp t) e a → recorded sel E0 cs (clamp t') e a.
Proof. intros Ht (i&Hi&?&?). exists i. split; [unfold clamp in *; lia|done]. Qed.

(** *** Atomic reads *)

Lemma atomicRead_spec {A} (g : History → A) t sc :
  (1 ≤ length sc)%nat →
  ∃ h t' sc', atomicRead run g (t, sc) = Ret (g h, (t', sc')) ∧ stateAt run t' = Ret h ∧ (t ≤ t')%nat ∧ length sc = S (length sc').
Proof.
  destruct sc as [|[d b] sc]; cbn [length]; [lia|]. intros _. destruct (stateAt_spec (t + d)) as (h&E&_).
  exists h, (t + d)%nat, sc. cbn [atomicRead]. rewrite E. cbn. split_and!; [done|done|lia|done].
Qed.

(** *** The tests of a summary *)

Definition view (f : History → outcome HistorySummary) (t : nat) (x : HistorySummary) : Prop :=
  ∃ h, stateAt run t = Ret h ∧ f h = Ret x.

Section summary.
Context (f : History → outcome HistorySummary).
Context (Hview : ∀ t, ∃ x, view f t x ∧ wf7 (summary x)).
Context (Hbumps : ∀ t x x', view f t x → view f (S t) x' → bumps x x').

Lemma view_fun t x x' : view f t x → view f t x' → x = x'.
Proof. intros (h&?&?) (h'&?&?). congruence. Qed.

Lemma view_end t x x' : view f t x → view f (S t) x' → (length cs ≤ t)%nat → x' = x.
Proof. intros (h&E&?) (h'&E'&?) Ht. destruct (stateAt_bumps t h h' E E') as [_ Heq]. rewrite Heq in * by done. congruence. Qed.

(** The version counts the changes, unless there is none. *)
Lemma view_version d : ∀ t x x', view f t x → view f (t + d) x' →
  ∃ c, (c ≤ clamp (t + d) - clamp t)%nat ∧ (c = 0%nat ∨ version x' = u64 (version x + Z.of_nat c)) ∧
    (c = 0%nat → ∀ i y, (i ≤ d)%nat → view f (t + i) y → y = x).
Proof.
  induction d as [|d IH]; intros t x x' Hx Hx'.
  - exists 0%nat. split_and!; [lia|by left|]. intros _ i y Hi Hy. replace (t + i)%nat with t in Hy by lia. by eapply view_fun.
  - destruct (Hview (S t)) as (x1&Hx1&_). rewrite Nat.add_succ_r in Hx'. destruct (IH (S t) x1 x' Hx1 Hx') as (c&Hc&Hv&Hsame).
    assert (clamp (S t) = clamp t ∧ x1 = x ∨ clamp (S t) = S (clamp t)) as Hcl.
    { unfold clamp. destruct (decide (length cs ≤ t)%nat); [left; split; [lia|by eapply view_end]|right; lia]. }
    assert (clamp (S t) ≤ clamp (t + S d))%nat by (unfold clamp; lia).
    replace (S t + d)%nat with (t + S d)%nat in Hc by lia.
    assert (x1 = x → ∃ c, (c ≤ clamp (t + S d) - clamp t)%nat ∧ (c = 0%nat ∨ version x' = u64 (version x + Z.of_nat c)) ∧
      (c = 0%nat → ∀ i y, (i ≤ S d)%nat → view f (t + i) y → y = x)) as Heq.
    { intros ->. exists c. split_and!; [lia|done|]. intros Hc0 [|i] y Hi Hy.
      - rewrite Nat.add_0_r in Hy. by eapply view_fun.
      - apply (Hsame Hc0 i y ltac:(lia)). by replace (S t + i)%nat with (t + S i)%nat by lia. }
    destruct (Hbumps t x x1 Hx Hx1) as [?|Hb]; [by apply Heq|]. destruct Hcl as [[_ ?]|Hcl]; [by apply Heq|].
    exists (S c). split_and!; [lia| |lia]. right. destruct Hv as [->|Hv].
    + assert (x' = x1) as ->; [|by rewrite Hb]. by apply (Hsame eq_refl d).
    + rewrite Hv, Hb. unfold u64. rewrite Zplus_mod_idemp_l. f_equal. lia.
Qed.

(** Equal versions: nothing changed. *)
Lemma version_stable t d x x' :
  view f t x → view f (t + d) x' → version x = version x' → ∀ i y, (i ≤ d)%nat → view f (t + i) y → y = x.
Proof.
  intros Hx Hx' Hv. destruct (view_version d t x x' Hx Hx') as (c&Hc&Hver&Hsame). apply Hsame. destruct Hver as [|Hver]; [done|].
  destruct Hgood as [_ _ _ Hcnt _ _]. assert (Z.of_nat c < 2 ^ 32) by (unfold clamp in *; lia). rewrite <- Hv in Hver.
  pose proof (u64_range (version x + Z.of_nat c)) as Hr. rewrite <- Hver in Hr. unfold is_u64, u64 in *.
  pose proof (Z.div_mod (version x + Z.of_nat c) (2 ^ 64) ltac:(lia)). nia.
Qed.

(** Different versions: a change happened. *)
Lemma version_differs t d x x' : view f t x → view f (t + d) x' → version x ≠ version x' → (rem (t + d) < rem t)%nat.
Proof.
  intros Hx Hx' Hv. destruct (view_version d t x x' Hx Hx') as (c&Hc&_&Hsame). destruct c as [|c].
  - exfalso. apply Hv. by rewrite (Hsame eq_refl d x').
  - unfold rem, clamp in *. lia.
Qed.

Lemma stable_spec d : ∀ t x, view f t x →
  ∃ b, stable run f t d = Ret b ∧ ((∀ i y, (i ≤ d)%nat → view f (t + i) y → y = x) → b = true).
Proof.
  induction d as [|d IH]; intros t x (h&Eh&Ex).
  - exists true. split; [|done]. cbn. rewrite Eh. cbn. by rewrite Ex.
  - destruct (Hview (S t)) as (x1&Hx1&_). destruct (IH (S t) x1 Hx1) as (b&Eb&Hb). pose proof Hx1 as (h1&Eh1&Ex1).
    cbn [stable]. rewrite Eh. cbn [mbind outcome_bind]. rewrite Ex. cbn [mbind outcome_bind]. rewrite Eh1. cbn [mbind outcome_bind].
    rewrite Ex1. cbn [mbind outcome_bind]. rewrite Eb. cbn [mbind outcome_bind]. eexists. split; [done|]. intros Hall.
    assert (x1 = x) as -> by (apply (Hall 1%nat); [lia|by rewrite Nat.add_1_r]). rewrite bool_decide_true, Hb; [done| |done].
    intros i y Hi Hy. apply (Hall (S i)); [lia|]. by rewrite Nat.add_succ_r.
Qed.

Context (test : AddrSet.AddrSet → outcome bool).
Context (Htest : ∀ s, wf7 s → ∃ r, test s = Ret r).

Lemma testSummary_spec t sc :
  (1 ≤ length sc)%nat →
  ∃ r d sc' x, testSummary run f test (t, sc) = Ret (r, ((t + d)%nat, sc')) ∧ length sc = S (length sc') ∧ view f t x ∧
    ((∀ i y, (i ≤ d)%nat → view f (t + i) y → y = x) → test (summary x) = Ret r).
Proof.
  destruct sc as [|[d torn] sc]; cbn [length]; [lia|]. intros _. destruct (Hview t) as (x&Hx&Hw). pose proof Hx as (h&Eh&Ex).
  destruct (stable_spec d t x Hx) as (b&Eb&Hb). destruct (Htest (summary x) Hw) as (r&Er). unfold testSummary. rewrite Eh.
  cbn [mbind outcome_bind]. rewrite Ex. cbn [mbind outcome_bind]. rewrite Eb. cbn [mbind outcome_bind]. destruct b.
  - rewrite Er. cbn. exists r, d, sc, x. done.
  - cbn. exists torn, d, sc, x. split_and!; try done. intros Hs. by specialize (Hb Hs).
Qed.

Lemma atomicVersion_spec t sc :
  (1 ≤ length sc)%nat →
  ∃ x d sc', atomicVersion run f (t, sc) = Ret (version x, ((t + d)%nat, sc')) ∧ length sc = S (length sc') ∧ view f (t + d) x.
Proof.
  intros Hsc. unfold atomicVersion. destruct (atomicRead_spec f t sc Hsc) as (h&t'&sc'&->&Hh&Ht&Hl).
  destruct (Hview t') as (x&Hx&_). pose proof Hx as (h1&E1&Ex). assert (h1 = h) as -> by congruence. rewrite Ex. cbn.
  exists x, (t' - t)%nat, sc'. replace (t + (t' - t))%nat with t' by lia. done.
Qed.

Lemma rem_le t t' : (t ≤ t')%nat → (rem t' ≤ rem t)%nat.
Proof. unfold rem. lia. Qed.

(** A query of a summary returns the result of the test at some moment in between. *)
Lemma summaryQuery_spec fuel : ∀ t sc,
  (rem t < fuel)%nat → (3 * rem t + 3 ≤ length sc)%nat →
  ∃ r t' sc' t1 x, summaryQuery run fuel f test (t, sc) = Ret (r, (t', sc')) ∧ (t ≤ t1 ≤ t')%nat ∧ view f t1 x ∧
    test (summary x) = Ret r ∧ (length sc + 3 * rem t' ≤ length sc' + 3 + 3 * rem t)%nat.
Proof.
  induction fuel as [|fuel IH]; intros t sc Hf Hsc; [lia|]. cbn [summaryQuery]. unfold mbind, reader_bind.
  destruct (atomicVersion_spec t sc) as (x1&d1&sc1&->&Hl1&Hv1); [lia|]. cbn [mbind outcome_bind].
  destruct (testSummary_spec (t + d1) sc1) as (r&d2&sc2&x2&->&Hl2&Hv2&Hr); [lia|]. cbn [mbind outcome_bind].
  assert (x2 = x1) as -> by by eapply view_fun.
  destruct (atomicVersion_spec (t + d1 + d2) sc2) as (x3&d3&sc3&->&Hl3&Hv3); [lia|]. cbn [mbind outcome_bind].
  rewrite <- Nat.add_assoc in Hv3. destruct (Z.eqb_spec (version x1) (version x3)) as [E|E]; cbn [negb].
  - exists r, (t + d1 + d2 + d3)%nat, sc3, (t + d1)%nat, x1. split_and!; [done|lia|lia|done| |].
    + apply Hr. intros i y Hi Hy. apply (version_stable (t + d1) (d2 + d3) x1 x3 Hv1 Hv3 E i y); [lia|done].
    + pose proof (rem_le t (t + d1 + d2 + d3) ltac:(lia)). lia.
  - pose proof (version_differs (t + d1) (d2 + d3) x1 x3 Hv1 Hv3 E) as Hlt. rewrite Nat.add_assoc in Hlt.
    pose proof (rem_le t (t + d1) ltac:(lia)).
    destruct (IH (t + d1 + d2 + d3)%nat sc3) as (r'&t'&sc'&t1&x&->&Ht1&Hx&Hr'&Hl'); [lia|lia|].
    exists r', t', sc', t1, x. split_and!; [done|lia|lia|done|done|lia].
Qed.
End summary.

(** *** The test of the epoch *)

Lemma inHistory_close ql qh el eh :
  0 ≤ ql < 2 ^ 32 → 0 ≤ qh → 0 ≤ el < 2 ^ 32 → inHistory ql qh el eh = true →
  (eh * 2 ^ 32 + el) - (qh * 2 ^ 32 + ql) < historyLength.
Proof.
  unfold inHistory, historyLength. intros Hql Hqh Hel. destruct (Z.leb_spec 16 (u32 (el - ql))); [done|].
  destruct (Z.ltb_spec el ql); intros E%Z.eqb_eq; subst eh.
  - assert (u32 (qh + 1) ≤ qh + 1) by (apply Z.mod_le; lia).
    assert (u32 (el - ql) = el - ql + 2 ^ 32) by (unfold u32; rewrite <- (Z.mod_add _ 1) by lia; apply Z.mod_small; lia). nia.
  - rewrite u32_small in * by (unfold is_u32; lia). lia.
Qed.

Lemma epoch_split h t : stateAt run t = Ret h → epochHigh h * 2 ^ 32 + epochLow h = epoch t ∧ 0 ≤ epochLow h < 2 ^ 32.
Proof.
  destruct (stateAt_spec t) as (h'&->&_&Hi). intros [= <-]. destruct Hi as [_ _ -> ->]. pose proof (Z.div_mod (epoch t) (2 ^ 32) ltac:(lia)).
  pose proof (Z.mod_pos_bound (epoch t) (2 ^ 32)). lia.
Qed.

Lemma epochHigh_mono h h' t t' : (t ≤ t')%nat → stateAt run t = Ret h → stateAt run t' = Ret h' → epochHigh h ≤ epochHigh h'.
Proof. intros Ht [? ?]%epoch_split [? ?]%epoch_split. pose proof (epoch_mono t t' Ht). lia. Qed.

(** The same low part at two moments: the same epoch. *)
Lemma epochLow_same h h' t t' :
  (t ≤ t')%nat → stateAt run t = Ret h → stateAt run t' = Ret h' → epochLow h' = epochLow h → epoch t' = epoch t.
Proof. intros Ht [? ?]%epoch_split [? ?]%epoch_split E. pose proof (epoch_mono t t' Ht). pose proof (epoch_close t t' Ht). lia. Qed.

(** *** Queries *)

Section query.
Context (set : History → HistorySet) (sel : change → option (Z * Z)).
Context (Hset : ∀ t h, stateAt run t = Ret h → setInv (set h) (epoch t) (recorded sel E0 cs (clamp t))).
Context (Hsetb : ∀ t h h', stateAt run t = Ret h → stateAt run (S t) = Ret h' → setBumps (set h) (set h')).
Context (test : AddrSet.AddrSet → outcome bool) (hit : Z → Prop).
Context (Htest : ∀ s, wf7 s → ∃ r, test s = Ret r ∧ (r = true ↔ ∃ a, mem7 s a ∧ hit a)).

Lemma test_returns s : wf7 s → ∃ r, test s = Ret r.
Proof. intros Hw. destruct (Htest s Hw) as (r&?&_). eauto. Qed.

Lemma test_false s (A : Z → Prop) x : sumInv x A → s = summary x → test s = Ret false → ∀ a, A a → ¬ hit a.
Proof.
  intros [Hw HA] -> Ht a Ha Hhit. destruct (Htest (summary x) Hw) as (r&Er&Hr). assert (r = false) as -> by congruence.
  discriminate (proj2 Hr). eauto.
Qed.

Lemma preQuery_spec t sc :
  (3 * rem t + 3 ≤ length sc)%nat →
  ∃ r t' sc', summaryQuery run (queryFuel run) (λ h, Ret (preHistory (set h))) test (t, sc) = Ret (r, (t', sc')) ∧ (t ≤ t')%nat ∧
    (length sc + 3 * rem t' ≤ length sc' + 3 + 3 * rem t)%nat ∧
    (r = false → ∀ a e, recorded sel E0 cs (clamp t) e a → ¬ hit a).
Proof.
  intros Hsc. set (f := λ h, Ret (preHistory (set h))).
  assert (∀ t, ∃ x, view f t x ∧ wf7 (summary x)) as Hview.
  { intros u. destruct (stateAt_spec u) as (h&Eh&_). exists (preHistory (set h)). split; [by exists h|]. apply (set_pre _ _ _ (Hset u h Eh)). }
  assert (∀ t x x', view f t x → view f (S t) x' → bumps x x') as Hb.
  { intros u x x' (h&Eh&[= <-]) (h'&Eh'&[= <-]). apply (Hsetb u h h' Eh Eh'). }
  destruct (summaryQuery_spec f Hview Hb test test_returns (queryFuel run) t sc) as (r&t'&sc'&t1&x&E&Ht1&(h&Eh&[= <-])&Hr&Hl); [apply queryFuel_enough|done|].
  exists r, t', sc'. split_and!; [done|lia|done|]. intros -> a e Ha. eapply test_false; [apply (set_pre _ _ _ (Hset t1 h Eh))|done|done|].
  exists e. apply recorded_mono with t; [lia|done].
Qed.

Lemma slotQuery_spec Q t sc :
  (3 * rem t + 3 ≤ length sc)%nat →
  ∃ r t' sc', summaryQuery run (queryFuel run) (λ h, aget (history (set h)) (Q `mod` historyLength)) test (t, sc) = Ret (r, (t', sc')) ∧ (t ≤ t')%nat ∧
    (length sc + 3 * rem t' ≤ length sc' + 3 + 3 * rem t)%nat ∧
    (r = false → Q ≤ epoch t → epoch t' - Q < historyLength → ∀ a, recorded sel E0 cs (clamp t) Q a → ¬ hit a).
Proof.
  intros Hsc. set (f := λ h, aget (history (set h)) (Q `mod` historyLength)).
  assert (∀ u h, stateAt run u = Ret h → ∃ x, history (set h) !! (Q `mod` historyLength) = Some x ∧ wf7 (summary x)) as Hslot.
  { intros u h Eh. destruct (Hset u h Eh) as [_ Hs _]. destruct (slot_epoch (epoch u) (Q `mod` historyLength)) as (e&He&Hm); [by apply Z.mod_pos_bound|].
    destruct (Hs e He) as (x&Hx&[? _]). rewrite Hm in Hx. eauto. }
  assert (∀ t, ∃ x, view f t x ∧ wf7 (summary x)) as Hview.
  { intros u. destruct (stateAt_spec u) as (h&Eh&_). destruct (Hslot u h Eh) as (x&Hx&?). exists x. split; [|done]. exists h. split; [done|]. by apply aget_Some. }
  assert (∀ t x x', view f t x → view f (S t) x' → bumps x x') as Hb.
  { intros u x x' (h&Eh&Ex) (h'&Eh'&Ex'). destruct (Hslot u h Eh) as (y&Hy&_). unfold f in Ex, Ex'. rewrite (aget_Some _ _ _ Hy) in Ex. injection Ex as ->.
    destruct (proj2 (Hsetb u h h' Eh Eh') _ _ Hy) as (y'&Hy'&?). rewrite (aget_Some _ _ _ Hy') in Ex'. by injection Ex' as ->. }
  destruct (summaryQuery_spec f Hview Hb test test_returns (queryFuel run) t sc) as (r&t'&sc'&t1&x&E&Ht1&(h&Eh&Ex)&Hr&Hl); [apply queryFuel_enough|done|].
  exists r, t', sc'. split_and!; [done|lia|done|]. intros -> HQ Hclose a Ha. destruct (Hset t1 h Eh) as [_ Hs _].
  pose proof (epoch_mono t t1 ltac:(lia)). pose proof (epoch_mono t1 t' ltac:(lia)). destruct (Hs Q) as (y&Hy&HA); [lia|].
  unfold f in Ex. rewrite (aget_Some _ _ _ Hy) in Ex. injection Ex as ->. eapply test_false; [exact HA|done|done|].
  apply recorded_mono with t; [lia|done].
Qed.

(** A query returns; if it returns false, nothing it asks for has been recorded in the epoch
    [Q] or later when it began. *)
Lemma query_spec ql qh t sc :
  0 ≤ ql < 2 ^ 32 → 0 ≤ qh → qh * 2 ^ 32 + ql ≤ epoch t → (3 * rem t + 10 ≤ length sc)%nat →
  ∃ r t' sc', query run set test ql qh (t, sc) = Ret (r, (t', sc')) ∧ (t ≤ t')%nat ∧
    (length sc + 3 * rem t' ≤ length sc' + 10 + 3 * rem t)%nat ∧
    (r = false → ∀ a, recorded sel E0 cs (clamp t) (qh * 2 ^ 32 + ql) a → ¬ hit a).
Proof.
  intros Hql Hqh HQ Hsc. set (Q := qh * 2 ^ 32 + ql) in *. unfold query, mbind, reader_bind.
  assert (ql `mod` historyLength = Q `mod` historyLength) as Hmod.
  { unfold Q, historyLength. replace (qh * 2 ^ 32 + ql) with (ql + qh * 2 ^ 28 * 16) by lia. by rewrite Z.mod_add. }
  destruct (atomicRead_spec epochLow t sc) as (h1&t1&sc1&->&E1&Ht1&Hl1); [lia|]. cbn [mbind outcome_bind].
  destruct (atomicRead_spec epochHigh t1 sc1) as (h2&t2&sc2&->&E2&Ht2&Hl2); [lia|]. cbn [mbind outcome_bind].
  pose proof (rem_le t t2 ltac:(lia)). destruct (epoch_split h1 t1 E1) as [S1 L1]. destruct (epoch_split h2 t2 E2) as [S2 L2].
  pose proof (epoch_mono t t1 Ht1). pose proof (epoch_mono t1 t2 Ht2).
  destruct (inHistory ql qh (epochLow h1) (epochHigh h2)) eqn:Ein; cbn [negb].
  2: { destruct (preQuery_spec t2 sc2) as (r&t'&sc'&->&?&?&Hr); [lia|]. exists r, t', sc'. split_and!; [done|lia|lia|].
    intros Hf a Ha. apply (Hr Hf a Q). apply recorded_mono with t; [lia|done]. }
  rewrite Hmod. destruct (slotQuery_spec Q t2 sc2) as (r&t3&sc3&->&Ht3&Hl3&Hr); [lia|]. cbn [mbind outcome_bind].
  pose proof (rem_le t2 t3 Ht3). destruct (atomicRead_spec epochLow t3 sc3) as (h4&t4&sc4&->&E4&Ht4&Hl4); [lia|]. cbn [mbind outcome_bind].
  destruct (epoch_split h4 t4 E4) as [S4 L4]. pose proof (epoch_mono t2 t3 Ht3). pose proof (epoch_mono t3 t4 Ht4).
  pose proof (rem_le t3 t4 Ht4). pose proof (inHistory_close ql qh _ _ Hql Hqh L1 Ein) as Hclose.
  destruct (Z.eqb_spec (epochLow h4) (epochLow h1)) as [Elow|Elow]; cbn [negb].
  { exists r, t4, sc4. split_and!; [done|lia|lia|]. intros Hf a Ha. apply (Hr Hf); [lia| |apply recorded_mono with t; [lia|done]].
    pose proof (epochLow_same h1 h4 t1 t4 ltac:(lia) E1 E4 Elow). lia. }
  destruct (atomicRead_spec epochHigh t4 sc4) as (h5&t5&sc5&->&E5&Ht5&Hl5); [lia|]. cbn [mbind outcome_bind].
  pose proof (rem_le t4 t5 Ht5). destruct (inHistory ql qh (epochLow h4) (epochHigh h5)) eqn:Ein'; cbn [negb].
  - exists r, t5, sc5. split_and!; [done|lia|lia|]. intros Hf a Ha. apply (Hr Hf); [lia| |apply recorded_mono with t; [lia|done]].
    pose proof (inHistory_close ql qh _ _ Hql Hqh L4 Ein'). pose proof (epochHigh_mono h4 h5 t4 t5 Ht5 E4 E5). lia.
  - destruct (preQuery_spec t5 sc5) as (r'&t'&sc'&->&?&?&Hr'); [lia|]. exists r', t', sc'. split_and!; [done|lia|lia|].
    intros Hf a Ha. apply (Hr' Hf a Q). apply recorded_mono with t; [lia|done].
Qed.
End query.

Lemma fromSet t h : stateAt run t = Ret h → setInv (from h) (epoch t) (recorded fromOf E0 cs (clamp t)).
Proof. destruct (stateAt_spec t) as (h'&->&_&[]). by intros [= <-]. Qed.
Lemma toSet t h : stateAt run t = Ret h → setInv (to h) (epoch t) (recorded toOf E0 cs (clamp t)).
Proof. destruct (stateAt_spec t) as (h'&->&_&[]). by intros [= <-]. Qed.

(** ** Watches *)

Definition watchEpoch (w : AddrWatch) : Z := wHigh w * 2 ^ 32 + wLow w.

(** The watch depends on the location [a] as of the moment [t]. *)
Record tracks (w : AddrWatch) (a : Z) (t : nat) : Prop := {
  tracks_wf : wf7 (watching w);
  tracks_mem : mem7 (watching w) a;
  tracks_low : 0 ≤ wLow w < 2 ^ 32;
  tracks_high : 0 ≤ wHigh w;
  tracks_epoch : 1 ≤ watchEpoch w ≤ epoch t;
}.

(** A watch at the moment [t]: new, or with an epoch of the past. *)
Definition watchInv (w : AddrWatch) (t : nat) : Prop :=
  wf7 (watching w) ∧ 0 ≤ wLow w < 2 ^ 32 ∧ 0 ≤ wHigh w ∧ watchEpoch w ≤ epoch t.

Lemma tracks_later w a t t' : (t ≤ t')%nat → tracks w a t → tracks w a t'.
Proof. intros Ht [? ? ? ? ?]. pose proof (epoch_mono t t' Ht). constructor; try done; lia. Qed.

Lemma readEpoch_spec fuel : ∀ t sc,
  (rem t < fuel)%nat → (3 * rem t + 3 ≤ length sc)%nat →
  ∃ low high t' sc' t1, readEpoch run fuel (t, sc) = Ret ((low, high), (t', sc')) ∧ (t ≤ t1 ≤ t')%nat ∧
    high * 2 ^ 32 + low = epoch t1 ∧ 0 ≤ low < 2 ^ 32 ∧ 0 ≤ high ∧ (length sc + 3 * rem t' ≤ length sc' + 3 + 3 * rem t)%nat.
Proof.
  induction fuel as [|fuel IH]; intros t sc Hf Hsc; [lia|]. cbn [readEpoch]. unfold mbind, reader_bind.
  destruct (atomicRead_spec epochHigh t sc) as (h1&t1&sc1&->&E1&Ht1&Hl1); [lia|]. cbn [mbind outcome_bind].
  destruct (atomicRead_spec epochLow t1 sc1) as (h2&t2&sc2&->&E2&Ht2&Hl2); [lia|]. cbn [mbind outcome_bind].
  destruct (atomicRead_spec epochHigh t2 sc2) as (h3&t3&sc3&->&E3&Ht3&Hl3); [lia|]. cbn [mbind outcome_bind].
  destruct (epoch_split h1 t1 E1) as [S1 L1]. destruct (epoch_split h2 t2 E2) as [S2 L2]. destruct (epoch_split h3 t3 E3) as [S3 L3].
  pose proof (epochHigh_mono h1 h2 t1 t2 Ht2 E1 E2). pose proof (epochHigh_mono h2 h3 t2 t3 Ht3 E2 E3).
  pose proof (epoch_range t1). pose proof (rem_le t t3 ltac:(lia)).
  destruct (Z.eqb_spec (epochHigh h1) (epochHigh h3)) as [E|E]; cbn [negb].
  - exists (epochLow h2), (epochHigh h1), t3, sc3, t2. split_and!; try done; try lia.
  - assert (rem t3 < rem t)%nat.
    { destruct (decide (rem t1 = rem t3)) as [Er|]; [|pose proof (rem_le t t1 Ht1); pose proof (rem_le t1 t3 ltac:(lia)); lia].
      exfalso. assert (clamp t1 = clamp t3) as Ec by (unfold rem, clamp in *; lia). rewrite Ec in S1. lia. }
    destruct (IH t3 sc3) as (low&high&t'&sc'&t4&->&?&?&?&?&?); [lia|lia|]. exists low, high, t', sc', t4. split_and!; try done; lia.
Qed.

(** The address can be recorded in the watch. *)
Definition watchFits (w : AddrWatch) (a : Z) : Prop :=
  fits a (a + 1) ∧ (AddrSet.coversAddr historyBytes (watching w) a = true ∨ resizeFits 7 (watching w) a (a + 1)).

Lemma coversAddr_covered s a : wf7 s → fits a (a + 1) → AddrSet.coversAddr historyBytes s a = true → covered 7 s a.
Proof.
  intros Hw [Hf Ht] Hc. unfold AddrSet.coversAddr in Hc. rewrite (size_spec historyBytes 7 historySized s Hw) in Hc.
  destruct (offset_range s (wf_data _ s Hw)) as [Ho _]. destruct (Z.ltb_spec a (AddrSet.offset s)); [done|].
  rewrite u64_small in Hc by (unfold is_u64; lia). destruct (Z.leb_spec (res s * nbits 7) (a - AddrSet.offset s)); [done|].
  unfold covered. lia.
Qed.

Lemma watchAdd_set w a :
  wf7 (watching w) → watchFits w a →
  ∃ s s', (if negb (AddrSet.coversAddr historyBytes (watching w) a) then AddrSet.resize historyBytes (watching w) a (u64 (a + 1))
      else Ret (watching w)) = Ret s ∧ AddrSet.addAddr historyBytes s a = Ret s' ∧ wf7 s' ∧ mem7 s' a ∧
    ∀ b, mem7 (watching w) b → mem7 s' b.
Proof.
  intros Hw [Hf Hfit]. pose proof Hf as [Hf1 Hf2]. rewrite u64_small by (unfold is_u64; lia).
  assert (∃ s, (if negb (AddrSet.coversAddr historyBytes (watching w) a) then AddrSet.resize historyBytes (watching w) a (a + 1)
      else Ret (watching w)) = Ret s ∧ wf7 s ∧ (∀ b, mem7 (watching w) b → mem7 s b) ∧ covered 7 s a) as (s&Es&Hws&Hm&Hc).
  { destruct (AddrSet.coversAddr historyBytes (watching w) a) eqn:Hc; cbn [negb].
    - exists (watching w). split_and!; auto. by apply coversAddr_covered.
    - destruct Hfit as [?|Hr]; [done|]. destruct (resize_spec historyBytes 7 historySized _ _ _ Hw Hr) as (s&->&?&Hcov&?&_).
      exists s. split_and!; auto. apply Hcov. lia. }
  destruct (addAddr_spec historyBytes 7 historySized s a Hws) as (s'&Es'&Hs'&Hbit); [unfold is_u64; lia|].
  exists s, s'. assert (∀ b, mem7 s b ∨ b = a → mem7 s' b) as Hmem.
  { intros b Hb. unfold mem. destruct (sameRange_idOf 7 s s' b Hs') as [-> ->]. rewrite Hbit, orb_true_iff, bool_decide_eq_true.
    destruct Hb as [[? ?]| ->]; auto. }
  split_and!; auto. apply Hs'.
Qed.

Lemma watchAdd_spec w a t sc :
  watchInv w t → watchFits w a → (3 * rem t + 3 ≤ length sc)%nat →
  ∃ w' t' sc', watchAdd run w a (t, sc) = Ret (w', (t', sc')) ∧ (t ≤ t')%nat ∧ tracks w' a t' ∧ watchInv w' t' ∧
    (∀ b t0, tracks w b t0 → tracks w' b t0) ∧ (length sc + 3 * rem t' ≤ length sc' + 3 + 3 * rem t)%nat.
Proof.
  intros (Hw&Hlo&Hhi&Hep) Hfit Hsc. destruct (watchAdd_set w a Hw Hfit) as (s&s'&Es&Es'&Hws'&Hma&Hmem). unfold watchAdd, mbind, reader_bind.
  assert (∃ low high t' sc', (if watchEmpty w then readEpoch run (queryFuel run) else mret (wLow w, wHigh w)) (t, sc) = Ret ((low, high), (t', sc')) ∧
    (t ≤ t')%nat ∧ 0 ≤ low < 2 ^ 32 ∧ 0 ≤ high ∧ 1 ≤ high * 2 ^ 32 + low ≤ epoch t' ∧ (1 ≤ watchEpoch w → low = wLow w ∧ high = wHigh w) ∧
    (length sc + 3 * rem t' ≤ length sc' + 3 + 3 * rem t)%nat) as (low&high&t'&sc'&->&Ht&Hl&Hh&He&Hsame&Hlen).
  { unfold watchEmpty, watchEpoch in *. destruct (Z.eqb_spec (wLow w) 0) as [E1|E1], (Z.eqb_spec (wHigh w) 0) as [E2|E2]; cbn [andb].
    2-4: exists (wLow w), (wHigh w), t, sc; split_and!; try done; lia.
    destruct (readEpoch_spec (queryFuel run) t sc) as (low&high&t'&sc'&t1&->&?&He&?&?&?); [apply queryFuel_enough|done|].
    pose proof (epoch_range t1). pose proof (epoch_mono t1 t' ltac:(lia)). exists low, high, t', sc'. split_and!; try done; lia. }
  cbn [mbind outcome_bind]. unfold lift. rewrite Es. cbn [mbind outcome_bind]. rewrite Es'. cbn [mbind outcome_bind].
  exists (mkWatch s' low high), t', sc'. split_and!; [done|done| | | |done].
  - constructor; try done.
  - split_and!; cbn; try done; try lia. unfold watchEpoch. cbn. lia.
  - intros b t0 [? ? ? ? ?]. destruct Hsame as [-> ->]; [lia|]. constructor; cbn; auto.
Qed.

(** The calls of [add] for some addresses, each after some more changes of the history, and
    the moments at which they return. *)
Fixpoint addAll (w : AddrWatch) (adds : list (nat * Z)) : reader (AddrWatch * list (Z * nat)) :=
  match adds with
  | [] => mret (w, [])
  | (d, a) :: adds => λ '(t, sc),
      '(w, (t, sc)) ← watchAdd run w a ((t + d)%nat, sc);
      '((w, l), s) ← addAll w adds (t, sc);
      Ret ((w, (a, t) :: l), s)
  end.

(** Every address can be recorded when it is added. *)
Fixpoint addsFit (w : AddrWatch) (adds : list (nat * Z)) (s : sched) : Prop :=
  match adds with
  | [] => True
  | (d, a) :: adds => watchFits w a ∧
      match watchAdd run w a ((s.1 + d)%nat, s.2) with Ret (w, s) => addsFit w adds s | _ => True end
  end.

Lemma watchInv_later w t t' : (t ≤ t')%nat → watchInv w t → watchInv w t'.
Proof. intros Ht (?&?&?&?). pose proof (epoch_mono t t' Ht). split_and!; try done; lia. Qed.

Lemma addAll_spec adds : ∀ w t sc,
  watchInv w t → addsFit w adds (t, sc) → (3 * rem t + 3 * length adds ≤ length sc)%nat →
  ∃ w' l t' sc', addAll w adds (t, sc) = Ret ((w', l), (t', sc')) ∧ (t ≤ t')%nat ∧ watchInv w' t' ∧ l.*1 = adds.*2 ∧
    (∀ a t0, tracks w a t0 → tracks w' a t0) ∧ ∀ a t0, (a, t0) ∈ l → (t ≤ t0 ≤ t')%nat ∧ tracks w' a t0.
Proof.
  induction adds as [|[d a] adds IH]; intros w t sc Hi Hfit Hsc.
  { exists w, [], t, sc. split_and!; try done. by intros ? ? ?%not_elem_of_nil. }
  cbn [addsFit fst snd length] in Hfit, Hsc. destruct Hfit as [Hf Hfit]. pose proof (rem_le t (t + d) ltac:(lia)).
  destruct (watchAdd_spec w a (t + d) sc (watchInv_later w t (t + d) ltac:(lia) Hi) Hf) as (w1&t1&sc1&E1&Ht1&Htr&Hi1&Hk&Hl1); [lia|].
  rewrite E1 in Hfit. destruct (IH w1 t1 sc1 Hi1 Hfit) as (w2&l&t2&sc2&E2&Ht2&Hi2&Hl&Hk2&Hall); [lia|].
  exists w2, ((a, t1) :: l), t2, sc2. cbn [addAll]. rewrite E1. cbn [mbind outcome_bind]. rewrite E2. cbn [mbind outcome_bind].
  split_and!; [done|lia|done|by cbn; rewrite Hl|auto|]. intros b t0 [[= -> ->]|Hb]%elem_of_cons; [split; [lia|auto]|].
  destruct (Hall b t0 Hb). split; [lia|done].
Qed.

Lemma check_spec w a t0 t sc :
  tracks w a t0 → (t0 ≤ t)%nat → (3 * rem t + 10 ≤ length sc)%nat →
  ∃ r t' sc', check run w (t, sc) = Ret (r, (t', sc')) ∧ (t ≤ t')%nat ∧ (length sc + 3 * rem t' ≤ length sc' + 10 + 3 * rem t)%nat ∧
    (r = false → ∀ i, (t0 ≤ i < t)%nat → ¬ recordedAt fromOf cs i a).
Proof.
  intros [Hw Hm Hlo Hhi He] Ht Hsc. unfold check. unfold watchEpoch in He.
  assert (watchEmpty w = false) as -> by (unfold watchEmpty; destruct (Z.eqb_spec (wLow w) 0), (Z.eqb_spec (wHigh w) 0); try done; lia).
  pose proof (epoch_mono t0 t Ht). unfold querySet.
  destruct (query_spec from fromOf fromSet (λ t h h' E E', proj1 (proj1 (stateAt_bumps t h h' E E')))
    (λ s, AddrSet.intersects historyBytes historyBytes s (watching w)) (mem7 (watching w))
    (λ s Hs, intersects_mem historyBytes 7 historyBytes 7 s (watching w) historySized historySized Hs Hw)
    (wLow w) (wHigh w) t sc Hlo Hhi ltac:(lia) Hsc) as (r&t'&sc'&->&?&?&Hr).
  exists r, t', sc'. split_and!; try done. intros Hf i Hi Hrec. apply (Hr Hf a); [|done]. exists i. split; [|split; [done|]].
  - destruct Hrec as (?&?&?&Hl&_). apply lookup_lt_Some in Hl. unfold clamp. lia.
  - etransitivity; [apply He|]. apply epochAt_le. unfold clamp. lia.
Qed.

Lemma checkAddr_spec w a a' t0 t sc :
  tracks w a t0 → (t0 ≤ t)%nat → is_u64 a' → (3 * rem t + 20 ≤ length sc)%nat →
  ∃ r t' sc', checkAddr run w a' (t, sc) = Ret (r, (t', sc')) ∧
    (r = false → (∀ i, (t0 ≤ i < t)%nat → ¬ recordedAt fromOf cs i a) ∨ (∀ i, (t0 ≤ i < t)%nat → ¬ recordedAt toOf cs i a')).
Proof.
  intros Htr Ht Ha' Hsc. unfold checkAddr, mbind, reader_bind. destruct (check_spec w a t0 t sc Htr Ht) as (r&t'&sc'&->&Ht'&Hl&Hr); [lia|].
  cbn [mbind outcome_bind]. destruct r; cbn [negb]; [|exists false, t', sc'; split; [done|]; intros _; left; by apply Hr].
  destruct (tracks_later w a t0 t' ltac:(lia) Htr) as [_ _ Hlo Hhi He]. unfold watchEpoch in He.
  pose proof Htr as [_ _ _ _ He0]. unfold watchEpoch in He0. unfold queryAddr.
  destruct (query_spec to toOf toSet (λ t h h' E E', proj2 (proj1 (stateAt_bumps t h h' E E')))
    (λ s, AddrSet.hasAddr historyBytes s a') (.= a')) with (ql := wLow w) (qh := wHigh w) (t := t') (sc := sc') as (r&t2&sc2&->&_&_&Hr2); try done; try lia.
  { intros s Hs. destruct (hasAddr_spec historyBytes 7 historySized s a' Hs Ha') as (r&->&Hr0). exists r. split; [done|]. rewrite Hr0.
    split; [eauto|]. by intros (?&?&->). }
  exists r, t2, sc2. split; [done|]. intros Hf. right. intros i Hi Hrec. apply (Hr2 Hf a'); [|done]. exists i. split; [|split; [done|]].
  - destruct Hrec as (?&?&?&Hl2&_). apply lookup_lt_Some in Hl2. unfold clamp. lia.
  - etransitivity; [apply He0|]. apply epochAt_le. unfold clamp. lia.
Qed.
End readers.

(** ** The properties *)

(** C39: a watch does not miss a move: if addresses were added to a watch, and after one of
    them, [a], was added the collector recorded a range with [a] as moved from, then [check]
    returns true, and if it also recorded a range with the address [a'] as moved to, a check
    of [a'] returns true; this holds for each of the addresses, whatever is added after it.
    The calls return for every schedule of their reads with enough accesses; the collector
    may change the history between any two of them, with epochs that wrap around 32 bits and
    tests of bitmaps that are torn.  The bitmap that a range is recorded in or an
    address is added to must cover it, or grow to a range that ends below 2^62 ([runFits],
    [addsFit]): [watch_misses_move] shows that addresses are lost when the range of a bitmap
    overflows.  Fewer than 2^32 changes happen. *)
Theorem watch_sound h0 E0 cs run w adds t sc :
  goodRun h0 E0 cs run → watchInv E0 cs w t → addsFit run w adds (t, sc) → (3 * length cs + 3 * length adds ≤ length sc)%nat →
  returns (addAll run w adds (t, sc)) (λ '((w', l), (t', _)), (t ≤ t')%nat ∧ watchInv E0 cs w' t' ∧ l.*1 = adds.*2 ∧
    ∀ a t0 t2 a' sc2, (a, t0) ∈ l → (t' ≤ t2)%nat → is_u64 a' → (3 * length cs + 20 ≤ length sc2)%nat →
      (t0 ≤ t')%nat ∧
      returns (check run w' (t2, sc2)) (λ '(r, _), ∀ i, (t0 ≤ i < t2)%nat → recordedAt fromOf cs i a → r = true) ∧
      returns (checkAddr run w' a' (t2, sc2)) (λ '(r, _),
        ∀ i j, (t0 ≤ i < t2)%nat → (t0 ≤ j < t2)%nat → recordedAt fromOf cs i a → recordedAt toOf cs j a' → r = true)).
Proof.
  intros Hg Hi Hf Hsc. destruct (addAll_spec h0 E0 cs run Hg adds w t sc Hi Hf) as (w'&l&t'&sc'&->&Ht&Hi'&Hl&_&Hall); [unfold rem; lia|].
  cbn [returns]. split_and!; [done..|]. intros a t0 t2 a' sc2 Ha Ht2 Ha' Hsc2. destruct (Hall a t0 Ha) as [Ht0 Htr].
  destruct (check_spec h0 E0 cs run Hg w' a t0 t2 sc2 Htr) as (r1&t3&sc3&->&_&_&Hr1); [lia|unfold rem; lia|].
  destruct (checkAddr_spec h0 E0 cs run Hg w' a a' t0 t2 sc2 Htr) as (r2&t4&sc4&->&Hr2); [lia|done|unfold rem; lia|].
  cbn [returns]. split_and!; [lia| |].
  - intros i Hi2 Hfrom. destruct r1; [done|]. by destruct (Hr1 eq_refl i Hi2).
  - intros i j Hi2 Hj2 Hfrom Hto. destruct r2; [done|]. exfalso. destruct (Hr2 eq_refl) as [Hn|Hn]; [exact (Hn i Hi2 Hfrom)|exact (Hn j Hj2 Hto)].
Qed.

#[export] Instance addFits_dec s from to : Decision (addFits s from to).
Proof. unfold addFits. apply _. Defined.
#[export] Instance runFits_dec h cs : Decision (runFits h cs).
Proof.
  revert h. induction cs as [|c cs IH]; intros h; cbn; [apply _|]. apply and_dec; [destruct c; cbn; unfold setFits; apply _|].
  destruct (apply h c); apply _.
Defined.

Lemma newSet_inv E : setInv newSet E (λ _ _, False).
Proof.
  constructor; [done| |split; [apply new_wf|by intros ? [? []]]]. intros e _. exists newSummary. split; [|split; [apply new_wf|done]].
  apply lookupZ_replicate. by apply Z.mod_pos_bound.
Qed.

(** A run across the wrap of the low part of the epoch. *)
Definition start_ex : History := mkHistory newSet newSet (2 ^ 32 - 1) 0.
Definition changes_ex : list change :=
  [CStep; CFrom 0x7f0000001000 0x7f0000001040; CTo 0x7f0000002000 0x7f0000002040; CStep].
Definition fromRet {A} (d : A) (m : outcome A) : A := match m with Ret a => a | _ => d end.
Definition run_ex : list History := fromRet [] (runFrom start_ex changes_ex).

Lemma run_ex_good : goodRun start_ex (2 ^ 32 - 1) changes_ex run_ex.
Proof.
  constructor; [constructor; (apply newSet_inv || reflexivity)|lia|reflexivity|reflexivity| |].
  - apply (bool_decide_unpack _). vm_compute. exact I.
  - vm_compute. reflexivity.
Qed.

#[export] Instance watchFits_dec w a : Decision (watchFits w a).
Proof. unfold watchFits. apply _. Defined.
#[export] Instance addsFit_dec run w adds s : Decision (addsFit run w adds s).
Proof.
  revert w s. induction adds as [|[d a] adds IH]; intros w s; cbn [addsFit]; [apply _|]. apply and_dec; [apply _|].
  destruct (watchAdd run w a ((s.1 + d)%nat, s.2)) as [[w' s']| | |]; apply _.
Defined.

(** The first of two addresses is moved between the two calls of [add]. *)
Definition adds_ex : list (nat * Z) := [(0%nat, 0x7f0000001008); (3%nat, 0x7f0000009008)].
Definition sched_ex : list (nat * bool) := replicate 18 (0%nat, false).
Definition watch_ex : AddrWatch := (fromRet ((newWatch, []), (0%nat, [])) (addAll run_ex newWatch adds_ex (0%nat, sched_ex))).1.1.

Lemma watch_sound_witness :
  returns (check run_ex watch_ex (3%nat, replicate 32 (1%nat, false))) (λ '(r, _), r = true) ∧
  returns (checkAddr run_ex watch_ex 0x7f0000002008 (3%nat, replicate 32 (1%nat, false))) (λ '(r, _), r = true).
Proof.
  assert (watchInv (2 ^ 32 - 1) changes_ex newWatch 0) as Hi 
    by (split_and!; [apply new_wf|cbn; lia|cbn; lia|cbn; lia|vm_compute; discriminate]).
  assert (addsFit run_ex newWatch adds_ex (0%nat, sched_ex)) as Hf by (apply (bool_decide_unpack _); vm_compute; exact I).
  pose proof (watch_sound _ _ _ _ newWatch adds_ex 0 sched_ex run_ex_good Hi Hf ltac:(cbn; lia)) as H.
  assert (addAll run_ex newWatch adds_ex (0%nat, sched_ex) =
    Ret ((watch_ex, [(0x7f0000001008, 0%nat); (0x7f0000009008, 3%nat)]), (3%nat, replicate 15 (0%nat, false)))) as E by (vm_compute; reflexivity).
  rewrite E in H. destruct H as (_&_&_&H).
  destruct (H 0x7f0000001008 0%nat 3%nat 0x7f0000002008 (replicate 32 (1%nat, false)) ltac:(by left) ltac:(lia) ltac:(unfold is_u64; lia) ltac:(cbn; lia))
    as (_&H1&H2).
  assert (recordedAt fromOf changes_ex 1 0x7f0000001008).
  { exists (CFrom 0x7f0000001000 0x7f0000001040), 0x7f0000001000, 0x7f0000001040. split_and!; (reflexivity || lia). }
  assert (recordedAt toOf changes_ex 2 0x7f0000002008).
  { exists (CTo 0x7f0000002000 0x7f0000002040), 0x7f0000002000, 0x7f0000002040. split_and!; (reflexivity || lia). }
  split.
  - eapply returns_mono; [exact H1|]. intros [r s] Hr. apply (Hr 1%nat); [lia|assumption].
  - eapply returns_mono; [exact H2|]. intros [r s] Hr. apply (Hr 1%nat 2%nat); [lia|lia|assumption|assumption].
Defined.

(** Every address below the range of a set doubles the range ([AddrSet::resize] keeps all of
    the old one): after a few falling addresses the 64-bit length overflows, the new set has
    one bit per byte again, and the first addresses are lost. *)
Definition falling : list Z := 2 ^ 46 :: ((λ i, 2 ^ 45 - 64 * i) <$> seqZ 0 19).

(** A watch of 20 objects at falling addresses misses that the first one was moved: the
    range of its set overflows. *)
Theorem watch_misses_move :
  let cs := [CFrom (2 ^ 46) (2 ^ 46 + 64); CTo (2 ^ 44) (2 ^ 44 + 64)] in
  let sc := replicate 30 (0%nat, false) in
  (run ← runFrom new cs;
   w ← foldl (λ w a, w ← w; r ← watchAdd run w a (0%nat, sc); Ret r.1) (Ret newWatch) falling;
   r ← checkAddr run w (2 ^ 44) (2%nat, sc); Ret r.1) = Ret false.
Proof. vm_compute. reflexivity. Qed.
