(* ===== verification/InlineList.v ===== *)
(** * Inline lists

    [OS/InlineList.h]: the list that queues of threads are made of ([Sync]).  The link to
    the next element is a member of the elements; null means that an element is in no list,
    and a special value marks the end of a list. *)

From stdpp Require Import base list numbers decidable option gmap.
From Stdlib Require Import ZArith Lia.
From S2P Require Import Prelude.

Module InlineList.

(** [T *]: null, the tag [end], or an element. *)
Inductive ptr := Null | End | Node (p : positive).
#[global] Instance ptr_eq_dec : EqDecision ptr.
Proof. solve_decision. Defined.

(** [next] of every element. *)
Abbreviation mem := (gmap positive ptr).

Record InlineList := mkInlineList { head : ptr; tail : ptr }.

Definition new : InlineList := mkInlineList End End.

Definition getNext (m : mem) (p : ptr) : outcome ptr :=
  match p with Node p => match m !! p with Some q => Ret q | None => Fault end | _ => Fault end.
Definition setNext (m : mem) (p q : ptr) : outcome mem :=
  match p with Node p => match m !! p with Some _ => Ret (<[p := q]> m) | None => Fault end | _ => Fault end.

Definition push (m : mem) (l : InlineList) (e : ptr) : outcome (mem * InlineList) :=
  n ← getNext m e;
  _ ← assert (bool_decide (n = Null));
  m ← setNext m e End;
  if bool_decide (tail l ≠ End) then
    m ← setNext m (tail l) e; Ret (m, mkInlineList (head l) e)
  else Ret (m, mkInlineList e e).

Definition pop (m : mem) (l : InlineList) : outcome (mem * InlineList * ptr) :=
  if bool_decide (head l = End) then Ret (m, l, Null)
  else
    let r := head l in
    h ← getNext m r;
    m ← setNext m r Null;
    let t := if bool_decide (h = End) then End else tail l in
    Ret (m, mkInlineList h t, r).

Definition empty (l : InlineList) : bool := bool_decide (head l = End).
Definition any (l : InlineList) : bool := bool_decide (head l ≠ End).

(** The loop of the destructor, for a list of fewer than [fuel] elements. *)
Fixpoint destroyLoop (fuel : nat) (m : mem) (h : ptr) : outcome mem :=
  match fuel with
  | O => OutOfFuel
  | S fuel =>
      if bool_decide (h ≠ End) then
        n ← getNext m h;
        m ← setNext m h Null;
        destroyLoop fuel m n
      else Ret m
  end.
Definition destroy (m : mem) (l : InlineList) : outcome (mem * InlineList) :=
  m ← destroyLoop (S (size m)) m (head l); Ret (m, mkInlineList End End).

(** ** Correctness *)

(** The elements [ps] are linked from [h] to the end. *)
Fixpoint chain (m : mem) (h : ptr) (ps : list positive) : Prop :=
  match ps with
  | [] => h = End
  | p :: ps => h = Node p ∧ ∃ n, m !! p = Some n ∧ chain m n ps
  end.

Definition lastPtr (ps : list positive) : ptr := match last ps with Some p => Node p | None => End end.

(** The list [l] has the elements [ps]. *)
Record rep (m : mem) (l : InlineList) (ps : list positive) : Prop := {
  rep_chain : chain m (head l) ps;
  rep_tail : tail l = lastPtr ps;
  rep_nodup : NoDup ps;
}.

(** An element that is in no list. *)
Definition single (m : mem) (p : positive) : Prop := m !! p = Some Null.

Lemma chain_frame m m' h ps : chain m h ps → (∀ p, p ∈ ps → m' !! p = m !! p) → chain m' h ps.
Proof.
  revert h. induction ps as [|p ps IH]; intros h; simpl; [done|]. intros (-> & n & Hn & Hc) Hm. split; [done|].
  exists n. split; [by rewrite Hm by (by apply elem_of_cons; left)|]. apply IH; [done|]. intros q Hq. apply Hm. by apply elem_of_cons; right.
Qed.

Lemma chain_in m h ps p : chain m h ps → p ∈ ps → ∃ n, m !! p = Some n ∧ n ≠ Null.
Proof.
  revert h. induction ps as [|q ps IH]; intros h; simpl; [by intros _ ?%elem_of_nil|].
  intros (_ & n & Hn & Hc) [->|Hin]%elem_of_cons; [|by eapply IH]. exists n. split; [done|].
  destruct ps; simpl in Hc; [by subst|]. by destruct Hc as [-> _].
Qed.

(** The element that is added, behind the last one. *)
Lemma chain_snoc m h ps e : chain m h ps → NoDup (ps ++ [e]) → m !! e = Some End →
  chain (match last ps with Some p => <[p := Node e]> m | None => m end)
    (match ps with [] => Node e | _ => h end) (ps ++ [e]).
Proof.
  revert h. induction ps as [|p ps IH]; intros h Hc Hnd He.
  - simpl. split; [done|]. by exists End.
  - destruct Hc as (-> & n & Hn & Hc). simpl app in *. apply NoDup_cons in Hnd as [Hp Hnd].
    specialize (IH n Hc Hnd He). destruct ps as [|q ps].
    + simpl in *. subst n. split; [done|]. exists (Node e). split; [by rewrite lookup_insert_eq|]. split; [done|]. exists End.
      split; [|done]. rewrite lookup_insert_ne; [done|]. intros ->. apply Hp. by apply list_elem_of_singleton.
    + rewrite last_cons_cons. destruct (last (q :: ps)) as [z|] eqn:El; [|by apply last_None in El].
      change (chain (<[z:=Node e]> m) (Node p) (p :: (q :: ps) ++ [e])). split; [done|]. exists n. split; [|done].
      rewrite lookup_insert_ne; [done|]. intros ->. apply Hp. apply elem_of_app. left. by apply last_Some_elem_of.
Qed.

Lemma list_push_run m l ps e : rep m l ps → single m e →
  returns (push m l (Node e)) (λ '(m', l'), rep m' l' (ps ++ [e]) ∧ ∀ q, q ∉ ps → q ≠ e → m' !! q = m !! q).
Proof.
  intros [Hc Ht Hnd] He. unfold single in He.
  assert (Hin : e ∉ ps) by (intros Hin; destruct (chain_in _ _ _ _ Hc Hin) as (n & Hn & ?); by rewrite He in Hn; simplify_eq).
  assert (Hnd' : NoDup (ps ++ [e])).
  { apply NoDup_app. split_and!; [done| |by apply NoDup_singleton]. intros x Hx ->%list_elem_of_singleton. done. }
  unfold push. simpl. rewrite He. simpl. rewrite ?He. simpl. rewrite Ht. unfold lastPtr.
  set (m1 := <[e := End]> m).
  assert (Hc1 : chain m1 (head l) ps) by (apply (chain_frame m); [done|]; intros p Hp; apply lookup_insert_ne; by intros ->).
  pose proof (chain_snoc m1 (head l) ps e Hc1 Hnd' ltac:(by apply lookup_insert_eq)) as Hs.
  destruct (last ps) as [z|] eqn:El.
  - assert (Hz : z ∈ ps) by (by apply last_Some_elem_of). destruct (chain_in _ _ _ _ Hc1 Hz) as (n & Hn & _).
    rewrite bool_decide_true by done. simpl. rewrite Hn. simpl. split.
    + split; simpl; [|by unfold lastPtr; rewrite last_snoc|done]. by destruct ps.
    + intros q Hq Hqe. unfold m1. rewrite !lookup_insert_ne; [done|by intros ->|by intros ->].
  - apply last_None in El as ->. simpl. split; [|intros q _ Hq; by apply lookup_insert_ne].
    split; [done|done|done].
Qed.

Lemma list_pop_run m l ps : rep m l ps →
  returns (pop m l) (λ '(m', l', r),
    match ps with
    | [] => r = Null ∧ m' = m ∧ l' = l
    | p :: ps => r = Node p ∧ rep m' l' ps ∧ single m' p ∧ ∀ q, q ≠ p → m' !! q = m !! q
    end).
Proof.
  intros [Hc Ht Hnd]. unfold pop. destruct ps as [|p ps]; simpl in Hc.
  - by rewrite Hc.
  - destruct Hc as (Hh & n & Hn & Hc). rewrite Hh. simpl. rewrite Hn. simpl. rewrite ?Hn. simpl.
    apply NoDup_cons in Hnd as [Hp Hnd]. split_and!; [done| |by apply lookup_insert_eq|by intros; apply lookup_insert_ne].
    split; simpl; [|rewrite Ht|done].
    + apply (chain_frame m); [done|]. intros q Hq. apply lookup_insert_ne. by intros ->.
    + unfold lastPtr. destruct ps as [|q ps]; simpl in Hc; [by subst|]. destruct Hc as [-> _].
      rewrite bool_decide_false by done. by rewrite last_cons_cons.
Qed.

Lemma destroyLoop_run fuel m h ps : chain m h ps → NoDup ps → (length ps < fuel)%nat →
  returns (destroyLoop fuel m h) (λ m', ∀ p, m' !! p = if decide (p ∈ ps) then Some Null else m !! p).
Proof.
  revert m h ps. induction fuel as [|fuel IH]; intros m h ps Hc Hnd Hf; [lia|]. simpl. destruct ps as [|p ps]; simpl in Hc.
  - subst h. rewrite bool_decide_false by tauto. cbn [returns]. intros p. case_decide as E; [by apply elem_of_nil in E|done].
  - destruct Hc as (-> & n & Hn & Hc). rewrite bool_decide_true by done. simpl. rewrite Hn. simpl. rewrite ?Hn. simpl.
    apply NoDup_cons in Hnd as [Hp Hnd]. simpl in Hf.
    eapply returns_mono; [apply (IH _ n ps); [|done|lia]|].
    { apply (chain_frame m); [done|]. intros q Hq. apply lookup_insert_ne. by intros ->. }
    intros m' Hm q. rewrite Hm. rewrite lookup_insert.
    repeat case_decide; rewrite ?elem_of_cons in *; naive_solver.
Qed.

(** The destructor releases all elements. *)
Lemma destroy_run m l ps : rep m l ps →
  returns (destroy m l) (λ '(m', l'), l' = new ∧ ∀ p, m' !! p = if decide (p ∈ ps) then Some Null else m !! p).
Proof.
  intros [Hc _ Hnd]. unfold destroy. eapply returns_bind; [apply (destroyLoop_run _ m (head l) ps Hc Hnd)|by intros m' Hm].
  assert (length ps ≤ size m)%nat; [|lia]. rewrite <- size_dom, <- (size_list_to_set (C := gset positive) ps) by done.
  apply subseteq_size. intros p Hp%elem_of_list_to_set. apply elem_of_dom.
  destruct (chain_in _ _ _ _ Hc Hp) as (n & Hn & _). by exists n.
Qed.

(** An inline list is a queue: [push] adds an element that is in no list at the end, [pop]
    takes the first one and leaves it in no list; elements of other lists are not touched. *)
Theorem inline_list_queue m l ps e : rep m l ps → single m e →
  returns (push m l (Node e)) (λ '(m1, l1), rep m1 l1 (ps ++ [e]) ∧ (∀ q, q ∉ ps → q ≠ e → m1 !! q = m !! q) ∧
    returns (pop m1 l1) (λ '(m2, l2, r), ∃ p ps', ps ++ [e] = p :: ps' ∧ r = Node p ∧ rep m2 l2 ps' ∧ single m2 p ∧
      ∀ q, q ≠ p → m2 !! q = m1 !! q)).
Proof.
  intros Hr He. eapply returns_mono; [by apply list_push_run|]. intros [m1 l1] [Hr1 Hf1]. split_and!; [done|done|].
  eapply returns_mono; [by apply list_pop_run|]. intros [[m2 l2] r]. destruct (ps ++ [e]) as [|p ps'] eqn:E.
  - by destruct ps.
  - intros (-> & Hr2 & Hs & Hf2). by exists p, ps'.
Qed.

Lemma inline_list_queue_witness :
  returns (push {[1%positive := End; 2%positive := Null]} (mkInlineList (Node 1) (Node 1)) (Node 2)) (λ '(m1, l1),
    rep m1 l1 ([1%positive] ++ [2%positive]) ∧
    (∀ q, q ∉ [1%positive] → q ≠ 2%positive → m1 !! q = ({[1%positive := End; 2%positive := Null]} : mem) !! q) ∧
    returns (pop m1 l1) (λ '(m2, l2, r), ∃ p ps', [1%positive] ++ [2%positive] = p :: ps' ∧ r = Node p ∧ rep m2 l2 ps' ∧
      single m2 p ∧ ∀ q, q ≠ p → m2 !! q = m1 !! q)).
Proof.
  apply (inline_list_queue _ _ [1%positive] 2%positive); [|reflexivity]. split; [|reflexivity|by apply NoDup_singleton].
  split; [done|]. by exists End.
Defined.
End InlineList.
