(* ===== verification/Sync.v ===== *)
(** * Synchronization primitives

    [OS/Sync.h] and [OS/Sync.cpp]: the semaphore, the lock and the event of the thread
    library, as transition systems.  A transition is one access to shared memory or one
    critical section (of [util::Lock], a mutex of the operating system), so that calls of
    different threads interleave.  A thread that waits ([UThreadState::wait]) continues
    after it was made ready ([UThreadState::wake]), in any order; a wake-up that comes
    before the wait is not lost, as the thread is then found in the ready list. *)

From stdpp Require Import base list numbers decidable option gmap.
From Stdlib Require Import ZArith Lia.
From S2P Require Import Prelude.

Abbreviation tid := positive.

(** ** Semaphores *)

Module Sema.

Record Sema := mkSema { count : Z; waiting : list tid }.

Definition new (n : Z) : Sema := mkSema n [].

(** The critical section of [up]: the thread to wake, if there is one. *)
Definition up (s : Sema) : Sema * option tid :=
  match waiting s with
  | toWake :: w => (mkSema (count s) w, Some toWake)
  | [] => (mkSema (u32 (count s + 1)) [], None)
  end.

(** The critical section of [down]: whether it returns at once; if not, the thread waits. *)
Definition down (s : Sema) (self : tid) : Sema * bool :=
  if 0 <? count s then (mkSema (u32 (count s - 1)) (waiting s), true)
  else (mkSema (count s) (waiting s ++ [self]), false).

(** A semaphore and the threads that use it: those in [UThreadState::wait], those in [up]
    that have left the critical section and will wake a thread, and those that are ready.
    [holders] has an entry for every [down] that returned and was not followed by an [up] of
    the same thread; it is not part of the program. *)
Record System := mkSystem {
  sema : Sema;
  blocked : list tid;
  waking : list (tid * tid);
  ready : list tid;
  holders : list tid;
}.

Definition start (n : Z) : System := mkSystem (new n) [] [] [] [].

(** What a thread does next. *)
Inductive action := Down (t : tid) | Up (t : tid) | Wake (t : tid) | Resume (t : tid).

Definition idle (y : System) (t : tid) : bool := bool_decide (t ∉ blocked y ++ (waking y).*1).

(** Remove the first occurrence. *)
Fixpoint remove1 (t : tid) (l : list tid) : list tid :=
  match l with
  | [] => []
  | x :: l => if decide (x = t) then l else x :: remove1 t l
  end.
Fixpoint removeWake (t : tid) (l : list (tid * tid)) : option (tid * list (tid * tid)) :=
  match l with
  | [] => None
  | (x, u) :: l => if decide (x = t) then Some (u, l) else '(v, l) ← removeWake t l; Some (v, (x, u) :: l)
  end.

Definition step (y : System) (a : action) : option System :=
  match a with
  | Down t =>
      if idle y t then
        let '(s, ok) := down (sema y) t in
        Some (if ok : bool then mkSystem s (blocked y) (waking y) (ready y) (t :: holders y)
              else mkSystem s (t :: blocked y) (waking y) (ready y) (holders y))
      else None
  | Up t =>
      if idle y t then
        let '(s, toWake) := up (sema y) in
        Some (mkSystem s (blocked y)
          (match toWake with Some u => (t, u) :: waking y | None => waking y end) (ready y) (remove1 t (holders y)))
      else None
  | Wake t =>
      '(u, w) ← removeWake t (waking y);
      Some (mkSystem (sema y) (blocked y) w (ready y ++ [u]) (holders y))
  | Resume t =>
      if bool_decide (t ∈ ready y) && bool_decide (t ∈ blocked y)
      then Some (mkSystem (sema y) (remove1 t (blocked y)) (waking y) (remove1 t (ready y)) (t :: holders y))
      else None
  end.

(** The states some interleaving of calls leads to; [ok] says which calls are made. *)
Inductive reachable (ok : System → action → Prop) (n : Z) : System → Prop :=
  | reach_start : reachable ok n (start n)
  | reach_step y a y' : reachable ok n y → ok y a → step y a = Some y' → reachable ok n y'.

(** [os::Lock]: a semaphore with one permit, given back by the thread that took it. *)
Definition lockCalls (y : System) (a : action) : Prop :=
  match a with Up t => t ∈ holders y | _ => True end.

(** Calls of a semaphore: anyone may count it up, as long as the counter does not wrap. *)
Definition semaCalls (y : System) (a : action) : Prop :=
  match a with Up _ => count (sema y) + 1 < 2 ^ 32 | _ => True end.

Fixpoint run (y : System) (l : list action) : option System :=
  match l with
  | [] => Some y
  | a :: l => y' ← step y a; run y' l
  end.
End Sema.

(** ** Events *)

Module Event.

(** The flag, the queue, and the threads in the middle of a call: [deciding] have read the
    flag as not set and will enter the queue, [setting] have written the flag and will empty
    the queue, [waking] have emptied it and will wake the threads in their local list. *)
Record System := mkSystem {
  s : bool;
  waiting : list tid;
  deciding : list tid;
  blocked : list tid;
  setting : list tid;
  waking : list (tid * list tid);
  ready : list tid;
}.

Definition start : System := mkSystem false [] [] [] [] [] [].

(** [wait] reads the flag ([Read]) and, if it is not set, enters the queue in a critical
    section ([Push]) and waits; [set] writes the flag ([Set_]), empties the queue in a
    critical section ([Take]) and wakes the threads ([Wake]). *)
Inductive action := Read (t : tid) | Push (t : tid) | Set_ (t : tid) | Take (t : tid) | Wake (t : tid)
  | Clear (t : tid) | Resume (t : tid).

Definition idle (y : System) (t : tid) : bool :=
  bool_decide (t ∉ deciding y ++ blocked y ++ setting y ++ (waking y).*1).

(** The next thread of the local list of [t]; [None] when it is empty. *)
Fixpoint popLocal (t : tid) (l : list (tid * list tid)) : option (option tid * list (tid * list tid)) :=
  match l with
  | [] => None
  | (x, us) :: l =>
      if decide (x = t) then
        match us with [] => Some (None, l) | u :: us => Some (Some u, (x, us) :: l) end
      else '(r, l) ← popLocal t l; Some (r, (x, us) :: l)
  end.

Definition step (y : System) (a : action) : option System :=
  match a with
  | Read t =>
      if idle y t then
        Some (if s y then y
              else mkSystem (s y) (waiting y) (t :: deciding y) (blocked y) (setting y) (waking y) (ready y))
      else None
  | Push t =>
      if bool_decide (t ∈ deciding y)
      then Some (mkSystem (s y) (waiting y ++ [t]) (Sema.remove1 t (deciding y)) (t :: blocked y) (setting y) (waking y) (ready y))
      else None
  | Set_ t =>
      if idle y t
      then Some (mkSystem true (waiting y) (deciding y) (blocked y) (t :: setting y) (waking y) (ready y))
      else None
  | Take t =>
      if bool_decide (t ∈ setting y)
      then Some (mkSystem (s y) [] (deciding y) (blocked y) (Sema.remove1 t (setting y)) ((t, waiting y) :: waking y) (ready y))
      else None
  | Wake t =>
      '(r, w) ← popLocal t (waking y);
      Some (mkSystem (s y) (waiting y) (deciding y) (blocked y) (setting y) w
        (match r with Some u => ready y ++ [u] | None => ready y end))
  | Clear t =>
      if idle y t
      then Some (mkSystem false (waiting y) (deciding y) (blocked y) (setting y) (waking y) (ready y))
      else None
  | Resume t =>
      if bool_decide (t ∈ ready y) && bool_decide (t ∈ blocked y)
      then Some (mkSystem (s y) (waiting y) (deciding y) (Sema.remove1 t (blocked y)) (setting y) (waking y) (Sema.remove1 t (ready y)))
      else None
  end.

Fixpoint run (y : System) (l : list action) : option System :=
  match l with
  | [] => Some y
  | a :: l => y' ← step y a; run y' l
  end.

Inductive reachable (ok : System → action → Prop) : System → Prop :=
  | reach_start : reachable ok start
  | reach_step y a y' : reachable ok y → ok y a → step y a = Some y' → reachable ok y'.
End Event.
