(* ===== verification/SyncCorrect.v ===== *)
(** * Synchronization primitives: correctness

    Invariants of the transition systems of [Sync], by rule induction: permits are neither
    lost nor made up, a lock has at most one holder, and a thread that waits has a reason
    to.  The event lacks the last property: a wake-up can be lost between the two steps of
    [wait]. *)

From stdpp Require Import base list numbers decidable option gmap.
From Stdlib Require Import ZArith Lia.
From S2P Require Import Prelude Sync.

(** ** Removal from the lists of threads *)

Section remove.
Lemma remove1_perm t l : t ∈ l → l ≡ₚ t :: Sema.remove1 t l.
Proof.
  induction l as [|x l IH]; [by intros ?%elem_of_nil|].
  intros [->|Hin]%elem_of_cons; simpl.
  - by rewrite decide_True.
  - case_decide; [by subst|]. rewrite (IH Hin) at 1. by apply perm_swap.
Qed.

Lemma remove1_length t l : t ∈ l → length l = S (length (Sema.remove1 t l)).
Proof. by intros H%remove1_perm%Permutation_length. Qed.

Lemma remove1_not_in t l : t ∉ l → Sema.remove1 t l = l.
Proof.
  induction l as [|x l IH]; [done|]. intros [Hne Hin]%not_elem_of_cons; simpl.
  case_decide; [by subst|]. by rewrite IH.
Qed.

Lemma removeWake_perm t l u l' : Sema.removeWake t l = Some (u, l') → l ≡ₚ (t, u) :: l'.
Proof.
  revert l'. induction l as [|[x v] l IH]; [done|]. intros l'. simpl.
  case_decide as Hx; [by intros [= -> ->]; subst|].
  destruct (Sema.removeWake t l) as [[w l1]|]; [|done]. intros [= -> <-].
  rewrite (IH l1); [|done]. by apply perm_swap.
Qed.

Lemma removeWake_some t l : t ∈ l.*1 → is_Some (Sema.removeWake t l).
Proof.
  induction l as [|[x v] l IH]; simpl; [by intros ?%elem_of_nil|].
  case_decide; [by eauto|]. intros [?|Hin]%elem_of_cons; [by subst|].
  destruct (IH Hin) as [[w l1] ->]. by eauto.
Qed.

Lemma popLocal_perm t l r l' : Event.popLocal t l = Some (r, l') →
  mjoin l.*2 ≡ₚ option_list r ++ mjoin l'.*2 ∧ l'.*1 ⊆+ l.*1.
Proof.
  revert l'. induction l as [|[x us] l IH]; [done|]. intros l'. simpl.
  case_decide as Hx.
  - destruct us as [|u us]; intros [= <- <-]; simpl; split; try done.
    by apply submseteq_cons.
  - destruct (Event.popLocal t l) as [[w l1]|] eqn:E; [|done]. intros [= -> <-]. simpl.
    destruct (IH l1) as [H1 H2]; [done|]. split; [|by apply submseteq_skip].
    rewrite H1, !app_assoc. by rewrite (Permutation_app_comm us).
Qed.
End remove.

(** ** Semaphores *)

Module SemaInv.
Import Sema.

(** Every blocked thread is in the queue, or a thread that has taken it out of there will
    wake it, or it is ready; threads only queue up when there are no permits. *)
Record inv (y : System) : Prop := {
  inv_blocked : blocked y ≡ₚ waiting (sema y) ++ (waking y).*2 ++ ready y;
  inv_queue : 0 < count (sema y) → waiting (sema y) = [];
  inv_count : 0 ≤ count (sema y) < 2 ^ 32;
  inv_calls : NoDup (blocked y ++ (waking y).*1);
}.

Lemma inv_start n : 0 ≤ n < 2 ^ 32 → inv (start n).
Proof. intros Hn. split; simpl; [done|done|lia|constructor]. Qed.

Lemma idle_spec y t : idle y t = true ↔ t ∉ blocked y ++ (waking y).*1.
Proof. unfold idle. by rewrite bool_decide_eq_true. Qed.

Lemma down_inv y t y' : inv y → step y (Down t) = Some y' → inv y'.
Proof.
  intros [Hb Hq Hc Hn]. simpl. destruct (idle y t) eqn:Hi; [|done]. apply idle_spec in Hi.
  unfold down. destruct (0 <? count (sema y)) eqn:Hp; intros [= <-]; split; simpl; try done.
  - intros _. apply Hq. lia.
  - rewrite u32_small; unfold is_u32; lia.
  - rewrite Hb, <- !app_assoc. simpl. by apply Permutation_middle.
  - lia.
  - by constructor.
Qed.

Lemma up_inv y t y' : inv y → count (sema y) + 1 < 2 ^ 32 → step y (Up t) = Some y' → inv y'.
Proof.
  intros [Hb Hq Hc Hn] Hw. simpl. destruct (idle y t) eqn:Hi; [|done]. apply idle_spec in Hi.
  unfold up. destruct (waiting (sema y)) as [|u w] eqn:E; intros [= <-]; split; simpl in *; try done.
  - rewrite u32_small; unfold is_u32; lia.
  - rewrite Hb. by rewrite <- Permutation_middle.
  - intros H. by apply Hq in H.
  - rewrite <- Permutation_middle. by constructor.
Qed.

Lemma wake_inv y t y' : inv y → step y (Wake t) = Some y' → inv y'.
Proof.
  intros [Hb Hq Hc Hn]. simpl. destruct (removeWake t (waking y)) as [[u w]|] eqn:E; [|done].
  intros [= <-]. apply removeWake_perm in E. split; simpl; try done.
  - rewrite Hb, E. simpl. f_equiv. rewrite app_assoc. by rewrite <- Permutation_cons_append.
  - rewrite E in Hn. simpl in Hn. rewrite <- Permutation_middle in Hn. by apply NoDup_cons in Hn as [_ ?].
Qed.

Lemma resume_inv y t y' : inv y → step y (Resume t) = Some y' → inv y'.
Proof.
  intros [Hb Hq Hc Hn]. simpl. case_match eqn:Hin; [|done]. intros [= <-].
  apply andb_true_iff in Hin as [Hr Ht]. apply bool_decide_eq_true in Hr, Ht.
  apply remove1_perm in Hr, Ht. split; simpl; try done.
  - apply (Permutation_cons_inv (a := t)). rewrite <- Ht, Hb, Hr at 1.
    rewrite !app_assoc. by rewrite <- Permutation_middle.
  - rewrite Ht in Hn. by apply NoDup_cons in Hn as [_ ?].
Qed.

Lemma sema_step_inv y a y' : inv y → semaCalls y a → step y a = Some y' → inv y'.
Proof.
  intros Hi Hok. destruct a as [t|t|t|t];
    [by apply down_inv|by apply up_inv|by apply wake_inv|by apply resume_inv].
Qed.

Lemma sema_reachable_inv n y : 0 ≤ n < 2 ^ 32 → reachable semaCalls n y → inv y.
Proof. intros Hn. induction 1; [by apply inv_start|by eapply sema_step_inv]. Qed.

(** ** Permits *)

Definition permits (y : System) : Z :=
  count (sema y) + Z.of_nat (length (holders y) + length (waking y) + length (ready y)).

Lemma step_permits y a y' : inv y → lockCalls y a → count (sema y) + 1 < 2 ^ 32 ∨ (∀ t, a ≠ Up t) →
  step y a = Some y' → permits y' = permits y.
Proof.
  intros [Hb Hq Hc Hn] Hok Hw. unfold permits. destruct a as [t|t|t|t]; simpl in *.
  - destruct (idle y t); [|done]. unfold down.
    destruct (0 <? count (sema y)) eqn:Hp; intros [= <-]; simpl; [rewrite u32_small; unfold is_u32; lia|lia].
  - destruct (idle y t); [|done]. unfold up. apply remove1_length in Hok.
    destruct (waiting (sema y)) eqn:E; intros [= <-]; simpl; [|lia].
    rewrite u32_small; [lia|unfold is_u32]. destruct Hw as [?|Hw]; [lia|by destruct (Hw t)].
  - destruct (removeWake t (waking y)) as [[u w]|] eqn:E; [|done]. intros [= <-]. simpl.
    apply removeWake_perm, Permutation_length in E. rewrite length_app. simpl in *. lia.
  - case_match eqn:Hin; [|done]. intros [= <-]. simpl.
    apply andb_true_iff in Hin as [Hr _]. apply bool_decide_eq_true, remove1_length in Hr. lia.
Qed.

(** Giving back what one holds does not make the counter wrap: lock calls are semaphore
    calls. *)
Lemma lock_inv n y : 0 ≤ n < 2 ^ 32 → reachable lockCalls n y → inv y ∧ permits y = n.
Proof.
  intros Hn. induction 1 as [|y a y' Hr [Hi Hp] Hok Hst].
  - split; [by apply inv_start|]. unfold permits. simpl. lia.
  - assert (Hw : count (sema y) + 1 < 2 ^ 32 ∨ (∀ t, a ≠ Up t)).
    { destruct a as [t|t|t|t]; [by right| |by right|by right]. left.
      apply remove1_length in Hok. unfold permits in Hp. lia. }
    split; [|by rewrite <- Hp; eapply step_permits].
    apply (sema_step_inv y a y'); [done| |done].
    destruct a as [t|t|t|t]; try done. simpl. destruct Hw as [?|Hw]; [done|by destruct (Hw t)].
Qed.

Lemma quiet_waiting y t : inv y → waking y = [] → ready y = [] → t ∈ blocked y →
  count (sema y) = 0 ∧ t ∈ waiting (sema y).
Proof.
  intros [Hb Hq Hc Hn] Hw Hr Ht. rewrite Hw, Hr in Hb. simpl in Hb.
  rewrite app_nil_r in Hb. rewrite Hb in Ht. split; [|done].
  destruct (decide (0 < count (sema y))) as [H|]; [|lia].
  rewrite (Hq H) in Ht. by apply elem_of_nil in Ht.
Qed.

(** A thread that is ready gets to run. *)
Lemma resume_run y t : inv y → t ∈ ready y → ∃ y', step y (Resume t) = Some y' ∧ holders y' = t :: holders y.
Proof.
  intros Hi Hr. simpl. assert (Hb : t ∈ blocked y).
  { rewrite (inv_blocked _ Hi), !elem_of_app. by right; right. }
  rewrite !bool_decide_true by done. by eauto.
Qed.

(** A thread that is to be woken gets to run. *)
Lemma wake_run y x u : inv y → (x, u) ∈ waking y →
  ∃ v y', run y [Wake x; Resume v] = Some y' ∧ holders y' = v :: holders y ∧ v ∈ blocked y.
Proof.
  intros Hi Hin. destruct (removeWake_some x (waking y)) as [[v w] E].
  { apply list_elem_of_fmap. by exists (x, u). }
  assert (Hst : step y (Wake x) = Some (mkSystem (sema y) (blocked y) w (ready y ++ [v]) (holders y)))
    by (simpl; by rewrite E).
  destruct (resume_run _ v (wake_inv _ _ _ Hi Hst)) as (y' & Hst' & Hh).
  { simpl. rewrite elem_of_app. right. by apply list_elem_of_singleton. }
  exists v, y'. split_and!; [|done|].
  - cbn [run]. rewrite Hst. cbn [mbind option_bind]. by rewrite Hst'.
  - rewrite (inv_blocked _ Hi). apply removeWake_perm in E. rewrite E, !elem_of_app. right. left.
    simpl. by apply elem_of_cons; left.
Qed.

(** C10: Whatever the threads that use a lock do and however their calls interleave, at most
    one of them holds it at a time. *)
Theorem lock_excludes y : reachable lockCalls 1 y → (length (holders y) ≤ 1)%nat.
Proof. intros [[] Hp]%lock_inv; [unfold permits in Hp; lia|lia]. Qed.

Lemma lock_excludes_witness :
  ∃ y, run (start 1) [Down 1; Down 2; Up 1; Wake 1; Resume 2] = Some y ∧ (length (holders y) ≤ 1)%nat.
Proof.
  eexists. split; [reflexivity|]. apply lock_excludes.
  apply (reach_step _ _ (mkSystem (mkSema 0 []) [2%positive] [] [2%positive] []) (Resume 2)); [|done|reflexivity].
  apply (reach_step _ _ (mkSystem (mkSema 0 []) [2%positive] [(1%positive, 2%positive)] [] []) (Wake 1)); [|done|reflexivity].
  apply (reach_step _ _ (mkSystem (mkSema 0 [2%positive]) [2%positive] [] [] [1%positive]) (Up 1));
    [|by apply elem_of_cons; left|reflexivity].
  apply (reach_step _ _ (mkSystem (mkSema 0 []) [] [] [] [1%positive]) (Down 2)); [|done|reflexivity].
  apply (reach_step _ _ (start 1) (Down 1)); [constructor|done|reflexivity].
Defined.

(** C29: No thread is left waiting for a lock that nobody holds: if a thread is blocked and
    the lock has no holder, then letting the calls in progress continue (no new call is
    needed) gives the lock to a blocked thread. *)
Theorem lock_progress y t : reachable lockCalls 1 y → holders y = [] → t ∈ blocked y →
  ∃ l u y', run y l = Some y' ∧ Forall (λ a, match a with Wake _ | Resume _ => True | _ => False end) l ∧
    u ∈ blocked y ∧ holders y' = [u].
Proof.
  intros [Hi Hp]%lock_inv Hh Ht; [|lia].
  destruct (ready y) as [|u r] eqn:Er; [destruct (waking y) as [|[x u] w] eqn:Ew|].
  - destruct (quiet_waiting y t Hi Ew Er Ht) as [Hc _].
    unfold permits in Hp. rewrite Hh, Ew, Er, Hc in Hp. by simpl in Hp.
  - destruct (wake_run y x u Hi) as (v & y' & Hr & Hh' & Hv); [rewrite Ew; by apply elem_of_cons; left|].
    exists [Wake x; Resume v], v, y'. rewrite Hh in Hh'. by repeat constructor.
  - destruct (resume_run y u Hi) as (y' & Hst & Hh'); [rewrite Er; by apply elem_of_cons; left|].
    exists [Resume u], u, y'. rewrite Hh in Hh'. split_and!; [cbn [run]; by rewrite Hst|by repeat constructor| |done].
    rewrite (inv_blocked _ Hi), Er, !elem_of_app. right. right. by apply elem_of_cons; left.
Qed.

Lemma lock_progress_witness :
  ∃ l u y', run (mkSystem (mkSema 0 []) [2%positive] [(1%positive, 2%positive)] [] []) l = Some y' ∧
    Forall (λ a, match a with Wake _ | Resume _ => True | _ => False end) l ∧
    u ∈ [2%positive] ∧ holders y' = [u].
Proof.
  apply (lock_progress (mkSystem (mkSema 0 []) [2%positive] [(1%positive, 2%positive)] [] []) 2%positive);
    [|reflexivity|by apply elem_of_cons; left].
  apply (reach_step _ _ (mkSystem (mkSema 0 [2%positive]) [2%positive] [] [] [1%positive]) (Up 1));
    [|by apply elem_of_cons; left|reflexivity].
  apply (reach_step _ _ (mkSystem (mkSema 0 []) [] [] [] [1%positive]) (Down 2)); [|done|reflexivity].
  apply (reach_step _ _ (start 1) (Down 1)); [constructor|done|reflexivity].
Defined.

(** C31: A semaphore loses no wake-up: when no wake-up is in flight, a blocked thread is in
    the queue, where the next [up] finds it, and there is no permit it could have had. *)
Theorem sema_no_lost_wakeup n y t : 0 ≤ n < 2 ^ 32 → reachable semaCalls n y →
  waking y = [] → ready y = [] → t ∈ blocked y → count (sema y) = 0 ∧ t ∈ waiting (sema y).
Proof. intros Hn Hr%sema_reachable_inv Hw Hy Ht; [by apply quiet_waiting|done]. Qed.

Lemma sema_no_lost_wakeup_witness :
  count (sema (mkSystem (mkSema 0 [5%positive]) [5%positive] [] [] [])) = 0 ∧
  5%positive ∈ waiting (sema (mkSystem (mkSema 0 [5%positive]) [5%positive] [] [] [])).
Proof.
  apply (sema_no_lost_wakeup 0); [lia| |reflexivity|reflexivity|by apply elem_of_cons; left].
  apply (reach_step _ _ (start 0) (Down 5)); [constructor|done|reflexivity].
Defined.

End SemaInv.

(** ** Events *)

Module EventInv.
Import Event.

(** Every blocked thread is in the queue, or in the local list of a thread in [set], or
    ready. *)
Definition inv (y : System) : Prop := blocked y ≡ₚ waiting y ++ mjoin (waking y).*2 ++ ready y.

Lemma event_step_inv y a y' : inv y → step y a = Some y' → inv y'.
Proof.
  unfold inv. intros Hb. destruct a as [t|t|t|t|t|t|t]; simpl.
  - destruct (idle y t); [|done]. intros [= <-]. by destruct (s y).
  - case_bool_decide; [|done]. intros [= <-]. simpl. rewrite Hb, <- !app_assoc. by apply Permutation_middle.
  - destruct (idle y t); [|done]. by intros [= <-].
  - case_bool_decide; [|done]. intros [= <-]. simpl. by rewrite Hb, app_assoc.
  - destruct (popLocal t (waking y)) as [[r w]|] eqn:E; [|done]. intros [= <-]. simpl.
    apply popLocal_perm in E as [E _]. rewrite Hb, E. f_equiv.
    destruct r as [u|]; [|done]. simpl. rewrite app_assoc. by rewrite <- Permutation_cons_append.
  - destruct (idle y t); [|done]. by intros [= <-].
  - destruct (bool_decide (t ∈ ready y) && bool_decide (t ∈ blocked y)) eqn:Hin; [|done]. intros [= <-].
    apply andb_true_iff in Hin as [Hr Ht]. apply bool_decide_eq_true in Hr, Ht.
    apply remove1_perm in Hr, Ht. simpl.
    apply (Permutation_cons_inv (a := t)). rewrite <- Ht, Hb, Hr at 1.
    rewrite !app_assoc. by rewrite <- Permutation_middle.
Qed.

Lemma event_reachable_inv ok y : reachable ok y → inv y.
Proof. induction 1; [constructor|by eapply event_step_inv]. Qed.

(** The two steps of [wait] are not interleaved with steps of other threads, as when all
    threads run on one thread of the operating system, that only switches in [wait]. *)
Definition waitAtomic (y : System) (a : action) : Prop :=
  deciding y = [] ∨ match a with Push _ => True | _ => False end.

Definition flagInv (y : System) : Prop :=
  (s y = true → setting y = [] → waiting y = []) ∧ (deciding y ≠ [] → s y = false).

Lemma step_flag y a y' : flagInv y → waitAtomic y a → step y a = Some y' → flagInv y'.
Proof.
  intros [Hq Hd] Hok. unfold flagInv. destruct a as [t|t|t|t|t|t|t]; simpl; (destruct Hok as [Hok|Hok]; [|try done]).
  - destruct (idle y t); [|done]. intros [= <-]. destruct (s y) eqn:E; [|done].
    split; [by intros _; apply Hq|done].
  - rewrite Hok. by case_bool_decide as H; [apply elem_of_nil in H|].
  - case_bool_decide as H; [|done]. intros [= <-]. simpl.
    assert (Hs : s y = false) by (apply Hd; by intros E; rewrite E in H; apply elem_of_nil in H).
    by rewrite Hs.
  - destruct (idle y t); [|done]. intros [= <-]. by simpl; rewrite Hok.
  - case_bool_decide; [|done]. intros [= <-]. simpl. by rewrite Hok.
  - destruct (popLocal t (waking y)) as [[r w]|]; [|done]. intros [= <-]. by simpl.
  - destruct (idle y t); [|done]. intros [= <-]. by simpl.
  - destruct (bool_decide (t ∈ ready y) && bool_decide (t ∈ blocked y)); [|done]. intros [= <-]. by simpl.
Qed.

(** If the two steps of [wait] are not interleaved with other threads, an event that is
    set has no waiting threads once the calls in progress have returned. *)
Theorem event_no_lost_wakeup y : reachable waitAtomic y → s y = true →
  setting y = [] → waking y = [] → ready y = [] → blocked y = [].
Proof.
  intros Hr Hs Ht Hw Hy.
  assert (Hf : flagInv y) by (clear -Hr; induction Hr; [done|by eapply step_flag]).
  apply event_reachable_inv in Hr. unfold inv in Hr. destruct Hf as [Hq _].
  rewrite Hq, Hw, Hy in Hr by done. by apply Permutation_nil_r in Hr.
Qed.

Lemma event_no_lost_wakeup_witness :
  blocked (mkSystem true [] [] [] [] [] []) = [].
Proof.
  apply (event_no_lost_wakeup (mkSystem true [] [] [] [] [] [])); [|reflexivity..].
  apply (reach_step _ (mkSystem true [] [] [] [] [(2%positive, [])] []) (Wake 2)); [|by left|reflexivity].
  apply (reach_step _ (mkSystem true [] [] [] [2%positive] [] []) (Take 2)); [|by left|reflexivity].
  apply (reach_step _ start (Set_ 2)); [constructor|by left|reflexivity].
Defined.

(** The state after thread 1 found the event not set, thread 2 set it, and thread 1 entered
    the queue. *)
Definition lost : System := mkSystem true [1%positive] [] [1%positive] [] [] [].

(** A thread in the queue stays blocked until the next time the queue is emptied. *)
Lemma stays_blocked y t a y' : t ∈ waiting y → step y a = Some y' →
  (∀ u, a ≠ Take u) → t ∈ waiting y'.
Proof.
  intros Ht Hst Hno. destruct a as [u|u|u|u|u|u|u]; simpl in Hst; try by destruct (Hno u).
  - destruct (idle y u); [|done]. injection Hst as <-. by destruct (s y).
  - case_bool_decide; [|done]. injection Hst as <-. simpl. rewrite elem_of_app. by left.
  - destruct (idle y u); [|done]. by injection Hst as <-.
  - destruct (popLocal u (waking y)) as [[r w]|]; [|done]. by injection Hst as <-.
  - destruct (idle y u); [|done]. by injection Hst as <-.
  - destruct (bool_decide (u ∈ ready y) && bool_decide (u ∈ blocked y)); [|done]. by injection Hst as <-.
Qed.

Lemma run_stays_blocked y t l y' : inv y → t ∈ waiting y → run y l = Some y' →
  Forall (λ a, ∀ u, a ≠ Take u) l → t ∈ waiting y' ∧ t ∈ blocked y'.
Proof.
  revert y. induction l as [|a l IH]; intros y Hi Ht Hr Hno.
  - simpl in Hr. injection Hr as <-. split; [done|]. unfold inv in Hi. rewrite Hi, elem_of_app. by left.
  - apply Forall_cons in Hno as [Ha Hno]. cbn [run] in Hr.
    destruct (step y a) as [y1|] eqn:Hst; [|done]. simpl in Hr.
    apply (IH y1); [by eapply event_step_inv|by eapply stays_blocked|done|done].
Qed.

(** C32: [Event::wait] can miss [Event::set]: with the interleaving below the event is set, no
    wake-up is in flight, and a thread is in the queue; it stays blocked whatever the
    threads do, until [set] is called another time. *)
Theorem event_loses_wakeup :
  run start [Read 1; Set_ 2; Take 2; Push 1; Wake 2] = Some lost ∧
  s lost = true ∧ setting lost = [] ∧ waking lost = [] ∧ ready lost = [] ∧
  ∀ l y, run lost l = Some y → Forall (λ a, ∀ u, a ≠ Take u) l → 1%positive ∈ blocked y.
Proof.
  split_and!; [reflexivity..|]. intros l y Hr Hno.
  destruct (run_stays_blocked lost 1%positive l y) as [_ ?]; [by apply Permutation_refl| |done..].
  by apply elem_of_cons; left.
Qed.

End EventInv.
