(* ===== verification/Buffer.v ===== *)
(** * Buffers

    [Core/Io/Buffer.h] and [Core/Io/Buffer.cpp].  Copies of a [Buffer] refer to the same
    array, so the arrays are in a heap: a [Buffer] is an address in it, or null.  Copying
    memory outside of an array faults. *)

From stdpp Require Import base list numbers decidable option.
From Stdlib Require Import ZArith Lia.
From S2P Require Import Prelude.

(** ** The heap *)

(** A [GcArray<Byte>]: [count] is the length of [v]. *)
Record GcBytes := mkGcBytes { gfilled : Z; v : list Z }.
Definition gcount (a : GcBytes) : Z := zlen (v a).

(** Addresses are numbered in the order of allocation. *)
Notation heap := (list GcBytes).

Definition io (A : Type) : Type := heap → outcome (A * heap).
#[export] Instance io_ret : MRet io := λ A a h, Ret (a, h).
#[export] Instance io_bind : MBind io := λ A B f m h, '(a, h) ← m h; f a h.

Definition fault {A} : io A := λ _, Fault.
(** A loop that does not end. *)
Definition diverge {A} : io A := λ _, OutOfFuel.
Definition throw {A} (e : exn) : io A := λ _, Throw e.
Definition load (l : nat) : io GcBytes := λ h, match h !! l with Some a => Ret (a, h) | None => Fault end.
Definition store (l : nat) (a : GcBytes) : io unit := λ h, Ret (tt, <[l := a]> h).

(** [runtime::allocBuffer]; the collectors clear what they allocate. *)
Definition alloc (n : Z) : io nat := λ h, Ret (length h, h ++ [mkGcBytes 0 (replicate (Z.to_nat n) 0)]).

(** Replace what is at [off], and the [n] elements that are there. *)
Definition splice (l : list Z) (off : Z) (x : list Z) : list Z :=
  take (Z.to_nat off) l ++ x ++ drop (Z.to_nat off + length x) l.
Definition slice (l : list Z) (off n : Z) : list Z := take (Z.to_nat n) (drop (Z.to_nat off) l).

Definition disjointb (d doff s soff n : Z) : bool :=
  negb (d =? s) || (doff + n <=? soff) || (soff + n <=? doff).

Module Buffer.

(** [GcArray<Byte> *data] *)
Definition Buffer : Type := option nat.

Definition null : Buffer := None.

Definition count (b : Buffer) : io Z :=
  match b with None => mret 0 | Some l => a ← load l; mret (u32 (gcount a)) end.

Definition filled (b : Buffer) : io Z :=
  match b with None => mret 0 | Some l => a ← load l; mret (u32 (gfilled a)) end.

Definition setFilled (b : Buffer) (p : Z) : io unit :=
  match b with
  | None => mret tt
  | Some l => c ← count b; a ← load l; store l (mkGcBytes (Z.min p c) (v a))
  end.

Definition free (b : Buffer) : io Z := c ← count b; f ← filled b; mret (u32 (c - f)).

Definition empty (b : Buffer) : io bool := f ← filled b; mret (f =? 0).
Definition any (b : Buffer) : io bool := f ← filled b; mret (0 <? f).
Definition full (b : Buffer) : io bool := f ← filled b; c ← count b; mret (f =? c).

(** [memmove(dst.dataPtr() + doff, src.dataPtr() + soff, n)] *)
Definition memmove (dst : Buffer) (doff : Z) (src : Buffer) (soff n : Z) : io unit :=
  if n =? 0 then mret tt else
  match dst, src with
  | Some d, Some s =>
      sa ← load s; da ← load d;
      if (0 <=? soff) && (soff + n <=? zlen (v sa)) && (0 <=? doff) && (doff + n <=? zlen (v da))
      then store d (mkGcBytes (gfilled da) (splice (v da) doff (slice (v sa) soff n)))
      else fault
  | _, _ => fault
  end.

(** [memcpy], where the two areas may not overlap. *)
Definition memcpy (dst : Buffer) (doff : Z) (src : Buffer) (soff n : Z) : io unit :=
  match dst, src with
  | Some d, Some s =>
      if disjointb (Z.of_nat d) doff (Z.of_nat s) soff n then memmove dst doff src soff n else fault
  | _, _ => memmove dst doff src soff n
  end.

Definition shift (b : Buffer) (n : Z) : io unit :=
  f ← filled b;
  if f <=? n then setFilled b 0
  else _ ← memmove b 0 b n (u32 (f - n)); setFilled b (u32 (f - n)).

Definition push (b : Buffer) (x : Z) : io bool :=
  match b with
  | None => mret false
  | Some l =>
      a ← load l;
      if gcount a <=? gfilled a then mret false
      else if (0 <=? gfilled a)
      then _ ← store l (mkGcBytes (gfilled a + 1) (<[gfilled a := x]> (v a))); mret true
      else fault
  end.

(** [operator []] *)
Definition get (b : Buffer) (id : Z) : io Z :=
  c ← count b;
  if c <=? id then throw (ArrayError id c None)
  else match b with
       | None => fault
       | Some l => a ← load l; match v a !! id with Some x => mret x | None => fault end
       end.
Definition set (b : Buffer) (id x : Z) : io unit :=
  c ← count b;
  if c <=? id then throw (ArrayError id c None)
  else match b with
       | None => fault
       | Some l =>
           a ← load l;
           if (0 <=? id) && (id <? gcount a) then store l (mkGcBytes (gfilled a) (<[id := x]> (v a))) else fault
       end.

(** [buffer(e, count)] *)
Definition buffer (n : Z) : io Buffer := l ← alloc n; mret (Some l).

Definition emptyBuffer (l : nat) : io Buffer := _ ← setFilled (Some l) 0; mret (Some l).
Definition fullBuffer (l : nat) : io Buffer :=
  a ← load l; _ ← setFilled (Some l) (u32 (gcount a)); mret (Some l).

(** [for (nat i = 0; i < data->count; i++) n->v[i] = data->v[i];], with a counter of 32
    bits and a size of 64. *)
Definition deepCopy (b : Buffer) : io Buffer :=
  match b with
  | None => mret None
  | Some l =>
      a ← load l; n ← alloc (gcount a);
      if 2 ^ 32 <=? gcount a then diverge
      else _ ← store n (mkGcBytes (gfilled a) (v a)); mret (Some n)
  end.

(** [buffer(e, data, count)]: a copy of bytes that are elsewhere. *)
Definition bufferOf (data : list Z) : io Buffer :=
  l ← alloc (zlen data);
  a ← load l;
  _ ← store l (mkGcBytes (gfilled a) data);
  _ ← setFilled (Some l) (u32 (zlen data)); mret (Some l).

Definition grow (src : Buffer) (newCount : Z) : io Buffer :=
  r ← buffer newCount;
  f ← filled src;
  _ ← memcpy r 0 src 0 f;
  _ ← setFilled r f; mret r.

Definition cut (src : Buffer) (from to : Z) : io Buffer :=
  if to <=? from then buffer 0
  else
    r ← buffer (u32 (to - from));
    f ← filled src;
    if from <? f then
      let copy := u32 (Z.min to f - from) in
      _ ← memcpy r 0 src from copy;
      _ ← setFilled r copy; mret r
    else _ ← setFilled r 0; mret r.

(** [cut(e, src, from)] *)
Definition cutFrom (src : Buffer) (from : Z) : io Buffer := c ← count src; cut src from c.

End Buffer.
