(* ===== verification/BufferCorrect.v ===== *)
(** * Buffers: correctness

    What the operations of [Buffer] do to the bytes before the mark [filled], and that they
    leave all other arrays alone. *)

From stdpp Require Import base list numbers decidable option.
From Stdlib Require Import ZArith Lia.
From S2P Require Import Prelude Buffer.

(** ** Parts of arrays *)

Section parts.
Implicit Types l x : list Z.

Lemma zlen_slice l off n : 0 ≤ off → 0 ≤ n → off + n ≤ zlen l → zlen (slice l off n) = n.
Proof. unfold zlen, slice. rewrite length_take, length_drop. lia. Qed.

Lemma zlen_splice l off x : 0 ≤ off → off + zlen x ≤ zlen l → zlen (splice l off x) = zlen l.
Proof. unfold zlen, splice. rewrite !length_app, length_take, length_drop. lia. Qed.

Lemma splice_nil l off : splice l off [] = l.
Proof. unfold splice. simpl. by rewrite Nat.add_0_r, take_drop. Qed.

Lemma slice_nil l off : slice l off 0 = [].
Proof. done. Qed.

(** Writing behind the first bytes and moving the mark appends. *)
Lemma take_splice l off x : 0 ≤ off → off + zlen x ≤ zlen l →
  take (Z.to_nat (off + zlen x)) (splice l off x) = take (Z.to_nat off) l ++ x.
Proof.
  unfold zlen, splice. intros. rewrite app_assoc. apply take_app_length'.
  rewrite length_app, length_take. lia.
Qed.

Lemma slice_take l off n f : 0 ≤ off → 0 ≤ n → off + n ≤ f →
  slice (take (Z.to_nat f) l) off n = slice l off n.
Proof.
  intros. unfold slice. rewrite skipn_firstn_comm, take_take. f_equal. lia.
Qed.

(** What remains behind [off] of the first [f] elements. *)
Lemma slice_rest l off f : 0 ≤ off ≤ f → slice l off (f - off) = drop (Z.to_nat off) (take (Z.to_nat f) l).
Proof. intros. unfold slice. rewrite skipn_firstn_comm. f_equal. lia. Qed.

Lemma slice_slice l a n k m : 0 ≤ a → 0 ≤ k → 0 ≤ m → k + m ≤ n → slice (slice l a n) k m = slice l (a + k) m.
Proof.
  intros. unfold slice. rewrite skipn_firstn_comm, take_take, drop_drop.
  f_equal; [lia|]. f_equal. lia.
Qed.
End parts.

(** ** Computations on the heap *)

(** The computation returns, and [Q] holds of its result and the heap then. *)
Definition runs {A} (m : io A) (h : heap) (Q : A → heap → Prop) : Prop :=
  returns (m h) (λ '(a, h'), Q a h').

Section runs.
Context {A B : Type}.
Implicit Types m : io A.

Lemma runs_ret (a : A) h (Q : A → heap → Prop) : Q a h → runs (mret a) h Q.
Proof. done. Qed.

Lemma runs_step m (f : A → io B) h a h' Q : m h = Ret (a, h') → runs (f a) h' Q → runs (m ≫= f) h Q.
Proof. unfold runs, mbind, io_bind. by intros ->. Qed.

Lemma bind_eq m (f : A → io B) h a h' : m h = Ret (a, h') → (m ≫= f) h = f a h'.
Proof. unfold mbind, io_bind. by intros ->. Qed.

Lemma bind_inv m (f : A → io B) h r : (m ≫= f) h = Ret r → ∃ a h', m h = Ret (a, h') ∧ f a h' = Ret r.
Proof. unfold mbind, io_bind. destruct (m h) as [[a h']| | |]; simpl; [eauto|done..]. Qed.

Lemma runs_bind m (f : A → io B) h P Q :
  runs m h P → (∀ a h', P a h' → runs (f a) h' Q) → runs (m ≫= f) h Q.
Proof.
  unfold runs, mbind, io_bind. destruct (m h) as [[a h']| | |]; simpl; [|done..].
  intros HP HQ. by apply HQ.
Qed.

Lemma runs_mono m h (P Q : A → heap → Prop) : runs m h P → (∀ a h', P a h' → Q a h') → runs m h Q.
Proof. unfold runs. destruct (m h) as [[a h']| | |]; simpl; auto. Qed.

Lemma runs_exists m h Q : runs m h Q ↔ ∃ a h', m h = Ret (a, h') ∧ Q a h'.
Proof.
  unfold runs. rewrite returns_exists. split.
  - intros ([a h'] & H & HQ). eauto.
  - intros (a & h' & H & HQ). by exists (a, h').
Qed.

Lemma runs_eq m h a h' : m h = Ret (a, h') → runs m h (λ x y, x = a ∧ y = h').
Proof. unfold runs. by intros ->. Qed.
End runs.

(** [io_step lem] runs the first call of the goal with the equation [lem]. *)
Ltac io_step lem := eapply runs_step; [by eapply lem|].

(** [io_inv H] splits the calls of a computation that has returned. *)
Ltac io_inv H :=
  let x := fresh "x" in let g := fresh "g" in let E := fresh "E" in
  apply bind_inv in H as (x & g & E & H).

(** ** Arrays a buffer refers to *)

Record awf (a : GcBytes) : Prop := {
  awf_filled : 0 ≤ gfilled a ≤ gcount a;
  awf_count : gcount a < 2 ^ 32;
}.

(** The bytes before the mark. *)
Definition data (a : GcBytes) : list Z := take (Z.to_nat (gfilled a)) (v a).

(** The array of a buffer; a null buffer behaves as an empty one. *)
Definition view (h : heap) (b : Buffer.Buffer) : option GcBytes :=
  match b with None => Some (mkGcBytes 0 []) | Some l => h !! l end.

Lemma zlen_data a : awf a → zlen (data a) = gfilled a.
Proof. intros [H _]. unfold data, gcount, zlen in *. rewrite length_take. lia. Qed.

Lemma awf_null : awf (mkGcBytes 0 []).
Proof. by split. Qed.

Lemma awf_fresh n : 0 ≤ n < 2 ^ 32 → awf (mkGcBytes 0 (replicate (Z.to_nat n) 0)).
Proof. intros H. split; unfold gcount; simpl; rewrite zlen_replicate; lia. Qed.

Lemma view_insert_ne h b l a : b ≠ Some l → view (<[l := a]> h) b = view h b.
Proof. destruct b as [k|]; [|done]. simpl. intros H. apply list_lookup_insert_ne. by intros ->. Qed.

Lemma view_insert_eq h l a a' : h !! l = Some a → view (<[l := a']> h) (Some l) = Some a'.
Proof. intros H%lookup_lt_Some. simpl. by apply list_lookup_insert_eq. Qed.

Lemma view_app h h2 b a : view h b = Some a → view (h ++ h2) b = Some a.
Proof. destruct b as [k|]; [|done]. simpl. apply lookup_app_l_Some. Qed.

Lemma view_fresh h a : view (h ++ [a]) (Some (length h)) = Some a.
Proof. simpl. by apply list_lookup_middle. Qed.

Lemma view_lt h l a : view h (Some l) = Some a → (l < length h)%nat.
Proof. apply lookup_lt_Some. Qed.

(** ** The operations as equations *)

Section equations.
Context (h : heap).
Implicit Types (b : Buffer.Buffer) (l : nat) (a : GcBytes).

Lemma load_eq l a : h !! l = Some a → load l h = Ret (a, h).
Proof. unfold load. by intros ->. Qed.

Lemma count_eq b a : view h b = Some a → awf a → Buffer.count b h = Ret (gcount a, h).
Proof.
  destruct b as [l|]; simpl; [|by intros [= <-] _]. intros Hv [Hf Hc].
  unfold mbind, io_bind. rewrite (load_eq l a Hv). simpl. unfold mret, io_ret.
  rewrite u32_small; [done|]. unfold is_u32. lia.
Qed.

Lemma filled_eq b a : view h b = Some a → awf a → Buffer.filled b h = Ret (gfilled a, h).
Proof.
  destruct b as [l|]; simpl; [|by intros [= <-] _]. intros Hv [Hf Hc].
  unfold mbind, io_bind. rewrite (load_eq l a Hv). simpl. unfold mret, io_ret.
  rewrite u32_small; [done|]. unfold is_u32. lia.
Qed.

Lemma free_eq b a : view h b = Some a → awf a → Buffer.free b h = Ret (gcount a - gfilled a, h).
Proof.
  intros Hv Hw. unfold Buffer.free, mbind, io_bind.
  rewrite (count_eq b a) by done. simpl. rewrite (filled_eq b a) by done. simpl.
  destruct Hw. unfold mret, io_ret. rewrite u32_small; [done|]. unfold is_u32. lia.
Qed.

Lemma empty_eq b a : view h b = Some a → awf a → Buffer.empty b h = Ret (gfilled a =? 0, h).
Proof. intros. unfold Buffer.empty, mbind, io_bind. by rewrite (filled_eq b a). Qed.

Lemma any_eq b a : view h b = Some a → awf a → Buffer.any b h = Ret (0 <? gfilled a, h).
Proof. intros. unfold Buffer.any, mbind, io_bind. by rewrite (filled_eq b a). Qed.

Lemma full_eq b a : view h b = Some a → awf a → Buffer.full b h = Ret (gfilled a =? gcount a, h).
Proof.
  intros. unfold Buffer.full, mbind, io_bind. rewrite (filled_eq b a) by done. simpl. by rewrite (count_eq b a).
Qed.

Lemma setFilled_eq l a p : h !! l = Some a → awf a →
  Buffer.setFilled (Some l) p h = Ret (tt, <[l := mkGcBytes (Z.min p (gcount a)) (v a)]> h).
Proof.
  intros Hv Hw. unfold Buffer.setFilled, mbind, io_bind. rewrite (count_eq (Some l) a) by done. simpl.
  by rewrite (load_eq l a Hv).
Qed.

Lemma memmove_eq d da src sa doff soff n : h !! d = Some da → view h src = Some sa →
  0 ≤ soff → 0 ≤ n → soff + n ≤ gcount sa → 0 ≤ doff → doff + n ≤ gcount da →
  Buffer.memmove (Some d) doff src soff n h =
    Ret (tt, <[d := mkGcBytes (gfilled da) (splice (v da) doff (slice (v sa) soff n))]> h).
Proof.
  intros Hd Hs H1 H2 H3 H4 H5. unfold Buffer.memmove. destruct (Z.eqb_spec n 0) as [->|Hn].
  - rewrite slice_nil, splice_nil. unfold mret, io_ret. destruct da as [f w]. by rewrite list_insert_id.
  - destruct src as [s|]; simpl in Hs; [|injection Hs as <-; by unfold gcount, zlen in *; simpl in *; lia].
    unfold mbind, io_bind. rewrite (load_eq s sa Hs). simpl. rewrite (load_eq d da Hd). simpl.
    unfold gcount in *.
    rewrite (proj2 (Z.leb_le 0 soff)), (proj2 (Z.leb_le (soff + n) _)), (proj2 (Z.leb_le 0 doff)),
      (proj2 (Z.leb_le (doff + n) _)) by lia.
    done.
Qed.

Lemma memcpy_eq d da src sa doff soff n : h !! d = Some da → view h src = Some sa →
  src ≠ Some d ∨ doff + n ≤ soff ∨ soff + n ≤ doff →
  0 ≤ soff → 0 ≤ n → soff + n ≤ gcount sa → 0 ≤ doff → doff + n ≤ gcount da →
  Buffer.memcpy (Some d) doff src soff n h =
    Ret (tt, <[d := mkGcBytes (gfilled da) (splice (v da) doff (slice (v sa) soff n))]> h).
Proof.
  intros Hd Hs Hne H1 H2 H3 H4 H5. unfold Buffer.memcpy. destruct src as [s|]; [|by apply memmove_eq].
  assert (disjointb (Z.of_nat d) doff (Z.of_nat s) soff n = true) as ->; [|by apply memmove_eq].
  unfold disjointb. destruct (Z.eqb_spec (Z.of_nat d) (Z.of_nat s)) as [E|]; [|done]. simpl.
  destruct Hne as [Hne|Hne]; [by destruct Hne; f_equal; lia|].
  rewrite orb_true_iff, !Z.leb_le. done.
Qed.

(** Copies outside of an array fault. *)
Lemma memcpy_overrun d da src sa doff soff n : h !! d = Some da → view h src = Some sa →
  0 < n → gcount da < doff + n → Buffer.memcpy (Some d) doff src soff n h = Fault.
Proof.
  intros Hd Hs Hn Hov. unfold Buffer.memcpy. destruct src as [s|]; simpl in Hs.
  - case_match; [|done]. unfold Buffer.memmove. rewrite (proj2 (Z.eqb_neq n 0)) by lia.
    unfold mbind, io_bind. rewrite (load_eq s sa Hs). simpl. rewrite (load_eq d da Hd). simpl.
    unfold gcount in *. rewrite (proj2 (Z.leb_gt (doff + n) _)), !andb_false_r by lia. done.
  - unfold Buffer.memmove. by rewrite (proj2 (Z.eqb_neq n 0)) by lia.
Qed.

Lemma alloc_eq n : alloc n h = Ret (length h, h ++ [mkGcBytes 0 (replicate (Z.to_nat n) 0)]).
Proof. done. Qed.

Lemma buffer_eq n : Buffer.buffer n h = Ret (Some (length h), h ++ [mkGcBytes 0 (replicate (Z.to_nat n) 0)]).
Proof. done. Qed.
End equations.

(** ** Appending at the mark *)

(** The array after [x] has been copied to the mark and the mark has been moved. *)
Definition appended (a : GcBytes) (x : list Z) : GcBytes :=
  mkGcBytes (gfilled a + zlen x) (splice (v a) (gfilled a) x).

Lemma appended_awf a x : awf a → gfilled a + zlen x ≤ gcount a → awf (appended a x).
Proof.
  intros [Hf Hc] Hx. pose proof (zlen_nonneg x). unfold gcount in *.
  split; unfold gcount, appended; simpl; rewrite zlen_splice; lia.
Qed.

Lemma appended_count a x : awf a → gfilled a + zlen x ≤ gcount a → gcount (appended a x) = gcount a.
Proof. intros [Hf Hc] Hx. unfold gcount in *. simpl. apply zlen_splice; lia. Qed.

Lemma appended_data a x : awf a → gfilled a + zlen x ≤ gcount a → data (appended a x) = data a ++ x.
Proof. intros [Hf Hc] Hx. unfold data, gcount in *. simpl. apply take_splice; lia. Qed.

Lemma appended_nil a : appended a [] = a.
Proof. destruct a as [f w]. unfold appended. simpl. rewrite splice_nil. f_equal. unfold zlen. simpl. lia. Qed.

(** The two calls every stream ends a transfer with. *)
Lemma append_run {A} l a src sa soff n h (K : io A) : h !! l = Some a → awf a →
  view h src = Some sa → src ≠ Some l ∨ gfilled a + n ≤ soff ∨ soff + n ≤ gfilled a →
  0 ≤ soff → 0 ≤ n → soff + n ≤ gcount sa → gfilled a + n ≤ gcount a →
  (_ ← Buffer.memcpy (Some l) (gfilled a) src soff n; _ ← Buffer.setFilled (Some l) (gfilled a + n); K) h =
    K (<[l := appended a (slice (v sa) soff n)]> h).
Proof.
  intros Hl Hw Hs Hne H1 H2 H3 H4. destruct (Hw) as [Hf Hc].
  rewrite (bind_eq _ _ _ _ _ (memcpy_eq h l a src sa _ _ _ Hl Hs Hne H1 H2 H3 (proj1 Hf) H4)).
  assert (Hx : zlen (slice (v sa) soff n) = n) by (apply zlen_slice; unfold gcount in *; lia).
  set (a1 := mkGcBytes (gfilled a) (splice (v a) (gfilled a) (slice (v sa) soff n))).
  assert (Hc1 : gcount a1 = gcount a) by (unfold a1, gcount in *; simpl; apply zlen_splice; lia).
  assert (Hw1 : awf a1) by (split; rewrite ?Hc1; done).
  rewrite (bind_eq _ _ _ _ _ (setFilled_eq _ l a1 (gfilled a + n) (view_insert_eq h l a a1 Hl) Hw1)).
  rewrite list_insert_insert_eq, Hc1, Z.min_l by lia. unfold appended. by rewrite Hx.
Qed.

(** ** Operations of buffers *)

Section operations.
Context (h : heap) (l : nat) (a : GcBytes) (Hl : h !! l = Some a) (Hw : awf a).

Lemma shift_run n : 0 ≤ n →
  ∃ a', Buffer.shift (Some l) n h = Ret (tt, <[l := a']> h) ∧ awf a' ∧
    data a' = drop (Z.to_nat n) (data a) ∧ gcount a' = gcount a.
Proof.
  intros Hn. destruct (Hw) as [Hf Hc]. unfold Buffer.shift, mbind, io_bind.
  rewrite (filled_eq h (Some l) a) by done. cbn [mbind outcome_bind].
  destruct (Z.leb_spec (gfilled a) n) as [Hle|Hgt].
  - rewrite (setFilled_eq h l a) by done. eexists. split; [done|]. unfold data, gcount in *. simpl.
    split_and!; [split; unfold gcount; simpl; lia| |done].
    rewrite drop_ge; [|rewrite length_take; lia]. by replace (Z.to_nat _) with 0%nat by lia.
  - rewrite (u32_small (gfilled a - n)) by (unfold is_u32; lia).
    rewrite (memmove_eq h l a (Some l) a) by (done || lia). cbn [mbind outcome_bind].
    set (x := slice (v a) n (gfilled a - n)).
    assert (Hx : zlen x = gfilled a - n) by (apply zlen_slice; unfold gcount in *; lia).
    assert (Hsp : zlen (splice (v a) 0 x) = gcount a) by (apply zlen_splice; unfold gcount in *; lia).
    rewrite (setFilled_eq _ l (mkGcBytes (gfilled a) (splice (v a) 0 x)));
      [|by apply (view_insert_eq h l a)|by split; unfold gcount; simpl; rewrite Hsp].
    rewrite list_insert_insert_eq. eexists. split; [done|]. unfold gcount at 1 2. simpl. rewrite Hsp.
    rewrite Z.min_l by lia.
    split_and!; [split; unfold gcount; simpl; rewrite Hsp; lia| |done].
    unfold data. simpl. rewrite <- Hx. replace (zlen x) with (0 + zlen x) by lia.
    rewrite take_splice by (unfold gcount in *; lia). simpl. apply slice_rest. lia.
Qed.

Lemma push_run x :
  (gfilled a < gcount a ∧ ∃ a', Buffer.push (Some l) x h = Ret (true, <[l := a']> h) ∧ awf a' ∧
    data a' = data a ++ [x] ∧ gcount a' = gcount a) ∨
  (gfilled a = gcount a ∧ Buffer.push (Some l) x h = Ret (false, h)).
Proof.
  destruct (Hw) as [Hf Hc]. unfold Buffer.push, mbind, io_bind.
  rewrite (load_eq h l a) by done. cbn [mbind outcome_bind].
  destruct (Z.leb_spec (gcount a) (gfilled a)) as [Hle|Hgt]; [right; split; [lia|done]|].
  left. split; [done|]. rewrite (proj2 (Z.leb_le 0 (gfilled a))) by lia. eexists. split; [done|].
  unfold gcount in *. split_and!; [split; unfold gcount; simpl; rewrite zlen_insert; lia| |simpl; by rewrite zlen_insert].
  unfold data. simpl. unfold insert, list_insertZ. rewrite decide_True by lia.
  replace (Z.to_nat (gfilled a + 1)) with (S (Z.to_nat (gfilled a))) by lia.
  rewrite (take_S_r _ _ x).
  - by rewrite take_insert_ge by lia.
  - apply list_lookup_insert_eq. unfold zlen in *. lia.
Qed.

Lemma get_run id : 0 ≤ id →
  match v a !! id with
  | Some x => Buffer.get (Some l) id h = Ret (x, h)
  | None => Buffer.get (Some l) id h = Throw (ArrayError id (gcount a) None)
  end.
Proof.
  intros Hid. unfold Buffer.get, mbind, io_bind.
  rewrite (count_eq h (Some l) a) by done. cbn [mbind outcome_bind].
  destruct (v a !! id) as [x|] eqn:E.
  - pose proof (lookupZ_Some_lt _ _ _ E). unfold gcount. rewrite (proj2 (Z.leb_gt (zlen (v a)) id)) by lia.
    unfold mbind, io_bind. rewrite (load_eq h l a) by done. simpl. by rewrite E.
  - destruct (Z.leb_spec (gcount a) id) as [|Hlt]; [done|].
    destruct (lookupZ_lt_Some (v a) id) as [y Hy]; [by unfold gcount in *|by rewrite Hy in E].
Qed.
End operations.

Section allocating.
Context (h : heap) (src : Buffer.Buffer) (a : GcBytes) (Hl : view h src = Some a) (Hw : awf a).

Lemma src_not_fresh : src ≠ Some (length h).
Proof. intros ->. apply view_lt in Hl. lia. Qed.

(** A part of [src] is copied to a new array. *)
Lemma copy_out n from k : 0 ≤ n < 2 ^ 32 → 0 ≤ from → 0 ≤ k ≤ n → from + k ≤ gcount a →
  ∃ a', (_ ← Buffer.memcpy (Some (length h)) 0 src from k; _ ← Buffer.setFilled (Some (length h)) k;
         mret (Some (length h) : Buffer.Buffer)) (h ++ [mkGcBytes 0 (replicate (Z.to_nat n) 0)])
    = Ret (Some (length h), h ++ [a']) ∧ awf a' ∧ data a' = slice (v a) from k ∧ gcount a' = n.
Proof.
  intros Hn Hfrom Hk Hin. set (z := mkGcBytes 0 (replicate (Z.to_nat n) 0)).
  assert (Hz : awf z) by (by apply awf_fresh).
  assert (Hzc : gcount z = n) by (unfold gcount, z; simpl; rewrite zlen_replicate; lia).
  assert (Hx : zlen (slice (v a) from k) = k) by (apply zlen_slice; unfold gcount in *; lia).
  exists (appended z (slice (v a) from k)).
  split_and!; [|apply appended_awf; [done|simpl; lia]|by rewrite appended_data by (done || (simpl; lia))
    |by rewrite appended_count by (done || (simpl; lia))].
  pose proof src_not_fresh as Hne.
  pose proof (append_run (length h) z src a from k (h ++ [z]) (mret (Some (length h) : Buffer.Buffer))
    (view_fresh h z) Hz (view_app _ _ _ _ Hl) (or_introl Hne) Hfrom ltac:(lia) Hin ltac:(simpl; lia)) as E.
  unfold z in E at 1. simpl gfilled in E. rewrite Z.add_0_l in E. rewrite E. unfold mret, io_ret. do 2 f_equal.
  by rewrite insert_app_r_alt, Nat.sub_diag.
Qed.

Lemma grow_run n : gfilled a ≤ n < 2 ^ 32 →
  ∃ a', Buffer.grow src n h = Ret (Some (length h), h ++ [a']) ∧ awf a' ∧ data a' = data a ∧ gcount a' = n.
Proof.
  intros Hn. destruct (Hw) as [Hf Hc].
  destruct (copy_out n 0 (gfilled a)) as (a' & E & Ha & Hd & Hcn); [lia..|].
  exists a'. split; [|by split_and!; [|rewrite Hd|]]. unfold Buffer.grow, mbind, io_bind at 1. rewrite buffer_eq.
  cbn [mbind outcome_bind]. unfold io_bind at 1.
  rewrite (filled_eq _ src a) by (done || by apply view_app). cbn [mbind outcome_bind]. exact E.
Qed.

Lemma grow_overrun n : 0 ≤ n < gfilled a → Buffer.grow src n h = Fault.
Proof.
  intros Hn. destruct (Hw) as [Hf Hc]. unfold Buffer.grow, mbind, io_bind at 1. rewrite buffer_eq.
  cbn [mbind outcome_bind]. unfold io_bind at 1.
  rewrite (filled_eq _ src a) by (done || by apply view_app). cbn [mbind outcome_bind]. unfold io_bind at 1.
  rewrite (memcpy_overrun _ _ (mkGcBytes 0 (replicate (Z.to_nat n) 0)) src a); [done|apply view_fresh|by apply view_app|lia|].
  unfold gcount. simpl. rewrite zlen_replicate. lia.
Qed.

Lemma cut_run from to : 0 ≤ from → 0 ≤ to < 2 ^ 32 →
  ∃ a', Buffer.cut src from to h = Ret (Some (length h), h ++ [a']) ∧ awf a' ∧
    data a' = drop (Z.to_nat from) (take (Z.to_nat to) (data a)) ∧ gcount a' = Z.max 0 (to - from).
Proof.
  intros Hfrom Hto. destruct (Hw) as [Hf Hc]. unfold Buffer.cut.
  destruct (Z.leb_spec to from) as [Hle|Hlt].
  { rewrite buffer_eq. eexists. split_and!; [done|by apply awf_fresh| |simpl; unfold gcount; simpl; unfold zlen; simpl; lia].
    unfold data. simpl. symmetry. apply drop_ge. rewrite !length_take. lia. }
  rewrite (u32_small (to - from)) by (unfold is_u32; lia).
  unfold mbind, io_bind at 1. rewrite buffer_eq. cbn [mbind outcome_bind]. unfold io_bind at 1.
  rewrite (filled_eq _ src a) by (done || by apply view_app). cbn [mbind outcome_bind].
  destruct (Z.ltb_spec from (gfilled a)) as [Hin|Hout].
  - rewrite (u32_small (_ - from)) by (unfold is_u32; lia).
    destruct (copy_out (to - from) from (Z.min to (gfilled a) - from)) as (a' & E & Ha & Hd & Hcn); [lia..|].
    exists a'. split_and!; [exact E|done| |lia].
    rewrite Hd, slice_rest by lia. unfold data. rewrite take_take. do 2 f_equal. lia.
  - unfold mbind, io_bind. rewrite (setFilled_eq _ _ (mkGcBytes 0 (replicate (Z.to_nat (to - from)) 0)));
      [|apply view_fresh|apply awf_fresh; lia].
    cbn [mbind outcome_bind]. rewrite insert_app_r_alt, Nat.sub_diag by lia. simpl.
    eexists. split_and!; [done|..].
    + split; unfold gcount; simpl; rewrite zlen_replicate; lia.
    + unfold data. simpl. rewrite (drop_ge (take _ _)); [|rewrite !length_take; lia].
      unfold gcount. simpl. rewrite zlen_replicate. by replace (Z.to_nat (Z.min _ _)) with 0%nat by lia.
    + unfold gcount. simpl. rewrite zlen_replicate. lia.
Qed.

(** A deep copy has an array of its own. *)
Lemma deepCopy_run l : src = Some l →
  Buffer.deepCopy src h = Ret (Some (length h), h ++ [a]).
Proof.
  intros ->. simpl in Hl. destruct (Hw) as [Hf Hc]. unfold Buffer.deepCopy, mbind, io_bind at 1.
  rewrite (load_eq h l a Hl). cbn [mbind outcome_bind]. unfold io_bind at 1. rewrite alloc_eq.
  cbn [mbind outcome_bind]. rewrite (proj2 (Z.leb_gt _ _)) by lia. unfold mbind, io_bind, store, mret, io_ret.
  cbn [outcome_bind]. do 2 f_equal. rewrite insert_app_r_alt, Nat.sub_diag by done. by destruct a.
Qed.
End allocating.

(** A buffer that is full of given bytes. *)
Lemma bufferOf_eq h x : zlen x < 2 ^ 32 → Buffer.bufferOf x h = Ret (Some (length h), h ++ [mkGcBytes (zlen x) x]).
Proof.
  intros Hx. pose proof (zlen_nonneg x). unfold Buffer.bufferOf. rewrite (bind_eq _ _ _ _ _ (alloc_eq h (zlen x))).
  rewrite (bind_eq _ _ _ _ _ (load_eq _ _ _ (view_fresh h _))). cbn [gfilled].
  assert (Est : store (length h) (mkGcBytes 0 x) (h ++ [mkGcBytes 0 (replicate (Z.to_nat (zlen x)) 0)]) =
    Ret (tt, h ++ [mkGcBytes 0 x])) by (unfold store; by rewrite insert_app_r_alt, Nat.sub_diag).
  rewrite (bind_eq _ _ _ _ _ Est).
  assert (Hw : awf (mkGcBytes 0 x)) by (split; unfold gcount; simpl; lia).
  rewrite (bind_eq _ _ _ _ _ (setFilled_eq _ _ _ _ (view_fresh h _) Hw)).
  unfold mret, io_ret. rewrite insert_app_r_alt, Nat.sub_diag by done. unfold gcount. cbn [v insert list_insert].
  by rewrite u32_small, Z.min_id by (unfold is_u32; lia).
Qed.

Lemma full_awf x : zlen x < 2 ^ 32 → awf (mkGcBytes (zlen x) x).
Proof. intros Hx. pose proof (zlen_nonneg x). split; unfold gcount; simpl; lia. Qed.

Lemma full_data x : data (mkGcBytes (zlen x) x) = x.
Proof. unfold data, zlen. simpl. rewrite Nat2Z.id. by apply take_ge. Qed.

(** [cut] makes a buffer with the bytes from [from] to [to] of those before the mark, and
    [grow] one with all of them; the source and all other buffers are left as they were. *)
Theorem buffer_cut_grow h src a from to : view h src = Some a → awf a → 0 ≤ from → 0 ≤ to < 2 ^ 32 →
  (∃ a', Buffer.cut src from to h = Ret (Some (length h), h ++ [a']) ∧ awf a' ∧
    data a' = drop (Z.to_nat from) (take (Z.to_nat to) (data a)) ∧ gcount a' = Z.max 0 (to - from)) ∧
  (if decide (gfilled a ≤ to)
   then ∃ a', Buffer.grow src to h = Ret (Some (length h), h ++ [a']) ∧ awf a' ∧ data a' = data a ∧ gcount a' = to
   else Buffer.grow src to h = Fault).
Proof.
  intros Hv Hw Hf Ht. split; [by apply cut_run|].
  case_decide; [apply grow_run; done || lia|apply (grow_overrun h src a); done || lia].
Qed.

Lemma buffer_cut_grow_witness :
  let h := [mkGcBytes 3 [1; 2; 3; 0; 0]] in
  (∃ a', Buffer.cut (Some 0%nat) 1 3 h = Ret (Some 1%nat, h ++ [a']) ∧ awf a' ∧
    data a' = [2; 3] ∧ gcount a' = Z.max 0 (3 - 1)) ∧
  (∃ a', Buffer.grow (Some 0%nat) 3 h = Ret (Some 1%nat, h ++ [a']) ∧ awf a' ∧ data a' = [1; 2; 3] ∧ gcount a' = 3).
Proof.
  apply (buffer_cut_grow [mkGcBytes 3 [1; 2; 3; 0; 0]] (Some 0%nat) (mkGcBytes 3 [1; 2; 3; 0; 0]) 1 3);
    [reflexivity|split; unfold gcount, zlen; simpl; lia|lia|lia].
Defined.
