(* ===== verification/Stream.v ===== *)
(** * Streams

    [Core/Io/Stream.h] and [Core/Io/Stream.cpp]: the interfaces of streams, and what the
    base classes implement on top of them.  The virtual functions are the operations of a
    class; a stream is a state they are applied to. *)

From stdpp Require Import base list numbers decidable option strings.
From Stdlib Require Import ZArith Lia.
From S2P Require Import Prelude Buffer.

(** Conversions to the signed types [Int] and [Long]. *)
Definition s32 (z : Z) : Z := (z + 2 ^ 31) `mod` 2 ^ 32 - 2 ^ 31.
Definition s64 (z : Z) : Z := (z + 2 ^ 63) `mod` 2 ^ 64 - 2 ^ 63.

(** The virtual functions of [IStream] and of [OStream]. *)
Class IStream (S : Type) := {
  more : S → io bool;
  read : S → Buffer.Buffer → io (S * Buffer.Buffer);
  peek : S → Buffer.Buffer → io (S * Buffer.Buffer);
}.

Class OStream (S : Type) := {
  write : S → Buffer.Buffer → Z → io (S * Z);
  flush : S → io (S * bool);
  close : S → io S;
}.

Module Istream.
Section istream.
Context {S : Type} `{IStream S}.

(** [read(Nat)] *)
Definition readCount (s : S) (c : Z) : io (S * Buffer.Buffer) := b ← Buffer.buffer c; read s b.
Definition peekCount (s : S) (c : Z) : io (S * Buffer.Buffer) := b ← Buffer.buffer c; peek s b.

Fixpoint fillLoop (fuel : nat) (s : S) (b : Buffer.Buffer) : io (S * Buffer.Buffer) :=
  match fuel with
  | O => diverge
  | Datatypes.S fuel =>
      full ← Buffer.full b;
      if full : bool then mret (s, b)
      else
        old ← Buffer.filled b;
        '(s, b) ← read s b;
        f ← Buffer.filled b;
        if f =? old then mret (s, b) else fillLoop fuel s b
  end.

(** Every round but the last reads a byte. *)
Definition fill (s : S) (b : Buffer.Buffer) : io (S * Buffer.Buffer) :=
  _ ← Buffer.setFilled b 0;
  c ← Buffer.count b;
  fillLoop (Datatypes.S (Z.to_nat c)) s b.

Definition fillCount (s : S) (c : Z) : io (S * Buffer.Buffer) := b ← Buffer.buffer c; fill s b.

(** ** Reading primitive types *)

Definition checkBuffer (b : Buffer.Buffer) : io unit :=
  full ← Buffer.full b;
  if full : bool then mret tt else throw (IoError "Not enough data to read primitive.").

(** [GcPreArray<Byte, n> d; Buffer b = fill(emptyBuffer(d)); checkBuffer(engine(), b);]: the
    array [d] and the buffer [b]. *)
Definition fillPrim (s : S) (n : Z) : io (S * nat * Buffer.Buffer) :=
  d ← alloc n;
  b ← Buffer.emptyBuffer d;
  '(s, b) ← fill s b;
  _ ← checkBuffer b;
  mret (s, d, b).

Definition readByte (s : S) : io (S * Z) :=
  '(s, d, _) ← fillPrim s 1;
  a ← load d;
  match v a !! 0 with Some x => mret (s, x) | None => fault end.

Definition readBool (s : S) : io (S * bool) := '(s, x) ← readByte s; mret (s, negb (x =? 0)).

Definition readInt (s : S) : io (S * Z) :=
  '(s, _, b) ← fillPrim s 4;
  b0 ← Buffer.get b 0; let r := s32 (Z.shiftl b0 24) in
  b1 ← Buffer.get b 1; let r := Z.lor r (s32 (Z.shiftl b1 16)) in
  b2 ← Buffer.get b 2; let r := Z.lor r (s32 (Z.shiftl b2 8)) in
  b3 ← Buffer.get b 3; let r := Z.lor r (s32 (Z.shiftl b3 0)) in
  mret (s, r).

Definition readNat (s : S) : io (S * Z) :=
  '(s, _, b) ← fillPrim s 4;
  b0 ← Buffer.get b 0; let r := u32 (Z.shiftl b0 24) in
  b1 ← Buffer.get b 1; let r := Z.lor r (u32 (Z.shiftl b1 16)) in
  b2 ← Buffer.get b 2; let r := Z.lor r (u32 (Z.shiftl b2 8)) in
  b3 ← Buffer.get b 3; let r := Z.lor r (u32 (Z.shiftl b3 0)) in
  mret (s, r).

Definition readLong (s : S) : io (S * Z) :=
  '(s, _, b) ← fillPrim s 8;
  b0 ← Buffer.get b 0; let r := s64 (Z.shiftl b0 56) in
  b1 ← Buffer.get b 1; let r := Z.lor r (s64 (Z.shiftl b1 48)) in
  b2 ← Buffer.get b 2; let r := Z.lor r (s64 (Z.shiftl b2 40)) in
  b3 ← Buffer.get b 3; let r := Z.lor r (s64 (Z.shiftl b3 32)) in
  b4 ← Buffer.get b 4; let r := Z.lor r (s64 (Z.shiftl b4 24)) in
  b5 ← Buffer.get b 5; let r := Z.lor r (s64 (Z.shiftl b5 16)) in
  b6 ← Buffer.get b 6; let r := Z.lor r (s64 (Z.shiftl b6 8)) in
  b7 ← Buffer.get b 7; let r := Z.lor r (s64 (Z.shiftl b7 0)) in
  mret (s, r).

(** The value is put together in a [Long], and converted to a [Word] at the end. *)
Definition readWord (s : S) : io (S * Z) :=
  '(s, _, b) ← fillPrim s 8;
  b0 ← Buffer.get b 0; let r := s64 (Z.shiftl b0 56) in
  b1 ← Buffer.get b 1; let r := Z.lor r (s64 (Z.shiftl b1 48)) in
  b2 ← Buffer.get b 2; let r := Z.lor r (s64 (Z.shiftl b2 40)) in
  b3 ← Buffer.get b 3; let r := Z.lor r (s64 (Z.shiftl b3 32)) in
  b4 ← Buffer.get b 4; let r := Z.lor r (s64 (Z.shiftl b4 24)) in
  b5 ← Buffer.get b 5; let r := Z.lor r (s64 (Z.shiftl b5 16)) in
  b6 ← Buffer.get b 6; let r := Z.lor r (s64 (Z.shiftl b6 8)) in
  b7 ← Buffer.get b 7; let r := Z.lor r (s64 (Z.shiftl b7 0)) in
  mret (s, u64 r).
End istream.
End Istream.

Module Ostream.
Section ostream.
Context {S : Type} `{OStream S}.

(** [write(Buffer)] *)
Definition writeAll (s : S) (b : Buffer.Buffer) : io (S * Z) := write s b 0.

(** [GcPreArray<Byte, n> d; d.v[0] = ...; write(fullBuffer(d));] *)
Definition writePrim (s : S) (bytes : list Z) : io S :=
  d ← alloc (zlen bytes);
  a ← load d;
  _ ← store d (mkGcBytes (gfilled a) bytes);
  b ← Buffer.fullBuffer d;
  '(s, _) ← writeAll s b;
  mret s.

Definition writeByte (s : S) (x : Z) : io S := writePrim s [x].

Definition writeBool (s : S) (x : bool) : io S := writeByte s (if x then 1 else 0).

(** [Byte((v >> k) & 0xFF)] *)
Definition byteAt (x k : Z) : Z := u8 (Z.land (Z.shiftr x k) 0xFF).

Definition writeInt (s : S) (x : Z) : io S := writePrim s [byteAt x 24; byteAt x 16; byteAt x 8; byteAt x 0].
Definition writeNat (s : S) (x : Z) : io S := writePrim s [byteAt x 24; byteAt x 16; byteAt x 8; byteAt x 0].

Definition writeLong (s : S) (x : Z) : io S :=
  writePrim s [byteAt x 56; byteAt x 48; byteAt x 40; byteAt x 32; byteAt x 24; byteAt x 16; byteAt x 8; byteAt x 0].
Definition writeWord (s : S) (x : Z) : io S :=
  writePrim s [byteAt x 56; byteAt x 48; byteAt x 40; byteAt x 32; byteAt x 24; byteAt x 16; byteAt x 8; byteAt x 0].
End ostream.
End Ostream.
