(* ===== verification/StreamCorrect.v ===== *)
(** * Streams: correctness of what the base classes implement

    The laws of the interfaces: an input stream is a list of bytes that remain, an output
    stream a list of bytes that were written.  [fill] and the functions that read and write
    primitive types are proved correct for all streams with these laws. *)

From stdpp Require Import base list numbers decidable option strings.
From Stdlib Require Import ZArith Lia.
From S2P Require Import Prelude Buffer BufferCorrect Stream.

(** ** Laws *)

(** An object with arrays of its own in the heap, that stands for a list of bytes.  Changes
    to other arrays do not matter to it. *)
Class HeapObject (S : Type) := {
  owf : S → heap → Prop;
  owns : S → nat → Prop;
  bytes : S → heap → list Z;
  owns_lt s h l : owf s h → owns s l → (l < length h)%nat;
  owns_stable s h h' : owf s h → (∀ l, owns s l → h' !! l = h !! l) → owf s h' ∧ bytes s h' = bytes s h;
}.

(** From [h] to [h'] only arrays in [P] were changed. *)
Definition frame (P : nat → Prop) (h h' : heap) : Prop :=
  (length h ≤ length h')%nat ∧ ∀ l, (l < length h)%nat → ¬ P l → h' !! l = h !! l.

(** After the stream [s] has put the first [k] of its bytes in the buffer [l], or in a new
    one with the same contents: the stream [s'] and the buffer it returned. *)
Definition received {T} `{HeapObject T} (s : T) (h : heap) (l : nat) (a : GcBytes) (k : nat)
    (r : T * Buffer.Buffer) (h' : heap) : Prop :=
  ∃ s' l' a', r = (s', Some l') ∧ h' !! l' = Some a' ∧ awf a' ∧ gcount a' = gcount a ∧
    data a' = data a ++ take k (bytes s h) ∧ bytes s' h' = drop k (bytes s h) ∧
    owf s' h' ∧ ¬ owns s' l' ∧ (∀ j, owns s' j → owns s j ∨ (length h ≤ j)%nat) ∧
    frame (λ j, owns s j ∨ j = l) h h' ∧ (l' = l ∨ (length h ≤ l')%nat).

(** What the documentation of [IStream::read] promises, for streams without time limits:
    at least one byte unless the stream is at its end. *)
Class IStreamLaws (S : Type) `{IStream S} `{HeapObject S} := {
  bytes_u8 s h : owf s h → Forall is_u8 (bytes s h);
  read_law s h l a : owf s h → ¬ owns s l → h !! l = Some a → awf a → gfilled a < gcount a →
    runs (read s (Some l)) h (λ r h', ∃ k,
      Z.of_nat k ≤ gcount a - gfilled a ∧ (k = 0%nat → bytes s h = []) ∧ received s h l a k r h');
}.

(** After the bytes [x] have been written to the stream [s]: the stream [s'], and how many
    they were. *)
Definition wrote {T} `{HeapObject T} (s : T) (h : heap) (x : list Z) (r : T * Z) (h' : heap) : Prop :=
  ∃ s', r = (s', zlen x) ∧ bytes s' h' = bytes s h ++ x ∧ owf s' h' ∧
    (∀ j, owns s' j → owns s j ∨ (length h ≤ j)%nat) ∧ frame (owns s) h h'.

(** What the documentation of [OStream::write] promises when there is no error. *)
Class OStreamLaws (S : Type) `{OStream S} `{HeapObject S} := {
  write_law s h b a start : owf s h → (∀ l, b = Some l → ¬ owns s l) → view h b = Some a → awf a → 0 ≤ start < 2 ^ 32 →
    runs (write s b start) h (wrote s h (drop (Z.to_nat start) (data a)));
}.

(** ** Frames *)

Lemma frame_refl P h : frame P h h.
Proof. by split. Qed.

Lemma frame_trans P Q h1 h2 h3 : frame P h1 h2 → frame Q h2 h3 →
  (∀ l, Q l → P l ∨ (length h1 ≤ l)%nat) → frame P h1 h3.
Proof.
  intros [L1 F1] [L2 F2] HQ. split; [lia|]. intros l Hl HP. rewrite F2; [by apply F1|lia|].
  intros HQl. destruct (HQ l HQl); [done|lia].
Qed.

Lemma frame_insert (P : nat → Prop) h l a : P l → frame P h (<[l := a]> h).
Proof.
  intros HP. split; [by rewrite length_insert|]. intros k Hk HPk.
  apply list_lookup_insert_ne. by intros ->.
Qed.

Lemma frame_alloc P h h2 : frame P h (h ++ h2).
Proof. split; [rewrite length_app; lia|]. intros l Hl _. by rewrite lookup_app_l. Qed.

Lemma frame_view P h h' b a : frame P h h' → view h b = Some a → (∀ l, b = Some l → ¬ P l) → view h' b = Some a.
Proof.
  intros [_ HF]. destruct b as [l|]; [|done]. simpl. intros Hl HP. rewrite HF; [done| |by apply HP].
  by apply lookup_lt_Some in Hl.
Qed.

(** An object does not see changes of arrays it does not own. *)
Lemma owns_frame {T} `{HeapObject T} (s : T) h h' P : owf s h → frame P h h' → (∀ l, P l → ¬ owns s l) →
  owf s h' ∧ bytes s h' = bytes s h.
Proof.
  intros Hs [_ HF] HP. apply owns_stable; [done|]. intros l Hl. apply HF; [by apply (owns_lt s)|].
  intros Hp. by apply (HP l).
Qed.

(** ** [fill] *)

(** Two reads, of [k] and of what then remains of [d] bytes, are one of [d] bytes; the
    first read stops early only at the end. *)
Section two.
Context (R : list Z) (k : nat) (d c f : Z) (Hk : Z.of_nat k ≤ d).
Context (Hf : f = c - d + Z.of_nat (k `min` length R)).

Lemma take_two : take k R ++ take (Z.to_nat (c - f)) (drop k R) = take (Z.to_nat d) R.
Proof.
  destruct (decide (k < length R)%nat); [rewrite take_take_drop; f_equal; lia|].
  rewrite (drop_ge R), take_nil, app_nil_r by lia. rewrite !take_ge by lia. done.
Qed.

Lemma drop_two : drop (Z.to_nat (c - f)) (drop k R) = drop (Z.to_nat d) R.
Proof.
  rewrite drop_drop. destruct (decide (k < length R)%nat); [f_equal; lia|]. rewrite !drop_ge by lia. done.
Qed.
End two.

Section fill.
Context {T : Type} `{IStreamLaws T}.

Lemma fillLoop_run fuel s h l a : owf s h → ¬ owns s l → h !! l = Some a → awf a →
  gcount a - gfilled a < Z.of_nat fuel →
  runs (Istream.fillLoop fuel s (Some l)) h (received s h l a (Z.to_nat (gcount a - gfilled a))).
Proof.
  revert s h l a. induction fuel as [|fuel IH]; intros s h l a Hs Hno Hl Hw Hfuel; [destruct Hw; lia|].
  destruct (Hw) as [Hf Hc]. cbn [Istream.fillLoop]. io_step full_eq.
  destruct (Z.eqb_spec (gfilled a) (gcount a)) as [Hfull|Hnf].
  { exists s, l, a. rewrite Hfull, Z.sub_diag. simpl. rewrite app_nil_r. split_and!; auto using frame_refl. }
  io_step filled_eq. eapply runs_bind; [apply (read_law s h l a); done || lia|].
  intros r h1 (k & Hk & Hk0 & s1 & l1 & a1 & -> & Hl1 & Hw1 & Hc1 & Hd1 & Hr1 & Hs1 & Hno1 & Ho1 & HF1 & Hl1').
  io_step filled_eq.
  assert (Z1 : gfilled a1 = gfilled a + Z.of_nat (k `min` length (bytes s h))).
  { rewrite <- (zlen_data _ Hw1), Hd1, zlen_app, (zlen_data _ Hw). unfold zlen. by rewrite length_take. }
  destruct (Z.eqb_spec (gfilled a1) (gfilled a)) as [Heq|Hne].
  - (* Nothing was read: the end of the stream. *)
    assert (bytes s h = []) as Hnil by (destruct k; [by apply Hk0|destruct (bytes s h); [done|simpl in Z1; lia]]).
    exists s1, l1, a1. rewrite Hd1, Hr1, Hnil. rewrite !take_nil, !drop_nil. by split_and!.
  - set (d := gcount a - gfilled a) in *.
    eapply runs_mono; [apply (IH s1 h1 l1 a1); done || lia|].
    intros r h2 (s2 & l2 & a2 & -> & Hl2 & Hw2 & Hc2 & Hd2 & Hr2 & Hs2 & Hno2 & Ho2 & HF2 & Hl2').
    destruct (HF1) as [L1 _]. exists s2, l2, a2. split_and!; try done; try lia.
    + rewrite Hd2, Hd1, Hr1, <- app_assoc, Hc1. f_equal. apply take_two; [done|unfold d; lia].
    + rewrite Hr2, Hr1, Hc1. apply drop_two; [done|unfold d; lia].
    + intros j Hj. destruct (Ho2 j Hj) as [Hj'|]; [destruct (Ho1 j Hj'); auto; lia|right; lia].
    + apply (frame_trans _ (λ k, owns s1 k ∨ k = l1) _ h1); [done|done|].
      intros j [Hj| ->]; [destruct (Ho1 j Hj); auto|destruct Hl1'; auto].
Qed.

Lemma fill_run s h l a : owf s h → ¬ owns s l → h !! l = Some a → awf a →
  runs (Istream.fill s (Some l)) h (received s h l (mkGcBytes 0 (v a)) (Z.to_nat (gcount a))).
Proof.
  intros Hs Hno Hl Hw. destruct (Hw) as [Hf Hc]. set (a0 := mkGcBytes 0 (v a)).
  assert (Hw0 : awf a0) by (split; unfold a0, gcount in *; simpl; lia).
  assert (Hl0 : <[l := a0]> h !! l = Some a0) by (by apply (view_insert_eq h l a)).
  destruct (owns_frame s h (<[l := a0]> h) (λ k, k = l)) as [Hs0 Hb0];
    [done|by apply frame_insert|by intros ? ->|].
  unfold Istream.fill. eapply runs_step.
  { rewrite (setFilled_eq h l a) by done. rewrite Z.min_l by lia. done. }
  fold a0. io_step count_eq.
  eapply runs_mono; [apply (fillLoop_run _ s _ l a0); [done..|]|].
  { unfold a0, gcount in *. simpl. lia. }
  intros r h2 (s2 & l2 & a2 & -> & Hl2 & Hw2 & Hc2 & Hd2 & Hr2 & Hs2 & Hno2 & Ho2 & HF2 & Hl2').
  rewrite length_insert in *. rewrite Hb0 in *. replace (gcount a0 - gfilled a0) with (gcount a) in * by (unfold a0, gcount; simpl; lia).
  exists s2, l2, a2. split_and!; try done.
  apply (frame_trans _ (λ k, owns s k ∨ k = l) _ (<[l := a0]> h)); [by apply frame_insert; right|done|by auto].
Qed.
End fill.

(** ** Big-endian numbers *)

(** The lowest [k] bytes of a number, most significant first, and the number of a list. *)
Fixpoint be (k : nat) (x : Z) : list Z :=
  match k with O => [] | S k => be k (Z.shiftr x 8) ++ [Z.land x 0xFF] end.
Definition beVal (l : list Z) : Z := foldl (λ r b, r * 2 ^ 8 + b) 0 l.

Lemma land_ff x : Z.land x 0xFF = x `mod` 2 ^ 8.
Proof. apply (land_pow2_pred x 8). lia. Qed.

Lemma beVal_be k x : beVal (be k x) = x `mod` 2 ^ (8 * Z.of_nat k).
Proof.
  revert x. induction k as [|k IH]; intros x; [simpl; by rewrite Z.mod_1_r|].
  cbn [be]. unfold beVal in *. rewrite foldl_app. simpl foldl. rewrite IH, land_ff, Z.shiftr_div_pow2 by lia.
  replace (8 * Z.of_nat (S k)) with (8 + 8 * Z.of_nat k) by lia.
  rewrite Z.pow_add_r, Z.rem_mul_r by lia. lia.
Qed.

Lemma byteAt_be x k : Ostream.byteAt x k = Z.land (Z.shiftr x k) 0xFF.
Proof. unfold Ostream.byteAt, u8. rewrite land_ff. by rewrite Z.mod_mod. Qed.

Lemma be4 x : [Ostream.byteAt x 24; Ostream.byteAt x 16; Ostream.byteAt x 8; Ostream.byteAt x 0] = be 4 x.
Proof. simpl. rewrite !Z.shiftr_shiftr by lia. rewrite !byteAt_be. by rewrite Z.shiftr_0_r. Qed.

Lemma be8 x : [Ostream.byteAt x 56; Ostream.byteAt x 48; Ostream.byteAt x 40; Ostream.byteAt x 32;
  Ostream.byteAt x 24; Ostream.byteAt x 16; Ostream.byteAt x 8; Ostream.byteAt x 0] = be 8 x.
Proof. simpl. rewrite !Z.shiftr_shiftr by lia. rewrite !byteAt_be. by rewrite Z.shiftr_0_r. Qed.

Lemma be_u8 k x : Forall is_u8 (be k x).
Proof.
  revert x. induction k as [|k IH]; intros x; [constructor|]. cbn [be]. apply Forall_app. split; [done|].
  constructor; [|done]. rewrite land_ff. apply Z.mod_pos_bound. lia.
Qed.

Lemma be_length k x : length (be k x) = k.
Proof. revert x. induction k as [|k IH]; intros x; [done|]. cbn [be]. rewrite length_app, IH. simpl. lia. Qed.

(** One more byte behind those that are in place; the first may be negative. *)
Lemma lor_next y b k k' : 0 ≤ k → k' = k + 8 → is_u8 b → Z.lor (y * 2 ^ k') (b * 2 ^ k) = (y * 2 ^ 8 + b) * 2 ^ k.
Proof.
  intros Hk -> Hb. unfold is_u8 in Hb. rewrite lor_mul_pow2; [rewrite Z.pow_add_r; lia|lia|].
  rewrite Z.pow_add_r by lia. assert (0 < 2 ^ k) by (apply Z.pow_pos_nonneg; lia). nia.
Qed.

Section assemble.
Context (y b1 b2 b3 : Z) (H1 : is_u8 b1) (H2 : is_u8 b2) (H3 : is_u8 b3).

Lemma lor4 : Z.lor (Z.lor (Z.lor (y * 2 ^ 24) (b1 * 2 ^ 16)) (b2 * 2 ^ 8)) (b3 * 2 ^ 0) =
  ((y * 2 ^ 8 + b1) * 2 ^ 8 + b2) * 2 ^ 8 + b3.
Proof.
  rewrite (lor_next y b1 16 24) by (done || lia). rewrite (lor_next _ b2 8 16) by (done || lia).
  rewrite (lor_next _ b3 0 8) by (done || lia). lia.
Qed.

Context (b4 b5 b6 b7 : Z) (H4 : is_u8 b4) (H5 : is_u8 b5) (H6 : is_u8 b6) (H7 : is_u8 b7).
Lemma lor8 : Z.lor (Z.lor (Z.lor (Z.lor (Z.lor (Z.lor (Z.lor (y * 2 ^ 56) (b1 * 2 ^ 48)) (b2 * 2 ^ 40))
    (b3 * 2 ^ 32)) (b4 * 2 ^ 24)) (b5 * 2 ^ 16)) (b6 * 2 ^ 8)) (b7 * 2 ^ 0) =
  ((((((y * 2 ^ 8 + b1) * 2 ^ 8 + b2) * 2 ^ 8 + b3) * 2 ^ 8 + b4) * 2 ^ 8 + b5) * 2 ^ 8 + b6) * 2 ^ 8 + b7.
Proof.
  rewrite (lor_next y b1 48 56) by (done || lia). rewrite (lor_next _ b2 40 48) by (done || lia).
  rewrite (lor_next _ b3 32 40) by (done || lia). rewrite (lor_next _ b4 24 32) by (done || lia).
  rewrite (lor_next _ b5 16 24) by (done || lia). rewrite (lor_next _ b6 8 16) by (done || lia).
  rewrite (lor_next _ b7 0 8) by (done || lia). lia.
Qed.
End assemble.

(** The first byte, as a signed number. *)
Definition s8 (b : Z) : Z := if b <? 128 then b else b - 256.

Lemma s32_top b : is_u8 b → s32 (Z.shiftl b 24) = s8 b * 2 ^ 24.
Proof.
  intros Hb. unfold is_u8, s32, s8 in *. rewrite Z.shiftl_mul_pow2 by lia.
  destruct (Z.ltb_spec b 128); [rewrite Z.mod_small; lia|].
  rewrite <- (Z.mod_add _ (-1)), Z.mod_small by lia. lia.
Qed.

Lemma s64_top b : is_u8 b → s64 (Z.shiftl b 56) = s8 b * 2 ^ 56.
Proof.
  intros Hb. unfold is_u8, s64, s8 in *. rewrite Z.shiftl_mul_pow2 by lia.
  destruct (Z.ltb_spec b 128); [rewrite Z.mod_small; lia|].
  rewrite <- (Z.mod_add _ (-1)), Z.mod_small by lia. lia.
Qed.

Lemma s32_part b k : is_u8 b → 0 ≤ k ≤ 16 → s32 (Z.shiftl b k) = b * 2 ^ k.
Proof.
  intros Hb Hk. unfold is_u8, s32 in *. rewrite Z.shiftl_mul_pow2 by lia.
  assert (0 < 2 ^ k ≤ 2 ^ 16) by (split; [apply Z.pow_pos_nonneg; lia|apply Z.pow_le_mono_r; lia]).
  rewrite Z.mod_small; nia.
Qed.

Lemma s64_part b k : is_u8 b → 0 ≤ k ≤ 48 → s64 (Z.shiftl b k) = b * 2 ^ k.
Proof.
  intros Hb Hk. unfold is_u8, s64 in *. rewrite Z.shiftl_mul_pow2 by lia.
  assert (0 < 2 ^ k ≤ 2 ^ 48) by (split; [apply Z.pow_pos_nonneg; lia|apply Z.pow_le_mono_r; lia]).
  rewrite Z.mod_small; nia.
Qed.

Lemma u32_part b k : is_u8 b → 0 ≤ k ≤ 24 → u32 (Z.shiftl b k) = b * 2 ^ k.
Proof.
  intros Hb Hk. unfold is_u8 in *. rewrite Z.shiftl_mul_pow2 by lia.
  assert (0 < 2 ^ k ≤ 2 ^ 24) by (split; [apply Z.pow_pos_nonneg; lia|apply Z.pow_le_mono_r; lia]).
  apply u32_small. unfold is_u32. nia.
Qed.

(** ** Reading primitive types *)

(** A stream that returns the buffer it was given. *)
Class InPlace (T : Type) `{IStream T} :=
  in_place s b h s' b' h' : read s b h = Ret (s', b', h') → b' = b.

Section readPrim.
Context {T : Type} `{IStreamLaws T}.
Implicit Types s : T.

(** The first [n] bytes of the stream, in a new array. *)
Definition readsPrim s (h : heap) (n : Z) (d : nat) (s' : T) (b : Buffer.Buffer) (h' : heap) : Prop :=
  ∃ l a, b = Some l ∧ h' !! l = Some a ∧ awf a ∧ v a = take (Z.to_nat n) (bytes s h) ∧
    bytes s' h' = drop (Z.to_nat n) (bytes s h) ∧ owf s' h' ∧ (∀ j, owns s' j → owns s j ∨ (length h ≤ j)%nat) ∧
    frame (owns s) h h'.

Lemma fill_in_place `{!InPlace T} fuel s b h s' b' h' :
  Istream.fillLoop fuel s b h = Ret (s', b', h') → b' = b.
Proof.
  revert s b h. induction fuel as [|fuel IH]; intros s b h; [done|]. cbn [Istream.fillLoop].
  unfold mbind, io_bind at 1. destruct (Buffer.full b h) as [[[] h1]| | |]; simpl; [by intros [= _ <- _]| |done..].
  unfold mbind, io_bind at 1. destruct (Buffer.filled b h1) as [[old h2]| | |]; simpl; [|done..].
  unfold mbind, io_bind at 1. destruct (read s b h2) as [[[s3 b3] h3]| | |] eqn:E; simpl; [|done..].
  apply in_place in E as ->. unfold mbind, io_bind at 1.
  destruct (Buffer.filled b h3) as [[f h4]| | |]; simpl; [|done..].
  case_match; [by intros [= _ <- _]|apply IH].
Qed.

Lemma data_full a : awf a → gfilled a = gcount a → data a = v a.
Proof. intros Hw Hf. unfold data. apply take_ge. unfold gcount, zlen in *. lia. Qed.

Lemma fillPrim_run s h n : owf s h → 0 < n < 2 ^ 32 →
  if decide (n ≤ zlen (bytes s h))
  then runs (Istream.fillPrim s n) h (λ '(s', d, b) h', readsPrim s h n d s' b h' ∧ (InPlace T → b = Some d))
  else Istream.fillPrim s n h = Throw (IoError "Not enough data to read primitive.").
Proof.
  intros Hs Hn. set (z := mkGcBytes 0 (replicate (Z.to_nat n) 0)).
  assert (Hz : awf z) by (apply awf_fresh; lia).
  assert (Hzc : gcount z = n) by (unfold gcount, z; simpl; rewrite zlen_replicate; lia).
  assert (Hno : ¬ owns s (length h)) by (intros ?%(owns_lt s h); [lia|done]).
  destruct (owns_frame s h (h ++ [z]) (λ _, False)) as [Hs0 Hb0]; [done|apply frame_alloc|by intros ? ?|].
  pose proof (fill_run s (h ++ [z]) (length h) z Hs0 Hno (view_fresh h z) Hz) as HF.
  apply runs_exists in HF as (r & h1 & E & s1 & l1 & a1 & -> & Hl1 & Hw1 & Hc1 & Hd1 & Hr1 & Hs1 & Hno1 & Ho1 & HF1 & _).
  assert (Ec : (h ++ [z]) !! length h = Some z) by apply view_fresh.
  assert (EP : Istream.fillPrim s n h = (_ ← Istream.checkBuffer (Some l1); mret (s1, length h, Some l1)) h1).
  { unfold Istream.fillPrim. rewrite (bind_eq _ _ _ _ _ (alloc_eq h n)). fold z.
    rewrite (bind_eq _ _ _ (Some (length h)) (h ++ [z])).
    - by rewrite (bind_eq _ _ _ _ _ E).
    - unfold Buffer.emptyBuffer. rewrite (bind_eq _ _ _ _ _ (setFilled_eq _ _ z 0 Ec Hz)).
      rewrite Z.min_l by (destruct Hz; simpl in *; lia). unfold mret, io_ret. by rewrite list_insert_id. }
  assert (Hg1 : gfilled a1 = Z.min n (zlen (bytes s h))).
  { rewrite <- (zlen_data a1 Hw1), Hd1, Hb0. unfold zlen. simpl. rewrite length_take. lia. }
  unfold Istream.checkBuffer in EP. unfold mbind at 1, io_bind at 1 in EP.
  rewrite (bind_eq _ _ _ _ _ (full_eq h1 (Some l1) a1 Hl1 Hw1)) in EP.
  change (gcount (mkGcBytes 0 (v z))) with (gcount z) in *. rewrite Hc1, Hzc, Hg1 in EP. case_decide.
  - rewrite Z.min_l, Z.eqb_refl in EP by lia. unfold runs. rewrite EP. simpl. split.
    + exists l1, a1. rewrite Hzc, Hb0 in *. split_and!; try done.
      * rewrite <- (data_full a1), Hd1 by (done || lia). done.
      * intros j Hj. rewrite length_app in Ho1. destruct (Ho1 j Hj); [by left|right; lia].
      * apply (frame_trans _ (λ j, owns s j ∨ j = length h) _ (h ++ [z])); [apply frame_alloc|done|].
        intros j [Hj| ->]; [by left|by right].
    + intros Hip. unfold Istream.fill in E.
      rewrite (bind_eq _ _ _ _ _ (setFilled_eq _ _ z 0 Ec Hz)) in E.
      unfold mbind, io_bind in E. destruct (Buffer.count _ _) as [[c h2]| | |]; cbn [outcome_bind] in E; [|done..].
      by apply (fill_in_place (InPlace0 := Hip)) in E.
  - rewrite (proj2 (Z.eqb_neq _ _)) in EP by lia. done.
Qed.

(** The result of a call that reads the first [n] bytes as the value [x], or the exception
    there is when they are not there. *)
Definition readsValue {A} (m : io (T * A)) s h (n : Z) (x : list Z → A) : Prop :=
  if decide (n ≤ zlen (bytes s h))
  then runs m h (λ '(s', y) h', y = x (take (Z.to_nat n) (bytes s h)) ∧
    bytes s' h' = drop (Z.to_nat n) (bytes s h) ∧ owf s' h' ∧
    (∀ j, owns s' j → owns s j ∨ (length h ≤ j)%nat) ∧ frame (owns s) h h')
  else m h = Throw (IoError "Not enough data to read primitive.").

(** What follows [fillPrim] and computes the value from the bytes. *)
Lemma readsValue_prim {A} s h n (f : T * nat * Buffer.Buffer → io (T * A)) (x : list Z → A) :
  owf s h → 0 < n < 2 ^ 32 →
  (∀ s' d l a h', h' !! l = Some a → awf a → v a = take (Z.to_nat n) (bytes s h) → zlen (v a) = n →
    (InPlace T → l = d) → f (s', d, Some l) h' = Ret (s', x (v a), h')) →
  readsValue (Istream.fillPrim s n ≫= f) s h n x.
Proof.
  intros Hs Hn Hf. unfold readsValue. pose proof (fillPrim_run s h n Hs Hn) as HP. case_decide as Hd.
  - eapply runs_bind; [exact HP|]. intros [[s' d] b] h' [(l & a & -> & Hl & Hw & Hv & Hr & Hs' & Ho & HF) Hip].
    eapply runs_mono; [apply runs_eq, (Hf s' d l a h'); try done|by intros ? ? [-> ->]; rewrite Hv].
    + rewrite Hv. unfold zlen in *. rewrite length_take. lia.
    + intros Hi. by injection (Hip Hi).
  - unfold mbind, io_bind. by rewrite HP.
Qed.

Lemma getE h l a id x : h !! l = Some a → awf a → v a !! id = Some x → Buffer.get (Some l) id h = Ret (x, h).
Proof.
  intros Hl Hw Hx. pose proof (lookupZ_Some_lt _ _ _ Hx).
  pose proof (get_run h l a Hl Hw id ltac:(lia)) as E. by rewrite Hx in E.
Qed.

Lemma take_u8 s h n x : owf s h → x = take n (bytes s h) → Forall is_u8 x.
Proof. intros Hs ->. by apply Forall_take, bytes_u8. Qed.

(** Split an array of known length in its bytes, and read them. *)
Ltac take_bytes Hl Hw Hv Hz Hs :=
  let W := fresh "W" in let E := fresh "E" in let F := fresh "F" in
  lazymatch type of Hv with v ?a = _ => remember (v a) as W eqn:E in *; symmetry in E;
    pose proof (take_u8 _ _ _ _ Hs Hv) as F end;
  repeat (destruct W as [|? W]; [unfold zlen in Hz; simpl in Hz; lia|]);
  destruct W; [|unfold zlen in Hz; simpl in Hz; lia];
  repeat (erewrite bind_eq; [|eapply getE; [exact Hl|exact Hw|rewrite E; reflexivity]]; cbv zeta);
  repeat (apply Forall_cons in F as [? F]).

Lemma readNat_run s h : owf s h → readsValue (Istream.readNat s) s h 4 beVal.
Proof.
  intros Hs. apply readsValue_prim; [done|lia|]. intros s' d l a h' Hl Hw Hv Hz _.
  take_bytes Hl Hw Hv Hz Hs. rewrite !u32_part, lor4 by (done || lia). done.
Qed.

Lemma readInt_run s h : owf s h → readsValue (Istream.readInt s) s h 4 (λ x, s32 (beVal x)).
Proof.
  intros Hs. apply readsValue_prim; [done|lia|]. intros s' d l a h' Hl Hw Hv Hz _.
  take_bytes Hl Hw Hv Hz Hs. rewrite s32_top, !s32_part, lor4 by (done || lia).
  unfold mret, io_ret. do 3 f_equal. unfold beVal, s32, s8, is_u8 in *. simpl foldl.
  case_match; [rewrite Z.mod_small; lia|rewrite <- (Z.mod_add _ (-1)), Z.mod_small by lia; lia].
Qed.

Lemma long_value x0 x1 x2 x3 x4 x5 x6 x7 :
  is_u8 x0 → is_u8 x1 → is_u8 x2 → is_u8 x3 → is_u8 x4 → is_u8 x5 → is_u8 x6 → is_u8 x7 →
  ((((((s8 x0 * 2 ^ 8 + x1) * 2 ^ 8 + x2) * 2 ^ 8 + x3) * 2 ^ 8 + x4) * 2 ^ 8 + x5) * 2 ^ 8 + x6) * 2 ^ 8 + x7 =
  s64 (beVal [x0; x1; x2; x3; x4; x5; x6; x7]).
Proof.
  intros ????????. unfold beVal, s64, s8, is_u8 in *. simpl foldl.
  case_match; [rewrite Z.mod_small; lia|rewrite <- (Z.mod_add _ (-1)), Z.mod_small by lia; lia].
Qed.

Lemma readLong_run s h : owf s h → readsValue (Istream.readLong s) s h 8 (λ x, s64 (beVal x)).
Proof.
  intros Hs. apply readsValue_prim; [done|lia|]. intros s' d l a h' Hl Hw Hv Hz _.
  take_bytes Hl Hw Hv Hz Hs. rewrite s64_top, !s64_part, lor8 by (done || lia).
  by rewrite long_value.
Qed.

Lemma u64_s64 x : u64 (s64 x) = u64 x.
Proof. unfold u64, s64. rewrite Zminus_mod_idemp_l. f_equal. lia. Qed.

Lemma readWord_run s h : owf s h → readsValue (Istream.readWord s) s h 8 (λ x, u64 (beVal x)).
Proof.
  intros Hs. apply readsValue_prim; [done|lia|]. intros s' d l a h' Hl Hw Hv Hz _.
  take_bytes Hl Hw Hv Hz Hs. rewrite s64_top, !s64_part, lor8 by (done || lia).
  by rewrite long_value, u64_s64.
Qed.

Lemma readByte_run `{!InPlace T} s h : owf s h → readsValue (Istream.readByte s) s h 1 beVal.
Proof.
  intros Hs. apply readsValue_prim; [done|lia|]. intros s' d l a h' Hl Hw Hv Hz Hip.
  rewrite Hip in * by done. rewrite (bind_eq _ _ _ _ _ (load_eq h' d a Hl)).
  destruct (v a) as [|x [|]]; unfold zlen in Hz; simpl in Hz; try lia. done.
Qed.
End readPrim.

(** ** Writing primitive types *)

Section writePrim.
Context {T : Type} `{OStreamLaws T}.

Lemma writePrim_run s h x : owf s h → 0 < zlen x < 2 ^ 32 →
  runs (Ostream.writePrim s x) h (λ s' h', bytes s' h' = bytes s h ++ x ∧ owf s' h' ∧
    (∀ j, owns s' j → owns s j ∨ (length h ≤ j)%nat) ∧ frame (owns s) h h').
Proof.
  intros Hs Hx. set (z := mkGcBytes 0 (replicate (Z.to_nat (zlen x)) 0)). set (l := length h).
  set (a0 := mkGcBytes 0 x). set (a := mkGcBytes (zlen x) x).
  assert (Hw0 : awf a0) by (split; unfold a0, gcount; simpl; lia).
  assert (Hw : awf a) by (split; unfold a, gcount; simpl; lia).
  assert (Hno : ∀ k, owns s k → (k < l)%nat) by (intros k; by apply (owns_lt s h)).
  destruct (owns_frame s h (h ++ [a]) (λ _, False)) as [Hs0 Hb0]; [done|apply frame_alloc|by intros ? ?|].
  unfold Ostream.writePrim. eapply runs_step; [apply alloc_eq|]. fold z.
  eapply runs_step; [apply load_eq, view_fresh|].
  assert (Est : store l a0 (h ++ [z]) = Ret (tt, h ++ [a0])).
  { unfold store, l. by rewrite insert_app_r_alt, Nat.sub_diag. }
  eapply runs_step; [exact Est|].
  assert (Eb : Buffer.fullBuffer l (h ++ [a0]) = Ret (Some l, h ++ [a])).
  { unfold Buffer.fullBuffer. rewrite (bind_eq _ _ _ _ _ (load_eq _ _ a0 (view_fresh h a0))).
    rewrite (bind_eq _ _ _ _ _ (setFilled_eq _ l a0 _ (view_fresh h a0) Hw0)).
    unfold mret, io_ret, l. rewrite insert_app_r_alt, Nat.sub_diag by done.
    unfold gcount, a0. simpl. rewrite u32_small by (unfold is_u32; lia). by rewrite Z.min_id. }
  eapply runs_step; [exact Eb|]. unfold Ostream.writeAll.
  eapply runs_bind; [apply (write_law s (h ++ [a]) (Some l) a 0); [done| |apply view_fresh|done|lia]|].
  { intros k [= <-] Hk. apply Hno in Hk. lia. }
  intros r h' (s' & -> & Hb & Hs' & Ho & HF). apply runs_ret. rewrite Hb, Hb0. split_and!; [|done| |].
  - f_equal. unfold data. simpl. apply take_ge. unfold zlen. lia.
  - intros j Hj. rewrite length_app in Ho. destruct (Ho j Hj); [by left|right; unfold l in *; lia].
  - apply (frame_trans _ (owns s) _ (h ++ [a])); [apply frame_alloc|done|by auto].
Qed.
End writePrim.

(** ** Round trips *)

Section roundtrip.
Context {O I : Type} `{OStreamLaws O} `{IStreamLaws I}.

(** [wr] appends bytes from which [rd] gets the value back, whatever comes after them. *)
Definition roundtrips {A} (wr : O → A → io O) (rd : I → io (I * A)) (x : A) : Prop :=
  ∃ y, (∀ o h, owf o h → runs (wr o x) h (λ o' h', bytes o' h' = bytes o h ++ y ∧ owf o' h' ∧ frame (owns o) h h')) ∧
    ∀ i h r, owf i h → bytes i h = y ++ r →
      runs (rd i) h (λ '(i', x') h', x' = x ∧ bytes i' h' = r ∧ owf i' h' ∧ frame (owns i) h h').

Lemma prim_roundtrip {A} (wr : O → A → io O) (rd : I → io (I * A)) val y x :
  (∀ o, wr o x = Ostream.writePrim o y) → 0 < zlen y < 2 ^ 32 →
  (∀ i h, owf i h → readsValue (rd i) i h (zlen y) val) → val y = x → roundtrips wr rd x.
Proof.
  intros Hwr Hy Hrd Hval. exists y. split.
  - intros o h Ho. rewrite Hwr. eapply runs_mono; [by apply writePrim_run|].
    intros o' h' (? & ? & _ & ?). by split_and!.
  - intros i h r Hi Hb. specialize (Hrd i h Hi). unfold readsValue in Hrd. rewrite Hb in Hrd.
    rewrite decide_True in Hrd by (rewrite zlen_app; pose proof (zlen_nonneg r); lia).
    eapply runs_mono; [exact Hrd|]. intros [i' x'] h' (-> & Hr & Hi' & _ & HF).
    unfold zlen in *. rewrite Nat2Z.id in *. rewrite take_app_length, drop_app_length in *. by split_and!.
Qed.

Lemma zlen_be k x : zlen (be k x) = Z.of_nat k.
Proof. unfold zlen. by rewrite be_length. Qed.
End roundtrip.

(** C11: The bytes that the functions of [OStream] write for a primitive value are read back as
    that value by those of [IStream], at every width and for negative numbers too, from any
    input stream that has these bytes next.  Only [readByte] needs a stream that returns the
    buffer it was given ([InPlace]), which the documentation does not promise; see
    [readByte_ignores_result]. *)
Theorem primitives_roundtrip {O I : Type} `{OStreamLaws O} `{IStreamLaws I} x :
  (InPlace I → is_u8 x → roundtrips (O := O) (I := I) Ostream.writeByte Istream.readByte x) ∧
  (is_u32 x → roundtrips (O := O) (I := I) Ostream.writeNat Istream.readNat x) ∧
  (is_u64 x → roundtrips (O := O) (I := I) Ostream.writeWord Istream.readWord x) ∧
  (- 2 ^ 31 ≤ x < 2 ^ 31 → roundtrips (O := O) (I := I) Ostream.writeInt Istream.readInt x) ∧
  (- 2 ^ 63 ≤ x < 2 ^ 63 → roundtrips (O := O) (I := I) Ostream.writeLong Istream.readLong x).
Proof.
  split_and!; [intros Hip Hx|intros Hx..].
  - apply (prim_roundtrip _ _ beVal [x]); [done|done|apply readByte_run|unfold beVal; simpl; lia].
  - apply (prim_roundtrip _ _ beVal (be 4 x)); [|by rewrite zlen_be|rewrite zlen_be; apply readNat_run|].
    + intros o. unfold Ostream.writeNat. by rewrite be4.
    + rewrite beVal_be. by apply Z.mod_small.
  - apply (prim_roundtrip _ _ (λ y, u64 (beVal y)) (be 8 x)); [|by rewrite zlen_be|rewrite zlen_be; apply readWord_run|].
    + intros o. unfold Ostream.writeWord. by rewrite be8.
    + rewrite beVal_be. unfold u64. rewrite Z.mod_mod by lia. by apply Z.mod_small.
  - apply (prim_roundtrip _ _ (λ y, s32 (beVal y)) (be 4 x)); [|by rewrite zlen_be|rewrite zlen_be; apply readInt_run|].
    + intros o. unfold Ostream.writeInt. by rewrite be4.
    + rewrite beVal_be. unfold s32. rewrite Zplus_mod_idemp_l, Z.mod_small by lia. lia.
  - apply (prim_roundtrip _ _ (λ y, s64 (beVal y)) (be 8 x)); [|by rewrite zlen_be|rewrite zlen_be; apply readLong_run|].
    + intros o. unfold Ostream.writeLong. by rewrite be8.
    + rewrite beVal_be. unfold s64. rewrite Zplus_mod_idemp_l, Z.mod_small by lia. lia.
Qed.
