(* ===== verification/FdMap.v ===== *)
(** * File descriptors that are waited for

    [OS/FdMap.h]: a hash table from file descriptors to pointers, which keeps the array of
    [struct pollfd] the operating system asks for.  A file descriptor may be in it several
    times.  [OS/IOHandle.cpp] (the variant for POSIX): the requests of one thread, kept in
    such a table.

    The status codes of [info] are those of [Core/Map.h] ([MapBase.free], [MapBase.end_]).
    A pointer is an [option], where [None] is null. *)

From stdpp Require Import base list numbers decidable option gmap.
From Stdlib Require Import ZArith Lia.
From S2P Require Import Prelude HashMap Stream.

(** [struct pollfd] of the operating system. *)
Record pollfd := mkPollfd { fd : Z; events : Z; revents : Z }.
#[global] Instance pollfd_eq_dec : EqDecision pollfd.
Proof. solve_decision. Defined.

Module FdMap.

Definition free : Z := u32 (-1).
Definition end_ : Z := u32 (-2).

(** The arrays [info], [key] and [val]; [key] has [unused] more elements, in the beginning.
    A null pointer is the empty list. *)
Record FdMap (T : Type) := mkFdMap {
  elems : Z;
  size : Z;
  lastFree : Z;
  info : list Z;
  key : list pollfd;
  val : list (option T);
}.
Arguments mkFdMap {T}.
Arguments elems {T}.
Arguments size {T}.
Arguments lastFree {T}.
Arguments info {T}.
Arguments key {T}.
Arguments val {T}.

(** [hash]: the exclusive or with an unsigned constant makes the first sum unsigned; the
    conversion to [int] and the sums of [int] wrap, as they do on the machines Storm runs
    on. *)
Definition hash (v : Z) : Z :=
  let v := s32 (Z.lxor (u32 v) 0xDEADBEEF + u32 (Z.shiftl v 4)) in
  let v := Z.lxor v (Z.shiftr v 10) in
  let v := s32 (v + s32 (Z.shiftl v 7)) in
  let v := Z.lxor v (Z.shiftr v 13) in
  u32 v.

Section fdmap.
Context {T : Type}.
(** The number of elements of [key] for others to use, and what [new] leaves in memory. *)
Context (unused : Z) (fresh : pollfd).
Implicit Types m : FdMap T.

Definition set_elems (e : Z) m : FdMap T := mkFdMap e (size m) (lastFree m) (info m) (key m) (val m).
Definition set_lastFree (f : Z) m : FdMap T := mkFdMap (elems m) (size m) f (info m) (key m) (val m).

Definition count m : Z := elems m.
Definition capacity m : Z := size m.

(** [info[i] = s], [key[i + unused] = k], [val[i] = v] *)
Definition setInfo m (i s : Z) : outcome (FdMap T) :=
  l ← aset (info m) i s; Ret (mkFdMap (elems m) (size m) (lastFree m) l (key m) (val m)).
Definition setKey m (i : Z) (k : pollfd) : outcome (FdMap T) :=
  l ← aset (key m) (i + unused) k; Ret (mkFdMap (elems m) (size m) (lastFree m) (info m) l (val m)).
Definition setVal m (i : Z) (v : option T) : outcome (FdMap T) :=
  l ← aset (val m) i v; Ret (mkFdMap (elems m) (size m) (lastFree m) (info m) (key m) l).

Definition getKey m (i : Z) : outcome pollfd := aget (key m) (i + unused).
(** [key[i + unused].fd = f] *)
Definition setFd m (i f : Z) : outcome (FdMap T) :=
  k ← getKey m i; setKey m i (mkPollfd f (events k) (revents k)).

Definition new : FdMap T :=
  mkFdMap 0 0 0 [] (if unused =? 0 then [] else replicate (Z.to_nat unused) fresh) [].

Definition valueAt m (pos : Z) : outcome (option T) := aget (val m) pos.
Definition data m : list pollfd := key m.

Definition primarySlot m (f : Z) : Z := Z.land (hash f) (u32 (capacity m - 1)).

Fixpoint freeSlotLoop (fuel : nat) m : outcome (FdMap T * Z) :=
  match fuel with
  | O => OutOfFuel
  | S fuel =>
      s ← aget (info m) (lastFree m);
      if negb (s =? free)
      then freeSlotLoop fuel (set_lastFree (Z.land (u32 (lastFree m + 1)) (u32 (size m - 1))) m)
      else Ret (m, lastFree m)
  end.
Definition freeSlot m : outcome (FdMap T * Z) := freeSlotLoop (length (info m)) m.

(** [while (info[from] != into) from = info[from]] *)
Fixpoint findPrev (fuel : nat) m (into from : Z) : outcome Z :=
  match fuel with
  | O => OutOfFuel
  | S fuel =>
      s ← aget (info m) from;
      if negb (s =? into) then findPrev fuel m into s else Ret from
  end.

(** The occupied primary slot of [put]: the slot to write, and its status. *)
Definition makeRoom m (into : Z) : outcome (FdMap T * Z * Z) :=
  k ← getKey m into;
  let from := primarySlot m (fd k) in
  if from =? into then
    '(m, to) ← freeSlot m;
    insert ← aget (info m) into;
    m ← setInfo m into to;
    Ret (m, insert, to)
  else
    from ← findPrev (length (info m)) m into from;
    '(m, to) ← freeSlot m;
    m ← setInfo m from to;
    s ← aget (info m) into; m ← setInfo m to s;
    k ← getKey m into; m ← setKey m to k;
    v ← valueAt m into; m ← setVal m to v;
    m ← setInfo m into free;
    Ret (m, end_, into).

(** [put] after [grow]. *)
Definition insertNode m (k : pollfd) (v : option T) : outcome (FdMap T) :=
  let into := primarySlot m (fd k) in
  s ← aget (info m) into;
  '(m, insert, into) ← (if negb (s =? free) then makeRoom m into else Ret (m, end_, into));
  s ← aget (info m) into;
  assert (s =? free);;
  m ← setInfo m into insert;
  m ← setKey m into k;
  m ← setVal m into v;
  Ret (set_elems (u32 (elems m + 1)) m).

(** [put], [grow] and [rehash] call each other. *)
Section rehash.
Context (put : FdMap T → pollfd → option T → outcome (FdMap T)).

(** The new arrays are written after the first loop, which sets [info], [fd] of [key] and
    [val] of all elements. *)
Definition rehash m (n : Z) : outcome (FdMap T) :=
  let oldSize := size m in
  let oldInfo := info m in
  let oldKey := key m in
  let oldVal := val m in
  let m := mkFdMap 0 n 0 (replicate (Z.to_nat n) free)
             (replicate (Z.to_nat unused) fresh ++ replicate (Z.to_nat n) (mkPollfd (-1) (events fresh) (revents fresh)))
             (replicate (Z.to_nat n) None) in
  if bool_decide (oldInfo = []) then Ret m
  else
    for_loop (Z.to_nat oldSize) 0 (λ i m,
      s ← aget oldInfo i;
      if s =? free then Ret m
      else k ← aget oldKey (i + unused); v ← aget oldVal i; put m k v) m.

Definition grow m : outcome (FdMap T) :=
  if size m =? 0 then rehash m 8
  else if size m =? elems m then rehash m (u32 (size m * 2))
  else Ret m.
End rehash.

(** [put] with at most [d] nested calls through [rehash]; the table [rehash] puts elements
    into has room, so that one nested call is enough. *)
Fixpoint putN (d : nat) m (k : pollfd) (v : option T) : outcome (FdMap T) :=
  match d with
  | O => OutOfFuel
  | S d => m ← grow (putN d) m; insertNode m k v
  end.

Definition putKey : FdMap T → pollfd → option T → outcome (FdMap T) := putN 2.
Definition put m (f evs : Z) (v : option T) : outcome (FdMap T) := putKey m (mkPollfd f evs 0) v.

(** The loops of [find] and [next]: the next slot of the chain with the file descriptor.  The
    first slot of [find] is a slot of the table, so that it does not matter that [find] tests
    for the end after the body of its loop. *)
Fixpoint findFrom (fuel : nat) m (f slot : Z) : outcome Z :=
  match fuel with
  | O => OutOfFuel
  | S fuel =>
      if slot =? end_ then Ret free
      else
        k ← getKey m slot;
        if fd k =? f then Ret slot
        else s ← aget (info m) slot; findFrom fuel m f s
  end.

Definition find m (f : Z) : outcome Z :=
  if capacity m =? 0 then Ret free
  else
    let slot := primarySlot m f in
    s ← aget (info m) slot;
    if s =? free then Ret free else findFrom (S (length (info m))) m f slot.

Definition next m (pos : Z) : outcome Z :=
  k ← getKey m pos;
  slot ← aget (info m) pos;
  findFrom (S (length (info m))) m (fd k) slot.

Definition shrink m : outcome (FdMap T) :=
  if size m <=? 8 then Ret m
  else if u32 (elems m * 3) <=? size m then rehash (putN 1) m (size m / 2)
  else Ret m.

(** [remove]: the node at [slot], whose predecessor in its chain is [prev] ([free] for
    none). *)
Definition removeAt m (prev slot : Z) : outcome (FdMap T) :=
  m ← (if negb (prev =? free) then s ← aget (info m) slot; setInfo m prev s else Ret m);
  next ← aget (info m) slot;
  m ← setInfo m slot free;
  m ← setFd m slot (-1);
  m ← setVal m slot None;
  m ← (if (prev =? free) && negb (next =? end_) then
         s ← aget (info m) next; m ← setInfo m slot s;
         m ← setInfo m next free;
         k ← getKey m next; m ← setKey m slot k;
         m ← setFd m next (-1);
         v ← valueAt m next; m ← setVal m slot v;
         setVal m next None
       else Ret m);
  shrink (set_elems (u32 (elems m - 1)) m).

Fixpoint removeLoop (fuel : nat) m (pos prev slot : Z) : outcome (FdMap T) :=
  match fuel with
  | O => OutOfFuel
  | S fuel =>
      if slot =? pos then removeAt m prev slot
      else
        s ← aget (info m) slot;
        if s =? end_ then Ret m else removeLoop fuel m pos slot s
  end.

Definition remove m (pos : Z) : outcome (FdMap T) :=
  k ← getKey m pos;
  let slot := primarySlot m (fd k) in
  s ← aget (info m) slot;
  if s =? free then Ret m else removeLoop (length (info m)) m pos free slot.

(** [dbg_verify]: the status codes are in bounds, and every element is in the chain of its
    primary slot. *)
Fixpoint verifyChain (fuel : nat) m (slot i : Z) : outcome bool :=
  match fuel with
  | O => OutOfFuel
  | S fuel =>
      if slot =? i then Ret true
      else
        s ← aget (info m) slot;
        if capacity m <=? s then Ret false else verifyChain fuel m s i
  end.

Definition dbg_verify m : outcome bool :=
  if capacity m =? 0 then Ret true
  else
    ok ← for_loop (Z.to_nat (capacity m)) 0 (λ i ok,
      s ← aget (info m) i;
      Ret (if (capacity m <=? s) && negb (s =? free) && negb (s =? end_) then false else ok)) true;
    for_loop (Z.to_nat (capacity m)) 0 (λ i ok,
      s ← aget (info m) i;
      if s =? free then Ret ok
      else
        k ← getKey m i;
        b ← verifyChain (length (info m)) m (primarySlot m (fd k)) i;
        Ret (if b : bool then ok else false)) ok.
End fdmap.
End FdMap.

(** ** Requests of a thread *)

Module IOHandle.
Import FdMap.

(** What the operating system calls [POLLIN] and [POLLOUT]. *)
Definition POLLIN : Z := 1.
Definition POLLOUT : Z := 4.

(** [IORequest::Type] and the parts of [IORequest] that are shared with the handle; [wake] is
    the flag of the event, which its [set] sets.  A pointer to a request is a number. *)
Inductive Type_ := read | write.
Record IORequest := mkIORequest { type_ : Type_; closed : bool; wake : bool }.
Abbreviation requests := (gmap positive IORequest).

Definition setWake (rs : requests) (r : positive) : outcome requests :=
  match rs !! r with Some q => Ret (<[r := mkIORequest (type_ q) (closed q) true]> rs) | None => Fault end.
Definition setClosed (rs : requests) (r : positive) : outcome requests :=
  match rs !! r with Some q => Ret (<[r := mkIORequest (type_ q) true (wake q)]> rs) | None => Fault end.

Definition pollType (t : Type_) : Z := match t with read => POLLIN | write => POLLOUT end.

Section handle.
Context (fresh : pollfd).
(** The system call, with a timeout of zero: the result, and the array it was given with
    [revents] filled in. *)
Context (poll : list pollfd → Z * list pollfd).
Abbreviation HandleMap := (FdMap positive).
Implicit Types handles : HandleMap.

Definition new : HandleMap := FdMap.new 1 fresh.

Definition attach handles (rs : requests) (h : Z) (wait : positive) : outcome HandleMap :=
  match rs !! wait with
  | Some q => put 1 fresh handles h (pollType (type_ q)) (Some wait)
  | None => Fault
  end.

(** [for (pos = find(h); pos < capacity(); pos = next(pos))] *)
Fixpoint detachLoop (fuel : nat) handles (wait : positive) (pos : Z) : outcome HandleMap :=
  match fuel with
  | O => OutOfFuel
  | S fuel =>
      if pos <? capacity handles then
        v ← valueAt handles pos;
        if bool_decide (v = Some wait) then remove 1 fresh handles pos
        else pos ← next 1 handles pos; detachLoop fuel handles wait pos
      else Ret handles
  end.
Definition detach handles (h : Z) (wait : positive) : outcome HandleMap :=
  pos ← find 1 handles h; detachLoop (S (length (info handles))) handles wait pos.

Definition anyEvents handles : outcome bool :=
  for_loop (Z.to_nat (capacity handles)) 0 (λ i any,
    w ← aget (data handles) (i + 1);
    Ret (if (0 <=? fd w) && negb (revents w =? 0) then true else any)) false.

(** [poll(wait + 1, handles.capacity(), 0)] *)
Definition pollHandles handles : Z * HandleMap :=
  let c := Z.to_nat (capacity handles) in
  let '(r, fds) := poll (take c (drop 1 (data handles))) in
  (r, mkFdMap (elems handles) (size handles) (lastFree handles) (info handles)
        (take 1 (data handles) ++ fds ++ drop (1 + c) (data handles)) (val handles)).

Definition notifyEvents handles (rs : requests) : outcome (HandleMap * requests) :=
  for_loop (Z.to_nat (capacity handles)) 0 (λ i '(handles, rs),
    w ← aget (data handles) (i + 1);
    rs ← (if negb (revents w =? 0) then
            v ← valueAt handles i;
            match v with Some r => setWake rs r | None => Ret rs end
          else Ret rs);
    w ← aget (data handles) (i + 1);
    handles ← setKey 1 handles i (mkPollfd (fd w) (events w) 0);
    Ret (handles, rs)) (handles, rs).

Definition notifyAll handles (rs : requests) : outcome (HandleMap * requests) :=
  any ← anyEvents handles;
  if any : bool then notifyEvents handles rs
  else
    let '(r, handles) := pollHandles handles in
    if r <=? 0 then Ret (handles, rs) else notifyEvents handles rs.

Definition desc handles : list pollfd * Z := (data handles, capacity handles + 1).

(** [for (pos = find(h); pos < capacity(); pos = find(h))] *)
Fixpoint removeLoop (fuel : nat) handles (rs : requests) (h pos : Z) : outcome (HandleMap * requests) :=
  match fuel with
  | O => OutOfFuel
  | S fuel =>
      if pos <? capacity handles then
        r ← valueAt handles pos;
        match r with
        | None => Fault
        | Some r =>
            rs ← setClosed rs r;
            rs ← setWake rs r;
            handles ← FdMap.remove 1 fresh handles pos;
            pos ← find 1 handles h;
            removeLoop fuel handles rs h pos
        end
      else Ret (handles, rs)
  end.
Definition remove handles (rs : requests) (h : Z) : outcome (HandleMap * requests) :=
  pos ← find 1 handles h; removeLoop (S (Z.to_nat (elems handles))) handles rs h pos.
End handle.
End IOHandle.
