(* ===== verification/FdMapCorrect.v ===== *)
(** * The table of file descriptors: correctness

    The three arrays of [FdMap] are one list of slots, whose chains are those of the hash
    containers ([HashChains]); the table is a bag of file descriptors with their pointers,
    also while it grows and shrinks. *)

From stdpp Require Import base list numbers decidable option sets gmap.
From Stdlib Require Import ZArith Lia.
From S2P Require Import Prelude Handle Bitwise HashMap HashChains Stream FdMap.

(** ** Slots *)

(** A free slot of a chain may have any hash. *)
Lemma chains_free_hash I ch b x h : chains I ch → I !! b = Some x → MapBase.status x = MapBase.free →
  chains (<[b := MapBase.mkInfo MapBase.free h]> I) ch.
Proof.
  intros Hch Hx Hs q Hq. rewrite zlen_insert in Hq. pose proof (lookupZ_Some_lt _ _ _ Hx) as Hr.
  assert (Hno : ∀ q', ¬ used I b q') by (intros q'; by eapply unused_slot).
  destruct (Hch q Hq) as [Hhd Hnd Hseg Hm]. split; [done|done| |].
  - eapply seg_frame; [|done]. intros i Hi%Hm. apply lookupZ_insert_ne. intros ->. by eapply Hno.
  - intros i. rewrite Hm, used_insert by done. case_decide; subst; cbn; [|done]. split; [|naive_solver]. intros Hu. by edestruct Hno.
Qed.

(** Replacing an element changes the list of results by one result. *)
Lemma omap_insertZ {A B} (f : A → option B) (l : list A) (i : Z) x y : l !! i = Some x →
  option_list (f x) ++ omap f (<[i := y]> l) ≡ₚ option_list (f y) ++ omap f l.
Proof.
  intros H. pose proof (lookupZ_Some_lt _ _ _ H). rewrite lookupZ_to_nat in H by lia.
  unfold insert, list_insertZ. rewrite decide_True by lia. revert H. generalize (Z.to_nat i) as n. clear. intros n.
  revert l. induction n as [|n IH]; intros [|z l]; simpl; [done| |done|].
  - intros [= ->]. destruct (f x), (f y); simpl; try done. by apply perm_swap.
  - intros Hl. specialize (IH l Hl). destruct (f z) as [u|]; [|done].
    rewrite <- !Permutation_middle. by f_equiv.
Qed.

Lemma omap_ext_in {A B} (f g : A → option B) (l : list A) : (∀ x, x ∈ l → f x = g x) → omap f l = omap g l.
Proof.
  induction l as [|x l IH]; intros H; [done|]. cbn [omap list_omap]. rewrite (H x) by left. destruct (g x); rewrite IH; [done| |done|]; intros; apply H; by right.
Qed.

Module FdTable.
Import FdMap.

Lemma hash_u32 v : is_u32 (hash v).
Proof. apply u32_range. Qed.
#[local] Opaque hash.

Record slot (T : Type) := mkSlot { sinfo : Z; skey : pollfd; sval : option T }.
Arguments mkSlot {T}.
Arguments sinfo {T}.
Arguments skey {T}.
Arguments sval {T}.

(** A step that returns; a rewriting with it keeps the terms small. *)
Lemma bind_Ret {A B} (a : A) (g : A → outcome B) : Ret a ≫= g = g a.
Proof. done. Qed.

Section table.
Context {T : Type} (pre : list pollfd) (fresh : pollfd).
Abbreviation unused := (zlen pre).
Abbreviation slots := (list (slot T)).
Implicit Types (l : slots) (s : slot T).

(** The table with the slots [l]. *)
Definition mk (e f : Z) l : FdMap T :=
  mkFdMap e (zlen l) f (sinfo <$> l) (pre ++ (skey <$> l)) (sval <$> l).

(** The slots as the hash containers have them, and the elements. *)
Definition viewSlot s : MapBase.Info := MapBase.mkInfo (sinfo s) (hash (fd (skey s))).
Definition view l : list MapBase.Info := viewSlot <$> l.
Definition node s : option (pollfd * option T) := if sinfo s =? free then None else Some (skey s, sval s).
Definition nodes l : list (pollfd * option T) := omap node l.

(** Free slots are ignored by the operating system. *)
Definition clean s : Prop := sinfo s = free → fd (skey s) = -1 ∧ sval s = None.

Record wf (e f : Z) l (ch : Z → list Z) : Prop := {
  wf_table : table (view l);
  wf_chains : chains (view l) ch;
  wf_last : 0 ≤ f < zlen l;
  wf_elems : e = zlen (nodes l);
  wf_clean : Forall clean l;
}.

(** ** Accesses *)

Lemma getInfo_mk e f l i s : l !! i = Some s → aget (info (mk e f l)) i = Ret (sinfo s).
Proof. intros H. apply aget_Some. simpl. by rewrite lookupZ_fmap, H. Qed.

Lemma getVal_mk e f l i s : l !! i = Some s → valueAt (mk e f l) i = Ret (sval s).
Proof. intros H. apply aget_Some. simpl. by rewrite lookupZ_fmap, H. Qed.

Lemma lookup_pre (ks : list pollfd) i : 0 ≤ i → (pre ++ ks) !! (i + unused) = ks !! i.
Proof.
  intros Hi. pose proof (zlen_nonneg pre). unfold zlen in *. rewrite !lookupZ_to_nat by lia. rewrite lookup_app_r by lia. f_equal. lia.
Qed.
Lemma insert_pre (ks : list pollfd) i k : 0 ≤ i → <[i + unused := k]> (pre ++ ks) = pre ++ <[i := k]> ks.
Proof.
  intros Hi. pose proof (zlen_nonneg pre). unfold zlen, insert, list_insertZ in *. rewrite !decide_True by lia.
  rewrite insert_app_r_alt by lia. do 2 f_equal. lia.
Qed.

Lemma getKey_mk e f l i s : l !! i = Some s → getKey unused (mk e f l) i = Ret (skey s).
Proof.
  intros H. pose proof (lookupZ_Some_lt _ _ _ H). unfold getKey. apply aget_Some. simpl.
  by rewrite lookup_pre, lookupZ_fmap, H by lia.
Qed.

Lemma insert_same {A} (g : slot T → A) l i s s' : l !! i = Some s → g s' = g s → g <$> l = g <$> <[i := s']> l.
Proof. intros H E. rewrite fmap_insertZ, E. symmetry. apply list_insertZ_id. by rewrite lookupZ_fmap, H. Qed.

Lemma setInfo_mk e f l i s x : l !! i = Some s → setInfo (mk e f l) i x = Ret (mk e f (<[i := mkSlot x (skey s) (sval s)]> l)).
Proof.
  intros H. pose proof (lookupZ_Some_lt _ _ _ H). unfold setInfo, mk. simpl. rewrite aset_in by (by rewrite zlen_fmap). simpl.
  rewrite zlen_insert, (fmap_insertZ sinfo), <- (insert_same skey l i s), <- (insert_same sval l i s) by done. done.
Qed.
Lemma setVal_mk e f l i s x : l !! i = Some s → setVal (mk e f l) i x = Ret (mk e f (<[i := mkSlot (sinfo s) (skey s) x]> l)).
Proof.
  intros H. pose proof (lookupZ_Some_lt _ _ _ H). unfold setVal, mk. simpl. rewrite aset_in by (by rewrite zlen_fmap). simpl.
  rewrite zlen_insert, (fmap_insertZ sval), <- (insert_same skey l i s), <- (insert_same sinfo l i s) by done. done.
Qed.
Lemma setKey_mk e f l i s x : l !! i = Some s → setKey unused (mk e f l) i x = Ret (mk e f (<[i := mkSlot (sinfo s) x (sval s)]> l)).
Proof.
  intros H. pose proof (lookupZ_Some_lt _ _ _ H). pose proof (zlen_nonneg pre). unfold setKey, mk. simpl.
  rewrite aset_in by (rewrite zlen_app, zlen_fmap; lia). simpl.
  rewrite zlen_insert, insert_pre, (fmap_insertZ skey), <- (insert_same sinfo l i s), <- (insert_same sval l i s) by (done || lia). done.
Qed.
Lemma setFd_mk e f l i s x : l !! i = Some s →
  setFd unused (mk e f l) i x = Ret (mk e f (<[i := mkSlot (sinfo s) (mkPollfd x (events (skey s)) (revents (skey s))) (sval s)]> l)).
Proof. intros H. unfold setFd. rewrite (getKey_mk _ _ _ _ _ H). simpl. by apply setKey_mk. Qed.

Lemma view_lookup l i : view l !! i = viewSlot <$> l !! i.
Proof. apply lookupZ_fmap. Qed.
Lemma view_insert l i s : view (<[i := s]> l) = <[i := viewSlot s]> (view l).
Proof. apply fmap_insertZ. Qed.
Lemma zlen_view l : zlen (view l) = zlen l.
Proof. apply zlen_fmap. Qed.

Lemma nodes_insert l i s s' : l !! i = Some s → option_list (node s) ++ nodes (<[i := s']> l) ≡ₚ option_list (node s') ++ nodes l.
Proof. apply omap_insertZ. Qed.

Lemma table_slots l : table (view l) → 1 ≤ zlen l ≤ 2 ^ 31.
Proof. rewrite <- zlen_view. apply table_bound. Qed.

Lemma primary_mk e f l h : table (view l) → primarySlot (mk e f l) h = bucket (zlen (view l)) (hash h) ∧ 0 ≤ bucket (zlen (view l)) (hash h) < zlen l.
Proof.
  intros Ht. pose proof (table_slots _ Ht). pose proof (bucket_range _ (hash h) Ht (hash_u32 h)) as Hb. rewrite zlen_view in *.
  split; [|done]. unfold primarySlot, bucket, capacity. simpl. rewrite u32_small; [done|]. unfold is_u32. lia.
Qed.

(** ** Room for an element *)

Lemma freeSlotLoop_run fuel : ∀ e f l k s, table (view l) → 0 ≤ f < zlen l → 0 ≤ k < Z.of_nat fuel →
  l !! ((f + k) `mod` zlen l) = Some s → sinfo s = free →
  returns (freeSlotLoop fuel (mk e f l)) (λ '(m, t), m = mk e t l ∧ ∃ s, l !! t = Some s ∧ sinfo s = free).
Proof.
  induction fuel as [|fuel IH]; intros e f l k s Ht Hf Hk Hs Hfree; [lia|]. simpl. pose proof (table_slots l Ht).
  destruct (lookupZ_lt_Some _ _ Hf) as [x Hx]. rewrite (aget_Some _ f (sinfo x)) by (by rewrite lookupZ_fmap, Hx). simpl.
  destruct (Z.eqb_spec (sinfo x) free) as [E|Hne]; simpl; [by eauto|].
  assert (k ≠ 0) by (intros ->; rewrite Z.add_0_r, Z.mod_small, Hx in Hs by lia; congruence).
  assert (Z.land (u32 (f + 1)) (u32 (zlen l - 1)) = (f + 1) `mod` zlen l) as ->.
  { rewrite !u32_small by (unfold is_u32; lia). destruct Ht as (p & ? & E). rewrite zlen_view in E. rewrite E. apply land_pow2_pred. lia. }
  eapply (IH e _ l (k - 1) s); [done|apply Z.mod_pos_bound; lia|lia| |done].
  rewrite Zplus_mod_idemp_l. by replace (f + 1 + (k - 1)) with (f + k) by lia.
Qed.

(** With fewer elements than slots, one is free. *)
Lemma free_exists l : zlen (nodes l) < zlen l → ∃ t s, l !! t = Some s ∧ sinfo s = free.
Proof.
  intros H. destruct (decide (Exists (λ s, sinfo s = free) l)) as [He|Hn].
  - apply Exists_exists in He as (s & [t Ht]%list_elem_of_lookupZ & Hs). by exists t, s.
  - exfalso. assert (zlen (nodes l) = zlen l); [|lia]. clear H. unfold zlen, nodes. f_equal. apply not_Exists_Forall in Hn; [|solve_decision].
    induction Hn as [|s l Hs _ IH]; [done|]. simpl.
    destruct (node s) eqn:E; [simpl; f_equal; exact IH|]. exfalso. apply Hs. unfold node in E. by destruct (Z.eqb_spec (sinfo s) free).
Qed.

Lemma freeSlot_run e f l : table (view l) → 0 ≤ f < zlen l → zlen (nodes l) < zlen l →
  returns (freeSlot (mk e f l)) (λ '(m, t), m = mk e t l ∧ ∃ s, l !! t = Some s ∧ sinfo s = free).
Proof.
  intros Ht Hf Hn. destruct (free_exists l Hn) as (t & s & Hts & Hs). pose proof (lookupZ_Some_lt _ _ _ Hts).
  unfold freeSlot. simpl. rewrite length_fmap. eapply (freeSlotLoop_run _ e f l ((t - f) `mod` zlen l) s); [done|done| | |done].
  - unfold zlen in *. apply Z.mod_pos_bound. lia.
  - rewrite Zplus_mod_idemp_r. replace (f + (t - f)) with t by lia. by rewrite Z.mod_small.
Qed.

Lemma seg_status l (c a : list Z) d b s : seg (view l) (a ++ b :: c) d → l !! b = Some s → sinfo s = default d (head c).
Proof.
  intros [_ Hs]%seg_app Hb. eapply (seg_cons_status _ _ _ _ (viewSlot s)) in Hs; [done|]. by rewrite view_lookup, Hb.
Qed.

Lemma findPrev_run e f l (p b : Z) (l2 l1 : list Z) : ∀ fuel from, seg (view l) (l1 ++ p :: b :: l2) end_ → NoDup (l1 ++ p :: b :: l2) →
  from = default p (head l1) → (length l1 < fuel)%nat → findPrev fuel (mk e f l) b from = Ret p.
Proof.
  induction l1 as [|a l1 IH]; intros [|fuel] from Hseg Hnd -> Hf; simpl in Hf; try lia.
  - destruct (seg_lookup _ _ _ p Hseg ltac:(set_solver)) as [x Hx]. rewrite view_lookup in Hx.
    destruct (l !! p) as [s|] eqn:E; [|done]. cbn [findPrev default head]. rewrite (getInfo_mk _ _ _ _ _ E). simpl.
    rewrite (seg_status l (b :: l2) [] end_ p s Hseg E). simpl. by rewrite Z.eqb_refl.
  - destruct (seg_lookup _ _ _ a Hseg ltac:(set_solver)) as [x Hx]. rewrite view_lookup in Hx.
    destruct (l !! a) as [s|] eqn:E; [|done]. cbn [findPrev default head]. rewrite (getInfo_mk _ _ _ _ _ E). cbn [mbind outcome_bind].
    rewrite (seg_status l (l1 ++ p :: b :: l2) [] end_ a s Hseg E).
    assert (default end_ (head (l1 ++ p :: b :: l2)) = default p (head l1)) as -> by (by destruct l1).
    simpl in Hnd. apply NoDup_cons in Hnd as [Ha Hnd].
    assert (default p (head l1) ≠ b) as Hne%Z.eqb_neq.
    { apply NoDup_app in Hnd as (_ & H1 & [H2 _]%NoDup_cons). destruct l1 as [|z l1]; simpl; [set_solver|]. intros ->. apply (H1 b); set_solver. }
    rewrite Hne. simpl. apply IH; [|done|done|lia]. by destruct Hseg.
Qed.

Lemma chain_length l ch q : table (view l) → chains (view l) ch → 0 ≤ q < zlen l → (length (ch q) ≤ length l)%nat.
Proof.
  intros Ht Hch Hq. rewrite <- zlen_view in Hq. destruct (Hch q Hq) as [_ Hnd _ Hm]. apply nodup_range_length; [done|].
  intros i Hi%Hm%used_range. by rewrite zlen_view in Hi.
Qed.

(** The slots are as before, up to the place of one element; the slot [into] is free, and
    writing an element of the right bucket there with status [st] gives a well-formed table. *)
Definition roomy l (h st into : Z) l' : Prop :=
  zlen l' = zlen l ∧ nodes l' ≡ₚ nodes l ∧ st ≠ free ∧ (∃ s, l' !! into = Some s ∧ sinfo s = free) ∧
  (∃ ch, chains (<[into := MapBase.mkInfo st (hash h)]> (view l')) ch) ∧
  ∀ k v, Forall clean (<[into := mkSlot st k v]> l').

Lemma clean_occupied l i st k v : Forall clean l → st ≠ free → Forall clean (<[i := mkSlot st k v]> l).
Proof.
  intros Hl Hst. apply Forall_forall. intros s [j Hj]%list_elem_of_lookupZ. rewrite Forall_forall in Hl.
  pose proof (lookupZ_Some_lt _ _ _ Hj) as Hr. rewrite zlen_insert in Hr. destruct (decide (i = j)) as [->|Hne].
  - rewrite lookupZ_insert_eq in Hj by done. simplify_eq. intros ?. done.
  - rewrite lookupZ_insert_ne in Hj by done. apply Hl, list_elem_of_lookupZ. eauto.
Qed.

Lemma node_free s : sinfo s = free → node s = None.
Proof. unfold node. by intros ->. Qed.
Lemma node_used s : sinfo s ≠ free → node s = Some (skey s, sval s).
Proof. unfold node. by intros ->%Z.eqb_neq. Qed.

Lemma end_not_free : end_ ≠ free.
Proof. done. Qed.

Lemma slot_code l i : table (view l) → 0 ≤ i < zlen l → i ≠ free ∧ i ≠ end_.
Proof. intros Ht Hi. apply (slot_not_code (view l)); [done|]. by rewrite zlen_view. Qed.

(** The primary slot is free. *)
Lemma roomy_free e f l ch h s : wf e f l ch → l !! bucket (zlen (view l)) (hash h) = Some s → sinfo s = free →
  roomy l h end_ (bucket (zlen (view l)) (hash h)) l.
Proof.
  intros [Ht Hch Hf He Hc] Hs Hfree. unfold roomy. split_and!; [done|done|done|by eauto| |].
  - eexists. eapply chains_write; [done|by rewrite view_lookup, Hs|done|done].
  - intros k v. by apply clean_occupied.
Qed.

(** The primary slot has an element of the same bucket. *)
Lemma roomy_attach e f l ch h b s t y : wf e f l ch → b = bucket (zlen (view l)) (hash h) →
  l !! b = Some s → sinfo s ≠ free → bucket (zlen (view l)) (hash (fd (skey s))) = b → l !! t = Some y → sinfo y = free →
  roomy l h (sinfo s) t (<[b := mkSlot t (skey s) (sval s)]> l).
Proof.
  intros [Ht Hch Hf He Hc] Hb Hs Hu Hbs Hy Hfree. pose proof (lookupZ_Some_lt _ _ _ Hs) as Hr.
  pose proof (slot_code l t Ht (lookupZ_Some_lt _ _ _ Hy)) as [? ?]. assert (b ≠ t) by (intros ->; congruence).
  unfold roomy. split_and!; [by rewrite zlen_insert| |done| | |].
  - pose proof (nodes_insert l b s (mkSlot t (skey s) (sval s)) Hs) as Hp. rewrite !node_used in Hp by done. simpl in Hp.
    by apply Permutation_cons_inv in Hp.
  - exists y. by rewrite lookupZ_insert_ne by done.
  - destruct (chain_at_primary (view l) ch Hch b) as [c Hl]; [by rewrite zlen_view|by exists (viewSlot s); rewrite view_lookup, Hs|].
    eexists. rewrite view_insert. eapply (chains_attach (view l) ch b c t (viewSlot y) (viewSlot s)); try done.
    + by rewrite view_lookup, Hs.
    + by rewrite view_lookup, Hy.
  - intros k v. apply clean_occupied; [|done]. by apply clean_occupied.
Qed.

(** The primary slot has an element of another bucket, which moves to the free slot [t]. *)
Lemma roomy_move e f l ch h b q (l1 : list Z) p (l2 : list Z) s sp t y : wf e f l ch → b = bucket (zlen (view l)) (hash h) →
  0 ≤ q < zlen l → ch q = l1 ++ p :: b :: l2 → l !! b = Some s → l !! p = Some sp → l !! t = Some y → sinfo y = free →
  roomy l h end_ b (<[b := mkSlot free (skey s) (sval s)]> (<[t := s]> (<[p := mkSlot t (skey sp) (sval sp)]> l))).
Proof.
  intros [Ht Hch Hf He Hc] Hb Hq Hl Hs Hp Hy Hfree. pose proof (lookupZ_Some_lt _ _ _ Hs). pose proof (lookupZ_Some_lt _ _ _ Hp). pose proof (lookupZ_Some_lt _ _ _ Hy).
  assert (Hu : ∀ i si, i ∈ [p; b] → l !! i = Some si → sinfo si ≠ free).
  { intros i si Hi Hsi. destruct (Hch q) as [_ _ _ Hm]; [by rewrite zlen_view|].
    assert (i ∈ ch q) as (x & Hx & Hst & _)%Hm by (rewrite Hl; set_solver). rewrite view_lookup, Hsi in Hx. by simplify_eq/=. }
  pose proof (Hu p sp ltac:(set_solver) Hp) as Hup. pose proof (Hu b s ltac:(set_solver) Hs) as Hub. destruct (slot_code l t Ht ltac:(done)) as [? ?].
  assert (p ≠ b). { destruct (Hch q) as [_ Hnd _ _]; [by rewrite zlen_view|]. rewrite Hl in Hnd. apply NoDup_app in Hnd as (_ & _ & [? _]%NoDup_cons). set_solver. }
  assert (t ≠ b) by (intros ->; congruence). assert (t ≠ p) by (intros ->; congruence).
  set (l1' := <[p := _]> l). set (l2' := <[t := s]> l1').
  assert (Ha1 : l1' !! t = Some y) by (unfold l1'; by rewrite lookupZ_insert_ne by done).
  assert (Ha2 : l2' !! b = Some s) by (unfold l2', l1'; by rewrite !lookupZ_insert_ne by done).
  assert (Hz : zlen l2' = zlen l) by (unfold l2', l1'; by rewrite !zlen_insert).
  unfold roomy. split_and!; [by rewrite zlen_insert| |done| | |].
  - pose proof (nodes_insert l p sp (mkSlot t (skey sp) (sval sp)) Hp) as P1. pose proof (nodes_insert l1' t y s Ha1) as P2.
    pose proof (nodes_insert l2' b s (mkSlot free (skey s) (sval s)) Ha2) as P3.
    rewrite !node_used in P1 by done. rewrite (node_free y), (node_used s) in P2 by done. rewrite (node_used s), node_free in P3 by done. simpl in P1, P2, P3.
    apply Permutation_cons_inv in P1. fold l1' in P1. fold l2' in P2. rewrite P2, P1 in P3. by apply Permutation_cons_inv in P3.
  - eexists. split; [apply lookupZ_insert_eq; by rewrite Hz|done].
  - rewrite view_insert. assert (Hm : chains (<[b := MapBase.mkInfo MapBase.free (hash (fd (skey s)))]> (view l2')) (upd ch q (l1 ++ p :: t :: l2))).
    { unfold l2', l1'. rewrite !view_insert.
      apply (chains_move (view l) ch q l1 p l2 b t (viewSlot y) (viewSlot s) (viewSlot sp)); rewrite ?zlen_view, ?view_lookup, ?Hs, ?Hp, ?Hy; done. }
    eexists. eapply chains_write; [exact Hm|apply lookupZ_insert_eq; by rewrite zlen_view, Hz|done|]. by rewrite zlen_insert, !zlen_view, Hz, <- zlen_view.
  - intros k v. rewrite list_insertZ_insert. apply clean_occupied; [|done]. destruct s as [si sk sv]. apply clean_occupied; [|done]. by apply clean_occupied.
Qed.

Lemma makeRoom_run e f l ch h b s : wf e f l ch → zlen (nodes l) < zlen l → b = bucket (zlen (view l)) (hash h) →
  l !! b = Some s → sinfo s ≠ free →
  returns (makeRoom unused (mk e f l) b) (λ '(m, st, into), ∃ f' l', m = mk e f' l' ∧ 0 ≤ f' < zlen l ∧ roomy l h st into l').
Proof.
  intros Hw Hn Hb Hs Hu. pose proof Hw as [Ht Hch Hf He Hc]. pose proof (lookupZ_Some_lt _ _ _ Hs) as Hr. unfold makeRoom. rewrite (getKey_mk _ _ _ _ _ Hs). cbn [mbind outcome_bind].
  destruct (primary_mk e f l (fd (skey s)) Ht) as [-> Hq]. set (q := bucket _ (hash (fd (skey s)))) in *.
  pose proof (freeSlot_run e f l Ht Hf Hn) as Hfs.
  destruct (Z.eqb_spec q b) as [E|Hne].
  - eapply returns_bind; [exact Hfs|]. intros [m t] (-> & y & Hy & Hfree). rewrite (getInfo_mk _ _ _ _ _ Hs). cbn [mbind outcome_bind].
    rewrite (setInfo_mk _ _ _ _ _ _ Hs). cbn. exists t, (<[b := mkSlot t (skey s) (sval s)]> l). split_and!; [done|by eapply lookupZ_Some_lt|by eapply lookupZ_Some_lt|].
    by eapply roomy_attach.
  - destruct (chain_stranger (view l) ch Hch q b) as (l1 & p & l2 & Hl); [by rewrite zlen_view|by exists (viewSlot s); rewrite view_lookup, Hs|done|].
    destruct (Hch q) as [Hhd Hnd Hseg Hm]; [by rewrite zlen_view|]. pose proof (chain_length l ch q Ht Hch Hq) as Hlen. rewrite Hl in Hhd, Hnd, Hseg, Hm, Hlen.
    assert (Hp : is_Some (l !! p)). { destruct (seg_lookup _ _ _ p Hseg ltac:(set_solver)) as [x Hx]. rewrite view_lookup in Hx. destruct (l !! p); [by eauto|done]. }
    destruct Hp as [sp Hp]. rewrite length_app in Hlen. simpl in Hlen.
    rewrite (findPrev_run e f l p b l2 l1) by (simpl; rewrite ?length_fmap; first [done | lia | destruct Hhd as [?|Hhd]; destruct l1; simpl in *; congruence]). cbn [mbind outcome_bind].
    eapply returns_bind; [exact Hfs|]. intros [m t] (-> & y & Hy & Hfree). rewrite (setInfo_mk _ _ _ _ _ _ Hp). cbn [mbind outcome_bind].
    pose proof (lookupZ_Some_lt _ _ _ Hy). pose proof (lookupZ_Some_lt _ _ _ Hp).
    assert (t ≠ b) by (intros ->; congruence). assert (p ≠ b) by (apply NoDup_app in Hnd as (_ & _ & [? _]%NoDup_cons); set_solver).
    assert (t ≠ p). { intros ->. assert (p ∈ l1 ++ p :: b :: l2) as (x & Hx & Hst & _)%Hm by set_solver. rewrite view_lookup, Hy in Hx. by simplify_eq/=. }
    rewrite (getInfo_mk _ _ _ b s) by (by rewrite lookupZ_insert_ne). cbn [mbind outcome_bind].
    rewrite (setInfo_mk _ _ _ t y) by (by rewrite lookupZ_insert_ne). cbn [mbind outcome_bind].
    rewrite (getKey_mk _ _ _ b s) by (by rewrite !lookupZ_insert_ne). cbn [mbind outcome_bind].
    erewrite setKey_mk by (by rewrite lookupZ_insert_eq by (by rewrite zlen_insert)). cbn [mbind outcome_bind sinfo skey sval]. rewrite list_insertZ_insert.
    rewrite (getVal_mk _ _ _ b s) by (by rewrite !lookupZ_insert_ne). cbn [mbind outcome_bind].
    erewrite setVal_mk by (by rewrite lookupZ_insert_eq by (by rewrite zlen_insert)). cbn [mbind outcome_bind sinfo skey sval]. rewrite list_insertZ_insert.
    erewrite (setInfo_mk _ _ _ b s) by (by rewrite !lookupZ_insert_ne). cbn.
    eexists t, _. split_and!; [reflexivity|lia|lia|]. destruct s as [si sk sv]. by eapply (roomy_move e f l ch h b q l1 p l2 (mkSlot si sk sv) sp t y).
Qed.

(** [put] into a table with room. *)
Lemma insertNode_run e f l ch k v : wf e f l ch → e < zlen l →
  returns (insertNode unused (mk e f l) k v) (λ m, ∃ f' l' ch', m = mk (e + 1) f' l' ∧ wf (e + 1) f' l' ch' ∧ zlen l' = zlen l ∧
    nodes l' ≡ₚ (k, v) :: nodes l).
Proof.
  intros Hw He. pose proof Hw as [Ht Hch Hf Hel Hc]. pose proof (table_slots l Ht). unfold insertNode. destruct (primary_mk e f l (fd k) Ht) as [-> Hq]. set (b := bucket _ _) in *.
  destruct (lookupZ_lt_Some _ _ Hq) as [s Hs]. rewrite (getInfo_mk _ _ _ _ _ Hs). cbn [mbind outcome_bind].
  eapply (returns_bind _ _ (λ '(m, st, into), ∃ f' l', m = mk e f' l' ∧ 0 ≤ f' < zlen l ∧ roomy l (fd k) st into l')).
  { destruct (Z.eqb_spec (sinfo s) free) as [E|E]; simpl.
    - exists f, l. split_and!; [done|lia|lia|]. by eapply roomy_free.
    - eapply makeRoom_run; eauto. lia. }
  intros [[m st] into] (f' & l' & -> & Hf' & Hz & Hp & Hst & (y & Hy & Hfree) & (ch' & Hch') & Hcl). rewrite (getInfo_mk _ _ _ _ _ Hy). cbn [mbind outcome_bind].
  pose proof (lookupZ_Some_lt _ _ _ Hy). apply returns_assert; [by apply Z.eqb_eq|].
  rewrite (setInfo_mk _ _ _ _ _ _ Hy). cbn [mbind outcome_bind].
  erewrite setKey_mk by (by apply lookupZ_insert_eq). cbn [mbind outcome_bind sinfo skey sval]. rewrite list_insertZ_insert.
  erewrite setVal_mk by (by apply lookupZ_insert_eq). cbn [mbind outcome_bind sinfo skey sval returns]. rewrite list_insertZ_insert.
  set (l2 := <[into := mkSlot st k v]> l').
  assert (P : nodes l2 ≡ₚ (k, v) :: nodes l).
  { pose proof (nodes_insert l' into y (mkSlot st k v) Hy) as P. rewrite (node_free y), node_used in P by done. simpl in P. fold l2 in P. by rewrite P, Hp. }
  exists f', l2, ch'. unfold l2 in *. split_and!; [|split|by rewrite zlen_insert|done].
  - unfold set_elems, mk. simpl. rewrite u32_small; [done|]. pose proof (zlen_nonneg (nodes l)). unfold is_u32. lia.
  - rewrite view_insert. destruct Ht as (n & ? & E). exists n. by rewrite zlen_insert, zlen_view, Hz, <- zlen_view.
  - by rewrite view_insert.
  - by rewrite zlen_insert, Hz.
  - by rewrite P, zlen_cons, Hel.
  - done.
Qed.

(** ** Chains *)

(** The slots of the list [c] that have the file descriptor [h]. *)
Definition matches l (h : Z) (c : list Z) : list Z := filter (λ i, (λ s, fd (skey s)) <$> l !! i = Some h) c.

Lemma seg_slot l (c : list Z) d i : seg (view l) c d → i ∈ c → ∃ s, l !! i = Some s.
Proof. intros Hs Hi. destruct (seg_lookup _ _ _ _ Hs Hi) as [x Hx]. rewrite view_lookup in Hx. destruct (l !! i); [by eauto|done]. Qed.

Lemma findFrom_run e f l h c : table (view l) → ∀ fuel, seg (view l) c end_ → (length c < fuel)%nat →
  findFrom unused fuel (mk e f l) h (default end_ (head c)) = Ret (default free (head (matches l h c))).
Proof.
  intros Ht. induction c as [|i c IH]; intros [|fuel] Hs Hf; simpl in Hf; try lia; [done|].
  destruct (seg_slot _ _ _ i Hs ltac:(set_solver)) as [s Hi]. pose proof (lookupZ_Some_lt _ _ _ Hi) as Hr.
  destruct (slot_code l i Ht Hr) as [_ He%Z.eqb_neq]. change (default end_ (head (i :: c))) with i. cbn [findFrom]. rewrite He, (getKey_mk e f _ _ _ Hi). cbn [mbind outcome_bind].
  unfold matches. rewrite filter_cons, Hi. cbn [fmap option_fmap option_map mbind outcome_bind]. destruct (Z.eqb_spec (fd (skey s)) h) as [E|E].
  - rewrite decide_True by congruence. done.
  - rewrite decide_False by congruence. rewrite (getInfo_mk e f _ _ _ Hi). cbn [mbind outcome_bind].
    rewrite (seg_status l c [] end_ i s Hs Hi). apply IH; [by destruct Hs|lia].
Qed.

Lemma matches_none l h c : (∀ i s, i ∈ c → l !! i = Some s → fd (skey s) ≠ h) → matches l h c = [].
Proof.
  intros H. unfold matches. induction c as [|i c IH]; [done|]. rewrite filter_cons, decide_False; [apply IH; intros; eapply H; [by right|done..]|].
  intros (s & Hs & Hh)%fmap_Some. by eapply (H i s); [left|done|].
Qed.

Lemma matches_split l h c : ∀ a i r, matches l h c = a ++ i :: r → ∃ c1 c2, c = c1 ++ i :: c2 ∧ matches l h c2 = r ∧ (λ s, fd (skey s)) <$> l !! i = Some h.
Proof.
  induction c as [|j c IH]; intros a i r; unfold matches; [by destruct a|]. rewrite filter_cons. case_decide as Hj.
  - destruct a as [|x a]; intros [= -> E]; [by exists [], c|].
    destruct (IH a i r E) as (c1 & c2 & -> & ? & ?). by exists (x :: c1), c2.
  - intros E. destruct (IH a i r E) as (c1 & c2 & -> & ? & ?). by exists (j :: c1), c2.
Qed.

Lemma seg_mid l (a c : list Z) p d : seg (view l) (a ++ p :: c) d → ∃ s, l !! p = Some s.
Proof. intros Hs. apply (seg_slot l _ _ p Hs), elem_of_app. right. left. Qed.

(** [find] and [next] go through the elements with a file descriptor. *)
Lemma find_next_run e f l ch h : wf e f l ch →
  let r := matches l h (ch (bucket (zlen (view l)) (hash h))) in
  NoDup r ∧ (∀ i, i ∈ r ↔ ∃ s, l !! i = Some s ∧ sinfo s ≠ free ∧ fd (skey s) = h) ∧
  find unused (mk e f l) h = Ret (default free (head r)) ∧
  (∀ a i r', r = a ++ i :: r' → next unused (mk e f l) i = Ret (default free (head r'))).
Proof.
  intros [Ht Hch Hf He Hc] r. destruct (primary_mk e f l h Ht) as [Hb Hr]. set (b := bucket _ _) in *.
  pose proof (table_slots l Ht) as Hts. pose proof (chain_length l ch b Ht Hch Hr) as Hlen. rewrite <- zlen_view in Hr. pose proof (Hch b Hr) as [Hhd Hnd Hseg Hm].
  split_and!.
  - by apply NoDup_filter.
  - intros i. unfold r, matches. rewrite list_elem_of_filter, Hm. unfold used. setoid_rewrite view_lookup. unfold viewSlot. split.
    + intros [Hi (x & Hx & Hs & _)]. destruct (l !! i) as [s|]; [|done]. simplify_eq/=. by exists s.
    + intros (s & -> & Hs & Hh). split; [by rewrite <- Hh|]. eexists. split; [done|]. simpl. split; [done|]. by rewrite Hh.
  - unfold find. change (capacity (mk e f l)) with (zlen l). change (length (info (mk e f l))) with (length (sinfo <$> l)). rewrite length_fmap. destruct (Z.eqb_spec (zlen l) 0); [lia|]. rewrite Hb. rewrite zlen_view in Hr. destruct (lookupZ_lt_Some _ _ Hr) as [s Hs].
    rewrite (aget_Some _ b (sinfo s)) by (simpl; by rewrite lookupZ_fmap, Hs). cbn [mbind outcome_bind].
    destruct (Z.eqb_spec (sinfo s) free) as [E|E].
    + assert (Hnil : ch b = []). { apply (chain_primary_unused (view l) ch Hch); [by rewrite zlen_view|]. eapply unused_slot; [by rewrite view_lookup, Hs|done]. }
      unfold r. by rewrite Hnil.
    + assert (Hu : used (view l) b (bucket (zlen (view l)) (hash (fd (skey s))))) by (by exists (viewSlot s); rewrite view_lookup, Hs).
      destruct (primary_mk e f l (fd (skey s)) Ht) as [_ Hq]. set (q := bucket _ (hash (fd (skey s)))) in *.
      pose proof (chain_length l ch q Ht Hch Hq) as Hlq. rewrite <- zlen_view in Hq. destruct (Hch q Hq) as [Hhq Hnq Hsq Hmq].
      destruct (list_elem_of_split _ _ (proj2 (Hmq b) Hu)) as (c1 & c2 & Eq). rewrite Eq in Hsq, Hlq. rewrite length_app in Hlq. simpl in Hlq.
      apply seg_app in Hsq as [_ Hsq]. pose proof (findFrom_run e f l h (b :: c2) Ht (S (length l)) Hsq ltac:(simpl; lia)) as Ef.
      change (default end_ (head (b :: c2))) with b in Ef. rewrite Ef. clear Ef. f_equal. destruct (decide (q = b)) as [Eb|Eb].
      * unfold r. rewrite <- Eb. destruct c1 as [|z c1]; [by rewrite Eq, Eb|]. exfalso. rewrite Eq in Hhq, Hnq. destruct Hhq as [Hhq|Hhq]; [done|].
        injection Hhq as Hzq. apply NoDup_cons in Hnq as [Hz _]. apply Hz. rewrite Hzq, Eb. apply elem_of_app. right. left.
      * unfold r. assert (ch b = []) as ->.
        { apply (chain_primary_unused (view l) ch Hch); [by rewrite zlen_view|]. intros Hub. by eapply Eb, used_fun. }
        rewrite (matches_none l h (b :: c2)); [done|]. intros i si Hi Hsi Hh. assert (i ∈ ch q) as (x & Hx & _ & Hxq)%Hmq by (rewrite Eq; apply elem_of_app; right; exact Hi).
        rewrite view_lookup, Hsi in Hx. injection Hx as <-. apply Eb. rewrite <- Hxq. simpl. by rewrite Hh.
  - intros a i r' Hr'. apply matches_split in Hr' as (c1 & c2 & Ec & <- & Hi). destruct (l !! i) as [s|] eqn:Hs; [|done]. injection Hi as Hi.
    rewrite Ec in Hseg, Hlen. rewrite length_app in Hlen. simpl in Hlen.
    unfold next. rewrite (getKey_mk e f _ _ _ Hs). cbn [mbind outcome_bind]. rewrite (getInfo_mk e f _ _ _ Hs). cbn [mbind outcome_bind].
    rewrite Hi, (seg_status l c2 c1 end_ i s Hseg Hs). change (length (info (mk e f l))) with (length (sinfo <$> l)). rewrite length_fmap. apply findFrom_run; [done| |lia].
    apply seg_app in Hseg as [_ [_ Hseg]]. done.
Qed.

(** ** Removal *)

(** What [remove] leaves in a slot. *)
Definition freed s : slot T := mkSlot free (mkPollfd (-1) (events (skey s)) (revents (skey s))) None.

Lemma clean_insert l (i : Z) s : Forall clean l → clean s → Forall clean (<[i := s]> l).
Proof.
  intros Hl Hs. rewrite Forall_forall in *. intros x [j Hj]%list_elem_of_lookupZ. pose proof (lookupZ_Some_lt _ _ _ Hj) as Hr. rewrite zlen_insert in Hr.
  destruct (decide (i = j)) as [->|Hne]; [rewrite lookupZ_insert_eq in Hj by done; by simplify_eq|].
  rewrite lookupZ_insert_ne in Hj by done. apply Hl, list_elem_of_lookupZ. eauto.
Qed.
Lemma clean_freed s : clean (freed s).
Proof. done. Qed.
Lemma clean_lookup l (i : Z) s : Forall clean l → l !! i = Some s → clean s.
Proof. rewrite Forall_forall. intros Hl Hs. apply Hl, list_elem_of_lookupZ. eauto. Qed.

(** The element of slot [i] is taken out. *)
Definition without l (i : Z) s l' : Prop :=
  zlen l' = zlen l ∧ (∃ ch, chains (view l') ch) ∧ nodes l ≡ₚ (skey s, sval s) :: nodes l' ∧ Forall clean l'.

Lemma used_in_chain l ch q (i : Z) s : chains (view l) ch → 0 ≤ q < zlen l → l !! i = Some s → i ∈ ch q → sinfo s ≠ free.
Proof.
  intros Hch Hq Hs Hi. rewrite <- zlen_view in Hq. destruct (Hch q Hq) as [_ _ _ Hm]. apply Hm in Hi as (x & Hx & Hst & _).
  rewrite view_lookup, Hs in Hx. by injection Hx as <-.
Qed.

Lemma freed_view s : viewSlot (freed s) = MapBase.mkInfo MapBase.free (hash (-1)).
Proof. done. Qed.

(** After a predecessor [p] in the chain. *)
Lemma without_inner l ch q (a c : list Z) p i s sp : table (view l) → chains (view l) ch → Forall clean l → 0 ≤ q < zlen l → ch q = a ++ p :: i :: c →
  l !! i = Some s → l !! p = Some sp → without l i s (<[i := freed s]> (<[p := mkSlot (sinfo s) (skey sp) (sval sp)]> l)).
Proof.
  intros Ht Hch Hcl Hq Hl Hs Hp. pose proof (lookupZ_Some_lt _ _ _ Hs). pose proof (lookupZ_Some_lt _ _ _ Hp).
  assert (Hus : sinfo s ≠ free) by (eapply (used_in_chain l ch q i); [done..|rewrite Hl; apply elem_of_app; right; right; left]).
  assert (Hup : sinfo sp ≠ free) by (eapply (used_in_chain l ch q p); [done..|rewrite Hl; apply elem_of_app; right; left]).
  assert (p ≠ i). { destruct (Hch q) as [_ Hnd _ _]; [by rewrite zlen_view|]. rewrite Hl in Hnd. apply NoDup_app in Hnd as (_ & _ & [Hn _]%NoDup_cons). intros ->. apply Hn. left. }
  assert (Hs' : <[p := mkSlot (sinfo s) (skey sp) (sval sp)]> l !! i = Some s) by (by rewrite lookupZ_insert_ne).
  unfold without. split_and!; [by rewrite !zlen_insert| | |].
  - exists (upd ch q (a ++ p :: c)). rewrite view_insert, freed_view.
    rewrite <- (list_insertZ_insert (view (<[p := mkSlot (sinfo s) (skey sp) (sval sp)]> l)) i _ (MapBase.mkInfo MapBase.free (hash (fd (skey s))))).
    eapply (chains_free_hash _ _ i); [|apply lookupZ_insert_eq; by rewrite zlen_view, zlen_insert|done]. rewrite view_insert.
    apply (chains_unlink (view l) ch q a p c i (viewSlot s) (viewSlot sp)); rewrite ?zlen_view, ?view_lookup, ?Hs, ?Hp; done.
  - pose proof (nodes_insert l p sp (mkSlot (sinfo s) (skey sp) (sval sp)) Hp) as P1. pose proof (nodes_insert _ i s (freed s) Hs') as P2.
    rewrite !node_used in P1 by done. rewrite (node_used s), node_free in P2 by done. simpl in P1, P2. apply Permutation_cons_inv in P1. by rewrite P2, P1.
  - apply clean_insert; [apply clean_insert; [done|]|done]. done.
Qed.

(** The only element of a chain. *)
Lemma without_single l ch q s : table (view l) → chains (view l) ch → Forall clean l → ch q = [q] → l !! q = Some s → without l q s (<[q := freed s]> l).
Proof.
  intros Ht Hch Hcl Hl Hs. pose proof (lookupZ_Some_lt _ _ _ Hs) as Hq.
  assert (Hus : sinfo s ≠ free) by (eapply (used_in_chain l ch q q); [done..|rewrite Hl; left]).
  unfold without. split_and!; [by rewrite !zlen_insert| | |by apply clean_insert].
  - exists (upd ch q []). rewrite view_insert, freed_view, <- (list_insertZ_insert (view l) q _ (MapBase.mkInfo MapBase.free (hash (fd (skey s))))).
    eapply (chains_free_hash _ _ q); [|apply lookupZ_insert_eq; by rewrite zlen_view|done].
    apply (chains_single (view l) ch q (viewSlot s)); [done|by rewrite view_lookup, Hs|done].
  - pose proof (nodes_insert l q s (freed s) Hs) as P. rewrite node_used, node_free in P by done. done.
Qed.

(** The first element of a longer chain: the second one takes its slot. *)
Lemma without_head l ch q n (c : list Z) s sn : table (view l) → chains (view l) ch → Forall clean l → ch q = q :: n :: c → l !! q = Some s → l !! n = Some sn →
  without l q s (<[n := freed sn]> (<[q := sn]> l)).
Proof.
  intros Ht Hch Hcl Hl Hs Hn. pose proof (lookupZ_Some_lt _ _ _ Hs) as Hq. pose proof (lookupZ_Some_lt _ _ _ Hn).
  assert (Hus : sinfo s ≠ free) by (eapply (used_in_chain l ch q q); [done..|rewrite Hl; left]).
  assert (Hun : sinfo sn ≠ free) by (eapply (used_in_chain l ch q n); [done..|rewrite Hl; right; left]).
  assert (q ≠ n). { destruct (Hch q) as [_ Hnd _ _]; [by rewrite zlen_view|]. rewrite Hl in Hnd. apply NoDup_cons in Hnd as [Hx _]. intros ->. apply Hx. left. }
  assert (Hn' : <[q := sn]> l !! n = Some sn) by (by rewrite lookupZ_insert_ne).
  unfold without. split_and!; [by rewrite !zlen_insert| | |].
  - exists (upd ch q (q :: c)). rewrite view_insert, freed_view, <- (list_insertZ_insert (view (<[q := sn]> l)) n _ (MapBase.mkInfo MapBase.free (hash (fd (skey sn))))).
    eapply (chains_free_hash _ _ n); [|apply lookupZ_insert_eq; by rewrite zlen_view, zlen_insert|done]. rewrite view_insert.
    apply (chains_replace_head (view l) ch q n c (viewSlot s) (viewSlot sn)); rewrite ?view_lookup, ?Hs, ?Hn; done.
  - pose proof (nodes_insert l q s sn Hs) as P1. pose proof (nodes_insert _ n sn (freed sn) Hn') as P2.
    rewrite !node_used in P1 by done. rewrite (node_used sn), node_free in P2 by done. simpl in P1, P2.
    rewrite <- P2 in P1. apply (Permutation_cons_inv (a := (skey sn, sval sn))). etransitivity; [symmetry; exact P1|apply perm_swap].
  - apply clean_insert; [|done]. apply clean_insert; [done|]. by eapply clean_lookup.
Qed.

Lemma removeAt_inner e f l ch q (a c : list Z) p i s : wf e f l ch → 0 ≤ q < zlen l → ch q = a ++ p :: i :: c → l !! i = Some s →
  ∃ l', removeAt unused fresh (mk e f l) p i = shrink unused fresh (mk (u32 (e - 1)) f l') ∧ without l i s l'.
Proof.
  intros [Ht Hch Hf He Hc] Hq Hl Hs. destruct (Hch q) as [_ _ Hseg _]; [by rewrite zlen_view|]. rewrite Hl in Hseg.
  destruct (seg_mid _ _ _ _ _ Hseg) as [sp Hp]. pose proof (lookupZ_Some_lt _ _ _ Hs). pose proof (lookupZ_Some_lt _ _ _ Hp) as Hrp.
  exists (<[i := freed s]> (<[p := mkSlot (sinfo s) (skey sp) (sval sp)]> l)). split; [|by apply (without_inner l ch q a c)].
  assert (p ≠ i). { destruct (Hch q) as [_ Hnd _ _]; [by rewrite zlen_view|]. rewrite Hl in Hnd. apply NoDup_app in Hnd as (_ & _ & [Hn _]%NoDup_cons). intros ->. apply Hn. left. }
  destruct (slot_code l p Ht Hrp) as [Hpf%Z.eqb_neq _]. unfold removeAt. rewrite Hpf. cbn [negb andb]. rewrite (getInfo_mk e f _ _ _ Hs). cbn [mbind outcome_bind].
  rewrite (setInfo_mk e f _ _ _ _ Hp). cbn [mbind outcome_bind].
  rewrite (getInfo_mk e f _ i s) by (by rewrite lookupZ_insert_ne). cbn [mbind outcome_bind].
  rewrite (setInfo_mk e f _ i s) by (by rewrite lookupZ_insert_ne). cbn [mbind outcome_bind].
  erewrite setFd_mk by (apply lookupZ_insert_eq; by rewrite zlen_insert). cbn [mbind outcome_bind sinfo skey sval]. rewrite list_insertZ_insert.
  erewrite setVal_mk by (apply lookupZ_insert_eq; by rewrite zlen_insert). cbn [mbind outcome_bind sinfo skey sval]. by rewrite list_insertZ_insert.
Qed.

Lemma removeAt_first e f l ch q (c : list Z) s : wf e f l ch → ch q = q :: c → l !! q = Some s →
  ∃ l', removeAt unused fresh (mk e f l) free q = shrink unused fresh (mk (u32 (e - 1)) f l') ∧ without l q s l'.
Proof.
  intros [Ht Hch Hf He Hc] Hl Hs. pose proof (lookupZ_Some_lt _ _ _ Hs) as Hq. destruct (Hch q) as [_ Hnd Hseg _]; [by rewrite zlen_view|]. rewrite Hl in Hseg, Hnd.
  pose proof (seg_status l c [] end_ q s Hseg Hs) as Est. unfold removeAt. rewrite Z.eqb_refl. cbn [negb andb mbind outcome_bind].
  rewrite (getInfo_mk e f _ _ _ Hs). cbn [mbind outcome_bind]. rewrite (setInfo_mk e f _ _ _ _ Hs). cbn [mbind outcome_bind].
  erewrite setFd_mk by (by apply lookupZ_insert_eq). cbn [mbind outcome_bind sinfo skey sval]. rewrite list_insertZ_insert.
  erewrite setVal_mk by (by apply lookupZ_insert_eq). cbn [mbind outcome_bind sinfo skey sval]. rewrite list_insertZ_insert.
  destruct c as [|n c].
  - simpl in Est. rewrite Est, Z.eqb_refl. cbn [negb]. exists (<[q := freed s]> l). split; [done|]. by apply (without_single l ch).
  - change (default end_ (head (n :: c))) with n in Est. rewrite Est. destruct (seg_mid l [q] c n _ Hseg) as [sn Hn].
    pose proof (lookupZ_Some_lt _ _ _ Hn) as Hrn. destruct (slot_code l n Ht Hrn) as [_ Hne%Z.eqb_neq]. rewrite Hne. cbn [negb].
    assert (q ≠ n). { apply NoDup_cons in Hnd as [Hx _]. intros ->. apply Hx. left. }
    exists (<[n := freed sn]> (<[q := sn]> l)). split; [|by apply (without_head l ch q n c s)].
    rewrite (getInfo_mk e f _ n sn) by (by rewrite lookupZ_insert_ne). cbn [mbind outcome_bind].
    erewrite setInfo_mk by (by apply lookupZ_insert_eq). cbn [mbind outcome_bind sinfo skey sval]. rewrite list_insertZ_insert.
    rewrite (setInfo_mk e f _ n sn) by (by rewrite lookupZ_insert_ne). cbn [mbind outcome_bind].
    erewrite getKey_mk by (apply lookupZ_insert_eq; by rewrite zlen_insert). cbn [mbind outcome_bind skey].
    erewrite setKey_mk by (rewrite lookupZ_insert_ne by done; by apply lookupZ_insert_eq). cbn [mbind outcome_bind sinfo sval].
    rewrite (list_insertZ_commute _ q n), list_insertZ_insert by done.
    erewrite setFd_mk by (apply lookupZ_insert_eq; by rewrite zlen_insert). cbn [mbind outcome_bind sinfo skey sval]. rewrite list_insertZ_insert.
    erewrite getVal_mk by (apply lookupZ_insert_eq; by rewrite zlen_insert). cbn [mbind outcome_bind sval].
    erewrite setVal_mk by (rewrite lookupZ_insert_ne by done; by apply lookupZ_insert_eq). cbn [mbind outcome_bind sinfo skey].
    rewrite (list_insertZ_commute _ q n), list_insertZ_insert by done.
    erewrite setVal_mk by (apply lookupZ_insert_eq; by rewrite zlen_insert). cbn [mbind outcome_bind sinfo skey sval]. rewrite list_insertZ_insert.
    by destruct sn.
Qed.

(** The loop of [remove] along the chain [a ++ i :: c], with the predecessor of its head. *)
Lemma removeLoop_run e f l i (c : list Z) d (a : list Z) : table (view l) → ∀ fuel prev, seg (view l) (a ++ i :: c) d → NoDup (a ++ i :: c) → (length a < fuel)%nat →
  removeLoop unused fresh fuel (mk e f l) i prev (default i (head a)) = removeAt unused fresh (mk e f l) (default prev (last a)) i.
Proof.
  intros Ht. induction a as [|x a IH]; intros [|fuel] prev Hs Hnd Hf; simpl in Hf; try lia.
  - cbn [removeLoop]. change (default i (head [])) with i. by rewrite Z.eqb_refl.
  - destruct (seg_mid l [] _ x _ Hs) as [s Hx]. simpl in Hnd. apply NoDup_cons in Hnd as [Hxn Hnd].
    assert (x ≠ i) as Hxi%Z.eqb_neq by (intros ->; apply Hxn, elem_of_app; right; left).
    change (default i (head (x :: a))) with x. cbn [removeLoop]. rewrite Hxi, (getInfo_mk e f _ _ _ Hx). cbn [mbind outcome_bind].
    rewrite (seg_status l (a ++ i :: c) [] d x s Hs Hx). assert (default d (head (a ++ i :: c)) = default i (head a)) as -> by (by destruct a).
    destruct Hs as [_ Hs]. assert (∃ y, default i (head a) = y ∧ y ∈ a ++ i :: c) as (y & Ey & Hy).
    { destruct a as [|y a]; [exists i; split; [done|left]|exists y; split; [done|left]]. }
    destruct (seg_slot _ _ _ y Hs Hy) as [sy Hsy]. destruct (slot_code l y Ht (lookupZ_Some_lt _ _ _ Hsy)) as [_ He%Z.eqb_neq].
    rewrite Ey, He, <- Ey. rewrite IH by (done || lia). destruct a as [|z a]; [done|]. rewrite last_cons_cons. destruct (last (z :: a)) eqn:El; [done|]. by apply last_None in El.
Qed.

(** The first steps of [remove]. *)
Lemma remove_start e f l i s : table (view l) → l !! i = Some s → let q := bucket (zlen (view l)) (hash (fd (skey s))) in
  ∃ sq, l !! q = Some sq ∧
    remove unused fresh (mk e f l) i = (if sinfo sq =? free then Ret (mk e f l) else removeLoop unused fresh (length l) (mk e f l) i free q).
Proof.
  intros Ht Hs q. destruct (primary_mk e f l (fd (skey s)) Ht) as [Hb Hq]. fold q in Hb, Hq. destruct (lookupZ_lt_Some _ _ Hq) as [sq Hsq].
  exists sq. split; [done|]. unfold remove. rewrite (getKey_mk e f _ _ _ Hs), bind_Ret, Hb, (getInfo_mk e f _ _ _ Hsq), bind_Ret.
  assert (El : length (info (mk e f l)) = length l) by apply length_fmap. by rewrite El.
Qed.

(** [remove] of a slot in use, up to the call of [shrink]. *)
Lemma remove_used e f l ch i s : wf e f l ch → l !! i = Some s → sinfo s ≠ free →
  ∃ l', remove unused fresh (mk e f l) i = shrink unused fresh (mk (u32 (e - 1)) f l') ∧ without l i s l'.
Proof.
  intros Hw Hs Hu. pose proof Hw as [Ht Hch Hf He Hc]. destruct (primary_mk e f l (fd (skey s)) Ht) as [_ Hq].
  destruct (remove_start e f l i s Ht Hs) as (sq & Hsq & ->). set (q := bucket _ _) in *.
  pose proof (chain_length l ch q Ht Hch Hq) as Hlen. destruct (Hch q) as [Hhd Hnd Hseg Hm]; [by rewrite zlen_view|].
  assert (i ∈ ch q) as Hi by (apply Hm; exists (viewSlot s); rewrite view_lookup, Hs; done).
  destruct (list_elem_of_split _ _ Hi) as (a & c & Ec). destruct Hhd as [Hhd|Hhd]; [by rewrite Hhd in Hi; apply elem_of_nil in Hi|].
  rewrite Ec in Hhd, Hnd, Hseg, Hlen. rewrite length_app in Hlen. simpl in Hlen.
  assert (Eq : default i (head a) = q) by (destruct a; simpl in *; congruence).
  assert (q ∈ ch q) as Hqq by (rewrite Ec, <- Eq; destruct a; left).
  pose proof (used_in_chain l ch q q sq Hch Hq Hsq Hqq) as Hsf%Z.eqb_neq. rewrite Hsf. clearbody q.
  pose proof (removeLoop_run e f l i c MapBase.end_ a Ht (length l) free Hseg Hnd ltac:(lia)) as Hrun. rewrite Eq in Hrun. rewrite Hrun. clear Hrun.
  destruct a as [|p a _] using rev_ind.
  - change (i = q) in Eq. subst q. exact (removeAt_first e f l ch i c s Hw Ec Hs).
  - rewrite last_snoc. rewrite <- app_assoc in Ec. exact (removeAt_inner e f l ch q a c p i s Hw Hq Ec Hs).
Qed.

Lemma removeLoop_none e f l i : table (view l) → ∀ (c : list Z) x fuel prev, seg (view l) (x :: c) end_ → i ∉ x :: c → (length c < fuel)%nat →
  removeLoop unused fresh fuel (mk e f l) i prev x = Ret (mk e f l).
Proof.
  intros Ht c. induction c as [|y c IH]; intros x [|fuel] prev Hs Hi Hf; simpl in Hf; try lia.
  - destruct (seg_mid l [] _ x _ Hs) as [s Hx]. apply not_elem_of_cons in Hi as [Hxi%not_eq_sym%Z.eqb_neq _]. cbn [removeLoop].
    rewrite Hxi, (getInfo_mk e f _ _ _ Hx). cbn [mbind outcome_bind]. rewrite (seg_status l [] [] end_ x s Hs Hx). change (default end_ (head [])) with end_. by rewrite Z.eqb_refl.
  - destruct (seg_mid l [] _ x _ Hs) as [s Hx]. pose proof (seg_mid l [x] c y _ Hs) as [sy Hy]. apply not_elem_of_cons in Hi as [Hxi%not_eq_sym%Z.eqb_neq Hi].
    cbn [removeLoop]. rewrite Hxi, (getInfo_mk e f _ _ _ Hx). cbn [mbind outcome_bind]. rewrite (seg_status l (y :: c) [] end_ x s Hs Hx).
    change (default end_ (head (y :: c))) with y. destruct (slot_code l y Ht (lookupZ_Some_lt _ _ _ Hy)) as [_ He%Z.eqb_neq]. rewrite He.
    apply IH; [by destruct Hs|done|lia].
Qed.

(** [remove] of a free slot does nothing. *)
Lemma remove_free e f l ch i s : wf e f l ch → l !! i = Some s → sinfo s = free → remove unused fresh (mk e f l) i = Ret (mk e f l).
Proof.
  intros [Ht Hch Hf He Hc] Hs Hfree. destruct (primary_mk e f l (fd (skey s)) Ht) as [_ Hq].
  destruct (remove_start e f l i s Ht Hs) as (sq & Hsq & ->). set (q := bucket _ _) in *. destruct (Z.eqb_spec (sinfo sq) free) as [E|E]; [done|].
  destruct (primary_mk e f l (fd (skey sq)) Ht) as [_ Hp]. set (p := bucket _ (hash (fd (skey sq)))) in *.
  pose proof (chain_length l ch p Ht Hch Hp) as Hlen. destruct (Hch p) as [_ _ Hseg Hm]; [by rewrite zlen_view|].
  assert (q ∈ ch p) as Hin by (apply Hm; exists (viewSlot sq); rewrite view_lookup, Hsq; done).
  destruct (list_elem_of_split _ _ Hin) as (a & c & Ec). rewrite Ec in Hseg, Hlen. rewrite length_app in Hlen. simpl in Hlen.
  apply seg_app in Hseg as [_ Hseg]. apply (removeLoop_none e f l i Ht c); [done| |lia].
  intros Hi. apply (used_in_chain l ch p i s Hch Hp Hs); [|done]. rewrite Ec. apply elem_of_app. by right.
Qed.

(** ** Verification *)

Lemma verifyChain_run e f l i (c a : list Z) : table (view l) → ∀ fuel, seg (view l) (a ++ i :: c) end_ → (length a < fuel)%nat →
  verifyChain fuel (mk e f l) (default i (head a)) i = Ret true.
Proof.
  intros Ht. induction a as [|x a IH]; intros [|fuel] Hs Hf; simpl in Hf; try lia.
  - cbn [verifyChain]. change (default i (head [])) with i. by rewrite Z.eqb_refl.
  - change (default i (head (x :: a))) with x. cbn [verifyChain]. destruct (Z.eqb_spec x i); [done|].
    destruct (seg_mid l [] _ x _ Hs) as [s Hx]. rewrite (getInfo_mk e f _ _ _ Hx). cbn [mbind outcome_bind].
    rewrite (seg_status l (a ++ i :: c) [] end_ x s Hs Hx). assert (default end_ (head (a ++ i :: c)) = default i (head a)) as -> by (by destruct a).
    destruct Hs as [_ Hs]. assert (∃ y, default i (head a) = y ∧ y ∈ a ++ i :: c) as (y & Ey & Hy).
    { destruct a as [|y a]; [exists i; split; [done|left]|exists y; split; [done|left]]. }
    destruct (seg_slot _ _ _ y Hs Hy) as [sy Hsy]. pose proof (lookupZ_Some_lt _ _ _ Hsy).
    change (capacity (mk e f l)) with (zlen l). rewrite Ey. destruct (Z.leb_spec (zlen l) y); [lia|]. rewrite <- Ey. apply IH; [done|lia].
Qed.

Lemma dbg_verify_run e f l ch : wf e f l ch → dbg_verify unused (mk e f l) = Ret true.
Proof.
  intros [Ht Hch Hf He Hc]. pose proof (table_slots l Ht). unfold dbg_verify. change (capacity (mk e f l)) with (zlen l).
  destruct (Z.eqb_spec (zlen l) 0); [lia|]. assert (Hz : Z.of_nat (Z.to_nat (zlen l)) = zlen l) by lia.
  assert (Hchain : ∀ i s, l !! i = Some s → sinfo s ≠ free → let q := bucket (zlen (view l)) (hash (fd (skey s))) in
    0 ≤ q < zlen l ∧ ∃ a c, ch q = a ++ i :: c ∧ seg (view l) (a ++ i :: c) end_ ∧ default i (head a) = q ∧ (length a < length l)%nat).
  { intros i s Hs Hu q. destruct (primary_mk e f l (fd (skey s)) Ht) as [_ Hq]. fold q in Hq. split; [done|].
    pose proof (chain_length l ch q Ht Hch Hq) as Hlen. destruct (Hch q) as [Hhd _ Hseg Hm]; [by rewrite zlen_view|].
    assert (i ∈ ch q) as Hi by (apply Hm; exists (viewSlot s); rewrite view_lookup, Hs; done).
    destruct (list_elem_of_split _ _ Hi) as (a & c & Ec). exists a, c. rewrite Ec in Hhd, Hseg, Hlen. rewrite length_app in Hlen. simpl in Hlen.
    split_and!; [done|done| |lia]. destruct Hhd as [Hhd|Hhd]; destruct a; simpl in *; congruence. }
  for_inv (λ (_ : Z) (ok : bool), ok = true) r Hr; [done| |].
  { intros i ok Hi ->. rewrite Hz in Hi. destruct (lookupZ_lt_Some l i) as [s Hs]; [lia|]. rewrite (getInfo_mk e f _ _ _ Hs). cbn [mbind outcome_bind returns].
    destruct (Z.leb_spec (zlen l) (sinfo s)); [|done]. destruct (Z.eqb_spec (sinfo s) free) as [E|E]; [done|]. destruct (Z.eqb_spec (sinfo s) end_) as [E'|E']; [done|]. exfalso.
    destruct (Hchain i s Hs E) as (_ & a & c & _ & Hseg & _). rewrite (seg_status l c a end_ i s Hseg Hs) in *.
    destruct c as [|y c]; [done|]. simpl in *. change (a ++ i :: y :: c) with (a ++ [i] ++ y :: c) in Hseg. rewrite app_assoc in Hseg.
    destruct (seg_mid l _ c y _ Hseg) as [sy Hy]. pose proof (lookupZ_Some_lt _ _ _ Hy). lia. }
  rewrite Hr. for_inv (λ (_ : Z) (ok : bool), ok = true) r' Hr'; [done| |by rewrite Hr'].
  intros i ok Hi ->. rewrite Hz in Hi. destruct (lookupZ_lt_Some l i) as [s Hs]; [lia|]. rewrite (getInfo_mk e f _ _ _ Hs). cbn [mbind outcome_bind].
  destruct (Z.eqb_spec (sinfo s) free) as [E|E]; [done|]. rewrite (getKey_mk e f _ _ _ Hs). cbn [mbind outcome_bind].
  destruct (primary_mk e f l (fd (skey s)) Ht) as [-> _]. destruct (Hchain i s Hs E) as (_ & a & c & _ & Hseg & <- & Hl).
  change (length (info (mk e f l))) with (length (sinfo <$> l)). rewrite length_fmap. by rewrite (verifyChain_run e f l i c a Ht (length l) Hseg Hl).
Qed.
End table.

(** ** Tables that grow and shrink *)

Section tables.
Context {T : Type} (unused : Z) (fresh : pollfd) (Hunused : 0 ≤ unused).
Implicit Types (l : list (slot T)) (m : FdMap T).

(** The table [m] has the slots [l], none before the first [put]. *)
Definition isMap m l : Prop := ∃ pre e f, zlen pre = unused ∧ m = mk pre e f l ∧
  ((l = [] ∧ e = 0) ∨ ∃ ch, wf e f l ch).

Lemma new_isMap : isMap (new unused fresh) [].
Proof.
  exists (replicate (Z.to_nat unused) fresh), 0, 0. split_and!; [by rewrite zlen_replicate, Z2Nat.id| |by left].
  unfold new, mk. simpl. rewrite app_nil_r. by destruct (Z.eqb_spec unused 0) as [->|].
Qed.

(** Without a need to grow, [put] is [insertNode]. *)
Lemma putN_run pre d e f l ch k v : zlen pre = unused → wf e f l ch → e < zlen l →
  returns (putN unused fresh (S d) (mk pre e f l) k v) (λ m, ∃ f' l' ch', m = mk pre (e + 1) f' l' ∧ wf (e + 1) f' l' ch' ∧ zlen l' = zlen l ∧
    nodes l' ≡ₚ (k, v) :: nodes l).
Proof.
  intros <- Hw He. pose proof (table_slots l (wf_table _ _ _ _ Hw)). pose proof (insertNode_run pre e f l ch k v Hw He) as Hr.
  assert (Hg : grow (zlen pre) fresh (putN (zlen pre) fresh d) (mk pre e f l) = Ret (mk pre e f l)).
  { unfold grow. change (size (mk pre e f l)) with (zlen l). change (elems (mk pre e f l)) with e.
    destruct (Z.eqb_spec (zlen l) 0); [lia|]. destruct (Z.eqb_spec (zlen l) e); [lia|]. done. }
  cbn [putN]. by rewrite Hg, bind_Ret.
Qed.

Definition freshSlot : slot T := mkSlot free (mkPollfd (-1) (events fresh) (revents fresh)) None.

(** The arrays of [rehash] before elements are put into them. *)
Lemma fresh_wf p : 0 ≤ p ≤ 31 → wf 0 0 (replicate (Z.to_nat (2 ^ p)) freshSlot) (λ _, []).
Proof.
  intros Hp. assert (0 < 2 ^ p) by (apply Z.pow_pos_nonneg; lia). assert (Hv : view (replicate (Z.to_nat (2 ^ p)) freshSlot) = replicate (Z.to_nat (2 ^ p)) (MapBase.mkInfo MapBase.free (hash (-1)))).
  { unfold view. by rewrite fmap_replicate. }
  split; rewrite ?Hv.
  - exists p. by rewrite zlen_replicate, Z2Nat.id by lia.
  - apply chains_empty.
  - rewrite zlen_replicate. lia.
  - unfold nodes. clear Hv. induction (Z.to_nat (2 ^ p)) as [|n IH]; [done|]. simpl. exact IH.
  - apply Forall_replicate. done.
Qed.

Lemma take_S_nodes l (i : nat) s : l !! i = Some s → nodes (take (S i) l) = nodes (take i l) ++ option_list (node s).
Proof. intros H. unfold nodes. rewrite (take_S_r _ _ s H), omap_app. simpl. by destruct (node s). Qed.

Lemma nodes_take_lt l (i : nat) s : l !! i = Some s → sinfo s ≠ free → zlen (nodes (take i l)) < zlen (nodes l).
Proof.
  intros Hi Hs. rewrite <- (take_drop (S i) l) at 2. unfold nodes at 2. rewrite omap_app. fold (nodes (take (S i) l)).
  rewrite (take_S_nodes l i s Hi), (node_used s Hs), !zlen_app. pose proof (zlen_nonneg (omap node (drop (S i) l))).
  change (zlen (option_list (Some (skey s, sval s)))) with 1. lia.
Qed.

(** [rehash] keeps the elements. *)
Lemma rehash_run pre e f l p d : zlen pre = unused → 0 ≤ p ≤ 31 → zlen (nodes l) ≤ 2 ^ p →
  returns (rehash unused fresh (putN unused fresh (S d)) (mk pre e f l) (2 ^ p)) (λ m, ∃ pre' f' l' ch', zlen pre' = unused ∧
    m = mk pre' (zlen (nodes l)) f' l' ∧ wf (zlen (nodes l)) f' l' ch' ∧ zlen l' = 2 ^ p ∧ nodes l' ≡ₚ nodes l).
Proof.
  intros Hpre Hp Hn. assert (Hpos : 0 < 2 ^ p) by (apply Z.pow_pos_nonneg; lia). set (pre' := replicate (Z.to_nat unused) fresh). set (l0 := replicate (Z.to_nat (2 ^ p)) freshSlot).
  assert (Hl0 : zlen l0 = 2 ^ p) by (unfold l0; rewrite zlen_replicate; lia). assert (Hpre' : zlen pre' = unused) by (unfold pre'; rewrite zlen_replicate; lia).
  pose proof (fresh_wf p Hp) as Hw0. fold l0 in Hw0. assert (Hn0 : nodes l0 = []) by (pose proof (wf_elems _ _ _ _ Hw0) as E; destruct (nodes l0); [done|unfold zlen in E; simpl in E; lia]).
  unfold rehash. cbn [info size key val mk].
  assert (E : mkFdMap 0 (2 ^ p) 0 (replicate (Z.to_nat (2 ^ p)) free) (replicate (Z.to_nat unused) fresh ++ replicate (Z.to_nat (2 ^ p)) (mkPollfd (-1) (events fresh) (revents fresh)))
    (replicate (Z.to_nat (2 ^ p)) (None : option T)) = mk pre' 0 0 l0) by (unfold mk; rewrite Hl0; unfold l0; by rewrite !fmap_replicate).
  rewrite E. clear E. case_bool_decide as Hnil.
  { destruct l; [|done]. simpl. exists pre', 0, l0, (λ _, []). split_and!; [done|done|done|done|by rewrite Hn0]. }
  set (I := λ (i : Z) m, ∃ f' l' ch', m = mk pre' (zlen (nodes (take (Z.to_nat i) l))) f' l' ∧ wf (zlen (nodes (take (Z.to_nat i) l))) f' l' ch' ∧ zlen l' = 2 ^ p ∧ nodes l' ≡ₚ nodes (take (Z.to_nat i) l)).
  assert (Hz : 0 + Z.of_nat (Z.to_nat (zlen l)) = zlen l) by (unfold zlen; lia).
  eapply returns_mono; [apply (returns_for_loop I)|].
  - exists 0, l0, (λ _, []). split_and!; [done|done|done|by rewrite Hn0].
  - rewrite Hz. intros i m Hi (f' & l' & ch' & -> & Hw & Hl' & Hp'). destruct (lookupZ_lt_Some l i Hi) as [s Hs].
    rewrite (aget_Some _ i (sinfo s)), bind_Ret by (by rewrite lookupZ_fmap, Hs).
    rewrite lookupZ_to_nat in Hs by lia. pose proof (take_S_nodes l _ s Hs) as Et. unfold I. replace (Z.to_nat (i + 1)) with (S (Z.to_nat i)) by lia.
    destruct (Z.eqb_spec (sinfo s) free) as [Ef|Ef].
    + rewrite Et, (node_free s Ef), app_nil_r. by exists f', l', ch'.
    + rewrite <- lookupZ_to_nat in Hs by lia.
      rewrite (aget_Some _ _ (skey s)), bind_Ret by (rewrite <- Hpre, lookup_pre, lookupZ_fmap, Hs by lia; done).
      rewrite (aget_Some _ _ (sval s)), bind_Ret by (by rewrite lookupZ_fmap, Hs). rewrite lookupZ_to_nat in Hs by lia.
      pose proof (nodes_take_lt l _ s Hs Ef). eapply returns_mono; [apply (putN_run pre' d _ f' l' ch'); [done|done|lia]|].
      intros m (f2 & l2 & ch2 & -> & Hw2 & Hl2 & Hp2). rewrite (node_used s Ef) in Et.
      assert (zlen (nodes (take (S (Z.to_nat i)) l)) = zlen (nodes (take (Z.to_nat i) l)) + 1) as -> by (rewrite Et, zlen_app; done).
      exists f2, l2, ch2. split_and!; [done|done|lia|]. rewrite Hp2, Hp', Et. simpl. by rewrite <- Permutation_cons_append.
  - rewrite Hz. unfold I. rewrite take_ge by (unfold zlen; lia). intros m (f' & l' & ch' & ? & ? & ? & ?). by exists pre', f', l', ch'.
Qed.

Lemma nodes_length l : zlen (nodes l) ≤ zlen l.
Proof. unfold nodes, zlen. induction l as [|s l IH]; [done|]. simpl. destruct (node s); simpl; unfold omap in IH; lia. Qed.

Lemma wf_pow e f l ch : wf e f l ch → ∃ p, 0 ≤ p ≤ 31 ∧ zlen l = 2 ^ p.
Proof. intros [(p & ? & E) _ _ _ _]. exists p. by rewrite <- zlen_view. Qed.

(** Room for one more element. *)
Lemma growFd_run m l d : isMap m l → zlen (nodes l) < 2 ^ 30 →
  returns (grow unused fresh (putN unused fresh (S d)) m) (λ m', ∃ pre f' l' ch', zlen pre = unused ∧ m' = mk pre (zlen (nodes l)) f' l' ∧
    wf (zlen (nodes l)) f' l' ch' ∧ zlen (nodes l) < zlen l' ∧ nodes l' ≡ₚ nodes l).
Proof.
  intros (pre & e & f & Hpre & -> & Hw) Hn. unfold grow. change (size (mk pre e f l)) with (zlen l). change (elems (mk pre e f l)) with e.
  assert (Hre : ∀ p, 0 ≤ p ≤ 31 → zlen (nodes l) < 2 ^ p → returns (rehash unused fresh (putN unused fresh (S d)) (mk pre e f l) (2 ^ p)) (λ m', ∃ pre f' l' ch',
    zlen pre = unused ∧ m' = mk pre (zlen (nodes l)) f' l' ∧ wf (zlen (nodes l)) f' l' ch' ∧ zlen (nodes l) < zlen l' ∧ nodes l' ≡ₚ nodes l)).
  { intros p Hp Hlt. eapply returns_mono; [apply rehash_run; [done|done|lia]|]. intros m' (pre' & f' & l' & ch' & ? & ? & ? & ? & ?).
    exists pre', f', l', ch'. split_and!; [done|done|done|lia|done]. }
  destruct Hw as [[-> ->]|[ch Hw]]; [exact (Hre 3 ltac:(lia) ltac:(by cbn))|].
  destruct (wf_pow _ _ _ _ Hw) as (p & Hp & El). pose proof (wf_elems _ _ _ _ Hw) as He. assert (0 < 2 ^ p) by (apply Z.pow_pos_nonneg; lia).
  pose proof (nodes_length l). destruct (Z.eqb_spec (zlen l) 0); [lia|]. destruct (Z.eqb_spec (zlen l) e) as [E|E].
  - assert (p < 30) by (apply (Z.pow_lt_mono_r_iff 2); lia). rewrite El. replace (2 ^ p * 2) with (2 ^ (p + 1)) by (rewrite Z.pow_add_r by lia; lia).
    assert (2 ^ (p + 1) ≤ 2 ^ 30) by (apply Z.pow_le_mono_r; lia). rewrite u32_small by (unfold is_u32; lia).
    apply Hre; [lia|]. rewrite Z.pow_add_r by lia. lia.
  - exists pre, f, l, ch. rewrite <- He. split_and!; [done|done|done|lia|done].
Qed.

(** [put] adds an element. *)
Lemma putFd_run m l k v : isMap m l → zlen (nodes l) < 2 ^ 30 →
  returns (putKey unused fresh m k v) (λ m', ∃ l', isMap m' l' ∧ nodes l' ≡ₚ (k, v) :: nodes l).
Proof.
  intros Hm Hn. unfold putKey. cbn [putN]. eapply returns_bind; [by apply (growFd_run m l 0)|].
  intros m' (pre & f' & l' & ch' & <- & -> & Hw & Hlt & Hp). eapply returns_mono; [by apply (insertNode_run pre _ f' l' ch')|].
  intros m' (f2 & l2 & ch2 & -> & Hw2 & _ & Hp2). exists l2. split; [|by rewrite Hp2, Hp]. exists pre, (zlen (nodes l) + 1), f2. split_and!; [done|done|]. right. by exists ch2.
Qed.

(** [shrink] keeps the elements. *)
Lemma shrink_run pre e f l ch : zlen pre = unused → wf e f l ch → e ≤ 2 ^ 30 →
  returns (shrink unused fresh (mk pre e f l)) (λ m', ∃ l', isMap m' l' ∧ nodes l' ≡ₚ nodes l).
Proof.
  intros Hpre Hw Hb. unfold shrink. change (size (mk pre e f l)) with (zlen l). change (elems (mk pre e f l)) with e.
  assert (Hsame : returns (Ret (mk pre e f l)) (λ m', ∃ l', isMap m' l' ∧ nodes l' ≡ₚ nodes l)).
  { exists l. split; [|done]. exists pre, e, f. split_and!; [done|done|]. right. by exists ch. }
  destruct (wf_pow _ _ _ _ Hw) as (p & Hp & El). pose proof (wf_elems _ _ _ _ Hw) as He. pose proof (zlen_nonneg (nodes l)).
  destruct (Z.leb_spec (zlen l) 8); [done|]. rewrite u32_small by (unfold is_u32; lia). destruct (Z.leb_spec (e * 3) (zlen l)); [|done].
  assert (Hp1 : 3 < p) by (apply (Z.pow_lt_mono_r_iff 2); lia). assert (E : zlen l = 2 ^ (p - 1) * 2) by (rewrite El; replace p with (p - 1 + 1) at 1 by lia; rewrite Z.pow_add_r by lia; lia).
  rewrite E, Z.div_mul by lia. eapply returns_mono; [apply (rehash_run pre e f l (p - 1) 0); [done|lia|lia]|].
  intros m' (pre' & f' & l' & ch' & Hpre' & -> & Hw' & _ & Hp'). exists l'. split; [|done]. exists pre', (zlen (nodes l)), f'. split_and!; [done|done|]. right. by exists ch'.
Qed.

(** [remove] takes one element out. *)
Lemma remove_run m l i s : isMap m l → zlen (nodes l) ≤ 2 ^ 30 → l !! i = Some s →
  returns (remove unused fresh m i) (λ m', ∃ l', isMap m' l' ∧ nodes l ≡ₚ option_list (node s) ++ nodes l').
Proof.
  intros (pre & e & f & Hpre & -> & Hw) Hn Hs. destruct Hw as [[-> ->]|[ch Hw]]; [by rewrite lookupZ_nil in Hs|]. rewrite <- Hpre.
  destruct (decide (sinfo s = free)) as [Ef|Ef].
  - rewrite (remove_free pre fresh e f l ch i s Hw Hs Ef), (node_free s Ef). exists l. split; [|done]. exists pre, e, f. split_and!; [done|done|]. right. by exists ch.
  - destruct (remove_used pre fresh e f l ch i s Hw Hs Ef) as (l' & -> & Hz & (ch' & Hch') & Hp & Hc). pose proof Hw as [(p & ? & Ep) _ Hf He _].
    rewrite (node_used s Ef). assert (He1 : e - 1 = zlen (nodes l')) by (rewrite He, Hp, zlen_cons; lia).
    pose proof (zlen_nonneg (nodes l')). rewrite u32_small by (unfold is_u32; lia).
    assert (Hw' : wf (e - 1) f l' ch') by (split; [exists p; by rewrite zlen_view, Hz, <- zlen_view|done|by rewrite Hz|done|done]).
    rewrite Hpre. eapply returns_mono; [apply (shrink_run pre (e - 1) f l' ch' Hpre Hw'); lia|]. intros m' (l2 & Hm2 & Hp2). exists l2. split; [done|]. by rewrite Hp2.
Qed.

(** [find] and [next] go through the slots with a file descriptor, and end. *)
Lemma find_next m l h : isMap m l → ∃ r, NoDup r ∧ (∀ i, i ∈ r ↔ ∃ s, l !! i = Some s ∧ sinfo s ≠ free ∧ fd (skey s) = h) ∧
  find unused m h = Ret (default free (head r)) ∧ (∀ a i r', r = a ++ i :: r' → next unused m i = Ret (default free (head r'))).
Proof.
  intros (pre & e & f & <- & -> & Hw). destruct Hw as [[-> ->]|[ch Hw]].
  - exists []. split_and!; [by apply NoDup_nil_2| |done|by intros []]. intros i. rewrite elem_of_nil. split; [done|]. intros (s & Hs & _). by rewrite lookupZ_nil in Hs.
  - destruct (find_next_run pre e f l ch h Hw) as (? & ? & ? & ?). eexists. split_and!; done.
Qed.

Lemma isMap_capacity m l : isMap m l → capacity m = zlen l ∧ 0 ≤ zlen l ≤ 2 ^ 31.
Proof.
  intros (pre & e & f & _ & -> & Hw). split; [done|]. destruct Hw as [[-> _]|[ch Hw]]; [done|]. pose proof (table_slots l (wf_table _ _ _ _ Hw)). lia.
Qed.

Lemma isMap_value m l i s : isMap m l → l !! i = Some s → valueAt m i = Ret (sval s) ∧ getKey unused m i = Ret (skey s).
Proof. intros (pre & e & f & <- & -> & _) Hs. split; [by apply getVal_mk|by apply getKey_mk]. Qed.

Lemma verify_run m l : isMap m l → dbg_verify unused m = Ret true.
Proof. intros (pre & e & f & <- & -> & Hw). destruct Hw as [[-> ->]|[ch Hw]]; [done|]. by eapply dbg_verify_run. Qed.
End tables.
End FdTable.

(** ** A bag of file descriptors *)

Module FdBag.
Import FdMap FdTable.

Section bag.
Context {T : Type} (unused : Z) (fresh : pollfd) (Hunused : 0 ≤ unused).
Implicit Types (m : FdMap T) (B : list (pollfd * option T)).

(** What users of the table do: they put elements into it, and remove the [n]th one that
    [find] and [next] give for a file descriptor. *)
Inductive op := Put (f evs : Z) (v : option T) | Remove (f : Z) (n : nat).

Fixpoint skip (n : nat) m (pos : Z) : outcome Z :=
  match n with
  | O => Ret pos
  | S n => if pos <? capacity m then pos ← next unused m pos; skip n m pos else Ret pos
  end.

Definition exec m (o : op) : outcome (FdMap T) :=
  match o with
  | Put f evs v => put unused fresh m f evs v
  | Remove f n =>
      pos ← find unused m f;
      pos ← skip n m pos;
      if pos <? capacity m then remove unused fresh m pos else Ret m
  end.

Fixpoint execs m (os : list op) : outcome (FdMap T) :=
  match os with [] => Ret m | o :: os => m ← exec m o; execs m os end.

(** All elements of a file descriptor, by [find] and [next]. *)
Fixpoint collectFrom (fuel : nat) m (pos : Z) : outcome (list (pollfd * option T)) :=
  match fuel with
  | O => OutOfFuel
  | S fuel =>
      if pos <? capacity m then
        k ← getKey unused m pos; v ← valueAt m pos;
        pos ← next unused m pos; xs ← collectFrom fuel m pos; Ret ((k, v) :: xs)
      else Ret []
  end.
Definition collect m (f : Z) : outcome (list (pollfd * option T)) :=
  pos ← find unused m f; collectFrom (S (length (info m))) m pos.

(** What the operations do to a bag of elements. *)
Definition ofFd (f : Z) B : list (pollfd * option T) := filter (λ x, fd x.1 = f) B.
Definition spec (o : op) B B' : Prop :=
  match o with
  | Put f evs v => B' ≡ₚ (mkPollfd f evs 0, v) :: B
  | Remove f n =>
      if decide (n < length (ofFd f B))%nat then ∃ x, fd x.1 = f ∧ B ≡ₚ x :: B' else B' ≡ₚ B
  end.
Fixpoint specs (os : list op) B B' : Prop :=
  match os with [] => B' ≡ₚ B | o :: os => ∃ B1, spec o B B1 ∧ specs os B1 B' end.

Lemma ofFd_perm f B B' : B ≡ₚ B' → ofFd f B ≡ₚ ofFd f B'.
Proof. unfold ofFd. by intros ->. Qed.

(** The elements in the slots [find] and [next] go through. *)
Lemma slots_elements (l : list (slot T)) f r : NoDup r → (∀ i, i ∈ r ↔ ∃ s, l !! i = Some s ∧ sinfo s ≠ free ∧ fd (skey s) = f) →
  omap (λ i : Z, l !! i ≫= node) r ≡ₚ ofFd f (nodes l).
Proof.
  revert r. induction l as [|s l IH] using rev_ind; intros r Hr Hm.
  { destruct r as [|i r]; [done|]. destruct (proj1 (Hm i) ltac:(left)) as (s & Hs & _). by rewrite lookupZ_nil in Hs. }
  set (n := zlen l). assert (Hlast : (l ++ [s]) !! n = Some s). { unfold n, zlen. rewrite lookupZ_nat, lookup_app_r, Nat.sub_diag by lia. done. }
  assert (Hlt : ∀ i s', l !! i = Some s' → i ≠ n ∧ (l ++ [s]) !! i = Some s').
  { intros i s' Hi. pose proof (lookupZ_Some_lt _ _ _ Hi). unfold n. split; [lia|]. rewrite lookupZ_to_nat in Hi |- * by lia. by apply lookup_app_l_Some. }
  assert (Hge : ∀ i s', (l ++ [s]) !! i = Some s' → i ≠ n → l !! i = Some s').
  { intros i s' Hi Hne. pose proof (lookupZ_Some_lt _ _ _ Hi) as Hr'. rewrite zlen_app in Hr'. change (zlen [s]) with 1 in Hr'. unfold n in Hne.
    rewrite lookupZ_to_nat in Hi |- * by lia. rewrite lookup_app_l in Hi by (unfold zlen in *; lia). done. }
  assert (Hrest : ∀ r', NoDup r' → (∀ i, i ∈ r' ↔ i ∈ r ∧ i ≠ n) → omap (λ i : Z, (l ++ [s]) !! i ≫= node) r' ≡ₚ ofFd f (nodes l)).
  { intros r' Hnd' Hr'. rewrite <- (IH r' Hnd').
    - assert (E : ∀ i, i ∈ r' → (l ++ [s]) !! i ≫= node = l !! i ≫= node).
      { intros i [Hi Hne]%Hr'. apply Hm in Hi as (s' & Hs' & _). by rewrite Hs', (Hge _ _ Hs' Hne). }
      by rewrite (omap_ext_in _ (λ i, l !! i ≫= node)).
    - intros i. rewrite Hr', Hm. split; [intros [(s' & Hs' & ?) Hne]; exists s'; by rewrite (Hge _ _ Hs' Hne)|].
      intros (s' & Hs' & ?). destruct (Hlt _ _ Hs') as [? ?]. split; [by exists s'|done]. }
  unfold nodes. rewrite omap_app. fold (nodes l). unfold ofFd. rewrite filter_app. fold (ofFd f (nodes l)).
  destruct (decide (n ∈ r)) as [Hn|Hn].
  - destruct (proj1 (Hm n) Hn) as (s' & Hs' & Hu & Hf). assert (s' = s) as -> by congruence. destruct (list_elem_of_split _ _ Hn) as (a & c & ->).
    rewrite <- Permutation_middle in Hr. apply NoDup_cons in Hr as [Hnn Hr]. rewrite omap_app. cbn [omap list_omap]. rewrite Hlast. cbn [mbind option_bind]. rewrite (node_used s Hu).
    rewrite <- Permutation_middle, <- omap_app. simpl.
    rewrite filter_cons_True by done. rewrite (Permutation_app_comm (ofFd f (nodes l))). apply perm_skip. simpl. apply Hrest; [done|].
    intros i. rewrite !elem_of_app, elem_of_cons. rewrite elem_of_app in Hnn. naive_solver.
  - rewrite <- (app_nil_r (omap _ r)). apply Permutation_app; [apply Hrest; [done|]; intros i; split; [intros Hi; split; [done|by intros ->]|by intros [? _]]|].
    simpl. destruct (decide (sinfo s = free)) as [Es|Es]; [by rewrite node_free|]. rewrite node_used by done. rewrite filter_cons_False; [done|].
    simpl. intros Hf. apply Hn, Hm. by exists s.
Qed.

(** The slots [find] and [next] go through, and where they end. *)
Record walk m (l : list (slot T)) (f : Z) (r : list Z) : Prop := {
  walk_nodup : NoDup r;
  walk_mem : ∀ i, i ∈ r ↔ ∃ s, l !! i = Some s ∧ sinfo s ≠ free ∧ fd (skey s) = f;
  walk_find : find unused m f = Ret (default free (head r));
  walk_next : ∀ a i r', r = a ++ i :: r' → next unused m i = Ret (default free (head r'));
  walk_capacity : capacity m = zlen l;
  walk_end : zlen l < free;
}.

Lemma walk_exists m l f : isMap unused m l → ∃ r, walk m l f r.
Proof.
  intros Hm. destruct (find_next unused Hunused m l f Hm) as (r & ? & ? & ? & ?). destruct (isMap_capacity unused m l Hm) as [Hc [_ Hz]].
  exists r. split; try done. change free with (2 ^ 32 - 1). lia.
Qed.

Lemma walk_slot m l f r i : walk m l f r → i ∈ r → ∃ s, l !! i = Some s ∧ sinfo s ≠ free ∧ fd (skey s) = f ∧ (i <? capacity m) = true.
Proof.
  intros Hw Hi. destruct (proj1 (walk_mem _ _ _ _ Hw i) Hi) as (s & Hs & Hu & Hf). exists s. split_and!; [done..|].
  rewrite (walk_capacity _ _ _ _ Hw). apply Z.ltb_lt. by eapply lookupZ_Some_lt.
Qed.

Lemma walk_stop m l f r : walk m l f r → (free <? capacity m) = false.
Proof. intros Hw. rewrite (walk_capacity _ _ _ _ Hw). apply Z.ltb_ge. pose proof (walk_end _ _ _ _ Hw). lia. Qed.

Lemma skip_run m l f r : walk m l f r → ∀ n a r2, r = a ++ r2 → skip n m (default free (head r2)) = Ret (default free (head (drop n r2))).
Proof.
  intros Hw n. induction n as [|n IH]; intros a r2 ->; [by rewrite drop_0|]. cbn [skip]. destruct r2 as [|i r2].
  - rewrite drop_nil. change (default free (head [])) with free. by rewrite (walk_stop _ _ _ _ Hw).
  - change (default free (head (i :: r2))) with i. destruct (walk_slot _ _ _ _ i Hw) as (s & _ & _ & _ & ->); [apply elem_of_app; right; left|].
    rewrite (walk_next _ _ _ _ Hw a i r2 eq_refl), bind_Ret. apply (IH (a ++ [i])). by rewrite <- app_assoc.
Qed.

Lemma collectFrom_run m l f r : isMap unused m l → walk m l f r → ∀ fuel a r2, r = a ++ r2 → (length r2 < fuel)%nat →
  collectFrom fuel m (default free (head r2)) = Ret (omap (λ i : Z, l !! i ≫= node) r2).
Proof.
  intros Hm Hw fuel. induction fuel as [|fuel IH]; intros a r2 -> Hf; [lia|]. cbn [collectFrom]. destruct r2 as [|i r2].
  - change (default free (head [])) with free. by rewrite (walk_stop _ _ _ _ Hw).
  - change (default free (head (i :: r2))) with i. destruct (walk_slot _ _ _ _ i Hw) as (s & Hs & Hu & _ & ->); [apply elem_of_app; right; left|].
    destruct (isMap_value unused Hunused m l i s Hm Hs) as [-> ->]. rewrite !bind_Ret, (walk_next _ _ _ _ Hw a i r2 eq_refl), bind_Ret. simpl in Hf.
    rewrite (IH (a ++ [i]) r2) by (rewrite <- ?app_assoc; done || lia). rewrite bind_Ret. cbn [omap list_omap]. rewrite Hs. cbn [mbind option_bind]. by rewrite (node_used s Hu).
Qed.

Lemma walk_elements m l f r : walk m l f r → omap (λ i : Z, l !! i ≫= node) r ≡ₚ ofFd f (nodes l) ∧ length r = length (ofFd f (nodes l)).
Proof.
  intros Hw. pose proof (slots_elements l f r (walk_nodup _ _ _ _ Hw) (walk_mem _ _ _ _ Hw)) as Hp. split; [done|]. rewrite <- Hp. clear Hp.
  assert (Hi : ∀ i, i ∈ r → is_Some (l !! i ≫= node)).
  { intros i Hi. destruct (walk_slot _ _ _ _ i Hw Hi) as (s & -> & Hu & _). simpl. rewrite (node_used s Hu). done. }
  clear Hw. induction r as [|i r IH]; [done|]. cbn [omap list_omap]. destruct (Hi i) as [x ->]; [left|]. simpl. f_equal. apply IH. intros j Hj. apply Hi. by right.
Qed.

Lemma collect_run m l f : isMap unused m l → returns (collect m f) (λ xs, xs ≡ₚ ofFd f (nodes l)).
Proof.
  intros Hm. destruct (walk_exists m l f Hm) as [r Hw]. unfold collect. rewrite (walk_find _ _ _ _ Hw), bind_Ret.
  rewrite (collectFrom_run m l f r Hm Hw _ []); [by apply (walk_elements m l f r Hw)|done|].
  pose proof Hm as (pre & e & g & _ & -> & _). change (length (info (mk pre e g l))) with (length (sinfo <$> l)). rewrite length_fmap.
  assert (length r ≤ length l)%nat; [|lia]. apply nodup_range_length; [apply (walk_nodup _ _ _ _ Hw)|]. intros i Hi.
  destruct (walk_slot _ _ _ _ i Hw Hi) as (s & Hs & _). by eapply lookupZ_Some_lt.
Qed.

Lemma exec_run m l o : isMap unused m l → zlen (nodes l) < 2 ^ 30 → returns (exec m o) (λ m', ∃ l', isMap unused m' l' ∧ spec o (nodes l) (nodes l')).
Proof.
  intros Hm Hn. destruct o as [f evs v|f n]; cbn [exec spec]; [by apply putFd_run|].
  destruct (walk_exists m l f Hm) as [r Hw]. rewrite (walk_find _ _ _ _ Hw), bind_Ret, (skip_run m l f r Hw n [] r eq_refl), bind_Ret.
  destruct (walk_elements m l f r Hw) as [_ <-]. destruct (decide (n < length r)%nat) as [Hlt|Hge].
  - destruct (lookup_lt_is_Some_2 r n Hlt) as [i Hi]. pose proof (list_elem_of_lookup_2 _ _ _ Hi) as Hin. rewrite (drop_S r i n Hi).
    change (default free (head (i :: drop (S n) r))) with i. destruct (walk_slot _ _ _ _ i Hw Hin) as (s & Hs & Hu & Hf & ->).
    eapply returns_mono; [apply (remove_run unused fresh Hunused m l i s Hm); [lia|done]|]. intros m' (l' & Hm' & Hp). exists l'. split; [done|].
    exists (skey s, sval s). split; [done|]. rewrite Hp. by rewrite (node_used s Hu).
  - rewrite drop_ge by lia. change (default free (head [])) with free. rewrite (walk_stop _ _ _ _ Hw). by exists l.
Qed.

Lemma spec_grows o B B' : spec o B B' → zlen B' ≤ zlen B + 1.
Proof.
  destruct o as [f evs v|f n]; simpl; [intros ->; rewrite zlen_cons; lia|]. case_decide; [|intros ->; lia]. intros (x & _ & ->). rewrite zlen_cons. lia.
Qed.

Lemma execs_run os : ∀ m l, isMap unused m l → zlen (nodes l) + Z.of_nat (length os) ≤ 2 ^ 30 →
  returns (execs m os) (λ m', ∃ l', isMap unused m' l' ∧ specs os (nodes l) (nodes l')).
Proof.
  induction os as [|o os IH]; intros m l Hm Hn; simpl in Hn; [exists l; split; [done|cbn; reflexivity]|]. cbn [execs].
  eapply returns_bind; [apply (exec_run m l o Hm); lia|]. intros m1 (l1 & Hm1 & Hs). pose proof (spec_grows _ _ _ Hs).
  eapply returns_mono; [apply (IH m1 l1 Hm1); lia|]. intros m2 (l2 & Hm2 & Hs2). exists l2. split; [done|]. by exists (nodes l1).
Qed.
End bag.


Definition sampleOps : list (@op positive) :=
  [Put 1 1 (Some 1%positive); Put 2 4 None; Put 1 4 (Some 2%positive); Put 3 1 (Some 3%positive); Put 4 1 None; Put 5 1 None; Put 6 1 None; Put 7 1 None; Put 1 1 (Some 4%positive);
   Remove 1 1; Remove 9 0; Remove 4 0; Remove 5 0; Remove 6 0; Remove 7 2; Remove 7 0].

End FdBag.
