(* ===== verification/IOHandleCorrect.v ===== *)
(** * Requests that wait for file descriptors: correctness

    The handle of a thread keeps its requests in the table of file descriptors ([FdMap]); it
    wakes those the operating system reports, and no others.  [detach] takes one request out,
    [remove] closes and wakes all requests of a file descriptor. *)

From stdpp Require Import base list numbers decidable option sets gmap.
From Stdlib Require Import ZArith Lia.
From S2P Require Import Prelude FdMap FdMapCorrect.
Import FdMap FdTable FdBag IOHandle.

Module Requests.
#[local] Opaque FdMap.hash.

Abbreviation slots := (list (slot positive)).
Abbreviation bag := (list (pollfd * option positive)).
Implicit Types (l : slots) (m : FdMap positive) (rs : requests).

(** ** Keys that change while the table stays *)

Definition withKey (k : pollfd) (s : slot positive) : slot positive := mkSlot (sinfo s) k (sval s).

(** The slots [l'] are those of [l] with other events reported. *)
Definition sameSlot (s s' : slot positive) : Prop :=
  sinfo s' = sinfo s ∧ sval s' = sval s ∧ fd (skey s') = fd (skey s) ∧ events (skey s') = events (skey s).

Lemma same_zlen l l' : Forall2 sameSlot l l' → zlen l' = zlen l.
Proof. intros H%Forall2_length. unfold zlen. by rewrite H. Qed.

Lemma same_view l l' : Forall2 sameSlot l l' → view l' = view l.
Proof.
  induction 1 as [|s s' l l' (E1 & _ & E2 & _) _ IH]; [done|]. unfold view in *. cbn [fmap list_fmap]. unfold viewSlot at 1 3. by rewrite E1, E2, IH.
Qed.

Lemma same_nodes l l' : Forall2 sameSlot l l' →
  Forall2 (λ x x', fd x'.1 = fd x.1 ∧ events x'.1 = events x.1 ∧ x'.2 = x.2) (nodes l) (nodes l').
Proof.
  induction 1 as [|s s' l l' (E1 & E2 & E3 & E4) _ IH]; [constructor|]. unfold nodes in *. cbn [omap list_omap]. unfold node. rewrite E1.
  destruct (Z.eqb_spec (sinfo s) free); [done|]. by constructor.
Qed.

Lemma same_clean l l' : Forall2 sameSlot l l' → Forall clean l → Forall clean l'.
Proof.
  induction 1 as [|s s' l l' (E1 & E2 & E3 & _) _ IH]; [done|]. intros [Hs Hl]%Forall_cons. constructor; [|by apply IH].
  unfold clean in *. by rewrite E1, E2, E3.
Qed.

Lemma same_wf e f l l' ch : Forall2 sameSlot l l' → wf e f l ch → wf e f l' ch.
Proof.
  intros H [Ht Hch Hf He Hc]. pose proof (same_view _ _ H) as Hv. split; rewrite ?Hv; [done|done| | |].
  - by rewrite (same_zlen _ _ H).
  - apply same_nodes, Forall2_length in H. unfold zlen in *. by rewrite He, H.
  - by eapply same_clean.
Qed.

(** ** Looking for events *)

Definition hasEvents (s : slot positive) : bool := (0 <=? fd (skey s)) && negb (revents (skey s) =? 0).

Lemma data_slot pre e f l i s : zlen pre = 1 → l !! i = Some s → aget (data (mk pre e f l)) (i + 1) = Ret (skey s).
Proof. intros Hp Hs. pose proof (getKey_mk pre e f l i s Hs) as Hk. rewrite Hp in Hk. exact Hk. Qed.

Lemma anyEvents_run pre e f l : zlen pre = 1 → returns (anyEvents (mk pre e f l)) (λ b, b = existsb hasEvents l).
Proof.
  intros Hp. unfold anyEvents. change (capacity (mk pre e f l)) with (zlen l).
  eapply returns_mono; [apply (returns_for_loop (λ i b, b = existsb hasEvents (take (Z.to_nat i) l)))|]; [done| |].
  2: { rewrite Z.add_0_l, Nat2Z.id. intros b ->. unfold zlen. by rewrite Nat2Z.id, firstn_all. }
  intros i b Hi ->. destruct (lookupZ_lt_Some l i) as [s Hs]; [unfold zlen in *; lia|]. rewrite (data_slot pre e f l i s Hp Hs), bind_Ret. cbn [returns].
  replace (Z.to_nat (i + 1)) with (S (Z.to_nat i)) by lia. rewrite lookupZ_to_nat in Hs by lia. rewrite (take_S_r _ _ s Hs), existsb_app. cbn [existsb]. rewrite orb_false_r.
  fold (hasEvents s). destruct (hasEvents s); [by rewrite orb_true_r|by rewrite orb_false_r].
Qed.

(** ** Waking requests *)

(** The request [r] has an event in the bag. *)
Definition heard (B : bag) (r : positive) : bool := existsb (λ x, bool_decide (x.2 = Some r) && negb (revents x.1 =? 0)) B.
Definition wakeIf (b : bool) (q : IORequest) : IORequest := mkIORequest (type_ q) (closed q) (wake q || b).
Definition quiet (x : pollfd * option positive) : pollfd * option positive := (mkPollfd (fd x.1) (events x.1) 0, x.2).
Definition quietSlot (s : slot positive) : slot positive := withKey (mkPollfd (fd (skey s)) (events (skey s)) 0) s.

(** Every request in the table is one of [rs]. *)
Definition known l rs : Prop := ∀ s r, s ∈ l → sval s = Some r → is_Some (rs !! r).

Lemma wakeIf_false q : wakeIf false q = q.
Proof. unfold wakeIf. rewrite orb_false_r. by destruct q. Qed.
Lemma wakeIf_or b b' q : wakeIf b' (wakeIf b q) = wakeIf (b || b') q.
Proof. unfold wakeIf. simpl. by rewrite orb_assoc. Qed.

Lemma nodes_quiet l : nodes (quietSlot <$> l) = quiet <$> nodes l.
Proof.
  unfold nodes. induction l as [|s l IH]; [done|]. cbn [fmap list_fmap omap list_omap].
  assert (E : node (quietSlot s) = quiet <$> node s) by (unfold node; cbn [quietSlot withKey sinfo]; by destruct (sinfo s =? free)).
  rewrite E. destruct (node s) as [x|]; [|exact IH]. cbn [fmap option_fmap option_map]. exact (f_equal (cons (quiet x)) IH).
Qed.

Lemma heard_app B B' r : heard (B ++ B') r = heard B r || heard B' r.
Proof. apply existsb_app. Qed.

(** One request. *)
Lemma setWake_run rs r q : rs !! r = Some q → ∃ rs', setWake rs r = Ret rs' ∧ ∀ r', rs' !! r' = wakeIf (bool_decide (r = r')) <$> rs !! r'.
Proof.
  intros Hq. unfold setWake. rewrite Hq. eexists. split; [done|]. intros r'. rewrite lookup_insert. case_decide as E.
  - subst r'. rewrite Hq. simpl. rewrite bool_decide_true by done. unfold wakeIf. by rewrite orb_true_r.
  - rewrite bool_decide_false by done. destruct (rs !! r'); [|done]. simpl. by rewrite wakeIf_false.
Qed.

Lemma heard_slot s r : clean s → heard (option_list (node s)) r = bool_decide (sval s = Some r) && negb (revents (skey s) =? 0).
Proof.
  intros Hc. destruct (decide (sinfo s = free)) as [E|E].
  - rewrite (node_free s E). destruct (Hc E) as [_ ->]. simpl. done.
  - rewrite (node_used s E). unfold heard. simpl. by rewrite orb_false_r.
Qed.

(** One round of the loop of [notifyAll]. *)
Lemma wake_slot rs s : clean s → (∀ r, sval s = Some r → is_Some (rs !! r)) →
  returns (if negb (revents (skey s) =? 0) then match sval s with Some r => setWake rs r | None => Ret rs end else Ret rs)
    (λ rs', ∀ r, rs' !! r = wakeIf (heard (option_list (node s)) r) <$> rs !! r).
Proof.
  intros Hc Hk. assert (Hid : (∀ r, heard (option_list (node s)) r = false) → returns (Ret rs) (λ rs', ∀ r, rs' !! r = wakeIf (heard (option_list (node s)) r) <$> rs !! r)).
  { intros H. cbn [returns]. intros r. rewrite H. destruct (rs !! r); [|done]. simpl. by rewrite wakeIf_false. }
  destruct (negb (revents (skey s) =? 0)) eqn:E; [|apply Hid; intros r; by rewrite (heard_slot s r Hc), E, andb_false_r].
  destruct (sval s) as [r|] eqn:Ev; [|apply Hid; intros r; rewrite (heard_slot s r Hc), Ev; by rewrite bool_decide_false].
  destruct (Hk r eq_refl) as [q Hq]. destruct (setWake_run rs r q Hq) as (rs' & -> & Hrs). cbn [returns]. intros r'. rewrite Hrs, (heard_slot s r' Hc), Ev, E, andb_true_r.
  f_equal. f_equal. apply bool_decide_ext. split; [by intros ->|by intros [= ->]].
Qed.

Lemma known_same l rs rs' : known l rs → (∀ r, is_Some (rs !! r) → is_Some (rs' !! r)) → known l rs'.
Proof. intros Hk H s r Hs Hr. by eapply H, Hk. Qed.

Lemma notifyEvents_run pre e f l rs : zlen pre = 1 → Forall clean l → known l rs →
  returns (notifyEvents (mk pre e f l) rs) (λ '(m', rs'), m' = mk pre e f (quietSlot <$> l) ∧ ∀ r, rs' !! r = wakeIf (heard (nodes l) r) <$> rs !! r).
Proof.
  intros Hp Hc Hk. unfold notifyEvents. change (capacity (mk pre e f l)) with (zlen l).
  set (I := λ (i : Z) (p : FdMap positive * requests), p.1 = mk pre e f ((quietSlot <$> take (Z.to_nat i) l) ++ drop (Z.to_nat i) l) ∧
    ∀ r, p.2 !! r = wakeIf (heard (nodes (take (Z.to_nat i) l)) r) <$> rs !! r).
  eapply returns_mono; [apply (returns_for_loop I)|].
  - split; [done|]. intros r. simpl. destruct (rs !! r); [|done]. simpl. by rewrite wakeIf_false.
  - intros i [m' rs'] Hi [Em Hrs]. cbn in Em, Hrs. subst m'. destruct (lookupZ_lt_Some l i) as [s Hs]; [unfold zlen in *; lia|].
    rewrite lookupZ_to_nat in Hs by lia. set (n := Z.to_nat i) in *. pose proof (take_drop_middle l n s Hs) as Hsplit.
    assert (Hn : (n < length l)%nat) by (by eapply lookup_lt_Some).
    set (cur := (quietSlot <$> take n l) ++ drop n l). assert (Hcur : cur !! i = Some s).
    { unfold cur. rewrite lookupZ_to_nat by lia. fold n. rewrite lookup_app_r by (rewrite length_fmap, length_take; lia). rewrite length_fmap, length_take, Nat.min_l, Nat.sub_diag by lia. by rewrite (drop_S l s n Hs). }
    cbv beta iota. rewrite (data_slot pre e f cur i s Hp Hcur), bind_Ret.
    assert (Hin : s ∈ l) by (by eapply list_elem_of_lookup_2).
    rewrite (getVal_mk pre e f cur i s Hcur).
    assert (Hw : returns (if negb (revents (skey s) =? 0) then match sval s with Some r => setWake rs' r | None => Ret rs' end else Ret rs')
      (λ rs2, ∀ r, rs2 !! r = wakeIf (heard (option_list (node s)) r) <$> rs' !! r)).
    { apply wake_slot; [by eapply Forall_forall in Hc|]. intros r Hr. rewrite Hrs. apply fmap_is_Some. by eapply Hk. }
    rewrite bind_Ret. eapply returns_bind; [exact Hw|]. intros rs2 Hrs2. rewrite bind_Ret.
    pose proof (setKey_mk pre e f cur i s (mkPollfd (fd (skey s)) (events (skey s)) 0) Hcur) as Ek. rewrite Hp in Ek. rewrite Ek, bind_Ret. cbn [returns]. unfold I. cbn [fst snd]. replace (Z.to_nat (i + 1)) with (S n) by lia. split.
    + f_equal. unfold cur. rewrite (take_S_r _ _ s Hs), fmap_app, <- app_assoc, (drop_S l s n Hs). simpl.
      unfold insert, list_insertZ. rewrite decide_True by lia. fold n.
      rewrite insert_app_r_alt by (rewrite length_fmap, length_take; lia). by rewrite length_fmap, length_take, Nat.min_l, Nat.sub_diag by lia.
    + intros r. rewrite Hrs2, Hrs, (take_S_nodes l n s Hs), heard_app. destruct (rs !! r); [|done]. simpl. by rewrite wakeIf_or.
  - intros [m' rs'] [Em Hrs]. cbn in Em, Hrs. rewrite take_ge, drop_ge, app_nil_r in Em by (unfold zlen; lia). rewrite take_ge in Hrs by (unfold zlen; lia). done.
Qed.

(** ** What the system call does *)

(** [poll] fills in [revents], ignores negative file descriptors, returns how many elements
    have events, and leaves the array alone when it fails. *)
Record pollLaws (poll : list pollfd → Z * list pollfd) : Prop := {
  poll_length : ∀ fds, length (poll fds).2 = length fds;
  poll_keeps : ∀ fds (i : nat) k k', fds !! i = Some k → (poll fds).2 !! i = Some k' → fd k' = fd k ∧ events k' = events k;
  poll_none : ∀ fds, (poll fds).1 = 0 → Forall (λ k, revents k = 0) (poll fds).2;
  poll_fails : ∀ fds, (poll fds).1 < 0 → (poll fds).2 = fds;
}.

Definition withKeys l (ks : list pollfd) : slots := zip_with (λ s k, withKey k s) l ks.

Lemma withKeys_same poll l : pollLaws poll → Forall2 sameSlot l (withKeys l (poll (skey <$> l)).2).
Proof.
  intros Hl. pose proof (poll_length poll Hl (skey <$> l)) as Hlen. rewrite length_fmap in Hlen.
  apply Forall2_same_length_lookup_2; [unfold withKeys; rewrite length_zip_with; lia|]. intros i s s' Hs Hs'.
  unfold withKeys in Hs'. apply lookup_zip_with_Some in Hs' as (s0 & k & -> & Hs0 & Hk). assert (s0 = s) as -> by congruence.
  destruct (poll_keeps poll Hl (skey <$> l) i (skey s) k) as [? ?]; [by rewrite list_lookup_fmap, Hs|done|]. by split_and!.
Qed.

Lemma withKeys_keys l ks : length ks = length l → skey <$> withKeys l ks = ks ∧ sinfo <$> withKeys l ks = sinfo <$> l ∧ sval <$> withKeys l ks = sval <$> l.
Proof.
  revert ks. induction l as [|s l IH]; intros [|k ks] H; try done. destruct (IH ks) as (E1 & E2 & E3); [by injection H|].
  unfold withKeys in *. cbn. rewrite E1, E2, E3. done.
Qed.

Lemma pollHandles_run poll pre e f l : pollLaws poll → zlen pre = 1 →
  pollHandles poll (mk pre e f l) = ((poll (skey <$> l)).1, mk pre e f (withKeys l (poll (skey <$> l)).2)).
Proof.
  intros Hl Hp. unfold pollHandles. change (capacity (mk pre e f l)) with (zlen l). change (data (mk pre e f l)) with (pre ++ (skey <$> l)).
  assert (exists k, pre = [k]) as [k ->] by (destruct pre as [|k [|]]; [done|by exists k|unfold zlen in Hp; simpl in Hp; lia]).
  change (drop 1 ([k] ++ (skey <$> l))) with (skey <$> l). change (take 1 ([k] ++ (skey <$> l))) with [k].
  assert (E : take (Z.to_nat (zlen l)) (skey <$> l) = skey <$> l) by (apply take_ge; rewrite length_fmap; unfold zlen; lia). rewrite E.
  pose proof (poll_length poll Hl (skey <$> l)) as Hlen. destruct (poll (skey <$> l)) as [r ks]. simpl in Hlen. rewrite length_fmap in Hlen. cbn [fst snd]. f_equal.
  destruct (withKeys_keys l ks Hlen) as (E1 & E2 & E3). unfold mk. rewrite E1, E2, E3. cbn [elems size lastFree info val]. f_equal.
  - rewrite <- (zlen_fmap sinfo (withKeys l ks)), E2. by rewrite zlen_fmap.
  - cbn [plus app drop]. f_equal. rewrite drop_ge by (rewrite length_fmap; unfold zlen; lia). by rewrite app_nil_r.
Qed.

(** The table and the answer that [notifyAll] goes by: the events that are recorded already
    or, if there are none, those the system reports. *)
Definition answer (poll : list pollfd → Z * list pollfd) l : slots :=
  if existsb hasEvents l then l else withKeys l (poll (skey <$> l)).2.

Lemma sameSlot_refl l : Forall2 sameSlot l l.
Proof. by apply Forall_Forall2_diag, Forall_forall. Qed.

Lemma answer_same poll l : pollLaws poll → Forall2 sameSlot l (answer poll l).
Proof. intros Hl. unfold answer. destruct (existsb hasEvents l); [apply sameSlot_refl|by apply withKeys_same]. Qed.

Lemma same_known l l' rs : Forall2 sameSlot l l' → known l rs → known l' rs.
Proof.
  intros H Hk s' r [i Hi]%list_elem_of_lookup Hr. pose proof (Forall2_lookup_r _ _ _ _ _ H Hi) as (s & Hs & _ & E & _).
  apply (Hk s r); [by eapply list_elem_of_lookup_2|congruence].
Qed.

Lemma isMap_same m l l' pre e f : m = mk pre e f l' → zlen pre = 1 → Forall2 sameSlot l l' → ((l = [] ∧ e = 0) ∨ ∃ ch, wf e f l ch) → isMap 1 m l'.
Proof.
  intros -> Hp H Hw. exists pre, e, f. split_and!; [done|done|]. destruct Hw as [[-> ->]|[ch Hw]]; [left; by apply Forall2_nil_inv_l in H|right; exists ch; by eapply same_wf].
Qed.

Lemma quiet_same l : Forall2 sameSlot l (quietSlot <$> l).
Proof. apply Forall2_fmap_r, Forall_Forall2_diag, Forall_forall. by intros. Qed.

Lemma quiet_nodes_same l l' : Forall2 sameSlot l l' → quiet <$> nodes l' = quiet <$> nodes l.
Proof.
  intros H%same_nodes. revert H. generalize (nodes l), (nodes l'). induction 1 as [|x x' B B' (E1 & E2 & E3) _ IH]; [done|].
  cbn [fmap list_fmap]. f_equal; [unfold quiet; congruence|exact IH].
Qed.

Lemma heard_none (B : bag) r : Forall (λ x, revents x.1 = 0) B → heard B r = false.
Proof. induction 1 as [|x B E _ IH]; [done|]. unfold heard in *. simpl. by rewrite E, andb_false_r, IH. Qed.

Lemma nodes_quiet_id (B : bag) : Forall (λ x, revents x.1 = 0) B → quiet <$> B = B.
Proof. induction 1 as [|[[a b c] v] B E _ IH]; [done|]. cbn in *. rewrite IH. by subst c. Qed.

Lemma nodes_Forall (P : pollfd → Prop) l : Forall (λ s, sinfo s ≠ free → P (skey s)) l → Forall (λ x, P x.1) (nodes l).
Proof.
  induction 1 as [|s l Hs _ IH]; [constructor|]. unfold nodes in *. cbn [omap list_omap]. unfold node at 1. destruct (Z.eqb_spec (sinfo s) free); [done|].
  constructor; [by apply Hs|done].
Qed.

Lemma node_elem l s : s ∈ l → sinfo s ≠ free → (skey s, sval s) ∈ nodes l.
Proof. intros Hs Hu. apply list_elem_of_omap. exists s. split; [done|by apply node_used]. Qed.

Lemma isMap_clean m l : isMap 1 m l → Forall clean l.
Proof. intros (pre & e & f & _ & _ & [[-> _]|[ch Hw]]); [constructor|by apply (wf_clean _ _ _ _ Hw)]. Qed.

(** When the system call reports nothing, nothing is recorded. *)
Lemma answer_nothing poll l : pollLaws poll → Forall (λ x, 0 ≤ fd x.1) (nodes l) → existsb hasEvents l = false →
  (poll (skey <$> l)).1 ≤ 0 → Forall (λ x, revents x.1 = 0) (nodes (answer poll l)).
Proof.
  intros Hl Hfd Hany Hr. unfold answer. rewrite Hany. apply (nodes_Forall (λ k, revents k = 0)). pose proof (poll_length poll Hl (skey <$> l)) as Hlen.
  rewrite length_fmap in Hlen. destruct (decide ((poll (skey <$> l)).1 = 0)) as [E|E].
  - pose proof (poll_none poll Hl _ E) as Hz. destruct (withKeys_keys l _ Hlen) as (E1 & _). rewrite <- E1 in Hz. apply Forall_fmap in Hz.
    eapply Forall_impl; [exact Hz|]. by intros s Hs _.
  - rewrite (poll_fails poll Hl (skey <$> l)) in Hlen |- * by lia. apply Forall_forall. intros s Hs Hu.
    assert (E' : withKeys l (skey <$> l) = l). { clear. unfold withKeys. induction l as [|s l IH]; [done|]. cbn. by destruct s; f_equal. }
    rewrite E' in Hs. rewrite Forall_forall in Hfd. pose proof (Hfd _ (node_elem l s Hs Hu)) as Hge. cbn in Hge.
    assert (Hh : hasEvents s = false). { destruct (hasEvents s) eqn:Eh; [|done]. rewrite <- Hany. symmetry. apply existsb_exists. exists s. by rewrite <- list_elem_of_In. }
    unfold hasEvents in Hh. rewrite (proj2 (Z.leb_le _ _) Hge) in Hh. cbn [andb] in Hh. apply negb_false_iff, Z.eqb_eq in Hh. exact Hh.
Qed.

(** [notifyAll] wakes the requests whose file descriptor has an event, and no others: if
    events are recorded in the table already, those, otherwise those that the system reports
    then.  The elements stay, and no event is reported a second time. *)
Theorem notify_all poll m rs l : isMap 1 m l → pollLaws poll → known l rs → Forall (λ x, 0 ≤ fd x.1) (nodes l) →
  returns (notifyAll poll m rs) (λ '(m', rs'), ∃ l', isMap 1 m' l' ∧ nodes l' = quiet <$> nodes l ∧
    ∀ r, rs' !! r = wakeIf (heard (nodes (answer poll l)) r) <$> rs !! r).
Proof.
  intros Hm Hl Hk Hfd. pose proof (isMap_clean m l Hm) as Hc. pose proof Hm as (pre & e & f & Hp & -> & Hw). unfold notifyAll.
  eapply returns_bind; [by apply anyEvents_run|]. intros any ->. pose proof (answer_same poll l Hl) as Hsame.
  assert (Hrun : returns (notifyEvents (mk pre e f (answer poll l)) rs) (λ '(m', rs'), ∃ l', isMap 1 m' l' ∧ nodes l' = quiet <$> nodes l ∧
    ∀ r, rs' !! r = wakeIf (heard (nodes (answer poll l)) r) <$> rs !! r)).
  { eapply returns_mono; [apply (notifyEvents_run pre e f (answer poll l) rs Hp); [by eapply same_clean|by eapply same_known]|]. intros [m' rs'] [-> Hrs].
    exists (quietSlot <$> answer poll l). split_and!; [|by rewrite nodes_quiet, (quiet_nodes_same l)|done].
    eapply (isMap_same _ (answer poll l)); [done|done|apply quiet_same|]. destruct Hw as [[-> ->]|[ch Hw]]; [left; by apply Forall2_nil_inv_l in Hsame|right; exists ch; by eapply same_wf]. }
  destruct (existsb hasEvents l) eqn:Hany.
  - assert (Ea : answer poll l = l) by (unfold answer; by rewrite Hany). rewrite Ea in Hrun |- *. exact Hrun.
  - rewrite (pollHandles_run poll pre e f l Hl Hp). assert (Ea : answer poll l = withKeys l (poll (skey <$> l)).2) by (unfold answer; by rewrite Hany).
    rewrite <- Ea. destruct (Z.leb_spec (poll (skey <$> l)).1 0) as [Hle|_]; [|exact Hrun]. pose proof (answer_nothing poll l Hl Hfd Hany Hle) as Hz.
    exists (answer poll l). split_and!; [by eapply isMap_same| |].
    + rewrite <- (quiet_nodes_same l (answer poll l) Hsame). symmetry. by apply nodes_quiet_id.
    + intros r. rewrite (heard_none _ r Hz). destruct (rs !! r); [|done]. simpl. by rewrite wakeIf_false.
Qed.

(** ** Taking requests out *)

Section out.
Context (fresh : pollfd).

Lemma detachLoop_run m l h r wait : isMap 1 m l → zlen (nodes l) ≤ 2 ^ 30 → walk 1 m l h r → ∀ fuel a r2, r = a ++ r2 → (length r2 < fuel)%nat →
  returns (detachLoop fresh fuel m wait (default free (head r2))) (λ m', ∃ l', isMap 1 m' l' ∧
    ((∃ x, fd x.1 = h ∧ x.2 = Some wait ∧ nodes l ≡ₚ x :: nodes l') ∨
     m' = m ∧ l' = l ∧ ∀ i s, i ∈ r2 → l !! i = Some s → sval s ≠ Some wait)).
Proof.
  intros Hm Hn Hw fuel. induction fuel as [|fuel IH]; intros a r2 -> Hf; [lia|]. cbn [detachLoop]. destruct r2 as [|i r2].
  - change (default free (head [])) with free. rewrite (walk_stop 1 _ _ _ _ Hw). exists l. split; [done|]. right. split_and!; [done|done|].
    by intros i s ?%not_elem_of_nil.
  - change (default free (head (i :: r2))) with i. assert (Hin : i ∈ a ++ i :: r2) by (apply elem_of_app; right; left).
    destruct (walk_slot 1 _ _ _ _ i Hw Hin) as (s & Hs & Hu & Hfd & ->). destruct (isMap_value 1 ltac:(lia) m l i s Hm Hs) as [-> _]. rewrite bind_Ret.
    case_bool_decide as Ev.
    + eapply returns_mono; [apply (remove_run 1 fresh ltac:(lia) m l i s Hm Hn Hs)|]. intros m' (l' & Hm' & Hp). exists l'. split; [done|]. left.
      rewrite (node_used s Hu) in Hp. by exists (skey s, sval s).
    + rewrite (walk_next 1 _ _ _ _ Hw a i r2 eq_refl), bind_Ret. simpl in Hf.
      eapply returns_mono; [apply (IH (a ++ [i]) r2); [by rewrite <- app_assoc|lia]|]. intros m' (l' & Hm' & [Hx|(-> & -> & Hno)]).
      * exists l'. split; [done|]. by left.
      * exists l. split; [done|]. right. split_and!; [done|done|]. intros j t [->|Hj]%elem_of_cons Ht; [congruence|]. by apply (Hno j).
Qed.

(** [detach] takes one element of the file descriptor with the request out of the table, if
    there is one. *)
Theorem detach_one m l h wait : isMap 1 m l → zlen (nodes l) ≤ 2 ^ 30 →
  returns (detach fresh m h wait) (λ m', ∃ l', isMap 1 m' l' ∧
    ((∃ x, fd x.1 = h ∧ x.2 = Some wait ∧ nodes l ≡ₚ x :: nodes l') ∨
     m' = m ∧ l' = l ∧ ∀ x, x ∈ nodes l → fd x.1 = h → x.2 ≠ Some wait)).
Proof.
  intros Hm Hn. unfold detach. destruct (walk_exists 1 ltac:(lia) m l h Hm) as [r Hw]. rewrite (walk_find 1 _ _ _ _ Hw), bind_Ret.
  assert (Hlen : (length r < S (length (info m)))%nat).
  { pose proof Hm as (pre & e & g & _ & -> & _). change (length (info (mk pre e g l))) with (length (sinfo <$> l)). rewrite length_fmap.
    assert (length r ≤ length l)%nat; [|lia]. apply nodup_range_length; [apply (walk_nodup 1 _ _ _ _ Hw)|]. intros i Hi.
    destruct (walk_slot 1 _ _ _ _ i Hw Hi) as (s & Hs & _). by eapply lookupZ_Some_lt. }
  eapply returns_mono; [by apply (detachLoop_run m l h r wait Hm Hn Hw _ [] r)|]. intros m' (l' & Hm' & [Hx|(-> & -> & Hno)]); [exists l'; split; [done|by left]|].
  exists l. split; [done|]. right. split_and!; [done|done|]. intros x Hx Hf. apply list_elem_of_omap in Hx as (s & Hs & Hx). unfold node in Hx. destruct (Z.eqb_spec (sinfo s) free) as [|Hu]; [done|].
  injection Hx as <-. apply list_elem_of_lookupZ in Hs as [i Hi]. apply (Hno i s); [|done]. apply (walk_mem 1 _ _ _ _ Hw). by exists s.
Qed.

(** The request [r] waits for [h]. *)
Definition waitsFor (h : Z) (B : bag) (r : positive) : bool := existsb (λ x, bool_decide (fd x.1 = h) && bool_decide (x.2 = Some r)) B.
Definition closeIf (b : bool) (q : IORequest) : IORequest := mkIORequest (type_ q) (closed q || b) (wake q || b).

Lemma closeIf_false q : closeIf false q = q.
Proof. unfold closeIf. rewrite !orb_false_r. by destruct q. Qed.

Lemma close_one rs r q : rs !! r = Some q → ∃ rs', (rs ← setClosed rs r; setWake rs r) = Ret rs' ∧
  ∀ r', rs' !! r' = closeIf (bool_decide (r = r')) <$> rs !! r'.
Proof.
  intros Hq. unfold setClosed. rewrite Hq, bind_Ret. unfold setWake. rewrite lookup_insert_eq. eexists. split; [done|]. intros r'.
  rewrite insert_insert_eq, lookup_insert. case_decide as E.
  - subst r'. rewrite Hq, bool_decide_true by done. cbn. unfold closeIf. by rewrite !orb_true_r.
  - rewrite bool_decide_false by done. destruct (rs !! r'); [|done]. cbn. by rewrite closeIf_false.
Qed.

Lemma waitsFor_perm h (B B' : bag) r : B ≡ₚ B' → waitsFor h B r = waitsFor h B' r.
Proof.
  induction 1 as [|x B B' _ IH|x y B|B B2 B' _ IH1 _ IH2]; [done| | |congruence]; unfold waitsFor in *; cbn [existsb]; [by rewrite IH|].
  by destruct (bool_decide _ && _), (bool_decide _ && _).
Qed.

Lemma waitsFor_none h (B : bag) r : ofFd h B = [] → waitsFor h B r = false.
Proof.
  unfold ofFd, waitsFor. induction B as [|x B IH]; [done|]. cbn [existsb]. rewrite filter_cons. case_decide as E; [done|]. intros H.
  by rewrite (bool_decide_false _ E), IH.
Qed.

(** [remove] of a file descriptor closes and wakes the requests that wait for it, and takes
    them out of the table; nothing else changes. *)
Theorem remove_all m l rs h : isMap 1 m l → zlen (nodes l) ≤ 2 ^ 30 →
  (∀ x, x ∈ nodes l → fd x.1 = h → ∃ r, x.2 = Some r ∧ is_Some (rs !! r)) →
  returns (IOHandle.remove fresh m rs h) (λ '(m', rs'), ∃ l', isMap 1 m' l' ∧ nodes l' ≡ₚ filter (λ x, fd x.1 ≠ h) (nodes l) ∧
    ∀ r, rs' !! r = closeIf (waitsFor h (nodes l) r) <$> rs !! r).
Proof.
  intros Hm Hn Hk. unfold IOHandle.remove. destruct (walk_exists 1 ltac:(lia) m l h Hm) as [r Hw]. rewrite (walk_find 1 _ _ _ _ Hw), bind_Ret.
  assert (Hlen : (length r < S (Z.to_nat (elems m)))%nat).
  { destruct (walk_elements 1 m l h r Hw) as [_ ->]. assert (He : elems m = zlen (nodes l)).
    { destruct Hm as (pre & e & g & _ & -> & [[-> ->]|[ch Hwf]]); [done|]. apply (wf_elems _ _ _ _ Hwf). }
    rewrite He. unfold zlen, ofFd. rewrite Nat2Z.id. pose proof (length_filter (λ x, fd x.1 = h) (nodes l)). lia. }
  set (fuel := S (Z.to_nat (elems m))) in *. clearbody fuel. revert m l rs r Hm Hn Hk Hw Hlen.
  induction fuel as [|fuel IH]; intros m l rs r Hm Hn Hk Hw Hlen; [lia|]. cbn [IOHandle.removeLoop].
  destruct (walk_elements 1 m l h r Hw) as [_ Hel]. destruct r as [|i r].
  - change (default free (head [])) with free. rewrite (walk_stop 1 _ _ _ _ Hw). exists l. split_and!; [done| |].
    + symmetry. assert (E : ofFd h (nodes l) = []) by (by apply nil_length_inv). clear -E. unfold ofFd in E.
      induction (nodes l) as [|x B IH]; [done|]. rewrite filter_cons in E |- *. case_decide; [done|]. rewrite decide_True by done. by rewrite IH.
    + intros r'. rewrite waitsFor_none by (by apply nil_length_inv). destruct (rs !! r'); [|done]. cbn. by rewrite closeIf_false.
  - change (default free (head (i :: r))) with i.
    destruct (walk_slot 1 _ _ _ _ i Hw ltac:(left)) as (s & Hs & Hu & Hfd & ->). destruct (isMap_value 1 ltac:(lia) m l i s Hm Hs) as [-> _]. rewrite bind_Ret.
    assert (Hsl : s ∈ l) by (apply list_elem_of_lookupZ; by exists i).
    destruct (Hk _ (node_elem l s Hsl Hu) Hfd) as (q & Eq & [x Hx]). cbn [snd] in Eq. rewrite Eq.
    destruct (close_one rs q x Hx) as (rs1 & E1 & Hrs1). 
    assert (Eb : ∀ A (k : requests → outcome A), (rs ← setClosed rs q; rs ← setWake rs q; k rs) = k rs1).
    { intros A k. revert E1. destruct (setClosed rs q) as [rs0| | |]; try done. rewrite !bind_Ret. by intros ->. }
    rewrite Eb. eapply returns_bind; [apply (remove_run 1 fresh ltac:(lia) m l i s Hm Hn Hs)|]. intros m1 (l1 & Hm1 & Hp). rewrite (node_used s Hu) in Hp.
    destruct (walk_exists 1 ltac:(lia) m1 l1 h Hm1) as [r1 Hw1]. rewrite (walk_find 1 _ _ _ _ Hw1), bind_Ret.
    destruct (walk_elements 1 m1 l1 h r1 Hw1) as [_ Hel1]. change (nodes l ≡ₚ (skey s, sval s) :: nodes l1) in Hp.
    eapply returns_mono; [apply (IH m1 l1 rs1 r1 Hm1)|].
    + rewrite Hp, zlen_cons in Hn. lia.
    + intros y Hy Hfy. destruct (Hk y) as (q' & -> & [z Hz]); [rewrite Hp; by right|done|]. exists q'. split; [done|]. rewrite Hrs1, Hz. by eexists.
    + done.
    + rewrite Hel1. rewrite Hel, (ofFd_perm h _ _ Hp) in Hlen. unfold ofFd in *. rewrite filter_cons_True in Hlen by done. cbn [length] in Hlen. lia.
    + intros [m' rs'] (l' & Hm' & Hl' & Hrs'). exists l'. split_and!; [done| |].
      * rewrite Hl', Hp. rewrite filter_cons_False; [done|]. cbn. intros Hne. by apply Hne.
      * intros r'. rewrite Hrs', Hrs1, (waitsFor_perm h _ _ r' Hp). destruct (rs !! r') as [y|]; [|done].
        assert (Ew : waitsFor h ((skey s, sval s) :: nodes l1) r' = bool_decide (q = r') || waitsFor h (nodes l1) r').
        { unfold waitsFor at 1. cbn [existsb fst snd]. rewrite (bool_decide_true _ Hfd), Eq. cbn [andb]. f_equal. apply bool_decide_ext. naive_solver. }
        rewrite Ew. cbn [fmap option_fmap option_map]. unfold closeIf. cbn [type_ closed wake]. by rewrite !orb_assoc.
Qed.
End out.
End Requests.
