(* ===== verification/MemStream.v ===== *)
(** * Streams in memory

    Streams over a buffer, and the stream that keeps what it has read of another one. *)

From stdpp Require Import base list numbers decidable option.
From Stdlib Require Import ZArith Lia.
From S2P Require Import Prelude Buffer BufferCorrect Stream.

(** * Streams in memory

    [Core/Io/MemStream.h] and [Core/Io/MemStream.cpp]: reading from and writing to a
    buffer. *)

Module MemIStream.
Record MemIStream := mkMemIStream { data : Buffer.Buffer; pos : Z }.

(** [MemIStream(Buffer)] *)
Definition new (b : Buffer.Buffer) : io MemIStream :=
  f ← Buffer.filled b;
  d ← Buffer.buffer f;
  f ← Buffer.filled b;
  _ ← Buffer.memcpy d 0 b 0 f;
  f ← Buffer.filled b;
  _ ← Buffer.setFilled d f;
  mret (mkMemIStream d 0).

(** The copy constructor shares the data.  It does not initialize [pos], which the
    allocation has cleared. *)
Definition copy (o : MemIStream) : MemIStream := mkMemIStream (data o) 0.

Definition more (s : MemIStream) : io bool := c ← Buffer.count (data s); mret (pos s <? c).

Definition peekAt (s : MemIStream) (to : Buffer.Buffer) : io Buffer.Buffer :=
  start ← Buffer.filled to;
  tc ← Buffer.count to;
  dc ← Buffer.count (data s);
  let copy := Z.min (u32 (tc - start)) (u32 (dc - pos s)) in
  _ ← Buffer.memcpy to start (data s) (pos s) copy;
  _ ← Buffer.setFilled to (u32 (copy + start));
  mret to.

Definition peek (s : MemIStream) (to : Buffer.Buffer) : io (MemIStream * Buffer.Buffer) :=
  to ← peekAt s to; mret (s, to).

Definition read (s : MemIStream) (to : Buffer.Buffer) : io (MemIStream * Buffer.Buffer) :=
  start ← Buffer.filled to;
  to ← peekAt s to;
  f ← Buffer.filled to;
  mret (mkMemIStream (data s) (u32 (pos s + u32 (f - start))), to).

(** [seek(Word)]: the position is converted to 32 bits before it is limited. *)
Definition seek (s : MemIStream) (to : Z) : io MemIStream :=
  c ← Buffer.count (data s); mret (mkMemIStream (data s) (Z.min (u32 to) c)).

Definition tell (s : MemIStream) : Z := pos s.
Definition length (s : MemIStream) : io Z := Buffer.count (data s).

#[global] Instance istream : IStream MemIStream := {| Stream.more := more; Stream.read := read; Stream.peek := peek |}.
End MemIStream.

Module MemOStream.
(** [Buffer data] *)
Record MemOStream := mkMemOStream { data : Buffer.Buffer }.

Definition new : MemOStream := mkMemOStream Buffer.null.
(** [MemOStream(Buffer)] *)
Definition append (b : Buffer.Buffer) : MemOStream := mkMemOStream b.

(** The copy constructor: [data.deepCopy(null)] calls a method of the null pointer unless
    the buffer is null. *)
Definition copy (o : MemOStream) : io MemOStream :=
  match data o with None => mret (mkMemOStream None) | Some _ => fault end.

Definition write (s : MemOStream) (src : Buffer.Buffer) (start : Z) : io (MemOStream * Z) :=
  sf ← Buffer.filled src;
  let start := Z.min start sf in
  sf ← Buffer.filled src;
  let copy := u32 (sf - start) in
  filled ← Buffer.filled (data s);
  dc ← Buffer.count (data s);
  d ← (if dc <=? u32 (filled + copy) then
         dc ← Buffer.count (data s);
         let growTo := Z.max (Z.max (u32 (dc * 2)) copy) 1024 in
         Buffer.grow (data s) growTo
       else mret (data s));
  _ ← Buffer.memcpy d filled src start copy;
  _ ← Buffer.setFilled d (u32 (filled + copy));
  mret (mkMemOStream d, copy).

Definition buffer (s : MemOStream) : Buffer.Buffer := data s.

(** [flush] and [close] are those of [OStream]. *)
#[global] Instance ostream : OStream MemOStream := {|
  Stream.write := write; Stream.flush := λ s, mret (s, true); Stream.close := λ s, mret s |}.
End MemOStream.

(** * Streams that keep what they have read

    [Core/Io/LazyMemStream.h] and [Core/Io/LazyMemStream.cpp], used by
    [IStream::randomAccess] for streams that can not seek.  The constructor does not store
    the stream it is given, so that every use of the source is a call through a null
    pointer. *)

Module LazyMemIStream.
Section lazy.
Context {S : Type} `{IStream S}.

(** [src] may be null. *)
Record LazyMemIStream := mkLazyMemIStream { src : option S; data : Buffer.Buffer; pos : Z }.

(** The parameter [src] hides the member of the same name, which keeps the value the
    allocation gave it; so does [pos]. *)
Definition new (src : S) : io LazyMemIStream :=
  d ← Buffer.buffer 1024; mret (mkLazyMemIStream None d 0).

(** [src->more()], [src->read(to)] *)
Definition srcMore (s : LazyMemIStream) : io bool := match src s with Some r => Stream.more r | None => fault end.

Definition more (s : LazyMemIStream) : io bool :=
  c ← Buffer.count (data s); if pos s <? c then mret true else srcMore s.

Definition fill (s : LazyMemIStream) : io LazyMemIStream :=
  m ← srcMore s;
  if negb m then mret s
  else
    full ← Buffer.full (data s);
    s ← (if full : bool then
           let cutoff := 1 * 1024 * 1024 in
           c ← Buffer.count (data s);
           let newSize := if c <? cutoff then u32 (c * 2) else u32 (c + cutoff) in
           n ← Buffer.buffer newSize;
           c ← Buffer.count (data s);
           _ ← Buffer.setFilled n c;
           _ ← Buffer.memcpy n 0 (data s) 0 c;
           mret (mkLazyMemIStream (src s) n (pos s))
         else mret s);
    match src s with
    | Some r => '(r, _) ← Stream.read r (data s); mret (mkLazyMemIStream (Some r) (data s) (pos s))
    | None => fault
    end.

Definition peek (s : LazyMemIStream) (to : Buffer.Buffer) : io (LazyMemIStream * Buffer.Buffer) :=
  df ← Buffer.filled (data s);
  s ← (if df <=? pos s then fill s else mret s);
  start ← Buffer.filled to;
  tc ← Buffer.count to;
  df ← Buffer.filled (data s);
  let copy := Z.min (u32 (tc - start)) (u32 (df - pos s)) in
  _ ← Buffer.memcpy to start (data s) (pos s) copy;
  _ ← Buffer.setFilled to (u32 (copy + start));
  mret (s, to).

Definition read (s : LazyMemIStream) (to : Buffer.Buffer) : io (LazyMemIStream * Buffer.Buffer) :=
  start ← Buffer.filled to;
  '(s, to) ← peek s to;
  f ← Buffer.filled to;
  mret (mkLazyMemIStream (src s) (data s) (u32 (pos s + u32 (f - start))), to).

(** [while (npos > data.filled() && src->more()) fill();] *)
Fixpoint seekLoop (fuel : nat) (s : LazyMemIStream) (npos : Z) : io LazyMemIStream :=
  match fuel with
  | O => diverge
  | Datatypes.S fuel =>
      f ← Buffer.filled (data s);
      if f <? npos then
        m ← srcMore s;
        if m : bool then s ← fill s; seekLoop fuel s npos else mret s
      else mret s
  end.
Definition seek (fuel : nat) (s : LazyMemIStream) (to : Z) : io LazyMemIStream :=
  let npos := u32 to in
  s ← seekLoop fuel s npos;
  f ← Buffer.filled (data s);
  mret (mkLazyMemIStream (src s) (data s) (Z.min npos f)).

Definition tell (s : LazyMemIStream) : Z := pos s.
(** [length()] *)
Definition lengthOf (s : LazyMemIStream) : io Z := Buffer.filled (data s).

(** Whatever the stream is, the random access stream made from it says that there are
    more data, and the first call of [peek] or [read], or of [seek] to another position
    than 0, uses a null pointer. *)
Theorem lazy_unusable (r : S) h to fuel n : 0 < n < 2 ^ 32 →
  match new r h with
  | Ret (s, h') => more s h' = Ret (true, h') ∧ peek s to h' = Fault ∧
      (∀ a, view h to = Some a → awf a → read s to h' = Fault) ∧ seek (Datatypes.S fuel) s n h' = Fault
  | _ => False
  end.
Proof.
  intros Hn. unfold new. rewrite (bind_eq _ _ _ _ _ (buffer_eq h 1024)). unfold mret at 1, io_ret at 1.
  set (z := mkGcBytes 0 _). assert (Hz : awf z) by (by apply awf_fresh).
  assert (Hv : view (h ++ [z]) (Some (length h)) = Some z) by apply view_fresh.
  assert (Hp : peek (mkLazyMemIStream None (Some (length h)) 0) to (h ++ [z]) = Fault).
  { unfold peek. cbn [data]. by rewrite (bind_eq _ _ _ _ _ (filled_eq _ _ z Hv Hz)). }
  split_and!.
  - unfold more. cbn [data]. by rewrite (bind_eq _ _ _ _ _ (count_eq _ _ z Hv Hz)).
  - exact Hp.
  - intros a Ha Hw. unfold read. rewrite (bind_eq _ _ _ _ _ (filled_eq _ to a (view_app _ _ _ _ Ha) Hw)).
    unfold mbind, io_bind. by rewrite Hp.
  - unfold seek. cbn [seekLoop]. rewrite u32_small by (unfold is_u32; lia). unfold mbind at 1, io_bind at 1. cbn [data].
    rewrite (bind_eq _ _ _ _ _ (filled_eq _ _ z Hv Hz)). cbn [gfilled z].
    by rewrite (proj2 (Z.ltb_lt 0 n)) by lia.
Qed.
End lazy.
End LazyMemIStream.
