(* ===== verification/MemStreamCorrect.v ===== *)
(** * Streams in memory: correctness

    [MemIStream] has the laws of input streams.  [MemOStream] appends what is written,
    unless the new size it computes is too small, when it writes outside of its buffer. *)

From stdpp Require Import base list numbers decidable option.
From Stdlib Require Import ZArith Lia.
From S2P Require Import Prelude Buffer BufferCorrect Stream StreamCorrect MemStream.

(** ** Reading *)

Module MemIStreamLaws.
Import MemIStream.

Definition wf (s : MemIStream) (h : heap) : Prop :=
  ∃ d, view h (data s) = Some d ∧ awf d ∧ 0 ≤ pos s ≤ gcount d ∧ Forall is_u8 (v d).

(** What is left behind the position. *)
Definition rest (s : MemIStream) (h : heap) : list Z :=
  match view h (data s) with Some d => drop (Z.to_nat (pos s)) (v d) | None => [] end.

#[global] Instance heapObject : HeapObject MemIStream.
Proof.
  refine {| owf := wf; owns s l := data s = Some l; bytes := rest |}.
  - intros s h l (d & Hd & _) El. rewrite El in Hd. by apply view_lt in Hd.
  - intros s h h' (d & Hd & Hw) Hs. assert (Hd' : view h' (data s) = Some d).
    { destruct (data s) as [l|]; [|done]. simpl in *. by rewrite Hs. }
    split; [by exists d|]. unfold rest. by rewrite Hd, Hd'.
Defined.

Section peek.
Context (s : MemIStream) (h : heap) (d : GcBytes) (l : nat) (a : GcBytes).
Context (Hd : view h (data s) = Some d) (Hwd : awf d) (Hp : 0 ≤ pos s ≤ gcount d).
Context (Hl : h !! l = Some a) (Hw : awf a) (Hne : data s ≠ Some l).

(** How many bytes are transferred. *)
Definition transfer : Z := Z.min (gcount a - gfilled a) (gcount d - pos s).

Lemma peekAt_eq :
  peekAt s (Some l) h = Ret (Some l, <[l := appended a (slice (v d) (pos s) transfer)]> h).
Proof.
  destruct (Hw) as [Hf Hc], (Hwd) as [Hfd Hcd]. unfold peekAt.
  rewrite (bind_eq _ _ _ _ _ (filled_eq h (Some l) a Hl Hw)).
  rewrite (bind_eq _ _ _ _ _ (count_eq h (Some l) a Hl Hw)).
  rewrite (bind_eq _ _ _ _ _ (count_eq h (data s) d Hd Hwd)).
  rewrite (u32_small (gcount a - gfilled a)), (u32_small (gcount d - pos s)) by (unfold is_u32; lia).
  fold transfer. rewrite (u32_small (transfer + gfilled a)) by (unfold is_u32, transfer; lia).
  rewrite (Z.add_comm transfer).
  rewrite (append_run l a (data s) d) by (done || (by left) || (unfold transfer; lia)). done.
Qed.

Lemma zlen_transfer : zlen (slice (v d) (pos s) transfer) = transfer.
Proof. destruct Hw, Hwd. unfold gcount in *. apply zlen_slice; unfold transfer, gcount; lia. Qed.

Lemma appended_transfer : gfilled a + zlen (slice (v d) (pos s) transfer) ≤ gcount a.
Proof. rewrite zlen_transfer. unfold transfer. lia. Qed.

Lemma read_eq :
  read s (Some l) h = Ret (mkMemIStream (data s) (pos s + transfer), Some l,
    <[l := appended a (slice (v d) (pos s) transfer)]> h).
Proof.
  destruct (Hw) as [Hf Hc], (Hwd) as [Hfd Hcd]. pose proof appended_transfer as Ht. unfold read.
  rewrite (bind_eq _ _ _ _ _ (filled_eq h (Some l) a Hl Hw)).
  rewrite (bind_eq _ _ _ _ _ peekAt_eq).
  erewrite bind_eq; [|apply filled_eq; [by apply (view_insert_eq h l a)|by apply appended_awf]].
  unfold mret, io_ret. simpl. rewrite zlen_transfer.
  rewrite (u32_small (gfilled a + transfer - gfilled a)) by (unfold is_u32, transfer in *; lia).
  rewrite u32_small by (unfold is_u32, transfer in *; lia). do 4 f_equal. lia.
Qed.
End peek.

#[global] Instance istreamLaws : IStreamLaws MemIStream.
Proof.
  split.
  - intros s h (d & Hd & _ & _ & Hu). unfold bytes. simpl. unfold rest. rewrite Hd. by apply Forall_drop.
  - intros s h l a (d & Hd & Hwd & Hp & Hu) Hne Hl Hw Hfree. simpl in Hne.
    destruct (Hw) as [Hf Hc], (Hwd) as [Hfd Hcd].
    pose proof (appended_transfer s d a Hwd Hp Hw) as Ht. unfold runs. cbn [Stream.read istream].
    rewrite (read_eq s h d l a) by done. set (t := transfer s d a) in *. cbn [returns].
    assert (Ht0 : 0 ≤ t) by (unfold t, transfer; lia).
    exists (Z.to_nat t). split_and!; [unfold t, transfer; lia| |].
    { intros Ht0'. unfold bytes. simpl. unfold rest. rewrite Hd. apply drop_ge.
      unfold t, transfer, gcount, zlen in *. lia. }
    eexists _, l, _. split_and!; [done|by apply (view_insert_eq h l a)|by apply appended_awf|by apply appended_count| | | | | | |by left].
    + rewrite appended_data by done. f_equal. unfold bytes. simpl. unfold rest. by rewrite Hd.
    + unfold bytes. simpl. unfold rest. simpl. rewrite view_insert_ne, Hd by done. rewrite drop_drop. f_equal. lia.
    + exists d. simpl. rewrite view_insert_ne by done. split_and!; [done|done|lia|unfold t, transfer in *; lia|done].
    + done.
    + intros j Hj. by left.
    + apply frame_insert. by right.
Qed.

#[global] Instance inPlace : InPlace MemIStream.
Proof.
  intros s b h s' b' h' H. cbn [Stream.read istream] in H. unfold read, peekAt in H.
  do 3 io_inv H. do 5 io_inv E0. unfold mret, io_ret in E0, H. by simplify_eq.
Qed.

(** A new stream has the bytes before the mark of the buffer. *)
Lemma new_run h b a : view h b = Some a → awf a → Forall is_u8 (BufferCorrect.data a) →
  runs (new b) h (λ s h', wf s h' ∧ rest s h' = BufferCorrect.data a ∧ frame (λ _, False) h h').
Proof.
  intros Hv Hw Hu. destruct (Hw) as [Hf Hc]. pose proof (src_not_fresh h b a Hv) as Hne. unfold new.
  io_step filled_eq. eapply runs_step; [apply buffer_eq|]. set (z := mkGcBytes 0 _).
  assert (Hz : awf z) by (apply awf_fresh; lia).
  assert (Hzc : gcount z = gfilled a) by (unfold gcount, z; simpl; rewrite zlen_replicate; lia).
  io_step (filled_eq (h ++ [z]) b a (view_app _ _ _ _ Hv)).
  eapply runs_step; [apply (memcpy_eq _ (Datatypes.length h) z b a); [apply view_fresh|by apply view_app|by left|lia..]|].
  set (z1 := mkGcBytes _ _).
  assert (Ez : v z1 = slice (v a) 0 (gfilled a)).
  { simpl. unfold splice. rewrite drop_ge, app_nil_r; [done|].
    rewrite length_replicate. pose proof (zlen_slice (v a) 0 (gfilled a) ltac:(lia) ltac:(lia) ltac:(unfold gcount in *; lia)) as E.
    unfold zlen in E. lia. }
  assert (Hc1 : gcount z1 = gfilled a) by (unfold gcount; rewrite Ez; apply zlen_slice; unfold gcount in *; lia).
  assert (Hw1 : awf z1) by (split; rewrite Hc1; simpl; lia).
  eapply runs_step; [apply (filled_eq _ b a); [|done]|].
  { rewrite view_insert_ne by done. by apply view_app. }
  eapply runs_step; [apply (setFilled_eq _ (Datatypes.length h) z1); [by apply (view_insert_eq _ _ z), view_fresh|done]|].
  apply runs_ret. rewrite list_insert_insert_eq, insert_app_r_alt, Nat.sub_diag by done.
  cbn [insert list_insert]. rewrite Hc1, Z.min_id. unfold wf, rest. cbn [data pos]. rewrite view_fresh. split_and!.
  - exists (mkGcBytes (gfilled a) (v z1)). unfold gcount in Hc1 |- *. cbn [v].
    split_and!; [done|split; unfold gcount; cbn [gfilled v]|lia|lia|by rewrite Ez]; lia.
  - cbn [v]. rewrite Ez. done.
  - apply frame_alloc.
Qed.
End MemIStreamLaws.

(** ** Writing *)

Module MemOStreamCorrect.
Import MemOStream.

Section write.
Context (s : MemOStream) (h : heap) (d : GcBytes) (src : Buffer.Buffer) (a : GcBytes) (start : Z).
Context (Hd : view h (data s) = Some d) (Hwd : awf d) (Hs : view h src = Some a) (Hw : awf a).
Context (Hstart : 0 ≤ start).

(** The bytes to write, and the size of the new buffer if there is one. *)
Definition input : list Z := drop (Z.to_nat start) (BufferCorrect.data a).
Definition newSize : Z := Z.max (Z.max (u32 (gcount d * 2)) (zlen input)) 1024.

Definition fits : Prop := gfilled d + zlen input < gcount d ∨ gfilled d + zlen input ≤ newSize.

Lemma zlen_input : zlen input = gfilled a - Z.min start (gfilled a).
Proof. unfold input. rewrite <- (zlen_data a Hw). unfold zlen. rewrite length_drop. lia. Qed.

Lemma slice_input : slice (v a) (Z.min start (gfilled a)) (zlen input) = input.
Proof.
  destruct (Hw) as [Hf Hc]. rewrite zlen_input. rewrite slice_rest by lia. unfold input, BufferCorrect.data.
  destruct (decide (start ≤ gfilled a)); [by rewrite Z.min_l|]. rewrite !drop_ge; [done|rewrite length_take; lia..].
Qed.

(** The call from the place where the new buffer, if any, is there. *)
Lemma write_tail l d' h' : h' !! l = Some d' → awf d' → view h' src = Some a → gfilled d' = gfilled d →
  src ≠ Some l ∨ src = Some l ∧ d' = a → gfilled d + zlen input < 2 ^ 32 → 0 ≤ gfilled d →
  (_ ← Buffer.memcpy (Some l) (gfilled d) src (Z.min start (gfilled a)) (zlen input);
   _ ← Buffer.setFilled (Some l) (u32 (gfilled d + zlen input));
   mret (mkMemOStream (Some l), zlen input)) h' =
  if decide (gfilled d + zlen input ≤ gcount d')
  then Ret (mkMemOStream (Some l), zlen input, <[l := appended d' input]> h') else Fault.
Proof.
  intros Hl Hw' Hs' Hf Hne Hov H0. destruct (Hw) as [Hfa Hca], (Hw') as [Hfd Hcd]. pose proof zlen_input as Hz.
  rewrite u32_small by (unfold is_u32; pose proof (zlen_nonneg input); lia). rewrite <- Hf in *. case_decide as Hfit.
  - rewrite (append_run l d' src a); try done; try lia; [by rewrite slice_input|].
    destruct Hne as [Hne|[_ ->]]; [by left|right; right; lia].
  - unfold mbind at 1, io_bind at 1. rewrite (memcpy_overrun h' l d' src a); [done|done|done|lia|lia].
Qed.

Lemma mem_write_run : gfilled d + zlen input < 2 ^ 32 → (∀ l, data s = Some l → src = Some l → d = a) →
  (fits ∧ ∃ l d' h', write s src start h = Ret (mkMemOStream (Some l), zlen input, h') ∧
     h' !! l = Some d' ∧ awf d' ∧ BufferCorrect.data d' = BufferCorrect.data d ++ input ∧
     (gcount d' = gcount d ∨ gcount d' = newSize) ∧
     (data s = Some l ∨ l = length h) ∧ frame (λ k, data s = Some k) h h') ∨
  (¬ fits ∧ write s src start h = Fault).
Proof.
  intros Hov Hal. destruct (Hw) as [Hfa Hca], (Hwd) as [Hfd Hcd]. pose proof zlen_input as Hz. pose proof (zlen_nonneg input) as Hz0.
  assert (E : write s src start h =
    (b ← (if gcount d <=? gfilled d + zlen input then Buffer.grow (data s) newSize else mret (data s));
     _ ← Buffer.memcpy b (gfilled d) src (Z.min start (gfilled a)) (zlen input);
     _ ← Buffer.setFilled b (u32 (gfilled d + zlen input));
     mret (mkMemOStream b, zlen input)) h).
  { unfold write. rewrite !(bind_eq _ _ _ _ _ (filled_eq h src a Hs Hw)).
    rewrite (bind_eq _ _ _ _ _ (filled_eq h (data s) d Hd Hwd)), (bind_eq _ _ _ _ _ (count_eq h (data s) d Hd Hwd)).
    rewrite (u32_small (gfilled a - Z.min start (gfilled a))) by (unfold is_u32; lia). rewrite <- Hz.
    rewrite (u32_small (gfilled d + zlen input)) at 1 by (unfold is_u32; lia).
    unfold mbind, io_bind. case_match; [|done]. rewrite (count_eq h (data s) d Hd Hwd). done. }
  rewrite E. unfold fits. destruct (Z.leb_spec (gcount d) (gfilled d + zlen input)) as [Hgrow|Hroom].
  - destruct (decide (gfilled d ≤ newSize)) as [Hok|Hbad].
    + assert (Hn : newSize < 2 ^ 32) by (unfold newSize; pose proof (u32_range (gcount d * 2)); unfold is_u32 in *; lia).
      destruct (grow_run h (data s) d Hd Hwd newSize ltac:(lia)) as (d1 & Eg & Hw1 & Hd1 & Hc1).
      rewrite (bind_eq _ _ _ _ _ Eg).
      assert (Hf1 : gfilled d1 = gfilled d) by (rewrite <- (zlen_data d1 Hw1), Hd1; by apply zlen_data).
      rewrite (write_tail (length h) d1); [|apply view_fresh|done|by apply view_app|done| |done|lia].
      2: { left. intros ->. apply view_lt in Hs. lia. }
      rewrite Hc1. case_decide; [left|right; split; [lia|done]]. split; [by right|].
      exists (length h), (appended d1 input), (h ++ [appended d1 input]).
      rewrite insert_app_r_alt, Nat.sub_diag by done. split_and!; [done|apply view_fresh|apply appended_awf; [done|lia]| | |by right|apply frame_alloc].
      * rewrite appended_data, Hd1 by (done || lia). done.
      * right. by rewrite appended_count by (done || lia).
    + right. split; [lia|]. unfold mbind at 1, io_bind at 1. by rewrite (grow_overrun h (data s) d) by (done || unfold newSize in *; lia).
  - left. split; [by left|]. change (mret (data s) ≫= ?f) with (mbind f (mret (data s))).
    destruct (data s) as [l|] eqn:El; [|simpl in Hd; injection Hd as <-; unfold gcount, zlen in Hroom; simpl in *; lia].
    rewrite (bind_eq _ _ h (Some l) h) by done.
    rewrite (write_tail l d h); try done; try lia.
    2: { destruct (decide (src = Some l)); [right; split; [done|by eapply Hal]|by left]. }
    rewrite decide_True by lia. exists l, (appended d input), (<[l := appended d input]> h).
    split_and!; [done|by apply (view_insert_eq h l d)|apply appended_awf; [done|lia]|apply appended_data; [done|lia]| |by left|by apply frame_insert].
    left. by rewrite appended_count by (done || lia).
Qed.
End write.

(** C30: [MemOStream::write] appends the bytes from [start] on and returns how many there were,
    if they fit in the buffer, grown to twice its size, to the size of the input or to 1024
    bytes; if they do not fit then, it writes outside of the buffer. *)
Theorem mem_write_spec s h d src a start :
  view h (data s) = Some d → awf d → view h src = Some a → awf a → 0 ≤ start → src ≠ data s →
  gfilled d + zlen (input a start) < 2 ^ 32 →
  if decide (gfilled d + zlen (input a start) < gcount d ∨ gfilled d + zlen (input a start) ≤ newSize d a start)
  then ∃ l d' h', write s src start h = Ret (mkMemOStream (Some l), zlen (input a start), h') ∧
    h' !! l = Some d' ∧ awf d' ∧ BufferCorrect.data d' = BufferCorrect.data d ++ input a start ∧
    frame (λ k, data s = Some k) h h'
  else write s src start h = Fault.
Proof.
  intros Hd Hwd Hs Hw Hstart Hne Hov.
  destruct (mem_write_run s h d src a start Hd Hwd Hs Hw Hstart Hov) as [[Hf (l & d' & h' & ? & ? & ? & ? & _ & _ & ?)]|[Hf ?]].
  - intros l El Es. by rewrite El, Es in Hne.
  - rewrite decide_True by done. by exists l, d', h'.
  - by rewrite decide_False.
Qed.

Lemma mem_write_spec_witness :
  let h := [mkGcBytes 2 [7; 8; 0; 0]; mkGcBytes 3 [1; 2; 3]] in
  ∃ l d' h', write (mkMemOStream (Some 0%nat)) (Some 1%nat) 1 h = Ret (mkMemOStream (Some l), 2, h') ∧
    h' !! l = Some d' ∧ awf d' ∧ BufferCorrect.data d' = [7; 8; 2; 3] ∧ frame (λ k, Some 0%nat = Some k) h h'.
Proof.
  apply (mem_write_spec (mkMemOStream (Some 0%nat)) [mkGcBytes 2 [7; 8; 0; 0]; mkGcBytes 3 [1; 2; 3]]
    (mkGcBytes 2 [7; 8; 0; 0]) (Some 1%nat) (mkGcBytes 3 [1; 2; 3]) 1);
    [reflexivity|split; unfold gcount, zlen; simpl; lia|reflexivity|split; unfold gcount, zlen; simpl; lia|lia|discriminate|reflexivity].
Defined.

(** Two writes to a new [MemOStream] that overrun its buffer: after 1000 bytes it has room
    for 1024, and 2000 more make it grow to 2048. *)
Theorem mem_write_overruns :
  (b ← Buffer.bufferOf (replicate 1000 65); '(s, _) ← write new b 0;
   b ← Buffer.bufferOf (replicate 2000 66); write s b 0) [] = Fault.
Proof. vm_compute. reflexivity. Qed.

(** ** Small writes *)

(** Write the chunks one after the other, each from a buffer of its own. *)
Fixpoint writes (s : MemOStream) (xs : list (list Z)) : io MemOStream :=
  match xs with
  | [] => mret s
  | x :: xs => b ← Buffer.bufferOf x; '(s, _) ← write s b 0; writes s xs
  end.

(** The buffer of a stream that only small chunks were written to. *)
Definition small (s : MemOStream) (h : heap) (x : list Z) : Prop :=
  ∃ d, view h (data s) = Some d ∧ awf d ∧ BufferCorrect.data d = x ∧ (gcount d = 0 ∨ 1024 ≤ gcount d).

Lemma write_small s h x y : small s h x → zlen y ≤ 1024 → zlen x + zlen y < 2 ^ 31 →
  runs (b ← Buffer.bufferOf y; write s b 0) h (λ '(s', n) h', n = zlen y ∧ small s' h' (x ++ y)).
Proof.
  intros (d & Hd & Hwd & Hx & Hc) Hy Hov. destruct (Hwd) as [Hf Hcd]. pose proof (zlen_nonneg y).
  assert (Hfx : gfilled d = zlen x) by (rewrite <- Hx; symmetry; by apply zlen_data).
  eapply runs_step; [apply bufferOf_eq; lia|]. set (a := mkGcBytes (zlen y) y).
  assert (Hin : input a 0 = y) by apply full_data.
  destruct (mem_write_run s (h ++ [a]) d (Some (length h)) a 0) as [[_ (l & d' & h' & E & Hl & Hw' & Hdat & Hcnt & _)]|[Hno _]];
    [by apply view_app|done|apply view_fresh|by apply full_awf; lia|lia|rewrite Hin; lia| | |].
  - intros l El [= <-]. rewrite El in Hd. apply view_lt in Hd. lia.
  - unfold runs. rewrite E. rewrite Hin. simpl. split; [done|]. exists d'. rewrite Hin, Hx in Hdat. split_and!; try done.
    destruct Hcnt as [->| ->]; [done|unfold newSize; right; lia].
  - exfalso. apply Hno. unfold fits, newSize. rewrite Hin. destruct (decide (gcount d < 2 ^ 31)).
    + right. rewrite u32_small by (unfold is_u32; lia). lia.
    + left. lia.
Qed.

Lemma writes_small s h x xs : small s h x → Forall (λ y, zlen y ≤ 1024) xs → zlen x + zlen (mjoin xs) < 2 ^ 31 →
  runs (writes s xs) h (λ s' h', small s' h' (x ++ mjoin xs)).
Proof.
  revert s h x. induction xs as [|y xs IH]; intros s h x Hs Hxs Hov; [by apply runs_ret; simpl; rewrite app_nil_r|].
  apply Forall_cons_1 in Hxs as [Hy Hxs]. simpl in Hov. rewrite zlen_app in Hov.
  pose proof (zlen_nonneg (mjoin xs)). pose proof (write_small s h x y Hs Hy ltac:(lia)) as HW.
  apply runs_exists in HW as ([s' n] & h' & E & _ & Hs'). apply bind_inv in E as (b & h1 & Eb & Ew).
  cbn [writes]. eapply runs_step; [exact Eb|]. eapply runs_step; [exact Ew|].
  eapply runs_mono; [apply (IH s' h' (x ++ y)); [done|done|rewrite zlen_app; lia]|].
  intros s2 h2. simpl. by rewrite <- app_assoc.
Qed.

(** C12: What was written to a [MemOStream] in chunks of at most 1024 bytes is read back from a
    [MemIStream] of its buffer: [fill] with [n] gives the first [n] bytes, or all if there
    are less, and the rest remains in the stream. *)
Theorem mem_roundtrip xs n h : Forall (λ y, zlen y ≤ 1024 ∧ Forall is_u8 y) xs → zlen (mjoin xs) < 2 ^ 31 → 0 ≤ n < 2 ^ 32 →
  runs (s ← writes new xs; i ← MemIStream.new (buffer s); Istream.fillCount i n) h
    (λ '(i, b) h', ∃ a, view h' b = Some a ∧ BufferCorrect.data a = take (Z.to_nat n) (mjoin xs) ∧
      bytes i h' = drop (Z.to_nat n) (mjoin xs)).
Proof.
  intros Hxs Hov Hn.
  eapply runs_bind; [apply (writes_small new h [] xs); [|by eapply Forall_impl; [|exact Hxs]; intros ? [? _]|by rewrite Z.add_0_l]|].
  { by exists (mkGcBytes 0 []); split_and!; [| apply awf_null| |left]. }
  simpl. intros s h1 (d & Hd & Hwd & Hdat & _).
  assert (Hu : Forall is_u8 (mjoin xs)).
  { clear -Hxs. induction Hxs as [|y xs [_ Hy] _ IH]; [constructor|]. simpl. by apply Forall_app. }
  eapply runs_bind; [apply (MemIStreamLaws.new_run h1 (data s) d Hd Hwd); by rewrite Hdat|].
  intros i h2 (Hi & Hr & _). rewrite Hdat in Hr.
  unfold Istream.fillCount. eapply runs_step; [apply buffer_eq|]. set (z := mkGcBytes 0 _).
  destruct (owns_frame i h2 (h2 ++ [z]) (λ _, False)) as [Hi' Hb']; [done|apply frame_alloc|by intros ? ?|].
  eapply runs_mono; [apply (fill_run i _ (length h2) z Hi'); [|apply view_fresh|by apply awf_fresh]|].
  { intros Ho%(owns_lt i h2); [lia|done]. }
  intros r h3 (i' & l & a' & -> & Hl & _ & _ & Hda & Hra & _). exists a'. rewrite Hb' in *.
  assert (Hzn : gcount z = n) by (unfold gcount, z; simpl; rewrite zlen_replicate; lia).
  change (bytes i h2) with (MemIStreamLaws.rest i h2) in *. rewrite Hzn, Hr in *. by split_and!.
Qed.

Lemma mem_roundtrip_witness :
  runs (s ← writes new [[1; 2; 3]; [4]; [5; 6]]; i ← MemIStream.new (buffer s); Istream.fillCount i 4) []
    (λ '(i, b) h', ∃ a, view h' b = Some a ∧ BufferCorrect.data a = [1; 2; 3; 4] ∧ bytes i h' = [5; 6]).
Proof.
  apply (mem_roundtrip [[1; 2; 3]; [4]; [5; 6]] 4 []); [|reflexivity|lia].
  repeat (constructor; [split; [unfold zlen; simpl; lia|repeat (constructor; [unfold is_u8; lia|]); constructor]|]). constructor.
Defined.

End MemOStreamCorrect.

(** ** Streams on another thread *)

(** A call of a stream that belongs to another thread copies the buffer, and returns the
    copy. *)
Module Remote.
Record Remote (T : Type) := mkRemote { inner : T }.
Arguments mkRemote {T}.
Arguments inner {T}.

#[global] Instance istream {T} `{IStream T} : IStream (Remote T) := {|
  Stream.more s := Stream.more (inner s);
  Stream.read s b := b ← Buffer.deepCopy b; '(t, b) ← Stream.read (inner s) b; mret (mkRemote t, b);
  Stream.peek s b := b ← Buffer.deepCopy b; '(t, b) ← Stream.peek (inner s) b; mret (mkRemote t, b) |}.

Section laws.
Context {T : Type} `{IStreamLaws T}.

#[global] Instance heapObject : HeapObject (Remote T).
Proof.
  refine {| owf s h := owf (inner s) h; owns s l := owns (inner s) l; bytes s h := bytes (inner s) h |}.
  - intros s h l. apply owns_lt.
  - intros s h h'. apply owns_stable.
Defined.

#[global] Instance istreamLaws : IStreamLaws (Remote T).
Proof.
  split; [intros s h; apply (bytes_u8 (inner s))|]. intros s h l a Hs Hno Hl Hw Hfree. cbn [Stream.read istream]. simpl in Hs, Hno.
  eapply runs_step; [by apply (deepCopy_run h (Some l) a Hl Hw l)|].
  destruct (owns_frame (inner s) h (h ++ [a]) (λ _, False)) as [Hs1 Hb1]; [done|apply frame_alloc|by intros ? ?|].
  eapply runs_bind; [apply (read_law (inner s) (h ++ [a]) (length h) a); [done| |apply view_fresh|done|done]|].
  { intros Ho%(owns_lt (inner s) h); [lia|done]. }
  intros r h2 (k & Hk & Hend & t & l2 & a2 & -> & Hl2 & Hw2 & Hc2 & Hd2 & Hb2 & Hs2 & Hno2 & Hown & HF & Hnew).
  rewrite length_app in *. simpl in Hown, Hnew. rewrite Hb1 in *.
  apply runs_ret. exists k. split_and!; [done|done|]. exists (mkRemote t), l2, a2. split_and!; try done.
  - intros j Hj. destruct (Hown j Hj); [by left|right; lia].
  - apply (frame_trans _ (λ j, owns (inner s) j ∨ j = length h) _ (h ++ [a])); [apply frame_alloc|done|].
    intros j [Hj| ->]; [by left; left|by right].
  - right. destruct Hnew; lia.
Qed.
End laws.
End Remote.

(** [IStream::readByte] looks for the byte in the buffer it passed to [read] instead of in
    the one it got back: from a stream that returns a copy of the buffer, as the interface
    allows (and as it is when the stream belongs to another thread), it reads 0, where
    [readNat] reads the number. *)
Theorem readByte_ignores_result :
  (match (b ← Buffer.bufferOf [65]; i ← MemIStream.new b; Istream.readByte (Remote.mkRemote i)) [] with
   | Ret (_, x, _) => x = 0 | _ => False end) ∧
  (match (b ← Buffer.bufferOf [0; 0; 0; 65]; i ← MemIStream.new b; Istream.readNat (Remote.mkRemote i)) [] with
   | Ret (_, x, _) => x = 65 | _ => False end).
Proof. vm_compute. done. Qed.
