(* ===== verification/PeekStream.v ===== *)
(** * Streams with lookahead

    [Core/Io/PeekStream.h] and [Core/Io/PeekStream.cpp]: a buffer in front of a source that
    can only be read, so that [peek] is possible.  The virtual function [doRead] is an
    operation of the source. *)

From stdpp Require Import base list numbers decidable option.
From Stdlib Require Import ZArith Lia.
From S2P Require Import Prelude Buffer Stream.

Module PeekReadResult.
Record PeekReadResult := mkPeekReadResult { fail : bool; bytesRead : Z }.
Definition end_ : PeekReadResult := mkPeekReadResult false 0.
Definition success (bytes : Z) : PeekReadResult := mkPeekReadResult false bytes.
Definition timeout : PeekReadResult := mkPeekReadResult true 0.
Definition timedOut (r : PeekReadResult) : bool := fail r.
End PeekReadResult.

(** [doRead(to, count)]: the source afterwards, the bytes it put at [to], and the result. *)
Class PeekSource (R : Type) := doRead : R → Z → R * list Z * PeekReadResult.PeekReadResult.

(** What the source does to the memory at [l], from [off]. *)
Definition put (b : Buffer.Buffer) (off : Z) (x : list Z) : io unit :=
  match x with
  | [] => mret tt
  | _ => match b with
         | None => fault
         | Some l =>
             a ← load l;
             if (0 <=? off) && (off + zlen x <=? gcount a) then store l (mkGcBytes (gfilled a) (splice (v a) off x)) else fault
         end
  end.

Module PeekIStream.
Section peek.
Context {R : Type} `{PeekSource R}.

Record PeekIStream := mkPeekIStream {
  lookahead : option nat;
  lookaheadStart : Z;
  atEof : bool;
  source : R;
}.

Definition new (r : R) : PeekIStream := mkPeekIStream None 0 false r.

Definition lookaheadAvail (s : PeekIStream) : io Z :=
  match lookahead s with
  | None => mret 0
  | Some l => a ← load l; mret (u32 (gfilled a - lookaheadStart s))
  end.

Definition ensureLookahead (s : PeekIStream) (n : Z) : io PeekIStream :=
  match lookahead s with
  | None => l ← alloc n; mret (mkPeekIStream (Some l) (lookaheadStart s) (atEof s) (source s))
  | Some l =>
      a ← load l;
      if n <=? u64 (gcount a - lookaheadStart s) then mret s
      else
        let preserve := u32 (gfilled a - lookaheadStart s) in
        t ← alloc n;
        ta ← load t;
        _ ← store t (mkGcBytes preserve (v ta));
        _ ← Buffer.memcpy (Some t) 0 (Some l) (lookaheadStart s) preserve;
        mret (mkPeekIStream (Some t) 0 (atEof s) (source s))
  end.

(** The copy constructor; [r] is the source of the copy, which a subclass makes. *)
Definition copy (o : PeekIStream) (r : R) : io PeekIStream :=
  toCopy ← lookaheadAvail o;
  let s := mkPeekIStream None 0 false r in
  if 0 <? toCopy then
    s ← ensureLookahead s toCopy;
    _ ← Buffer.memcpy (lookahead s) 0 (lookahead o) (lookaheadStart o) toCopy;
    mret s
  else mret s.

Definition more (s : PeekIStream) : io bool :=
  avail ← lookaheadAvail s; if 0 <? avail then mret true else mret (negb (atEof s)).

(** [if (r.bytesRead() == 0) atEof = !r.timedOut();] *)
Definition updateEof (s : PeekIStream) (r : PeekReadResult.PeekReadResult) : bool :=
  if PeekReadResult.bytesRead r =? 0 then negb (PeekReadResult.timedOut r) else atEof s.

Definition read (s : PeekIStream) (b : Buffer.Buffer) : io (PeekIStream * Buffer.Buffer) :=
  start ← Buffer.filled b;
  c ← Buffer.count b;
  let read := u32 (c - start) in
  if read =? 0 then mret (s, b)
  else
    avail ← lookaheadAvail s;
    '(s, start, read) ←
      (if 0 <? avail then
         let copy := Z.min read avail in
         _ ← Buffer.memcpy b start (lookahead s) (lookaheadStart s) copy;
         let s := mkPeekIStream (lookahead s) (u32 (lookaheadStart s + copy)) (atEof s) (source s) in
         let start := u32 (start + copy) in
         let read := u32 (read - copy) in
         _ ← Buffer.setFilled b start;
         mret (s, start, read)
       else mret (s, start, read));
    if read =? 0 then mret (s, b)
    else
      let '(r, x, res) := doRead (source s) read in
      _ ← put b start x;
      let s := mkPeekIStream (lookahead s) (lookaheadStart s) (updateEof s res) r in
      _ ← Buffer.setFilled b (u32 (PeekReadResult.bytesRead res + start));
      mret (s, b).

Definition doLookahead (s : PeekIStream) (bytes : Z) : io (PeekIStream * Z) :=
  avail ← lookaheadAvail s;
  if bytes <=? avail then mret (s, avail)
  else
    s ← ensureLookahead s bytes;
    let read := u32 (bytes - avail) in
    match lookahead s with
    | None => fault
    | Some l =>
        a ← load l;
        let '(r, x, res) := doRead (source s) read in
        _ ← put (Some l) (gfilled a) x;
        a ← load l;
        _ ← store l (mkGcBytes (u64 (gfilled a + PeekReadResult.bytesRead res)) (v a));
        let s := mkPeekIStream (Some l) (lookaheadStart s) (updateEof s res) r in
        avail ← lookaheadAvail s;
        mret (s, avail)
    end.

Definition peek (s : PeekIStream) (b : Buffer.Buffer) : io (PeekIStream * Buffer.Buffer) :=
  start ← Buffer.filled b;
  c ← Buffer.count b;
  let toPeek := u32 (c - start) in
  '(s, avail) ← doLookahead s toPeek;
  match lookahead s with
  | None => mret (s, b)
  | Some l =>
      let toPeek := Z.min toPeek avail in
      _ ← Buffer.memcpy b start (Some l) (lookaheadStart s) toPeek;
      _ ← Buffer.setFilled b (u32 (toPeek + start));
      mret (s, b)
  end.

Definition close (s : PeekIStream) : PeekIStream := mkPeekIStream None 0 (atEof s) (source s).

#[global] Instance istream : IStream PeekIStream := {| Stream.more := more; Stream.read := read; Stream.peek := peek |}.
End peek.
Arguments PeekIStream R : clear implicits.
End PeekIStream.

(** The default implementation of [doRead]. *)
Definition noSource : PeekSource unit := λ r _, (r, [], PeekReadResult.end_).
