(* ===== verification/PeekStreamCorrect.v ===== *)
(** * Streams with lookahead: correctness

    The bytes of a stream are those in the lookahead buffer and then those of the source.
    [peek] leaves them as they are, [read] removes what it returns. *)

From stdpp Require Import base list numbers decidable option.
From Stdlib Require Import ZArith Lia.
From S2P Require Import Prelude Buffer BufferCorrect Stream StreamCorrect PeekStream.

(** What is expected of [doRead]: it returns bytes that are next in the source, at most as
    many as asked for; none at the end, or when the time is up. *)
Class SourceLaws (R : Type) `{PeekSource R} := {
  rest : R → list Z;
  rest_u8 r : Forall is_u8 (rest r);
  doRead_law r n : 0 < n → ∃ r' k res, doRead r n = (r', take k (rest r), res) ∧ rest r' = drop k (rest r) ∧
    Z.of_nat k ≤ n ∧ PeekReadResult.bytesRead res = zlen (take k (rest r)) ∧
    (take k (rest r) = [] → PeekReadResult.timedOut res = false → rest r = []);
}.

(** A source that does not time out. *)
Class NoTimeouts (R : Type) `{PeekSource R} :=
  no_timeouts r n r' x res : doRead r n = (r', x, res) → PeekReadResult.timedOut res = false.

Section put.
Context (h : heap) (l : nat) (a : GcBytes) (Hl : h !! l = Some a).

Lemma put_eq off x : 0 ≤ off → off + zlen x ≤ gcount a →
  put (Some l) off x h = Ret (tt, <[l := mkGcBytes (gfilled a) (splice (v a) off x)]> h).
Proof.
  intros Ho Hx. unfold put. destruct x as [|y x].
  - rewrite splice_nil. unfold mret, io_ret. rewrite list_insert_id; [done|]. by destruct a.
  - rewrite (bind_eq _ _ _ _ _ (load_eq h l a Hl)).
    rewrite (proj2 (Z.leb_le 0 off)), (proj2 (Z.leb_le _ _)) by lia. done.
Qed.

(** Bytes that are put at the mark, before the mark is moved. *)
Lemma put_awf x : awf a → gfilled a + zlen x ≤ gcount a →
  awf (mkGcBytes (gfilled a) (splice (v a) (gfilled a) x)) ∧
  gcount (mkGcBytes (gfilled a) (splice (v a) (gfilled a) x)) = gcount a.
Proof.
  intros Hw Hx. pose proof (appended_count a x Hw Hx) as E. destruct Hw as [Hf Hc]. pose proof (zlen_nonneg x).
  unfold appended, gcount in *. simpl in *. split; [split; unfold gcount; simpl; lia|done].
Qed.
End put.

Module PeekLaws.
Import PeekIStream.
Section laws.
Context {R : Type} `{SourceLaws R}.
Implicit Types s : PeekIStream R.

Definition pending s (h : heap) : list Z :=
  match lookahead s with
  | None => []
  | Some l => match h !! l with Some a => drop (Z.to_nat (lookaheadStart s)) (data a) | None => [] end
  end.

Definition wf s (h : heap) : Prop :=
  match lookahead s with
  | None => lookaheadStart s = 0
  | Some l => ∃ a, h !! l = Some a ∧ awf a ∧ 0 ≤ lookaheadStart s ≤ gfilled a ∧ Forall is_u8 (data a)
  end ∧ (atEof s = true → rest (source s) = []).

#[global] Instance heapObject : HeapObject (PeekIStream R).
Proof.
  refine {| owf := wf; owns s l := lookahead s = Some l; bytes s h := pending s h ++ rest (source s) |}.
  - intros s h l [Hs _] El. rewrite El in Hs. destruct Hs as (a & Ha & _). by apply lookup_lt_Some in Ha.
  - intros s h h' Hs Hst. unfold wf, pending in *. destruct (lookahead s) as [l|]; [|done].
    by rewrite (Hst l).
Defined.

Lemma avail_eq s h : wf s h → lookaheadAvail s h = Ret (zlen (pending s h), h).
Proof.
  intros [Hs _]. unfold lookaheadAvail, pending. destruct (lookahead s) as [l|]; [|done].
  destruct Hs as (a & Ha & Hw & Hst & _). rewrite (bind_eq _ _ _ _ _ (load_eq h l a Ha)), Ha.
  destruct (Hw). unfold mret, io_ret. rewrite u32_small by (unfold is_u32; lia).
  unfold zlen. rewrite length_drop. pose proof (zlen_data a Hw). unfold zlen in *. do 2 f_equal. lia.
Qed.

Lemma pending_u8 s h : wf s h → Forall is_u8 (pending s h).
Proof.
  intros [Hs _]. unfold pending. destruct (lookahead s) as [l|]; [|constructor].
  destruct Hs as (a & Ha & _ & _ & Hu). rewrite Ha. by apply Forall_drop.
Qed.

(** The part of the lookahead that [read] and [peek] copy. *)
Lemma pending_slice s h l a k : lookahead s = Some l → h !! l = Some a → awf a → 0 ≤ lookaheadStart s ≤ gfilled a →
  0 ≤ k ≤ zlen (pending s h) →
  lookaheadStart s + k ≤ gcount a ∧ slice (v a) (lookaheadStart s) k = take (Z.to_nat k) (pending s h).
Proof.
  intros El Ha Hw Hst Hk. pose proof (zlen_data a Hw) as Hz. destruct Hw as [Hf Hc]. unfold pending in *.
  rewrite El, Ha in *. unfold zlen in Hk, Hz. rewrite length_drop in Hk. split; [lia|].
  unfold data in *. rewrite <- (slice_take _ _ _ (gfilled a)) by lia. done.
Qed.

(** [atEof] is set when the source is at its end. *)
Lemma eof_ok s r k res : (atEof s = true → rest (source s) = []) → rest r = drop k (rest (source s)) →
  PeekReadResult.bytesRead res = zlen (take k (rest (source s))) →
  (take k (rest (source s)) = [] → PeekReadResult.timedOut res = false → rest (source s) = []) →
  updateEof s res = true → rest r = [].
Proof.
  intros He Hr Hb Hend. unfold updateEof. rewrite Hb.
  destruct (Z.eqb_spec (zlen (take k (rest (source s)))) 0) as [Hz|_].
  - intros Ht. rewrite Hr, Hend; [apply drop_nil| |by destruct (PeekReadResult.timedOut res)].
    apply nil_length_inv. unfold zlen in Hz. lia.
  - intros Ht. rewrite Hr, He by done. apply drop_nil.
Qed.

(** ** The part of [read] that takes bytes from the lookahead *)

Section read.
Context s (h : heap) (l : nat) (a : GcBytes) (Hs : wf s h) (Hne : lookahead s ≠ Some l).
Context (Hl : h !! l = Some a) (Hw : awf a).
Notation p := (pending s h).
Notation n := (gcount a - gfilled a).
Notation c := (Z.min n (zlen p)).
Notation s1 := (mkPeekIStream (lookahead s) (lookaheadStart s + c) (atEof s) (source s)).
Notation a1 := (appended a (take (Z.to_nat c) p)).
Notation h1 := (<[l := a1]> h).

Lemma c_length : zlen (take (Z.to_nat c) p) = c.
Proof. destruct Hw. unfold zlen in *. rewrite length_take. lia. Qed.

Lemma a1_wf : awf a1 ∧ gcount a1 = gcount a ∧ data a1 = data a ++ take (Z.to_nat c) p ∧ gfilled a1 = gfilled a + c.
Proof.
  pose proof c_length as E. destruct (Hw). assert (gfilled a + zlen (take (Z.to_nat c) p) ≤ gcount a) by lia.
  split_and!; [by apply appended_awf|by apply appended_count|by apply appended_data|]. unfold appended. cbn [gfilled]. lia.
Qed.

Lemma wf1 a' eof r : (eof = true → rest r = []) →
  let s' := mkPeekIStream (lookahead s) (lookaheadStart s + c) eof r in
  wf s' (<[l := a']> h) ∧ pending s' (<[l := a']> h) = drop (Z.to_nat c) p.
Proof.
  intros He. destruct Hs as [Hs0 _]. unfold wf, pending in *. cbn [lookahead lookaheadStart atEof source].
  destruct (lookahead s) as [k|].
  - destruct Hs0 as (ka & Hka & Hwk & Hst & Hu). rewrite list_lookup_insert_ne by (intros ->; done). rewrite Hka in *.
    pose proof (zlen_data ka Hwk) as Hz. destruct Hw. unfold zlen in *. rewrite length_drop in *. split.
    + split; [|done]. exists ka. split_and!; [done|done|lia|lia|done].
    + rewrite drop_drop. f_equal. lia.
  - destruct Hw. unfold zlen. simpl. rewrite Z.min_r by lia. split; [split; [lia|done]|done].
Qed.

Lemma phase1_eq :
  (if 0 <? zlen p then
     let copy := Z.min n (zlen p) in
     _ ← Buffer.memcpy (Some l) (gfilled a) (lookahead s) (lookaheadStart s) copy;
     let s' := mkPeekIStream (lookahead s) (u32 (lookaheadStart s + copy)) (atEof s) (source s) in
     let start := u32 (gfilled a + copy) in
     let read := u32 (n - copy) in
     _ ← Buffer.setFilled (Some l) start;
     mret (s', start, read)
   else mret (s, gfilled a, n)) h = Ret (s1, gfilled a + c, n - c, h1).
Proof.
  destruct (Hw) as [Hf Hc]. destruct (Z.ltb_spec 0 (zlen p)) as [Hp|Hp].
  - destruct (lookahead s) as [k|] eqn:El; [|unfold pending in Hp; by rewrite El in Hp].
    destruct Hs as [Hs0 _]. rewrite El in Hs0. destruct Hs0 as (ka & Hka & Hwk & Hst & _).
    destruct (pending_slice s h k ka c El Hka Hwk Hst) as [Hin E]; [lia|]. destruct (Hwk).
    cbv zeta. rewrite (u32_small (lookaheadStart s + c)), (u32_small (gfilled a + c)), (u32_small (n - c)) by (unfold is_u32; lia).
    rewrite (append_run l a (Some k) ka) by (done || lia || by left). by rewrite E.
  - assert (zlen p = 0) as E by (pose proof (zlen_nonneg p); lia).
    rewrite E, Z.min_r, !Z.add_0_r, Z.sub_0_r by lia. simpl take. rewrite appended_nil, list_insert_id by done. by destruct s.
Qed.

Lemma read_run : 0 < n →
  runs (read s (Some l)) h (λ r h', ∃ k, Z.min n (zlen p) ≤ Z.of_nat k ≤ n ∧
    (k = 0%nat → NoTimeouts R → bytes s h = []) ∧ received s h l a k r h').
Proof.
  intros Hn. destruct (Hw) as [Hf Hc]. destruct a1_wf as (Hw1 & Hc1 & Hd1 & Hf1), (wf1 a1 (atEof s) (source s) (proj2 Hs)) as [Hs1 Hp1].
  destruct (Hw1) as [Hfw1 Hcw1].
  assert (Hl1 : h1 !! l = Some a1) by (by apply (view_insert_eq h l a)).
  unfold read. io_step filled_eq. io_step count_eq.
  rewrite (u32_small n) by (unfold is_u32; lia). rewrite (proj2 (Z.eqb_neq n 0)) by lia.
  eapply runs_step; [by apply avail_eq|]. eapply runs_step; [exact phase1_eq|]. cbv beta iota.
  destruct (Z.eqb_spec (n - c) 0) as [Hdone|Hmore].
  - (* Everything came from the lookahead. *)
    apply runs_ret. exists (Z.to_nat c). split_and!; [lia|lia|lia|].
    exists s1, l, a1. split_and!; try done; [| |by auto|by apply frame_insert; right|by left].
    + rewrite Hd1. f_equal. unfold bytes. simpl. rewrite take_app_le; [done|]. unfold zlen in *. lia.
    + unfold bytes. simpl. rewrite Hp1. rewrite drop_app_le; [done|]. unfold zlen in *. lia.
  - assert (Ec : c = zlen p) by lia.
    cbn [source lookahead lookaheadStart atEof].
    destruct (doRead_law (source s) (n - c)) as (r' & k & res & E & Hr & Hk & Hb & Hend); [lia|].
    rewrite E. cbv beta iota. set (x := take k (rest (source s))) in *.
    assert (Hx : zlen x ≤ Z.of_nat k) by (unfold zlen, x; rewrite length_take; lia).
    pose proof (zlen_nonneg x).
    assert (Hroom : gfilled a1 + zlen x ≤ gcount a1) by lia.
    destruct (put_awf a1 x Hw1 Hroom) as [Hw2 Hc2].
    eapply runs_step; [rewrite <- Hf1; apply (put_eq _ l a1); [done|lia|done]|].
    eapply runs_step; [apply setFilled_eq; [by apply (view_insert_eq _ l a1)|done]|]. apply runs_ret.
    rewrite !list_insert_insert_eq, Hb, <- Hf1, Hc2, u32_small by (unfold is_u32; lia).
    rewrite (Z.min_l (zlen x + _)), (Z.add_comm (zlen x)) by lia. cbn [v]. fold (appended a1 x).
    assert (Hp0 : drop (Z.to_nat c) p = []) by (apply drop_ge; unfold zlen in *; lia).
    assert (Hpa : take (Z.to_nat c) p = p) by (apply take_ge; unfold zlen in *; lia).
    exists (length p + k)%nat. split_and!; [unfold zlen in *; lia|unfold zlen in *; lia| |].
    + intros E0 Hnt. unfold bytes. simpl. assert (k = 0%nat) as -> by lia. destruct p; [|simpl in E0; lia].
      apply Hend; [done|]. by eapply no_timeouts.
    + destruct (wf1 (appended a1 x) (updateEof s1 res) r') as [Hs2 Hp2].
      { apply (eof_ok s1 r' k); [by apply Hs|done..]. }
      eexists _, l, (appended a1 x).
      split_and!; [done|by apply (view_insert_eq h l a)|by apply appended_awf|by rewrite appended_count| | | | |by auto|by apply frame_insert; right|by left].
      * rewrite appended_data, Hd1, Hpa, <- app_assoc by done. f_equal. unfold bytes. simpl.
        by rewrite take_app_add.
      * unfold bytes. simpl. by rewrite drop_app_add, <- Hr, Hp2, Hp0.
      * done.
      * done.
Qed.
End read.

(** ** Filling the lookahead *)

(** The lookahead buffer after a call: the old one, or a new one. *)
Definition sameOrNew s (h : heap) s' : Prop := lookahead s' = lookahead s ∨ lookahead s' = Some (length h).

Lemma ensureLookahead_run s h m : wf s h → 0 < m < 2 ^ 32 → zlen (pending s h) < m →
  runs (ensureLookahead s m) h (λ s' h', wf s' h' ∧ pending s' h' = pending s h ∧
    atEof s' = atEof s ∧ source s' = source s ∧
    (∃ l a, lookahead s' = Some l ∧ h' !! l = Some a ∧ lookaheadStart s' + m ≤ gcount a) ∧
    sameOrNew s h s' ∧ frame (λ _, False) h h').
Proof.
  intros Hs Hm Hp. destruct (Hs) as [Hs0 He]. unfold ensureLookahead, sameOrNew.
  set (z := mkGcBytes 0 (replicate (Z.to_nat m) 0)).
  assert (Hz : awf z) by (apply awf_fresh; lia).
  assert (Hzc : gcount z = m) by (unfold gcount, z; simpl; rewrite zlen_replicate; lia).
  unfold wf, pending in *. destruct (lookahead s) as [l|] eqn:El.
  - destruct Hs0 as (a & Ha & Hw & Hst & Hu). destruct (Hw) as [Hf Hc]. rewrite Ha in *.
    eapply runs_step; [by apply load_eq|]. rewrite u64_small by (unfold is_u64; lia).
    destruct (Z.leb_spec m (gcount a - lookaheadStart s)) as [Hroom|Hsmall].
    { apply runs_ret. rewrite El, Ha. split_and!; try done; [by exists a|exists l, a; split_and!; [done|done|lia]|by left]. }
    rewrite u32_small by (unfold is_u32; lia). set (k := gfilled a - lookaheadStart s).
    assert (Hk : slice (v a) (lookaheadStart s) k = drop (Z.to_nat (lookaheadStart s)) (data a))
      by (unfold k; by apply slice_rest).
    assert (Hkl : zlen (slice (v a) (lookaheadStart s) k) = k) by (apply zlen_slice; unfold k, gcount in *; lia).
    rewrite <- Hk in *. rewrite Hkl in Hp.
    eapply runs_step; [apply alloc_eq|]. fold z. eapply runs_step; [apply load_eq, view_fresh|].
    set (z1 := mkGcBytes k (v z)). assert (Hz1 : gcount z1 = m) by exact Hzc.
    eapply runs_step; [by unfold store; rewrite insert_app_r_alt, Nat.sub_diag by done|]. cbn [insert list_insert]. fold z1.
    assert (Hne : l ≠ length h) by (apply lookup_lt_Some in Ha; lia).
    eapply runs_step; [apply (memcpy_eq _ _ z1 _ a); [apply view_fresh|by apply (view_app h _ (Some l))|left; congruence|unfold k in *; lia..]|].
    rewrite insert_app_r_alt, Nat.sub_diag by done. cbn [insert list_insert].
    set (a2 := mkGcBytes _ _).
    assert (Hc2 : gcount a2 = m) by (unfold a2, gcount; cbn [v]; rewrite zlen_splice; unfold gcount in Hzc; simpl in *; lia).
    assert (Hd2 : data a2 = slice (v a) (lookaheadStart s) k).
    { unfold data, a2. cbn [gfilled v]. cbn [gfilled z1].
      replace k with (0 + zlen (slice (v a) (lookaheadStart s) k)) at 1 by lia.
      rewrite take_splice by (unfold gcount in Hzc; simpl in *; lia). done. }
    apply runs_ret. cbn [lookahead lookaheadStart atEof source]. rewrite list_lookup_middle by done.
    split_and!; try done; [|by exists (length h), a2; split_and!; [|apply view_fresh|lia]|by right|apply frame_alloc].
    exists a2. split_and!; try done; [split; rewrite Hc2; simpl; unfold k in *; lia|unfold k in *; simpl; lia|].
    rewrite Hd2. rewrite Hk. by apply Forall_drop.
  - eapply runs_step; [apply alloc_eq|]. fold z. apply runs_ret. cbn [lookahead lookaheadStart atEof source].
    rewrite list_lookup_middle, Hs0 by done. split_and!; try done; [|by exists (length h), z; split_and!; [|apply view_fresh|lia]|by right|apply frame_alloc].
    exists z. split_and!; done || constructor.
Qed.

(** The bytes that are added to the lookahead are those that come next. *)
Lemma appended_pending (L : list Z) st x : st ≤ Z.of_nat (length L) →
  drop (Z.to_nat st) (L ++ x) = drop (Z.to_nat st) L ++ x.
Proof. intros Hst. rewrite drop_app_le; [done|lia]. Qed.

Lemma doLookahead_run s h m : wf s h → 0 ≤ m < 2 ^ 32 →
  runs (doLookahead s m) h (λ '(s', n) h', wf s' h' ∧ bytes s' h' = bytes s h ∧ n = zlen (pending s' h') ∧ zlen (pending s h) ≤ n ∧
    (n = 0 → 0 < m → NoTimeouts R → bytes s h = []) ∧
    sameOrNew s h s' ∧ frame (λ k, lookahead s = Some k) h h').
Proof.
  intros Hs Hm. unfold doLookahead. eapply runs_step; [by apply avail_eq|].
  destruct (Z.leb_spec m (zlen (pending s h))) as [Hav|Hav].
  { apply runs_ret. split_and!; try done; [lia|by left]. }
  pose proof (zlen_nonneg (pending s h)).
  eapply runs_bind; [apply ensureLookahead_run; done || lia|].
  intros s1 h1 (Hs1 & Hp1 & He1 & Hr1 & (l & a & El & Ha & Hroom) & Hsn & HF1). rewrite El.
  destruct (Hs1) as [Hs10 Hs1e]. rewrite El in Hs10. destruct Hs10 as (a' & Ha' & Hw & Hst & Hu).
  rewrite Ha in Ha'. injection Ha' as <-. destruct (Hw) as [Hf Hc].
  assert (Hpz : zlen (pending s1 h1) = gfilled a - lookaheadStart s1).
  { unfold pending. rewrite El, Ha. pose proof (zlen_data a Hw). unfold zlen in *. rewrite length_drop. lia. }
  eapply runs_step; [by apply load_eq|]. rewrite u32_small by (unfold is_u32; lia).
  destruct (doRead_law (source s1) (m - zlen (pending s h))) as (r & k & res & E & Hr & Hk & Hb & Hend); [lia|].
  rewrite E. cbv beta iota. set (x := take k (rest (source s1))) in *.
  assert (Hx : 0 ≤ zlen x ≤ Z.of_nat k) by (unfold zlen, x; rewrite length_take; lia).
  assert (Hfit : gfilled a + zlen x ≤ gcount a) by (rewrite <- Hp1 in *; lia).
  eapply runs_step; [apply (put_eq h1 l a Ha); [lia|done]|].
  eapply runs_step; [by apply load_eq, (view_insert_eq h1 l a)|]. cbn [gfilled v]. rewrite Hb, u64_small by (unfold is_u64; lia).
  eapply runs_step; [unfold store; by rewrite list_insert_insert_eq|]. fold (appended a x).
  set (s2 := mkPeekIStream _ _ _ _). set (h2 := <[l := appended a x]> h1).
  assert (Ha2 : h2 !! l = Some (appended a x)) by (by apply (view_insert_eq h1 l a)).
  assert (Hd2 : data (appended a x) = data a ++ x) by (by apply appended_data).
  pose proof (zlen_data a Hw) as Hz. unfold zlen in Hz.
  assert (Hs2 : wf s2 h2).
  { split; [|by apply (eof_ok s1 r k)]. cbn [lookahead s2]. exists (appended a x).
    split_and!; [done|by apply appended_awf|cbn; lia|unfold appended; cbn [gfilled lookaheadStart s2]; lia|].
    rewrite Hd2. apply Forall_app. split; [done|]. unfold x. apply Forall_take, rest_u8. }
  assert (Hp2 : pending s2 h2 = pending s1 h1 ++ x).
  { unfold pending. cbn [lookahead lookaheadStart s2]. rewrite El, Ha2, Ha, Hd2. apply appended_pending. lia. }
  eapply runs_step; [by apply avail_eq|]. apply runs_ret. split_and!; try done; [|rewrite Hp2, Hp1, zlen_app; lia|..].
  - unfold bytes. simpl. rewrite Hp2, Hr, <- Hr1, <- app_assoc, Hp1. f_equal. apply take_drop.
  - intros Hn0 _ Hnt. rewrite Hp2, zlen_app in Hn0. unfold bytes. simpl. rewrite <- Hp1, <- Hr1.
    rewrite (nil_length_inv (pending s1 h1)) by (unfold zlen in *; lia). apply Hend; [|by eapply no_timeouts].
    apply nil_length_inv. unfold zlen in *. lia.
  - unfold sameOrNew in *. cbn [lookahead s2]. by rewrite <- El.
  - apply (frame_trans _ (λ k, k = l) _ h1); [|by apply frame_insert|].
    + destruct HF1 as [L F]. split; [done|]. intros j Hj _. apply F; [done|tauto].
    + intros j ->. unfold sameOrNew in Hsn. rewrite El in Hsn. destruct Hsn as [Hsn|[= ->]]; [by left|by right].
Qed.

Lemma peek_run s h l a : wf s h → lookahead s ≠ Some l → h !! l = Some a → awf a → 0 ≤ gcount a - gfilled a →
  runs (peek s (Some l)) h (λ '(s', b') h', ∃ a' k, b' = Some l ∧ h' !! l = Some a' ∧ awf a' ∧ gcount a' = gcount a ∧
    data a' = data a ++ take k (bytes s h) ∧ bytes s' h' = bytes s h ∧ wf s' h' ∧ lookahead s' ≠ Some l ∧
    Z.min (gcount a - gfilled a) (zlen (pending s h)) ≤ Z.of_nat k ≤ gcount a - gfilled a ∧ Z.of_nat k ≤ zlen (pending s' h') ∧
    (k = 0%nat → 0 < gcount a - gfilled a → NoTimeouts R → bytes s h = []) ∧ sameOrNew s h s' ∧ frame (λ j, lookahead s = Some j ∨ j = l) h h').
Proof.
  intros Hs Hne Hl Hw Hn. destruct (Hw) as [Hf Hc]. unfold peek. io_step filled_eq. io_step count_eq.
  rewrite u32_small by (unfold is_u32; lia). set (n := gcount a - gfilled a) in *.
  eapply runs_bind; [apply (doLookahead_run s h n); [done|lia]|].
  intros [s1 av] h1 (Hs1 & Hb1 & -> & Hgrow & Hend & Hsn & HF). pose proof (lookup_lt_Some _ _ _ Hl) as Hlt.
  assert (Hl1 : h1 !! l = Some a) by (destruct HF as [_ F]; rewrite F; done).
  assert (Hne1 : lookahead s1 ≠ Some l) by (destruct Hsn as [->| ->]; [done|]; intros [= ?]; lia).
  destruct (lookahead s1) as [k|] eqn:El.
  - destruct (Hs1) as [Hs10 _]. rewrite El in Hs10. destruct Hs10 as (ka & Hka & Hwk & Hst & _).
    pose proof (zlen_nonneg (pending s1 h1)).
    set (c := Z.min n (zlen (pending s1 h1))).
    destruct (pending_slice s1 h1 k ka c El Hka Hwk Hst) as [Hin E]; [unfold c; lia|].
    assert (Hcl : zlen (take (Z.to_nat c) (pending s1 h1)) = c) by (unfold zlen in *; rewrite length_take; unfold c; lia).
    rewrite (u32_small (c + gfilled a)) by (unfold is_u32, c; lia). rewrite (Z.add_comm c).
    unfold runs. rewrite (append_run l a (Some k) ka) by (done || (by left) || (unfold c; lia)). rewrite E.
    set (y := take (Z.to_nat c) (pending s1 h1)) in *. unfold mret, io_ret. cbn [returns].
    assert (Hfit : gfilled a + zlen y ≤ gcount a) by (unfold c in *; lia).
    destruct (owns_frame s1 h1 (<[l := appended a y]> h1) (λ j, j = l)) as [Hs2 Hb2]; [done|by apply frame_insert| |].
    { intros ? ->. simpl. by rewrite El. }
    exists (appended a y), (Z.to_nat c). split_and!; try done.
    + by apply (view_insert_eq h1 l a).
    + by apply appended_awf.
    + by apply appended_count.
    + rewrite appended_data by done. f_equal. rewrite <- Hb1. unfold bytes, y. simpl.
      rewrite take_app_le; [done|]. unfold c, zlen. lia.
    + by rewrite <- Hb1.
    + by rewrite El.
    + unfold c. lia.
    + unfold c. lia.
    + assert (E2 : pending s1 (<[l := appended a y]> h1) = pending s1 h1) by (unfold pending; rewrite El, list_lookup_insert_ne by congruence; done).
      rewrite E2. unfold c. lia.
    + intros Hc0 Hn0 Hnt. apply Hend; [unfold c in Hc0; lia|done|done].
    + apply (frame_trans _ (λ j, j = l) _ h1); [|by apply frame_insert|by intros ? ->; left; right].
      destruct HF as [L F]. split; [done|]. intros j Hj Hnot. apply F; [done|tauto].
  - assert (zlen (pending s1 h1) = 0) by (unfold pending; by rewrite El). pose proof (zlen_nonneg (pending s h)).
    apply runs_ret. exists a, 0%nat. rewrite app_nil_r. split_and!; try done; [by rewrite El|lia|lia| |].
    + intros _ Hn0 Hnt. apply Hend; [unfold pending; by rewrite El|done|done].
    + destruct HF as [L F]. split; [done|]. intros j Hj Hnot. apply F; [done|tauto].
Qed.

#[global] Instance istreamLaws `{!NoTimeouts R} : IStreamLaws (PeekIStream R).
Proof.
  split.
  - intros s h Hs. unfold bytes. simpl. apply Forall_app. split; [by apply pending_u8|apply rest_u8].
  - intros s h l a Hs Hne Hl Hw Hfree. eapply runs_mono; [apply (read_run s h l a); done || lia|].
    intros r h' (k & Hk & Hend & Hrec). exists k. by split_and!; [lia|intros; apply Hend|].
Qed.

(** [more] says that the stream is at its end only when it is. *)
Lemma more_run s h : wf s h →
  ∃ m, more s h = Ret (m, h) ∧ (m = false → bytes s h = []).
Proof.
  intros Hs. unfold more. rewrite (bind_eq _ _ _ _ _ (avail_eq s h Hs)).
  destruct (Z.ltb_spec 0 (zlen (pending s h))) as [|Hp]; [by exists true|].
  exists (negb (atEof s)). split; [done|]. intros He%negb_false_iff. unfold bytes. simpl.
  rewrite (proj2 Hs He), app_nil_r. apply nil_length_inv. unfold zlen in Hp. lia.
Qed.
End laws.
End PeekLaws.

(** C14: [PeekIStream] adds [peek] to a source that can only be read.  [peek] puts the next bytes
    of the stream in the buffer, at least those of the lookahead that fit and, if the source
    does not time out, at least one unless there are none; it leaves the stream as it was.  A
    following [read] into another buffer returns all of these bytes again, as far as they fit,
    and maybe more; the stream keeps the rest, and [more] is false only at the end. *)
Theorem peek_then_read {R} `{SourceLaws R} (s : PeekIStream.PeekIStream R) h l a l2 a2 :
  PeekLaws.wf s h → PeekIStream.lookahead s ≠ Some l → h !! l = Some a → awf a →
  PeekIStream.lookahead s ≠ Some l2 → l2 ≠ l → h !! l2 = Some a2 → awf a2 → gfilled a2 < gcount a2 →
  runs ('(s, b) ← PeekIStream.peek s (Some l); '(s, c) ← PeekIStream.read s (Some l2); m ← PeekIStream.more s; mret (s, b, c, m)) h
    (λ '(s', b, c, m) h', ∃ a' l2' a2' k k2, b = Some l ∧ h' !! l = Some a' ∧ c = Some l2' ∧ h' !! l2' = Some a2' ∧
      data a' = data a ++ take k (bytes s h) ∧ data a2' = data a2 ++ take k2 (bytes s h) ∧
      bytes s' h' = drop k2 (bytes s h) ∧
      Z.min (gcount a - gfilled a) (zlen (PeekLaws.pending s h)) ≤ Z.of_nat k ≤ gcount a - gfilled a ∧ (k ≤ length (bytes s h))%nat ∧
      (NoTimeouts R → gfilled a < gcount a → bytes s h ≠ [] → k ≠ 0%nat) ∧
      Z.min (Z.of_nat k) (gcount a2 - gfilled a2) ≤ Z.of_nat k2 ≤ gcount a2 - gfilled a2 ∧
      (NoTimeouts R → bytes s h ≠ [] → k2 ≠ 0%nat) ∧ (m = false → bytes s' h' = [])).
Proof.
  intros Hs Hne Hl Hw Hne2 Hll Hl2 Hw2 Hfree. destruct (Hw) as [Hf Hc].
  eapply runs_bind; [apply (PeekLaws.peek_run s h l a); done || lia|].
  intros [s1 b] h1 (a1 & k & -> & Hl1 & _ & _ & Hd1 & Hb1 & Hs1 & Hne1 & Hk & Hkp & Hk0 & Hsn & HF).
  assert (Hl2' : h1 !! l2 = Some a2).
  { destruct HF as [_ F]. rewrite F; [done|by apply lookup_lt_Some in Hl2|]. intros [E| ->]; done. }
  assert (Hne2' : PeekIStream.lookahead s1 ≠ Some l2).
  { destruct Hsn as [->| ->]; [done|]. apply lookup_lt_Some in Hl2. intros [= ?]; lia. }
  assert (Hkl : (k ≤ length (bytes s h))%nat) by (rewrite <- Hb1; unfold bytes; simpl; rewrite length_app; unfold zlen in Hkp; lia).
  eapply runs_bind; [apply (PeekLaws.read_run s1 h1 l2 a2); done || lia|].
  intros r h2 (k2 & Hk2 & Hend & s2 & l2' & a2' & -> & Hl2'' & _ & _ & Hd2 & Hb2 & Hs2 & _ & _ & HF2 & _).
  destruct (PeekLaws.more_run s2 h2 Hs2) as (m & Em & Hm).
  eapply runs_step; [exact Em|]. apply runs_ret. rewrite Hb1 in *.
  exists a1, l2', a2', k, k2. split_and!; try done; try lia.
  - destruct HF2 as [_ F]. rewrite F; [done|by apply lookup_lt_Some in Hl1|]. intros [E| ->]; done.
  - intros Hnt Hr Hb E. apply Hb, Hk0; [done|lia|done].
  - intros Hnt Hb E. by apply Hb, Hend.
Qed.

(** The copy constructor of [PeekIStream] copies the bytes of the lookahead, but not how
    many there are: nothing of what was peeked is available in the copy. *)
Theorem peek_copy_empty {R} `{SourceLaws R} (s : PeekIStream.PeekIStream R) h r : PeekLaws.wf s h →
  runs (PeekIStream.copy s r) h (λ s' h', PeekIStream.lookaheadAvail s' h' = Ret (0, h') ∧ frame (λ _, False) h h').
Proof.
  intros Hs. unfold PeekIStream.copy. eapply runs_step; [by apply PeekLaws.avail_eq|].
  destruct (Z.ltb_spec 0 (zlen (PeekLaws.pending s h))) as [Hp|Hp]; [|by apply runs_ret].
  destruct Hs as [Hs0 _]. unfold PeekLaws.pending in *.
  destruct (PeekIStream.lookahead s) as [l|] eqn:El; [|unfold zlen in Hp; simpl in Hp; lia].
  destruct Hs0 as (a & Ha & Hw & Hst & _). rewrite Ha in *. destruct (Hw) as [Hf Hc].
  pose proof (zlen_data a Hw) as Hz. set (n := zlen (drop _ _)) in *.
  assert (Hn : n = gfilled a - PeekIStream.lookaheadStart s) by (unfold n, zlen in *; rewrite length_drop; lia).
  set (z := mkGcBytes 0 (replicate (Z.to_nat n) 0)).
  eapply (runs_step _ _ _ (PeekIStream.mkPeekIStream (Some (length h)) 0 false r) (h ++ [z])); [done|].
  cbn [PeekIStream.lookahead].
  eapply runs_step; [apply (memcpy_eq _ _ z (Some l) a); [apply view_fresh|by apply (view_app h _ (Some l))|..]; try lia|].
  - left. apply lookup_lt_Some in Ha. intros [= ?]; lia.
  - unfold gcount, z. cbn [v]. rewrite zlen_replicate. lia.
  - rewrite insert_app_r_alt, Nat.sub_diag by done. apply runs_ret. split; [|apply frame_alloc].
    unfold PeekIStream.lookaheadAvail. cbn [PeekIStream.lookahead].
    by erewrite bind_eq; [|apply load_eq, view_fresh].
Qed.

(** ** A source *)

(** A source that is a list of numbers, of which it gives the lowest eight bits. *)
Module ListSource.
#[global] Instance source : PeekSource (list Z) := λ r n,
  (drop (Z.to_nat n) r, u8 <$> take (Z.to_nat n) r, PeekReadResult.success (zlen (take (Z.to_nat n) r))).

#[global] Instance laws : SourceLaws (list Z).
Proof.
  refine {| rest r := u8 <$> r |}.
  - intros r. apply Forall_fmap, Forall_true. intros x. apply Z.mod_pos_bound. lia.
  - intros r n Hn. exists (drop (Z.to_nat n) r), (Z.to_nat n), (PeekReadResult.success (zlen (take (Z.to_nat n) r))).
    rewrite <- fmap_take, <- fmap_drop. split_and!; [done|done|lia|simpl; unfold zlen; by rewrite length_fmap|].
    intros E%fmap_nil_inv _. destruct r; [done|]. by destruct (Z.to_nat n) eqn:En; [lia|].
Defined.

#[global] Instance noTimeouts : NoTimeouts (list Z).
Proof. intros r n r' x res [= _ _ <-]. done. Qed.
End ListSource.

Lemma peek_then_read_witness :
  let s := PeekIStream.new [10; 20; 30] in
  let h := [mkGcBytes 0 [0; 0]; mkGcBytes 1 [9; 0; 0; 0; 0; 0]] in
  runs ('(s, b) ← PeekIStream.peek s (Some 0%nat); '(s, c) ← PeekIStream.read s (Some 1%nat); m ← PeekIStream.more s; mret (s, b, c, m)) h
    (λ '(s', b, c, m) h', ∃ a' l2' a2' k k2, b = Some 0%nat ∧ h' !! 0%nat = Some a' ∧ c = Some l2' ∧ h' !! l2' = Some a2' ∧
      data a' = [] ++ take k (bytes s h) ∧ data a2' = [9] ++ take k2 (bytes s h) ∧
      bytes s' h' = drop k2 (bytes s h) ∧ Z.min (2 - 0) (zlen (PeekLaws.pending s h)) ≤ Z.of_nat k ≤ 2 - 0 ∧ (k ≤ length (bytes s h))%nat ∧
      (NoTimeouts (list Z) → 0 < 2 → bytes s h ≠ [] → k ≠ 0%nat) ∧ Z.min (Z.of_nat k) (6 - 1) ≤ Z.of_nat k2 ≤ 6 - 1 ∧
      (NoTimeouts (list Z) → bytes s h ≠ [] → k2 ≠ 0%nat) ∧ (m = false → bytes s' h' = [])).
Proof.
  apply (peek_then_read (PeekIStream.new [10; 20; 30]) [mkGcBytes 0 [0; 0]; mkGcBytes 1 [9; 0; 0; 0; 0; 0]]
    0%nat (mkGcBytes 0 [0; 0]) 1%nat (mkGcBytes 1 [9; 0; 0; 0; 0; 0]));
    [|discriminate|reflexivity|split; unfold gcount, zlen; simpl; lia|discriminate|discriminate|reflexivity
    |split; unfold gcount, zlen; simpl; lia|reflexivity].
  split; [reflexivity|discriminate].
Defined.

Lemma peek_copy_empty_witness :
  runs (PeekIStream.copy (PeekIStream.mkPeekIStream (Some 0%nat) 1 false [30]) [30]) [mkGcBytes 3 [10; 20; 30; 0]]
    (λ s' h', PeekIStream.lookaheadAvail s' h' = Ret (0, h') ∧ frame (λ _, False) [mkGcBytes 3 [10; 20; 30; 0]] h').
Proof.
  apply (peek_copy_empty (PeekIStream.mkPeekIStream (Some 0%nat) 1 false [30]) [mkGcBytes 3 [10; 20; 30; 0]] [30]).
  split; [|discriminate]. exists (mkGcBytes 3 [10; 20; 30; 0]).
  split_and!; [reflexivity|split; unfold gcount, zlen; simpl; lia|simpl; lia|simpl; lia|].
  repeat (constructor; [unfold is_u8; lia|]). constructor.
Defined.
