(* ===== verification/BufferedStream.v ===== *)
(** * Output streams in front of others

    [Core/Io/BufferedOStream.h], [Core/Io/BufferedOStream.cpp], [Core/Io/MeterStream.h] and
    [Core/Io/MeterStream.cpp]: a stream that collects data before it writes them to another
    one, and a stream that counts what is written. *)

From stdpp Require Import base list numbers decidable option.
From Stdlib Require Import ZArith Lia.
From S2P Require Import Prelude Buffer Stream.

Module BufferedOStream.
Section buffered.
Context {O : Type} `{OStream O}.

Record BufferedOStream := mkBufferedOStream { output : O; buffer : Buffer.Buffer }.

Definition init (output : O) (bufferSize : Z) : io BufferedOStream :=
  b ← Buffer.buffer bufferSize; mret (mkBufferedOStream output b).

(** The constructor with the default size. *)
Definition new (output : O) : io BufferedOStream := init output 4096.

Definition write (s : BufferedOStream) (input : Buffer.Buffer) (start : Z) : io (BufferedOStream * Z) :=
  f ← Buffer.filled input;
  if f <=? start then mret (s, 0)
  else
    f ← Buffer.filled input;
    let inputCount := u32 (f - start) in
    empty ← Buffer.empty (buffer s);
    bc ← Buffer.count (buffer s);
    if (empty : bool) && (bc <=? inputCount) then
      '(o, n) ← Stream.write (output s) input start;
      mret (mkBufferedOStream o (buffer s), n)
    else
      let consumed := 0 in
      free ← Buffer.free (buffer s);
      let toCopy := Z.min inputCount free in
      bf ← Buffer.filled (buffer s);
      _ ← Buffer.memcpy (buffer s) bf input start toCopy;
      _ ← Buffer.setFilled (buffer s) (u32 (bf + toCopy));
      let start := u32 (start + toCopy) in
      let inputCount := u32 (inputCount - toCopy) in
      let consumed := u32 (consumed + toCopy) in
      full ← Buffer.full (buffer s);
      if negb full then mret (s, consumed)
      else
        '(o, _) ← Ostream.writeAll (output s) (buffer s);
        _ ← Buffer.setFilled (buffer s) 0;
        bc ← Buffer.count (buffer s);
        if bc <=? inputCount then
          '(o, n) ← Stream.write o input start;
          mret (mkBufferedOStream o (buffer s), u32 (consumed + n))
        else if 0 <? inputCount then
          _ ← Buffer.memcpy (buffer s) 0 input start inputCount;
          _ ← Buffer.setFilled (buffer s) inputCount;
          mret (mkBufferedOStream o (buffer s), u32 (consumed + inputCount))
        else mret (mkBufferedOStream o (buffer s), consumed).

Definition flush (s : BufferedOStream) : io (BufferedOStream * bool) :=
  f ← Buffer.filled (buffer s);
  if 0 <? f then
    '(o, n) ← Ostream.writeAll (output s) (buffer s);
    f ← Buffer.filled (buffer s);
    let ok := n =? f in
    _ ← Buffer.setFilled (buffer s) 0;
    mret (mkBufferedOStream o (buffer s), ok)
  else mret (s, true).

Definition close (s : BufferedOStream) : io BufferedOStream :=
  '(s, _) ← flush s;
  o ← Stream.close (output s);
  mret (mkBufferedOStream o (buffer s)).

#[global] Instance ostream : OStream BufferedOStream := {|
  Stream.write := write; Stream.flush := flush; Stream.close := close |}.
End buffered.
Arguments BufferedOStream O : clear implicits.
End BufferedOStream.

Module MeterOStream.
Section meter.
Context {O : Type} `{OStream O}.

Record MeterOStream := mkMeterOStream { to : O; pos : Z }.

Definition new (to : O) : MeterOStream := mkMeterOStream to 0.

Definition write (s : MeterOStream) (buf : Buffer.Buffer) (start : Z) : io (MeterOStream * Z) :=
  f ← Buffer.filled buf;
  c ← (if start <=? f then f ← Buffer.filled buf; mret (u32 (f - start)) else mret 0);
  '(o, written) ← Stream.write (to s) buf start;
  mret (mkMeterOStream o (u64 (pos s + c)), written).

Definition flush (s : MeterOStream) : io (MeterOStream * bool) :=
  '(o, ok) ← Stream.flush (to s); mret (mkMeterOStream o (pos s), ok).

Definition close (s : MeterOStream) : io MeterOStream :=
  o ← Stream.close (to s); mret (mkMeterOStream o (pos s)).

Definition tell (s : MeterOStream) : Z := pos s.
Definition reset (s : MeterOStream) : MeterOStream := mkMeterOStream (to s) 0.

#[global] Instance ostream : OStream MeterOStream := {|
  Stream.write := write; Stream.flush := flush; Stream.close := close |}.
End meter.
Arguments MeterOStream O : clear implicits.
End MeterOStream.
