(* ===== verification/BufferedStreamCorrect.v ===== *)
(** * Output streams in front of others: correctness

    On an output stream without errors, a [BufferedOStream] has the laws of output streams
    itself: what was written is what the output got and then what is in the buffer. *)

From stdpp Require Import base list numbers decidable option.
From Stdlib Require Import ZArith Lia.
From S2P Require Import Prelude Buffer BufferCorrect Stream StreamCorrect MemStream MemStreamCorrect BufferedStream.

Module BufferedLaws.
Import BufferedOStream.
Section laws.
Context {O : Type} `{OStreamLaws O}.

Definition wf (s : BufferedOStream O) (h : heap) : Prop :=
  ∃ l a, buffer s = Some l ∧ h !! l = Some a ∧ awf a ∧ owf (output s) h ∧ ¬ owns (output s) l.

(** What is still in the buffer. *)
Definition held (s : BufferedOStream O) (h : heap) : list Z :=
  match view h (buffer s) with Some a => data a | None => [] end.

#[global] Instance heapObject : HeapObject (BufferedOStream O).
Proof.
  refine {| owf := wf; owns s l := buffer s = Some l ∨ owns (output s) l;
            bytes s h := bytes (output s) h ++ held s h |}.
  - intros s h l (k & a & El & Ha & _ & Ho & _) [E|E]; [|by apply (owns_lt (output s) h)].
    rewrite El in E. injection E as <-. by apply lookup_lt_Some in Ha.
  - intros s h h' (k & a & El & Ha & Hw & Ho & Hno) Hst.
    destruct (owns_stable (output s) h h' Ho) as [Ho' Hb']; [by auto|].
    assert (Ha' : h' !! k = Some a) by (by rewrite Hst; [|left]).
    split; [by exists k, a|]. unfold held. rewrite El. cbn [view]. by rewrite Hb', Ha, Ha'.
Defined.

(** Writing to the output leaves the buffer alone. *)
Lemma output_write (o : O) h b a start l (ba : GcBytes) : owf o h → (∀ k, b = Some k → ¬ owns o k) →
  view h b = Some a → awf a → 0 ≤ start < 2 ^ 32 → h !! l = Some ba → ¬ owns o l →
  ∃ o' h', Stream.write o b start h = Ret (o', zlen (drop (Z.to_nat start) (data a)), h') ∧
    bytes o' h' = bytes o h ++ drop (Z.to_nat start) (data a) ∧ owf o' h' ∧ ¬ owns o' l ∧ h' !! l = Some ba ∧
    (∀ j, owns o' j → owns o j ∨ (length h ≤ j)%nat) ∧ frame (owns o) h h'.
Proof.
  intros Ho Hb Hv Hw Hst Hl Hno. pose proof (lookup_lt_Some _ _ _ Hl) as Hlt.
  destruct (proj1 (runs_exists _ _ _) (write_law o h b a start Ho Hb Hv Hw Hst)) as (r & h' & E & o' & -> & Hby & Ho' & Hown & HF).
  exists o', h'. split_and!; try done.
  - intros Hc. destruct (Hown l Hc); [done|lia].
  - destruct HF as [_ F]. by rewrite F.
Qed.

Section write.
Context (o : O) (l : nat) (h : heap) (ba : GcBytes).
Context (Ho : owf o h) (Hno : ¬ owns o l) (Hl : h !! l = Some ba) (Hwb : awf ba).
Notation s := (mkBufferedOStream o (Some l)).

(** The end of every way through [write]. *)
Lemma finish x (o' : O) h' ba' : owf o' h' → ¬ owns o' l → h' !! l = Some ba' → awf ba' →
  bytes o' h' ++ data ba' = bytes o h ++ data ba ++ x →
  (∀ j, owns o' j → owns o j ∨ (length h ≤ j)%nat) → frame (λ j, owns o j ∨ j = l) h h' →
  wrote s h x (mkBufferedOStream o' (Some l), zlen x) h'.
Proof.
  intros Ho' Hno' Hl' Hw' Hby Hown HF. exists (mkBufferedOStream o' (Some l)). split_and!; [done| | | |].
  - unfold bytes. simpl. unfold held. simpl. by rewrite Hl, Hl', Hby, app_assoc.
  - by exists l, ba'.
  - intros j [[= <-]|Hj]; [by left; left|]. destruct (Hown j Hj); [left; by right|by right].
  - destruct HF as [L F]. split; [done|]. intros j Hj Hnot. apply F; [done|].
    intros [?| ->]; apply Hnot; [by right|by left].
Qed.

(** A change of the buffer is none of the output. *)
Lemma buffer_frame (h0 : heap) (o' : O) ba' : owf o' h0 → ¬ owns o' l →
  owf o' (<[l := ba']> h0) ∧ bytes o' (<[l := ba']> h0) = bytes o' h0.
Proof.
  intros Hoo Hn. apply (owns_frame o' h0 _ (λ j, j = l)); [done|by apply frame_insert|by intros ? ->].
Qed.

Context (b : Buffer.Buffer) (a : GcBytes) (start : Z).
Context (Hb : ∀ k, b = Some k → ¬ owns o k) (Hbl : b ≠ Some l) (Hv : view h b = Some a) (Hwa : awf a).
Context (Hstart : 0 ≤ start < gfilled a).
Notation cnt := (gfilled a - start).
Notation x := (drop (Z.to_nat start) (data a)).

Lemma x_length : zlen x = cnt.
Proof. pose proof (zlen_data a Hwa). unfold zlen in *. rewrite length_drop. lia. Qed.

(** The rest of [write], when [k] bytes have filled the buffer. *)
Lemma write_full k ba1 : 0 ≤ k ≤ cnt → awf ba1 → gcount ba1 = gcount ba → data ba1 = data ba ++ slice (v a) start k →
  runs ('(o, _) ← Ostream.writeAll o (Some l);
        _ ← Buffer.setFilled (Some l) 0;
        bc ← Buffer.count (Some l);
        if bc <=? cnt - k then
          '(o, n) ← Stream.write o b (start + k);
          mret (mkBufferedOStream o (Some l), u32 (k + n))
        else if 0 <? cnt - k then
          _ ← Buffer.memcpy (Some l) 0 b (start + k) (cnt - k);
          _ ← Buffer.setFilled (Some l) (cnt - k);
          mret (mkBufferedOStream o (Some l), u32 (k + (cnt - k)))
        else mret (mkBufferedOStream o (Some l), k)) (<[l := ba1]> h) (wrote s h x).
Proof.
  intros Hk Hw1 Hc1 Hd1. destruct (Hwa) as [Hfa Hca], (Hw1) as [Hf1 Hcc1]. pose proof x_length as Hx.
  destruct (buffer_frame h o ba1 Ho Hno) as [Ho1 Hb1].
  assert (Hl1 : <[l := ba1]> h !! l = Some ba1) by (by apply (view_insert_eq h l ba)).
  destruct (output_write o _ (Some l) ba1 0 l ba1 Ho1) as (o2 & h2 & E2 & Hb2 & Ho2 & Hno2 & Hl2 & Hown2 & HF2);
    [by intros ? [= <-]|done|done|lia|done|done|].
  eapply runs_step; [exact E2|]. cbv beta iota. change (Z.to_nat 0) with 0%nat in *. rewrite drop_0, Hb1, Hd1 in *. rewrite length_insert in Hown2.
  eapply runs_step; [by apply setFilled_eq|]. rewrite Z.min_l by lia. set (ba2 := mkGcBytes 0 (v ba1)). set (h3 := <[l := ba2]> h2).
  assert (Hw2 : awf ba2) by (split; unfold ba2, gcount in *; simpl; lia).
  assert (Hc2 : gcount ba2 = gcount ba1) by done. assert (Hd2 : data ba2 = []) by done.
  destruct (buffer_frame h2 o2 ba2 Ho2 Hno2) as [Ho3 Hb3]. fold h3 in Ho3, Hb3.
  assert (Hl3 : h3 !! l = Some ba2) by (by apply (view_insert_eq h2 l ba1)).
  assert (HF3 : frame (λ j, owns o j ∨ j = l) h h3).
  { apply (frame_trans _ (λ j, owns o j ∨ j = l) _ (<[l := ba1]> h)); [by apply frame_insert; right| |by auto].
    apply (frame_trans _ (λ j, j = l) _ h2); [|by apply frame_insert|by intros ? ->; left; right].
    destruct HF2 as [L F]. split; [done|]. intros j Hj Hn. apply F; [done|tauto]. }
  assert (Hv3 : view h3 b = Some a).
  { apply (frame_view _ h h3 b a HF3 Hv). intros j -> [Hj| ->]; [by apply (Hb j)|done]. }
  assert (Hb3' : ∀ j, b = Some j → ¬ owns o2 j).
  { intros j -> Hj. destruct (Hown2 j Hj) as [Hj'|Hj']; [by apply (Hb j)|]. apply view_lt in Hv. lia. }
  assert (Hsplit : slice (v a) start k ++ drop (Z.to_nat (start + k)) (data a) = x).
  { unfold data. rewrite <- (slice_take _ _ _ (gfilled a)) by lia. unfold slice.
    rewrite <- (take_drop (Z.to_nat k) (drop (Z.to_nat start) _)) at 2. f_equal. rewrite drop_drop. f_equal. lia. }
  eapply runs_step; [by apply count_eq|]. rewrite Hc2.
  destruct (Z.leb_spec (gcount ba1) (cnt - k)) as [Hbig|Hsmall].
  - destruct (output_write o2 h3 b a (start + k) l ba2 Ho3 Hb3' Hv3 Hwa) as (o4 & h4 & E4 & Hb4 & Ho4 & Hno4 & Hl4 & Hown4 & HF4);
      [lia|done|done|].
    eapply runs_step; [exact E4|]. apply runs_ret.
    assert (zlen (drop (Z.to_nat (start + k)) (data a)) = cnt - k) as ->.
    { pose proof (zlen_data a Hwa). unfold zlen in *. rewrite length_drop. lia. }
    rewrite u32_small by (unfold is_u32; lia). replace (k + (cnt - k)) with (zlen x) by lia.
    apply (finish x o4 h4 ba2); [done..| | |].
    + rewrite Hb4, Hb3, Hb2. rewrite Hd2. by rewrite app_nil_r, <- Hsplit, <- !app_assoc.
    + intros j Hj. destruct (HF3) as [L3 _]. destruct (Hown4 j Hj) as [Hj'|]; [by apply Hown2|right; lia].
    + apply (frame_trans _ (owns o2) _ h3); [done|done|]. intros j Hj. destruct (Hown2 j Hj); auto.
  - destruct (Z.ltb_spec 0 (cnt - k)) as [Hpos|Hzero].
    + rewrite (u32_small (k + (cnt - k))) by (unfold is_u32; lia). replace (k + (cnt - k)) with (zlen x) by lia.
      unfold runs.
      pose proof (append_run l ba2 b a (start + k) (cnt - k) h3 (mret (mkBufferedOStream o2 (Some l), zlen x)) Hl3 Hw2 Hv3
        (or_introl Hbl) ltac:(lia) ltac:(lia) ltac:(lia) ltac:(simpl; lia)) as E. simpl gfilled in E. rewrite Z.add_0_l in E.
      rewrite E. unfold mret, io_ret. cbn [returns]. clear E. set (y := slice (v a) (start + k) (cnt - k)).
      assert (Hy : y = drop (Z.to_nat (start + k)) (data a)).
      { unfold y, data. rewrite <- slice_rest by lia. f_equal. lia. }
      assert (Hyl : zlen y = cnt - k) by (unfold y; apply zlen_slice; unfold gcount in *; lia).
      assert (Hfit : gfilled ba2 + zlen y ≤ gcount ba2) by (simpl; lia).
      destruct (buffer_frame h3 o2 (appended ba2 y) Ho3 Hno2) as [Ho4 Hb4].
      apply (finish x o2 _ (appended ba2 y)); [done|done|by apply (view_insert_eq h3 l ba2)|by apply appended_awf| |done|].
      * rewrite Hb4, Hb3, Hb2, appended_data, Hd2, Hy by done. by rewrite <- Hsplit, <- !app_assoc.
      * apply (frame_trans _ (λ j, j = l) _ h3); [done|by apply frame_insert|by intros ? ->; left; right].
    + apply runs_ret. replace (mkBufferedOStream o2 (Some l), k) with (mkBufferedOStream o2 (Some l), zlen x) by (f_equal; lia).
      apply (finish x o2 h3 ba2); try done.
      rewrite Hb3, Hb2, Hd2, app_nil_r, <- Hsplit. rewrite (drop_ge (data a)); [by rewrite app_nil_r|].
      pose proof (zlen_data a Hwa). unfold zlen in *. lia.
Qed.

(** The part of [write] that fills the buffer first. *)
Lemma write_copy : 0 < gcount ba →
  runs (free ← Buffer.free (Some l);
        let toCopy := Z.min cnt free in
        bf ← Buffer.filled (Some l);
        _ ← Buffer.memcpy (Some l) bf b start toCopy;
        _ ← Buffer.setFilled (Some l) (u32 (bf + toCopy));
        let start := u32 (start + toCopy) in
        let inputCount := u32 (cnt - toCopy) in
        let consumed := u32 (0 + toCopy) in
        full ← Buffer.full (Some l);
        if negb full then mret (s, consumed)
        else
          '(o, _) ← Ostream.writeAll o (Some l);
          _ ← Buffer.setFilled (Some l) 0;
          bc ← Buffer.count (Some l);
          if bc <=? inputCount then
            '(o, n) ← Stream.write o b start;
            mret (mkBufferedOStream o (Some l), u32 (consumed + n))
          else if 0 <? inputCount then
            _ ← Buffer.memcpy (Some l) 0 b start inputCount;
            _ ← Buffer.setFilled (Some l) inputCount;
            mret (mkBufferedOStream o (Some l), u32 (consumed + inputCount))
          else mret (mkBufferedOStream o (Some l), consumed)) h (wrote s h x).
Proof.
  intros Hpos. destruct (Hwa) as [Hfa Hca], (Hwb) as [Hfb Hcb]. pose proof x_length as Hx.
  io_step free_eq. set (k := Z.min cnt (gcount ba - gfilled ba)). cbv zeta. io_step filled_eq.
  assert (Hk : 0 ≤ k ≤ cnt) by (unfold k; lia). assert (Hkb : gfilled ba + k ≤ gcount ba) by (unfold k; lia).
  rewrite (u32_small (gfilled ba + k)), (u32_small (start + k)), (u32_small (cnt - k)), (u32_small (0 + k)), (Z.add_0_l k)
    by (unfold is_u32; lia).
  unfold runs. rewrite (append_run l ba b a) by (done || (by left) || lia). set (y := slice (v a) start k).
  assert (Hy : zlen y = k) by (unfold y; apply zlen_slice; unfold gcount in *; lia).
  assert (Hfit : gfilled ba + zlen y ≤ gcount ba) by lia.
  pose proof (appended_awf ba y Hwb Hfit) as Hw1. pose proof (appended_count ba y Hwb Hfit) as Hc1.
  pose proof (appended_data ba y Hwb Hfit) as Hd1.
  assert (Hl1 : <[l := appended ba y]> h !! l = Some (appended ba y)) by (by apply (view_insert_eq h l ba)).
  rewrite (bind_eq _ _ _ _ _ (full_eq _ (Some l) _ Hl1 Hw1)), Hc1. unfold appended at 1. cbn [gfilled]. rewrite Hy.
  destruct (Z.eqb_spec (gfilled ba + k) (gcount ba)) as [Hfull|Hnf]; cbn [negb]; [by apply write_full|].
  assert (Hkc : k = cnt) by (unfold k in *; lia).
  replace (mret (s, k)) with (mret (s, zlen x) : io (BufferedOStream O * Z)) by (do 2 f_equal; lia).
  destruct (buffer_frame h o (appended ba y) Ho Hno) as [Ho1 Hb1]. apply (finish x o _ (appended ba y)); try done.
  - rewrite Hb1, Hd1. do 2 f_equal. unfold y, data. rewrite Hkc, <- slice_rest by lia. done.
  - by left.
  - by apply frame_insert; right.
Qed.

Lemma buffered_write_run : runs (write s b start) h (wrote s h x).
Proof.
  destruct (Hwa) as [Hfa Hca], (Hwb) as [Hfb Hcb]. pose proof x_length as Hx. unfold write. cbn [output buffer].
  io_step filled_eq. rewrite (proj2 (Z.leb_gt _ _)) by lia. io_step filled_eq. rewrite (u32_small cnt) by (unfold is_u32; lia).
  io_step empty_eq. io_step count_eq.
  destruct (Z.eqb_spec (gfilled ba) 0) as [Hempty|Hne]; [destruct (Z.leb_spec (gcount ba) cnt) as [Hbig|Hsmall]|]; cbn [andb].
  - (* The fast path. *)
    destruct (output_write o h b a start l ba Ho Hb Hv Hwa) as (o4 & h4 & E4 & Hb4 & Ho4 & Hno4 & Hl4 & Hown4 & HF4);
      [lia|done|done|].
    eapply runs_step; [exact E4|]. apply runs_ret. apply (finish x o4 h4 ba); try done.
    + assert (data ba = []) as -> by (unfold data; by rewrite Hempty). by rewrite Hb4, app_nil_r.
    + destruct HF4 as [L F]. split; [done|]. intros j Hj Hn. apply F; [done|tauto].
  - apply (write_copy); lia.
  - apply (write_copy); lia.
Qed.
End write.

#[global] Instance ostreamLaws : OStreamLaws (BufferedOStream O).
Proof.
  split. intros [o bb] h b a start (l & ba & El & Hl & Hwb & Ho & Hno) Hb Hv Hwa Hst. cbn in El, Ho, Hno. subst bb.
  destruct (decide (gfilled a ≤ start)) as [Hge|Hlt].
  - unfold runs. cbn [Stream.write ostream]. unfold write. rewrite (bind_eq _ _ _ _ _ (filled_eq h b a Hv Hwa)).
    rewrite (proj2 (Z.leb_le _ _)) by done. cbn.
    assert (drop (Z.to_nat start) (data a) = []) as ->.
    { apply drop_ge. pose proof (zlen_data a Hwa). unfold zlen in *. lia. }
    eexists. split_and!; [done|by rewrite app_nil_r|by exists l, ba|by auto|apply frame_refl].
  - apply (buffered_write_run o l h ba Ho Hno Hl Hwb b a start).
    + intros k -> Hk. apply (Hb k); [done|by right].
    + intros ->. apply (Hb l); [done|by left].
    + done.
    + done.
    + lia.
Qed.

(** After [flush] the output has everything. *)
Lemma flush_run (s : BufferedOStream O) h : wf s h →
  runs (flush s) h (λ '(s', ok) h', ok = true ∧ wf s' h' ∧ held s' h' = [] ∧ bytes (output s') h' = bytes s h ∧
    frame (owns s) h h').
Proof.
  destruct s as [o bb]. intros (l & ba & El & Hl & Hwb & Ho & Hno). cbn in El, Ho, Hno. subst bb. unfold flush. cbn [buffer output].
  destruct (Hwb) as [Hf Hc]. io_step filled_eq. destruct (Z.ltb_spec 0 (gfilled ba)) as [Hpos|Hz].
  - destruct (output_write o h (Some l) ba 0 l ba) as (o2 & h2 & E2 & Hb2 & Ho2 & Hno2 & Hl2 & _ & HF2); try done; [by intros ? [= <-]|].
    eapply runs_step; [exact E2|]. change (Z.to_nat 0) with 0%nat in *. rewrite drop_0 in *. cbv beta iota.
    io_step filled_eq. eapply runs_step; [by apply setFilled_eq|]. apply runs_ret. rewrite Z.min_l by lia.
    set (ba2 := mkGcBytes 0 (v ba)). destruct (buffer_frame l h2 o2 ba2 Ho2 Hno2) as [Ho3 Hb3].
    assert (Hl3 : <[l := ba2]> h2 !! l = Some ba2) by (by apply (view_insert_eq h2 l ba)).
    split_and!.
    + rewrite zlen_data by done. apply Z.eqb_refl.
    + exists l, ba2. split_and!; try done. split; unfold ba2, gcount in *; simpl; lia.
    + unfold held. cbn [buffer view]. by rewrite Hl3.
    + cbn [output]. unfold bytes at 2. simpl. unfold held. cbn [buffer view]. by rewrite Hb3, Hb2, Hl.
    + apply (frame_trans _ (λ j, j = l) _ h2); [|by apply frame_insert|by intros ? ->; left; left].
      destruct HF2 as [L F]. split; [done|]. intros j Hj Hn. apply F; [done|]. intros Hj'. apply Hn. by right.
  - apply runs_ret. split_and!; try done; [by exists l, ba| |].
    + unfold held. cbn [buffer view]. rewrite Hl. unfold data. by replace (Z.to_nat (gfilled ba)) with 0%nat by lia.
    + unfold bytes at 2. simpl. unfold held. cbn [buffer view]. rewrite Hl. unfold data.
      replace (Z.to_nat (gfilled ba)) with 0%nat by lia. by rewrite app_nil_r.
Qed.
End laws.
End BufferedLaws.

(** ** A stream that keeps what it gets *)

Module Sink.
Record Sink := mkSink { got : list Z }.

Definition write (s : Sink) (b : Buffer.Buffer) (start : Z) : io (Sink * Z) := λ h,
  match view h b with
  | Some a => let x := drop (Z.to_nat start) (data a) in Ret (mkSink (got s ++ x), zlen x, h)
  | None => Fault
  end.

#[global] Instance ostream : OStream Sink := {|
  Stream.write := write; Stream.flush s := mret (s, true); Stream.close s := mret s |}.

#[global] Instance heapObject : HeapObject Sink.
Proof. by refine {| owf _ _ := True; owns _ _ := False; bytes s _ := got s |}. Defined.

#[global] Instance ostreamLaws : OStreamLaws Sink.
Proof.
  split. intros s h b a start _ _ Hv Hw Hst. unfold runs. cbn [Stream.write ostream]. unfold write. rewrite Hv. cbn [returns].
  eexists. by split_and!.
Qed.
End Sink.

(** C13: A [BufferedOStream] neither loses, duplicates nor reorders data when its output has no
    errors: what the output has got and what is in the buffer is all that was written, for
    every write, and after [flush] the output has it all. *)
Theorem buffered_write_flush {O} `{OStreamLaws O} (s : BufferedOStream.BufferedOStream O) h b a start :
  BufferedLaws.wf s h → (∀ l, b = Some l → ¬ owns s l) → view h b = Some a → awf a → 0 ≤ start < 2 ^ 32 →
  runs ('(s, n) ← BufferedOStream.write s b start; '(s, ok) ← BufferedOStream.flush s; mret (s, n, ok)) h
    (λ '(s', n, ok) h', ok = true ∧ n = Z.max 0 (gfilled a - start) ∧
      bytes (BufferedOStream.output s') h' =
        bytes (BufferedOStream.output s) h ++ BufferedLaws.held s h ++ drop (Z.to_nat start) (data a) ∧
      BufferedLaws.held s' h' = [] ∧ BufferedLaws.wf s' h').
Proof.
  intros Hs Hb Hv Hw Hst. eapply (runs_bind _ _ _ (wrote s h (drop (Z.to_nat start) (data a)))); [exact (write_law s h b a start Hs Hb Hv Hw Hst)|].
  intros r h1 (s1 & -> & Hb1 & Hs1 & _ & _). eapply runs_bind; [by apply BufferedLaws.flush_run|].
  intros [s2 ok] h2 (-> & Hs2 & Hh2 & Hb2 & _). apply runs_ret. split_and!; try done.
  - pose proof (zlen_data a Hw). destruct (Hw). unfold zlen in *. rewrite length_drop. lia.
  - rewrite Hb2, Hb1. unfold bytes at 1. simpl. by rewrite <- app_assoc.
Qed.

Lemma buffered_write_flush_witness :
  let s := BufferedOStream.mkBufferedOStream (Sink.mkSink [1]) (Some 0%nat) in
  let h := [mkGcBytes 1 [2; 0; 0]; mkGcBytes 4 [9; 3; 4; 5]] in
  runs ('(s, n) ← BufferedOStream.write s (Some 1%nat) 1; '(s, ok) ← BufferedOStream.flush s; mret (s, n, ok)) h
    (λ '(s', n, ok) h', ok = true ∧ n = Z.max 0 (4 - 1) ∧
      bytes (BufferedOStream.output s') h' =
        bytes (BufferedOStream.output s) h ++ BufferedLaws.held s h ++ [3; 4; 5] ∧
      BufferedLaws.held s' h' = [] ∧ BufferedLaws.wf s' h').
Proof.
  apply (buffered_write_flush (BufferedOStream.mkBufferedOStream (Sink.mkSink [1]) (Some 0%nat))
    [mkGcBytes 1 [2; 0; 0]; mkGcBytes 4 [9; 3; 4; 5]] (Some 1%nat) (mkGcBytes 4 [9; 3; 4; 5]) 1);
    [| |reflexivity|split; unfold gcount, zlen; simpl; lia|lia].
  - exists 0%nat, (mkGcBytes 1 [2; 0; 0]).
    split_and!; [done|done|split; unfold gcount, zlen; simpl; lia|done|by intros []].
  - intros l [= <-] [H|H]; done.
Defined.

(** [flush] of a [BufferedOStream] does not flush its output: with one in front of
    another, three bytes written and flushed remain in the second buffer. *)
Theorem buffered_flush_stops :
  match (i ← BufferedOStream.init (Sink.mkSink []) 16; o ← BufferedOStream.init i 16;
         b ← Buffer.bufferOf [1; 2; 3]; '(o, n) ← BufferedOStream.write o b 0; '(o, ok) ← BufferedOStream.flush o;
         mret (o, n, ok)) [] with
  | Ret (o, n, ok, h) => n = 3 ∧ ok = true ∧
      Sink.got (BufferedOStream.output (BufferedOStream.output o)) = [] ∧
      BufferedLaws.held (BufferedOStream.output o) h = [1; 2; 3]
  | _ => False
  end.
Proof. vm_compute. done. Qed.

(** ** Counting what is written *)

Module MeterLaws.
Import MeterOStream.
Section laws.
Context {O : Type} `{OStreamLaws O}.

#[global] Instance heapObject : HeapObject (MeterOStream O).
Proof.
  refine {| owf s h := owf (to s) h; owns s l := owns (to s) l; bytes s h := bytes (to s) h |}.
  - intros s h l. apply owns_lt.
  - intros s h h'. apply owns_stable.
Defined.

(** The position grows by what was written. *)
Lemma meter_write_run (s : MeterOStream O) h b a start : owf s h → (∀ l, b = Some l → ¬ owns s l) → view h b = Some a → awf a →
  0 ≤ start < 2 ^ 32 →
  runs (write s b start) h (λ r h', wrote s h (drop (Z.to_nat start) (data a)) r h' ∧
    pos r.1 = u64 (pos s + zlen (drop (Z.to_nat start) (data a)))).
Proof.
  intros Hs Hb Hv Hw Hst. destruct (Hw) as [Hf Hc]. pose proof (zlen_data a Hw) as Hz. unfold write. io_step filled_eq.
  assert (E : (if start <=? gfilled a then f ← Buffer.filled b; mret (u32 (f - start)) else mret 0) h =
    Ret (zlen (drop (Z.to_nat start) (data a)), h)).
  { unfold zlen in *. rewrite length_drop. destruct (Z.leb_spec start (gfilled a)).
    - rewrite (bind_eq _ _ _ _ _ (filled_eq h b a Hv Hw)). unfold mret, io_ret. rewrite u32_small by (unfold is_u32; lia).
      do 2 f_equal. lia.
    - unfold mret, io_ret. do 2 f_equal. lia. }
  eapply runs_step; [exact E|]. eapply runs_bind; [by apply (write_law (to s) h b a start)|].
  intros r h' (o' & -> & Hb' & Ho' & Hown & HF). apply runs_ret. split; [|done].
  eexists. by split_and!.
Qed.

#[global] Instance ostreamLaws : OStreamLaws (MeterOStream O).
Proof.
  split. intros s h b a start Hs Hb Hv Hw Hst. eapply runs_mono; [by apply meter_write_run|]. by intros r h' [? _].
Qed.
End laws.
End MeterLaws.

(** ** Round trips with these streams *)

Lemma primitives_roundtrip_witness :
  roundtrips (O := BufferedOStream.BufferedOStream Sink.Sink) (I := MemIStream.MemIStream) Ostream.writeByte Istream.readByte 200 ∧
  roundtrips (O := BufferedOStream.BufferedOStream Sink.Sink) (I := MemIStream.MemIStream) Ostream.writeInt Istream.readInt (-3).
Proof.
  split.
  - apply (primitives_roundtrip (O := BufferedOStream.BufferedOStream Sink.Sink) (I := MemIStream.MemIStream) 200); [apply _|unfold is_u8; lia].
  - apply (primitives_roundtrip (O := BufferedOStream.BufferedOStream Sink.Sink) (I := MemIStream.MemIStream) (-3)). lia.
Defined.
