(* ===== verification/Pipe.v ===== *)
(** * Pipes

    [Core/Io/Pipe.cpp] as a transition system, and its correctness: a bounded queue of
    bytes under any interleaving. *)

From stdpp Require Import base list numbers decidable option.
From Stdlib Require Import ZArith Lia.
From S2P Require Import Prelude Buffer BufferCorrect.

(** * Pipes

    [Core/Io/Pipe.h] and [Core/Io/Pipe.cpp]: a ring buffer that one thread writes to and
    another reads from.  The code between taking and releasing the lock is one function;
    what the threads do is a sequence of calls of these functions, in any order.

    The two events are modelled by their flags only.  The functions are called whether the
    flags are set or not, as threads that were woken find them cleared again at times; so what
    is shown of the ring buffer does not depend on how threads wait.  What is shown of waiting
    is about the flags: [Event::wait] returns at once if it finds its flag set.  A thread
    whose [wait] is interleaved with [set] may stay blocked all the same
    ([event_loses_wakeup] of [SyncCorrect]).

    [closeRead] and [closeWrite] do not take the lock, but are one step here.  The other
    functions read the variable a close writes only once, so that their effect on the ring
    buffer is that of an order of the two; the flag that a close sets may however be cleared
    by a function it overlaps with, which this model does not show. *)

Module Pipe.

Record Pipe := mkPipe {
  data : list Z;
  readPos : Z;
  filled : Z;
  readClosed : bool;
  writeClosed : bool;
  waitRead : bool;
  waitWrite : bool;
}.

Definition count (p : Pipe) : Z := zlen (data p).

Definition init (size : Z) : Pipe := mkPipe (replicate (Z.to_nat size) 0) 0 0 false false false true.

(** [Pipe()] *)
Definition new : Pipe := init (1024 * 4).

Definition closeRead (p : Pipe) : Pipe :=
  mkPipe (data p) (readPos p) (filled p) true (writeClosed p) (waitRead p) true.
Definition closeWrite (p : Pipe) : Pipe :=
  mkPipe (data p) (readPos p) (filled p) (readClosed p) true true (waitWrite p).
Definition close (p : Pipe) : Pipe := closeWrite (closeRead p).

Definition more (p : Pipe) : bool := negb (writeClosed p).

(** The source of a [memcpy]: bytes of the array, which it must not leave. *)
Definition from (l : list Z) (off n : Z) : outcome (list Z) :=
  if (0 <=? off) && (0 <=? n) && (off + n <=? zlen l) then Ret (slice l off n) else Fault.
(** The destination. *)
Definition into (l : list Z) (off : Z) (x : list Z) : outcome (list Z) :=
  if (0 <=? off) && (off + zlen x <=? zlen l) then Ret (splice l off x) else Fault.

(** The body of the loop of [readCommon], after [wait]: [None] is [continue], [Some x] that
    [x] was put in the buffer, which had [free] bytes left. *)
Definition readBody (p : Pipe) (free : Z) (updatePos : bool) : outcome (Pipe * option (list Z)) :=
  if filled p <=? 0 then
    if writeClosed p then Ret (p, Some [])
    else Ret (mkPipe (data p) (readPos p) (filled p) (readClosed p) (writeClosed p) false (waitWrite p), None)
  else
    let toRead := Z.min free (filled p) in
    x ← (if count p <? u32 (readPos p + toRead) then
           let first := u32 (count p - readPos p) in
           x ← from (data p) (readPos p) first;
           y ← from (data p) 0 (u32 (toRead - first));
           Ret (x ++ y)
         else from (data p) (readPos p) toRead);
    if updatePos then
      let filled := u32 (filled p - toRead) in
      let readPos := u32 (readPos p + toRead) in
      let readPos := if count p <=? readPos then u32 (readPos - count p) else readPos in
      Ret (mkPipe (data p) readPos filled (readClosed p) (writeClosed p)
             (if filled =? 0 then false else waitRead p) true, Some x)
    else Ret (p, Some x).

(** What the body of the loop of [write] does. *)
Inductive wresult := Stop | Wait | Wrote (n : Z).

(** The body of the loop of [write], after [wait]; [x] is what remains of the input, which
    is not empty. *)
Definition writeBody (p : Pipe) (x : list Z) : outcome (Pipe * wresult) :=
  if readClosed p then Ret (p, Stop)
  else if count p <=? filled p then
    Ret (mkPipe (data p) (readPos p) (filled p) (readClosed p) (writeClosed p) (waitRead p) false, Wait)
  else
    let toWrite := Z.min (u32 (count p - filled p)) (zlen x) in
    let tail := u32 (readPos p + filled p) in
    let tail := if count p <=? tail then u32 (tail - count p) else tail in
    let toWrite := Z.min (u32 (count p - tail)) toWrite in
    y ← from x 0 toWrite;
    d ← into (data p) tail y;
    let filled := u32 (filled p + toWrite) in
    Ret (mkPipe d (readPos p) filled (readClosed p) (writeClosed p) true
           (if zlen d <=? filled then false else waitWrite p), Wrote toWrite).

(** ** Threads *)

(** What the threads do: one round of the loop of [read], [peek] or [write], or a close. *)
Inductive action :=
  | Read (free : Z) | Peek (free : Z) | Write (x : list Z) | CloseRead | CloseWrite.

(** The pipe, what was accepted so far and what was read so far. *)
Record System := mkSystem { pipe : Pipe; sent : list Z; received : list Z }.

Definition start (size : Z) : System := mkSystem (init size) [] [].

Definition step (y : System) (a : action) : outcome System :=
  match a with
  | Read free =>
      '(p, r) ← readBody (pipe y) free true;
      Ret (mkSystem p (sent y) (received y ++ match r with Some x => x | None => [] end))
  | Peek free => '(p, r) ← readBody (pipe y) free false; Ret (mkSystem p (sent y) (received y))
  | Write x =>
      '(p, r) ← writeBody (pipe y) x;
      Ret (mkSystem p (sent y ++ match r with Wrote n => slice x 0 n | _ => [] end) (received y))
  | CloseRead => Ret (mkSystem (closeRead (pipe y)) (sent y) (received y))
  | CloseWrite => Ret (mkSystem (closeWrite (pipe y)) (sent y) (received y))
  end.

(** The flag that the [wait] before an action tests: [Event::isSet] of its event.  An event
    whose flag is set lets a thread pass that calls [wait] then. *)
Definition flagSet (p : Pipe) (a : action) : bool :=
  match a with
  | Read _ | Peek _ => waitRead p
  | Write _ => waitWrite p
  | CloseRead | CloseWrite => true
  end.

Fixpoint run (y : System) (l : list action) : outcome System :=
  match l with
  | [] => Ret y
  | a :: l => y ← step y a; run y l
  end.

End Pipe.

(** * Pipes: correctness

    For every sequence of calls, what was read and what is in the ring buffer is what was
    written, in order.  While both ends are open the flags of the events tell whether there
    are data and whether there is room; but the flag for readers is not set either when there
    will never be data again. *)

(** ** Rotated lists *)

Section rot.
Context {A : Type}.
Implicit Types (d y : list A).

Definition rot (k : nat) d : list A := drop k d ++ take k d.

Lemma rot_length k d : length (rot k d) = length d.
Proof. unfold rot. rewrite length_app, length_drop, length_take. lia. Qed.

Lemma rot_add k n d : (k + n ≤ length d)%nat → rot (k + n) d = drop n (rot k d) ++ take n (rot k d).
Proof.
  intros H. unfold rot. rewrite drop_app_le, take_app_le by (rewrite length_drop; lia).
  by rewrite <- app_assoc, take_take_drop, drop_drop.
Qed.

Lemma rot_wrap k n d : (k ≤ length d)%nat → (n ≤ length d)%nat → (length d ≤ k + n)%nat →
  rot (k + n - length d) d = drop n (rot k d) ++ take n (rot k d).
Proof.
  intros Hk Hn H. unfold rot. set (m := (k + n - length d)%nat).
  rewrite drop_app_ge, take_app_ge by (rewrite length_drop; lia). rewrite length_drop.
  replace (n - (length d - k))%nat with m by lia. rewrite take_take, Nat.min_l by lia.
  rewrite app_assoc. f_equal. rewrite <- (take_drop k d) at 1. rewrite drop_app_le; [done|rewrite length_take; lia].
Qed.

Lemma take_rot k n d : (k + n ≤ length d)%nat → take n (rot k d) = take n (drop k d).
Proof. intros H. unfold rot. rewrite take_app_le; [done|]. rewrite length_drop. lia. Qed.

Lemma take_rot_wrap k n d : (k ≤ length d)%nat → (length d ≤ k + n)%nat → (n ≤ length d)%nat →
  take n (rot k d) = drop k d ++ take (k + n - length d) d.
Proof.
  intros Hk H Hn. unfold rot. rewrite take_app_ge by (rewrite length_drop; lia). rewrite length_drop, take_take.
  do 2 f_equal. lia.
Qed.

(** Data put behind the first [f] elements of the rotated list. *)
Definition put_at (t : nat) d y : list A := take t d ++ y ++ drop (t + length y) d.

Lemma rot_put k f y d : (k + f + length y ≤ length d)%nat →
  take (f + length y) (rot k (put_at (k + f) d y)) = take f (rot k d) ++ y.
Proof.
  intros H. rewrite (take_rot k f) by lia.
  rewrite take_rot.
  2: { unfold put_at. rewrite !length_app, length_take, length_drop. lia. }
  unfold put_at. rewrite drop_app_le by (rewrite length_take; lia).
  rewrite skipn_firstn_comm. replace (k + f - k)%nat with f by lia.
  rewrite take_app_ge by (rewrite length_take, length_drop; lia). rewrite length_take, length_drop.
  f_equal. rewrite take_app_le; [|lia]. apply take_ge. lia.
Qed.

Lemma rot_put_wrap k f y d : (k ≤ length d)%nat → (f + length y ≤ length d)%nat → (length d ≤ k + f)%nat →
  take (f + length y) (rot k (put_at (k + f - length d) d y)) = take f (rot k d) ++ y.
Proof.
  intros Hk Hf H. rewrite (take_rot_wrap k f) by lia. set (t := (k + f - length d)%nat).
  assert (Hl : length (put_at t d y) = length d).
  { unfold put_at. rewrite !length_app, length_take, length_drop. lia. }
  rewrite take_rot_wrap by lia. rewrite Hl, <- app_assoc. f_equal.
  - unfold put_at. rewrite app_assoc, drop_app_ge by (rewrite length_app, length_take; lia).
    rewrite drop_drop, length_app, length_take. f_equal. lia.
  - unfold put_at. rewrite app_assoc. apply take_app_length'. rewrite length_app, length_take. lia.
Qed.
End rot.

Module PipeInv.
Import Pipe.

(** What is in the ring buffer, oldest first. *)
Definition contents (p : Pipe) : list Z := take (Z.to_nat (filled p)) (rot (Z.to_nat (readPos p)) (data p)).

Record inv (p : Pipe) : Prop := {
  inv_pos : 0 ≤ readPos p ≤ count p;
  inv_filled : 0 ≤ filled p ≤ count p;
  inv_count : count p < 2 ^ 31;
  inv_read : 0 < filled p → waitRead p = true;
  inv_write : filled p < count p → waitWrite p = true;
}.

Lemma inv_init size : 0 ≤ size < 2 ^ 31 → inv (init size).
Proof. intros Hs. split; unfold count; simpl; rewrite ?zlen_replicate; done || lia. Qed.

Lemma contents_length p : inv p → zlen (contents p) = filled p.
Proof.
  intros [Hp Hf Hc _ _]. unfold contents, count, zlen in *. rewrite length_take, rot_length. lia.
Qed.

Lemma from_ret l off n : 0 ≤ off → 0 ≤ n → off + n ≤ zlen l → from l off n = Ret (slice l off n).
Proof. intros. unfold from. by rewrite (proj2 (Z.leb_le 0 off)), (proj2 (Z.leb_le 0 n)), (proj2 (Z.leb_le _ _)) by lia. Qed.

(** The bytes a read copies, with one [memcpy] or two. *)
Lemma read_copy p n : inv p → 0 ≤ n ≤ filled p →
  (if count p <? u32 (readPos p + n) then
     let first := u32 (count p - readPos p) in
     x ← from (data p) (readPos p) first; y ← from (data p) 0 (u32 (n - first)); Ret (x ++ y)
   else from (data p) (readPos p) n) = Ret (take (Z.to_nat n) (contents p)).
Proof.
  intros [Hp Hf Hc _ _] Hn. unfold contents. rewrite take_take, Nat.min_l by lia.
  rewrite (u32_small (readPos p + n)) by (unfold is_u32; lia). destruct (Z.ltb_spec (count p) (readPos p + n)) as [Hw|Hw].
  - cbv zeta. rewrite (u32_small (count p - readPos p)) by (unfold is_u32; lia).
    rewrite (u32_small (n - _)) by (unfold is_u32; lia). unfold count, zlen in *.
    rewrite !from_ret by (unfold zlen; lia). cbn [mbind outcome_bind]. rewrite take_rot_wrap by lia. unfold slice. do 2 f_equal.
    + rewrite take_ge; [done|]. rewrite length_drop. lia.
    + simpl. f_equal. lia.
  - unfold count, zlen in *. rewrite from_ret by (unfold zlen; lia). rewrite take_rot by lia. done.
Qed.

(** The position after a read. *)
Lemma read_pos p n : inv p → 0 ≤ n ≤ filled p →
  let r := u32 (readPos p + n) in
  let r' := if count p <=? r then u32 (r - count p) else r in
  0 ≤ r' ≤ count p ∧
  rot (Z.to_nat r') (data p) = drop (Z.to_nat n) (rot (Z.to_nat (readPos p)) (data p)) ++ take (Z.to_nat n) (rot (Z.to_nat (readPos p)) (data p)).
Proof.
  intros [Hp Hf Hc _ _] Hn. cbv zeta. rewrite (u32_small (readPos p + n)) by (unfold is_u32; lia).
  destruct (Z.leb_spec (count p) (readPos p + n)) as [Hw|Hw].
  - rewrite u32_small by (unfold is_u32; lia). split; [lia|]. unfold count, zlen in *.
    rewrite <- rot_wrap by lia. f_equal. lia.
  - split; [lia|]. unfold count, zlen in *. rewrite <- rot_add by lia. f_equal. lia.
Qed.

Lemma readBody_run p free b : inv p → 0 ≤ free →
  returns (readBody p free b) (λ '(p', r), inv p' ∧ data p' = data p ∧ readClosed p' = readClosed p ∧ writeClosed p' = writeClosed p ∧
    match r with
    | None => contents p = [] ∧ contents p' = [] ∧ writeClosed p = false
    | Some x => x = take (Z.to_nat free) (contents p) ∧
        contents p' = (if b then drop (Z.to_nat free) (contents p) else contents p)
    end).
Proof.
  intros Hi Hfree. destruct (Hi) as [Hp Hf Hc Hr Hw]. pose proof (contents_length p Hi) as Hcl. unfold readBody.
  destruct (Z.leb_spec (filled p) 0) as [He|Hne].
  { assert (Hnil : contents p = []) by (apply nil_length_inv; unfold zlen in Hcl; lia).
    destruct (writeClosed p) eqn:Ew; simpl; rewrite Hnil.
    - rewrite take_nil, drop_nil. by destruct b.
    - split_and!; try done. split; simpl; done || lia. }
  set (n := Z.min free (filled p)). assert (Hn : 0 ≤ n ≤ filled p) by (unfold n; lia).
  assert (Hfn : take (Z.to_nat free) (contents p) = take (Z.to_nat n) (contents p) ∧
    drop (Z.to_nat free) (contents p) = drop (Z.to_nat n) (contents p)).
  { unfold zlen in Hcl. destruct (decide (free ≤ filled p)); [by replace n with free by (unfold n; lia)|].
    rewrite !take_ge, !drop_ge by (unfold n; lia). done. }
  destruct Hfn as [-> ->]. pose proof (read_copy p n Hi Hn) as E. cbv zeta in E |- *. rewrite E. cbn [mbind outcome_bind]. destruct b; [|done]. cbn [returns].
  pose proof (read_pos p n Hi Hn) as Hpos. cbv zeta in Hpos. destruct Hpos as [Hrange Hrot].
  rewrite (u32_small (filled p - n)) by (unfold is_u32; lia).
  split_and!; try done.
  - split; simpl; try done; [unfold count in *; simpl; lia|]. intros Hpos'. rewrite (proj2 (Z.eqb_neq _ _)) by lia. apply Hr. lia.
  - unfold contents at 1. cbn [filled readPos data]. rewrite Hrot. unfold contents.
    rewrite take_app_le by (rewrite length_drop, rot_length; unfold count, zlen in *; lia).
    rewrite skipn_firstn_comm. f_equal. lia.
Qed.

Lemma writeBody_run p x : inv p → 0 < zlen x < 2 ^ 32 →
  returns (writeBody p x) (λ '(p', r), inv p' ∧ readClosed p' = readClosed p ∧ writeClosed p' = writeClosed p ∧
    match r with
    | Stop => p' = p ∧ readClosed p = true
    | Wait => contents p' = contents p ∧ filled p = count p
    | Wrote n => 0 < n ≤ zlen x ∧ contents p' = contents p ++ slice x 0 n
    end ∧ count p' = count p).
Proof.
  intros Hi Hx. destruct (Hi) as [Hp Hf Hc Hr Hw]. unfold writeBody.
  destruct (readClosed p) eqn:Erc; [simpl; by split_and!|].
  destruct (Z.leb_spec (count p) (filled p)) as [Hfull|Hroom].
  { simpl. split_and!; try done; [|lia]. split; simpl; unfold count in *; simpl; done || lia. }
  rewrite (u32_small (count p - filled p)), (u32_small (readPos p + filled p)) by (unfold is_u32; lia).
  set (t := if count p <=? readPos p + filled p then u32 (readPos p + filled p - count p) else readPos p + filled p).
  assert (Ht : t = readPos p + filled p ∧ t < count p ∨ t = readPos p + filled p - count p ∧ 0 ≤ t < count p).
  { unfold t. destruct (Z.leb_spec (count p) (readPos p + filled p)); [|left; lia]. right. rewrite u32_small by (unfold is_u32; lia). lia. }
  rewrite (u32_small (count p - t)) by (unfold is_u32; lia). set (n := Z.min _ _).
  assert (Hn : 0 < n ≤ zlen x ∧ n ≤ count p - t ∧ n ≤ count p - filled p) by (unfold n; lia).
  rewrite from_ret by lia. cbn [mbind outcome_bind]. set (y := slice x 0 n).
  assert (Hy : zlen y = n) by (apply zlen_slice; lia).
  unfold into. rewrite (proj2 (Z.leb_le 0 t)), (proj2 (Z.leb_le _ _)) by (unfold count in *; lia). cbn [andb mbind outcome_bind returns].
  assert (Hzs : zlen (splice (data p) t y) = count p) by (apply zlen_splice; unfold count in *; lia).
  rewrite Hzs, (u32_small (filled p + n)) by (unfold is_u32; lia).
  split_and!; try done; try lia.
  - unfold count in *. split; unfold count; simpl; rewrite ?Hzs; try done; try lia.
    intros Hlt. rewrite (proj2 (Z.leb_gt _ _)) by lia. apply Hw. lia.
  - unfold contents. cbn [filled readPos data]. unfold splice. fold (put_at (Z.to_nat t) (data p) y).
    replace (Z.to_nat (filled p + n)) with (Z.to_nat (filled p) + length y)%nat by (unfold zlen in *; lia).
    unfold count, zlen in *. fold y. clearbody y n t.
    destruct Ht as [[Ht ?]|[Ht ?]]; rewrite Ht.
    + rewrite Z2Nat.inj_add by lia. apply rot_put. lia.
    + replace (Z.to_nat (readPos p + filled p - Z.of_nat (length (data p))))
        with (Z.to_nat (readPos p) + Z.to_nat (filled p) - length (data p))%nat by lia.
      apply rot_put_wrap; lia.
Qed.

(** ** Runs *)

(** The arguments of calls are buffers with fewer than 2^32 bytes; [write] does nothing for
    an empty one. *)
Definition valid (a : action) : Prop :=
  match a with
  | Read free | Peek free => 0 ≤ free < 2 ^ 32
  | Write x => 0 < zlen x < 2 ^ 32
  | _ => True
  end.

Definition sysInv (size : Z) (y : System) : Prop :=
  inv (pipe y) ∧ sent y = received y ++ contents (pipe y) ∧ count (pipe y) = size.

Lemma pipe_step_inv size y a : sysInv size y → valid a → returns (step y a) (sysInv size).
Proof.
  intros (Hi & Hs & Hc) Ha. destruct a as [free|free|x| |]; simpl in *.
  - eapply returns_bind; [apply (readBody_run (pipe y) free true Hi); lia|].
    intros [p r] (Hi' & Hd & _ & _ & Hr). simpl. split_and!; [done| |by unfold count in *; simpl; rewrite Hd].
    simpl. rewrite Hs, <- app_assoc. f_equal. destruct r as [x|].
    + destruct Hr as [-> ->]. by rewrite take_drop.
    + destruct Hr as (-> & -> & _). done.
  - eapply returns_bind; [apply (readBody_run (pipe y) free false Hi); lia|].
    intros [p r] (Hi' & Hd & _ & _ & Hr). simpl. split_and!; [done| |by unfold count in *; simpl; rewrite Hd].
    simpl. rewrite Hs. f_equal. destruct r as [x|]; [by destruct Hr as [_ ->]|by destruct Hr as (-> & -> & _)].
  - eapply returns_bind; [by apply (writeBody_run (pipe y) x Hi)|].
    intros [p r] (Hi' & _ & _ & Hr & Hc'). simpl. split_and!; [done| |by simpl; rewrite Hc'].
    simpl. rewrite Hs, <- app_assoc. f_equal. destruct r as [| |n].
    + destruct Hr as [-> _]. by rewrite app_nil_r.
    + destruct Hr as [-> _]. by rewrite app_nil_r.
    + by destruct Hr as [_ ->].
  - split_and!; [|done|done]. destruct Hi. by split.
  - split_and!; [|done|done]. destruct Hi. by split.
Qed.

Lemma run_inv size y l : sysInv size y → Forall valid l → returns (run y l) (sysInv size).
Proof.
  revert y. induction l as [|a l IH]; intros y Hy Hl; [done|]. apply Forall_cons_1 in Hl as [Ha Hl].
  simpl. eapply returns_bind; [by apply (pipe_step_inv size)|]. intros y' Hy'. by apply IH.
Qed.

Lemma start_inv size : 0 ≤ size < 2 ^ 31 → sysInv size (start size).
Proof.
  intros Hs. split_and!; [by apply inv_init|done|]. unfold count. simpl. rewrite zlen_replicate. lia.
Qed.

(** C9: However reads, peeks, writes and closes of the two ends follow one another, a pipe of
    any size never accesses memory outside of its ring buffer, and it is a bounded queue:
    what was accepted from writers is what readers got, in order and once, followed by at
    most [size] bytes that are still in the buffer. *)
Theorem pipe_fifo size l : 0 ≤ size < 2 ^ 31 → Forall valid l →
  returns (run (start size) l) (λ y, sent y = received y ++ contents (pipe y) ∧ zlen (contents (pipe y)) ≤ size).
Proof.
  intros Hs Hl. eapply returns_mono; [by apply (run_inv size); [apply start_inv|]|].
  intros y (Hi & Hsent & Hc). split; [done|]. rewrite contents_length by done. destruct Hi. lia.
Qed.

Lemma pipe_fifo_witness :
  returns (run (start 4) [Write [1; 2; 3]; Read 2; Write [4; 5; 6]; Peek 3; Write [6]; Read 10])
    (λ y, sent y = received y ++ contents (pipe y) ∧ zlen (contents (pipe y)) ≤ 4).
Proof. apply (pipe_fifo 4); [lia|]. by repeat constructor. Defined.

(** ** Waiting *)

(** The events say exactly whether there is something to read, and room to write. *)
Definition exact (p : Pipe) : Prop :=
  waitRead p = (0 <? filled p) ∧ waitWrite p = (filled p <? count p) ∧ readClosed p = false ∧ writeClosed p = false.

Lemma readBody_exact p free b p' r : inv p → exact p → 0 < free → readBody p free b = Ret (p', r) → exact p'.
Proof.
  intros Hi (Hr & Hw & Hrc & Hwc) Hfree. destruct (Hi) as [Hp Hf Hc _ _]. unfold readBody.
  destruct (Z.leb_spec (filled p) 0) as [He|Hne].
  - rewrite Hwc. intros [= <- _]. unfold exact. simpl. rewrite (proj2 (Z.ltb_ge 0 _)) by lia. by split_and!.
  - set (n := Z.min free (filled p)). assert (Hn : 0 < n ≤ filled p) by (unfold n; lia).
    pose proof (read_copy p n Hi ltac:(lia)) as E. cbv zeta in E |- *. rewrite E. cbn [mbind outcome_bind].
    destruct b; [|by intros [= <- _]]. intros [= <- _]. unfold exact. cbn. unfold count in *. cbn.
    rewrite (u32_small (filled p - n)) by (unfold is_u32; lia). split_and!; [|by rewrite (proj2 (Z.ltb_lt _ _)) by lia|done|done].
    destruct (Z.eqb_spec (filled p - n) 0) as [Hz|Hz]; [by rewrite Hz|]. rewrite Hr.
    by rewrite !(proj2 (Z.ltb_lt 0 _)) by lia.
Qed.

Lemma writeBody_exact p x p' r : inv p → exact p → 0 < zlen x < 2 ^ 32 → writeBody p x = Ret (p', r) → exact p'.
Proof.
  intros Hi (Hr & Hw & Hrc & Hwc) Hx E. pose proof (writeBody_run p x Hi Hx) as HB. rewrite E in HB.
  destruct HB as (Hi' & Hc1 & Hc2 & HB & Hcnt). destruct (Hi) as [Hp Hf Hc _ _], (Hi') as [_ Hf' _ Hr' Hw'].
  unfold exact. rewrite Hc1, Hc2. split_and!; [| |done|done].
  - destruct r as [| |n].
    + destruct HB as [-> _]. done.
    + destruct HB as [Heq Hfull]. revert E. unfold writeBody. rewrite Hrc, (proj2 (Z.leb_le _ _)) by lia. by intros [= <-].
    + destruct HB as [Hn Heq]. apply (f_equal zlen) in Heq. rewrite zlen_app, !contents_length in Heq by done.
      rewrite zlen_slice in Heq by lia. rewrite Hr', (proj2 (Z.ltb_lt _ _)) by lia. done.
  - destruct r as [| |n].
    + destruct HB as [-> _]. done.
    + destruct HB as [Heq Hfull]. revert E. unfold writeBody. rewrite Hrc, (proj2 (Z.leb_le _ _)) by lia.
      intros [= <-]. unfold count. simpl. rewrite (proj2 (Z.ltb_ge _ _)); [done|]. unfold count in *. lia.
    + destruct (Z.ltb_spec (filled p') (count p')) as [Hlt|Hge]; [by apply Hw'|]. revert E Hge Hf'. unfold writeBody. rewrite Hrc.
      destruct (Z.leb_spec (count p) (filled p)) as [|Hlt]; [done|]. cbv zeta. destruct (from _ _ _) as [y| | |]; try done. cbn [mbind outcome_bind].
      destruct (into _ _ _) as [d| | |]; try done. cbn [mbind outcome_bind]. intros [= <- _]. unfold count. cbn [data filled waitWrite].
      intros Hge Hf'. by rewrite (proj2 (Z.leb_le _ _)) by lia.
Qed.

(** Both ends are open, and readers have room in their buffers. *)
Definition useful (a : action) : Prop :=
  match a with Read free | Peek free => 0 < free < 2 ^ 32 | Write x => 0 < zlen x < 2 ^ 32 | _ => False end.

Lemma useful_valid a : useful a → valid a.
Proof. destruct a; simpl; lia || done. Qed.

Lemma run_exact size y l : sysInv size y → exact (pipe y) → Forall useful l →
  returns (run y l) (λ y', exact (pipe y') ∧ sysInv size y').
Proof.
  revert y. induction l as [|a l IH]; intros y Hy He Hl; [done|]. apply Forall_cons_1 in Hl as [Ha Hl]. simpl.
  pose proof (pipe_step_inv size y a Hy (useful_valid a Ha)) as Hst.
  destruct (step y a) as [y'| | |] eqn:E; try done. simpl in Hst |- *. apply IH; [done| |done].
  destruct Hy as [Hi _]. destruct a as [free|free|x| |]; simpl in E, Ha; try done.
  - destruct (readBody (pipe y) free true) as [[p r]| | |] eqn:EB; try done. injection E as <-. by eapply readBody_exact; [..|apply Ha|].
  - destruct (readBody (pipe y) free false) as [[p r]| | |] eqn:EB; try done. injection E as <-. by eapply readBody_exact; [..|apply Ha|].
  - destruct (writeBody (pipe y) x) as [[p r]| | |] eqn:EB; try done. injection E as <-. by eapply writeBody_exact.
Qed.

(** While both ends of a pipe are open, the flags of its events are exact whenever the
    lock is free, whatever the threads did before: that of the readers is set exactly when
    there are data, and then a read gets some; that of the writers is set exactly when there
    is room, and then a write has some of its data accepted; one of the two is always set.
    (This is about the flags.  That a thread which waits for a flag goes on when it is set
    is up to [Event], which can miss it: [event_loses_wakeup] of [SyncCorrect].) *)
Theorem pipe_progress size l free x : 0 < size < 2 ^ 31 → Forall useful l → 0 < free < 2 ^ 32 → 0 < zlen x < 2 ^ 32 →
  returns (run (start size) l) (λ y, let p := pipe y in
    (if flagSet p (Read free)
     then returns (step y (Read free)) (λ y', (length (received y) < length (received y'))%nat)
     else contents p = []) ∧
    (if flagSet p (Write x)
     then returns (step y (Write x)) (λ y', (length (sent y) < length (sent y'))%nat)
     else zlen (contents p) = size) ∧
    (flagSet p (Read free) = true ∨ flagSet p (Write x) = true)).
Proof.
  intros Hs Hl Hfree Hx. eapply returns_mono; [apply (run_exact size); [apply start_inv; lia| |done]|].
  { unfold exact, count. simpl. rewrite zlen_replicate. split_and!; [done| |done|done]. symmetry. apply Z.ltb_lt. lia. }
  intros y [(Hr & Hw & Hrc & Hwc) (Hi & _ & Hc)]. pose proof (contents_length _ Hi) as Hcl.
  destruct (Hi) as [Hp Hf _ _ _]. cbv zeta. cbn [flagSet]. rewrite Hr, Hw. split_and!.
  - destruct (Z.ltb_spec 0 (filled (pipe y))) as [Hpos|Hz]; [|apply nil_length_inv; unfold zlen in Hcl; lia].
    simpl. eapply returns_bind; [apply (readBody_run (pipe y) free true Hi); lia|].
    intros [p r] (_ & _ & _ & _ & Hres). simpl. rewrite length_app. unfold zlen in Hcl. destruct r as [z|].
    + destruct Hres as [-> _]. rewrite length_take. lia.
    + destruct Hres as [Hnil _]. rewrite Hnil in Hcl. simpl in Hcl. lia.
  - destruct (Z.ltb_spec (filled (pipe y)) (count (pipe y))) as [Hlt|Hge]; [|lia].
    simpl. eapply returns_bind; [by apply (writeBody_run (pipe y) x Hi)|].
    intros [p r] (_ & _ & _ & Hres & _). simpl. rewrite length_app. destruct r as [| |n].
    + destruct Hres as [_ Hres]. by rewrite Hrc in Hres.
    + destruct Hres as [_ Hres]. lia.
    + destruct Hres as [Hn _]. pose proof (zlen_slice x 0 n ltac:(lia) ltac:(lia) ltac:(lia)) as Hsl. unfold zlen in *. lia.
  - rewrite !Z.ltb_lt. lia.
Qed.

Lemma pipe_progress_witness :
  returns (run (start 4) [Write [1; 2; 3]; Read 2; Write [4; 5; 6]]) (λ y, let p := pipe y in
    (if flagSet p (Read 2)
     then returns (step y (Read 2)) (λ y', (length (received y) < length (received y'))%nat)
     else contents p = []) ∧
    (if flagSet p (Write [9])
     then returns (step y (Write [9])) (λ y', (length (sent y) < length (sent y'))%nat)
     else zlen (contents p) = 4) ∧
    (flagSet p (Read 2) = true ∨ flagSet p (Write [9]) = true)).
Proof. apply (pipe_progress 4); [lia| |lia|done]. by repeat constructor. Defined.

(** ** Closing *)

(** The end of the pipe is closed and all data have been read. *)
Definition ended : System := mkSystem (mkPipe [1; 2; 0; 0] 2 0 false true false true) [1; 2] [1; 2].

(** C33: After the write end was closed and the last data were read, the event for readers is
    not set, and stays so until the end is closed another time or written to: the [read]
    that should find the end of the stream waits forever.  Before that, [more] says that
    there are no more data although there are. *)
Theorem pipe_end_blocks :
  run (start 4) [Write [1; 2]; CloseWrite; Read 4] = Ret ended ∧
  (∀ l y, run ended l = Ret y → Forall (λ a, match a with Write _ | CloseWrite => False | _ => True end) l →
     ∀ free, flagSet (pipe y) (Read free) = false) ∧
  returns (run (start 4) [Write [1; 2]; CloseWrite]) (λ y, more (pipe y) = false ∧ contents (pipe y) = [1; 2]).
Proof.
  split_and!; [reflexivity| |by vm_compute].
  assert (HE : ∀ l y y', filled (pipe y) = 0 → waitRead (pipe y) = false → run y l = Ret y' →
    Forall (λ a, match a with Write _ | CloseWrite => False | _ => True end) l → waitRead (pipe y') = false).
  { induction l as [|a l IH]; intros y y' Hf Hw Hr Hl; [by injection Hr as <-|]. apply Forall_cons_1 in Hl as [Ha Hl].
    simpl in Hr. destruct (step y a) as [y1| | |] eqn:E; try done. simpl in Hr.
    assert (filled (pipe y1) = 0 ∧ waitRead (pipe y1) = false) as [? ?]; [|by eapply IH].
    destruct a as [free|free|x| |]; try done; simpl in E; unfold readBody in E; rewrite ?Hf in E; simpl in E;
      try (destruct (writeClosed (pipe y)); simpl in E); injection E as <-; done. }
  intros l y Hr Hl free. simpl. by apply (HE l ended).
Qed.
End PipeInv.
