(* ===== verification/Str.v ===== *)
(** * Strings

    [Core/Str.h] and [Core/Str.cpp], the parts that need no [StrBuf]: construction,
    comparison, iteration, searching, and conversions of escape sequences and line endings.
    A string is an array of UTF-16 code units that ends with a zero.  Strings are never
    changed, so an object is its address and its data.  Constructors and operations that
    make a new string give the data of the new object. *)

From stdpp Require Import base list numbers decidable option strings.
From Stdlib Require Import ZArith Lia.
From S2P Require Import Prelude Utf Buffer.

(** A [GcArray<wchar>]: [count] is the length of [units]; [sfilled] is the number of
    surrogate pairs. *)
Record GcWchars := mkGcWchars { sfilled : Z; units : list Z }.
Definition scount (d : GcWchars) : Z := zlen (units d).

(** Characters of the source. *)
Module Ch.
Definition nl : Z := 10.
Definition cr : Z := 13.
Definition tab : Z := 9.
Definition vt : Z := 11.
Definition space : Z := 32.
Definition minus : Z := 45.
Definition dot : Z := 46.
Definition zero : Z := 48.
Definition nine : Z := 57.
Definition backslash : Z := 92.
End Ch.

(** ** Strings of C *)

Fixpoint wcslen (s : list Z) : outcome Z :=
  match s with
  | [] => Fault
  | c :: s => if c =? 0 then Ret 0 else r ← wcslen s; Ret (u64 (r + 1))
  end.

Fixpoint wcscmp (a b : list Z) : outcome Z :=
  match a, b with
  | x :: a, y :: b =>
      if negb (x =? y) then Ret (if x <? y then -1 else 1)
      else if x =? 0 then Ret 0 else wcscmp a b
  | _, _ => Fault
  end.

(** Units from an array; outside of it they cannot be read. *)
Definition unitsAt (s : list Z) (from n : Z) : outcome (list Z) :=
  if (0 <=? from) && (0 <=? n) && (from + n <=? zlen s) then Ret (slice s from n) else Fault.

(** [Char::leading] and [Char::trailing]; a [Char] is its codepoint. *)
Module Char.
Definition leading (ch : Z) : Z := utf16.splitLeading ch.
Definition trailing (ch : Z) : Z := utf16.splitTrailing ch.
Definition size (ch : Z) : Z := if leading ch =? 0 then 1 else 2.
End Char.

Module Str.

(** The number of units that start a surrogate pair. *)
Fixpoint leadings (u : list Z) : Z :=
  match u with [] => 0 | c :: u => (if utf16.leading c then 1 else 0) + leadings u end.

(** [validate], which the constructors call last.  It does something only when the program is
    built with [SLOW_DEBUG]; it is part of the model where its assertions may fail. *)
Definition validate (slowDebug : bool) (d : GcWchars) : outcome unit :=
  if slowDebug then
    surrogates ← for_loop (Z.to_nat (scount d - 1)) 0 (λ i surrogates,
      c ← aget (units d) i;
      if c =? 0 then Fault else Ret (if utf16.leading c then u32 (surrogates + 1) else surrogates)) 0;
    c ← aget (units d) (scount d - 1);
    assert (c =? 0);;
    assert (sfilled d =? surrogates)
  else Ret tt.

(** [allocData(count + 1)], and then the units [u] and a zero are written. *)
Definition create (filled count : Z) (u : list Z) : outcome GcWchars :=
  let n := u32 (count + 1) in
  if zlen u <? n then Ret (mkGcWchars filled (u ++ replicate (Z.to_nat (n - zlen u)) 0)) else Fault.

(** ** Constructors *)

(** [Str()] *)
Definition new : GcWchars := mkGcWchars 0 [0].

(** [Str(const wchar *from, const wchar *to)], both in the array [s]. *)
Definition fromRange (s : list Z) (from to : Z) : outcome GcWchars :=
  let count := u32 (to - from) in
  u ← unitsAt s from count;
  create (leadings u) count u.

(** [Str(const wchar * )] *)
Definition fromCStr (s : list Z) : outcome GcWchars :=
  n ← wcslen s;
  let count := u32 n in
  u ← unitsAt s 0 count;
  create (leadings u) count u.

(** [Str(GcArray<wchar> *data)] *)
Definition fromData (d : GcWchars) : GcWchars := mkGcWchars (sfilled d + leadings (units d)) (units d).

(** [Str(const wchar_t * )] *)
Definition fromWCharT (s : list Z) : outcome GcWchars :=
  d ← Convert.toWCharT s; Ret (fromData (mkGcWchars 0 d)).

(** [copy]: until the pointers are the same. *)
Definition copy (s : list Z) (begin end_ : Z) : outcome (list Z) := unitsAt s begin (end_ - begin).

(** [Str(const wchar *fromA, const wchar *toA, const wchar *fromB, const wchar *toB)] *)
Definition fromRanges (s : list Z) (fromA toA fromB toB : Z) : outcome GcWchars :=
  let count := u32 ((toA - fromA) + (toB - fromB)) in
  a ← copy s fromA toA;
  b ← copy s fromB toB;
  create (leadings (a ++ b)) count (a ++ b).

(** [Str(Char)] *)
Definition fromChar (ch : Z) : outcome GcWchars :=
  let lead := Char.leading ch in
  let trail := Char.trailing ch in
  if negb (lead =? 0) then create 1 2 [lead; trail]
  else if negb (trail =? 0) then create 0 1 [trail]
  else create 0 0 [].

(** [Str(Char, Nat)] *)
Definition fromChars (ch times : Z) : outcome GcWchars :=
  let lead := Char.leading ch in
  let trail := Char.trailing ch in
  if negb (lead =? 0) then create times (2 * times) (concat (replicate (Z.to_nat times) [lead; trail]))
  else if negb (trail =? 0) then create 0 times (replicate (Z.to_nat times) trail)
  else create 0 0 [].

(** [Str(const Str *a, const Str *b)], [operator +] *)
Definition concat2 (a b : GcWchars) : outcome GcWchars :=
  let aSize := u32 (scount a - 1) in
  let bSize := u32 (scount b - 1) in
  ua ← unitsAt (units a) 0 aSize;
  ub ← unitsAt (units b) 0 bSize;
  create 0 (aSize + bSize) (ua ++ ub).

(** [Str(const Str *a, const wchar *b)] *)
Definition concatCStr (a : GcWchars) (b : list Z) : outcome GcWchars :=
  let aSize := u32 (scount a - 1) in
  bSize ← wcslen b;
  let bSize := u32 bSize in
  ua ← unitsAt (units a) 0 aSize;
  ub ← unitsAt b 0 bSize;
  create 0 (aSize + bSize) (ua ++ ub).

(** [Str(const Str *a, Nat times)], [operator *] *)
Definition repeat (a : GcWchars) (times : Z) : outcome GcWchars :=
  let s := u32 (scount a - 1) in
  u ← unitsAt (units a) 0 s;
  create 0 (s * times) (concat (replicate (Z.to_nat times) u)).

(** ** Properties of strings *)

Definition empty (d : GcWchars) : bool := scount d =? 1.
Definition any (d : GcWchars) : bool := negb (empty d).
Definition count (d : GcWchars) : Z := u32 (scount d - sfilled d - 1).
Definition charCount (d : GcWchars) : Z := u32 (scount d - 1).

(** [operator ==] and [operator <], for two objects of the same type. *)
Definition eq (a b : GcWchars) : outcome bool := r ← wcscmp (units a) (units b); Ret (r =? 0).
Definition lt (a b : GcWchars) : outcome bool := r ← wcscmp (units a) (units b); Ret (r <? 0).

(** The units that loops up to [data->count - 1] see. *)
Definition body (d : GcWchars) : list Z := take (length (units d) - 1) (units d).

Definition hash (d : GcWchars) : Z := foldl (λ r c, u32 (u32 (u32 (Z.shiftl r 5) + r) + c)) 5381 (body d).

Definition isDigit (c : Z) : bool := negb ((c <? Ch.zero) || (Ch.nine <? c)).

Definition isInt (d : GcWchars) : outcome bool :=
  c ← aget (units d) 0;
  let start := if c =? Ch.minus then 1%nat else 0%nat in
  Ret (forallb isDigit (drop start (body d))).

Definition isNat (d : GcWchars) : bool := forallb isDigit (body d).

(** The first loop of [isFloat]: what is left when it stops. *)
Fixpoint floatHead (u : list Z) (hasDecimal : bool) : option (list Z) :=
  match u with
  | [] => Some []
  | c :: u' =>
      if (c =? Ch.dot) && negb hasDecimal then floatHead u' true
      else if isDigit c then floatHead u' hasDecimal
      else if (c =? 101) || (c =? 69) then Some u
      else None
  end.

Definition isFloat (d : GcWchars) : outcome bool :=
  c ← aget (units d) 0;
  let at_ := if c =? Ch.minus then 1%nat else 0%nat in
  match floatHead (drop at_ (body d)) false with
  | None => Ret false
  | Some [] => Ret true
  | Some (c :: u) =>
      if negb (c =? 101) && negb (c =? 69) then Ret false
      else Ret (forallb isDigit (if c =? Ch.minus then u else c :: u))
  end.

Definition hexDigit (ch : Z) : Z :=
  if (48 <=? ch) && (ch <=? 57) then ch - 48
  else if (97 <=? ch) && (ch <=? 102) then ch - 97 + 10
  else if (65 <=? ch) && (ch <=? 70) then ch - 65 + 10
  else -1.

Definition isHex (d : GcWchars) : bool := forallb (λ c, negb (hexDigit c <? 0)) (body d).

Fixpoint hexLoop (u : list Z) (r : Z) : outcome Z :=
  match u with
  | [] => Ret r
  | ch :: u =>
      let digit := hexDigit ch in
      if digit <? 0 then Throw (StrError "Not a hexadecimal number")
      else hexLoop u (Z.lor (u64 (Z.shiftl r 4)) digit)
  end.

Definition hexToWord (d : GcWchars) : outcome Z := hexLoop (body d) 0.
Definition hexToNat (d : GcWchars) : outcome Z := r ← hexToWord d; Ret (u32 r).

(** ** Escape sequences *)

(** [*to++ = x], in an array of [cap] units. *)
Definition put (cap : Z) (to : list Z) (x : Z) : outcome (list Z) :=
  if zlen to <? cap then Ret (to ++ [x]) else Fault.

(** The tests for [extra] and [extra2] of [unescape]. *)
Definition unescapeExtra (s : list Z) (cap src : Z) (out : list Z) (extra : Z) : outcome (option (Z * list Z)) :=
  if negb (Char.leading extra =? 0) then
    c1 ← aget s (src + 1);
    if c1 =? Char.leading extra then
      c2 ← aget s (src + 2);
      if c2 =? Char.trailing extra then
        out ← put cap out (Char.leading extra);
        out ← put cap out (Char.trailing extra);
        Ret (Some (src + 2, out))
      else Ret None
    else Ret None
  else if Char.trailing extra =? 0 then Ret None
  else
    c1 ← aget s (src + 1);
    if c1 =? Char.trailing extra then out ← put cap out (Char.trailing extra); Ret (Some (src + 1, out))
    else Ret None.

(** [unescape<useEscape>(src, out, extra, extra2)]: the new position and what was written. *)
Definition unescape1 (useEscape : bool) (s : list Z) (cap src : Z) (out : list Z) (extra extra2 : Z) :
    outcome (option (Z * list Z)) :=
  let one x := out ← put cap out x; Ret (Some (src + 1, out)) in
  c ← aget s (src + 1);
  if c =? 110 then one Ch.nl
  else if c =? 114 then one Ch.cr
  else if c =? 116 then one Ch.tab
  else if c =? 118 then one Ch.vt
  else if c =? 48 then one 0
  else if c =? 120 then
    c2 ← aget s (src + 2);
    let a := hexDigit c2 in
    if a <? 0 then Ret None
    else
      c3 ← aget s (src + 3);
      let b := hexDigit c3 in
      if b <? 0 then Ret None
      else out ← put cap out (u16 (Z.lor (Z.shiftl a 4) b)); Ret (Some (src + 3, out))
  else if (c =? Ch.backslash) && useEscape then one Ch.backslash
  else
    r ← unescapeExtra s cap src out extra;
    match r with Some r => Ret (Some r) | None => unescapeExtra s cap src out extra2 end.

Fixpoint unescapeLoop (fuel : nat) (s : list Z) (cap from : Z) (to : list Z) (extra extra2 : Z) : outcome (list Z) :=
  match fuel with
  | O => OutOfFuel
  | S fuel =>
      if from <? cap - 1 then
        ch ← aget s from;
        '(from, to) ← (if ch =? Ch.backslash then
            r ← unescape1 true s cap from to extra extra2;
            match r with Some r => Ret r | None => to ← put cap to Ch.backslash; Ret (from, to) end
          else to ← put cap to ch; Ret (from, to));
        unescapeLoop fuel s cap (from + 1) to extra extra2
      else Ret to
  end.

(** The array that was written, which was cleared before. *)
Definition written (cap : Z) (to : list Z) : list Z := to ++ replicate (Z.to_nat (cap - zlen to)) 0.

Definition unescape (d : GcWchars) (extra extra2 : Z) : outcome GcWchars :=
  to ← unescapeLoop (S (length (units d))) (units d) (scount d) 0 [] extra extra2;
  fromCStr (written (scount d) to).

Fixpoint unescapeKeepLoop (fuel : nat) (s : list Z) (cap from : Z) (to : list Z) (extra : Z) : outcome (list Z) :=
  match fuel with
  | O => OutOfFuel
  | S fuel =>
      if from <? cap - 1 then
        ch ← aget s from;
        '(from, to) ← (if ch =? Ch.backslash then
            r ← unescape1 false s cap from to extra 0;
            match r with
            | Some r => Ret r
            | None =>
                to ← put cap to Ch.backslash;
                c1 ← aget s (from + 1);
                if c1 =? Ch.backslash then to ← put cap to Ch.backslash; Ret (from + 1, to) else Ret (from, to)
            end
          else to ← put cap to ch; Ret (from, to));
        unescapeKeepLoop fuel s cap (from + 1) to extra
      else Ret to
  end.

Definition unescapeKeepBackslash (d : GcWchars) (extra : Z) : outcome GcWchars :=
  to ← unescapeKeepLoop (S (length (units d))) (units d) (scount d) 0 [] extra;
  fromCStr (written (scount d) to).

(** ** Prefixes and suffixes *)

(** [startsWith(const wchar *s)] *)
Fixpoint startsWith (u s : list Z) : outcome bool :=
  match s with
  | [] => Fault
  | c :: s =>
      if c =? 0 then Ret true
      else match u with [] => Fault | x :: u => if negb (x =? c) then Ret false else startsWith u s end
  end.

(** [endsWith(const wchar *s)] *)
Definition endsWith (d : GcWchars) (s : list Z) : outcome bool :=
  sLen ← wcslen s;
  let sLen := u32 sLen in
  if charCount d <? sLen then Ret false
  else
    let offset := u32 (charCount d - sLen) in
    a ← unitsAt (units d) offset sLen;
    b ← unitsAt s 0 sLen;
    Ret (bool_decide (a = b)).

(** ** Line endings *)

(** What [toCrLfHelp] writes for the units [u], where [prev] is the unit before them. *)
Fixpoint toCrLfHelp (prev : option Z) (u : list Z) : list Z :=
  match u with
  | [] => []
  | c :: u =>
      (if (c =? Ch.nl) && match prev with Some p => negb (p =? Ch.cr) | None => false end then [Ch.cr; c] else [c])
      ++ toCrLfHelp (Some c) u
  end.

Definition toCrLf (d : GcWchars) : outcome GcWchars :=
  let out := toCrLfHelp None (body d) in
  let len := u32 (zlen out) in
  if len =? charCount d then Ret d
  else to ← create 0 len out; Ret (fromData to).

(** What [fromCrLfHelp] writes for the units [u]; the unit after the last is a zero. *)
Fixpoint fromCrLfHelp (u : list Z) : list Z :=
  match u with
  | [] => []
  | c :: u =>
      (if c =? Ch.cr then
         match u with n :: _ => if n =? Ch.nl then [] else [Ch.nl] | [] => [Ch.nl] end
       else [c]) ++ fromCrLfHelp u
  end.

Definition fromCrLf (d : GcWchars) : outcome GcWchars :=
  let out := fromCrLfHelp (body d) in
  let len := u32 (zlen out) in
  if len =? charCount d then Ret d
  else to ← create 0 len out; Ret (fromData to).

(** ** White space *)

Definition whitespace (ch : Z) : bool :=
  (ch =? Ch.space) || (ch =? Ch.tab) || (ch =? Ch.cr) || (ch =? Ch.nl).

(** The first loop of [trimWhitespace], from the position [at_] of the string [s]. *)
Fixpoint skipBlank (s : list Z) (at_ : Z) : outcome Z :=
  match s with
  | [] => Fault
  | c :: s => if c =? 0 then Ret at_ else if whitespace c then skipBlank s (at_ + 1) else Ret at_
  end.

(** The second loop. *)
Fixpoint lastNonBlank (s : list Z) (at_ end_ : Z) : outcome Z :=
  match s with
  | [] => Fault
  | c :: s => if c =? 0 then Ret end_ else lastNonBlank s (at_ + 1) (if whitespace c then end_ else at_ + 1)
  end.

Definition trimWhitespace (d : GcWchars) : outcome GcWchars :=
  begin ← skipBlank (units d) 0;
  end_ ← lastNonBlank (drop (Z.to_nat begin) (units d)) begin 0;
  fromRange (units d) begin end_.

End Str.
