(* ===== verification/StrIter.v ===== *)
(** * Iterators of strings

    [Str::Iter] of [Core/Str.h] and [Core/Str.cpp], and the operations of strings that use
    iterators: parts of strings, and searching. *)

From stdpp Require Import base list numbers decidable option strings.
From Stdlib Require Import ZArith Lia.
From S2P Require Import Prelude Utf Buffer Str.

(** An object: its address and its data. *)
Record StrObj := mkStrObj { addr : nat; sdata : GcWchars }.

Module Iter.

(** [const Str *owner; Nat pos;] *)
Record Iter := mkIter { owner : option StrObj; pos : Z }.

(** [Iter()], the iterator to the end of all strings. *)
Definition end_ : Iter := mkIter None 0.

Definition ownerAddr (i : Iter) : option nat := addr <$> owner i.

Definition atEnd (i : Iter) : bool :=
  match owner i with Some s => u32 (pos i + 1) =? scount (sdata s) | None => true end.

(** [operator ++] *)
Definition next (i : Iter) : outcome Iter :=
  if atEnd i then Ret i
  else match owner i with
       | None => Fault
       | Some s =>
           c ← aget (units (sdata s)) (pos i);
           Ret (mkIter (owner i) (u32 (pos i + if utf16.leading c then 2 else 1)))
       end.

(** [operator +] *)
Definition plus (i : Iter) (steps : Z) : outcome Iter := for_loop (Z.to_nat steps) 0 (λ _, next) i.

(** The loop of [operator -]. *)
Fixpoint diffLoop (fuel : nat) (s : list Z) (at_ thisPos diff : Z) : outcome Z :=
  match fuel with
  | O => OutOfFuel
  | S fuel =>
      if at_ <? thisPos then
        c ← aget s at_;
        diffLoop fuel s (u32 (at_ + if utf16.leading c then 2 else 1)) thisPos (u32 (diff + 1))
      else Ret diff
  end.

Definition minus (i o : Iter) : outcome Z :=
  match match owner i with Some s => Some s | None => owner o end with
  | None => Ret 0
  | Some s =>
      if match owner o with Some so => negb (addr so =? addr s)%nat | None => false end then Ret 0
      else
        let last := u32 (scount (sdata s) - 1) in
        let thisPos := match owner i with Some _ => pos i | None => last end in
        let otherPos := match owner o with Some _ => pos o | None => last end in
        diffLoop (S (length (units (sdata s)))) (units (sdata s)) otherPos thisPos 0
  end.

(** [operator ==], [>], [<], [>=] and [<=] *)
Definition eq (i o : Iter) : bool :=
  if atEnd i || atEnd o then eqb (atEnd i) (atEnd o)
  else bool_decide (ownerAddr i = ownerAddr o) && (pos i =? pos o).

Definition gt (i o : Iter) : bool :=
  if negb (atEnd o) && atEnd i then true
  else if negb (bool_decide (ownerAddr i = ownerAddr o)) then false
  else pos o <? pos i.

Definition lt (i o : Iter) : bool :=
  if atEnd o && negb (atEnd i) then true
  else if negb (bool_decide (ownerAddr i = ownerAddr o)) then false
  else pos i <? pos o.

Definition ge (i o : Iter) : bool := gt i o || eq i o.
Definition le (i o : Iter) : bool := lt i o || eq i o.

(** The character at the iterator. *)
Definition v (i : Iter) : outcome Z :=
  if atEnd i then Ret 0
  else match owner i with
       | None => Fault
       | Some s =>
           p ← aget (units (sdata s)) (pos i);
           if utf16.leading p then t ← aget (units (sdata s)) (u32 (pos i + 1)); Ret (utf16.assemble p t)
           else Ret p
       end.

End Iter.

Module StrParts.
Import Iter.

Definition begin (s : StrObj) : Iter := mkIter (Some s) 0.
Definition posIter (s : StrObj) (p : Z) : Iter := mkIter (Some s) p.

(** [toPtr], as an offset in the data. *)
Definition toPtr (s : StrObj) (i : Iter) : Z :=
  if atEnd i then scount (sdata s) - 1
  else if bool_decide (ownerAddr i = Some (addr s)) then pos i
  else 0.

Definition substr (s : StrObj) (start end_ : Iter) : outcome GcWchars :=
  let a := toPtr s start in
  let b := toPtr s end_ in
  if b <? a then Str.fromCStr [0] else Str.fromRange (units (sdata s)) a b.

(** [substr(Iter)], and [cut], which is the same. *)
Definition substrFrom (s : StrObj) (start : Iter) : outcome GcWchars := substr s start Iter.end_.
Definition cut (s : StrObj) (start end_ : Iter) : outcome GcWchars := substr s start end_.

Definition remove (s : StrObj) (start end_ : Iter) : outcome GcWchars :=
  Str.fromRanges (units (sdata s)) 0 (toPtr s start) (toPtr s end_) (Str.charCount (sdata s)).

(** [Str(const Str *src, const Iter &pos, const Str *insert)] *)
Definition insert (s : StrObj) (pos : Iter) (ins : GcWchars) : outcome GcWchars :=
  let count := u32 (Str.charCount (sdata s) + Str.charCount ins) in
  let cut := toPtr s pos in
  a ← Str.copy (units (sdata s)) 0 cut;
  b ← Str.copy (units ins) 0 (Str.charCount ins);
  c ← Str.copy (units (sdata s)) cut (Str.charCount (sdata s));
  Str.create (Str.leadings (a ++ b ++ c)) count (a ++ b ++ c).

(** ** Searching *)

(** [find(Char, Iter)] *)
Fixpoint findLoop (fuel : nat) (ch : Z) (p last : Iter) : outcome Iter :=
  match fuel with
  | O => OutOfFuel
  | S fuel =>
      if eq p last then Ret p
      else c ← v p; if c =? ch then Ret p else p ← next p; findLoop fuel ch p last
  end.

(** Each step moves forward in the string of the iterator. *)
Definition iterFuel (i : Iter) : nat :=
  S (match owner i with Some s => length (units (sdata s)) | None => 0 end).

Definition findChar (ch : Z) (start : Iter) : outcome Iter := findLoop (iterFuel start) ch start Iter.end_.

(** The inner loop of [find(Str *, Iter)]. *)
Fixpoint matchLoop (fuel : nat) (i j sLast last : Iter) : outcome bool :=
  match fuel with
  | O => OutOfFuel
  | S fuel =>
      if eq i sLast then Ret true
      else if eq j last then Ret false
      else
        a ← v i; b ← v j;
        if negb (a =? b) then Ret false
        else i ← next i; j ← next j; matchLoop fuel i j sLast last
  end.

Fixpoint findStrLoop (fuel : nat) (firstCh : Z) (sFirst sLast p last : Iter) : outcome Iter :=
  match fuel with
  | O => OutOfFuel
  | S fuel =>
      if eq p last then Ret last
      else
        c ← v p;
        ok ← (if c =? firstCh then j ← plus p 1; matchLoop (iterFuel sFirst) sFirst j sLast last else Ret false);
        if ok : bool then Ret p else p ← next p; findStrLoop fuel firstCh sFirst sLast p last
  end.

Definition findStr (str : StrObj) (start : Iter) : outcome Iter :=
  let sFirst := begin str in
  firstCh ← v sFirst;
  sFirst ← next sFirst;
  findStrLoop (iterFuel start) firstCh sFirst Iter.end_ start Iter.end_.

(** [findLast(Char, Iter)]: [n] is [at - start]. *)
Fixpoint findLastLoop (s : list Z) (lead trail : Z) (n : nat) : outcome (option Z) :=
  match n with
  | O => Ret None
  | S n =>
      check ← aget s (Z.of_nat n);
      if check =? lead then
        if trail =? 0 then Ret (Some (Z.of_nat n))
        else
          t ← aget s (Z.of_nat n + 1);
          if trail =? t then Ret (Some (Z.of_nat n)) else findLastLoop s lead trail n
      else findLastLoop s lead trail n
  end.

Definition findLastChar (s : StrObj) (ch : Z) (last : Iter) : outcome Iter :=
  if match owner last with Some o => negb (addr o =? addr s)%nat | None => false end then Ret Iter.end_
  else
    let lead := Char.leading ch in
    let trail := Char.trailing ch in
    let '(lead, trail) := if lead =? 0 then (trail, 0) else (lead, trail) in
    let endPos := u32 (scount (sdata s) - 1) in
    let endPos := if negb (atEnd last) then Z.min endPos (pos last) else endPos in
    r ← findLastLoop (units (sdata s)) lead trail (Z.to_nat endPos);
    match r with Some p => Ret (mkIter (Some s) (u32 p)) | None => Ret Iter.end_ end.

(** The inner loop of [findLast(Str *, Iter)]: [other] and [me] are offsets. *)
Fixpoint matchBack (str s : list Z) (other : nat) (me : Z) : outcome bool :=
  match other with
  | O => Ret true
  | S other =>
      if me <=? 0 then Ret false
      else
        a ← aget s (me - 1); b ← aget str (Z.of_nat other);
        if negb (a =? b) then Ret false else matchBack str s other (me - 1)
  end.

Fixpoint findLastStrLoop (str s : list Z) (strLen : Z) (n : nat) : outcome (option Z) :=
  match n with
  | O => Ret None
  | S n =>
      a ← aget s (Z.of_nat n);
      b ← aget str (strLen - 1);
      ok ← (if a =? b then matchBack str s (Z.to_nat (strLen - 1)) (Z.of_nat n) else Ret false);
      if ok : bool then Ret (Some (Z.of_nat n + 1 - strLen)) else findLastStrLoop str s strLen n
  end.

Definition findLastStr (s : StrObj) (str : GcWchars) (last : Iter) : outcome Iter :=
  if match owner last with Some o => negb (addr o =? addr s)%nat | None => false end then Ret Iter.end_
  else
    let endPos := u32 (scount (sdata s)) in
    let endPos := if negb (atEnd last) then Z.min endPos (pos last) else endPos in
    r ← findLastStrLoop (units str) (units (sdata s)) (scount str - 1) (Z.to_nat endPos);
    match r with Some p => Ret (mkIter (Some s) (u32 p)) | None => Ret Iter.end_ end.

End StrParts.
