(* ===== verification/StrBuf.v ===== *)
(** * String buffers

    [Core/StrBuf.h] and [Core/StrBuf.cpp]: a growing buffer of code units with formatting
    options, and the operations of [Core/Str.cpp] that are written with it.  Floating point
    numbers are printed by the streams of C++ and are not modelled. *)

From stdpp Require Import base list numbers decidable option strings.
From Stdlib Require Import ZArith Lia.
From S2P Require Import Prelude Utf Buffer Str StrIter.

Module StrFmt.
Record StrFmt := mkStrFmt { width : Z; fill : Z; flags : Z; digits : Z }.

Definition alignNone : Z := 0x00.
Definition alignLeft : Z := 0x01.
Definition alignRight : Z := 0x02.
Definition alignMask : Z := 0x03.
Definition floatNone : Z := 0x00.
Definition floatSignificant : Z := 0x04.
Definition floatFixed : Z := 0x08.
Definition floatScientific : Z := 0x0C.
Definition floatMask : Z := 0x0C.
Definition defaultFlags : Z := Z.lor alignNone floatNone.

(** [flags & ~mask] for a [Byte] *)
Definition clearMask (f mask : Z) : Z := Z.land f (255 - mask).

Definition reset (f : StrFmt) : StrFmt :=
  mkStrFmt 0 (fill f) (Z.lor (clearMask (flags f) alignMask) alignNone) (digits f).

Definition clear (f : StrFmt) : StrFmt := mkStrFmt 0 Ch.space (Z.lor alignNone floatNone) 0.

Definition merge (f o : StrFmt) : StrFmt :=
  let w := if negb (width o =? 0) then width o else width f in
  let d := if negb (digits o =? 0) then digits o else digits f in
  let c := if negb (fill o =? 0) then fill o else fill f in
  let g := flags f in
  let g := if negb (Z.land (flags o) alignMask =? alignNone)
           then Z.lor (clearMask g alignMask) (Z.land (flags o) alignMask) else g in
  let g := if negb (Z.land (flags o) floatMask =? floatNone)
           then Z.lor (clearMask g floatMask) (Z.land (flags o) floatMask) else g in
  mkStrFmt w c g d.

Definition isLeft (f : StrFmt) : bool := Z.land (flags f) alignMask =? alignLeft.
Definition isRight (f : StrFmt) : bool := negb (Z.land (flags f) alignMask =? alignLeft).

(** The functions that make formats. *)
Definition widthFmt (w : Z) : StrFmt := mkStrFmt w 0 defaultFlags 0.
Definition left : StrFmt := mkStrFmt 0 0 alignLeft 0.
Definition leftWidth (w : Z) : StrFmt := mkStrFmt w 0 alignLeft 0.
Definition right : StrFmt := mkStrFmt 0 0 alignRight 0.
Definition rightWidth (w : Z) : StrFmt := mkStrFmt w 0 alignRight 0.
Definition fillFmt (c : Z) : StrFmt := mkStrFmt 0 c defaultFlags 0.
Definition precision (d : Z) : StrFmt := mkStrFmt 0 0 defaultFlags (u8 d).
Definition significant (d : Z) : StrFmt := mkStrFmt 0 0 floatSignificant (u8 d).
Definition fixed (d : Z) : StrFmt := mkStrFmt 0 0 floatFixed (u8 d).
Definition scientific (d : Z) : StrFmt := mkStrFmt 0 0 floatScientific (u8 d).
End StrFmt.

(** [HexFmt], and the functions that make them. *)
Record HexFmt := mkHexFmt { value : Z; hdigits : Z }.
Definition hexByte (v : Z) : HexFmt := mkHexFmt v 2.
Definition hexNat (v : Z) : HexFmt := mkHexFmt v 8.
Definition hexWord (v : Z) : HexFmt := mkHexFmt v 16.

Module StrBuf.
Import StrFmt.

Record StrBuf := mkStrBuf {
  buf : option (list Z);
  pos : Z;
  indentStr : GcWchars;
  indentation : Z;
  fmt : StrFmt;
}.

(** ** Memory *)

Definition setBuf (b : StrBuf) (l : option (list Z)) (p : Z) : StrBuf :=
  mkStrBuf l p (indentStr b) (indentation b) (fmt b).
Definition setFmt (b : StrBuf) (f : StrFmt) : StrBuf :=
  mkStrBuf (buf b) (pos b) (indentStr b) (indentation b) f.

(** The units before [pos]; reading them needs an array that has them. *)
Definition stored (b : StrBuf) : outcome (list Z) :=
  match buf b with
  | Some l => unitsAt l 0 (pos b)
  | None => if pos b =? 0 then Ret [] else Fault
  end.

(** [buf->v[pos++] = x] *)
Definition putUnit (b : StrBuf) (x : Z) : outcome StrBuf :=
  match buf b with
  | None => Fault
  | Some l => l ← aset l (pos b) x; Ret (setBuf b (Some l) (u32 (pos b + 1)))
  end.

Definition ensure (b : StrBuf) (capacity : Z) : outcome StrBuf :=
  let curr := match buf b with Some l => u32 (u32 (zlen l) - 1) | None => 0 end in
  if capacity <=? curr then Ret b
  else
    let newCap := Z.max capacity (u32 (curr * 2)) in
    let newCap := Z.max newCap 16 in
    u ← stored b;
    let n := u32 (newCap + 1) in
    if zlen u <=? n then Ret (setBuf b (Some (u ++ replicate (Z.to_nat (n - zlen u)) 0)) (pos b)) else Fault.

(** [copyBuf] *)
Definition copyBuf (l : option (list Z)) : option (list Z) := l.

Definition clear : StrBuf :=
  let f := reset (StrFmt.clear (mkStrFmt 0 Ch.space defaultFlags 0)) in
  mkStrBuf None 0 (mkGcWchars 0 [Ch.space; Ch.space; Ch.space; Ch.space; 0]) 0
    (mkStrFmt (width f) (StrFmt.fill f) (flags f) 6).

(** ** Constructors *)

Definition new : StrBuf := clear.

(** [StrBuf(const StrBuf &)] *)
Definition copy (o : StrBuf) : StrBuf := setBuf clear (copyBuf (buf o)) (pos o).

(** [StrBuf(Str * )] *)
Definition fromStr (src : GcWchars) : StrBuf := setBuf clear (copyBuf (Some (units src))) (u32 (scount src)).

(** [toS()] *)
Definition toS (b : StrBuf) : outcome GcWchars :=
  u ← stored b; to ← Str.create 0 (pos b) u; Ret (Str.fromData to).

(** [c_str()] *)
Definition c_str (b : StrBuf) : outcome (list Z) := match buf b with Some l => Ret l | None => Fault end.

Definition empty (b : StrBuf) : bool := (pos b =? 0) || match buf b with None => true | Some _ => false end.
Definition any (b : StrBuf) : bool := negb (empty b).

(** ** Indentation and fill *)

Definition indent (b : StrBuf) : StrBuf := mkStrBuf (buf b) (pos b) (indentStr b) (u32 (indentation b + 1)) (fmt b).
Definition dedent (b : StrBuf) : StrBuf := mkStrBuf (buf b) (pos b) (indentStr b) (u32 (indentation b - 1)) (fmt b).
Definition indentBy (b : StrBuf) (s : GcWchars) : StrBuf := mkStrBuf (buf b) (pos b) s (indentation b) (fmt b).

(** [operator <<(StrFmt)] *)
Definition addFmt (b : StrBuf) (f : StrFmt) : StrBuf := setFmt b (merge (fmt b) f).

Definition lastNewline (b : StrBuf) : outcome bool :=
  if pos b =? 0 then Ret true
  else match buf b with None => Fault | Some l => c ← aget l (pos b - 1); Ret (c =? Ch.nl) end.

Definition indentLen (b : StrBuf) : Z := Str.charCount (indentStr b).

Definition insertIndent (b : StrBuf) : outcome StrBuf :=
  nl ← lastNewline b;
  if negb nl then Ret b
  else
    let iLen := indentLen b in
    let iTot := u32 (iLen * indentation b) in
    b ← ensure b (u32 (pos b + iTot));
    for_loop (Z.to_nat (indentation b)) 0 (λ _ b,
      for_loop (Z.to_nat iLen) 0 (λ j b, c ← aget (units (indentStr b)) j; putUnit b c) b) b.

(** The character [fill], [toFill] times; [rev] is [fillReverse]. *)
Definition fillWith (rev : bool) (b : StrBuf) (toOutput : Z) : outcome StrBuf :=
  let w := width (fmt b) in
  let c := StrFmt.fill (fmt b) in
  if w <=? toOutput then Ret b
  else
    let first := Char.leading c in
    let last := Char.trailing c in
    let toFill := u32 (w - toOutput) in
    b ← ensure b (u32 (pos b + if negb (first =? 0) then u32 (toFill * 2) else toFill));
    for_loop (Z.to_nat toFill) 0 (λ _ b,
      if rev then
        b ← putUnit b last;
        if negb (first =? 0) then putUnit b first else Ret b
      else
        b ← (if negb (first =? 0) then putUnit b first else Ret b);
        putUnit b last) b.

Definition fill : StrBuf → Z → outcome StrBuf := fillWith false.
Definition fillReverse : StrBuf → Z → outcome StrBuf := fillWith true.

(** ** Output *)

(** The loop that computes the length and the number of codepoints. *)
Fixpoint measure (data : list Z) (iTot len points : Z) : outcome (Z * Z) :=
  match data with
  | [] => Fault
  | c :: data =>
      if c =? 0 then Ret (len, points)
      else
        len ← (if c =? Ch.nl then n ← aget data 0; Ret (if negb (n =? 0) then u32 (len + iTot) else len) else Ret len);
        measure data iTot (u32 (len + 1)) (if negb (utf16.leading c) then u32 (points + 1) else points)
  end.

(** The loop that copies. *)
Fixpoint copyLoop (data : list Z) (b : StrBuf) : outcome StrBuf :=
  match data with
  | [] => Fault
  | c :: data => if c =? 0 then Ret b else b ← insertIndent b; b ← putUnit b c; copyLoop data b
  end.

(** [add(const wchar * )] *)
Definition addCStr (b : StrBuf) (data : list Z) : outcome StrBuf :=
  let iTot := u32 (indentLen b * indentation b) in
  nl ← lastNewline b;
  '(len, points) ← measure data iTot (if nl : bool then iTot else 0) 0;
  b ← insertIndent b;
  b ← (if isRight (fmt b) then fill b points else Ret b);
  b ← ensure b (u32 (pos b + len));
  b ← copyLoop data b;
  b ← (if isLeft (fmt b) then fill b points else Ret b);
  Ret (setFmt b (reset (fmt b))).

Definition addRaw (b : StrBuf) (ch : Z) : outcome StrBuf :=
  b ← ensure b (u32 (pos b + 1)); putUnit b ch.

(** [add(const Str * )] *)
Definition addStr (b : StrBuf) (s : GcWchars) : outcome StrBuf := addCStr b (units s).

Definition addBool (b : StrBuf) (x : bool) : outcome StrBuf :=
  addCStr b (if x then [116; 114; 117; 101; 0] else [102; 97; 108; 115; 101; 0]).

(** [add(Char)] *)
Definition addChar (b : StrBuf) (c : Z) : outcome StrBuf :=
  let lead := Char.leading c in
  addCStr b (if negb (lead =? 0) then [lead; Char.trailing c; 0] else [Char.trailing c; 0]).

(** [toS(StrBuf *to)] *)
Definition toSBuf (b to : StrBuf) : outcome StrBuf := s ← c_str b; addCStr to s.

(** ** Numbers *)

Definition maxDigits : Z := 21.

(** [reverse(begin, end)] *)
Fixpoint reverseLoop (fuel : nat) (l : list Z) (begin end_ : Z) : outcome (list Z) :=
  match fuel with
  | O => OutOfFuel
  | S fuel =>
      if begin =? end_ then Ret l
      else
        let end_ := end_ - 1 in
        if begin =? end_ then Ret l
        else
          x ← aget l begin; y ← aget l end_;
          l ← aset l begin y; l ← aset l end_ x;
          reverseLoop fuel l (begin + 1) end_
  end.

Definition reverse (b : StrBuf) (begin end_ : Z) : outcome StrBuf :=
  match buf b with
  | None => Fault
  | Some l => l ← reverseLoop (S (length l)) l begin end_; Ret (setBuf b (Some l) (pos b))
  end.

(** The digits of a [Long], the last one first. *)
Fixpoint longLoop (fuel : nat) (b : StrBuf) (i : Z) (negative : bool) (limit : Z) : outcome StrBuf :=
  match fuel with
  | O => OutOfFuel
  | S fuel =>
      if pos b <? limit then
        let last := Z.rem i 10 in
        let i := Z.quot i 10 in
        let last := if (0 <? last) && negative then last - 10 else last in
        b ← putUnit b (u16 (Z.abs last + Ch.zero));
        if i =? 0 then Ret b else longLoop fuel b i negative limit
      else Ret b
  end.

(** The digits of a [Word]. *)
Fixpoint wordLoop (fuel : nat) (b : StrBuf) (i : Z) (limit : Z) : outcome StrBuf :=
  match fuel with
  | O => OutOfFuel
  | S fuel =>
      if pos b <? limit then
        b ← putUnit b (u16 (i `mod` 10 + Ch.zero));
        let i := i `div` 10 in
        if i =? 0 then Ret b else wordLoop fuel b i limit
      else Ret b
  end.

(** Numbers of 64 bits have at most 20 digits. *)
Definition digitFuel : nat := 24.

(** What [add(Long)] and [add(Word)] do after the digits. *)
Definition alignNumber (b : StrBuf) (start : Z) : outcome StrBuf :=
  b ← (if isRight (fmt b) then b ← fillReverse b (u32 (pos b - start)); reverse b start (pos b)
       else if isLeft (fmt b) then b' ← reverse b start (pos b); fill b' (u32 (pos b' - start))
       else Ret b);
  Ret (setFmt b (reset (fmt b))).

Definition addLong (b : StrBuf) (i : Z) : outcome StrBuf :=
  b ← insertIndent b;
  let worst := Z.max maxDigits (u32 (width (fmt b) * Char.size (StrFmt.fill (fmt b)))) in
  b ← ensure b (u32 (pos b + worst));
  let negative := i <? 0 in
  let start := pos b in
  b ← longLoop digitFuel b i negative (u32 (start + worst));
  b ← (if negative then putUnit b Ch.minus else Ret b);
  alignNumber b start.

Definition addWord (b : StrBuf) (i : Z) : outcome StrBuf :=
  b ← insertIndent b;
  let worst := Z.max maxDigits (u32 (width (fmt b) * Char.size (StrFmt.fill (fmt b)))) in
  b ← ensure b (u32 (pos b + worst));
  let start := pos b in
  b ← wordLoop digitFuel b i (u32 (start + worst));
  alignNumber b start.

(** [add(Byte)], [add(Nat)] and [add(Int)] convert to the wider type. *)
Definition addByte : StrBuf → Z → outcome StrBuf := addWord.
Definition addNat : StrBuf → Z → outcome StrBuf := addWord.
Definition addInt : StrBuf → Z → outcome StrBuf := addLong.

(** The digit of [0123456789ABCDEF]. *)
Definition hexChar (part : Z) : Z := if part <? 10 then 48 + part else 65 + (part - 10).

(** The loop of [add(HexFmt)] writes backwards. *)
Fixpoint hexLoop (n : nat) (x : Z) (to : list Z) : list Z :=
  match n with
  | O => to
  | S n => hexLoop n (Z.shiftr x 4) (hexChar (Z.land x 0x0F) :: to)
  end.

Definition addHex (b : StrBuf) (f : HexFmt) : outcome StrBuf :=
  addCStr b (hexLoop (Z.to_nat (Z.min 32 (hdigits f))) (value f) [0]).

(** [operator <<(const void * )] *)
Definition addPtr (b : StrBuf) (p : Z) : outcome StrBuf :=
  let digit i := Z.land (Z.shiftr p ((16 - i - 1) * 4)) 0xF in
  addCStr b ([48; 120] ++ ((λ i, hexChar (digit i)) <$> seqZ 0 16) ++ [0]).

End StrBuf.

(** ** Operations of strings that are written with a buffer *)

Module StrText.
Import StrBuf.

(** [escape(Char, StrBuf *, Char, Char)]: whether there is an escape sequence. *)
Definition escapeChar (ch : Z) (to : StrBuf) (extra extra2 : Z) : outcome (option StrBuf) :=
  let two c := to ← addCStr to [Ch.backslash; c; 0]; Ret (Some to) in
  if ch =? Ch.nl then two 110
  else if ch =? Ch.cr then two 114
  else if ch =? Ch.tab then two 116
  else if ch =? Ch.vt then two 118
  else if ch =? Ch.backslash then two Ch.backslash
  else if ch =? 0 then two 48
  else if (ch =? extra) && negb (extra =? 0) then
    to ← addCStr to [Ch.backslash; 0]; to ← addChar to extra; Ret (Some to)
  else if (ch =? extra2) && negb (extra2 =? 0) then
    to ← addCStr to [Ch.backslash; 0]; to ← addChar to extra2; Ret (Some to)
  else if ch <? 32 then
    to ← addCStr to [Ch.backslash; 120; 0]; to ← addHex to (hexByte (u8 ch)); Ret (Some to)
  else Ret None.

Fixpoint escapeLoop (fuel : nat) (i e : Iter.Iter) (to : StrBuf) (extra extra2 : Z) : outcome StrBuf :=
  match fuel with
  | O => OutOfFuel
  | S fuel =>
      if Iter.eq i e then Ret to
      else
        ch ← Iter.v i;
        r ← escapeChar ch to extra extra2;
        to ← match r with Some to => Ret to | None => addChar to ch end;
        i ← Iter.next i;
        escapeLoop fuel i e to extra extra2
  end.

(** [escape(Char, Char)]; the other variants pass [Char()], which is zero. *)
Definition escape (s : StrObj) (extra extra2 : Z) : outcome GcWchars :=
  to ← escapeLoop (S (length (units (sdata s)))) (StrParts.begin s) Iter.end_ new extra extra2;
  toS to.

(** ** Indentation *)

(** [Indentation]; the number [invalid] is the largest [nat]. *)
Record Indentation := mkIndentation { ich : Z; icount : Z }.
Definition invalid : Z := 2 ^ 32 - 1.

(** How often [ch] is at the start of [s]. *)
Fixpoint countSame (s : list Z) (ch : Z) : outcome Z :=
  match s with
  | [] => Fault
  | c :: s => if c =? ch then n ← countSame s ch; Ret (n + 1) else Ret 0
  end.

Definition indentOf (s : list Z) (start : Z) : outcome Indentation :=
  c ← aget s start;
  if negb (c =? Ch.space) && negb (c =? Ch.tab) then Ret (mkIndentation 0 0)
  else n ← countSame (drop (Z.to_nat start) s) c; Ret (mkIndentation c (u32 n)).

(** The position of the next line break or the end. *)
Fixpoint lineEnd (s : list Z) (start : Z) : outcome Z :=
  match s with
  | [] => Fault
  | c :: s => if negb (c =? 0) && negb (c =? Ch.nl) then lineEnd s (start + 1) else Ret start
  end.

Definition nextLine (s : list Z) (start : Z) : outcome Z :=
  start ← lineEnd (drop (Z.to_nat start) s) start;
  c ← aget s start;
  let start := if negb (c =? 0) then start + 1 else start in
  c ← aget s start;
  Ret (if negb (c =? 0) && (c =? Ch.cr) then start + 1 else start).

Definition emptyLine (s : list Z) (start : Z) : outcome bool :=
  end_ ← nextLine s start;
  Ret (forallb Str.whitespace (slice s start (end_ - start))).

Definition min (a b : Indentation) : Indentation :=
  let count := if icount a =? invalid then icount b
               else if icount b =? invalid then icount a
               else Z.min (icount a) (icount b) in
  let ch := if ich a =? 0 then ich b
            else if ich b =? 0 then ich a
            else if ich a =? ich b then ich a else 0 in
  mkIndentation ch count.

(** The first loop of [removeIndentation]. *)
Fixpoint commonIndent (fuel : nat) (src : list Z) (at_ : Z) (r : Indentation) : outcome Indentation :=
  match fuel with
  | O => OutOfFuel
  | S fuel =>
      c ← aget src at_;
      if c =? 0 then Ret r
      else
        e ← emptyLine src at_;
        r ← (if e : bool then Ret r else i ← indentOf src at_; Ret (min r i));
        at_ ← nextLine src at_;
        commonIndent fuel src at_ r
  end.

(** [for (nat i = at; i < end; i++) to->addRaw(src[i]);] *)
Definition addRange (src : list Z) (at_ end_ : Z) (keep : Z → bool) (to : StrBuf) : outcome StrBuf :=
  for_loop (Z.to_nat (end_ - at_)) at_ (λ i to,
    c ← aget src i; if keep c then addRaw to c else Ret to) to.

(** The second loop. *)
Fixpoint removeLoop (fuel : nat) (src : list Z) (at_ count : Z) (to : StrBuf) : outcome StrBuf :=
  match fuel with
  | O => OutOfFuel
  | S fuel =>
      c ← aget src at_;
      if c =? 0 then Ret to
      else
        end_ ← nextLine src at_;
        e ← emptyLine src at_;
        to ← (if e : bool then addRange src at_ end_ (λ c, (c =? Ch.nl) || (c =? Ch.cr)) to
              else addRange src (u32 (at_ + count)) end_ (λ _, true) to);
        removeLoop fuel src end_ count to
  end.

Definition removeIndentation (d : GcWchars) : outcome GcWchars :=
  let src := units d in
  let fuel := S (length src) in
  r ← commonIndent fuel src 0 (mkIndentation 0 invalid);
  if icount r =? invalid then Ret d
  else to ← removeLoop fuel src 0 (icount r) new; toS to.

(** [trimBlankLines]: the first line that is not blank. *)
Fixpoint firstLine (fuel : nat) (src : list Z) (at_ : Z) : outcome Z :=
  match fuel with
  | O => OutOfFuel
  | S fuel =>
      c ← aget src at_;
      if c =? 0 then Ret 0
      else e ← emptyLine src at_; if negb e then Ret at_ else at_ ← nextLine src at_; firstLine fuel src at_
  end.

(** The last one. *)
Fixpoint lastLine (fuel : nat) (src : list Z) (at_ end_ : Z) : outcome Z :=
  match fuel with
  | O => OutOfFuel
  | S fuel =>
      c ← aget src at_;
      if c =? 0 then Ret end_
      else
        e ← emptyLine src at_;
        let end_ := if negb e then at_ else end_ in
        at_ ← nextLine src at_;
        lastLine fuel src at_ end_
  end.

(** The loop that drops the line breaks at the end. *)
Fixpoint dropBreaks (src : list Z) (end_ : nat) : outcome Z :=
  match end_ with
  | O => Ret 0
  | S n =>
      ch ← aget src (Z.of_nat n);
      if (ch =? Ch.nl) || (ch =? Ch.cr) then dropBreaks src n else Ret (Z.of_nat end_)
  end.

Definition trimBlankLines (s : StrObj) : outcome GcWchars :=
  let src := units (sdata s) in
  let fuel := S (length src) in
  start ← firstLine fuel src 0;
  end_ ← lastLine fuel src start start;
  end_ ← nextLine src end_;
  end_ ← dropBreaks src (Z.to_nat end_);
  StrParts.substr s (StrParts.posIter s start) (StrParts.posIter s end_).

End StrText.
