(* ===== verification/StrCorrect.v ===== *)
(** * Strings: correctness of construction and iteration

    A well-formed string is the UTF-16 encoding of a list of characters.  Constructors,
    comparison and the operations on units are correct for all zero-terminated strings;
    iterators visit the characters. *)

From stdpp Require Import base list numbers decidable option strings.
From Stdlib Require Import ZArith Lia.
From S2P Require Import Prelude Utf UtfCorrect ConvertCorrect Buffer BufferCorrect Str StrIter.

(** ** Zero-terminated units *)

(** The units of a string without its terminator. *)
Definition plain (u : list Z) : Prop := Forall (λ c, 0 < c < 2 ^ 16) u.

(** The data of a string with the units [u], and its number of surrogate pairs. *)
Definition strData (u : list Z) : GcWchars := mkGcWchars (Str.leadings u) (u ++ [0]).

Section units.
Implicit Types u w r s : list Z.

Lemma zlen_term u : zlen (u ++ [0]) = zlen u + 1.
Proof. by rewrite zlen_app. Qed.

Lemma plain_nonzero c u : plain (c :: u) → (c =? 0) = false.
Proof. intros H. apply Z.eqb_neq. apply Forall_cons_1 in H as [? _]. lia. Qed.

Lemma wcslen_eq u r : plain u → zlen u < 2 ^ 64 → wcslen (u ++ 0 :: r) = Ret (zlen u).
Proof.
  induction u as [|c u IH]; intros Hu Hz; [done|]. cbn [wcslen app]. rewrite (plain_nonzero c u) by done.
  rewrite zlen_cons in *. apply Forall_cons_1 in Hu as [_ Hu]. pose proof (zlen_nonneg u).
  rewrite IH by (done || lia). cbn [mbind outcome_bind]. by rewrite u64_small by (unfold is_u64; lia).
Qed.

Lemma unitsAt_eq s from n : 0 ≤ from → 0 ≤ n → from + n ≤ zlen s → unitsAt s from n = Ret (slice s from n).
Proof. intros. unfold unitsAt. by rewrite !(proj2 (Z.leb_le _ _)) by lia. Qed.

Lemma slice_prefix u r : slice (u ++ r) 0 (zlen u) = u.
Proof. unfold slice, zlen. cbn [drop]. rewrite Nat2Z.id. apply take_app_length. Qed.

Lemma unitsAt_prefix u r : unitsAt (u ++ r) 0 (zlen u) = Ret u.
Proof.
  pose proof (zlen_nonneg u). pose proof (zlen_nonneg r).
  rewrite unitsAt_eq by (rewrite ?zlen_app; lia). by rewrite slice_prefix.
Qed.

Lemma create_eq f u : zlen u + 1 < 2 ^ 32 → Str.create f (zlen u) u = Ret (mkGcWchars f (u ++ [0])).
Proof.
  intros Hu. pose proof (zlen_nonneg u). unfold Str.create. rewrite u32_small by (unfold is_u32; lia).
  rewrite (proj2 (Z.ltb_lt _ _)) by lia. do 3 f_equal. by replace (zlen u + 1 - zlen u) with 1 by lia.
Qed.

Lemma fromCStr_eq u r : plain u → zlen u + 1 < 2 ^ 32 → Str.fromCStr (u ++ 0 :: r) = Ret (strData u).
Proof.
  intros Hu Hz. pose proof (zlen_nonneg u). unfold Str.fromCStr. rewrite wcslen_eq by (done || lia).
  cbn [mbind outcome_bind]. rewrite u32_small by (unfold is_u32; lia). rewrite unitsAt_prefix. cbn [mbind outcome_bind].
  by apply create_eq.
Qed.

Lemma fromRange_eq s from to : 0 ≤ from ≤ to → to ≤ zlen s → to - from + 1 < 2 ^ 32 →
  Str.fromRange s from to = Ret (strData (slice s from (to - from))).
Proof.
  intros Hf Ht Hz. unfold Str.fromRange. rewrite u32_small by (unfold is_u32; lia).
  rewrite unitsAt_eq by lia. cbn [mbind outcome_bind].
  rewrite <- (zlen_slice s from (to - from)) at 2 by lia. apply create_eq. rewrite zlen_slice; lia.
Qed.

Lemma leadings_app u w : Str.leadings (u ++ w) = Str.leadings u + Str.leadings w.
Proof. induction u as [|c u IH]; [done|]. cbn [Str.leadings app]. rewrite IH. lia. Qed.

Lemma leadings_nonneg u : 0 ≤ Str.leadings u.
Proof. induction u as [|c u IH]; [done|]. cbn [Str.leadings]. case_match; lia. Qed.

Lemma leadings_le u : Str.leadings u ≤ zlen u.
Proof. induction u as [|c u IH]; [done|]. rewrite zlen_cons. cbn [Str.leadings]. case_match; lia. Qed.

Lemma fromData_eq u : Str.fromData (mkGcWchars 0 (u ++ [0])) = strData u.
Proof. unfold Str.fromData, strData. cbn [sfilled units]. rewrite leadings_app. change (Str.leadings [0]) with 0. f_equal. lia. Qed.

Lemma body_eq f u : Str.body (mkGcWchars f (u ++ [0])) = u.
Proof. unfold Str.body. cbn [units]. rewrite length_app. cbn [length]. rewrite Nat.add_sub. apply take_app_length. Qed.

Lemma body_strData u : Str.body (strData u) = u.
Proof. apply body_eq. Qed.

Lemma charCount_eq f u : zlen u < 2 ^ 32 → Str.charCount (mkGcWchars f (u ++ [0])) = zlen u.
Proof.
  intros Hu. pose proof (zlen_nonneg u). unfold Str.charCount, scount. cbn [units]. rewrite zlen_app, u32_small.
  - unfold zlen. cbn [length]. lia.
  - unfold is_u32, zlen in *. cbn [length]. lia.
Qed.

(** ** Comparison *)

(** The order of the units: the first difference decides, the terminator is smallest. *)
Fixpoint unitCompare u w : comparison :=
  match u, w with
  | [], [] => Eq
  | [], _ :: _ => Lt
  | _ :: _, [] => Gt
  | x :: u, y :: w => match x ?= y with Eq => unitCompare u w | c => c end
  end.

Definition signOf (c : comparison) : Z := match c with Eq => 0 | Lt => -1 | Gt => 1 end.

Lemma wcscmp_eq u w r1 r2 : plain u → plain w → wcscmp (u ++ 0 :: r1) (w ++ 0 :: r2) = Ret (signOf (unitCompare u w)).
Proof.
  revert w. induction u as [|x u IH]; intros [|y w] Hu Hw; [done|..].
  - apply Forall_cons_1 in Hw as [Hy _]. cbn [wcscmp app]. rewrite (proj2 (Z.eqb_neq 0 y)) by lia.
    cbn [negb]. by rewrite (proj2 (Z.ltb_lt 0 y)) by lia.
  - apply Forall_cons_1 in Hu as [Hx _]. cbn [wcscmp app]. rewrite (proj2 (Z.eqb_neq x 0)) by lia.
    cbn [negb]. by rewrite (proj2 (Z.ltb_ge x 0)) by lia.
  - pose proof (plain_nonzero _ _ Hu) as E0. apply Forall_cons_1 in Hu as [Hx Hu]. apply Forall_cons_1 in Hw as [Hy Hw].
    cbn [wcscmp app unitCompare]. destruct (Z.compare_spec x y) as [->|H|H].
    + rewrite Z.eqb_refl, E0. cbn [negb]. by apply IH.
    + rewrite (proj2 (Z.eqb_neq x y)) by lia. cbn [negb]. by rewrite (proj2 (Z.ltb_lt x y)) by lia.
    + rewrite (proj2 (Z.eqb_neq x y)) by lia. cbn [negb]. by rewrite (proj2 (Z.ltb_ge x y)) by lia.
Qed.

Lemma unitCompare_eq u w : unitCompare u w = Eq ↔ u = w.
Proof.
  revert w. induction u as [|x u IH]; intros [|y w]; try done. cbn [unitCompare].
  destruct (Z.compare_spec x y) as [->|H|H]; [rewrite IH; split; congruence| |]; (split; [done|]); intros [= -> _]; lia.
Qed.

Lemma unitCompare_antisym u w : unitCompare w u = CompOpp (unitCompare u w).
Proof.
  revert w. induction u as [|x u IH]; intros [|y w]; try done. cbn [unitCompare].
  rewrite (Z.compare_antisym x y). destruct (x ?= y); cbn; auto.
Qed.

Lemma unitCompare_trans u w s : unitCompare u w = Lt → unitCompare w s = Lt → unitCompare u s = Lt.
Proof.
  revert w s. induction u as [|x u IH]; intros [|y w] [|z s]; try done. cbn [unitCompare].
  destruct (Z.compare_spec x y) as [->|H1|H1], (Z.compare_spec y z) as [->|H2|H2]; try done.
  - apply IH.
  - intros _ _. by rewrite (proj2 (Z.compare_lt_iff x z)) by lia.
  - intros _ _. by rewrite (proj2 (Z.compare_lt_iff x z)) by lia.
Qed.
End units.

(** [operator ==] of strings is equality of their units and [operator <] is a strict total
    order on them: exactly one of less, equal and greater holds, and less is transitive. *)
Theorem str_order (a b c : list Z) : plain a → plain b → plain c →
  Str.eq (strData a) (strData b) = Ret (bool_decide (a = b)) ∧
  Str.lt (strData a) (strData b) = Ret (bool_decide (unitCompare a b = Lt)) ∧
  Str.lt (strData b) (strData a) = Ret (bool_decide (a ≠ b ∧ unitCompare a b ≠ Lt)) ∧
  (Str.lt (strData a) (strData b) = Ret true → Str.lt (strData b) (strData c) = Ret true →
   Str.lt (strData a) (strData c) = Ret true).
Proof.
  intros Ha Hb Hc.
  assert (E : ∀ u w, plain u → plain w → Str.lt (strData u) (strData w) = Ret (bool_decide (unitCompare u w = Lt))).
  { intros u w Hu Hw. unfold Str.lt, strData. cbn [units]. rewrite wcscmp_eq by done. by destruct (unitCompare u w). }
  split_and!.
  - unfold Str.eq, strData. cbn [units]. rewrite wcscmp_eq by done. cbn [mbind outcome_bind]. f_equal.
    rewrite (bool_decide_ext (a = b) (unitCompare a b = Eq)) by (symmetry; apply unitCompare_eq).
    by destruct (unitCompare a b).
  - by apply E.
  - rewrite E by done. f_equal. apply bool_decide_ext. rewrite (unitCompare_antisym a b). pose proof (unitCompare_eq a b) as Heq.
    destruct (unitCompare a b); cbn [CompOpp].
    + split; [done|]. intros [Hn _]. destruct Hn. by apply Heq.
    + split; [done|]. by intros [_ []].
    + split; [|done]. intros _. split; [|done]. intros H. by apply Heq in H.
  - rewrite !E by done. intros [= H1%bool_decide_eq_true] [= H2%bool_decide_eq_true]. f_equal.
    apply bool_decide_eq_true. by apply (unitCompare_trans a b c).
Qed.

Lemma str_order_witness :
  Str.eq (strData [65; 66]) (strData [65; 67]) = Ret false ∧ Str.lt (strData [65; 66]) (strData [65; 67]) = Ret true ∧
  Str.lt (strData [65; 67]) (strData [65; 66]) = Ret false ∧
  (Str.lt (strData [65; 66]) (strData [65; 67]) = Ret true → Str.lt (strData [65; 67]) (strData [66]) = Ret true →
   Str.lt (strData [65; 66]) (strData [66]) = Ret true).
Proof. apply (str_order [65; 66] [65; 67] [66]); repeat constructor; lia. Defined.
