(* ===== verification/StrIterCorrect.v ===== *)
(** * Iterators of strings: correctness

    A well-formed string is the UTF-16 encoding of a list of characters.  Iterators visit
    these characters in order, parts of strings are parts of the list, and searching finds
    the first or the last place where characters are. *)

From stdpp Require Import base list numbers decidable option strings.
From Stdlib Require Import ZArith Lia.
From S2P Require Import Prelude Utf UtfCorrect ConvertCorrect Buffer BufferCorrect Str StrIter StrCorrect.

(** ** Characters *)

Definition char (c : Z) : Prop := scalar c ∧ c ≠ 0.
Notation chars := (Forall char).

(** How a character is stored. *)
Inductive enc16_shape (c : Z) : list Z → Prop :=
  | enc16_pair l t : utf16.leading l = true → utf16.leading t = false → utf16.trailing t = true →
      0 < l < 2 ^ 16 → 0 < t < 2 ^ 16 → utf16.assemble l t = c → Char.leading c = l → Char.trailing c = t →
      0x10000 ≤ c → enc16_shape c [l; t]
  | enc16_one : utf16.leading c = false → utf16.trailing c = false → 0 < c < 2 ^ 16 →
      Char.leading c = 0 → Char.trailing c = c → enc16_shape c [c].

Lemma not_trailing u : 0 ≤ u < 0x10000 → ¬ (0xD800 ≤ u < 0xE000) → utf16.trailing u = false.
Proof.
  intros Hu Hn. unfold utf16.trailing. apply Z.eqb_neq. intros E.
  assert (Z.shiftr (Z.land u 0xFC00) 10 = 55) as Hs by by rewrite E.
  rewrite Z.shiftr_land, Z.shiftr_div_pow2 in Hs by lia. change (Z.shiftr 0xFC00 10) with (2 ^ 6 - 1) in Hs.
  assert (0 ≤ u / 2 ^ 10 < 2 ^ 6) by (split; [apply Z.div_pos|apply Z.div_lt_upper_bound]; lia).
  rewrite land_pow2_pred, Z.mod_small in Hs by lia.
  pose proof (Z.div_mod u (2 ^ 10) ltac:(lia)). pose proof (Z.mod_pos_bound u (2 ^ 10) ltac:(lia)). lia.
Qed.

Lemma trail_not_leading x : 0 ≤ x < 1024 → utf16.leading (0xDC00 + x) = false.
Proof.
  intros Hx. apply negb_true_iff. apply (forall_range (λ x, negb (utf16.leading (0xDC00 + x))) 0 1024); [|lia].
  vm_compute. reflexivity.
Qed.

Lemma enc16_char c : char c → enc16_shape c (enc16 c).
Proof.
  intros [Hs Hnz]. unfold enc16. destruct (utf16.split c) eqn:Es.
  - unfold utf16.split in Es. apply Z.leb_le in Es. destruct (surrogates c Hs Es) as (El & Et & Hd).
    pose proof (Z.mod_pos_bound (c - 0x10000) 1024 ltac:(lia)) as Hm. rewrite El, Et.
    destruct (leading_surrogate _ Hd) as [L1 _]. destruct (leading_surrogate _ Hm) as [_ L2].
    apply enc16_pair; try done; try lia; [by apply trail_not_leading|].
    rewrite assemble_surrogates by done. pose proof (Z.div_mod (c - 0x10000) 1024 ltac:(lia)). lia.
  - pose proof (utf16_roundtrip c Hs) as H. rewrite Es in H. destruct H as (E1 & E2 & E3).
    unfold utf16.split in Es. apply Z.leb_gt in Es. destruct Hs as [Hs1 Hs2].
    unfold u16. rewrite Z.mod_small by lia. apply enc16_one; try done; try lia. apply not_trailing; lia.
Qed.

(** ** Lists of characters *)

Section units16.
Implicit Types cs ps : list Z.

Lemma units16_app cs ps : units16 (cs ++ ps) = units16 cs ++ units16 ps.
Proof. unfold units16. by rewrite fmap_app, concat_app. Qed.

Lemma units16_cons c cs : units16 (c :: cs) = enc16 c ++ units16 cs.
Proof. done. Qed.

Lemma units16_plain cs : chars cs → plain (units16 cs).
Proof.
  induction 1 as [|c cs Hc Hcs IH]; [constructor|]. rewrite units16_cons. apply Forall_app. split; [|done].
  destruct (enc16_char c Hc); repeat constructor; lia.
Qed.

Lemma units16_leadings cs : chars cs → Str.leadings (units16 cs) + zlen cs = zlen (units16 cs).
Proof.
  induction 1 as [|c cs Hc Hcs IH]; [done|]. rewrite units16_cons, leadings_app, zlen_app, zlen_cons.
  destruct (enc16_char c Hc) as [l t Hl Ht|Hl]; unfold zlen in *; cbn [Str.leadings length]; rewrite ?Hl, ?Ht; lia.
Qed.

(** No unit of a string is in the middle of another string's characters. *)
Lemma units16_prefix ps cs r : chars ps → chars cs → units16 ps ++ r = units16 cs → ∃ cs', cs = ps ++ cs' ∧ r = units16 cs'.
Proof.
  revert cs. induction ps as [|p ps IH]; intros cs Hps Hcs E; [by exists cs|].
  apply Forall_cons_1 in Hps as [Hp Hps]. rewrite units16_cons, <- app_assoc in E.
  destruct cs as [|c cs]; [destruct (enc16_char p Hp); done|]. apply Forall_cons_1 in Hcs as [Hc Hcs].
  rewrite units16_cons in E.
  assert (p = c ∧ units16 ps ++ r = units16 cs) as [-> E'].
  { destruct (enc16_char p Hp) as [l t L1 L2 _ _ _ A1|L1 L2], (enc16_char c Hc) as [l' t' L1' L2' _ _ _ A1'|L1' L2'];
      cbn [app] in E; injection E; intros; subst; try congruence; done. }
  destruct (IH cs Hps Hcs E') as (cs' & -> & ->). by exists cs'.
Qed.

Lemma units16_inj ps cs : chars ps → chars cs → units16 ps = units16 cs → ps = cs.
Proof.
  intros Hp Hc E. destruct (units16_prefix ps cs [] Hp Hc) as (cs' & -> & E'); [by rewrite app_nil_r|].
  destruct cs' as [|c cs']; [by rewrite app_nil_r|]. apply Forall_app in Hc as [_ Hc].
  apply Forall_cons_1 in Hc as [Hc _]. rewrite units16_cons in E'. by destruct (enc16_char c Hc).
Qed.

(** Where the [k]th character starts. *)
Definition posOf cs (k : nat) : Z := zlen (units16 (take k cs)).

Lemma posOf_0 cs : posOf cs 0 = 0.
Proof. done. Qed.

Lemma posOf_all cs : posOf cs (length cs) = zlen (units16 cs).
Proof. unfold posOf. by rewrite take_ge. Qed.

Lemma posOf_S cs k c : cs !! k = Some c → posOf cs (S k) = posOf cs k + zlen (enc16 c).
Proof.
  intros H. unfold posOf. rewrite (take_S_r _ _ _ H), units16_app, zlen_app, units16_cons.
  unfold units16 at 2. cbn. by rewrite app_nil_r.
Qed.

Lemma posOf_split cs k : zlen (units16 cs) = posOf cs k + zlen (units16 (drop k cs)).
Proof. unfold posOf. by rewrite <- zlen_app, <- units16_app, take_drop. Qed.

Lemma posOf_le cs i j : (i ≤ j)%nat → posOf cs i ≤ posOf cs j.
Proof.
  intros H. unfold posOf. rewrite <- (take_drop i (take j cs)), take_take, units16_app, zlen_app.
  rewrite Nat.min_l by lia. pose proof (zlen_nonneg (units16 (drop i (take j cs)))). lia.
Qed.

Lemma posOf_lt cs i j : (i < j)%nat → (i < length cs)%nat → posOf cs i < posOf cs j.
Proof.
  intros H Hi. destruct (lookup_lt_is_Some_2 cs i Hi) as [c Hc]. pose proof (posOf_S cs i c Hc).
  pose proof (posOf_le cs (S i) j ltac:(lia)). pose proof (enc16_length c). lia.
Qed.

Lemma posOf_inj cs i j : (i ≤ length cs)%nat → (j ≤ length cs)%nat → posOf cs i = posOf cs j → i = j.
Proof.
  intros Hi Hj E. destruct (Nat.lt_trichotomy i j) as [H|[H|H]]; [|done|].
  - pose proof (posOf_lt cs i j H). lia.
  - pose proof (posOf_lt cs j i H). lia.
Qed.

Lemma posOf_nonneg cs k : 0 ≤ posOf cs k.
Proof. apply zlen_nonneg. Qed.

(** The units of the string from the [k]th character on. *)
Lemma posOf_drop cs k r : drop (Z.to_nat (posOf cs k)) (units16 cs ++ r) = units16 (drop k cs) ++ r.
Proof.
  unfold posOf, zlen. rewrite Nat2Z.id. rewrite <- (take_drop k cs) at 2.
  rewrite units16_app, <- app_assoc. apply drop_app_length.
Qed.

Lemma posOf_has_at cs k c r : cs !! k = Some c → has_at (units16 cs ++ r) (posOf cs k) (enc16 c).
Proof.
  intros H i x Hx. pose proof (lookupZ_Some_lt _ _ _ Hx) as Hi. pose proof (posOf_nonneg cs k).
  rewrite lookupZ_to_nat by lia. rewrite lookupZ_to_nat in Hx by lia.
  replace (Z.to_nat (posOf cs k + i)) with (Z.to_nat (posOf cs k) + Z.to_nat i)%nat by lia.
  rewrite <- lookup_drop, posOf_drop, (drop_S cs c k H), units16_cons, <- app_assoc. by apply lookup_app_l_Some.
Qed.

(** A part between two characters. *)
Lemma posOf_slice cs i j r : (i ≤ j)%nat → slice (units16 cs ++ r) (posOf cs i) (posOf cs j - posOf cs i) = units16 (drop i (take j cs)).
Proof.
  intros H. unfold slice. rewrite posOf_drop. pose proof (posOf_le cs i j H).
  rewrite <- (take_drop (j - i) (drop i cs)), units16_app, <- app_assoc, skipn_firstn_comm.
  apply take_app_length'. unfold posOf, zlen in *. rewrite <- (take_drop i (take j cs)), take_take, Nat.min_l by lia.
  rewrite units16_app, length_app, skipn_firstn_comm. lia.
Qed.
End units16.

#[export] Hint Resolve posOf_nonneg : storm.

(** ** Iterators *)

(** The string has the characters [cs]. *)
Record isStr (d : GcWchars) (cs : list Z) : Prop := {
  isStr_units : units d = units16 cs ++ [0];
  isStr_chars : chars cs;
  isStr_size : scount d < 2 ^ 32;
}.

Lemma isStr_strData cs : chars cs → zlen (units16 cs) + 1 < 2 ^ 32 → isStr (strData (units16 cs)) cs.
Proof. intros Hc Hz. split; [done|done|]. unfold scount, strData. cbn [units]. by rewrite zlen_app. Qed.

Section iter.
Context (s : StrObj) (cs : list Z) (Hs : isStr (sdata s) cs).

(** The iterator to the [k]th character. *)
Definition it (k : nat) : Iter.Iter := Iter.mkIter (Some s) (posOf cs k).

Lemma scount_eq : scount (sdata s) = zlen (units16 cs) + 1.
Proof. unfold scount. by rewrite (isStr_units _ _ Hs), zlen_app. Qed.

Lemma units_bound : zlen (units16 cs) + 1 < 2 ^ 32.
Proof. pose proof (isStr_size _ _ Hs) as H. by rewrite scount_eq in H. Qed.

Lemma posOf_bound k : 0 ≤ posOf cs k ≤ zlen (units16 cs).
Proof.
  split; [auto with storm|]. rewrite (posOf_split cs k). pose proof (zlen_nonneg (units16 (drop k cs))). lia.
Qed.

Lemma begin_it : StrParts.begin s = it 0.
Proof. done. Qed.

Lemma atEnd_it k : (k ≤ length cs)%nat → Iter.atEnd (it k) = bool_decide (k = length cs).
Proof.
  intros Hk. unfold Iter.atEnd, it. cbn [Iter.owner Iter.pos]. pose proof (posOf_bound k). pose proof units_bound.
  rewrite u32_small by (unfold is_u32; lia). rewrite scount_eq. case_bool_decide as Hl.
  - rewrite Hl, posOf_all. apply Z.eqb_refl.
  - apply Z.eqb_neq. rewrite <- posOf_all. intros E. apply Hl, (posOf_inj cs); lia.
Qed.

Lemma lookup_char k c : cs !! k = Some c → char c ∧ (k < length cs)%nat ∧ Iter.atEnd (it k) = false.
Proof.
  intros H. pose proof (lookup_lt_Some _ _ _ H). split_and!; [|done|].
  - by apply (Forall_lookup_1 _ _ _ _ (isStr_chars _ _ Hs) H).
  - rewrite atEnd_it by lia. apply bool_decide_eq_false. lia.
Qed.

Lemma next_it k c : cs !! k = Some c → Iter.next (it k) = Ret (it (S k)).
Proof.
  intros H. destruct (lookup_char k c H) as (Hc & Hk & He). unfold Iter.next. rewrite He. unfold it.
  cbn [Iter.owner Iter.pos]. rewrite (isStr_units _ _ Hs).
  pose proof (posOf_has_at cs k c [0] H) as Ha. pose proof (posOf_S cs k c H) as ES.
  pose proof (posOf_bound (S k)). pose proof units_bound.
  destruct (enc16_char c Hc) as [l t L|L]; apply has_at_cons in Ha as [Ha _]; rewrite (aget_Some _ _ _ Ha);
    cbn [mbind outcome_bind]; rewrite L; unfold zlen in ES; cbn [length] in ES; do 2 f_equal;
    rewrite u32_small by (unfold is_u32; lia); lia.
Qed.

Lemma next_end : Iter.next (it (length cs)) = Ret (it (length cs)).
Proof. unfold Iter.next. rewrite atEnd_it by lia. by rewrite bool_decide_eq_true_2. Qed.

Lemma v_it k c : cs !! k = Some c → Iter.v (it k) = Ret c.
Proof.
  intros H. destruct (lookup_char k c H) as (Hc & Hk & He). unfold Iter.v. rewrite He. unfold it.
  cbn [Iter.owner Iter.pos]. rewrite (isStr_units _ _ Hs). pose proof (posOf_has_at cs k c [0] H) as Ha.
  pose proof (posOf_S cs k c H) as ES. pose proof (posOf_bound (S k)). pose proof units_bound. pose proof (posOf_nonneg cs k).
  destruct (enc16_char c Hc) as [l t L _ _ _ _ A|L]; apply has_at_cons in Ha as [Ha Ha2]; rewrite (aget_Some _ _ _ Ha);
    cbn [mbind outcome_bind]; rewrite L; [|done].
  apply has_at_cons in Ha2 as [Ha2 _]. unfold zlen in ES. cbn [length] in ES.
  rewrite u32_small by (unfold is_u32; lia). rewrite (aget_Some _ _ _ Ha2). cbn [mbind outcome_bind]. by rewrite A.
Qed.

Lemma eq_end k : (k ≤ length cs)%nat → Iter.eq (it k) Iter.end_ = bool_decide (k = length cs).
Proof. intros Hk. unfold Iter.eq. rewrite orb_true_r, atEnd_it by done. by case_bool_decide. Qed.

Lemma toPtr_it k : (k ≤ length cs)%nat → StrParts.toPtr s (it k) = posOf cs k.
Proof.
  intros Hk. unfold StrParts.toPtr. rewrite atEnd_it by done. case_bool_decide as H.
  - rewrite H, posOf_all, scount_eq. lia.
  - by rewrite bool_decide_eq_true_2.
Qed.

Lemma toPtr_end : StrParts.toPtr s Iter.end_ = zlen (units16 cs).
Proof. unfold StrParts.toPtr. cbn. rewrite scount_eq. lia. Qed.

Lemma diffLoop_it i j fuel d : (i ≤ j ≤ length cs)%nat → (j - i < fuel)%nat → 0 ≤ d → d + Z.of_nat (j - i) < 2 ^ 32 →
  Iter.diffLoop fuel (units (sdata s)) (posOf cs i) (posOf cs j) d = Ret (d + Z.of_nat (j - i)).
Proof.
  revert i d. induction fuel as [|fuel IH]; intros i d Hij Hf Hd Hb; [lia|]. cbn [Iter.diffLoop].
  destruct (decide (i = j)) as [->|Hne].
  { rewrite Z.ltb_irrefl. f_equal. lia. }
  pose proof (posOf_lt cs i j ltac:(lia) ltac:(lia)). rewrite (proj2 (Z.ltb_lt _ _)) by done.
  destruct (lookup_lt_is_Some_2 cs i ltac:(lia)) as [c Hc].
  pose proof (next_it i c Hc) as En. destruct (lookup_char i c Hc) as (_ & _ & He).
  unfold Iter.next in En. rewrite He in En. cbn [it Iter.owner Iter.pos] in En.
  destruct (aget (units (sdata s)) (posOf cs i)) as [x| | |]; try done. cbn [mbind outcome_bind] in *.
  injection En as En. rewrite En, (u32_small (d + 1)) by (unfold is_u32; lia). rewrite IH by lia. f_equal. lia.
Qed.

Lemma minus_it i j : (i ≤ j ≤ length cs)%nat → Iter.minus (it j) (it i) = Ret (Z.of_nat (j - i)).
Proof.
  intros Hij. unfold Iter.minus. cbn [it Iter.owner Iter.pos]. rewrite Nat.eqb_refl. cbn [negb].
  pose proof units_bound. pose proof (isStr_chars _ _ Hs) as Hc. pose proof (units16_leadings cs Hc) as Hl.
  pose proof (leadings_nonneg (units16 cs)).
  rewrite diffLoop_it; [f_equal; lia|lia| |lia|unfold zlen in *; lia].
  rewrite (isStr_units _ _ Hs), length_app. unfold zlen in *. cbn [length]. lia.
Qed.

Lemma plus_it k n : (k + n ≤ length cs)%nat → Iter.plus (it k) (Z.of_nat n) = Ret (it (k + n)).
Proof.
  intros H. unfold Iter.plus. rewrite Nat2Z.id. generalize 0 as z. revert k H.
  induction n as [|n IH]; intros k H z; [by rewrite Nat.add_0_r|]. cbn [for_loop].
  destruct (lookup_lt_is_Some_2 cs k ltac:(lia)) as [c Hc]. rewrite (next_it k c Hc). cbn [mbind outcome_bind].
  rewrite IH by lia. do 2 f_equal. lia.
Qed.
End iter.

(** The characters an iteration from [i] to the end sees. *)
Fixpoint visit (fuel : nat) (i : Iter.Iter) : outcome (list Z) :=
  match fuel with
  | O => OutOfFuel
  | S fuel =>
      if Iter.eq i Iter.end_ then Ret []
      else c ← Iter.v i; i ← Iter.next i; r ← visit fuel i; Ret (c :: r)
  end.

Lemma visit_it s cs fuel k : isStr (sdata s) cs → (k ≤ length cs)%nat → (length cs - k < fuel)%nat →
  visit fuel (it s cs k) = Ret (drop k cs).
Proof.
  intros Hs. revert k. induction fuel as [|fuel IH]; intros k Hk Hf; [lia|]. cbn [visit].
  rewrite (eq_end s cs Hs k Hk). case_bool_decide as E; [by rewrite drop_ge by lia|].
  destruct (lookup_lt_is_Some_2 cs k ltac:(lia)) as [c Hc]. rewrite (v_it s cs Hs k c Hc), (next_it s cs Hs k c Hc).
  cbn [mbind outcome_bind]. rewrite IH by lia. cbn [mbind outcome_bind]. by rewrite <- (drop_S _ _ _ Hc).
Qed.

(** C28: Iterating over a string from [begin] to [end] visits exactly its characters, surrogate
    pairs as one; [count] is how many they are, the difference of two iterators is the
    number of characters between them, and the comparisons follow the order. *)
Theorem str_iterate s cs i j : isStr (sdata s) cs → sfilled (sdata s) = Str.leadings (units (sdata s)) →
  (i ≤ j ≤ length cs)%nat →
  visit (S (length cs)) (StrParts.begin s) = Ret cs ∧ Str.count (sdata s) = zlen cs ∧
  (∀ n, (n ≤ length cs)%nat → Iter.plus (StrParts.begin s) (Z.of_nat n) = Ret (it s cs n)) ∧
  Iter.minus (it s cs j) (it s cs i) = Ret (Z.of_nat (j - i)) ∧
  Iter.lt (it s cs i) (it s cs j) = bool_decide (i < j)%nat ∧ Iter.eq (it s cs i) (it s cs j) = bool_decide (i = j).
Proof.
  intros Hs Hf Hij. rewrite (begin_it s cs). pose proof (units_bound s cs Hs). split_and!.
  - by rewrite visit_it by (done || lia).
  - unfold Str.count. rewrite Hf, (scount_eq s cs Hs), (isStr_units _ _ Hs), leadings_app.
    pose proof (units16_leadings cs (isStr_chars _ _ Hs)) as E. change (Str.leadings [0]) with 0.
    pose proof (posOf_bound cs (length cs)). pose proof (zlen_nonneg cs).
    pose proof (leadings_nonneg (units16 cs)).
    rewrite u32_small; [lia|unfold is_u32; lia].
  - intros n Hn. by rewrite (plus_it s cs Hs 0 n).
  - by apply (minus_it s cs Hs).
  - unfold Iter.lt. rewrite !(atEnd_it s cs Hs) by lia. rewrite (bool_decide_eq_true_2 (Iter.ownerAddr _ = _)) by done.
    cbn [it Iter.pos negb]. destruct (decide (i = j)) as [->|Hne].
    + rewrite Z.ltb_irrefl. rewrite (bool_decide_eq_false_2 (j < j)%nat) by lia. by destruct (bool_decide (j = length cs)).
    + rewrite (bool_decide_eq_true_2 (i < j)%nat) by lia. rewrite (bool_decide_eq_false_2 (i = length cs)) by lia.
      rewrite (proj2 (Z.ltb_lt _ _)) by (apply posOf_lt; lia). by case_match.
  - unfold Iter.eq. rewrite !(atEnd_it s cs Hs) by lia. rewrite (bool_decide_eq_true_2 (Iter.ownerAddr _ = _)) by done.
    cbn [it Iter.pos andb]. destruct (decide (i = j)) as [->|Hne].
    + rewrite Z.eqb_refl, (bool_decide_eq_true_2 (j = j)) by done. by destruct (bool_decide (j = length cs)).
    + rewrite (bool_decide_eq_false_2 (i = j)), (bool_decide_eq_false_2 (i = length cs)) by lia. cbn [orb].
      rewrite (proj2 (Z.eqb_neq _ _)) by (intros E; apply (posOf_inj cs) in E; lia). by destruct (bool_decide (j = length cs)).
Qed.

Lemma str_iterate_witness :
  let s := mkStrObj 7 (strData [0xD83D; 0xDE00; 65]) in
  visit 3 (StrParts.begin s) = Ret [0x1F600; 65] ∧ Str.count (sdata s) = 2 ∧
  (∀ n, (n ≤ 2)%nat → Iter.plus (StrParts.begin s) (Z.of_nat n) = Ret (it s [0x1F600; 65] n)) ∧
  Iter.minus (it s [0x1F600; 65] 2) (it s [0x1F600; 65] 0) = Ret 2 ∧
  Iter.lt (it s [0x1F600; 65] 0) (it s [0x1F600; 65] 2) = true ∧ Iter.eq (it s [0x1F600; 65] 0) (it s [0x1F600; 65] 2) = false.
Proof.
  apply (str_iterate (mkStrObj 7 (strData [0xD83D; 0xDE00; 65])) [0x1F600; 65] 0 2); [|reflexivity|cbn; lia].
  split; [reflexivity| |reflexivity]. repeat constructor; lia.
Defined.
