(* ===== verification/StrFindCorrect.v ===== *)
(** * Parts of strings and searching: correctness *)

From stdpp Require Import base list numbers decidable option strings.
From Stdlib Require Import ZArith Lia.
From S2P Require Import Prelude Utf UtfCorrect ConvertCorrect Buffer BufferCorrect Str StrIter StrCorrect StrIterCorrect.

(** ** Parts *)

Section parts.
Context (s : StrObj) (cs : list Z) (Hs : isStr (sdata s) cs).
Notation n := (length cs).

Lemma charCount_str d ds : isStr d ds → Str.charCount d = zlen (units16 ds).
Proof.
  intros Hd. pose proof (isStr_size _ _ Hd) as Hz. unfold Str.charCount, scount in *.
  rewrite (isStr_units _ _ Hd), zlen_app in *. pose proof (zlen_nonneg (units16 ds)).
  change (zlen [0]) with 1 in *. rewrite u32_small by (unfold is_u32; lia). lia.
Qed.

Lemma substr_it i j : (i ≤ n)%nat → (j ≤ n)%nat →
  StrParts.substr s (it s cs i) (it s cs j) = Ret (strData (units16 (drop i (take j cs)))).
Proof.
  intros Hi Hj. unfold StrParts.substr. rewrite !(toPtr_it s cs Hs) by done.
  pose proof (units_bound s cs Hs) as Hb. pose proof (posOf_bound cs i). pose proof (posOf_bound cs j).
  destruct (decide (i ≤ j)%nat) as [Hle|Hgt].
  - pose proof (posOf_le cs i j Hle). rewrite (proj2 (Z.ltb_ge _ _)) by lia. rewrite (isStr_units _ _ Hs).
    rewrite fromRange_eq by (rewrite ?zlen_term; lia). by rewrite posOf_slice.
  - pose proof (posOf_lt cs j i ltac:(lia)). rewrite (proj2 (Z.ltb_lt _ _)) by lia.
    rewrite (drop_ge (take j cs)) by (rewrite length_take; lia). reflexivity.
Qed.

Lemma copy_it i j : (i ≤ j ≤ n)%nat → Str.copy (units (sdata s)) (posOf cs i) (posOf cs j) = Ret (units16 (drop i (take j cs))).
Proof.
  intros H. unfold Str.copy. rewrite (isStr_units _ _ Hs). pose proof (posOf_bound cs j). pose proof (posOf_bound cs i).
  pose proof (posOf_le cs i j ltac:(lia)). rewrite unitsAt_eq by (rewrite ?zlen_term; lia).
  by rewrite posOf_slice by lia.
Qed.

Lemma copy_to i : (i ≤ n)%nat → Str.copy (units (sdata s)) 0 (posOf cs i) = Ret (units16 (take i cs)).
Proof. intros H. rewrite <- (posOf_0 cs). by rewrite copy_it by lia. Qed.

Lemma copy_from j : (j ≤ n)%nat → Str.copy (units (sdata s)) (posOf cs j) (zlen (units16 cs)) = Ret (units16 (drop j cs)).
Proof. intros H. rewrite <- (posOf_all cs), copy_it by lia. by rewrite (take_ge cs n). Qed.

Lemma zlen_take_drop i : zlen (units16 (take i cs)) + zlen (units16 (drop i cs)) = zlen (units16 cs).
Proof. by rewrite <- zlen_app, <- units16_app, take_drop. Qed.

Lemma remove_it i j : (i ≤ j ≤ n)%nat →
  StrParts.remove s (it s cs i) (it s cs j) = Ret (strData (units16 (take i cs ++ drop j cs))).
Proof.
  intros H. unfold StrParts.remove, Str.fromRanges. rewrite !(toPtr_it s cs Hs), (charCount_str _ _ Hs) by lia.
  cbv zeta. rewrite copy_to, copy_from by lia. cbn [mbind outcome_bind]. rewrite <- units16_app. unfold strData.
  pose proof (units_bound s cs Hs). pose proof (zlen_take_drop j). pose proof (posOf_le cs i j ltac:(lia)).
  pose proof (posOf_nonneg cs i). pose proof (zlen_nonneg (units16 (drop j cs))).
  assert (posOf cs i - 0 + (zlen (units16 cs) - posOf cs j) = zlen (units16 (take i cs ++ drop j cs))) as ->.
  { rewrite units16_app, zlen_app. unfold posOf in *. lia. }
  rewrite u32_small; [apply create_eq|unfold is_u32]; rewrite units16_app, zlen_app; unfold posOf in *; lia.
Qed.

Lemma insert_it i d ds : (i ≤ n)%nat → isStr d ds → zlen (units16 cs) + zlen (units16 ds) + 1 < 2 ^ 32 →
  StrParts.insert s (it s cs i) d = Ret (strData (units16 (take i cs ++ ds ++ drop i cs))).
Proof.
  intros Hi Hd Hz. unfold StrParts.insert. rewrite (toPtr_it s cs Hs), (charCount_str _ _ Hs), (charCount_str _ _ Hd) by lia.
  cbv zeta. rewrite copy_to, copy_from by lia. cbn [mbind outcome_bind].
  assert (Str.copy (units d) 0 (zlen (units16 ds)) = Ret (units16 ds)) as ->.
  { unfold Str.copy. rewrite (isStr_units _ _ Hd), Z.sub_0_r. apply unitsAt_prefix. }
  cbn [mbind outcome_bind]. rewrite <- !units16_app. unfold strData.
  pose proof (zlen_take_drop i). pose proof (zlen_nonneg (units16 (take i cs))). pose proof (zlen_nonneg (units16 (drop i cs))).
  pose proof (zlen_nonneg (units16 ds)).
  assert (zlen (units16 cs) + zlen (units16 ds) = zlen (units16 (take i cs ++ ds ++ drop i cs))) as ->.
  { rewrite !units16_app, !zlen_app. lia. }
  rewrite u32_small; [apply create_eq|unfold is_u32]; rewrite !units16_app, !zlen_app; lia.
Qed.
End parts.

(** On the characters of a string, [substr] takes the part between two iterators and gives
    the empty string when they are in the wrong order, [remove] takes it out and [insert]
    puts another string in, and no surrogate pair is split. *)
Theorem str_parts s cs i j d ds : isStr (sdata s) cs → isStr d ds → (i ≤ j ≤ length cs)%nat →
  zlen (units16 cs) + zlen (units16 ds) + 1 < 2 ^ 32 →
  StrParts.substr s (it s cs i) (it s cs j) = Ret (strData (units16 (drop i (take j cs)))) ∧
  ((i < j)%nat → StrParts.substr s (it s cs j) (it s cs i) = Ret (strData [])) ∧
  StrParts.remove s (it s cs i) (it s cs j) = Ret (strData (units16 (take i cs ++ drop j cs))) ∧
  StrParts.insert s (it s cs i) d = Ret (strData (units16 (take i cs ++ ds ++ drop i cs))).
Proof.
  intros Hs Hd Hij Hz. split_and!.
  - apply substr_it; done || lia.
  - intros Hlt. rewrite substr_it by (done || lia). by rewrite (drop_ge (take i cs)) by (rewrite length_take; lia).
  - by apply remove_it.
  - apply insert_it; done || lia.
Qed.

Lemma str_parts_witness :
  let s := mkStrObj 7 (strData [65; 0xD83D; 0xDE00; 66]) in
  StrParts.substr s (it s [65; 0x1F600; 66] 1) (it s [65; 0x1F600; 66] 2) = Ret (strData [0xD83D; 0xDE00]) ∧
  ((1 < 2)%nat → StrParts.substr s (it s [65; 0x1F600; 66] 2) (it s [65; 0x1F600; 66] 1) = Ret (strData [])) ∧
  StrParts.remove s (it s [65; 0x1F600; 66] 1) (it s [65; 0x1F600; 66] 2) = Ret (strData [65; 66]) ∧
  StrParts.insert s (it s [65; 0x1F600; 66] 1) (strData [67]) = Ret (strData [65; 67; 0xD83D; 0xDE00; 66]).
Proof.
  apply (str_parts (mkStrObj 7 (strData [65; 0xD83D; 0xDE00; 66])) [65; 0x1F600; 66] 1 2 (strData [67]) [67]);
    [split; [reflexivity| |reflexivity]|split; [reflexivity| |reflexivity]|cbn; lia|vm_compute; reflexivity];
    repeat constructor; lia.
Defined.

(** ** Concatenation *)

Lemma count_uncounted u : zlen u + 1 < 2 ^ 32 → Str.count (mkGcWchars 0 (u ++ [0])) = zlen u.
Proof.
  intros Hu. pose proof (zlen_nonneg u). unfold Str.count, scount. cbn [units sfilled]. rewrite zlen_term.
  rewrite u32_small by (unfold is_u32; lia). lia.
Qed.

Lemma isStr_uncounted cs : chars cs → zlen (units16 cs) + 1 < 2 ^ 32 → isStr (mkGcWchars 0 (units16 cs ++ [0])) cs.
Proof. intros Hc Hz. split; [done|done|]. unfold scount. cbn [units]. by rewrite zlen_term. Qed.

(** A string has as many units as characters when it has no surrogate pairs. *)
Lemma units16_bmp cs : chars cs → zlen (units16 cs) = zlen cs ↔ Forall (λ c, c < 0x10000) cs.
Proof.
  induction 1 as [|c cs Hc Hcs IH]; [by split|]. rewrite units16_cons, zlen_app, zlen_cons, Forall_cons, <- IH.
  pose proof (units16_leadings cs Hcs). pose proof (leadings_nonneg (units16 cs)).
  destruct (enc16_char c Hc); [change (zlen [l; t]) with 2|change (zlen [c]) with 1]; lia.
Qed.

Lemma units16_repeat cs k : units16 (concat (replicate k cs)) = concat (replicate k (units16 cs)).
Proof. induction k as [|k IH]; [done|]. cbn [replicate concat]. by rewrite units16_app, IH. Qed.

Lemma zlen_repeat (u : list Z) k : zlen (concat (replicate k u)) = zlen u * Z.of_nat k.
Proof. induction k as [|k IH]; [rewrite Z.mul_0_r; done|]. cbn [replicate concat]. rewrite zlen_app, IH. lia. Qed.

(** The units of a concatenation or a repetition are the ones they should be, but the
    number of surrogate pairs is not counted: [count] is the number of units, which is the
    number of characters only when there are no surrogate pairs. *)
Theorem str_concat_count a cs b ds times : isStr a cs → isStr b ds → 0 ≤ times →
  zlen (units16 cs) + zlen (units16 ds) + 1 < 2 ^ 32 → zlen (units16 cs) * times + 1 < 2 ^ 32 →
  ∃ r p, Str.concat2 a b = Ret r ∧ isStr r (cs ++ ds) ∧ Str.count r = zlen (units16 (cs ++ ds)) ∧
    (Str.count r = zlen (cs ++ ds) ↔ Forall (λ c, c < 0x10000) (cs ++ ds)) ∧
    Str.repeat a times = Ret p ∧ isStr p (concat (replicate (Z.to_nat times) cs)).
Proof.
  intros Ha Hb Ht Hz Hz2.
  assert (Hcs : chars (cs ++ ds)) by (apply Forall_app; split; [apply (isStr_chars _ _ Ha)|apply (isStr_chars _ _ Hb)]).
  exists (mkGcWchars 0 (units16 (cs ++ ds) ++ [0])), (mkGcWchars 0 (units16 (concat (replicate (Z.to_nat times) cs)) ++ [0])).
  pose proof (charCount_str a cs Ha) as Ea. pose proof (charCount_str b ds Hb) as Eb. unfold Str.charCount in Ea, Eb.
  assert (zlen (units16 (cs ++ ds)) = zlen (units16 cs) + zlen (units16 ds)) as Ez by (by rewrite units16_app, zlen_app).
  assert (Ezr : zlen (units16 (concat (replicate (Z.to_nat times) cs))) = zlen (units16 cs) * times).
  { rewrite units16_repeat, zlen_repeat. by rewrite Z2Nat.id. }
  split_and!.
  - unfold Str.concat2. rewrite Ea, Eb, (isStr_units _ _ Ha), (isStr_units _ _ Hb), !unitsAt_prefix.
    cbn [mbind outcome_bind]. rewrite <- units16_app, <- Ez. apply create_eq. lia.
  - apply isStr_uncounted; [done|lia].
  - apply count_uncounted. lia.
  - rewrite count_uncounted by lia. by apply units16_bmp.
  - unfold Str.repeat. rewrite Ea, (isStr_units _ _ Ha), unitsAt_prefix. cbn [mbind outcome_bind].
    rewrite <- units16_repeat, <- Ezr. apply create_eq. lia.
  - apply isStr_uncounted; [|lia]. apply Forall_concat, Forall_replicate. apply (isStr_chars _ _ Ha).
Qed.

Lemma str_concat_count_witness :
  ∃ r p, Str.concat2 (strData [0xD83D; 0xDE00]) (strData [65]) = Ret r ∧ isStr r [0x1F600; 65] ∧ Str.count r = 3 ∧
    (Str.count r = 2 ↔ Forall (λ c, c < 0x10000) [0x1F600; 65]) ∧
    Str.repeat (strData [0xD83D; 0xDE00]) 2 = Ret p ∧ isStr p [0x1F600; 0x1F600].
Proof.
  apply (str_concat_count (strData [0xD83D; 0xDE00]) [0x1F600] (strData [65]) [65] 2);
    [split; [reflexivity| |reflexivity]|split; [reflexivity| |reflexivity]|lia|vm_compute; reflexivity|vm_compute; reflexivity];
    repeat constructor; lia.
Defined.

(** ** Searching *)

(** The characters [ps] are in [cs] from the [j]th on. *)
Definition occurs (ps cs : list Z) (j : nat) : Prop := ps `prefix_of` drop j cs.

#[export] Instance occurs_dec ps cs j : Decision (occurs ps cs j).
Proof. unfold occurs. apply _. Defined.
#[export] Typeclasses Opaque occurs.

Lemma occurs_bound ps cs j : ps ≠ [] → occurs ps cs j → (j < length cs)%nat.
Proof. intros Hp [r E]. destruct ps; [done|]. apply (f_equal length) in E. rewrite length_drop in E. cbn in E. lia. Qed.

Section find.
Context (s : StrObj) (cs : list Z) (Hs : isStr (sdata s) cs).
Notation n := (length cs).

Lemma findLoop_it fuel ch k : (k ≤ n)%nat → (n - k < fuel)%nat →
  ∃ j, StrParts.findLoop fuel ch (it s cs k) Iter.end_ = Ret (it s cs j) ∧ (k ≤ j ≤ n)%nat ∧
    (∀ c, cs !! j = Some c → c = ch) ∧ ∀ i, (k ≤ i < j)%nat → cs !! i ≠ Some ch.
Proof.
  revert k. induction fuel as [|fuel IH]; intros k Hk Hf; [lia|]. cbn [StrParts.findLoop].
  rewrite (eq_end s cs Hs k Hk). case_bool_decide as E.
  { exists k. split_and!; [done|done|done| |lia]. intros c Hc%lookup_lt_Some. lia. }
  destruct (lookup_lt_is_Some_2 cs k ltac:(lia)) as [c Hc]. rewrite (v_it s cs Hs k c Hc). cbn [mbind outcome_bind].
  destruct (Z.eqb_spec c ch) as [->|Hne].
  { exists k. split_and!; [done|done|done| |lia]. intros c Hc'. congruence. }
  rewrite (next_it s cs Hs k c Hc). cbn [mbind outcome_bind].
  destruct (IH (S k) ltac:(lia) ltac:(lia)) as (j & Ej & Hj & Hch & Hbefore).
  exists j. split_and!; [done|lia|lia|done|]. intros i Hi. destruct (decide (i = k)) as [->|]; [congruence|apply Hbefore; lia].
Qed.

Lemma fuel_enough k : (n < StrParts.iterFuel (it s cs k))%nat.
Proof.
  unfold StrParts.iterFuel, it. cbn [Iter.owner]. rewrite (isStr_units _ _ Hs), length_app.
  pose proof (units16_leadings cs (isStr_chars _ _ Hs)). pose proof (leadings_nonneg (units16 cs)). unfold zlen in *. cbn [length]. lia.
Qed.

Context (p : StrObj) (ps : list Z) (Hp : isStr (sdata p) ps).

Lemma matchLoop_it fuel a b : (a ≤ length ps)%nat → (b ≤ n)%nat → (length ps - a < fuel)%nat →
  StrParts.matchLoop fuel (it p ps a) (it s cs b) Iter.end_ Iter.end_ = Ret (bool_decide (drop a ps `prefix_of` drop b cs)).
Proof.
  revert a b. induction fuel as [|fuel IH]; intros a b Ha Hb Hf; [lia|]. cbn [StrParts.matchLoop].
  rewrite (eq_end p ps Hp a Ha). case_bool_decide as Ea.
  { rewrite (drop_ge ps a) by lia. by rewrite bool_decide_eq_true_2 by apply prefix_nil. }
  destruct (lookup_lt_is_Some_2 ps a ltac:(lia)) as [x Hx]. rewrite (drop_S ps x a Hx).
  rewrite (eq_end s cs Hs b Hb). case_bool_decide as Eb.
  { rewrite (drop_ge cs b) by lia. rewrite bool_decide_eq_false_2; [done|]. apply prefix_nil_not. }
  destruct (lookup_lt_is_Some_2 cs b ltac:(lia)) as [y Hy]. rewrite (drop_S cs y b Hy).
  rewrite (v_it p ps Hp a x Hx), (v_it s cs Hs b y Hy). cbn [mbind outcome_bind].
  destruct (Z.eqb_spec x y) as [->|Hne]; cbn [negb].
  - rewrite (next_it p ps Hp a y Hx), (next_it s cs Hs b y Hy). cbn [mbind outcome_bind]. rewrite IH by lia.
    f_equal. apply bool_decide_ext. split; [apply prefix_cons|apply prefix_cons_inv_2].
  - rewrite bool_decide_eq_false_2; [done|]. intros H. by apply prefix_cons_inv_1 in H.
Qed.

(** One step of the outer loop compares the pattern with what is at the iterator. *)
Lemma match_here p0 k c : ps !! 0%nat = Some p0 → cs !! k = Some c →
  (if c =? p0 then j ← Iter.plus (it s cs k) 1; StrParts.matchLoop (StrParts.iterFuel (it p ps 1)) (it p ps 1) j Iter.end_ Iter.end_
   else Ret false) = Ret (bool_decide (occurs ps cs k)).
Proof.
  intros H0 Hc. pose proof (lookup_lt_Some _ _ _ Hc). pose proof (lookup_lt_Some _ _ _ H0).
  assert (E : occurs ps cs k ↔ p0 = c ∧ drop 1 ps `prefix_of` drop (S k) cs).
  { unfold occurs. rewrite (drop_S cs c k Hc). rewrite <- (drop_0 ps) at 1. rewrite (drop_S ps p0 0 H0). split.
    - intros H'. split; [by apply prefix_cons_inv_1 in H'|by apply prefix_cons_inv_2 in H'].
    - intros [-> H']. by apply prefix_cons. }
  rewrite (bool_decide_ext _ _ E). destruct (Z.eqb_spec c p0) as [->|Hne].
  - change 1 with (Z.of_nat 1). rewrite (plus_it s cs Hs k 1) by lia. cbn [mbind outcome_bind]. rewrite Nat.add_1_r.
    assert (length ps < StrParts.iterFuel (it p ps 1))%nat.
    { unfold StrParts.iterFuel, it. cbn [Iter.owner]. rewrite (isStr_units _ _ Hp), length_app.
      pose proof (units16_leadings ps (isStr_chars _ _ Hp)). pose proof (leadings_nonneg (units16 ps)). unfold zlen in *. cbn [length]. lia. }
    rewrite matchLoop_it by lia. f_equal. apply bool_decide_ext. tauto.
  - rewrite bool_decide_eq_false_2; [done|]. intros [? _]. congruence.
Qed.

Lemma findStrLoop_it fuel p0 k : ps !! 0%nat = Some p0 → (k ≤ n)%nat → (n - k < fuel)%nat →
  ∃ r, StrParts.findStrLoop fuel p0 (it p ps 1) Iter.end_ (it s cs k) Iter.end_ = Ret r ∧
    ((∃ j, r = it s cs j ∧ (k ≤ j)%nat ∧ occurs ps cs j ∧ ∀ i, (k ≤ i < j)%nat → ¬ occurs ps cs i) ∨
     (r = Iter.end_ ∧ ∀ i, (k ≤ i)%nat → ¬ occurs ps cs i)).
Proof.
  intros H0. assert (Hne : ps ≠ []) by (by intros ->).
  revert k. induction fuel as [|fuel IH]; intros k Hk Hf; [lia|]. cbn [StrParts.findStrLoop].
  rewrite (eq_end s cs Hs k Hk). case_bool_decide as E.
  { exists Iter.end_. split; [done|]. right. split; [done|]. intros i Hi Ho. apply (occurs_bound ps cs) in Ho; [lia|done]. }
  destruct (lookup_lt_is_Some_2 cs k ltac:(lia)) as [c Hc]. rewrite (v_it s cs Hs k c Hc). cbn [mbind outcome_bind].
  pose proof (match_here p0 k c H0 Hc) as Em. cbn [mbind outcome_bind] in Em. rewrite Em. cbn [mbind outcome_bind].
  case_bool_decide as Ho.
  { exists (it s cs k). split; [done|]. left. exists k. split_and!; [done|done|done|lia]. }
  rewrite (next_it s cs Hs k c Hc). cbn [mbind outcome_bind].
  destruct (IH (S k) ltac:(lia) ltac:(lia)) as (r & Er & Hr). exists r. split; [done|].
  assert (Hstep : ∀ i, (k ≤ i)%nat → i = k ∨ (S k ≤ i)%nat) by lia.
  destruct Hr as [(j & -> & Hj & Hoj & Hb)|(-> & Hno)]; [left|right].
  - exists j. split_and!; [done|lia|done|]. intros i Hi. destruct (Hstep i ltac:(lia)) as [->|]; [done|apply Hb; lia].
  - split; [done|]. intros i Hi. destruct (Hstep i Hi) as [->|]; [done|by apply Hno].
Qed.
End find.

(** C15: [find] of a character gives the first place from the iterator on where the character
    is, or the end; [find] of a string that is not empty gives the first place where all its
    characters are, or the end. *)
Theorem str_find s cs p ps ch k : isStr (sdata s) cs → isStr (sdata p) ps → ps ≠ [] → (k ≤ length cs)%nat →
  (∃ j, StrParts.findChar ch (it s cs k) = Ret (it s cs j) ∧ (k ≤ j ≤ length cs)%nat ∧
     (∀ c, cs !! j = Some c → c = ch) ∧ ∀ i, (k ≤ i < j)%nat → cs !! i ≠ Some ch) ∧
  (∃ r, StrParts.findStr p (it s cs k) = Ret r ∧
     ((∃ j, r = it s cs j ∧ (k ≤ j)%nat ∧ occurs ps cs j ∧ ∀ i, (k ≤ i < j)%nat → ¬ occurs ps cs i) ∨
      (r = Iter.end_ ∧ ∀ i, (k ≤ i)%nat → ¬ occurs ps cs i))).
Proof.
  intros Hs Hp Hne Hk. pose proof (fuel_enough s cs Hs k) as Hf. split.
  - apply findLoop_it; done || lia.
  - destruct ps as [|p0 ps]; [done|]. unfold StrParts.findStr. rewrite (begin_it p (p0 :: ps)).
    rewrite (v_it p _ Hp 0 p0), (next_it p _ Hp 0 p0) by done. cbn [mbind outcome_bind].
    by apply findStrLoop_it; try done; lia.
Qed.

Lemma str_find_witness :
  let s := mkStrObj 7 (strData [65; 66; 65; 67]) in let p := mkStrObj 8 (strData [65; 67]) in
  (∃ j, StrParts.findChar 65 (it s [65; 66; 65; 67] 1) = Ret (it s [65; 66; 65; 67] j) ∧ (1 ≤ j ≤ 4)%nat ∧
     (∀ c, [65; 66; 65; 67] !! j = Some c → c = 65) ∧ ∀ i, (1 ≤ i < j)%nat → [65; 66; 65; 67] !! i ≠ Some 65) ∧
  (∃ r, StrParts.findStr p (it s [65; 66; 65; 67] 1) = Ret r ∧
     ((∃ j, r = it s [65; 66; 65; 67] j ∧ (1 ≤ j)%nat ∧ occurs [65; 67] [65; 66; 65; 67] j ∧
         ∀ i, (1 ≤ i < j)%nat → ¬ occurs [65; 67] [65; 66; 65; 67] i) ∨
      (r = Iter.end_ ∧ ∀ i, (1 ≤ i)%nat → ¬ occurs [65; 67] [65; 66; 65; 67] i))).
Proof.
  apply (str_find (mkStrObj 7 (strData [65; 66; 65; 67])) [65; 66; 65; 67] (mkStrObj 8 (strData [65; 67])) [65; 67] 65 1);
    [split; [reflexivity| |reflexivity]|split; [reflexivity| |reflexivity]|done|cbn; lia]; repeat constructor; lia.
Defined.

(** ** Searching backwards *)

(** A unit that does not end a surrogate pair starts a character. *)
Lemma unit_boundary cs m x : chars cs → units16 cs !! m = Some x → utf16.trailing x = false →
  ∃ j, Z.of_nat m = posOf cs j ∧ (j < length cs)%nat.
Proof.
  revert m. induction cs as [|c cs IH]; intros m Hcs Hm Hx; [done|]. apply Forall_cons_1 in Hcs as [Hc Hcs].
  rewrite units16_cons in Hm. destruct m as [|m']; [exists 0%nat; split; [done|cbn; lia]|].
  assert (length (enc16 c) ≤ S m')%nat as Hge.
  { destruct (enc16_char c Hc); cbn [length]; [|lia]. destruct m'; [|lia]. cbn in Hm. congruence. }
  rewrite lookup_app_r in Hm by done. destruct (IH _ Hcs Hm Hx) as (j & Ej & Hj).
  exists (S j). split; [|cbn [length]; lia]. unfold posOf in *. cbn [take]. rewrite units16_cons, zlen_app.
  unfold zlen in *. lia.
Qed.

Lemma prefix_term u w : plain u → u `prefix_of` w ++ [0] → u `prefix_of` w.
Proof.
  intros Hu [r E]. destruct r as [|x r _] using rev_ind.
  - rewrite app_nil_r in E. subst u. apply Forall_app in Hu as [_ Hu]. apply Forall_cons_1 in Hu as [? _]. lia.
  - rewrite app_assoc in E. apply app_inj_2 in E as [E _]; [|done]. by exists r.
Qed.

(** Where the units of a string are found, there are its characters. *)
Lemma units_occur ps cs q : chars ps → chars cs → ps ≠ [] → units16 ps `prefix_of` drop q (units16 cs ++ [0]) →
  ∃ j, Z.of_nat q = posOf cs j ∧ occurs ps cs j.
Proof.
  intros Hps Hcs Hne Hpre. destruct ps as [|c ps]; [done|]. clear Hne.
  assert (∃ x w, units16 (c :: ps) = x :: w ∧ utf16.trailing x = false ∧ 0 < x) as (x & w & Ew & Ht & Hx).
  { apply Forall_cons_1 in Hps as [Hc _]. rewrite units16_cons.
    destruct (enc16_char c Hc) as [l t L|L]; eexists _, _; (split; [done|]); [|split; [done|lia]].
    split; [|lia]. unfold utf16.leading, utf16.trailing in *. apply Z.eqb_eq in L. by rewrite L. }
  assert (units16 cs !! q = Some x) as Hq.
  { destruct Hpre as [r E]. rewrite Ew in E. assert (Hl : (units16 cs ++ [0]) !! q = Some x).
    { rewrite <- (Nat.add_0_r q), <- lookup_drop, E. done. }
    apply lookup_app_Some in Hl as [Hl|[_ Hl]]; [done|]. apply list_lookup_singleton_Some in Hl as [_ <-]. lia. }
  destruct (unit_boundary cs q x Hcs Hq Ht) as (j & Ej & Hj). exists j. split; [done|].
  replace q with (Z.to_nat (posOf cs j)) in Hpre by lia. rewrite posOf_drop in Hpre.
  apply prefix_term in Hpre as [r E]; [|by apply units16_plain].
  destruct (units16_prefix (c :: ps) (drop j cs) r) as (cs' & E' & _); [done|by apply Forall_drop|done|].
  by exists cs'.
Qed.

Lemma occurs_units ps cs j r : occurs ps cs j → units16 ps `prefix_of` drop (Z.to_nat (posOf cs j)) (units16 cs ++ r).
Proof. intros [t E]. rewrite posOf_drop, E, units16_app, <- app_assoc. by eexists. Qed.

(** Where the characters end. *)
Lemma occurs_end ps cs j : occurs ps cs j → posOf cs j + zlen (units16 ps) = posOf cs (j + length ps).
Proof.
  intros [t E]. unfold posOf. rewrite <- zlen_app, <- units16_app. do 2 f_equal.
  rewrite <- take_take_drop, E. f_equal. by rewrite take_app_length.
Qed.

Lemma suffix_snoc_iff (x y : Z) u w : u ++ [x] `suffix_of` w ++ [y] ↔ x = y ∧ u `suffix_of` w.
Proof.
  split.
  - intros H. split; [by apply suffix_snoc_inv_1 in H|by apply suffix_snoc_inv_2 in H].
  - intros [-> H]. by apply suffix_snoc.
Qed.

Lemma matchBack_eq str s a me : (a ≤ length str)%nat → (me ≤ length s)%nat →
  StrParts.matchBack str s a (Z.of_nat me) = Ret (bool_decide (take a str `suffix_of` take me s)).
Proof.
  revert me. induction a as [|a IH]; intros me Ha Hm; cbn [StrParts.matchBack].
  { by rewrite bool_decide_eq_true_2 by apply suffix_nil. }
  destruct (lookup_lt_is_Some_2 str a ltac:(lia)) as [x Hx]. rewrite (take_S_r _ _ _ Hx).
  destruct me as [|me]; cbn [Z.leb].
  { rewrite bool_decide_eq_false_2; [done|]. cbn [take]. intros H. apply suffix_length in H. rewrite length_app, take_0 in H. cbn [length] in H. lia. }
  rewrite (proj2 (Z.leb_gt _ _)) by lia. replace (Z.of_nat (S me) - 1) with (Z.of_nat me) by lia.
  destruct (lookup_lt_is_Some_2 s me ltac:(lia)) as [y Hy]. rewrite (take_S_r _ _ _ Hy).
  unfold aget. rewrite !lookupZ_nat, Hx, Hy. cbn [mbind outcome_bind]. destruct (Z.eqb_spec y x) as [->|Hne]; cbn [negb].
  - rewrite IH by lia. f_equal. apply bool_decide_ext. rewrite suffix_snoc_iff. tauto.
  - rewrite bool_decide_eq_false_2; [done|]. rewrite suffix_snoc_iff. intros [? _]. congruence.
Qed.

(** The last end of [take] of the pattern at or before [m]. *)
Lemma findLastStrLoop_eq str s u m : (∃ r, str = u ++ r) → u ≠ [] → (m ≤ length s)%nat →
  ∃ r, StrParts.findLastStrLoop str s (zlen u) m = Ret r ∧
    match r with
    | Some q => ∃ e, q = Z.of_nat e - zlen u ∧ (e ≤ m)%nat ∧ u `suffix_of` take e s ∧
        ∀ e', (e < e' ≤ m)%nat → ¬ u `suffix_of` take e' s
    | None => ∀ e', (e' ≤ m)%nat → ¬ u `suffix_of` take e' s
    end.
Proof.
  intros [rest ->] Hu. destruct u as [|x u _] using rev_ind; [done|]. clear Hu.
  induction m as [|m IH]; intros Hm; cbn [StrParts.findLastStrLoop].
  { exists None. split; [done|]. intros e' He' H. apply suffix_length in H. rewrite length_app, length_take in H. cbn in H. lia. }
  destruct (lookup_lt_is_Some_2 s m ltac:(lia)) as [y Hy].
  rewrite (aget_Some s (Z.of_nat m) y) by (by rewrite lookupZ_nat). cbn [mbind outcome_bind].
  assert (Hx : ((u ++ [x]) ++ rest) !! (zlen (u ++ [x]) - 1) = Some x).
  { rewrite zlen_app. unfold zlen. cbn [length]. replace (_ + _ - 1) with (Z.of_nat (length u)) by lia.
    rewrite lookupZ_nat, <- app_assoc. by apply list_lookup_middle. }
  rewrite (aget_Some _ _ _ Hx). cbn [mbind outcome_bind].
  assert (E : (if y =? x then StrParts.matchBack ((u ++ [x]) ++ rest) s (Z.to_nat (zlen (u ++ [x]) - 1)) (Z.of_nat m) else Ret false) =
    Ret (bool_decide (u ++ [x] `suffix_of` take (S m) s))).
  { rewrite (take_S_r _ _ _ Hy), (bool_decide_ext _ _ (suffix_snoc_iff x y u (take m s))).
    replace (Z.to_nat (zlen (u ++ [x]) - 1)) with (length u) by (rewrite zlen_app; unfold zlen; cbn [length]; lia).
    destruct (Z.eqb_spec y x) as [->|Hne].
    - rewrite matchBack_eq by (rewrite ?length_app; lia). rewrite <- app_assoc, take_app_length.
      f_equal. apply bool_decide_ext. tauto.
    - rewrite bool_decide_eq_false_2; [done|]. intros [? _]. congruence. }
  rewrite E. cbn [mbind outcome_bind]. case_bool_decide as Hs.
  - exists (Some (Z.of_nat m + 1 - zlen (u ++ [x]))). split; [done|]. exists (S m). split_and!; [lia|lia|done|lia].
  - destruct (IH ltac:(lia)) as (r & Er & Hr). exists r. split; [done|].
    assert (Hstep : ∀ e', (e' ≤ S m)%nat → e' = S m ∨ (e' ≤ m)%nat) by lia.
    destruct r as [q|].
    + destruct Hr as (e & -> & He & Hse & Hb). exists e. split_and!; [done|lia|done|].
      intros e' He'. destruct (Hstep e' ltac:(lia)) as [->|]; [done|apply Hb; lia].
    + intros e' He'. destruct (Hstep e' He') as [->|]; [done|by apply Hr].
Qed.

(** Ends of the pattern in the units are places of its characters. *)
Lemma suffix_occurs ps cs e : chars ps → chars cs → ps ≠ [] → (e ≤ length (units16 cs ++ [0%Z]))%nat →
  units16 ps `suffix_of` take e (units16 cs ++ [0]) →
  ∃ j, Z.of_nat e - zlen (units16 ps) = posOf cs j ∧ occurs ps cs j.
Proof.
  intros Hps Hcs Hne He [l E]. pose proof (f_equal length E) as El. rewrite length_take, Nat.min_l, length_app in El by done.
  assert (Hq : units16 ps `prefix_of` drop (length l) (units16 cs ++ [0])).
  { rewrite <- (take_drop e (units16 cs ++ [0])), E, <- app_assoc, drop_app_length. by eexists. }
  destruct (units_occur ps cs (length l) Hps Hcs Hne Hq) as (j & Ej & Hj). exists j. split; [|done].
  unfold zlen. rewrite <- Ej. lia.
Qed.

Lemma occurs_suffix ps cs j e : occurs ps cs j → Z.of_nat e = posOf cs j + zlen (units16 ps) →
  units16 ps `suffix_of` take e (units16 cs ++ [0]).
Proof.
  intros Ho He. destruct (occurs_units ps cs j [0] Ho) as [r E]. pose proof (posOf_nonneg cs j).
  exists (take (Z.to_nat (posOf cs j)) (units16 cs ++ [0])).
  replace e with (Z.to_nat (posOf cs j) + length (units16 ps))%nat by (unfold zlen in He; lia).
  rewrite <- take_take_drop, E. f_equal. by rewrite take_app_length.
Qed.

(** The last place before [m] of one or two units. *)
Lemma findLastLoop_eq s lead trail m : (m < length s)%nat →
  let w := if trail =? 0 then [lead] else [lead; trail] in
  ∃ r, StrParts.findLastLoop s lead trail m = Ret r ∧
    match r with
    | Some q => ∃ k, q = Z.of_nat k ∧ (k < m)%nat ∧ w `prefix_of` drop k s ∧ ∀ k', (k < k' < m)%nat → ¬ w `prefix_of` drop k' s
    | None => ∀ k', (k' < m)%nat → ¬ w `prefix_of` drop k' s
    end.
Proof.
  intros Hm w. induction m as [|m IH]; cbn [StrParts.findLastLoop].
  { exists None. split; [done|lia]. }
  destruct (lookup_lt_is_Some_2 s m ltac:(lia)) as [x Hx]. destruct (lookup_lt_is_Some_2 s (S m) ltac:(lia)) as [y Hy].
  rewrite (aget_Some s (Z.of_nat m) x) by (by rewrite lookupZ_nat). cbn [mbind outcome_bind].
  assert (aget s (Z.of_nat m + 1) = Ret y) as ->.
  { apply aget_Some. replace (Z.of_nat m + 1) with (Z.of_nat (S m)) by lia. by rewrite lookupZ_nat. }
  cbn [mbind outcome_bind].
  assert (Hw : w `prefix_of` drop m s ↔ x = lead ∧ (trail ≠ 0 → trail = y)).
  { rewrite (drop_S _ _ _ Hx), (drop_S _ _ _ Hy). unfold w. destruct (Z.eqb_spec trail 0) as [->|Ht].
    - split; [intros H; apply prefix_cons_inv_1 in H; done|]. intros [-> _]. by eexists.
    - split.
      + intros H. pose proof (prefix_cons_inv_1 _ _ _ _ H). apply prefix_cons_inv_2, prefix_cons_inv_1 in H. done.
      + intros [-> H]. rewrite (H Ht). by eexists. }
  assert (Hstep : ∀ k', (k' < S m)%nat → k' = m ∨ (k' < m)%nat) by lia.
  assert (Hgo : ¬ w `prefix_of` drop m s → ∃ r, StrParts.findLastLoop s lead trail m = Ret r ∧
    match r with
    | Some q => ∃ k, q = Z.of_nat k ∧ (k < S m)%nat ∧ w `prefix_of` drop k s ∧ ∀ k', (k < k' < S m)%nat → ¬ w `prefix_of` drop k' s
    | None => ∀ k', (k' < S m)%nat → ¬ w `prefix_of` drop k' s
    end).
  { intros Hn. destruct (IH ltac:(lia)) as (r & Er & Hr). exists r. split; [done|]. destruct r as [q|].
    - destruct Hr as (k & -> & Hk & Hwk & Hb). exists k. split_and!; [done|lia|done|].
      intros k' Hk'. destruct (Hstep k' ltac:(lia)) as [->|]; [done|apply Hb; lia].
    - intros k' Hk'. destruct (Hstep k' Hk') as [->|]; [done|by apply Hr]. }
  assert (Hyes : w `prefix_of` drop m s → ∃ r, (Ret (Some (Z.of_nat m)) : outcome (option Z)) = Ret r ∧
    match r with
    | Some q => ∃ k, q = Z.of_nat k ∧ (k < S m)%nat ∧ w `prefix_of` drop k s ∧ ∀ k', (k < k' < S m)%nat → ¬ w `prefix_of` drop k' s
    | None => ∀ k', (k' < S m)%nat → ¬ w `prefix_of` drop k' s
    end).
  { intros H. exists (Some (Z.of_nat m)). split; [done|]. exists m. split_and!; [done|lia|done|lia]. }
  destruct (Z.eqb_spec x lead) as [Ex|Ex]; [|by apply Hgo; rewrite Hw; intros [? _]].
  destruct (Z.eqb_spec trail 0) as [Et|Et]; [apply Hyes, Hw; by split|].
  destruct (Z.eqb_spec trail y) as [Ey|Ey]; [apply Hyes, Hw; by split|]. apply Hgo. rewrite Hw. intros [_ ?]. by apply Ey; auto.
Qed.

Section findLast.
Context (s : StrObj) (cs : list Z) (Hs : isStr (sdata s) cs) (k : nat) (Hk : (k ≤ length cs)%nat).

(** Where the search starts. *)
Lemma endPos_it c : zlen (units16 cs) ≤ c ≤ zlen (units16 cs) + 1 →
  posOf cs k ≤ (if negb (Iter.atEnd (it s cs k)) then Z.min c (posOf cs k) else c) ≤ posOf cs k + 1 ∧
  (if negb (Iter.atEnd (it s cs k)) then Z.min c (posOf cs k) else c) ≤ c ∧
  (c = zlen (units16 cs) → (if negb (Iter.atEnd (it s cs k)) then Z.min c (posOf cs k) else c) = posOf cs k).
Proof.
  intros Hc. pose proof (posOf_bound cs k). rewrite (atEnd_it s cs Hs k Hk). case_bool_decide as E; cbn [negb]; [|lia].
  rewrite E, posOf_all. lia.
Qed.

Lemma findLastStr_it d ps : isStr d ps → ps ≠ [] →
  ∃ r, StrParts.findLastStr s d (it s cs k) = Ret r ∧
     ((∃ j, r = it s cs j ∧ occurs ps cs j ∧ (j + length ps ≤ k)%nat ∧
         ∀ i, (j < i)%nat → (i + length ps ≤ k)%nat → ¬ occurs ps cs i) ∨
      (r = Iter.end_ ∧ ∀ i, (i + length ps ≤ k)%nat → ¬ occurs ps cs i)).
Proof.
  intros Hd Hne. pose proof (isStr_chars _ _ Hs) as Hcs. pose proof (isStr_chars _ _ Hd) as Hps.
  pose proof (units_bound s cs Hs) as Hb. pose proof (posOf_bound cs k) as Hpk. pose proof endPos_it as Hend.
  unfold StrParts.findLastStr. cbn [it Iter.owner Iter.pos]. rewrite Nat.eqb_refl. cbn [negb].
  rewrite (scount_eq s cs Hs), u32_small by (unfold is_u32; lia).
  assert (scount d - 1 = zlen (units16 ps)) as -> by (unfold scount; rewrite (isStr_units _ _ Hd), zlen_term; lia).
  specialize (Hend (zlen (units16 cs) + 1) ltac:(lia)). fold (it s cs k).
  set (e0 := if negb _ then _ else _) in *. rewrite (isStr_units _ _ Hs), (isStr_units _ _ Hd).
  destruct (findLastStrLoop_eq (units16 ps ++ [0]) (units16 cs ++ [0]) (units16 ps) (Z.to_nat e0)) as (r & Er & Hr).
  { by eexists. }
  { intros E. destruct ps as [|p0 ps]; [done|]. rewrite units16_cons in E. apply Forall_cons_1 in Hps as [Hp0 _].
    by destruct (enc16_char p0 Hp0). }
  { rewrite length_app. unfold zlen in *. cbn [length]. lia. }
  rewrite Er. cbn [mbind outcome_bind].
  (* An occurrence that fits ends at or before the limit. *)
  assert (Hfit : ∀ i, occurs ps cs i → (i + length ps ≤ k)%nat →
    ∃ e, Z.of_nat e = posOf cs i + zlen (units16 ps) ∧ (e ≤ Z.to_nat e0)%nat ∧ units16 ps `suffix_of` take e (units16 cs ++ [0])).
  { intros i Hi Hik. pose proof (occurs_end ps cs i Hi) as Ei. pose proof (posOf_le cs _ _ Hik). pose proof (posOf_nonneg cs i).
    pose proof (zlen_nonneg (units16 ps)). exists (Z.to_nat (posOf cs i + zlen (units16 ps))).
    split_and!; [lia|lia|]. apply (occurs_suffix ps cs i); [done|lia]. }
  destruct r as [q|].
  - destruct Hr as (e & -> & He & Hse & Hlast).
    destruct (suffix_occurs ps cs e Hps Hcs Hne) as (j & Ej & Hj); [rewrite length_app; unfold zlen in *; cbn [length]; lia|done|].
    pose proof (occurs_end ps cs j Hj) as Eje. pose proof (occurs_bound ps cs j Hne Hj).
    assert (j + length ps ≤ length cs)%nat as Hjl.
    { destruct Hj as [t Et]. apply (f_equal length) in Et. rewrite length_drop, length_app in Et. lia. }
    eexists. split; [done|]. left. exists j. split_and!; [|done| |].
    + rewrite Ej, u32_small; [done|]. pose proof (posOf_bound cs j). unfold is_u32. lia.
    + destruct (decide (j + length ps ≤ k)%nat); [done|]. exfalso.
      pose proof (posOf_lt cs k (j + length ps) ltac:(lia) ltac:(lia)).
      (* Only the terminator could end there. *)
      assert (k < length cs)%nat as Hkl by lia. unfold e0 in He. rewrite (atEnd_it s cs Hs k Hk), bool_decide_eq_false_2 in He by lia.
      cbn [negb] in He. lia.
    + intros i Hi Hik Ho. destruct (Hfit i Ho Hik) as (e' & Ee' & He' & Hse'). apply (Hlast e'); [|done].
      pose proof (posOf_lt cs j i Hi ltac:(lia)). lia.
  - eexists. split; [done|]. right. split; [done|]. intros i Hik Ho.
    destruct (Hfit i Ho Hik) as (e' & Ee' & He' & Hse'). by apply (Hr e').
Qed.

Lemma findLastChar_it ch : char ch →
  ∃ r, StrParts.findLastChar s ch (it s cs k) = Ret r ∧
     ((∃ j, r = it s cs j ∧ cs !! j = Some ch ∧ (j < k)%nat ∧ ∀ i, (j < i < k)%nat → cs !! i ≠ Some ch) ∨
      (r = Iter.end_ ∧ ∀ i, (i < k)%nat → cs !! i ≠ Some ch)).
Proof.
  intros Hch. pose proof (isStr_chars _ _ Hs) as Hcs.
  pose proof (units_bound s cs Hs) as Hb. pose proof (posOf_bound cs k) as Hpk. pose proof endPos_it as Hend.
  unfold StrParts.findLastChar. cbn [it Iter.owner Iter.pos]. rewrite Nat.eqb_refl. cbn [negb].
  rewrite (scount_eq s cs Hs), u32_small by (unfold is_u32; lia). replace (zlen (units16 cs) + 1 - 1) with (zlen (units16 cs)) by lia.
  destruct (Hend (zlen (units16 cs)) ltac:(lia)) as (_ & _ & E0). fold (it s cs k). rewrite E0 by done. clear Hend E0.
  assert (∃ lead trail, (if Char.leading ch =? 0 then (Char.trailing ch, 0) else (Char.leading ch, Char.trailing ch)) = (lead, trail) ∧
    (if trail =? 0 then [lead] else [lead; trail]) = units16 [ch]) as (lead & trail & E1 & E2).
  { unfold units16. cbn [fmap list_fmap concat]. rewrite app_nil_r.
    destruct (enc16_char ch Hch) as [l t _ _ _ Hl Ht _ El Et _|_ _ Hc El Et]; rewrite El, Et.
    - rewrite (proj2 (Z.eqb_neq l 0)) by lia. exists l, t. by rewrite (proj2 (Z.eqb_neq t 0)) by lia.
    - by exists ch, 0. }
  rewrite E1, (isStr_units _ _ Hs).
  destruct (findLastLoop_eq (units16 cs ++ [0]) lead trail (Z.to_nat (posOf cs k))) as (r & Er & Hr).
  { rewrite length_app. unfold zlen in *. cbn [length]. lia. }
  rewrite Er. cbn [mbind outcome_bind]. cbv zeta in Hr. rewrite E2 in Hr.
  assert (Hone : ∀ i, occurs [ch] cs i ↔ cs !! i = Some ch).
  { intros i. unfold occurs. split.
    - intros [t Et]. rewrite <- (Nat.add_0_r i), <- lookup_drop, Et. done.
    - intros Hi. rewrite (drop_S _ _ _ Hi). by eexists. }
  assert (Hfit : ∀ i, cs !! i = Some ch → (i < k)%nat → (Z.to_nat (posOf cs i) < Z.to_nat (posOf cs k))%nat ∧
    units16 [ch] `prefix_of` drop (Z.to_nat (posOf cs i)) (units16 cs ++ [0])).
  { intros i Hi Hik. pose proof (lookup_lt_Some _ _ _ Hi). pose proof (posOf_lt cs i k Hik ltac:(lia)). pose proof (posOf_nonneg cs i).
    split; [lia|]. apply occurs_units. by apply Hone. }
  destruct r as [q|].
  - destruct Hr as (m & -> & Hm & Hpre & Hlast).
    destruct (units_occur [ch] cs m) as (j & Ej & Hj); [by constructor|done|done|done|].
    eexists. split; [done|]. left. exists j. rewrite Ej in *. apply Hone in Hj as Hj'. pose proof (lookup_lt_Some _ _ _ Hj').
    split_and!; [|done| |].
    + rewrite u32_small; [done|]. pose proof (posOf_bound cs j). unfold is_u32. lia.
    + destruct (decide (j < k)%nat); [done|]. pose proof (posOf_le cs k j ltac:(lia)). lia.
    + intros i Hi Hci. destruct (Hfit i Hci ltac:(lia)) as [Hp1 Hp2]. apply (Hlast (Z.to_nat (posOf cs i))); [|done].
      pose proof (posOf_lt cs j i ltac:(lia) ltac:(lia)). pose proof (posOf_nonneg cs j). lia.
  - eexists. split; [done|]. right. split; [done|]. intros i Hi Hci.
    destruct (Hfit i Hci Hi) as [Hp1 Hp2]. by apply (Hr _ Hp1).
Qed.
End findLast.

(** [findLast] of a string that is not empty gives the last place where all its characters
    are before the given iterator, and [findLast] of a character the last place of the
    character there, although both look at code units: parts of characters are never found. *)
Theorem str_findLast s cs d ps ch k : isStr (sdata s) cs → isStr d ps → ps ≠ [] → char ch → (k ≤ length cs)%nat →
  (∃ r, StrParts.findLastStr s d (it s cs k) = Ret r ∧
     ((∃ j, r = it s cs j ∧ occurs ps cs j ∧ (j + length ps ≤ k)%nat ∧
         ∀ i, (j < i)%nat → (i + length ps ≤ k)%nat → ¬ occurs ps cs i) ∨
      (r = Iter.end_ ∧ ∀ i, (i + length ps ≤ k)%nat → ¬ occurs ps cs i))) ∧
  (∃ r, StrParts.findLastChar s ch (it s cs k) = Ret r ∧
     ((∃ j, r = it s cs j ∧ cs !! j = Some ch ∧ (j < k)%nat ∧ ∀ i, (j < i < k)%nat → cs !! i ≠ Some ch) ∨
      (r = Iter.end_ ∧ ∀ i, (i < k)%nat → cs !! i ≠ Some ch))).
Proof. intros Hs Hd Hne Hch Hk. split; [by apply findLastStr_it|by apply findLastChar_it]. Qed.

Lemma str_findLast_witness :
  let s := mkStrObj 7 (strData [65; 66; 65; 66; 67]) in
  let cs := [65; 66; 65; 66; 67] in
  (∃ r, StrParts.findLastStr s (strData [65; 66]) (it s cs 5) = Ret r ∧
     ((∃ j, r = it s cs j ∧ occurs [65; 66] cs j ∧ (j + 2 ≤ 5)%nat ∧
         ∀ i, (j < i)%nat → (i + 2 ≤ 5)%nat → ¬ occurs [65; 66] cs i) ∨
      (r = Iter.end_ ∧ ∀ i, (i + 2 ≤ 5)%nat → ¬ occurs [65; 66] cs i))) ∧
  (∃ r, StrParts.findLastChar s 66 (it s cs 5) = Ret r ∧
     ((∃ j, r = it s cs j ∧ cs !! j = Some 66 ∧ (j < 5)%nat ∧ ∀ i, (j < i < 5)%nat → cs !! i ≠ Some 66) ∨
      (r = Iter.end_ ∧ ∀ i, (i < 5)%nat → cs !! i ≠ Some 66))).
Proof.
  apply (str_findLast (mkStrObj 7 (strData [65; 66; 65; 66; 67])) [65; 66; 65; 66; 67] (strData [65; 66]) [65; 66] 66 5);
    [split; [reflexivity| |reflexivity]|split; [reflexivity| |reflexivity]|done| |cbn; lia]; repeat constructor; lia.
Defined.

(** [findLast] of an empty string reads before the start of the array. *)
Example findLast_empty : StrParts.findLastStr (mkStrObj 0 (strData [65])) (strData []) Iter.end_ = Fault.
Proof. reflexivity. Qed.
