(* ===== verification/StrBufCorrect.v ===== *)
(** * String buffers: correctness

    The invariant: the units before [pos] are the text, and all others are zero, so that the
    buffer is always terminated.  Every operation appends what its documentation says, with
    indentation at the start of lines and padding, and never writes outside of the array. *)

From stdpp Require Import base list numbers decidable option strings.
From Stdlib Require Import ZArith Lia.
From S2P Require Import Prelude Utf UtfCorrect ConvertCorrect Buffer BufferCorrect Str StrIter StrBuf StrCorrect StrIterCorrect.
Import StrBuf.

(** ** The invariant *)

Definition cap (b : StrBuf) : Z := match buf b with Some l => zlen l - 1 | None => 0 end.

(** The buffer [b] has the text [u]. *)
Record rep (b : StrBuf) (u : list Z) : Prop := {
  rep_pos : pos b = zlen u;
  rep_buf : match buf b with Some l => ∃ n, l = u ++ replicate (S n) 0 | None => u = [] end;
  rep_cap : cap b ≤ 2 ^ 31;
}.

(** [b'] has the settings of [b]. *)
Definition keeps (b b' : StrBuf) : Prop :=
  indentStr b' = indentStr b ∧ indentation b' = indentation b ∧ fmt b' = fmt b.

(** After a call that made the text [u'] of [b]. *)
Definition became (b : StrBuf) (u' : list Z) (b' : StrBuf) : Prop := rep b' u' ∧ keeps b b' ∧ cap b ≤ cap b'.

Lemma keeps_refl b : keeps b b.
Proof. done. Qed.

Lemma keeps_trans b1 b2 b3 : keeps b1 b2 → keeps b2 b3 → keeps b1 b3.
Proof. unfold keeps. intros (-> & -> & ->) (-> & -> & ->). done. Qed.

Lemma became_refl b u : rep b u → became b u b.
Proof. intros H. split_and!; [done|done|lia]. Qed.

Lemma became_trans b u1 b1 u2 b2 : became b u1 b1 → became b1 u2 b2 → became b u2 b2.
Proof. intros (_ & K1 & C1) (R2 & K2 & C2). split_and!; [done|by eapply keeps_trans|lia]. Qed.

Lemma rep_new : rep new [].
Proof. split; cbn; done || lia. Qed.

Lemma rep_fit b u : rep b u → zlen u ≤ cap b.
Proof.
  intros [Hp Hb _]. unfold cap. destruct (buf b) as [l|]; [|by subst]. destruct Hb as [n ->].
  rewrite zlen_app, zlen_replicate. lia.
Qed.

Lemma stored_eq b u : rep b u → stored b = Ret u.
Proof.
  intros [Hp Hb _]. unfold stored. rewrite Hp. destruct (buf b) as [l|]; [|by subst u].
  destruct Hb as [n ->]. apply unitsAt_prefix.
Qed.

(** [toS] gives the text of the buffer as a string. *)
Lemma toS_eq b u : rep b u → toS b = Ret (strData u).
Proof.
  intros H. pose proof (rep_fit b u H) as Hf. destruct (H) as [Hp _ Hc]. unfold toS. rewrite (stored_eq b u H), Hp.
  cbn [mbind outcome_bind]. rewrite create_eq by lia. cbn [mbind outcome_bind]. by rewrite fromData_eq.
Qed.

Lemma ensure_run b u c : rep b u → zlen u ≤ c ≤ 2 ^ 30 → returns (ensure b c) (λ b', became b u b' ∧ c ≤ cap b').
Proof.
  intros H Hc. pose proof (zlen_nonneg u). pose proof (rep_fit b u H) as Hf. destruct (H) as [Hp Hb Hcap]. unfold ensure.
  assert (match buf b with Some l => u32 (u32 (zlen l) - 1) | None => 0 end = cap b) as ->.
  { unfold cap in *. destruct (buf b) as [l|]; [|done]. rewrite (u32_small (zlen l)), u32_small by (unfold is_u32; lia). done. }
  destruct (Z.leb_spec c (cap b)) as [Hle|Hgt]; [cbn; split; [by apply became_refl|done]|].
  rewrite (u32_small (cap b * 2)) by (unfold is_u32; lia). rewrite (stored_eq b u H). cbn [mbind outcome_bind].
  set (n := Z.max _ 16). assert (c ≤ n ≤ 2 ^ 31) by (unfold n; lia). rewrite u32_small by (unfold is_u32; lia).
  rewrite (proj2 (Z.leb_le _ _)) by lia. cbn [returns].
  assert (Ecap : cap (setBuf b (Some (u ++ replicate (Z.to_nat (n + 1 - zlen u)) 0)) (pos b)) = n).
  { unfold cap, setBuf. cbn [buf]. rewrite zlen_app, zlen_replicate. lia. }
  split; [|lia]. split_and!; [split|done|lia].
  - done.
  - cbn [setBuf buf]. exists (Z.to_nat (n - zlen u)). do 2 f_equal. lia.
  - lia.
Qed.

Lemma putUnit_run b u x : rep b u → zlen u < cap b → returns (putUnit b x) (λ b', became b (u ++ [x]) b' ∧ cap b' = cap b).
Proof.
  intros [Hp Hb Hc] Hlt. pose proof (zlen_nonneg u). unfold putUnit. destruct (buf b) as [l|] eqn:E;
    [|unfold cap in Hlt; rewrite E in Hlt; lia].
  destruct Hb as [n ->]. assert (Eb : cap b = zlen u + Z.of_nat n) by (unfold cap; rewrite E, zlen_app, zlen_replicate; lia).
  rewrite Hp, aset_in by (rewrite zlen_app, zlen_replicate; lia). cbn [mbind outcome_bind returns].
  assert (El : <[zlen u := x]> (u ++ replicate (S n) 0) = (u ++ [x]) ++ replicate n 0).
  { unfold insert, list_insertZ. rewrite decide_True by lia. unfold zlen. rewrite Nat2Z.id, insert_app_r_alt, Nat.sub_diag by lia.
    by rewrite <- app_assoc. }
  rewrite El. destruct n as [|n]; [lia|].
  assert (Ecap : cap (setBuf b (Some ((u ++ [x]) ++ replicate (S n) 0)) (u32 (zlen u + 1))) = cap b).
  { unfold cap at 1. cbn [setBuf buf]. rewrite !zlen_app, zlen_replicate, Eb. change (zlen [x]) with 1. lia. }
  split; [|done]. split_and!; [split|done|lia].
  - cbn [setBuf pos]. rewrite zlen_app, u32_small by (unfold is_u32; lia). done.
  - cbn [setBuf buf]. by exists n.
  - lia.
Qed.

(** A loop whose rounds append [g j]. *)
Lemma for_append (f : Z → StrBuf → outcome StrBuf) (g : Z → list Z) m i b u :
  (∀ j b' u', i ≤ j < i + Z.of_nat m → keeps b b' → rep b' u' → zlen u' + zlen (g j) ≤ cap b' →
     returns (f j b') (λ b'', became b' (u' ++ g j) b'' ∧ cap b'' = cap b')) →
  rep b u → zlen u + zlen (concat (g <$> seqZ i (Z.of_nat m))) ≤ cap b →
  returns (for_loop m i f b) (λ b', became b (u ++ concat (g <$> seqZ i (Z.of_nat m))) b' ∧ cap b' = cap b).
Proof.
  revert i b u. induction m as [|m IH]; intros i b u Hf Hr Hc.
  { cbn [for_loop returns]. rewrite seqZ_nil by lia. cbn. rewrite app_nil_r. split; [by apply became_refl|done]. }
  rewrite seqZ_cons in * by lia. cbn [fmap list_fmap concat] in *. rewrite zlen_app in Hc.
  replace (Z.succ i) with (i + 1) in * by lia. replace (Z.pred (Z.of_nat (S m))) with (Z.of_nat m) in * by lia.
  pose proof (zlen_nonneg (concat (g <$> seqZ (i + 1) (Z.of_nat m)))). cbn [for_loop].
  eapply returns_bind; [apply (Hf i b u); [lia|done|done|lia]|]. intros b1 [B1 C1]. destruct (B1) as (R1 & K1 & _).
  eapply returns_mono; [apply (IH (i + 1) b1 (u ++ g i)); [|done|rewrite zlen_app; lia]|].
  - intros j b' u' Hj K. apply Hf; [lia|by eapply keeps_trans].
  - cbn beta. intros b2 [B2 C2]. rewrite <- app_assoc in B2. split; [by eapply became_trans|lia].
Qed.

(** ** Indentation and fill *)

Definition lastNl (u : list Z) : bool := match last u with Some c => c =? Ch.nl | None => true end.

Lemma lastNewline_eq b u : rep b u → lastNewline b = Ret (lastNl u).
Proof.
  intros [Hp Hb _]. unfold lastNewline, lastNl. rewrite Hp. destruct u as [|x u _] using rev_ind; [done|].
  rewrite last_snoc, zlen_app. pose proof (zlen_nonneg u). change (zlen [x]) with 1. rewrite (proj2 (Z.eqb_neq _ _)) by lia.
  destruct (buf b) as [l|]; [|by destruct u]. destruct Hb as [n ->].
  rewrite (aget_Some _ _ x); [done|]. replace (zlen u + 1 - 1) with (zlen u) by lia. unfold zlen. rewrite lookupZ_nat, <- app_assoc.
  by apply list_lookup_middle.
Qed.

(** The indentation of a buffer: [k] times the units [w]. *)
Record indents (b : StrBuf) (w : list Z) (k : nat) : Prop := {
  ind_str : units (indentStr b) = w ++ [0];
  ind_count : indentation b = Z.of_nat k;
  ind_size : zlen w < 2 ^ 30;
}.

Definition ind (w : list Z) (k : nat) : list Z := concat (replicate k w).

Lemma zlen_ind w k : zlen (ind w k) = zlen w * Z.of_nat k.
Proof. unfold ind. induction k as [|k IH]; [rewrite Z.mul_0_r; done|]. cbn [replicate concat]. rewrite zlen_app, IH. lia. Qed.

Lemma indents_keeps b b' w k : keeps b b' → indents b w k → indents b' w k.
Proof. intros (E1 & E2 & _) [H1 H2 H3]. split; congruence || done. Qed.

Lemma indentLen_eq b w k : indents b w k → indentLen b = zlen w.
Proof.
  intros [H1 _ H3]. unfold indentLen, Str.charCount, scount. rewrite H1, zlen_term. pose proof (zlen_nonneg w).
  rewrite u32_small by (unfold is_u32; lia). lia.
Qed.

Lemma seqZ_const {A} (x : list A) i n : concat ((λ _ : Z, x) <$> seqZ i (Z.of_nat n)) = concat (replicate n x).
Proof.
  revert i. induction n as [|n IH]; intros i; [done|]. rewrite seqZ_cons by lia. cbn [fmap list_fmap concat replicate].
  f_equal. replace (Z.pred (Z.of_nat (S n))) with (Z.of_nat n) by lia. apply IH.
Qed.

Lemma seqZ_lookup (w : list Z) :
  concat ((λ j, match w !! j with Some c => [c] | None => [] end) <$> seqZ 0 (zlen w)) = w.
Proof.
  induction w as [|x w IH] using rev_ind; [done|]. rewrite zlen_app. change (zlen [x]) with 1. pose proof (zlen_nonneg w).
  rewrite seqZ_app, fmap_app, concat_app by lia. f_equal.
  - rewrite <- IH at 2. f_equal. apply list_fmap_ext. intros i j Hj. apply list_elem_of_lookup_2, elem_of_seqZ in Hj.
    rewrite !lookupZ_to_nat by lia. rewrite lookup_app_l; [done|]. unfold zlen in Hj. lia.
  - rewrite Z.add_0_l, seqZ_cons, seqZ_nil by lia. cbn. unfold zlen. rewrite lookupZ_nat, list_lookup_middle by done. done.
Qed.

(** The text after [insertIndent]. *)
Definition indented (i u : list Z) : list Z := if lastNl u then u ++ i else u.

Lemma insertIndent_run b u w k : rep b u → indents b w k → zlen u + zlen (ind w k) ≤ 2 ^ 30 →
  returns (insertIndent b) (λ b', became b (indented (ind w k) u) b').
Proof.
  intros Hr Hi Hz. unfold insertIndent. rewrite (lastNewline_eq b u Hr). cbn [mbind outcome_bind]. unfold indented.
  destruct (lastNl u); cbn [negb]; [|by apply became_refl]. rewrite (indentLen_eq b w k Hi), (ind_count b w k Hi).
  pose proof (zlen_nonneg u). pose proof (zlen_nonneg (ind w k)). rewrite zlen_ind in *. destruct (Hr) as [Hp _ _]. rewrite Hp.
  rewrite (u32_small (zlen w * _)), u32_small by (unfold is_u32; lia).
  eapply returns_bind; [apply (ensure_run b u); [done|lia]|]. intros b1 [B1 C1]. destruct (B1) as (R1 & K1 & _).
  pose proof (indents_keeps b b1 w k K1 Hi) as Hi1. rewrite (ind_count b1 w k Hi1), Nat2Z.id.
  eapply returns_mono; [apply (for_append _ (λ _, w) k 0 b1 u); [|done|]|].
  - intros j b2 u2 _ K2 R2 C2. set (g := λ j : Z, match w !! j with Some c => [c] | None => [] end).
    assert (Eg : concat (g <$> seqZ 0 (Z.of_nat (length w))) = w) by apply seqZ_lookup.
    replace (Z.to_nat (zlen w)) with (length w) by (unfold zlen; lia).
    eapply returns_mono; [apply (for_append _ g (length w) 0 b2 u2); [|done|by rewrite Eg]|by rewrite Eg].
    intros i b3 u3 Hi3 K3 R3 C3. pose proof (indents_keeps _ b3 w k (keeps_trans _ _ _ K2 K3) Hi1) as [I3 _ _]. rewrite I3.
    destruct (lookupZ_lt_Some w i) as [c Hc]; [unfold zlen; lia|]. unfold g in *. rewrite Hc in *.
    rewrite (aget_Some _ _ c). 2:{ rewrite lookupZ_to_nat in * by lia. by apply lookup_app_l_Some. }
    cbn [mbind outcome_bind]. apply putUnit_run; [done|]. change (zlen [c]) with 1 in C3. lia.
  - rewrite seqZ_const. fold (ind w k). rewrite zlen_ind. lia.
  - cbn beta. rewrite seqZ_const. intros b2 [B2 _]. by eapply became_trans.
Qed.

(** The units of the fill character, and what [fill] adds. *)
Definition padUnit (c : Z) : list Z := if Char.leading c =? 0 then [Char.trailing c] else [Char.leading c; Char.trailing c].
Definition pad (f : StrFmt.StrFmt) (n : Z) : list Z :=
  concat (replicate (Z.to_nat (StrFmt.width f - n)) (padUnit (StrFmt.fill f))).

Lemma zlen_concat_replicate (x : list Z) n : zlen (concat (replicate n x)) = zlen x * Z.of_nat n.
Proof. apply (zlen_ind x n). Qed.

Lemma fillWith_run rev b u n : rep b u → is_u32 (StrFmt.width (fmt b)) → 0 ≤ n → zlen u + zlen (pad (fmt b) n) ≤ 2 ^ 30 →
  returns (fillWith rev b n) (λ b', became b (u ++ concat (replicate (Z.to_nat (StrFmt.width (fmt b) - n))
    (if rev then list.reverse (padUnit (StrFmt.fill (fmt b))) else padUnit (StrFmt.fill (fmt b))))) b').
Proof.
  intros Hr Hw Hn Hz. unfold fillWith. set (f := fmt b) in *. destruct (Z.leb_spec (StrFmt.width f) n) as [Hle|Hgt].
  { replace (Z.to_nat (StrFmt.width f - n)) with 0%nat by lia. cbn. rewrite app_nil_r. by apply became_refl. }
  pose proof (zlen_nonneg u). unfold is_u32 in Hw. rewrite (u32_small (StrFmt.width f - n)) by (unfold is_u32; lia).
  unfold pad in Hz. rewrite zlen_concat_replicate in Hz. destruct (Hr) as [Hp _ _]. rewrite Hp.
  set (c := StrFmt.fill f) in *. set (m := StrFmt.width f - n) in *.
  set (x := if rev then list.reverse (padUnit c) else padUnit c).
  assert (Hx : zlen x = zlen (padUnit c)) by (unfold x; destruct rev; [unfold zlen; by rewrite length_reverse|done]).
  assert (Hm : (if negb (Char.leading c =? 0) then u32 (m * 2) else m) = zlen x * m).
  { rewrite Hx in *. unfold padUnit in *. destruct (Char.leading c =? 0); cbn [negb].
    - change (zlen [Char.trailing c]) with 1. lia.
    - change (zlen [Char.leading c; Char.trailing c]) with 2 in *. rewrite u32_small by (unfold is_u32; lia). lia. }
  rewrite Hm. rewrite Z2Nat.id in Hz by lia. rewrite <- Hx in Hz.
  assert (0 ≤ zlen x * m) by (pose proof (zlen_nonneg x); nia). rewrite u32_small by (unfold is_u32; lia).
  eapply returns_bind; [apply (ensure_run b u); [done|lia]|]. intros b1 [B1 C1]. destruct (B1) as (R1 & K1 & _).
  eapply returns_mono; [apply (for_append _ (λ _, x) (Z.to_nat m) 0 b1 u); [|done|]|].
  - intros j b2 u2 _ _ R2 C2. unfold x, padUnit in C2 |- *.
    destruct (Char.leading c =? 0) eqn:El, rev; cbn [negb list.reverse rev_append] in *.
    1: eapply returns_bind; [apply (putUnit_run b2 u2); [done|change (zlen [_]) with 1 in C2; lia]|intros b3 H3; exact H3].
    1: cbn [mbind outcome_bind]; apply putUnit_run; [done|change (zlen [_]) with 1 in C2; lia].
    all: change (zlen [_; _]) with 2 in C2;
      (eapply returns_bind; [apply (putUnit_run b2 u2); [done|lia]|]); intros b3 [B3 C3]; destruct (B3) as (R3 & _ & _);
      (eapply returns_mono; [apply (putUnit_run b3 _ _ R3); rewrite zlen_app; change (zlen [_]) with 1; lia|]);
      cbn beta; intros b4 [B4 C4]; rewrite <- app_assoc in B4; (split; [by eapply became_trans|lia]).
  - rewrite seqZ_const, zlen_concat_replicate, Z2Nat.id by lia. lia.
  - cbn beta. rewrite seqZ_const. intros b2 [B2 _]. by eapply became_trans.
Qed.

(** ** Text *)

(** The text [u] with the units [xs] behind it, and the indentation [i] at the start of
    lines. *)
Fixpoint render (i u xs : list Z) : list Z :=
  match xs with [] => u | c :: xs => render i (indented i u ++ [c]) xs end.

Lemma lastNl_snoc u c : lastNl (u ++ [c]) = (c =? Ch.nl).
Proof. unfold lastNl. by rewrite last_snoc. Qed.

Lemma render_nil u xs : render [] u xs = u ++ xs.
Proof.
  revert u. induction xs as [|c xs IH]; intros u; [by rewrite app_nil_r|]. cbn [render].
  rewrite IH. unfold indented. destruct (lastNl u); by rewrite ?app_nil_r, <- app_assoc.
Qed.

Lemma zlen_indented i u : zlen (indented i u) = zlen u + if lastNl u then zlen i else 0.
Proof. unfold indented. destruct (lastNl u); [apply zlen_app|lia]. Qed.

Lemma render_mono i u xs : zlen u ≤ zlen (render i u xs).
Proof.
  revert u. induction xs as [|c xs IH]; intros u; cbn [render]; [lia|]. etrans; [|apply IH].
  rewrite zlen_app, zlen_indented. change (zlen [c]) with 1. pose proof (zlen_nonneg i). destruct (lastNl u); lia.
Qed.

Lemma render_ge i u xs : zlen u + zlen xs ≤ zlen (render i u xs).
Proof.
  revert u. induction xs as [|c xs IH]; intros u; cbn [render]; [unfold zlen; cbn [length]; lia|]. etrans; [|apply IH].
  rewrite zlen_cons, zlen_app, zlen_indented. change (zlen [c]) with 1. pose proof (zlen_nonneg i). destruct (lastNl u); lia.
Qed.

(** The length of the text, when a line starts before it or not. *)
Lemma render_length i xs : ∀ u u', lastNl u = lastNl u' → zlen (render i u xs) - zlen u = zlen (render i u' xs) - zlen u'.
Proof.
  induction xs as [|c xs IH]; intros u u' E; cbn [render]; [lia|].
  assert (E2 : lastNl (indented i u ++ [c]) = lastNl (indented i u' ++ [c])) by (by rewrite !lastNl_snoc).
  specialize (IH _ _ E2). rewrite !zlen_app, !zlen_indented, E in IH. change (zlen [c]) with 1 in IH. lia.
Qed.

(** [measure] computes enough. *)
Lemma measure_eq xs r i : ∀ len points, plain xs → 0 ≤ len → 0 ≤ points → points + zlen xs < 2 ^ 32 →
  len + (zlen (render i [1] xs) - 1) ≤ 2 ^ 31 →
  measure (xs ++ 0 :: r) (zlen i) len points =
    Ret (len + (zlen (render i [1] xs) - 1), points + (zlen xs - Str.leadings xs)).
Proof.
  induction xs as [|c xs IH]; intros len points Hp Hl Hpt Hb Hz.
  { cbn [measure app render Str.leadings]. f_equal. unfold zlen. cbn [length]. f_equal; lia. }
  cbn [measure app]. rewrite (plain_nonzero c xs Hp). apply Forall_cons_1 in Hp as [Hc Hp].
  pose proof (zlen_nonneg i). pose proof (render_mono i [1] xs) as Hm. change (zlen [1]) with 1 in Hm.
  rewrite zlen_cons in Hb. pose proof (zlen_nonneg xs).
  assert (Er : zlen (render i [1] (c :: xs)) = zlen (render i [1] xs) + 1 + if (c =? Ch.nl) && negb (bool_decide (xs = [])) then zlen i else 0).
  { cbn [render]. unfold indented. change (lastNl [1]) with false. cbn [app].
    destruct (Z.eqb_spec c Ch.nl) as [->|Hn]; cbn [andb].
    - destruct xs as [|y ys]; [cbn; unfold zlen; cbn; lia|]. rewrite bool_decide_eq_false_2 by done. cbn [negb render].
      unfold indented. change (lastNl [1; Ch.nl]) with true. change (lastNl [1]) with false. cbv iota.
      pose proof (render_length i ys (([1; Ch.nl] ++ i) ++ [y]) ([1] ++ [y])) as E.
      rewrite !lastNl_snoc in E. specialize (E eq_refl).
      rewrite !zlen_app in E. change (zlen [1; Ch.nl]) with 2 in E. change (zlen [1]) with 1 in E. change (zlen [y]) with 1 in E. lia.
    - pose proof (render_length i xs [1; c] [1]) as E. unfold lastNl in E. cbn in E.
      rewrite (proj2 (Z.eqb_neq c Ch.nl)) in E by done. specialize (E eq_refl).
      change (zlen [1; c]) with 2 in E. change (zlen [1]) with 1 in E. cbn [render] in *. lia. }
  rewrite Er in Hz |- *. clear Er.
  assert (El : (if c =? Ch.nl then n ← aget (xs ++ 0 :: r) 0; Ret (if negb (n =? 0) then u32 (len + zlen i) else len) else Ret len) =
    Ret (len + if (c =? Ch.nl) && negb (bool_decide (xs = [])) then zlen i else 0)).
  { destruct (c =? Ch.nl); cbn [andb]; [|f_equal; lia]. destruct xs as [|y ys].
    - rewrite bool_decide_eq_true_2, (aget_Some _ _ 0) by done. cbn [mbind outcome_bind]. rewrite Z.eqb_refl. cbn [negb].
      f_equal. lia.
    - rewrite bool_decide_eq_false_2, (aget_Some _ _ y) in * by done. cbn [negb andb mbind outcome_bind] in *.
      rewrite (plain_nonzero y ys Hp). cbn [negb]. rewrite u32_small; [done|]. unfold is_u32. lia. }
  rewrite El. cbn [mbind outcome_bind]. clear El. set (e := if (c =? Ch.nl) && _ then zlen i else 0) in *.
  assert (0 ≤ e) by (unfold e; destruct ((c =? Ch.nl) && _); lia).
  rewrite (u32_small (len + e + 1)) by (unfold is_u32; lia).
  rewrite IH; [|done|lia| | |lia].
  - cbn [Str.leadings]. rewrite zlen_cons. f_equal. f_equal; [lia|].
    destruct (utf16.leading c); cbn [negb]; [lia|]. rewrite u32_small by (unfold is_u32; lia). lia.
  - destruct (utf16.leading c); cbn [negb]; [done|]. apply u32_range.
  - destruct (utf16.leading c); cbn [negb]; [lia|]. rewrite u32_small by (unfold is_u32; lia). lia.
Qed.

Lemma copyLoop_run xs r w k : ∀ b u, plain xs → rep b u → indents b w k → zlen (render (ind w k) u xs) ≤ cap b →
  zlen (render (ind w k) u xs) ≤ 2 ^ 30 →
  returns (copyLoop (xs ++ 0 :: r) b) (became b (render (ind w k) u xs)).
Proof.
  induction xs as [|c xs IH]; intros b u Hp Hr Hi Hc Hz; [by apply became_refl|].
  cbn [copyLoop app render] in *. rewrite (plain_nonzero c xs Hp). apply Forall_cons_1 in Hp as [_ Hp].
  pose proof (render_mono (ind w k) (indented (ind w k) u ++ [c]) xs) as Hm. rewrite zlen_app in Hm. change (zlen [c]) with 1 in Hm.
  pose proof (zlen_nonneg (ind w k)).
  assert (Hii : returns (insertIndent b) (became b (indented (ind w k) u))).
  { destruct (lastNl u) eqn:E.
    - apply insertIndent_run; [done|done|]. rewrite zlen_indented, E in Hm. lia.
    - unfold insertIndent. rewrite (lastNewline_eq b u Hr), E. unfold indented. rewrite E. by apply became_refl. }
  eapply returns_bind; [exact Hii|]. intros b1 B1. destruct (B1) as (R1 & K1 & C1).
  eapply returns_bind; [apply (putUnit_run b1 _ c R1); lia|]. intros b2 [B2 C2]. destruct (B2) as (R2 & K2 & _).
  eapply returns_mono; [apply (IH b2 _ Hp R2); [|lia|done]|].
  - eapply indents_keeps; [|exact Hi]. by eapply keeps_trans.
  - cbn beta. intros b3 B3. eapply became_trans; [exact B1|]. by eapply became_trans.
Qed.

(** The text that [add] makes of the text [u]: indentation, fill on the left, the units with
    indentation, and fill on the right. *)
Definition added (f : StrFmt.StrFmt) (i u xs : list Z) : list Z :=
  let n := zlen xs - Str.leadings xs in
  let u := indented i u in
  let u := if StrFmt.isRight f then u ++ pad f n else u in
  let u := render i u xs in
  if StrFmt.isLeft f then u ++ pad f n else u.

(** Line breaks in the indentation or as the fill character are not accounted for. *)
Definition oneLine (f : StrFmt.StrFmt) (w : list Z) : Prop :=
  (Ch.nl ∉ w) ∧ (Ch.nl ∉ padUnit (StrFmt.fill f)).

Lemma last_elem (u : list Z) c : last u = Some c → c ∈ u.
Proof. intros H. apply last_Some in H as [l ->]. apply elem_of_app. right. by apply list_elem_of_singleton. Qed.

(** After indentation and fill, only an empty indentation can follow a line break. *)
Lemma lastNl_indented f w k u n : oneLine f w →
  let u2 := if StrFmt.isRight f then indented (ind w k) u ++ pad f n else indented (ind w k) u in
  lastNl u2 = true → ind w k = [].
Proof.
  intros [Hw Hf] u2 H. destruct (ind w k) as [|c i _] eqn:Ei using rev_ind; [done|]. exfalso.
  assert (Hc : c ∈ w).
  { assert (c ∈ ind w k) as Hc by (rewrite Ei; apply elem_of_app; right; by apply list_elem_of_singleton).
    unfold ind in Hc. apply list_elem_of_In, in_concat in Hc as (x & Hx & Hc). apply list_elem_of_In in Hx, Hc.
    apply elem_of_replicate in Hx as [-> _]. done. }
  assert (H1 : lastNl (indented (i ++ [c]) u) = false).
  { unfold indented. destruct (lastNl u) eqn:E; [|done]. rewrite app_assoc, lastNl_snoc. apply Z.eqb_neq. by intros ->. }
  unfold u2 in H. destruct (StrFmt.isRight f); [|congruence].
  destruct (pad f n) as [|y p _] eqn:Ep using rev_ind; [rewrite app_nil_r in H; congruence|].
  rewrite app_assoc, lastNl_snoc in H. apply Z.eqb_eq in H as ->.
  assert (Ch.nl ∈ pad f n) as Hy by (rewrite Ep; apply elem_of_app; right; by apply list_elem_of_singleton).
  unfold pad in Hy. apply list_elem_of_In, in_concat in Hy as (x & Hx & Hy). apply list_elem_of_In in Hx, Hy.
  apply elem_of_replicate in Hx as [-> _]. done.
Qed.

Lemma addCStr_run b u w k xs r : rep b u → indents b w k → plain xs → is_u32 (StrFmt.width (fmt b)) → oneLine (fmt b) w →
  zlen (added (fmt b) (ind w k) u xs) + zlen (ind w k) ≤ 2 ^ 30 →
  returns (addCStr b (xs ++ 0 :: r)) (λ b', rep b' (added (fmt b) (ind w k) u xs) ∧ indents b' w k ∧
    fmt b' = StrFmt.reset (fmt b)).
Proof.
  intros Hr Hi Hp Hw Ho Hz. pose proof (zlen_nonneg u). pose proof (zlen_nonneg (ind w k)). unfold addCStr.
  rewrite (indentLen_eq b w k Hi), (ind_count b w k Hi), (lastNewline_eq b u Hr). cbn [mbind outcome_bind].
  unfold added in *. set (f := fmt b) in *. set (n := zlen xs - Str.leadings xs) in *. cbv zeta in *. set (i := ind w k) in *.
  set (u1 := indented i u) in *. set (u2 := if StrFmt.isRight f then u1 ++ pad f n else u1) in *. set (u3 := render i u2 xs) in *.
  assert (Hn : 0 ≤ n) by (unfold n; pose proof (leadings_le xs); lia).
  pose proof (zlen_nonneg (pad f n)). pose proof (leadings_nonneg xs).
  assert (L1 : zlen u ≤ zlen u1) by (unfold u1; rewrite zlen_indented; destruct (lastNl u); lia).
  assert (L2 : zlen u1 ≤ zlen u2 ∧ (StrFmt.isRight f = true → zlen u1 + zlen (pad f n) ≤ zlen u2)).
  { unfold u2. destruct (StrFmt.isRight f); [rewrite zlen_app|]; split; lia || done. }
  pose proof (render_mono i u2 xs) as L3. fold u3 in L3.
  assert (L4 : zlen u3 + zlen i ≤ 2 ^ 30) by (destruct (StrFmt.isLeft f); [rewrite zlen_app in Hz|]; lia).
  pose proof (render_mono i [1] xs) as Hm. change (zlen [1]) with 1 in Hm.
  (* The length of the text behind the fill. *)
  assert (Hlen : zlen u3 - zlen u2 = zlen (render i [1] xs) - 1).
  { destruct (lastNl u2) eqn:E.
    - pose proof (lastNl_indented f w k u n Ho E) as Hi0. fold i in Hi0. unfold u3. rewrite Hi0, !render_nil, !zlen_app.
      change (zlen [1]) with 1. lia.
    - pose proof (render_length i xs u2 [1]) as E2. rewrite E in E2. specialize (E2 eq_refl). change (zlen [1]) with 1 in E2.
      unfold u3. lia. }
  assert (Hx : zlen xs ≤ zlen (render i [1] xs) - 1).
  { pose proof (render_ge i [1] xs) as G. change (zlen [1]) with 1 in G. lia. }
  rewrite <- zlen_ind. fold i. rewrite (u32_small (zlen i)) by (unfold is_u32; lia).
  set (l0 := if lastNl u then zlen i else 0). assert (0 ≤ l0 ≤ zlen i) by (unfold l0; destruct (lastNl u); lia).
  rewrite measure_eq by (done || lia). cbn [mbind outcome_bind]. rewrite Z.add_0_l. fold n.
  eapply returns_bind; [apply (insertIndent_run b u w k Hr Hi); fold i; lia|]. intros b1 B1. destruct (B1) as (R1 & K1 & _). fold i u1 in R1, B1.
  destruct (K1) as (_ & _ & F1).
  assert (Hf2 : returns (if StrFmt.isRight (fmt b1) then fill b1 n else Ret b1) (became b1 u2)).
  { rewrite F1. fold f. unfold u2. destruct (StrFmt.isRight f); [|by apply became_refl].
    eapply returns_mono; [apply (fillWith_run false b1 u1 n R1); rewrite ?F1; fold f; try done; destruct L2 as [_ L2]; specialize (L2 eq_refl); lia|].
    cbn beta. rewrite F1. done. }
  eapply returns_bind; [exact Hf2|]. intros b2 B2. destruct (B2) as (R2 & K2 & _). destruct (R2) as [P2 _ _]. rewrite P2.
  rewrite u32_small by (unfold is_u32; lia).
  eapply returns_bind; [apply (ensure_run b2 u2 _ R2); lia|]. intros b3 [B3 C3]. destruct (B3) as (R3 & K3 & _).
  assert (K13 : keeps b b3) by (eapply keeps_trans; [exact K1|]; by eapply keeps_trans).
  eapply returns_bind; [apply (copyLoop_run xs r w k b3 u2 Hp R3); [by eapply indents_keeps|fold i u3; lia|fold i u3; lia]|].
  intros b4 B4. destruct (B4) as (R4 & K4 & _). fold i u3 in R4. pose proof (keeps_trans _ _ _ K13 K4) as K14. destruct (K14) as (_ & _ & F4).
  assert (H5 : returns (if StrFmt.isLeft (fmt b4) then fill b4 n else Ret b4) (became b4 (if StrFmt.isLeft f then u3 ++ pad f n else u3))).
  { rewrite F4. fold f. destruct (StrFmt.isLeft f); [|by apply became_refl]. rewrite zlen_app in Hz.
    eapply returns_mono; [apply (fillWith_run false b4 u3 n R4); rewrite ?F4; fold f; try done; lia|]. cbn beta. rewrite F4. done. }
  eapply returns_bind; [exact H5|]. intros b5 B5. destruct (B5) as ([P5 Q5 C5] & K5 & _).
  pose proof (keeps_trans _ _ _ K14 K5) as K15. cbn [returns]. split_and!.
  - by split.
  - eapply indents_keeps in K15; [|exact Hi]. destruct K15. by split.
  - destruct K15 as (_ & _ & F5). cbn [setFmt fmt]. by rewrite F5.
Qed.

(** C27: Every [add] of text keeps the invariant and makes exactly the documented text: the
    indentation at the start of every line, the fill characters on the side the alignment
    says, counted in characters and not in code units, and the width is reset. *)
Theorem strbuf_add b u w k xs : rep b u → indents b w k → plain xs → is_u32 (StrFmt.width (fmt b)) → oneLine (fmt b) w →
  zlen (added (fmt b) (ind w k) u xs) + zlen (ind w k) ≤ 2 ^ 30 →
  ∃ b', addStr b (strData xs) = Ret b' ∧ rep b' (added (fmt b) (ind w k) u xs) ∧ indents b' w k ∧
    fmt b' = StrFmt.reset (fmt b) ∧ toS b' = Ret (strData (added (fmt b) (ind w k) u xs)).
Proof.
  intros Hr Hi Hp Hw Ho Hz. destruct (proj1 (returns_exists _ _) (addCStr_run b u w k xs [] Hr Hi Hp Hw Ho Hz)) as (b' & E & R & I & F).
  exists b'. split_and!; try done. by apply toS_eq.
Qed.

(** Two lines, indented by two units, in a column of six. *)
Lemma strbuf_add_witness :
  let b := addFmt (indent (indentBy new (strData [46; 46]))) (StrFmt.leftWidth 6) in
  ∃ b', addStr b (strData [97; 10; 98]) = Ret b' ∧ rep b' [46; 46; 97; 10; 46; 46; 98; 32; 32; 32] ∧ indents b' [46; 46] 1 ∧
    fmt b' = StrFmt.reset (fmt b) ∧ toS b' = Ret (strData [46; 46; 97; 10; 46; 46; 98; 32; 32; 32]).
Proof.
  apply (strbuf_add (addFmt (indent (indentBy new (strData [46; 46]))) (StrFmt.leftWidth 6)) [] [46; 46] 1 [97; 10; 98]).
  - split; cbn; done || lia.
  - split; [reflexivity|reflexivity|vm_compute; reflexivity].
  - repeat constructor; lia.
  - unfold is_u32. cbn. lia.
  - split; rewrite list_elem_of_In; cbn; intros H; repeat destruct H as [H|H]; done.
  - vm_compute. discriminate.
Defined.

(** ** Buffers without formatting *)

(** A buffer as [new] makes them, with the text [u]. *)
Record simple (b : StrBuf) (u : list Z) : Prop := {
  simple_rep : rep b u;
  simple_indent : indents b [Ch.space; Ch.space; Ch.space; Ch.space] 0;
  simple_width : StrFmt.width (fmt b) = 0;
  simple_fill : StrFmt.fill (fmt b) = Ch.space;
}.

Lemma simple_new : simple new [].
Proof. split; [apply rep_new|split; [done|done|vm_compute; reflexivity]|done|done]. Qed.

Lemma pad_none f n : StrFmt.width f = 0 → 0 ≤ n → pad f n = [].
Proof. intros Hw Hn. unfold pad. by replace (Z.to_nat (StrFmt.width f - n)) with 0%nat by lia. Qed.

Lemma added_simple f u xs : StrFmt.width f = 0 → added f [] u xs = u ++ xs.
Proof.
  intros Hw. pose proof (leadings_le xs). unfold added. rewrite pad_none by (done || lia).
  unfold indented. rewrite !app_nil_r, render_nil. destruct (StrFmt.isLeft f), (StrFmt.isRight f), (lastNl u); by rewrite ?app_nil_r.
Qed.

Lemma oneLine_simple f : StrFmt.fill f = Ch.space → oneLine f [Ch.space; Ch.space; Ch.space; Ch.space].
Proof. intros H. split; rewrite ?H, list_elem_of_In; cbn; intros E; repeat destruct E as [E|E]; done. Qed.

Lemma simple_addCStr b u xs r : simple b u → plain xs → zlen u + zlen xs ≤ 2 ^ 30 →
  returns (addCStr b (xs ++ 0 :: r)) (λ b', simple b' (u ++ xs)).
Proof.
  intros [Hr Hi Hw Hf] Hp Hz. pose proof (addCStr_run b u _ 0 xs r Hr Hi Hp) as H. change (ind _ 0) with (@nil Z) in H.
  rewrite added_simple in H by done. eapply returns_mono; [apply H|].
  - rewrite Hw. done.
  - by apply oneLine_simple.
  - rewrite zlen_app. change (zlen []) with 0. lia.
  - cbn beta. intros b' (R & I & F). split; [done|done|by rewrite F|by rewrite F].
Qed.

Lemma simple_addChar b u c : simple b u → char c → zlen u + 2 ≤ 2 ^ 30 →
  returns (addChar b c) (λ b', simple b' (u ++ enc16 c)).
Proof.
  intros Hs Hc Hz. pose proof (units16_plain [c] ltac:(by constructor)) as Hp. rewrite units16_cons, app_nil_r in Hp.
  revert Hp. unfold addChar. destruct (enc16_char c Hc) as [l t _ _ _ Hl Ht _ El Et _|_ _ Hc' El Et]; intros Hp; rewrite El, Et.
  - rewrite (proj2 (Z.eqb_neq l 0)) by lia. cbn [negb]. apply (simple_addCStr b u [l; t] []); done.
  - apply (simple_addCStr b u [c] []); [done|done|]. change (zlen [c]) with 1. lia.
Qed.

Lemma simple_addRaw b u c : simple b u → zlen u + 1 ≤ 2 ^ 30 → returns (addRaw b c) (λ b', simple b' (u ++ [c])).
Proof.
  intros [Hr Hi Hw Hf] Hz. pose proof (zlen_nonneg u). unfold addRaw. destruct (Hr) as [Hp _ _]. rewrite Hp.
  rewrite u32_small by (unfold is_u32; lia). eapply returns_bind; [apply (ensure_run b u _ Hr); lia|].
  intros b1 [B1 C1]. destruct (B1) as (R1 & K1 & _). eapply returns_mono; [apply (putUnit_run b1 u c R1); lia|].
  cbn beta. intros b2 [(R2 & K2 & _) _]. destruct (keeps_trans _ _ _ K1 K2) as (E1 & E2 & E3).
  split; [done| |by rewrite E3|by rewrite E3]. apply (indents_keeps b b2); done.
Qed.
