(* ===== verification/StrNumber.v ===== *)
(** * Numbers from strings

    [toInt] and its variants of [Core/Str.cpp], and their correctness: numbers that are
    written to a string buffer are read back. *)

From stdpp Require Import base list numbers decidable option strings.
From Stdlib Require Import ZArith Lia.
From S2P Require Import Prelude Utf UtfCorrect ConvertCorrect Buffer BufferCorrect Stream Str StrIter StrBuf StrCorrect StrIterCorrect StrBufCorrect.

(** * Numbers in strings

    [toInt], [toNat], [toLong] and [toWord] of [Core/Str.cpp], which call [wcstol] and its
    relatives of the C library on a copy of at most 50 units.  Which characters are white
    space depends on the locale, so [iswspace] is a parameter. *)

Module StrNumber.
Section number.
Context (iswspace : Z → bool).

(** [for (nat i = 0; i < maxlen && v[i]; i++) data[i] = v[i];] *)
Fixpoint wrapData (maxlen : nat) (v : list Z) : outcome (list Z) :=
  match maxlen with
  | O => Ret []
  | S maxlen =>
      match v with
      | [] => Fault
      | c :: v => if c =? 0 then Ret [] else r ← wrapData maxlen v; Ret (c :: r)
      end
  end.

(** The digits at the start: their value, and how many they are. *)
Fixpoint digitsOf (s : list Z) (r n : Z) : Z * Z :=
  match s with
  | c :: s' => if Str.isDigit c then digitsOf s' (r * 10 + (c - Ch.zero)) (n + 1) else (r, n)
  | [] => (r, n)
  end.

(** The subject of [wcstol] and its relatives in base 10: white space, a sign, and digits.
    Whether there is a minus sign, the value of the digits, and the position of the first
    unit that was not used. *)
Fixpoint skipSpace (s : list Z) (n : Z) : list Z * Z :=
  match s with
  | c :: s' => if iswspace c then skipSpace s' (n + 1) else (s, n)
  | [] => ([], n)
  end.

Definition subject (s : list Z) : bool * Z * Z :=
  let '(t, p) := skipSpace s 0 in
  let '(neg, t, p) := match t with
    | c :: t' => if c =? Ch.minus then (true, t', p + 1) else if c =? 43 then (false, t', p + 1) else (false, t, p)
    | [] => (false, [], p)
    end in
  let '(r, n) := digitsOf t 0 0 in
  if n =? 0 then (false, 0, 0) else (neg, r, p + n).

(** [wcstol] and [wcstoll]: numbers that are too large become the largest ones. *)
Definition wcstol (s : list Z) : Z * Z :=
  let '(neg, r, n) := subject s in
  (Z.max (- 2 ^ 63) (Z.min (2 ^ 63 - 1) (if neg then - r else r)), n).

(** [wcstoul] and [wcstoull]: a minus sign negates the unsigned number. *)
Definition wcstoul (s : list Z) : Z * Z :=
  let '(neg, r, n) := subject s in
  (if 2 ^ 64 <=? r then 2 ^ 64 - 1 else u64 (if neg then - r else r), n).

Definition maxlen : nat := 50.

(** [r = fn(data->v, &end, 10); if (end != data->v + data->count - 1) throw ...] *)
Definition convert (fn : list Z → Z * Z) (d : GcWchars) : outcome Z :=
  data ← wrapData maxlen (units d);
  let '(r, end_) := fn data in
  if negb (end_ =? scount d - 1) then Throw (StrError "Not a number") else Ret r.

Definition toInt (d : GcWchars) : outcome Z := r ← convert wcstol d; Ret (s32 r).
Definition toNat (d : GcWchars) : outcome Z := r ← convert wcstoul d; Ret (u32 r).
Definition toLong (d : GcWchars) : outcome Z := convert wcstol d.
Definition toWord (d : GcWchars) : outcome Z := convert wcstoul d.

End number.
End StrNumber.

(** * Numbers in string buffers: correctness

    [add] of a number appends its decimal digits, with padding; [hex] has as many digits as
    its type.  What was written is read back by the conversions of strings to numbers. *)

Import StrBuf.

(** ** Decimal digits *)

(** At most [n] digits, the last one first. *)
Fixpoint decRev (n : nat) (i : Z) : list Z :=
  match n with
  | O => []
  | S n => (i `mod` 10 + Ch.zero) :: if i `div` 10 =? 0 then [] else decRev n (i `div` 10)
  end.

(** The digits of a number of 64 bits. *)
Definition decimal (i : Z) : list Z := list.reverse (decRev 20 i).
Definition signedDecimal (i : Z) : list Z := (if i <? 0 then [Ch.minus] else []) ++ decimal (Z.abs i).

Lemma decRev_length n i : (length (decRev n i) ≤ n)%nat.
Proof. revert i. induction n as [|n IH]; intros i; [done|]. cbn [decRev length]. case_match; cbn [length]; [lia|]. specialize (IH (i `div` 10)). lia. Qed.

Lemma digit_u16 x : 0 ≤ x < 10 → u16 (x + Ch.zero) = x + Ch.zero.
Proof. intros H. unfold u16, Ch.zero. apply Z.mod_small. lia. Qed.

(** One round of the loops. *)
Section digits.
Context (b : StrBuf) (u : list Z) (x : Z) (f : StrBuf → outcome StrBuf) (rest : list Z) (stop : bool).
Context (Hr : rep b u) (Hc : zlen u + 1 ≤ cap b).
Context (Hf : stop = false → ∀ b', became b (u ++ [x]) b' → cap b' = cap b →
  returns (f b') (λ b'', became b' ((u ++ [x]) ++ rest) b'' ∧ cap b'' = cap b')).

Lemma digit_round :
  returns (b' ← putUnit b x; if stop then Ret b' else f b')
    (λ b', became b (u ++ x :: if stop then [] else rest) b' ∧ cap b' = cap b).
Proof.
  eapply returns_bind; [apply (putUnit_run b u x Hr); lia|]. intros b1 [B1 C1]. destruct stop eqn:Es; [done|].
  eapply returns_mono; [by apply Hf|]. cbn beta. intros b2 [B2 C2]. rewrite <- app_assoc in B2.
  split; [by eapply became_trans|lia].
Qed.
End digits.

(** What remains of a number after a digit. *)
Lemma quotient_bound n i : 0 ≤ i < 10 ^ Z.of_nat (S n) → (i `div` 10 =? 0) = false →
  0 ≤ i `div` 10 < 10 ^ Z.of_nat n ∧ (1 ≤ n)%nat.
Proof.
  intros Hi Hz. apply Z.eqb_neq in Hz. rewrite Nat2Z.inj_succ, Z.pow_succ_r in Hi by lia.
  assert (0 ≤ i `div` 10 < 10 ^ Z.of_nat n) by (split; [apply Z.div_pos; lia|apply Z.div_lt_upper_bound; lia]).
  split; [done|]. destruct n; [|lia]. change (10 ^ Z.of_nat 0) with 1 in *. lia.
Qed.

Lemma wordLoop_run n : ∀ fuel b u i limit, (n ≤ fuel)%nat → (1 ≤ n)%nat → 0 ≤ i < 10 ^ Z.of_nat n → rep b u →
  zlen u + Z.of_nat n ≤ limit → zlen u + Z.of_nat n ≤ cap b →
  returns (wordLoop fuel b i limit) (λ b', became b (u ++ decRev n i) b' ∧ cap b' = cap b).
Proof.
  induction n as [|n IH]; intros [|fuel] b u i limit Hf Hn Hi Hr Hl Hc; try lia. cbn [wordLoop decRev].
  destruct (Hr) as [Hp _ _]. rewrite Hp, (proj2 (Z.ltb_lt _ _)) by lia.
  pose proof (Z.mod_pos_bound i 10 ltac:(lia)). rewrite digit_u16 by lia.
  apply digit_round; [done|lia|]. intros Hz b1 (R1 & _ & _) C1. destruct (quotient_bound n i Hi Hz).
  apply IH; try done; try lia; rewrite zlen_app; change (zlen [_]) with 1; lia.
Qed.

Lemma longLoop_run n : ∀ fuel b u i negative limit, (n ≤ fuel)%nat → (1 ≤ n)%nat → Z.abs i < 10 ^ Z.of_nat n → rep b u →
  (if negative : bool then i ≤ 0 else 0 ≤ i) → zlen u + Z.of_nat n ≤ limit → zlen u + Z.of_nat n ≤ cap b →
  returns (longLoop fuel b i negative limit) (λ b', became b (u ++ decRev n (Z.abs i)) b' ∧ cap b' = cap b).
Proof.
  induction n as [|n IH]; intros [|fuel] b u i negative limit Hf Hn Hi Hr Hs Hl Hc; try lia. cbn [longLoop decRev].
  destruct (Hr) as [Hp _ _]. rewrite Hp, (proj2 (Z.ltb_lt _ _)) by lia.
  assert (Eq : Z.abs (Z.quot i 10) = Z.abs i `div` 10).
  { rewrite <- Z.quot_abs by lia. change (Z.abs 10) with 10. by rewrite Z.quot_div_nonneg by lia. }
  assert (Er : Z.abs (Z.rem i 10) = Z.abs i `mod` 10).
  { rewrite <- Z.rem_abs by lia. change (Z.abs 10) with 10. by rewrite Z.rem_mod_nonneg by lia. }
  pose proof (Z.mod_pos_bound (Z.abs i) 10 ltac:(lia)).
  assert ((0 <? Z.rem i 10) && negative = false) as ->.
  { destruct negative; [|apply andb_false_r]. rewrite andb_true_r. apply Z.ltb_ge. apply Z.rem_nonpos; lia. }
  rewrite Er, digit_u16 by lia.
  assert ((Z.quot i 10 =? 0) = (Z.abs i `div` 10 =? 0)) as ->.
  { rewrite <- Eq. destruct (Z.eqb_spec (Z.quot i 10) 0) as [->|Hne]; [done|]. symmetry. apply Z.eqb_neq. lia. }
  apply digit_round; [done|lia|]. intros Hz b1 (R1 & _ & _) C1. destruct (quotient_bound n (Z.abs i) ltac:(lia) Hz).
  rewrite <- Eq in *. apply IH; try done; try lia; try (rewrite zlen_app; change (zlen [_]) with 1; lia).
  destruct negative; [|apply Z.quot_pos; lia].
  rewrite <- (Z.opp_involutive i), Z.quot_opp_l by lia. pose proof (Z.quot_pos (- i) 10). lia.
Qed.

(** ** Turning the digits around *)

Lemma insertZ_middle (a c : list Z) x y : <[zlen a := y]> (a ++ x :: c) = a ++ y :: c.
Proof.
  unfold insert, list_insertZ. rewrite decide_True by apply zlen_nonneg. unfold zlen.
  by rewrite Nat2Z.id, insert_app_r_alt, Nat.sub_diag by lia.
Qed.

Lemma reverseLoop_eq fuel : ∀ a m c, (length m < 2 * fuel)%nat →
  reverseLoop fuel (a ++ m ++ c) (zlen a) (zlen a + zlen m) = Ret (a ++ list.reverse m ++ c).
Proof.
  induction fuel as [|fuel IH]; intros a m c Hf; [lia|]. cbn [reverseLoop].
  destruct m as [|x m]; [change (zlen []) with 0; by rewrite Z.add_0_r, Z.eqb_refl|].
  pose proof (zlen_nonneg m). pose proof (zlen_nonneg a). rewrite zlen_cons.
  rewrite (proj2 (Z.eqb_neq _ _)) by lia. destruct m as [|y m _] using rev_ind.
  { change (zlen []) with 0. replace (zlen a + (0 + 1) - 1) with (zlen a) by lia. by rewrite Z.eqb_refl. }
  pose proof (zlen_nonneg m). rewrite zlen_app in *. change (zlen [y]) with 1 in *. rewrite (proj2 (Z.eqb_neq _ _)) by lia.
  replace (zlen a + (zlen m + 1 + 1) - 1) with (zlen a + (1 + zlen m)) by lia.
  assert (L1 : (a ++ (x :: m ++ [y]) ++ c) !! zlen a = Some x).
  { unfold zlen. rewrite lookupZ_nat. by apply list_lookup_middle. }
  assert (L2 : (a ++ (x :: m ++ [y]) ++ c) !! (zlen a + (1 + zlen m)) = Some y).
  { unfold zlen. replace (_ + _) with (Z.of_nat (length (a ++ x :: m))) by (rewrite length_app; cbn [length]; lia).
    rewrite lookupZ_nat. replace (a ++ (x :: m ++ [y]) ++ c) with ((a ++ x :: m) ++ y :: c) by (by rewrite <- !app_assoc; cbn; rewrite <- app_assoc).
    by apply list_lookup_middle. }
  rewrite (aget_Some _ _ _ L1), (aget_Some _ _ _ L2). cbn [mbind outcome_bind].
  apply lookupZ_Some_lt in L1, L2. rewrite aset_in by done. cbn [mbind outcome_bind].
  rewrite aset_in by (by rewrite zlen_insert). cbn [mbind outcome_bind].
  assert (E : <[zlen a + (1 + zlen m) := x]> (<[zlen a := y]> (a ++ (x :: m ++ [y]) ++ c)) = (a ++ [y]) ++ m ++ [x] ++ c).
  { cbn [app]. rewrite insertZ_middle. rewrite <- (app_assoc m). cbn [app].
    replace (a ++ y :: m ++ y :: c) with ((a ++ y :: m) ++ y :: c) by (by rewrite <- app_assoc).
    replace (zlen a + (1 + zlen m)) with (zlen (a ++ y :: m)) by (rewrite zlen_app, zlen_cons; lia).
    rewrite insertZ_middle. by rewrite <- !app_assoc. }
  rewrite E. replace (zlen a + 1) with (zlen (a ++ [y])) by (by rewrite zlen_app).
  replace (zlen a + (1 + zlen m)) with (zlen (a ++ [y]) + zlen m) by (rewrite zlen_app; change (zlen [y]) with 1; lia).
  rewrite IH by (cbn [length] in Hf; rewrite length_app in Hf; cbn [length] in Hf; lia).
  rewrite reverse_cons, reverse_snoc. by rewrite <- !app_assoc.
Qed.

Lemma reverse_pad (x : list Z) n : list.reverse (concat (replicate n (list.reverse x))) = concat (replicate n x).
Proof.
  induction n as [|n IH]; [done|]. rewrite replicate_S_end, concat_app. cbn [concat]. rewrite app_nil_r, reverse_app.
  rewrite reverse_involutive, IH. done.
Qed.

Lemma reverse_run b u d : rep b (u ++ d) → d ≠ [] →
  returns (reverse b (zlen u) (pos b)) (became b (u ++ list.reverse d)).
Proof.
  intros [Hp Hb Hc] Hd. unfold reverse. rewrite Hp. destruct (buf b) as [l|] eqn:E.
  - destruct Hb as [n ->]. rewrite <- app_assoc, zlen_app.
    rewrite reverseLoop_eq by (rewrite !length_app; lia). cbn [mbind outcome_bind returns].
    assert (Ecap : cap (setBuf b (Some (u ++ list.reverse d ++ replicate (S n) 0)) (zlen u + zlen d)) = cap b).
    { unfold cap. cbn [setBuf buf]. rewrite E, !zlen_app. unfold zlen at 2. rewrite length_reverse. unfold zlen. lia. }
    split_and!; [split| |lia]; [| |lia|done].
    + cbn [setBuf pos]. rewrite zlen_app. unfold zlen at 4. by rewrite length_reverse.
    + cbn [setBuf buf]. exists n. by rewrite <- app_assoc.
  - by destruct u, d.
Qed.

(** ** Numbers with padding *)

(** The text after a number with the digits [d] was added. *)
Definition numbered (f : StrFmt.StrFmt) (i u d : list Z) : list Z :=
  indented i u ++ if StrFmt.isRight f then pad f (zlen d) ++ d else d ++ pad f (zlen d).

Lemma alignNumber_run b u d : rep b (u ++ d) → d ≠ [] → is_u32 (StrFmt.width (fmt b)) →
  zlen (u ++ d) + zlen (pad (fmt b) (zlen d)) ≤ 2 ^ 30 →
  returns (alignNumber b (zlen u)) (λ b',
    rep b' (u ++ if StrFmt.isRight (fmt b) then pad (fmt b) (zlen d) ++ list.reverse d else list.reverse d ++ pad (fmt b) (zlen d)) ∧
    indentStr b' = indentStr b ∧ indentation b' = indentation b ∧ fmt b' = StrFmt.reset (fmt b)).
Proof.
  intros Hr Hd Hw Hz. pose proof (zlen_nonneg u). pose proof (zlen_nonneg d). pose proof (zlen_nonneg (pad (fmt b) (zlen d))).
  destruct (Hr) as [Hp _ _]. unfold alignNumber. rewrite zlen_app in *.
  eapply (returns_bind _ _ (became b (u ++ if StrFmt.isRight (fmt b) then pad (fmt b) (zlen d) ++ list.reverse d
    else list.reverse d ++ pad (fmt b) (zlen d)))).
  - destruct (StrFmt.isRight (fmt b)) eqn:Er.
    + rewrite Hp, u32_small by (unfold is_u32; lia). replace (zlen u + zlen d - zlen u) with (zlen d) by lia.
      eapply returns_bind; [apply (fillWith_run true b (u ++ d) (zlen d) Hr Hw); [lia|rewrite zlen_app; lia]|].
      cbn beta. intros b1 B1. destruct (B1) as (R1 & K1 & _). rewrite <- app_assoc in R1.
      eapply returns_mono; [apply (reverse_run b1 u _ R1); by destruct d|]. cbn beta. intros b2 B2.
      rewrite reverse_app, reverse_pad in B2. eapply became_trans; [exact B1|exact B2].
    + assert (StrFmt.isLeft (fmt b) = true) as -> by (unfold StrFmt.isLeft, StrFmt.isRight in *; by destruct (_ =? _)).
      eapply returns_bind; [apply (reverse_run b u d Hr Hd)|]. intros b1 B1. destruct (B1) as (R1 & K1 & _).
      destruct (K1) as (_ & _ & F1). destruct (R1) as [P1 _ _].
      assert (El : zlen (list.reverse d) = zlen d) by (unfold zlen; by rewrite length_reverse).
      rewrite P1, zlen_app, El, u32_small by (unfold is_u32; lia). replace (zlen u + zlen d - zlen u) with (zlen d) by lia.
      eapply returns_mono; [apply (fillWith_run false b1 _ (zlen d) R1); rewrite ?F1; [done|lia|rewrite zlen_app, El; lia]|].
      cbn beta. rewrite F1. intros b2 B2. rewrite <- app_assoc in B2. by eapply became_trans.
  - intros b1 ([P1 Q1 C1] & (E1 & E2 & E3) & _). cbn [returns]. split_and!; [by split|done|done|]. cbn [setFmt fmt]. by rewrite E3.
Qed.

(** What both kinds of numbers do before their digits. *)
Section start.
Context (b : StrBuf) (u w : list Z) (k : nat) (Hr : rep b u) (Hi : indents b w k).
Context (Hw : 0 ≤ StrFmt.width (fmt b)) (Hz : zlen u + zlen (ind w k) + 2 * StrFmt.width (fmt b) + 42 ≤ 2 ^ 30).
Context (digits : StrBuf → Z → outcome StrBuf) (d : list Z) (Hd : d ≠ []) (Hl : zlen d ≤ 21).
Context (Hdig : ∀ b' u' limit, rep b' u' → zlen u' + 21 ≤ limit → zlen u' + 21 ≤ cap b' →
  returns (digits b' limit) (λ b'', became b' (u' ++ d) b'')).

Lemma width_worst : 21 ≤ Z.max maxDigits (u32 (StrFmt.width (fmt b) * Char.size (StrFmt.fill (fmt b)))) ≤ 21 + 2 * StrFmt.width (fmt b).
Proof.
  pose proof (zlen_nonneg u). pose proof (zlen_nonneg (ind w k)).
  unfold maxDigits. set (f := fmt b) in *. unfold Char.size. destruct (_ =? 0); rewrite u32_small by (unfold is_u32; lia); lia.
Qed.

Lemma number_run :
  returns (b ← insertIndent b;
    let worst := Z.max maxDigits (u32 (StrFmt.width (fmt b) * Char.size (StrFmt.fill (fmt b)))) in
    b ← ensure b (u32 (pos b + worst));
    let start := pos b in
    b ← digits b (u32 (start + worst));
    alignNumber b start) (λ b', rep b' (numbered (fmt b) (ind w k) u (list.reverse d)) ∧ indents b' w k ∧ fmt b' = StrFmt.reset (fmt b)).
Proof.
  pose proof (zlen_nonneg u). pose proof (zlen_nonneg (ind w k)). pose proof width_worst as Hworst. pose proof (zlen_nonneg d).
  eapply returns_bind; [apply (insertIndent_run b u w k Hr Hi); lia|]. intros b1 B1. destruct (B1) as (R1 & K1 & _).
  destruct (K1) as (_ & _ & F1). rewrite F1. set (worst := Z.max _ _) in *. cbv zeta.
  assert (Hu1 : zlen u ≤ zlen (indented (ind w k) u) ≤ zlen u + zlen (ind w k)) by (rewrite zlen_indented; destruct (lastNl u); lia).
  set (u1 := indented (ind w k) u) in *. destruct (R1) as [P1 _ _]. rewrite P1, (u32_small (zlen u1 + worst)) by (unfold is_u32; lia).
  eapply returns_bind; [apply (ensure_run b1 u1 _ R1); lia|]. intros b2 [B2 C2]. destruct (B2) as (R2 & K2 & _).
  destruct (R2) as [P2 _ _]. rewrite P2, (u32_small (zlen u1 + worst)) by (unfold is_u32; lia).
  eapply returns_bind; [apply (Hdig b2 u1 _ R2); lia|]. intros b3 B3. destruct (B3) as (R3 & K3 & _).
  pose proof (keeps_trans _ _ _ K1 (keeps_trans _ _ _ K2 K3)) as K. destruct (K) as (_ & _ & F3).
  assert (Hpad : zlen (pad (fmt b) (zlen d)) ≤ 2 * StrFmt.width (fmt b)).
  { unfold pad. rewrite zlen_concat_replicate. assert (zlen (padUnit (StrFmt.fill (fmt b))) ≤ 2) by (unfold padUnit; by case_match).
    pose proof (zlen_nonneg (padUnit (StrFmt.fill (fmt b)))). nia. }
  eapply returns_mono; [apply (alignNumber_run b3 u1 d R3 Hd); rewrite ?F3; [unfold is_u32; lia|rewrite zlen_app; lia]|].
  cbn beta. intros b4 (R4 & E1 & E2 & E3). rewrite F3 in *.
  assert (zlen (list.reverse d) = zlen d) as El by (unfold zlen; by rewrite length_reverse).
  unfold numbered. rewrite El. split_and!; [exact R4| |done].
  destruct K as (G1 & G2 & _), Hi as [I1 I2 I3]. split; [by rewrite E1, G1|by rewrite E2, G2|done].
Qed.
End start.

Lemma decRev_nonempty n i : decRev (S n) i ≠ [].
Proof. done. Qed.

Lemma zlen_decRev n i : zlen (decRev n i) ≤ Z.of_nat n.
Proof. unfold zlen. pose proof (decRev_length n i). lia. Qed.

Section number.
Context (b : StrBuf) (u w : list Z) (k : nat) (Hr : rep b u) (Hi : indents b w k).
Context (Hw : 0 ≤ StrFmt.width (fmt b)) (Hz : zlen u + zlen (ind w k) + 2 * StrFmt.width (fmt b) + 42 ≤ 2 ^ 30).

Lemma addWord_run i : is_u64 i →
  returns (addWord b i) (λ b', rep b' (numbered (fmt b) (ind w k) u (decimal i)) ∧ indents b' w k ∧ fmt b' = StrFmt.reset (fmt b)).
Proof.
  intros Hn. apply (number_run b u w k Hr Hi Hw Hz (λ b l, wordLoop digitFuel b i l) (decRev 20 i)); [done| |].
  - pose proof (zlen_decRev 20 i). lia.
  - intros b' u' limit R L C. eapply returns_mono; [apply (wordLoop_run 20); try done; try lia; unfold is_u64, digitFuel in *; lia|].
    by intros b'' [? _].
Qed.

Lemma addLong_run i : - 2 ^ 63 ≤ i < 2 ^ 63 →
  returns (addLong b i) (λ b', rep b' (numbered (fmt b) (ind w k) u (signedDecimal i)) ∧ indents b' w k ∧ fmt b' = StrFmt.reset (fmt b)).
Proof.
  intros Hn. set (d := decRev 20 (Z.abs i) ++ if i <? 0 then [Ch.minus] else []).
  assert (Ed : signedDecimal i = list.reverse d) by (unfold signedDecimal, decimal, d; rewrite reverse_app; by destruct (i <? 0)).
  rewrite Ed.
  set (digits := λ b l, b ← longLoop digitFuel b i (i <? 0) l; (if i <? 0 then putUnit b Ch.minus else Ret b)).
  pose proof (zlen_decRev 20 (Z.abs i)) as Hlen.
  assert (H : returns (b ← insertIndent b;
    let worst := Z.max maxDigits (u32 (StrFmt.width (fmt b) * Char.size (StrFmt.fill (fmt b)))) in
    b ← ensure b (u32 (pos b + worst)); let start := pos b in b ← digits b (u32 (start + worst)); alignNumber b start)
    (λ b', rep b' (numbered (fmt b) (ind w k) u (list.reverse d)) ∧ indents b' w k ∧ fmt b' = StrFmt.reset (fmt b))).
  { apply (number_run b u w k Hr Hi Hw Hz digits d).
    - done.
    - unfold d. rewrite zlen_app. destruct (i <? 0); unfold zlen at 2; cbn [length]; lia.
    - intros b' u' limit R L C. unfold digits, d.
      eapply returns_bind; [apply (longLoop_run 20); try done; try lia; [unfold digitFuel; lia|destruct (Z.ltb_spec i 0); lia]|].
      intros b1 [B1 C1]. destruct (B1) as (R1 & _ & _). rewrite app_assoc. destruct (i <? 0); [|by rewrite app_nil_r].
      eapply returns_mono; [apply (putUnit_run b1 _ _ R1); rewrite zlen_app; lia|]. intros b2 [B2 _]. by eapply became_trans. }
  unfold addLong. destruct (insertIndent b) as [b1| | |]; try done. cbn [mbind outcome_bind] in *. cbv zeta in *.
  destruct (ensure b1 _) as [b2| | |]; try done. cbn [mbind outcome_bind] in *. unfold digits in H.
  by destruct (longLoop _ _ _ _ _).
Qed.
End number.

(** Adding a number appends its decimal digits, with a minus sign when it is negative, for
    every number of 64 bits, the smallest one too; padding is put on the side the alignment
    says, also when the fill character is a surrogate pair. *)
Theorem strbuf_number b u w k i j : rep b u → indents b w k → 0 ≤ StrFmt.width (fmt b) →
  zlen u + zlen (ind w k) + 2 * StrFmt.width (fmt b) + 42 ≤ 2 ^ 30 → is_u64 i → - 2 ^ 63 ≤ j < 2 ^ 63 →
  (∃ b', addWord b i = Ret b' ∧ rep b' (numbered (fmt b) (ind w k) u (decimal i)) ∧ indents b' w k ∧ fmt b' = StrFmt.reset (fmt b)) ∧
  (∃ b', addLong b j = Ret b' ∧ rep b' (numbered (fmt b) (ind w k) u (signedDecimal j)) ∧ indents b' w k ∧ fmt b' = StrFmt.reset (fmt b)).
Proof.
  intros Hr Hi Hw Hz Hn Hj. split.
  - apply returns_exists. by apply addWord_run.
  - apply returns_exists. by apply addLong_run.
Qed.

Lemma strbuf_number_witness :
  let b := addFmt (addFmt new (StrFmt.rightWidth 5)) (StrFmt.fillFmt 0x1F600) in
  (∃ b', addWord b 42 = Ret b' ∧
     rep b' [0xD83D; 0xDE00; 0xD83D; 0xDE00; 0xD83D; 0xDE00; 52; 50] ∧ indents b' [32; 32; 32; 32] 0 ∧ fmt b' = StrFmt.reset (fmt b)) ∧
  (∃ b', addLong b (-7) = Ret b' ∧
     rep b' [0xD83D; 0xDE00; 0xD83D; 0xDE00; 0xD83D; 0xDE00; 45; 55] ∧ indents b' [32; 32; 32; 32] 0 ∧ fmt b' = StrFmt.reset (fmt b)).
Proof.
  apply (strbuf_number (addFmt (addFmt new (StrFmt.rightWidth 5)) (StrFmt.fillFmt 0x1F600)) [] [32; 32; 32; 32] 0 42 (-7));
    [split; cbn; done || lia|split; [reflexivity|reflexivity|vm_compute; reflexivity]|cbn; lia|vm_compute; discriminate|unfold is_u64; lia|lia].
Defined.

(** ** Hexadecimal digits *)

(** The last [n] digits of a number, the most significant first. *)
Fixpoint hexDigits (n : nat) (x : Z) : list Z :=
  match n with O => [] | S n => hexDigits n (Z.shiftr x 4) ++ [hexChar (Z.land x 0x0F)] end.

Lemma hexLoop_eq n x to : hexLoop n x to = hexDigits n x ++ to.
Proof. revert x to. induction n as [|n IH]; intros x to; [done|]. cbn [hexLoop hexDigits]. by rewrite IH, <- app_assoc. Qed.

Lemma hexChar_facts x : 0 ≤ x < 16 → 0 < hexChar x < 2 ^ 16 ∧ Str.hexDigit (hexChar x) = x.
Proof.
  intros Hx. pose (P x := (0 <? hexChar x) && (hexChar x <? 2 ^ 16) && (Str.hexDigit (hexChar x) =? x)).
  assert (P x = true) as H by (apply (forall_range P 0 16); [vm_compute; reflexivity|lia]).
  unfold P in H. rewrite !andb_true_iff, !Z.ltb_lt, Z.eqb_eq in H. tauto.
Qed.

Lemma land15 x : Z.land x 0x0F = x `mod` 16.
Proof. apply (land_pow2_pred x 4). lia. Qed.

Lemma hexDigits_plain n x : plain (hexDigits n x).
Proof.
  revert x. induction n as [|n IH]; intros x; [constructor|]. cbn [hexDigits]. apply Forall_app. split; [apply IH|].
  constructor; [|constructor]. rewrite land15. apply hexChar_facts. apply Z.mod_pos_bound. lia.
Qed.

Lemma hexDigits_length n x : zlen (hexDigits n x) = Z.of_nat n.
Proof. revert x. induction n as [|n IH]; intros x; [done|]. cbn [hexDigits]. rewrite zlen_app, IH. change (zlen [_]) with 1. lia. Qed.

(** Reading hexadecimal digits. *)
Lemma strHexLoop_app u1 u2 r : Str.hexLoop (u1 ++ u2) r = (x ← Str.hexLoop u1 r; Str.hexLoop u2 x).
Proof. revert r. induction u1 as [|c u1 IH]; intros r; [done|]. cbn [Str.hexLoop app]. case_match; [done|apply IH]. Qed.

Lemma strHexLoop_digits n x : (n ≤ 16)%nat → Str.hexLoop (hexDigits n x) 0 = Ret (x `mod` 16 ^ Z.of_nat n).
Proof.
  revert x. induction n as [|n IH]; intros x Hn; [cbn; by rewrite Z.mod_1_r|]. cbn [hexDigits].
  rewrite strHexLoop_app, IH by lia. cbn [mbind outcome_bind Str.hexLoop]. rewrite land15.
  pose proof (Z.mod_pos_bound x 16 ltac:(lia)) as Hm. destruct (hexChar_facts _ Hm) as [_ ->].
  rewrite (proj2 (Z.ltb_ge _ _)) by lia. f_equal. rewrite Z.shiftr_div_pow2 by lia. change (2 ^ 4) with 16.
  assert (0 < 16 ^ Z.of_nat n ≤ 16 ^ 15) by (split; [apply Z.pow_pos_nonneg; lia|apply Z.pow_le_mono_r; lia]).
  pose proof (Z.mod_pos_bound (x `div` 16) (16 ^ Z.of_nat n) ltac:(lia)).
  rewrite Z.shiftl_mul_pow2, u64_small by (unfold is_u64; lia). change (2 ^ 4) with 16.
  rewrite (lor_mul_pow2 _ _ 4) by lia. change (2 ^ 4) with 16.
  rewrite Nat2Z.inj_succ, Z.pow_succ_r, Z.rem_mul_r by lia. lia.
Qed.

(** The hexadecimal digits that [hex] writes for a [Byte], a [Nat] or a [Word] are read
    back as the same number by [hexToWord], and [isHex] holds of them. *)
Theorem hex_roundtrip f x : f ∈ [hexByte; hexNat; hexWord] → 0 ≤ x < 16 ^ hdigits (f x) →
  ∃ b d, addHex new (f x) = Ret b ∧ toS b = Ret d ∧ scount d = hdigits (f x) + 1 ∧ Str.isHex d = true ∧
    Str.hexToWord d = Ret x ∧ Str.hexToNat d = Ret (u32 x).
Proof.
  intros Hf Hx. assert (∃ n, hdigits (f x) = Z.of_nat n ∧ (n ≤ 16)%nat ∧ value (f x) = x) as (n & En & Hn & Ev).
  { rewrite !elem_of_cons in Hf. destruct Hf as [->|[->|[->|Hf]]]; [by exists 2%nat; split_and!; [..|lia|]|by exists 8%nat; split_and!; [..|lia|]|by exists 16%nat; split_and!; [..|lia|]|].
    by apply elem_of_nil in Hf. }
  unfold addHex. rewrite En, Ev in *. rewrite Z.min_r, Nat2Z.id, hexLoop_eq by lia.
  destruct (proj1 (returns_exists _ _) (simple_addCStr new [] (hexDigits n x) [] simple_new (hexDigits_plain n x) ltac:(rewrite hexDigits_length; change (zlen []) with 0; lia)))
    as (b & E & [R _ _ _]).
  exists b, (strData (hexDigits n x)). pose proof (strHexLoop_digits n x Hn) as Eh. rewrite Z.mod_small in Eh by done.
  split_and!; [done|by apply toS_eq| | | |].
  - unfold scount, strData. cbn [units]. by rewrite zlen_term, hexDigits_length.
  - unfold Str.isHex. rewrite body_strData. clear. revert x. induction n as [|n IH]; intros x; [done|]. cbn [hexDigits].
    rewrite forallb_app, IH. cbn [forallb]. rewrite land15. destruct (hexChar_facts (x `mod` 16)) as [_ ->]; [apply Z.mod_pos_bound; lia|].
    rewrite (proj2 (Z.ltb_ge _ _)) by (apply Z.mod_pos_bound; lia). done.
  - unfold Str.hexToWord. by rewrite body_strData.
  - unfold Str.hexToNat, Str.hexToWord. rewrite body_strData, Eh. done.
Qed.

Lemma hex_roundtrip_witness :
  ∃ b d, addHex new (hexNat 0xBEEF) = Ret b ∧ toS b = Ret d ∧ scount d = 9 ∧ Str.isHex d = true ∧
    Str.hexToWord d = Ret 0xBEEF ∧ Str.hexToNat d = Ret (u32 0xBEEF).
Proof. apply (hex_roundtrip hexNat 0xBEEF); [rewrite !elem_of_cons; tauto|cbn; lia]. Defined.

(** ** Reading decimal numbers *)

Section parse.
Context (iswspace : Z → bool) (Hspace : ∀ c, Str.isDigit c = true ∨ c = Ch.minus → iswspace c = false).

Lemma decRev_digits n i : 0 ≤ i → Forall (λ c, Str.isDigit c = true ∧ 0 < c < 2 ^ 16) (decRev n i).
Proof.
  revert i. induction n as [|n IH]; intros i Hi; [constructor|]. cbn [decRev]. constructor.
  - pose proof (Z.mod_pos_bound i 10 ltac:(lia)). split; [|unfold Ch.zero; lia]. unfold Str.isDigit, Ch.zero, Ch.nine.
    apply negb_true_iff, orb_false_iff. rewrite !Z.ltb_ge. lia.
  - case_match; [constructor|]. apply IH. apply Z.div_pos; lia.
Qed.

Lemma decRev_value n i : 0 ≤ i < 10 ^ Z.of_nat n → foldr (λ c r, r * 10 + (c - Ch.zero)) 0 (decRev n i) = i.
Proof.
  revert i. induction n as [|n IH]; intros i Hi; [change (10 ^ Z.of_nat 0) with 1 in Hi; cbn; lia|]. cbn [decRev foldr].
  pose proof (Z.div_mod i 10 ltac:(lia)). destruct (i `div` 10 =? 0) eqn:E.
  - apply Z.eqb_eq in E. cbn [foldr]. lia.
  - destruct (quotient_bound n i Hi E) as [Hq _]. rewrite IH by done. lia.
Qed.

Lemma digitsOf_eq s : ∀ r n, Forall (λ c, Str.isDigit c = true ∧ 0 < c < 2 ^ 16) s →
  StrNumber.digitsOf s r n = (foldl (λ r c, r * 10 + (c - Ch.zero)) r s, n + zlen s).
Proof.
  induction s as [|c s IH]; intros r n Hs; [cbn; unfold zlen; cbn; by rewrite Z.add_0_r|].
  apply Forall_cons_1 in Hs as [[Hc _] Hs]. cbn [StrNumber.digitsOf foldl]. rewrite Hc, IH, zlen_cons by done. f_equal. lia.
Qed.

Lemma foldl_rev {A B} (f : A → B → A) (a : A) l : foldl f a (list.reverse l) = foldr (λ c r, f r c) a l.
Proof. induction l as [|c l IH]; [done|]. rewrite reverse_cons, foldl_app. cbn [foldl foldr]. by rewrite IH. Qed.

Lemma decimal_facts i : is_u64 i → Forall (λ c, Str.isDigit c = true ∧ 0 < c < 2 ^ 16) (decimal i) ∧
  1 ≤ zlen (decimal i) ≤ 20 ∧ StrNumber.digitsOf (decimal i) 0 0 = (i, zlen (decimal i)).
Proof.
  intros Hi. unfold is_u64 in Hi. assert (Hd : Forall (λ c, Str.isDigit c = true ∧ 0 < c < 2 ^ 16) (decimal i)).
  { unfold decimal. apply Forall_reverse, decRev_digits. lia. }
  split_and!; [done| | |].
  - unfold zlen, decimal. rewrite length_reverse. pose proof (decRev_nonempty 19 i). destruct (decRev 20 i); [done|cbn [length]; lia].
  - unfold zlen, decimal. rewrite length_reverse. pose proof (decRev_length 20 i). lia.
  - rewrite digitsOf_eq by done. f_equal. unfold decimal. rewrite foldl_rev. apply (decRev_value 20). lia.
Qed.

Lemma wrapData_eq u m : plain u → (length u ≤ m)%nat → StrNumber.wrapData m (u ++ [0]) = Ret u.
Proof.
  revert m. induction u as [|c u IH]; intros m Hp Hm; [by destruct m|]. destruct m as [|m]; [cbn in Hm; lia|].
  cbn [StrNumber.wrapData app]. rewrite (plain_nonzero c u Hp). apply Forall_cons_1 in Hp as [_ Hp].
  rewrite IH by (done || (cbn in Hm; lia)). done.
Qed.

Lemma convert_eq fn u r : plain u → (length u ≤ 50)%nat → fn u = (r, zlen u) → StrNumber.convert fn (strData u) = Ret r.
Proof.
  intros Hp Hl Hf. unfold StrNumber.convert, strData, scount. cbn [units]. rewrite (wrapData_eq u) by done. cbn [mbind outcome_bind].
  rewrite Hf, zlen_term. replace (zlen u + 1 - 1) with (zlen u) by lia. by rewrite Z.eqb_refl.
Qed.

Lemma subject_decimal i (neg : bool) : is_u64 i →
  StrNumber.subject iswspace ((if neg then [Ch.minus] else []) ++ decimal i) = (neg, i, (if neg then 1 else 0) + zlen (decimal i)).
Proof.
  intros Hi. destruct (decimal_facts i Hi) as (Hd & Hl & E). destruct (decimal i) as [|c ds] eqn:Ed; [unfold zlen in Hl; cbn in Hl; lia|].
  apply Forall_cons_1 in Hd as Hc. destruct Hc as [[Hc _] _]. unfold StrNumber.subject. destruct neg; cbn [app StrNumber.skipSpace].
  - rewrite (Hspace Ch.minus) by (by right). rewrite Z.eqb_refl, E. rewrite (proj2 (Z.eqb_neq _ _)) by lia. f_equal.
  - rewrite (Hspace c) by (by left).
    assert (Hrange : 48 ≤ c ≤ 57).
    { unfold Str.isDigit, Ch.zero, Ch.nine in Hc. apply negb_true_iff, orb_false_iff in Hc. rewrite !Z.ltb_ge in Hc. lia. }
    rewrite (proj2 (Z.eqb_neq c Ch.minus)), (proj2 (Z.eqb_neq c 43)), E by (unfold Ch.minus; lia).
    rewrite (proj2 (Z.eqb_neq _ _)) by lia. f_equal.
Qed.

Lemma plain_digits s : Forall (λ c, Str.isDigit c = true ∧ 0 < c < 2 ^ 16) s → plain s.
Proof. intros H. eapply Forall_impl; [exact H|]. cbn beta. tauto. Qed.

(** C26: Numbers that were written with [StrBuf] are read back by the conversions of [Str], at
    all widths and for negative numbers: [toWord] and [toLong] give the number, [toNat] and
    [toInt] its lower 32 bits.  The law of the parameter: digits and the minus sign are not
    white space. *)
Theorem number_roundtrip i j : is_u64 i → - 2 ^ 63 ≤ j < 2 ^ 63 →
  (∃ b d, addWord new i = Ret b ∧ toS b = Ret d ∧ StrNumber.toWord iswspace d = Ret i ∧ StrNumber.toNat iswspace d = Ret (u32 i) ∧
     Str.isNat d = true) ∧
  (∃ b d, addLong new j = Ret b ∧ toS b = Ret d ∧ StrNumber.toLong iswspace d = Ret j ∧ StrNumber.toInt iswspace d = Ret (s32 j) ∧
     Str.isInt d = Ret true).
Proof.
  intros Hi Hj.
  assert (Hnew : ∀ ds, numbered (fmt new) (ind [Ch.space; Ch.space; Ch.space; Ch.space] 0) [] ds = ds).
  { intros ds. unfold numbered. rewrite pad_none; [|done|apply zlen_nonneg]. done. }
  destruct (simple_new) as [R I _ _].
  destruct (proj1 (returns_exists _ _) (addWord_run new [] _ 0 R I ltac:(done) ltac:(vm_compute; discriminate) i Hi)) as (b1 & E1 & R1 & _).
  destruct (proj1 (returns_exists _ _) (addLong_run new [] _ 0 R I ltac:(done) ltac:(vm_compute; discriminate) j Hj)) as (b2 & E2 & R2 & _).
  rewrite Hnew in R1, R2. destruct (decimal_facts i Hi) as (Hd & Hl & Ev). split.
  - exists b1, (strData (decimal i)). pose proof (subject_decimal i false Hi) as Es. cbn [app] in Es. rewrite Z.add_0_l in Es.
    assert (Ew : StrNumber.wcstoul iswspace (decimal i) = (i, zlen (decimal i))).
    { unfold StrNumber.wcstoul. rewrite Es. rewrite (proj2 (Z.leb_gt _ _)), u64_small by (unfold is_u64 in *; lia). done. }
    assert (Ec : StrNumber.convert (StrNumber.wcstoul iswspace) (strData (decimal i)) = Ret i).
    { apply convert_eq; [by apply plain_digits|unfold zlen in Hl; lia|done]. }
    split_and!; [done|by apply toS_eq|done| |].
    + unfold StrNumber.toNat. by rewrite Ec.
    + unfold Str.isNat. rewrite body_strData. apply forallb_forall. intros c Hc%list_elem_of_In.
      by apply (Forall_forall _ _) with (x := c) in Hd as [? _].
  - exists b2, (strData (signedDecimal j)). assert (Hja : is_u64 (Z.abs j)) by (unfold is_u64; lia).
    destruct (decimal_facts _ Hja) as (Hd' & Hl' & _). pose proof (subject_decimal (Z.abs j) (j <? 0) Hja) as Es.
    assert (Hlen : zlen (signedDecimal j) = (if j <? 0 then 1 else 0) + zlen (decimal (Z.abs j))).
    { unfold signedDecimal. rewrite zlen_app. by destruct (j <? 0). }
    assert (Hp : plain (signedDecimal j)).
    { unfold signedDecimal. apply Forall_app. split; [destruct (j <? 0); repeat constructor|by apply plain_digits]. }
    assert (Ec : StrNumber.convert (StrNumber.wcstol iswspace) (strData (signedDecimal j)) = Ret j).
    { apply convert_eq; [done|destruct (j <? 0); unfold zlen in *; lia|]. unfold StrNumber.wcstol, signedDecimal at 1.
      rewrite Es, Hlen. f_equal. destruct (Z.ltb_spec j 0); lia. }
    split_and!; [done|by apply toS_eq|done| |].
    + unfold StrNumber.toInt. by rewrite Ec.
    + unfold Str.isInt. rewrite body_strData. unfold strData. cbn [units]. unfold signedDecimal.
      assert (Hall : forallb Str.isDigit (decimal (Z.abs j)) = true).
      { apply forallb_forall. intros c Hc%list_elem_of_In. by apply (Forall_forall _ _) with (x := c) in Hd' as [? _]. }
      destruct (j <? 0); cbn [app].
      { rewrite (aget_Some _ 0 Ch.minus) by done. cbn [mbind outcome_bind]. rewrite Z.eqb_refl. cbn [drop]. by rewrite drop_0, Hall. }
      destruct (decimal (Z.abs j)) as [|c ds]; [by unfold zlen in Hl'; cbn in Hl'; lia|].
      cbn [app]. rewrite (aget_Some _ 0 c) by done. cbn [mbind outcome_bind]. f_equal. case_match; [|done].
      cbn [forallb] in Hall. apply andb_true_iff in Hall as [_ Hall]. cbn [drop]. by rewrite drop_0.
Qed.
End parse.

(** White space as in the C locale. *)
Definition cSpace (c : Z) : bool := (c =? 32) || ((9 <=? c) && (c <=? 13)).

Lemma number_roundtrip_witness :
  (∃ b d, addWord new 18446744073709551615 = Ret b ∧ toS b = Ret d ∧ StrNumber.toWord cSpace d = Ret 18446744073709551615 ∧
     StrNumber.toNat cSpace d = Ret (u32 18446744073709551615) ∧ Str.isNat d = true) ∧
  (∃ b d, addLong new (-9223372036854775808) = Ret b ∧ toS b = Ret d ∧ StrNumber.toLong cSpace d = Ret (-9223372036854775808) ∧
     StrNumber.toInt cSpace d = Ret (s32 (-9223372036854775808)) ∧ Str.isInt d = Ret true).
Proof.
  apply (number_roundtrip cSpace); [|unfold is_u64; lia|lia].
  intros c [H| ->]; [|reflexivity]. unfold Str.isDigit, Ch.zero, Ch.nine, cSpace in *.
  apply negb_true_iff, orb_false_iff in H. rewrite !Z.ltb_ge in H.
  rewrite (proj2 (Z.eqb_neq c 32)), (proj2 (Z.leb_gt c 13)), andb_false_r by lia. reflexivity.
Defined.

(** The conversions to numbers accept what is not a number of their type: the empty string
    is 0, numbers that do not fit in 32 bits lose their upper bits, a negative number becomes
    a large unsigned one, and a number with more than 50 digits is an error. *)
Theorem number_silent :
  StrNumber.toInt cSpace (strData []) = Ret 0 ∧ StrNumber.toNat cSpace (strData []) = Ret 0 ∧
  StrNumber.toInt cSpace (strData (decimal (2 ^ 32))) = Ret 0 ∧ StrNumber.toNat cSpace (strData (decimal (2 ^ 32 + 5))) = Ret 5 ∧
  StrNumber.toNat cSpace (strData [45; 49]) = Ret (2 ^ 32 - 1) ∧
  StrNumber.toWord cSpace (strData (replicate 51 48)) = Throw (StrError "Not a number").
Proof. vm_compute. done. Qed.
