(* ===== verification/StrTextCorrect.v ===== *)
(** * Escape sequences, line endings and white space: correctness *)

From stdpp Require Import base list numbers decidable option strings.
From Stdlib Require Import ZArith Lia.
From S2P Require Import Prelude Utf UtfCorrect ConvertCorrect Buffer BufferCorrect Str StrIter StrBuf StrCorrect StrIterCorrect StrFindCorrect StrBufCorrect StrNumber.

(** ** Escape sequences *)

Section escape.
Context (extra extra2 : Z).

(** What [escape] writes for a character. *)
Definition esc (c : Z) : list Z :=
  if c =? Ch.nl then [Ch.backslash; 110]
  else if c =? Ch.cr then [Ch.backslash; 114]
  else if c =? Ch.tab then [Ch.backslash; 116]
  else if c =? Ch.vt then [Ch.backslash; 118]
  else if c =? Ch.backslash then [Ch.backslash; Ch.backslash]
  else if c =? extra then Ch.backslash :: enc16 c
  else if c =? extra2 then Ch.backslash :: enc16 c
  else if c <? 32 then [Ch.backslash; 120] ++ hexDigits 2 c
  else enc16 c.

(** An additional character to escape, or none; it must not be one that already has a
    meaning behind a backslash. *)
Definition okExtra (x : Z) : Prop := x = 0 ∨ char x ∧ x ∉ [110; 114; 116; 118; 48; 120].

Lemma esc_length c : 1 ≤ zlen (esc c) ≤ 4.
Proof.
  pose proof (enc16_length c). unfold esc.
  repeat (case_match; [rewrite ?zlen_cons, ?zlen_app, ?hexDigits_length; unfold zlen in *; cbn [length]; lia|]). lia.
Qed.

Lemma enc16_esc c : zlen (enc16 c) ≤ zlen (esc c).
Proof.
  pose proof (enc16_length c). unfold esc.
  repeat (case_match; [rewrite ?zlen_cons, ?zlen_app, ?hexDigits_length; unfold zlen in *; cbn [length]; lia|]). lia.
Qed.

Lemma esc_ge cs : zlen (units16 cs) ≤ zlen (concat (esc <$> cs)).
Proof.
  induction cs as [|c cs IH]; [done|]. rewrite units16_cons. cbn [fmap list_fmap concat]. rewrite !zlen_app.
  pose proof (enc16_esc c). lia.
Qed.

(** The units of an escaped character; [m] is 32 when no control characters are added. *)
Lemma esc_range m c : char c → 1 ≤ m ≤ 32 → (c = extra ∨ c = extra2 → m ≤ c) → Forall (λ x, m ≤ x < 2 ^ 16) (esc c).
Proof.
  intros Hc Hm He.
  assert (Henc : m ≤ c → Forall (λ x, m ≤ x < 2 ^ 16) (enc16 c)).
  { intros Hge. destruct (enc16_char c Hc) as [l t L1 _ L3|]; repeat constructor; try lia.
    - destruct (decide (m ≤ l)) as [|Hl]; [done|]. exfalso.
      assert (utf16.leading l = false) as E by (apply not_surrogate; lia). congruence.
    - destruct (decide (m ≤ t)) as [|Hl]; [done|]. exfalso.
      assert (utf16.trailing t = false) as E by (apply not_trailing; lia). congruence. }
  unfold esc, Ch.nl, Ch.cr, Ch.tab, Ch.vt, Ch.backslash.
  repeat (match goal with |- context [if c =? ?x then [_; _] else _] => destruct (Z.eqb_spec c x); [repeat constructor; lia|] end).
  destruct (Z.eqb_spec c extra); [constructor; [lia|auto]|]. destruct (Z.eqb_spec c extra2); [constructor; [lia|auto]|].
  destruct (Z.ltb_spec c 32) as [Hlt|Hge]; [|apply Henc; lia]. do 2 (constructor; [lia|]).
  pose (P c := forallb (λ x, (32 <=? x) && (x <? 2 ^ 16)) (hexDigits 2 c)).
  assert (P c = true) as HP by (apply (forall_range P 0 32); [vm_compute; reflexivity|destruct Hc as [[? _] _]; lia]).
  apply Forall_forall. intros x Hx. unfold P in HP. rewrite forallb_forall in HP.
  specialize (HP x (proj1 (list_elem_of_In _ _) Hx)). lia.
Qed.

Lemma esc_all m cs : chars cs → 1 ≤ m ≤ 32 → (∀ c, c ∈ cs → c = extra ∨ c = extra2 → m ≤ c) →
  Forall (λ x, m ≤ x < 2 ^ 16) (concat (esc <$> cs)).
Proof.
  intros Hcs Hm. induction Hcs as [|c cs Hc Hcs IH]; intros He; [constructor|]. cbn [fmap list_fmap concat]. apply Forall_app. split.
  - apply esc_range; [done|done|]. apply He. apply elem_of_cons; by left.
  - apply IH. intros x Hx. apply He. apply elem_of_cons; by right.
Qed.

Lemma escapeChar_run b u c : simple b u → char c → zlen u + 4 ≤ 2 ^ 30 →
  returns (StrText.escapeChar c b extra extra2) (λ r,
    match r with Some b' => simple b' (u ++ esc c) | None => esc c = enc16 c end).
Proof.
  intros Hs Hc Hz. unfold StrText.escapeChar, esc.
  assert (Htwo : ∀ x, 0 < x < 2 ^ 16 → returns (to ← StrBuf.addCStr b [Ch.backslash; x; 0]; Ret (Some to))
    (λ r, match r with Some b' => simple b' (u ++ [Ch.backslash; x]) | None => [Ch.backslash; x] = enc16 c end)).
  { intros x Hx. eapply returns_bind; [apply (simple_addCStr b u [Ch.backslash; x] [] Hs)|by intros b' Hb'].
    - repeat constructor; unfold Ch.backslash; lia.
    - unfold zlen in *. cbn [length]. lia. }
  repeat (match goal with |- context [if c =? ?x then to ← StrBuf.addCStr _ [_; ?y; _]; _ else _] =>
    destruct (Z.eqb_spec c x); [apply Htwo; unfold Ch.backslash; lia|] end).
  destruct Hc as [Hsc Hnz]. rewrite (proj2 (Z.eqb_neq c 0)) by done.
  assert (Hextra : returns (to ← StrBuf.addCStr b [Ch.backslash; 0]; to ← StrBuf.addChar to c; Ret (Some to))
    (λ r, match r with Some b' => simple b' (u ++ Ch.backslash :: enc16 c) | None => Ch.backslash :: enc16 c = enc16 c end)).
  { eapply returns_bind; [apply (simple_addCStr b u [Ch.backslash] [] Hs); [repeat constructor; unfold Ch.backslash; lia|unfold zlen in *; cbn [length]; lia]|].
    intros b1 H1. eapply returns_bind; [apply (simple_addChar b1 _ c H1); [done|rewrite zlen_app; unfold zlen in *; cbn [length]; lia]|].
    intros b2 H2. by rewrite <- app_assoc in H2. }
  destruct (Z.eqb_spec c extra) as [<-|He1]; [rewrite (proj2 (Z.eqb_neq c 0)) by done; exact Hextra|]. cbn [andb].
  destruct (Z.eqb_spec c extra2) as [<-|He2]; [rewrite (proj2 (Z.eqb_neq c 0)) by done; exact Hextra|]. cbn [andb].
  destruct (Z.ltb_spec c 32) as [Hlt|Hge]; [|done].
  eapply returns_bind; [apply (simple_addCStr b u [Ch.backslash; 120] [] Hs); [repeat constructor; unfold Ch.backslash; lia|unfold zlen in *; cbn [length]; lia]|].
  intros b1 H1. unfold u8. destruct Hsc as [Hsc _]. rewrite Z.mod_small by lia. unfold StrBuf.addHex. cbn [hdigits hexByte value].
  change (Z.to_nat (Z.min 32 2)) with 2%nat. rewrite hexLoop_eq.
  eapply returns_bind; [apply (simple_addCStr b1 _ (hexDigits 2 c) [] H1 (hexDigits_plain 2 c)); rewrite zlen_app, hexDigits_length; unfold zlen in *; cbn [length]; lia|].
  intros b2 H2. by rewrite <- app_assoc in H2.
Qed.

Lemma escapeLoop_run s cs : isStr (sdata s) cs → ∀ fuel k b u, (k ≤ length cs)%nat → (length cs - k < fuel)%nat → simple b u →
  zlen u + 4 * Z.of_nat (length cs - k) ≤ 2 ^ 30 →
  returns (StrText.escapeLoop fuel (it s cs k) Iter.end_ b extra extra2) (λ b', simple b' (u ++ concat (esc <$> drop k cs))).
Proof.
  intros Hs. induction fuel as [|fuel IH]; intros k b u Hk Hf Hb Hz; [lia|]. cbn [StrText.escapeLoop].
  rewrite (eq_end s cs Hs k Hk). case_bool_decide as E; [rewrite drop_ge by lia; cbn; by rewrite app_nil_r|].
  destruct (lookup_lt_is_Some_2 cs k ltac:(lia)) as [c Hc]. rewrite (v_it s cs Hs k c Hc). cbn [mbind outcome_bind].
  destruct (lookup_char s cs Hs k c Hc) as (Hch & _ & _). rewrite (drop_S cs c k Hc). cbn [fmap list_fmap concat].
  pose proof (esc_length c). eapply returns_bind; [apply (escapeChar_run b u c Hb Hch); lia|]. intros r Hr.
  eapply (returns_bind _ _ (λ b1, simple b1 (u ++ esc c))).
  - destruct r as [b'|]; [exact Hr|]. rewrite Hr. apply simple_addChar; [done|done|lia].
  - intros b1 H1. rewrite (next_it s cs Hs k c Hc). cbn [mbind outcome_bind].
    eapply returns_mono; [apply (IH (S k) b1 _ ltac:(lia) ltac:(lia) H1); rewrite zlen_app; lia|].
    cbn beta. intros b2 H2. by rewrite <- app_assoc in H2.
Qed.
End escape.

Section unescape.
Context (extra extra2 : Z) (Hx1 : okExtra extra) (Hx2 : okExtra extra2).
Context (s : list Z) (cap : Z).
Notation loop := (λ fuel at_ to, Str.unescapeLoop fuel s cap at_ to extra extra2).

Lemma putOut_eq to x : zlen to < cap → Str.put cap to x = Ret (to ++ [x]).
Proof. intros H. unfold Str.put. by rewrite (proj2 (Z.ltb_lt _ _)). Qed.

(** A unit that is not a backslash. *)
Lemma unescape_plain fuel at_ to x : has_at s at_ [x] → x ≠ Ch.backslash → zlen to ≤ at_ → at_ < cap - 1 →
  loop (S fuel) at_ to = loop fuel (at_ + 1) (to ++ [x]).
Proof.
  intros Ha Hx Ht Hc. apply has_at_cons in Ha as [Ha _]. cbn [Str.unescapeLoop]. rewrite (proj2 (Z.ltb_lt _ _)) by lia.
  rewrite (aget_Some _ _ _ Ha). cbn [mbind outcome_bind]. rewrite (proj2 (Z.eqb_neq x _)) by done.
  rewrite putOut_eq by lia. done.
Qed.

(** A backslash before something that [unescape] knows. *)
Lemma unescape_known fuel at_ to n y : has_at s at_ [Ch.backslash] → at_ < cap - 1 →
  Str.unescape1 true s cap at_ to extra extra2 = Ret (Some (at_ + n, to ++ y)) →
  loop (S fuel) at_ to = loop fuel (at_ + n + 1) (to ++ y).
Proof.
  intros Ha Hc E. apply has_at_cons in Ha as [Ha _]. cbn [Str.unescapeLoop]. rewrite (proj2 (Z.ltb_lt _ _)) by lia.
  rewrite (aget_Some _ _ _ Ha). cbn [mbind outcome_bind]. rewrite Z.eqb_refl, E. done.
Qed.

(** The additional characters. *)
Lemma extra_hit at_ to x : char x → has_at s (at_ + 1) (enc16 x) → zlen to + zlen (enc16 x) ≤ cap →
  Str.unescapeExtra s cap at_ to x = Ret (Some (at_ + zlen (enc16 x), to ++ enc16 x)).
Proof.
  intros Hx Ha Hc. unfold Str.unescapeExtra. revert Ha Hc.
  destruct (enc16_char x Hx) as [l t _ _ _ Hl Ht _ El Et _|_ _ Hr El Et]; intros Ha Hc; rewrite El, Et;
    apply has_at_cons in Ha as [H1 Ha]; rewrite (aget_Some _ _ _ H1); cbn [mbind outcome_bind]; rewrite Z.eqb_refl.
  - apply has_at_cons in Ha as [H2 _]. replace (at_ + 1 + 1) with (at_ + 2) in H2 by lia.
    change (zlen [l; t]) with 2 in *. rewrite (proj2 (Z.eqb_neq l 0)) by lia. cbn [negb]. rewrite (aget_Some _ _ _ H2). cbn [mbind outcome_bind].
    rewrite Z.eqb_refl, putOut_eq by lia. cbn [mbind outcome_bind]. rewrite putOut_eq by (rewrite zlen_app; change (zlen [l]) with 1; lia).
    cbn [mbind outcome_bind]. by rewrite <- app_assoc.
  - cbn [negb]. change (zlen [x]) with 1 in *. rewrite (proj2 (Z.eqb_neq x 0)), Z.eqb_refl, putOut_eq by lia. done.
Qed.

Lemma extra_miss at_ to x c : x = 0 ∨ char x → char c → x ≠ c → has_at s (at_ + 1) (enc16 c) → (∃ y, s !! (at_ + 1 + zlen (enc16 c)) = Some y) →
  Str.unescapeExtra s cap at_ to x = Ret None.
Proof.
  intros [->|Hx] Hc Hne Ha Hend; [done|]. unfold Str.unescapeExtra. revert Ha Hend.
  destruct (enc16_char c Hc) as [l t L1 L2 _ Hl Ht A _ _ _|L1 L2 Hr _ _]; intros Ha Hend; apply has_at_cons in Ha as [H1 Ha];
    rewrite (aget_Some _ _ _ H1); cbn [mbind outcome_bind];
    destruct (enc16_char x Hx) as [l' t' L1' L2' _ Hl' Ht' A' El' Et' _|L1' L2' Hr' El' Et']; rewrite El', Et'.
  - rewrite (proj2 (Z.eqb_neq l' 0)) by lia. cbn [negb]. destruct (Z.eqb_spec l l') as [->|]; [|done].
    apply has_at_cons in Ha as [H2 _]. replace (at_ + 1 + 1) with (at_ + 2) in H2 by lia. rewrite (aget_Some _ _ _ H2). cbn [mbind outcome_bind].
    destruct (Z.eqb_spec t t') as [->|]; [congruence|done].
  - cbn [negb]. rewrite (proj2 (Z.eqb_neq x 0)) by lia. destruct (Z.eqb_spec l x) as [->|]; [congruence|done].
  - rewrite (proj2 (Z.eqb_neq l' 0)) by lia. cbn [negb]. destruct (Z.eqb_spec c l') as [->|]; [congruence|done].
  - cbn [negb]. rewrite (proj2 (Z.eqb_neq x 0)) by lia. by rewrite (proj2 (Z.eqb_neq c x)) by done.
Qed.

(** The first unit of an additional character has no other meaning behind a backslash. *)
Lemma extra_first c l r : okExtra c → c ≠ 0 → c ≠ Ch.backslash → enc16 c = l :: r →
  (l =? 110) = false ∧ (l =? 114) = false ∧ (l =? 116) = false ∧ (l =? 118) = false ∧ (l =? 48) = false ∧ (l =? 120) = false ∧
  (l =? Ch.backslash) = false.
Proof.
  intros [?|[Hc Hn]] Hnz Hb E; [done|]. rewrite !not_elem_of_cons in Hn. revert E.
  destruct (enc16_char c Hc) as [l' t' L|]; intros [= <- _]; rewrite !Z.eqb_neq; [|tauto].
  unfold Ch.backslash. split_and!; intros ->; done.
Qed.

(** In one or two rounds, the units [y] at [at_] are read as the character [c]. *)
Definition reads (y : list Z) (c at_ : Z) (to : list Z) : Prop :=
  ∃ m, (1 ≤ m ≤ length y)%nat ∧ ∀ fuel, loop (m + fuel)%nat at_ to = loop fuel (at_ + zlen y) (to ++ enc16 c).

Section reads.
Context (c at_ : Z) (to : list Z) (Hc : char c) (Ht : zlen to ≤ at_) (Hs : cap = zlen s).

(** A backslash and [n] units. *)
Lemma reads_known n y : has_at s at_ (Ch.backslash :: y) → zlen y = n → at_ + n + 1 ≤ cap - 1 → 1 ≤ n →
  Str.unescape1 true s cap at_ to extra extra2 = Ret (Some (at_ + n, to ++ enc16 c)) → reads (Ch.backslash :: y) c at_ to.
Proof.
  intros Ha Hn Hcap Hn1 E. exists 1%nat. split; [cbn [length]; lia|]. intros fuel. cbn [Nat.add].
  apply (has_at_app s at_ [Ch.backslash] y) in Ha as [Hb1 _].
  rewrite (unescape_known fuel at_ to n (enc16 c) Hb1 ltac:(lia) E), zlen_cons. cbn beta. f_equal. lia.
Qed.

Lemma reads_extra : has_at s at_ (Ch.backslash :: enc16 c) → at_ + zlen (Ch.backslash :: enc16 c) ≤ cap - 1 →
  c ≠ Ch.backslash → (c = extra ∨ c ≠ extra ∧ c = extra2) → reads (Ch.backslash :: enc16 c) c at_ to.
Proof.
  intros Ha Hcap Hb Hor. assert (Hok : okExtra c) by (destruct Hor as [->|[_ ->]]; done). rewrite zlen_cons in *.
  pose proof (enc16_length c). apply (reads_known (zlen (enc16 c))); [done|done|lia|lia|]. apply has_at_cons in Ha as [_ Ha].
  destruct (enc16 c) as [|l r] eqn:El; [change (zlen []) with 0 in *; lia|].
  destruct (extra_first c l r Hok (proj2 Hc) Hb El) as (F1 & F2 & F3 & F4 & F5 & F6 & F7).
  unfold Str.unescape1. apply has_at_cons in Ha as Hl. destruct Hl as [Hl _]. rewrite (aget_Some _ _ _ Hl). cbn [mbind outcome_bind].
  rewrite F1, F2, F3, F4, F5, F6, F7. cbn [andb]. rewrite <- El in *. destruct Hor as [->|[Hne ->]].
  - rewrite (extra_hit at_ to extra Hc Ha) by lia. done.
  - rewrite (extra_miss at_ to extra extra2); [|by destruct Hx1 as [->|[? _]]; [left|right]|done|done|done|].
    + cbn [mbind outcome_bind]. by rewrite (extra_hit at_ to extra2 Hc Ha) by lia.
    + apply lookupZ_lt_Some. pose proof (zlen_nonneg to). lia.
Qed.

Lemma reads_control : has_at s at_ ([Ch.backslash; 120] ++ hexDigits 2 c) → at_ + 4 ≤ cap - 1 → c < 32 →
  reads ([Ch.backslash; 120] ++ hexDigits 2 c) c at_ to.
Proof.
  intros Ha Hcap Hlt. apply (reads_known 3 (120 :: hexDigits 2 c)); [done|done|lia|lia|].
  apply has_at_cons in Ha as [_ Ha]. apply has_at_cons in Ha as [Hx Hh]. destruct Hc as [[Hsc _] _].
  cbn [hexDigits app] in Hh. apply has_at_cons in Hh as [Hh1 Hh2]. apply has_at_cons in Hh2 as [Hh2 _].
  pose (P c := negb (Str.hexDigit (StrBuf.hexChar (Z.land (Z.shiftr c 4) 15)) <? 0) && negb (Str.hexDigit (StrBuf.hexChar (Z.land c 15)) <? 0) &&
    (u16 (Z.lor (Z.shiftl (Str.hexDigit (StrBuf.hexChar (Z.land (Z.shiftr c 4) 15))) 4) (Str.hexDigit (StrBuf.hexChar (Z.land c 15)))) =? c) &&
    bool_decide (enc16 c = [c])).
  assert (P c = true) as HP by (apply (forall_range P 0 32); [vm_compute; reflexivity|lia]).
  unfold P in HP. rewrite !andb_true_iff, !negb_true_iff, Z.eqb_eq, bool_decide_eq_true in HP. destruct HP as [[[P1 P2] P3] P4].
  unfold Str.unescape1. rewrite (aget_Some _ _ _ Hx). cbn [mbind outcome_bind]. cbn -[Str.put Z.add aget].
  replace (at_ + 1 + 1) with (at_ + 2) in Hh1 by lia. replace (at_ + 1 + 1 + 1) with (at_ + 3) in Hh2 by lia.
  rewrite (aget_Some _ _ _ Hh1). cbn [mbind outcome_bind]. rewrite P1, (aget_Some _ _ _ Hh2). cbn [mbind outcome_bind].
  rewrite P2, P3, P4, putOut_eq by lia. done.
Qed.

Lemma reads_plain : has_at s at_ (enc16 c) → at_ + zlen (enc16 c) ≤ cap - 1 → c ≠ Ch.backslash → reads (enc16 c) c at_ to.
Proof.
  intros Ha Hcap Hb. unfold reads. revert Ha Hcap. destruct (enc16_char c Hc) as [l t L1 L2 L3|L1 L2]; intros Ha Hcap.
  - exists 2%nat. split; [cbn; lia|]. intros fuel. cbn [Nat.add]. change (zlen [l; t]) with 2 in *.
    apply (has_at_app s at_ [l] [t]) in Ha as [Ha1 Ha2]. change (zlen [l]) with 1 in Ha2.
    rewrite (unescape_plain (S fuel) at_ to l Ha1) by (lia || (intros ->; done)).
    rewrite (unescape_plain fuel (at_ + 1) (to ++ [l]) t Ha2) by (lia || (by intros ->) || (rewrite zlen_app; change (zlen [l]) with 1; lia)).
    rewrite <- app_assoc. cbn [app]. f_equal. lia.
  - exists 1%nat. split; [cbn; lia|]. intros fuel. cbn [Nat.add]. change (zlen [c]) with 1 in *.
    by rewrite (unescape_plain fuel at_ to c Ha) by (done || lia).
Qed.

(** Sequences of a backslash and a letter. *)
Lemma reads_letter x y : has_at s at_ [Ch.backslash; x] → at_ + 2 ≤ cap - 1 → enc16 c = [y] →
  (x, y) ∈ [(110, Ch.nl); (114, Ch.cr); (116, Ch.tab); (118, Ch.vt); (Ch.backslash, Ch.backslash)] →
  reads [Ch.backslash; x] c at_ to.
Proof.
  intros Ha Hcap Ee Hxy. apply (reads_known 1 [x]); [done|done|lia|lia|]. rewrite Ee. apply has_at_cons in Ha as [_ Ha].
  apply has_at_cons in Ha as [Ha _]. unfold Str.unescape1. rewrite (aget_Some _ _ _ Ha). cbn [mbind outcome_bind].
  rewrite !elem_of_cons in Hxy. destruct Hxy as [[= -> ->]|[[= -> ->]|[[= -> ->]|[[= -> ->]|[[= -> ->]|H]]]]];
    [..|by apply elem_of_nil in H]; cbn -[Str.put Z.add]; rewrite putOut_eq by lia; done.
Qed.

(** An escaped character is read back. *)
Lemma unescape_char : has_at s at_ (esc extra extra2 c) → at_ + zlen (esc extra extra2 c) ≤ cap - 1 →
  reads (esc extra extra2 c) c at_ to.
Proof.
  unfold esc. intros Ha Hcap.
  repeat (match goal with |- context [if c =? ?x then [_; _] else _] =>
    destruct (Z.eqb_spec c x) as [E|]; [change (zlen [_; _]) with 2 in Hcap; apply (reads_letter _ x); [done|lia|by rewrite E|];
      rewrite !elem_of_cons; tauto|] end).
  destruct (Z.eqb_spec c extra) as [He1|He1]; [apply reads_extra; auto|].
  destruct (Z.eqb_spec c extra2) as [He2|He2]; [apply reads_extra; auto|].
  destruct (Z.ltb_spec c 32) as [Hlt|Hge]; [|by apply reads_plain].
  apply reads_control; [done| |done]. rewrite zlen_app, hexDigits_length in Hcap. change (zlen [_; _]) with 2 in Hcap. lia.
Qed.
End reads.

Lemma unescapeLoop_run cs : ∀ fuel at_ to, chars cs → has_at s at_ (concat (esc extra extra2 <$> cs)) → cap = zlen s →
  at_ + zlen (concat (esc extra extra2 <$> cs)) = cap - 1 → zlen to ≤ at_ →
  zlen (concat (esc extra extra2 <$> cs)) < Z.of_nat fuel → loop fuel at_ to = Ret (to ++ units16 cs).
Proof.
  induction cs as [|c cs IH]; intros fuel at_ to Hcs Ha Hs Hend Ht Hf.
  { destruct fuel; [change (zlen (concat _)) with 0 in Hf; lia|]. change (zlen (concat _)) with 0 in Hend. cbn [Str.unescapeLoop].
    rewrite (proj2 (Z.ltb_ge _ _)) by lia. unfold units16. cbn. by rewrite app_nil_r. }
  apply Forall_cons_1 in Hcs as [Hc Hcs]. cbn [fmap list_fmap concat] in *. rewrite zlen_app in *. apply has_at_app in Ha as [Ha1 Ha2].
  pose proof (zlen_nonneg (concat (esc extra extra2 <$> cs))).
  destruct (unescape_char c at_ to Hc Ht Hs Ha1 ltac:(lia)) as (m & Hm & Hrun).
  replace fuel with (m + (fuel - m))%nat by (unfold zlen in *; lia). rewrite Hrun.
  pose proof (enc16_esc extra extra2 c).
  rewrite IH; [rewrite units16_cons, app_assoc; done|done|done|done|lia|rewrite zlen_app; lia|unfold zlen in *; lia].
Qed.
End unescape.

(** C16: Escaping a string and taking the escape sequences out again gives the string, for all
    well-formed strings and whatever additional characters are escaped, as long as they do not
    already have a meaning behind a backslash; the escaped string has no control characters
    other than these. *)
Theorem escape_roundtrip s cs extra extra2 : isStr (sdata s) cs → okExtra extra → okExtra extra2 → 4 * zlen cs + 1 ≤ 2 ^ 30 →
  ∃ d, StrText.escape s extra extra2 = Ret d ∧ Str.unescape d extra extra2 = Ret (strData (units16 cs)) ∧
    (extra = 0 ∨ 32 ≤ extra → extra2 = 0 ∨ 32 ≤ extra2 → Forall (λ c, 32 ≤ c < 2 ^ 16) (Str.body d)).
Proof.
  intros Hs H1 H2 Hz. pose proof (isStr_chars _ _ Hs) as Hcs. set (y := concat (esc extra extra2 <$> cs)).
  assert (Hy : zlen y ≤ 4 * zlen cs).
  { unfold y. clear. induction cs as [|c cs IH]; [done|]. cbn [fmap list_fmap concat]. rewrite zlen_app, zlen_cons.
    pose proof (esc_length extra extra2 c). lia. }
  pose proof (zlen_nonneg y). pose proof (zlen_nonneg cs).
  exists (strData y). split_and!.
  - unfold StrText.escape. rewrite (begin_it s cs).
    destruct (proj1 (returns_exists _ _) (escapeLoop_run extra extra2 s cs Hs (S (length (units (sdata s)))) 0 _ [] ltac:(lia)
      ltac:(rewrite (isStr_units _ _ Hs), length_app; pose proof (units16_leadings cs Hcs); pose proof (leadings_nonneg (units16 cs)); unfold zlen in *; cbn [length]; lia)
      simple_new ltac:(change (zlen []) with 0; unfold zlen in *; lia))) as (b & -> & [R _ _ _]).
    cbn [mbind outcome_bind]. by apply toS_eq.
  - unfold Str.unescape. unfold strData at 1 2 3 4. unfold scount. cbn [units].
    rewrite (unescapeLoop_run extra extra2 H1 H2 (y ++ [0]) (zlen (y ++ [0])) cs _ 0 []); try done.
    + cbn [mbind outcome_bind app]. unfold Str.written. rewrite zlen_term.
      assert (zlen (units16 cs) ≤ zlen y) by (apply esc_ge).
      replace (Z.to_nat (zlen y + 1 - zlen (units16 cs))) with (S (Z.to_nat (zlen y - zlen (units16 cs)))) by lia.
      cbn [replicate]. apply fromCStr_eq; [by apply units16_plain|lia].
    + apply has_at_start.
    + rewrite zlen_term. fold y. lia.
    + fold y. rewrite length_app. unfold zlen. cbn [length]. lia.
  - rewrite body_strData. intros G1 G2. apply esc_all; [done|lia|]. intros c Hc Hor.
    pose proof (proj1 (Forall_forall _ _) Hcs c Hc) as [_ Hnz]. destruct Hor as [-> | ->]; lia.
Qed.

Lemma escape_roundtrip_witness :
  ∃ d, StrText.escape (mkStrObj 1 (strData [34; 10; 0xD83D; 0xDE00; 92; 7])) 34 0x1F600 = Ret d ∧
    Str.unescape d 34 0x1F600 = Ret (strData [34; 10; 0xD83D; 0xDE00; 92; 7]) ∧
    (34 = 0 ∨ 32 ≤ 34 → 0x1F600 = 0 ∨ 32 ≤ 0x1F600 → Forall (λ c, 32 ≤ c < 2 ^ 16) (Str.body d)).
Proof.
  apply (escape_roundtrip (mkStrObj 1 (strData [34; 10; 0xD83D; 0xDE00; 92; 7])) [34; 10; 0x1F600; 92; 7] 34 0x1F600).
  - split; [reflexivity| |reflexivity]. repeat constructor; lia.
  - right. split; [repeat constructor; lia|]. rewrite list_elem_of_In. cbn. lia.
  - right. split; [repeat constructor; lia|]. rewrite list_elem_of_In. cbn. lia.
  - vm_compute. discriminate.
Defined.

(** ** Line endings *)

Lemma toCrLf_length prev u : zlen u ≤ zlen (Str.toCrLfHelp prev u) ≤ 2 * zlen u.
Proof.
  revert prev. induction u as [|c u IH]; intros prev; [done|]. cbn [Str.toCrLfHelp]. rewrite zlen_app, zlen_cons.
  specialize (IH (Some c)). case_match; unfold zlen in *; cbn [length]; lia.
Qed.

Lemma toCrLf_same prev u : zlen (Str.toCrLfHelp prev u) = zlen u → Str.toCrLfHelp prev u = u.
Proof.
  revert prev. induction u as [|c u IH]; intros prev; [done|]. cbn [Str.toCrLfHelp]. rewrite zlen_app, zlen_cons.
  pose proof (toCrLf_length (Some c) u). case_match; unfold zlen in *; cbn [length]; [lia|]. intros E. cbn [app]. f_equal. apply IH. lia.
Qed.

Lemma toCrLf_plain prev u : plain u → plain (Str.toCrLfHelp prev u).
Proof.
  intros Hu. revert prev. induction Hu as [|c u Hc Hu IH]; intros prev; [constructor|]. cbn [Str.toCrLfHelp].
  apply Forall_app. split; [|apply IH]. case_match; repeat constructor; unfold Ch.cr; lia.
Qed.

(** Without carriage returns, what [toCrLf] adds is taken away again. *)
Lemma fromCrLf_toCrLf u : ∀ prev, Ch.cr ∉ u → Str.fromCrLfHelp (Str.toCrLfHelp prev u) = u.
Proof.
  induction u as [|c u IH]; intros prev Hu; [done|]. apply not_elem_of_cons in Hu as [Hc Hu]. cbn [Str.toCrLfHelp].
  specialize (IH (Some c) Hu). destruct (Z.eqb_spec c Ch.nl) as [->|Hn]; cbn [andb].
  - case_match; cbn [app Str.fromCrLfHelp]; [rewrite !Z.eqb_refl|]; rewrite (proj2 (Z.eqb_neq Ch.nl Ch.cr)) by done;
      cbn [app]; by rewrite IH.
  - cbn [app Str.fromCrLfHelp]. rewrite (proj2 (Z.eqb_neq c Ch.cr)) by done. cbn [app]. by rewrite IH.
Qed.

Lemma convertLines_eq out u : zlen out + 1 < 2 ^ 32 → zlen u + 1 < 2 ^ 32 →
  (let len := u32 (zlen out) in
   if len =? Str.charCount (strData u) then Ret (strData u)
   else to ← Str.create 0 len out; Ret (Str.fromData to)) =
  Ret (if zlen out =? zlen u then strData u else strData out).
Proof.
  intros Ho Hu. pose proof (zlen_nonneg out). unfold strData at 1. rewrite charCount_eq by lia.
  rewrite u32_small by (unfold is_u32; lia). case_match; [done|]. rewrite create_eq by done. cbn [mbind outcome_bind].
  by rewrite fromData_eq.
Qed.

(** Converting a text without carriage returns to the line endings of Windows and back gives
    the text again. *)
Theorem crlf_roundtrip u : plain u → Ch.cr ∉ u → 2 * zlen u + 1 < 2 ^ 32 →
  ∃ t, Str.toCrLf (strData u) = Ret t ∧ Str.fromCrLf t = Ret (strData u).
Proof.
  intros Hp Hcr Hz. pose proof (zlen_nonneg u). pose proof (toCrLf_length None u) as Hl.
  pose proof (fromCrLf_toCrLf u None Hcr) as Hback. pose proof (toCrLf_same None u) as Hsame.
  set (out := Str.toCrLfHelp None u) in *.
  exists (if zlen out =? zlen u then strData u else strData out). split.
  - unfold Str.toCrLf. rewrite body_strData. fold out. apply convertLines_eq; lia.
  - assert ((if zlen out =? zlen u then strData u else strData out) = strData out) as ->.
    { destruct (Z.eqb_spec (zlen out) (zlen u)) as [E|]; [by rewrite Hsame|done]. }
    unfold Str.fromCrLf. rewrite body_strData, Hback. rewrite convertLines_eq by lia. f_equal.
    destruct (Z.eqb_spec (zlen u) (zlen out)) as [E|]; [by rewrite Hsame|done].
Qed.

Lemma crlf_roundtrip_witness :
  ∃ t, Str.toCrLf (strData [65; 10; 66]) = Ret t ∧ Str.fromCrLf t = Ret (strData [65; 10; 66]).
Proof.
  apply (crlf_roundtrip [65; 10; 66]); [repeat constructor; lia|rewrite list_elem_of_In; cbn; unfold Ch.cr; lia|vm_compute; reflexivity].
Defined.

(** [toCrLf] leaves a line break at the start of the text as it is, and [fromCrLf] leaves
    all carriage returns as they are when none of them is before a line break, but turns them
    into line breaks when one is. *)
Theorem crlf_misses u : plain u → zlen u + 2 < 2 ^ 31 →
  (Ch.nl ∉ u → Str.toCrLf (strData (Ch.nl :: u)) = Ret (strData (Ch.nl :: u))) ∧
  (Ch.nl ∉ u → Str.fromCrLf (strData u) = Ret (strData u)) ∧
  Str.fromCrLf (strData [65; Ch.cr; 66; Ch.cr; Ch.nl]) = Ret (strData [65; Ch.nl; 66; Ch.nl]).
Proof.
  intros Hp Hz. pose proof (zlen_nonneg u). split_and!; [| |vm_compute; done].
  - intros Hn. assert (E : ∀ prev v, Ch.nl ∉ v → Str.toCrLfHelp prev v = v).
    { clear. intros prev v. revert prev. induction v as [|c v IH]; intros prev Hv; [done|]. apply not_elem_of_cons in Hv as [Hc Hv].
      cbn [Str.toCrLfHelp]. rewrite (proj2 (Z.eqb_neq c Ch.nl)) by done. cbn [andb app]. by rewrite IH. }
    unfold Str.toCrLf. rewrite body_strData. cbn [Str.toCrLfHelp]. rewrite E by done. cbn [andb]. rewrite andb_false_r. cbn [app].
    rewrite convertLines_eq by (rewrite zlen_cons; lia). by rewrite Z.eqb_refl.
  - intros Hn. assert (E : ∀ v, Ch.nl ∉ v → zlen (Str.fromCrLfHelp v) = zlen v).
    { clear. induction v as [|c v IH]; intros Hv; [done|]. apply not_elem_of_cons in Hv as [Hc Hv]. cbn [Str.fromCrLfHelp].
      rewrite zlen_app, IH, zlen_cons by done. destruct (c =? Ch.cr); [|unfold zlen; cbn [length]; lia].
      destruct v as [|x v]; [done|]. apply not_elem_of_cons in Hv as [Hx _]. rewrite (proj2 (Z.eqb_neq x Ch.nl)) by done.
      unfold zlen. cbn [length]. lia. }
    unfold Str.fromCrLf. rewrite body_strData, convertLines_eq by (rewrite ?E by done; lia). by rewrite E, Z.eqb_refl.
Qed.

Lemma crlf_misses_witness :
  (Ch.nl ∉ [65; 13; 66] → Str.toCrLf (strData [10; 65; 13; 66]) = Ret (strData [10; 65; 13; 66])) ∧
  (Ch.nl ∉ [65; 13; 66] → Str.fromCrLf (strData [65; 13; 66]) = Ret (strData [65; 13; 66])) ∧
  Str.fromCrLf (strData [65; Ch.cr; 66; Ch.cr; Ch.nl]) = Ret (strData [65; Ch.nl; 66; Ch.nl]).
Proof. apply (crlf_misses [65; 13; 66]); [repeat constructor; lia|vm_compute; reflexivity]. Defined.

(** ** White space *)

Definition blank (u : list Z) : Prop := Forall (λ c, Str.whitespace c = true) u.

Lemma skipBlank_run a r k : plain a → blank a → Str.skipBlank (a ++ r) k = Str.skipBlank r (k + zlen a).
Proof.
  revert k. induction a as [|c a IH]; intros k Hp Hb; [change (zlen []) with 0; by rewrite Z.add_0_r|].
  cbn [Str.skipBlank app]. rewrite (plain_nonzero c a Hp). apply Forall_cons_1 in Hp as [_ Hp], Hb as [-> Hb].
  rewrite IH, zlen_cons by done. f_equal. lia.
Qed.

Lemma lastNonBlank_blank b r k e : plain b → blank b → Str.lastNonBlank (b ++ 0 :: r) k e = Ret e.
Proof.
  revert k. induction b as [|c b IH]; intros k Hp Hb; [done|]. cbn [Str.lastNonBlank app]. rewrite (plain_nonzero c b Hp).
  apply Forall_cons_1 in Hp as [_ Hp], Hb as [-> Hb]. by apply IH.
Qed.

Lemma lastNonBlank_snoc m c r : ∀ k e, plain (m ++ [c]) → Str.whitespace c = false →
  Str.lastNonBlank ((m ++ [c]) ++ r) k e = Str.lastNonBlank r (k + zlen (m ++ [c])) (k + zlen (m ++ [c])).
Proof.
  induction m as [|x m IH]; intros k e Hp Hc; cbn [Str.lastNonBlank app] in *; rewrite (plain_nonzero _ _ Hp).
  - rewrite Hc. by change (zlen [c]) with 1.
  - apply Forall_cons_1 in Hp as [_ Hp]. rewrite IH by done. by rewrite zlen_cons, <- Z.add_assoc, (Z.add_comm 1).
Qed.

(** [trimWhitespace] removes the white space around the rest of the text; but a string of
    only white space, which is not empty, is read far outside of its array. *)
Theorem trim_whitespace a m b : plain (a ++ m ++ b) → blank a → blank b →
  match m, last m with c :: _, Some d => Str.whitespace c = false ∧ Str.whitespace d = false | _, _ => b = [] end →
  zlen (a ++ m ++ b) + 1 < 2 ^ 32 →
  Str.trimWhitespace (strData (a ++ m ++ b)) =
    if decide (m = []) then if decide (a = []) then Ret (strData []) else Fault else Ret (strData m).
Proof.
  intros Hp Ha Hb Hm Hz. apply Forall_app in Hp as [Hpa Hp]. apply Forall_app in Hp as [Hpm Hpb].
  pose proof (zlen_nonneg a). pose proof (zlen_nonneg m). pose proof (zlen_nonneg b). rewrite !zlen_app in Hz.
  unfold Str.trimWhitespace, strData at 1 2 3. cbn [units]. rewrite <- !app_assoc, skipBlank_run, Z.add_0_l by done.
  assert (Hdrop : drop (Z.to_nat (zlen a)) (a ++ m ++ b ++ [0]) = m ++ b ++ [0]) by (unfold zlen; by rewrite Nat2Z.id, drop_app_length).
  destruct m as [|c m].
  - rewrite decide_True by done. cbn in Hm. subst b. cbn [app] in *. cbn [Str.skipBlank]. rewrite Z.eqb_refl. cbn [mbind outcome_bind].
    rewrite Hdrop. cbn [Str.lastNonBlank]. rewrite Z.eqb_refl. cbn [mbind outcome_bind].
    case_decide as Ea; [by subst a|]. assert (0 < zlen a) by (destruct a; [done|rewrite zlen_cons; pose proof (zlen_nonneg a); lia]).
    unfold Str.fromRange, unitsAt. rewrite zlen_term.
    assert (u32 (0 - zlen a) = 2 ^ 32 - zlen a) as -> by (unfold u32; rewrite <- (Z.mod_add _ 1), Z.mod_small by lia; lia).
    rewrite (proj2 (Z.leb_gt (zlen a + _) _)), andb_false_r by lia. done.
  - rewrite decide_False by done. destruct (last (c :: m)) as [d|] eqn:El; [|by apply last_None in El]. destruct Hm as [Hc Hd].
    cbn [app Str.skipBlank]. rewrite (plain_nonzero c m Hpm), Hc. cbn [mbind outcome_bind].
    change (c :: m ++ b ++ [0]) with ((c :: m) ++ b ++ [0]). rewrite Hdrop. apply last_Some in El as [m' Em].
    rewrite Em in *. rewrite lastNonBlank_snoc by done. rewrite lastNonBlank_blank by done. cbn [mbind outcome_bind].
    rewrite fromRange_eq by (rewrite ?zlen_app in *; change (zlen [0]) with 1; change (zlen [d]) with 1 in *; lia).
    do 3 f_equal. replace (zlen a + zlen (m' ++ [d]) - zlen a) with (zlen (m' ++ [d])) by lia.
    unfold slice. rewrite Hdrop. unfold zlen. by rewrite Nat2Z.id, take_app_length.
Qed.

Lemma trim_whitespace_witness :
  Str.trimWhitespace (strData [32; 65; 32; 66; 10]) = Ret (strData [65; 32; 66]) ∧ Str.trimWhitespace (strData [32; 9]) = Fault.
Proof.
  split.
  - apply (trim_whitespace [32] [65; 32; 66] [10]); [repeat constructor; lia|repeat constructor|repeat constructor|done|vm_compute; reflexivity].
  - apply (trim_whitespace [32; 9] [] []); [repeat constructor; lia|repeat constructor|repeat constructor|done|vm_compute; reflexivity].
Defined.

(** [isFloat] does not accept exponents, and the units behind a zero in an escape sequence
    are lost. *)
Example isFloat_exponent : Str.isFloat (strData [49; 101; 53]) = Ret false ∧ Str.isFloat (strData [49; 46; 53]) = Ret true.
Proof. split; reflexivity. Qed.

Example unescape_zero : Str.unescape (strData [65; 92; 48; 66]) 0 0 = Ret (strData [65]).
Proof. reflexivity. Qed.

(** The constructor of a buffer from a string puts the terminator into the text. *)
Example fromStr_terminator :
  (b ← StrBuf.addChar (StrBuf.fromStr (strData [65])) 66; StrBuf.toS b) = Ret (strData [65; 0; 66]).
Proof. reflexivity. Qed.
