(* ===== verification/StrStream.v ===== *)
(** * Strings in streams

    The functions of [Core/Str.cpp] that read and write strings, and that a string which was
    written to a stream is read back from any stream that has the bytes. *)

From stdpp Require Import base list numbers decidable option strings.
From Stdlib Require Import ZArith Lia.
From S2P Require Import Prelude Utf UtfCorrect ConvertCorrect Buffer BufferCorrect Stream StreamCorrect MemStream MemStreamCorrect BufferedStream BufferedStreamCorrect Str StrIter StrCorrect StrIterCorrect StrFindCorrect.

(** * Strings in streams

    [write(OStream * )] and [read(IStream * )] of [Core/Str.cpp]: a string is written as the
    number of its bytes in UTF-8 and the bytes. *)

(** A computation that does not use the heap. *)
Definition lift {A} (m : outcome A) : io A := λ h, a ← m; Ret (a, h).

Module StrStream.

(** [write(OStream *to)]; [toChar] allocates the array it returns. *)
Definition write {O : Type} `{OStream O} (to : O) (d : GcWchars) : io O :=
  bytes ← lift (Convert.toChar (units d));
  l ← alloc (zlen bytes);
  a ← load l;
  _ ← store l (mkGcBytes (gfilled a) bytes);
  b ← Buffer.fullBuffer l;
  c ← Buffer.count b;
  _ ← Buffer.setFilled b (u32 (c - 1));
  f ← Buffer.filled b;
  to ← Ostream.writeNat to f;
  '(to, _) ← Ostream.writeAll to b;
  mret to.

Section read.
(** Whether the program is built with [SLOW_DEBUG]. *)
Context (slowDebug : bool).

(** What follows the length: the bytes, and their conversion. *)
Definition readData {I : Type} `{IStream I} (from : I) (count : Z) : io (I * GcWchars) :=
  '(from, b) ← Istream.fillCount from count;
  full ← Buffer.full b;
  if negb full then throw (SerializationFormatError "Not enough data.")
  else
    match b with
    | None => fault
    | Some l =>
        a ← load l;
        '(_, sz) ← lift (Convert.convertCounted (v a) count []);
        '(data, _) ← lift (Convert.convertCounted (v a) count (replicate (Z.to_nat sz) 0));
        let d := mkGcWchars 0 data in
        _ ← lift (Str.validate slowDebug d);
        mret (from, d)
    end.

(** [Str(IStream * )] *)
Definition read {I : Type} `{IStream I} (from : I) : io (I * GcWchars) :=
  '(from, count) ← Istream.readNat from;
  readData from count.

(** [Str(IStream *, Nat limitBytes)]; a [wchar] has two bytes. *)
Definition readLimit {I : Type} `{IStream I} (from : I) (limitBytes : Z) : io (I * GcWchars) :=
  '(from, count) ← Istream.readNat from;
  if limitBytes `div` 2 <=? count then throw (SizeLimitReached "a string" (u32 (count * 2)) limitBytes)
  else readData from count.
End read.
End StrStream.

(** * Strings in streams: correctness

    A string that was written to a stream is read back from any stream that has the bytes. *)

Lemma lift_eq {A} (m : outcome A) a h : m = Ret a → lift m h = Ret (a, h).
Proof. unfold lift. by intros ->. Qed.

Lemma enc8_pos c : char c → Forall (λ b, 0 < b < 2 ^ 8) (enc8 c).
Proof.
  intros [[Hr _] Hnz]. unfold enc8. destruct (conts c) as [|n] eqn:En.
  - assert (c < 0x80) by (unfold conts in En; destruct (Z.ltb_spec c 0x80); [done|]; repeat case_match; done). repeat constructor; lia.
  - constructor.
    + destruct (conts_range c n En ltac:(lia)) as (Hn & _). pose proof (enc8_lead c n En ltac:(lia)) as Hl.
      assert (2 ^ (6 - Z.of_nat n) = 2 * 2 ^ (5 - Z.of_nat n)) as E by (rewrite <- Z.pow_succ_r by lia; f_equal; lia).
      assert (2 ^ (5 - Z.of_nat n) ≤ 2 ^ 5) by (apply Z.pow_le_mono_r; lia). lia.
    + clear. generalize (S n) as k. intros k. induction k as [|k IH]; [constructor|]. cbn [tail]. constructor; [|done].
      unfold cont. pose proof (Z.mod_pos_bound (c `div` 64 ^ Z.of_nat k) 64 ltac:(lia)). lia.
Qed.

Lemma units8_pos cs : chars cs → Forall (λ b, 0 < b < 2 ^ 8) (units8 cs).
Proof. induction 1 as [|c cs Hc Hcs IH]; [constructor|]. unfold units8. cbn. apply Forall_app. split; [by apply enc8_pos|done]. Qed.

Section convert.
Context (cs : list Z) (Hcs : chars cs) (H8 : zlen (units8 cs) + 1 < 2 ^ 32) (H16 : zlen (units16 cs) + 1 < 2 ^ 32).

Lemma toChar_units : Convert.toChar (units16 cs ++ [0]) = Ret (units8 cs ++ [0]).
Proof. apply (two_pass (Convert.convert16 (units16 cs ++ [0]))). intros to Hto. apply convert16_units; done || lia. Qed.

(** The two conversions of the constructor. *)
Lemma convertCounted_units :
  ('(_, sz) ← Convert.convertCounted (units8 cs) (zlen (units8 cs)) [];
   '(data, _) ← Convert.convertCounted (units8 cs) (zlen (units8 cs)) (replicate (Z.to_nat sz) 0); Ret data) = Ret (units16 cs ++ [0]).
Proof.
  apply (two_pass (Convert.convertCounted (units8 cs) (zlen (units8 cs)))). intros to Hto.
  rewrite convertCounted_eq. 2:{ eapply Forall_impl; [apply units8_pos, Hcs|]. cbn beta. lia. }
  apply convert8_units; [|lia|done]. eapply Forall_impl; [exact Hcs|]. intros c [[? _] ?]. lia.
Qed.
End convert.

(** [validate] of a string whose number of surrogate pairs was not set. *)
Lemma validate_uncounted slow u : Forall (λ c, c ≠ 0) u → zlen u < 2 ^ 32 →
  Str.validate slow (mkGcWchars 0 (u ++ [0])) = if slow && negb (Str.leadings u =? 0) then Fault else Ret tt.
Proof.
  intros Hu Hz. destruct slow; [|done]. unfold Str.validate, scount. cbn [units sfilled andb]. rewrite zlen_term. replace (zlen u + 1 - 1) with (zlen u) by lia.
  pose proof (zlen_nonneg u). assert (Hlu : Z.of_nat (Z.to_nat (zlen u)) = zlen u) by lia.
  for_inv (λ i n, n = Str.leadings (take (Z.to_nat i) u)) n Hn; [done| |].
  - intros i n Hi ->. rewrite Hlu in Hi. destruct (lookupZ_lt_Some u i) as [c Hc]; [lia|].
    rewrite (aget_Some _ i c) by (rewrite lookupZ_to_nat in Hc |- * by lia; by apply lookup_app_l_Some). cbn [mbind outcome_bind].
    assert (c ≠ 0) as Hne%Z.eqb_neq by (rewrite Forall_forall in Hu; apply Hu, list_elem_of_lookupZ; eauto). rewrite Hne. cbn [returns].
    rewrite lookupZ_to_nat in Hc by lia. replace (Z.to_nat (i + 1)) with (S (Z.to_nat i)) by lia. rewrite (take_S_r _ _ c Hc), leadings_app. cbn [Str.leadings].
    pose proof (leadings_le (take (Z.to_nat i) u)). pose proof (leadings_nonneg (take (Z.to_nat i) u)). unfold zlen in *. rewrite length_take in *.
    destruct (utf16.leading c); [rewrite u32_small by (unfold is_u32; lia); lia|lia].
  - rewrite Hlu in Hn. rewrite take_ge in Hn by (unfold zlen; lia). subst n.
    rewrite (aget_Some _ _ 0) by (rewrite lookupZ_to_nat by lia; unfold zlen; rewrite Nat2Z.id; by apply list_lookup_middle). cbn [mbind outcome_bind]. rewrite Z.eqb_refl. cbn [assert mbind outcome_bind].
    rewrite (Z.eqb_sym 0). by destruct (Str.leadings u =? 0).
Qed.

Section write.
Context {O : Type} `{OStreamLaws O}.

Lemma str_write_run (o : O) h d cs : owf o h → isStr d cs → zlen (units8 cs) + 1 < 2 ^ 32 →
  runs (StrStream.write o d) h (λ o' h', bytes o' h' = bytes o h ++ be 4 (zlen (units8 cs)) ++ units8 cs ∧ owf o' h' ∧ frame (owns o) h h').
Proof.
  intros Ho Hd Hz. set (y := units8 cs) in *. pose proof (zlen_nonneg y). set (l := length h). unfold StrStream.write.
  eapply runs_step; [apply lift_eq; rewrite (isStr_units _ _ Hd); apply toChar_units; [apply (isStr_chars _ _ Hd)|done]|].
  fold y. eapply runs_step; [apply alloc_eq|]. eapply runs_step; [apply load_eq, view_fresh|]. cbn [gfilled].
  set (a0 := mkGcBytes 0 (y ++ [0])). set (a1 := mkGcBytes (zlen y + 1) (y ++ [0])). set (a := mkGcBytes (zlen y) (y ++ [0])).
  assert (Hc : zlen (y ++ [0]) = zlen y + 1) by apply zlen_term.
  assert (Hw0 : awf a0) by (split; unfold a0, gcount; cbn [gfilled v]; lia).
  assert (Hw1 : awf a1) by (split; unfold a1, gcount; cbn [gfilled v]; lia).
  assert (Hw : awf a) by (split; unfold a, gcount; cbn [gfilled v]; lia).
  assert (Hins : ∀ x x' : GcBytes, <[l := x']> (h ++ [x]) = h ++ [x']) by (intros; unfold l; by rewrite insert_app_r_alt, Nat.sub_diag).
  eapply runs_step; [unfold store; by rewrite Hins|]. fold a0.
  assert (E1 : Buffer.fullBuffer l (h ++ [a0]) = Ret (Some l, h ++ [a1])).
  { unfold Buffer.fullBuffer. rewrite (bind_eq _ _ _ _ _ (load_eq _ l a0 (view_fresh h a0))).
    rewrite (bind_eq _ _ _ _ _ (setFilled_eq _ l a0 _ (view_fresh h a0) Hw0)). unfold mret, io_ret. rewrite Hins.
    unfold gcount, a0. cbn [v]. by rewrite u32_small, Z.min_id, Hc by (unfold is_u32; lia). }
  eapply runs_step; [exact E1|]. eapply runs_step; [apply (count_eq _ (Some l) a1); [apply view_fresh|done]|].
  eapply runs_step; [apply (setFilled_eq _ l a1); [apply view_fresh|done]|]. rewrite Hins. unfold gcount, a1. cbn [v].
  rewrite Hc, u32_small, Z.min_l by (unfold is_u32; lia). replace (zlen y + 1 - 1) with (zlen y) by lia. fold a.
  eapply runs_step; [apply (filled_eq _ (Some l) a); [apply view_fresh|done]|]. cbn [gfilled a].
  destruct (owns_frame o h (h ++ [a]) (λ _, False)) as [Ho0 Hb0]; [done|apply frame_alloc|by intros ? ?|].
  assert (Hno : ∀ k, owns o k → (k < l)%nat) by (intros k; by apply (owns_lt o h)).
  unfold Ostream.writeNat. rewrite be4.
  eapply runs_bind; [apply (writePrim_run o (h ++ [a]) (be 4 (zlen y)) Ho0); by rewrite zlen_be|].
  intros o1 h1 (Hb1 & Ho1 & Hown1 & HF1). rewrite length_app in Hown1. cbn [length] in Hown1. unfold Ostream.writeAll.
  assert (Hl1 : h1 !! l = Some a).
  { destruct HF1 as [_ F1]. rewrite F1; [apply view_fresh|rewrite length_app; cbn; unfold l; lia|]. intros Hk. apply Hno in Hk. lia. }
  eapply runs_bind; [apply (write_law o1 h1 (Some l) a 0); [done| |done|done|lia]|].
  { intros k [= <-] Hk. destruct (Hown1 l Hk) as [Hk'|Hk']; [apply Hno in Hk'; lia|unfold l in *; lia]. }
  intros r h2 (o2 & -> & Hb2 & Ho2 & _ & HF2). apply runs_ret. split_and!; [|done|].
  - rewrite Hb2, Hb1, Hb0, <- app_assoc. do 2 f_equal. unfold data, a. cbn [gfilled v]. unfold zlen. by rewrite Nat2Z.id, take_app_length.
  - apply (frame_trans _ (owns o) _ (h ++ [a])); [apply frame_alloc| |by auto].
    apply (frame_trans _ (owns o1) _ h1); [done|done|]. intros j Hj. rewrite length_app. cbn [length].
    destruct (Hown1 j Hj) as [?|?]; [by left|by right].
Qed.
End write.

Section read.
Context {I : Type} `{IStreamLaws I}.

(** [readData] up to the call of [validate]. *)
Lemma readData_run slow (i : I) h cs r : owf i h → chars cs → bytes i h = units8 cs ++ r → zlen (units8 cs) + 1 < 2 ^ 32 →
  zlen (units16 cs) + 1 < 2 ^ 32 →
  ∃ i' h', StrStream.readData slow i (zlen (units8 cs)) h =
      (if slow && negb (Str.leadings (units16 cs) =? 0) then Fault else Ret ((i', mkGcWchars 0 (units16 cs ++ [0])), h')) ∧
    bytes i' h' = r ∧ owf i' h' ∧ frame (owns i) h h'.
Proof.
  intros Hi Hcs Hb H8 H16. set (y := units8 cs) in *. pose proof (zlen_nonneg y). set (l := length h).
  set (z := mkGcBytes 0 (replicate (Z.to_nat (zlen y)) 0)). unfold StrStream.readData, Istream.fillCount.
  assert (Hz : awf z) by (apply awf_fresh; lia). assert (Hzc : gcount z = zlen y) by (unfold gcount, z; cbn [v]; rewrite zlen_replicate; lia).
  destruct (owns_frame i h (h ++ [z]) (λ _, False)) as [Hi0 Hb0]; [done|apply frame_alloc|by intros ? ?|].
  assert (Hno : ¬ owns i l) by (intros Hk; apply (owns_lt i h) in Hk; [unfold l in Hk; lia|done]).
  assert (Hr1 : runs (b ← Buffer.buffer (zlen y); Istream.fill i b) h (received i (h ++ [z]) l (mkGcBytes 0 (v z)) (Z.to_nat (gcount z)))).
  { eapply runs_step; [apply buffer_eq|]. apply (fill_run i (h ++ [z]) l z Hi0 Hno (view_fresh h z) Hz). }
  destruct (proj1 (runs_exists _ _ _) Hr1) as (rr & h1 & Er & i1 & l1 & a1 & -> & Hl1 & Hw1 & Hc1 & Hd1 & Hr & Hi1 & Hno1 & _ & HF1 & _).
  rewrite (bind_eq _ _ _ _ _ Er). cbv beta iota.
  rewrite Hzc, Hb0, Hb in *. unfold zlen in Hd1, Hr. rewrite Nat2Z.id in Hd1, Hr. rewrite take_app_length in Hd1. rewrite drop_app_length in Hr.
  change (data (mkGcBytes 0 (v z))) with (@nil Z) in Hd1. cbn [app] in Hd1. change (gcount (mkGcBytes 0 (v z))) with (gcount z) in Hc1.
  assert (Hfull : gfilled a1 = gcount a1) by (rewrite <- (zlen_data a1 Hw1), Hd1, Hc1, Hzc; done).
  exists i1, h1. split_and!; [|done|done|].
  2: { apply (frame_trans _ (λ j, owns i j ∨ j = l) _ (h ++ [z])); [apply frame_alloc|done|]. intros j [Hj| ->]; [by left|by right]. }
  rewrite (bind_eq _ _ _ _ _ (full_eq h1 (Some l1) a1 Hl1 Hw1)), (proj2 (Z.eqb_eq _ _) Hfull). cbn [negb].
  rewrite (bind_eq _ _ _ _ _ (load_eq h1 l1 a1 Hl1)). cbv beta zeta. rewrite <- (data_full a1 Hw1 Hfull), Hd1.
  pose proof (convertCounted_units cs Hcs H16) as E. fold y in E.
  destruct (Convert.convertCounted y (zlen y) []) as [[t sz]| | |] eqn:E1; try done. cbn [mbind outcome_bind] in E.
  destruct (Convert.convertCounted y (zlen y) (replicate (Z.to_nat sz) 0)) as [[dd t2]| | |] eqn:E2; try done. cbn [mbind outcome_bind] in E.
  injection E as ->. rewrite (bind_eq _ _ _ _ _ (lift_eq (Ret (t, sz)) _ h1 eq_refl)). cbv beta iota. rewrite (bind_eq _ _ _ _ _ (lift_eq _ _ h1 E2)). cbv beta iota zeta.
  pose proof (validate_uncounted slow (units16 cs)) as Ev.
  destruct (slow && negb (Str.leadings (units16 cs) =? 0)); unfold lift, mbind, io_bind; rewrite Ev by (first [lia | eapply Forall_impl; [by apply units16_plain|cbn; lia]]); done.
Qed.
End read.

(** A string is read in a normal build, and if it has no surrogate pairs in one with
    [SLOW_DEBUG], where the assertion of [validate] fails otherwise. *)
Definition readable (slow : bool) (cs : list Z) : bool := negb slow || bool_decide (Forall (λ c, c < 0x10000) cs).

Lemma readable_leadings slow cs : chars cs → slow && negb (Str.leadings (units16 cs) =? 0) = negb (readable slow cs).
Proof.
  intros Hcs. unfold readable. rewrite negb_orb, negb_involutive. destruct slow; [|done]. cbn [andb]. f_equal.
  pose proof (units16_leadings cs Hcs) as E. pose proof (units16_bmp cs Hcs) as Hb.
  destruct (Z.eqb_spec (Str.leadings (units16 cs)) 0) as [E0|E0]; symmetry; [apply bool_decide_eq_true, Hb; lia|apply bool_decide_eq_false; rewrite <- Hb; lia].
Qed.

(** C17: A string written to an output stream is read back from any input stream that has these
    bytes next, whatever follows them, with the same characters; only the number of surrogate
    pairs is lost, so that [count] of the string that was read is the number of its units.  In
    a build with [SLOW_DEBUG] the assertion of [validate] therefore fails for strings with
    surrogate pairs.  With a limit, strings whose number of bytes in UTF-8 reaches half of it
    are refused before their bytes are read. *)
Theorem str_stream_roundtrip {O I : Type} `{OStreamLaws O} `{IStreamLaws I} d cs : isStr d cs → zlen (units8 cs) + 1 < 2 ^ 32 →
  ∃ y, (∀ (o : O) h, owf o h → runs (StrStream.write o d) h (λ o' h', bytes o' h' = bytes o h ++ y ∧ owf o' h' ∧ frame (owns o) h h')) ∧
    ∀ slow (i : I) h r limit, owf i h → bytes i h = y ++ r →
      let reads (m : io (I * GcWchars)) := if readable slow cs
        then runs m h (λ '(i', d') h', isStr d' cs ∧ Str.count d' = zlen (units16 cs) ∧ bytes i' h' = r ∧ owf i' h' ∧ frame (owns i) h h')
        else m h = Fault in
      reads (StrStream.read slow i) ∧
      if decide (limit `div` 2 ≤ zlen (units8 cs))
      then StrStream.readLimit slow i limit h = Throw (SizeLimitReached "a string" (u32 (zlen (units8 cs) * 2)) limit)
      else reads (StrStream.readLimit slow i limit).
Proof.
  intros Hd Hz. exists (be 4 (zlen (units8 cs)) ++ units8 cs). split; [intros o h Ho; by apply str_write_run|].
  intros slow i h r limit Hi Hb reads. rewrite <- app_assoc in Hb. set (y := units8 cs) in *. pose proof (zlen_nonneg y). pose proof (zlen_nonneg (y ++ r)).
  pose proof (isStr_chars _ _ Hd) as Hcs. pose proof (isStr_size _ _ Hd) as Hs. unfold scount in Hs. rewrite (isStr_units _ _ Hd), zlen_term in Hs.
  pose proof (readNat_run i h Hi) as Hn. unfold readsValue in Hn. rewrite Hb in Hn.
  rewrite decide_True in Hn by (rewrite zlen_app, zlen_be; lia). change (Z.to_nat 4) with (length (be 4 (zlen y))) in Hn.
  rewrite take_app_length, drop_app_length, beVal_be in Hn. rewrite Z.mod_small in Hn by lia.
  destruct (proj1 (runs_exists _ _ _) Hn) as ([i1 n] & h1 & E1 & -> & Hb1 & Hi1 & Ho1 & HF1).
  destruct (readData_run slow i1 h1 cs r Hi1 Hcs Hb1 Hz Hs) as (i2 & h2 & E2 & Hb2 & Hi2 & HF2). fold y in E2. rewrite (readable_leadings slow cs Hcs) in E2.
  assert (Hrd : ∀ m, m h = StrStream.readData slow i1 (zlen y) h1 → reads m).
  { intros m Em. unfold reads. rewrite E2 in Em. destruct (readable slow cs); [|done]. apply runs_exists. eexists _, h2. split; [exact Em|].
    split_and!; [by apply isStr_uncounted|by apply count_uncounted|done|done|]. by apply (frame_trans _ (owns i1) _ h1). }
  split; [apply Hrd; unfold StrStream.read; by rewrite (bind_eq _ _ _ _ _ E1)|].
  unfold StrStream.readLimit. case_decide as Hl.
  - rewrite (bind_eq _ _ _ _ _ E1). rewrite (proj2 (Z.leb_le _ _)) by done. done.
  - apply Hrd. rewrite (bind_eq _ _ _ _ _ E1). by rewrite (proj2 (Z.leb_gt _ _)) by lia.
Qed.

Lemma str_stream_roundtrip_witness :
  ∃ y, (∀ (o : BufferedOStream.BufferedOStream Sink.Sink) h, owf o h →
      runs (StrStream.write o (strData [0xD83D; 0xDE00])) h (λ o' h', bytes o' h' = bytes o h ++ y ∧ owf o' h' ∧ frame (owns o) h h')) ∧
    ∀ slow (i : MemIStream.MemIStream) h r limit, owf i h → bytes i h = y ++ r →
      let reads (m : io (MemIStream.MemIStream * GcWchars)) := if readable slow [0x1F600]
        then runs m h (λ '(i', d') h', isStr d' [0x1F600] ∧ Str.count d' = 2 ∧ bytes i' h' = r ∧ owf i' h' ∧ frame (owns i) h h')
        else m h = Fault in
      reads (StrStream.read slow i) ∧
      if decide (limit `div` 2 ≤ 4)
      then StrStream.readLimit slow i limit h = Throw (SizeLimitReached "a string" (u32 (4 * 2)) limit)
      else reads (StrStream.readLimit slow i limit).
Proof.
  apply (str_stream_roundtrip (O := BufferedOStream.BufferedOStream Sink.Sink) (I := MemIStream.MemIStream) (strData [0xD83D; 0xDE00]) [0x1F600]);
    [|vm_compute; reflexivity].
  split; [reflexivity| |reflexivity]. repeat constructor; lia.
Defined.
