(* ===== verification/Text.v ===== *)
(** * Text streams

    [Core/Io/Text.h], [Core/Io/Text.cpp], [Core/Io/Utf8Text.cpp], [Core/Io/Utf16Text.cpp] and
    [Core/Io/StrInput.cpp]: characters from and to streams of bytes.  The virtual functions of
    [TextInput] and [TextOutput] are the operations of classes; loops over a text have fuel,
    one for each character that may be read. *)

From stdpp Require Import base list numbers decidable option strings.
From Stdlib Require Import ZArith Lia.
From S2P Require Import Prelude Utf Buffer Stream Str StrIter StrBuf StrStream.

(** ** How text is written *)

Record TextInfo := mkTextInfo { useCrLf : bool; useBom : bool }.

Definition plainTextInfo : TextInfo := mkTextInfo false false.
Definition unixTextInfo : TextInfo := plainTextInfo.
Definition windowsTextInfo : TextInfo := mkTextInfo true (useBom plainTextInfo).
Definition windowsTextInfoBom (bom : bool) : TextInfo := mkTextInfo true bom.

(** The byte order mark. *)
Definition bom : Z := 0xFEFF.

(** ** Reading *)

(** [readChar] *)
Class TextSource (S : Type) := readChar : S → io (S * Z).

Module TextInput.
Section input.
Context {S : Type} `{TextSource S}.

Record TextInput := mkTextInput { source : S; next : Z; hasNext : bool; first : bool; eof : bool }.

Definition new (s : S) : TextInput := mkTextInput s 0 false true false.

Definition doRead (t : TextInput) : io (TextInput * Z) :=
  '(s, c) ← readChar (source t);
  '(s, c) ← (if first t && (c =? bom) then readChar s else mret (s, c));
  mret (mkTextInput s (next t) (hasNext t) (first t) (if c =? 0 then true else eof t), c).

Definition readRaw (t : TextInput) : io (TextInput * Z) :=
  if hasNext t then mret (mkTextInput (source t) (next t) false (first t) (eof t), next t) else doRead t.

Definition peek (t : TextInput) : io (TextInput * Z) :=
  if hasNext t then mret (t, next t)
  else '(t, c) ← doRead t; mret (mkTextInput (source t) c true (first t) (eof t), c).

Definition read (t : TextInput) : io (TextInput * Z) :=
  '(t, r) ← readRaw t;
  if r =? Ch.cr then
    '(t, c) ← peek t;
    if c =? Ch.nl then readRaw t else mret (t, r)
  else mret (t, r).

Definition more (t : TextInput) : bool := if hasNext t then negb (next t =? 0) else negb (eof t).

Fixpoint readLineLoop (fuel : nat) (t : TextInput) (to : StrBuf.StrBuf) : io (TextInput * StrBuf.StrBuf) :=
  match fuel with
  | O => diverge
  | Datatypes.S fuel =>
      '(t, c) ← readRaw t;
      if c =? 0 then mret (t, to)
      else if c =? Ch.cr then
        '(t, c) ← peek t;
        if c =? Ch.nl then '(t, _) ← readRaw t; mret (t, to) else mret (t, to)
      else if c =? Ch.nl then mret (t, to)
      else to ← lift (StrBuf.addChar to c); readLineLoop fuel t to
  end.

Definition readLine (fuel : nat) (t : TextInput) : io (TextInput * GcWchars) :=
  '(t, to) ← readLineLoop fuel t StrBuf.new; s ← lift (StrBuf.toS to); mret (t, s).

Fixpoint readAllLoop (fuel : nat) (t : TextInput) (to : StrBuf.StrBuf) : io (TextInput * StrBuf.StrBuf) :=
  match fuel with
  | O => diverge
  | Datatypes.S fuel =>
      '(t, c) ← readRaw t;
      if c =? 0 then mret (t, to)
      else
        '(t, c, to) ← (if c =? Ch.cr then
                         '(t, c) ← read t;
                         to ← (if negb (c =? Ch.nl) then lift (StrBuf.addCStr to [Ch.nl; 0]) else mret to);
                         mret (t, c, to)
                       else mret (t, c, to));
        to ← lift (StrBuf.addChar to c);
        readAllLoop fuel t to
  end.

Definition readAll (fuel : nat) (t : TextInput) : io (TextInput * GcWchars) :=
  '(t, to) ← readAllLoop fuel t StrBuf.new; s ← lift (StrBuf.toS to); mret (t, s).

Fixpoint readAllRawLoop (fuel : nat) (t : TextInput) (to : StrBuf.StrBuf) : io (TextInput * StrBuf.StrBuf) :=
  match fuel with
  | O => diverge
  | Datatypes.S fuel =>
      if more t then
        '(t, c) ← readRaw t;
        if c =? 0 then mret (t, to)
        else to ← lift (StrBuf.addChar to c); readAllRawLoop fuel t to
      else mret (t, to)
  end.

Definition readAllRaw (fuel : nat) (t : TextInput) : io (TextInput * GcWchars) :=
  '(t, to) ← readAllRawLoop fuel t StrBuf.new; s ← lift (StrBuf.toS to); mret (t, s).
End input.
Arguments TextInput S : clear implicits.
End TextInput.

(** ** Bytes of a stream, through a buffer

    [Utf8Input] and [Utf16Input] have the same members [src], [buf] and [pos]. *)

Definition bufSize : Z := 1024.

Module ByteReader.
Section reader.
Context {I : Type} `{IStream I}.

Record ByteReader := mkByteReader { src : I; buf : Buffer.Buffer; pos : Z }.

Definition new (src : I) : ByteReader := mkByteReader src Buffer.null 0.

(** The constructor with a buffer of bytes that were read before. *)
Definition newStart (src : I) (start : Buffer.Buffer) : io ByteReader :=
  f ← Buffer.filled start;
  b ← Buffer.buffer (Z.max bufSize f);
  f ← Buffer.filled start;
  _ ← Buffer.setFilled b f;
  f ← Buffer.filled start;
  _ ← Buffer.memcpy b 0 start 0 f;
  mret (mkByteReader src b 0).

(** What [readByte] does before it takes a byte. *)
Definition refill (i : ByteReader) : io ByteReader :=
  c ← Buffer.count (buf i);
  i ← (if c =? 0 then '(s, b) ← Istream.readCount (src i) bufSize; mret (mkByteReader s b 0) else mret i);
  f ← Buffer.filled (buf i);
  if f <=? pos i then
    c ← Buffer.count (buf i);
    '(s, b) ← (if c <? bufSize then Istream.readCount (src i) bufSize
               else _ ← Buffer.setFilled (buf i) 0; Stream.read (src i) (buf i));
    mret (mkByteReader s b 0)
  else mret i.

Definition readByte (i : ByteReader) : io (ByteReader * Z) :=
  i ← refill i;
  f ← Buffer.filled (buf i);
  if pos i <? f then
    x ← Buffer.get (buf i) (pos i);
    mret (mkByteReader (src i) (buf i) (u32 (pos i + 1)), x)
  else mret (i, 0).

Definition ungetByte (i : ByteReader) : ByteReader :=
  if 0 <? pos i then mkByteReader (src i) (buf i) (pos i - 1) else i.
End reader.
Arguments ByteReader I : clear implicits.
End ByteReader.

Module Utf8Input.
Import ByteReader.
Section utf8input.
Context {I : Type} `{IStream I}.

Record Utf8Input := mkUtf8Input { reader : ByteReader I }.

Definition new (src : I) : Utf8Input := mkUtf8Input (ByteReader.new src).
Definition newStart (src : I) (start : Buffer.Buffer) : io Utf8Input :=
  r ← ByteReader.newStart src start; mret (mkUtf8Input r).

Fixpoint contLoop (remaining : nat) (i : ByteReader I) (r : Z) : io (ByteReader I * Z) :=
  match remaining with
  | O => mret (i, r)
  | S remaining =>
      '(i, ch) ← readByte i;
      if utf8.isCont ch then contLoop remaining i (utf8.addCont r ch) else mret (ungetByte i, replacementChar)
  end.

Definition readChar8 (i : Utf8Input) : io (Utf8Input * Z) :=
  '(r, ch) ← readByte (reader i);
  let '(d, remaining) := utf8.firstData ch in
  '(r, c) ← contLoop remaining r d;
  mret (mkUtf8Input r, c).

#[global] Instance textSource : TextSource Utf8Input := readChar8.
End utf8input.
Arguments Utf8Input I : clear implicits.
End Utf8Input.

Module Utf16Input.
Import ByteReader.
Section utf16input.
Context {I : Type} `{IStream I}.

Record Utf16Input := mkUtf16Input { reader : ByteReader I; byteSwap : bool }.

Definition new (src : I) (byteSwap : bool) : Utf16Input := mkUtf16Input (ByteReader.new src) byteSwap.
Definition newStart (src : I) (byteSwap : bool) (start : Buffer.Buffer) : io Utf16Input :=
  r ← ByteReader.newStart src start; mret (mkUtf16Input r byteSwap).

Definition readCh (i : Utf16Input) : io (Utf16Input * Z) :=
  '(r, a) ← readByte (reader i);
  '(r, b) ← readByte r;
  mret (mkUtf16Input r (byteSwap i),
        if byteSwap i then Z.lor a (u16 (Z.shiftl b 8)) else Z.lor (u16 (Z.shiftl a 8)) b).

Definition question : Z := 63.

Definition readChar16 (i : Utf16Input) : io (Utf16Input * Z) :=
  '(i, ch) ← readCh i;
  if utf16.leading ch then
    '(i, t) ← readCh i;
    mret (i, if utf16.trailing t then utf16.assemble ch t else question)
  else mret (i, if negb (utf16.trailing ch) then ch else question).

#[global] Instance textSource : TextSource Utf16Input := readChar16.
End utf16input.
Arguments Utf16Input I : clear implicits.
End Utf16Input.

Module StrInput.
Record StrInput := mkStrInput { pos : Iter.Iter; end_ : Iter.Iter }.

Definition new (src : StrObj) : StrInput := mkStrInput (StrParts.begin src) Iter.end_.

Definition readCharStr (i : StrInput) : io (StrInput * Z) :=
  if Iter.eq (pos i) (end_ i) then mret (i, 0)
  else
    c ← lift (Iter.v (pos i));
    p ← lift (Iter.next (pos i));
    mret (mkStrInput p (end_ i), c).

#[global] Instance textSource : TextSource StrInput := readCharStr.
End StrInput.

(** ** The reader for the encoding of a stream *)

Module AnyInput.
Section any.
Context {I : Type} `{IStream I}.

Inductive AnyInput :=
  | Input8 (i : Utf8Input.Utf8Input I)
  | Input16 (i : Utf16Input.Utf16Input I).

#[global] Instance textSource : TextSource AnyInput := λ i,
  match i with
  | Input8 i => '(i, c) ← readChar i; mret (Input8 i, c)
  | Input16 i => '(i, c) ← readChar i; mret (Input16 i, c)
  end.

(** [readText(IStream * )] *)
Definition readText (stream : I) : io (TextInput.TextInput AnyInput) :=
  '(stream, b) ← Istream.fillCount stream 2;
  full ← Buffer.full b;
  mark ← (if full : bool then b0 ← Buffer.get b 0; b1 ← Buffer.get b 1; mret (Z.lor (u16 (Z.shiftl b0 8)) b1) else mret 0);
  if mark =? 0xFEFF then i ← Utf16Input.newStart stream false b; mret (TextInput.new (Input16 i))
  else if mark =? 0xFFFE then i ← Utf16Input.newStart stream true b; mret (TextInput.new (Input16 i))
  else i ← Utf8Input.newStart stream b; mret (TextInput.new (Input8 i)).
End any.
Arguments AnyInput I : clear implicits.
End AnyInput.

(** [readStr(Str * )] *)
Definition readStr (from : StrObj) : TextInput.TextInput StrInput.StrInput := TextInput.new (StrInput.new from).

(** ** Writing *)

(** [writeChar], [flush] and [close] *)
Class TextSink (S : Type) := {
  writeChar : S → Z → io S;
  flushText : S → io S;
  closeText : S → io S;
}.

Module TextOutput.
Section output.
Context {S : Type} `{TextSink S}.

Record TextOutput := mkTextOutput { sink : S; autoFlush : bool; config : TextInfo }.

Definition newInfo (s : S) (info : TextInfo) : TextOutput := mkTextOutput s true info.
Definition new (s : S) : TextOutput := newInfo s plainTextInfo.

Definition put (t : TextOutput) (c : Z) : io TextOutput :=
  s ← writeChar (sink t) c; mret (mkTextOutput s (autoFlush t) (config t)).

Definition writeBom (t : TextOutput) : io TextOutput :=
  if useBom (config t) then
    t ← put t bom;
    mret (mkTextOutput (sink t) (autoFlush t) (mkTextInfo (useCrLf (config t)) false))
  else mret t.

Definition write (t : TextOutput) (c : Z) : io TextOutput := t ← writeBom t; put t c.

Definition flush (t : TextOutput) : io TextOutput :=
  s ← flushText (sink t); mret (mkTextOutput s (autoFlush t) (config t)).

Definition writeLine (t : TextOutput) : io TextOutput :=
  t ← writeBom t;
  t ← (if useCrLf (config t) then put t Ch.cr else mret t);
  t ← put t Ch.nl;
  if autoFlush t then flush t else mret t.

Fixpoint writeLoop (fuel : nat) (i e : Iter.Iter) (t : TextOutput) : io TextOutput :=
  match fuel with
  | O => diverge
  | Datatypes.S fuel =>
      if Iter.eq i e then mret t
      else
        c ← lift (Iter.v i);
        t ← (if c =? Ch.nl then writeLine t else put t c);
        i ← lift (Iter.next i);
        writeLoop fuel i e t
  end.

(** [write(Str * )] *)
Definition writeStr (t : TextOutput) (s : StrObj) : io TextOutput :=
  t ← writeBom t;
  writeLoop (Datatypes.S (length (units (sdata s)))) (StrParts.begin s) Iter.end_ t.

(** [writeLine(Str * )] *)
Definition writeLineStr (t : TextOutput) (s : StrObj) : io TextOutput := t ← writeStr t s; writeLine t.
End output.
Arguments TextOutput S : clear implicits.
End TextOutput.

(** ** Bytes to a stream, through a buffer

    [Utf8Output] and [Utf16Output] have the same members [dest] and [buf]. *)

Module ByteWriter.
Section writer.
Context {O : Type} `{OStream O}.

Record ByteWriter := mkByteWriter { dest : O; buf : Buffer.Buffer }.

(** The constructors, which call [init]. *)
Definition init (dest : O) : io ByteWriter :=
  b ← Buffer.buffer bufSize; _ ← Buffer.setFilled b 0; mret (mkByteWriter dest b).

Definition flush (o : ByteWriter) : io ByteWriter :=
  f ← Buffer.filled (buf o);
  d ← (if 0 <? f then '(d, _) ← Ostream.writeAll (dest o) (buf o); mret d else mret (dest o));
  _ ← Buffer.setFilled (buf o) 0;
  mret (mkByteWriter d (buf o)).

(** [memcpy(buf.dataPtr() + off, data, count)] with an array outside of the heap. *)
Definition copyIn (b : Buffer.Buffer) (off : Z) (data : list Z) : io unit :=
  match b with
  | None => fault
  | Some l =>
      a ← load l;
      if (0 <=? off) && (off + zlen data <=? gcount a)
      then store l (mkGcBytes (gfilled a) (splice (v a) off data)) else fault
  end.

Definition writeBytes (o : ByteWriter) (data : list Z) : io ByteWriter :=
  filled ← Buffer.filled (buf o);
  c ← Buffer.count (buf o);
  '(o, filled) ← (if c <=? u32 (filled + zlen data) then o ← flush o; f ← Buffer.filled (buf o); mret (o, f)
                  else mret (o, filled));
  _ ← copyIn (buf o) filled data;
  _ ← Buffer.setFilled (buf o) (u32 (filled + zlen data));
  mret o.
End writer.
Arguments ByteWriter O : clear implicits.
End ByteWriter.

Module Utf8Output.
Import ByteWriter.
Section utf8output.
Context {O : Type} `{OStream O}.

Record Utf8Output := mkUtf8Output { writer : ByteWriter O }.

Definition new (to : O) (info : TextInfo) : io (TextOutput.TextOutput Utf8Output) :=
  w ← init to; mret (TextOutput.newInfo (mkUtf8Output w) info).

Definition writeChar8 (o : Utf8Output) (ch : Z) : io Utf8Output :=
  '(out, at_, bytes) ← lift (utf8.encode ch (replicate (Z.to_nat utf8.maxBytes) 0));
  data ← lift (unitsAt out at_ bytes);
  w ← writeBytes (writer o) data;
  mret (mkUtf8Output w).

Definition flush8 (o : Utf8Output) : io Utf8Output := w ← flush (writer o); mret (mkUtf8Output w).

Definition close8 (o : Utf8Output) : io Utf8Output :=
  w ← flush (writer o);
  d ← Stream.close (dest w);
  mret (mkUtf8Output (mkByteWriter d (buf w))).

#[global] Instance textSink : TextSink Utf8Output := {|
  writeChar := writeChar8; flushText := flush8; closeText := close8 |}.
End utf8output.
Arguments Utf8Output O : clear implicits.
End Utf8Output.

Module Utf16Output.
Import ByteWriter.
Section utf16output.
Context {O : Type} `{OStream O}.

Record Utf16Output := mkUtf16Output { writer : ByteWriter O; byteSwap : bool }.

Definition new (to : O) (info : TextInfo) (byteSwap : bool) : io (TextOutput.TextOutput Utf16Output) :=
  w ← init to; mret (TextOutput.newInfo (mkUtf16Output w byteSwap) info).

(** [write(byte *to, wchar ch)]: the two bytes of a unit. *)
Definition writeUnit (byteSwap : bool) (ch : Z) : list Z :=
  if byteSwap then [u8 (Z.land ch 0xFF); u8 (Z.land (Z.shiftr ch 8) 0xFF)]
  else [u8 (Z.land (Z.shiftr ch 8) 0xFF); u8 (Z.land ch 0xFF)].

Definition writeChar16 (o : Utf16Output) (ch : Z) : io Utf16Output :=
  w ← writeBytes (writer o)
        (if negb (Char.leading ch =? 0) then writeUnit (byteSwap o) (Char.leading ch) ++ writeUnit (byteSwap o) (Char.trailing ch)
         else writeUnit (byteSwap o) (Char.trailing ch));
  mret (mkUtf16Output w (byteSwap o)).

Definition flush16 (o : Utf16Output) : io Utf16Output := w ← flush (writer o); mret (mkUtf16Output w (byteSwap o)).

(** [close] does not call [flush]. *)
Definition close16 (o : Utf16Output) : io Utf16Output :=
  d ← Stream.close (dest (writer o));
  mret (mkUtf16Output (mkByteWriter d (buf (writer o))) (byteSwap o)).

#[global] Instance textSink : TextSink Utf16Output := {|
  writeChar := writeChar16; flushText := flush16; closeText := close16 |}.
End utf16output.
Arguments Utf16Output O : clear implicits.
End Utf16Output.
