(* ===== verification/TextReadCorrect.v ===== *)
(** * Reading bytes and characters: correctness

    The buffered readers of [Utf8Input] and [Utf16Input] give the bytes of their stream one by
    one, whatever pieces the stream delivers them in; the characters are those of reference
    decoders on lists. *)

From stdpp Require Import base list numbers decidable option strings.
From Stdlib Require Import ZArith Lia.
From S2P Require Import Prelude Utf UtfCorrect ConvertCorrect Buffer BufferCorrect Stream StreamCorrect Str StrIter StrCorrect StrIterCorrect StrFindCorrect StrStream Text.

(** ** Objects that change *)

(** The object [s] has become [s']: it owns what it owned, or new arrays, and nothing else
    was changed. *)
Definition evolves {T U} `{HeapObject T} `{HeapObject U} (s : T) (h : heap) (s' : U) (h' : heap) : Prop :=
  owf s' h' ∧ (∀ j, owns s' j → owns s j ∨ (length h ≤ j)%nat) ∧ frame (owns s) h h'.

Section evolves.
Context {T U V : Type} `{HeapObject T} `{HeapObject U} `{HeapObject V}.

Lemma evolves_refl (s : T) h : owf s h → evolves s h s h.
Proof. intros Hs. split_and!; [done|by auto|apply frame_refl]. Qed.

Lemma evolves_trans (s : T) (s1 : U) (s2 : V) h h1 h2 : evolves s h s1 h1 → evolves s1 h1 s2 h2 → evolves s h s2 h2.
Proof.
  intros (_ & Ho1 & HF1) (Hs2 & Ho2 & HF2). destruct (HF1) as [L1 _]. split_and!; [done| |].
  - intros j Hj. destruct (Ho2 j Hj) as [Hj'|]; [by apply Ho1|right; lia].
  - by apply (frame_trans _ (owns s1) _ h1).
Qed.
End evolves.

(** ** Bytes through a buffer *)

Module ReaderLaws.
Import ByteReader.
Section laws.
Context {I : Type} `{IStreamLaws I}.
Implicit Types (i : ByteReader I) (h : heap).

Definition held i h : list Z :=
  match view h (buf i) with Some a => drop (Z.to_nat (pos i)) (data a) | None => [] end.

Definition rwf i h : Prop :=
  ∃ a, view h (buf i) = Some a ∧ awf a ∧ 0 ≤ pos i ≤ gfilled a ∧ owf (src i) h ∧ ∀ l, buf i = Some l → ¬ owns (src i) l.

#[global] Instance heapObject : HeapObject (ByteReader I).
Proof.
  refine {| owf := rwf; owns i l := buf i = Some l ∨ owns (src i) l; bytes i h := held i h ++ bytes (src i) h |}.
  - intros i h l (a & Hv & _ & _ & Ho & _) [E|E]; [|by apply (owns_lt (src i) h)].
    rewrite E in Hv. by apply view_lt in Hv.
  - intros i h h' (a & Hv & Hw & Hp & Ho & Hno) Hst.
    destruct (owns_stable (src i) h h' Ho) as [Ho' Hb']; [by auto|].
    assert (Hv' : view h' (buf i) = Some a) by (destruct (buf i) as [l|] eqn:E; [cbn; rewrite Hst; [done|by left]|done]).
    split; [by exists a|]. unfold held. by rewrite Hb', Hv, Hv'.
Defined.

(** The stream has given the buffer [b]. *)
Definition loaded i h (r : I * Buffer.Buffer) (h' : heap) : Prop :=
  let '(s, b) := r in
  evolves i h (mkByteReader s b 0) h' ∧ bytes (mkByteReader s b 0) h' = bytes (src i) h ∧
  (held (mkByteReader s b 0) h' = [] → bytes (src i) h = []).

(** How [read_law] is used: the buffer was empty. *)
Lemma received_loaded i h h0 l z k s' b h' : data z = [] → (buf i = Some l ∨ (length h ≤ l)%nat) →
  frame (owns i) h h0 → bytes (src i) h0 = bytes (src i) h → (k = 0%nat → bytes (src i) h0 = []) →
  received (src i) h0 l z k (s', b) h' → loaded i h (s', b) h'.
Proof.
  intros Hz Hl HF0 Hb0 Hk (s1 & l1 & a1 & E & Hl1 & Hw1 & _ & Hd1 & Hr & Hs1 & Hno & Hown & HF & Hfresh). injection E as <- ->.
  rewrite Hz in Hd1. cbn [app] in Hd1. destruct (HF0) as [L0 _].
  assert (Hh : held (mkByteReader s' (Some l1) 0) h' = data a1) by (unfold held; cbn [buf pos view]; by rewrite Hl1).
  split; [split_and!|split].
  - destruct (Hw1). exists a1. cbn [buf pos src]. split_and!; try done; try lia. by intros ? [= <-].
  - intros j [[= <-]|Hj]; cbn [src buf] in *.
    + destruct Hfresh as [->|]; [destruct Hl; [left; by left|by right]|right; lia].
    + destruct (Hown j Hj); [left; by right|right; lia].
  - apply (frame_trans _ (λ j, owns (src i) j ∨ j = l) _ h0); [done|done|].
    intros j [Hj| ->]; [left; by right|]. destruct Hl; [left; by left|by right].
  - trans (held (mkByteReader s' (Some l1) 0) h' ++ bytes s' h'); [done|].
    by rewrite Hh, Hd1, Hr, take_drop, Hb0.
  - intros E. change (held (mkByteReader s' (Some l1) 0) h' = []) in E. rewrite Hh, Hd1 in E. rewrite <- Hb0. destruct k as [|k]; [by apply Hk|]. by destruct (bytes (src i) h0).
Qed.

Lemma readCount_loaded i h : rwf i h → runs (Istream.readCount (src i) bufSize) h (loaded i h).
Proof.
  intros (a & Hv & Hw & Hp & Ho & Hno). unfold Istream.readCount. eapply runs_step; [apply buffer_eq|].
  set (z := mkGcBytes 0 (replicate (Z.to_nat bufSize) 0)).
  assert (Hz : awf z) by (apply awf_fresh; unfold bufSize; lia).
  destruct (owns_frame (src i) h (h ++ [z]) (λ _, False)) as [Ho0 Hb0]; [done|apply frame_alloc|by intros ? ?|].
  eapply runs_mono; [apply (read_law (src i) (h ++ [z]) (length h) z); [done| |apply view_fresh|done|reflexivity]|].
  - intros Hk. apply (owns_lt (src i) h) in Hk; [lia|done].
  - intros [s' b] h' (k & _ & Hk & Hr). eapply received_loaded; [..|exact Hr]; [done|by right|apply frame_alloc|done|done].
Qed.

Lemma reuse_loaded i h a : rwf i h → view h (buf i) = Some a → bufSize ≤ gcount a →
  runs (_ ← Buffer.setFilled (buf i) 0; Stream.read (src i) (buf i)) h (loaded i h).
Proof.
  intros (a' & Hv & Hw & Hp & Ho & Hno) Hv' Hc. rewrite Hv in Hv'. injection Hv' as ->. unfold bufSize in Hc.
  destruct (buf i) as [l|] eqn:Eb; [|cbn in Hv; injection Hv as <-; by cbv in Hc]. cbn in Hv.
  eapply runs_step; [by apply (setFilled_eq h l a)|]. destruct (Hw) as [Hf Hcc]. rewrite Z.min_l by lia.
  set (z := mkGcBytes 0 (v a)). set (h0 := <[l := z]> h).
  assert (HF0 : frame (λ j, j = l) h h0) by (by apply frame_insert).
  destruct (owns_frame (src i) h h0 (λ j, j = l)) as [Ho0 Hb0]; [done|done|intros ? ->; by apply Hno|].
  assert (Hz : awf z) by (split; unfold z, gcount in *; cbn [gfilled v]; lia).
  eapply runs_mono; [apply (read_law (src i) h0 l z); [done|by apply Hno|by apply (view_insert_eq h l a)|done|]|].
  - unfold z, gcount in *. cbn [gfilled v]. lia.
  - intros [s' b] h' (k & _ & Hk & Hr). eapply received_loaded; [..|exact Hr]; [done|by left| |done|done].
    apply (frame_trans _ (λ j, j = l) _ h); [apply frame_refl|done|]. intros j ->. left. by left.
Qed.

Lemma held_empty i h a : view h (buf i) = Some a → awf a → gfilled a ≤ pos i → held i h = [].
Proof. intros Hv Hw Hp. unfold held. rewrite Hv. apply drop_ge. pose proof (zlen_data a Hw). unfold zlen in *. lia. Qed.

(** Before a byte is taken the buffer has one, unless the stream is at its end. *)
Definition ready i h i' h' : Prop :=
  evolves i h i' h' ∧ bytes i' h' = bytes i h ∧ (held i' h' = [] → bytes i h = [] ∧ pos i' = 0).

Lemma refill_run i h : rwf i h → runs (refill i) h (ready i h).
Proof.
  intros Hi. pose proof Hi as (a & Hv & Hw & Hp & Ho & Hno). destruct (Hw) as [Hf Hc]. unfold refill.
  eapply runs_step; [by apply (count_eq h (buf i) a)|].
  apply (runs_bind _ _ _ (λ i1 h1, evolves i h i1 h1 ∧ bytes i1 h1 = bytes i h)).
  { destruct (Z.eqb_spec (gcount a) 0) as [E0|_]; [|apply runs_ret; split; [by apply evolves_refl|done]].
    eapply runs_bind; [by apply readCount_loaded|]. intros [s b] h1 (Hev & Hb & _). apply runs_ret. split; [done|].
    rewrite Hb. change (bytes i h) with (held i h ++ bytes (src i) h). by rewrite (held_empty i h a) by (done || lia). }
  intros i1 h1 [Hev1 Hb1]. pose proof (proj1 Hev1) as Hi1. pose proof Hi1 as (a1 & Hv1 & Hw1 & Hp1 & Ho1 & Hno1).
  eapply runs_step; [by apply (filled_eq h1 (buf i1) a1)|]. destruct (Z.leb_spec (gfilled a1) (pos i1)) as [Hle|Hgt].
  - eapply runs_step; [by apply (count_eq h1 (buf i1) a1)|].
    apply (runs_bind _ _ _ (loaded i1 h1)).
    { destruct (Z.ltb_spec (gcount a1) bufSize); [by apply readCount_loaded|by apply (reuse_loaded i1 h1 a1)]. }
    intros [s b] h2 (Hev2 & Hb2 & Hh2). apply runs_ret.
    assert (Es : bytes (src i1) h1 = bytes i h).
    { rewrite <- Hb1. change (bytes i1 h1) with (held i1 h1 ++ bytes (src i1) h1). by rewrite (held_empty i1 h1 a1). }
    split_and!; [by apply (evolves_trans _ i1 _ _ h1)|by rewrite Hb2|]. intros E. split; [|done]. rewrite <- Es. by apply Hh2.
  - apply runs_ret. split_and!; [done|done|]. unfold held. rewrite Hv1. intros E.
    apply (f_equal length) in E. rewrite length_drop in E. cbn [length] in E. pose proof (zlen_data a1 Hw1). unfold zlen in *. lia.
Qed.

(** [readByte] gives the next byte, or 0 at the end; [ungetByte] takes it back. *)
Lemma nextByte_run i h : owf i h →
  runs (readByte i) h (λ '(i', x) h', x = hd 0 (bytes i h) ∧ bytes i' h' = tl (bytes i h) ∧ evolves i h i' h' ∧
    bytes (ungetByte i') h' = bytes i h ∧ evolves i h (ungetByte i') h').
Proof.
  intros Hi. unfold readByte. eapply runs_bind; [by apply refill_run|]. intros i1 h1 (Hev & Hb & Hend).
  pose proof (proj1 Hev) as (a & Hv & Hw & Hp & Ho & Hno). destruct (Hw) as [Hf Hc]. io_step filled_eq.
  assert (E : bytes i h = held i1 h1 ++ bytes (src i1) h1) by done.
  destruct (Z.ltb_spec (pos i1) (gfilled a)) as [Hlt|Hge].
  - destruct (lookupZ_lt_Some (v a) (pos i1)) as [x Hx]; [unfold gcount in *; lia|].
    destruct (buf i1) as [l|] eqn:Eb; [|cbn in Hv; injection Hv as <-; cbn [v] in Hx; by rewrite lookupZ_nil in Hx]. cbn in Hv.
    pose proof (get_run h1 l a Hv Hw (pos i1) ltac:(lia)) as Eg. rewrite Hx in Eg. eapply runs_step; [exact Eg|]. apply runs_ret.
    rewrite u32_small by (unfold is_u32; lia).
    assert (Eh : held i1 h1 = x :: held (mkByteReader (src i1) (Some l) (pos i1 + 1)) h1).
    { unfold held. cbn [buf pos]. rewrite Eb. cbn [view]. rewrite Hv. replace (Z.to_nat (pos i1 + 1)) with (S (Z.to_nat (pos i1))) by lia.
      apply drop_S. unfold data. rewrite lookup_take_lt by lia. by rewrite lookupZ_to_nat in Hx by lia. }
    assert (Eu : ungetByte (mkByteReader (src i1) (Some l) (pos i1 + 1)) = i1).
    { unfold ungetByte. cbn [pos src buf]. rewrite (proj2 (Z.ltb_lt _ _)) by lia. rewrite Z.add_simpl_r, <- Eb. by destruct i1. }
    rewrite Eu, E, Eh. split_and!; try done; [|by rewrite Hb, E, Eh]. split_and!; [|by rewrite <- Eb; apply Hev|apply Hev].
    exists a. cbn [buf pos src]. split_and!; try done; lia.
  - apply runs_ret. destruct (Hend (held_empty i1 h1 a Hv Hw Hge)) as [En Ep].
    assert (Eu : ungetByte i1 = i1) by (unfold ungetByte; by rewrite Ep). rewrite Eu, Hb, En. by split_and!.
Qed.
End laws.
End ReaderLaws.

(** ** Reference decoders *)

(** The decoding of UTF-8 by [readChar]: a character and the bytes that remain. *)
Fixpoint takeConts (n : nat) (r : Z) (l : list Z) : Z * list Z :=
  match n with
  | O => (r, l)
  | S n => if utf8.isCont (hd 0 l) then takeConts n (utf8.addCont r (hd 0 l)) (tl l) else (replacementChar, l)
  end.

Definition decode8 (l : list Z) : Z * list Z := let '(d, n) := utf8.firstData (hd 0 l) in takeConts n d (tl l).

(** The next unit of UTF-16, with the order of its bytes. *)
Definition unitOf (swap : bool) (l : list Z) : Z :=
  let a := hd 0 l in
  let b := hd 0 (tl l) in
  if swap then Z.lor a (u16 (Z.shiftl b 8)) else Z.lor (u16 (Z.shiftl a 8)) b.

Definition decode16 (swap : bool) (l : list Z) : Z * list Z :=
  let ch := unitOf swap l in
  let r := drop 2 l in
  if utf16.leading ch then
    (if utf16.trailing (unitOf swap r) then utf16.assemble ch (unitOf swap r) else Utf16Input.question, drop 2 r)
  else (if negb (utf16.trailing ch) then ch else Utf16Input.question, r).

Section decode.
Context (f : list Z → Z * list Z) (Hf : ∀ l, l ≠ [] → (length (f l).2 < length l)%nat).

(** The characters of all bytes. *)
Fixpoint decodeLoop (fuel : nat) (l : list Z) : list Z :=
  match fuel, l with S fuel, _ :: _ => (f l).1 :: decodeLoop fuel (f l).2 | _, _ => [] end.
Definition decodeAll (l : list Z) : list Z := decodeLoop (length l) l.

Lemma decodeLoop_fuel n m l : (length l ≤ n)%nat → (length l ≤ m)%nat → decodeLoop n l = decodeLoop m l.
Proof.
  revert m l. induction n as [|n IH]; intros m l Hn Hm; destruct l as [|x l]; [by destruct m| |by destruct m|].
  - cbn in Hn. lia.
  - destruct m as [|m]; [cbn in Hm; lia|]. cbn [decodeLoop]. f_equal. pose proof (Hf (x :: l) ltac:(done)). cbn [length] in *.
    apply IH; lia.
Qed.

Lemma decodeAll_step l : l ≠ [] → decodeAll l = (f l).1 :: decodeAll (f l).2.
Proof.
  intros Hl. pose proof (Hf l Hl) as H. unfold decodeAll. destruct l as [|x l]; [done|]. cbn [decodeLoop length]. f_equal.
  apply decodeLoop_fuel; cbn [length] in *; lia.
Qed.
End decode.

Lemma takeConts_length n r l : (length (takeConts n r l).2 ≤ length l)%nat.
Proof.
  revert r l. induction n as [|n IH]; intros r l; [done|]. cbn [takeConts]. case_match; [|done].
  etrans; [apply IH|]. destruct l; cbn; lia.
Qed.

Lemma decode8_shorter l : l ≠ [] → (length (decode8 l).2 < length l)%nat.
Proof.
  intros Hl. unfold decode8. destruct (utf8.firstData (hd 0 l)) as [d n]. destruct l as [|x l]; [done|].
  pose proof (takeConts_length n d l). cbn [tl length]. lia.
Qed.

Lemma decode16_shorter swap l : l ≠ [] → (length (decode16 swap l).2 < length l)%nat.
Proof. intros Hl. unfold decode16. destruct l as [|x l]; [done|]. case_match; cbn [snd]; rewrite ?length_drop; cbn [length]; lia. Qed.

Definition chars8 : list Z → list Z := decodeAll decode8.
Definition chars16 (swap : bool) : list Z → list Z := decodeAll (decode16 swap).

(** ** What a source of characters promises *)

(** The list of a source are its characters. *)
Class TextSourceLaws (S : Type) `{TextSource S} `{HeapObject S} :=
  readChar_law s h : owf s h →
    runs (readChar s) h (λ '(s', c) h', c = hd 0 (bytes s h) ∧ bytes s' h' = tl (bytes s h) ∧ evolves s h s' h').

Module Utf8Laws.
Import Utf8Input.
Section laws.
Context {I : Type} `{IStreamLaws I}.

#[global] Instance heapObject : HeapObject (Utf8Input I).
Proof.
  refine {| owf i h := owf (reader i) h; owns i l := owns (reader i) l; bytes i h := chars8 (bytes (reader i) h) |}.
  - intros i h l. apply owns_lt.
  - intros i h h' Hi Hst. destruct (owns_stable (reader i) h h' Hi Hst) as [? ->]. done.
Defined.

Lemma contLoop_run n (i : ByteReader.ByteReader I) h r : owf i h →
  runs (contLoop n i r) h (λ '(i', c) h', takeConts n r (bytes i h) = (c, bytes i' h') ∧ evolves i h i' h').
Proof.
  revert i h r. induction n as [|n IH]; intros i h r Hi; cbn [contLoop].
  { apply runs_ret. split; [done|by apply evolves_refl]. }
  eapply runs_bind; [by apply ReaderLaws.nextByte_run|]. intros [i1 x] h1 (-> & Hb & Hev & Hbu & Hevu). cbn [takeConts].
  case_match; [|apply runs_ret; by rewrite Hbu].
  eapply runs_mono; [apply IH, Hev|]. intros [i2 c] h2 (E & Hev2). rewrite Hb in E. split; [done|].
  by apply (evolves_trans _ i1 _ _ h1).
Qed.

#[global] Instance textSourceLaws : TextSourceLaws (Utf8Input I).
Proof.
  intros [i] h Hi. unfold readChar, textSource, readChar8. cbn [reader].
  eapply runs_bind; [by apply ReaderLaws.nextByte_run|]. intros [i1 x] h1 (-> & Hb & Hev & _).
  assert (E : decode8 (bytes i h) = let '(d, n) := utf8.firstData (hd 0 (bytes i h)) in takeConts n d (bytes i1 h1)) by (unfold decode8; by rewrite Hb).
  destruct (utf8.firstData (hd 0 (bytes i h))) as [d n] eqn:Ed.
  eapply runs_bind; [apply contLoop_run, Hev|]. intros [i2 c] h2 (Ec & Hev2). rewrite Ec in E. apply runs_ret.
  change (bytes (mkUtf8Input i) h) with (chars8 (bytes i h)). change (bytes (mkUtf8Input i2) h2) with (chars8 (bytes i2 h2)).
  assert (evolves i h i2 h2) by (by apply (evolves_trans _ i1 _ _ h1)).
  destruct (decide (bytes i h = [])) as [Hn|Hn].
  - rewrite Hn in *. cbn in Ed. injection Ed as <- <-. cbn [takeConts tl hd] in *. injection Ec as <- Ec.
    change (bytes i1 h1 = bytes i2 h2) in Ec. rewrite <- Ec, Hb. by split_and!.
  - pose proof (decodeAll_step decode8 decode8_shorter (bytes i h) Hn) as Es. rewrite E in Es. unfold chars8. rewrite Es. by split_and!.
Qed.
End laws.
End Utf8Laws.

Module Utf16Laws.
Import Utf16Input.
Section laws.
Context {I : Type} `{IStreamLaws I}.

#[global] Instance heapObject : HeapObject (Utf16Input I).
Proof.
  refine {| owf i h := owf (reader i) h; owns i l := owns (reader i) l; bytes i h := chars16 (byteSwap i) (bytes (reader i) h) |}.
  - intros i h l. apply owns_lt.
  - intros i h h' Hi Hst. destruct (owns_stable (reader i) h h' Hi Hst) as [? ->]. done.
Defined.

Lemma readCh_run (r : ByteReader.ByteReader I) swap h : owf r h →
  runs (readCh (mkUtf16Input r swap)) h (λ '(i', c) h', ∃ r', i' = mkUtf16Input r' swap ∧ c = unitOf swap (bytes r h) ∧
    bytes r' h' = drop 2 (bytes r h) ∧ evolves r h r' h').
Proof.
  intros Hr. unfold readCh. cbn [reader byteSwap].
  eapply runs_bind; [by apply ReaderLaws.nextByte_run|]. intros [r1 x] h1 (-> & Hb1 & Hev1 & _).
  eapply runs_bind; [apply ReaderLaws.nextByte_run, Hev1|]. intros [r2 y] h2 (-> & Hb2 & Hev2 & _). apply runs_ret.
  exists r2. rewrite Hb1 in *. split_and!; [done|done| |by apply (evolves_trans _ r1 _ _ h1)].
  rewrite Hb2. by destruct (bytes r h) as [|? [|??]].
Qed.

#[global] Instance textSourceLaws : TextSourceLaws (Utf16Input I).
Proof.
  intros [r swap] h Hr. change (owf r h) in Hr. unfold readChar, textSource, readChar16.
  apply (runs_bind _ _ _ (λ '(i', c) h', ∃ r', i' = mkUtf16Input r' swap ∧ c = unitOf swap (bytes r h) ∧
    bytes r' h' = drop 2 (bytes r h) ∧ evolves r h r' h')); [by apply readCh_run|].
  intros [i1 c] h1 (r1 & -> & -> & Hb1 & Hev1).
  assert (Hgo : runs (if utf16.leading (unitOf swap (bytes r h)) then
      '(i, t) ← readCh (mkUtf16Input r1 swap); mret (i, if utf16.trailing t then utf16.assemble (unitOf swap (bytes r h)) t else question)
    else mret (mkUtf16Input r1 swap, if negb (utf16.trailing (unitOf swap (bytes r h))) then unitOf swap (bytes r h) else question)) h1
    (λ '(i', c) h', ∃ r', i' = mkUtf16Input r' swap ∧ decode16 swap (bytes r h) = (c, bytes r' h') ∧ evolves r h r' h')).
  { unfold decode16. destruct (utf16.leading (unitOf swap (bytes r h))).
    - eapply runs_bind; [apply (readCh_run r1 swap h1), Hev1|]. intros [i2 t] h2 (r2 & -> & -> & Hb2 & Hev2). apply runs_ret.
      exists r2. rewrite Hb2, Hb1. split_and!; [done|done|by apply (evolves_trans _ r1 _ _ h1)].
    - apply runs_ret. exists r1. by rewrite Hb1. }
  eapply runs_mono; [exact Hgo|]. intros [i2 c] h2 (r2 & -> & E & Hev).
  change (bytes (mkUtf16Input r swap) h) with (chars16 swap (bytes r h)).
  change (bytes (mkUtf16Input r2 swap) h2) with (chars16 swap (bytes r2 h2)).
  destruct (decide (bytes r h = [])) as [Hn|Hn].
  - rewrite Hn in *. assert (E0 : decode16 swap [] = (0, [])) by (by destruct swap). rewrite E0 in E.
    pose proof (f_equal snd E) as Es. pose proof (f_equal fst E) as Ec. cbn [fst snd] in Es, Ec. rewrite <- Es, <- Ec. by split_and!.
  - pose proof (decodeAll_step _ (decode16_shorter swap) (bytes r h) Hn) as Es. rewrite E in Es. unfold chars16. rewrite Es. by split_and!.
Qed.
End laws.
End Utf16Laws.

(** ** Characters of a string *)

Module StrInputLaws.
Import StrInput.

(** The characters an iterator has before it. *)
Definition ahead (i : StrInput) : list Z :=
  match Iter.owner (pos i) with
  | Some s => match visit (S (length (units (sdata s)))) (pos i) with Ret cs => cs | _ => [] end
  | None => []
  end.

#[global] Instance heapObject : HeapObject StrInput.
Proof.
  by refine {| owf i _ := end_ i = Iter.end_ ∧ ∃ s cs k, isStr (sdata s) cs ∧ (k ≤ length cs)%nat ∧ pos i = it s cs k;
               owns _ _ := False; bytes i _ := ahead i |}.
Defined.

Lemma ahead_it s cs k : isStr (sdata s) cs → (k ≤ length cs)%nat → ahead (mkStrInput (it s cs k) Iter.end_) = drop k cs.
Proof.
  intros Hs Hk. unfold ahead. cbn [pos it Iter.owner]. change (Iter.mkIter (Some s) _) with (it s cs k).
  rewrite (visit_it s cs) by (done || (rewrite (isStr_units _ _ Hs), length_app; pose proof (units16_leadings cs (isStr_chars _ _ Hs));
    pose proof (leadings_nonneg (units16 cs)); unfold zlen in *; cbn [length]; lia)). done.
Qed.

#[global] Instance textSourceLaws : TextSourceLaws StrInput.
Proof.
  intros [p e] h (He & s & cs & k & Hs & Hk & Ep). cbn [pos end_] in He, Ep. subst p e.
  unfold readChar, textSource, readCharStr. cbn [pos end_]. change (bytes ?i ?h) with (ahead i). rewrite (ahead_it s cs k) by done.
  rewrite (eq_end s cs Hs k Hk). case_bool_decide as E.
  - rewrite drop_ge by lia. apply runs_ret. split_and!; [done|change (ahead (mkStrInput (it s cs k) Iter.end_) = []); rewrite ahead_it by done; apply drop_ge; lia|].
    split_and!; [split; [done|by exists s, cs, k]|by auto|apply frame_refl].
  - destruct (lookup_lt_is_Some_2 cs k ltac:(lia)) as [c Hc]. eapply runs_step; [apply lift_eq, (v_it s cs Hs k c Hc)|].
    eapply runs_step; [apply lift_eq, (next_it s cs Hs k c Hc)|]. apply runs_ret. rewrite (drop_S _ _ _ Hc). split_and!; [done| |].
    + change (ahead (mkStrInput (it s cs (S k)) Iter.end_) = drop (S k) cs). by rewrite ahead_it by (done || lia).
    + split_and!; [split; [done|exists s, cs, (S k); by split_and!; [|lia|]]|by auto|apply frame_refl].
Qed.
End StrInputLaws.

(** ** Encoded characters are decoded *)

Lemma takeConts_tail n cp r : 0 ≤ cp < 2 ^ 31 → takeConts n (cp `div` 64 ^ Z.of_nat n) (tail n cp ++ r) = (cp, r).
Proof.
  intros Hcp. induction n as [|n IH]; [cbn; by rewrite Z.div_1_r|]. cbn [tail app takeConts hd].
  pose proof (Z.mod_pos_bound (cp `div` 64 ^ Z.of_nat n) 64 ltac:(lia)) as Hm.
  assert (0 < 64 ^ Z.of_nat n) by (apply Z.pow_pos_nonneg; lia).
  assert (cp `div` 64 ^ Z.of_nat (S n) = (cp `div` 64 ^ Z.of_nat n) `div` 64) as E.
  { rewrite Z.div_div by lia. rewrite Nat2Z.inj_succ, Z.pow_succ_r by lia. by rewrite (Z.mul_comm 64). }
  assert (0 ≤ cp `div` 64 ^ Z.of_nat n < 2 ^ 31) as Hd.
  { split; [apply Z.div_pos; lia|]. apply Z.div_lt_upper_bound; [done|]. nia. }
  unfold cont. destruct (cont_decode _ Hm) as [-> _]. cbn [list.tail]. rewrite addCont_spec; [|done|rewrite E; Z.to_euclidean_division_equations; lia].
  rewrite E. by replace ((cp `div` 64 ^ Z.of_nat n) `div` 64 * 64 + (cp `div` 64 ^ Z.of_nat n) `mod` 64)
    with (cp `div` 64 ^ Z.of_nat n) by (pose proof (Z.div_mod (cp `div` 64 ^ Z.of_nat n) 64 ltac:(lia)); lia).
Qed.

Lemma decode8_enc cp r : 0 ≤ cp < 2 ^ 31 → decode8 (enc8 cp ++ r) = (cp, r).
Proof.
  intros Hcp. unfold decode8, enc8. destruct (conts cp) as [|n] eqn:Hn; cbn [app hd].
  - rewrite firstData_ascii; [done|]. unfold conts in Hn. destruct (Z.ltb_spec cp 0x80); [lia|]. by repeat destruct (_ <? _).
  - destruct (conts_range cp n Hn Hcp) as (H4 & _). pose proof (enc8_lead cp n Hn Hcp) as Hl.
    replace (Z.of_nat n + 1) with (Z.of_nat (S n)) in Hl by lia. rewrite firstData_lead by done. by apply takeConts_tail.
Qed.

Lemma enc8_cons cp : ∃ b l, enc8 cp = b :: l.
Proof. unfold enc8. destruct (conts cp); eauto. Qed.

Lemma decodeAll_concat f (enc : Z → list Z) cs : (∀ l, l ≠ [] → (length (f l).2 < length l)%nat) →
  Forall (λ c, enc c ≠ [] ∧ ∀ r, f (enc c ++ r) = (c, r)) cs → decodeAll f (concat (enc <$> cs)) = cs.
Proof.
  intros Hf. induction 1 as [|c cs [Hne Hc] _ IH]; [done|]. cbn [fmap list_fmap concat].
  rewrite (decodeAll_step f Hf), Hc; [cbn [fst snd]; by rewrite IH|]. by destruct (enc c).
Qed.

Lemma chars8_units cs : Forall (λ c, 0 ≤ c < 2 ^ 31) cs → chars8 (units8 cs) = cs.
Proof.
  intros H. apply decodeAll_concat; [apply decode8_shorter|]. eapply Forall_impl; [exact H|]. intros c Hc. cbn beta. split.
  - destruct (enc8_cons c) as (b & l & ->). done.
  - intros r. by apply decode8_enc.
Qed.

(** The bytes of a character in UTF-16. *)
Definition bytes16 (swap : bool) (c : Z) : list Z := concat (Utf16Output.writeUnit swap <$> enc16 c).

Lemma unitOf_write swap u r : 0 ≤ u < 2 ^ 16 → unitOf swap (Utf16Output.writeUnit swap u ++ r) = u ∧ drop 2 (Utf16Output.writeUnit swap u ++ r) = r.
Proof.
  intros Hu. rewrite (Z.div_mod u (2 ^ 8)) at 2 by lia.
  assert (0 ≤ u `div` 2 ^ 8 < 2 ^ 8) by (split; [apply Z.div_pos|apply Z.div_lt_upper_bound]; lia).
  pose proof (Z.mod_pos_bound u (2 ^ 8) ltac:(lia)) as Hm.
  assert (E1 : u8 (Z.land u 0xFF) = u `mod` 2 ^ 8) by (unfold u8; by rewrite land_ff, Z.mod_mod by lia).
  assert (E2 : u8 (Z.land (Z.shiftr u 8) 0xFF) = u `div` 2 ^ 8).
  { unfold u8. rewrite land_ff, Z.mod_mod, Z.shiftr_div_pow2 by lia. by apply Z.mod_small. }
  assert (E3 : u16 (Z.shiftl (u `div` 2 ^ 8) 8) = u `div` 2 ^ 8 * 2 ^ 8) by (unfold u16; rewrite Z.shiftl_mul_pow2 by lia; apply Z.mod_small; lia).
  unfold unitOf, Utf16Output.writeUnit. destruct swap; cbn [app hd list.tail drop]; rewrite E1, E2, E3, ?(Z.lor_comm (u `mod` _));
    rewrite lor_mul_pow2 by lia; split; try done; lia.
Qed.

Lemma decode16_enc swap c r : char c → decode16 swap (bytes16 swap c ++ r) = (c, r).
Proof.
  intros Hc. unfold bytes16, decode16.
  destruct (enc16_char c Hc) as [l t L1 L2 T1 Hl Ht A _ _ _|L1 T1 Hr _ _]; cbn [fmap list_fmap concat]; rewrite <- ?app_assoc.
  - destruct (unitOf_write swap l (Utf16Output.writeUnit swap t ++ [] ++ r)) as [-> ->]; [lia|].
    destruct (unitOf_write swap t ([] ++ r)) as [-> ->]; [lia|]. by rewrite L1, T1, A.
  - destruct (unitOf_write swap c ([] ++ r)) as [-> ->]; [lia|]. by rewrite L1, T1.
Qed.

Lemma chars16_units swap cs : chars cs → chars16 swap (concat (bytes16 swap <$> cs)) = cs.
Proof.
  intros H. apply decodeAll_concat; [apply decode16_shorter|]. eapply Forall_impl; [exact H|]. intros c Hc. cbn beta. split.
  - unfold bytes16. destruct (enc16_char c Hc); by destruct swap.
  - intros r. by apply decode16_enc.
Qed.
