(* ===== verification/TextInputCorrect.v ===== *)
(** * Text input: correctness

    Lines and whole texts are read from any source of characters; line ends are converted,
    and a byte order mark at the start is skipped. *)

From stdpp Require Import base list numbers decidable option strings.
From Stdlib Require Import ZArith Lia.
From S2P Require Import Prelude Utf UtfCorrect ConvertCorrect Buffer BufferCorrect Stream StreamCorrect MemStream MemStreamCorrect Str StrIter StrCorrect StrIterCorrect StrFindCorrect StrBuf StrBufCorrect StrStream Text TextReadCorrect.

(** ** Texts *)

(** A byte order mark at the start is not part of a text. *)
Definition skipMark (l : list Z) : list Z := if hd 0 l =? bom then tl l else l.

Lemma skipMark_none l : bom ∉ l → skipMark l = l.
Proof.
  intros H. unfold skipMark. destruct l as [|c l]; [done|]. apply not_elem_of_cons in H as [H _]. cbn [hd].
  by rewrite (proj2 (Z.eqb_neq c bom)) by (by intros ->).
Qed.

(** A line, and what follows it. *)
Definition isBreak (c : Z) : bool := (c =? Ch.cr) || (c =? Ch.nl).
Fixpoint lineOf (cs : list Z) : list Z :=
  match cs with [] => [] | c :: r => if isBreak c then [] else c :: lineOf r end.
Fixpoint afterLine (cs : list Z) : list Z :=
  match cs with
  | [] => []
  | c :: r => if c =? Ch.cr then (if hd 0 r =? Ch.nl then tl r else r) else if c =? Ch.nl then r else afterLine r
  end.

(** All line ends as line feeds. *)
Fixpoint normalize (cs : list Z) : list Z :=
  match cs with
  | [] => []
  | c :: r =>
      if c =? Ch.cr then Ch.nl :: match r with [] => [] | d :: r' => if d =? Ch.nl then normalize r' else normalize r end
      else c :: normalize r
  end.

(** No two carriage returns in a row. *)
Fixpoint noCrCr (cs : list Z) : bool :=
  match cs with [] => true | c :: r => negb ((c =? Ch.cr) && (hd 0 r =? Ch.cr)) && noCrCr r end.

(** The character [read] returns, and what follows. *)
Definition readNl (cs : list Z) : Z * list Z :=
  if (hd 0 cs =? Ch.cr) && (hd 0 (tl cs) =? Ch.nl) then (Ch.nl, tl (tl cs)) else (hd 0 cs, tl cs).

Lemma runs_lift {A} (m : outcome A) h (Q : A → Prop) : returns m Q → runs (lift m) h (λ a h', Q a ∧ h' = h).
Proof. intros H. apply returns_exists in H as (a & -> & Ha). done. Qed.

Module InputLaws.
Import TextInput.
Section laws.
Context {S : Type} `{TextSourceLaws S}.
Implicit Types (t : TextInput S) (h : heap) (cs : list Z).

(** The text [cs] is what is still to be read: the characters that come, after a mark at
    the start of the source and after a character that was looked at already.  A text has
    no mark inside: [doRead] would drop it, see [text_read_misses]. *)
Record textIs t h cs : Prop := {
  text_source : owf (source t) h;
  text_nonzero : 0 ∉ cs;
  text_nomark : bom ∉ cs;
  text_next : if hasNext t then next t = hd 0 cs ∧ bytes (source t) h = tl cs else cs = skipMark (bytes (source t) h);
  text_first : hd 0 (bytes (source t) h) = bom → first t = true;
  text_eof : eof t = true → bytes (source t) h = [];
}.

(** A new text input has the characters of its source, without a mark at the start. *)
Lemma new_text (s : S) h cs : owf s h → bytes s h = cs ∨ bytes s h = bom :: cs → 0 ∉ cs → bom ∉ cs → textIs (new s) h cs.
Proof.
  intros Hs Hb Hz0 Hm. split; [done..| |done|done]. cbn [new hasNext source]. destruct Hb as [->| ->]; [by rewrite skipMark_none|].
  unfold skipMark. cbn [hd list.tail]. by rewrite Z.eqb_refl.
Qed.

Lemma hd_zero cs : 0 ∉ cs → hd 0 cs = 0 → cs = [].
Proof. destruct cs as [|c cs]; [done|]. cbn. intros Hn ->. destruct Hn. by left. Qed.

(** After a step, [cs] remains. *)
Definition leaves t h cs t' h' : Prop := textIs t' h' cs ∧ evolves (source t) h (source t') h'.

Lemma leaves_trans t h cs1 t1 h1 cs2 t2 h2 : leaves t h cs1 t1 h1 → leaves t1 h1 cs2 t2 h2 → leaves t h cs2 t2 h2.
Proof. intros [_ E1] [E2 E3]. split; [done|]. by apply (evolves_trans _ (source t1) _ _ h1). Qed.

(** Without a character that was looked at, and with [cs] left in the source. *)
Lemma textIs_rest t h cs b : textIs t h cs → ∀ t' h', owf (source t') h' → bytes (source t') h' = tl cs → hasNext t' = b →
  (b = true → next t' = hd 0 cs) → (eof t' = true → tl cs = []) → textIs t' h' (if b then cs else tl cs).
Proof.
  intros [_ Hz0 Hm _ _ _] t' h' Ho Hb Hh Hn He.
  assert (Ht : ∀ x, x ∉ cs → x ∉ tl cs) by (intros x; destruct cs; [done|]; cbn; rewrite not_elem_of_cons; tauto).
  split; rewrite ?Hb, ?Hh; [done|by destruct b; auto|by destruct b; auto| | |done].
  - destruct b; [by rewrite Hn|]. by rewrite skipMark_none by auto.
  - intros E. destruct (tl cs) as [|c r] eqn:Et; [done|]. cbn in E. subst c. destruct (Ht bom Hm). by left.
Qed.

Lemma doRead_run t h cs : textIs t h cs → hasNext t = false →
  runs (doRead t) h (λ '(t', c) h', c = hd 0 cs ∧ hasNext t' = false ∧ bytes (source t') h' = tl cs ∧ leaves t h (tl cs) t' h').
Proof.
  intros Ht Hh. pose proof Ht as [Ho Hz0 Hm Hn Hf He]. rewrite Hh in Hn. unfold doRead. set (l := bytes (source t) h) in *.
  eapply runs_bind; [by apply readChar_law|]. intros [s1 c1] h1 (-> & Hb1 & Hev1). fold l in Hb1 |- *.
  apply (runs_bind _ _ _ (λ '(s, c) h', c = hd 0 cs ∧ bytes s h' = tl cs ∧ evolves (source t) h s h')).
  { subst cs. unfold skipMark. destruct (Z.eqb_spec (hd 0 l) bom) as [E|_]; [rewrite (Hf E)|rewrite andb_false_r; by apply runs_ret].
    eapply runs_mono; [apply readChar_law, Hev1|]. intros [s2 c2] h2 (-> & Hb2 & Hev2). rewrite Hb1 in *.
    split_and!; [done|done|by apply (evolves_trans _ s1 _ _ h1)]. }
  intros [s2 c2] h2 (-> & Hb2 & Hev2). apply runs_ret. split_and!; [done|done|done|]. split; [|done].
  apply (textIs_rest t h cs false Ht); [apply Hev2|done|done|done|]. cbn [eof]. destruct (Z.eqb_spec (hd 0 cs) 0) as [E|_].
  - intros _. by rewrite (hd_zero cs Hz0 E).
  - intros E. rewrite Hn. unfold skipMark. rewrite (He E). by destruct (hd 0 [] =? bom).
Qed.

Lemma readRaw_run t h cs : textIs t h cs →
  runs (readRaw t) h (λ '(t', c) h', c = hd 0 cs ∧ hasNext t' = false ∧ leaves t h (tl cs) t' h').
Proof.
  intros Ht. unfold readRaw. destruct (hasNext t) eqn:Hh.
  2:{ eapply runs_mono; [by apply doRead_run|]. by intros [t1 c] h1 (? & ? & _ & ?). }
  pose proof Ht as [Ho _ _ Hn _ He]. rewrite Hh in Hn. destruct Hn as [En Eb]. apply runs_ret. split_and!; [done|done|].
  split; [|by apply evolves_refl]. apply (textIs_rest t h cs false Ht); [done|done|done|done|]. rewrite <- Eb. exact He.
Qed.

Lemma peekText_run t h cs : textIs t h cs → runs (peek t) h (λ '(t', c) h', c = hd 0 cs ∧ leaves t h cs t' h').
Proof.
  intros Ht. unfold peek. destruct (hasNext t) eqn:Hh.
  - apply runs_ret. pose proof Ht as [Ho _ _ Hn _ _]. rewrite Hh in Hn. destruct Hn as [-> _]. split; [done|]. split; [done|by apply evolves_refl].
  - eapply runs_bind; [by apply doRead_run|]. intros [t1 c] h1 (-> & Hh1 & Hb & Ht1 & Hev). apply runs_ret. split; [done|]. split; [|done].
    destruct Ht1 as [Ho1 _ _ _ _ He1].
    apply (textIs_rest t h cs true Ht); [done|done|done|done|]. rewrite <- Hb. exact He1.
Qed.

Lemma readText_char_run t h cs : textIs t h cs → runs (read t) h (λ '(t', c) h', c = (readNl cs).1 ∧ leaves t h (readNl cs).2 t' h').
Proof.
  intros Ht. unfold read, readNl. eapply runs_bind; [by apply readRaw_run|]. intros [t1 c] h1 (-> & _ & Hl1).
  destruct (Z.eqb_spec (hd 0 cs) Ch.cr) as [E|_]; cbn [andb fst snd]; [|by apply runs_ret].
  eapply runs_bind; [apply peekText_run, Hl1|]. intros [t2 c] h2 (-> & Hl2). pose proof (leaves_trans _ _ _ _ _ _ _ _ Hl1 Hl2) as Hl.
  destruct (Z.eqb_spec (hd 0 (tl cs)) Ch.nl) as [E2|_]; cbn [fst snd]; [|by apply runs_ret].
  eapply runs_mono; [apply readRaw_run, Hl2|]. intros [t3 c] h3 (-> & _ & Hl3). split; [done|]. by apply (leaves_trans _ _ _ _ _ _ _ _ Hl).
Qed.

(** [more] is false only at the end. *)
Lemma more_end t h cs : textIs t h cs → more t = false → cs = [].
Proof.
  intros [_ Hnz _ Hn _ He] Hm. unfold more in Hm. destruct (hasNext t).
  - destruct Hn as [En _]. apply hd_zero; [done|]. rewrite <- En. by apply negb_false_iff, Z.eqb_eq in Hm.
  - rewrite Hn, He by (by apply negb_false_iff in Hm). unfold skipMark. by destruct (hd 0 [] =? bom).
Qed.

(** ** Loops *)

(** One more character of the result. *)
Lemma addChar_step to u c h : StrBufCorrect.simple to u → char c → zlen u + 2 ≤ 2 ^ 30 →
  runs (lift (StrBuf.addChar to c)) h (λ to' h', StrBufCorrect.simple to' (u ++ enc16 c) ∧ h' = h).
Proof. intros. apply runs_lift. by apply simple_addChar. Qed.

Lemma readLineLoop_run fuel t h cs to u : textIs t h cs → chars cs → StrBufCorrect.simple to u → (length cs < fuel)%nat →
  zlen u + 2 * zlen cs ≤ 2 ^ 30 →
  runs (readLineLoop fuel t to) h (λ '(t', to') h', StrBufCorrect.simple to' (u ++ units16 (lineOf cs)) ∧ leaves t h (afterLine cs) t' h').
Proof.
  revert t h cs to u. induction fuel as [|fuel IH]; intros t h cs to u Ht Hcs Hto Hfuel Hz; [lia|]. cbn [readLineLoop].
  eapply runs_bind; [by apply readRaw_run|]. intros [t1 c] h1 (-> & _ & Hl1). destruct cs as [|c cs]; cbn [hd list.tail lineOf afterLine] in *.
  { apply runs_ret. by rewrite app_nil_r. }
  apply Forall_cons_1 in Hcs as [Hc Hcs]. rewrite (proj2 (Z.eqb_neq c 0)) by apply Hc. rewrite zlen_cons in Hz. unfold isBreak.
  destruct (c =? Ch.cr) eqn:Ecr; cbn [orb].
  { eapply runs_bind; [apply peekText_run, Hl1|]. intros [t2 d] h2 (-> & Hl2). pose proof (leaves_trans _ _ _ _ _ _ _ _ Hl1 Hl2) as Hl.
    destruct (hd 0 cs =? Ch.nl); [|apply runs_ret; by rewrite app_nil_r].
    eapply runs_bind; [apply readRaw_run, Hl2|]. intros [t3 d] h3 (_ & _ & Hl3). apply runs_ret. rewrite app_nil_r. split; [done|].
    by apply (leaves_trans _ _ _ _ _ _ _ _ Hl). }
  destruct (c =? Ch.nl); [apply runs_ret; by rewrite app_nil_r|]. pose proof (zlen_nonneg cs).
  eapply runs_bind; [apply (addChar_step to u c); [done|done|lia]|]. intros to1 h1' [Hto1 ->].
  eapply runs_mono; [apply (IH t1 h1 cs to1 (u ++ enc16 c)); [apply Hl1|done|done|cbn [length] in Hfuel; lia|]|].
  - pose proof (enc16_length c). rewrite zlen_app. lia.
  - intros [t2 to2] h2 [Hto2 Hl2]. rewrite <- app_assoc in Hto2. split; [done|]. by apply (leaves_trans _ _ _ _ _ _ _ _ Hl1).
Qed.

Lemma readAllRawLoop_run fuel t h cs to u : textIs t h cs → chars cs → StrBufCorrect.simple to u → (length cs < fuel)%nat →
  zlen u + 2 * zlen cs ≤ 2 ^ 30 →
  runs (readAllRawLoop fuel t to) h (λ '(t', to') h', StrBufCorrect.simple to' (u ++ units16 cs) ∧ leaves t h [] t' h').
Proof.
  revert t h cs to u. induction fuel as [|fuel IH]; intros t h cs to u Ht Hcs Hto Hfuel Hz; [lia|]. cbn [readAllRawLoop].
  destruct (more t) eqn:Em.
  2:{ apply runs_ret. pose proof (more_end t h cs Ht Em) as ->. rewrite app_nil_r. split; [done|]. split; [done|apply evolves_refl, Ht]. }
  eapply runs_bind; [by apply readRaw_run|]. intros [t1 c] h1 (-> & _ & Hl1). destruct cs as [|c cs]; cbn [hd list.tail] in *.
  { apply runs_ret. by rewrite app_nil_r. }
  apply Forall_cons_1 in Hcs as [Hc Hcs]. rewrite (proj2 (Z.eqb_neq c 0)) by apply Hc. rewrite zlen_cons in Hz. pose proof (zlen_nonneg cs).
  eapply runs_bind; [apply (addChar_step to u c); [done|done|lia]|]. intros to1 h1' [Hto1 ->].
  eapply runs_mono; [apply (IH t1 h1 cs to1 (u ++ enc16 c)); [apply Hl1|done|done|cbn [length] in Hfuel; lia|]|].
  - pose proof (enc16_length c). rewrite zlen_app. lia.
  - intros [t2 to2] h2 [Hto2 Hl2]. rewrite <- app_assoc in Hto2. split; [done|]. by apply (leaves_trans _ _ _ _ _ _ _ _ Hl1).
Qed.
(** What the body of the loop of [readAll] makes of a carriage return: a line feed, and the
    character after it. *)
Lemma afterCr_run t h r to u : textIs t h r → StrBufCorrect.simple to u → (hd 0 r =? Ch.cr) = false → zlen u + 2 ≤ 2 ^ 30 →
  runs ('(t, c) ← read t;
        to ← (if negb (c =? Ch.nl) then lift (StrBuf.addCStr to [Ch.nl; 0]) else mret to);
        mret (t, c, to)) h
    (λ '(t', c, to') h', c = hd 0 r ∧ leaves t h (tl r) t' h' ∧ StrBufCorrect.simple to' (u ++ if hd 0 r =? Ch.nl then [] else [Ch.nl])).
Proof.
  intros Ht Hto Hcr Hz. eapply runs_bind; [by apply readText_char_run|]. unfold readNl. rewrite Hcr. cbn [andb fst snd]. intros [t1 c] h1 (-> & Hl1).
  apply (runs_bind _ _ _ (λ to' h', StrBufCorrect.simple to' (u ++ if hd 0 r =? Ch.nl then [] else [Ch.nl]) ∧ h' = h1)).
  - destruct (hd 0 r =? Ch.nl); cbn [negb]; [apply runs_ret; by rewrite app_nil_r|]. apply runs_lift.
    apply (simple_addCStr to u [Ch.nl] []); [done|by repeat constructor|]. change (zlen [Ch.nl]) with 1. lia.
  - intros to1 h1' [Hto1 ->]. by apply runs_ret.
Qed.

(** The first character of [r], or at the end zero, which adds nothing. *)
Lemma addNext_run to u r h : StrBufCorrect.simple to u → chars r → zlen u + 2 * zlen (take 1 r) ≤ 2 ^ 30 →
  runs (lift (StrBuf.addChar to (hd 0 r))) h (λ to' h', StrBufCorrect.simple to' (u ++ units16 (take 1 r)) ∧ h' = h).
Proof.
  intros Hto Hr Hz. destruct r as [|d r]; cbn [hd take].
  - apply runs_lift. apply (simple_addCStr to u [] [0]); [done|by apply Forall_nil|]. cbn [take] in Hz. change (zlen []) with 0 in *. lia.
  - apply Forall_cons_1 in Hr as [Hd _]. rewrite units16_cons, app_nil_r. by apply addChar_step.
Qed.

Lemma normalize_cr r : (hd 0 r =? Ch.cr) = false →
  normalize (Ch.cr :: r) = (if hd 0 r =? Ch.nl then [] else [Ch.nl]) ++ take 1 r ++ normalize (tl r).
Proof.
  intros Hcr. cbn [normalize]. rewrite Z.eqb_refl. destruct r as [|d r]; [done|]. cbn [hd take list.tail] in *.
  destruct (Z.eqb_spec d Ch.nl) as [->|Hn]; [done|]. cbn [normalize]. by rewrite Hcr.
Qed.

Lemma readAllLoop_run fuel t h cs to u : textIs t h cs → chars cs → StrBufCorrect.simple to u → (length cs < fuel)%nat →
  zlen u + 2 * zlen cs ≤ 2 ^ 30 → noCrCr cs = true →
  runs (readAllLoop fuel t to) h (λ '(t', to') h', StrBufCorrect.simple to' (u ++ units16 (normalize cs)) ∧ leaves t h [] t' h').
Proof.
  revert t h cs to u. induction fuel as [|fuel IH]; intros t h cs to u Ht Hcs Hto Hfuel Hz Hcr; [lia|]. cbn [readAllLoop].
  eapply runs_bind; [by apply readRaw_run|]. intros [t1 c] h1 (-> & _ & Hl1). destruct cs as [|c cs]; cbn [hd list.tail normalize noCrCr] in *.
  { apply runs_ret. by rewrite app_nil_r. }
  apply andb_true_iff in Hcr as [Hcr1 Hcr].
  apply Forall_cons_1 in Hcs as [Hc Hcs]. rewrite (proj2 (Z.eqb_neq c 0)) by apply Hc. rewrite zlen_cons in Hz. pose proof (zlen_nonneg cs).
  cbn [length] in Hfuel. destruct (c =? Ch.cr) eqn:Ecr; cbn [andb] in Hcr1.
  - apply negb_true_iff in Hcr1. apply Z.eqb_eq in Ecr as ->.
    eapply runs_bind; [apply (afterCr_run t1 h1 cs to u (proj1 Hl1) Hto Hcr1); lia|]. intros [[t2 d] to2] h2 (-> & Hl2 & Hto2).
    assert (Hu : zlen (u ++ if hd 0 cs =? Ch.nl then [] else [Ch.nl]) ≤ zlen u + 1) by (rewrite zlen_app; unfold zlen; destruct (hd 0 cs =? Ch.nl); cbn [length]; lia).
    eapply runs_bind; [apply (addNext_run to2 _ cs h2 Hto2 Hcs)|].
    { assert (zlen (take 1 cs) ≤ zlen cs) by (unfold zlen; rewrite length_take; lia). lia. }
    intros to3 h3 [Hto3 ->].
    assert (Hct : chars (tl cs)) by (destruct cs; [done|]; by apply Forall_cons_1 in Hcs as [_ ?]).
    eapply runs_mono; [apply (IH t2 h2 (tl cs) to3 _ (proj1 Hl2) Hct Hto3)|].
    + destruct cs; cbn [length list.tail] in *; lia.
    + rewrite zlen_app. destruct cs as [|d cs]; cbn [take list.tail]; [unfold zlen in *; cbn [units16 fmap list_fmap concat length] in *; lia|]. rewrite zlen_cons in Hz.
      rewrite units16_cons, app_nil_r. pose proof (enc16_length d). lia.
    + destruct cs; [done|]. cbn [noCrCr] in Hcr. by apply andb_true_iff in Hcr as [_ ?].
    + intros [t3 to4] h3 [Hto4 Hl3]. split; [|by apply (leaves_trans _ _ _ _ _ _ _ _ (leaves_trans _ _ _ _ _ _ _ _ Hl1 Hl2))].
      pose proof (normalize_cr cs Hcr1) as En. cbn [normalize] in En. rewrite Z.eqb_refl in En. rewrite En, !units16_app.
      replace (units16 (if hd 0 cs =? Ch.nl then [] else [Ch.nl])) with (if hd 0 cs =? Ch.nl then [] else [Ch.nl]) by (by destruct (hd 0 cs =? Ch.nl)).
      by rewrite !app_assoc.
  - eapply runs_step; [done|]. cbv beta iota.
    eapply runs_bind; [apply (addChar_step to u c); [done|done|lia]|]. intros to1 h1' [Hto1 ->].
    eapply runs_mono; [apply (IH t1 h1 cs to1 (u ++ enc16 c)); [apply Hl1|done|done|lia| |done]|].
    + pose proof (enc16_length c). rewrite zlen_app. lia.
    + intros [t2 to2] h2 [Hto2 Hl2]. rewrite <- app_assoc in Hto2. split; [done|]. by apply (leaves_trans _ _ _ _ _ _ _ _ Hl1).
Qed.
End laws.
End InputLaws.

(** C24: A text is what comes from a source of characters after an optional byte order mark
    at its start, and has at most 2^29 characters and neither zeros nor such marks inside.  [readLine] reads its
    characters up to the next line end, which it skips whichever of the three kinds it is,
    [readAllRaw] reads all that is left, and [readAll] all of it with every line end as a line
    feed, if no two carriage returns follow each other.  ([text_read_misses] shows that both
    conditions are needed.) *)
Theorem text_read {S : Type} `{TextSourceLaws S} (t : TextInput.TextInput S) h cs fuel :
  InputLaws.textIs t h cs → chars cs → (length cs < fuel)%nat → 2 * zlen cs ≤ 2 ^ 30 →
  runs (TextInput.readLine fuel t) h (λ '(t', d) h', d = strData (units16 (lineOf cs)) ∧ InputLaws.leaves t h (afterLine cs) t' h') ∧
  runs (TextInput.readAllRaw fuel t) h (λ '(t', d) h', d = strData (units16 cs) ∧ InputLaws.leaves t h [] t' h') ∧
  (noCrCr cs = true →
   runs (TextInput.readAll fuel t) h (λ '(t', d) h', d = strData (units16 (normalize cs)) ∧ InputLaws.leaves t h [] t' h')).
Proof.
  intros Ht Hcs Hfuel Hz.
  assert (Hfin : ∀ (m : io (TextInput.TextInput S * StrBuf.StrBuf)) u cs',
    runs m h (λ '(t', to') h', StrBufCorrect.simple to' u ∧ InputLaws.leaves t h cs' t' h') →
    runs ('(t, to) ← m; s ← lift (StrBuf.toS to); mret (t, s)) h (λ '(t', d) h', d = strData u ∧ InputLaws.leaves t h cs' t' h')).
  { intros m u cs' Hm. eapply runs_bind; [exact Hm|]. intros [t' to'] h' [[Hr _ _ _] Hl].
    eapply runs_step; [apply lift_eq, (toS_eq to' u Hr)|]. by apply runs_ret. }
  split_and!; [| |intros Hcr]; apply Hfin.
  - by apply (InputLaws.readLineLoop_run fuel t h cs StrBuf.new [] Ht Hcs simple_new).
  - by apply (InputLaws.readAllRawLoop_run fuel t h cs StrBuf.new [] Ht Hcs simple_new).
  - by apply (InputLaws.readAllLoop_run fuel t h cs StrBuf.new [] Ht Hcs simple_new).
Qed.

(** The reader of a string has its text. *)
Lemma readStr_text s cs h : isStr (sdata s) cs → bom ∉ cs → InputLaws.textIs (readStr s) h cs.
Proof.
  intros Hs Hb. pose proof (isStr_chars _ _ Hs) as Hcs. apply InputLaws.new_text; [|left; apply (StrInputLaws.ahead_it s cs 0 Hs); lia| |done].
  - split; [done|]. exists s, cs, 0%nat. split_and!; [done|lia|done].
  - intros H0. rewrite Forall_forall in Hcs. by apply Hcs in H0 as [_ ?].
Qed.

Lemma text_read_witness :
  let s := mkStrObj 7 (strData [97; Ch.cr; Ch.nl; 0xD83D; 0xDE00; Ch.cr]) in
  let cs := [97; Ch.cr; Ch.nl; 0x1F600; Ch.cr] in
  runs (TextInput.readLine 6 (readStr s)) [] (λ '(t', d) h', d = strData [97] ∧ InputLaws.leaves (readStr s) [] [0x1F600; Ch.cr] t' h') ∧
  runs (TextInput.readAllRaw 6 (readStr s)) [] (λ '(t', d) h', d = strData (units16 cs) ∧ InputLaws.leaves (readStr s) [] [] t' h') ∧
  (true = true →
   runs (TextInput.readAll 6 (readStr s)) [] (λ '(t', d) h', d = strData [97; Ch.nl; 0xD83D; 0xDE00; Ch.nl] ∧ InputLaws.leaves (readStr s) [] [] t' h')).
Proof.
  assert (Hs : isStr (strData [97; Ch.cr; Ch.nl; 0xD83D; 0xDE00; Ch.cr]) [97; Ch.cr; Ch.nl; 0x1F600; Ch.cr]).
  { split; [reflexivity| |reflexivity]. repeat constructor; unfold Ch.cr, Ch.nl; lia. }
  apply (text_read (readStr (mkStrObj 7 (strData [97; Ch.cr; Ch.nl; 0xD83D; 0xDE00; Ch.cr]))) [] [97; Ch.cr; Ch.nl; 0x1F600; Ch.cr] 6);
    [apply (readStr_text (mkStrObj 7 (strData _))); [exact Hs|]|apply (isStr_chars _ _ Hs)|cbn; lia|vm_compute; discriminate].
  rewrite !not_elem_of_cons. split_and!; try (vm_compute; discriminate). apply not_elem_of_nil.
Defined.

(** Two carriage returns in a row: the second is left in the text, or with a line feed after
    it not counted.  A byte order mark is lost everywhere in a text, and [read] leaves single
    carriage returns. *)
Theorem text_read_misses :
  let all u := match TextInput.readAll 9 (readStr (mkStrObj 7 (strData u))) [] with Ret (_, d, _) => Some (Str.body d) | _ => None end in
  all [97; Ch.cr; Ch.cr; 98] = Some [97; Ch.nl; Ch.cr; 98] ∧
  all [97; Ch.cr; Ch.cr; Ch.nl; 98] = Some [97; Ch.nl; 98] ∧
  all [97; bom; 98] = Some [97; 98] ∧
  match TextInput.read (readStr (mkStrObj 7 (strData [Ch.cr; 97]))) [] with Ret (_, c, _) => c = Ch.cr | _ => False end.
Proof. vm_compute. done. Qed.

(** ** Finding the encoding *)

Module AnyLaws.
Import AnyInput.
Section laws.
Context {I : Type} `{IStreamLaws I}.

#[global] Instance heapObject : HeapObject (AnyInput I).
Proof.
  refine {| owf i h := match i with Input8 i => owf i h | Input16 i => owf i h end;
            owns i l := match i with Input8 i => owns i l | Input16 i => owns i l end;
            bytes i h := match i with Input8 i => bytes i h | Input16 i => bytes i h end |}.
  - intros [i|i] h l; apply owns_lt.
  - intros [i|i] h h'; apply owns_stable.
Defined.

#[global] Instance textSourceLaws : TextSourceLaws (AnyInput I).
Proof.
  intros [i|i] h Hi; unfold readChar, textSource; (eapply runs_bind; [by apply readChar_law|]); intros [i' c] h' E; by apply runs_ret.
Qed.

(** The encoding is found from the first two bytes. *)
Definition decodeText (l : list Z) : list Z :=
  if (hd 0 l =? 0xFE) && (hd 0 (tl l) =? 0xFF) then chars16 false l
  else if (hd 0 l =? 0xFF) && (hd 0 (tl l) =? 0xFE) then chars16 true l
  else chars8 l.

Lemma newStart_run (s : I) h l a : owf s h → ¬ owns s l → h !! l = Some a → awf a →
  runs (ByteReader.newStart s (Some l)) h (λ r h', evolves s h r h' ∧ bytes r h' = data a ++ bytes s h).
Proof.
  intros Hs Hno Hl Hw. destruct (Hw) as [Hf Hc]. unfold ByteReader.newStart. eapply runs_step; [by apply (filled_eq h (Some l) a)|].
  eapply runs_step; [apply buffer_eq|]. set (n := Z.max bufSize (gfilled a)). set (z := mkGcBytes 0 (replicate (Z.to_nat n) 0)).
  assert (Hn : 0 ≤ n < 2 ^ 32 ∧ gfilled a ≤ n) by (unfold n, bufSize; lia).
  assert (Hz : awf z) by (apply awf_fresh; lia). assert (Hzc : gcount z = n) by (unfold gcount, z; cbn [v]; rewrite zlen_replicate; lia).
  assert (Hins : ∀ x x' : GcBytes, <[length h := x']> (h ++ [x]) = h ++ [x']) by (intros; by rewrite insert_app_r_alt, Nat.sub_diag).
  assert (Hla : ∀ x : GcBytes, (h ++ [x]) !! l = Some a) by (intros; by apply lookup_app_l_Some).
  eapply runs_step; [apply (filled_eq _ (Some l) a); [apply Hla|done]|]. eapply runs_step; [apply (setFilled_eq _ (length h) z); [apply view_fresh|done]|].
  rewrite Hins, Hzc, Z.min_l by lia. set (z1 := mkGcBytes (gfilled a) (v z)).
  eapply runs_step; [apply (filled_eq _ (Some l) a); [apply Hla|done]|].
  eapply runs_step; [apply (memcpy_eq _ (length h) z1 (Some l) a); [apply view_fresh|apply Hla|left; intros [= ->]|lia..|]|].
  { apply lookup_lt_Some in Hl. lia. }
  { change (gcount z1) with (gcount z). lia. }
  rewrite Hins. set (x := slice (v a) 0 (gfilled a)). set (z2 := mkGcBytes _ _). apply runs_ret.
  assert (Hx : zlen x = gfilled a) by (apply zlen_slice; unfold gcount in *; lia).
  assert (Hz2 : gcount z2 = n).
  { unfold z2, gcount in *. cbn [v]. change (v z1) with (v z). rewrite zlen_splice; [done|lia|]. lia. }
  assert (Hd : data z2 = data a).
  { unfold data at 1, z2. cbn [gfilled v]. pose proof (take_splice (v z) 0 x ltac:(lia) ltac:(unfold gcount in *; lia)) as E.
    rewrite Hx in E. cbn [Z.add Z.to_nat take app] in E. exact E. }
  destruct (owns_frame s h (h ++ [z2]) (λ _, False)) as [Hs2 Hb2]; [done|apply frame_alloc|by intros ? ?|].
  split; [split_and!|].
  - exists z2. cbn [ByteReader.buf ByteReader.pos ByteReader.src]. assert (Hg : gfilled z2 = gfilled a) by done.
    split_and!; [apply view_fresh|split; rewrite ?Hz2, ?Hg; lia|done|rewrite Hg; lia|done|].
    intros k [= <-] Hk. apply (owns_lt s h) in Hk; [lia|done].
  - intros j [[= <-]|Hj]; [by right|by left].
  - apply frame_alloc.
  - trans (ReaderLaws.held (ByteReader.mkByteReader s (Some (length h)) 0) (h ++ [z2]) ++ bytes s (h ++ [z2])); [done|].
    unfold ReaderLaws.held. cbn [ByteReader.buf ByteReader.pos]. rewrite (view_fresh h z2). cbn [Z.to_nat drop]. by rewrite Hd, Hb2.
Qed.
Lemma mark_eq a b : is_u8 a → is_u8 b → Z.lor (u16 (Z.shiftl a 8)) b = a * 2 ^ 8 + b.
Proof.
  unfold is_u8. intros Ha Hb. rewrite Z.shiftl_mul_pow2 by lia. unfold u16. rewrite Z.mod_small by lia. by apply lor_mul_pow2.
Qed.

(** The first bytes of a stream. *)
Lemma fillCount_run (i : I) h n : owf i h → 0 ≤ n < 2 ^ 32 →
  runs (Istream.fillCount i n) h (λ '(i', b) h', ∃ l a, b = Some l ∧ h' !! l = Some a ∧ awf a ∧ gcount a = n ∧
    data a = take (Z.to_nat n) (bytes i h) ∧ bytes i' h' = drop (Z.to_nat n) (bytes i h) ∧ ¬ owns i' l ∧ evolves i h i' h').
Proof.
  intros Hi Hn. unfold Istream.fillCount. eapply runs_step; [apply buffer_eq|]. set (z := mkGcBytes 0 (replicate (Z.to_nat n) 0)).
  assert (Hz : awf z) by (by apply awf_fresh). assert (Hzc : gcount z = n) by (unfold gcount, z; cbn [v]; rewrite zlen_replicate; lia).
  destruct (owns_frame i h (h ++ [z]) (λ _, False)) as [Hi0 Hb0]; [done|apply frame_alloc|by intros ? ?|].
  assert (Hno : ¬ owns i (length h)) by (intros Hk; apply (owns_lt i h) in Hk; [lia|done]).
  eapply runs_mono; [apply (fill_run i (h ++ [z]) (length h) z Hi0 Hno (view_fresh h z) Hz)|].
  intros rr h1 (i1 & l1 & a1 & -> & Hl1 & Hw1 & Hc1 & Hd1 & Hr & Hi1 & Hno1 & Hown & HF1 & _). rewrite Hzc, Hb0 in *.
  exists l1, a1. split_and!; try done; [by rewrite Hc1|]. split_and!; [done| |].
  - intros j Hj. rewrite length_app in Hown. cbn [length] in Hown. destruct (Hown j Hj); [by left|right; lia].
  - apply (frame_trans _ (λ j, owns i j ∨ j = length h) _ (h ++ [z])); [apply frame_alloc|done|]. intros j [Hj| ->]; [by left|by right].
Qed.

Lemma get_data h l a k : h !! l = Some a → awf a → 0 ≤ k < gfilled a →
  ∃ x, data a !! Z.to_nat k = Some x ∧ Buffer.get (Some l) k h = Ret (x, h).
Proof.
  intros Hl Hw Hk. destruct (Hw) as [Hf Hc]. destruct (lookupZ_lt_Some (v a) k) as [x Hx]; [unfold gcount in *; lia|]. exists x. split.
  - unfold data. rewrite lookup_take_lt by lia. by rewrite lookupZ_to_nat in Hx by lia.
  - pose proof (get_run h l a Hl Hw k ltac:(lia)) as E. by rewrite Hx in E.
Qed.

Lemma readText_run (i : I) h : owf i h →
  runs (readText i) h (λ t h', t = TextInput.new (TextInput.source t) ∧ bytes (TextInput.source t) h' = decodeText (bytes i h) ∧
    evolves i h (TextInput.source t) h').
Proof.
  intros Hi. pose proof (bytes_u8 i h Hi) as Hu8. unfold readText. eapply runs_bind; [apply (fillCount_run i h 2 Hi); lia|].
  intros [i1 b] h1 (l & a & -> & Hl & Hw & Hc & Hd & Hr & Hno & Hev). set (bs := bytes i h) in *.
  io_step full_eq. rewrite Hc.
  assert (Hmark : runs (if gfilled a =? 2 then b0 ← Buffer.get (Some l) 0; b1 ← Buffer.get (Some l) 1; mret (Z.lor (u16 (Z.shiftl b0 8)) b1) else mret 0) h1
    (λ m h', h' = h1 ∧ (m =? 0xFEFF) = ((hd 0 bs =? 0xFE) && (hd 0 (tl bs) =? 0xFF)) ∧ (m =? 0xFFFE) = ((hd 0 bs =? 0xFF) && (hd 0 (tl bs) =? 0xFE)))).
  { pose proof (zlen_data a Hw) as Hzd. rewrite Hd in Hzd. destruct (Z.eqb_spec (gfilled a) 2) as [E2|Hne].
    - destruct (get_data h1 l a 0 Hl Hw ltac:(lia)) as (x & Hx & E0). destruct (get_data h1 l a 1 Hl Hw ltac:(lia)) as (y & Hy & E1).
      eapply runs_step; [exact E0|]. eapply runs_step; [exact E1|]. apply runs_ret. split; [done|]. rewrite Hd in Hx, Hy.
      destruct bs as [|x' [|y' bs']]; [done|done|]. cbn in Hx, Hy. injection Hx as ->. injection Hy as ->. cbn [hd list.tail].
      apply Forall_cons_1 in Hu8 as [Hx8 Hu8]. apply Forall_cons_1 in Hu8 as [Hy8 _]. rewrite mark_eq by done. unfold is_u8 in *.
      split; (destruct (Z.eqb_spec (x * 2 ^ 8 + y) 0xFEFF), (Z.eqb_spec (x * 2 ^ 8 + y) 0xFFFE), (Z.eqb_spec x 0xFE), (Z.eqb_spec x 0xFF),
        (Z.eqb_spec y 0xFE), (Z.eqb_spec y 0xFF); cbn [andb]; done || lia).
    - apply runs_ret. split; [done|]. unfold zlen in Hzd. rewrite length_take in Hzd.
      destruct bs as [|x' [|y' bs']]; [done|by cbn; rewrite !andb_false_r|]. cbn [length] in Hzd. destruct Hw. lia. }
  eapply runs_bind; [exact Hmark|]. intros m h1' (-> & E1 & E2). unfold decodeText. rewrite E1, E2.
  assert (Hst : runs (ByteReader.newStart i1 (Some l)) h1 (λ r h', evolves i h r h' ∧ bytes r h' = bs)).
  { eapply runs_mono; [apply (newStart_run i1 h1 l a (proj1 Hev) Hno Hl Hw)|]. intros r h' [Hev' Hb']. split; [by apply (evolves_trans _ i1 _ _ h1)|].
    by rewrite Hb', Hd, Hr, take_drop. }
  destruct ((hd 0 bs =? 0xFE) && (hd 0 (tl bs) =? 0xFF)); [|destruct ((hd 0 bs =? 0xFF) && (hd 0 (tl bs) =? 0xFE))].
  - apply (runs_bind _ _ _ (λ i' h', evolves i h (Utf16Input.reader i') h' ∧ Utf16Input.byteSwap i' = false ∧ bytes (Utf16Input.reader i') h' = bs)).
    + eapply runs_bind; [exact Hst|]. intros r h' [? ?]. by apply runs_ret.
    + intros i' h' (Hev' & Hsw & Hb'). apply runs_ret. split_and!; [done| |done].
      change (chars16 (Utf16Input.byteSwap i') (bytes (Utf16Input.reader i') h') = chars16 false bs). by rewrite Hsw, Hb'.
  - apply (runs_bind _ _ _ (λ i' h', evolves i h (Utf16Input.reader i') h' ∧ Utf16Input.byteSwap i' = true ∧ bytes (Utf16Input.reader i') h' = bs)).
    + eapply runs_bind; [exact Hst|]. intros r h' [? ?]. by apply runs_ret.
    + intros i' h' (Hev' & Hsw & Hb'). apply runs_ret. split_and!; [done| |done].
      change (chars16 (Utf16Input.byteSwap i') (bytes (Utf16Input.reader i') h') = chars16 true bs). by rewrite Hsw, Hb'.
  - apply (runs_bind _ _ _ (λ i' h', evolves i h (Utf8Input.reader i') h' ∧ bytes (Utf8Input.reader i') h' = bs)).
    + eapply runs_bind; [exact Hst|]. intros r h' [? ?]. by apply runs_ret.
    + intros i' h' (Hev' & Hb'). apply runs_ret. split_and!; [done| |done].
      change (chars8 (bytes (Utf8Input.reader i') h') = chars8 bs). by rewrite Hb'.
Qed.
End laws.
End AnyLaws.
