(* ===== verification/TextOutputCorrect.v ===== *)
(** * Text output: correctness, and round trips through text streams

    What is written to a text stream reaches the stream under it when it is flushed, in the
    encoding of the stream and with the line ends that were asked for; reading it gives the
    text again. *)

From stdpp Require Import base list numbers decidable option strings.
From Stdlib Require Import ZArith Lia.
From S2P Require Import Prelude Utf UtfCorrect ConvertCorrect Buffer BufferCorrect Stream StreamCorrect MemStream MemStreamCorrect BufferedStream BufferedStreamCorrect Str StrIter StrCorrect StrIterCorrect StrFindCorrect StrBuf StrBufCorrect StrStream Text TextReadCorrect TextInputCorrect.

(** ** Bytes through a buffer *)

Module WriterLaws.
Import ByteWriter.
Section laws.
Context {O : Type} `{OStreamLaws O}.
Implicit Types (o : ByteWriter O) (h : heap).

Definition held o h : list Z := match view h (buf o) with Some a => data a | None => [] end.

Definition wwf o h : Prop :=
  ∃ l a, buf o = Some l ∧ h !! l = Some a ∧ awf a ∧ gcount a = bufSize ∧ owf (dest o) h ∧ ¬ owns (dest o) l.

#[global] Instance heapObject : HeapObject (ByteWriter O).
Proof.
  refine {| owf := wwf; owns o l := buf o = Some l ∨ owns (dest o) l; bytes o h := bytes (dest o) h ++ held o h |}.
  - intros o h l (k & a & El & Ha & _ & _ & Ho & _) [E|E]; [|by apply (owns_lt (dest o) h)].
    rewrite El in E. injection E as <-. by apply lookup_lt_Some in Ha.
  - intros o h h' (k & a & El & Ha & Hw & Hc & Ho & Hno) Hst.
    destruct (owns_stable (dest o) h h' Ho) as [Ho' Hb']; [by auto|].
    assert (Ha' : h' !! k = Some a) by (by rewrite Hst; [|left]).
    split; [by exists k, a|]. unfold held. rewrite El. cbn [view]. by rewrite Hb', Ha, Ha'.
Defined.

(** A change of the array of the buffer. *)
Lemma buffer_step o h d l a a' : owf d h → ¬ owns d l → buf o = Some l → h !! l = Some a → awf a' → gcount a' = bufSize →
  owf (mkByteWriter d (Some l)) (<[l := a']> h) ∧ bytes (mkByteWriter d (Some l)) (<[l := a']> h) = bytes d h ++ data a' ∧
  frame (owns o) h (<[l := a']> h).
Proof.
  intros Hd Hno Hb Hl Hw Hc. assert (Hl' : <[l := a']> h !! l = Some a') by (by apply (view_insert_eq h l a)).
  destruct (owns_frame d h (<[l := a']> h) (λ j, j = l)) as [Hd' Hb']; [done|by apply frame_insert|by intros ? ->|].
  split_and!; [by exists l, a'| |apply frame_insert; by left].
  trans (bytes d (<[l := a']> h) ++ held (mkByteWriter d (Some l)) (<[l := a']> h)); [done|].
  unfold held. cbn [buf view]. by rewrite Hl', Hb'.
Qed.

Lemma init_run (d : O) h : owf d h → runs (init d) h (λ o h', bytes o h' = bytes d h ∧ evolves d h o h').
Proof.
  intros Hd. unfold init. eapply runs_step; [apply buffer_eq|]. set (z := mkGcBytes 0 _).
  assert (Hz : awf z) by (apply awf_fresh; unfold bufSize; lia).
  eapply runs_step; [apply (setFilled_eq _ (length h) z); [apply view_fresh|done]|]. rewrite insert_app_r_alt, Nat.sub_diag by done.
  change (Z.min 0 (gcount z)) with 0. cbn [insert list_insert]. change (mkGcBytes 0 (v z)) with z. apply runs_ret.
  destruct (owns_frame d h (h ++ [z]) (λ _, False)) as [Hd0 Hb0]; [done|apply frame_alloc|by intros ? ?|]. split; [|split_and!].
  - trans (bytes d (h ++ [z]) ++ held (mkByteWriter d (Some (length h))) (h ++ [z])); [done|].
    unfold held. cbn [buf]. rewrite (view_fresh h z), Hb0. by rewrite app_nil_r.
  - exists (length h), z. split_and!; [done|apply view_fresh|done|done|done|]. intros Hk. apply (owns_lt d h) in Hk; [|done]. cbn in Hk. lia.
  - intros j [[= <-]|Hj]; [by right|by left].
  - apply frame_alloc.
Qed.

(** After [flush] the stream has everything. *)
Lemma flushBytes_run o h : owf o h →
  runs (flush o) h (λ o' h', bytes (dest o') h' = bytes o h ∧ bytes o' h' = bytes o h ∧ held o' h' = [] ∧ evolves o h o' h').
Proof.
  destruct o as [d bb]. intros (l & a & El & Hl & Hw & Hc & Ho & Hno). cbn [buf dest] in El, Ho, Hno. subst bb. destruct (Hw) as [Hf Hcc].
  set (o := mkByteWriter d (Some l)). assert (Eb : bytes o h = bytes d h ++ data a).
  { trans (bytes d h ++ held o h); [done|]. unfold held. cbn [buf view o]. by rewrite Hl. }
  unfold flush. cbn [buf dest]. eapply runs_step; [by apply (filled_eq h (Some l) a)|].
  apply (runs_bind _ _ _ (λ d' h1, bytes d' h1 = bytes o h ∧ owf d' h1 ∧ ¬ owns d' l ∧ h1 !! l = Some a ∧
    (∀ j, owns d' j → owns d j ∨ (length h ≤ j)%nat) ∧ frame (owns d) h h1)).
  { destruct (Z.ltb_spec 0 (gfilled a)) as [Hpos|Hz].
    - destruct (BufferedLaws.output_write d h (Some l) a 0 l a) as (d2 & h2 & E2 & Hb2 & Ho2 & Hno2 & Hl2 & Hown & HF2); try done; [by intros ? [= <-]|].
      eapply runs_step; [exact E2|]. apply runs_ret. change (Z.to_nat 0) with 0%nat in Hb2. rewrite drop_0, <- Eb in Hb2. by split_and!.
    - apply runs_ret. split_and!; [|done|done|done|by auto|apply frame_refl]. rewrite Eb. unfold data.
      replace (Z.to_nat (gfilled a)) with 0%nat by lia. by rewrite app_nil_r. }
  intros d2 h2 (Hb2 & Ho2 & Hno2 & Hl2 & Hown & HF2). eapply runs_step; [by apply (setFilled_eq h2 l a)|]. apply runs_ret.
  rewrite Z.min_l by lia. set (z := mkGcBytes 0 (v a)). assert (Hz : awf z) by (split; unfold z, gcount in *; cbn [gfilled v]; lia).
  destruct (buffer_step o h2 d2 l a z Ho2 Hno2 eq_refl Hl2 Hz Hc) as (H1' & H2' & H3').
  change (data z) with (@nil Z) in H2'. rewrite app_nil_r in H2'. split_and!.
  - cbn [dest]. destruct (owns_frame d2 h2 (<[l := z]> h2) (λ j, j = l)) as [_ ->]; [done|by apply frame_insert|by intros ? ->|done].
  - etrans; [exact H2'|done].
  - change (match view (<[l := z]> h2) (Some l) with Some a => data a | None => [] end = []). by rewrite (view_insert_eq h2 l a z Hl2).
  - split_and!; [done| |].
    + intros j [[= <-]|Hj]; [left; by left|]. destruct (Hown j Hj); [left; by right|by right].
    + apply (frame_trans _ (owns o) _ h2); [|done|by auto]. destruct HF2 as [L F]. split; [done|]. intros j Hj Hn. apply F; [done|].
      intros Hj'. apply Hn. by right.
Qed.

(** Bytes that fit behind those in the buffer. *)
Lemma copyIn_run o h x : owf o h → zlen (held o h) + zlen x ≤ bufSize →
  runs (f ← Buffer.filled (buf o); _ ← copyIn (buf o) f x; _ ← Buffer.setFilled (buf o) (u32 (f + zlen x)); mret o) h
    (λ o' h', o' = o ∧ bytes o' h' = bytes o h ++ x ∧ evolves o h o' h').
Proof.
  destruct o as [d bb]. intros (l & a & El & Hl & Hw & Hc & Ho & Hno) Hx. cbn [buf dest] in *. subst bb. destruct (Hw) as [Hf Hcc].
  pose proof (zlen_nonneg x). set (o := mkByteWriter d (Some l)). assert (Eh : held o h = data a) by (unfold held; cbn [buf view o]; by rewrite Hl).
  fold o in Hx. rewrite Eh, (zlen_data a Hw) in Hx. unfold bufSize in Hx, Hc. assert (Hfit : gfilled a + zlen x ≤ gcount a) by lia.
  eapply runs_step; [by apply (filled_eq h (Some l) a)|].
  set (a1 := mkGcBytes (gfilled a) (splice (v a) (gfilled a) x)).
  assert (E : copyIn (Some l) (gfilled a) x h = Ret (tt, <[l := a1]> h)).
  { unfold copyIn. rewrite (bind_eq _ _ _ _ _ (load_eq h l a Hl)). by rewrite !(proj2 (Z.leb_le _ _)) by lia. }
  eapply runs_step; [exact E|]. rewrite u32_small by (unfold is_u32; lia).
  assert (Hc1 : gcount a1 = gcount a) by (unfold a1, gcount in *; cbn [v]; apply zlen_splice; lia).
  assert (Hw1 : awf a1) by (split; rewrite ?Hc1; done).
  eapply runs_step; [apply (setFilled_eq _ l a1); [by apply (view_insert_eq h l a)|done]|]. rewrite list_insert_insert_eq, Hc1, Z.min_l by lia.
  apply runs_ret. change (mkGcBytes (gfilled a + zlen x) (v a1)) with (appended a x).
  destruct (buffer_step o h d l a (appended a x) Ho Hno eq_refl Hl) as (H1' & H2' & H3').
  { by apply appended_awf. } { by rewrite appended_count. }
  split_and!; [done| |split_and!; [done|by auto|done]].
  etrans; [exact H2'|]. rewrite appended_data by done. trans ((bytes d h ++ held o h) ++ x); [by rewrite Eh, app_assoc|done].
Qed.

Lemma writeBytes_run o h x : owf o h → zlen x < bufSize →
  runs (writeBytes o x) h (λ o' h', bytes o' h' = bytes o h ++ x ∧ evolves o h o' h').
Proof.
  intros Ho Hx. pose proof Ho as (l & a & El & Hl & Hw & Hc & _). destruct (Hw) as [Hf Hcc]. pose proof (zlen_nonneg x). unfold bufSize in Hx.
  unfold writeBytes. assert (Hv : view h (buf o) = Some a) by (by rewrite El).
  eapply runs_step; [by apply (filled_eq h (buf o) a)|]. eapply runs_step; [by apply (count_eq h (buf o) a)|]. rewrite Hc.
  unfold bufSize in Hc |- *. rewrite u32_small by (unfold is_u32; lia).
  assert (Hcont : ∀ o1 h1, bytes o1 h1 = bytes o h → evolves o h o1 h1 → zlen (held o1 h1) + zlen x ≤ 1024 →
    runs (f ← Buffer.filled (buf o1); _ ← copyIn (buf o1) f x; _ ← Buffer.setFilled (buf o1) (u32 (f + zlen x)); mret o1) h1
      (λ o' h', bytes o' h' = bytes o h ++ x ∧ evolves o h o' h')).
  { intros o1 h1 Hb1 Hev Hfit. eapply runs_mono; [apply (copyIn_run o1 h1 x (proj1 Hev)); done|]. intros o2 h2 (_ & Hb2 & Hev2).
    rewrite Hb2, Hb1. split; [done|]. by apply (evolves_trans _ o1 _ _ h1). }
  destruct (Z.leb_spec 1024 (gfilled a + zlen x)) as [Hge|Hlt].
  - pose proof (flushBytes_run o h Ho) as Hfl. apply runs_exists in Hfl as (o1 & h1 & E1 & _ & Hb1 & Hh1 & Hev1).
    pose proof (Hcont o1 h1 Hb1 Hev1) as Hk. rewrite Hh1 in Hk. specialize (Hk ltac:(change (zlen []) with 0; lia)).
    pose proof (proj1 Hev1) as (l1 & a1 & El1 & Hl1 & Hw1 & _). rewrite El1 in *.
    assert (E2 : (o ← flush o; f ← Buffer.filled (buf o); mret (o, f)) h = Ret (o1, gfilled a1, h1)).
    { rewrite (bind_eq _ _ _ _ _ E1), El1. by rewrite (bind_eq _ _ _ _ _ (filled_eq h1 (Some l1) a1 Hl1 Hw1)). }
    eapply runs_step; [exact E2|]. cbv beta iota. rewrite El1. revert Hk. unfold runs. by rewrite (bind_eq _ _ _ _ _ (filled_eq h1 (Some l1) a1 Hl1 Hw1)).
  - eapply runs_step; [done|]. cbv beta iota. assert (Eh : held o h = data a) by (unfold held; by rewrite Hv).
    pose proof (Hcont o h eq_refl (evolves_refl o h Ho)) as Hk. rewrite Eh, (zlen_data a Hw) in Hk. specialize (Hk ltac:(lia)).
    revert Hk. unfold runs. by rewrite (bind_eq _ _ _ _ _ (filled_eq h (buf o) a Hv Hw)).
Qed.
End laws.
End WriterLaws.

(** ** What a sink of characters promises *)

(** The list of a sink is what was written to it, as bytes; [reached] is what the stream
    under it has got. *)
Class TextSinkLaws (S : Type) `{TextSink S} `{HeapObject S} := {
  encoding : S → Z → list Z;
  reached : S → heap → list Z;
  writeChar_law s h c : owf s h → char c →
    runs (writeChar s c) h (λ s' h', bytes s' h' = bytes s h ++ encoding s c ∧ encoding s' = encoding s ∧ evolves s h s' h');
  flush_law s h : owf s h →
    runs (flushText s) h (λ s' h', bytes s' h' = bytes s h ∧ reached s' h' = bytes s h ∧ encoding s' = encoding s ∧ evolves s h s' h');
}.

Module Sink8Laws.
Import Utf8Output.
Section laws.
Context {O : Type} `{OStreamLaws O}.

#[global] Instance heapObject : HeapObject (Utf8Output O).
Proof.
  refine {| owf o h := owf (writer o) h; owns o l := owns (writer o) l; bytes o h := bytes (writer o) h |}.
  - intros o h l. apply owns_lt.
  - intros o h h'. apply owns_stable.
Defined.

Lemma encode_data c : char c → ∃ out at_, utf8.encode c (replicate (Z.to_nat utf8.maxBytes) 0) = Ret (out, at_, zlen (enc8 c)) ∧
  unitsAt out at_ (zlen (enc8 c)) = Ret (enc8 c).
Proof.
  intros [[Hc _] _]. destruct (encode_spec c (replicate (Z.to_nat utf8.maxBytes) 0)) as (out & at_ & E & Hz & Hat); [lia|done|].
  exists out, at_. split; [done|]. pose proof (zlen_nonneg (enc8 c)). destruct (enc8_cons c) as (b & l & Eb).
  assert (Hin : 0 ≤ at_ ∧ at_ + zlen (enc8 c) ≤ zlen out).
  { destruct (lookupZ_lt_Some (enc8 c) 0) as [x0 Hx0]; [rewrite Eb, zlen_cons; pose proof (zlen_nonneg l); lia|].
    destruct (lookupZ_lt_Some (enc8 c) (zlen (enc8 c) - 1)) as [x1 Hx1]; [rewrite Eb, zlen_cons; pose proof (zlen_nonneg l); lia|].
    apply Hat, lookupZ_Some_lt in Hx0. apply Hat, lookupZ_Some_lt in Hx1. lia. }
  rewrite unitsAt_eq by lia. f_equal. unfold slice. apply list_eq. intros k. unfold zlen. rewrite Nat2Z.id.
  destruct (decide (k < length (enc8 c))%nat) as [Hk|Hk].
  - rewrite lookup_take_lt, lookup_drop by done. destruct (lookup_lt_is_Some_2 (enc8 c) k Hk) as [x Hx]. rewrite Hx.
    specialize (Hat (Z.of_nat k) x). rewrite lookupZ_nat in Hat. specialize (Hat Hx). rewrite lookupZ_to_nat in Hat by lia.
    rewrite <- Hat. f_equal. lia.
  - rewrite lookup_take_ge by lia. symmetry. apply lookup_ge_None_2. lia.
Qed.

Lemma enc8_short c : char c → zlen (enc8 c) < bufSize.
Proof.
  intros [[Hc _] _]. unfold enc8, bufSize. destruct (conts c) as [|n] eqn:En; [done|]. rewrite zlen_cons, zlen_tail.
  destruct (conts_range c n En ltac:(lia)). lia.
Qed.

#[global] Instance textSinkLaws : TextSinkLaws (Utf8Output O).
Proof.
  refine {| encoding _ := enc8; reached o h := bytes (ByteWriter.dest (writer o)) h |}.
  - intros [w] h c Hw Hc. cbn [writeChar textSink]. unfold writeChar8. destruct (encode_data c Hc) as (out & at_ & E1 & E2).
    eapply runs_step; [apply lift_eq, E1|]. cbv beta iota. eapply runs_step; [apply lift_eq, E2|].
    eapply runs_bind; [apply (WriterLaws.writeBytes_run w h (enc8 c) Hw)|].
    + apply enc8_short, Hc.
    + intros w1 h1 [Hb1 Hev1]. by apply runs_ret.
  - intros [w] h Hw. cbn [flushText textSink]. unfold flush8. eapply runs_bind; [by apply WriterLaws.flushBytes_run|].
    intros w1 h1 (Hd1 & Hb1 & _ & Hev1). by apply runs_ret.
Defined.
End laws.
End Sink8Laws.

Module Sink16Laws.
Import Utf16Output.
Section laws.
Context {O : Type} `{OStreamLaws O}.

#[global] Instance heapObject : HeapObject (Utf16Output O).
Proof.
  refine {| owf o h := owf (writer o) h; owns o l := owns (writer o) l; bytes o h := bytes (writer o) h |}.
  - intros o h l. apply owns_lt.
  - intros o h h'. apply owns_stable.
Defined.

Lemma char_bytes swap c : char c →
  (if negb (Char.leading c =? 0) then writeUnit swap (Char.leading c) ++ writeUnit swap (Char.trailing c)
   else writeUnit swap (Char.trailing c)) = bytes16 swap c.
Proof.
  intros Hc. unfold bytes16. destruct (enc16_char c Hc) as [l t _ _ _ Hl _ _ El Et _|_ _ _ El Et]; rewrite El, Et; cbn [fmap list_fmap concat].
  - rewrite (proj2 (Z.eqb_neq l 0)) by lia. cbn [negb]. by rewrite app_nil_r.
  - by rewrite app_nil_r.
Qed.

Lemma bytes16_length swap c : zlen (bytes16 swap c) < bufSize.
Proof. unfold bytes16, enc16. by destruct (utf16.split c), swap. Qed.

#[global] Instance textSinkLaws : TextSinkLaws (Utf16Output O).
Proof.
  refine {| encoding o := bytes16 (byteSwap o); reached o h := bytes (ByteWriter.dest (writer o)) h |}.
  - intros [w sw] h c Hw Hc. cbn [writeChar textSink]. unfold writeChar16. cbn [writer byteSwap]. rewrite char_bytes by done.
    eapply runs_bind; [apply (WriterLaws.writeBytes_run w h _ Hw), bytes16_length|]. intros w1 h1 [Hb1 Hev1]. by apply runs_ret.
  - intros [w sw] h Hw. cbn [flushText textSink]. unfold flush16. eapply runs_bind; [by apply WriterLaws.flushBytes_run|].
    intros w1 h1 (Hd1 & Hb1 & _ & Hev1). by apply runs_ret.
Defined.
End laws.
End Sink16Laws.

(** ** Texts *)

(** The characters that are written for a text. *)
Definition outText (crlf : bool) (cs : list Z) : list Z :=
  concat ((λ c, if c =? Ch.nl then if crlf then [Ch.cr; Ch.nl] else [Ch.nl] else [c]) <$> cs).
Definition bomText (info : TextInfo) : list Z := if useBom info then [bom] else [].

Lemma char_small c : 0 < c < 0xD800 → char c.
Proof. intros Hc. split; [split; lia|lia]. Qed.

Lemma char_bom : char bom.
Proof. unfold bom. split; [split; lia|lia]. Qed.

Lemma outText_cons crlf c cs : outText crlf (c :: cs) = (if c =? Ch.nl then if crlf then [Ch.cr; Ch.nl] else [Ch.nl] else [c]) ++ outText crlf cs.
Proof. done. Qed.

Lemma outText_app crlf cs ds : outText crlf (cs ++ ds) = outText crlf cs ++ outText crlf ds.
Proof. unfold outText. by rewrite fmap_app, concat_app. Qed.

Lemma outText_elem crlf cs x : x ∈ outText crlf cs → x ∈ cs ∨ x = Ch.cr.
Proof.
  induction cs as [|c cs IH]; [by intros ?%not_elem_of_nil|]. rewrite outText_cons, elem_of_app, elem_of_cons. intros [E|E]; [|apply IH in E; tauto].
  destruct (Z.eqb_spec c Ch.nl) as [->|_]; [destruct crlf|]; rewrite ?elem_of_cons, ?elem_of_nil in E; tauto.
Qed.

Lemma outText_chars crlf cs : chars cs → chars (outText crlf cs).
Proof.
  intros Hcs. rewrite Forall_forall in *. intros x [Hx| ->]%outText_elem; [by apply Hcs|]. apply char_small. unfold Ch.cr. lia.
Qed.

Lemma outText_length crlf cs : zlen (outText crlf cs) ≤ 2 * zlen cs.
Proof.
  induction cs as [|c cs IH]; [done|]. rewrite outText_cons, zlen_app, zlen_cons. unfold zlen in *.
  destruct (c =? Ch.nl), crlf; cbn [length]; lia.
Qed.

(** Without carriage returns of its own a text has its line ends converted back. *)
Lemma normalize_outText crlf cs : Ch.cr ∉ cs → normalize (outText crlf cs) = cs.
Proof.
  induction cs as [|c cs IH]; intros Hc; [done|]. apply not_elem_of_cons in Hc as [Hc Hcs]. rewrite outText_cons.
  assert (Hne : (c =? Ch.cr) = false) by (apply Z.eqb_neq; congruence).
  destruct (Z.eqb_spec c Ch.nl) as [->|_]; [destruct crlf|]; cbn [app normalize]; rewrite ?Hne, ?Z.eqb_refl, IH by done; done.
Qed.

Lemma noCrCr_outText crlf cs : Ch.cr ∉ cs → noCrCr (outText crlf cs) = true.
Proof.
  induction cs as [|c cs IH]; intros Hc; [done|]. apply not_elem_of_cons in Hc as [Hc Hcs]. rewrite outText_cons.
  assert (Hne : (c =? Ch.cr) = false) by (apply Z.eqb_neq; congruence).
  destruct (Z.eqb_spec c Ch.nl) as [->|_]; [destruct crlf|]; cbn [app noCrCr]; rewrite ?Hne, IH by done; done.
Qed.

(** ** Output *)

Module OutputLaws.
Import TextOutput.
Section laws.
Context {S : Type} `{TextSinkLaws S}.
Implicit Types (t : TextOutput S) (h : heap) (x : list Z).

(** The characters [x] have been written. *)
Definition emitted t h x t' h' : Prop :=
  bytes (sink t') h' = bytes (sink t) h ++ concat (encoding (sink t) <$> x) ∧ encoding (sink t') = encoding (sink t) ∧
  useCrLf (config t') = useCrLf (config t) ∧ autoFlush t' = autoFlush t ∧ evolves (sink t) h (sink t') h'.

Lemma emitted_refl t h : owf (sink t) h → emitted t h [] t h.
Proof. intros Ht. split_and!; [by rewrite app_nil_r|done|done|done|by apply evolves_refl]. Qed.

Lemma emitted_trans t h x t1 h1 y t2 h2 : emitted t h x t1 h1 → emitted t1 h1 y t2 h2 → emitted t h (x ++ y) t2 h2.
Proof.
  intros (Hb1 & He1 & Hc1 & Ha1 & Hev1) (Hb2 & He2 & Hc2 & Ha2 & Hev2). split_and!; [|congruence|congruence|congruence|].
  - by rewrite Hb2, Hb1, He1, fmap_app, concat_app, app_assoc.
  - by apply (evolves_trans _ (sink t1) _ _ h1).
Qed.

Lemma put_run t h c : owf (sink t) h → char c → runs (put t c) h (λ t' h', emitted t h [c] t' h' ∧ config t' = config t).
Proof.
  intros Ht Hc. unfold put. eapply runs_bind; [by apply writeChar_law|]. intros s1 h1 (Hb & He & Hev). apply runs_ret. split; [|done].
  split_and!; [|done|done|done|done]. cbn [sink fmap list_fmap concat]. by rewrite app_nil_r.
Qed.

Lemma writeBom_run t h : owf (sink t) h →
  runs (writeBom t) h (λ t' h', emitted t h (bomText (config t)) t' h' ∧ useBom (config t') = false).
Proof.
  intros Ht. unfold writeBom, bomText. destruct (useBom (config t)) eqn:Eb; [|apply runs_ret; split; [by apply emitted_refl|done]].
  eapply runs_bind; [by apply put_run, char_bom|]. intros t1 h1 [Hem Hc]. apply runs_ret. split; [|done].
  destruct Hem as (? & ? & ? & ? & ?). split_and!; done.
Qed.

Lemma flushText_run t h : owf (sink t) h →
  runs (flush t) h (λ t' h', emitted t h [] t' h' ∧ config t' = config t ∧ reached (sink t') h' = bytes (sink t) h).
Proof.
  intros Ht. unfold flush. eapply runs_bind; [by apply flush_law|]. intros s1 h1 (Hb & Hr & He & Hev). apply runs_ret.
  split_and!; [|done|done]. split_and!; [by rewrite app_nil_r|done|done|done|done].
Qed.

Lemma writeLine_run t h : owf (sink t) h → useBom (config t) = false →
  runs (writeLine t) h (λ t' h', emitted t h (outText (useCrLf (config t)) [Ch.nl]) t' h' ∧ useBom (config t') = false).
Proof.
  intros Ht Hb. unfold writeLine, outText. cbn [fmap list_fmap concat]. rewrite Z.eqb_refl, app_nil_r.
  eapply runs_bind; [by apply writeBom_run|]. intros t1 h1 [Hem1 Hb1]. unfold bomText in Hem1. rewrite Hb in Hem1.
  pose proof Hem1 as (_ & _ & Hc1 & _ & Hev1).
  apply (runs_bind _ _ _ (λ t2 h2, emitted t h (if useCrLf (config t) then [Ch.cr] else []) t2 h2 ∧ useBom (config t2) = false)).
  { rewrite Hc1. destruct (useCrLf (config t)); [|by apply runs_ret]. eapply runs_mono; [apply put_run; [apply Hev1|apply char_small; unfold Ch.cr; lia]|].
    intros t2 h2 [Hem2 ->]. split; [|done]. by apply (emitted_trans _ _ [] _ _ [Ch.cr] _ _ Hem1). }
  intros t2 h2 [Hem2 Hb2]. pose proof Hem2 as (_ & _ & _ & _ & Hev2).
  eapply runs_bind; [apply put_run; [apply Hev2|apply char_small; unfold Ch.nl; lia]|]. intros t3 h3 [Hem3 Hc3].
  pose proof (emitted_trans _ _ _ _ _ _ _ _ Hem2 Hem3) as Hem. assert (Hb3 : useBom (config t3) = false) by (by rewrite Hc3).
  replace (if useCrLf (config t) then [Ch.cr; Ch.nl] else [Ch.nl]) with ((if useCrLf (config t) then [Ch.cr] else []) ++ [Ch.nl])
    by (by destruct (useCrLf (config t))).
  destruct (autoFlush t3); [|by apply runs_ret]. eapply runs_mono; [apply flushText_run, Hem|]. intros t4 h4 (Hem4 & Hc4 & _).
  split; [|by rewrite Hc4]. rewrite <- (app_nil_r (_ ++ [Ch.nl])). by apply (emitted_trans _ _ _ _ _ _ _ _ Hem).
Qed.

Lemma writeLoop_run s cs fuel k t h : isStr (sdata s) cs → (k ≤ length cs)%nat → (length cs - k < fuel)%nat → owf (sink t) h →
  useBom (config t) = false →
  runs (writeLoop fuel (it s cs k) Iter.end_ t) h (λ t' h', emitted t h (outText (useCrLf (config t)) (drop k cs)) t' h' ∧ useBom (config t') = false).
Proof.
  intros Hs. revert k t h. induction fuel as [|fuel IH]; intros k t h Hk Hf Ht Hb; [lia|]. cbn [writeLoop].
  rewrite (eq_end s cs Hs k Hk). case_bool_decide as E.
  { apply runs_ret. rewrite drop_ge by lia. split; [by apply emitted_refl|done]. }
  destruct (lookup_lt_is_Some_2 cs k ltac:(lia)) as [c Hc]. eapply runs_step; [apply lift_eq, (v_it s cs Hs k c Hc)|].
  rewrite (drop_S cs c k Hc), <- (app_nil_l (drop _ _)), app_comm_cons.
  apply (runs_bind _ _ _ (λ t1 h1, emitted t h (outText (useCrLf (config t)) [c]) t1 h1 ∧ useBom (config t1) = false)).
  { destruct (Z.eqb_spec c Ch.nl) as [->|Hn]; [by apply writeLine_run|]. unfold outText. cbn [fmap list_fmap concat].
    rewrite (proj2 (Z.eqb_neq c Ch.nl)) by done. eapply runs_mono; [apply put_run; [done|by apply (lookup_char s cs Hs k c Hc)]|].
    intros t1 h1 [Hem ->]. done. }
  intros t1 h1 [Hem1 Hb1]. pose proof Hem1 as (_ & _ & Hc1 & _ & Hev1). eapply runs_step; [apply lift_eq, (next_it s cs Hs k c Hc)|].
  eapply runs_mono; [apply (IH (Datatypes.S k) t1 h1); [lia|lia|apply Hev1|done]|]. intros t2 h2 [Hem2 Hb2]. split; [|done].
  rewrite Hc1 in Hem2. rewrite outText_app. by apply (emitted_trans _ _ _ _ _ _ _ _ Hem1).
Qed.

Lemma writeStr_run s cs t h : isStr (sdata s) cs → owf (sink t) h →
  runs (writeStr t s) h (λ t' h', emitted t h (bomText (config t) ++ outText (useCrLf (config t)) cs) t' h' ∧ useBom (config t') = false).
Proof.
  intros Hs Ht. unfold writeStr. eapply runs_bind; [by apply writeBom_run|]. intros t1 h1 [Hem1 Hb1]. pose proof Hem1 as (_ & _ & Hc1 & _ & Hev1).
  rewrite (begin_it s cs). eapply runs_mono; [apply (writeLoop_run s cs _ 0 t1 h1 Hs ltac:(lia)); [|apply Hev1|done]|].
  - rewrite (isStr_units _ _ Hs), length_app. pose proof (units16_leadings cs (isStr_chars _ _ Hs)).
    pose proof (leadings_nonneg (units16 cs)). unfold zlen in *. cbn [length]. lia.
  - intros t2 h2 [Hem2 Hb2]. rewrite Hc1, drop_0 in Hem2. split; [|done]. by apply (emitted_trans _ _ _ _ _ _ _ _ Hem1).
Qed.

(** Writing a string and flushing: everything is in the stream. *)
Lemma writeFlush_run s cs t h : isStr (sdata s) cs → owf (sink t) h →
  runs (t ← writeStr t s; flush t) h (λ t' h',
    reached (sink t') h' = bytes (sink t) h ++ concat (encoding (sink t) <$> (bomText (config t) ++ outText (useCrLf (config t)) cs)) ∧
    evolves (sink t) h (sink t') h').
Proof.
  intros Hs Ht. eapply runs_bind; [by apply (writeStr_run s cs)|]. intros t1 h1 [Hem1 _]. pose proof Hem1 as (Hb1 & _ & _ & _ & Hev1).
  eapply runs_mono; [apply flushText_run, Hev1|]. intros t2 h2 ((_ & _ & _ & _ & Hev2) & _ & Hr). rewrite Hr, Hb1. split; [done|].
  by apply (evolves_trans _ (sink t1) _ _ h1).
Qed.
End laws.
End OutputLaws.

(** ** Round trips *)

Lemma enc8_first c : char c → hd 0 (enc8 c) < 0xFE.
Proof.
  intros [[Hr _] _]. unfold enc8. destruct (conts c) as [|n] eqn:En; cbn [hd].
  - unfold conts in En. destruct (Z.ltb_spec c 0x80); [lia|]. by repeat destruct (_ <? _).
  - destruct (conts_range c n En ltac:(lia)) as (Hn & _). pose proof (enc8_lead c n En ltac:(lia)) as Hl.
    replace (Z.of_nat (S n)) with (Z.of_nat n + 1) by lia.
    do 5 (destruct n as [|n]; [cbn in Hl |- *; lia|]). lia.
Qed.

(** No text in UTF-8 starts with the mark of UTF-16. *)
Lemma decodeText8 cs : chars cs → AnyLaws.decodeText (units8 cs) = cs.
Proof.
  intros Hcs. assert (hd 0 (units8 cs) < 0xFE).
  { destruct Hcs as [|c cs Hc Hcs]; [done|]. unfold units8. cbn [fmap list_fmap concat]. pose proof (enc8_first c Hc).
    destruct (enc8_cons c) as (b & l & E). by rewrite E in *. }
  unfold AnyLaws.decodeText. rewrite (proj2 (Z.eqb_neq (hd 0 (units8 cs)) 0xFE)), (proj2 (Z.eqb_neq (hd 0 (units8 cs)) 0xFF)) by lia.
  cbn [andb]. apply chars8_units.
  eapply Forall_impl; [exact Hcs|]. intros c [[? _] _]. cbn beta. lia.
Qed.

(** The mark of UTF-16 tells the order of the bytes. *)
Lemma decodeText16 swap cs : chars cs → AnyLaws.decodeText (concat (bytes16 swap <$> bom :: cs)) = bom :: cs.
Proof.
  intros Hcs. pose proof (chars16_units swap (bom :: cs) ltac:(constructor; [apply char_bom|done])) as E.
  unfold AnyLaws.decodeText. destruct swap; exact E.
Qed.

(** Reading all of a stream gives the text. *)
Definition readsAs {I} `{IStream I} `{HeapObject I} (y cs : list Z) : Prop :=
  ∀ (i : I) h fuel, owf i h → bytes i h = y → (2 * length cs < fuel)%nat →
    runs (t ← AnyInput.readText i; TextInput.readAll fuel t) h (λ '(_, d) _, d = strData (units16 cs)).

Section reads.
Context {I : Type} `{IStreamLaws I}.

Lemma reads_text y cs info crlf : chars cs → bom ∉ cs → Ch.cr ∉ cs → 4 * zlen cs ≤ 2 ^ 30 →
  AnyLaws.decodeText y = bomText info ++ outText crlf cs → readsAs (I := I) y cs.
Proof.
  intros Hcs Hb Hcr Hz Hy i h fuel Hi Hbs Hfuel. eapply runs_bind; [by apply AnyLaws.readText_run|].
  intros t h1 (Et & Hbt & Hev). rewrite Hbs, Hy in Hbt. pose proof (outText_chars crlf cs Hcs) as Ho. pose proof (outText_length crlf cs) as Hol.
  assert (Hob : bom ∉ outText crlf cs) by (intros [E|E]%outText_elem; [done|by vm_compute in E]).
  assert (Ht : InputLaws.textIs t h1 (outText crlf cs)).
  { rewrite Et. apply InputLaws.new_text; [apply Hev| | |done].
    - rewrite Hbt. unfold bomText. destruct (useBom info); auto.
    - rewrite Forall_forall in Ho. by intros [_ ?]%Ho. }
  unfold TextInput.readAll. eapply runs_bind; [apply (InputLaws.readAllLoop_run fuel t h1 _ StrBuf.new [] Ht Ho simple_new)|].
  - unfold zlen in *. lia.
  - change (zlen []) with 0. lia.
  - by apply noCrCr_outText.
  - intros [t2 to2] h2 [[Hr _ _ _] _]. eapply runs_step; [apply lift_eq, (toS_eq to2 _ Hr)|]. apply runs_ret.
    cbn [app]. by rewrite normalize_outText.
Qed.
End reads.

(** New outputs. *)
Section news.
Context {O : Type} `{OStreamLaws O}.

Lemma new8_run (o : O) h info : owf o h →
  runs (Utf8Output.new o info) h (λ t h1, TextOutput.config t = info ∧ bytes (TextOutput.sink t) h1 = bytes o h ∧ owf (TextOutput.sink t) h1).
Proof. intros Ho. eapply runs_bind; [by apply WriterLaws.init_run|]. intros w h1 [Hb Hev]. apply runs_ret. split_and!; [done|exact Hb|apply Hev]. Qed.

Lemma new16_run (o : O) h info swap : owf o h →
  runs (Utf16Output.new o info swap) h (λ t h1, TextOutput.config t = info ∧ bytes (TextOutput.sink t) h1 = bytes o h ∧ owf (TextOutput.sink t) h1 ∧
    encoding (TextOutput.sink t) = bytes16 swap).
Proof. intros Ho. eapply runs_bind; [by apply WriterLaws.init_run|]. intros w h1 [Hb Hev]. apply runs_ret. split_and!; [done|exact Hb|apply Hev|done]. Qed.
End news.

(** C23: A text of at most 2^28 characters, without carriage returns and byte order marks of its
    own, written to a text
    stream in UTF-8 with any choice of line ends and mark, or in UTF-16 with a mark in either
    order of bytes, and flushed, is in the stream under it; [readText] on any stream with
    these bytes finds the encoding, and [readAll] returns the text. *)
Theorem text_roundtrip {O I : Type} `{OStreamLaws O} `{IStreamLaws I} s cs info : isStr (sdata s) cs → bom ∉ cs → Ch.cr ∉ cs →
  4 * zlen cs ≤ 2 ^ 30 →
  (∃ y, readsAs (I := I) y cs ∧
    ∀ (o : O) h, owf o h → runs (t ← Utf8Output.new o info; t ← TextOutput.writeStr t s; TextOutput.flush t) h
      (λ t h', bytes (ByteWriter.dest (Utf8Output.writer (TextOutput.sink t))) h' = bytes o h ++ y)) ∧
  (useBom info = true → ∀ swap, ∃ y, readsAs (I := I) y cs ∧
    ∀ (o : O) h, owf o h → runs (t ← Utf16Output.new o info swap; t ← TextOutput.writeStr t s; TextOutput.flush t) h
      (λ t h', bytes (ByteWriter.dest (Utf16Output.writer (TextOutput.sink t))) h' = bytes o h ++ y)).
Proof.
  intros Hs Hb Hcr Hz. pose proof (isStr_chars _ _ Hs) as Hcs. pose proof (outText_chars (useCrLf info) cs Hcs) as Hoc.
  assert (Hbt : chars (bomText info)) by (unfold bomText; destruct (useBom info); repeat constructor; unfold bom; lia). split.
  - exists (units8 (bomText info ++ outText (useCrLf info) cs)). split.
    + apply (reads_text _ cs info (useCrLf info)); try done. apply decodeText8. by apply Forall_app.
    + intros o h Ho. eapply runs_bind; [by apply new8_run|]. intros t h1 (Ec & Hb1 & Ho1).
      eapply runs_mono; [by apply (OutputLaws.writeFlush_run s cs t h1 Hs)|]. intros t2 h2 [Hr _]. rewrite Ec, Hb1 in Hr. exact Hr.
  - intros Eb swap. exists (concat (bytes16 swap <$> (bomText info ++ outText (useCrLf info) cs))). split.
    + apply (reads_text _ cs info (useCrLf info)); try done. unfold bomText. rewrite Eb. by apply (decodeText16 swap).
    + intros o h Ho. eapply runs_bind; [by apply new16_run|]. intros t h1 (Ec & Hb1 & Ho1 & Ee).
      eapply runs_mono; [by apply (OutputLaws.writeFlush_run s cs t h1 Hs)|]. intros t2 h2 [Hr _]. rewrite Ec, Hb1, Ee in Hr. exact Hr.
Qed.

Lemma text_roundtrip_witness :
  let s := mkStrObj 7 (strData [97; Ch.nl; 0xD83D; 0xDE00]) in
  let info := windowsTextInfoBom true in
  (∃ y, readsAs (I := MemIStream.MemIStream) y [97; Ch.nl; 0x1F600] ∧
    ∀ (o : Sink.Sink) h, owf o h → runs (t ← Utf8Output.new o info; t ← TextOutput.writeStr t s; TextOutput.flush t) h
      (λ t h', bytes (ByteWriter.dest (Utf8Output.writer (TextOutput.sink t))) h' = bytes o h ++ y)) ∧
  (true = true → ∀ swap, ∃ y, readsAs (I := MemIStream.MemIStream) y [97; Ch.nl; 0x1F600] ∧
    ∀ (o : Sink.Sink) h, owf o h → runs (t ← Utf16Output.new o info swap; t ← TextOutput.writeStr t s; TextOutput.flush t) h
      (λ t h', bytes (ByteWriter.dest (Utf16Output.writer (TextOutput.sink t))) h' = bytes o h ++ y)).
Proof.
  assert (Hs : isStr (strData [97; Ch.nl; 0xD83D; 0xDE00]) [97; Ch.nl; 0x1F600]).
  { split; [reflexivity| |reflexivity]. repeat constructor; unfold Ch.nl; lia. }
  apply (text_roundtrip (O := Sink.Sink) (I := MemIStream.MemIStream) (mkStrObj 7 (strData [97; Ch.nl; 0xD83D; 0xDE00])) [97; Ch.nl; 0x1F600]
    (windowsTextInfoBom true)); [exact Hs| | |vm_compute; discriminate];
    rewrite !not_elem_of_cons; (split_and!; [vm_compute; discriminate..|apply not_elem_of_nil]).
Defined.

(** [close] of a UTF-16 output does not flush, and what is in its buffer is lost, while [close]
    of a UTF-8 output writes it. *)
Theorem utf16_close_loses :
  let s := mkStrObj 7 (strData [72; 105]) in
  match (t ← Utf16Output.new (Sink.mkSink []) plainTextInfo false; t ← TextOutput.writeStr t s; closeText (TextOutput.sink t)) [] with
  | Ret (o, _) => Sink.got (ByteWriter.dest (Utf16Output.writer o)) = []
  | _ => False
  end ∧
  match (t ← Utf8Output.new (Sink.mkSink []) plainTextInfo; t ← TextOutput.writeStr t s; closeText (TextOutput.sink t)) [] with
  | Ret (o, _) => Sink.got (ByteWriter.dest (Utf8Output.writer o)) = [72; 105]
  | _ => False
  end.
Proof. vm_compute. done. Qed.
