(* ===== verification/Regex.v ===== *)
(** * Regular expressions of the grammar

    [Compiler/Syntax/Regex.h] and [Compiler/Syntax/Regex.cpp]: parsing of patterns into a
    sequence of states, the three matchers, comparison, hashing and output.  A pattern or a
    string is the array [c_str()] returns, with its terminating zero. *)

From stdpp Require Import base list numbers decidable option strings.
From Stdlib Require Import ZArith Lia.
From S2P Require Import Prelude Utf Buffer Str StrIter StrBuf StrStream.

(** The characters with a meaning in patterns. *)
Module Rx.
Definition backslash : Z := 92.
Definition open : Z := 91.
Definition close : Z := 93.
Definition dot : Z := 46.
Definition dash : Z := 45.
Definition caret : Z := 94.
Definition star : Z := 42.
Definition question : Z := 63.
Definition plus : Z := 43.
Definition quote : Z := 34.
End Rx.

(** [new RegexError(str, msg)] *)
Definition throwRegex {A} (str : list Z) (msg : string) : outcome A :=
  s ← Str.fromCStr str; Throw (RegexError (Str.body s) msg).

(** ** Sets of characters: [Regex::Set] *)

Module RSet.

Definition EMPTY : Z := 0x7FFFFFFF.

(** [GcArray<wchar> *chars; Int first; Bool inverted;] *)
Record RSet := mkSet { chars : option (list Z); first : Z; inverted : bool }.

Definition empty : RSet := mkSet None EMPTY false.
Definition single (ch : Z) : RSet := mkSet None ch false.
Definition all : RSet := mkSet None EMPTY true.

(** [static void put(GcArray<wchar> *out, nat &pos, wchar ch)] *)
Definition put (out : option (list Z)) (pos ch : Z) : outcome (option (list Z) * Z) :=
  out ← match out with Some v => v ← aset v pos ch; Ret (Some v) | None => Ret None end;
  Ret (out, u32 (pos + 1)).

(** [for (wchar i = lastCh + 1; i <= str[pos]; i++) put(out, c, i);] *)
Fixpoint rangeLoop (fuel : nat) (i to : Z) (out : option (list Z)) (c : Z) : outcome (option (list Z) * Z) :=
  match fuel with
  | O => OutOfFuel
  | S fuel => if i <=? to then '(out, c) ← put out c i; rangeLoop fuel (u16 (i + 1)) to out c else Ret (out, c)
  end.

(** The range has at most 2^16 characters, or the loop never ends. *)
Definition rangeFuel : nat := Z.to_nat (2 ^ 16 + 1).

(** The loop of [parseGroup(Engine &, const wchar *, nat, nat &, GcArray<wchar> *out)]:
    the position, the array and the number of characters put. *)
Fixpoint groupLoop (fuel : nat) (str : list Z) (len pos : Z) (out : option (list Z)) (c lastCh : Z) (hasLast : bool) :
    outcome (Z * option (list Z) * Z) :=
  match fuel with
  | O => OutOfFuel
  | S fuel =>
      inside ← (if pos <? len then ch ← aget str pos; Ret (negb (ch =? Rx.close)) else Ret false);
      if inside : bool then
        ch ← aget str pos;
        if ch =? Rx.backslash then
          let pos := u32 (pos + 1) in
          if pos <? len then
            ch ← aget str pos;
            '(out, c) ← put out c ch;
            groupLoop fuel str len (u32 (pos + 1)) out c ch true
          else
            '(out, c) ← put out c Rx.backslash;
            groupLoop fuel str len pos out c Rx.backslash true
        else if ch =? Rx.dash then
          if negb hasLast then throwRegex str "A character must appear before a dash (-) in a group."
          else
            let pos := u32 (pos + 1) in
            to ← aget str pos;
            if (to =? 0) || (to =? Rx.close) then throwRegex str "A dash must not appear as the last character in a group."
            else
              '(out, c) ← rangeLoop rangeFuel (u16 (lastCh + 1)) to out c;
              groupLoop fuel str len (u32 (pos + 1)) out c 0 false
        else
          '(out, c) ← put out c ch;
          groupLoop fuel str len (u32 (pos + 1)) out c ch true
      else Ret (pos, out, c)
  end.

Definition parseGroupInto (str : list Z) (len pos : Z) (out : option (list Z)) : outcome (Z * option (list Z) * Z) :=
  '(pos, out, c) ← groupLoop (S (length str)) str len pos out 0 0 false;
  if len <=? pos then throwRegex str "Missing ] to end the capture group." else Ret (u32 (pos + 1), out, c).

(** [Set::parseGroup]: count the characters, then store them. *)
Definition parseGroup (str : list Z) (len pos : Z) : outcome (RSet * Z) :=
  ch ← aget str pos;
  let inv := ch =? Rx.caret in
  let pos := if inv then u32 (pos + 1) else pos in
  '(_, _, count) ← parseGroupInto str len pos None;
  '(pos, out, _) ← parseGroupInto str len pos (Some (replicate (Z.to_nat count) 0));
  if count =? 1 then
    f ← match out with Some v => aget v 0 | None => Fault end;
    Ret (mkSet None f inv, pos)
  else Ret (mkSet out EMPTY inv, pos).

Definition parse (str : list Z) (len pos : Z) : outcome (RSet * Z) :=
  ch ← aget str pos;
  if ch =? Rx.backslash then
    let pos := u32 (pos + 1) in
    if pos <? len then ch ← aget str pos; Ret (single ch, u32 (pos + 1))
    else throwRegex str "Missing character after escape character (\)"
  else if ch =? Rx.open then parseGroup str len (u32 (pos + 1))
  else if ch =? Rx.dot then Ret (all, u32 (pos + 1))
  else Ret (single ch, u32 (pos + 1)).

Definition count (s : RSet) : Z :=
  match chars s with
  | Some l => u32 (zlen l)
  | None => if negb (first s =? EMPTY) then 1 else 0
  end.

Definition contains (s : RSet) (ch : Z) : bool :=
  if ch =? first s then negb (inverted s)
  else match chars s with
       | Some l => if existsb (Z.eqb ch) l then negb (inverted s) else inverted s
       | None => inverted s
       end.

Definition escape (to : StrBuf.StrBuf) (ch : Z) : outcome StrBuf.StrBuf :=
  if ch =? Ch.nl then StrBuf.addCStr to [Rx.backslash; 110; 0]
  else if ch =? Ch.tab then StrBuf.addCStr to [Rx.backslash; 116; 0]
  else if ch =? Ch.cr then StrBuf.addCStr to [Rx.backslash; 114; 0]
  else if ch =? 0 then StrBuf.addCStr to [Rx.backslash; 48; 0]
  else
    to ← (if existsb (Z.eqb ch) [Rx.dot; Rx.open; Rx.close; Rx.star; Rx.question; Rx.plus; Rx.caret; Rx.quote; Rx.backslash]
          then StrBuf.addCStr to [Rx.backslash; 0] else Ret to);
    StrBuf.addRaw to ch.

(** The loop of [output], with whether it is in a range at its end, and the last character. *)
Fixpoint outputLoop (l : list Z) (to : StrBuf.StrBuf) (inRep : bool) (last : Z) : outcome (StrBuf.StrBuf * bool * Z) :=
  match l with
  | [] => Ret (to, inRep, last)
  | c :: l =>
      '(to, inRep) ← (if negb inRep then
                        if c =? last + 1 then to ← StrBuf.addCStr to [Rx.dash; 0]; Ret (to, true)
                        else to ← escape to c; Ret (to, inRep)
                      else if negb (c =? last + 1) then to ← escape to last; to ← escape to c; Ret (to, false)
                      else Ret (to, inRep));
      outputLoop l to inRep c
  end.

Definition output (s : RSet) (to : StrBuf.StrBuf) : outcome StrBuf.StrBuf :=
  if count s =? 0 then StrBuf.addCStr to (if inverted s then [Rx.dot; 0] else [Rx.open; Rx.caret; Rx.dot; Rx.close; 0])
  else match chars s with
       | None =>
           if inverted s then
             to ← StrBuf.addCStr to [Rx.open; Rx.caret; 0];
             to ← escape to (u16 (first s));
             StrBuf.addCStr to [Rx.close; 0]
           else escape to (u16 (first s))
       | Some l =>
           to ← StrBuf.addCStr to [Rx.open; 0];
           to ← (if inverted s then StrBuf.addCStr to [Rx.caret; 0] else Ret to);
           '(to, inRep, last) ← outputLoop l to false 0;
           to ← (if inRep : bool then escape to last else Ret to);
           StrBuf.addCStr to [Rx.close; 0]
       end.

(** [for (Nat i = 1; i < c; i++) if (chars->v[i-1] != o.chars->v[i-1]) return false;], for
    [n] rounds. *)
Fixpoint eqLoop (n : nat) (i : Z) (a b : option (list Z)) : outcome bool :=
  match n with
  | O => Ret true
  | S n =>
      match a, b with
      | Some l, Some m =>
          x ← aget l (i - 1); y ← aget m (i - 1);
          if negb (x =? y) then Ret false else eqLoop n (i + 1) a b
      | _, _ => Fault
      end
  end.

(** [operator ==] *)
Definition eq (s o : RSet) : outcome bool :=
  let c := count s in
  if negb (c =? count o) then Ret false
  else if negb (eqb (inverted s) (inverted o)) then Ret false
  else if negb (first s =? first o) then Ret false
  else eqLoop (Z.to_nat (c - 1)) 1 (chars s) (chars o).

(** [r = ((r << 5) + r) + x] *)
Definition mix (r x : Z) : Z := u32 (u32 (u32 (Z.shiftl r 5) + r) + x).

Definition hash (s : RSet) : Z :=
  let r := mix 5381 (first s) in
  match chars s with Some l => foldl mix r l | None => r end.
End RSet.

(** ** States: [Regex::State] *)

Module RState.

Record RState := mkState { match_ : RSet.RSet; skippable : bool; repeatable : bool }.

Definition parse (str : list Z) (len pos : Z) : outcome (RState * Z) :=
  '(s, pos) ← RSet.parse str len pos;
  if pos <? len then
    ch ← aget str pos;
    if ch =? Rx.star then Ret (mkState s true true, u32 (pos + 1))
    else if ch =? Rx.question then Ret (mkState s true false, u32 (pos + 1))
    else if ch =? Rx.plus then Ret (mkState s false true, u32 (pos + 1))
    else Ret (mkState s false false, pos)
  else Ret (mkState s false false, pos).

Definition output (s : RState) (to : StrBuf.StrBuf) : outcome StrBuf.StrBuf :=
  to ← RSet.output (match_ s) to;
  if skippable s && repeatable s then StrBuf.addCStr to [Rx.star; 0]
  else if skippable s then StrBuf.addCStr to [Rx.question; 0]
  else if repeatable s then StrBuf.addCStr to [Rx.plus; 0]
  else Ret to.

Definition simple (s : RState) : bool :=
  negb (skippable s) && negb (repeatable s) && negb (RSet.inverted (match_ s)) && (RSet.count (match_ s) =? 1).

Definition eq (s o : RState) : outcome bool :=
  if negb (eqb (skippable s) (skippable o)) then Ret false
  else if negb (eqb (repeatable s) (repeatable o)) then Ret false
  else RSet.eq (match_ s) (match_ o).

Definition hash (s : RState) : Z :=
  let z := if skippable s then 1 else 0 in
  let z := Z.lor z (Z.shiftl (if repeatable s then 1 else 0) 1) in
  Z.lxor (RSet.hash (match_ s)) z.
End RState.

(** ** [Regex] *)

Module Regex.
Import RState.

Definition fComplex : Z := 0.
Definition fNoRepeat : Z := 1.
Definition fSimple : Z := 2.

Definition NO_MATCH : Z := 2 ^ 32 - 1.

(** [GcArray<State> *states], with the flags in [filled]. *)
Record Regex := mkRegex { states : list RState; filled : Z }.

(** What the loop of [parse] does to [flags] for a new state. *)
Definition updateFlags (flags : Z) (last : RState) : Z :=
  let flags := if (fNoRepeat <=? flags) && (repeatable last || skippable last) then fComplex else flags in
  if (fSimple <=? flags) && ((1 <? RSet.count (match_ last)) || RSet.inverted (match_ last)) then fNoRepeat else flags.

Fixpoint parseLoop (fuel : nat) (s : list Z) (len pos : Z) (tmp : list RState) (flags : Z) : outcome (list RState * Z) :=
  match fuel with
  | O => OutOfFuel
  | S fuel =>
      if pos <? len then
        '(last, pos) ← RState.parse s len pos;
        parseLoop fuel s len pos (tmp ++ [last]) (updateFlags flags last)
      else Ret (tmp, flags)
  end.

(** [Regex(Str *pattern)], which calls [parse] *)
Definition parse (str : GcWchars) : outcome Regex :=
  '(tmp, flags) ← parseLoop (S (length (units str))) (units str) (Str.charCount str) 0 [] fSimple;
  Ret (mkRegex tmp flags).

Definition matchesEmpty (r : Regex) : bool := forallb skippable (states r).

(** The loop of [operator ==], for [n] states from [i]; that the arrays are the same object
    is only a short cut. *)
Fixpoint eqLoop (n : nat) (i : Z) (a b : list RState) : outcome bool :=
  match n with
  | O => Ret true
  | S n =>
      x ← aget a i; y ← aget b i;
      e ← RState.eq x y;
      if negb e then Ret false else eqLoop n (i + 1) a b
  end.

Definition eq (r o : Regex) : outcome bool :=
  let c := zlen (states r) in
  if negb (c =? zlen (states o)) then Ret false else eqLoop (Z.to_nat c) 0 (states r) (states o).

Definition hash (r : Regex) : Z := foldl (λ h s, RSet.mix h (RState.hash s)) 5381 (states r).

Definition simple (r : Regex) : bool := foldl (λ s st, s && RState.simple st) true (states r).

Fixpoint simpleStrLoop (sts : list RState) (r : StrBuf.StrBuf) : outcome (option StrBuf.StrBuf) :=
  match sts with
  | [] => Ret (Some r)
  | s :: sts =>
      if negb (RState.simple s) then Ret None
      else r ← StrBuf.addChar r (u16 (RSet.first (match_ s))); simpleStrLoop sts r
  end.

Definition simpleStr (r : Regex) : outcome (option GcWchars) :=
  b ← simpleStrLoop (states r) StrBuf.new;
  match b with Some b => s ← StrBuf.toS b; Ret (Some s) | None => Ret None end.

Fixpoint toSLoop (sts : list RState) (to : StrBuf.StrBuf) : outcome StrBuf.StrBuf :=
  match sts with [] => Ret to | s :: sts => to ← RState.output s to; toSLoop sts to end.

Definition toS (r : Regex) (to : StrBuf.StrBuf) : outcome StrBuf.StrBuf := toSLoop (states r) to.

(** *** Matching

    The templates have a type [T] of characters; [cast] is the conversion to it. *)

Fixpoint simpleLoop (cast : Z → Z) (s : list Z) (start i : Z) (sts : list RState) : outcome bool :=
  match sts with
  | [] => Ret true
  | st :: sts =>
      x ← aget s (u32 (i + start));
      if negb (cast (RSet.first (match_ st)) =? x) then Ret false else simpleLoop cast s start (i + 1) sts
  end.

Definition matchSimple (cast : Z → Z) (r : Regex) (s : list Z) (len start : Z) : outcome Z :=
  if len <? start + zlen (states r) then Ret NO_MATCH
  else
    ok ← simpleLoop cast s start 0 (states r);
    Ret (if ok : bool then u32 (start + zlen (states r)) else NO_MATCH).

Fixpoint noRepeatLoop (s : list Z) (start i : Z) (sts : list RState) : outcome bool :=
  match sts with
  | [] => Ret true
  | st :: sts =>
      x ← aget s (u32 (i + start));
      if negb (RSet.contains (match_ st) x) then Ret false else noRepeatLoop s start (i + 1) sts
  end.

Definition matchNoRepeat (r : Regex) (s : list Z) (len start : Z) : outcome Z :=
  if len <? start + zlen (states r) then Ret NO_MATCH
  else
    ok ← noRepeatLoop s start 0 (states r);
    Ret (if ok : bool then u32 (start + zlen (states r)) else NO_MATCH).

(** The loop that simulates the states of [current], which grows meanwhile: the position of
    the best match and the states for the next character. *)
Fixpoint simulate (fuel : nat) (sts : list RState) (ch pos : Z) (current : list Z) (i best : Z) (next : list Z) :
    outcome (Z * list Z) :=
  match fuel with
  | O => OutOfFuel
  | S fuel =>
      if i <? zlen current then
        stateId ← aget current i;
        if stateId =? zlen sts then simulate fuel sts ch pos current (i + 1) pos next
        else
          state ← aget sts stateId;
          let current := if skippable state then current ++ [u32 (stateId + 1)] else current in
          if negb (RSet.contains (match_ state) ch) then simulate fuel sts ch pos current (i + 1) best next
          else
            let next := next ++ [u32 (stateId + 1)] in
            let next := if repeatable state then next ++ [stateId] else next in
            simulate fuel sts ch pos current (i + 1) best next
      else Ret (best, next)
  end.

(** Every state is followed by at most the states after it. *)
Definition simulateFuel (sts : list RState) (current : list Z) : nat := S (length current * S (length sts)).

Fixpoint complexLoop (fuel : nat) (sts : list RState) (str : list Z) (len pos : Z) (current : list Z) (best : Z) : outcome Z :=
  match fuel with
  | O => OutOfFuel
  | S fuel =>
      if (pos <=? len) && (0 <? zlen current) then
        ch ← (if pos <? len then aget str pos else Ret 0);
        '(best, next) ← simulate (simulateFuel sts current) sts ch pos current 0 best [];
        complexLoop fuel sts str len (u32 (pos + 1)) next best
      else Ret best
  end.

Definition matchComplex (r : Regex) (str : list Z) (len start : Z) : outcome Z :=
  complexLoop (S (S (Z.to_nat (len - start)))) (states r) str len start [0] NO_MATCH.

Definition matchRaw (cast : Z → Z) (r : Regex) (s : list Z) (len start : Z) : outcome Z :=
  if filled r =? fSimple then matchSimple cast r s len start
  else if filled r =? fNoRepeat then matchNoRepeat r s len start
  else matchComplex r s len start.

(** [matchRaw(Str *, Nat)] *)
Definition matchRawStr (r : Regex) (s : GcWchars) (start : Z) : outcome Z :=
  matchRaw u16 r (units s) (Str.charCount s) start.

(** [match(Str *, Str::Iter)] and [match(Str * )] *)
Definition matchFrom (r : Regex) (str : StrObj) (start : Iter.Iter) : outcome (option Iter.Iter) :=
  e ← matchRawStr r (sdata str) (Iter.pos start);
  Ret (if e =? NO_MATCH then None else Some (StrParts.posIter str e)).

Definition matchStr (r : Regex) (str : StrObj) : outcome (option Iter.Iter) := matchFrom r str (StrParts.begin str).

(** [matchAll(Str *, Str::Iter)] and [matchAll(Str * )] *)
Definition matchAllFrom (r : Regex) (str : StrObj) (start : Iter.Iter) : outcome bool :=
  e ← matchRawStr r (sdata str) (Iter.pos start);
  if e =? NO_MATCH then Ret false else Ret (Iter.eq (StrParts.posIter str e) Iter.end_).

Definition matchAll (r : Regex) (str : StrObj) : outcome bool := matchAllFrom r str (StrParts.begin str).

(** What [b.dataPtr()] points to. *)
Definition bufferData (b : Buffer.Buffer) : io (list Z) :=
  match b with None => mret [] | Some l => a ← load l; mret (v a) end.

(** [match(Buffer, Nat)] and [match(Buffer)] *)
Definition matchBufferFrom (r : Regex) (b : Buffer.Buffer) (start : Z) : io (option Z) :=
  d ← bufferData b;
  f ← Buffer.filled b;
  e ← lift (matchRaw u8 r d f start);
  mret (if e =? NO_MATCH then None else Some e).

Definition matchBuffer (r : Regex) (b : Buffer.Buffer) : io (option Z) := matchBufferFrom r b 0.

(** [matchAll(Buffer, Nat)] and [matchAll(Buffer)] *)
Definition matchAllBufferFrom (r : Regex) (b : Buffer.Buffer) (start : Z) : io bool :=
  len ← Buffer.filled b;
  d ← bufferData b;
  e ← lift (matchRaw u8 r d len start);
  mret (e =? len).

Definition matchAllBuffer (r : Regex) (b : Buffer.Buffer) : io bool := matchAllBufferFrom r b 0.
End Regex.
