(* ===== verification/RegexMatchCorrect.v ===== *)
(** * Matching of regular expressions

    The language of a sequence of states, and that each of the three matchers of [Regex]
    finds the longest match at a position. *)

From stdpp Require Import base list numbers decidable option strings.
From Stdlib Require Import ZArith Lia.
From S2P Require Import Prelude Utf Buffer Str StrIter StrBuf StrStream Regex StrCorrect StreamCorrect BufferCorrect.

Import RState.

(** ** The language of a regular expression *)

(** What a single state matches: characters of its set, as many as its quantifier allows. *)
Definition one (s : RState) (w : list Z) : Prop :=
  Forall (λ c, RSet.contains (match_ s) c = true) w ∧ (w = [] → skippable s = true) ∧ ((2 ≤ length w)%nat → repeatable s = true).

(** A sequence of states matches the concatenation of what the states match. *)
Fixpoint matches (sts : list RState) (w : list Z) : Prop :=
  match sts with
  | [] => w = []
  | s :: sts => ∃ w1 w2, w = w1 ++ w2 ∧ one s w1 ∧ matches sts w2
  end.

Lemma matches_nil s sts : matches (s :: sts) [] ↔ skippable s = true ∧ matches sts [].
Proof.
  split.
  - intros (w1 & w2 & E & (_ & Hs & _) & Hm). symmetry in E. apply app_eq_nil in E as [-> ->]. auto.
  - intros [Hs Hm]. exists [], []. split_and!; [done| |done]. split_and!; [constructor|done|cbn; lia].
Qed.

Lemma matches_cons s sts c v : matches (s :: sts) (c :: v) ↔
  (skippable s = true ∧ matches sts (c :: v)) ∨
  (RSet.contains (match_ s) c = true ∧ (matches sts v ∨ (repeatable s = true ∧ matches (s :: sts) v))).
Proof.
  split.
  - intros ([|x w1] & w2 & E & (Hf & Hs & Hr) & Hm); cbn in E; [subst w2; left; auto|]. injection E as <- E.
    apply Forall_cons in Hf as [Hc Hf]. right. split; [done|]. destruct w1 as [|y w1]; [left; by rewrite E|].
    right. cbn in Hr. split; [apply Hr; lia|]. exists (y :: w1), w2. split_and!; [done| |done]. split_and!; [done|done|]. intros. apply Hr. lia.
  - intros [[Hs Hm]|[Hc [Hm|[Hr (w1 & w2 & -> & (Hf & _ & _) & Hm)]]]].
    + exists [], (c :: v). split_and!; [done| |done]. split_and!; [constructor|done|cbn; lia].
    + exists [c], v. split_and!; [done| |done]. split_and!; [by constructor|done|cbn; lia].
    + exists (c :: w1), w2. split_and!; [done| |done]. split_and!; [by constructor|done|done].
Qed.

(** The longest prefix of [v] with [P], if there is one. *)
Definition longest (P : list Z → Prop) (v : list Z) (k : option nat) : Prop :=
  match k with
  | Some k => (k ≤ length v)%nat ∧ P (take k v) ∧ ∀ k', (k' ≤ length v)%nat → P (take k' v) → (k' ≤ k)%nat
  | None => ∀ k', (k' ≤ length v)%nat → ¬ P (take k' v)
  end.

Lemma longest_nil (P : list Z → Prop) k : longest P [] k ↔ match k with Some k => k = 0%nat ∧ P [] | None => ¬ P [] end.
Proof.
  destruct k as [k|]; cbn.
  - split; [intros (Hk & Hp & _)|intros [-> Hp]]; [|split_and!; [done|done|lia]].
    assert (k = 0%nat) as -> by lia. done.
  - split; [intros H; apply (H 0%nat); lia|intros H k' _]. by rewrite take_nil.
Qed.

(** With the first character consumed. *)
Lemma longest_cons (P : list Z → Prop) c v k : longest (λ w, P (c :: w)) v (Some k) → longest P (c :: v) (Some (S k)).
Proof.
  intros (Hk & Hp & Hmax). cbn. split_and!; [lia|done|]. intros [|k'] Hk' Hp'; [lia|]. apply le_n_S, Hmax; [lia|done].
Qed.

Lemma longest_none_cons (P : list Z → Prop) c v : longest (λ w, P (c :: w)) v None → 
  (P [] → longest P (c :: v) (Some 0%nat)) ∧ (¬ P [] → longest P (c :: v) None).
Proof.
  intros H. split; intros Hp.
  - cbn. split_and!; [lia|done|]. intros [|k'] Hk' Hp'; [lia|]. exfalso. apply (H k'); [lia|done].
  - intros [|k'] Hk' Hp'; [done|]. apply (H k'); [cbn in Hk'; lia|done].
Qed.

(** What only depends on the prefix. *)
Lemma longest_ext (P Q : list Z → Prop) v k : (∀ w, P w ↔ Q w) → longest P v k → longest Q v k.
Proof.
  intros HPQ. destruct k as [k|]; cbn.
  - intros (Hk & Hp & Hmax). split_and!; [done|by apply HPQ|]. intros k' Hk' Hq. apply Hmax; [done|by apply HPQ].
  - intros H k' Hk' Hq. apply (H k'); [done|by apply HPQ].
Qed.

(** The results of the code. *)
Definition result (start : Z) (k : option nat) : Z := match k with Some k => start + Z.of_nat k | None => Regex.NO_MATCH end.

(** ** Simulation of all states *)

Section complex.
Context (sts : list RState) (Hsts : zlen sts < 2 ^ 32 - 1).

(** Some of the states [ids] matches [w]. *)
Definition accepts (ids : list Z) (w : list Z) : Prop := ∃ id, id ∈ ids ∧ matches (drop (Z.to_nat id) sts) w.

Definition inRange (ids : list Z) : Prop := Forall (λ id, 0 ≤ id ≤ zlen sts) ids.

Lemma accepts_nil w : ¬ accepts [] w.
Proof. intros (id & H & _). by apply not_elem_of_nil in H. Qed.

Lemma accepts_cons id ids w : accepts (id :: ids) w ↔ matches (drop (Z.to_nat id) sts) w ∨ accepts ids w.
Proof.
  unfold accepts. split.
  - intros (x & [->|Hx]%elem_of_cons & Hm); eauto.
  - intros [Hm|(x & Hx & Hm)]; eexists; (split; [|exact Hm]); [by left|by right].
Qed.

Lemma accepts_app ids1 ids2 w : accepts (ids1 ++ ids2) w ↔ accepts ids1 w ∨ accepts ids2 w.
Proof.
  unfold accepts. split.
  - intros (x & [Hx|Hx]%elem_of_app & Hm); eauto.
  - intros [(x & Hx & Hm)|(x & Hx & Hm)]; exists x; rewrite elem_of_app; auto.
Qed.

Lemma accepts_one id w : accepts [id] w ↔ matches (drop (Z.to_nat id) sts) w.
Proof. rewrite accepts_cons. pose proof (accepts_nil w). tauto. Qed.

Lemma drop_state id st : sts !! id = Some st → drop (Z.to_nat id) sts = st :: drop (Z.to_nat (id + 1)) sts.
Proof.
  intros E. pose proof (lookupZ_Some_lt _ _ _ E). rewrite lookupZ_to_nat in E by lia.
  rewrite Z2Nat.inj_add by lia. rewrite (drop_S sts st (Z.to_nat id)) by done. f_equal. f_equal. lia.
Qed.

(** The states that are left to look at shrink by one, each of them worth the states after it. *)
Fixpoint weight (ids : list Z) : nat :=
  match ids with [] => 0 | id :: ids => S (Z.to_nat (zlen sts - id)) + weight ids end.

Lemma weight_app ids1 ids2 : weight (ids1 ++ ids2) = (weight ids1 + weight ids2)%nat.
Proof. induction ids1; cbn; lia. Qed.

Lemma weight_le ids : inRange ids → (weight ids ≤ length ids * S (length sts))%nat.
Proof. induction 1 as [|id ids Hid _ IH]; cbn; [lia|]. unfold zlen in *. lia. Qed.

(** What a state that is not the last one adds. *)
Lemma accepts_state id st ids w : sts !! id = Some st → accepts (id :: ids) w ↔
  matches (st :: drop (Z.to_nat (id + 1)) sts) w ∨ accepts ids w.
Proof. intros E. by rewrite accepts_cons, (drop_state _ _ E). Qed.

Lemma accepts_if (b : bool) id w : accepts (if b then [id] else []) w ↔ b = true ∧ matches (drop (Z.to_nat id) sts) w.
Proof. destruct b; [rewrite accepts_one; naive_solver|]. pose proof (accepts_nil w). naive_solver. Qed.

Lemma inRange_if (b : bool) id : 0 ≤ id ≤ zlen sts → inRange (if b then [id] else []).
Proof. destruct b; repeat constructor; lia. Qed.

(** One round for all states. *)
Lemma simulate_spec fuel ch pos current i best next : 0 ≤ i ≤ zlen current → inRange current → inRange next →
  (weight (drop (Z.to_nat i) current) < fuel)%nat →
  ∃ best' next', Regex.simulate fuel sts ch pos current i best next = Ret (best', next') ∧ inRange next' ∧
    ((accepts (drop (Z.to_nat i) current) [] ∧ best' = pos) ∨ (¬ accepts (drop (Z.to_nat i) current) [] ∧ best' = best)) ∧
    ∀ w, accepts next' w ↔ accepts next w ∨ accepts (drop (Z.to_nat i) current) (ch :: w).
Proof.
  revert current i best next. induction fuel as [|fuel IH]; intros current i best next Hi Hc Hn Hf; [lia|]. cbn [Regex.simulate].
  destruct (Z.ltb_spec i (zlen current)) as [Hlt|Hge].
  2:{ rewrite drop_ge by (unfold zlen in *; lia). exists best, next. split_and!; [done|done| |].
      - right. split; [apply accepts_nil|done].
      - intros w. pose proof (accepts_nil (ch :: w)). tauto. }
  destruct (lookupZ_lt_Some current i) as [id Eid]; [lia|]. rewrite (aget_Some _ _ _ Eid). cbn [mbind outcome_bind].
  assert (Ed : drop (Z.to_nat i) current = id :: drop (Z.to_nat (i + 1)) current).
  { rewrite lookupZ_to_nat in Eid by lia. rewrite (drop_S _ _ _ Eid). do 2 f_equal. lia. }
  assert (Hid : 0 ≤ id ≤ zlen sts). { rewrite lookupZ_to_nat in Eid by lia. by apply (Forall_lookup_1 _ _ _ _ Hc Eid). }
  rewrite Ed in Hf |- *. cbn [weight] in Hf.
  destruct (Z.eqb_spec id (zlen sts)) as [->|Hne].
  - destruct (IH current (i + 1) pos next) as (b' & n' & -> & Hn' & Hb & Hw); [lia|done|done|lia|].
    assert (Hacc : ∀ w, accepts (zlen sts :: drop (Z.to_nat (i + 1)) current) w ↔ w = [] ∨ accepts (drop (Z.to_nat (i + 1)) current) w).
    { intros w. rewrite accepts_cons, drop_ge by (unfold zlen; lia). done. }
    exists b', n'. split_and!; [done|done| |].
    + left. split; [apply Hacc; by left|]. destruct Hb as [[_ ->]|[_ ->]]; done.
    + intros w. rewrite Hw, Hacc. naive_solver.
  - destruct (lookupZ_lt_Some sts id) as [st Est]; [lia|]. rewrite (aget_Some _ _ _ Est). cbn [mbind outcome_bind].
    rewrite (u32_small (id + 1)) by (unfold is_u32; lia).
    set (skip := if skippable st then [id + 1] else []).
    replace (if skippable st then current ++ [id + 1] else current) with (current ++ skip) by (unfold skip; destruct (skippable st); [done|apply app_nil_r]).
    set (new := if RSet.contains (match_ st) ch then [id + 1] ++ (if repeatable st then [id] else []) else []).
    assert (Hstep : ∀ b' n', Regex.simulate fuel sts ch pos (current ++ skip) (i + 1) best (next ++ new) = Ret (b', n') →
      (if negb (RSet.contains (match_ st) ch) then Regex.simulate fuel sts ch pos (current ++ skip) (i + 1) best next
       else Regex.simulate fuel sts ch pos (current ++ skip) (i + 1) best (if repeatable st then (next ++ [id + 1]) ++ [id] else next ++ [id + 1])) = Ret (b', n')).
    { intros b' n' <-. unfold new. destruct (RSet.contains (match_ st) ch), (repeatable st); cbn; by rewrite ?app_nil_r, <- ?app_assoc. }
    assert (Hskip : inRange skip) by (apply inRange_if; lia).
    assert (Hnew : inRange new).
    { unfold new. destruct (RSet.contains _ _); [|constructor]. apply Forall_app. split; [repeat constructor; lia|apply inRange_if; lia]. }
    destruct (IH (current ++ skip) (i + 1) best (next ++ new)) as (b' & n' & E & Hn' & Hb & Hw).
    { rewrite zlen_app. pose proof (zlen_nonneg skip). lia. } { by apply Forall_app. } { by apply Forall_app. }
    { rewrite drop_app_le, weight_app by (unfold zlen in *; lia). unfold skip. destruct (skippable st); cbn; lia. }
    rewrite drop_app_le in Hb, Hw by (unfold zlen in *; lia).
    exists b', n'. split_and!; [by apply Hstep|done| |].
    + rewrite accepts_app in Hb. unfold skip in Hb. rewrite accepts_if in Hb. rewrite (accepts_state _ _ _ _ Est), matches_nil. naive_solver.
    + intros w. rewrite Hw, !accepts_app, (accepts_state _ _ _ _ Est), matches_cons. unfold skip. rewrite accepts_if.
      enough (accepts new w ↔ RSet.contains (match_ st) ch = true ∧ (matches (drop (Z.to_nat (id + 1)) sts) w ∨
        repeatable st = true ∧ matches (st :: drop (Z.to_nat (id + 1)) sts) w)) by tauto.
      unfold new. destruct (RSet.contains _ _); [|pose proof (accepts_nil w); naive_solver].
      rewrite accepts_app, accepts_one, accepts_if, (drop_state _ _ Est). naive_solver.
Qed.
(** All states of [current], for one character. *)
Lemma simulate_run ch pos current best : inRange current →
  ∃ best' next', Regex.simulate (Regex.simulateFuel sts current) sts ch pos current 0 best [] = Ret (best', next') ∧ inRange next' ∧
    ((accepts current [] ∧ best' = pos) ∨ (¬ accepts current [] ∧ best' = best)) ∧ ∀ w, accepts next' w ↔ accepts current (ch :: w).
Proof.
  intros Hc. pose proof (weight_le _ Hc).
  destruct (simulate_spec (Regex.simulateFuel sts current) ch pos current 0 best []) as (b & n & E & Hn & Hb & Hw);
    [pose proof (zlen_nonneg current); lia|done|apply List.Forall_nil|unfold Regex.simulateFuel; change (Z.to_nat 0) with 0%nat; rewrite drop_0; lia|].
  change (Z.to_nat 0) with 0%nat in Hb. rewrite drop_0 in Hb. exists b, n. split_and!; [done|done|done|]. intros w. rewrite Hw. pose proof (accepts_nil w). change (Z.to_nat 0) with 0%nat. rewrite drop_0. tauto.
Qed.

Lemma longest_nobody v : longest (accepts []) v None.
Proof. intros k _. apply accepts_nil. Qed.

Lemma complexLoop_spec u tail v : zlen u < 2 ^ 32 - 1 → ∀ fuel pos current best, 0 ≤ pos ≤ zlen u → drop (Z.to_nat pos) u = v →
  (S (length v) < fuel)%nat → inRange current →
  ∃ k, Regex.complexLoop fuel sts (u ++ tail) (zlen u) pos current best = Ret (match k with Some k => pos + Z.of_nat k | None => best end) ∧
    longest (accepts current) v k.
Proof.
  intros Hu. induction v as [|c v IH]; intros [|fuel] pos current best Hpos Hv Hf Hc; try (cbn in Hf; lia); cbn [Regex.complexLoop];
    rewrite (proj2 (Z.leb_le pos (zlen u))) by lia; cbn [andb];
    (destruct current as [|id current]; [exists None; split; [done|apply longest_nobody]|]);
    rewrite (proj2 (Z.ltb_lt 0 (zlen (id :: current)))) by (unfold zlen; cbn; lia);
    (assert (Hlv : pos + zlen (drop (Z.to_nat pos) u) = zlen u) by (unfold zlen in *; rewrite length_drop; lia)); rewrite Hv in Hlv.
  - rewrite (proj2 (Z.ltb_ge pos (zlen u))) by (unfold zlen in *; cbn in *; lia). cbn [mbind outcome_bind].
    destruct (simulate_run 0 pos _ best Hc) as (b & n & -> & _ & Hb & _). cbn [mbind outcome_bind].
    destruct fuel as [|fuel]; [cbn in Hf; lia|]. cbn [Regex.complexLoop]. unfold zlen in Hlv at 1. cbn in Hlv.
    rewrite u32_small by (unfold is_u32; lia). rewrite (proj2 (Z.leb_gt (pos + 1) (zlen u))) by lia. cbn [andb].
    destruct Hb as [[Ha ->]|[Ha ->]]; [exists (Some 0%nat)|exists None]; (split; [|by apply longest_nil]); [|done]. f_equal. lia.
  - unfold zlen in Hlv at 1. cbn in Hlv. rewrite (proj2 (Z.ltb_lt pos (zlen u))) by lia.
    assert (Ec : (u ++ tail) !! pos = Some c).
    { rewrite lookupZ_to_nat by lia. rewrite lookup_app_l by (unfold zlen in *; lia).
      rewrite <- (Nat.add_0_r (Z.to_nat pos)), <- lookup_drop, Hv. done. }
    rewrite (aget_Some _ _ _ Ec). cbn [mbind outcome_bind].
    destruct (simulate_run c pos _ best Hc) as (b & n & -> & Hn & Hb & Hw). cbn [mbind outcome_bind].
    rewrite u32_small by (unfold is_u32; lia).
    destruct (IH fuel (pos + 1) n b) as (k & -> & Hk); [lia| |cbn in Hf; lia|done|].
    { replace (Z.to_nat (pos + 1)) with (Z.to_nat pos + 1)%nat by lia. by rewrite <- drop_drop, Hv. }
    apply (longest_ext _ _ _ _ Hw) in Hk. destruct k as [k|].
    + exists (Some (S k)). split; [f_equal; lia|]. by apply longest_cons.
    + apply longest_none_cons in Hk as [Hk1 Hk2]. destruct Hb as [[Ha ->]|[Ha ->]]; [exists (Some 0%nat)|exists None]; (split; [|by auto]); [f_equal; lia|done].
Qed.
End complex.

(** ** Regular expressions without repetition *)

(** What the constructor leaves: flags that fit the states, and sets that are a single
    character below [bound], or an array of characters. *)
Definition wfSet (bound : Z) (s : RSet.RSet) : Prop :=
  match RSet.chars s with
  | Some l => RSet.first s = RSet.EMPTY ∧ length l ≠ 1%nat ∧ zlen l < 2 ^ 32
  | None => RSet.first s = RSet.EMPTY ∨ 0 < RSet.first s < bound
  end.

Definition wfRegex (bound : Z) (r : Regex.Regex) : Prop :=
  Forall (λ st, wfSet bound (match_ st)) (Regex.states r) ∧ Regex.filled r = foldl Regex.updateFlags Regex.fSimple (Regex.states r).

Definition unquantified (st : RState) : Prop := skippable st = false ∧ repeatable st = false.

(** At most one character. *)
Definition literal (st : RState) : Prop := RSet.count (match_ st) ≤ 1 ∧ RSet.inverted (match_ st) = false.

Lemma updateFlags_inv f st : 0 ≤ f ≤ 2 → 0 ≤ Regex.updateFlags f st ≤ f ∧
  (1 ≤ Regex.updateFlags f st → unquantified st) ∧ (Regex.updateFlags f st = 2 → literal st).
Proof.
  unfold Regex.updateFlags, unquantified, literal, Regex.fNoRepeat, Regex.fSimple, Regex.fComplex. intros Hf.
  destruct (Z.leb_spec 1 f), (repeatable st) eqn:Er, (skippable st) eqn:Es, (Z.ltb_spec 1 (RSet.count (match_ st))),
    (RSet.inverted (match_ st)); cbn; try (destruct (Z.leb_spec 2 f)); cbn; repeat split; intros; try lia; try done.
Qed.

Lemma foldFlags_inv sts : ∀ f, 0 ≤ f ≤ 2 → 0 ≤ foldl Regex.updateFlags f sts ≤ f ∧
  (1 ≤ foldl Regex.updateFlags f sts → Forall unquantified sts) ∧ (foldl Regex.updateFlags f sts = 2 → Forall literal sts).
Proof.
  induction sts as [|st sts IH]; intros f Hf; cbn [foldl]; [split_and!; [lia|lia|constructor|constructor]|].
  destruct (updateFlags_inv f st Hf) as (Hu & H1 & H2). destruct (IH (Regex.updateFlags f st)) as (Hr & H3 & H4); [lia|].
  split_and!; [lia|lia| |]; intros H; constructor; auto; [apply H1; lia|apply H2; lia].
Qed.

Lemma matches_fixed sts w : Forall unquantified sts → matches sts w ↔ Forall2 (λ st c, RSet.contains (match_ st) c = true) sts w.
Proof.
  intros Hs. revert w. induction Hs as [|st sts [Hk Hr] _ IH]; intros w; cbn.
  - split; [intros ->; constructor|by intros ?%Forall2_nil_inv_l].
  - split.
    + intros (w1 & w2 & -> & (Hf & H1 & H2) & Hm). destruct w1 as [|c [|d w1]].
      * rewrite Hk in H1. by discriminate H1.
      * apply Forall_cons in Hf as [Hc _]. cbn. constructor; [done|by apply IH].
      * rewrite Hr in H2. cbn in H2. discriminate H2. lia.
    + intros Hf. apply Forall2_cons_inv_l in Hf as (c & w' & Hc & Hf & ->). exists [c], w'.
      split_and!; [done| |by apply IH]. split_and!; [by constructor|done|cbn; lia].
Qed.

Lemma noRepeatLoop_spec u tail sts : zlen u < 2 ^ 32 → ∀ start i v, 0 ≤ start → 0 ≤ i → drop (Z.to_nat (i + start)) u = v → (length sts ≤ length v)%nat →
  ∃ b : bool, Regex.noRepeatLoop (u ++ tail) start i sts = Ret b ∧
    (b = true ↔ Forall2 (λ st c, RSet.contains (match_ st) c = true) sts (take (length sts) v)).
Proof.
  intros Hu. induction sts as [|st sts IH]; intros start i v Hs Hi Hv Hl; cbn.
  - exists true. split; [done|]. split; [constructor|done].
  - destruct v as [|c v]; [cbn in Hl; lia|].
    assert (Hlt : (Z.to_nat (i + start) < length u)%nat). { apply (f_equal length) in Hv. rewrite length_drop in Hv. cbn in Hv. lia. }
    rewrite u32_small by (unfold is_u32, zlen in *; lia).
    assert (Ec : (u ++ tail) !! (i + start) = Some c).
    { rewrite lookupZ_to_nat, lookup_app_l by lia. rewrite <- (Nat.add_0_r (Z.to_nat _)), <- lookup_drop, Hv. done. }
    rewrite (aget_Some _ _ _ Ec). cbn. destruct (RSet.contains (match_ st) c) eqn:E; cbn.
    + destruct (IH start (i + 1) v) as (b & -> & Hb); [done|lia| |cbn in Hl; lia|].
      { replace (Z.to_nat (i + 1 + start)) with (Z.to_nat (i + start) + 1)%nat by lia. by rewrite <- drop_drop, Hv. }
      exists b. split; [done|]. rewrite Hb, Forall2_cons. tauto.
    + exists false. split; [done|]. rewrite Forall2_cons, E. naive_solver.
Qed.

Lemma longest_fixed sts v (b : bool) : Forall unquantified sts → (length sts ≤ length v)%nat →
  (b = true ↔ Forall2 (λ st c, RSet.contains (match_ st) c = true) sts (take (length sts) v)) →
  longest (matches sts) v (if b then Some (length sts) else None).
Proof.
  intros Hs Hl Hb.
  assert (Hk : ∀ k, (k ≤ length v)%nat → matches sts (take k v) → k = length sts).
  { intros k Hk Hm. apply matches_fixed in Hm; [|done]. apply Forall2_length in Hm. rewrite length_take in Hm. lia. }
  destruct b; cbn.
  - split_and!; [done|by apply matches_fixed, Hb|]. intros k' Hk' Hm. rewrite (Hk k' Hk' Hm). done.
  - intros k Hk' Hm. rewrite (Hk k Hk' Hm) in Hm. apply matches_fixed in Hm; [|done]. apply Hb in Hm. done.
Qed.

(** Too short a rest. *)
Lemma longest_short sts v : Forall unquantified sts → (length v < length sts)%nat → longest (matches sts) v None.
Proof.
  intros Hs Hl k Hk Hm. apply matches_fixed in Hm; [|done]. apply Forall2_length in Hm. rewrite length_take in Hm. lia.
Qed.

Lemma matchNoRepeat_spec r u tail start : zlen u < 2 ^ 32 → 0 ≤ start ≤ zlen u → Forall unquantified (Regex.states r) →
  ∃ k, Regex.matchNoRepeat r (u ++ tail) (zlen u) start = Ret (result start k) ∧ longest (matches (Regex.states r)) (drop (Z.to_nat start) u) k.
Proof.
  intros Hu Hs Hn. unfold Regex.matchNoRepeat. assert (Hd : length (drop (Z.to_nat start) u) = (length u - Z.to_nat start)%nat) by apply length_drop.
  destruct (Z.ltb_spec (zlen u) (start + zlen (Regex.states r))) as [Hlt|Hge].
  - exists None. split; [done|]. apply longest_short; [done|]. unfold zlen in *. lia.
  - destruct (noRepeatLoop_spec u tail (Regex.states r) Hu start 0 (drop (Z.to_nat start) u)) as (b & -> & Hb); [lia|lia|done|unfold zlen in *; lia|].
    exists (if b then Some (length (Regex.states r)) else None). split; [|apply longest_fixed; [done|unfold zlen in *; lia|done]].
    cbn. destruct b; [|done]. f_equal. unfold result. rewrite u32_small; [done|]. pose proof (zlen_nonneg (Regex.states r)). unfold is_u32. lia.
Qed.

(** ** Simple regular expressions *)

(** Comparing with the only character, converted, is looking it up in the set. *)
Definition castOk (cast : Z → Z) (st : RState) (x : Z) : Prop := (cast (RSet.first (match_ st)) =? x) = RSet.contains (match_ st) x.

Lemma castOk_bound bound cast st x : wfSet bound (match_ st) → literal st → (∀ z, 0 ≤ z < bound → cast z = z) →
  x ≠ cast RSet.EMPTY → x ≠ RSet.EMPTY → castOk cast st x.
Proof.
  unfold castOk, wfSet, literal, RSet.contains, RSet.count. destruct (match_ st) as [cs f inv]. cbn. intros Hw [Hc ->] Hcast Hx1 Hx2.
  assert (He : (cast RSet.EMPTY =? x) = false) by (apply Z.eqb_neq; congruence). apply Z.eqb_neq in Hx2.
  destruct cs as [l|].
  - destruct Hw as (-> & Hl & Hz). rewrite u32_small in Hc by (pose proof (zlen_nonneg l); unfold is_u32; lia).
    destruct l as [|y [|z l]]; [|done|unfold zlen in Hc; cbn in Hc; lia]. by rewrite Hx2, He.
  - cbn. destruct Hw as [->|Hw]; [by rewrite Hx2, He|]. rewrite Hcast by lia. rewrite Z.eqb_sym. by destruct (x =? f).
Qed.

Lemma simpleLoop_eq cast u tail start sts : zlen u < 2 ^ 32 → 0 ≤ start → ∀ i, 0 ≤ i → i + start + zlen sts ≤ zlen u →
  (∀ st x, st ∈ sts → x ∈ u → castOk cast st x) →
  Regex.simpleLoop cast (u ++ tail) start i sts = Regex.noRepeatLoop (u ++ tail) start i sts.
Proof.
  intros Hu Hs. induction sts as [|st sts IH]; intros i Hi Hl Hok; cbn; [done|].
  assert (Hz : zlen (st :: sts) = 1 + zlen sts) by (unfold zlen; cbn; lia). pose proof (zlen_nonneg sts).
  rewrite u32_small by (unfold is_u32; lia). destruct (lookupZ_lt_Some u (i + start)) as [x Ex]; [lia|].
  assert (E : (u ++ tail) !! (i + start) = Some x). { rewrite lookupZ_to_nat in Ex |- * by lia. by apply lookup_app_l_Some. }
  rewrite (aget_Some _ _ _ E). cbn.
  rewrite (Hok st x); [|by left|apply list_elem_of_lookupZ; eauto]. destruct (RSet.contains _ _); [|done]. cbn.
  apply IH; [lia|lia|]. intros. apply Hok; [by right|done].
Qed.

(** ** All three matchers *)

Lemma matchRaw_spec bound cast r u tail start : wfRegex bound r → zlen (Regex.states r) < 2 ^ 32 - 1 → zlen u < 2 ^ 32 - 1 → 0 ≤ start ≤ zlen u →
  (∀ z, 0 ≤ z < bound → cast z = z) → RSet.EMPTY ∉ u → cast RSet.EMPTY ∉ u →
  ∃ k, Regex.matchRaw cast r (u ++ tail) (zlen u) start = Ret (result start k) ∧ longest (matches (Regex.states r)) (drop (Z.to_nat start) u) k.
Proof.
  intros [Hwf Hfl] Hn Hu Hs Hcast He1 He2. unfold Regex.matchRaw.
  destruct (foldFlags_inv (Regex.states r) Regex.fSimple) as (Hr & H1 & H2); [unfold Regex.fSimple; lia|]. rewrite <- Hfl in Hr, H1, H2.
  destruct (Z.eqb_spec (Regex.filled r) Regex.fSimple) as [E|E]; [|destruct (Z.eqb_spec (Regex.filled r) Regex.fNoRepeat) as [E'|E']].
  - destruct (matchNoRepeat_spec r u tail start) as (k & Ek & Hk); [lia|lia|apply H1; rewrite E; unfold Regex.fSimple; lia|].
    exists k. split; [|done]. rewrite <- Ek. unfold Regex.matchSimple, Regex.matchNoRepeat.
    destruct (Z.ltb_spec (zlen u) (start + zlen (Regex.states r))); [done|]. rewrite simpleLoop_eq; [done|lia|lia|lia|lia|].
    intros st x Hst Hx. apply (castOk_bound bound); [by apply (proj1 (Forall_forall _ _) Hwf)|by apply (proj1 (Forall_forall _ _) (H2 E) st Hst)|done| |]; congruence.
  - apply matchNoRepeat_spec; [lia|lia|]. apply H1. rewrite E'. unfold Regex.fNoRepeat. lia.
  - unfold Regex.matchComplex. destruct (complexLoop_spec (Regex.states r) Hn u tail (drop (Z.to_nat start) u) Hu
      (S (S (Z.to_nat (zlen u - start)))) start [0] Regex.NO_MATCH) as (k & -> & Hk).
    + lia. + done. + rewrite length_drop. unfold zlen. lia. + repeat constructor; [lia|]. apply zlen_nonneg.
    + exists k. split; [done|]. apply (longest_ext _ _ _ _ (λ w, accepts_one (Regex.states r) 0 w)) in Hk. exact Hk.
Qed.
