(* ===== verification/RegexParseCorrect.v ===== *)
(** * Parsing of regular expressions

    The grammar of patterns, and that [Regex::parse], which moves a position through an array
    and goes through every group twice, accepts exactly the texts of the grammar and gives
    their meaning. *)

From stdpp Require Import base list numbers decidable option strings.
From Stdlib Require Import ZArith Lia.
From S2P Require Import Prelude Utf Buffer Str StrIter StrBuf StrStream Regex StrCorrect RegexMatchCorrect.

Import RState.

(** ** The grammar *)

(** A character in a group, escaped or not, or all characters from it to another one. *)
Record item := Item { escaped : bool; from : Z; upTo : option Z }.

Inductive atom :=
  | Chr (esc : bool) (c : Z)
  | Any
  | Group (inv : bool) (items : list item).

Inductive quant := Once | Optional | Many | AtLeastOnce.

Notation piece := (atom * quant)%type.

Definition itemText (i : item) : list Z :=
  (if escaped i then [Rx.backslash; from i] else [from i]) ++ match upTo i with Some b => [Rx.dash; b] | None => [] end.

Definition atomText (a : atom) : list Z :=
  match a with
  | Chr esc c => if esc then [Rx.backslash; c] else [c]
  | Any => [Rx.dot]
  | Group inv items => Rx.open :: (if inv then [Rx.caret] else []) ++ concat (itemText <$> items) ++ [Rx.close]
  end.

Definition quantText (q : quant) : list Z :=
  match q with Once => [] | Optional => [Rx.question] | Many => [Rx.star] | AtLeastOnce => [Rx.plus] end.

Definition pieceText (p : piece) : list Z := atomText (p.1) ++ quantText (p.2).
Definition patternText (ps : list piece) : list Z := concat (pieceText <$> ps).

(** Characters with a meaning are escaped where they have it. *)
Definition okItem (i : item) : bool :=
  (escaped i || negb (existsb (Z.eqb (from i)) [Rx.close; Rx.backslash; Rx.dash])) &&
  match upTo i with Some b => negb (b =? Rx.close) | None => true end.

Definition startsCaret (items : list item) : bool :=
  match items with i :: _ => negb (escaped i) && (from i =? Rx.caret) | [] => false end.

Definition okAtom (a : atom) : bool :=
  match a with
  | Chr esc c => esc || negb (existsb (Z.eqb c) [Rx.backslash; Rx.open; Rx.dot])
  | Any => true
  | Group inv items => forallb okItem items && (inv || negb (startsCaret items))
  end.

Definition isQuant (c : Z) : bool := existsb (Z.eqb c) [Rx.star; Rx.question; Rx.plus].
Definition startsQuant (ps : list piece) : bool :=
  match ps with (Chr false c, _) :: _ => isQuant c | _ => false end.

Fixpoint okPattern (ps : list piece) : bool :=
  match ps with
  | [] => true
  | (a, q) :: ps => okAtom a && (match q with Once => negb (startsQuant ps) | _ => true end) && okPattern ps
  end.

(** *** What a pattern is compiled to *)

Definition itemChars (i : item) : list Z :=
  from i :: match upTo i with Some b => seqZ (from i + 1) (b - from i) | None => [] end.

Definition groupSet (inv : bool) (cs : list Z) : RSet.RSet :=
  match cs with [c] => RSet.mkSet None c inv | _ => RSet.mkSet (Some cs) RSet.EMPTY inv end.

Definition atomSet (a : atom) : RSet.RSet :=
  match a with
  | Chr _ c => RSet.single c
  | Any => RSet.all
  | Group inv items => groupSet inv (concat (itemChars <$> items))
  end.

Definition quantified (q : quant) (s : RSet.RSet) : RState :=
  match q with
  | Once => mkState s false false
  | Optional => mkState s true false
  | Many => mkState s true true
  | AtLeastOnce => mkState s false true
  end.

Definition compile (ps : list piece) : list RState := (λ p, quantified (p.2) (atomSet (p.1))) <$> ps.
Definition compiled (ps : list piece) : Regex.Regex := Regex.mkRegex (compile ps) (foldl Regex.updateFlags Regex.fSimple (compile ps)).

(** *** The language of a pattern *)

Definition inItem (i : item) (c : Z) : Prop := c = from i ∨ ∃ b, upTo i = Some b ∧ from i < c ≤ b.

Definition inAtom (a : atom) (c : Z) : Prop :=
  match a with
  | Chr _ x => c = x
  | Any => True
  | Group inv items => if inv then ¬ Exists (λ i, inItem i c) items else Exists (λ i, inItem i c) items
  end.

Definition times (q : quant) (n : nat) : Prop :=
  match q with Once => n = 1%nat | Optional => (n ≤ 1)%nat | Many => True | AtLeastOnce => (1 ≤ n)%nat end.

Inductive language : list piece → list Z → Prop :=
  | language_nil : language [] []
  | language_cons a q ps w w' : Forall (inAtom a) w → times q (length w) → language ps w' → language ((a, q) :: ps) (w ++ w').

(** ** A parser on lists *)

(** Up to the end of a group, or of the pattern: the characters, and the rest. *)
Fixpoint refGroup (u : list Z) (last : option Z) : string + (list Z * list Z) :=
  match u with
  | [] => inr ([], [])
  | ch :: u' =>
      if ch =? Rx.close then inr ([], u)
      else if ch =? Rx.backslash then
        match u' with
        | [] => inr ([Rx.backslash], [])
        | ch :: u => match refGroup u (Some ch) with inl m => inl m | inr (cs, r) => inr (ch :: cs, r) end
        end
      else if ch =? Rx.dash then
        match last with
        | None => inl "A character must appear before a dash (-) in a group."%string
        | Some l =>
            match u' with
            | [] => inl "A dash must not appear as the last character in a group."%string
            | b :: u =>
                if b =? Rx.close then inl "A dash must not appear as the last character in a group."%string
                else match refGroup u None with inl m => inl m | inr (cs, r) => inr (seqZ (l + 1) (b - l) ++ cs, r) end
            end
        end
      else match refGroup u' (Some ch) with inl m => inl m | inr (cs, r) => inr (ch :: cs, r) end
  end.

Definition refGroupSet (inv : bool) (u : list Z) : string + (RSet.RSet * list Z) :=
  match refGroup u None with
  | inl m => inl m
  | inr (_, []) => inl "Missing ] to end the capture group."%string
  | inr (cs, _ :: r) => inr (groupSet inv cs, r)
  end.

Definition refSet (u : list Z) : string + (RSet.RSet * list Z) :=
  match u with
  | [] => inl ""%string
  | ch :: u =>
      if ch =? Rx.backslash then
        match u with [] => inl "Missing character after escape character (\)"%string | ch :: u => inr (RSet.single ch, u) end
      else if ch =? Rx.open then
        match u with
        | c :: u' => if c =? Rx.caret then refGroupSet true u' else refGroupSet false u
        | [] => refGroupSet false u
        end
      else if ch =? Rx.dot then inr (RSet.all, u)
      else inr (RSet.single ch, u)
  end.

Definition refQuant (u : list Z) : quant * list Z :=
  match u with
  | ch :: r => if ch =? Rx.star then (Many, r) else if ch =? Rx.question then (Optional, r) else if ch =? Rx.plus then (AtLeastOnce, r) else (Once, u)
  | [] => (Once, u)
  end.

Definition refState (u : list Z) : string + (RState * list Z) :=
  match refSet u with
  | inl m => inl m
  | inr (s, u) => let '(q, u) := refQuant u in inr (quantified q s, u)
  end.

Fixpoint refParse (fuel : nat) (u : list Z) : string + list RState :=
  match u, fuel with
  | [], _ => inr []
  | _, O => inl ""%string
  | _, S fuel =>
      match refState u with
      | inl m => inl m
      | inr (st, u) => match refParse fuel u with inl m => inl m | inr sts => inr (st :: sts) end
      end
  end.

(** ** The code is the parser on lists *)

(** Units of patterns: no zero, which is the terminator, and not U+FFFF, at which the loop over
    a range does not end. *)
Definition isUnits (u : list Z) : Prop := Forall (λ c, 0 < c < 0xFFFF) u.

(** The array being filled, if there is one, of which [total] elements are. *)
Definition outArray (total : option nat) (done : list Z) : option (list Z) :=
  match total with Some t => Some (done ++ replicate (t - length done) 0) | None => None end.

Definition fits (total : option nat) (n : nat) : Prop := match total with Some t => (n ≤ t)%nat | None => True end.

Lemma put_spec total done ch : fits total (S (length done)) → zlen done + 1 < 2 ^ 32 →
  RSet.put (outArray total done) (zlen done) ch = Ret (outArray total (done ++ [ch]), zlen (done ++ [ch])).
Proof.
  intros Hf Hz. unfold RSet.put, outArray. pose proof (zlen_nonneg done).
  assert (E : u32 (zlen done + 1) = zlen (done ++ [ch])) by (rewrite zlen_app; change (zlen [ch]) with 1; apply u32_small; unfold is_u32; lia).
  destruct total as [t|]; [|by rewrite E]. unfold fits in Hf. rewrite aset_in by (rewrite zlen_app, zlen_replicate; unfold zlen; lia).
  cbn. rewrite E. unfold insert, list_insertZ. rewrite decide_True by lia. unfold zlen at 1. rewrite Nat2Z.id.
  replace (t - length done)%nat with (S (t - length (done ++ [ch])))%nat by (rewrite length_app; cbn; lia).
  cbn [replicate]. rewrite insert_app_r_alt by done. rewrite Nat.sub_diag. cbn. by rewrite <- app_assoc.
Qed.

Lemma rangeLoop_spec total to : to < 0xFFFF → ∀ fuel i done, 0 ≤ i → (Z.to_nat (to + 1 - i) < fuel)%nat →
  fits total (length done + length (seqZ i (to + 1 - i))) → zlen done + zlen (seqZ i (to + 1 - i)) < 2 ^ 32 →
  RSet.rangeLoop fuel i to (outArray total done) (zlen done) =
    Ret (outArray total (done ++ seqZ i (to + 1 - i)), zlen (done ++ seqZ i (to + 1 - i))).
Proof.
  intros Hto. induction fuel as [|fuel IH]; intros i done Hi Hf Hfit Hz; [lia|]. cbn [RSet.rangeLoop].
  destruct (Z.leb_spec i to) as [Hle|Hgt]; [|by rewrite seqZ_nil, app_nil_r by lia].
  assert (Es : seqZ i (to + 1 - i) = i :: seqZ (i + 1) (to + 1 - (i + 1))) by (rewrite seqZ_cons by lia; do 2 f_equal; lia).
  rewrite Es in *. unfold zlen in Hz. cbn [length] in *.
  rewrite put_spec; [|by destruct total; cbn in *; lia|unfold zlen; lia]. cbn [mbind outcome_bind].
  unfold u16. rewrite Z.mod_small by lia. rewrite IH; [by rewrite <- app_assoc|lia|lia| |].
  - rewrite length_app. destruct total; cbn in *; lia.
  - unfold zlen. rewrite length_app. cbn. lia.
Qed.

Section pattern.
Context (u : list Z) (Hu : isUnits u) (Hlen : zlen u ≤ 2 ^ 15).

(** Where a rest of the pattern starts. *)
Definition posOf (rest : list Z) : Z := zlen u - zlen rest.

Notation rests r := (r `suffix_of` u).

Lemma rests_tail c r : rests (c :: r) → rests r.
Proof. intros [k E]. exists (k ++ [c]). by rewrite <- app_assoc. Qed.

Lemma rests_ch c r : rests (c :: r) → 0 < c < 0xFFFF.
Proof. intros [k E]. unfold isUnits in Hu. rewrite E in Hu. by apply Forall_app in Hu as [_ [Hc _]%Forall_cons]. Qed.

Lemma posOf_bounds r : rests r → 0 ≤ posOf r ≤ zlen u.
Proof. intros [k E]. unfold posOf. apply (f_equal zlen) in E. rewrite zlen_app in E. pose proof (zlen_nonneg k). pose proof (zlen_nonneg r). lia. Qed.

Lemma get_at c r : rests (c :: r) → aget (u ++ [0]) (posOf (c :: r)) = Ret c.
Proof.
  intros [k E]. apply aget_Some. unfold posOf. rewrite E at 1. rewrite zlen_app. replace (zlen k + zlen (c :: r) - zlen (c :: r)) with (zlen k) by lia.
  rewrite E. unfold zlen. rewrite lookupZ_nat, <- app_assoc. change ((c :: r) ++ [0]) with (c :: r ++ [0]). by apply list_lookup_middle.
Qed.

Lemma get_end : aget (u ++ [0]) (posOf []) = Ret 0.
Proof. apply aget_Some. unfold posOf, zlen. cbn. rewrite Z.sub_0_r, lookupZ_nat. by apply list_lookup_middle. Qed.

Lemma next_pos c r : rests (c :: r) → u32 (posOf (c :: r) + 1) = posOf r.
Proof.
  intros H. pose proof (posOf_bounds _ (rests_tail _ _ H)). unfold posOf in *. rewrite zlen_cons. rewrite u32_small; [lia|]. unfold is_u32. lia.
Qed.

Lemma before_end c r : (posOf (c :: r) <? zlen u) = true.
Proof. apply Z.ltb_lt. unfold posOf. rewrite zlen_cons. pose proof (zlen_nonneg r). lia. Qed.

Lemma at_end : (posOf [] <? zlen u) = false.
Proof. apply Z.ltb_ge. unfold posOf, zlen. cbn. lia. Qed.

Lemma throw_eq {A} m : throwRegex (A := A) (u ++ [0]) m = Throw (RegexError u m).
Proof.
  unfold throwRegex. rewrite fromCStr_eq; [|by eapply Forall_impl; [exact Hu|cbn; lia]|lia]. cbn. do 2 f_equal.
  unfold Str.body, strData. cbn. rewrite length_app. cbn. by rewrite Nat.add_sub, take_app_length.
Qed.

(** The last character, as the code has it. *)
Definition lastIs (last : option Z) (lastCh : Z) (hasLast : bool) : Prop :=
  match last with Some l => lastCh = l ∧ hasLast = true ∧ 0 < l < 0xFFFF | None => hasLast = false end.

Lemma fits_le total n m : fits total m → (n ≤ m)%nat → fits total n.
Proof. destruct total; cbn; lia. Qed.

Lemma seqZ_zlen i n : zlen (seqZ i n) = Z.max 0 n.
Proof. unfold zlen. rewrite length_seqZ. lia. Qed.

(** The loop of the code on [rest] does what the parser on lists does. *)
Definition groupOk (total : option nat) (done : list Z) (ref : string + (list Z * list Z)) (m : outcome (Z * option (list Z) * Z)) : Prop :=
  match ref with
  | inl e => total = None → m = Throw (RegexError u e)
  | inr (cs, r) => fits total (length done + length cs) → rests r ∧ m = Ret (posOf r, outArray total (done ++ cs), zlen (done ++ cs))
  end.

(** After more characters. *)
Lemma groupOk_put total done cs ref m :
  groupOk total (done ++ cs) ref m → groupOk total done match ref with inl e => inl e | inr (cs', r) => inr (cs ++ cs', r) end m.
Proof.
  unfold groupOk. destruct ref as [e|[cs' r]]; [done|]. rewrite <- app_assoc, !length_app. intros H Hf. apply H. by rewrite <- Nat.add_assoc.
Qed.

(** Characters are put before the rest if there is an array that fits them. *)
Lemma groupOk_bind total done cs ref (m1 : outcome (option (list Z) * Z)) (f : option (list Z) * Z → outcome (Z * option (list Z) * Z)) :
  (fits total (length done + length cs) → m1 = Ret (outArray total (done ++ cs), zlen (done ++ cs))) →
  groupOk total (done ++ cs) ref (f (outArray total (done ++ cs), zlen (done ++ cs))) →
  groupOk total done match ref with inl e => inl e | inr (cs', r) => inr (cs ++ cs', r) end (m1 ≫= f).
Proof.
  intros H1 H2. apply groupOk_put. destruct ref as [e|[cs' r]]; cbn in *.
  - intros ->. rewrite H1 by done. by apply H2.
  - intros Hf. rewrite length_app in *. rewrite H1 by (eapply fits_le; [exact Hf|lia]). by apply H2.
Qed.

Lemma groupLoop_spec total fuel : ∀ rest last lastCh hasLast done, rests rest → (length rest < fuel)%nat → lastIs last lastCh hasLast →
  zlen done + 2 ^ 16 * zlen rest < 2 ^ 32 →
  groupOk total done (refGroup rest last) (RSet.groupLoop fuel (u ++ [0]) (zlen u) (posOf rest) (outArray total done) (zlen done) lastCh hasLast).
Proof.
  induction fuel as [|fuel IH]; intros rest last lastCh hasLast done Hr Hf Hl Hz; [lia|].
  assert (Hput : ∀ ch r, rests r → (length r < fuel)%nat → 0 < ch < 0xFFFF → zlen done + 1 + 2 ^ 16 * zlen r < 2 ^ 32 →
    groupOk total done match refGroup r (Some ch) with inl e => inl e | inr (cs', r) => inr (ch :: cs', r) end
      ('(out, c) ← RSet.put (outArray total done) (zlen done) ch; RSet.groupLoop fuel (u ++ [0]) (zlen u) (posOf r) out c ch true)).
  { intros ch r Hr' Hf' Hch Hz'. apply (groupOk_bind total done [ch]).
    - intros Hfit. apply put_spec; [eapply fits_le; [exact Hfit|cbn; lia]|pose proof (zlen_nonneg r); lia].
    - apply IH; [done|done|done|]. rewrite zlen_app. change (zlen [ch]) with 1. lia. }
  destruct rest as [|ch rest]; cbn [refGroup RSet.groupLoop].
  { intros _. rewrite at_end. cbn. split; [done|]. by rewrite app_nil_r. }
  rewrite before_end, (get_at _ _ Hr). cbn [mbind outcome_bind]. pose proof (rests_ch _ _ Hr) as Hch. pose proof (rests_tail _ _ Hr) as Hr1.
  rewrite (next_pos _ _ Hr). rewrite zlen_cons in Hz. cbn [length] in Hf.
  destruct (Z.eqb_spec ch Rx.close) as [E1|E1]; cbn [negb].
  { intros _. split; [done|]. by rewrite app_nil_r. }
  cbn [mbind outcome_bind].
  destruct (Z.eqb_spec ch Rx.backslash) as [E2|E2]; [|destruct (Z.eqb_spec ch Rx.dash) as [E3|E3]].
  - destruct rest as [|x rest].
    + rewrite at_end. cbn in Hf, Hz. apply (Hput Rx.backslash [] Hr1); [cbn; lia|unfold Rx.backslash; lia|unfold zlen in *; cbn; lia].
    + rewrite before_end, (get_at _ _ Hr1), (next_pos _ _ Hr1). cbn [mbind outcome_bind]. rewrite zlen_cons in Hz. cbn in Hf.
      apply Hput; [by eapply rests_tail|lia|by eapply rests_ch|lia].
  - destruct last as [l|]; cbn in Hl; [|subst hasLast; intros _; by rewrite throw_eq]. destruct Hl as (-> & -> & Hl). cbn [negb].
    destruct rest as [|b rest]; [rewrite get_end; cbn; intros _; by rewrite throw_eq|].
    rewrite (get_at _ _ Hr1), (next_pos _ _ Hr1). cbn [mbind outcome_bind]. pose proof (rests_ch _ _ Hr1) as Hb.
    rewrite (proj2 (Z.eqb_neq b 0)) by lia. cbn [orb]. destruct (Z.eqb_spec b Rx.close); [intros _; by rewrite throw_eq|].
    rewrite zlen_cons in Hz. cbn in Hf. replace (b - l) with (b + 1 - (l + 1)) by lia. unfold u16. rewrite Z.mod_small by lia.
    apply groupOk_bind.
    + intros Hfit. apply rangeLoop_spec; [lia|lia| |done|].
      * unfold RSet.rangeFuel. lia.
      * rewrite seqZ_zlen. pose proof (zlen_nonneg rest). lia.
    + apply IH; [by eapply rests_tail|lia|done|]. rewrite zlen_app, seqZ_zlen. lia.
  - apply Hput; [done|lia|done|lia].
Qed.
(** Both passes over a group. *)
Lemma parseGroupInto_spec total rest : rests rest →
  match refGroup rest None with
  | inl e => total = None → RSet.parseGroupInto (u ++ [0]) (zlen u) (posOf rest) (outArray total []) = Throw (RegexError u e)
  | inr (cs, r) => fits total (length cs) → RSet.parseGroupInto (u ++ [0]) (zlen u) (posOf rest) (outArray total []) =
      match r with
      | [] => Throw (RegexError u "Missing ] to end the capture group.")
      | _ :: r' => Ret (posOf r', outArray total cs, zlen cs)
      end
  end.
Proof.
  intros Hr. unfold RSet.parseGroupInto. pose proof (posOf_bounds _ Hr) as Hp.
  assert (Hg := groupLoop_spec total (S (length (u ++ [0]))) rest None 0 false [] Hr). cbn [length] in Hg.
  assert (Hl : zlen rest ≤ zlen u) by (unfold posOf in Hp; lia).
  specialize (Hg ltac:(rewrite length_app; unfold zlen in Hl; lia) eq_refl ltac:(change (zlen (@nil Z)) with 0; lia)).
  change (zlen (@nil Z)) with 0 in Hg. unfold groupOk in Hg. destruct (refGroup rest None) as [e|[cs r]]; [by intros Ht; rewrite Hg|].
  intros Hf. destruct Hg as [Hr' ->]; [exact Hf|]. cbn [mbind outcome_bind app]. destruct r as [|c r'].
  - rewrite (proj2 (Z.leb_le _ _)), throw_eq; [done|]. unfold posOf. change (zlen (@nil Z)) with 0. lia.
  - rewrite Z.leb_antisym, before_end, (next_pos _ _ Hr'). done.
Qed.

Lemma parseGroup_spec rest : rests rest →
  RSet.parseGroup (u ++ [0]) (zlen u) (posOf rest) =
  match (match rest with c :: u' => if c =? Rx.caret then refGroupSet true u' else refGroupSet false rest | [] => refGroupSet false rest end) with
  | inl e => Throw (RegexError u e)
  | inr (s, r) => Ret (s, posOf r)
  end.
Proof.
  intros Hr. unfold RSet.parseGroup.
  assert (Hmain : ∀ inv r, rests r → (
    '(_, _, count) ← RSet.parseGroupInto (u ++ [0]) (zlen u) (posOf r) None;
    '(pos, out, _) ← RSet.parseGroupInto (u ++ [0]) (zlen u) (posOf r) (Some (replicate (Z.to_nat count) 0));
    if count =? 1 then f ← match out with Some v => aget v 0 | None => Fault end; Ret (RSet.mkSet None f inv, pos)
    else Ret (RSet.mkSet out RSet.EMPTY inv, pos)) =
    match refGroupSet inv r with inl e => Throw (RegexError u e) | inr (s, r) => Ret (s, posOf r) end).
  { clear rest Hr. intros inv rest Hr. unfold refGroupSet. pose proof (parseGroupInto_spec None rest Hr) as H1.
    destruct (refGroup rest None) as [e|[cs r]] eqn:E; [cbn [outArray] in H1; by rewrite H1|]. cbn [outArray] in H1. rewrite H1 by done.
    destruct r as [|c r]; [done|]. cbn [mbind outcome_bind].
    pose proof (parseGroupInto_spec (Some (length cs)) rest Hr) as H2. rewrite E in H2. cbn [outArray app length] in H2.
    replace (Z.to_nat (zlen cs)) with (length cs) by (unfold zlen; lia). rewrite Nat.sub_0_r in H2. rewrite H2 by (cbn; lia). cbn [mbind outcome_bind]. rewrite Nat.sub_diag, app_nil_r.
    destruct cs as [|x [|y cs]]; [done|done|]. rewrite (proj2 (Z.eqb_neq _ _)); [done|]. unfold zlen. cbn. lia. }
  destruct rest as [|c rest]; [rewrite get_end; exact (Hmain false [] Hr)|]. rewrite (get_at _ _ Hr). cbn [mbind outcome_bind].
  destruct (c =? Rx.caret); [rewrite (next_pos _ _ Hr); apply Hmain; by eapply rests_tail|by apply Hmain].
Qed.

Lemma parseSet_spec c rest : rests (c :: rest) →
  RSet.parse (u ++ [0]) (zlen u) (posOf (c :: rest)) =
  match refSet (c :: rest) with inl e => Throw (RegexError u e) | inr (s, r) => Ret (s, posOf r) end.
Proof.
  intros Hr. unfold RSet.parse. rewrite (get_at _ _ Hr). cbn [mbind outcome_bind refSet]. rewrite (next_pos _ _ Hr). pose proof (rests_tail _ _ Hr) as Hr'.
  destruct (c =? Rx.backslash).
  - destruct rest as [|d rest]; [rewrite at_end; apply throw_eq|]. rewrite before_end, (get_at _ _ Hr'), (next_pos _ _ Hr'). done.
  - destruct (c =? Rx.open); [|by destruct (c =? Rx.dot)]. rewrite parseGroup_spec by done.
    destruct rest as [|d rest]; [done|]. by destruct (d =? Rx.caret).
Qed.
End pattern.

(** ** The parser on lists accepts the grammar *)

Definition dashText (to : option Z) : list Z := match to with Some b => [Rx.dash; b] | None => [] end.
Definition dashChars (last to : option Z) : list Z :=
  match last, to with Some l, Some b => seqZ (l + 1) (b - l) | _, _ => [] end.

(** A group that ends: maybe the rest of a range, and items. *)
Lemma refGroup_sound n : ∀ u last cs x r, (length u ≤ n)%nat → refGroup u last = inr (cs, x :: r) →
  x = Rx.close ∧ ∃ ob items, forallb okItem items = true ∧ match ob with Some b => b ≠ Rx.close ∧ is_Some last | None => True end ∧
    u = dashText ob ++ concat (itemText <$> items) ++ Rx.close :: r ∧ cs = dashChars last ob ++ concat (itemChars <$> items).
Proof.
  assert (Hitem : ∀ esc ch ob items l r cs, okItem (Item esc ch None) = true →
    forallb okItem items = true → match ob with Some b => b ≠ Rx.close ∧ is_Some (Some ch) | None => True end →
    cs = dashChars (Some ch) ob ++ concat (itemChars <$> items) →
    ∃ ob' items', forallb okItem items' = true ∧ match ob' with Some b => b ≠ Rx.close ∧ is_Some l | None => True end ∧
      (if esc : bool then [Rx.backslash; ch] else [ch]) ++ dashText ob ++ concat (itemText <$> items) ++ r =
        dashText ob' ++ concat (itemText <$> items') ++ r ∧ ch :: cs = dashChars l ob' ++ concat (itemChars <$> items')).
  { intros esc ch ob items l r cs Hok Hi Hob ->. exists None, (Item esc ch ob :: items). split_and!; [|done| |by destruct l].
    - cbn [forallb]. rewrite Hi, andb_true_r. unfold okItem in *. cbn in *. rewrite andb_true_r in Hok. rewrite Hok. cbn.
      destruct ob as [b|]; [|done]. by rewrite (proj2 (Z.eqb_neq _ _)) by apply Hob.
    - cbn. unfold itemText at 2. cbn. by rewrite <- !app_assoc. }
  induction n as [|n IH]; intros [|ch u] last cs x r Hn E; cbn in Hn; try lia; cbn [refGroup] in E; try done.
  destruct (Z.eqb_spec ch Rx.close) as [->|Hc].
  { injection E as <- <- <-. split; [done|]. exists None, []. split_and!; [done|done|done|by destruct last]. }
  destruct (Z.eqb_spec ch Rx.backslash) as [->|Hb]; [|destruct (Z.eqb_spec ch Rx.dash) as [->|Hd]].
  - destruct u as [|y u]; [done|]. destruct (refGroup u (Some y)) as [|[cs' r']] eqn:E'; [done|]. injection E as <- ->.
    apply IH in E' as (-> & ob & items & Hi & Hob & -> & Hcs); [|cbn in Hn; lia]. split; [done|].
    apply (Hitem true y); [done|done|done|done].
  - destruct last as [l|]; [|done]. destruct u as [|b u]; [done|]. destruct (Z.eqb_spec b Rx.close); [done|].
    destruct (refGroup u None) as [|[cs' r']] eqn:E'; [done|]. injection E as <- ->.
    apply IH in E' as (-> & [ob|] & items & Hi & Hob & -> & ->); [| |cbn in Hn; lia].
    { by destruct Hob as [_ [? ?]]. }
    split; [done|]. exists (Some b), items. split_and!; [done|done|by eauto|done|done].
  - destruct (refGroup u (Some ch)) as [|[cs' r']] eqn:E'; [done|]. injection E as <- ->.
    apply IH in E' as (-> & ob & items & Hi & Hob & -> & Hcs); [|lia]. split; [done|].
    apply (Hitem false ch); [|done|done|done]. unfold okItem. cbn.
    by rewrite (proj2 (Z.eqb_neq _ _) Hc), (proj2 (Z.eqb_neq _ _) Hb), (proj2 (Z.eqb_neq _ _) Hd).
Qed.

Lemma refGroup_complete items r : ∀ last, forallb okItem items = true →
  refGroup (concat (itemText <$> items) ++ Rx.close :: r) last = inr (concat (itemChars <$> items), Rx.close :: r).
Proof.
  induction items as [|[esc ch ob] items IH]; intros last Hok; cbn [fmap list_fmap concat app]; [done|].
  cbn [forallb] in Hok. apply andb_true_iff in Hok as [Hi Hok]. specialize (λ last, IH last Hok).
  unfold okItem in Hi. cbn in Hi. apply andb_true_iff in Hi as [Hc Hb].
  assert (Hdash : refGroup (dashText ob ++ concat (itemText <$> items) ++ Rx.close :: r) (Some ch) =
    inr (dashChars (Some ch) ob ++ concat (itemChars <$> items), Rx.close :: r)).
  { destruct ob as [b|]; cbn [dashText app]; [|apply IH]. cbn. apply negb_true_iff in Hb. rewrite Hb. unfold fmap in IH. by rewrite IH. }
  unfold itemText at 1. cbn [escaped from upTo]. change (match ob with Some b => [Rx.dash; b] | None => [] end) with (dashText ob).
  unfold itemChars at 1. cbn [from upTo]. rewrite <- !app_assoc. destruct esc; cbn [app refGroup].
  - cbn [Z.eqb]. change (Rx.backslash =? Rx.close) with false. change (Rx.backslash =? Rx.backslash) with true. cbn iota.
    rewrite Hdash. by destruct ob.
  - cbn in Hc. apply negb_true_iff in Hc. apply orb_false_iff in Hc as [H1 Hc]. apply orb_false_iff in Hc as [H2 Hc]. apply orb_false_iff in Hc as [H3 _].
    rewrite H1, H2, H3, Hdash. by destruct ob.
Qed.

Lemma caret_head items r : startsCaret items = false → forallb okItem items = true →
  match concat (itemText <$> items) ++ Rx.close :: r with c :: _ => (c =? Rx.caret) = false | [] => True end.
Proof.
  destruct items as [|[[] ch ob] items]; cbn; [done|done|]. by destruct (ch =? Rx.caret).
Qed.

Lemma startsCaret_false items r : match concat (itemText <$> items) ++ Rx.close :: r with c :: _ => (c =? Rx.caret) = false | [] => True end →
  startsCaret items = false.
Proof. destruct items as [|[[] ch ob] items]; cbn; done. Qed.

Lemma refGroupSet_sound inv u s r : refGroupSet inv u = inr (s, r) →
  ∃ items, forallb okItem items = true ∧ u = concat (itemText <$> items) ++ Rx.close :: r ∧ s = groupSet inv (concat (itemChars <$> items)).
Proof.
  unfold refGroupSet. destruct (refGroup u None) as [e|[cs [|x r']]] eqn:E; [done|done|]. intros [= <- <-].
  apply (refGroup_sound (length u)) in E as (-> & [b|] & items & Hi & Hob & -> & ->); [by destruct Hob as [_ [? ?]]| |done]. eauto.
Qed.

Lemma refGroupSet_complete inv items r : forallb okItem items = true →
  refGroupSet inv (concat (itemText <$> items) ++ Rx.close :: r) = inr (groupSet inv (concat (itemChars <$> items)), r).
Proof. intros Hi. unfold refGroupSet. by rewrite refGroup_complete. Qed.

Lemma refSet_sound u s r : refSet u = inr (s, r) → ∃ a, okAtom a = true ∧ u = atomText a ++ r ∧ s = atomSet a.
Proof.
  unfold refSet. destruct u as [|ch u]; [done|]. destruct (Z.eqb_spec ch Rx.backslash) as [->|Hb].
  { destruct u as [|c u]; [done|]. intros [= <- <-]. by exists (Chr true c). }
  assert (Hgroup : ∀ inv v, refGroupSet inv v = inr (s, r) → (inv = false → match v with c :: _ => (c =? Rx.caret) = false | [] => True end) →
    ∃ a, okAtom a = true ∧ Rx.open :: (if inv then [Rx.caret] else []) ++ v = atomText a ++ r ∧ s = atomSet a).
  { intros inv v Hg Hh. apply refGroupSet_sound in Hg as (items & Hi & -> & ->). exists (Group inv items). cbn. rewrite Hi. split_and!; [| |done].
    - destruct inv; [done|]. by rewrite (startsCaret_false items r (Hh eq_refl)).
    - by rewrite <- !app_assoc. }
  destruct (Z.eqb_spec ch Rx.open) as [->|Ho].
  { destruct u as [|c u]; [intros H; by apply Hgroup in H|]. destruct (Z.eqb_spec c Rx.caret) as [->|Hc]; intros H.
    - by apply (Hgroup true u) in H.
    - apply (Hgroup false (c :: u)) in H; [done|]. intros _. by apply Z.eqb_neq. }
  destruct (Z.eqb_spec ch Rx.dot) as [->|Hd]; intros [= <- <-]; [by exists Any|].
  exists (Chr false ch). cbn. by rewrite (proj2 (Z.eqb_neq _ _) Hb), (proj2 (Z.eqb_neq _ _) Ho), (proj2 (Z.eqb_neq _ _) Hd).
Qed.

Lemma refSet_complete a r : okAtom a = true → refSet (atomText a ++ r) = inr (atomSet a, r).
Proof.
  destruct a as [[] c| |inv items]; cbn [okAtom atomText]; intros Hok; [done| |done|].
  - cbn in Hok. apply negb_true_iff in Hok. apply orb_false_iff in Hok as [H1 Hok]. apply orb_false_iff in Hok as [H2 Hok]. apply orb_false_iff in Hok as [H3 _].
    cbn. by rewrite H1, H2, H3.
  - apply andb_true_iff in Hok as [Hi Hs]. cbn [app refSet]. change (Rx.open =? Rx.backslash) with false. change (Rx.open =? Rx.open) with true. cbn iota.
    rewrite <- !app_assoc. cbn [app]. destruct inv; cbn [app].
    + change (Rx.caret =? Rx.caret) with true. cbn iota. by apply refGroupSet_complete.
    + cbn in Hs. apply negb_true_iff in Hs. pose proof (caret_head items r Hs Hi) as Hh. cbn [atomSet]. rewrite <- (refGroupSet_complete false items r Hi).
      destruct (concat (itemText <$> items) ++ Rx.close :: r) as [|c v]; [done|]. by rewrite Hh.
Qed.

Lemma refState_sound u st r : refState u = inr (st, r) → ∃ a q, okAtom a = true ∧ u = pieceText (a, q) ++ r ∧ st = quantified q (atomSet a) ∧
  match q, r with Once, c :: _ => isQuant c = false | _, _ => True end.
Proof.
  unfold refState. destruct (refSet u) as [e|[s v]] eqn:E; [done|]. apply refSet_sound in E as (a & Ha & -> & ->).
  assert (Hq : v = quantText (refQuant v).1 ++ (refQuant v).2 ∧ match (refQuant v).1, (refQuant v).2 with Once, c :: _ => isQuant c = false | _, _ => True end).
  { destruct v as [|c v]; [done|]. unfold isQuant. cbn. destruct (Z.eqb_spec c Rx.star) as [->|H1]; [done|]. destruct (Z.eqb_spec c Rx.question) as [->|H2]; [done|].
    destruct (Z.eqb_spec c Rx.plus) as [->|H3]; [done|]. cbn. split; [done|].
    by rewrite (proj2 (Z.eqb_neq _ _) H1), (proj2 (Z.eqb_neq _ _) H2), (proj2 (Z.eqb_neq _ _) H3). }
  destruct (refQuant v) as [q v'] eqn:Eq. cbn in Hq. destruct Hq as [-> Hq]. intros [= <- <-]. exists a, q. split_and!; [done| |done|done].
  unfold pieceText. cbn. by rewrite <- app_assoc.
Qed.

Lemma refState_complete a q r : okAtom a = true → match q, r with Once, c :: _ => isQuant c = false | _, _ => True end →
  refState (pieceText (a, q) ++ r) = inr (quantified q (atomSet a), r).
Proof.
  intros Ha Hq. unfold refState, pieceText. cbn [fst snd]. rewrite <- app_assoc, refSet_complete by done.
  replace (refQuant (quantText q ++ r)) with (q, r); [done|]. destruct q; [|done|done|done]. destruct r as [|c r]; [done|].
  unfold isQuant in Hq. cbn in Hq. apply orb_false_iff in Hq as [H1 Hq]. apply orb_false_iff in Hq as [H2 Hq]. apply orb_false_iff in Hq as [H3 _].
  cbn. by rewrite H1, H2, H3.
Qed.

(** Where the next piece could be taken for a quantifier. *)
Lemma startsQuant_head ps : match patternText ps with c :: _ => isQuant c | [] => false end = startsQuant ps.
Proof. destruct ps as [|[[[] c| |inv items] q] ps]; done. Qed.

Lemma pieceText_length p : (0 < length (pieceText p))%nat.
Proof. destruct p as [[[] c| |inv items] q]; cbn; lia. Qed.

Lemma refParse_sound fuel : ∀ u sts, refParse fuel u = inr sts → ∃ ps, okPattern ps = true ∧ u = patternText ps ∧ sts = compile ps.
Proof.
  induction fuel as [|fuel IH]; intros [|c u] sts E; cbn [refParse] in E; try done; try (injection E as <-; by exists []).
  destruct (refState (c :: u)) as [e|[st r]] eqn:Es; [done|]. destruct (refParse fuel r) as [e|sts'] eqn:Er; [done|]. injection E as <-.
  apply refState_sound in Es as (a & q & Ha & -> & -> & Hq). apply IH in Er as (ps & Hps & -> & ->).
  exists ((a, q) :: ps). split_and!; [|done|done]. cbn. rewrite Ha, Hps. cbn. rewrite andb_true_r. destruct q; try done.
  rewrite <- startsQuant_head. by destruct (patternText ps); [|rewrite Hq].
Qed.

Lemma refParse_complete ps : ∀ fuel, okPattern ps = true → (length (patternText ps) ≤ fuel)%nat → refParse fuel (patternText ps) = inr (compile ps).
Proof.
  induction ps as [|[a q] ps IH]; intros fuel Hok Hf; [by destruct fuel|]. cbn [okPattern] in Hok.
  apply andb_true_iff in Hok as [[Ha Hq]%andb_true_iff Hok]. change (patternText ((a, q) :: ps)) with (pieceText (a, q) ++ patternText ps) in *.
  rewrite length_app in Hf. pose proof (pieceText_length (a, q)) as Hp. destruct fuel as [|fuel]; [lia|].
  pose proof (refState_complete a q (patternText ps) Ha) as Hs. specialize (Hs ltac:(destruct q; try done;
    apply negb_true_iff in Hq; rewrite <- startsQuant_head in Hq; by destruct (patternText ps))).
  destruct (pieceText (a, q) ++ patternText ps) as [|c v] eqn:E.
  { apply (f_equal length) in E. rewrite length_app in E. cbn in E. lia. }
  cbn [refParse]. rewrite Hs, IH by (done || lia). done.
Qed.

(** ** The constructor *)

Section constructor.
Context (u : list Z) (Hu : isUnits u) (Hlen : zlen u ≤ 2 ^ 15).

Notation rests r := (r `suffix_of` u).

Lemma parseState_spec c rest : rests (c :: rest) →
  RState.parse (u ++ [0]) (zlen u) (posOf u (c :: rest)) =
  match refState (c :: rest) with inl e => Throw (RegexError u e) | inr (s, r) => Ret (s, posOf u r) end.
Proof.
  intros Hr. unfold RState.parse, refState. rewrite (parseSet_spec u Hu Hlen _ _ Hr).
  destruct (refSet (c :: rest)) as [e|[s v]] eqn:E; [done|]. apply refSet_sound in E as (a & _ & E & _).
  assert (Hv : rests v). { rewrite E in Hr. destruct Hr as [k Ek]. exists (k ++ atomText a). by rewrite <- app_assoc. }
  cbn [mbind outcome_bind]. destruct v as [|q v]; [by rewrite at_end|]. rewrite before_end, (get_at u _ _ Hv). cbn [mbind outcome_bind refQuant].
  rewrite (next_pos u Hlen _ _ Hv). by destruct (q =? Rx.star), (q =? Rx.question), (q =? Rx.plus).
Qed.

Lemma parseLoop_spec fuel : ∀ f rest tmp flags, rests rest → (length rest < fuel)%nat → (length rest ≤ f)%nat →
  Regex.parseLoop fuel (u ++ [0]) (zlen u) (posOf u rest) tmp flags =
  match refParse f rest with inl e => Throw (RegexError u e) | inr sts => Ret (tmp ++ sts, foldl Regex.updateFlags flags sts) end.
Proof.
  induction fuel as [|fuel IH]; intros f rest tmp flags Hr Hf1 Hf2; [lia|]. cbn [Regex.parseLoop].
  destruct rest as [|c rest]; [rewrite at_end; destruct f; cbn; by rewrite app_nil_r|]. rewrite before_end. destruct f as [|f]; [cbn in Hf2; lia|].
  rewrite (parseState_spec _ _ Hr). cbn [refParse]. destruct (refState (c :: rest)) as [e|[st r]] eqn:E; [done|]. cbn [mbind outcome_bind].
  apply refState_sound in E as (a & q & _ & E & _). pose proof (pieceText_length (a, q)).
  assert (Hl : length (c :: rest) = (length (pieceText (a, q)) + length r)%nat) by (rewrite E; apply length_app).
  rewrite (IH f) by (lia || (rewrite E in Hr; destruct Hr as [k Ek]; exists (k ++ pieceText (a, q)); by rewrite <- app_assoc)).
  destruct (refParse f r) as [e|sts]; [done|]. cbn. by rewrite <- app_assoc.
Qed.

Lemma parse_ref : Regex.parse (strData u) =
  match refParse (length u) u with inl e => Throw (RegexError u e) | inr sts => Ret (Regex.mkRegex sts (foldl Regex.updateFlags Regex.fSimple sts)) end.
Proof.
  unfold Regex.parse. replace (Str.charCount (strData u)) with (zlen u).
  2:{ unfold Str.charCount, scount, strData. cbn. rewrite zlen_term, u32_small; [lia|]. pose proof (zlen_nonneg u). unfold is_u32. lia. }
  cbn [strData units]. assert (E : posOf u u = 0) by (unfold posOf; lia).
  assert (Hp := parseLoop_spec (S (length (u ++ [0]))) (length u) u [] Regex.fSimple). rewrite E in Hp.
  rewrite Hp by (done || (rewrite length_app; cbn; lia)). by destruct (refParse (length u) u).
Qed.
End constructor.

(** C19: [Regex(pattern)] returns for exactly the texts of the grammar of patterns, and then with
    the states and the flags the pattern means; for all other texts it throws a [RegexError]
    with the text.  It never reads outside of the pattern, and the second pass over a group
    fills exactly the array the first one measured. *)
Theorem regex_parse u : isUnits u → zlen u ≤ 2 ^ 15 →
  (∀ r, Regex.parse (strData u) = Ret r ↔ ∃ ps, okPattern ps = true ∧ patternText ps = u ∧ r = compiled ps) ∧
  ((∃ r, Regex.parse (strData u) = Ret r) ∨ ∃ msg, Regex.parse (strData u) = Throw (RegexError u msg)).
Proof.
  intros Hu Hlen. rewrite (parse_ref u Hu Hlen). split.
  - intros r. split.
    + destruct (refParse (length u) u) as [e|sts] eqn:E; [done|]. intros [= <-]. apply refParse_sound in E as (ps & Hok & -> & ->). by exists ps.
    + intros (ps & Hok & <- & ->). by rewrite refParse_complete.
  - destruct (refParse (length u) u); eauto.
Qed.

Lemma regex_parse_witness :
  let u := [97; Rx.open; 98; Rx.dash; 100; Rx.close; Rx.star] in
  (∀ r, Regex.parse (strData u) = Ret r ↔ ∃ ps, okPattern ps = true ∧ patternText ps = u ∧ r = compiled ps) ∧
  ((∃ r, Regex.parse (strData u) = Ret r) ∨ ∃ msg, Regex.parse (strData u) = Throw (RegexError u msg)).
Proof.
  apply (regex_parse [97; Rx.open; 98; Rx.dash; 100; Rx.close; Rx.star]); [|vm_compute; discriminate].
  repeat constructor; vm_compute; reflexivity.
Defined.
