(* ===== verification/RegexCorrect.v ===== *)
(** * Regular expressions match the language of their pattern

    What the constructor and the matchers of [Regex] do together: the longest match of the
    language of the pattern, for strings and for buffers, and where the code fails. *)

From stdpp Require Import base list numbers decidable option strings.
From Stdlib Require Import ZArith Lia.
From S2P Require Import Prelude Utf Buffer Str StrIter StrBuf StrStream Regex UtfCorrect ConvertCorrect StrCorrect StrIterCorrect StrBufCorrect RegexMatchCorrect RegexParseCorrect.

Import RState.

(** ** The states of a pattern have its language *)

Lemma existsb_iff (c : Z) l : existsb (Z.eqb c) l = true ↔ c ∈ l.
Proof.
  induction l as [|x l IH]; cbn; [split; [done|by intros ?%not_elem_of_nil]|]. rewrite orb_true_iff, IH, elem_of_cons, Z.eqb_eq. done.
Qed.

Lemma itemChars_iff i c : c ∈ itemChars i ↔ inItem i c.
Proof.
  unfold itemChars, inItem. rewrite elem_of_cons. destruct (upTo i) as [b|].
  - rewrite elem_of_seqZ. split; [intros [->|H]; [by left|right; exists b; split; [done|lia]]|].
    intros [->|(b' & [= <-] & H)]; [by left|right; lia].
  - split; [intros [->|H]; [by left|by apply not_elem_of_nil in H]|intros [->|(b & H & _)]; [by left|done]].
Qed.

Lemma groupChars_iff items c : c ∈ concat (itemChars <$> items) ↔ Exists (λ i, inItem i c) items.
Proof.
  induction items as [|i items IH].
  - split; [by intros ?%not_elem_of_nil|by intros ?%Exists_nil].
  - rewrite fmap_cons. cbn [concat]. by rewrite elem_of_app, itemChars_iff, Exists_cons, IH.
Qed.

Lemma groupSet_contains inv cs c : c ≠ RSet.EMPTY → RSet.contains (groupSet inv cs) c = if inv then negb (bool_decide (c ∈ cs)) else bool_decide (c ∈ cs).
Proof.
  intros Hc. assert (E : existsb (Z.eqb c) cs = bool_decide (c ∈ cs)).
  { case_bool_decide as Hd; [by apply existsb_iff|]. apply not_true_is_false. by rewrite existsb_iff. }
  rewrite <- E. unfold groupSet, RSet.contains. apply Z.eqb_neq in Hc.
  destruct cs as [|x [|y cs]]; cbn [RSet.chars RSet.first RSet.inverted]; rewrite ?Hc.
  - by destruct inv.
  - cbn. rewrite orb_false_r. by destruct (c =? x), inv.
  - by destruct (existsb _ _), inv.
Qed.

Lemma atomSet_contains a c : c ≠ RSet.EMPTY → RSet.contains (atomSet a) c = true ↔ inAtom a c.
Proof.
  intros Hc. destruct a as [esc x| |inv items]; cbn [atomSet inAtom].
  - unfold RSet.contains, RSet.single. cbn. rewrite <- Z.eqb_eq. by destruct (c =? x).
  - unfold RSet.contains, RSet.all. cbn. apply Z.eqb_neq in Hc. by rewrite Hc.
  - rewrite groupSet_contains by done. destruct inv; rewrite ?negb_true_iff, ?bool_decide_eq_false, ?bool_decide_eq_true, groupChars_iff; done.
Qed.

Lemma one_times a q w : RSet.EMPTY ∉ w → one (quantified q (atomSet a)) w ↔ Forall (inAtom a) w ∧ times q (length w).
Proof.
  intros Hw. unfold one. assert (E : match_ (quantified q (atomSet a)) = atomSet a) by by destruct q. rewrite E.
  assert (Hf : Forall (λ c, RSet.contains (atomSet a) c = true) w ↔ Forall (inAtom a) w).
  { rewrite !Forall_forall. split; intros H c Hc; specialize (H c Hc); (apply atomSet_contains; [intros ->; contradiction|done]). }
  rewrite Hf. destruct q; cbn; destruct w as [|x [|y w]]; cbn; intuition (lia || congruence || auto).
Qed.

Lemma matches_language ps w : RSet.EMPTY ∉ w → matches (compile ps) w ↔ language ps w.
Proof.
  revert w. induction ps as [|[a q] ps IH]; intros w Hw; cbn.
  - split; [intros ->; constructor|by inversion 1].
  - split.
    + intros (w1 & w2 & -> & H1 & H2). rewrite elem_of_app in Hw. apply one_times in H1 as [Hf Ht]; [|tauto]. constructor; [done|done|]. apply IH; [tauto|done].
    + inversion 1; subst. rewrite elem_of_app in Hw. eexists _, _. split; [done|]. split; [apply one_times; [tauto|done]|apply IH; [tauto|done]].
Qed.

(** The longest match in one language is that in the other. *)
Lemma longest_language ps v k : RSet.EMPTY ∉ v → longest (matches (compile ps)) v k → longest (language ps) v k.
Proof.
  intros Hv. assert (H : ∀ n, matches (compile ps) (take n v) ↔ language ps (take n v)).
  { intros n. apply matches_language. intros Hin. apply Hv. rewrite <- (take_drop n v), elem_of_app. by left. }
  destruct k as [k|]; cbn; setoid_rewrite H; done.
Qed.

(** ** What the constructor leaves *)

Lemma itemChars_length i : Forall (λ c, 0 ≤ c < 0xFFFF) (itemText i) → zlen (itemChars i) ≤ 2 ^ 16.
Proof.
  destruct i as [esc c ob]. intros H. unfold itemText, itemChars in *. cbn [escaped from upTo] in *.
  assert (Hob : match ob with Some b => b < 0xFFFF | None => True end ∧ 0 ≤ c).
  { apply Forall_app in H as [H1 H2]. split; [destruct ob; [|done]; by apply Forall_cons in H2 as [_ [[_ ?] _]%Forall_cons]|].
    destruct esc; [apply Forall_cons in H1 as [_ H1]|]; by apply Forall_cons in H1 as [[? _] _]. }
  rewrite zlen_cons. destruct ob as [b|]; [rewrite seqZ_zlen|change (zlen (@nil Z)) with 0]; lia.
Qed.

Lemma groupChars_length items : Forall (λ c, 0 ≤ c < 0xFFFF) (concat (itemText <$> items)) →
  zlen (concat (itemChars <$> items)) ≤ 2 ^ 16 * zlen (concat (itemText <$> items)).
Proof.
  induction items as [|i items IH]; [done|]. rewrite !fmap_cons. cbn [concat]. rewrite !zlen_app. intros [H1 H2]%Forall_app.
  specialize (IH H2). pose proof (itemChars_length i H1). assert (1 ≤ zlen (itemText i)) by (unfold itemText, zlen; destruct (escaped i); cbn; lia). lia.
Qed.

Lemma atomSet_wf bound a : 0 < bound ≤ 0xFFFF → Forall (λ c, 0 < c < bound) (atomText a) → zlen (atomText a) ≤ 2 ^ 15 → wfSet bound (atomSet a).
Proof.
  intros Hb Ht Hz. destruct a as [esc c| |inv items]; cbn [atomSet atomText] in *.
  - right. cbn. destruct esc; [apply Forall_cons in Ht as [_ Ht]|]; by apply Forall_cons in Ht as [? _].
  - by left.
  - apply Forall_cons in Ht as [_ Ht]. apply Forall_app in Ht as [_ Ht]. apply Forall_app in Ht as [Ht _].
    assert (Hl : zlen (concat (itemText <$> items)) ≤ 2 ^ 15).
    { rewrite zlen_cons, !zlen_app in Hz. pose proof (zlen_nonneg (if inv then [Rx.caret] else [])). pose proof (zlen_nonneg [Rx.close]). lia. }
    pose proof (groupChars_length items ltac:(eapply Forall_impl; [exact Ht|cbn; lia])) as Hc.
    unfold groupSet, wfSet. destruct (concat (itemChars <$> items)) as [|c [|d cs]] eqn:E; cbn [RSet.chars RSet.first].
    + split_and!; [done|done|done].
    + right. destruct items as [|i items]; [done|]. rewrite fmap_cons in E, Ht. cbn [concat] in *. unfold itemChars in E at 1. cbn in E. injection E as <- _.
      apply Forall_app in Ht as [Ht _]. unfold itemText in Ht. apply Forall_app in Ht as [Ht _].
      destruct (escaped i); [apply Forall_cons in Ht as [_ Ht]|]; by apply Forall_cons in Ht as [? _].
    + split_and!; [done|done|lia].
Qed.

Lemma compiled_wf bound ps : 0 < bound ≤ 0xFFFF → Forall (λ c, 0 < c < bound) (patternText ps) → zlen (patternText ps) ≤ 2 ^ 15 →
  wfRegex bound (compiled ps).
Proof.
  intros Hb Ht Hz. split; [|done]. cbn [compiled Regex.states]. induction ps as [|[a q] ps IH]; [constructor|].
  change (patternText ((a, q) :: ps)) with ((atomText a ++ quantText q) ++ patternText ps) in *. rewrite !zlen_app in Hz.
  pose proof (zlen_nonneg (quantText q)). pose proof (zlen_nonneg (patternText ps)). pose proof (zlen_nonneg (atomText a)).
  apply Forall_app in Ht as [Ht1 Ht2]. apply Forall_app in Ht1 as [Ht1 _]. cbn. constructor; [|apply IH; [done|lia]].
  replace (match_ (quantified q (atomSet a))) with (atomSet a) by by destruct q. apply atomSet_wf; [done|done|lia].
Qed.

Lemma compile_length ps : zlen (compile ps) ≤ zlen (patternText ps).
Proof.
  induction ps as [|p ps IH]; [done|]. change (patternText (p :: ps)) with (pieceText p ++ patternText ps). rewrite zlen_app.
  change (compile (p :: ps)) with (quantified (p.2) (atomSet (p.1)) :: compile ps). rewrite zlen_cons.
  pose proof (pieceText_length p). unfold zlen at 2. lia.
Qed.

(** ** Matching *)

(** The text of a pattern, of characters below [bound]. *)
Record isPattern (bound : Z) (ps : list piece) : Prop := {
  isPattern_ok : okPattern ps = true;
  isPattern_units : Forall (λ c, 0 < c < bound) (patternText ps);
  isPattern_length : zlen (patternText ps) ≤ 2 ^ 15;
}.

Lemma parse_compiled bound ps : bound ≤ 0xFFFF → isPattern bound ps → Regex.parse (strData (patternText ps)) = Ret (compiled ps).
Proof.
  intros Hb [Hok Hu Hl]. rewrite parse_ref; [|by eapply Forall_impl; [exact Hu|cbn; lia]|done]. by rewrite refParse_complete.
Qed.

(** [matchRaw] of the regular expression of a pattern. *)
Lemma pattern_match bound cast ps u tail start : 0 < bound ≤ 0xFFFF → isPattern bound ps → (∀ z, 0 ≤ z < bound → cast z = z) →
  Forall (λ c, 0 ≤ c < cast RSet.EMPTY) u → cast RSet.EMPTY ≤ RSet.EMPTY → zlen u < 2 ^ 32 - 1 → 0 ≤ start ≤ zlen u →
  ∃ k, Regex.matchRaw cast (compiled ps) (u ++ tail) (zlen u) start = Ret (result start k) ∧
    longest (language ps) (drop (Z.to_nat start) u) k.
Proof.
  intros Hb [Hok Hp Hl] Hcast Hu He Hz Hs.
  assert (He1 : RSet.EMPTY ∉ u). { intros Hin. apply (proj1 (Forall_forall _ _) Hu) in Hin. lia. }
  assert (He2 : cast RSet.EMPTY ∉ u). { intros Hin. apply (proj1 (Forall_forall _ _) Hu) in Hin. lia. }
  destruct (matchRaw_spec bound cast (compiled ps) u tail start) as (k & E & Hk); try done.
  - by apply compiled_wf.
  - pose proof (compile_length ps). cbn [compiled Regex.states]. lia.
  - exists k. split; [done|]. apply longest_language; [|done]. intros Hin. apply He1. rewrite <- (take_drop (Z.to_nat start) u), elem_of_app. by right.
Qed.

Lemma result_none start k v P : 0 ≤ start → start + zlen v < 2 ^ 32 - 1 → longest P v k →
  (result start k =? Regex.NO_MATCH) = match k with Some _ => false | None => true end.
Proof.
  intros Hs Hz Hk. destruct k as [k|]; [|done]. destruct Hk as [Hk _]. apply Z.eqb_neq. unfold result, Regex.NO_MATCH, zlen in *. lia.
Qed.

(** The longest match is everything exactly if everything matches. *)
Lemma longest_all P v k : longest P v k → match k with Some n => n = length v | None => False end ↔ P v.
Proof.
  destruct k as [k|]; cbn.
  - intros (Hk & Hp & Hmax). split; [intros ->; by rewrite take_ge in Hp by lia|]. intros Hv.
    specialize (Hmax (length v)). rewrite take_ge in Hmax by lia. specialize (Hmax ltac:(lia) Hv). lia.
  - intros H. split; [done|]. intros Hv. apply (H (length v)); [lia|]. by rewrite take_ge by lia.
Qed.

Lemma matches_empty sts : forallb skippable sts = true ↔ matches sts [].
Proof. induction sts as [|st sts IH]; [done|]. cbn [forallb]. by rewrite andb_true_iff, matches_nil, IH. Qed.

(** C18: The constructor accepts every pattern of the grammar, and at every position of a string
    [match] returns the end of the longest prefix in the language of the pattern, or nothing
    if there is none, whichever of the three matchers the flags select; [matchAll] is true
    exactly if all of the rest is in the language, and [matchesEmpty] if the empty string is. *)
Theorem regex_match ps s u start : isPattern 0xFFFF ps → units (sdata s) = u ++ [0] → Forall (λ c, 0 ≤ c < 0xFFFF) u →
  zlen u < 2 ^ 32 - 1 → 0 ≤ start ≤ zlen u →
  ∃ r k all, Regex.parse (strData (patternText ps)) = Ret r ∧
    longest (language ps) (drop (Z.to_nat start) u) k ∧
    Regex.matchFrom r s (StrParts.posIter s start) = Ret ((λ n : nat, StrParts.posIter s (start + Z.of_nat n)) <$> k) ∧
    Regex.matchAllFrom r s (StrParts.posIter s start) = Ret all ∧ (all = true ↔ language ps (drop (Z.to_nat start) u)) ∧
    (Regex.matchesEmpty r = true ↔ language ps []).
Proof.
  intros Hp Hs Hu Hz Hst.
  destruct (pattern_match 0xFFFF u16 ps u [0] start) as (k & E & Hk); [lia|done|intros z Hz'; apply Z.mod_small; lia|exact Hu|by vm_compute|done|done|].
  assert (Ec : Str.charCount (sdata s) = zlen u).
  { unfold Str.charCount, scount. rewrite Hs, zlen_term, u32_small; [lia|]. pose proof (zlen_nonneg u). unfold is_u32. lia. }
  assert (Hd : start + zlen (drop (Z.to_nat start) u) = zlen u) by (unfold zlen in *; rewrite length_drop; lia).
  assert (En := result_none start k (drop (Z.to_nat start) u) _ ltac:(lia) ltac:(lia) Hk).
  exists (compiled ps), k, match k with Some n => bool_decide (n = length (drop (Z.to_nat start) u)) | None => false end.
  split_and!; [by apply (parse_compiled 0xFFFF)|done| | | |].
  - unfold Regex.matchFrom, Regex.matchRawStr. cbn [Iter.pos StrParts.posIter]. rewrite Hs, Ec, E. cbn [mbind outcome_bind]. rewrite En. by destruct k.
  - unfold Regex.matchAllFrom, Regex.matchRawStr. cbn [Iter.pos StrParts.posIter]. rewrite Hs, Ec, E. cbn [mbind outcome_bind]. rewrite En. destruct k as [n|]; [|done].
    destruct Hk as [Hn _]. unfold Iter.eq, Iter.atEnd, scount. cbn [Iter.owner StrParts.posIter Iter.end_ Iter.pos result]. rewrite Hs, zlen_term, orb_true_r.
    assert (Hb : ∀ b, eqb b true = b) by (by intros []). rewrite Hb.
    rewrite u32_small by (unfold is_u32, zlen in *; lia). f_equal.
    case_bool_decide; [apply Z.eqb_eq|apply Z.eqb_neq]; unfold zlen in *; lia.
  - rewrite <- (longest_all _ _ _ Hk). destruct k; [by rewrite bool_decide_eq_true|done].
  - rewrite <- (matches_language ps []), <- matches_empty by apply not_elem_of_nil. done.
Qed.

Lemma regex_match_witness :
  let ps := [(Chr false 97, Many); (Group false [Item false 98 (Some 100)], AtLeastOnce); (Group true [Item false 98 None], Optional)] in
  let u := [120; 97; 97; 99; 98; 98] in let s := mkStrObj 7 (strData u) in
  ∃ r k all, Regex.parse (strData (patternText ps)) = Ret r ∧ longest (language ps) [97; 97; 99; 98; 98] k ∧
    Regex.matchFrom r s (StrParts.posIter s 1) = Ret ((λ n : nat, StrParts.posIter s (1 + Z.of_nat n)) <$> k) ∧
    Regex.matchAllFrom r s (StrParts.posIter s 1) = Ret all ∧ (all = true ↔ language ps [97; 97; 99; 98; 98]) ∧
    (Regex.matchesEmpty r = true ↔ language ps []).
Proof.
  apply (regex_match [(Chr false 97, Many); (Group false [Item false 98 (Some 100)], AtLeastOnce); (Group true [Item false 98 None], Optional)]
    (mkStrObj 7 (strData [120; 97; 97; 99; 98; 98])) [120; 97; 97; 99; 98; 98] 1); [split|reflexivity| |reflexivity|split; vm_compute; discriminate].
  - reflexivity.
  - repeat constructor; vm_compute; reflexivity.
  - vm_compute. discriminate.
  - repeat constructor; try (vm_compute; reflexivity); vm_compute; discriminate.
Defined.

(** In a buffer every byte is a character: if the pattern has only characters below 256,
    [match] and [matchAll] of a buffer are the longest match and a match of everything in the
    filled part, for buffers without the byte 0xFF. *)
Theorem regex_match_bytes ps l a h start u : isPattern 256 ps → h !! l = Some a → 0 ≤ gfilled a ≤ zlen (v a) → zlen (v a) < 2 ^ 32 - 1 →
  u = take (Z.to_nat (gfilled a)) (v a) → Forall (λ c, 0 ≤ c < 0xFF) u → 0 ≤ start ≤ zlen u →
  ∃ r k all, Regex.parse (strData (patternText ps)) = Ret r ∧
    longest (language ps) (drop (Z.to_nat start) u) k ∧
    Regex.matchBufferFrom r (Some l) start h = Ret ((λ n : nat, start + Z.of_nat n) <$> k, h) ∧
    Regex.matchAllBufferFrom r (Some l) start h = Ret (all, h) ∧ (all = true ↔ language ps (drop (Z.to_nat start) u)).
Proof.
  intros Hp Hl Hf Hz Eu Hu Hst.
  assert (Ef : zlen u = gfilled a) by (subst u; unfold zlen in *; rewrite length_take; lia).
  assert (Ev : v a = u ++ drop (Z.to_nat (gfilled a)) (v a)) by (subst u; by rewrite take_drop).
  destruct (pattern_match 256 u8 ps u (drop (Z.to_nat (gfilled a)) (v a)) start) as (k & E & Hk);
    [lia|done|intros z Hz'; apply Z.mod_small; lia|exact Hu|by vm_compute|lia|done|]. rewrite <- Ev, Ef in E.
  assert (Hd : start + zlen (drop (Z.to_nat start) u) = zlen u) by (unfold zlen in *; rewrite length_drop; lia).
  assert (En := result_none start k (drop (Z.to_nat start) u) _ ltac:(lia) ltac:(lia) Hk).
  assert (Ew : u32 (gfilled a) = gfilled a) by (apply u32_small; unfold is_u32; lia).
  exists (compiled ps), k, (result start k =? gfilled a).
  split_and!; [by apply (parse_compiled 256)|done| | |].
  - unfold Regex.matchBufferFrom, Regex.bufferData, Buffer.filled, load, lift, mbind, io_bind, mret, io_ret, outcome_bind.
    rewrite Hl. cbn [mbind outcome_bind]. rewrite Hl. cbn [mbind outcome_bind]. rewrite Ew, E. cbn [mbind outcome_bind]. rewrite En. by destruct k.
  - unfold Regex.matchAllBufferFrom, Regex.bufferData, Buffer.filled, load, lift, mbind, io_bind, mret, io_ret, outcome_bind.
    rewrite Hl. cbn [mbind outcome_bind]. rewrite Hl. cbn [mbind outcome_bind]. by rewrite Ew, E.
  - rewrite <- (longest_all _ _ _ Hk), Z.eqb_eq. destruct k as [n|]; cbn [result].
    + destruct Hk as [Hn _]. unfold zlen in *. lia.
    + unfold Regex.NO_MATCH. lia.
Qed.

Lemma regex_match_bytes_witness :
  let ps := [(Any, Many); (Chr true 46, Once)] in let a := mkGcBytes 3 [7; 46; 200; 46] in
  ∃ r k all, Regex.parse (strData (patternText ps)) = Ret r ∧ longest (language ps) [7; 46; 200] k ∧
    Regex.matchBufferFrom r (Some 0%nat) 0 [a] = Ret ((λ n : nat, 0 + Z.of_nat n) <$> k, [a]) ∧
    Regex.matchAllBufferFrom r (Some 0%nat) 0 [a] = Ret (all, [a]) ∧ (all = true ↔ language ps [7; 46; 200]).
Proof.
  apply (regex_match_bytes [(Any, Many); (Chr true 46, Once)] 0 (mkGcBytes 3 [7; 46; 200; 46]) [mkGcBytes 3 [7; 46; 200; 46]] 0 [7; 46; 200]);
    [split|reflexivity|split; vm_compute; discriminate|reflexivity|reflexivity| |split; vm_compute; discriminate].
  - reflexivity.
  - repeat constructor; vm_compute; reflexivity.
  - vm_compute. discriminate.
  - repeat constructor; try (vm_compute; reflexivity); vm_compute; discriminate.
Defined.

(** ** Literals *)

Definition firstOf (st : RState) : Z := RSet.first (match_ st).

(** A simple state is a single character. *)
Lemma simple_state bound st : wfSet bound (match_ st) → RState.simple st = true →
  unquantified st ∧ 0 < firstOf st < bound ∧ ∀ c, RSet.contains (match_ st) c = (c =? firstOf st).
Proof.
  unfold RState.simple, wfSet, unquantified, firstOf, RSet.contains, RSet.count. destruct st as [[cs f inv] [] []]; cbn; try done. intros Hw.
  destruct inv; cbn; [done|]. rewrite Z.eqb_eq. destruct cs as [l|].
  - destruct Hw as (_ & Hl & Hz). rewrite u32_small by (pose proof (zlen_nonneg l); unfold is_u32; lia). unfold zlen. lia.
  - destruct (Z.eqb_spec f RSet.EMPTY); [done|]. intros _. split_and!; [done|done|lia|lia|]. intros c. by destruct (c =? f).
Qed.

Lemma addChar_unit b u c : StrBufCorrect.simple b u → 0 < c < 0xD800 → zlen u + 2 ≤ 2 ^ 30 →
  returns (StrBuf.addChar b c) (λ b', StrBufCorrect.simple b' (u ++ [c])).
Proof.
  intros Hb Hc Hz. assert (E : enc16 c = [c]).
  { unfold enc16, utf16.split. rewrite (proj2 (Z.leb_gt _ _)) by lia. f_equal. apply Z.mod_small. lia. }
  rewrite <- E. apply simple_addChar; [done| |lia]. split; [unfold scalar; lia|lia].
Qed.

Lemma simpleStrLoop_spec sts : Forall (λ st, wfSet 0xD800 (match_ st)) sts → ∀ b u, StrBufCorrect.simple b u →
  zlen u + zlen sts < 2 ^ 30 →
  returns (Regex.simpleStrLoop sts b) (λ r, match r with
    | Some b' => forallb RState.simple sts = true ∧ StrBufCorrect.simple b' (u ++ (firstOf <$> sts))
    | None => forallb RState.simple sts = false end).
Proof.
  induction 1 as [|st sts Hw _ IH]; intros b u Hb Hz; cbn [Regex.simpleStrLoop forallb]; [by rewrite app_nil_r|]. rewrite zlen_cons in Hz.
  pose proof (zlen_nonneg sts). destruct (RState.simple st) eqn:E; [|done]. destruct (simple_state _ st Hw E) as (_ & Hf & _). cbn [negb andb].
  unfold u16. rewrite (Z.mod_small (RSet.first _)) by (unfold firstOf in Hf; lia).
  eapply returns_bind; [apply (addChar_unit b u (firstOf st) Hb); lia|]. intros b' Hb'. cbn in Hb'.
  eapply returns_mono; [apply (IH b' _ Hb'); rewrite zlen_app; change (zlen [firstOf st]) with 1; lia|].
  intros [b2|]; [|done]. rewrite <- app_assoc. done.
Qed.

Lemma matches_literal bound sts w : Forall (λ st, wfSet bound (match_ st)) sts → forallb RState.simple sts = true → matches sts w ↔ w = firstOf <$> sts.
Proof.
  intros Hw Hs. assert (Hu : Forall unquantified sts ∧ Forall (λ st, ∀ c, RSet.contains (match_ st) c = (c =? firstOf st)) sts).
  { induction Hw as [|st sts Hst _ IH]; [done|]. cbn [forallb] in Hs. apply andb_true_iff in Hs as [E Hs].
    destruct (simple_state _ st Hst E) as (H1 & _ & H2). destruct (IH Hs). split; by constructor. }
  destruct Hu as [Hu Hc]. rewrite matches_fixed by done. clear Hw Hs Hu. revert w. induction Hc as [|st sts Hc _ IH]; intros w.
  - split; [by intros ->%Forall2_nil_inv_l|intros ->; constructor].
  - split.
    + intros (c & w' & E & Hf & ->)%Forall2_cons_inv_l. rewrite Hc, Z.eqb_eq in E. cbn. f_equal; [done|by apply IH].
    + intros ->. cbn. constructor; [by rewrite Hc, Z.eqb_refl|by apply IH].
Qed.

Lemma simple_forallb sts : ∀ b, foldl (λ s st, s && RState.simple st) b sts = b && forallb RState.simple sts.
Proof. induction sts as [|st sts IH]; intros b; cbn; [by rewrite andb_true_r|]. by rewrite IH, andb_assoc. Qed.

(** [simple] tells whether [simpleStr] returns a string, and the language of the pattern then
    is that string alone, for patterns without surrogates. *)
Theorem regex_simple ps : isPattern 0xD800 ps →
  ∃ r w, Regex.parse (strData (patternText ps)) = Ret r ∧
    Regex.simpleStr r = Ret (if Regex.simple r then Some (strData w) else None) ∧
    (Regex.simple r = true → ∀ x, RSet.EMPTY ∉ x → language ps x ↔ x = w).
Proof.
  intros Hp. pose proof (isPattern_length _ _ Hp) as Hz. pose proof (compile_length ps).
  destruct (compiled_wf 0xD800 ps) as [Hw _]; [lia|apply Hp|done|].
  exists (compiled ps), (firstOf <$> compile ps). unfold Regex.simple. rewrite simple_forallb. cbn [andb compiled Regex.states] in *.
  split_and!; [by apply (parse_compiled 0xD800)| |].
  - unfold Regex.simpleStr. change (Regex.states (compiled ps)) with (compile ps).
    pose proof (simpleStrLoop_spec (compile ps) Hw StrBuf.new [] simple_new ltac:(change (zlen (@nil Z)) with 0; lia)) as Hs.
    apply returns_exists in Hs as ([b|] & -> & Hs); cbn [mbind outcome_bind].
    + destruct Hs as [-> Hs]. by rewrite (toS_eq _ _ (simple_rep _ _ Hs)).
    + by rewrite Hs.
  - intros Hs x Hx. rewrite <- matches_language by done. by apply (matches_literal 0xD800).
Qed.

Lemma regex_simple_witness :
  let ps := [(Chr true 46, Once); (Group false [Item false 97 None], Once)] in
  ∃ r w, Regex.parse (strData (patternText ps)) = Ret r ∧
    Regex.simpleStr r = Ret (if Regex.simple r then Some (strData w) else None) ∧
    (Regex.simple r = true → ∀ x, RSet.EMPTY ∉ x → language ps x ↔ x = w).
Proof.
  apply (regex_simple [(Chr true 46, Once); (Group false [Item false 97 None], Once)]). split; [reflexivity| |vm_compute; discriminate].
  repeat constructor; vm_compute; reflexivity.
Defined.

(** ** Where the code fails *)

(** A range up to U+FFFF never ends, as the counter wraps before it gets above. *)
Theorem regex_range_diverges fuel : ∀ i out c, is_u16 i → out = None → RSet.rangeLoop fuel i 0xFFFF out c = OutOfFuel.
Proof.
  induction fuel as [|fuel IH]; intros i out c Hi ->; [done|]. cbn [RSet.rangeLoop].
  rewrite (proj2 (Z.leb_le i 0xFFFF)) by (unfold is_u16 in Hi; lia). cbn. apply IH; [|done]. apply Z.mod_pos_bound. lia.
Qed.

(** Sets that differ in their last character are equal; the empty set matches U+FFFF; a
    character is truncated to a byte when a buffer is matched; from the end of a string the
    match starts at its beginning; [simpleStr] replaces surrogates; and the output of a set need
    not be a pattern of it. *)
Theorem regex_misses :
  let regex u := Regex.parse (strData u) in
  let str u := mkStrObj 7 (strData u) in
  let printed r := b ← Regex.toS r StrBuf.new; s ← StrBuf.toS b; Ret (Str.body s) in
  (a ← regex [Rx.open; 97; 98; Rx.close]; b ← regex [Rx.open; 97; 99; Rx.close]; Regex.eq a b) = Ret true ∧
  (r ← regex [Rx.open; Rx.close]; Regex.matchAll r (str [0xFFFF])) = Ret true ∧
  (r ← regex [0x141]; x ← Regex.matchAllBuffer r (Some 0%nat) [mkGcBytes 1 [0x41]]; Ret (x.1)) = Ret true ∧
  (r ← regex [97]; Regex.matchAllFrom r (str [97]) Iter.end_) = Ret true ∧
  (r ← regex [0xD83D; 0xDE00]; s ← Regex.simpleStr r; Ret (option_map Str.body s)) = Ret (Some [replacementChar; replacementChar]) ∧
  (r ← regex [Rx.open; 43; 44; 45; 46; Rx.close]; printed r) = Ret [Rx.open; Rx.backslash; 43; Rx.dash; Rx.backslash; 46; Rx.close] ∧
  (r ← regex [Rx.open; Rx.backslash; 43; Rx.dash; Rx.backslash; 46; Rx.close]; Regex.matchAll r (str [65])) = Ret true.
Proof. vm_compute. done. Qed.
