(* ===== verification/Production.v ===== *)
(** * Productions of a grammar

    [Compiler/Syntax/RepType.cpp], [Compiler/Syntax/Token.h] and the parts of
    [Compiler/Syntax/Production.h] and [Production.cpp] the parser uses: tokens, productions
    with a part that is optional or repeated, and iterators through them.  An object is
    compared by its address; rules are only their addresses. *)

From stdpp Require Import base list numbers decidable option strings.
From Stdlib Require Import ZArith Lia.
From S2P Require Import Prelude Regex.

(** ** Repetition *)

Module Rep.
Inductive RepType := repNone | repZeroOne | repOnePlus | repZeroPlus.

Definition skippable (r : RepType) : bool := match r with repZeroOne | repZeroPlus => true | _ => false end.
Definition repeatable (r : RepType) : bool := match r with repOnePlus | repZeroPlus => true | _ => false end.
End Rep.

(** ** Tokens *)

Inductive IndentType := indentNone | indentIncrease | indentDecrease | indentWeakIncrease | indentAlignBegin | indentAlignEnd.

#[export] Instance IndentType_eq_dec : EqDecision IndentType.
Proof. solve_decision. Defined.

(** What [type] distinguishes: a [DelimToken] is a [RuleToken] too. *)
Inductive TokenType :=
  | tRegex (regex : Regex.Regex)
  | tRule (rule : nat)
  | tDelim (rule : nat).

Record Token := mkToken { type : TokenType; color : Z }.

Definition asRule (t : Token) : option nat := match type t with tRule r | tDelim r => Some r | tRegex _ => None end.
Definition asDelim (t : Token) : bool := match type t with tDelim _ => true | _ => false end.
Definition asRegex (t : Token) : option Regex.Regex := match type t with tRegex r => Some r | _ => None end.

(** ** Productions *)

(** [rule] is what [rule()] returns, the rule of the owner if there is one. *)
Record Production := mkProduction {
  paddr : nat;
  rule : option nat;
  parent : option nat;
  tokens : list Token;
  priority : Z;
  repStart : Z;
  repEnd : Z;
  repType : Rep.RepType;
  indentStart : Z;
  indentEnd : Z;
  indentType : IndentType;
}.

(** [Production()], at the address [a]. *)
Definition newProduction (a : nat) (tokens : list Token) : Production :=
  mkProduction a None None tokens 0 0 0 Rep.repNone 0 0 indentNone.

Definition inRepeat (p : Production) (token : Z) : bool :=
  match repType p with Rep.repNone => false | _ => (repStart p <=? token) && (token <? repEnd p) end.

(** ** Iterators

    [None] is an iterator that is not [valid]. *)
Module PIter.

Record PIter := mkPIter { production : Production; pos : Z }.

Notation ProductionIter := (option PIter).

Definition valid (i : ProductionIter) : bool := match i with Some _ => true | None => false end.

Definition end_ (i : PIter) : bool := zlen (tokens (production i)) <=? pos i.

Definition firstA (p : Production) : ProductionIter := Some (mkPIter p 0).

Definition firstB (p : Production) : ProductionIter :=
  if (repStart p =? 0) && Rep.skippable (repType p) then Some (mkPIter p (repEnd p)) else None.

Definition posIter (p : Production) (pos : Z) : ProductionIter := Some (mkPIter p pos).

Definition nextA (i : PIter) : ProductionIter := Some (mkPIter (production i) (u32 (pos i + 1))).

Definition nextB (i : PIter) : ProductionIter :=
  let next := u32 (pos i + 1) in
  let p := production i in
  if next =? repStart p then if Rep.skippable (repType p) then Some (mkPIter p (repEnd p)) else None
  else if next =? repEnd p then if Rep.repeatable (repType p) then Some (mkPIter p (repStart p)) else None
  else None.

Definition eq (i o : PIter) : bool := (paddr (production i) =? paddr (production o))%nat && (pos i =? pos o).

Definition atRepStart (i : PIter) : bool := pos i =? repStart (production i).
Definition atRepEnd (i : PIter) : bool := pos i =? repEnd (production i).

Definition rule (i : PIter) : option nat := rule (production i).

Definition token (i : PIter) : option Token := if negb (end_ i) then tokens (production i) !! pos i else None.
End PIter.
