(* ===== verification/Earley.v ===== *)
(** * The Earley parser

    [Compiler/Syntax/Earley/State.h], [State.cpp], [Parser.h] and [Parser.cpp]: the sets of
    states, their order by priority, the predictor, the completer and the scanner, and the
    tree of the parse.  Pointers to states are positions in the steps of the parser.

    The rules are a finite map, which is what [Map] implements ([HashMapCorrect]).  The code
    keeps references to its values; [moves] says when an insertion moves the values of the
    table, and [moved] counts that, so that a write through an old reference is lost.

    The loops over a set have as fuel the number of states it may have; what compares states by
    following their pointers has the fuel [depth], a parameter of the parser. *)

From stdpp Require Import base list numbers decidable option strings gmap.
From Stdlib Require Import ZArith Lia.
From S2P Require Import Prelude Utf Str StrIter Regex Production.

(** ** States *)

Module StatePtr.
Record StatePtr := mkPtr { step : Z; index : Z }.

(** [StatePtr()] *)
Definition null : StatePtr := mkPtr (2 ^ 32 - 1) (2 ^ 32 - 1).

Definition eq (a b : StatePtr) : bool := (step a =? step b) && (index a =? index b).
End StatePtr.

Module State.
Import StatePtr.

Record State := mkState { pos : PIter.PIter; from : Z; prev : StatePtr; completed : StatePtr }.

Definition priority (s : State) : Z := priority (PIter.production (pos s)).
Definition production (s : State) : Production := PIter.production (pos s).
Definition getRule (s : State) : option nat := t ← PIter.token (pos s); asRule t.
Definition getRegex (s : State) : option Regex.Regex := t ← PIter.token (pos s); asRegex t.

(** [production() == p && pos.end()] *)
Definition finishes (s : State) (p : Production) : bool := (paddr (production s) =? paddr p)%nat && PIter.end_ (pos s).

(** [operator ==] *)
Definition eq (s o : State) : bool := PIter.eq (pos s) (pos o) && (from s =? from o).
End State.

(** ** Sets of states, in chunks that are never moved *)

Module StateSet.
Import State.

Definition chunkBits : Z := 5.
Definition chunkSize : Z := 32.
Definition chunkMask : Z := 31.

(** The array of chunks: its size, and the chunks there are, each up to [filled]. *)
Record Chunks := mkChunks { ccount : Z; cv : list (list State) }.

Record StateSet := mkStateSet { chunks : option Chunks }.

Definition new : StateSet := mkStateSet None.

Definition count (ss : StateSet) : Z :=
  match chunks ss with
  | None => 0
  | Some c =>
      if zlen (cv c) =? 0 then 0
      else
        let last := zlen (cv c) - 1 in
        match cv c !! last with Some chunk => u32 (last * chunkSize + zlen chunk) | None => 0 end
  end.

(** [operator []] *)
Definition get (ss : StateSet) (i : Z) : outcome State :=
  match chunks ss with
  | None => Fault
  | Some c => chunk ← aget (cv c) (Z.shiftr i chunkBits); aget chunk (Z.land i chunkMask)
  end.

(** [ensure(n)] *)
Definition ensure (ss : StateSet) (n : Z) : StateSet :=
  let c := match chunks ss with
           | Some c => if ccount c <? n then mkChunks (Z.max n (2 * ccount c)) (cv c) else c
           | None => mkChunks (Z.max n 1) []
           end in
  mkStateSet (Some (mkChunks (ccount c) (cv c ++ replicate (Z.to_nat (n - zlen (cv c))) []))).

(** The search of [push]: the chunk and the index of a state that is equal, and the state. *)
Fixpoint findInChunk (chunk : list State) (s : State) (i : Z) : option (Z * State) :=
  match chunk with
  | [] => None
  | old :: chunk => if eq old s then Some (i, old) else findInChunk chunk s (i + 1)
  end.

Fixpoint findState (cs : list (list State)) (s : State) (c : Z) : option (Z * Z * State) :=
  match cs with
  | [] => None
  | chunk :: cs => match findInChunk chunk s 0 with Some (i, old) => Some (c, i, old) | None => findState cs s (c + 1) end
  end.

Definition find (ss : StateSet) (s : State) : option (Z * Z * State) :=
  match chunks ss with Some c => findState (cv c) s 0 | None => None end.

(** [chunk->v[i] = s] *)
Definition replace (ss : StateSet) (c i : Z) (s : State) : outcome StateSet :=
  match chunks ss with
  | None => Fault
  | Some ch =>
      chunk ← aget (cv ch) c; chunk ← aset chunk i s; l ← aset (cv ch) c chunk;
      Ret (mkStateSet (Some (mkChunks (ccount ch) l)))
  end.

(** The end of [push]: add a state after all others. *)
Definition append (ss : StateSet) (s : State) : outcome StateSet :=
  let ss := match chunks ss with None => ensure ss 1 | Some _ => ss end in
  match chunks ss with
  | None => Fault
  | Some c =>
      last ← aget (cv c) (zlen (cv c) - 1);
      let ss := if chunkSize <=? zlen last then ensure ss (zlen (cv c) + 1) else ss in
      match chunks ss with
      | None => Fault
      | Some c =>
          last ← aget (cv c) (zlen (cv c) - 1);
          l ← aset (cv c) (zlen (cv c) - 1) (last ++ [s]);
          Ret (mkStateSet (Some (mkChunks (ccount c) l)))
      end
  end.
End StateSet.

(** ** The parser *)

Module Earley.
Import StatePtr State.

(** [matchesNull]: 0 is no, 1 is yes, 2 is not known. *)
Record RuleInfo := mkRuleInfo { productions : option (list Production); matchesNull : Z }.
Definition newInfo : RuleInfo := mkRuleInfo None 2.

(** [RuleInfo::push] *)
Definition pushInfo (i : RuleInfo) (p : Production) : RuleInfo :=
  mkRuleInfo (Some (default [] (productions i) ++ [p])) (matchesNull i).

Record Rules := mkRules { table : gmap nat RuleInfo; moved : nat }.

Record Parser := mkParser {
  rules : Rules;
  src : option StrObj;
  srcOffset : Z;
  rootProd : Production;
  steps : option (list StateSet.StateSet);
  lastFinish : Z;
}.

Definition setRules (P : Parser) (R : Rules) : Parser := mkParser R (src P) (srcOffset P) (rootProd P) (steps P) (lastFinish P).

Definition getSet (P : Parser) (i : Z) : outcome StateSet.StateSet :=
  match steps P with Some l => aget l i | None => Fault end.

Definition setSet (P : Parser) (i : Z) (ss : StateSet.StateSet) : outcome Parser :=
  match steps P with
  | Some l => l ← aset l i ss; Ret (mkParser (rules P) (src P) (srcOffset P) (rootProd P) (Some l) (lastFinish P))
  | None => Fault
  end.

(** [Parser::state] *)
Definition state (P : Parser) (ptr : StatePtr) : outcome State := ss ← getSet P (step ptr); StateSet.get ss (index ptr).

(** *** The order of states *)

Inductive Order := before | after | none.

(** [prevCompleted]: the states that completed those before [at], first to last. *)
Fixpoint prevCompleted (fuel : nat) (P : Parser) (at_ : State) (to : list StatePtr) : outcome (list StatePtr) :=
  match fuel with
  | O => OutOfFuel
  | S fuel =>
      if StatePtr.eq (prev at_) null then Ret to
      else p ← state P (prev at_); prevCompleted fuel P p (completed at_ :: to)
  end.

(** The end of [execOrder]: the first difference, and otherwise the longer one first. *)
Fixpoint compareStates (order : StatePtr → StatePtr → outcome Order) (a b : list StatePtr) : outcome Order :=
  match a, b with
  | x :: a, y :: b => o ← order x y; match o with none => compareStates order a b | _ => Ret o end
  | _ :: _, [] => Ret before
  | [], _ :: _ => Ret after
  | [], [] => Ret none
  end.

Fixpoint execOrder (fuel : nat) (P : Parser) (a b : State) : outcome Order :=
  match fuel with
  | O => OutOfFuel
  | S fuel' =>
      if negb (priority a =? priority b) then Ret (if priority b <? priority a then before else after)
      else if negb (paddr (production a) =? paddr (production b))%nat then Ret none
      else
        aStates ← prevCompleted fuel P a [];
        bStates ← prevCompleted fuel P b [];
        compareStates (λ aPtr bPtr,
          if StatePtr.eq aPtr null || StatePtr.eq bPtr null then Ret none
          else if StatePtr.eq aPtr bPtr then Ret none
          else x ← state P aPtr; y ← state P bPtr; execOrder fuel' P x y) aStates bStates
  end.

(** [StateSet::push(Parser *, const State &)] for the set [step] of the parser *)
Definition pushState (depth : nat) (P : Parser) (step : Z) (s : State) : outcome Parser :=
  ss ← getSet P step;
  match StateSet.find ss s with
  | Some (c, i, old) =>
      o ← execOrder depth P s old;
      match o with before => ss ← StateSet.replace ss c i s; setSet P step ss | _ => Ret P end
  | None => ss ← StateSet.append ss s; setSet P step ss
  end.

(** The other [push]: nothing for an invalid iterator. *)
Definition push (depth : nat) (P : Parser) (step : Z) (pos : option PIter.PIter) (from : Z) (prev completed : StatePtr) : outcome Parser :=
  match pos with None => Ret P | Some pos => pushState depth P step (mkState pos from prev completed) end.

(** *** Rules *)

Section parser.
(** Whether adding the key to the table moves its values. *)
Context (moves : gmap nat RuleInfo → nat → bool).

(** [rules->at(rule)], which adds an entry if there is none. *)
Definition atRule (R : Rules) (r : nat) : Rules * RuleInfo :=
  match table R !! r with
  | Some i => (R, i)
  | None => (mkRules (<[r := newInfo]> (table R)) (if moves (table R) r then S (moved R) else moved R), newInfo)
  end.

(** [info.matchesNull = x] through a reference from the time [at_]. *)
Definition setNull (R : Rules) (r : nat) (at_ : nat) (x : Z) : Rules :=
  if (moved R =? at_)%nat then mkRules (alter (λ i, mkRuleInfo (productions i) x) r (table R)) (moved R) else R.

(** [add(Rule * )] and [add(ProductionType * )], for a production of the rule [owner] *)
Definition addRule (P : Parser) (r : nat) : Parser := setRules P (atRule (rules P) r).1.

Definition addProduction (P : Parser) (owner : nat) (p : Production) : outcome Parser :=
  match parent p with
  | Some _ => Throw (SyntaxError "Using parent productions is not supported by the Earley parser.")
  | None =>
      let '(R, i) := atRule (rules P) owner in
      Ret (setRules P (mkRules (<[owner := pushInfo i p]> (table R)) (moved R)))
  end.

(** The static functions [find] and [compare]; productions are compared by their addresses. *)
Definition findProduction (item : Production) (in_ : list Production) : bool := existsb (λ p, paddr p =? paddr item)%nat in_.

Definition compareProductions (a b : option (list Production)) : bool :=
  let a := default [] a in let b := default [] b in
  if negb (length a =? length b)%nat then false else forallb (λ p, findProduction p b) a.

(** [sameSyntax], for two parsers of the same type *)
Definition sameSyntax (P o : Parser) : bool :=
  let ours := table (rules P) in let theirs := table (rules o) in
  if negb (forallb (λ x : nat * RuleInfo, compareProductions (productions (x.2)) (productions (default newInfo (theirs !! x.1)))) (map_to_list ours)) then false
  else forallb (λ x : nat * RuleInfo,
    if bool_decide (is_Some (ours !! x.1)) then true
    else negb (0 <? length (default [] (productions (x.2))))%nat) (map_to_list theirs).

(** [stateCount] *)
Definition stateCount (P : Parser) : Z :=
  match steps P with None => 0 | Some l => foldl (λ r ss, u32 (r + StateSet.count ss)) 0 l end.

(** [pick] *)
Definition pick (a b : option PIter.PIter) : option PIter.PIter :=
  match b with
  | None => a
  | Some y => match a with None => b | Some x => if PIter.pos x <? PIter.pos y then b else a end
  end.

Section empty.
Context (emptyRule : Rules → nat → outcome (Rules * bool)).

(** [matchesEmpty(Token * )] *)
Definition emptyToken (R : Rules) (t : Token) : outcome (Rules * bool) :=
  match type t with
  | tRegex r => m ← Regex.matchRawStr r Str.new 0; Ret (R, negb (m =? Regex.NO_MATCH))
  | tRule r | tDelim r => emptyRule R r
  end.

(** [matchesEmpty(Production * )] *)
Fixpoint emptyLoop (fuel : nat) (R : Rules) (pos : option PIter.PIter) : outcome (Rules * bool) :=
  match fuel with
  | O => OutOfFuel
  | S fuel =>
      match pos with
      | None => Ret (R, true)
      | Some i =>
          match PIter.token i with
          | None => Ret (R, true)
          | Some t =>
              '(R, e) ← emptyToken R t;
              if negb e then Ret (R, false) else emptyLoop fuel R (pick (PIter.nextA i) (PIter.nextB i))
          end
      end
  end.

Definition emptyProduction (R : Rules) (p : Production) : outcome (Rules * bool) :=
  emptyLoop (S (S (length (tokens p)))) R (pick (PIter.firstA p) (PIter.firstB p)).

Fixpoint emptyAny (R : Rules) (ps : list Production) : outcome (Rules * bool) :=
  match ps with
  | [] => Ret (R, false)
  | p :: ps => '(R, e) ← emptyProduction R p; if e : bool then Ret (R, true) else emptyAny R ps
  end.
End empty.

(** [matchesEmpty(Rule * )] and [matchesEmpty(RuleInfo & )] *)
Fixpoint matchesEmpty (fuel : nat) (R : Rules) (r : nat) : outcome (Rules * bool) :=
  match fuel with
  | O => OutOfFuel
  | S fuel =>
      let '(R, info) := atRule R r in
      if matchesNull info <? 2 then Ret (R, negb (matchesNull info =? 0))
      else
        let ref := moved R in
        let R := setNull R r ref 1 in
        '(R, match_) ← emptyAny (matchesEmpty fuel) R (default [] (productions info));
        Ret (setNull R r ref (if match_ : bool then 1 else 0), match_)
  end.

(** All productions, and the rules their tokens ask for. *)
Definition allProductions (t : gmap nat RuleInfo) : list Production :=
  concat ((λ x : nat * option (list Production), default [] (x.2)) <$> map_to_list (productions <$> t)).

Definition tokenCount (ps : list Production) : nat := sum_list ((λ p, S (length (tokens p))) <$> ps).

(** Each rule is entered once, and is asked for by a token or by the parser. *)
Definition emptyFuel (R : Rules) : nat := S (S (tokenCount (allProductions (table R)))).

(** *** Predictor, completer and scanner *)

Context (depth : nat).

Fixpoint predictLoop (P : Parser) (step : Z) (ps : list Production) : outcome Parser :=
  match ps with
  | [] => Ret P
  | p :: ps =>
      P ← push depth P step (PIter.firstA p) step null null;
      P ← push depth P step (PIter.firstB p) step null null;
      predictLoop P step ps
  end.

(** The loop for rules that may be empty, over the states before [s]. *)
Fixpoint nullLoop (fuel : nat) (P : Parser) (ptr : StatePtr) (s : State) (r : nat) (i : Z) : outcome Parser :=
  match fuel with
  | O => OutOfFuel
  | S fuel =>
      ss ← getSet P (step ptr);
      now ← StateSet.get ss i;
      if negb (State.eq now s) && (i <? StateSet.count ss) then
        if negb (PIter.end_ (pos now)) then nullLoop fuel P ptr s r (i + 1)
        else if negb (from now =? step ptr) then nullLoop fuel P ptr s r (i + 1)
        else if negb (bool_decide (PIter.rule (pos now) = Some r)) then nullLoop fuel P ptr s r (i + 1)
        else
          P ← push depth P (step ptr) (PIter.nextA (pos s)) (from s) ptr (mkPtr (step ptr) i);
          P ← push depth P (step ptr) (PIter.nextB (pos s)) (from s) ptr (mkPtr (step ptr) i);
          nullLoop fuel P ptr s r (i + 1)
      else Ret P
  end.

Definition predictor (P : Parser) (ptr : StatePtr) (s : State) : outcome Parser :=
  match getRule s with
  | None => Ret P
  | Some r =>
      let '(R, info) := atRule (rules P) r in
      P ← predictLoop (setRules P R) (step ptr) (default [] (productions info));
      '(R, e) ← matchesEmpty (emptyFuel (rules P)) (rules P) r;
      let P := setRules P R in
      if e : bool then nullLoop (S (S (Z.to_nat (index ptr)))) P ptr s r 0 else Ret P
  end.

Fixpoint completeLoop (fuel : nat) (P : Parser) (ptr : StatePtr) (c : State) (i : Z) : outcome Parser :=
  match fuel with
  | O => OutOfFuel
  | S fuel =>
      ss ← getSet P (from c);
      if i <? StateSet.count ss then
        s ← StateSet.get ss i;
        match getRule s with
        | None => completeLoop fuel P ptr c (i + 1)
        | Some r =>
            if negb (bool_decide (Some r = PIter.rule (pos c))) then completeLoop fuel P ptr c (i + 1)
            else
              let prevPtr := mkPtr (from c) i in
              P ← push depth P (step ptr) (PIter.nextA (pos s)) (from s) prevPtr ptr;
              P ← push depth P (step ptr) (PIter.nextB (pos s)) (from s) prevPtr ptr;
              completeLoop fuel P ptr c (i + 1)
        end
      else Ret P
  end.

(** The states a set may have: a position in a production and a step it started at. *)
Definition setFuel (P : Parser) (step : Z) : nat :=
  S (S ((tokenCount (rootProd P :: allProductions (table (rules P)))) * Z.to_nat (step + 1))).

Definition completer (P : Parser) (ptr : StatePtr) (s : State) : outcome Parser :=
  if negb (PIter.end_ (pos s)) then Ret P else completeLoop (setFuel P (step ptr)) P ptr s 0.

Definition scanner (P : Parser) (ptr : StatePtr) (s : State) : outcome Parser :=
  match getRegex s with
  | None => Ret P
  | Some r =>
      match src P, steps P with
      | Some str, Some l =>
          matched ← Regex.matchRawStr r (sdata str) (u32 (step ptr + srcOffset P));
          if matched =? Regex.NO_MATCH then Ret P
          else if matched <? srcOffset P then Ret P
          else
            let matched := matched - srcOffset P in
            if zlen l <? matched then Ret P
            else
              P ← push depth P matched (PIter.nextA (pos s)) (from s) ptr null;
              push depth P matched (PIter.nextB (pos s)) (from s) ptr null
      | _, _ => Fault
      end
  end.

(** *** Parsing *)

Fixpoint processLoop (fuel : nat) (P : Parser) (step i : Z) (seenFinish : bool) : outcome (Parser * bool) :=
  match fuel with
  | O => OutOfFuel
  | S fuel =>
      ss ← getSet P step;
      if i <? StateSet.count ss then
        let ptr := mkPtr step i in
        at_ ← StateSet.get ss i;
        P ← predictor P ptr at_;
        P ← completer P ptr at_;
        P ← scanner P ptr at_;
        processLoop fuel P step (i + 1) (seenFinish || finishes at_ (rootProd P))
      else Ret (P, seenFinish)
  end.

Definition process (P : Parser) (step : Z) : outcome (Parser * bool) := processLoop (setFuel P step) P step 0 false.

Fixpoint stepsLoop (n : nat) (P : Parser) (i : Z) : outcome Parser :=
  match n with
  | O => Ret P
  | S n =>
      '(P, seen) ← process P i;
      stepsLoop n (if seen : bool then mkParser (rules P) (src P) (srcOffset P) (rootProd P) (steps P) i else P) (i + 1)
  end.

(** [parse], with the new production for the root at the address [a] and the color of the
    rule. *)
Definition parse (P : Parser) (a : nat) (root : nat) (rootColor : Z) (str : StrObj) (start : Iter.Iter) : outcome (Parser * bool) :=
  let len := u32 (Str.charCount (sdata str) + 1 - Iter.pos start) in
  let P := mkParser (rules P) (Some str) (Iter.pos start) (newProduction a [mkToken (tRule root) rootColor])
    (Some (replicate (Z.to_nat len) StateSet.new)) (u32 (len + 1)) in
  P ← push depth P 0 (PIter.firstA (rootProd P)) 0 null null;
  P ← stepsLoop (Z.to_nat len) P 0;
  Ret (P, lastFinish P <? len).

Definition clear (P : Parser) : Parser := mkParser (rules P) None (srcOffset P) (rootProd P) None (lastFinish P).
End parser.

(** *** Results *)

Fixpoint finishLoop (n : nat) (ss : StateSet.StateSet) (rootProd : Production) (i : Z) : outcome (option State) :=
  match n with
  | O => Ret None
  | S n => s ← StateSet.get ss i; if finishes s rootProd then Ret (Some s) else finishLoop n ss rootProd (i + 1)
  end.

(** [finish] *)
Definition finish (P : Parser) : outcome (option State) :=
  match steps P with
  | None => Fault
  | Some l =>
      if zlen l <=? lastFinish P then Ret None
      else ss ← aget l (lastFinish P); finishLoop (Z.to_nat (StateSet.count ss)) ss (rootProd P) 0
  end.

Definition hasError (P : Parser) : outcome bool :=
  match steps P with
  | None => Ret true
  | Some l => if lastFinish P <? zlen l - 1 then Ret true else f ← finish P; Ret (match f with None => true | Some _ => false end)
  end.

Definition hasTree (P : Parser) : outcome bool := f ← finish P; Ret (match f with None => false | Some _ => true end).

Definition matchEnd (P : Parser) : outcome Iter.Iter :=
  f ← finish P;
  match src P with
  | None => Fault
  | Some str => Ret (match f with Some _ => StrParts.posIter str (u32 (srcOffset P + lastFinish P)) | None => StrParts.begin str end)
  end.

(** [lastStep]: the loop from the last set down to the second one. *)
Fixpoint lastStepLoop (i : nat) (l : list StateSet.StateSet) : outcome Z :=
  match i with
  | O => Ret 0
  | S i' => ss ← aget l (Z.of_nat i); if 0 <? StateSet.count ss then Ret (Z.of_nat i) else lastStepLoop i' l
  end.

Definition lastStep (P : Parser) : outcome Z :=
  match steps P with None => Fault | Some l => lastStepLoop (Z.to_nat (zlen l - 1)) l end.

(** [errorPos], without the file. *)
Definition errorPos (P : Parser) : outcome (Z * Z) :=
  l ← lastStep P; let step := u32 (srcOffset P + l) in Ret (step, u32 (step + 1)).

End Earley.
