(* ===== verification/ProductionCorrect.v ===== *)
(** * Productions and grammars

    What a production stands for and what its iterators go through, and what a grammar of
    productions derives. *)

From stdpp Require Import base list numbers decidable option strings.
From Stdlib Require Import ZArith Lia.
From S2P Require Import Prelude Regex RegexMatchCorrect Production.

(** * Iterators through productions

    The sequences of tokens the two successors of an iterator lead through are those of the
    production with its middle part left out or repeated as its kind of repetition allows. *)

(** What [ProductionDecl::pushRepStart] and [pushRepEnd] leave. *)
Record wfProduction (p : Production) : Prop := {
  wf_repStart : 0 ≤ repStart p ≤ repEnd p;
  wf_repEnd : repEnd p ≤ zlen (tokens p);
  wf_tokens : zlen (tokens p) < 2 ^ 32 - 1;
}.

(** ** What a production means *)

Definition repeats (r : Rep.RepType) (n : nat) : Prop :=
  match r with Rep.repNone => n = 1%nat | Rep.repZeroOne => (n ≤ 1)%nat | Rep.repOnePlus => (1 ≤ n)%nat | Rep.repZeroPlus => True end.

Definition repeated (p : Production) : list Token := drop (Z.to_nat (repStart p)) (take (Z.to_nat (repEnd p)) (tokens p)).

Definition expansion (p : Production) (ts : list Token) : Prop :=
  ∃ n, repeats (repType p) n ∧
    ts = take (Z.to_nat (repStart p)) (tokens p) ++ concat (replicate n (repeated p)) ++ drop (Z.to_nat (repEnd p)) (tokens p).

(** ** What the iterators go through *)

Definition first (p : Production) (pos : Z) : Prop := PIter.firstA p = Some (PIter.mkPIter p pos) ∨ PIter.firstB p = Some (PIter.mkPIter p pos).

Definition next (p : Production) (pos pos' : Z) : Prop :=
  PIter.nextA (PIter.mkPIter p pos) = Some (PIter.mkPIter p pos') ∨ PIter.nextB (PIter.mkPIter p pos) = Some (PIter.mkPIter p pos').

Inductive run (p : Production) : Z → list Token → Z → Prop :=
  | run_nil pos : run p pos [] pos
  | run_cons pos t pos1 ts pos2 : PIter.token (PIter.mkPIter p pos) = Some t → next p pos pos1 → run p pos1 ts pos2 → run p pos (t :: ts) pos2.

Lemma run_snoc p pos ts pos1 t pos2 : run p pos ts pos1 → PIter.token (PIter.mkPIter p pos1) = Some t → next p pos1 pos2 → run p pos (ts ++ [t]) pos2.
Proof. induction 1; intros Ht Hn; cbn; econstructor; eauto using run. Qed.

Section production.
Context (p : Production) (Hp : wfProduction p).

Notation len := (zlen (tokens p)).

Lemma token_at pos t : PIter.token (PIter.mkPIter p pos) = Some t ↔ tokens p !! pos = Some t.
Proof.
  unfold PIter.token, PIter.end_. cbn. destruct (Z.leb_spec len pos); [|done]. cbn. by rewrite lookupZ_ge_None.
Qed.

Lemma next_iff pos pos' : 0 ≤ pos < len → next p pos pos' ↔
  pos' = pos + 1 ∨ (pos + 1 = repStart p ∧ Rep.skippable (repType p) = true ∧ pos' = repEnd p) ∨
  (pos + 1 ≠ repStart p ∧ pos + 1 = repEnd p ∧ Rep.repeatable (repType p) = true ∧ pos' = repStart p).
Proof.
  intros Hpos. destruct Hp as [_ _ Ht]. unfold next, PIter.nextA, PIter.nextB. cbn. rewrite u32_small by (unfold is_u32; lia).
  destruct (Z.eqb_spec (pos + 1) (repStart p)), (Z.eqb_spec (pos + 1) (repEnd p)), (Rep.skippable (repType p)), (Rep.repeatable (repType p)); naive_solver.
Qed.

Lemma first_iff pos : first p pos ↔ pos = 0 ∨ (repStart p = 0 ∧ Rep.skippable (repType p) = true ∧ pos = repEnd p).
Proof.
  unfold first, PIter.firstA, PIter.firstB. destruct (Z.eqb_spec (repStart p) 0), (Rep.skippable (repType p)); cbn; naive_solver.
Qed.

Lemma next_bounds pos pos' : 0 ≤ pos < len → next p pos pos' → 0 ≤ pos' ≤ len.
Proof. intros H. rewrite next_iff by done. destruct Hp. lia. Qed.

Lemma first_bounds pos : first p pos → 0 ≤ pos ≤ len.
Proof. rewrite first_iff. destruct Hp. pose proof (zlen_nonneg (tokens p)). lia. Qed.

(** The tokens that may follow a position. *)
Definition rest (n : nat) : list Token := concat (replicate n (repeated p)) ++ drop (Z.to_nat (repEnd p)) (tokens p).

Definition accept (pos : Z) (ts : list Token) : Prop :=
  if decide (pos < repStart p) then ∃ n, repeats (repType p) n ∧ ts = drop (Z.to_nat pos) (take (Z.to_nat (repStart p)) (tokens p)) ++ rest n
  else if decide (pos < repEnd p) then
    ∃ n, (n = 0%nat ∨ Rep.repeatable (repType p) = true) ∧ ts = drop (Z.to_nat pos) (take (Z.to_nat (repEnd p)) (tokens p)) ++ rest n
  else ts = drop (Z.to_nat pos) (tokens p).

Lemma drop_take_at pos m t : 0 ≤ pos < m → tokens p !! pos = Some t →
  drop (Z.to_nat pos) (take (Z.to_nat m) (tokens p)) = t :: drop (Z.to_nat (pos + 1)) (take (Z.to_nat m) (tokens p)).
Proof.
  intros Hm Ht. rewrite lookupZ_to_nat in Ht by lia. rewrite (drop_S _ t (Z.to_nat pos)).
  - do 2 f_equal. lia.
  - rewrite lookup_take_lt by lia. done.
Qed.

Lemma drop_at pos t : 0 ≤ pos → tokens p !! pos = Some t → drop (Z.to_nat pos) (tokens p) = t :: drop (Z.to_nat (pos + 1)) (tokens p).
Proof.
  intros Hm Ht. rewrite lookupZ_to_nat in Ht by lia. rewrite (drop_S _ t (Z.to_nat pos)) by done. do 2 f_equal. lia.
Qed.

Lemma drop_take_end pos m : m ≤ pos → drop (Z.to_nat pos) (take (Z.to_nat m) (tokens p)) = [].
Proof. intros H. apply drop_ge. rewrite length_take. lia. Qed.

Lemma repeats_split n : repeats (repType p) n ↔
  (n = 0%nat ∧ Rep.skippable (repType p) = true) ∨ ∃ m, n = S m ∧ (m = 0%nat ∨ Rep.repeatable (repType p) = true).
Proof.
  split.
  - intros H. destruct n as [|n]; [left|right; exists n]; (split; [done|]); destruct (repType p); cbn in *; first [done|lia|by right|left; lia].
  - intros [[-> Hs]|(m & -> & [-> |Hr])]; destruct (repType p); cbn in *; first [done|lia].
Qed.

(** At the start of the part that is repeated. *)
Lemma accept_start ts : (Rep.skippable (repType p) = true ∧ accept (repEnd p) ts) ∨ accept (repStart p) ts ↔ ∃ n, repeats (repType p) n ∧ ts = rest n.
Proof.
  destruct Hp as [H1 H2 _]. unfold accept. rewrite !(decide_False (P := repEnd p < _)), (decide_False (P := repStart p < repStart p)) by lia.
  assert (Hr : ∀ n, rest (S n) = repeated p ++ rest n) by (intros n; unfold rest; cbn; by rewrite <- app_assoc).
  setoid_rewrite repeats_split. destruct (decide (repStart p < repEnd p)) as [Hlt|Hge].
  - split.
    + intros [[Hs ->]|(n & Hn & ->)]; [exists 0%nat; split; [by left|done]|exists (S n)]. split; [right; eauto|by rewrite Hr].
    + intros (n & [[-> Hs]|(m & -> & Hm)] & ->); [by left|right]. exists m. by rewrite Hr.
  - assert (E : repeated p = []) by (apply drop_take_end; lia). assert (Hz : ∀ n, rest n = drop (Z.to_nat (repEnd p)) (tokens p)).
    { intros n. unfold rest. rewrite E. induction n; [done|]. done. }
    replace (repStart p) with (repEnd p) by lia. setoid_rewrite Hz. split.
    + intros H. exists 1%nat. split; [right; eauto|]. by destruct H as [[_ ->]| ->].
    + intros (n & _ & ->). by right.
Qed.

Lemma accept_step pos ts : 0 ≤ pos < len →
  accept pos ts ↔ ∃ t pos1 ts', ts = t :: ts' ∧ PIter.token (PIter.mkPIter p pos) = Some t ∧ next p pos pos1 ∧ accept pos1 ts'.
Proof.
  intros Hpos. destruct (lookupZ_lt_Some (tokens p) pos Hpos) as [t Ht]. pose proof Hp as [H1 H2 _].
  transitivity (∃ ts', ts = t :: ts' ∧ ∃ pos1, next p pos pos1 ∧ accept pos1 ts').
  2:{ setoid_rewrite token_at. rewrite Ht. naive_solver. }
  setoid_rewrite next_iff; [|done]. unfold accept at 1. destruct (decide (pos < repStart p)) as [Hlt|Hge]; [|destruct (decide (pos < repEnd p)) as [Hlt|Hge']].
  - rewrite (drop_take_at pos (repStart p) t ltac:(lia) Ht). destruct (decide (pos + 1 = repStart p)) as [E|E].
    + rewrite drop_take_end by lia. cbn. split.
      * intros (n & Hn & ->). eexists. split; [done|]. destruct (proj2 (accept_start (rest n))) as [[Hs Ha]|Ha]; [by eauto| |]; [exists (repEnd p)|exists (repStart p)]; naive_solver.
      * intros (ts' & -> & pos1 & Hnx & Ha). assert (∃ n, repeats (repType p) n ∧ ts' = rest n) as (n & Hn & ->); [|by eauto].
        apply accept_start. destruct Hnx as [-> |[(_ & Hs & ->)|(? & _)]]; [right|left|done]; [by rewrite <- E|done].
    + split.
      * intros (n & Hn & ->). eexists. split; [done|]. exists (pos + 1). split; [by left|]. unfold accept. rewrite decide_True by lia. eauto.
      * intros (ts' & -> & pos1 & Hnx & Ha). assert (pos1 = pos + 1) as -> by lia. unfold accept in Ha. rewrite decide_True in Ha by lia.
        destruct Ha as (n & Hn & ->). eauto.
  - rewrite (drop_take_at pos (repEnd p) t ltac:(lia) Ht). destruct (decide (pos + 1 = repEnd p)) as [E|E].
    + rewrite drop_take_end by lia. cbn. split.
      * intros ([|n] & Hn & ->); (eexists; split; [done|]).
        -- exists (pos + 1). split; [by left|]. unfold accept. rewrite !decide_False by lia. by rewrite E.
        -- exists (repStart p). split; [destruct Hn as [|Hn]; [done|]; right; right; split_and!; [lia|done|done|done]|].
           unfold accept. rewrite decide_False, decide_True by lia. exists n. split; [destruct Hn as [|Hn]; [done|by right]|].
           unfold rest. cbn. by rewrite <- app_assoc.
      * intros (ts' & -> & pos1 & Hnx & Ha). destruct Hnx as [-> |[(? & _)|(_ & _ & Hr & ->)]]; [|lia|]; unfold accept in Ha.
        -- rewrite !decide_False in Ha by lia. exists 0%nat. split; [by left|]. by rewrite Ha, E.
        -- rewrite decide_False, decide_True in Ha by lia. destruct Ha as (n & _ & ->). exists (S n). split; [by right|].
           unfold rest. cbn. by rewrite <- app_assoc.
    + split.
      * intros (n & Hn & ->). eexists. split; [done|]. exists (pos + 1). split; [by left|]. unfold accept. rewrite decide_False, decide_True by lia. eauto.
      * intros (ts' & -> & pos1 & Hnx & Ha). assert (pos1 = pos + 1) as -> by lia. unfold accept in Ha. rewrite decide_False, decide_True in Ha by lia.
        destruct Ha as (n & Hn & ->). eauto.
  - rewrite (drop_at pos t ltac:(lia) Ht). split.
    + intros ->. eexists. split; [done|]. exists (pos + 1). split; [by left|]. unfold accept. by rewrite !decide_False by lia.
    + intros (ts' & -> & pos1 & Hnx & Ha). assert (pos1 = pos + 1) as -> by lia. unfold accept in Ha. rewrite !decide_False in Ha by lia. by rewrite Ha.
Qed.
Lemma accept_end ts : accept len ts ↔ ts = [].
Proof.
  destruct Hp as [H1 H2 _]. unfold accept. rewrite !decide_False by lia. rewrite drop_ge by (unfold zlen; lia). done.
Qed.

Lemma run_bounds pos ts pos' : 0 ≤ pos ≤ len → run p pos ts pos' → 0 ≤ pos' ≤ len.
Proof.
  intros Hpos. induction 1 as [|pos t pos1 ts pos2 Ht Hn _ IH]; [done|]. apply IH. apply token_at, lookupZ_Some_lt in Ht. by apply (next_bounds pos).
Qed.

Lemma run_accept pos ts : 0 ≤ pos ≤ len → run p pos ts len ↔ accept pos ts.
Proof.
  intros Hpos. split.
  - intros H. remember len as e eqn:Ee. revert Hpos. induction H as [e|pos t pos1 ts pos2 Ht Hn _ IH]; intros Hpos; subst; [by apply accept_end|].
    pose proof Ht as Ht'. apply token_at, lookupZ_Some_lt in Ht'. apply accept_step; [done|]. exists t, pos1, ts. split_and!; [done|done|done|].
    apply IH; [done|]. by apply (next_bounds pos).
  - revert pos Hpos. induction ts as [|t ts IH]; intros pos Hpos Ha; (destruct (decide (pos = len)) as [->|Hne]; [apply accept_end in Ha|apply accept_step in Ha; [|lia]]).
    + constructor.
    + by destruct Ha as (t & pos1 & ts' & [=] & _).
    + done.
    + destruct Ha as (t' & pos1 & ts' & [= <- <-] & Ht & Hn & Ha). econstructor; [done|done|]. apply IH; [|done]. apply (next_bounds pos); [lia|done].
Qed.

Lemma expansion_accept ts : expansion p ts ↔ ∃ pos, first p pos ∧ accept pos ts.
Proof.
  destruct Hp as [H1 H2 _]. setoid_rewrite first_iff. destruct (decide (repStart p = 0)) as [E|E].
  - transitivity (∃ n, repeats (repType p) n ∧ ts = rest n); [by unfold expansion; rewrite E|]. rewrite <- accept_start, E. naive_solver.
  - transitivity (accept 0 ts); [|naive_solver]. unfold accept. by rewrite decide_True by lia.
Qed.
End production.

(** The sequences of tokens from a first position to the end are the expansions of the
    production. *)
Lemma expansion_runs p ts : wfProduction p →
  expansion p ts ↔ ∃ pos pos', first p pos ∧ run p pos ts pos' ∧ PIter.end_ (PIter.mkPIter p pos') = true.
Proof.
  intros Hp. rewrite expansion_accept by done. split.
  - intros (pos & Hf & Ha). exists pos, (zlen (tokens p)). split_and!; [done| |apply Z.leb_refl].
    apply run_accept; [done|by apply first_bounds|done].
  - intros (pos & pos' & Hf & Hr & He). exists pos. split; [done|]. apply run_accept; [done|by apply first_bounds|].
    pose proof (run_bounds p Hp _ _ _ (first_bounds p Hp _ Hf) Hr). unfold PIter.end_ in He. cbn in He. apply Z.leb_le in He. by replace (zlen (tokens p)) with pos' by lia.
Qed.

(** C20: the iterators of a production ([firstA], [firstB], [nextA], [nextB]) go through exactly
    the sequences of tokens that the production stands for: the tokens before the repeated part,
    that part as often as its kind allows, and the tokens after it; and they never leave the
    production.  The repeated part of the production lies within its tokens. *)
Theorem production_iterates p : wfProduction p →
  (∀ ts, expansion p ts ↔ ∃ pos pos', first p pos ∧ run p pos ts pos' ∧ PIter.end_ (PIter.mkPIter p pos') = true) ∧
  (∀ pos ts pos', first p pos → run p pos ts pos' → 0 ≤ pos' ≤ zlen (tokens p)).
Proof.
  intros Hp. split; [intros ts; by apply expansion_runs|]. intros pos ts pos' Hf Hr. by apply (run_bounds p Hp pos ts); [apply first_bounds|].
Qed.

Lemma production_iterates_witness :
  let t := mkToken (tRule 1) 0 in let p := mkProduction 1 (Some 1%nat) None [t; t] 0 1 2 Rep.repZeroPlus 0 0 indentNone in
  expansion p [t; t; t] ↔ ∃ pos pos', first p pos ∧ run p pos [t; t; t] pos' ∧ PIter.end_ (PIter.mkPIter p pos') = true.
Proof.
  apply (production_iterates (mkProduction 1 (Some 1%nat) None [mkToken (tRule 1) 0; mkToken (tRule 1) 0] 0 1 2 Rep.repZeroPlus 0 0 indentNone)).
  split; [split|..]; vm_compute; first [discriminate|reflexivity].
Defined.

(** * Context-free grammars with repetition

    What it means that a rule matches a part of a text, for productions whose middle part may
    be left out or repeated, and for tokens that match a unique part of the text or none. *)

Section grammar.
(** The productions of a rule, and from where to where a regular expression matches. *)
Context (G : nat → list Production) (tokenSpan : Regex.Regex → Z → Z → Prop).

Inductive derives : nat → Z → Z → Prop :=
  | derives_intro r p ts i j : p ∈ G r → expansion p ts → spans ts i j → derives r i j
with spans : list Token → Z → Z → Prop :=
  | spans_nil i : spans [] i i
  | spans_regex t x ts i m j : asRegex t = Some x → tokenSpan x i m → spans ts m j → spans (t :: ts) i j
  | spans_rule t r ts i m j : asRule t = Some r → derives r i m → spans ts m j → spans (t :: ts) i j.

(** Rules that may match the empty text. *)
Inductive nullable : nat → Prop :=
  | nullable_intro r p ts : p ∈ G r → expansion p ts → nullTokens ts → nullable r
with nullTokens : list Token → Prop :=
  | null_nil : nullTokens []
  | null_regex t x ts : asRegex t = Some x → matches (Regex.states x) [] → nullTokens ts → nullTokens (t :: ts)
  | null_rule t r ts : asRule t = Some r → nullable r → nullTokens ts → nullTokens (t :: ts).

Scheme derives_mut := Minimality for derives Sort Prop
  with spans_mut := Minimality for spans Sort Prop.
Combined Scheme derives_spans_ind from derives_mut, spans_mut.

Lemma spans_app ts ts' i m j : spans ts i m → spans ts' m j → spans (ts ++ ts') i j.
Proof. induction 1; intros H'; cbn; [done|eapply spans_regex|eapply spans_rule]; eauto. Qed.

(** A position in a production that started at [from] can be reached at [i]. *)
Definition item (p : Production) (pos from i : Z) : Prop := ∃ pos0 ts, first p pos0 ∧ run p pos0 ts pos ∧ spans ts from i.

Lemma item_first p pos i : first p pos → item p pos i i.
Proof. intros H. exists pos, []. split_and!; [done|constructor|constructor]. Qed.

Lemma item_next p pos pos' from m i t : item p pos from m → PIter.token (PIter.mkPIter p pos) = Some t → next p pos pos' → spans [t] m i →
  item p pos' from i.
Proof.
  intros (pos0 & ts & Hf & Hr & Hs) Ht Hn Hi. exists pos0, (ts ++ [t]). split_and!; [done|by eapply run_snoc|by eapply spans_app].
Qed.

(** A finished production. *)
Lemma item_end p pos from i : wfProduction p → item p pos from i → PIter.end_ (PIter.mkPIter p pos) = true → ∃ ts, expansion p ts ∧ spans ts from i.
Proof. intros Hp (pos0 & ts & Hf & Hr & Hs) He. exists ts. split; [|done]. apply expansion_runs; [done|]. eauto. Qed.

Lemma item_derives r p pos from i : wfProduction p → p ∈ G r → item p pos from i → PIter.end_ (PIter.mkPIter p pos) = true → derives r from i.
Proof. intros Hp Hr Hi He. destruct (item_end _ _ _ _ Hp Hi He) as (ts & Hx & Hs). by econstructor. Qed.

Section bounds.
Context (n : Z) (Hspan : ∀ x i j, tokenSpan x i j → i ≤ j ∧ (i = j → matches (Regex.states x) [])).

(** Time does not go back, and what is empty is nullable. *)
Lemma spans_bounds : (∀ r i j, derives r i j → i ≤ j ∧ (i = j → nullable r)) ∧ (∀ ts i j, spans ts i j → i ≤ j ∧ (i = j → nullTokens ts)).
Proof.
  apply derives_spans_ind.
  - intros r p ts i j Hp Hx _ [H1 H2]. split; [done|]. intros E. econstructor; eauto.
  - intros i. split; [lia|constructor].
  - intros t x ts i m j Ht Hm _ [H1 H2]. apply Hspan in Hm as [H3 H4]. split; [lia|]. intros ->. eapply null_regex; [done|apply H4; lia|apply H2; lia].
  - intros t r ts i m j Ht _ [H3 H4] _ [H1 H2]. split; [lia|]. intros ->. eapply null_rule; [done|apply H4; lia|apply H2; lia].
Qed.

Lemma item_bounds p pos from i : item p pos from i → from ≤ i.
Proof. intros (pos0 & ts & _ & _ & Hs). by apply spans_bounds in Hs as [? _]. Qed.

(** A production that is finished where it started belongs to a rule that may be empty. *)
Lemma item_nullable r p pos i : wfProduction p → p ∈ G r → item p pos i i → PIter.end_ (PIter.mkPIter p pos) = true → nullable r.
Proof.
  intros Hp Hr Hi He. destruct (item_end _ _ _ _ Hp Hi He) as (ts & Hx & Hs). econstructor; [done|done|]. by apply spans_bounds in Hs as [_ Hs]; auto.
Qed.
End bounds.

(** Tokens of a nullable sequence. *)
Definition nullToken (t : Token) : Prop :=
  match type t with tRegex x => matches (Regex.states x) [] | tRule r | tDelim r => nullable r end.

Lemma nullTokens_iff ts : nullTokens ts ↔ Forall nullToken ts.
Proof.
  split.
  - induction 1 as [|t x ts Ht Hx _ IH|t r ts Ht Hr _ IH]; constructor; try done; unfold nullToken, asRegex, asRule in *;
      destruct (type t); simplify_eq; done.
  - induction 1 as [|t ts Ht _ IH]; [constructor|]. unfold nullToken in Ht. destruct (type t) as [x|r|r] eqn:E;
      [apply (null_regex t x)|apply (null_rule t r)|apply (null_rule t r)]; try done; unfold asRegex, asRule; by rewrite E.
Qed.
End grammar.
