(* ===== verification/EarleyStateCorrect.v ===== *)
(** * The states of the Earley parser

    The sets of states are lists, what is known about empty rules is true, and the invariant of
    the parser is kept when a state is added. *)

From stdpp Require Import base list numbers decidable option strings gmap.
From Stdlib Require Import ZArith Lia.
From S2P Require Import Prelude Utf Str StrIter Regex RegexMatchCorrect Production Earley ProductionCorrect.

(** * The sets of states of the Earley parser are lists

    [StateSet] keeps its states in chunks; what it does is what a list does. *)

Section stateset.
Import StateSet.

(** The states, in their order. *)
Definition view (ss : StateSet) : list State.State := match chunks ss with Some c => concat (cv c) | None => [] end.

(** All chunks but the last one are full, and the last one is not empty. *)
Definition wfChunks (cs : list (list State.State)) : Prop :=
  ∃ full last, cs = full ++ [last] ∧ Forall (λ c, length c = 32%nat) full ∧ (1 ≤ length last ≤ 32)%nat.

Definition wfStates (ss : StateSet) : Prop := match chunks ss with Some c => wfChunks (cv c) | None => True end.

(** ** Chunks *)

Section chunks.
Implicit Types cs full : list (list State.State).

Lemma full_length full : Forall (λ c, length c = 32%nat) full → length (concat full) = (32 * length full)%nat.
Proof. induction 1 as [|c full Hc _ IH]; [done|]. cbn [concat]. rewrite length_app, IH, Hc. cbn [length]. lia. Qed.

Lemma chunk_lookup full last k i : Forall (λ c, length c = 32%nat) full → (i < 32)%nat → (k ≤ length full)%nat →
  concat (full ++ [last]) !! (32 * k + i)%nat = (full ++ [last]) !! k ≫= (.!! i).
Proof.
  intros Hf Hi. revert k. induction Hf as [|c full Hc _ IH]; intros k Hk; cbn [app concat].
  - destruct k; [|cbn in Hk; lia]. rewrite app_nil_r. done.
  - destruct k as [|k].
    + rewrite lookup_app_l by lia. done.
    + rewrite lookup_app_r by lia. cbn in Hk. replace (32 * S k + i - length c)%nat with (32 * k + i)%nat by lia. rewrite IH by lia. done.
Qed.

Lemma chunk_insert full last k i c s : Forall (λ c, length c = 32%nat) full → (full ++ [last]) !! k = Some c → (i < length c)%nat →
  concat (<[k := <[i := s]> c]> (full ++ [last])) = <[(32 * k + i)%nat := s]> (concat (full ++ [last])).
Proof.
  intros Hf Hk Hi. pose proof (lookup_lt_Some _ _ _ Hk) as Hlt. rewrite length_app in Hlt. cbn in Hlt.
  rewrite insert_take_drop by (rewrite length_app; cbn; lia). rewrite concat_app. cbn [concat].
  rewrite <- (take_drop_middle _ _ _ Hk) at 3. rewrite concat_app. cbn [concat].
  assert (Hl : length (concat (take k (full ++ [last]))) = (32 * k)%nat).
  { rewrite take_app_le by lia. rewrite full_length; [by rewrite length_take_le by lia|]. by apply Forall_take. }
  rewrite insert_app_r_alt by lia. rewrite insert_app_l by lia. do 2 f_equal. f_equal. lia.
Qed.
End chunks.

(** ** Reading *)

Lemma view_count ss : wfStates ss → zlen (view ss) < 2 ^ 32 → count ss = zlen (view ss).
Proof.
  unfold wfStates, view, count. destruct (chunks ss) as [[n cs]|]; [|done]. cbn. intros (full & last & -> & Hf & Hl) Hz.
  assert (E : zlen (full ++ [last]) = zlen full + 1) by (rewrite zlen_app; done). rewrite E. rewrite (proj2 (Z.eqb_neq _ _)) by (unfold zlen; lia).
  replace (zlen full + 1 - 1) with (zlen full) by lia. unfold zlen at 1. rewrite lookupZ_nat, list_lookup_middle by done.
  rewrite concat_app in *. cbn in *. rewrite app_nil_r in *. rewrite zlen_app in *. unfold zlen in *. rewrite full_length in * by done.
  rewrite u32_small; [unfold chunkSize; lia|]. unfold is_u32, chunkSize. lia.
Qed.

Lemma index_split i : 0 ≤ i → Z.to_nat i = (32 * Z.to_nat (Z.shiftr i chunkBits) + Z.to_nat (Z.land i chunkMask))%nat ∧
  0 ≤ Z.shiftr i chunkBits ∧ 0 ≤ Z.land i chunkMask < 32.
Proof.
  intros Hi. unfold chunkBits, chunkMask. rewrite Z.shiftr_div_pow2 by lia. change 31 with (Z.ones 5). rewrite Z.land_ones by lia.
  change (2 ^ 5) with 32. pose proof (Z.div_mod i 32 ltac:(lia)). pose proof (Z.mod_pos_bound i 32 ltac:(lia)). pose proof (Z.div_pos i 32 Hi ltac:(lia)). lia.
Qed.

Lemma view_get ss i s : wfStates ss → view ss !! i = Some s → get ss i = Ret s.
Proof.
  unfold wfStates, view, get. destruct (chunks ss) as [[n cs]|]; [|by rewrite lookupZ_nil]. cbn. intros (full & last & -> & Hf & Hl) Hs.
  pose proof (lookupZ_Some_lt _ _ _ Hs) as Hi. destruct (index_split i ltac:(lia)) as (E & H1 & H2).
  rewrite lookupZ_to_nat, E in Hs by lia. rewrite chunk_lookup in Hs; [|done|lia|].
  - apply bind_Some in Hs as (c & Hc & Hs). cbv beta in Hs. rewrite <- lookupZ_to_nat in Hc by lia. rewrite <- lookupZ_to_nat in Hs by lia.
    rewrite (aget_Some _ _ _ Hc). cbn. by apply aget_Some.
  - destruct Hi as [_ Hi]. unfold zlen in Hi. rewrite concat_app, length_app, full_length in Hi by done. cbn in Hi. rewrite app_nil_r in Hi. lia.
Qed.

(** ** Searching *)

Lemma findInChunk_spec chunk s : ∀ i, match findInChunk chunk s i with
  | None => Forall (λ x, State.eq x s = false) chunk
  | Some (j, old) => ∃ k : nat, j = i + Z.of_nat k ∧ chunk !! k = Some old ∧ State.eq old s = true
  end.
Proof.
  induction chunk as [|x chunk IH]; intros i; cbn; [done|]. destruct (State.eq x s) eqn:E.
  - exists 0%nat. split_and!; [lia|done|done].
  - specialize (IH (i + 1)). destruct (findInChunk chunk s (i + 1)) as [[j old]|]; [|by constructor].
    destruct IH as (k & -> & Hk & He). exists (S k). split_and!; [lia|done|done].
Qed.

Lemma findState_spec cs s : ∀ c, match findState cs s c with
  | None => Forall (λ x, State.eq x s = false) (concat cs)
  | Some (j, i, old) => ∃ k m chunk, j = c + Z.of_nat k ∧ i = Z.of_nat m ∧ cs !! k = Some chunk ∧ chunk !! m = Some old ∧ State.eq old s = true
  end.
Proof.
  induction cs as [|chunk cs IH]; intros c; cbn; [done|]. pose proof (findInChunk_spec chunk s 0) as Hc.
  destruct (findInChunk chunk s 0) as [[i old]|].
  - destruct Hc as (m & -> & Hm & He). exists 0%nat, m, chunk. split_and!; [lia|lia|done|done|done].
  - specialize (IH (c + 1)). destruct (findState cs s (c + 1)) as [[[j i] old]|]; [|by apply Forall_app].
    destruct IH as (k & m & chunk' & -> & -> & Hk & Hm & He). exists (S k), m, chunk'. split_and!; [lia|done|done|done|done].
Qed.

(** A state that is there, and what replacing it does; or no state is equal. *)
Lemma find_spec ss s : wfStates ss → match find ss s with
  | None => Forall (λ x, State.eq x s = false) (view ss)
  | Some (c, i, old) => ∃ k : Z, view ss !! k = Some old ∧ State.eq old s = true ∧
      ∀ s', ∃ ss', replace ss c i s' = Ret ss' ∧ wfStates ss' ∧ view ss' = <[k := s']> (view ss)
  end.
Proof.
  unfold find, wfStates, view, replace. destruct (chunks ss) as [[n cs]|] eqn:Ec; [|done]. cbn. intros (full & last & -> & Hf & Hl).
  pose proof (findState_spec (full ++ [last]) s 0) as H. destruct (findState (full ++ [last]) s 0) as [[[c i] old]|]; [|done].
  destruct H as (k & m & chunk & -> & -> & Hk & Hm & He). rewrite Z.add_0_l.
  pose proof (lookup_lt_Some _ _ _ Hk) as Hkl. rewrite length_app in Hkl. cbn in Hkl. pose proof (lookup_lt_Some _ _ _ Hm) as Hml.
  assert (Hc32 : (length chunk ≤ 32)%nat).
  { destruct (decide (k < length full)%nat) as [Hlt|Hge].
    - rewrite lookup_app_l in Hk by done. by rewrite (Forall_lookup_1 _ _ _ _ Hf Hk).
    - rewrite lookup_app_r in Hk by lia. replace (k - length full)%nat with 0%nat in Hk by lia. injection Hk as <-. lia. }
  exists (Z.of_nat (32 * k + m)). split_and!; [|done|].
  - rewrite lookupZ_nat, chunk_lookup by (done || lia). by rewrite Hk.
  - intros s'. rewrite (aget_Some (full ++ [last]) (Z.of_nat k) chunk) by (by rewrite lookupZ_nat). cbn [mbind outcome_bind].
    rewrite aset_in by (unfold zlen; lia). cbn [mbind outcome_bind]. rewrite aset_in by (unfold zlen; rewrite length_app; cbn; lia). cbn [mbind outcome_bind].
    eexists. split; [done|]. unfold insert, list_insertZ. rewrite !decide_True by lia. rewrite !Nat2Z.id. cbn [chunks cv].
    split; [|exact (chunk_insert full last k m chunk s' Hf Hk Hml)].
    destruct (decide (k < length full)%nat) as [Hlt|Hge].
    + exists (<[k := <[m := s']> chunk]> full), last. split_and!; [by rewrite insert_app_l| |lia|lia].
      apply Forall_insert; [done|]. rewrite length_insert. rewrite lookup_app_l in Hk by done. exact (Forall_lookup_1 _ _ _ _ Hf Hk).
    + assert (k = length full) as -> by lia. rewrite lookup_app_r, Nat.sub_diag in Hk by lia. injection Hk as <-.
      exists full, (<[m := s']> last). split_and!; [|done|rewrite length_insert; lia|rewrite length_insert; lia]. rewrite insert_app_r_alt, Nat.sub_diag by lia. done.
Qed.

(** ** Adding *)

Lemma ensure_one_more c : 0 ≤ zlen (cv c) → ∃ n, ensure (mkStateSet (Some c)) (zlen (cv c) + 1) = mkStateSet (Some (mkChunks n (cv c ++ [[]]))).
Proof.
  intros H. unfold ensure. cbn. destruct (ccount c <? zlen (cv c) + 1); cbn; eexists; do 4 f_equal;
    replace (Z.to_nat (zlen (cv c) + 1 - zlen (cv c))) with 1%nat by lia; done.
Qed.

Lemma set_last {A} (l : list A) x y : aset (l ++ [x]) (zlen (l ++ [x]) - 1) y = Ret (l ++ [y]).
Proof.
  rewrite zlen_app. change (zlen [x]) with 1. rewrite aset_in by (rewrite zlen_app; change (zlen [x]) with 1; pose proof (zlen_nonneg l); lia).
  f_equal. replace (zlen l + 1 - 1) with (zlen l) by lia. unfold insert, list_insertZ. pose proof (zlen_nonneg l). rewrite decide_True by done.
  unfold zlen. rewrite Nat2Z.id, insert_app_r_alt, Nat.sub_diag by lia. done.
Qed.

Lemma get_last {A} (l : list A) x : aget (l ++ [x]) (zlen (l ++ [x]) - 1) = Ret x.
Proof.
  apply aget_Some. rewrite zlen_app. change (zlen [x]) with 1. replace (zlen l + 1 - 1) with (zlen l) by lia. unfold zlen. rewrite lookupZ_nat.
  by apply list_lookup_middle.
Qed.

Lemma append_spec ss s : wfStates ss → ∃ ss', append ss s = Ret ss' ∧ wfStates ss' ∧ view ss' = view ss ++ [s].
Proof.
  unfold append, wfStates, view. destruct ss as [[[n cs]|]]; cbn [chunks].
  - intros (full & last & Hcs & Hf & Hl). cbn in Hcs. subst cs. cbn [cv]. rewrite get_last. cbn [mbind outcome_bind].
    destruct (Z.leb_spec chunkSize (zlen last)) as [Hfull|Hlt].
    + destruct (ensure_one_more (mkChunks n (full ++ [last])) (zlen_nonneg _)) as [n' E]. cbn [cv] in E. rewrite E. cbn [chunks cv].
      rewrite get_last. cbn [mbind outcome_bind]. rewrite set_last. cbn [mbind outcome_bind]. eexists. split; [done|]. cbn [chunks cv].
      split; [|by rewrite !concat_app; cbn; rewrite !app_nil_r].
      exists (full ++ [last]), [s]. split_and!; [done| |cbn; lia|cbn; lia]. apply Forall_app. split; [done|]. repeat constructor.
      unfold zlen, chunkSize in Hfull. lia.
    + cbn [chunks cv]. rewrite get_last. cbn [mbind outcome_bind]. rewrite set_last. cbn [mbind outcome_bind]. eexists. split; [done|]. cbn [chunks cv].
      split; [|by rewrite !concat_app; cbn; rewrite !app_nil_r, <- app_assoc].
      exists full, (last ++ [s]). unfold zlen, chunkSize in Hlt. rewrite length_app. cbn. split_and!; [done|done|lia|lia].
  - intros _. cbn. eexists. split; [done|]. cbn. split; [|done]. exists [], [s]. split_and!; [done|done|cbn; lia|cbn; lia].
Qed.
End stateset.

(** * Rules that may be empty

    [matchesEmpty] of the Earley parser ends, also for recursive rules, and says no only for
    rules that cannot match the empty text.  It says yes too often, but not too seldom, also if
    the table of rules is moved while it runs. *)

Import Earley.

(** ** The tokens no expansion leaves out *)

Section greedy.
Context (p : Production) (Hp : wfProduction p).

(** The positions at which [matchesEmpty(Production * )] stops: all but those it may skip. *)
Definition greedy (pos : Z) : Prop := 0 ≤ pos ≤ zlen (tokens p) ∧ ¬ (repStart p ≤ pos < repEnd p ∧ Rep.skippable (repType p) = true).

Lemma greedy_first : ∃ pos, pick (PIter.firstA p) (PIter.firstB p) = Some (PIter.mkPIter p pos) ∧ greedy pos.
Proof.
  destruct Hp as [H1 H2 _]. unfold pick, PIter.firstA, PIter.firstB, greedy. pose proof (zlen_nonneg (tokens p)).
  destruct (Z.eqb_spec (repStart p) 0), (Rep.skippable (repType p)) eqn:E; cbn; try (destruct (Z.ltb_spec 0 (repEnd p)));
    eexists; (split; [done|]); split; try lia; intros [? ?]; lia || done.
Qed.

Lemma greedy_next pos : 0 ≤ pos < zlen (tokens p) → greedy pos →
  ∃ pos', pick (PIter.nextA (PIter.mkPIter p pos)) (PIter.nextB (PIter.mkPIter p pos)) = Some (PIter.mkPIter p pos') ∧ greedy pos' ∧ pos < pos'.
Proof.
  intros Hpos [_ Hg]. destruct Hp as [H1 H2 H3]. unfold pick, PIter.nextA, PIter.nextB, greedy in *. cbn. rewrite u32_small by (unfold is_u32; lia).
  destruct (Z.eqb_spec (pos + 1) (repStart p)), (Z.eqb_spec (pos + 1) (repEnd p)), (Rep.skippable (repType p)) eqn:E, (Rep.repeatable (repType p)); cbn;
    repeat match goal with |- context [if ?a <? ?b then _ else _] => destruct (Z.ltb_spec a b) end;
    eexists; (split; [done|]); (split; [split; [lia|intros [? ?]; lia || done]|lia]).
Qed.

(** Their tokens are in all expansions. *)
Lemma greedy_token pos t ts : greedy pos → tokens p !! pos = Some t → expansion p ts → t ∈ ts.
Proof.
  intros [Hpos Hg] Ht (k & Hk & ->). destruct Hp as [H1 H2 _]. pose proof (lookupZ_Some_lt _ _ _ Ht) as Hlt. rewrite lookupZ_to_nat in Ht by lia.
  rewrite !elem_of_app. destruct (decide (pos < repStart p)) as [Ha|Ha]; [|destruct (decide (pos < repEnd p)) as [Hb|Hb]].
  - left. apply (list_elem_of_lookup_2 _ (Z.to_nat pos)). rewrite lookup_take_lt by lia. done.
  - right. left. assert (k ≠ 0%nat). { intros ->. apply Hg. split; [lia|]. destruct (repType p); cbn in *; done || lia. }
    destruct k as [|k]; [done|]. cbn. apply elem_of_app. left. unfold repeated.
    apply (list_elem_of_lookup_2 _ (Z.to_nat pos - Z.to_nat (repStart p))%nat). rewrite lookup_drop, lookup_take_lt by lia. rewrite <- Ht. f_equal. lia.
  - right. right. apply (list_elem_of_lookup_2 _ (Z.to_nat pos - Z.to_nat (repEnd p))%nat). rewrite lookup_drop, <- Ht. f_equal. lia.
Qed.
End greedy.

(** ** Regular expressions and the empty text *)

Definition okRegex (x : Regex.Regex) : Prop := wfRegex 0xFFFF x ∧ zlen (Regex.states x) < 2 ^ 32 - 1.

Lemma emptyRegex_spec x : okRegex x → ∃ m, Regex.matchRawStr x Str.new 0 = Ret m ∧ (negb (m =? Regex.NO_MATCH) = false → ¬ matches (Regex.states x) []).
Proof.
  intros [Hx Hz]. destruct (matchRaw_spec 0xFFFF u16 x [] [0] 0) as (k & E & Hk); try done.
  { intros z Hz'. apply Z.mod_small. lia. } { apply not_elem_of_nil. } { apply not_elem_of_nil. }
  exists (result 0 k). split; [exact E|]. rewrite longest_nil in Hk. destruct k as [k|]; [|done]. destruct Hk as [-> _]. done.
Qed.

(** ** Rules *)

Section rules.
Context (moves : gmap nat RuleInfo → nat → bool) (G : nat → list Production) (N : nat).
Context (HG : ∀ r p, p ∈ G r → wfProduction p).
Context (HX : ∀ r p t x, p ∈ G r → t ∈ tokens p → asRegex t = Some x → okRegex x).

(** The table has the productions of the grammar, and says no only if that is so. *)
Record okRules (R : Rules) : Prop := {
  ok_prods : ∀ r, default [] (table R !! r ≫= productions) = G r;
  ok_count : tokenCount (allProductions (table R)) = N;
  ok_null : ∀ r i, table R !! r = Some i → matchesNull i = 0 → ¬ nullable G r;
}.

Definition resolved (R : Rules) (r : nat) : bool := match table R !! r with Some i => matchesNull i <? 2 | None => false end.
Definition mono (R R' : Rules) : Prop := ∀ r, resolved R r = true → resolved R' r = true.

Lemma tokenCount_perm ps ps' : ps ≡ₚ ps' → tokenCount ps = tokenCount ps'.
Proof. intros H. unfold tokenCount. by rewrite H. Qed.

Lemma allProductions_new t r : t !! r = None → tokenCount (allProductions (<[r := newInfo]> t)) = tokenCount (allProductions t).
Proof.
  intros H. apply tokenCount_perm. unfold allProductions. rewrite fmap_insert. rewrite map_to_list_insert by (by rewrite lookup_fmap, H). done.
Qed.

Lemma atRule_spec R r : okRules R → let '(R', i) := atRule moves R r in
  okRules R' ∧ table R' !! r = Some i ∧ default [] (productions i) = G r ∧ mono R R'.
Proof.
  intros [Hp Hc Hn]. unfold atRule. destruct (table R !! r) as [i|] eqn:E.
  - split_and!; [done|done| |by intros ?]. by rewrite <- Hp, E.
  - split_and!; cbn; [split; cbn|by rewrite lookup_insert_eq|by rewrite <- Hp, E|].
    + intros r'. rewrite <- Hp. destruct (decide (r = r')) as [->|]; [by rewrite lookup_insert_eq, E|by rewrite lookup_insert_ne].
    + by rewrite allProductions_new.
    + intros r' i. destruct (decide (r = r')) as [->|]; [rewrite lookup_insert_eq; by intros [= <-]|rewrite lookup_insert_ne by done; eauto].
    + intros r'. unfold resolved. cbn. destruct (decide (r = r')) as [->|]; [by rewrite E|by rewrite lookup_insert_ne].
Qed.

Lemma setNull_spec R r ref x : okRules R → (x = 0 → ¬ nullable G r) → x < 2 → okRules (setNull R r ref x) ∧ mono R (setNull R r ref x) ∧
  (∀ i, moved R = ref → table R !! r = Some i → resolved (setNull R r ref x) r = true).
Proof.
  intros [Hp Hc Hn] Hx Hlt. unfold setNull. destruct (Nat.eqb_spec (moved R) ref) as [E|E]; [|split_and!; [done|by intros ?|done]].
  assert (Hf : productions <$> alter (λ i, mkRuleInfo (productions i) x) r (table R) = productions <$> table R).
  { apply map_eq. intros r'. rewrite !lookup_fmap. destruct (decide (r = r')) as [->|]; [rewrite lookup_alter_eq|by rewrite lookup_alter_ne]. by destruct (table R !! r'). }
  split_and!; [split; cbn| |].
  - intros r'. rewrite <- Hp. destruct (decide (r = r')) as [->|]; [rewrite lookup_alter_eq|by rewrite lookup_alter_ne]. by destruct (table R !! r').
  - unfold allProductions. by rewrite Hf.
  - intros r' i. destruct (decide (r = r')) as [->|]; [|rewrite lookup_alter_ne by done; apply Hn].
    rewrite lookup_alter_eq. destruct (table R !! r'); cbn; [|done]. intros [= <-]. apply Hx.
  - intros r'. unfold resolved. cbn. destruct (decide (r = r')) as [->|]; [rewrite lookup_alter_eq|by rewrite lookup_alter_ne].
    destruct (table R !! r'); cbn; [intros _; by apply Z.ltb_lt|done].
  - intros i _ Hi. unfold resolved. cbn. rewrite lookup_alter_eq, Hi. cbn. by apply Z.ltb_lt.
Qed.

(** The rules that may be asked for. *)
Context (U : gset nat) (HU : ∀ r p t r', p ∈ G r → t ∈ tokens p → asRule t = Some r' → r' ∈ U).

Section productions.
Context (rec : Rules → nat → outcome (Rules * bool)) (inv : Rules → Prop).
Context (Hrec : ∀ R r, inv R → r ∈ U → returns (rec R r) (λ '(R', b), inv R' ∧ (b = false → ¬ nullable G r))).

Lemma emptyToken_spec R r p t : inv R → p ∈ G r → t ∈ tokens p → returns (emptyToken rec R t) (λ '(R', b), inv R' ∧ (b = false → ¬ nullToken G t)).
Proof.
  intros HR Hp Ht. unfold emptyToken, nullToken. destruct (type t) as [x|r'|r'] eqn:E.
  - destruct (emptyRegex_spec x) as (m & -> & Hm); [|done]. apply (HX r p t); [done|done|]. unfold asRegex. by rewrite E.
  - apply Hrec; [done|]. apply (HU r p t); [done|done|]. unfold asRule. by rewrite E.
  - apply Hrec; [done|]. apply (HU r p t); [done|done|]. unfold asRule. by rewrite E.
Qed.

Lemma emptyLoop_spec r p fuel : p ∈ G r → ∀ R pos, inv R → greedy p pos → (Z.to_nat (zlen (tokens p) - pos) < fuel)%nat →
  returns (emptyLoop rec fuel R (Some (PIter.mkPIter p pos))) (λ '(R', b), inv R' ∧ (b = false → ∀ ts, expansion p ts → ¬ nullTokens G ts)).
Proof.
  intros Hp. pose proof (HG _ _ Hp) as Hw. induction fuel as [|fuel IH]; intros R pos HR Hg Hf; [lia|]. cbn [emptyLoop].
  destruct (PIter.token (PIter.mkPIter p pos)) as [t|] eqn:Ht; [|by apply returns_ret]. apply token_at in Ht.
  pose proof (lookupZ_Some_lt _ _ _ Ht) as Hlt.
  eapply returns_bind; [apply (emptyToken_spec R r p t HR Hp); apply list_elem_of_lookupZ; eauto|]. intros [R1 e] [HR1 He].
  destruct e; cbn [negb].
  - destruct (greedy_next p Hw pos Hlt Hg) as (pos' & -> & Hg' & Hpos'). apply IH; [done|done|lia].
  - apply returns_ret. split; [done|]. intros _ ts Hx Hn. apply He; [done|]. apply nullTokens_iff in Hn.
    apply (proj1 (Forall_forall _ _) Hn). by apply (greedy_token p Hw pos).
Qed.

Lemma emptyAny_spec r ps : (∀ p, p ∈ ps → p ∈ G r) → ∀ R, inv R →
  returns (emptyAny rec R ps) (λ '(R', b), inv R' ∧ (b = false → ∀ p ts, p ∈ ps → expansion p ts → ¬ nullTokens G ts)).
Proof.
  induction ps as [|p ps IH]; intros Hps R HR; cbn [emptyAny].
  { apply returns_ret. split; [done|]. intros _ p ts Hp. by apply not_elem_of_nil in Hp. }
  pose proof (Hps p ltac:(by left)) as Hp. unfold emptyProduction.
  destruct (greedy_first p (HG _ _ Hp)) as (pos & -> & Hg).
  eapply returns_bind; [apply (emptyLoop_spec r p); [done|done|done|destruct Hg; unfold zlen in *; lia]|]. intros [R1 e] [HR1 He].
  destruct e; [by apply returns_ret|]. eapply returns_mono; [apply IH; [intros; apply Hps; by right|done]|].
  intros [R2 b] [HR2 Hb]. split; [done|]. intros -> q ts [->|Hq]%elem_of_cons; [by apply He|by apply Hb].
Qed.
End productions.

Definition unresolved (R : Rules) : gset nat := filter (λ r, resolved R r = false) U.

Lemma unresolved_mono R R' : mono R R' → (size (unresolved R') ≤ size (unresolved R))%nat.
Proof.
  intros H. apply subseteq_size. intros r. unfold unresolved. rewrite !elem_of_filter. intros [Hr Hu]. split; [|done].
  destruct (resolved R r) eqn:E; [|done]. by rewrite (H _ E) in Hr.
Qed.

Lemma unresolved_lt R R' r : mono R R' → r ∈ U → resolved R r = false → resolved R' r = true → (size (unresolved R') < size (unresolved R))%nat.
Proof.
  intros H Hr H1 H2. apply subset_size. split.
  - intros x. unfold unresolved. rewrite !elem_of_filter. intros [Hx Hu]. split; [|done]. destruct (resolved R x) eqn:E; [|done]. by rewrite (H _ E) in Hx.
  - intros Hs. specialize (Hs r). unfold unresolved in Hs. rewrite !elem_of_filter in Hs. destruct Hs as [Hs _]; [done|]. by rewrite H2 in Hs.
Qed.

Lemma matchesEmpty_spec fuel : ∀ R r, okRules R → r ∈ U → (size (unresolved R) < fuel)%nat →
  returns (matchesEmpty moves fuel R r) (λ '(R', b), okRules R' ∧ mono R R' ∧ (b = false → ¬ nullable G r)).
Proof.
  induction fuel as [|fuel IH]; intros R r HR Hr Hf; [lia|]. cbn [matchesEmpty].
  pose proof (atRule_spec R r HR) as Ha. destruct (atRule moves R r) as [R1 i] eqn:Ea. destruct Ha as (HR1 & Hi & Hps & Hm1).
  destruct (Z.ltb_spec (matchesNull i) 2) as [Hlt|Hge].
  { apply returns_ret. split_and!; [done|done|]. intros H%negb_false_iff%Z.eqb_eq. by apply (ok_null _ HR1 r i). }
  destruct (setNull_spec R1 r (moved R1) 1 HR1 ltac:(done) ltac:(lia)) as (HR2 & Hm2 & Hres). specialize (Hres i eq_refl Hi).
  set (R2 := setNull R1 r (moved R1) 1) in *.
  assert (Hr1 : resolved R1 r = false). { unfold resolved. rewrite Hi. by apply Z.ltb_ge. }
  pose proof (unresolved_lt R1 R2 r Hm2 Hr Hr1 Hres) as Hsz. pose proof (unresolved_mono R R1 Hm1) as Hsz1.
  eapply returns_bind.
  { apply (emptyAny_spec (matchesEmpty moves fuel) (λ R', okRules R' ∧ mono R2 R')) with (r := r).
    - intros R' r' [HR' Hm'] Hr'. pose proof (unresolved_mono _ _ Hm'). eapply returns_mono; [apply IH; [done|done|lia]|].
      intros [R3 b] (HR3 & Hm3 & Hb). split; [|done]. split; [done|]. intros x Hx. by apply Hm3, Hm'.
    - intros p Hp. by rewrite <- Hps.
    - split; [done|by intros ?]. }
  intros [R3 b] [[HR3 Hm3] Hb]. apply returns_ret.
  assert (Hnull : b = false → ¬ nullable G r).
  { intros -> Hn. inversion Hn as [? p ts Hp Hx Ht]; subst. rewrite <- Hps in Hp. by apply (Hb eq_refl p ts). }
  destruct (setNull_spec R3 r (moved R1) (if b then 1 else 0) HR3) as (HR4 & Hm4 & _).
  { destruct b; [done|by intros _; apply Hnull]. } { by destruct b. }
  split_and!; [done| |done]. intros x Hx. by apply Hm4, Hm3, Hm2, Hm1.
Qed.
End rules.

(** ** The fuel is enough *)

Lemma allProductions_elem (t : gmap nat RuleInfo) r p : p ∈ default [] (t !! r ≫= productions) → p ∈ allProductions t.
Proof.
  intros Hp. unfold allProductions. destruct (t !! r) as [i|] eqn:E; cbn in Hp; [|by apply not_elem_of_nil in Hp].
  apply list_elem_of_In, in_concat. exists (default [] (productions i)). split; [|by apply list_elem_of_In].
  apply list_elem_of_In, list_elem_of_fmap. exists (r, productions i). split; [done|]. apply elem_of_map_to_list. by rewrite lookup_fmap, E.
Qed.

(** The rules of the tokens of some productions. *)
Definition tokenRules (ps : list Production) : list nat := omap asRule (concat (tokens <$> ps)).

Lemma tokenRules_length ps : (length (tokenRules ps) ≤ tokenCount ps)%nat.
Proof.
  assert (Ho : ∀ l : list Token, (length (omap asRule l) ≤ length l)%nat).
  { induction l as [|t l IH]; [done|]. cbn. destruct (asRule t); cbn in *; lia. }
  unfold tokenRules. etransitivity; [apply Ho|]. unfold tokenCount. induction ps as [|p ps IH]; [done|].
  cbn. rewrite length_app. cbn in IH. lia.
Qed.

Lemma tokenRules_elem ps p t r : p ∈ ps → t ∈ tokens p → asRule t = Some r → r ∈ tokenRules ps.
Proof.
  intros Hp Ht Hr. unfold tokenRules. apply list_elem_of_omap. exists t. split; [|done]. apply list_elem_of_In, in_concat.
  exists (tokens p). split; [|by apply list_elem_of_In]. apply list_elem_of_In, list_elem_of_fmap. eauto.
Qed.

Lemma size_list_le (l : list nat) : (size (list_to_set l : gset nat) ≤ length l)%nat.
Proof.
  induction l as [|x l IH]; [by rewrite list_to_set_nil, size_empty|]. rewrite list_to_set_cons, size_union_alt, size_singleton. cbn [length].
  apply le_n_S. etransitivity; [|exact IH]. apply subseteq_size. set_solver.
Qed.

Lemma matchesEmpty_run moves G N R r : (∀ r p, p ∈ G r → wfProduction p) → (∀ r p t x, p ∈ G r → t ∈ tokens p → asRegex t = Some x → okRegex x) →
  okRules G N R → returns (matchesEmpty moves (emptyFuel R) R r) (λ '(R', b), okRules G N R' ∧ (b = false → ¬ nullable G r)).
Proof.
  intros HG HX HR. set (ps := allProductions (table R)). set (U := list_to_set (r :: tokenRules ps) : gset nat).
  assert (HU : ∀ r' p t x, p ∈ G r' → t ∈ tokens p → asRule t = Some x → x ∈ U).
  { intros r' p t x Hp Ht Hx. apply elem_of_list_to_set. right. apply (tokenRules_elem ps p t x); [|done|done].
    apply (allProductions_elem _ r'). by rewrite (ok_prods _ _ _ HR). }
  eapply returns_mono; [apply (matchesEmpty_spec moves G N HG HX U HU); [done|apply elem_of_list_to_set; by left|]|].
  - apply Nat.lt_le_trans with (S (size U)).
    + apply le_n_S, subseteq_size. intros x. unfold unresolved. rewrite elem_of_filter. by intros [_ ?].
    + unfold emptyFuel. apply le_n_S. fold ps. pose proof (tokenRules_length ps). etransitivity; [apply size_list_le|]. cbn. lia.
  - intros [R' b] (HR' & _ & Hb). done.
Qed.

(** * The state of the Earley parser

    The invariant of the parser: what its states mean, and where their pointers lead.  Adding a
    state ends, as no derivation contains itself, and keeps the invariant. *)

Import StatePtr State Earley.

(** A position in a production, and the step where the production started. *)
Notation key := (Production * Z * Z)%type.

Definition keyOf (s : State) : key := (production s, PIter.pos (pos s), from s).

Definition finished (p : Production) (pos : Z) : Prop := PIter.end_ (PIter.mkPIter p pos) = true.
Definition tokenAt (p : Production) (pos : Z) : option Token := PIter.token (PIter.mkPIter p pos).

(** ** The setting *)

(** A grammar whose productions are different objects, in the table of a parser whose tables fit
    in memory, with a rank for what can be derived: a step of a derivation follows from what has
    smaller ranks, so that no derivation contains itself. *)
Record setting := mkSetting {
  G : nat → list Production;
  rootP : Production;
  n : Z;
  tokenSpan : Regex.Regex → Z → Z → Prop;
  allP : list Production;
  rank : Production → Z → Z → Z → nat;
}.

Definition known (S : setting) (p : Production) : Prop := p = rootP S ∨ ∃ r, p ∈ G S r.

Notation Item S := (item (G S) (tokenSpan S)).

Definition capacity (S : setting) : nat := tokenCount (rootP S :: allP S).

Record okSetting (S : setting) (depth : nat) : Prop := {
  ok_wf : ∀ p, known S p → wfProduction p;
  ok_rule : ∀ r p, p ∈ G S r → rule p = Some r;
  ok_root : rule (rootP S) = None;
  ok_addr : ∀ p q, known S p → known S q → paddr p = paddr q → p = q;
  ok_regex : ∀ p t x, known S p → t ∈ tokens p → asRegex t = Some x → okRegex x;
  ok_all : ∀ r p, p ∈ G S r → p ∈ allP S;
  ok_n : 0 ≤ n S;
  ok_size : Z.of_nat (capacity S) * (n S + 1) < 2 ^ 32 - 1;
  ok_span : ∀ x i j, tokenSpan S x i j → i ≤ j ≤ n S ∧ (i = j → matches (Regex.states x) []);
  ok_rank_regex : ∀ p pos pos' from m i t x, known S p → Item S p pos from m → tokenAt p pos = Some t → next p pos pos' →
    asRegex t = Some x → tokenSpan S x m i → (rank S p pos from m < rank S p pos' from i)%nat;
  ok_rank_rule : ∀ p pos pos' from m i t r q qpos, known S p → Item S p pos from m → tokenAt p pos = Some t → next p pos pos' →
    asRule t = Some r → q ∈ G S r → Item S q qpos m i → finished q qpos →
    (rank S p pos from m < rank S p pos' from i)%nat ∧ (rank S q qpos m i < rank S p pos' from i)%nat;
  ok_depth : ∀ p pos from i, known S p → Item S p pos from i → (rank S p pos from i < depth)%nat;
}.

(** ** States of a parser *)

Definition stAt (P : Parser) (i : Z) : list State :=
  match steps P with Some l => match l !! i with Some ss => view ss | None => [] end | None => [] end.

Definition keyAt (P : Parser) (i idx : Z) : option key := keyOf <$> stAt P i !! idx.

Section state.
Context (S : setting) (depth : nat) (HS : okSetting S depth) (str : StrObj) (off : Z).

(** The pointers of a state at the step [i]: none at the start of a production, and otherwise
    the state before its last token and, for a rule, the finished production. *)
Inductive link (P : Parser) (i : Z) (p : Production) (pos from : Z) : StatePtr → StatePtr → Prop :=
  | link_first : first p pos → from = i → link P i p pos from null null
  | link_regex m idx pos0 t x : 0 ≤ m ≤ n S → keyAt P m idx = Some (p, pos0, from) → tokenAt p pos0 = Some t → next p pos0 pos →
      asRegex t = Some x → tokenSpan S x m i → link P i p pos from (mkPtr m idx) null
  | link_rule m idx pos0 t r q qpos c : 0 ≤ m ≤ n S → keyAt P m idx = Some (p, pos0, from) → tokenAt p pos0 = Some t → next p pos0 pos →
      asRule t = Some r → keyAt P i c = Some (q, qpos, m) → q ∈ G S r → finished q qpos → link P i p pos from (mkPtr m idx) (mkPtr i c).

Record okState (P : Parser) (i : Z) (s : State) : Prop := {
  st_known : known S (production s);
  st_from : 0 ≤ from s;
  st_pos : 0 ≤ PIter.pos (pos s) ≤ zlen (tokens (production s));
  st_item : Item S (production s) (PIter.pos (pos s)) (from s) i;
  st_link : link P i (production s) (PIter.pos (pos s)) (from s) (prev s) (completed s);
  st_root : production s = rootP S → from s = 0;
}.

Record good (P : Parser) : Prop := {
  g_src : src P = Some str;
  g_off : srcOffset P = off;
  g_root : rootProd P = rootP S;
  g_rules : okRules (G S) (tokenCount (allP S)) (rules P);
  g_steps : ∃ l, steps P = Some l ∧ zlen l = n S + 1 ∧ Forall wfStates l;
  g_nodup : ∀ i, NoDup (keyOf <$> stAt P i);
  g_states : ∀ i s, s ∈ stAt P i → okState P i s;
}.

(** Later states of the parser: states were added, from the step [w] on, and the pointers of
    states may have been changed there. *)
Record ext (w : Z) (P P' : Parser) : Prop := {
  ext_keys : ∀ i, (keyOf <$> stAt P i) `prefix_of` (keyOf <$> stAt P' i);
  ext_old : ∀ i, i < w → stAt P' i = stAt P i;
  ext_finish : lastFinish P' = lastFinish P;
}.

Lemma ext_refl w P : ext w P P.
Proof. split; done. Qed.

Lemma ext_trans w P P' P'' : ext w P P' → ext w P' P'' → ext w P P''.
Proof.
  intros [H1 H2 H3] [H4 H5 H6]. split; [intros i; etransitivity; [apply H1|apply H4]| |congruence]. intros i Hi. rewrite H5 by done. by apply H2.
Qed.

Lemma ext_weaken w w' P P' : w ≤ w' → ext w' P P' → ext w P P'.
Proof. intros Hw [H1 H2 H3]. split; [done| |done]. intros i Hi. apply H2. lia. Qed.

Lemma keyAt_ext w P P' i idx k : ext w P P' → keyAt P i idx = Some k → keyAt P' i idx = Some k.
Proof.
  intros [H _ _] Hk. unfold keyAt in *. apply fmap_Some in Hk as (s & Hs & ->). pose proof (lookupZ_Some_lt _ _ _ Hs) as Hlt. rewrite lookupZ_to_nat in * by lia.
  destruct (H i) as [k Hk]. rewrite <- list_lookup_fmap, Hk, lookup_app_l by (rewrite length_fmap; unfold zlen in Hlt; lia). by rewrite list_lookup_fmap, Hs.
Qed.

Lemma link_ext w P P' i p pos from a b : ext w P P' → link P i p pos from a b → link P' i p pos from a b.
Proof. intros He. destruct 1; [by apply link_first|eapply link_regex|eapply link_rule]; eauto using keyAt_ext. Qed.

Lemma okState_ext w P P' i s : ext w P P' → okState P i s → okState P' i s.
Proof. intros He [H1 H2 H3 H4 H5 H6]. split; [done|done|done|done|by eapply link_ext|done]. Qed.

Lemma keyAt_Some P i idx k : keyAt P i idx = Some k ↔ ∃ s, stAt P i !! idx = Some s ∧ keyOf s = k.
Proof. unfold keyAt. rewrite fmap_Some. naive_solver. Qed.

Lemma key_elem P i k : k ∈ keyOf <$> stAt P i ↔ ∃ idx, keyAt P i idx = Some k.
Proof.
  rewrite list_elem_of_fmap. setoid_rewrite keyAt_Some. split.
  - intros (s & -> & Hs). apply list_elem_of_lookupZ in Hs as [idx Hs]. eauto.
  - intros (idx & s & Hs & <-). exists s. split; [done|]. apply list_elem_of_lookupZ. eauto.
Qed.

Lemma key_ext w P P' i k : ext w P P' → k ∈ keyOf <$> stAt P i → k ∈ keyOf <$> stAt P' i.
Proof. intros He. rewrite !key_elem. intros [idx H]. exists idx. by eapply keyAt_ext. Qed.

(** States are equal for the parser if their keys are. *)
Lemma state_eq_iff s s' : known S (production s) → known S (production s') → State.eq s s' = true ↔ keyOf s = keyOf s'.
Proof.
  intros H1 H2. unfold State.eq, PIter.eq, keyOf, production in *. rewrite !andb_true_iff, Nat.eqb_eq, !Z.eqb_eq. split.
  - intros [[Ha ->] ->]. by rewrite (ok_addr _ _ HS _ _ H1 H2 Ha).
  - intros [= -> -> ->]. done.
Qed.

(** *** Access *)

Lemma getSet_run P i : good P → 0 ≤ i ≤ n S → ∃ ss, getSet P i = Ret ss ∧ wfStates ss ∧ view ss = stAt P i.
Proof.
  intros Hg Hi. destruct (g_steps _ Hg) as (l & El & Hl & Hw). unfold getSet, stAt. rewrite El.
  destruct (lookupZ_lt_Some l i) as [ss Hs]; [lia|]. exists ss. rewrite Hs. split_and!; [by apply aget_Some| |done].
  rewrite lookupZ_to_nat in Hs by lia. by apply (Forall_lookup_1 _ _ _ _ Hw Hs).
Qed.

Lemma state_run P i idx s : good P → 0 ≤ i ≤ n S → stAt P i !! idx = Some s → state P (mkPtr i idx) = Ret s.
Proof.
  intros Hg Hi Hs. unfold state. cbn. destruct (getSet_run P i Hg Hi) as (ss & -> & Hw & Hv). cbn. apply view_get; [done|]. by rewrite Hv.
Qed.

Lemma setSet_run P i ss : good P → 0 ≤ i ≤ n S → wfStates ss → ∃ P', setSet P i ss = Ret P' ∧ stAt P' i = view ss ∧
  (∀ j, j ≠ i → stAt P' j = stAt P j) ∧ src P' = src P ∧ srcOffset P' = srcOffset P ∧ rootProd P' = rootProd P ∧ rules P' = rules P ∧ lastFinish P' = lastFinish P ∧
  ∃ l, steps P' = Some l ∧ zlen l = n S + 1 ∧ Forall wfStates l.
Proof.
  intros Hg Hi Hw. destruct (g_steps _ Hg) as (l & El & Hl & Hwl). unfold setSet, stAt. rewrite El. rewrite aset_in by lia. cbn.
  eexists. split; [done|]. cbn. split_and!; try done.
  - by rewrite lookupZ_insert_eq by lia.
  - intros j Hj. by rewrite lookupZ_insert_ne.
  - exists (<[i := ss]> l). split_and!; [done|by rewrite zlen_insert|]. unfold insert, list_insertZ. rewrite decide_True by lia. by apply Forall_insert.
Qed.

(** *** How many states there are *)

Definition keysOf (i : Z) (p : Production) : list key :=
  concat ((λ pos, (λ from, (p, pos, from)) <$> seqZ 0 (i + 1)) <$> seqZ 0 (zlen (tokens p) + 1)).

Lemma keysOf_elem i p pos from : 0 ≤ pos ≤ zlen (tokens p) → 0 ≤ from ≤ i → (p, pos, from) ∈ keysOf i p.
Proof.
  intros Hp Hf. apply list_elem_of_In, in_concat. exists ((λ from, (p, pos, from)) <$> seqZ 0 (i + 1)). split; apply list_elem_of_In, list_elem_of_fmap.
  - exists pos. split; [done|]. apply elem_of_seqZ. lia.
  - exists from. split; [done|]. apply elem_of_seqZ. lia.
Qed.

Lemma keysOf_length i p : 0 ≤ i → length (keysOf i p) = (Datatypes.S (length (tokens p)) * Z.to_nat (i + 1))%nat.
Proof.
  intros Hi. unfold keysOf. replace (Datatypes.S (length (tokens p))) with (length (seqZ 0 (zlen (tokens p) + 1))) by (rewrite length_seqZ; unfold zlen; lia).
  induction (seqZ 0 (zlen (tokens p) + 1)) as [|x l IH]; [done|]. cbn. rewrite length_app, length_fmap, length_seqZ. cbn in IH. rewrite IH. done.
Qed.

Lemma states_bound P i : good P → 0 ≤ i → (length (stAt P i) ≤ capacity S * Z.to_nat (i + 1))%nat.
Proof.
  intros Hg Hi. set (all := concat (keysOf i <$> rootP S :: allP S)).
  assert (Hlen : length all = (capacity S * Z.to_nat (i + 1))%nat).
  { unfold all, capacity, tokenCount. induction (rootP S :: allP S) as [|p l IH]; [done|]. cbn. rewrite length_app, IH, keysOf_length by done. cbn. lia. }
  rewrite <- Hlen, <- (length_fmap keyOf). apply submseteq_length, NoDup_submseteq; [apply Hg|].
  intros k Hk. apply list_elem_of_fmap in Hk as (s & -> & Hs). destruct (g_states _ Hg _ _ Hs) as [Hkn Hf Hp Hi' _].
  apply list_elem_of_In, in_concat. exists (keysOf i (production s)). split; apply list_elem_of_In.
  - apply list_elem_of_fmap. exists (production s). split; [done|]. destruct Hkn as [->|[r Hr]]; [by left|right; by apply (ok_all _ _ HS r)].
  - apply keysOf_elem; [done|]. split; [done|]. apply (item_bounds _ _ (λ x i j H, conj (proj1 (proj1 (ok_span _ _ HS x i j H))) (proj2 (ok_span _ _ HS x i j H))) _ _ _ _ Hi').
Qed.

Lemma states_small P i : good P → 0 ≤ i ≤ n S → zlen (stAt P i) < 2 ^ 32 - 1.
Proof.
  intros Hg Hi. pose proof (states_bound P i Hg ltac:(lia)) as Hb. pose proof (ok_size _ _ HS). unfold zlen.
  assert (Z.of_nat (capacity S * Z.to_nat (i + 1)) ≤ Z.of_nat (capacity S) * (n S + 1)); [|lia]. rewrite Nat2Z.inj_mul, Z2Nat.id by lia. nia.
Qed.

(** ** The order of states *)

Definition rankOf (s : State) (i : Z) : nat := rank S (production s) (PIter.pos (pos s)) (from s) i.

(** No state, or one with a rank below [r]. *)
Definition okPtr (P : Parser) (r : nat) (ptr : StatePtr) : Prop :=
  ptr = null ∨ ∃ i idx s, ptr = mkPtr i idx ∧ 0 ≤ i ≤ n S ∧ stAt P i !! idx = Some s ∧ (rankOf s i < r)%nat.

Lemma okPtr_le P r r' ptr : (r ≤ r')%nat → okPtr P r ptr → okPtr P r' ptr.
Proof. intros Hr [->|(i & idx & s & -> & Hi & Hs & Hlt)]; [by left|right]. exists i, idx, s. split_and!; [done|lia|lia|done|lia]. Qed.

Lemma ptr_not_null i idx : 0 ≤ i ≤ n S → StatePtr.eq (mkPtr i idx) null = false.
Proof.
  intros Hi. unfold StatePtr.eq, null. cbn. rewrite (proj2 (Z.eqb_neq _ _)); [done|]. pose proof (ok_size _ _ HS).
  assert (1 ≤ Z.of_nat (capacity S)) by (unfold capacity, tokenCount; cbn; lia). nia.
Qed.

(** Where the pointers of a state lead. *)
Lemma state_links P i s : good P → 0 ≤ i ≤ n S → okState P i s → okPtr P (rankOf s i) (completed s) ∧
  (prev s = null ∨ ∃ m idx s', prev s = mkPtr m idx ∧ 0 ≤ m ≤ n S ∧ stAt P m !! idx = Some s' ∧ (rankOf s' m < rankOf s i)%nat).
Proof.
  intros Hg Hi [Hkn _ _ Hit Hl]. unfold rankOf. inversion Hl as [Hf _ E1 E2|m idx pos0 t x Hm Hk Ht Hn Hx Hsp E1 E2|m idx pos0 t r q qpos c Hm Hk Ht Hn Hr Hc Hq He E1 E2].
  - split; by left.
  - apply keyAt_Some in Hk as (s' & Hs' & Hk). pose proof (g_states _ Hg m s' ltac:(apply list_elem_of_lookupZ; eauto)) as [_ _ _ Hit' _].
    injection Hk as Ep Epos Ef. split; [by left|]. right. exists m, idx, s'. split_and!; [done|lia|lia|done|]. rewrite Ep, Epos, Ef in *.
    by apply (ok_rank_regex _ _ HS _ _ _ _ _ _ _ _ Hkn Hit' Ht Hn Hx).
  - apply keyAt_Some in Hk as (s' & Hs' & Hk). pose proof (g_states _ Hg m s' ltac:(apply list_elem_of_lookupZ; eauto)) as [_ _ _ Hit' _].
    apply keyAt_Some in Hc as (sc & Hsc & Hc). pose proof (g_states _ Hg i sc ltac:(apply list_elem_of_lookupZ; eauto)) as [_ _ _ Hitc _].
    injection Hk as Ep Epos Ef. injection Hc as Eq Eqpos Eqf. rewrite Ep, Epos, Ef, Eq, Eqpos, Eqf in *.
    destruct (ok_rank_rule _ _ HS _ _ _ _ _ _ _ _ _ _ Hkn Hit' Ht Hn Hr Hq Hitc He) as [R1 R2]. split; right.
    + exists i, c, sc. unfold rankOf. rewrite Eq, Eqpos, Eqf. split_and!; [done|lia|lia|done|done].
    + exists m, idx, s'. rewrite Ep, Epos, Ef. split_and!; [done|lia|lia|done|done].
Qed.

Lemma prevCompleted_run P fuel r : good P → ∀ i s to, 0 ≤ i ≤ n S → okState P i s → (rankOf s i < fuel)%nat → (rankOf s i ≤ r)%nat → Forall (okPtr P r) to →
  returns (prevCompleted fuel P s to) (Forall (okPtr P r)).
Proof.
  intros Hg. induction fuel as [|fuel IH]; intros i s to Hi Hs Hf Hr Hto; [lia|]. cbn [prevCompleted].
  destruct (state_links P i s Hg Hi Hs) as [Hc [->|(m & idx & s' & -> & Hm & Hs' & Hlt)]]; [done|]. rewrite ptr_not_null by done.
  rewrite (state_run P m idx s') by done. cbn [mbind outcome_bind].
  apply (IH m); [done|apply (g_states _ Hg); apply list_elem_of_lookupZ; eauto|lia|lia|]. constructor; [|done]. by eapply okPtr_le.
Qed.

Lemma compareStates_run P r order a : (∀ x y, okPtr P r x → okPtr P r y → returns (order x y) (λ _, True)) →
  ∀ b, Forall (okPtr P r) a → Forall (okPtr P r) b → returns (compareStates order a b) (λ _, True).
Proof.
  intros Ho. induction a as [|x a IH]; intros [|y b] Ha Hb; cbn; try done. apply Forall_cons in Ha as [Hx Ha]. apply Forall_cons in Hb as [Hy Hb].
  eapply returns_bind; [by apply Ho|]. intros [] _; [done|done|by apply IH].
Qed.

Lemma execOrder_run P fuel : good P → ∀ i s j s', 0 ≤ i ≤ n S → 0 ≤ j ≤ n S → okState P i s → okState P j s' → (rankOf s i < fuel)%nat → (rankOf s' j < fuel)%nat →
  returns (execOrder fuel P s s') (λ _, True).
Proof.
  intros Hg. induction fuel as [|fuel IH]; intros i s j s' Hi Hj Hs Hs' Hf Hf'; [lia|]. cbn [execOrder].
  destruct (negb (priority s =? priority s')); [done|]. destruct (negb (paddr (production s) =? paddr (production s'))%nat); [done|].
  eapply returns_bind; [apply (prevCompleted_run P _ fuel Hg i); [done|done|lia|lia|constructor]|]. intros a Ha.
  eapply returns_bind; [apply (prevCompleted_run P _ fuel Hg j); [done|done|lia|lia|constructor]|]. intros b Hb.
  apply (compareStates_run P fuel); [|done|done]. intros x y Hx Hy.
  destruct Hx as [->|(xi & xidx & xs & -> & Hxi & Hxs & Hxr)]; [done|]. destruct Hy as [->|(yi & yidx & ys & -> & Hyi & Hys & Hyr)].
  { rewrite orb_true_r. done. }
  rewrite !ptr_not_null by done. cbn [orb]. destruct (StatePtr.eq _ _); [done|].
  rewrite (state_run P xi xidx xs), (state_run P yi yidx ys) by done. cbn [mbind outcome_bind].
  apply (IH xi xs yi ys); try done; apply (g_states _ Hg); apply list_elem_of_lookupZ; eauto.
Qed.

(** ** Adding states *)

Lemma lookupZ_insert_elem {A} (l : list A) k x y : x ∈ <[k := y]> l → x = y ∨ x ∈ l.
Proof.
  intros H. apply list_elem_of_lookupZ in H as [j Hj]. destruct (decide (k = j)) as [->|].
  - pose proof (lookupZ_Some_lt _ _ _ Hj) as Hlt. rewrite zlen_insert in Hlt. rewrite lookupZ_insert_eq in Hj by done. injection Hj as ->. by left.
  - rewrite lookupZ_insert_ne in Hj by done. right. apply list_elem_of_lookupZ. eauto.
Qed.

(** A parser that differs in the set [i] only. *)
Lemma good_update P P' i w l : good P → w ≤ i → stAt P' i = l → (∀ j, j ≠ i → stAt P' j = stAt P j) →
  src P' = src P → srcOffset P' = srcOffset P → rootProd P' = rootProd P → rules P' = rules P → lastFinish P' = lastFinish P →
  (∃ l, steps P' = Some l ∧ zlen l = n S + 1 ∧ Forall wfStates l) →
  (keyOf <$> stAt P i) `prefix_of` (keyOf <$> l) → NoDup (keyOf <$> l) → (∀ s, s ∈ l → okState P i s) → good P' ∧ ext w P P'.
Proof.
  intros Hg Hw El Ho E1 E2 E3 E4 E5 Hst Hpre Hnd Hok.
  assert (He : ext w P P').
  { split; [intros j; destruct (decide (j = i)) as [->|Hj]; [by rewrite El|by rewrite Ho]| |done]. intros j Hj. apply Ho. lia. }
  split; [|done]. destruct Hg as [G1 G2 G3 G4 G5 G6 G7]. split; [by rewrite E1|by rewrite E2|by rewrite E3|by rewrite E4|done| |].
  - intros j. destruct (decide (j = i)) as [->|Hj]; [by rewrite El|by rewrite Ho].
  - intros j s. destruct (decide (j = i)) as [->|Hj]; [rewrite El|rewrite Ho by done]; intros Hs; eapply okState_ext; eauto.
Qed.

Lemma pushState_run P i s w : good P → 0 ≤ i ≤ n S → w ≤ i → okState P i s →
  returns (pushState depth P i s) (λ P', good P' ∧ ext w P P' ∧ keyOf s ∈ keyOf <$> stAt P' i).
Proof.
  intros Hg Hi Hw Hs. unfold pushState. destruct (getSet_run P i Hg Hi) as (ss & -> & Hss & Hv). cbn [mbind outcome_bind].
  pose proof (find_spec ss s Hss) as Hf. destruct (StateSet.find ss s) as [[[c k] old]|].
  - destruct Hf as (k' & Hk' & He & Hrep). rewrite Hv in *. assert (Hold : okState P i old) by (apply (g_states _ Hg); apply list_elem_of_lookupZ; eauto).
    apply state_eq_iff in He; [|apply Hold|apply Hs].
    eapply returns_bind; [apply (execOrder_run P depth Hg i s i old); try done; apply (ok_depth _ _ HS); [apply Hs|apply Hs|apply Hold|apply Hold]|].
    assert (Hin : keyOf s ∈ keyOf <$> stAt P i) by (rewrite <- He; apply list_elem_of_fmap; exists old; split; [done|]; apply list_elem_of_lookupZ; eauto).
    intros [] _; [|by split_and!; [|apply ext_refl|]|by split_and!; [|apply ext_refl|]].
    destruct (Hrep s) as (ss' & -> & Hss' & Hv'). cbn [mbind outcome_bind].
    destruct (setSet_run P i ss' Hg Hi Hss') as (P' & -> & E1 & E2 & E3 & E4 & E5 & E6 & E8 & E7). cbn [returns].
    assert (Ek : keyOf <$> <[k' := s]> (stAt P i) = keyOf <$> stAt P i).
    { rewrite fmap_insertZ. apply list_insertZ_id. pose proof (lookupZ_Some_lt _ _ _ Hk') as Hlt. rewrite lookupZ_to_nat in Hk' by lia. rewrite lookupZ_to_nat by lia. by rewrite list_lookup_fmap, Hk', <- He. }
    rewrite Hv' in E1. destruct (good_update P P' i w (<[k' := s]> (stAt P i))) as [Hg' He']; try done.
    + by rewrite Ek.
    + rewrite Ek. apply Hg.
    + intros x [->|Hx]%lookupZ_insert_elem; [done|by apply (g_states _ Hg)].
    + split_and!; [done|done|]. by rewrite E1, Ek.
  - destruct (append_spec ss s Hss) as (ss' & -> & Hss' & Hv'). cbn [mbind outcome_bind].
    destruct (setSet_run P i ss' Hg Hi Hss') as (P' & -> & E1 & E2 & E3 & E4 & E5 & E6 & E8 & E7). cbn [returns]. rewrite Hv', Hv in *.
    destruct (good_update P P' i w (stAt P i ++ [s])) as [Hg' He']; try done.
    + rewrite fmap_app. by apply prefix_app_r.
    + rewrite fmap_app. apply NoDup_app. split_and!; [apply Hg| |apply NoDup_singleton]. intros x Hx [->|Hn]%elem_of_cons; [|by apply not_elem_of_nil in Hn].
      apply list_elem_of_fmap in Hx as (o & Eo & Ho). rewrite Forall_forall in Hf. specialize (Hf o Ho).
      assert (State.eq o s = true) by (apply state_eq_iff; [apply (g_states _ Hg _ _ Ho)|apply Hs|done]). congruence.
    + intros x [Hx|[->|Hx]%elem_of_cons]%elem_of_app; [by apply (g_states _ Hg)|done|by apply not_elem_of_nil in Hx].
    + split_and!; [done|done|]. rewrite E1, fmap_app. apply elem_of_app. right. by left.
Qed.
End state.
