(* ===== verification/EarleyCorrect.v ===== *)
(** * The steps of the Earley parser

    What the handlers add, and that a parser whose steps are complete has exactly what the
    grammar derives. *)

From stdpp Require Import base list numbers decidable option strings gmap.
From Stdlib Require Import ZArith Lia.
From S2P Require Import Prelude Utf Str StrIter Regex RegexMatchCorrect Production Earley ProductionCorrect EarleyStateCorrect.

(** * The Earley parser finds all derivations

    What the predictor, the completer and the scanner add, that a step is complete when all its
    states are processed, and that the parser therefore finds the longest part of the text that
    the root rule matches. *)

Import StatePtr State Earley.

Section correct.
Context (moves : gmap nat RuleInfo → nat → bool) (S : setting) (depth : nat) (HS : okSetting S depth) (str : StrObj) (off : Z).

Notation good := (good S str off).
Notation okState := (okState S).

(** What the text has for the scanner: the regular expressions find what the setting says. *)
Definition scans : Prop := ∀ p t x i, known S p → t ∈ tokens p → asRegex t = Some x → 0 ≤ i ≤ n S →
  ∃ m, Regex.matchRawStr x (sdata str) (u32 (i + off)) = Ret m ∧
    ((m = Regex.NO_MATCH ∧ ∀ j, ¬ tokenSpan S x i j) ∨
     (m ≠ Regex.NO_MATCH ∧ tokenSpan S x i (m - off) ∧ ∀ j, tokenSpan S x i j → j = m - off)).

Context (Hscan : scans).

(** ** Adding two states *)

Lemma returns_bind2 {A B C} (m : outcome A) (f : A → outcome B) (k : B → outcome C) (Q : B → Prop) (R : C → Prop) :
  returns (x ← m; f x) Q → (∀ y, Q y → returns (k y) R) → returns (x ← m; y ← f x; k y) R.
Proof. destruct m as [x| | |]; cbn; [|done..]. intros H1 H2. by eapply returns_bind. Qed.

Lemma pushIter_run P i it fr pr co w : good P → 0 ≤ i ≤ n S → w ≤ i → (∀ x, it = Some x → okState P i (mkState x fr pr co)) →
  returns (push depth P i it fr pr co) (λ P', good P' ∧ ext w P P' ∧ ∀ x, it = Some x → (PIter.production x, PIter.pos x, fr) ∈ keyOf <$> stAt P' i).
Proof.
  intros Hg Hi Hw Hx. destruct it as [x|]; cbn [push]; [|apply returns_ret; split_and!; [done|apply ext_refl|done]].
  eapply returns_mono; [by apply (pushState_run S depth HS str off P i _ w); auto|]. intros P' (H1 & H2 & H3). split_and!; [done|done|]. intros y [= <-]. done.
Qed.

Lemma push2_run P i A B fr pr co w : good P → 0 ≤ i ≤ n S → w ≤ i → (∀ x, A = Some x ∨ B = Some x → okState P i (mkState x fr pr co)) →
  returns (P ← push depth P i A fr pr co; push depth P i B fr pr co)
    (λ P', good P' ∧ ext w P P' ∧ ∀ x, A = Some x ∨ B = Some x → (PIter.production x, PIter.pos x, fr) ∈ keyOf <$> stAt P' i).
Proof.
  intros Hg Hi Hw Hx. eapply returns_bind; [apply (pushIter_run P i A fr pr co w); auto|]. intros P1 (Hg1 & He1 & Hk1).
  eapply returns_mono; [apply (pushIter_run P1 i B fr pr co w); try done|].
  - intros x Ex. eapply okState_ext; [done|]. auto.
  - intros P2 (Hg2 & He2 & Hk2). split_and!; [done|by eapply ext_trans|]. intros x [E|E]; [eapply key_ext|]; eauto.
Qed.

(** All states that follow a state after its next token are at the step [i]. *)
Definition advanced (P : Parser) (i : Z) (k : key) : Prop :=
  let '(p, po, fr) := k in ∀ po', next p po po' → (p, po', fr) ∈ keyOf <$> stAt P i.

Lemma advanced_ext w P P' i k : ext w P P' → advanced P i k → advanced P' i k.
Proof. destruct k as [[p po] fr]. intros He H po' Hn. eapply key_ext; [done|]. by apply H. Qed.

Lemma advance_run P i s pr co w : good P → 0 ≤ i ≤ n S → w ≤ i →
  (∀ po', next (production s) (PIter.pos (pos s)) po' → okState P i (mkState (PIter.mkPIter (production s) po') (from s) pr co)) →
  returns (P ← push depth P i (PIter.nextA (pos s)) (from s) pr co; push depth P i (PIter.nextB (pos s)) (from s) pr co)
    (λ P', good P' ∧ ext w P P' ∧ advanced P' i (keyOf s)).
Proof.
  intros Hg Hi Hw Hok. destruct s as [[p po] fr pr' co']. unfold keyOf, production in *. cbn [pos from PIter.production PIter.pos] in *.
  assert (Hp : ∀ x, PIter.nextA (PIter.mkPIter p po) = Some x ∨ PIter.nextB (PIter.mkPIter p po) = Some x → PIter.production x = p).
  { intros x. unfold PIter.nextA, PIter.nextB. cbn. intros [E|E]; repeat case_match; by simplify_eq. }
  eapply returns_mono; [apply (push2_run P i _ _ fr pr co w); try done|].
  - intros [q po'] Hx. pose proof (Hp _ Hx) as E. cbn in E. subst q. apply Hok. exact Hx.
  - intros P' (H1 & H2 & H3). split_and!; [done|done|]. intros po' Hn. by apply (H3 (PIter.mkPIter p po')).
Qed.

(** ** States that may be added *)

Lemma known_rule q r : known S q → rule q = Some r → q ∈ G S r.
Proof. intros [->|[r' Hr']] E; [by rewrite (ok_root _ _ HS) in E|]. rewrite (ok_rule _ _ HS _ _ Hr') in E. by injection E as ->. Qed.

Lemma state_known P i idx s : good P → stAt P i !! idx = Some s → okState P i s.
Proof. intros Hg Hs. apply (g_states _ _ _ _ Hg). apply list_elem_of_lookupZ. eauto. Qed.

Lemma getRule_token s r : getRule s = Some r → ∃ t, tokenAt (production s) (PIter.pos (pos s)) = Some t ∧ asRule t = Some r.
Proof. unfold getRule, tokenAt, production. destruct (pos s) as [p po]. cbn. apply bind_Some. Qed.

Lemma getRegex_token s x : getRegex s = Some x → ∃ t, tokenAt (production s) (PIter.pos (pos s)) = Some t ∧ asRegex t = Some x.
Proof. unfold getRegex, tokenAt, production. destruct (pos s) as [p po]. cbn. apply bind_Some. Qed.

Lemma tokenAt_bounds p po t : tokenAt p po = Some t → 0 ≤ po < zlen (tokens p) ∧ t ∈ tokens p.
Proof. intros H%token_at. split; [by eapply lookupZ_Some_lt|apply list_elem_of_lookupZ; eauto]. Qed.

(** After a token that matches, a state is followed by the next positions. *)
Lemma okState_next P m s i pr co t po' : good P → okState P m s → tokenAt (production s) (PIter.pos (pos s)) = Some t → spans (G S) (tokenSpan S) [t] m i →
  next (production s) (PIter.pos (pos s)) po' → link S P i (production s) po' (from s) pr co →
  okState P i (mkState (PIter.mkPIter (production s) po') (from s) pr co).
Proof.
  intros Hg [H1 H2 H3 H4 _ H6] Ht Hsp Hn Hl. split; unfold production in *; cbn in *; [done|done| |by eapply item_next|done|done].
  eapply next_bounds; [by apply (ok_wf _ _ HS)|by eapply tokenAt_bounds|done].
Qed.

Lemma okState_rule P m a s i c sc r po' : good P → 0 ≤ m ≤ n S → stAt P m !! a = Some s → getRule s = Some r → stAt P i !! c = Some sc →
  PIter.end_ (pos sc) = true → PIter.rule (pos sc) = Some r → from sc = m → next (production s) (PIter.pos (pos s)) po' →
  okState P i (mkState (PIter.mkPIter (production s) po') (from s) (mkPtr m a) (mkPtr i c)).
Proof.
  intros Hg Hm Hs Hr Hc He Hrule Hfr Hn. apply getRule_token in Hr as (t & Ht & Hr). pose proof (state_known _ _ _ _ Hg Hs) as Ks.
  pose proof (state_known _ _ _ _ Hg Hc) as Kc. assert (Hq : production sc ∈ G S r) by (apply known_rule; [apply Kc|done]).
  assert (Hfin : finished (production sc) (PIter.pos (pos sc))) by (unfold finished, production; by destruct (pos sc)).
  apply (okState_next P m s i _ _ t); try done.
  - eapply spans_rule; [done| |constructor]. subst m. eapply item_derives; [apply (ok_wf _ _ HS); right; eauto|done|apply Kc|done].
  - eapply link_rule; try done; apply keyAt_Some; [by exists s|exists sc; split; [done|]]. unfold keyOf. by rewrite Hfr.
Qed.

Lemma okState_regex P m a s i x po' : good P → 0 ≤ m ≤ n S → stAt P m !! a = Some s → getRegex s = Some x → tokenSpan S x m i →
  next (production s) (PIter.pos (pos s)) po' → okState P i (mkState (PIter.mkPIter (production s) po') (from s) (mkPtr m a) null).
Proof.
  intros Hg Hm Hs Hx Hsp Hn. apply getRegex_token in Hx as (t & Ht & Hx). pose proof (state_known _ _ _ _ Hg Hs) as Ks.
  apply (okState_next P m s i _ _ t); try done.
  - eapply spans_regex; [done|done|constructor].
  - eapply link_regex; try done. apply keyAt_Some. by exists s.
Qed.

Lemma okState_first P q r i po : q ∈ G S r → 0 ≤ i → first q po → okState P i (mkState (PIter.mkPIter q po) i null null).
Proof.
  intros Hq Hi Hf. split; unfold production; cbn; [right; eauto|done| |by apply item_first|by apply link_first|].
  - eapply first_bounds; [|done]. apply (ok_wf _ _ HS). right. eauto.
  - intros ->. pose proof (ok_rule _ _ HS _ _ Hq) as E. by rewrite (ok_root _ _ HS) in E.
Qed.
(** ** The handlers *)

Lemma stAt_setRules P R i : stAt (setRules P R) i = stAt P i.
Proof. done. Qed.

Lemma good_setRules P R w : good P → okRules (G S) (tokenCount (allP S)) R → good (setRules P R) ∧ ext w P (setRules P R).
Proof.
  intros [H1 H2 H3 H4 H5 H6 H7] HR. assert (He : ext w P (setRules P R)) by (split; [intros i; by rewrite stAt_setRules|done|done]).
  split; [|done]. split; try done. intros i s Hs. eapply okState_ext; [exact He|]. by apply H7.
Qed.

Lemma predictLoop_run r ps w : (∀ p, p ∈ ps → p ∈ G S r) → ∀ P i, good P → 0 ≤ i ≤ n S → w ≤ i →
  returns (predictLoop depth P i ps) (λ P', good P' ∧ ext w P P' ∧ ∀ p po, p ∈ ps → first p po → (p, po, i) ∈ keyOf <$> stAt P' i).
Proof.
  induction ps as [|p ps IH]; intros Hps P i Hg Hi Hw; cbn [predictLoop].
  { apply returns_ret. split_and!; [done|apply ext_refl|]. intros p po Hp. by apply not_elem_of_nil in Hp. }
  eapply returns_bind2; [apply (push2_run P i _ _ i null null w Hg Hi Hw)|].
  - intros [q po] Hx. assert (q = p) as ->. { unfold PIter.firstA, PIter.firstB in Hx. destruct Hx; repeat case_match; by simplify_eq. }
    apply (okState_first P p r); [apply Hps; by left|lia|exact Hx].
  - intros P1 (Hg1 & He1 & Hk1). eapply returns_mono; [apply IH; [intros; apply Hps; by right|done|done|done]|].
    intros P2 (Hg2 & He2 & Hk2). split_and!; [done|by eapply ext_trans|]. intros q po [->|Hq]%elem_of_cons Hf; [|by apply Hk2].
    eapply key_ext; [exact He2|]. exact (Hk1 _ Hf).
Qed.

(** The finished states of rule [r] at the step [i], from [i] on, with an index in a range. *)
Definition completes (P : Parser) (r : nat) (i m c : Z) : Prop :=
  ∃ q qpos, keyAt P i c = Some (q, qpos, m) ∧ finished q qpos ∧ rule q = Some r.

Lemma keyAt_inv w P P' i idx : ext w P P' → is_Some (keyAt P i idx) → keyAt P' i idx = keyAt P i idx.
Proof. intros He [k Hk]. rewrite Hk. by eapply keyAt_ext. Qed.

Lemma keyAt_lt P i idx : is_Some (keyAt P i idx) ↔ 0 ≤ idx < zlen (stAt P i).
Proof.
  split.
  - intros [k Hk]. apply keyAt_Some in Hk as (s & Hs & _). by eapply lookupZ_Some_lt.
  - intros H. destruct (lookupZ_lt_Some _ _ H) as [s Hs]. unfold keyAt. rewrite Hs. by eexists.
Qed.

(** A state that is still there later, with other pointers perhaps. *)
Lemma stAt_ext w P P' i idx s : ext w P P' → stAt P i !! idx = Some s → ∃ s', stAt P' i !! idx = Some s' ∧ keyOf s' = keyOf s.
Proof. intros He Hs. apply keyAt_Some. eapply keyAt_ext; [done|]. apply keyAt_Some. eauto. Qed.

Lemma keyOf_eq s s' : keyOf s' = keyOf s → pos s' = pos s ∧ from s' = from s.
Proof. unfold keyOf, production. destruct s as [[]], s' as [[]]. cbn. by intros [= -> -> ->]. Qed.

Lemma nullLoop_run r idx w fuel : ∀ P i s k, good P → 0 ≤ i ≤ n S → w ≤ i → keyAt P i idx = Some (keyOf s) → getRule s = Some r → 0 ≤ k ≤ idx → (Z.to_nat (idx - k) < fuel)%nat →
  returns (nullLoop depth fuel P (mkPtr i idx) s r k)
    (λ P', good P' ∧ ext w P P' ∧ ∀ c, k ≤ c < idx → completes P r i i c → advanced P' i (keyOf s)).
Proof.
  induction fuel as [|fuel IH]; intros P i s k Hg Hi Hw Hs Hr Hk Hf; [lia|]. cbn [nullLoop step].
  destruct (getSet_run S str off P i Hg Hi) as (ss & -> & Hss & Hv). cbn [mbind outcome_bind].
  pose proof (proj1 (keyAt_lt P i idx) ltac:(eauto)) as Hlt. destruct (lookupZ_lt_Some (stAt P i) k ltac:(lia)) as [now Hnow].
  rewrite (view_get ss k now) by (done || by rewrite Hv). cbn [mbind outcome_bind].
  rewrite (view_count ss) by (done || rewrite Hv; pose proof (states_small S depth HS str off P i Hg Hi); lia). rewrite Hv.
  rewrite (proj2 (Z.ltb_lt _ _)) by lia. rewrite andb_true_r.
  assert (Eqk : State.eq now s = true ↔ k = idx).
  { apply keyAt_Some in Hs as (s' & Hs' & E'). rewrite (state_eq_iff S depth HS); [|by apply (state_known P i k)|].
    2:{ destruct (keyOf_eq _ _ E') as [E1 _]. unfold production. rewrite <- E1. by apply (state_known P i idx). }
    rewrite <- E'. split; [|intros ->; by simplify_eq]. intros E. pose proof (g_nodup _ _ _ _ Hg i) as Hnd. pose proof (lookupZ_Some_lt _ _ _ Hnow).
    rewrite lookupZ_to_nat in Hnow, Hs' by lia. apply Z2Nat.inj; [lia|lia|]. eapply NoDup_lookup; [exact Hnd| |]; rewrite list_lookup_fmap; [by rewrite Hnow|rewrite Hs'; cbn; by rewrite E]. }
  destruct (State.eq now s); cbn [negb].
  { assert (k = idx) as -> by (by apply Eqk). apply returns_ret. split_and!; [done|apply ext_refl|intros c Hc; lia]. }
  assert (Hne : k ≠ idx) by (intros ->; discriminate (proj2 Eqk eq_refl)). clear Eqk.
  assert (Hskip : ¬ completes P r i i k → returns (nullLoop depth fuel P (mkPtr i idx) s r (k + 1))
    (λ P', good P' ∧ ext w P P' ∧ ∀ c, k ≤ c < idx → completes P r i i c → advanced P' i (keyOf s))).
  { intros Hno. eapply returns_mono; [apply (IH P i s (k + 1)); try done; lia|]. intros P' (H1 & H2 & H3). split_and!; [done|done|]. intros c Hc Hcc.
    destruct (decide (c = k)) as [->|]; [done|]. apply (H3 c); [lia|done]. }
  assert (Hcompl : completes P r i i k ↔ PIter.end_ (pos now) = true ∧ from now = i ∧ PIter.rule (pos now) = Some r).
  { unfold completes, keyAt. rewrite Hnow. cbn. unfold keyOf, production, finished, PIter.rule. destruct (pos now) as [q qp]. cbn. naive_solver. }
  rewrite Hcompl in Hskip. destruct (PIter.end_ (pos now)) eqn:He; cbn [negb]; [|apply Hskip; naive_solver].
  destruct (Z.eqb_spec (from now) i) as [Hfr|Hfr]; cbn [negb]; [|apply Hskip; naive_solver].
  case_bool_decide as Hru; cbn [negb]; [|apply Hskip; naive_solver]. clear Hskip.
  apply keyAt_Some in Hs as (s' & Hs' & E'). destruct (keyOf_eq _ _ E') as [E1 E2].
  eapply returns_bind2; [apply (advance_run P i s _ _ w Hg Hi Hw)|].
  - intros po' Hn. pose proof (okState_rule P i idx s' i k now r po') as H. unfold production in *. rewrite <- E1, <- E2 in *.
    apply H; try done. unfold getRule in *. by rewrite E1.
  - intros P1 (Hg1 & He1 & Ha1). eapply returns_mono; [apply (IH P1 i s (k + 1)); try done; [|lia|lia]|].
    + eapply keyAt_ext; [done|]. apply keyAt_Some. eauto.
    + intros P' (H1 & H2 & H3). split_and!; [done|by eapply ext_trans|]. intros c Hc _. by eapply advanced_ext.
Qed.
(** Before a token for the rule [r]. *)
Definition waits (k : key) (r : nat) : Prop := let '(p, po, _) := k in ∃ t, tokenAt p po = Some t ∧ asRule t = Some r.

Lemma waits_iff s r : waits (keyOf s) r ↔ getRule s = Some r.
Proof. unfold waits, keyOf, getRule, tokenAt, production. destruct (pos s) as [p po]. cbn. by rewrite bind_Some. Qed.

Lemma completes_ext w P P' r i m c : ext w P P' → completes P r i m c → completes P' r i m c.
Proof. intros He (q & qpos & Hk & H). exists q, qpos. split; [by eapply keyAt_ext|done]. Qed.

Lemma completes_nullable P r i c : good P → completes P r i i c → nullable (G S) r.
Proof.
  intros Hg (q & qpos & Hk & Hf & Hr). apply keyAt_Some in Hk as (s & Hs & Ek). destruct (state_known _ _ _ _ Hg Hs) as [Hkn _ _ Hit _].
  injection Ek as Eq Eqp Efr. rewrite Eq, Eqp, Efr in *.
  eapply (item_nullable _ _ (λ x i j H, conj (proj1 (proj1 (ok_span _ _ HS x i j H))) (proj2 (ok_span _ _ HS x i j H)))); [|by apply known_rule|done|done].
  by apply (ok_wf _ _ HS).
Qed.

Lemma predictor_run P i idx s : good P → 0 ≤ i ≤ n S → keyAt P i idx = Some (keyOf s) →
  returns (predictor moves depth P (mkPtr i idx) s) (λ P', good P' ∧ ext i P P' ∧ ∀ r, getRule s = Some r →
    (∀ q po, q ∈ G S r → first q po → (q, po, i) ∈ keyOf <$> stAt P' i) ∧ (∀ c, 0 ≤ c < idx → completes P r i i c → advanced P' i (keyOf s))).
Proof.
  intros Hg Hi Hs. unfold predictor. destruct (getRule s) as [r|] eqn:Er; [|apply returns_ret; split_and!; [done|apply ext_refl|done]].
  pose proof (atRule_spec moves (G S) _ (rules P) r (g_rules _ _ _ _ Hg)) as Ha. destruct (atRule moves (rules P) r) as [R info]. destruct Ha as (HR & _ & Eps & _).
  destruct (good_setRules P R i Hg HR) as [Hg0 He0]. cbn [step].
  eapply returns_bind; [apply (predictLoop_run r _ i); [by rewrite Eps|exact Hg0|done|done]|]. rewrite Eps. intros P1 (Hg1 & He1 & Hk1).
  eapply returns_bind; [apply (matchesEmpty_run moves (G S) (tokenCount (allP S)) (rules P1) r)|].
  { intros r' p Hp. apply (ok_wf _ _ HS). right. eauto. } { intros r' p t x Hp. apply (ok_regex _ _ HS). right. eauto. } { apply Hg1. }
  intros [R2 e] [HR2 He]. destruct (good_setRules P1 R2 i Hg1 HR2) as [Hg2 He2]. assert (He3 : ext i P (setRules P1 R2)) by eauto using ext_trans.
  destruct e.
  - pose proof (proj1 (keyAt_lt P i idx) ltac:(eauto)). eapply returns_mono; [apply (nullLoop_run r idx i); try done; [by eapply keyAt_ext|lia|cbn; lia]|].
    intros P3 (Hg3 & He4 & Hk3). split_and!; [done|by eapply ext_trans|]. intros r' [= <-]. split.
    + intros q po Hq Hf. eapply key_ext; [exact He4|]. by apply Hk1.
    + intros c Hc Hcc. apply (Hk3 c Hc). by eapply completes_ext.
  - apply returns_ret. split_and!; [done|done|]. intros r' [= <-]. split; [done|]. intros c Hc Hcc. destruct (He eq_refl). exact (completes_nullable P r i c Hg Hcc).
Qed.

Lemma from_bounds P i idx s : good P → keyAt P i idx = Some (keyOf s) → 0 ≤ from s ≤ i.
Proof.
  intros Hg (sc & Hsc & E)%keyAt_Some. destruct (keyOf_eq _ _ E) as [_ <-]. destruct (state_known _ _ _ _ Hg Hsc) as [_ Hf _ Hit _]. split; [done|].
  by apply (item_bounds _ _ (λ x i j H, conj (proj1 (proj1 (ok_span _ _ HS x i j H))) (proj2 (ok_span _ _ HS x i j H)))) in Hit.
Qed.

Lemma ext_len w P P' i : ext w P P' → zlen (stAt P i) ≤ zlen (stAt P' i).
Proof. intros He. pose proof (prefix_length _ _ (ext_keys _ _ _ He i)) as H. rewrite !length_fmap in H. unfold zlen. lia. Qed.

Lemma completeLoop_run idx fuel : ∀ P i c k, good P → 0 ≤ i ≤ n S → keyAt P i idx = Some (keyOf c) → PIter.end_ (pos c) = true → 0 ≤ k ≤ zlen (stAt P (from c)) →
  (capacity S * Z.to_nat (i + 1) < fuel + Z.to_nat k)%nat →
  returns (completeLoop depth fuel P (mkPtr i idx) c k) (λ P', good P' ∧ ext i P P' ∧ ∀ r a key, PIter.rule (pos c) = Some r → k ≤ a →
    keyAt P (from c) a = Some key → waits key r → advanced P' i key).
Proof.
  induction fuel as [|fuel IH]; intros P i c k Hg Hi Hc He Hk Hf; pose proof (from_bounds P i idx c Hg Hc) as Hfr;
    pose proof (states_bound S depth HS str off P (from c) Hg ltac:(lia)) as Hb;
    assert (Hb' : (capacity S * Z.to_nat (from c + 1) ≤ capacity S * Z.to_nat (i + 1))%nat) by (apply Nat.mul_le_mono_l; lia); [unfold zlen in *; lia|].
  cbn [completeLoop]. destruct (getSet_run S str off P (from c) Hg ltac:(lia)) as (ss & -> & Hss & Hv). cbn [mbind outcome_bind step].
  rewrite (view_count ss) by (done || rewrite Hv; pose proof (states_small S depth HS str off P (from c) Hg ltac:(lia)); lia). rewrite Hv.
  destruct (Z.ltb_spec k (zlen (stAt P (from c)))) as [Hlt|Hge].
  2:{ apply returns_ret. split_and!; [done|apply ext_refl|]. intros r a key _ Ha Hka _. pose proof (proj1 (keyAt_lt P (from c) a) ltac:(eauto)). lia. }
  destruct (lookupZ_lt_Some (stAt P (from c)) k ltac:(lia)) as [s Hs]. rewrite (view_get ss k s) by (done || by rewrite Hv). cbn [mbind outcome_bind].
  assert (Hstep : ∀ P1, good P1 → ext i P P1 → (∀ r, getRule s = Some r → PIter.rule (pos c) = Some r → advanced P1 i (keyOf s)) →
    returns (completeLoop depth fuel P1 (mkPtr i idx) c (k + 1)) (λ P', good P' ∧ ext i P P' ∧ ∀ r a key, PIter.rule (pos c) = Some r → k ≤ a →
      keyAt P (from c) a = Some key → waits key r → advanced P' i key)).
  { intros P1 Hg1 He1 Ha1. pose proof (ext_len _ _ _ (from c) He1). eapply returns_mono; [apply (IH P1 i c (k + 1)); try done; [by eapply keyAt_ext|lia|lia]|].
    intros P2 (Hg2 & He2 & Hk2). split_and!; [done|by eapply ext_trans|]. intros r a key Hr Ha Hka Hw. destruct (decide (a = k)) as [->|].
    - unfold keyAt in Hka. rewrite Hs in Hka. injection Hka as <-. eapply advanced_ext; [exact He2|]. apply (Ha1 r); [by apply waits_iff|done].
    - apply (Hk2 r a); [done|lia|by eapply keyAt_ext|done]. }
  destruct (getRule s) as [r|] eqn:Er; [|by apply Hstep; [|apply ext_refl|]].
  case_bool_decide as Hr; cbn [negb]; [|apply Hstep; [done|apply ext_refl|]; intros r' [= <-] Hr'; congruence].
  pose proof Hc as (sc & Hsc & E)%keyAt_Some. destruct (keyOf_eq _ _ E) as [Epos Efr].
  eapply returns_bind2; [apply (advance_run P i s _ _ i Hg Hi ltac:(lia))|].
  - intros po' Hn. apply (okState_rule P (from c) k s i idx sc r po'); rewrite ?Epos; try done. lia.
  - intros P1 (Hg1 & He1 & Ha1). by apply Hstep.
Qed.

Lemma setFuel_good P i : good P → setFuel P i = Datatypes.S (Datatypes.S (capacity S * Z.to_nat (i + 1))).
Proof. intros Hg. unfold setFuel, capacity, tokenCount. cbn. rewrite (g_root _ _ _ _ Hg). pose proof (ok_count _ _ _ (g_rules _ _ _ _ Hg)) as H. unfold tokenCount in H. by rewrite <- H. Qed.

Lemma completer_run P i idx s : good P → 0 ≤ i ≤ n S → keyAt P i idx = Some (keyOf s) →
  returns (completer depth P (mkPtr i idx) s) (λ P', good P' ∧ ext i P P' ∧ ∀ r a key, completes P r i (from s) idx →
    keyAt P (from s) a = Some key → waits key r → advanced P' i key).
Proof.
  intros Hg Hi Hs. unfold completer.
  assert (Hcompl : ∀ r, completes P r i (from s) idx ↔ PIter.end_ (pos s) = true ∧ PIter.rule (pos s) = Some r).
  { intros r. unfold completes. rewrite Hs. unfold keyOf, production, finished, PIter.rule. destruct (pos s) as [q qp]. cbn. naive_solver. }
  destruct (PIter.end_ (pos s)) eqn:He; cbn [negb]; [|apply returns_ret; split_and!; [done|apply ext_refl|by intros r a key [? _]%Hcompl]].
  cbn [step]. rewrite setFuel_good by done. eapply returns_mono; [apply completeLoop_run; try done; [pose proof (zlen_nonneg (stAt P (from s))); lia|lia]|].
  intros P1 (H1 & H2 & H3). split_and!; [done|done|]. intros r a key [_ Hr]%Hcompl Ha Hw. apply (H3 r a); try done.
  apply (keyAt_lt P (from s) a). eauto.
Qed.

Lemma scanner_run P i idx s : good P → 0 ≤ i ≤ n S → keyAt P i idx = Some (keyOf s) →
  returns (scanner depth P (mkPtr i idx) s) (λ P', good P' ∧ ext i P P' ∧ ∀ x j, getRegex s = Some x → tokenSpan S x i j → advanced P' j (keyOf s)).
Proof.
  intros Hg Hi Hs. unfold scanner. destruct (getRegex s) as [x|] eqn:Ex; [|apply returns_ret; split_and!; [done|apply ext_refl|done]].
  pose proof Hs as (s' & Hs' & E)%keyAt_Some. destruct (keyOf_eq _ _ E) as [Epos Efr]. pose proof (state_known _ _ _ _ Hg Hs') as Ks.
  pose proof (getRegex_token s x Ex) as (t & Ht & Hx). destruct (g_steps _ _ _ _ Hg) as (l & El & Hl & _). rewrite (g_src _ _ _ _ Hg), El, (g_off _ _ _ _ Hg). cbn [step].
  destruct (Hscan (production s) t x i) as (m & -> & Hm); [|by eapply tokenAt_bounds|done|done|].
  { destruct Ks as [Hkn _]. unfold production in *. by rewrite <- Epos. }
  cbn [mbind outcome_bind]. destruct Hm as [[-> Hno]|(Hne & Hsp & Huniq)].
  { rewrite Z.eqb_refl. apply returns_ret. split_and!; [done|apply ext_refl|]. intros x' j [= <-] Hj. by destruct (Hno j). }
  destruct (ok_span _ _ HS _ _ _ Hsp) as [Hj _]. rewrite (proj2 (Z.eqb_neq _ _)) by done. rewrite (proj2 (Z.ltb_ge _ _)) by lia. rewrite (proj2 (Z.ltb_ge _ _)) by lia.
  eapply returns_mono; [apply (advance_run P (m - off) s _ _ i Hg); [lia|lia|]|].
  - intros po' Hn. pose proof (okState_regex P i idx s' (m - off) x po') as H. unfold production in *. rewrite <- Epos, <- Efr in *.
    apply H; try done. unfold getRegex in *. by rewrite Epos.
  - intros P1 (H1 & H2 & H3). split_and!; [done|done|]. intros x' j [= <-] Hj'. by rewrite (Huniq j Hj').
Qed.
End correct.

(** * The Earley parser finds the longest match

    A step is complete when all its states are processed; a parser whose steps are complete has
    all that can be derived, and by the invariant nothing else. *)

Import StatePtr State Earley.

Section parse.
Context (moves : gmap nat RuleInfo → nat → bool) (S : setting) (depth : nat) (HS : okSetting S depth) (str : StrObj) (off : Z).
Context (Hscan : scans S str off).

Notation good := (good S str off).

(** ** Processed states *)

(** Before a token for the regular expression [x]. *)
Definition reads (k : key) (x : Regex.Regex) : Prop := let '(p, po, _) := k in ∃ t, tokenAt p po = Some t ∧ asRegex t = Some x.

Lemma reads_iff s x : reads (keyOf s) x ↔ getRegex s = Some x.
Proof. unfold reads, keyOf, getRegex, tokenAt, production. destruct (pos s) as [p po]. cbn. by rewrite bind_Some. Qed.

(** What follows from the first [k] states of the step [i], and from the steps before it, is
    there. *)
Record processed (P : Parser) (i k : Z) : Prop := {
  pr_predict : ∀ idx key r q po, idx < k → keyAt P i idx = Some key → waits key r → q ∈ G S r → first q po → (q, po, i) ∈ keyOf <$> stAt P i;
  pr_scan : ∀ idx key x j, idx < k → keyAt P i idx = Some key → reads key x → tokenSpan S x i j → advanced P j key;
  pr_complete : ∀ c m a key r, c < k → m < i ∨ m = i ∧ a < k → completes P r i m c → keyAt P m a = Some key → waits key r → advanced P i key;
}.

Lemma keyAt_back w P P' i idx k : ext w P P' → idx < zlen (stAt P i) → keyAt P' i idx = Some k → keyAt P i idx = Some k.
Proof.
  intros He Hlt Hk. pose proof (proj1 (keyAt_lt P' i idx) ltac:(eauto)). rewrite <- (keyAt_inv _ _ _ _ _ He); [done|]. apply keyAt_lt. lia.
Qed.

Lemma keyAt_old w P P' m a : ext w P P' → m < w → keyAt P' m a = keyAt P m a.
Proof. intros He Hm. unfold keyAt. by rewrite (ext_old _ _ _ He). Qed.

Lemma completes_back w P P' r i m c : ext w P P' → c < zlen (stAt P i) → completes P' r i m c → completes P r i m c.
Proof. intros He Hlt (q & qp & Hk & H). exists q, qp. split; [by eapply keyAt_back|done]. Qed.

Lemma processed_ext P P' i k : ext i P P' → k ≤ zlen (stAt P i) → processed P i k → processed P' i k.
Proof.
  intros He Hk [H1 H2 H3]. split.
  - intros idx key r q po Hi Hkey Hw Hq Hf. eapply key_ext; [done|]. eapply (H1 idx); try done. eapply keyAt_back; [done|lia|done].
  - intros idx key x j Hi Hkey Hr Hj. eapply advanced_ext; [done|]. eapply (H2 idx); try done. eapply keyAt_back; [done|lia|done].
  - intros c m a key r Hc Hm Hcc Hkey Hw. eapply advanced_ext; [done|]. apply (H3 c m a key r); try done.
    + eapply completes_back; [done|lia|done].
    + destruct Hm as [Hm|[-> Ha]]; [by rewrite <- (keyAt_old _ _ _ _ _ He)|]. eapply keyAt_back; [done|lia|done].
Qed.

(** One more state is processed. *)
Lemma processed_step P P' i k s : ext i P P' → processed P i k → keyAt P i k = Some (keyOf s) →
  (∀ r, getRule s = Some r → (∀ q po, q ∈ G S r → first q po → (q, po, i) ∈ keyOf <$> stAt P' i) ∧
    (∀ c, 0 ≤ c < k → completes P r i i c → advanced P' i (keyOf s))) →
  (∀ r a key, completes P r i (from s) k → keyAt P (from s) a = Some key → waits key r → advanced P' i key) →
  (∀ x j, getRegex s = Some x → tokenSpan S x i j → advanced P' j (keyOf s)) → processed P' i (k + 1).
Proof.
  intros He Hp Hk Hpred Hcomp Hsc. pose proof (proj1 (keyAt_lt P i k) ltac:(eauto)) as Hlt.
  pose proof (processed_ext P P' i k He ltac:(lia) Hp) as [H1 H2 H3].
  assert (Hlast : ∀ key, keyAt P' i k = Some key → key = keyOf s). { intros key Hkey. rewrite (keyAt_ext _ _ _ _ _ _ He Hk) in Hkey. by injection Hkey. }
  split.
  - intros idx key r q po Hi Hkey Hw Hq Hf. destruct (decide (idx = k)) as [->|]; [|apply (H1 idx key r); [lia|done..]].
    rewrite (Hlast _ Hkey) in Hw. apply waits_iff in Hw. by apply Hpred in Hw as [Hw _]; auto.
  - intros idx key x j Hi Hkey Hr Hj. destruct (decide (idx = k)) as [->|]; [|apply (H2 idx key x); [lia|done..]].
    rewrite (Hlast _ Hkey) in *. apply (Hsc x); [by apply reads_iff|done].
  - intros c m a key r Hc Hm Hcc Hkey Hw. apply (completes_back _ _ _ _ _ _ _ He) in Hcc; [|lia].
    assert (Hkey' : keyAt P m a = Some key). { destruct Hm as [Hm|[-> Ha]]; [by rewrite <- (keyAt_old _ _ _ _ _ He)|]. eapply keyAt_back; [done|lia|done]. }
    destruct (decide (c = k)) as [->|Hne].
    { assert (m = from s) as ->. { destruct Hcc as (q & qp & Hq & _). rewrite Hk in Hq. by injection Hq. } by apply (Hcomp r a). }
    destruct (decide (m = i ∧ a = k)) as [[-> ->]|Hne'].
    { rewrite (Hlast _ Hkey) in *. apply waits_iff in Hw. destruct (Hpred r Hw) as [_ Hn]. apply (Hn c); [|done]. destruct Hcc as (q & qp & Hq & _).
      pose proof (proj1 (keyAt_lt P i c) ltac:(eauto)). lia. }
    apply (H3 c m a key r); [lia|lia|by eapply completes_ext|done|done].
Qed.

(** ** Steps *)

(** A finished root is among the first [k] states of the step. *)
Definition rootSeen (P : Parser) (i k : Z) : Prop := ∃ idx po fr, idx < k ∧ keyAt P i idx = Some (rootP S, po, fr) ∧ finished (rootP S) po.

Lemma rootSeen_ext P P' i k : ext i P P' → k ≤ zlen (stAt P i) → rootSeen P' i k ↔ rootSeen P i k.
Proof.
  intros He Hk. split; intros (idx & po & fr & Hi & Hkey & Hf); exists idx, po, fr; split_and!; try done; [eapply keyAt_back; [done|lia|done]|by eapply keyAt_ext].
Qed.

Lemma finishes_iff P i s idx : good P → stAt P i !! idx = Some s → finishes s (rootProd P) = true ↔ production s = rootP S ∧ finished (rootP S) (PIter.pos (pos s)).
Proof.
  intros Hg Hs. destruct (state_known S str off _ _ _ _ Hg Hs) as [Hkn _]. rewrite (g_root _ _ _ _ Hg). unfold finishes. rewrite andb_true_iff, Nat.eqb_eq.
  unfold finished, production in *. destruct (pos s) as [p po]. cbn in *. split; [intros [E H]|intros [-> H]; done].
  assert (p = rootP S) as -> by (apply (ok_addr _ _ HS); [done|by left|done]). done.
Qed.

Lemma rootSeen_step P i k s : good P → stAt P i !! k = Some s → rootSeen P i (k + 1) ↔ rootSeen P i k ∨ finishes s (rootProd P) = true.
Proof.
  intros Hg Hs. rewrite (finishes_iff P i s k Hg Hs). split.
  - intros (idx & po & fr & Hi & Hkey & Hf). destruct (decide (idx = k)) as [->|]; [|left; exists idx, po, fr; split_and!; [lia|done|done]].
    right. unfold keyAt in Hkey. rewrite Hs in Hkey. injection Hkey as E1 E2 E3. by rewrite E2.
  - intros [(idx & po & fr & Hi & Hkey & Hf)|[E Hf]]; [exists idx, po, fr; split_and!; [lia|done|done]|].
    exists k, (PIter.pos (pos s)), (from s). split_and!; [lia| |done]. unfold keyAt. rewrite Hs. cbn. unfold keyOf. by rewrite E.
Qed.

Lemma processLoop_run i fuel : 0 ≤ i ≤ n S → ∀ P k seen, good P → 0 ≤ k ≤ zlen (stAt P i) → processed P i k → (seen = true ↔ rootSeen P i k) →
  (capacity S * Z.to_nat (i + 1) < fuel + Z.to_nat k)%nat →
  returns (processLoop moves depth fuel P i k seen) (λ '(P', seen'), good P' ∧ ext i P P' ∧ processed P' i (zlen (stAt P' i)) ∧ (seen' = true ↔ rootSeen P' i (zlen (stAt P' i)))).
Proof.
  intros Hi. induction fuel as [|fuel IH]; intros P k seen Hg Hk Hp Hseen Hf; pose proof (states_bound S depth HS str off P i Hg ltac:(lia)) as Hb; [unfold zlen in *; lia|].
  cbn [processLoop]. destruct (getSet_run S str off P i Hg Hi) as (ss & -> & Hss & Hv). cbn [mbind outcome_bind].
  rewrite (view_count ss) by (done || rewrite Hv; pose proof (states_small S depth HS str off P i Hg Hi); lia). rewrite Hv.
  destruct (Z.ltb_spec k (zlen (stAt P i))) as [Hlt|Hge].
  2:{ apply returns_ret. assert (k = zlen (stAt P i)) as -> by lia. split_and!; [done|apply ext_refl|done|done]. }
  destruct (lookupZ_lt_Some (stAt P i) k ltac:(lia)) as [s Hs]. rewrite (view_get ss k s) by (done || by rewrite Hv). cbn [mbind outcome_bind].
  assert (Hkey : keyAt P i k = Some (keyOf s)) by (apply keyAt_Some; eauto).
  eapply returns_bind; [by apply (predictor_run moves S depth HS str off P i k s)|]. intros P1 (Hg1 & He1 & Hpred).
  eapply returns_bind; [apply (completer_run S depth HS str off P1 i k s); [done|done|by eapply keyAt_ext]|]. intros P2 (Hg2 & He2 & Hcomp).
  eapply returns_bind; [apply (scanner_run S depth HS str off Hscan P2 i k s); [done|done|eapply keyAt_ext; [done|by eapply keyAt_ext]]|]. intros P3 (Hg3 & He3 & Hsc).
  assert (He12 : ext i P1 P3) by eauto using ext_trans. assert (He : ext i P P3) by eauto using ext_trans. pose proof (ext_len _ _ _ i He).
  eapply returns_mono; [apply (IH P3 (k + 1)); [done|lia| | |lia]|].
  - apply (processed_step P P3 i k s He Hp Hkey).
    + intros r Hr. destruct (Hpred r Hr) as [A B]. split; [intros q po Hq Hfi; eapply key_ext; [exact He12|]; by apply A|].
      intros c Hc Hcc. eapply advanced_ext; [exact He12|]. by apply (B c).
    + intros r a key Hcc Ha Hw. eapply advanced_ext; [exact He3|]. apply (Hcomp r a); [by eapply completes_ext|by eapply keyAt_ext|done].
    + intros x j Hx Hj. by apply (Hsc x).
  - rewrite (rootSeen_ext P P3) by (done || lia). rewrite (rootSeen_step P i k s Hg Hs), orb_true_iff, Hseen, (g_root _ _ _ _ Hg3), (g_root _ _ _ _ Hg). done.
  - intros [P4 seen'] (Hg4 & He4 & Hp4 & Hs4). split_and!; [done|by eapply ext_trans|done|done].
Qed.
(** A step all whose states are processed. *)
Definition closed (P : Parser) (i : Z) : Prop := processed P i (zlen (stAt P i)).
Definition matched (P : Parser) (i : Z) : Prop := rootSeen P i (zlen (stAt P i)).

Lemma process_run P i : good P → 0 ≤ i ≤ n S → returns (process moves depth P i) (λ '(P', seen), good P' ∧ ext i P P' ∧ closed P' i ∧ (seen = true ↔ matched P' i)).
Proof.
  intros Hg Hi. unfold process. rewrite (setFuel_good S str off) by done. apply processLoop_run; [done|done| | | |lia].
  - pose proof (zlen_nonneg (stAt P i)). lia.
  - split; intros idx **; [pose proof (proj1 (keyAt_lt P i idx) ltac:(eauto)); lia..|].
    match goal with H : completes _ _ _ _ _ |- _ => destruct H as (q & qp & Hq & _) end. pose proof (proj1 (keyAt_lt P i idx) ltac:(eauto)). lia.
  - split; [done|]. intros (idx & po & fr & Hlt & Hk & _). pose proof (proj1 (keyAt_lt P i idx) ltac:(eauto)). lia.
Qed.

Lemma closed_ext w P P' i : ext w P P' → i < w → closed P i → closed P' i.
Proof.
  intros He Hi H. unfold closed. rewrite (ext_old _ _ _ He) by done. apply (processed_ext P); [|done|done]. eapply ext_weaken; [|done]. lia.
Qed.

Lemma matched_ext w P P' i : ext w P P' → i < w → matched P' i ↔ matched P i.
Proof. intros He Hi. unfold matched, rootSeen, keyAt. by rewrite (ext_old _ _ _ He). Qed.

(** [lastFinish] is the last of the steps before [i] that has a finished root. *)
Definition finishAt (P : Parser) (z i : Z) : Prop :=
  (lastFinish P = z ∧ ∀ j, 0 ≤ j < i → ¬ matched P j) ∨
  (0 ≤ lastFinish P < i ∧ matched P (lastFinish P) ∧ ∀ j, lastFinish P < j < i → ¬ matched P j).

Definition withFinish (P : Parser) (i : Z) : Parser := mkParser (rules P) (src P) (srcOffset P) (rootProd P) (steps P) i.

Lemma link_withFinish P z i p po fr a b : link S P i p po fr a b → link S (withFinish P z) i p po fr a b.
Proof. destruct 1; [by apply link_first|by eapply link_regex|by eapply link_rule]. Qed.

Lemma good_withFinish P i : good P → good (withFinish P i).
Proof.
  intros [H1 H2 H3 H4 H5 H6 H7]. split; try done. intros j s Hs. destruct (H7 j s Hs) as [K1 K2 K3 K4 K5 K6]. split; try done. by apply link_withFinish.
Qed.

Lemma closed_withFinish P z i : closed P i → closed (withFinish P z) i.
Proof. intros [H1 H2 H3]. split; [exact H1|exact H2|exact H3]. Qed.

Lemma stepsLoop_run z m : ∀ P i, good P → 0 ≤ i → i + Z.of_nat m = n S + 1 → (∀ j, 0 ≤ j < i → closed P j) → finishAt P z i →
  returns (stepsLoop moves depth m P i) (λ P', good P' ∧ (∀ j, 0 ≤ j ≤ n S → closed P' j) ∧ finishAt P' z (n S + 1) ∧
    ∀ j key, key ∈ keyOf <$> stAt P j → key ∈ keyOf <$> stAt P' j).
Proof.
  induction m as [|m IH]; intros P i Hg Hi Hm Hcl Hfin; cbn [stepsLoop].
  { apply returns_ret. assert (i = n S + 1) as -> by lia. split_and!; [done|intros j Hj; apply Hcl; lia|done|done]. }
  eapply returns_bind; [apply (process_run P i Hg ltac:(lia))|]. intros [P1 seen] (Hg1 & He1 & Hc1 & Hs1).
  assert (Hcl1 : ∀ j, 0 ≤ j < i + 1 → closed P1 j).
  { intros j Hj. destruct (decide (j = i)) as [->|]; [done|]. eapply closed_ext; [exact He1|lia|]. apply Hcl. lia. }
  assert (Hold : ∀ j, j < i → matched P1 j ↔ matched P j) by (intros j Hj; by apply (matched_ext i)).
  destruct seen; [fold (withFinish P1 i)|]; (eapply returns_mono; [apply IH; [by try apply good_withFinish|lia|lia| |]|]).
  - intros j Hj. apply closed_withFinish. by apply Hcl1.
  - right. cbn. split_and!; [lia|lia|by apply Hs1|intros j Hj; lia].
  - intros P2 (H1 & H2 & H3 & H4). split_and!; [done|done|done|]. intros j key Hk. apply (H4 j key). by apply (key_ext _ _ _ _ _ He1).
  - exact Hcl1.
  - assert (Hno : ¬ matched P1 i) by (intros H; by apply Hs1 in H). unfold finishAt. rewrite (ext_finish _ _ _ He1).
    destruct Hfin as [[E Hj]|(Hl & Hml & Hj)].
    + left. split; [done|]. intros j Hj'. destruct (decide (j = i)) as [->|]; [done|]. rewrite Hold by lia. apply Hj. lia.
    + right. split_and!; [lia|lia|apply Hold; [lia|done]|]. intros j Hj'. destruct (decide (j = i)) as [->|]; [done|]. rewrite Hold by lia. apply Hj. lia.
  - intros P2 (H1 & H2 & H3 & H4). split_and!; [done|done|done|]. intros j key Hk. apply (H4 j key). by apply (key_ext _ _ _ _ _ He1).
Qed.

(** ** All derivations are found *)

Section complete.
Context (P : Parser) (Hg : good P) (Hcl : ∀ j, 0 ≤ j ≤ n S → closed P j).

Notation has i k := (k ∈ keyOf <$> stAt P i).

Lemma has_bounds i k : has i k → 0 ≤ i ≤ n S ∧ ∃ idx, idx < zlen (stAt P i) ∧ keyAt P i idx = Some k.
Proof.
  intros [idx Hk]%key_elem. split; [|exists idx; split; [apply (keyAt_lt P i idx); eauto|done]]. apply keyAt_Some in Hk as (s & Hs & _).
  destruct (g_steps _ _ _ _ Hg) as (l & El & Hl & _). unfold stAt in Hs. rewrite El in Hs. destruct (l !! i) as [ss|] eqn:Ei; [|by rewrite lookupZ_nil in Hs].
  apply lookupZ_Some_lt in Ei. lia.
Qed.

Lemma has_known i p po fr : has i (p, po, fr) → known S p.
Proof. intros [idx (s & Hs & E)%keyAt_Some]%key_elem. destruct (state_known S str off _ _ _ _ Hg Hs) as [Hkn _]. by injection E as <-. Qed.

Lemma earley_complete : (∀ r i j, derives (G S) (tokenSpan S) r i j → ∀ k, has i k → waits k r → advanced P j k) ∧
  (∀ ts i j, spans (G S) (tokenSpan S) ts i j → ∀ p po fr po', has i (p, po, fr) → run p po ts po' → has j (p, po', fr)).
Proof.
  apply derives_spans_ind.
  - intros r q ts i j Hq Hx _ IH k Hk Hw. destruct (has_bounds _ _ Hk) as (Hi & a & Ha & Hka).
    assert (Hkq : known S q) by (right; eauto). apply expansion_runs in Hx as (po0 & poE & Hf & Hr & He); [|by apply (ok_wf _ _ HS)].
    pose proof (IH q po0 i poE (pr_predict _ _ _ (Hcl i Hi) a k r q po0 Ha Hka Hw Hq Hf) Hr) as Hend.
    destruct (has_bounds _ _ Hend) as (Hj & c & Hc & Hkc). pose proof (ok_rule _ _ HS _ _ Hq) as Hrule.
    assert (i ≤ j). { apply keyAt_Some in Hkc as (s & Hs & E). pose proof (from_bounds S depth HS str off P j c s Hg) as Hb. injection E as _ _ Ef.
      destruct Hb; [unfold keyAt; by rewrite Hs|]. lia. }
    apply (pr_complete _ _ _ (Hcl j Hj) c i a k r); [done| |exists q, poE; done|done|done]. destruct (decide (i = j)) as [->|]; [right; done|left; lia].
  - intros i p po fr po' Hk Hr. inversion Hr; by subst.
  - intros t x ts i m j Hx Hsp _ IH p po fr po' Hk Hr. inversion Hr as [|? ? po1 ? ? Ht Hn Hr']; subst. destruct (has_bounds _ _ Hk) as (Hi & a & Ha & Hka).
    apply (IH p po1 fr po'); [|done]. assert (Hadv : advanced P m (p, po, fr)); [|by apply Hadv].
    apply (pr_scan _ _ _ (Hcl i Hi) a _ x m Ha Hka); [exists t; done|done].
  - intros t r ts i m j Hx _ IHd _ IH p po fr po' Hk Hr. inversion Hr as [|? ? po1 ? ? Ht Hn Hr']; subst.
    apply (IH p po1 fr po'); [|done]. assert (Hadv : advanced P m (p, po, fr)); [|by apply Hadv]. apply IHd; [done|]. exists t. done.
Qed.

Lemma earley_sound i p po fr : has i (p, po, fr) → Item S p po fr i ∧ (p = rootP S → fr = 0).
Proof.
  intros [idx (s & Hs & E)%keyAt_Some]%key_elem. destruct (state_known S str off _ _ _ _ Hg Hs) as [_ _ _ Hit _ Hr].
  injection E as E1 E2 E3. rewrite E1, E2, E3 in *. done.
Qed.

(** A step has a finished root exactly if the root matches up to there. *)
Lemma matched_iff a root c i : rootP S = newProduction a [mkToken (tRule root) c] → has 0 (rootP S, 0, 0) → matched P i ↔ derives (G S) (tokenSpan S) root 0 i.
Proof.
  intros ER H0. assert (Ht : tokenAt (rootP S) 0 = Some (mkToken (tRule root) c)) by (rewrite ER; done). split.
  - intros (idx & po & fr & _ & Hk & Hfin). assert (Hh : has i (rootP S, po, fr)) by (apply key_elem; eauto).
    destruct (earley_sound _ _ _ _ Hh) as [Hit Hfr]. specialize (Hfr eq_refl). subst fr.
    destruct (item_end _ _ _ _ _ _ (ok_wf _ _ HS _ (has_known _ _ _ _ Hh)) Hit Hfin) as (ts & (k & Hk' & ->) & Hsp). rewrite ER in Hsp, Hk'. cbn in Hk'. subst k.
    cbn in Hsp. inversion Hsp as [|? ? ? ? ? ? Hx|? r ? ? m ? Hr Hd Hn]; subst; [done|]. injection Hr as <-. by inversion Hn; subst.
  - intros Hd. assert (Hadv : advanced P i (rootP S, 0, 0)) by (apply (proj1 earley_complete _ _ _ Hd); [done|]; exists (mkToken (tRule root) c); done).
    specialize (Hadv 1 ltac:(rewrite ER; by left)). destruct (has_bounds _ _ Hadv) as (_ & idx & Hidx & Hk). exists idx, 1, 0. split_and!; [done|done|]. by rewrite ER.
Qed.
End complete.
End parse.
