(* ===== verification/EarleyTextCorrect.v ===== *)
(** * The Earley parser on texts

    The setting of the proofs for a text, a grammar and its levels, and an example. *)

From stdpp Require Import base list numbers decidable option strings gmap.
From Stdlib Require Import ZArith Lia.
From S2P Require Import Prelude Utf Str StrIter Regex RegexMatchCorrect RegexParseCorrect Production Earley ProductionCorrect EarleyStateCorrect EarleyCorrect.

(** * Parsing text

    The Earley parser on strings: the regular expressions of the tokens match the longest part
    of the text, the grammar is what was added to the parser, and a condition on the grammar
    excludes derivations that contain themselves. *)

Import StatePtr State Earley.

(** ** Tokens in a text *)

(** The longest match of [x] at [i] ends at [j], for positions relative to [off]. *)
Definition textSpan (u : list Z) (off : Z) (x : Regex.Regex) (i j : Z) : Prop :=
  0 ≤ i ≤ j ∧ i + off ≤ zlen u ∧ longest (matches (Regex.states x)) (drop (Z.to_nat (i + off)) u) (Some (Z.to_nat (j - i))).

Section text.
Context (u : list Z) (off : Z) (Hoff : 0 ≤ off ≤ zlen u).

Lemma textSpan_bounds x i j : textSpan u off x i j → i ≤ j ≤ zlen u - off ∧ (i = j → matches (Regex.states x) []).
Proof.
  intros (Hij & Hu & Hk & Hm & _). rewrite length_drop in Hk. unfold zlen in *. split; [lia|]. intros ->. by rewrite Z.sub_diag in Hm.
Qed.

Lemma textSpan_unique x i j j' : textSpan u off x i j → textSpan u off x i j' → j = j'.
Proof. intros (H1 & _ & K1 & M1 & L1) (H2 & _ & K2 & M2 & L2). pose proof (L1 _ K2 M2). pose proof (L2 _ K1 M1). lia. Qed.

Lemma text_scans S str : n S = zlen u - off → tokenSpan S = textSpan u off → units (sdata str) = u ++ [0] → Forall (λ c, 0 ≤ c < 0xFFFF) u → zlen u < 2 ^ 32 - 1 →
  (∀ p t x, known S p → t ∈ tokens p → asRegex t = Some x → okRegex x) → scans S str off.
Proof.
  intros En Es Hs Hu Hz HX p t x i Hp Ht Hx Hi. rewrite Es, En in *. destruct (HX p t x Hp Ht Hx) as [Hw Hst].
  assert (Hno : ∀ z, 0xFFFF ≤ z → z ∉ u). { intros z Hz' Hin. rewrite Forall_forall in Hu. specialize (Hu z Hin). lia. }
  destruct (matchRaw_spec 0xFFFF u16 x u [0] (i + off)) as (k & E & Hk); [done|done|done|lia|intros z Hz'; apply Z.mod_small; lia|by apply Hno|by apply Hno|].
  assert (Ec : Str.charCount (sdata str) = zlen u).
  { unfold Str.charCount, scount. rewrite Hs. assert (Et : zlen (u ++ [0]) = zlen u + 1) by (rewrite zlen_app; done). rewrite Et, u32_small; [lia|]. unfold is_u32. lia. }
  exists (result (i + off) k). split; [unfold Regex.matchRawStr; rewrite Hs, Ec, u32_small by (unfold is_u32; lia); exact E|].
  destruct k as [k|]; cbn [result]; [right|left].
  - assert (Hsp : textSpan u off x i (i + Z.of_nat k)). { split_and!; [lia|lia|lia|]. by replace (Z.to_nat (i + Z.of_nat k - i)) with k by lia. }
    replace (i + off + Z.of_nat k - off) with (i + Z.of_nat k) by lia. split_and!; [|done|intros j Hj; by eapply textSpan_unique].
    apply textSpan_bounds in Hsp. unfold Regex.NO_MATCH. lia.
  - split; [done|]. intros j (_ & _ & H1 & H2 & _). by apply (Hk _ H1).
Qed.
End text.

(** ** Grammars *)

(** The productions a parser knows. *)
Definition grammarOf (R : Rules) (r : nat) : list Production := default [] (table R !! r ≫= productions).

(** Productions are well-formed, belong to their rules, and are different objects. *)
Record okGrammar (G : nat → list Production) (a : nat) : Prop := {
  gr_wf : ∀ r p, p ∈ G r → wfProduction p;
  gr_rule : ∀ r p, p ∈ G r → rule p = Some r;
  gr_addr : ∀ r r' p q, p ∈ G r → q ∈ G r' → paddr p = paddr q → p = q;
  gr_root : ∀ r p, p ∈ G r → paddr p ≠ a;
  gr_regex : ∀ r p t x, p ∈ G r → t ∈ tokens p → asRegex t = Some x → okRegex x;
}.

(** No derivation contains itself: what may be empty is followed by higher levels, and what a
    production consists of alone has a lower level. *)
Record levels (G : nat → list Production) (rootP : Production) (level : Production → Z → nat) (K : nat) : Prop := {
  lv_max : ∀ p po, (level p po < K)%nat;
  lv_null : ∀ p po po' t, (p = rootP ∨ ∃ r, p ∈ G r) → tokenAt p po = Some t → nullToken G t → next p po po' → (level p po < level p po')%nat;
  lv_rule : ∀ p po0 ts po po' t r q, (p = rootP ∨ ∃ r, p ∈ G r) → first p po0 → run p po0 ts po → nullTokens G ts → tokenAt p po = Some t → asRule t = Some r →
    q ∈ G r → next p po po' → (level q (zlen (tokens q)) < level p po')%nat;
}.

Section grammar.
Context (G : nat → list Production) (a root : nat) (c : Z) (u : list Z) (off : Z) (level : Production → Z → nat) (K : nat) (all : list Production) (depth : nat).
Notation rootP := (newProduction a [mkToken (tRule root) c]).
Notation n := (zlen u - off).
Context (Hoff : 0 ≤ off ≤ zlen u) (HG : okGrammar G a) (HL : levels G rootP level K) (Hall : ∀ r p, p ∈ G r → p ∈ all).
Context (Hsize : Z.of_nat (tokenCount (rootP :: all)) * (n + 1) < 2 ^ 32 - 1) (Hdepth : (Z.to_nat (n + 1) * K ≤ depth)%nat).

Definition textSetting : setting :=
  mkSetting G rootP n (textSpan u off) all (λ p po from i, Z.to_nat (i - from) * K + level p po)%nat.

Notation span := (textSpan u off).

Lemma span_null x i j : span x i j → i ≤ j ∧ (i = j → matches (Regex.states x) []).
Proof. intros H%textSpan_bounds. split; [lia|apply H]. Qed.

Lemma spans_inside : (∀ r i j, derives G span r i j → i = j ∨ 0 ≤ i ∧ j ≤ n) ∧ (∀ ts i j, spans G span ts i j → i = j ∨ 0 ≤ i ∧ j ≤ n).
Proof.
  apply derives_spans_ind.
  - done.
  - by left.
  - intros t x ts i m j _ Hm Hs IH. pose proof Hm as [? _]. apply textSpan_bounds in Hm. right. lia.
  - intros t r ts i m j _ Hd IHd Hs IHs. apply (spans_bounds _ _ span_null) in Hd as [? _], Hs as [? _]. lia.
Qed.

Lemma known_wf p : known textSetting p → wfProduction p.
Proof. intros [->|[r Hr]]; [|by apply (gr_wf _ _ HG r)]. split; [split|..]; vm_compute; first [discriminate|reflexivity]. Qed.

Lemma end_pos p po from i : known textSetting p → item G span p po from i → finished p po → po = zlen (tokens p).
Proof.
  intros Hp (po0 & ts & Hf & Hr & _) He. apply known_wf in Hp. pose proof (run_bounds p Hp _ _ _ (first_bounds p Hp _ Hf) Hr).
  unfold finished, PIter.end_ in He. cbn in He. apply Z.leb_le in He. lia.
Qed.

Lemma textSetting_ok : okSetting textSetting depth.
Proof.
  pose proof (zlen_nonneg u) as Hu. split; cbn.
  - apply known_wf.
  - apply (gr_rule _ _ HG).
  - done.
  - intros p q [->|[r Hr]] [->|[r' Hr']] E; cbn in *; [done|by destruct (gr_root _ _ HG _ _ Hr')|by destruct (gr_root _ _ HG _ _ Hr)|by apply (gr_addr _ _ HG r r')].
  - intros p t x [->|[r Hr]] Ht Hx; [|by apply (gr_regex _ _ HG r p t)]. cbn in Ht. apply list_elem_of_singleton in Ht as ->. done.
  - done.
  - lia.
  - exact Hsize.
  - intros x i j H. by apply textSpan_bounds.
  - intros p po po' from m i t x Hp Hit Ht Hn Hx Hsp. pose proof (item_bounds _ _ span_null _ _ _ _ Hit). pose proof (span_null _ _ _ Hsp) as [Hmi H0].
    pose proof (lv_max _ _ _ _ HL p po). destruct (decide (m = i)) as [->|].
    + apply Nat.add_lt_mono_l. apply (lv_null _ _ _ _ HL p po po' t); [done|done| |done]. unfold nullToken. unfold asRegex in Hx. destruct (type t); simplify_eq. auto.
    + replace (Z.to_nat (i - from)) with (Z.to_nat (m - from) + Z.to_nat (i - m))%nat by lia. assert (1 ≤ Z.to_nat (i - m))%nat by lia. nia.
  - intros p po po' from m i t r q qpos Hp Hit Ht Hn Hr Hq Hitq He. pose proof (item_bounds _ _ span_null _ _ _ _ Hit). pose proof (item_bounds _ _ span_null _ _ _ _ Hitq).
    assert (Hkq : known textSetting q) by (right; eauto). pose proof (lv_max _ _ _ _ HL p po). pose proof (lv_max _ _ _ _ HL q qpos). split.
    + destruct (decide (m = i)) as [->|].
      * apply Nat.add_lt_mono_l. apply (lv_null _ _ _ _ HL p po po' t); [done|done| |done]. unfold nullToken.
        pose proof (item_nullable _ _ span_null r q qpos i (known_wf _ Hkq) Hq Hitq He). unfold asRule in Hr. destruct (type t); by simplify_eq.
      * replace (Z.to_nat (i - from)) with (Z.to_nat (m - from) + Z.to_nat (i - m))%nat by lia. assert (1 ≤ Z.to_nat (i - m))%nat by lia. nia.
    + destruct (decide (from = m)) as [->|].
      * apply Nat.add_lt_mono_l. rewrite (end_pos q qpos m i) by done. destruct Hit as (po0 & ts & Hf & Hrun & Hs).
        apply (lv_rule _ _ _ _ HL p po0 ts po po' t r q); try done. by apply (spans_bounds _ _ span_null) in Hs as [_ Hs]; auto.
      * replace (Z.to_nat (i - from)) with (Z.to_nat (i - m) + Z.to_nat (m - from))%nat by lia. assert (1 ≤ Z.to_nat (m - from))%nat by lia. nia.
  - intros p po from i Hp (po0 & ts & _ & _ & Hs). pose proof (lv_max _ _ _ _ HL p po). pose proof (proj1 (proj2 (spans_bounds _ _ span_null) _ _ _ Hs)).
    apply spans_inside in Hs. apply Nat.lt_le_trans with (Datatypes.S (Z.to_nat (i - from)) * K)%nat; [lia|]. etransitivity; [|exact Hdepth]. apply Nat.mul_le_mono_r. lia.
Qed.
End grammar.

(** ** Parsing *)

(** What a parser remembers about empty rules is true. *)
Definition nullInfo (R : Rules) : Prop := ∀ r i, table R !! r = Some i → matchesNull i = 0 → ¬ nullable (grammarOf R) r.

Definition startParser (P : Parser) (rootP : Production) (str : StrObj) (off len : Z) : Parser :=
  mkParser (rules P) (Some str) off rootP (Some (replicate (Z.to_nat len) StateSet.new)) (u32 (len + 1)).

Lemma stAt_start P rootP str off len i : stAt (startParser P rootP str off len) i = [].
Proof.
  unfold stAt. cbn. destruct (replicate (Z.to_nat len) StateSet.new !! i) as [ss|] eqn:E; [|done].
  pose proof (lookupZ_Some_lt _ _ _ E) as Hlt. rewrite lookupZ_to_nat in E by lia. apply lookup_replicate in E as [-> _]. done.
Qed.

Lemma start_good P S str off : 0 ≤ n S → okRules (G S) (tokenCount (allP S)) (rules P) → good S str off (startParser P (rootP S) str off (n S + 1)).
Proof.
  intros Hn HR. split; try done.
  - exists (replicate (Z.to_nat (n S + 1)) StateSet.new). split_and!; [done|unfold zlen; rewrite length_replicate; lia|]. by apply Forall_replicate.
  - intros i. rewrite stAt_start. constructor.
  - intros i s. rewrite stAt_start. by intros H%not_elem_of_nil.
Qed.

Lemma okRules_grammar G N R : okRules G N R → ∀ r, grammarOf R r = G r.
Proof. intros H. apply H. Qed.

Lemma nullable_ext G G' r : (∀ r, G r = G' r) → nullable G r → nullable G' r.
Proof.
  intros E. revert r. fix IH 2. intros r [r' p ts Hp Hx Hn]. econstructor; [by rewrite <- E|done|]. clear Hx. revert ts Hn. fix IHt 2. intros ts [|t x ts' Hx Hm Hn|t r0 ts' Hr Hnr Hn].
  - constructor.
  - eapply null_regex; [done|done|by apply IHt].
  - eapply null_rule; [done|by apply IH|by apply IHt].
Qed.

Section parse.
Context (moves : gmap nat RuleInfo → nat → bool) (S : setting) (depth : nat) (HS : okSetting S depth) (str : StrObj) (off : Z) (Hscan : scans S str off).

Lemma root_pushed a root c P : rootP S = newProduction a [mkToken (tRule root) c] → good S str off P →
  returns (push depth P 0 (PIter.firstA (rootP S)) 0 null null) (λ P', good S str off P' ∧ ext 0 P P' ∧ (rootP S, 0, 0) ∈ keyOf <$> stAt P' 0).
Proof.
  intros ER Hg. pose proof (ok_n _ _ HS). eapply returns_mono; [apply (pushIter_run S depth HS str off P 0 _ 0 null null 0 Hg); [lia|lia|]|].
  - intros x [= <-]. split; unfold production; cbn; [by left|done|pose proof (zlen_nonneg (tokens (rootP S))); lia|apply item_first; by left|apply link_first; [by left|done]|done].
  - intros P' (H1 & H2 & H3). split_and!; [done|done|]. by apply (H3 (PIter.mkPIter (rootP S) 0)).
Qed.

(** The parser with its steps. *)
Lemma parse_steps a root c P : rootP S = newProduction a [mkToken (tRule root) c] → okRules (G S) (tokenCount (allP S)) (rules P) → n S < 2 ^ 32 - 2 →
  returns (P ← push depth (startParser P (rootP S) str off (n S + 1)) 0 (PIter.firstA (rootP S)) 0 null null; stepsLoop moves depth (Z.to_nat (n S + 1)) P 0)
    (λ P', good S str off P' ∧ (∀ i, matched S P' i ↔ derives (G S) (tokenSpan S) root 0 i) ∧ finishAt S P' (n S + 2) (n S + 1)).
Proof.
  intros ER HR Hn. pose proof (ok_n _ _ HS) as Hn0. pose proof (start_good P S str off Hn0 HR) as Hg. set (P0 := startParser P (rootP S) str off (n S + 1)) in *.
  eapply returns_bind; [by apply (root_pushed a root c)|]. intros P1 (Hg1 & He1 & Hk1).
  eapply returns_mono; [apply (stepsLoop_run moves S depth HS str off Hscan (n S + 2)); [done|lia|lia|intros j; lia|]|].
  - left. split; [|intros j; lia]. rewrite (ext_finish _ _ _ He1). cbn. rewrite u32_small by (unfold is_u32; lia). lia.
  - intros P2 (Hg2 & Hcl & Hfin & Hk2). split_and!; [done| |done]. intros i. apply (matched_iff S depth HS str off P2 Hg2 Hcl a root c i ER). by apply Hk2.
Qed.
End parse.

(** ** Results *)

Lemma finishLoop_run S depth (HS : okSetting S depth) str off P i ss m : good S str off P → wfStates ss → view ss = stAt P i → ∀ k, 0 ≤ k → k + Z.of_nat m = zlen (stAt P i) →
  returns (finishLoop m ss (rootProd P) k) (λ f, match f with
    | Some s => ∃ idx, stAt P i !! idx = Some s ∧ production s = rootP S ∧ finished (rootP S) (PIter.pos (pos s))
    | None => ∀ idx po fr, k ≤ idx → keyAt P i idx = Some (rootP S, po, fr) → ¬ finished (rootP S) po end).
Proof.
  intros Hg Hw Hv. induction m as [|m IH]; intros k Hk Hm; cbn [finishLoop].
  - apply returns_ret. intros idx po fr Hi Hkey. pose proof (proj1 (keyAt_lt P i idx) ltac:(eauto)). lia.
  - destruct (lookupZ_lt_Some (stAt P i) k ltac:(lia)) as [s Hs]. rewrite (view_get ss k s) by (done || by rewrite Hv). cbn [mbind outcome_bind].
    pose proof (finishes_iff S depth HS str off P i s k Hg Hs) as Hf. destruct (finishes s (rootProd P)).
    + apply returns_ret. exists k. split; [done|]. by apply Hf.
    + eapply returns_mono; [apply IH; lia|]. intros [s'|]; [done|]. intros Hno idx po fr Hi Hkey Hfin. destruct (decide (idx = k)) as [->|]; [|by apply (Hno idx po fr); [lia|..]].
      unfold keyAt in Hkey. rewrite Hs in Hkey. injection Hkey as E1 E2 E3. subst po. by destruct Hf as [_ Hf]; discriminate Hf.
Qed.

Lemma finish_run S depth (HS : okSetting S depth) str off P : good S str off P → finishAt S P (n S + 2) (n S + 1) →
  returns (finish P) (λ f, match f with
    | Some s => 0 ≤ lastFinish P ≤ n S ∧ matched S P (lastFinish P) ∧ ∃ idx, stAt P (lastFinish P) !! idx = Some s ∧ production s = rootP S ∧ finished (rootP S) (PIter.pos (pos s))
    | None => lastFinish P = n S + 2 end).
Proof.
  intros Hg Hfin. unfold finish. destruct (g_steps _ _ _ _ Hg) as (l & El & Hl & Hwl). rewrite El, Hl. pose proof (ok_n _ _ HS).
  destruct Hfin as [[E _]|(Hlf & Hmt & _)].
  - rewrite (proj2 (Z.leb_le _ _)) by lia. done.
  - rewrite (proj2 (Z.leb_gt _ _)) by lia. destruct (getSet_run S str off P (lastFinish P) Hg ltac:(lia)) as (ss & Hss & Hw & Hv).
    unfold getSet in Hss. rewrite El in Hss. rewrite Hss. cbn [mbind outcome_bind].
    rewrite (view_count ss) by (done || rewrite Hv; pose proof (states_small S depth HS str off P (lastFinish P) Hg ltac:(lia)); lia). rewrite Hv.
    eapply returns_mono; [apply (finishLoop_run S depth HS str off P (lastFinish P)); [done|done|done|lia|unfold zlen; lia]|]. intros [s|] H1.
    + split_and!; [lia|lia|done|done].
    + destruct Hmt as (idx & po & fr & _ & Hk & Hf). pose proof (proj1 (keyAt_lt P (lastFinish P) idx) ltac:(eauto)). by destruct (H1 idx po fr ltac:(lia) Hk).
Qed.

(** What can be said about the parser after [parse], for a text and a grammar without cycles. *)
Record parsed (S : setting) (root : nat) (str : StrObj) (off : Z) (P' : Parser) (b : bool) : Prop := {
  pa_good : good S str off P';
  pa_matched : ∀ i, matched S P' i ↔ derives (G S) (tokenSpan S) root 0 i;
  pa_finish : finishAt S P' (n S + 2) (n S + 1);
  pa_result : b = (lastFinish P' <? n S + 1);
}.

Section result.
Context (S : setting) (depth : nat) (HS : okSetting S depth) (root : nat) (str : StrObj) (off : Z) (P' : Parser) (b : bool) (Hp : parsed S root str off P' b).

Notation D := (derives (G S) (tokenSpan S) root 0).

Lemma derived_bounds i : D i → 0 ≤ i ≤ n S.
Proof.
  intros H%(pa_matched _ _ _ _ _ _ Hp). destruct H as (idx & po & fr & _ & Hk & _). apply (has_bounds S str off P' (pa_good _ _ _ _ _ _ Hp) i (rootP S, po, fr)).
  apply key_elem. eauto.
Qed.

Lemma parsed_last : (b = true → D (lastFinish P') ∧ ∀ j, D j → j ≤ lastFinish P') ∧ (b = true ↔ ∃ j, D j).
Proof.
  destruct Hp as [Hg Hm Hf Eb]. pose proof (ok_n _ _ HS). destruct Hf as [[E Hno]|(Hl & Hml & Hmax)].
  - rewrite Eb, E, (proj2 (Z.ltb_ge _ _)) by lia. split; [done|]. split; [done|]. intros [j Hj]. destruct (Hno j); [|by apply Hm]. pose proof (derived_bounds j Hj). lia.
  - rewrite Eb, (proj2 (Z.ltb_lt _ _)) by lia. assert (Hd : D (lastFinish P')) by (by apply Hm). split; [|split; [by eexists|done]]. intros _. split; [done|].
    intros j Hj. destruct (decide (j ≤ lastFinish P')) as [|Hgt]; [done|]. destruct (Hmax j); [|by apply Hm]. pose proof (derived_bounds j Hj). lia.
Qed.

Lemma parsed_results : 0 ≤ off → off + n S < 2 ^ 32 → hasTree P' = Ret b ∧ (b = true → matchEnd P' = Ret (StrParts.posIter str (off + lastFinish P'))) ∧
  ∃ e, hasError P' = Ret e ∧ (e = false ↔ D (n S)).
Proof.
  intros Ho Hlim. pose proof parsed_last as [Hlast Hex]. destruct Hp as [Hg Hm Hfin Eb]. pose proof (ok_n _ _ HS) as Hn.
  pose proof (finish_run S depth HS str off P' Hg Hfin) as Hf. apply returns_exists in Hf as (f & Ef & Hf).
  assert (Hb : b = match f with Some _ => true | None => false end).
  { rewrite Eb. destruct f as [s|]; [apply Z.ltb_lt|apply Z.ltb_ge]; lia. }
  unfold hasTree, matchEnd, hasError. rewrite Ef, (g_src _ _ _ _ Hg), (g_off _ _ _ _ Hg). cbn [mbind outcome_bind]. split_and!.
  - by rewrite Hb.
  - intros ->. destruct f as [s|]; [|done]. rewrite u32_small; [done|]. unfold is_u32. lia.
  - destruct (g_steps _ _ _ _ Hg) as (l & -> & Hl & _). rewrite Hl. replace (n S + 1 - 1) with (n S) by lia. destruct (Z.ltb_spec (lastFinish P') (n S)) as [Hlt|Hge].
    + exists true. split; [done|]. split; [done|]. intros Hd. destruct (Hlast (proj2 Hex ltac:(eauto))) as [_ Hmax]. specialize (Hmax _ Hd). lia.
    + eexists. split; [done|]. destruct f as [s|]; [|split; [done|]; intros Hd; rewrite (proj2 Hex ltac:(eauto)) in Hb; done].
      split; [intros _|done]. destruct (Hlast Hb) as [Hd _]. by replace (n S) with (lastFinish P') by lia.
Qed.
End result.

Lemma parse_run moves depth S P a root c str start : okSetting S depth → scans S str (Iter.pos start) → rootP S = newProduction a [mkToken (tRule root) c] →
  okRules (G S) (tokenCount (allP S)) (rules P) → 0 ≤ Iter.pos start → n S = Str.charCount (sdata str) - Iter.pos start → n S < 2 ^ 32 - 2 →
  returns (parse moves depth P a root c str start) (λ '(P', b), parsed S root str (Iter.pos start) P' b).
Proof.
  intros HS Hscan ER HR Ho En Hn. pose proof (ok_n _ _ HS) as Hn0. unfold parse. rewrite <- ER.
  replace (u32 (Str.charCount (sdata str) + 1 - Iter.pos start)) with (n S + 1) by (rewrite u32_small; [lia|unfold is_u32; lia]).
  fold (startParser P (rootP S) str (Iter.pos start) (n S + 1)). change (rootProd (startParser P (rootP S) str (Iter.pos start) (n S + 1))) with (rootP S).
  eapply returns_bind2; [by apply (parse_steps moves S depth HS str (Iter.pos start) Hscan a root c)|]. intros P' (Hg & Hm & Hf). apply returns_ret. by split.
Qed.

Lemma grammar_okRules R : nullInfo R → okRules (grammarOf R) (tokenCount (allProductions (table R))) R.
Proof. intros H. by split. Qed.

Lemma okRules_nullInfo G N R : okRules G N R → nullInfo R.
Proof.
  intros H r i Hi Hz Hn. apply (ok_null _ _ _ H r i Hi Hz). eapply nullable_ext; [|exact Hn]. intros r'. by apply (ok_prods _ _ _ H).
Qed.

(** The hypotheses about a text, a grammar and the fuel. *)
Record canParse (R : Rules) (a root : nat) (c : Z) (str : StrObj) (off : Z) (u : list Z) (level : Production → Z → nat) (K depth : nat) : Prop := {
  cp_text : units (sdata str) = u ++ [0];
  cp_chars : Forall (λ c, 0 ≤ c < 0xFFFF) u;
  cp_len : zlen u < 2 ^ 32 - 2;
  cp_off : 0 ≤ off ≤ zlen u;
  cp_grammar : okGrammar (grammarOf R) a;
  cp_null : nullInfo R;
  cp_levels : levels (grammarOf R) (newProduction a [mkToken (tRule root) c]) level K;
  cp_size : Z.of_nat (tokenCount (newProduction a [mkToken (tRule root) c] :: allProductions (table R))) * (zlen u - off + 1) < 2 ^ 32 - 1;
  cp_depth : (Z.to_nat (zlen u - off + 1) * K ≤ depth)%nat;
}.

Definition settingOf (R : Rules) (a root : nat) (c : Z) (u : list Z) (off : Z) (level : Production → Z → nat) (K : nat) : setting :=
  textSetting (grammarOf R) a root c u off level K (allProductions (table R)).

Lemma canParse_setting R a root c str off u level K depth : canParse R a root c str off u level K depth → okSetting (settingOf R a root c u off level K) depth.
Proof. intros []. apply textSetting_ok; try done. intros r p Hp. by apply (allProductions_elem _ r). Qed.

Lemma canParse_run moves P a root c str start u level K depth : canParse (rules P) a root c str (Iter.pos start) u level K depth →
  returns (parse moves depth P a root c str start) (λ '(P', b), parsed (settingOf (rules P) a root c u (Iter.pos start) level K) root str (Iter.pos start) P' b).
Proof.
  intros H. pose proof (canParse_setting _ _ _ _ _ _ _ _ _ _ H) as HS. destruct H as [H1 H2 H3 H4 H5 H6 H7 H8 H9].
  assert (Ec : Str.charCount (sdata str) = zlen u).
  { unfold Str.charCount, scount. rewrite H1. assert (Et : zlen (u ++ [0]) = zlen u + 1) by (rewrite zlen_app; done). rewrite Et, u32_small; [lia|]. unfold is_u32. lia. }
  apply (parse_run moves depth (settingOf (rules P) a root c u (Iter.pos start) level K) P a root c str start HS); [|done|by apply grammar_okRules|lia|cbn; lia|cbn; lia].
  apply (text_scans u (Iter.pos start)); try done. lia. intros p t x Hp Ht Hx. by apply (ok_regex _ _ HS p t x).
Qed.

(** * An example grammar

    Sums of a letter with optional space, [E -> "a" (D "+" D "a")*] and [D -> " *"], and that it
    satisfies what the theorems about the parser require. *)

Import Earley.

Module Sums.
Definition letter : Token := mkToken (tRegex (compiled [(Chr false 97, Once)])) 1.
Definition plus : Token := mkToken (tRegex (compiled [(Chr true 43, Once)])) 2.
Definition space : Token := mkToken (tRegex (compiled [(Chr false 32, Many)])) 3.
Definition delim : Token := mkToken (tDelim 2) 4.

Definition sum : Production := mkProduction 1 (Some 1%nat) None [letter; delim; plus; delim; letter] 0 1 5 Rep.repZeroPlus 1 5 indentIncrease.
Definition spaces : Production := mkProduction 2 (Some 2%nat) None [space] 0 0 0 Rep.repNone 0 0 indentNone.

Definition rules : Rules := mkRules (<[1%nat := mkRuleInfo (Some [sum]) 2]> {[2%nat := mkRuleInfo (Some [spaces]) 2]}) 0.

Definition parser : Parser := mkParser rules None 0 (newProduction 0 []) None 0.

(** The text [a +a]. *)
Definition text : list Z := [97; 32; 43; 97].
Definition str : StrObj := mkStrObj 7 (mkGcWchars 0 (text ++ [0])).

Definition rootProduction : Production := newProduction 9 [mkToken (tRule 1) 0].

Definition level (p : Production) (po : Z) : nat :=
  if (paddr p =? 1)%nat then if (po =? 2) || (po =? 4) then 1 else 0 else if po =? 1 then 1 else 0.

Lemma sums_productions r p : p ∈ grammarOf rules r ↔ (r = 1%nat ∧ p = sum) ∨ (r = 2%nat ∧ p = spaces).
Proof.
  unfold grammarOf, rules. cbn [table]. destruct (decide (r = 1%nat)) as [->|H1].
  { rewrite lookup_insert_eq. cbn. rewrite list_elem_of_singleton. naive_solver. }
  rewrite lookup_insert_ne by done. destruct (decide (r = 2%nat)) as [->|H2].
  { rewrite lookup_singleton_eq. cbn. rewrite list_elem_of_singleton. naive_solver. }
  rewrite lookup_singleton_ne by done. cbn. split; [by intros ?%not_elem_of_nil|naive_solver].
Qed.

Lemma sums_known p : p = rootProduction ∨ (∃ r, p ∈ grammarOf rules r) → p = rootProduction ∨ p = sum ∨ p = spaces.
Proof. intros [->|[r H%sums_productions]]; naive_solver. Qed.

Lemma sums_grammar : okGrammar (grammarOf rules) 9.
Proof.
  split.
  - intros r p [[-> ->]|[-> ->]]%sums_productions; (split; [split|..]; vm_compute; first [discriminate|reflexivity]).
  - by intros r p [[-> ->]|[-> ->]]%sums_productions.
  - by intros r r' p q [[-> ->]|[-> ->]]%sums_productions [[-> ->]|[-> ->]]%sums_productions.
  - by intros r p [[-> ->]|[-> ->]]%sums_productions.
  - intros r p t x [[-> ->]|[-> ->]]%sums_productions Ht; cbn in Ht; repeat (apply elem_of_cons in Ht as [->|Ht]); try (by apply not_elem_of_nil in Ht);
      intros [= <-]; (split; [|by vm_compute]); (split; [|done]); repeat constructor; cbn; lia.
Qed.

Lemma single_not_empty c : ¬ matches [RegexParseCorrect.quantified Once (RSet.single c)] [].
Proof. rewrite matches_nil. by intros [? _]. Qed.

Lemma letter_not_null : ¬ nullToken (grammarOf rules) letter.
Proof. apply single_not_empty. Qed.

Lemma plus_not_null : ¬ nullToken (grammarOf rules) plus.
Proof. apply single_not_empty. Qed.

Lemma sum_not_nullable : ¬ nullable (grammarOf rules) 1.
Proof.
  inversion 1 as [r p ts Hp (k & _ & ->) Hn]; subst. apply sums_productions in Hp as [[_ ->]|[? _]]; [|done].
  apply nullTokens_iff, Forall_app in Hn as [Hn _]. cbn in Hn. apply Forall_cons in Hn as [Hn _]. by apply letter_not_null.
Qed.

(** Where the tokens of the productions are. *)
Lemma tokenAt_cases p po t : tokenAt p po = Some t → tokens p !! po = Some t.
Proof. apply token_at. Qed.

Lemma sum_tokens po t : tokenAt sum po = Some t →
  (po = 0 ∧ t = letter) ∨ (po = 1 ∧ t = delim) ∨ (po = 2 ∧ t = plus) ∨ (po = 3 ∧ t = delim) ∨ (po = 4 ∧ t = letter).
Proof.
  intros H%token_at. pose proof (lookupZ_Some_lt _ _ _ H) as Hlt. change (zlen (tokens sum)) with 5 in Hlt.
  assert (po = 0 ∨ po = 1 ∨ po = 2 ∨ po = 3 ∨ po = 4) as [->|[->|[->|[->| ->]]]] by lia; injection H as <-; naive_solver.
Qed.

Lemma one_token p t0 po t : tokens p = [t0] → tokenAt p po = Some t → po = 0 ∧ t = t0.
Proof.
  intros E H%token_at. pose proof (lookupZ_Some_lt _ _ _ H) as Hlt. rewrite E in *. change (zlen [t0]) with 1 in Hlt. assert (po = 0) as -> by lia. by injection H as <-.
Qed.

Lemma sums_levels : levels (grammarOf rules) rootProduction level 2.
Proof.
  split.
  - intros p po. unfold level. repeat case_match; lia.
  - intros p po po' t Hp Ht Hnull Hn. apply sums_known in Hp as [->|[->| ->]].
    + apply (one_token rootProduction _ _ _ eq_refl) in Ht as [-> ->]. by destruct sum_not_nullable.
    + pose proof (tokenAt_bounds _ _ _ Ht) as [Hb _]. apply next_iff in Hn; [|apply (gr_wf _ _ sums_grammar 1); apply sums_productions; by left|done].
      apply sum_tokens in Ht as [[-> ->]|[[-> ->]|[[-> ->]|[[-> ->]|[-> ->]]]]];
        try (by destruct letter_not_null); try (by destruct plus_not_null); cbn in Hn; destruct Hn as [->|[(? & _)|(_ & ? & _)]]; (lia || (vm_compute; lia)).
    + apply (one_token spaces _ _ _ eq_refl) in Ht as [-> ->]. apply next_iff in Hn; [|apply (gr_wf _ _ sums_grammar 2); apply sums_productions; by right|vm_compute; done].
      cbn in Hn. destruct Hn as [->|[(? & _)|(_ & ? & _)]]; (lia || (vm_compute; lia)).
  - intros p po0 ts po po' t r q Hp Hf Hr Hts Ht Hrule Hq Hn. apply sums_known in Hp as [->|[->| ->]].
    + apply (one_token rootProduction _ _ _ eq_refl) in Ht as [-> ->]. injection Hrule as <-. apply sums_productions in Hq as [[_ ->]|[? _]]; [|done].
      destruct Hn as [Hn|Hn]; cbn in Hn; [|done]. injection Hn as <-. vm_compute. lia.
    + apply first_iff in Hf. cbn in Hf. destruct Hf as [->|[? _]]; [|done]. inversion Hr as [|? t0 ? ? ? Ht0 ? ?]; subst.
      * by apply sum_tokens in Ht as [[_ ->]|[[? _]|[[? _]|[[? _]|[? _]]]]].
      * apply sum_tokens in Ht0 as [[_ ->]|[[? _]|[[? _]|[[? _]|[? _]]]]]; try done. apply nullTokens_iff, Forall_cons in Hts as [Hl _]. by destruct letter_not_null.
    + by apply (one_token spaces _ _ _ eq_refl) in Ht as [-> ->].
Qed.

Lemma sums_null : nullInfo rules.
Proof.
  intros r i. unfold rules. cbn [table]. destruct (decide (r = 1%nat)) as [->|H1]; [rewrite lookup_insert_eq; by intros [= <-]|].
  rewrite lookup_insert_ne by done. destruct (decide (r = 2%nat)) as [->|H2]; [rewrite lookup_singleton_eq; by intros [= <-]|by rewrite lookup_singleton_ne].
Qed.

(** What the theorems need. *)
Lemma sums_canParse : canParse rules 9 1 0 str 0 text level 2 10.
Proof.
  split; [reflexivity|repeat constructor; lia|vm_compute; done|split; vm_compute; discriminate|apply sums_grammar|apply sums_null|apply sums_levels| |vm_compute; lia].
  vm_compute. reflexivity.
Qed.
End Sums.
