(* ===== verification/InfoNode.v ===== *)
(** * Syntax trees of all nodes

    The nodes with their packed fields, and how the parser makes them. *)

From stdpp Require Import base list numbers decidable option strings gmap.
From Stdlib Require Import ZArith Lia.
From S2P Require Import Prelude Utf Stream Str StrIter Regex Production Earley.

(** * Trees of all nodes of a parse

    [Compiler/Syntax/InfoIndent.h] and [.cpp], [InfoErrors.cpp], [InfoNode.h] and [.cpp]:
    indentation packed in an integer, errors packed in an integer, and the nodes of a syntax
    tree with their cached lengths.  Nodes are shared and changed, so they live in a store;
    a node is its index there. *)

(** ** Indentation *)

Record InfoIndent := mkIndent { istart : Z; iend : Z; itype : IndentType }.

Definition indentContains (x : InfoIndent) (i : Z) : bool := (istart x <=? i) && (i <? iend x).

(** A [TextIndent] is its [value]. *)
Module TextIndent.
Definition indentMask : Z := 0x80000000.
Definition relativeMask : Z := 0x40000000.
Definition signMask : Z := 0x20000000.
Definition dataMask : Z := 0x1FFFFFFF.

Definition new : Z := 0.

Definition isAlign (value : Z) : bool := negb (Z.land value relativeMask =? 0).

(** [Int level() const] *)
Definition level (value : Z) : Z :=
  if negb (isAlign value) then
    let r := Z.land value dataMask in
    if negb (Z.land value signMask =? 0) then s32 (Z.lor (Z.lor r relativeMask) indentMask) else s32 r
  else 0.

(** [level(Int)] *)
Definition setLevel (value v : Z) : Z := Z.lor (Z.land (u32 v) dataMask) indentMask.

Definition alignAs (value : Z) : Z := if isAlign value then Z.land value dataMask else 0.

(** [alignAs(Nat)] *)
Definition setAlignAs (value offset : Z) : Z := Z.lor (Z.lor offset relativeMask) (Z.land value indentMask).

Definition seenIndent (value : Z) : bool := negb (Z.land value indentMask =? 0).

Definition applyParent (value : Z) (info : InfoIndent) (current offsetBegin offsetEnd : Z) : Z :=
  let inside := indentContains info current in
  match itype info with
  | indentIncrease => if negb (isAlign value) then setLevel value (level value + Z.b2z inside) else value
  | indentDecrease => if negb (isAlign value) then setLevel value (level value - Z.b2z inside) else value
  | indentWeakIncrease => if negb (isAlign value) && negb (seenIndent value) && inside then setLevel value 1 else value
  | indentAlignBegin => if isAlign value then value else if inside then setAlignAs value offsetBegin else value
  | indentAlignEnd => if isAlign value then value else if inside then setAlignAs value offsetEnd else value
  | indentNone => value
  end.

Definition offset (value n : Z) : Z := if isAlign value then setAlignAs value (u32 (alignAs value + n)) else value.

(** [operator ==] *)
Definition eq (value o : Z) : bool := Z.land value 0x7FFFFFFF =? Z.land o 0x7FFFFFFF.

Definition indentLevel (level : Z) : Z := setLevel new level.
Definition indentAs (offset : Z) : Z := setAlignAs new offset.
End TextIndent.

(** ** Errors

    An [InfoErrors] is its [data]. *)
Module InfoErrors.
Definition failedMask : Z := 0x80000000.
Definition shiftsMask : Z := 0x7FFF0000.
Definition charsMask : Z := 0x0000FFFF.
Definition shiftsShift : Z := 16.

Definition success (data : Z) : bool := Z.land data failedMask =? 0.
Definition any (data : Z) : bool := negb (data =? 0).
Definition shifts (data : Z) : Z := Z.shiftr (Z.land data shiftsMask) shiftsShift.
Definition chars (data : Z) : Z := Z.land data charsMask.

(** [chars(Nat)] *)
Definition setChars (data chars : Z) : Z := Z.lor (Z.land data 0xFFFF0000) (Z.min chars charsMask).

(** [operator +] *)
Definition add (data e : Z) : Z :=
  let f := Z.lor (Z.land data failedMask) (Z.land e failedMask) in
  let a := Z.min (u32 (shifts data + shifts e)) (Z.shiftr shiftsMask shiftsShift) in
  let b := Z.min (u32 (chars data + chars e)) charsMask in
  Z.lor (Z.lor f (u32 (Z.shiftl a shiftsShift))) b.

Definition value (e : Z) : Z := if negb (success e) then failedMask else u32 (shifts e + chars e).

Definition lt (data e : Z) : bool := value data <? value e.
Definition eq (data e : Z) : bool := value data =? value e.
Definition ne (data e : Z) : bool := negb (value data =? value e).

Definition infoFailure : Z := failedMask.
Definition infoSuccess : Z := 0.

Definition infoShifts (shifts : Z) : Z :=
  let shifts := Z.min shifts (Z.shiftr shiftsMask shiftsShift) in Z.land (u32 (Z.shiftl shifts shiftsShift)) shiftsMask.

Definition infoChars (chars : Z) : Z := let chars := Z.min chars charsMask in Z.land chars charsMask.
End InfoErrors.

(** ** Nodes *)

Module InfoNode.
Inductive Kind :=
  | kInternal (prod : Production) (children : list (option nat)) (indent : option InfoIndent)
  | kLeaf (regex : option Regex.Regex) (v : GcWchars).

Record InfoNode := mkNode { parentNode : option nat; color : Z; data : Z; kind : Kind }.

Notation store := (list InfoNode).

Definition errorMask : Z := 0x80000000.
Definition delimMask : Z := 0x40000000.
Definition lengthMask : Z := 0x3FFFFFFF.

(** [~lengthMask] and the like *)
Definition flagsMask : Z := 0xC0000000.
Definition notErrorMask : Z := 0x7FFFFFFF.
Definition notDelimMask : Z := 0xBFFFFFFF.

Definition tNone : Z := 0.

Definition getNode (h : store) (a : nat) : outcome InfoNode := match h !! a with Some n => Ret n | None => Fault end.

Definition setData (n : InfoNode) (d : Z) : InfoNode := mkNode (parentNode n) (color n) d (kind n).
Definition setKind (n : InfoNode) (k : Kind) : InfoNode := mkNode (parentNode n) (color n) (data n) k.
Definition setParent (n : InfoNode) (p : nat) : InfoNode := mkNode (Some p) (color n) (data n) (kind n).
Definition setColor (n : InfoNode) (c : Z) : InfoNode := mkNode (parentNode n) c (data n) (kind n).

(** Change a node that is there. *)
Definition update (h : store) (a : nat) (f : InfoNode → InfoNode) : outcome store := n ← getNode h a; Ret (<[a := f n]> h).

(** A new node after the constructor of [InfoNode]. *)
Definition newNode (h : store) (k : Kind) : store * nat := (h ++ [mkNode None tNone (Z.lor 0 lengthMask) k], length h).

(** The constructors of [InfoInternal] and [InfoLeaf] *)
Definition newInternal (h : store) (p : Production) (children : Z) : store * nat :=
  newNode h (kInternal p (replicate (Z.to_nat children) None) None).

Definition newLeaf (h : store) (regex : option Regex.Regex) (match_ : GcWchars) : store * nat := newNode h (kLeaf regex match_).

Definition copyInternal (h : store) (src : nat) (children : Z) : outcome (store * nat) :=
  s ← getNode h src;
  match kind s with
  | kInternal p cs _ =>
      let copied := take (Z.to_nat (Z.min children (zlen cs))) cs in
      Ret (newNode h (kInternal p (copied ++ replicate (Z.to_nat children - List.length copied)%nat None) None))
  | kLeaf _ _ => Fault
  end.

Definition count (n : InfoNode) : outcome Z := match kind n with kInternal _ cs _ => Ret (zlen cs) | kLeaf _ _ => Fault end.

(** [invalidate] *)
Fixpoint invalidate (fuel : nat) (h : store) (a : nat) : outcome store :=
  match fuel with
  | O => OutOfFuel
  | S fuel =>
      n ← getNode h a;
      let h := <[a := setData n (Z.lor (data n) lengthMask)]> h in
      match parentNode n with Some p => invalidate fuel h p | None => Ret h end
  end.

(** [computeLength] of an internal node, given [length] *)
Fixpoint sumLengths (len : store → nat → outcome (store * Z)) (h : store) (cs : list (option nat)) (sum : Z) : outcome (store * Z) :=
  match cs with
  | [] => Ret (h, sum)
  | None :: _ => Fault
  | Some c :: cs => '(h, l) ← len h c; sumLengths len h cs (u32 (sum + l))
  end.

Fixpoint length (fuel : nat) (h : store) (a : nat) : outcome (store * Z) :=
  match fuel with
  | O => OutOfFuel
  | S fuel =>
      n ← getNode h a;
      if Z.land (data n) lengthMask =? lengthMask then
        '(h, l) ← match kind n with kLeaf _ v => Ret (h, Str.count v) | kInternal _ cs _ => sumLengths (length fuel) h cs 0 end;
        let d := Z.lor (Z.land (data n) flagsMask) (Z.land l lengthMask) in
        h ← update h a (λ n, setData n d);
        Ret (h, Z.land d lengthMask)
      else Ret (h, Z.land (data n) lengthMask)
  end.

Definition error (n : InfoNode) : bool := negb (Z.land (data n) errorMask =? 0).
Definition setError (h : store) (a : nat) (v : bool) : outcome store :=
  update h a (λ n, setData n (if v then Z.lor (data n) errorMask else Z.land (data n) notErrorMask)).

Definition delimiter (n : InfoNode) : bool := negb (Z.land (data n) delimMask =? 0).
Definition setDelimiter (h : store) (a : nat) (v : bool) : outcome store :=
  update h a (λ n, setData n (if v then Z.lor (data n) delimMask else Z.land (data n) notDelimMask)).

(** [InfoInternal::set] *)
Definition set (fuel : nat) (h : store) (a : nat) (id : Z) (node : nat) : outcome store :=
  n ← getNode h a;
  match kind n with
  | kInternal p cs ind =>
      if id <? zlen cs then
        h ← update h a (λ n, setKind n (kInternal p (<[id := Some node]> cs) ind));
        h ← update h node (λ n, setParent n a);
        invalidate fuel h a
      else Throw (ArrayError id (zlen cs) None)
  | kLeaf _ _ => Fault
  end.

(** [InfoLeaf::set] *)
Definition setLeaf (fuel : nat) (h : store) (a : nat) (v : GcWchars) : outcome store :=
  n ← getNode h a;
  match kind n with
  | kLeaf r _ => h ← update h a (λ n, setKind n (kLeaf r v)); invalidate fuel h a
  | kInternal _ _ _ => Fault
  end.

(** [leafAt]; the loop of an internal node *)
Fixpoint leafLoop (len : store → nat → outcome (store * Z)) (rec : store → nat → Z → outcome (store * option nat))
    (h : store) (cs : list (option nat)) (pos : Z) : outcome (store * option nat) :=
  match cs with
  | [] => Ret (h, None)
  | None :: _ => Fault
  | Some c :: cs => '(h, l) ← len h c; if pos <? l then rec h c pos else leafLoop len rec h cs (pos - l)
  end.

Fixpoint leafAt (fuel : nat) (h : store) (a : nat) (pos : Z) : outcome (store * option nat) :=
  match fuel with
  | O => OutOfFuel
  | S fuel =>
      n ← getNode h a;
      match kind n with
      | kLeaf _ _ => Ret (h, Some a)
      | kInternal _ cs _ => leafLoop (length fuel) (leafAt fuel) h cs pos
      end
  end.

(** [indentAt]; the loop of an internal node *)
Fixpoint indentLoop (len : store → nat → outcome (store * Z)) (rec : store → nat → Z → outcome (store * Z)) (indent : option InfoIndent)
    (h : store) (cs : list (option nat)) (i offset beg end_ pos : Z) : outcome (store * Z) :=
  match cs with
  | [] => Ret (h, TextIndent.new)
  | None :: _ => Fault
  | Some c :: cs =>
      '(h, l) ← len h c;
      let beg := match indent with Some x => if u32 (i + 1) =? istart x then offset else beg | None => beg end in
      let end_ := match indent with Some x => if i =? istart x then offset else end_ | None => end_ end in
      if (offset <=? pos) && (pos <? u32 (offset + l)) && (0 <? l) then
        '(h, r) ← rec h c (pos - offset);
        let r := TextIndent.offset r offset in
        Ret (h, match indent with Some x => TextIndent.applyParent r x i beg end_ | None => r end)
      else indentLoop len rec indent h cs (i + 1) (u32 (offset + l)) beg end_ pos
  end.

Fixpoint indentAt (fuel : nat) (h : store) (a : nat) (pos : Z) : outcome (store * Z) :=
  match fuel with
  | O => OutOfFuel
  | S fuel =>
      n ← getNode h a;
      match kind n with
      | kLeaf _ _ => Ret (h, TextIndent.new)
      | kInternal _ cs indent => indentLoop (length fuel) (indentAt fuel) indent h cs 0 0 0 0 pos
      end
  end.

(** [toS], the units that are added to the buffer *)
Fixpoint toSLoop (rec : nat → outcome (list Z)) (cs : list (option nat)) : outcome (list Z) :=
  match cs with
  | [] => Ret []
  | None :: _ => Fault
  | Some c :: cs => x ← rec c; y ← toSLoop rec cs; Ret (x ++ y)
  end.

Fixpoint toS (fuel : nat) (h : store) (a : nat) : outcome (list Z) :=
  match fuel with
  | O => OutOfFuel
  | S fuel =>
      n ← getNode h a;
      match kind n with kLeaf _ v => Ret (Str.body v) | kInternal _ cs _ => toSLoop (toS fuel h) cs end
  end.
End InfoNode.

(** * From the states of the parser to a syntax tree

    [infoTree] of [Compiler/Syntax/Earley/Parser.cpp], which follows the pointers of the states
    backwards, and [fullInfoTree] of [Compiler/Syntax/Parser.cpp], which adds what was not
    matched.  The tree is made in a store of nodes. *)

Import StatePtr State Earley.

Module InfoTree.

(** The number of states before a state. *)
Fixpoint childCount (fuel : nat) (P : Parser) (at_ : State) (children : Z) : outcome Z :=
  match fuel with
  | O => OutOfFuel
  | S fuel =>
      if StatePtr.eq (prev at_) null then Ret children
      else p ← state P (prev at_); childCount fuel P p (u32 (children + 1))
  end.

Definition setIndent (n : InfoNode.InfoNode) (f : InfoIndent → InfoIndent) : InfoNode.InfoNode :=
  match InfoNode.kind n with
  | InfoNode.kInternal p cs (Some i) => InfoNode.setKind n (InfoNode.kInternal p cs (Some (f i)))
  | _ => n
  end.

(** [result->indent->start] and [end], at the state [at_] with [children] children to go *)
Definition indentAtState (h : InfoNode.store) (result : nat) (p : Production) (at_ : State) (children : Z) : outcome InfoNode.store :=
  if PIter.pos (pos at_) =? indentStart p then InfoNode.update h result (λ n, setIndent n (λ i, mkIndent children (iend i) (itype i)))
  else if PIter.pos (pos at_) =? indentEnd p then InfoNode.update h result (λ n, setIndent n (λ i, mkIndent (istart i) children (itype i)))
  else Ret h.

(** The leaf for the text between two steps *)
Definition leafText (P : Parser) (from to : Z) : outcome GcWchars :=
  match src P with
  | None => Fault
  | Some str =>
      let from := StrParts.posIter str (u32 (from + srcOffset P)) in
      let to := StrParts.posIter str (u32 (to + srcOffset P)) in
      if negb (Iter.eq from to) then StrParts.substr str from to else Str.fromCStr [0]
  end.

(** The second loop, for a function that makes the tree of a rule *)
Fixpoint childLoop (rec : InfoNode.store → StatePtr → outcome (InfoNode.store * nat)) (fuel : nat) (P : Parser) (h : InfoNode.store) (result : nat)
    (p : Production) (at_ : State) (atStep children : Z) : outcome InfoNode.store :=
  match fuel with
  | O => OutOfFuel
  | S fuel =>
      if StatePtr.eq (prev at_) null then Ret h
      else
        prev_ ← state P (prev at_);
        match PIter.token (pos prev_) with
        | None => Fault
        | Some token =>
            h ← indentAtState h result p at_ children;
            '(h, child) ←
              (if negb (StatePtr.eq (completed at_) null) then
                 '(h, child) ← rec h (completed at_);
                 h ← (if asDelim token then InfoNode.setDelimiter h child true else Ret h);
                 Ret (h, child)
               else s ← leafText P (step (prev at_)) atStep; Ret (InfoNode.newLeaf h (asRegex token) s));
            h ← InfoNode.update h child (λ n, InfoNode.setColor n (color token));
            let children := u32 (children - 1) in
            h ← InfoNode.set (S (length h)) h result children child;
            childLoop rec fuel P h result p prev_ (step (prev at_)) children
        end
  end.

Definition hasIndent (p : Production) : bool := negb (bool_decide (indentType p = indentNone)).

(** [infoTree(StatePtr)] *)
Fixpoint infoTreeAt (fuel : nat) (P : Parser) (h : InfoNode.store) (endPtr : StatePtr) : outcome (InfoNode.store * nat) :=
  match fuel with
  | O => OutOfFuel
  | S fuel' =>
      end_ ← state P endPtr;
      children ← childCount fuel P end_ 0;
      let p := production end_ in
      let '(h, result) := InfoNode.newInternal h p children in
      h ← (if hasIndent p then
             InfoNode.update h result (λ n, InfoNode.setKind n (InfoNode.kInternal p (replicate (Z.to_nat children) None) (Some (mkIndent 0 children (indentType p)))))
           else Ret h);
      h ← childLoop (infoTreeAt fuel' P) fuel P h result p end_ (step endPtr) children;
      Ret (h, result)
  end.

(** [infoTree()] *)
Definition infoTree (fuel : nat) (P : Parser) (h : InfoNode.store) : outcome (InfoNode.store * option nat) :=
  f ← finish P;
  match f with
  | None => Ret (h, None)
  | Some s =>
      if StatePtr.eq (completed s) null then Fault
      else '(h, t) ← infoTreeAt fuel P h (completed s); Ret (h, Some t)
  end.

(** [InfoParser::fullInfoTree], after [parse] was called with [lastStr] and [lastOffset] *)
Definition fullInfoTree (fuel : nat) (P : Parser) (h : InfoNode.store) (lastStr : StrObj) (lastOffset : Z) : outcome (InfoNode.store * option nat) :=
  '(h, tree) ← infoTree fuel P h;
  '(h, end_) ← match tree with
    | Some t => '(h, l) ← InfoNode.length (S (length h)) h t; Ret (h, u32 (l + lastOffset))
    | None => Ret (h, lastOffset)
    end;
  _ ← assert (end_ <=? Str.charCount (sdata lastStr));
  if Str.charCount (sdata lastStr) <=? end_ then Ret (h, tree)
  else
    internal ← match tree with
      | None => Ret None
      | Some t => n ← InfoNode.getNode h t; Ret (match InfoNode.kind n with InfoNode.kInternal _ cs _ => Some (t, zlen cs) | InfoNode.kLeaf _ _ => None end)
      end;
    match internal with
    | Some (t, count) =>
        '(h, r) ← InfoNode.copyInternal h t (u32 (count + 1));
        s ← StrParts.substr lastStr (StrParts.posIter lastStr end_) Iter.end_;
        let '(h, leaf) := InfoNode.newLeaf h None s in
        h ← InfoNode.set (S (length h)) h r count leaf;
        Ret (h, Some r)
    | None =>
        s ← StrParts.substr lastStr (StrParts.posIter lastStr lastOffset) Iter.end_;
        let '(h, leaf) := InfoNode.newLeaf h None s in
        Ret (h, Some leaf)
    end.
End InfoTree.
