(* ===== verification/InfoNodeCorrect.v ===== *)
(** * Packed fields, and trees in the store

    Errors and indentation packed in integers, and the operations of syntax trees. *)

From stdpp Require Import base list numbers decidable option strings sets.
From Stdlib Require Import ZArith Lia.
From S2P Require Import Prelude Utf Stream Str Regex Production InfoNode.

(** * Errors and indentation packed in integers

    [InfoErrors] are three numbers that are added up to their limits, and a [TextIndent] is
    a level or an offset; levels below zero are not kept. *)

(** ** Errors *)

Section errors.
Import InfoErrors.

(** Failure, corrections and characters. *)
Definition pack (f s c : Z) : Z := f * 2 ^ 31 + s * 2 ^ 16 + c.
Definition fits (f s c : Z) : Prop := 0 ≤ f < 2 ∧ 0 ≤ s < 2 ^ 15 ∧ 0 ≤ c < 2 ^ 16.

Lemma unpack d : is_u32 d → ∃ f s c, d = pack f s c ∧ fits f s c.
Proof.
  unfold is_u32. intros H. exists (d / 2 ^ 31), (d / 2 ^ 16 mod 2 ^ 15), (d mod 2 ^ 16). unfold pack, fits.
  pose proof (Z.div_mod d (2 ^ 16) ltac:(lia)). pose proof (Z.mod_pos_bound d (2 ^ 16) ltac:(lia)).
  pose proof (Z.div_mod (d / 2 ^ 16) (2 ^ 15) ltac:(lia)). pose proof (Z.mod_pos_bound (d / 2 ^ 16) (2 ^ 15) ltac:(lia)).
  assert (E : d / 2 ^ 31 = d / 2 ^ 16 / 2 ^ 15) by (rewrite Z.div_div by lia; done). rewrite E in *.
  assert (0 ≤ d / 2 ^ 16 / 2 ^ 15 < 2); [|lia]. rewrite <- E. split; [apply Z.div_pos; lia|apply Z.div_lt_upper_bound; lia].
Qed.

Section fields.
Context (f s c : Z) (Hf : fits f s c).

Lemma failed_pack : Z.land (pack f s c) failedMask = f * 2 ^ 31.
Proof.
  destruct Hf as (H1 & H2 & H3). unfold pack. assert (E : f * 2 ^ 31 + s * 2 ^ 16 + c = Z.lor (f * 2 ^ 31) (s * 2 ^ 16 + c)) by (rewrite lor_mul_pow2 by lia; lia).
  rewrite E, Z.land_lor_distr_l. change failedMask with (Z.shiftl 1 31). rewrite <- !(Z.shiftl_mul_pow2 f 31) by lia.
  assert (E2 : Z.land (s * 2 ^ 16 + c) (Z.shiftl 1 31) = 0).
  { apply Z.bits_inj'. intros k Hk. rewrite Z.land_spec, Z.bits_0. destruct (decide (k = 31)) as [->|Hne].
    - rewrite andb_false_iff. left. rewrite Z.testbit_false by lia. rewrite Z.div_small by lia. done.
    - rewrite andb_false_iff. right. rewrite Z.shiftl_1_l. by apply Z.pow2_bits_false. }
  rewrite E2, Z.lor_0_r, <- Z.shiftl_land. f_equal. assert (f = 0 ∨ f = 1) as [->| ->] by lia; done.
Qed.

Lemma success_pack : success (pack f s c) = (f =? 0).
Proof. unfold success. rewrite failed_pack. destruct (Z.eqb_spec f 0) as [->|]; [done|]. apply Z.eqb_neq. lia. Qed.

Lemma shifts_pack : shifts (pack f s c) = s.
Proof.
  destruct Hf as (H1 & H2 & H3). unfold shifts, shiftsShift. rewrite Z.shiftr_land. change (Z.shiftr shiftsMask 16) with (2 ^ 15 - 1).
  rewrite land_pow2_pred, Z.shiftr_div_pow2 by lia. unfold pack.
  replace (f * 2 ^ 31 + s * 2 ^ 16 + c) with (c + (f * 2 ^ 15 + s) * 2 ^ 16) by lia. rewrite Z.div_add, Z.div_small by lia.
  replace (0 + (f * 2 ^ 15 + s)) with (s + f * 2 ^ 15) by lia. rewrite Z.mod_add by lia. by apply Z.mod_small.
Qed.

Lemma chars_pack : chars (pack f s c) = c.
Proof.
  destruct Hf as (H1 & H2 & H3). unfold chars. change charsMask with (2 ^ 16 - 1). rewrite land_pow2_pred by lia. unfold pack.
  replace (f * 2 ^ 31 + s * 2 ^ 16 + c) with (c + (f * 2 ^ 15 + s) * 2 ^ 16) by lia. rewrite Z.mod_add by lia. by apply Z.mod_small.
Qed.
End fields.

Lemma add_pack f s c f' s' c' : fits f s c → fits f' s' c' →
  add (pack f s c) (pack f' s' c') = pack (Z.max f f') (Z.min (s + s') (2 ^ 15 - 1)) (Z.min (c + c') (2 ^ 16 - 1)).
Proof.
  intros H H'. unfold add. rewrite !failed_pack, !shifts_pack, !chars_pack by done. destruct H as (H1 & H2 & H3), H' as (H4 & H5 & H6).
  change (Z.shiftr shiftsMask shiftsShift) with (2 ^ 15 - 1). change charsMask with (2 ^ 16 - 1). unfold shiftsShift.
  rewrite Z.shiftl_mul_pow2 by lia. rewrite (u32_small (s + s')), (u32_small (c + c')) by (unfold is_u32; lia). rewrite u32_small by (unfold is_u32; lia). unfold pack.
  assert (E : Z.lor (f * 2 ^ 31) (f' * 2 ^ 31) = Z.max f f' * 2 ^ 31) by (assert (f = 0 ∨ f = 1) as [->| ->] by lia; assert (f' = 0 ∨ f' = 1) as [->| ->] by lia; done).
  rewrite E. rewrite lor_mul_pow2 by lia.
  replace (Z.max f f' * 2 ^ 31 + Z.min (s + s') (2 ^ 15 - 1) * 2 ^ 16) with ((Z.max f f' * 2 ^ 15 + Z.min (s + s') (2 ^ 15 - 1)) * 2 ^ 16) by lia.
  rewrite lor_mul_pow2 by lia. lia.
Qed.

Lemma fits_add f s c f' s' c' : fits f s c → fits f' s' c' → fits (Z.max f f') (Z.min (s + s') (2 ^ 15 - 1)) (Z.min (c + c') (2 ^ 16 - 1)).
Proof. unfold fits. lia. Qed.

Lemma pack_u32 f s c : fits f s c → is_u32 (pack f s c).
Proof. unfold fits, pack, is_u32. lia. Qed.

(** Errors of parts can be added in any order and any grouping, starting from success; a sum
    fails if a part does, and its counts are the sums of the parts' up to the limits of their
    fields. *)
Theorem info_errors_add a b c : is_u32 a → is_u32 b → is_u32 c →
  is_u32 (add a b) ∧ add a b = add b a ∧ add a (add b c) = add (add a b) c ∧ add infoSuccess a = a ∧
  success (add a b) = success a && success b ∧
  shifts (add a b) = Z.min (shifts a + shifts b) 0x7FFF ∧ chars (add a b) = Z.min (chars a + chars b) 0xFFFF.
Proof.
  intros (f1 & s1 & c1 & -> & H1)%unpack (f2 & s2 & c2 & -> & H2)%unpack (f3 & s3 & c3 & -> & H3)%unpack.
  change infoSuccess with (pack 0 0 0). assert (H0 : fits 0 0 0) by (unfold fits; lia).
  pose proof (fits_add _ _ _ _ _ _ H1 H2) as H12. pose proof (fits_add _ _ _ _ _ _ H2 H3) as H23.
  rewrite !add_pack by done. rewrite !success_pack, !shifts_pack, !chars_pack by done. unfold fits in H1, H2, H3. split_and!.
  - by apply pack_u32.
  - f_equal; lia.
  - f_equal; lia.
  - f_equal; lia.
  - destruct (Z.eqb_spec (Z.max f1 f2) 0), (Z.eqb_spec f1 0), (Z.eqb_spec f2 0); cbn; lia || done.
  - lia.
  - lia.
Qed.

Lemma info_errors_add_witness :
  let a := infoShifts 3 in let b := infoChars 70000 in let c := infoFailure in
  shifts (add a b) = 3 ∧ chars (add a b) = 0xFFFF ∧ add a (add b c) = add (add a b) c.
Proof.
  destruct (info_errors_add (infoShifts 3) (infoChars 70000) infoFailure) as (_ & _ & H1 & _ & _ & H2 & H3);
    [split; vm_compute; first [discriminate|reflexivity]..|]. exact (conj H2 (conj H3 H1)).
Defined.
End errors.

(** ** Indentation *)

Section indent.
Import TextIndent.

Lemma setLevel_eq value v : setLevel value v = v mod 2 ^ 29 + 2 ^ 31.
Proof.
  unfold setLevel. change dataMask with (2 ^ 29 - 1). rewrite land_pow2_pred by lia. change indentMask with (1 * 2 ^ 31). rewrite Z.lor_comm.
  assert (E : u32 v mod 2 ^ 29 = v mod 2 ^ 29).
  { unfold u32. replace (2 ^ 32) with (2 ^ 29 * 2 ^ 3) by lia. rewrite Z.rem_mul_r by lia. rewrite Z.mul_comm, Z.mod_add by lia. by rewrite Z.mod_mod by lia. }
  rewrite E, lor_mul_pow2; [lia|lia|]. pose proof (Z.mod_pos_bound v (2 ^ 29)). lia.
Qed.

(** Bits of a level: neither relative nor, ever, negative. *)
Lemma level_eq x : 0 ≤ x < 2 ^ 29 → isAlign (x + 2 ^ 31) = false ∧ level (x + 2 ^ 31) = x ∧ seenIndent (x + 2 ^ 31) = true.
Proof.
  intros H. assert (Hbits : ∀ k, 29 ≤ k < 31 → Z.land (x + 2 ^ 31) (2 ^ k) = 0).
  { intros k Hk. apply Z.bits_inj'. intros j Hj. rewrite Z.land_spec, Z.bits_0. destruct (decide (j = k)) as [->|]; [|rewrite Z.pow2_bits_false by done; apply andb_false_r].
    rewrite andb_false_iff. left. replace (x + 2 ^ 31) with (Z.lor (1 * 2 ^ 31) x) by (rewrite lor_mul_pow2; lia). rewrite Z.lor_spec, orb_false_iff. split.
    - change (1 * 2 ^ 31) with (2 ^ 31). apply Z.pow2_bits_false. lia.
    - rewrite Z.testbit_false by lia. rewrite Z.div_small; [done|]. split; [lia|]. apply Z.lt_le_trans with (2 ^ 29); [lia|]. apply Z.pow_le_mono_r; lia. }
  assert (Ha : isAlign (x + 2 ^ 31) = false) by (unfold isAlign; change relativeMask with (2 ^ 30); by rewrite Hbits).
  split_and!; [done| |].
  - unfold level. rewrite Ha. cbn [negb]. change signMask with (2 ^ 29). rewrite Hbits by lia. cbn [Z.eqb negb]. change dataMask with (2 ^ 29 - 1). rewrite land_pow2_pred by lia.
    replace (x + 2 ^ 31) with (x + 4 * 2 ^ 29) by lia. rewrite Z.mod_add, Z.mod_small by lia. unfold s32. rewrite Z.mod_small; lia.
  - unfold seenIndent. replace (x + 2 ^ 31) with (Z.lor (1 * 2 ^ 31) x) by (rewrite lor_mul_pow2; lia). change indentMask with (1 * 2 ^ 31). rewrite Z.land_lor_distr_l, Z.land_diag.
    apply negb_true_iff, Z.eqb_neq. intros E. apply Z.lor_eq_0_iff in E as [E _]. done.
Qed.

(** Levels from 0 on are kept; a negative level is read back as a large one. *)
Theorem indent_level v : - 2 ^ 29 ≤ v < 2 ^ 29 → level (indentLevel v) = if v <? 0 then v + 2 ^ 29 else v.
Proof.
  intros H. unfold indentLevel. rewrite setLevel_eq. pose proof (Z.mod_pos_bound v (2 ^ 29) ltac:(lia)) as Hm. rewrite (proj1 (proj2 (level_eq _ Hm))).
  destruct (Z.ltb_spec v 0).
  - rewrite <- (Z.mod_small (v + 2 ^ 29) (2 ^ 29)) by lia. replace (v + 2 ^ 29) with (v + 1 * 2 ^ 29) by lia. by rewrite Z.mod_add by lia.
  - apply Z.mod_small. lia.
Qed.

(** A token that is only inside of a production that decreases the indentation is indented by
    more than 500 million levels. *)
Theorem indent_decrease_wraps : level (applyParent new (mkIndent 0 1 indentDecrease) 0 0 0) = 2 ^ 29 - 1.
Proof. reflexivity. Qed.
End indent.

(** * Trees in the store of syntax nodes

    A tree in the store is where its parent pointers lead back and the cached lengths are right,
    where there are any.  Asking for lengths and leaves keeps that, and so does changing a leaf. *)

Import InfoNode.
Local Notation len := (Datatypes.length).

(** ** Trees *)

Local Unset Elimination Schemes.
Inductive tree :=
  | TLeaf (a : nat) (c : Z) (r : option Regex.Regex) (v : GcWchars)
  | TNode (a : nat) (c : Z) (p : Production) (ts : list tree).
Local Set Elimination Schemes.

Definition addrOf (t : tree) : nat := match t with TLeaf a _ _ _ | TNode a _ _ _ => a end.
Definition colorOf (t : tree) : Z := match t with TLeaf _ c _ _ | TNode _ c _ _ => c end.

Fixpoint addrs (t : tree) : list nat := match t with TLeaf a _ _ _ => [a] | TNode a _ _ ts => a :: concat (addrs <$> ts) end.
Fixpoint tlen (t : tree) : Z := match t with TLeaf _ _ _ v => Str.count v | TNode _ _ _ ts => foldr Z.add 0 (tlen <$> ts) end.
Fixpoint ttext (t : tree) : list Z := match t with TLeaf _ _ _ v => Str.body v | TNode _ _ _ ts => concat (ttext <$> ts) end.
Fixpoint height (t : tree) : nat := match t with TLeaf _ _ _ _ => 1 | TNode _ _ _ ts => S (foldr Nat.max 0 (height <$> ts))%nat end.

Section ind.
Context (P : tree → Prop) (Hleaf : ∀ a c r v, P (TLeaf a c r v)) (Hnode : ∀ a c p ts, Forall P ts → P (TNode a c p ts)).

Fixpoint tree_induction (t : tree) : P t :=
  match t with
  | TLeaf a c r v => Hleaf a c r v
  | TNode a c p ts => Hnode a c p ts ((fix go ts : Forall P ts := match ts with [] => Forall_nil_2 _ | t :: ts => Forall_cons_2 _ _ _ (tree_induction t) (go ts) end) ts)
  end.
End ind.

(** The cached length is [l], if there is one. *)
Definition cached (n : InfoNode) (l : Z) : Prop := Z.land (data n) lengthMask = lengthMask ∨ Z.land (data n) lengthMask = l.

Fixpoint repr (h : store) (par : option nat) (t : tree) : Prop :=
  match t with
  | TLeaf a c r v => ∃ n, h !! a = Some n ∧ parentNode n = par ∧ color n = c ∧ kind n = kLeaf r v ∧ cached n (tlen t)
  | TNode a c p ts => ∃ n ind, h !! a = Some n ∧ parentNode n = par ∧ color n = c ∧ kind n = kInternal p (Some ∘ addrOf <$> ts) ind ∧ cached n (tlen t) ∧
      foldr (λ t P, repr h (Some a) t ∧ P) True ts
  end.

Lemma repr_all h par ts : foldr (λ t P, repr h par t ∧ P) True ts ↔ Forall (repr h par) ts.
Proof. induction ts as [|t ts IH]; cbn; [done|]. by rewrite IH, Forall_cons. Qed.

Lemma addrOf_elem t : addrOf t ∈ addrs t.
Proof. destruct t; left. Qed.

Lemma tlen_nonneg t : 0 ≤ tlen t.
Proof.
  induction t as [a c r v|a c p ts IH] using tree_induction; cbn; [apply u32_range|]. induction IH as [|t ts Ht _ IH]; cbn in *; lia.
Qed.

Lemma addrs_child ts t y : t ∈ ts → y ∈ addrs t → y ∈ concat (addrs <$> ts).
Proof. intros Ht Hy. apply list_elem_of_In, in_concat. exists (addrs t). split; apply list_elem_of_In; [|done]. apply list_elem_of_fmap. eauto. Qed.

Lemma child_split ts t : t ∈ ts → NoDup (concat (addrs <$> ts)) → ∃ l1 l2, ts = l1 ++ t :: l2 ∧ NoDup (addrs t) ∧
  ∀ t' y, t' ∈ l1 ++ l2 → y ∈ addrs t' → y ∉ addrs t.
Proof.
  intros Ht Hnd. apply list_elem_of_split in Ht as (l1 & l2 & ->). exists l1, l2. rewrite fmap_app, concat_app in Hnd. cbn in Hnd.
  apply NoDup_app in Hnd as (_ & H1 & Hnd). apply NoDup_app in Hnd as (H2 & H3 & _). split_and!; [done|done|].
  intros t' y [Ht'|Ht']%elem_of_app Hy Hyt.
  - apply (H1 y); [by eapply addrs_child|]. apply elem_of_app. by left.
  - apply (H3 y Hyt). by eapply addrs_child.
Qed.

(** What is not there does not matter. *)
Lemma repr_frame h h' t : ∀ par, (∀ y, y ∈ addrs t → h' !! y = h !! y) → repr h par t → repr h' par t.
Proof.
  induction t as [a c r v|a c p ts IH] using tree_induction; intros par Hf; cbn.
  - intros (n & Hn & H). exists n. split; [|done]. rewrite Hf; [done|]. by left.
  - intros (n & ind & Hn & H1 & H2 & H3 & H4 & H5). exists n, ind. split_and!; try done; [rewrite Hf; [done|by left]|].
    apply repr_all. apply repr_all in H5. rewrite Forall_forall in *. intros t Ht. apply IH; [done| |by apply H5]. intros y Hy. apply Hf. right. by eapply addrs_child.
Qed.

Lemma getNode_Some h a n : h !! a = Some n → getNode h a = Ret n.
Proof. unfold getNode. by intros ->. Qed.

(** ** Packed data *)

Lemma land_masks d l : Z.land (Z.lor (Z.land d flagsMask) (Z.land l lengthMask)) lengthMask = Z.land l lengthMask.
Proof. rewrite Z.land_lor_distr_l, <- !Z.land_assoc, Z.land_diag. change (Z.land flagsMask lengthMask) with 0. by rewrite Z.land_0_r. Qed.

Lemma land_length l : 0 ≤ l < lengthMask → Z.land l lengthMask = l.
Proof. intros H. change lengthMask with (Z.ones 30). rewrite Z.land_ones by lia. apply Z.mod_small. unfold lengthMask in H. lia. Qed.

Lemma lor_length d : Z.land (Z.lor d lengthMask) lengthMask = lengthMask.
Proof. rewrite Z.land_lor_distr_l, Z.land_diag. apply Z.bits_inj'. intros k _. rewrite Z.lor_spec, Z.land_spec. by destruct (Z.testbit d k), (Z.testbit lengthMask k). Qed.

(** ** Lengths *)

Notation concatAddrs ts := (concat (addrs <$> ts)).
Notation children ts := (Some ∘ addrOf <$> ts).
Notation total ts := (foldr Z.add 0 (tlen <$> ts)).

(** A store with the same nodes but other caches, in the nodes [l]. *)
Definition same (l : list nat) (h h' : store) : Prop := len h' = len h ∧ ∀ y, y ∉ l → h' !! y = h !! y.

Lemma same_refl l h : same l h h.
Proof. by split. Qed.

Lemma same_trans l l' h h' h'' : l ⊆ l' → same l h h' → same l' h' h'' → same l' h h''.
Proof. intros Hl [H1 H2] [H3 H4]. split; [congruence|]. intros y Hy. rewrite H4 by done. apply H2. set_solver. Qed.

Lemma same_incl l l' h h' : l ⊆ l' → same l h h' → same l' h h'.
Proof. intros Hl [H1 H2]. split; [done|]. intros y Hy. apply H2. set_solver. Qed.

Lemma repr_same l h h' par t : same l h h' → addrs t ## l → repr h par t → repr h' par t.
Proof. intros [_ H] Hd. apply repr_frame. intros y Hy. apply H. set_solver. Qed.

Lemma sum_small ts t : t ∈ ts → tlen t ≤ total ts.
Proof.
  induction ts as [|x ts IH]; [by intros ?%not_elem_of_nil|]. intros [->|Ht]%elem_of_cons; cbn.
  - enough (0 ≤ total ts) by lia. clear IH. induction ts as [|y ts IH]; cbn; [lia|]. pose proof (tlen_nonneg y). lia.
  - pose proof (tlen_nonneg x). specialize (IH Ht). lia.
Qed.

Lemma tlens_nonneg ts : 0 ≤ total ts.
Proof. induction ts as [|x ts IH]; cbn; [lia|]. pose proof (tlen_nonneg x). lia. Qed.

Lemma height_child ts t : t ∈ ts → (height t ≤ foldr Nat.max 0 (height <$> ts))%nat.
Proof. induction ts as [|x ts IH]; [by intros ?%not_elem_of_nil|]. intros [->|Ht]%elem_of_cons; cbn; [lia|]. specialize (IH Ht). lia. Qed.

(** What a call for the lengths of a tree does. *)
Definition lengthOk (f : store → nat → outcome (store * Z)) (t : tree) : Prop := ∀ h par, repr h par t →
  returns (f h (addrOf t)) (λ '(h', l), l = tlen t ∧ repr h' par t ∧ same (addrs t) h h').

Lemma sumLengths_run f par ts : Forall (lengthOk f) ts → ∀ h s, Forall (repr h par) ts → NoDup (concatAddrs ts) → 0 ≤ s → s + total ts < 2 ^ 32 →
  returns (sumLengths f h (children ts) s) (λ '(h', l), l = s + total ts ∧ Forall (repr h' par) ts ∧ same (concatAddrs ts) h h').
Proof.
  induction 1 as [|t ts Ht _ IH]; intros h s Hr Hnd Hs Hlim; cbn.
  - split_and!; [lia|done|apply same_refl].
  - apply Forall_cons in Hr as [Hrt Hrs]. cbn in Hnd, Hlim. apply NoDup_app in Hnd as (Hnd1 & Hdis & Hnd2).
    pose proof (tlen_nonneg t). pose proof (tlens_nonneg ts). eapply returns_bind; [by apply (Ht h par)|]. intros [h1 l] (-> & Hr1 & Hs1).
    rewrite u32_small by (unfold is_u32; lia).
    assert (Hrs' : Forall (repr h1 par) ts).
    { rewrite Forall_forall in *. intros x Hx. eapply repr_same; [done| |by apply Hrs]. intros y Hy Hyt. apply (Hdis y Hyt). by eapply addrs_child. }
    eapply returns_mono; [apply (IH h1 (s + tlen t) Hrs' Hnd2); lia|]. intros [h2 l] (-> & Hr2 & Hs2). split_and!; [lia| |].
    + constructor; [|done]. eapply repr_same; [done| |done]. intros y Hyt Hy. by apply (Hdis y).
    + eapply same_trans; [|exact Hs1|]; [set_solver|]. eapply same_incl; [|exact Hs2]. set_solver.
Qed.

Lemma length_run t : ∀ fuel, NoDup (addrs t) → tlen t < lengthMask → (height t ≤ fuel)%nat → lengthOk (length fuel) t.
Proof.
  induction t as [a c r v|a c p ts IH] using tree_induction; intros [|fuel] Hnd Hl Hf h par Hr; try (cbn in Hf; lia).
  - destruct Hr as (n & Hn & Hp & Hc & Hk & Hca). cbn [length addrOf]. rewrite (getNode_Some _ _ _ Hn). cbn [mbind outcome_bind].
    pose proof (tlen_nonneg (TLeaf a c r v)) as H0. destruct (Z.eqb_spec (Z.land (data n) lengthMask) lengthMask) as [E|E].
    + rewrite Hk. unfold update. cbn [mbind outcome_bind]. rewrite (getNode_Some _ _ _ Hn). cbn [mbind outcome_bind]. cbn in H0, Hl. rewrite land_masks, (land_length (Str.count v)) by lia.
      cbn. split_and!; [done| |split; [apply length_insert|intros y Hy; rewrite list_lookup_insert_ne; [done|set_solver]]].
      eexists. split; [apply list_lookup_insert_eq; by eapply lookup_lt_Some|]. split_and!; try done. right. cbn. pose proof (land_masks (data n) (Str.count v)) as M. rewrite (land_length (Str.count v)) in M by lia. exact M.
    + destruct Hca as [|Hca]; [done|]. cbn. split_and!; [done| |apply same_refl]. exists n. split_and!; try done. by right.
  - destruct Hr as (n & ind & Hn & Hp & Hc & Hk & Hca & Hts). cbn [length addrOf]. rewrite (getNode_Some _ _ _ Hn). cbn [mbind outcome_bind].
    pose proof (tlen_nonneg (TNode a c p ts)) as H0. apply repr_all in Hts. cbn in Hnd. apply NoDup_cons in Hnd as [Ha Hnd].
    destruct (Z.eqb_spec (Z.land (data n) lengthMask) lengthMask) as [E|E].
    + rewrite Hk. cbn in H0, Hl.
      eapply returns_bind; [apply (sumLengths_run (length fuel) (Some a) ts); [|exact Hts|exact Hnd|lia|unfold lengthMask in *; lia]|].
      { rewrite Forall_forall in *. intros t Ht. apply IH; [done| |pose proof (sum_small ts t Ht); lia|pose proof (height_child ts t Ht); cbn in Hf; lia].
        by destruct (child_split _ _ Ht Hnd) as (? & ? & _ & ? & _). }
      intros [h1 l] (-> & Hr1 & Hs1). rewrite Z.add_0_l. unfold update.
      assert (Hn1 : h1 !! a = Some n) by (rewrite (proj2 Hs1); done). rewrite (getNode_Some _ _ _ Hn1). cbn [mbind outcome_bind]. rewrite land_masks, (land_length (total ts)) by lia.
      cbn. assert (Hs2 : same (a :: concatAddrs ts) h (<[a := setData n (Z.lor (Z.land (data n) flagsMask) (total ts))]> h1)).
      { split; [rewrite length_insert; apply Hs1|]. intros y Hy. rewrite list_lookup_insert_ne by set_solver. apply Hs1. set_solver. }
      split_and!; [done| |done]. eexists _, ind. split; [apply list_lookup_insert_eq; by eapply lookup_lt_Some|]. split_and!; try done.
      * right. cbn. pose proof (land_masks (data n) (total ts)) as M. rewrite (land_length (total ts)) in M by lia. exact M.
      * apply repr_all. rewrite Forall_forall in *. intros t Ht. eapply repr_frame; [|by apply Hr1]. intros y Hy. rewrite list_lookup_insert_ne; [done|]. intros ->. apply Ha. by eapply addrs_child.
    + destruct Hca as [|Hca]; [done|]. cbn. split_and!; [done| |apply same_refl]. exists n, ind. split_and!; try done; [by right|]. by apply repr_all.
Qed.

(** ** The text *)

Lemma toS_run t : ∀ fuel h par, repr h par t → (height t ≤ fuel)%nat → toS fuel h (addrOf t) = Ret (ttext t).
Proof.
  induction t as [a c r v|a c p ts IH] using tree_induction; intros [|fuel] h par Hr Hf; try (cbn in Hf; lia); cbn [toS addrOf].
  - destruct Hr as (n & Hn & _ & _ & Hk & _). rewrite (getNode_Some _ _ _ Hn). cbn [mbind outcome_bind]. by rewrite Hk.
  - destruct Hr as (n & ind & Hn & _ & _ & Hk & _ & Hts). rewrite (getNode_Some _ _ _ Hn). cbn [mbind outcome_bind]. rewrite Hk. apply repr_all in Hts. cbn in Hf.
    assert (Hh : (foldr Nat.max 0 (height <$> ts) ≤ fuel)%nat) by lia. clear Hk Hf. induction IH as [|t ts Ht _ IH]; [done|]. apply Forall_cons in Hts as [Hrt Hts]. cbn in Hh |- *.
    rewrite (Ht fuel h (Some a)) by (done || lia). cbn [mbind outcome_bind]. rewrite IH by (done || lia). done.
Qed.

(** ** Leaves *)

Fixpoint leaves (t : tree) : list (nat * GcWchars) := match t with TLeaf a _ _ v => [(a, v)] | TNode _ _ _ ts => concat (leaves <$> ts) end.

Definition leafLen (l : list (nat * GcWchars)) : Z := foldr Z.add 0 ((Str.count ∘ snd) <$> l).

Lemma leafLen_app l l' : leafLen (l ++ l') = leafLen l + leafLen l'.
Proof. unfold leafLen. induction l as [|x l IH]; [done|]. cbn in *. lia. Qed.

Lemma leafLen_tlen t : leafLen (leaves t) = tlen t.
Proof.
  induction t as [a c r v|a c p ts IH] using tree_induction; cbn; [unfold leafLen; cbn; lia|]. induction IH as [|t ts Ht _ IH]; [done|].
  change (leafLen (leaves t ++ concat (leaves <$> ts)) = tlen t + total ts). by rewrite leafLen_app, Ht, <- IH.
Qed.

(** The leaf that has the position [pos]. *)
Definition leafOf (l : list (nat * GcWchars)) (pos : Z) (a : nat) : Prop :=
  ∃ pre v post, l = pre ++ (a, v) :: post ∧ leafLen pre ≤ pos < leafLen pre + Str.count v.

Lemma leafOf_app_l l l' pos a : leafOf l pos a → leafOf (l ++ l') pos a.
Proof. intros (pre & v & post & -> & H). exists pre, v, (post ++ l'). split; [by rewrite <- app_assoc|done]. Qed.

Lemma leafOf_app_r l l' pos a : leafOf l' pos a → leafOf (l ++ l') (leafLen l + pos) a.
Proof. intros (pre & v & post & -> & H). exists (l ++ pre), v, post. split; [by rewrite <- app_assoc|]. rewrite leafLen_app. lia. Qed.

Definition leafOk (f : store → nat → Z → outcome (store * option nat)) (t : tree) : Prop := ∀ h par pos, repr h par t → 0 ≤ pos < tlen t →
  returns (f h (addrOf t) pos) (λ '(h', r), repr h' par t ∧ same (addrs t) h h' ∧ ∃ a, r = Some a ∧ leafOf (leaves t) pos a).

Lemma leafLoop_run f g par ts : Forall (lengthOk f) ts → Forall (leafOk g) ts → ∀ h pos, Forall (repr h par) ts → NoDup (concatAddrs ts) → 0 ≤ pos →
  returns (leafLoop f g h (children ts) pos) (λ '(h', r), Forall (repr h' par) ts ∧ same (concatAddrs ts) h h' ∧
    match r with Some a => pos < total ts ∧ leafOf (concat (leaves <$> ts)) pos a | None => total ts ≤ pos end).
Proof.
  induction 1 as [|t ts Ht _ IH]; intros Hg h pos Hr Hnd Hpos; cbn; [split_and!; [done|apply same_refl|lia]|].
  apply Forall_cons in Hg as [Hgt Hgs]. apply Forall_cons in Hr as [Hrt Hrs]. cbn in Hnd. apply NoDup_app in Hnd as (Hnd1 & Hdis & Hnd2).
  pose proof (tlens_nonneg ts). eapply returns_bind; [by apply (Ht h par)|]. intros [h1 l] (-> & Hr1 & Hs1).
  assert (Hother : ∀ h h', same (addrs t) h h' → Forall (repr h par) ts → Forall (repr h' par) ts).
  { intros x x' Hx. rewrite !Forall_forall. intros Hall s Hs. eapply repr_same; [done| |by apply Hall]. intros y Hy Hyt. apply (Hdis y Hyt). by eapply addrs_child. }
  destruct (Z.ltb_spec pos (tlen t)) as [Hlt|Hge].
  - eapply returns_mono; [by apply (Hgt h1 par)|]. intros [h2 r] (Hr2 & Hs2 & a & -> & Ha). split_and!.
    + constructor; [done|]. eauto.
    + eapply same_incl; [|by eapply same_trans]. set_solver.
    + lia.
    + by apply leafOf_app_l.
  - eapply returns_mono; [apply (IH Hgs h1 (pos - tlen t)); [by eapply Hother|done|lia]|]. intros [h2 r] (Hr2 & Hs2 & Hres). split_and!.
    + constructor; [|done]. eapply repr_same; [exact Hs2| |done]. intros y Hyt Hy. by apply (Hdis y).
    + eapply same_trans; [|exact Hs1|]; [set_solver|]. eapply same_incl; [|exact Hs2]. set_solver.
    + destruct r as [a|]; [|lia]. destruct Hres as [H1 H2]. split; [lia|]. apply (leafOf_app_r (leaves t)) in H2. rewrite leafLen_tlen in H2. by replace (tlen t + (pos - tlen t)) with pos in H2 by lia.
Qed.

Lemma leafAt_run t : ∀ fuel, NoDup (addrs t) → tlen t < lengthMask → (height t ≤ fuel)%nat → leafOk (leafAt fuel) t.
Proof.
  induction t as [a c r v|a c p ts IH] using tree_induction; intros [|fuel] Hnd Hl Hf h par pos Hr Hpos; try (cbn in Hf; lia); cbn [leafAt addrOf].
  - pose proof Hr as (n & Hn & _ & _ & Hk & _). rewrite (getNode_Some _ _ _ Hn). cbn [mbind outcome_bind]. rewrite Hk. cbn -[repr].
    split_and!; [done|apply same_refl|]. exists a. split; [done|]. exists [], v, []. cbn in *. split; [done|]. unfold leafLen. cbn. lia.
  - destruct Hr as (n & ind & Hn & Hp & Hc & Hk & Hca & Hts). rewrite (getNode_Some _ _ _ Hn). cbn [mbind outcome_bind]. rewrite Hk. apply repr_all in Hts.
    cbn in Hnd. apply NoDup_cons in Hnd as [Ha Hnd]. cbn in Hpos.
    assert (Hch : ∀ t, t ∈ ts → NoDup (addrs t) ∧ tlen t < lengthMask ∧ (height t ≤ fuel)%nat).
    { intros t Ht. split_and!; [by destruct (child_split _ _ Ht Hnd) as (? & ? & _ & ? & _)|pose proof (sum_small ts t Ht); cbn in Hl; lia|pose proof (height_child ts t Ht); cbn in Hf; lia]. }
    eapply returns_mono; [apply (leafLoop_run _ _ (Some a) ts)|].
    + apply Forall_forall. intros t Ht. by apply length_run; apply Hch.
    + apply Forall_forall. intros t Ht. rewrite Forall_forall in IH. by apply IH; [|apply Hch..].
    + exact Hts.
    + exact Hnd.
    + lia.
    + intros [h1 res] (Hr1 & Hs1 & Hres). split_and!; [|eapply same_incl; [|exact Hs1]; cbn; set_solver|destruct res as [x|]; [exists x; naive_solver|lia]].
      exists n, ind. split_and!; try done; [by rewrite (proj2 Hs1)|]. by apply repr_all.
Qed.

(** ** Changing a leaf *)

Fixpoint setText (x : nat) (v : GcWchars) (t : tree) : tree :=
  match t with
  | TLeaf a c r w => if decide (a = x) then TLeaf a c r v else t
  | TNode a c p ts => TNode a c p (setText x v <$> ts)
  end.

Lemma addrOf_setText x v t : addrOf (setText x v t) = addrOf t.
Proof. destruct t; cbn; [by case_decide|done]. Qed.

Lemma addrs_setText x v t : addrs (setText x v t) = addrs t.
Proof.
  induction t as [a c r w|a c p ts IH] using tree_induction; cbn; [by case_decide|]. f_equal. induction IH as [|t ts Ht _ IH]; [done|]. cbn. by rewrite Ht, IH.
Qed.

Lemma leaves_addrs t x w : (x, w) ∈ leaves t → x ∈ addrs t.
Proof.
  induction t as [a c r v|a c p ts IH] using tree_induction; cbn.
  - intros [= -> ->]%list_elem_of_singleton. by left.
  - intros H. right. apply list_elem_of_In, in_concat in H as (l & Hl & H). apply list_elem_of_In, list_elem_of_fmap in Hl as (t & -> & Ht).
    rewrite Forall_forall in IH. eapply addrs_child; [done|]. apply IH; [done|]. by apply list_elem_of_In.
Qed.

Lemma setText_id x v t : x ∉ addrs t → setText x v t = t.
Proof.
  induction t as [a c r w|a c p ts IH] using tree_induction; cbn; intros Hx.
  - rewrite decide_False; [done|]. set_solver.
  - f_equal. apply not_elem_of_cons in Hx as [_ Hx]. induction IH as [|t ts Ht _ IH]; [done|]. cbn in *. rewrite Ht, IH; [done|set_solver|set_solver].
Qed.

(** From a changed leaf, [invalidate] goes up to the root of a tree, and on from there; the tree
    has no wrong lengths then. *)
Lemma climb_run v t : ∀ h par x n r w, repr h par t → NoDup (addrs t) → h !! x = Some n → kind n = kLeaf r w → (x, w) ∈ leaves t →
  ∃ k h', (k ≤ height t)%nat ∧ repr h' par (setText x v t) ∧ same (addrs t) h h' ∧
    ∀ fuel, invalidate (k + fuel) (<[x := setKind n (kLeaf r v)]> h) x = match par with None => Ret h' | Some p => invalidate fuel h' p end.
Proof.
  induction t as [a c r0 w0|a c p ts IH] using tree_induction; intros h par x n r w Hr Hnd Hx Hk Hin; cbn in Hin.
  - apply list_elem_of_singleton in Hin as [= -> ->]. destruct Hr as (n' & Hn & Hp & Hc & Hk' & _). rewrite Hx in Hn. injection Hn as <-.
    rewrite Hk in Hk'. injection Hk' as ->. pose proof (lookup_lt_Some _ _ _ Hx) as Hlt.
    exists 1%nat, (<[a := mkNode par c (Z.lor (data n) lengthMask) (kLeaf r0 v)]> h). split_and!; [cbn; lia| | |].
    + cbn. rewrite decide_True by done. eexists. split; [by apply list_lookup_insert_eq|]. split_and!; try done. left. apply lor_length.
    + split; [apply length_insert|]. intros y Hy. rewrite list_lookup_insert_ne; [done|]. cbn in Hy. set_solver.
    + intros fuel. cbn [Nat.add invalidate]. unfold getNode. rewrite list_lookup_insert_eq by done. cbn. unfold setData, setKind. cbn.
      rewrite list_insert_insert_eq, Hp, Hc. by destruct par.
  - destruct Hr as (na & ind & Hna & Hp & Hc & Hka & Hca & Hts). apply repr_all in Hts. cbn in Hnd. apply NoDup_cons in Hnd as [Ha Hnd].
    apply list_elem_of_In, in_concat in Hin as (l & Hl & Hin). apply list_elem_of_In, list_elem_of_fmap in Hl as (t & -> & Ht). apply list_elem_of_In in Hin.
    destruct (child_split _ _ Ht Hnd) as (l1 & l2 & E & Hndt & Hdis). rewrite Forall_forall in IH, Hts.
    destruct (IH t Ht h (Some a) x n r w (Hts _ Ht) Hndt Hx Hk Hin) as (k & h1 & Hk1 & Hr1 & Hs1 & Hinv).
    assert (Hat : a ∉ addrs t) by (intros H; apply Ha; by eapply addrs_child). assert (Hna1 : h1 !! a = Some na) by (by rewrite (proj2 Hs1)).
    pose proof (lookup_lt_Some _ _ _ Hna1) as Hlt. set (h2 := <[a := setData na (Z.lor (data na) lengthMask)]> h1).
    assert (Hs2 : same (a :: addrs t) h h2).
    { split; [unfold h2; rewrite length_insert; apply Hs1|]. intros y Hy. unfold h2. rewrite list_lookup_insert_ne by set_solver. apply Hs1. set_solver. }
    exists (S k), h2. split_and!.
    + cbn. pose proof (height_child ts t Ht). lia.
    + cbn. eexists _, ind. split; [by apply list_lookup_insert_eq|]. split_and!; [done|done| |left; apply lor_length|].
      * cbn. rewrite Hka. f_equal. rewrite <- list_fmap_compose. apply list_fmap_ext. intros ? ? _. cbn. by rewrite addrOf_setText.
      * apply repr_all, Forall_forall. intros t' Ht'. apply list_elem_of_fmap in Ht' as (t0 & -> & Ht0). rewrite E in Ht0.
        assert (t0 = t ∨ t0 ∈ l1 ++ l2) as [->|Hother] by set_solver.
        -- eapply repr_frame; [|exact Hr1]. intros y Hy. unfold h2. rewrite list_lookup_insert_ne; [done|]. intros ->. apply Hat. by rewrite addrs_setText in Hy.
        -- rewrite setText_id by (intros Hx0; by eapply Hdis; [exact Hother|exact Hx0|eapply leaves_addrs]).
           eapply repr_same; [exact Hs2| |apply Hts; rewrite E; set_solver]. intros y Hy [->|Hy']%elem_of_cons; [|by eapply Hdis].
           apply Ha. eapply addrs_child; [|exact Hy]. rewrite E. set_solver.
    + eapply same_incl; [|exact Hs2]. intros y [->|Hy]%elem_of_cons; [by left|right]. by eapply addrs_child.
    + intros fuel. replace (S k + fuel)%nat with (k + S fuel)%nat by lia. rewrite Hinv. cbn [invalidate]. rewrite (getNode_Some _ _ _ Hna1). cbn [mbind outcome_bind]. fold h2. by rewrite Hp.
Qed.

Lemma setLeaf_run v t h x w fuel : repr h None t → NoDup (addrs t) → (x, w) ∈ leaves t → (height t ≤ fuel)%nat →
  returns (setLeaf fuel h x v) (λ h', repr h' None (setText x v t) ∧ same (addrs t) h h').
Proof.
  intros Hr Hnd Hin Hf.
  assert (Hn : ∃ n r, h !! x = Some n ∧ kind n = kLeaf r w).
  { revert Hr Hin. generalize (@None nat). clear. induction t as [a c r v|a c p ts IH] using tree_induction; intros par Hr Hin; cbn in Hin.
    - apply list_elem_of_singleton in Hin as [= -> ->]. destruct Hr as (n & Hn & _ & _ & Hk & _). eauto.
    - destruct Hr as (na & ind & _ & _ & _ & _ & _ & Hts). apply repr_all in Hts. apply list_elem_of_In, in_concat in Hin as (l & Hl & Hin).
      apply list_elem_of_In, list_elem_of_fmap in Hl as (t & -> & Ht). apply list_elem_of_In in Hin. rewrite Forall_forall in IH, Hts. eauto. }
  destruct Hn as (n & r & Hn & Hk). destruct (climb_run v t h None x n r w Hr Hnd Hn Hk Hin) as (k & h' & Hle & Hr' & Hs' & Hinv).
  unfold setLeaf, update. rewrite (getNode_Some _ _ _ Hn). cbn [mbind outcome_bind]. rewrite Hk. cbn [mbind outcome_bind].
  replace fuel with (k + (fuel - k))%nat by lia. by rewrite Hinv.
Qed.
