(* ===== verification/InfoTreeCorrect.v ===== *)
(** * The trees the parser makes

    Trees of states are derivations, and the tree of a text has all of it. *)

From stdpp Require Import base list numbers decidable option strings gmap.
From Stdlib Require Import ZArith Lia.
From S2P Require Import Prelude Utf Buffer BufferCorrect Str StrIter StrCorrect Regex RegexMatchCorrect Production Earley ProductionCorrect EarleyStateCorrect EarleyCorrect EarleyTextCorrect InfoNodeCorrect InfoNode.

(** * The syntax tree is a derivation of the text

    Following the pointers of a finished state ends, and makes a tree in the store whose
    internal nodes are productions of the grammar and whose leaves are the parts of the text
    that the tokens match. *)

Import StatePtr State Earley InfoTree.

Notation store := (list InfoNode.InfoNode).

(** ** Parse trees *)

Section ptree.
Context (G : nat → list Production) (u : list Z) (off : Z).

(** The tree of a token for the text from [i] to [j]. *)
Inductive ptree : Token → tree → Z → Z → Prop :=
  | pt_leaf t x i j a : asRegex t = Some x → textSpan u off x i j → ptree t (TLeaf a (color t) (Some x) (strData (slice u (i + off) (j - i)))) i j
  | pt_node t r i j a q ts cs : asRule t = Some r → q ∈ G r → expansion q ts → ptrees ts cs i j → ptree t (TNode a (color t) q cs) i j
with ptrees : list Token → list tree → Z → Z → Prop :=
  | pts_nil i : ptrees [] [] i i
  | pts_cons t ts c cs i m j : ptree t c i m → ptrees ts cs m j → ptrees (t :: ts) (c :: cs) i j.

Scheme ptree_mut := Minimality for ptree Sort Prop
  with ptrees_mut := Minimality for ptrees Sort Prop.
Combined Scheme ptree_ptrees_ind from ptree_mut, ptrees_mut.

Lemma ptrees_snoc ts cs t c i m j : ptrees ts cs i m → ptree t c m j → ptrees (ts ++ [t]) (cs ++ [c]) i j.
Proof. induction 1; intros Hc; cbn; econstructor; eauto. econstructor. Qed.

Lemma ptrees_app ts cs ts' cs' i m j : ptrees ts cs i m → ptrees ts' cs' m j → ptrees (ts ++ ts') (cs ++ cs') i j.
Proof. induction 1; intros Hc; cbn; [done|]. econstructor; eauto. Qed.

Lemma slice_app i m j : 0 ≤ i → i ≤ m ≤ j → j ≤ zlen u → slice u i (m - i) ++ slice u m (j - m) = slice u i (j - i).
Proof.
  intros Hi Hm Hj. unfold slice. replace (drop (Z.to_nat m) u) with (drop (Z.to_nat (m - i)) (drop (Z.to_nat i) u)) by (rewrite drop_drop; f_equal; lia).
  rewrite take_take_drop. f_equal. lia.
Qed.

(** A parse tree derives, and its text is the text. *)
Lemma ptree_spec : 0 ≤ off ≤ zlen u →
  (∀ t c i j, ptree t c i j → i ≤ j ∧ (i = j ∨ 0 ≤ i ∧ j ≤ zlen u - off) ∧ spans G (textSpan u off) [t] i j ∧ (0 ≤ i → ttext c = slice u (i + off) (j - i))) ∧
  (∀ ts cs i j, ptrees ts cs i j → i ≤ j ∧ (i = j ∨ 0 ≤ i ∧ j ≤ zlen u - off) ∧ spans G (textSpan u off) ts i j ∧ (0 ≤ i → concat (ttext <$> cs) = slice u (i + off) (j - i))).
Proof.
  intros Ho. apply ptree_ptrees_ind.
  - intros t x i j a Hx Hs. pose proof (textSpan_bounds u off x i j Hs) as [Hb _]. pose proof Hs as [Hi _]. split_and!; [lia|right; lia| |intros _; apply body_strData].
    eapply spans_regex; [done|done|constructor].
  - intros t r i j a q ts cs Hr Hq Hx _ (H1 & H2 & H3 & H4). split_and!; [done|done| |done]. eapply spans_rule; [done| |constructor]. by econstructor.
  - intros i. split_and!; [lia|by left|constructor|]. intros _. rewrite Z.sub_diag. done.
  - intros t ts c cs i m j _ (H1 & H2 & H3 & H4) _ (H5 & H6 & H7 & H8). split_and!; [lia|lia|by apply (spans_app _ _ [t] ts i m j)|].
    intros Hi. cbn. rewrite H4, H8 by lia. destruct (decide (i = j)) as [->|Hne]; [assert (m = j) as -> by lia; rewrite Z.sub_diag; done|].
    replace (m - i) with (m + off - (i + off)) by lia. replace (j - m) with (j + off - (m + off)) by lia. replace (j - i) with (j + off - (i + off)) by lia.
    apply slice_app; lia.
Qed.
End ptree.

(** ** The root of a tree *)

Definition recolor (t : tree) (c : Z) : tree := match t with TLeaf a _ r v => TLeaf a c r v | TNode a _ p ts => TNode a c p ts end.

Lemma addrs_recolor t c : addrs (recolor t c) = addrs t.
Proof. by destruct t. Qed.

Lemma repr_root h par t n : repr h par t → h !! addrOf t = Some n → NoDup (addrs t) → ∀ n', InfoNode.kind n' = InfoNode.kind n →
  Z.land (InfoNode.data n') InfoNode.lengthMask = Z.land (InfoNode.data n) InfoNode.lengthMask →
  repr (<[addrOf t := n']> h) (InfoNode.parentNode n') (recolor t (InfoNode.color n')).
Proof.
  intros Hr Hn Hnd n' Hk Hd. pose proof (lookup_lt_Some _ _ _ Hn) as Hlt. destruct t as [a c r v|a c p ts]; cbn in *.
  - destruct Hr as (m & Hm & _ & _ & Hk' & Hc). rewrite Hn in Hm. injection Hm as <-. exists n'. split; [by apply list_lookup_insert_eq|].
    split_and!; [done|done|congruence|]. unfold cached in *. by rewrite Hd.
  - destruct Hr as (m & ind & Hm & _ & _ & Hk' & Hc & Hts). rewrite Hn in Hm. injection Hm as <-. exists n', ind. split; [by apply list_lookup_insert_eq|].
    split_and!; [done|done|congruence|unfold cached in *; by rewrite Hd|]. apply repr_all in Hts. apply repr_all. apply NoDup_cons in Hnd as [Ha _].
    rewrite Forall_forall in *. intros t Ht. eapply repr_frame; [|by apply Hts]. intros y Hy. rewrite list_lookup_insert_ne; [done|]. intros ->. apply Ha. by eapply addrs_child.
Qed.

Lemma repr_lookup h par t : repr h par t → ∃ n, h !! addrOf t = Some n ∧ InfoNode.parentNode n = par ∧ InfoNode.color n = colorOf t.
Proof. destruct t; cbn; [intros (n & ? & ? & ? & _)|intros (n & ind & ? & ? & ? & _)]; eauto. Qed.

(** ** Making a node *)

(** Nodes were added after those of [h0]. *)
Definition later (h0 h : store) : Prop := (length h0 ≤ length h)%nat ∧ ∀ y, (y < length h0)%nat → h !! y = h0 !! y.

Lemma later_refl h : later h h.
Proof. by split. Qed.

Lemma later_trans h h' h'' : later h h' → later h' h'' → later h h''.
Proof. intros [H1 H2] [H3 H4]. split; [lia|]. intros y Hy. rewrite H4 by lia. by apply H2. Qed.

Lemma later_insert h0 h a n : later h0 h → (length h0 ≤ a)%nat → later h0 (<[a := n]> h).
Proof. intros [H1 H2] Ha. split; [by rewrite length_insert|]. intros y Hy. rewrite list_lookup_insert_ne by lia. by apply H2. Qed.

(** A new tree. *)
Definition fresh (h0 h : store) (t : tree) : Prop := NoDup (addrs t) ∧ ∀ y, y ∈ addrs t → (length h0 ≤ y < length h)%nat.

Lemma repr_insert h par t y n : repr h par t → y ∉ addrs t → repr (<[y := n]> h) par t.
Proof. intros Hr Hy. eapply repr_frame; [|exact Hr]. intros z Hz. rewrite list_lookup_insert_ne; [done|]. intros ->. done. Qed.

Lemma repr_later h0 h h' par t : repr h par t → later h h' → fresh h0 h t → repr h' par t.
Proof. intros Hr [_ Hl] [_ Hf]. eapply repr_frame; [|exact Hr]. intros y Hy. apply Hl. by apply Hf. Qed.

(** The node [a] of the production [p] has its last children, and [k] to go. *)
Record partial (h0 h : store) (p : Production) (k : nat) (done : list tree) : Prop := {
  pa_node : ∃ n ind, h !! length h0 = Some n ∧ InfoNode.parentNode n = None ∧ InfoNode.color n = InfoNode.tNone ∧
    InfoNode.kind n = InfoNode.kInternal p (replicate k None ++ children done) ind ∧ Z.land (InfoNode.data n) InfoNode.lengthMask = InfoNode.lengthMask;
  pa_children : Forall (repr h (Some (length h0))) done;
  pa_fresh : NoDup (concatAddrs done) ∧ ∀ y, y ∈ concatAddrs done → (length h0 < y < length h)%nat;
  pa_later : later h0 h;
}.

Lemma partial_full h0 h p done : partial h0 h p 0 done → repr h None (TNode (length h0) InfoNode.tNone p done) ∧ fresh h0 h (TNode (length h0) InfoNode.tNone p done).
Proof.
  intros [(n & ind & Hn & Hp & Hc & Hk & Hd) Hch [Hnd Hf] [Hl _]]. split.
  - exists n, ind. split_and!; try done; [by left|]. by apply repr_all.
  - split; cbn; [apply NoDup_cons; split; [|done]; intros Hin; apply Hf in Hin; lia|]. apply lookup_lt_Some in Hn.
    intros y [->|Hy]%elem_of_cons; [lia|]. apply Hf in Hy. lia.
Qed.

(** Changes of the node that keep what is known. *)
Lemma partial_insert h0 h p k done n ind : partial h0 h p k done → h !! length h0 = Some n →
  InfoNode.kind n = InfoNode.kInternal p (replicate k None ++ children done) ind →
  ∀ ind', partial h0 (<[length h0 := InfoNode.setKind n (InfoNode.kInternal p (replicate k None ++ children done) ind')]> h) p k done.
Proof.
  intros [(n0 & ind0 & Hn & Hp & Hc & Hk & Hd) Hch [Hnd Hf] Hl] Hn' Hk' ind'. rewrite Hn in Hn'. injection Hn' as <-. pose proof (lookup_lt_Some _ _ _ Hn) as Hlt. split.
  - eexists _, ind'. split; [by apply list_lookup_insert_eq|]. done.
  - rewrite Forall_forall in *. intros t Ht. apply repr_insert; [by apply Hch|]. intros Hin. pose proof (Hf _ (addrs_child _ _ _ Ht Hin)). lia.
  - split; [done|]. rewrite length_insert. done.
  - apply later_insert; [done|lia].
Qed.

Lemma indentAtState_run h0 h p k done at_ c : partial h0 h p k done →
  returns (indentAtState h (length h0) p at_ c) (λ h', partial h0 h' p k done ∧ length h' = length h).
Proof.
  intros Hp. pose proof (pa_node _ _ _ _ _ Hp) as (n & ind & Hn & _ & _ & Hk & _).
  assert (Hset : ∀ f, partial h0 (<[length h0 := setIndent n f]> h) p k done ∧ length (<[length h0 := setIndent n f]> h) = length h).
  { intros f. rewrite length_insert. split; [|done]. unfold setIndent. rewrite Hk. destruct ind as [i|]; [by eapply partial_insert|].
    rewrite list_insert_id by done. done. }
  unfold indentAtState, InfoNode.update. rewrite (getNode_Some _ _ _ Hn). cbn [mbind outcome_bind]. repeat case_match; try done; apply Hset.
Qed.

Lemma partial_later h0 h h1 p k done : partial h0 h p k done → later h h1 → partial h0 h1 p k done.
Proof.
  intros [(n & ind & Hn & H) Hch [Hnd Hf] Hl] Hl1. pose proof (lookup_lt_Some _ _ _ Hn) as Hlt. split.
  - exists n, ind. split; [|done]. by rewrite (proj2 Hl1).
  - rewrite Forall_forall in *. intros t Ht. eapply repr_frame; [|by apply Hch]. intros y Hy. apply (proj2 Hl1). by apply Hf, (addrs_child done t).
  - split; [done|]. intros y Hy. apply Hf in Hy. pose proof (proj1 Hl1). lia.
  - by eapply later_trans.
Qed.

Lemma insert_child k (b : nat) (l : list (option nat)) : <[Z.of_nat k := Some b]> (replicate (S k) None ++ l) = replicate k None ++ Some b :: l.
Proof.
  unfold insert, list_insertZ. rewrite decide_True by lia. rewrite Nat2Z.id, replicate_S_end, <- app_assoc. rewrite insert_app_r_alt by (rewrite length_replicate; lia).
  rewrite length_replicate, Nat.sub_diag. done.
Qed.

(** The next child is set. *)
Lemma attach_run h0 h h1 p k done t c : partial h0 h p (S k) done → repr h1 None t → later h h1 → fresh h h1 t →
  returns (h ← InfoNode.update h1 (addrOf t) (λ n, InfoNode.setColor n c); InfoNode.set (S (length h)) h (length h0) (Z.of_nat k) (addrOf t))
    (λ h', partial h0 h' p k (recolor t c :: done)).
Proof.
  intros Hp0 Hrt Hl1 [Hndt Hft]. pose proof (partial_later _ _ _ _ _ _ Hp0 Hl1) as [(n & ind & Hn & Hpn & Hcn & Hkn & Hdn) Hch [Hnd Hf] Hl].
  pose proof (pa_node _ _ _ _ _ Hp0) as (n0 & _ & Hn0 & _). apply lookup_lt_Some in Hn0. destruct (pa_fresh _ _ _ _ _ Hp0) as [_ Hf0].
  set (a := length h0) in *. set (b := addrOf t) in *. pose proof (repr_lookup _ _ _ Hrt) as (nb & Hnb & Hpb & Hcb). fold b in Hnb.
  pose proof (lookup_lt_Some _ _ _ Hn) as Hla. pose proof (lookup_lt_Some _ _ _ Hnb) as Hlb.
  assert (Hab : a ≠ b). { pose proof (Hft b (addrOf_elem t)). lia. }
  unfold InfoNode.update, InfoNode.set. rewrite (getNode_Some _ _ _ Hnb). cbn [mbind outcome_bind].
  rewrite (getNode_Some _ a n) by (by rewrite list_lookup_insert_ne by done). cbn [mbind outcome_bind]. rewrite Hkn.
  rewrite (proj2 (Z.ltb_lt _ _)) by (unfold zlen; rewrite length_app, length_replicate; lia). rewrite insert_child.
  set (n' := InfoNode.setKind n (InfoNode.kInternal p (replicate k None ++ Some b :: children done) ind)).
  unfold InfoNode.update. rewrite (getNode_Some _ a n) by (by rewrite list_lookup_insert_ne by done). cbn [mbind outcome_bind]. fold n'.
  rewrite (getNode_Some _ b (InfoNode.setColor nb c)) by (rewrite list_lookup_insert_ne by done; by rewrite list_lookup_insert_eq by done). cbn [mbind outcome_bind InfoNode.invalidate].
  set (nb' := InfoNode.setParent (InfoNode.setColor nb c) a). set (h4 := <[b := nb']> (<[a := n']> (<[b := InfoNode.setColor nb c]> h1))).
  assert (H4a : h4 !! a = Some n'). { unfold h4. rewrite list_lookup_insert_ne by done. rewrite list_lookup_insert_eq; [done|]. by rewrite length_insert. }
  assert (H4b : h4 !! b = Some nb'). { unfold h4. rewrite list_lookup_insert_eq; [done|]. by rewrite !length_insert. }
  assert (H4 : ∀ y, y ≠ a → y ≠ b → h4 !! y = h1 !! y). { intros y Ya Yb. unfold h4. by rewrite !list_lookup_insert_ne by done. }
  assert (H4l : length h4 = length h1) by (unfold h4; by rewrite !length_insert).
  rewrite (getNode_Some _ _ _ H4a). cbn [mbind outcome_bind]. change (InfoNode.parentNode n') with (InfoNode.parentNode n). rewrite Hpn. cbn [returns].
  assert (Hro : repr (<[b := nb']> h1) (Some a) (recolor t c)) by (apply (repr_root h1 None t nb Hrt Hnb Hndt nb'); done).
  split.
  - eexists _, ind. split; [apply list_lookup_insert_eq; by rewrite H4l|]. split_and!; [done|done| |apply lor_length].
    cbn. f_equal. f_equal. f_equal. by destruct t.
  - constructor.
    + apply repr_insert; [|rewrite addrs_recolor; intros Hin; apply Hft in Hin; lia]. eapply repr_frame; [|exact Hro]. intros y Hy. rewrite addrs_recolor in Hy.
      destruct (decide (y = b)) as [->|]; [rewrite H4b, list_lookup_insert_eq; done|]. rewrite list_lookup_insert_ne by done. apply H4; [|done]. apply Hft in Hy. lia.
    + rewrite Forall_forall in *. intros x Hx. pose proof (λ y Hy, Hf0 y (addrs_child _ x y Hx Hy)) as Hfx. apply repr_insert; [|intros Hin; apply Hfx in Hin; lia].
      eapply repr_frame; [|by apply Hch]. intros y Hy. apply H4; apply Hfx in Hy; [lia|]. pose proof (Hft b (addrOf_elem t)). lia.
  - cbn. rewrite addrs_recolor, length_insert, H4l. split.
    + apply NoDup_app. split_and!; [done| |done]. intros y Hy Hyd. apply Hft in Hy. apply Hf0 in Hyd. lia.
    + intros y [Hy|Hy]%elem_of_app; [apply Hft in Hy; lia|by apply Hf].
  - apply later_insert; [|done]. destruct Hl as [Hl2 Hl3]. split; [by rewrite H4l|]. intros y Hy. rewrite H4; [by apply Hl3|lia|]. pose proof (Hft b (addrOf_elem t)). lia.
Qed.

Lemma newNode_run h k : let '(h', a) := InfoNode.newNode h k in a = length h ∧ later h h' ∧ length h' = S (length h) ∧ h' !! a = Some (InfoNode.mkNode None InfoNode.tNone (Z.lor 0 InfoNode.lengthMask) k).
Proof.
  cbn. split_and!; [done|split; [rewrite length_app; lia|intros y Hy; by apply lookup_app_l]|rewrite length_app; cbn; lia|by apply list_lookup_middle].
Qed.

Lemma newLeaf_run h r v : let '(h', a) := InfoNode.newLeaf h r v in let t := TLeaf (length h) InfoNode.tNone r v in
  a = addrOf t ∧ repr h' None t ∧ later h h' ∧ fresh h h' t.
Proof.
  pose proof (newNode_run h (InfoNode.kLeaf r v)) as H. unfold InfoNode.newLeaf. destruct (InfoNode.newNode h (InfoNode.kLeaf r v)) as [h' a]. destruct H as (-> & Hl & Hlen & Hn).
  split_and!; [done| |done|split; [apply NoDup_singleton|]; intros y ->%list_elem_of_singleton; lia].
  eexists. split; [exact Hn|]. split_and!; try done. by left.
Qed.

Lemma delimiter_run h0 h t : repr h None t → later h0 h → fresh h0 h t →
  returns (InfoNode.setDelimiter h (addrOf t) true) (λ h', repr h' None t ∧ later h0 h' ∧ fresh h0 h' t).
Proof.
  intros Hr Hl [Hnd Hf]. pose proof (repr_lookup _ _ _ Hr) as (n & Hn & Hp & Hc). unfold InfoNode.setDelimiter, InfoNode.update.
  rewrite (getNode_Some _ _ _ Hn). cbn [mbind outcome_bind returns]. split_and!.
  - pose proof (repr_root h None t n Hr Hn Hnd (InfoNode.setData n (Z.lor (InfoNode.data n) InfoNode.delimMask)) eq_refl) as H. cbn in H. rewrite Hp, Hc in H.
    replace (recolor t (colorOf t)) with t in H by (by destruct t). apply H. rewrite Z.land_lor_distr_l. change (Z.land InfoNode.delimMask InfoNode.lengthMask) with 0. apply Z.lor_0_r.
  - apply later_insert; [done|]. by apply (Hf _ (addrOf_elem t)).
  - split; [done|]. by rewrite length_insert.
Qed.

(** ** The tree of a state *)

Section tree.
Context (S : setting) (depth : nat) (HS : okSetting S depth) (str : StrObj) (u : list Z) (off : Z) (P : Parser) (Hg : good S str off P).
Context (Es : tokenSpan S = textSpan u off) (En : n S = zlen u - off) (Hstr : units (sdata str) = u ++ [0]) (Hlen : zlen u < 2 ^ 32 - 2) (Hoff : 0 ≤ off ≤ zlen u).

Lemma text_count : scount (sdata str) = zlen u + 1.
Proof. unfold scount. by rewrite Hstr, zlen_app. Qed.

Lemma text_atEnd p : 0 ≤ p ≤ zlen u → Iter.atEnd (StrParts.posIter str p) = (p =? zlen u).
Proof.
  intros Hp. unfold Iter.atEnd. cbn. rewrite text_count. rewrite u32_small by (unfold is_u32; lia).
  destruct (Z.eqb_spec p (zlen u)), (Z.eqb_spec (p + 1) (zlen u + 1)); try done; lia.
Qed.

Lemma text_toPtr p : 0 ≤ p ≤ zlen u → StrParts.toPtr str (StrParts.posIter str p) = p.
Proof.
  intros Hp. unfold StrParts.toPtr. rewrite text_atEnd by done. destruct (Z.eqb_spec p (zlen u)) as [->|]; [rewrite text_count; lia|].
  cbn. by rewrite bool_decide_true.
Qed.

Lemma slice_term i n : 0 ≤ i → 0 ≤ n → i + n ≤ zlen u → slice (u ++ [0]) i n = slice u i n.
Proof. intros Hi Hn Hz. unfold slice, zlen in *. rewrite drop_app_le by lia. rewrite take_app_le; [done|]. rewrite length_drop. lia. Qed.

Lemma leafText_run m i : 0 ≤ m ≤ i → i ≤ n S → leafText P m i = Ret (strData (slice u (m + off) (i - m))).
Proof.
  intros Hm Hi. unfold leafText. rewrite (g_src _ _ _ _ Hg), (g_off _ _ _ _ Hg), !u32_small by (unfold is_u32; lia).
  destruct (decide (m = i)) as [->|Hne].
  - assert (E : Iter.eq (StrParts.posIter str (i + off)) (StrParts.posIter str (i + off)) = true).
    { unfold Iter.eq. destruct (Iter.atEnd _); cbn; [done|]. by rewrite bool_decide_true, Z.eqb_refl. }
    rewrite E, Z.sub_diag. done.
  - assert (E : Iter.eq (StrParts.posIter str (m + off)) (StrParts.posIter str (i + off)) = false).
    { unfold Iter.eq. rewrite !text_atEnd by lia. rewrite (proj2 (Z.eqb_neq (m + off) (zlen u))) by lia. cbn. destruct (Z.eqb_spec (i + off) (zlen u)); [done|]. rewrite (proj2 (Z.eqb_neq _ _)) by lia. by rewrite andb_false_r. }
    rewrite E. cbn [negb]. unfold StrParts.substr. rewrite !text_toPtr by lia. rewrite (proj2 (Z.ltb_ge _ _)) by lia. rewrite Hstr.
    rewrite fromRange_eq by (rewrite ?zlen_app; change (zlen [0]) with 1; lia). rewrite slice_term by lia. do 3 f_equal. lia.
Qed.

(** ** The states before a state *)

Inductive chain : State → nat → Prop :=
  | chain_first s : prev s = null → chain s 0
  | chain_next s m idx s' k : prev s = mkPtr m idx → 0 ≤ m ≤ n S → stAt P m !! idx = Some s' → chain s' k → chain s (Datatypes.S k).

Lemma chain_exists r : ∀ i s, 0 ≤ i ≤ n S → okState S P i s → (rankOf S s i ≤ r)%nat → ∃ k, chain s k ∧ (k ≤ rankOf S s i)%nat.
Proof.
  induction r as [|r IH]; intros i s Hi Hs Hr; destruct (state_links S depth HS str off P i s Hg Hi Hs) as [_ [E|(m & idx & s' & E & Hm & Hs' & Hlt)]];
    try (exists 0%nat; split; [by apply chain_first|lia]); [lia|].
  destruct (IH m s' Hm (state_known S str off _ _ _ _ Hg Hs') ltac:(lia)) as (k & Hk & Hle). exists (Datatypes.S k). split; [by eapply chain_next|lia].
Qed.

Lemma childCount_run s k : chain s k → ∀ fuel c, (k < fuel)%nat → 0 ≤ c → c + Z.of_nat k < 2 ^ 32 → childCount fuel P s c = Ret (c + Z.of_nat k).
Proof.
  induction 1 as [s E|s m idx s' k E Hm Hs' _ IH]; intros [|fuel] c Hf Hc Hlim; try lia; cbn [childCount]; rewrite E.
  - cbn. f_equal. lia.
  - rewrite (ptr_not_null S depth HS) by done. rewrite (state_run S str off P m idx s') by done. cbn [mbind outcome_bind]. rewrite u32_small by (unfold is_u32; lia).
    rewrite IH by lia. f_equal. lia.
Qed.

(** ** Making the children *)

Notation ptree := (ptree (G S) u off).
Notation ptrees := (ptrees (G S) u off).

(** How many children the root has. *)
Definition degree (t : tree) : nat := match t with TLeaf _ _ _ _ => 0 | TNode _ _ _ ts => length ts end.

(** A function that makes the trees of finished states with ranks below [r]. *)
Definition makes (rec : store → StatePtr → outcome (store * nat)) (r : nat) : Prop := ∀ h i c s rl, 0 ≤ i ≤ n S → stAt P i !! c = Some s →
  production s ∈ G S rl → finished (production s) (PIter.pos (pos s)) → (rankOf S s i < r)%nat →
  returns (rec h (mkPtr i c)) (λ '(h', a), ∃ t, a = addrOf t ∧ repr h' None t ∧ later h h' ∧ fresh h h' t ∧
    (∀ tok, asRule tok = Some rl → ptree tok (recolor t (color tok)) (from s) i) ∧ colorOf t = InfoNode.tNone ∧ (degree t < depth)%nat).

(** The tree of the token before a state: what the loop makes for the child. *)
Lemma child_run rec r i s t m idx s' h : makes rec r → 0 ≤ i ≤ n S → okState S P i s → (rankOf S s i ≤ r)%nat → prev s = mkPtr m idx → stAt P m !! idx = Some s' →
  tokenAt (production s') (PIter.pos (pos s')) = Some t →
  returns (if negb (StatePtr.eq (completed s) null) then
             '(h, child) ← rec h (completed s);
             h ← (if asDelim t then InfoNode.setDelimiter h child true else Ret h);
             Ret (h, child)
           else v ← leafText P m i; Ret (InfoNode.newLeaf h (asRegex t) v))
    (λ '(h', a), ∃ c, a = addrOf c ∧ repr h' None c ∧ later h h' ∧ fresh h h' c ∧ ptree t (recolor c (color t)) m i).
Proof.
  intros Hrec Hi Hs Hr Hprev Hs' Ht. pose proof (state_links S depth HS str off P i s Hg Hi Hs) as [Hcr _]. pose proof (st_link _ _ _ _ Hs) as Hl. rewrite Hprev in Hl.
  inversion Hl as [Hfi Hfr E1 E2|m' idx' pos0 t' x Hm Hk Ht' Hn Hx Hsp E1 E2|m' idx' pos0 t' rl q qpos c Hm Hk Ht' Hn Hx Hkc Hq Hfin E1 E2].
  - exfalso. pose proof (ptr_not_null S depth HS m idx) as Hnn.
    destruct (g_steps _ _ _ _ Hg) as (l & El & Hll & _). unfold stAt in Hs'. rewrite El in Hs'. destruct (l !! m) as [ss|] eqn:Em; [|by rewrite lookupZ_nil in Hs'].
    apply lookupZ_Some_lt in Em. specialize (Hnn ltac:(lia)). unfold StatePtr.eq, null in Hnn. cbn in Hnn. rewrite <- E1 in *. pose proof (ok_size _ _ HS).
    assert (1 ≤ Z.of_nat (capacity S)) by (unfold capacity, tokenCount; cbn; lia). nia.
  - subst m' idx'. cbn [StatePtr.eq]. change (StatePtr.eq null null) with true. cbn [negb].
    apply keyAt_Some in Hk as (s2 & Hs2 & Ek). rewrite Hs' in Hs2. injection Hs2 as <-. injection Ek as Ep Epos Ef. rewrite <- Ep, <- Epos in Ht'. rewrite Ht in Ht'. injection Ht' as <-.
    rewrite Es in Hsp. pose proof (textSpan_bounds u off x m i Hsp) as [Hmi _]. rewrite leafText_run by lia. cbn [mbind outcome_bind returns].
    pose proof (newLeaf_run h (asRegex t) (strData (slice u (m + off) (i - m)))) as H. destruct (InfoNode.newLeaf h (asRegex t) _) as [h' a]. destruct H as (H1 & H2 & H3 & H4).
    eexists. split_and!; [exact H1|done|done|done|]. cbn. rewrite Hx. by apply pt_leaf.
  - subst m' idx'. rewrite (ptr_not_null S depth HS) by done. cbn [negb].
    apply keyAt_Some in Hk as (s2 & Hs2 & Ek). rewrite Hs' in Hs2. injection Hs2 as <-. injection Ek as Ep Epos Ef. rewrite <- Ep, <- Epos in Ht'. rewrite Ht in Ht'. injection Ht' as <-.
    apply keyAt_Some in Hkc as (sc & Hsc & Ekc). injection Ekc as Eq Eqp Eqf.
    assert (Hrc : (rankOf S sc i < r)%nat).
    { rewrite <- E2 in Hcr. destruct Hcr as [Hcr|(i' & c' & sc' & Ecr & _ & Hsc' & Hlt)].
      - exfalso. pose proof (ptr_not_null S depth HS i c Hi) as Hnn. rewrite Hcr in Hnn. done.
      - injection Ecr as <- <-. rewrite Hsc in Hsc'. injection Hsc' as <-. lia. }
    eapply returns_bind; [apply (Hrec h i c sc rl Hi Hsc); [by rewrite Eq|by rewrite Eq, Eqp|exact Hrc]|]. intros [h1 a] (tc & -> & H1 & H2 & H3 & H4 & _).
    rewrite Eqf in H4. destruct (asDelim t).
    + eapply returns_bind; [by apply (delimiter_run h)|]. intros h2 (H5 & H6 & H7). apply returns_ret. exists tc. split_and!; auto.
    + cbn [mbind outcome_bind returns]. exists tc. split_and!; auto.
Qed.

Lemma state_inside m idx s : stAt P m !! idx = Some s → 0 ≤ m ≤ n S.
Proof.
  intros Hs. destruct (g_steps _ _ _ _ Hg) as (l & El & Hll & _). unfold stAt in Hs. rewrite El in Hs. destruct (l !! m) as [ss|] eqn:Em; [|by rewrite lookupZ_nil in Hs].
  apply lookupZ_Some_lt in Em. lia.
Qed.

Lemma ptr_inside m idx s : stAt P m !! idx = Some s → mkPtr m idx ≠ null.
Proof. intros Hs E. pose proof (ptr_not_null S depth HS m idx (state_inside _ _ _ Hs)) as H. rewrite E in H. done. Qed.

(** Where a state comes from. *)
Lemma prev_cases i s : okState S P i s → prev s = null ∨ ∃ m idx s', prev s = mkPtr m idx ∧ stAt P m !! idx = Some s'.
Proof.
  intros Hs. destruct (st_link _ _ _ _ Hs) as [|m idx pos0 t x Hm Hk|m idx pos0 t r q qpos c Hm Hk]; [by left|right..];
    apply keyAt_Some in Hk as (s' & Hs' & _); eauto.
Qed.

Lemma link_prev i s m idx s' : okState S P i s → prev s = mkPtr m idx → stAt P m !! idx = Some s' →
  ∃ t, production s' = production s ∧ from s' = from s ∧ tokenAt (production s) (PIter.pos (pos s')) = Some t ∧ next (production s) (PIter.pos (pos s')) (PIter.pos (pos s)).
Proof.
  intros Hs Hp Hs'. pose proof (st_link _ _ _ _ Hs) as Hl. rewrite Hp in Hl.
  assert (Hkey : ∀ pos0, keyAt P m idx = Some (production s, pos0, from s) → production s' = production s ∧ from s' = from s ∧ PIter.pos (pos s') = pos0).
  { intros pos0 Hk. unfold keyAt in Hk. rewrite Hs' in Hk. by injection Hk. }
  inversion Hl as [Hfi Hfr E1 E2|m' idx' pos0 t' x Hm Hk Ht' Hn Hx Hsp E1 E2|m' idx' pos0 t' rl q qpos c Hm Hk Ht' Hn Hx Hkc Hq Hfin E1 E2].
  - destruct (ptr_inside m idx s' Hs'). unfold null. congruence.
  - subst. destruct (Hkey _ Hk) as (A & B & C). exists t'. by rewrite C.
  - subst. destruct (Hkey _ Hk) as (A & B & C). exists t'. by rewrite C.
Qed.

Lemma link_none i s : okState S P i s → prev s = null → first (production s) (PIter.pos (pos s)) ∧ from s = i.
Proof.
  intros Hs Hp. pose proof (st_link _ _ _ _ Hs) as Hl. destruct Hl as [H1 H2|m idx pos0 t x Hm Hk|m idx pos0 t r q qpos c Hm Hk]; [done|..];
    apply keyAt_Some in Hk as (s' & Hs' & _); by destruct (ptr_inside m idx s' Hs').
Qed.

Context (Hdepth : Z.of_nat depth < 2 ^ 32).

Lemma childLoop_run rec r p : makes rec r → ∀ k s, chain s k → ∀ fuel i h0 h done, 0 ≤ i ≤ n S → okState S P i s → (rankOf S s i ≤ r)%nat → (k < fuel)%nat → (k < depth)%nat →
  production s = p → partial h0 h p k done →
  returns (childLoop rec fuel P h (length h0) p s i (Z.of_nat k)) (λ h', ∃ cs ts po0, partial h0 h' p 0 (cs ++ done) ∧
    first p po0 ∧ run p po0 ts (PIter.pos (pos s)) ∧ ptrees ts cs (from s) i ∧ length cs = k).
Proof.
  intros Hrec k s Hch. induction Hch as [s E|s m idx s' k E Hm Hs' _ IH]; intros [|fuel] i h0 h done Hi Hs Hr Hf Hk Hp Hpar; try lia; cbn [childLoop]; rewrite E.
  - cbn. destruct (link_none i s Hs E) as [Hfi Hfr]. exists [], [], (PIter.pos (pos s)). split_and!; [done|by rewrite <- Hp|constructor| |done]. rewrite Hfr. constructor.
  - destruct (link_prev i s m idx s' Hs E Hs') as (t & Ep & Ef & Ht & Hn). rewrite (ptr_not_null S depth HS) by done.
    rewrite (state_run S str off P m idx s') by done. cbn [mbind outcome_bind].
    assert (Htok : PIter.token (pos s') = Some t). { unfold tokenAt in Ht. rewrite <- Ep in Ht. unfold production in Ht. by destruct (pos s'). } rewrite Htok.
    eapply returns_bind; [by apply (indentAtState_run h0 h p (Datatypes.S k) done)|]. intros h1 [Hpar1 Hlen1]. cbn [step].
    eapply returns_bind; [apply (child_run rec r i s t m idx s' h1 Hrec Hi Hs Hr E Hs'); by rewrite Ep|]. intros [h2 a] (c & -> & Hrc & Hlc & Hfc & Hpt).
    replace (u32 (Z.of_nat (Datatypes.S k) - 1)) with (Z.of_nat k) by (rewrite u32_small; [lia|unfold is_u32; lia]).
    eapply returns_bind2; [by apply (attach_run h0 h1 h2 p k done c (color t))|]. intros h3 Hpar3.
    pose proof (state_links S depth HS str off P i s Hg Hi Hs) as [_ Hlinks]. destruct Hlinks as [E'|(m' & idx' & s2 & E' & _ & Hs2 & Hlt)]; [by rewrite E in E'; destruct (ptr_inside m idx s' Hs')|].
    rewrite E in E'. injection E' as <- <-. rewrite Hs' in Hs2. injection Hs2 as <-.
    eapply returns_mono; [apply (IH fuel m h0 h3 (recolor c (color t) :: done)); [done|by apply (state_known S str off P m idx)|lia|lia|lia|congruence|done]|].
    intros h4 (cs & ts & po0 & H1 & H2 & H3 & H4 & H5). exists (cs ++ [recolor c (color t)]), (ts ++ [t]), po0. split_and!.
    + by rewrite <- app_assoc.
    + done.
    + rewrite <- Hp in *. by eapply run_snoc.
    + rewrite <- Ef. by eapply ptrees_snoc.
    + rewrite length_app, H5. cbn. lia.
Qed.

Lemma infoTreeAt_run fuel : makes (infoTreeAt fuel P) fuel.
Proof.
  induction fuel as [|fuel IH]; intros h i c s rl Hi Hs Hq Hfin Hrank; [lia|]. cbn [infoTreeAt].
  pose proof (state_known S str off P i c s Hg Hs) as Ks. rewrite (state_run S str off P i c s) by done. cbn [mbind outcome_bind].
  destruct (chain_exists _ i s Hi Ks (le_n _)) as (k & Hk & Hkr). pose proof (ok_depth _ _ HS _ _ _ _ (st_known _ _ _ _ Ks) (st_item _ _ _ _ Ks)) as Hd. fold (rankOf S s i) in Hd.
  rewrite (childCount_run s k Hk) by lia. cbn [mbind outcome_bind]. rewrite Z.add_0_l. set (p := production s) in *.
  pose proof (newNode_run h (InfoNode.kInternal p (replicate (Z.to_nat (Z.of_nat k)) None) None)) as Hnew. unfold InfoNode.newInternal. rewrite Nat2Z.id in *.
  destruct (InfoNode.newNode h _) as [h1 a]. destruct Hnew as (-> & Hl1 & Hlen1 & Hn1).
  assert (Hpar : partial h h1 p k []).
  { split; [|constructor|split; [constructor|]; intros y Hy; by apply not_elem_of_nil in Hy|done]. eexists _, None. split; [exact Hn1|]. cbn. rewrite app_nil_r. split_and!; done. }
  assert (Hind : returns (if hasIndent p then InfoNode.update h1 (length h) (λ n, InfoNode.setKind n (InfoNode.kInternal p (replicate k None) (Some (mkIndent 0 (Z.of_nat k) (indentType p))))) else Ret h1) (λ h', partial h h' p k [])).
  { destruct (hasIndent p); [|done]. unfold InfoNode.update. rewrite (getNode_Some _ _ _ Hn1). cbn [mbind outcome_bind returns].
    pose proof (partial_insert h h1 p k [] _ None Hpar Hn1) as H. cbn in H. rewrite app_nil_r in H. by apply H. }
  eapply returns_bind; [exact Hind|]. intros h2 Hpar2. cbn [step].
  eapply returns_bind; [apply (childLoop_run (infoTreeAt fuel P) fuel p IH k s Hk (Datatypes.S fuel) i h h2 []); try done; lia|].
  intros h3 (cs & ts & po0 & H1 & H2 & H3 & H4 & H5). apply returns_ret. rewrite app_nil_r in H1. destruct (partial_full _ _ _ _ H1) as [Hr3 Hf3].
  exists (TNode (length h) InfoNode.tNone p cs). split_and!; [done|done|apply H1|done| |done|cbn; lia]. intros tok Htok. cbn. eapply pt_node; [done|exact Hq| |exact H4].
  apply expansion_runs; [apply (ok_wf _ _ HS); right; eauto|]. eauto.
Qed.

(** The tree of the whole match. *)
Lemma infoTree_run root a c b h : rootP S = newProduction a [mkToken (tRule root) c] → parsed S root str off P b →
  returns (infoTree depth P h) (λ '(h', r), match r with
    | None => b = false ∧ h' = h
    | Some x => b = true ∧ 0 ≤ lastFinish P ≤ n S ∧ ∃ t, x = addrOf t ∧ repr h' None t ∧ later h h' ∧ fresh h h' t ∧ ptree (mkToken (tRule root) InfoNode.tNone) t 0 (lastFinish P) ∧ (degree t < depth)%nat
    end).
Proof.
  intros ER Hp. pose proof (finish_run S depth HS str off P Hg (pa_finish _ _ _ _ _ _ Hp)) as Hf. pose proof (pa_result _ _ _ _ _ _ Hp) as Eb. pose proof (ok_n _ _ HS).
  unfold infoTree. eapply returns_bind; [exact Hf|]. intros [s|] Hs; [|apply returns_ret; split; [|done]; rewrite Eb, Hs; apply Z.ltb_ge; lia].
  destruct Hs as (Hlf & _ & idx & Hs & Epr & Hfin). set (i := lastFinish P) in *. pose proof (state_known S str off P i idx s Hg Hs) as Ks.
  assert (Hpos : PIter.pos (pos s) = 1). { pose proof (st_pos _ _ _ _ Ks) as Hb. rewrite Epr, ER in Hb. unfold finished, PIter.end_ in Hfin. rewrite ER in Hfin. cbn in Hfin, Hb. apply Z.leb_le in Hfin. change (zlen [mkToken (tRule root) c]) with 1 in *. lia. }
  pose proof (st_root _ _ _ _ Ks Epr) as Hfr. pose proof (st_link _ _ _ _ Ks) as Hl. rewrite Epr, Hpos, Hfr in Hl.
  inversion Hl as [Hfi _ E1 E2|m idx' pos0 t x Hm Hk Ht Hn Hx Hsp E1 E2|m idx' pos0 t r q qpos cc Hm Hk Ht Hn Hx Hc Hq Hfq E1 E2].
  - rewrite ER in Hfi. destruct Hfi as [Hfi|Hfi]; cbn in Hfi; discriminate.
  - rewrite ER in Ht. apply token_at in Ht. pose proof (lookupZ_Some_lt _ _ _ Ht) as Hlt. cbn in Hlt. change (zlen [mkToken (tRule root) c]) with 1 in Hlt. assert (pos0 = 0) as -> by lia. injection Ht as <-. done.
  - rewrite ER in Ht. apply token_at in Ht. pose proof (lookupZ_Some_lt _ _ _ Ht) as Hlt. cbn in Hlt. change (zlen [mkToken (tRule root) c]) with 1 in Hlt. assert (pos0 = 0) as -> by lia. injection Ht as <-. injection Hx as <-.
    rewrite (ptr_not_null S depth HS) by done.
    assert (m = 0) as ->.
    { apply keyAt_Some in Hk as (s0 & Hs0 & Ek). pose proof (state_known S str off P m idx' s0 Hg Hs0) as K0. injection Ek as A B C. pose proof (st_item _ _ _ _ K0) as (po0 & ts & Hf0 & Hr0 & Hsp0).
      rewrite A, B, C, ER in *. destruct Hf0 as [Hf0|Hf0]; cbn in Hf0; [injection Hf0 as <-|discriminate]. inversion Hr0 as [|? t0 po1 ? ? Ht0 Hn0 Hr1]; subst; [by inversion Hsp0|].
      destruct Hn0 as [Hn0|Hn0]; cbn in Hn0; [injection Hn0 as <-|discriminate]. inversion Hr1 as [|? t1 po1 ? ? Ht1]; subst. apply token_at in Ht1. done. }
    apply keyAt_Some in Hc as (sc & Hsc & Ekc). injection Ekc as Eq Eqp Eqf. pose proof (state_known S str off P i cc sc Hg Hsc) as Kc.
    eapply returns_bind; [apply (infoTreeAt_run depth h i cc sc root Hlf Hsc); [by rewrite Eq|by rewrite Eq, Eqp|]|].
    { apply (ok_depth _ _ HS); apply Kc. }
    intros [h' x] (t & -> & H1 & H2 & H3 & H4 & H5 & H6). apply returns_ret. split; [rewrite Eb; apply Z.ltb_lt; lia|]. split; [done|]. exists t. split_and!; try done.
    specialize (H4 (mkToken (tRule root) InfoNode.tNone) eq_refl). rewrite Eqf in H4. cbn in H4. replace (recolor t InfoNode.tNone) with t in H4; [done|].
    destruct t; cbn in H5; by rewrite H5.
Qed.
End tree.

(** * The tree of all of a text

    [fullInfoTree] adds a leaf for what was not matched.  In a text without surrogate pairs the
    leaves of the result are the text from the offset on. *)

Import StatePtr State Earley InfoTree.

(** ** Sizes *)

Lemma height_addrs t : (height t ≤ length (addrs t))%nat.
Proof.
  induction t as [a c r v|a c p ts IH] using tree_induction; cbn; [lia|]. apply le_n_S. induction IH as [|t ts Ht _ IH]; cbn; [lia|]. rewrite length_app. cbn in IH. lia.
Qed.

Lemma fresh_height h0 h t : fresh h0 h t → (height t ≤ length h)%nat.
Proof.
  intros [Hnd Hf]. etransitivity; [apply height_addrs|]. assert (E : length (seq 0 (length h)) = length h) by apply length_seq. rewrite <- E. apply submseteq_length, NoDup_submseteq; [done|].
  intros y Hy. apply elem_of_seq. apply Hf in Hy. lia.
Qed.

(** ** Lengths of trees *)

Lemma leadings_0 w : Forall (λ c, utf16.leading c = false) w → Str.leadings w = 0.
Proof. induction 1 as [|c w Hc _ IH]; [done|]. cbn [Str.leadings]. rewrite Hc, IH. done. Qed.

Section length.
Context (G : nat → list Production) (u : list Z) (off : Z) (Hoff : 0 ≤ off ≤ zlen u) (Hu : Forall (λ c, utf16.leading c = false) u) (Hz : zlen u < 2 ^ 32 - 2).

Lemma count_strData w : Forall (λ c, utf16.leading c = false) w → zlen w < 2 ^ 32 - 2 → Str.count (strData w) = zlen w.
Proof.
  intros Hw Hl. unfold Str.count, scount, strData. cbn. rewrite leadings_0 by done. assert (E : zlen (w ++ [0]) = zlen w + 1) by (rewrite zlen_app; done). rewrite E.
  rewrite u32_small; [lia|]. pose proof (zlen_nonneg w). unfold is_u32. lia.
Qed.

Lemma ptree_length : (∀ t c i j, ptree G u off t c i j → tlen c = j - i) ∧ (∀ ts cs i j, ptrees G u off ts cs i j → foldr Z.add 0 (tlen <$> cs) = j - i).
Proof.
  apply ptree_ptrees_ind.
  - intros t x i j a _ Hs. pose proof (textSpan_bounds u off x i j Hs) as [Hb _]. pose proof Hs as [Hi _]. cbn.
    assert (El : zlen (slice u (i + off) (j - i)) = j - i) by (rewrite zlen_slice; lia). rewrite count_strData; [done| |lia].
    apply Forall_take, Forall_drop. exact Hu.
  - intros t r i j a q ts cs _ _ _ _ H. exact H.
  - intros i. cbn. lia.
  - intros t ts c cs i m j _ H1 _ H2. cbn. lia.
Qed.
End length.

(** ** The text of some nodes *)

Lemma toSLoop_run h ts fuel : Forall (λ t, ∃ par, repr h par t) ts → Forall (λ t, (height t ≤ fuel)%nat) ts →
  InfoNode.toSLoop (InfoNode.toS fuel h) (children ts) = Ret (concat (ttext <$> ts)).
Proof.
  induction 1 as [|t ts [par Ht] _ IH]; intros Hf; [done|]. apply Forall_cons in Hf as [Hf1 Hf2]. cbn. rewrite (toS_run t fuel h par) by done.
  cbn [mbind outcome_bind]. by rewrite IH.
Qed.

(** *** A copy of a root with one more leaf *)

Lemma copy_run h0 h a c p ts v : repr h None (TNode a c p ts) → fresh h0 h (TNode a c p ts) → zlen ts < 2 ^ 32 - 1 →
  returns ('(h, r) ← InfoNode.copyInternal h a (u32 (zlen ts + 1));
    let '(h, leaf) := InfoNode.newLeaf h None v in
    h ← InfoNode.set (S (length h)) h r (zlen ts) leaf;
    Ret (h, Some r)) (λ '(h', r), ∃ x, r = Some x ∧ InfoNode.toS (S (length h')) h' x = Ret (concat (ttext <$> ts) ++ Str.body v)).
Proof.
  intros Hr Hf Hz. pose proof (fresh_height _ _ _ Hf) as Hh. destruct Hf as [Hnd Hf]. pose proof (zlen_nonneg ts).
  destruct Hr as (n & ind & Hn & _ & _ & Hk & _ & Hts). apply repr_all in Hts. pose proof (lookup_lt_Some _ _ _ Hn) as Hlt.
  assert (El : zlen (children ts) = zlen ts) by (unfold zlen; by rewrite length_fmap).
  unfold InfoNode.copyInternal. rewrite (getNode_Some _ _ _ Hn). cbn [mbind outcome_bind]. rewrite Hk, El, u32_small by (unfold is_u32; lia).
  rewrite Z.min_r by lia. rewrite take_ge by (rewrite length_fmap; unfold zlen; lia). rewrite length_fmap.
  replace (Z.to_nat (zlen ts + 1) - length ts)%nat with 1%nat by (unfold zlen; lia). cbn [replicate].
  set (k := InfoNode.kInternal p (children ts ++ [None]) None). pose proof (newNode_run h k) as Hc. destruct (InfoNode.newNode h k) as [h1 r].
  destruct Hc as (-> & Hl1 & Hlen1 & Hn1). cbn [mbind outcome_bind]. pose proof (newLeaf_run h1 None v) as Hl. destruct (InfoNode.newLeaf h1 None v) as [h2 b].
  destruct Hl as (-> & Hrl & Hl2 & Hfl). cbn [addrOf] in *. pose proof Hrl as (nl & Hnl & Hpl & Hcl & Hkl & _). pose proof (lookup_lt_Some _ _ _ Hnl) as Hltl.
  assert (Hn2 : h2 !! length h = Some (InfoNode.mkNode None InfoNode.tNone (Z.lor 0 InfoNode.lengthMask) k)) by (rewrite (proj2 Hl2); [done|lia]).
  unfold InfoNode.set. rewrite (getNode_Some _ _ _ Hn2). cbn [mbind outcome_bind InfoNode.kind k].
  rewrite (proj2 (Z.ltb_lt _ _)) by (rewrite zlen_app, El; change (zlen [None]) with 1; lia).
  assert (Ei : <[zlen ts := Some (length h1)]> (children ts ++ [None]) = children ts ++ [Some (length h1)]).
  { unfold insert, list_insertZ. rewrite decide_True by done. rewrite insert_app_r_alt by (rewrite length_fmap; unfold zlen; lia). rewrite length_fmap. replace (Z.to_nat (zlen ts) - length ts)%nat with 0%nat by (unfold zlen; lia). done. }
  rewrite Ei. unfold InfoNode.update. rewrite (getNode_Some _ _ _ Hn2). cbn [mbind outcome_bind].
  set (n1 := InfoNode.setKind _ _). rewrite (getNode_Some _ (length h1) nl) by (rewrite list_lookup_insert_ne by lia; done). cbn [mbind outcome_bind InfoNode.invalidate].
  rewrite (getNode_Some _ (length h) n1) by (rewrite list_lookup_insert_ne by lia; rewrite list_lookup_insert_eq by lia; done). cbn [mbind outcome_bind InfoNode.parentNode n1 InfoNode.setKind returns].
  set (h5 := <[length h := _]> _). exists (length h). split; [done|].
  assert (H5 : ∀ y, y ≠ length h → y ≠ length h1 → h5 !! y = h2 !! y) by (intros y Y1 Y2; unfold h5; by rewrite !list_lookup_insert_ne by done).
  assert (H5l : length h5 = length h2) by (unfold h5; by rewrite !length_insert).
  cbn [InfoNode.toS]. rewrite (getNode_Some h5 (length h) (InfoNode.setData n1 (Z.lor (InfoNode.data n1) InfoNode.lengthMask))).
  2:{ unfold h5. apply list_lookup_insert_eq. rewrite !length_insert. lia. }
  cbn [mbind outcome_bind InfoNode.kind InfoNode.setData n1 InfoNode.setKind].
  change (children ts ++ [Some (length h1)]) with (children ts ++ children [TLeaf (length h1) InfoNode.tNone None v]). rewrite <- (fmap_app (Some ∘ addrOf)).
  rewrite toSLoop_run.
  - by rewrite fmap_app, concat_app; cbn; rewrite app_nil_r.
  - apply Forall_app. split.
    + rewrite Forall_forall in *. intros t Ht. exists (Some a). eapply repr_frame; [|by apply Hts]. intros y Hy.
      assert (y < length h)%nat by (apply Hf; cbn; right; by eapply addrs_child). rewrite H5 by lia. rewrite (proj2 Hl2) by lia. by apply (proj2 Hl1).
    + repeat constructor. exists (Some (length h)). eexists. split; [unfold h5; rewrite list_lookup_insert_ne by lia; apply list_lookup_insert_eq; rewrite !length_insert; lia|].
      split_and!; [done|done|done|]. destruct Hrl as (nl' & Hnl' & _ & _ & _ & Hca). rewrite Hnl in Hnl'. injection Hnl' as <-. exact Hca.
  - rewrite H5l. assert (length h2 > length h)%nat by lia. apply Forall_app. split; [|repeat constructor; cbn; lia].
    apply Forall_forall. intros t Ht. pose proof (height_child ts t Ht). cbn in Hh. lia.
Qed.

(** *** All of the text *)

Lemma sliceUntilEnd u i : 0 ≤ i ≤ zlen u → slice u i (zlen u - i) = drop (Z.to_nat i) u.
Proof. intros Hi. unfold slice. apply take_ge. rewrite length_drop. unfold zlen in *. lia. Qed.

Lemma slice_then_rest u i j : 0 ≤ i → 0 ≤ j → i + j ≤ zlen u → slice u i j ++ drop (Z.to_nat (i + j)) u = drop (Z.to_nat i) u.
Proof.
  intros Hi Hj Hz. unfold slice. replace (Z.to_nat (i + j)) with (Z.to_nat i + Z.to_nat j)%nat by lia. rewrite <- drop_drop. apply take_drop.
Qed.

Section full.
Context (S : setting) (depth : nat) (HS : okSetting S depth) (str : StrObj) (u : list Z) (off : Z) (P : Parser) (Hg : good S str off P).
Context (Es : tokenSpan S = textSpan u off) (En : n S = zlen u - off) (Hstr : units (sdata str) = u ++ [0]) (Hlen : zlen u < InfoNode.lengthMask) (Hoff : 0 ≤ off ≤ zlen u).
Context (Hdepth : Z.of_nat depth < 2 ^ 32) (Hu : Forall (λ c, utf16.leading c = false) u).

Lemma substr_rest i : 0 ≤ i ≤ zlen u → StrParts.substr str (StrParts.posIter str i) Iter.end_ = Ret (strData (drop (Z.to_nat i) u)).
Proof.
  intros Hi. assert (Hl : zlen u < 2 ^ 32 - 2) by (unfold InfoNode.lengthMask in Hlen; lia). unfold StrParts.substr. rewrite (text_toPtr str u Hstr Hl) by done.
  assert (E : StrParts.toPtr str Iter.end_ = zlen u) by (unfold StrParts.toPtr; cbn; rewrite (text_count str u Hstr); lia). rewrite E.
  rewrite (proj2 (Z.ltb_ge _ _)) by lia. rewrite Hstr. rewrite fromRange_eq by (rewrite ?zlen_app; change (zlen [0]) with 1; lia).
  rewrite (slice_term u off Hoff) by lia. by rewrite sliceUntilEnd.
Qed.

Lemma fullInfoTree_run root a c b h : rootP S = newProduction a [mkToken (tRule root) c] → parsed S root str off P b →
  returns (fullInfoTree depth P h str off) (λ '(h', r), match r with
    | Some x => InfoNode.toS (Datatypes.S (length h')) h' x = Ret (drop (Z.to_nat off) u)
    | None => b = false ∧ off = zlen u
    end).
Proof.
  intros ER Hp. assert (Hl : zlen u < 2 ^ 32 - 2) by (unfold InfoNode.lengthMask in Hlen; lia).
  assert (Ec : Str.charCount (sdata str) = zlen u) by (unfold Str.charCount; rewrite (text_count str u Hstr), u32_small; [lia|unfold is_u32; lia]).
  unfold fullInfoTree. rewrite Ec.
  eapply returns_bind; [by apply (infoTree_run S depth HS str u off P Hg Es En Hstr Hl Hoff Hdepth root a c b h)|]. intros [h1 [x|]].
  - intros (Hb & Hlf & t & -> & Hr & Hlt & Hf & Hpt & Hdeg). destruct (ptree_spec (G S) u off Hoff) as [Hspec _]. destruct (Hspec _ _ _ _ Hpt) as (_ & _ & _ & Htext). specialize (Htext ltac:(lia)).
    destruct (ptree_length (G S) u off Hoff Hu Hl) as [Hlens _]. pose proof (Hlens _ _ _ _ Hpt) as Ht. rewrite Z.sub_0_r in Ht. rewrite Z.add_0_l, Z.sub_0_r in Htext. pose proof (fresh_height _ _ _ Hf) as Hh.
    assert (Hok : lengthOk (InfoNode.length (Datatypes.S (length h1))) t) by (apply length_run; [apply Hf|lia|lia]).
    eapply (returns_bind _ _ (λ '(h2, e), e = lastFinish P + off ∧ repr h2 None t ∧ fresh h h2 t)).
    { eapply returns_bind; [apply (Hok h1 None Hr)|]. intros [h2 l] (-> & Hr2 & Hs2). apply returns_ret. split_and!; [rewrite Ht, u32_small; [done|unfold is_u32; lia]|done|].
      destruct Hf as [Hnd Hf]. split; [done|]. rewrite (proj1 Hs2). done. }
    intros [h2 e] (-> & Hr2 & Hf2). unfold assert. rewrite (proj2 (Z.leb_le (lastFinish P + off) (zlen u))) by lia. cbn [mbind outcome_bind].
    destruct (Z.leb_spec (zlen u) (lastFinish P + off)) as [Hge|Hlt'].
    + apply returns_ret. rewrite (toS_run t _ h2 None Hr2) by (pose proof (fresh_height _ _ _ Hf2); lia). rewrite Htext. f_equal. rewrite <- sliceUntilEnd by lia. f_equal. lia.
    + destruct t as [a' c' r' v'|a' c' p' ts']; [inversion Hpt as [? ? ? ? ? Hx|]; subst; done|]. cbn [addrOf].
      pose proof Hr2 as (n & ind & Hn & _ & _ & Hk & _). rewrite (getNode_Some _ _ _ Hn). cbn [mbind outcome_bind]. rewrite Hk.
      assert (El : zlen (children ts') = zlen ts') by (unfold zlen; by rewrite length_fmap). rewrite El.
      rewrite substr_rest by lia. cbn [mbind outcome_bind].
      eapply returns_mono; [eapply (copy_run h h2 a' c' p' ts' (strData (drop (Z.to_nat (lastFinish P + off)) u)) Hr2 Hf2)|].
      * cbn in Hdeg. unfold zlen. lia.
      * intros [h3 r] (x & -> & Hx). rewrite Hx, body_strData. cbn in Htext. rewrite Htext. f_equal. rewrite (Z.add_comm (lastFinish P) off). apply slice_then_rest; lia.
  - intros [Hb ->]. cbn [mbind outcome_bind]. unfold assert. rewrite (proj2 (Z.leb_le off (zlen u))) by lia. cbn [mbind outcome_bind].
    destruct (Z.leb_spec (zlen u) off) as [Hge|Hlt']; [apply returns_ret; split; [done|lia]|]. cbn [mbind outcome_bind]. rewrite substr_rest by lia. cbn [mbind outcome_bind].
    pose proof (newLeaf_run h None (strData (drop (Z.to_nat off) u))) as H. destruct (InfoNode.newLeaf h None _) as [h2 x]. destruct H as (-> & Hr & _). apply returns_ret.
    rewrite (toS_run _ _ h2 None Hr) by (cbn; lia). cbn [ttext]. by rewrite body_strData.
Qed.
End full.
