(* ===== verification/EarleyTheorems.v ===== *)
(** * Properties of the Earley parser and of its syntax trees

    What a parse finds, the tree it makes and how the tree can be changed; and grammars and
    texts for which the code does not do that. *)

From stdpp Require Import base list numbers decidable option strings gmap.
From Stdlib Require Import ZArith Lia.
From S2P Require Import Prelude Utf Buffer BufferCorrect Str StrIter Regex Production Earley InfoNode StrCorrect RegexMatchCorrect RegexParseCorrect ProductionCorrect EarleyStateCorrect EarleyCorrect EarleyTextCorrect InfoNodeCorrect InfoTreeCorrect.

Import Earley.

(** When an insertion moves the values of the table, in the examples. *)
Definition neverMoves : gmap nat RuleInfo → nat → bool := λ _ _, false.

(** C3: [parse] returns, and tells whether the root rule matches the text from the start; the end
    of the match is the end of the longest part that the grammar derives, where tokens are the
    longest matches of their regular expressions.  [hasTree], [matchEnd] and [hasError] agree:
    there is no error exactly if the whole rest of the text can be derived.  What the parser
    remembers about rules stays true, so that it can be used again.

    The hypotheses ([canParse]): the productions are well-formed and have different addresses;
    no derivation contains itself, so no rule derives itself without a token in between and no
    token within a repetition matches the empty text ([levels]; otherwise see [earley_cycle]);
    what the parser remembers of empty rules is true ([nullInfo], otherwise see
    [earley_stale]); the text has characters below U+FFFF and there are fewer than 2^32
    possible states. *)
Theorem earley_parse moves P a root c str start u level K depth : canParse (rules P) a root c str (Iter.pos start) u level K depth →
  let D := derives (grammarOf (rules P)) (textSpan u (Iter.pos start)) root 0 in
  ∃ P' b e, parse moves depth P a root c str start = Ret (P', b) ∧ (b = true ↔ ∃ j, D j) ∧
    hasTree P' = Ret b ∧
    (b = true → D (lastFinish P') ∧ (∀ j, D j → j ≤ lastFinish P') ∧ matchEnd P' = Ret (StrParts.posIter str (Iter.pos start + lastFinish P'))) ∧
    hasError P' = Ret e ∧ (e = false ↔ D (zlen u - Iter.pos start)) ∧
    (∀ r, grammarOf (rules P') r = grammarOf (rules P) r) ∧ nullInfo (rules P').
Proof.
  intros H D. pose proof (canParse_run moves P a root c str start u level K depth H) as Hr. apply returns_exists in Hr as ([P' b] & E & Hp).
  pose proof (canParse_setting _ _ _ _ _ _ _ _ _ _ H) as HS. pose proof (cp_off _ _ _ _ _ _ _ _ _ _ H). pose proof (cp_len _ _ _ _ _ _ _ _ _ _ H).
  destruct (parsed_last _ _ HS _ _ _ _ _ Hp) as [Hlast Hex]. destruct (parsed_results _ _ HS _ _ _ _ _ Hp) as (Ht & Hend & e & He & Hee); [lia|cbn; lia|].
  pose proof (g_rules _ _ _ _ (pa_good _ _ _ _ _ _ Hp)) as HR.
  exists P', b, e. split_and!; [done|done|done| |done|done|by eapply okRules_grammar|by eapply okRules_nullInfo].
  intros Hb. destruct (Hlast Hb) as [A B]. split_and!; [done|done|by apply Hend].
Qed.

Lemma earley_parse_witness :
  let u := [97; 32; 43; 97] in
  let D := derives (grammarOf Sums.rules) (textSpan u 0) 1 0 in
  ∃ P' b e, parse neverMoves 10 Sums.parser 9 1 0 Sums.str (StrParts.begin Sums.str) = Ret (P', b) ∧ (b = true ↔ ∃ j, D j) ∧
    hasError P' = Ret e ∧ (e = false ↔ D 4) ∧ nullInfo (rules P').
Proof.
  destruct (earley_parse neverMoves Sums.parser 9 1 0 Sums.str (StrParts.begin Sums.str) Sums.text Sums.level 2 10 Sums.sums_canParse)
    as (P' & b & e & H1 & H2 & _ & _ & H3 & H4 & _ & H5). exists P', b, e. exact (conj H1 (conj H2 (conj H3 (conj H4 H5)))).
Defined.

(** C4: After a match [infoTree] returns a tree in the store, made of new nodes only, with all
    parent pointers and no wrong length; its internal nodes are productions of the grammar with
    an expansion as their children, its leaves are the texts that the tokens match, with the
    colors of the tokens, and the leaves together are the text that was matched.  The hypotheses are those of
    [earley_parse]. *)
Theorem earley_info_tree moves P a root c str start u level K depth : canParse (rules P) a root c str (Iter.pos start) u level K depth → Z.of_nat depth < 2 ^ 32 →
  ∃ P' b, parse moves depth P a root c str start = Ret (P', b) ∧ ∀ h, ∃ h' r, InfoTree.infoTree depth P' h = Ret (h', r) ∧ (b = false → r = None) ∧
    (b = true → ∃ t, r = Some (addrOf t) ∧ repr h' None t ∧ later h h' ∧ fresh h h' t ∧
      ptree (grammarOf (rules P)) u (Iter.pos start) (mkToken (tRule root) InfoNode.tNone) t 0 (lastFinish P') ∧
      InfoNode.toS (height t) h' (addrOf t) = Ret (slice u (Iter.pos start) (lastFinish P'))).
Proof.
  intros H Hd. pose proof (canParse_run moves P a root c str start u level K depth H) as Hr. apply returns_exists in Hr as ([P' b] & E & Hp).
  exists P', b. split; [done|]. intros h. pose proof (canParse_setting _ _ _ _ _ _ _ _ _ _ H) as HS. pose proof (cp_off _ _ _ _ _ _ _ _ _ _ H) as Ho.
  pose proof (infoTree_run _ _ HS str u (Iter.pos start) P' (pa_good _ _ _ _ _ _ Hp) eq_refl eq_refl (cp_text _ _ _ _ _ _ _ _ _ _ H) (cp_len _ _ _ _ _ _ _ _ _ _ H) Ho Hd root a c b h eq_refl Hp) as Ht.
  apply returns_exists in Ht as ([h' r] & E' & Ht). exists h', r. split; [done|]. destruct r as [x|].
  - destruct Ht as (-> & Hl & t & -> & H1 & H2 & H3 & H4 & _). split; [done|]. intros _. exists t. refine (conj eq_refl (conj H1 (conj H2 (conj H3 (conj H4 _))))).
    rewrite (toS_run t _ h' None H1) by lia. destruct (ptree_spec (G (settingOf (rules P) a root c u (Iter.pos start) level K)) u (Iter.pos start) Ho) as [Hs _].
    destruct (Hs _ _ _ _ H4) as (_ & _ & _ & Htx). rewrite Htx by lia. by rewrite Z.add_0_l, Z.sub_0_r.
  - destruct Ht as [-> ->]. by split.
Qed.

Lemma earley_info_tree_witness :
  ∃ P' b, parse neverMoves 10 Sums.parser 9 1 0 Sums.str (StrParts.begin Sums.str) = Ret (P', b) ∧ ∀ h, ∃ h' r, InfoTree.infoTree 10 P' h = Ret (h', r) ∧ (b = false → r = None).
Proof.
  destruct (earley_info_tree neverMoves Sums.parser 9 1 0 Sums.str (StrParts.begin Sums.str) Sums.text Sums.level 2 10 Sums.sums_canParse) as (P' & b & H1 & H2); [reflexivity|].
  exists P', b. split; [exact H1|]. intros h. destruct (H2 h) as (h' & r & H3 & H4 & _). exists h', r. exact (conj H3 H4).
Defined.

(** C21: In a text without surrogate pairs the leaves of the tree of [fullInfoTree] are together
    all of the text from the offset on, whether the root matched it, a part of it or nothing.
    The hypotheses are those of [earley_parse], and that the length of the text fits in the
    field of a node. *)
Theorem full_info_tree moves P a root c str start u level K depth : canParse (rules P) a root c str (Iter.pos start) u level K depth → Z.of_nat depth < 2 ^ 32 →
  Forall (λ c, utf16.leading c = false) u → zlen u < InfoNode.lengthMask →
  ∃ P' b, parse moves depth P a root c str start = Ret (P', b) ∧ ∀ h, ∃ h' r, InfoTree.fullInfoTree depth P' h str (Iter.pos start) = Ret (h', r) ∧
    match r with
    | Some x => InfoNode.toS (S (length h')) h' x = Ret (drop (Z.to_nat (Iter.pos start)) u)
    | None => b = false ∧ Iter.pos start = zlen u
    end.
Proof.
  intros H Hd Hu Hz. pose proof (canParse_run moves P a root c str start u level K depth H) as Hr. apply returns_exists in Hr as ([P' b] & E & Hp).
  exists P', b. split; [done|]. intros h. pose proof (canParse_setting _ _ _ _ _ _ _ _ _ _ H) as HS. pose proof (cp_off _ _ _ _ _ _ _ _ _ _ H) as Ho.
  pose proof (fullInfoTree_run _ _ HS str u (Iter.pos start) P' (pa_good _ _ _ _ _ _ Hp) eq_refl eq_refl (cp_text _ _ _ _ _ _ _ _ _ _ H) Hz Ho Hd Hu root a c b h eq_refl Hp) as Ht.
  apply returns_exists in Ht as ([h' r] & E' & Ht). exists h', r. split; [done|]. done.
Qed.

Lemma full_info_tree_witness :
  ∃ P' b, parse neverMoves 10 Sums.parser 9 1 0 Sums.str (StrParts.begin Sums.str) = Ret (P', b) ∧ ∀ h, ∃ h' r, InfoTree.fullInfoTree 10 P' h Sums.str 0 = Ret (h', r) ∧
    match r with Some x => InfoNode.toS (S (length h')) h' x = Ret Sums.text | None => b = false ∧ 0 = 4 end.
Proof.
  apply (full_info_tree neverMoves Sums.parser 9 1 0 Sums.str (StrParts.begin Sums.str) Sums.text Sums.level 2 10 Sums.sums_canParse); [reflexivity|repeat constructor|reflexivity].
Defined.

(** ** Changing a tree *)

Lemma height_setText x v t : height (setText x v t) = height t.
Proof.
  induction t as [a c r w|a c p ts IH] using tree_induction; cbn; [by case_decide|]. do 2 f_equal. induction IH as [|t ts Ht _ IH]; [done|]. cbn. by rewrite Ht, IH.
Qed.

(** C22: After [set] gave a leaf of a tree another text, the length of the root and the leaves at
    all positions are those of the changed tree, although lengths are cached all over the tree.
    The tree is one in the store with all parent pointers and no wrong length ([repr]), none
    of its nodes is in it twice, and the length of the new text fits in the field of a node. *)
Theorem info_tree_edit t h x w v fuel : repr h None t → NoDup (addrs t) → (x, w) ∈ leaves t → tlen (setText x v t) < InfoNode.lengthMask → (height t ≤ fuel)%nat →
  let t' := setText x v t in
  ∃ h1 h2, InfoNode.setLeaf fuel h x v = Ret h1 ∧ InfoNode.length fuel h1 (addrOf t) = Ret (h2, tlen t') ∧ repr h2 None t' ∧
    InfoNode.toS fuel h2 (addrOf t) = Ret (ttext t') ∧
    ∀ pos, 0 ≤ pos < tlen t' → ∃ h3 a, InfoNode.leafAt fuel h2 (addrOf t) pos = Ret (h3, Some a) ∧ repr h3 None t' ∧ leafOf (leaves t') pos a.
Proof.
  intros Hr Hnd Hx Hl Hf t'. pose proof (setLeaf_run v t h x w fuel Hr Hnd Hx Hf) as H1. apply returns_exists in H1 as (h1 & E1 & Hr1 & _).
  rewrite <- (addrOf_setText x v t). fold t'. fold t' in Hr1. assert (Hnd' : NoDup (addrs t')) by (unfold t'; by rewrite addrs_setText). assert (Hf' : (height t' ≤ fuel)%nat) by (unfold t'; by rewrite height_setText).
  pose proof (length_run t' fuel Hnd' Hl Hf' h1 None Hr1) as H2. apply returns_exists in H2 as ([h2 l] & E2 & -> & Hr2 & _).
  exists h1, h2. split_and!; [done|done|done|by apply (toS_run t' fuel h2 None)|]. intros pos Hpos.
  pose proof (leafAt_run t' fuel Hnd' Hl Hf' h2 None pos Hr2 Hpos) as H3. apply returns_exists in H3 as ([h3 r] & E3 & Hr3 & _ & a & -> & Ha). eauto.
Qed.

(** A root with the leaves [ab] and [c], with all lengths cached. *)
Definition exTree : tree := TNode 0 0 Sums.spaces [TLeaf 1 0 None (strData [97; 98]); TLeaf 2 0 None (strData [99])].
Definition exStore : list InfoNode.InfoNode :=
  [InfoNode.mkNode None 0 3 (InfoNode.kInternal Sums.spaces [Some 1%nat; Some 2%nat] None);
   InfoNode.mkNode (Some 0%nat) 0 2 (InfoNode.kLeaf None (strData [97; 98])); InfoNode.mkNode (Some 0%nat) 0 1 (InfoNode.kLeaf None (strData [99]))].

Lemma info_tree_edit_witness :
  ∃ h1 h2, InfoNode.setLeaf 2 exStore 1 (strData [100]) = Ret h1 ∧ InfoNode.length 2 h1 0 = Ret (h2, 2) ∧ InfoNode.toS 2 h2 0 = Ret [100; 99].
Proof.
  destruct (info_tree_edit exTree exStore 1 (strData [97; 98]) (strData [100]) 2) as (h1 & h2 & H1 & H2 & _ & H3 & _).
  - eexists _, None. split; [reflexivity|]. split; [reflexivity|]. split; [reflexivity|]. split; [reflexivity|]. split; [by right|].
    split; [|split; [|exact I]]; (eexists; split; [reflexivity|]; split; [reflexivity|]; split; [reflexivity|]; split; [reflexivity|]; by right).
  - repeat constructor; set_solver.
  - by left.
  - reflexivity.
  - cbn. lia.
  - exists h1, h2. exact (conj H1 (conj H2 H3)).
Defined.

(** ** What goes wrong *)

(** The rules [S -> A B A], [A -> "a"], [B -> ]. *)
Module Stale.
Definition a : Token := mkToken (tRule 2) 0.
Definition rules : Rules := mkRules (list_to_map
  [(1%nat, mkRuleInfo (Some [mkProduction 1 (Some 1%nat) None [a; mkToken (tRule 3) 0; a] 0 0 0 Rep.repNone 0 0 indentNone]) 2);
   (2%nat, mkRuleInfo (Some [mkProduction 2 (Some 2%nat) None [Sums.letter] 0 0 0 Rep.repNone 0 0 indentNone]) 2);
   (3%nat, mkRuleInfo (Some [mkProduction 3 (Some 3%nat) None [] 0 0 0 Rep.repNone 0 0 indentNone]) 2)]) 0.
Definition parser : Parser := mkParser rules None 0 (newProduction 0 []) None 0.
Definition empty : Production := mkProduction 4 (Some 2%nat) None [] 0 0 0 Rep.repNone 0 0 indentNone.
Definition str : StrObj := mkStrObj 7 (strData []).
Definition parse (P : Parser) (a : nat) : outcome (Parser * bool) := parse neverMoves 10 P a 1 0 str (StrParts.begin str).
End Stale.

(** Adding [A -> ] makes the empty text match, but not if the parser was used before: it
    remembers that [A] does not match the empty text. *)
Theorem earley_stale :
  (P ← addProduction neverMoves Stale.parser 2 Stale.empty; '(_, b) ← Stale.parse P 9; Ret b) = Ret true ∧
  ('(P, b) ← Stale.parse Stale.parser 9; P ← addProduction neverMoves P 2 Stale.empty; '(_, b') ← Stale.parse P 10; Ret (b, b')) = Ret (false, false).
Proof. vm_compute. done. Qed.

(** The rule [X -> ("a*")*]: a token that matches nothing is repeated. *)
Module Cycle.
Definition letters : Token := mkToken (tRegex (compiled [(Chr false 97, Many)])) 0.
Definition rules : Rules := mkRules {[1%nat := mkRuleInfo (Some [mkProduction 1 (Some 1%nat) None [letters] 0 0 1 Rep.repZeroPlus 0 0 indentNone]) 2]} 0.
Definition str : StrObj := mkStrObj 7 (strData [97]).
Definition result : outcome (Parser * bool) := parse neverMoves 10 (mkParser rules None 0 (newProduction 0 []) None 0) 9 1 0 str (StrParts.begin str).
Definition parser : Parser := match result with Ret (P, _) => P | _ => mkParser rules None 0 (newProduction 0 []) None 0 end.
End Cycle.

(** A state before itself. *)
Lemma childCount_cycle P s : StatePtr.eq (State.prev s) StatePtr.null = false → state P (State.prev s) = Ret s → ∀ fuel c, InfoTree.childCount fuel P s c = OutOfFuel.
Proof. intros H1 H2. induction fuel as [|fuel IH]; intros c; cbn [InfoTree.childCount]; [done|]. rewrite H1, H2. apply IH. Qed.

Lemma infoTree_cycle P s s1 s2 : finish P = Ret (Some s) → StatePtr.eq (State.completed s) StatePtr.null = false →
  state P (State.completed s) = Ret s1 → StatePtr.eq (State.prev s1) StatePtr.null = false → state P (State.prev s1) = Ret s2 →
  StatePtr.eq (State.prev s2) StatePtr.null = false → state P (State.prev s2) = Ret s2 → ∀ fuel h, InfoTree.infoTree fuel P h = OutOfFuel.
Proof.
  intros H1 H2 H3 H4 H5 H6 H7 [|fuel] h; unfold InfoTree.infoTree; rewrite H1; cbn [mbind outcome_bind]; rewrite H2; [done|].
  cbn [InfoTree.infoTreeAt]. rewrite H3. cbn [mbind outcome_bind InfoTree.childCount]. rewrite H4, H5. cbn [mbind outcome_bind]. by rewrite (childCount_cycle P s2 H6 H7).
Qed.

(** [parse] finds the match, but no number of steps is enough for the tree. *)
Theorem earley_cycle : ∃ P, Cycle.result = Ret (P, true) ∧ hasTree P = Ret true ∧ ∀ fuel h, InfoTree.infoTree fuel P h = OutOfFuel.
Proof.
  set (st ptr := match state Cycle.parser ptr with Ret s => s | _ => State.mkState (PIter.mkPIter Stale.empty 0) 0 ptr ptr end).
  set (s := match finish Cycle.parser with Ret (Some s) => s | _ => st StatePtr.null end).
  exists Cycle.parser. split; [vm_compute; reflexivity|]. split; [vm_compute; reflexivity|].
  apply (infoTree_cycle Cycle.parser s (st (State.completed s)) (st (State.prev (st (State.completed s))))); vm_compute; reflexivity.
Qed.

(** The rule [X -> ".*"]: in a text with a surrogate pair [fullInfoTree] takes a length in
    characters for one in units, and repeats the end of the text. *)
Module Wide.
Definition any : Token := mkToken (tRegex (compiled [(Any, Many)])) 0.
Definition rules : Rules := mkRules {[1%nat := mkRuleInfo (Some [mkProduction 1 (Some 1%nat) None [any] 0 0 0 Rep.repNone 0 0 indentNone]) 2]} 0.
Definition str : StrObj := mkStrObj 7 (strData [0xD83D; 0xDE00; 97]).
End Wide.

Theorem full_info_tree_surrogates :
  ('(P, b) ← parse neverMoves 10 (mkParser Wide.rules None 0 (newProduction 0 []) None 0) 9 1 0 Wide.str (StrParts.begin Wide.str);
   e ← hasError P; '(h, r) ← InfoTree.fullInfoTree 10 P [] Wide.str 0;
   match r with Some x => t ← InfoNode.toS 10 h x; Ret (e, t) | None => Fault end) = Ret (false, [0xD83D; 0xDE00; 97; 97]).
Proof. vm_compute. done. Qed.

(** The copy of a root shares its children, which keep the old root as their parent: when one of
    them is changed, the copy does not notice, and has the old length. *)
Theorem info_copy_stale :
  ('(h, r) ← InfoNode.copyInternal exStore 0 2; '(h, l1) ← InfoNode.length 3 h r;
   h ← InfoNode.setLeaf 3 h 1 (strData [100; 101; 102; 103]); '(h, l2) ← InfoNode.length 3 h r; t ← InfoNode.toS 3 h r; Ret (l1, l2, t)) =
  Ret (3, 3, [100; 101; 102; 103; 99]).
Proof. vm_compute. done. Qed.

(** After [clear], or before the first [parse], there is an error, but asking where it is or
    whether there is a tree reads the steps that are not there. *)
Theorem earley_cleared P : hasError (clear P) = Ret true ∧ errorPos (clear P) = Fault ∧ hasTree (clear P) = Fault.
Proof. done. Qed.
